(* ===== verification/_CoqProject ===== *)
-Q . S2P
Prelude.v
Slices.v
KvCache.v
KvFacts.v
KvMoves.v
KvPlans.v
Batch.v
KvArena.v
Backend.v
Graph.v
Allocator.v
AllocFacts.v
AllocLive.v
AllocWalk.v
TopoFacts.v
AllocPlace.v
AllocProps.v
KvRows.v
KvSteps.v
KvProps.v
KvReads.v
KvFindings.v
Gguf.v
GgufWrite.v
GgufLoad.v
GgufRound.v
GgufFiles.v
GgufSplit.v
GgufParts.v
GgufProps.v
GgufSafe.v
Utf8.v
Utf8Facts.v
KvSession.v
KvSessionFacts.v
SessionProps.v
Gbnf.v
Grammar.v
GrammarRuns.v
GrammarLang.v
GrammarConsume.v
GbnfFacts.v
GrammarIndex.v
GrammarMask.v
GrammarSessions.v
GrammarProps.v
Sampling.v
Spec.v
SpecFacts.v
Chat.v
ChatFacts.v
ChatKeep.v
ToyModel.v
ChatProps.v
ChatGrammar.v
KvFollow.v
BatchEngine.v
BatchRows.v
BatchTurns.v
BatchFacts.v
BatchTick.v
BatchAdmit.v
ToyBatch.v
BatchProps.v
BatchServe.v
BatchFlow.v
BatchLive.v
BatchLoop.v
Pretok.v
Nfc.v
VocabTrie.v
TokenText.v
Tokenizer.v
SpmMerge.v
Encode.v
TokenizerLoad.v
TokenizerFacts.v
TokenRound.v
ToyTokens.v
TokenProps.v
