(* ===== verification/Prelude.v ===== *)
(** * A verification development for minfer, a local LLM inference engine in Rust

    minfer loads a GGUF model, keeps the attention keys and values of many
    sequences in one arena of cells, runs the model's compute graph over
    batches of their tokens, and samples the next token, which a grammar may
    constrain.  The development models the parts of the program that decide
    something (where a row lives, which bytes a file holds, which token is
    allowed) and leaves the floating-point kernels alone.

    ** The parts and the files that model them

    - *Foundations.* This file: results that may panic, loops with [?],
      stable sorting.  [Slices]: [copy_within], [copy_from_slice], slice
      assignment on a [Vec].
    - *The KV cell store*, [src/graph/kvcache.rs].  [KvCache] has its state
      ([KvLayer], [SeqSlot], [KvCache]) and every operation; [KvFacts] the
      invariant [kv_wf]; [KvMoves] what a compaction move does to the run
      table; [KvPlans] that the plans [compaction_plan] makes are carried
      out; [KvSteps] the store as a state machine ([kv_step], [sound]);
      [KvReads] the attention windows, the cells stores go to, prefix
      sharing and session state; [KvFindings] runs of accepted operations
      that lose a row.
    - *KV session files*, the container of [src/graph/kvsession.rs] and
      [kv_save_with_host]/[kv_load_with_host] of [src/graph/alloc.rs].
      [KvSession] has the sink and source with their running checksum, the
      header, both directions of the record format and the two operations of
      the allocator; [KvSessionFacts] that what is put is taken back and
      that a changed file is refused; [SessionProps] the theorems.
    - *The KV arena*, the part of [src/graph/alloc.rs] that owns the K and V
      regions, with [copy_cells] of [src/graph/cpu_backend.rs].  [KvArena]
      has the operations over the store and a pool of buffers behind the
      interface [CellPool]/[CellPoolLaws], of which the CPU pool is an
      instance; [KvRows] follows the rows of every written position through
      the copies; [KvProps] has the theorems.
    - *The buffer allocator*, the rest of [src/graph/alloc.rs].  [Backend]
      has the handles of [src/graph/registry.rs], the element types of
      [src/graph/kvformat.rs], the interface [BufferPool]/[BufferPoolLaws]
      and the CPU's instance of it; [Graph] the compute graph of
      [src/graph/mod.rs] and its [topo_order]; [Allocator] the size classes
      and budgets of [src/graph/allocplan.rs] and the allocator itself:
      reservation table, accounts, the walk of [alloc_graph] that places
      inputs, views, in-place results and own buffers.  [AllocFacts] is the
      invariant of its tables, [AllocLive] which nodes may share a buffer
      and for how long a value is needed, [AllocWalk] what holds at every
      step of the walk and [AllocPlace] that every placement keeps it;
      [TopoFacts] is about [topo_order]; [AllocProps] has the theorems.
    - *Batches*, [src/graph/batch.rs]: [Batch].
    - *GGUF files*, [src/gguf.rs] and [src/gguf_write.rs].  [Gguf] is the
      parser, [GgufLoad] the loader with split files, [GgufWrite] the
      writer.  [GgufRound] reads back one encoded record, [GgufFiles] a
      whole file, [GgufSplit] and [GgufParts] a split; [GgufSafe] says what
      every accepted file satisfies; [GgufProps] has the theorems.
    - *Constrained decoding*, [src/grammar.rs].  [Utf8] has [decode_at] and
      [completion_range], [Utf8Facts] what they compute; [Gbnf] is the parser of
      grammar texts and [GbnfFacts] what it returns; [Grammar] compiles
      rules and runs them: [close], [step], [consume], [accept_token], the
      masks and the index of the vocabulary.  [GrammarLang] and
      [GrammarRuns] relate the programs to the language of the parsed rules,
      [GrammarConsume] the bytes of one token and of a run to that language,
      [GrammarIndex] and [GrammarMask] the masks to [accept_token];
      [GrammarSessions] is about [from_gbnf] and about runs of masks and
      tokens in any order; [GrammarProps] has the theorems.
    - *Chat*, [src/server/chat.rs] and [src/server/slot.rs] over
      [src/sampler.rs] and [src/spec.rs].  [Sampling] is the sampling
      pipeline around its float formulas and the scans for stop strings and
      whole characters; [Spec] a speculative round, and the interface
      [ModelDef] with its laws, what a forward promises the loops that call
      it; [Chat] a request on a slot, from the prefill to the last event,
      and the serial worker.  [SpecFacts] says what a round emits,
      [ChatFacts] what a request is answered ([serve], without caches and
      rounds), [ChatKeep] what every statement keeps; [ToyModel] is a small
      model for concrete runs; [ChatProps] has the theorems, and
      [ChatGrammar] those about the text a constrained request is sent.
    - *Continuous batching*, [src/server/batch.rs].  [BatchEngine] is the
      engine: slots over runs of one arena, admission, prefixes copied or
      shared from other slots, prompts fed in chunks with the other slots
      going on in between, and a step that carries the pending token of
      every slot in one forward.  [KvFollow] says what a caller that
      remembers the place of its runs may rely on, [BatchRows] what a
      batched forward promises ([BatchLaws]) and what the arena's operations
      do to the histories its runs hold; [BatchTurns] relates a run to the
      turn of [ChatFacts]; [BatchFacts] is the engine's invariant,
      [BatchTick] a step and [BatchAdmit] an admission; [ToyBatch] is a
      small batched model; [BatchProps] has the theorems.  [BatchServe] is
      [serve_loop] over it: the queue, its bound, the two stall limits;
      [BatchFlow] follows every request, [BatchLive] the work counter and
      the remaining steps, and [BatchLoop] has the theorems.
    - *The tokenizer*, [src/tokenizer.rs] and [src/tokenizer/nfc.rs].
      [Pretok] has the rules that cut a text, as a reference the regular
      expressions that document them, and that they agree.  [Nfc] is the
      normalization, [VocabTrie] the trie of entries, [TokenText] texts,
      bytes and the byte-level alphabet.  [Tokenizer] has the record and its
      engines (byte-pair encoding, RWKV, PLaMo-2, HybridDNA, WordPiece,
      unigram), [SpmMerge] SentencePiece with its queue of bigrams and the
      greedy merge it computes, [Encode] the loop over special tokens,
      decoding and the sequence breakers, and [TokenizerLoad] the load from
      a GGUF file, every refusal included.  [TokenizerFacts] says what a
      load leaves, [TokenRound] what comes back from what is emitted and
      what PLaMo-2's dynamic program computes; [ToyTokens] has small files;
      [TokenProps] the theorems.

    The parts meet where the code's do.  A session file is written from the
    rows and marks the arena's [snapshot_session] hands over, and loaded into a
    slot the arena restores; the allocator adds regions to that same arena.
    The arena calls the store for a plan, copies the rows, and applies the
    plan; the batch's positions go to the
    store's [store_cell] and [attn_map]; the loader calls the parser, and what
    the writer writes is what both read; the grammar engine calls the parser
    for its rules and [Utf8] for its bytes; a request compiles a grammar
    against the vocabulary, asks it for a mask before every token, and streams
    the text of the tokens it took.  The batch engine drives the arena through
    [kv_reserve_seq_with_defrag] and its companions and follows the moves they
    report; what it answers is compared with the serial worker of [Chat], whose
    sampling and flushing it shares.  The tokenizer is loaded from the metadata
    the parser returns; the chat takes [decode_bytes] and encoded prompts as
    arguments.

    ** How state and operations correspond

    A Rust struct is a [Record] with the source's field names; an enum is an
    [Inductive] with its variants.  A method that takes [&mut self] returns
    the new state beside its result, a fallible one a [res]; a panic (an index
    out of range, a failed [assert!], a division by zero) is [Panic], which
    nothing catches.  Error texts are left out where nothing reads them.  A
    [HashMap] or [HashSet] is a [gmap] or [gset], so nothing depends on its
    order; a [Vec] is a [list].

    The release build is modelled: [usize] has 64 bits, integer arithmetic
    wraps, [debug_assert!] does nothing.  In the parser and the writer every
    integer is a [Z] with its wrap-around written out.  In the KV store and in
    the grammar engine cells, positions, program counters and lengths are
    [nat]: they are bounded there by the arena's or the text's own size, and
    the one that is not ([MAX_REPEAT] and the digits of a repetition) is
    compared at its width; where the store adds a number its caller or a file
    gave (a resize, a removal, a saved state) the sum is the wrapping one
    ([usize_add]).  Element counts of buffers are [nat] too,
    their bytes are [N] and wrap.

    ** What the theorems show

    - *Batching changes nothing.*  Whatever comes when, a request the batch
      engine answers is told what the serial worker would tell it alone
      ([BatchProps.batch_answers_as_serial]); the serve loop loses nobody,
      first come is first served, a healthy engine never trips a stall limit,
      one that does leaves nobody waiting, and without arrivals the engine runs
      dry ([BatchLoop]); with more than sixteen slots a step is wrong, and a
      run shows how ([BatchProps.seventeenth_slot_repeats_its_token]).
    - *Rows survive.*  Compaction, resizing, reservation and copy-on-write on
      a sound arena keep every written position's K and V rows, under the
      conditions each theorem names ([KvProps]);
      reads and stores go to the right cells and nobody else's ([KvReads]);
      where that is false, the run of operations that shows it ([KvFindings]).
    - *Optimisations change nothing.*  A speculative request and a request
      that reuses a slot's rows are answered as the plain loop on a fresh slot
      would; the slots keep records that allow it, but for a prefill that
      panics; every turn ends ([ChatProps]); and what a client of a
      constrained request receives is whole characters, and a sentence when
      told [stop] ([ChatGrammar]).
    - *Text survives tokens.*  The scan of every rule is its regular
      expression; the test that skips normalization is exact; byte-level
      encoding and RWKV lose nothing, SentencePiece and PLaMo-2 only which
      spaces were [U+2581]; the stale entries of SentencePiece's queue do not matter,
      it is the greedy merge; PLaMo-2's cut is the cheapest; and two ways in
      which a file that loads makes [encode] panic or run for ever
      ([TokenProps]).
    - *Sessions survive a process.*  A session saved to a file loads into a
      fresh allocator with the same rows and bookkeeping, and a damaged file is
      refused ([SessionProps]).
    - *Values survive their readers.*  No node is given the buffer of a value
      somebody still reads, every window lies in its buffer, and the graph is
      ordered or a cycle named ([AllocProps]).
    - *Files round-trip.*  What is written, single or split, loads back; when
      writing succeeds, and what is in the file then ([GgufProps]); every
      accepted file is in bounds as far as [ggml_nbytes] measures, with the
      ways in which a malformed one escapes the checks ([GgufSafe]).
    - *Batches* are accepted exactly when well formed, and [out_rows] names
      the rows whose logits are read ([Batch]).
    - *Decoding is constrained.*  The text of an ended run is a sentence of
      the grammar; a refusal is justified; a mask has exactly the tokens that
      would be accepted; nothing panics; programs run their rules; the parser
      ends ([GrammarProps]).

    Each theorem with hypotheses is followed by a witness that applies it to a
    concrete arena, file, grammar, engine or tokenizer.

    ** Fuel and bounds

    Recursion that is structural in the source's data needs none.
    [Grammar.close] has the source's own budget of 65536 steps; [consume] and
    the memoised walk of a mask take at least a byte per round, so the length
    of the buffer is enough; the parser of a text of [n] characters is given
    [5 * n + 5], five mutually recursive calls between two characters, and
    [GrammarProps.parse_ends] proves that it never runs out; [parse_rules], [class_items] and
    [string_chars] take at least a character per round.  UTF-8 validation and
    decimal printing are given the length of what they read or print.
    [topo_order] takes every node from its queue once, so the number of nodes
    is enough; every round of [extend_through_views] raises one entry of a
    list of last uses, or stops, so its length is enough.  The generation loop
    of a slot of [n] rows is given [n + 1] iterations, and
    [ChatProps.generation_ends] proves that every turn ends within them.
    Prompts are fed in at most as many chunks as they have tokens; a step
    batches at most [MAX_BATCH] (16) rows; the stall limits are the source's
    own counts.  A run of the serve loop is a list of passes.  Splitting,
    merging, walking and the special-token loop take at least a character a
    turn; the queue of SentencePiece is given [3 * n] turns for [n] characters,
    and [SpmMerge.merge_queue_ok] proves that it is empty by then.  The
    special-token loop runs out of fuel ([StillRunning]) where the source does
    not come back either.  How often a canonical decomposition decomposes again
    is an argument.

    ** What is not modelled

    Floating-point arithmetic (the kernels, quantisation, RoPE, the formulas
    of the sampler, the adaptive draft depth) and with it [kv_rm]'s re-rotation
    of shifted rows; token scores are behind a class.  The models' forwards,
    which the theorems use through [ModelLaws] and [BatchLaws]; the CUDA and
    Metal backends, which are foreign calls; threads, sockets, HTTP, the
    supervision of the worker, metrics, the terminal and memory mapping; the
    batch engine's slot snapshots; the graph builder, the models built with it,
    the scheduler and its fusion passes; the Unicode data itself (categories,
    case, the generated tables of [src/tokenizer/nfc/tables.rs], which are
    classes with the laws the proofs need); chat templates and tool calls; the
    JSON-Schema front end of the grammar engine, which prints GBNF;
    environment variables (a flag read from one is an argument). *)
From stdpp Require Import base numbers list gmap option sorting.

(** ** Results

    A Rust function that returns [Result<A, E>] and may also panic is a
    function into [res E A].  [Panic] is an index or slice out of range, a
    failed [assert!], a division by zero: it is not an error value and no
    caller handles it. *)
Inductive res (E A : Type) : Type :=
| Ok (a : A)
| Err (e : E)
| Panic.
Arguments Ok {E A} a.
Arguments Err {E A} e.
Arguments Panic {E A}.

#[export] Instance res_ret E : MRet (res E) := λ A a, Ok a.
#[export] Instance res_bind E : MBind (res E) := λ A B f m,
  match m with
  | Ok a => f a
  | Err e => Err e
  | Panic => Panic
  end.
#[export] Instance res_fmap E : FMap (res E) := λ A B f m,
  match m with
  | Ok a => Ok (f a)
  | Err e => Err e
  | Panic => Panic
  end.

(** [Option::ok_or]: the error is given, a missing value becomes it. *)
Definition ok_or {E A} (o : option A) (e : E) : res E A :=
  match o with Some a => Ok a | None => Err e end.

(** An operation that panics when its result is [None]. *)
Definition or_panic {E A} (o : option A) : res E A :=
  match o with Some a => Ok a | None => Panic end.

(** [map_err]. *)
Definition map_err {E F A} (f : E → F) (m : res E A) : res F A :=
  match m with Ok a => Ok a | Err e => Err (f e) | Panic => Panic end.

Definition is_ok {E A} (m : res E A) : bool :=
  match m with Ok _ => true | _ => false end.

Lemma res_bind_ok {E A B} (m : res E A) (f : A → res E B) b :
  m ≫= f = Ok b ↔ ∃ a, m = Ok a ∧ f a = Ok b.
Proof. destruct m; simpl; naive_solver. Qed.

Lemma ok_or_ok {E A} (o : option A) (e : E) a : ok_or o e = Ok a ↔ o = Some a.
Proof. destruct o; simpl; naive_solver. Qed.

Lemma or_panic_ok {E A} (o : option A) a : or_panic (E:=E) o = Ok a ↔ o = Some a.
Proof. destruct o; simpl; naive_solver. Qed.

(** Monadic map over a list, left to right, stopping at the first failure:
    a [for] loop with [?] that collects its values. *)
Fixpoint try_map {E A B} (f : A → res E B) (l : list A) : res E (list B) :=
  match l with
  | [] => Ok []
  | x :: l => y ← f x; ys ← try_map f l; Ok (y :: ys)
  end.

Lemma try_map_ok {E A B} (f : A → res E B) l ys :
  try_map f l = Ok ys ↔ Forall2 (λ x y, f x = Ok y) l ys.
Proof.
  revert ys. induction l as [|x l IH]; intros ys; simpl.
  - split; [intros [= <-]; constructor|]. by inversion 1.
  - split.
    + intros (y & Hy & H)%res_bind_ok.
      apply res_bind_ok in H as (ys' & Hys & [= <-]).
      constructor; [done|]. by apply IH.
    + inversion 1 as [|? y ? ys' Hy Hys]; subst.
      rewrite Hy; simpl. apply IH in Hys. by rewrite Hys.
Qed.

Lemma try_map_total {E A B} (f : A → res E B) g l :
  (∀ x, x ∈ l → f x = Ok (g x)) → try_map f l = Ok (map g l).
Proof.
  induction l as [|x l IH]; intros H; simpl; [done|].
  rewrite H by set_solver; simpl. rewrite IH by set_solver. done.
Qed.

(** A [for] loop over state, left by the first failure. *)
Fixpoint for_each {S A E} (f : A → S → res E unit * S) (l : list A) (s : S) :
    res E unit * S :=
  match l with
  | [] => (Ok (), s)
  | x :: l =>
      match f x s with
      | (Ok _, s) => for_each f l s
      | r => r
      end
  end.

Lemma for_each_ext {S A E} (f g : A → S → res E unit * S) l :
  (∀ x, x ∈ l → ∀ s, f x s = g x s) → ∀ s, for_each f l s = for_each g l s.
Proof.
  induction l as [|x l IH]; intros H s; simpl; [done|].
  rewrite H by by left. destruct (g x s) as [[] ?]; [|done..].
  apply IH. intros y Hy. apply H. by right.
Qed.

(** ** Sorting

    Rust's [sort_by] is stable; with a comparator that is a total preorder
    its result is determined, and this insertion sort computes it.
    [le x y] is "the comparator does not answer [Greater]". *)
Section sort_by.
Context {A : Type} (le : A → A → bool).

Fixpoint insert_by (x : A) (l : list A) : list A :=
  match l with
  | [] => [x]
  | y :: l' => if le x y then x :: l else y :: insert_by x l'
  end.

Definition sort_by (l : list A) : list A := foldr insert_by [] l.

Lemma insert_by_perm x l : insert_by x l ≡ₚ x :: l.
Proof.
  induction l as [|y l IH]; simpl; [done|].
  destruct (le x y); [done|]. rewrite IH. apply Permutation_swap.
Qed.

Lemma sort_by_perm l : sort_by l ≡ₚ l.
Proof.
  induction l as [|x l IH]; simpl; [done|].
  by rewrite insert_by_perm, IH.
Qed.

Lemma elem_of_sort_by x l : x ∈ sort_by l ↔ x ∈ l.
Proof. by rewrite sort_by_perm. Qed.

Lemma length_sort_by l : length (sort_by l) = length l.
Proof. by rewrite sort_by_perm. Qed.

Context (le_total : ∀ x y, le x y = true ∨ le y x = true).
Context (le_trans : ∀ x y z, le x y = true → le y z = true → le x z = true).

Lemma insert_by_sorted x l :
  StronglySorted (λ a b, le a b = true) l →
  StronglySorted (λ a b, le a b = true) (insert_by x l).
Proof using le_total le_trans.
  induction 1 as [|y l Hl IH Hy]; simpl; [by repeat constructor|].
  destruct (le x y) eqn:Hxy.
  - constructor; [by constructor|]. constructor; [done|].
    eapply Forall_impl; [exact Hy|]; simpl; eauto.
  - constructor; [done|].
    assert (le y x = true) by (destruct (le_total x y); congruence).
    rewrite insert_by_perm. by constructor.
Qed.

Lemma sort_by_sorted l : StronglySorted (λ a b, le a b = true) (sort_by l).
Proof using le_total le_trans.
  induction l as [|x l IH]; simpl; [constructor|]. by apply insert_by_sorted.
Qed.

Lemma sort_by_id l :
  StronglySorted (λ a b, le a b = true) l → sort_by l = l.
Proof using.
  induction 1 as [|x l Hl IH Hx]; simpl; [done|].
  rewrite IH. destruct Hx as [|y l Hy _]; simpl; [done|]. by rewrite Hy.
Qed.
End sort_by.
