(* ===== verification/Slices.v ===== *)
(** * Slices

    The in-place slice operations the program uses on its [Vec]s:
    [copy_within] (a [memmove], which panics when a range is out of bounds),
    conditional fills of an index range, the ordered iteration of a
    [BTreeMap], and the search for the last element that satisfies a test. *)
From stdpp Require Import base numbers list gmap option sorting.
From S2P Require Import Prelude.

Section slices.
Context {A : Type}.
Implicit Types (l : list A).

(** [l.copy_within(s..e, d)]; [None] is the panic. *)
Definition copy_within (l : list A) (s e d : nat) : option (list A) :=
  if (s <=? e) && (e <=? length l) && (d + (e - s) <=? length l) then
    Some (take d l ++ take (e - s) (drop s l) ++ drop (d + (e - s)) l)
  else None.

Lemma copy_within_some l s e d :
  s ≤ e → e ≤ length l → d + (e - s) ≤ length l →
  copy_within l s e d =
    Some (take d l ++ take (e - s) (drop s l) ++ drop (d + (e - s)) l).
Proof.
  intros. unfold copy_within.
  rewrite !(proj2 (Nat.leb_le _ _)) by lia. done.
Qed.

Lemma copy_within_inv l s e d l' :
  copy_within l s e d = Some l' →
  s ≤ e ∧ e ≤ length l ∧ d + (e - s) ≤ length l ∧
  l' = take d l ++ take (e - s) (drop s l) ++ drop (d + (e - s)) l.
Proof.
  unfold copy_within. destruct (_ && _) eqn:H; [|done]. intros [= <-].
  rewrite !andb_true_iff, !Nat.leb_le in H. naive_solver.
Qed.

Lemma length_copy_within l s e d l' :
  copy_within l s e d = Some l' → length l' = length l.
Proof.
  intros (?&?&?&->)%copy_within_inv.
  rewrite !length_app, !length_take, !length_drop. lia.
Qed.

Lemma lookup_copy_within l s e d l' i :
  copy_within l s e d = Some l' →
  l' !! i = if decide (d ≤ i < d + (e - s)) then l !! (s + (i - d)) else l !! i.
Proof.
  intros (?&?&?&->)%copy_within_inv.
  case_decide as Hi.
  - rewrite lookup_app_r by (rewrite length_take; lia).
    rewrite length_take, Nat.min_l by lia.
    rewrite lookup_app_l by (rewrite length_take, length_drop; lia).
    rewrite lookup_take_lt, lookup_drop by lia. done.
  - destruct (decide (i < d)).
    + rewrite lookup_app_l by (rewrite length_take; lia).
      by rewrite lookup_take_lt by lia.
    + rewrite lookup_app_r by (rewrite length_take; lia).
      rewrite length_take, Nat.min_l by lia.
      rewrite lookup_app_r by (rewrite length_take, length_drop; lia).
      rewrite lookup_drop, length_take, length_drop.
      f_equal. lia.
Qed.

(** [for i in lo..hi { if test(i, l[i]) { l[i] = v } }], in bounds. *)
Definition fill_range (lo hi : nat) (test : nat → A → bool) (v : A) l : list A :=
  imap (λ i x, if (lo <=? i) && (i <? hi) && test i x then v else x) l.

Lemma length_fill_range lo hi test v l :
  length (fill_range lo hi test v l) = length l.
Proof. apply length_imap. Qed.

Lemma lookup_fill_range lo hi test v l i :
  fill_range lo hi test v l !! i =
    (λ x, if (lo <=? i) && (i <? hi) && test i x then v else x) <$> l !! i.
Proof. unfold fill_range. by rewrite list_lookup_imap. Qed.

(** [l.iter().rposition(test).map_or(0, |i| i + 1)]. *)
Fixpoint rposition_len (test : A → bool) l : nat :=
  match l with
  | [] => 0
  | x :: l =>
      match rposition_len test l with
      | 0 => if test x then 1 else 0
      | S n => S (S n)
      end
  end.

Lemma rposition_len_le test l : rposition_len test l ≤ length l.
Proof.
  induction l as [|x l IH]; simpl; [done|].
  destruct (rposition_len test l); [destruct (test x)|]; lia.
Qed.

Lemma rposition_len_after test l i x :
  rposition_len test l ≤ i → l !! i = Some x → test x = false.
Proof.
  revert i. induction l as [|y l IH]; intros i Hi Hx; [done|]; simpl in Hi.
  destruct (rposition_len test l) as [|n] eqn:Hn.
  - destruct i as [|i]; simpl in Hx.
    + destruct (test y) eqn:Hy; [lia|]. by simplify_eq.
    + apply (IH i); [lia|done].
  - destruct i as [|i]; [lia|]. apply (IH i); [lia|done].
Qed.

Lemma rposition_len_last test l n :
  rposition_len test l = S n → ∃ x, l !! n = Some x ∧ test x = true.
Proof.
  revert n. induction l as [|y l IH]; intros n; simpl; [done|].
  destruct (rposition_len test l) as [|m] eqn:Hm.
  - destruct (test y) eqn:Hy; [|done]. intros [= <-]. eauto.
  - intros [= <-]. destruct (IH m eq_refl) as (x&?&?). by exists x.
Qed.
End slices.

(** ** Ordered maps

    A [BTreeMap<u32, V>] (or [BTreeMap<usize, V>]) is a [gmap N V]; where the
    code iterates it, the keys come in ascending order. *)
Section ordered.
Context {V : Type}.
Implicit Types (m : gmap N V).

Definition key_le (a b : N * V) : bool := (a.1 <=? b.1)%N.

Definition in_order m : list (N * V) := sort_by key_le (map_to_list m).

Lemma elem_of_in_order m k v : (k, v) ∈ in_order m ↔ m !! k = Some v.
Proof. unfold in_order. by rewrite elem_of_sort_by, elem_of_map_to_list. Qed.

Lemma NoDup_in_order_keys m : NoDup (in_order m).*1.
Proof.
  unfold in_order. rewrite sort_by_perm. apply NoDup_fst_map_to_list.
Qed.

Lemma in_order_sorted m : StronglySorted (λ a b, key_le a b = true) (in_order m).
Proof.
  apply sort_by_sorted; unfold key_le; intros *; rewrite ?N.leb_le; lia.
Qed.

Lemma in_order_empty : in_order (∅ : gmap N V) = [].
Proof. unfold in_order. by rewrite map_to_list_empty. Qed.

Lemma list_to_map_in_order m : list_to_map (in_order m) = m.
Proof.
  apply map_eq. intros k. apply option_eq. intros v.
  rewrite <-elem_of_list_to_map by apply NoDup_in_order_keys.
  apply elem_of_in_order.
Qed.

Lemma in_order_perm m : in_order m ≡ₚ map_to_list m.
Proof. apply sort_by_perm. Qed.
End ordered.

(** A list of entries in ascending key order is the iteration of its map. *)
Lemma in_order_unique {V} (m : gmap N V) l :
  StronglySorted (λ a b, key_le a b = true) l → l ≡ₚ map_to_list m →
  l = in_order m.
Proof.
  intros Hs Hp.
  eapply StronglySorted_unique_strong; [|exact Hs|apply in_order_sorted|].
  - intros [k v] [k' v'] H1 H2 Hle Hge. unfold key_le in *. simpl in *.
    rewrite !N.leb_le in *. assert (k = k') as -> by lia. f_equal.
    apply elem_of_in_order in H2.
    rewrite Hp, elem_of_map_to_list in H1. congruence.
  - by rewrite in_order_perm.
Qed.

Lemma in_order_fmap {V U} (f : V → U) (m : gmap N V) :
  in_order (f <$> m) = map (λ p, (p.1, f p.2)) (in_order m).
Proof.
  symmetry. apply in_order_unique.
  - generalize (in_order_sorted m). induction 1 as [|p l Hl IH Hp]; simpl; constructor; [done|].
    apply Forall_map. eapply Forall_impl; [exact Hp|]. done.
  - rewrite map_to_list_fmap, in_order_perm. done.
Qed.

(** Apply a fallible update to every value of a map, all or nothing. *)
Definition update_all {V} (f : V → option V) (m : gmap N V) : option (gmap N V) :=
  if decide (map_Forall (λ _ v, is_Some (f v)) m) then Some (omap f m) else None.

Lemma lookup_update_all {V} (f : V → option V) (m m' : gmap N V) k :
  update_all f m = Some m' → m' !! k = m !! k ≫= f.
Proof.
  unfold update_all. case_decide; [|done]. intros [= <-]. by rewrite lookup_omap.
Qed.

Lemma update_all_some {V} (f : V → option V) (m m' : gmap N V) k v :
  update_all f m = Some m' → m !! k = Some v → is_Some (f v).
Proof. unfold update_all. case_decide as H; [|done]. intros _ Hk. by eapply H. Qed.

Lemma update_all_total {V} (f : V → option V) (g : V → V) (m : gmap N V) :
  (∀ k v, m !! k = Some v → f v = Some (g v)) → update_all f m = Some (g <$> m).
Proof.
  intros H. unfold update_all. rewrite decide_True.
  - f_equal. apply map_eq. intros k. rewrite lookup_omap, lookup_fmap.
    destruct (m !! k) eqn:Hk; simpl; [|done]. by eapply H.
  - intros k v Hk. eauto.
Qed.

Lemma dom_update_all {V} (f : V → option V) (m m' : gmap N V) :
  update_all f m = Some m' → dom m' = dom m.
Proof.
  intros H. apply set_eq. intros k. rewrite !elem_of_dom.
  rewrite (lookup_update_all _ _ _ _ H). destruct (m !! k) as [v|] eqn:Hk; simpl.
  - destruct (update_all_some _ _ _ _ _ H Hk) as [w Hw].
    rewrite Hw. split; eauto.
  - split; by intros [? ?].
Qed.
