(* ===== verification/KvCache.v ===== *)
(** * The KV cell store: [src/graph/kvcache.rs]

    The state ([KvLayer], [SeqSlot], [KvCache]) and every operation of the
    store, in the order of the source.  Cells, rows and positions are [nat]
    (they index the owner [Vec]s); sequence ids, layer numbers and counters are
    [N].  [debug_assert!]s are compiled out of the release build and do not
    appear.  An operation on [&mut self] that can fail returns its result
    together with the state it leaves behind. *)
From stdpp Require Import base numbers list gmap option sorting.
From S2P Require Import Prelude Slices.

(** ** State *)

Definition SEQ_MAIN : N := 0%N.
Definition FREE : N := 4294967295%N.
Definition KV_MAP_MAX_SPANS : nat := 4.

(** A buffer handle; [graph/mod.rs]. *)
Record BufRef := mkBufRef {
  br_backend : N; br_id : nat; br_offset : nat; br_len : nat
}.

Record KvLayer := mkKvLayer {
  lay_k : BufRef;
  lay_v : BufRef;
  lay_elems : nat;
  lay_n_ctx : nat;
  lay_n_embd : nat;
  lay_packed : bool;
  lay_owner : list N;
  lay_n_used : nat
}.

Record SharedPrefix := mkShared { sh_cell : nat; sh_rows : nat }.

Record SeqSlot := mkSlot {
  sl_start : nat;
  sl_cap : nat;
  sl_shared : SharedPrefix;
  sl_written : nat
}.

(** A span [(position base, first cell, length)]. *)
Abbreviation span := (nat * nat * nat)%type.

Record KvCache := mkKvCache {
  kv_layers : gmap N KvLayer;
  kv_identity : bool;
  kv_seqs : gmap N SeqSlot;
  kv_spans : gmap N (list span);
  kv_n_ctx : nat;
  kv_defrags : N;
  kv_cells_moved : N;
  kv_cows : N;
  kv_cow_cells : N
}.

#[export] Instance SharedPrefix_eq_dec : EqDecision SharedPrefix.
Proof. solve_decision. Defined.
#[export] Instance SeqSlot_eq_dec : EqDecision SeqSlot.
Proof. solve_decision. Defined.
#[export] Instance BufRef_eq_dec : EqDecision BufRef.
Proof. solve_decision. Defined.
#[export] Instance KvLayer_eq_dec : EqDecision KvLayer.
Proof. solve_decision. Defined.

(** Field updates. *)
Definition set_owner (o : list N) (l : KvLayer) : KvLayer :=
  mkKvLayer (lay_k l) (lay_v l) (lay_elems l) (lay_n_ctx l) (lay_n_embd l)
    (lay_packed l) o (lay_n_used l).
Definition set_n_used (n : nat) (l : KvLayer) : KvLayer :=
  mkKvLayer (lay_k l) (lay_v l) (lay_elems l) (lay_n_ctx l) (lay_n_embd l)
    (lay_packed l) (lay_owner l) n.
Definition set_start (x : nat) (s : SeqSlot) : SeqSlot :=
  mkSlot x (sl_cap s) (sl_shared s) (sl_written s).
Definition set_slot_cap (x : nat) (s : SeqSlot) : SeqSlot :=
  mkSlot (sl_start s) x (sl_shared s) (sl_written s).
Definition set_shared (x : SharedPrefix) (s : SeqSlot) : SeqSlot :=
  mkSlot (sl_start s) (sl_cap s) x (sl_written s).
Definition set_written (x : nat) (s : SeqSlot) : SeqSlot :=
  mkSlot (sl_start s) (sl_cap s) (sl_shared s) x.

Definition set_layers (x : gmap N KvLayer) (c : KvCache) : KvCache :=
  mkKvCache x (kv_identity c) (kv_seqs c) (kv_spans c) (kv_n_ctx c)
    (kv_defrags c) (kv_cells_moved c) (kv_cows c) (kv_cow_cells c).
Definition set_seqs (x : gmap N SeqSlot) (c : KvCache) : KvCache :=
  mkKvCache (kv_layers c) (kv_identity c) x (kv_spans c) (kv_n_ctx c)
    (kv_defrags c) (kv_cells_moved c) (kv_cows c) (kv_cow_cells c).
Definition set_spans (x : gmap N (list span)) (c : KvCache) : KvCache :=
  mkKvCache (kv_layers c) (kv_identity c) (kv_seqs c) x (kv_n_ctx c)
    (kv_defrags c) (kv_cells_moved c) (kv_cows c) (kv_cow_cells c).
Definition set_n_ctx (x : nat) (c : KvCache) : KvCache :=
  mkKvCache (kv_layers c) (kv_identity c) (kv_seqs c) (kv_spans c) x
    (kv_defrags c) (kv_cells_moved c) (kv_cows c) (kv_cow_cells c).

(** ** Errors: one constructor per refusal *)
Inductive KvError :=
| NoArenaForLayer (layer : N)
| ArenaOverflow (layer : N) (pos : nat)
| ReserveZero (seq : N)
| NoGrowth (seq : N) (held requested : nat)
| NoArena
| NoFreeRun (seq : N) (cap : nat)
| NoRun (seq : N)
| ShrinkBelowWritten (seq : N) (written cap : nat)
| Overcommit (seq : N) (cap others : nat)
| PositionNotCovered (seq : N) (pos : nat)
| NotSingleSequence
| SharedPrefixInWindow (rows : nat)
| RemovePastEnd (layer : N) (start len : nat)
| LengthMismatch (ids positions : nat)
| HoldsNoCells (t : nat) (seq : N)
| ManySpans (t : nat) (seq : N)
| OutsideRun (t : nat) (seq : N) (pos : nat)
| NotWritten (t : nat) (seq : N) (pos : nat)
| TooManyRuns (t : nat) (seq : N) (pos : nat)
| NoCells (t : nat) (seq : N) (pos : nat)
| ShareZero
| ShareSelf (seq : N)
| DonorTooShort (seq : N) (written rows : nat)
| AlreadyShares (seq : N) (rows : nat)
| HasOwnRows (seq : N) (written : nat)
| NotContiguous (seq : N) (rows : nat)
| NoRoomForPrivateRow (seq : N) (pos : nat)
| StaleShift (seq : N)
| ShiftDoesNotFit
| SessionNCtx (theirs ours : nat)
| SessionLayer (layer : N)
| SessionOwnerLen (layer : N) (len : nat)
| SessionNUsed (layer : N) (n_used : nat)
| SessionRun (seq : N)
| SessionWritten (seq : N)
| SessionNoSpans (seq : N)
| SessionSpan (seq : N)
| PlanStart (seq : N) (start planned : nat)
| PlanRows (seq : N) (rows cap : nat)
| PlanOverlap
| PlanPastArena
| PlanStraddle (seq : N).

Abbreviation kres := (res KvError).

(** ** Construction and queries *)

Definition slot_new (start cap : nat) : SeqSlot := mkSlot start cap (mkShared 0 0) 0.

Definition private_written (s : SeqSlot) : nat := sl_written s - sh_rows (sl_shared s).

Definition kv_new : KvCache := mkKvCache ∅ true ∅ ∅ 0 0 0 0 0.

Definition insert_layer (layer : N) (k v : BufRef) (n_embd row_elems n_ctx : nat)
    (packed : bool) (c : KvCache) : KvCache :=
  let c := set_n_ctx (kv_n_ctx c `max` n_ctx) c in
  set_layers (<[layer := mkKvLayer k v (row_elems * n_ctx) n_ctx n_embd packed
                           (replicate n_ctx FREE) 0]> (kv_layers c)) c.

Definition any_packed (c : KvCache) : bool :=
  existsb (λ p, lay_packed p.2) (in_order (kv_layers c)).

Definition layer_count (c : KvCache) : nat := size (kv_layers c).

Definition region_bytes (c : KvCache) : nat :=
  sum_list_with (λ p, lay_elems p.2 * 4 * 2) (in_order (kv_layers c)).

Definition cast_u32 (x : nat) : N := (N.of_nat x mod 2 ^ 32)%N.

Fixpoint cells_for_loop (layer : N) (n_ctx : nat) (positions : list nat) : kres (list N) :=
  match positions with
  | [] => Ok []
  | p :: ps =>
      if n_ctx <=? p then Err (ArenaOverflow layer p)
      else cells ← cells_for_loop layer n_ctx ps; Ok (cast_u32 p :: cells)
  end.

Definition cells_for (c : KvCache) (layer : N) (positions : list nat) : kres (list N) :=
  l ← ok_or (kv_layers c !! layer) (NoArenaForLayer layer);
  cells_for_loop layer (lay_n_ctx l) positions.

(** ** Spans *)

Definition spans_of_slot (s : SeqSlot) : list span :=
  (if 0 <? sh_rows (sl_shared s)
   then [(0, sh_cell (sl_shared s), sh_rows (sl_shared s))] else []) ++
  (if 0 <? sl_cap s then [(sh_rows (sl_shared s), sl_start s, sl_cap s)] else []).

Definition refresh_spans (seq : N) (c : KvCache) : KvCache :=
  match kv_seqs c !! seq with
  | Some slot =>
      match spans_of_slot slot with
      | [] => set_spans (delete seq (kv_spans c)) c
      | v => set_spans (<[seq := v]> (kv_spans c)) c
      end
  | None => set_spans (delete seq (kv_spans c)) c
  end.

(** [taken[c]] for the cells [cell .. min(cell + len, n_ctx)]. *)
Definition mark_span (n_ctx : nat) (s : span) (taken : list bool) : list bool :=
  let '(_, cell, len) := s in
  fill_range cell ((cell + len) `min` n_ctx) (λ _ _, true) true taken.

Definition occupied (c : KvCache) : list bool :=
  foldl (λ taken p, foldl (λ t s, mark_span (kv_n_ctx c) s t) taken p.2)
    (replicate (kv_n_ctx c) false) (in_order (kv_spans c)).

(** [iter().find_map(f)]. *)
Fixpoint find_map {A B} (f : A → option B) (l : list A) : option B :=
  match l with
  | [] => None
  | x :: l => match f x with Some y => Some y | None => find_map f l end
  end.

Definition span_pos (cell : nat) (s : span) : option nat :=
  let '(base, c, len) := s in
  if (c <=? cell) && (cell <? c + len) then Some (base + (cell - c)) else None.

Definition span_cell (pos : nat) (s : span) : option nat :=
  let '(base, cell, len) := s in
  if (base <=? pos) && (pos <? base + len) then Some (cell + (pos - base)) else None.

Definition pos_of_cell (c : KvCache) (seq : N) (cell : nat) : option nat :=
  spans ← kv_spans c !! seq; find_map (span_pos cell) spans.

Definition cell_of (c : KvCache) (seq : N) (pos : nat) : option nat :=
  spans ← kv_spans c !! seq; find_map (span_cell pos) spans.

Definition spans_of (c : KvCache) (seq : N) : list span := default [] (kv_spans c !! seq).

Definition seq_slot (c : KvCache) (seq : N) : option SeqSlot := kv_seqs c !! seq.

Definition written_rows (c : KvCache) (seq : N) : nat :=
  from_option sl_written 0 (kv_seqs c !! seq).

(** ** Reservations *)

(** The first-fit scan: [run] consecutive free cells end just before [start]. *)
Fixpoint first_fit (cap start run : nat) (taken : list bool) : option nat :=
  match taken with
  | [] => None
  | true :: taken => first_fit cap (S start) 0 taken
  | false :: taken =>
      if S run =? cap then Some (S start - cap)
      else first_fit cap (S start) (S run) taken
  end.

Definition reserve_seq (seq : N) (cap : nat) (c : KvCache) : kres SeqSlot * KvCache :=
  if cap =? 0 then (Err (ReserveZero seq), c) else
  match kv_seqs c !! seq with
  | Some slot =>
      if cap <=? sl_cap slot then (Ok slot, c)
      else (Err (NoGrowth seq (sl_cap slot) cap), c)
  | None =>
      if kv_n_ctx c =? 0 then (Err NoArena, c) else
      match first_fit cap 0 0 (occupied c) with
      | Some start =>
          let slot := slot_new start cap in
          (Ok slot, refresh_spans seq (set_seqs (<[seq := slot]> (kv_seqs c)) c))
      | None => (Err (NoFreeRun seq cap), c)
      end
  end.

(** [owner[cell] = FREE] for the cells of [lo .. min(hi, len)] that [seq] owns. *)
Definition free_owned (seq : N) (lo hi : nat) (l : KvLayer) : KvLayer :=
  set_owner (fill_range lo (hi `min` length (lay_owner l)) (λ _ o, (o =? seq)%N) FREE
               (lay_owner l)) l.

Definition release_seq (seq : N) (c : KvCache) : nat * KvCache :=
  match kv_seqs c !! seq with
  | None => (0, c)
  | Some slot =>
      let c := refresh_spans seq (set_seqs (delete seq (kv_seqs c)) c) in
      let c := set_layers (free_owned seq (sl_start slot) (sl_start slot + sl_cap slot)
                             <$> kv_layers c) c in
      (sl_cap slot, c)
  end.

(** ** Compaction plans *)

Record KvMove := mkMove { mv_seq : N; mv_from : nat; mv_to : nat; mv_rows : nat }.

#[export] Instance KvMove_eq_dec : EqDecision KvMove.
Proof. solve_decision. Defined.

(** [sort_by_key(|(seq, slot)| (slot.start, seq))]. *)
Definition run_le (a b : N * SeqSlot) : bool :=
  (sl_start a.2 <? sl_start b.2) ||
  ((sl_start a.2 =? sl_start b.2) && (a.1 <=? b.1)%N).

Definition live_runs (c : KvCache) : list (N * SeqSlot) :=
  sort_by run_le (List.filter (λ p, 0 <? sl_cap p.2) (in_order (kv_seqs c))).

Fixpoint plan_loop (n_ctx : nat) (need : option nat) (cursor : nat)
    (runs : list (N * SeqSlot)) : list KvMove :=
  match runs with
  | [] => []
  | (seq, slot) :: rest =>
      let mv := if sl_start slot =? cursor then []
                else [mkMove seq (sl_start slot) cursor (private_written slot)] in
      let cursor := cursor + sl_cap slot in
      let stop := match need with
                  | Some n =>
                      let gap_end := match rest with
                                     | [] => n_ctx
                                     | (_, next) :: _ => sl_start next
                                     end in
                      n <=? gap_end - cursor
                  | None => false
                  end in
      if stop then mv else mv ++ plan_loop n_ctx need cursor rest
  end.

Definition compaction_plan (need : option nat) (c : KvCache) : list KvMove :=
  plan_loop (kv_n_ctx c) need 0 (live_runs c).

(** The release build's 64-bit addition and subtraction: where the operands
    are a caller's or a file's, nothing bounds them. *)
Definition usize_add (a b : nat) : nat :=
  N.to_nat ((N.of_nat a + N.of_nat b) mod 2 ^ 64)%N.
Definition usize_sub (a b : nat) : nat :=
  N.to_nat ((N.of_nat a + 2 ^ 64 - N.of_nat b) mod 2 ^ 64)%N.

Definition set_cap (seq : N) (cap : nat) (c : KvCache) : kres (list KvMove) * KvCache :=
  match kv_seqs c !! seq with
  | None => (Err (NoRun seq), c)
  | Some slot =>
      if cap =? sl_cap slot then (Ok [], c) else
      if cap =? 0 then
        let c := (release_seq seq c).2 in (Ok (compaction_plan None c), c)
      else
        let others := sum_list_with (λ p, sl_cap p.2)
                        (List.filter (λ p, negb (p.1 =? seq)%N) (in_order (kv_seqs c))) in
        if (cap <? sl_cap slot) && (cap <? private_written slot) then
          (Err (ShrinkBelowWritten seq (private_written slot) cap), c)
        else if negb (cap <? sl_cap slot) && (kv_n_ctx c <? usize_add others cap) then
          (Err (Overcommit seq cap others), c)
        else
          let c := refresh_spans seq
                     (set_seqs (<[seq := set_slot_cap cap slot]> (kv_seqs c)) c) in
          (Ok (compaction_plan None c), c)
  end.

(** ** Ownership *)

Definition own_layer (seq : N) (from to : nat) (l : KvLayer) : KvLayer :=
  let upto := to `min` length (lay_owner l) in
  set_n_used (lay_n_used l `max` upto)
    (set_owner (fill_range (from `min` upto) upto (λ _ _, true) seq (lay_owner l)) l).

Definition raise_written (c : KvCache) (seq : N) (from to : nat) (written : nat) : nat :=
  foldl (λ w cell, match pos_of_cell c seq cell with
                   | Some pos => w `max` (pos + 1)
                   | None => w
                   end) written (List.seq from (to - from)).

Definition own_range (seq : N) (from to : nat) (c : KvCache) : KvCache :=
  let c := set_layers (own_layer seq from to <$> kv_layers c) c in
  let written := raise_written c seq from to (written_rows c seq) in
  set_seqs (alter (set_written written) seq (kv_seqs c)) c.

Fixpoint own_positions (seq : N) (positions : list nat) (c : KvCache) :
    kres unit * KvCache :=
  match positions with
  | [] => (Ok (), c)
  | pos :: ps =>
      match cell_of c seq pos with
      | None => (Err (PositionNotCovered seq pos), c)
      | Some cell => own_positions seq ps (own_range seq cell (cell + 1) c)
      end
  end.

(** ** Physical removal *)

Definition rm_layer (start len : nat) (l : KvLayer) : option KvLayer :=
  owner ← copy_within (lay_owner l) (usize_add start len) (lay_n_used l) start;
  let n_used := usize_sub (lay_n_used l) len in
  let owner := fill_range n_used (lay_n_used l) (λ _ _, true) FREE owner in
  Some (set_n_used n_used (set_owner owner l)).

Fixpoint rm_layers (start len : nat) (ls : list (N * KvLayer)) (new_used : nat)
    (c : KvCache) : kres nat * KvCache :=
  match ls with
  | [] => (Ok new_used, c)
  | (layer, l) :: ls =>
      if lay_n_used l <? usize_add start len then (Err (RemovePastEnd layer start len), c) else
      match rm_layer start len l with
      | None => (Panic, c)
      | Some l' =>
          rm_layers start len ls (lay_n_used l')
            (set_layers (<[layer := l']> (kv_layers c)) c)
      end
  end.

Definition after_rm (start len : nat) (c : KvCache) : kres nat * KvCache :=
  if existsb (λ p, negb (p.1 =? SEQ_MAIN)%N) (in_order (kv_seqs c))
  then (Err NotSingleSequence, c) else
  match kv_seqs c !! SEQ_MAIN with
  | Some slot =>
      if 0 <? sh_rows (sl_shared slot)
      then (Err (SharedPrefixInWindow (sh_rows (sl_shared slot))), c)
      else rm_layers start len (in_order (kv_layers c)) 0 c
  | None => rm_layers start len (in_order (kv_layers c)) 0 c
  end.

(** ** Attention windows *)

(** One query of [attn_span]: its [lo, hi) cells. *)
Definition span_query (c : KvCache) (t : nat) (seq : N) (rel : nat) : kres (N * N) :=
  '(first_cell, len) ←
     match spans_of c seq with
     | [] => Err (HoldsNoCells t seq)
     | [(_, cell, len)] => Ok (cell, len)
     | _ => Err (ManySpans t seq)
     end;
  cell ← ok_or (cell_of c seq rel) (OutsideRun t seq rel);
  if written_rows c seq <=? rel then Err (NotWritten t seq rel) else
  let hi := (first_cell + len) `min` (cell + 1) in
  Ok (cast_u32 first_cell, cast_u32 hi).

(** One query of [attn_map]: the runs it may read, [k] of them so far. *)
Fixpoint map_runs (t : nat) (seq : N) (rel k : nat) (spans : list span) :
    kres (list (nat * nat)) :=
  match spans with
  | [] => Ok []
  | (base, cell, len) :: spans =>
      if rel <? base then Ok [] else
      let take := len `min` (rel + 1 - base) in
      if take =? 0 then map_runs t seq rel k spans else
      if k =? KV_MAP_MAX_SPANS then Err (TooManyRuns t seq rel) else
      runs ← map_runs t seq rel (S k) spans;
      Ok ((cell, take) :: runs)
  end.

Definition map_query (c : KvCache) (t : nat) (seq : N) (rel : nat) :
    kres (list (nat * nat)) :=
  let spans := spans_of c seq in
  if decide (spans = []) then Err (HoldsNoCells t seq) else
  if written_rows c seq <=? rel then Err (NotWritten t seq rel) else
  runs ← map_runs t seq rel 0 spans;
  if decide (runs = []) then Err (NoCells t seq rel) else Ok runs.

(** The loop over the queries, in batch order. *)
Fixpoint per_query {A} (f : nat → N → nat → kres A) (t : nat)
    (seq_ids : list N) (positions : list nat) : kres (list A) :=
  match seq_ids, positions with
  | seq :: ss, rel :: ps => a ← f t seq rel; l ← per_query f (S t) ss ps; Ok (a :: l)
  | _, _ => Ok []
  end.

Definition attn_span (c : KvCache) (seq_ids : list N) (positions : list nat) :
    kres (list N) :=
  if negb (length positions =? length seq_ids)
  then Err (LengthMismatch (length seq_ids) (length positions)) else
  if decide (kv_layers c = ∅) then Err NoArena else
  w ← per_query (span_query c) 0 seq_ids positions;
  Ok (w.*1 ++ w.*2).

(** A query's slice of the [kv_map] input, zero-padded to its fixed width. *)
Definition pad_runs (runs : list (nat * nat)) : list N :=
  concat (map (λ r, [cast_u32 r.1; cast_u32 r.2]) runs) ++
  replicate (2 * (KV_MAP_MAX_SPANS - length runs)) 0%N.

Definition attn_map (c : KvCache) (seq_ids : list N) (positions : list nat) :
    kres (list N) :=
  if negb (length positions =? length seq_ids)
  then Err (LengthMismatch (length seq_ids) (length positions)) else
  if decide (kv_layers c = ∅) then Err NoArena else
  w ← per_query (map_query c) 0 seq_ids positions;
  Ok (concat (map pad_runs w)).

(** ** Free runs *)

Fixpoint runs_loop (c : nat) (open : option nat) (taken : list bool) : list (nat * nat) :=
  match taken with
  | [] => match open with Some start => [(start, c - start)] | None => [] end
  | t :: taken =>
      match t, open with
      | false, None => runs_loop (S c) (Some c) taken
      | true, Some start => (start, c - start) :: runs_loop (S c) None taken
      | _, _ => runs_loop (S c) open taken
      end
  end.

Definition free_runs (c : KvCache) : list (nat * nat) := runs_loop 0 None (occupied c).

(** ** Prefix sharing and copy-on-write *)

Definition share_prefix (src dst : N) (rows : nat) (c : KvCache) : kres unit * KvCache :=
  if rows =? 0 then (Err ShareZero, c) else
  if (src =? dst)%N then (Err (ShareSelf src), c) else
  match kv_seqs c !! src with
  | None => (Err (NoRun src), c)
  | Some donor =>
  if sl_written donor <? rows then (Err (DonorTooShort src (sl_written donor) rows), c) else
  match kv_seqs c !! dst with
  | None => (Err (NoRun dst), c)
  | Some dst_slot =>
  if 0 <? sh_rows (sl_shared dst_slot)
  then (Err (AlreadyShares dst (sh_rows (sl_shared dst_slot))), c) else
  if 0 <? sl_written dst_slot then (Err (HasOwnRows dst (sl_written dst_slot)), c) else
  match cell_of c src 0 with
  | None => (Err (HoldsNoCells 0 src), c)
  | Some cell =>
  if decide (cell_of c src (rows - 1) = Some (cell + rows - 1)) then
    let slot := set_written rows (set_shared (mkShared cell rows) dst_slot) in
    (Ok (), refresh_spans dst (set_seqs (<[dst := slot]> (kv_seqs c)) c))
  else (Err (NotContiguous src rows), c)
  end end end.

Record KvShift := mkShift {
  ks_seq : N; ks_base : nat; ks_from : nat; ks_to : nat; ks_rows : nat
}.

Definition private_row_for (seq : N) (t : nat) (c : KvCache) : kres (option KvShift) :=
  match kv_seqs c !! seq with
  | None => Ok None
  | Some slot =>
      let shared := sh_rows (sl_shared slot) in
      if (shared =? 0) || (shared <=? t) then Ok None else
      let d := shared - t in
      let rows := private_written slot in
      if sl_cap slot <? rows + d then Err (NoRoomForPrivateRow seq t) else
      Ok (Some (mkShift seq t (sl_start slot) (sl_start slot + d) rows))
  end.

Definition used_len (owner : list N) : nat :=
  rposition_len (λ o, negb (o =? FREE)%N) owner.

Definition shift_layer (sh : KvShift) (l : KvLayer) : option KvLayer :=
  owner ← (if 0 <? ks_rows sh
           then copy_within (lay_owner l) (ks_from sh) (ks_from sh + ks_rows sh) (ks_to sh)
           else Some (lay_owner l));
  let owner := fill_range (ks_from sh) (ks_to sh) (λ _ o, (o =? ks_seq sh)%N) FREE owner in
  Some (set_n_used (used_len owner) (set_owner owner l)).

Definition apply_private_row (sh : KvShift) (c : KvCache) : kres unit * KvCache :=
  match kv_seqs c !! ks_seq sh with
  | None => (Err (NoRun (ks_seq sh)), c)
  | Some slot =>
  if negb (sl_start slot =? ks_from sh) || (sh_rows (sl_shared slot) <=? ks_base sh)
     || negb (private_written slot =? ks_rows sh)
  then (Err (StaleShift (ks_seq sh)), c) else
  if existsb (λ p, (length (lay_owner p.2) <? ks_to sh + ks_rows sh) ||
                   (length (lay_owner p.2) <? ks_from sh + ks_rows sh))
       (in_order (kv_layers c))
  then (Err ShiftDoesNotFit, c) else
  match update_all (shift_layer sh) (kv_layers c) with
  | None => (Panic, c)
  | Some layers =>
      let shared := mkShared (sh_cell (sl_shared slot)) (ks_base sh) in
      let c := set_layers layers c in
      let c := set_seqs (<[ks_seq sh := set_shared shared slot]> (kv_seqs c)) c in
      let c := refresh_spans (ks_seq sh) c in
      (Ok (), mkKvCache (kv_layers c) (kv_identity c) (kv_seqs c) (kv_spans c) (kv_n_ctx c)
                (kv_defrags c) (kv_cells_moved c) (kv_cows c + 1)
                (kv_cow_cells c + N.of_nat (ks_rows sh * layer_count c)))
  end
  end.

(** ** Counters *)

Record KvArenaStats := mkStats {
  st_n_ctx : nat;
  st_reserved_cells : nat;
  st_shared_cells : nat;
  st_owned_cells : nat;
  st_free_cells : nat;
  st_free_runs : nat;
  st_largest_free_run : nat;
  st_sequences : nat;
  st_defrags : N;
  st_cells_moved : N;
  st_cows : N;
  st_cow_cells : N
}.

Definition arena_stats (c : KvCache) : KvArenaStats :=
  let slots := in_order (kv_seqs c) in
  let reserved_cells := sum_list_with (λ p, sl_cap p.2 `min` kv_n_ctx c) slots in
  let runs := free_runs c in
  mkStats (kv_n_ctx c) reserved_cells
    (sum_list_with (λ p, sh_rows (sl_shared p.2)) slots)
    (match in_order (kv_layers c) with
     | [] => 0
     | (_, l) :: _ => length (List.filter (λ o, negb (o =? FREE)%N) (lay_owner l))
     end)
    (kv_n_ctx c - reserved_cells)
    (length runs)
    (foldr (λ r m, r.2 `max` m) 0 runs)
    (size (kv_seqs c))
    (kv_defrags c) (kv_cells_moved c) (kv_cows c) (kv_cow_cells c).

(** ** Session save and restore *)

Record KvLayerSession := mkLayerSession {
  ls_layer : N; ls_n_used : nat; ls_owner : list N
}.

Record KvSessionState := mkSession {
  ss_identity : bool;
  ss_n_ctx : nat;
  ss_seqs : list (N * SeqSlot);
  ss_spans : list (N * list span);
  ss_layers : list KvLayerSession;
  ss_defrags : N;
  ss_cells_moved : N;
  ss_cows : N;
  ss_cow_cells : N
}.

Definition session_written (st : KvSessionState) : nat :=
  foldr (λ p m, sl_written p.2 `max` m) 0 (ss_seqs st).

Definition session_state (c : KvCache) : KvSessionState :=
  mkSession (kv_identity c) (kv_n_ctx c) (in_order (kv_seqs c)) (in_order (kv_spans c))
    (map (λ p, mkLayerSession p.1 (lay_n_used p.2) (lay_owner p.2)) (in_order (kv_layers c)))
    (kv_defrags c) (kv_cells_moved c) (kv_cows c) (kv_cow_cells c).

Definition check_layer_session (c : KvCache) (ls : KvLayerSession) : kres unit :=
  _ ← ok_or (kv_layers c !! ls_layer ls) (SessionLayer (ls_layer ls));
  if negb (length (ls_owner ls) =? kv_n_ctx c)
  then Err (SessionOwnerLen (ls_layer ls) (length (ls_owner ls))) else
  if kv_n_ctx c <? ls_n_used ls then Err (SessionNUsed (ls_layer ls) (ls_n_used ls)) else
  Ok ().

Definition check_session_span (c : KvCache) (seq : N) (slot : SeqSlot) (s : span) :
    kres unit :=
  let '(base, cell, len) := s in
  if (usize_add (sh_rows (sl_shared slot)) (sl_cap slot) <? usize_add base len) ||
     (kv_n_ctx c <? usize_add cell len)
  then Err (SessionSpan seq) else Ok ().

Definition check_session_seq (c : KvCache) (st : KvSessionState) (p : N * SeqSlot) :
    kres unit :=
  let '(seq, slot) := p in
  if kv_n_ctx c <? usize_add (sl_start slot) (sl_cap slot) then Err (SessionRun seq) else
  if usize_add (sh_rows (sl_shared slot)) (sl_cap slot) <? sl_written slot
  then Err (SessionWritten seq) else
  spans ← ok_or (snd <$> List.find (λ q, (q.1 =? seq)%N) (ss_spans st)) (SessionNoSpans seq);
  _ ← try_map (check_session_span c seq slot) spans;
  Ok ().

Definition restore_layer (layers : gmap N KvLayer) (ls : KvLayerSession) : gmap N KvLayer :=
  alter (λ l, set_n_used (ls_n_used ls) (set_owner (ls_owner ls) l)) (ls_layer ls) layers.

(** [collect()] into a map: a later entry replaces an earlier one. *)
Definition collect {V} (l : list (N * V)) : gmap N V :=
  foldl (λ m p, <[p.1 := p.2]> m) ∅ l.

Definition restore_session (st : KvSessionState) (c : KvCache) : kres unit * KvCache :=
  if negb (ss_n_ctx st =? kv_n_ctx c) then (Err (SessionNCtx (ss_n_ctx st) (kv_n_ctx c)), c)
  else
  match (_ ← try_map (check_layer_session c) (ss_layers st);
         try_map (check_session_seq c st) (ss_seqs st)) with
  | Err e => (Err e, c)
  | Panic => (Panic, c)
  | Ok _ =>
      (Ok (), mkKvCache (foldl restore_layer (kv_layers c) (ss_layers st))
                (ss_identity st) (collect (ss_seqs st)) (collect (ss_spans st)) (kv_n_ctx c)
                (ss_defrags st) (ss_cells_moved st) (ss_cows st) (ss_cow_cells st))
  end.

(** ** Applying moves *)

(** [order_moves]: the comparator does not answer [Greater]. *)
Definition move_le (a b : KvMove) : bool :=
  match mv_from a <? mv_to a, mv_from b <? mv_to b with
  | true, true => mv_from b <=? mv_from a
  | false, false => mv_from a <=? mv_from b
  | true, false => true
  | false, true => false
  end.

Definition order_moves (moves : list KvMove) : list KvMove := sort_by move_le moves.

(** Where the plan puts one run: [(to, cap)]. *)
Definition plan_slot (moves : list KvMove) (p : N * SeqSlot) : kres (nat * nat) :=
  let '(seq, slot) := p in
  match List.find (λ m, (mv_seq m =? seq)%N) moves with
  | Some m =>
      if negb (sl_start slot =? mv_from m)
      then Err (PlanStart seq (sl_start slot) (mv_from m)) else
      if sl_cap slot <? mv_rows m then Err (PlanRows seq (mv_rows m) (sl_cap slot)) else
      Ok (mv_to m, sl_cap slot)
  | None => Ok (sl_start slot, sl_cap slot)
  end.

Definition pair_le (a b : nat * nat) : bool :=
  (a.1 <? b.1) || ((a.1 =? b.1) && (a.2 <=? b.2)).

Fixpoint check_planned (n_ctx : nat) (planned : list (nat * nat)) : kres unit :=
  match planned with
  | [] => Ok ()
  | (start, cap) :: rest =>
      match rest with
      | [] => if n_ctx <? start + cap then Err PlanPastArena else Ok ()
      | (next, _) :: _ =>
          if next <? start + cap then Err PlanOverlap else check_planned n_ctx rest
      end
  end.

(** The owner table of one layer follows a move. *)
Definition move_layer (m : KvMove) (l : KvLayer) : option KvLayer :=
  let rows := mv_rows m `min` (length (lay_owner l) - mv_from m) in
  owner ← (if 0 <? rows then
             owner ← copy_within (lay_owner l) (mv_from m) (mv_from m + rows) (mv_to m);
             let lo := mv_to m `min` mv_from m in
             let hi := (mv_to m `max` mv_from m + rows) `min` length (lay_owner l) in
             Some (fill_range lo hi
                     (λ cell o, negb ((mv_to m <=? cell) && (cell <? mv_to m + rows))
                                && (o =? mv_seq m)%N) FREE owner)
           else Some (lay_owner l));
  Some (set_n_used (used_len owner) (set_owner owner l)).

(** The sequences whose shared prefix lies in the moved rows, in key order;
    the first one that straddles them refuses the plan. *)
Fixpoint sharers_of (m : KvMove) (slots : list (N * SeqSlot)) : kres (list N) :=
  match slots with
  | [] => Ok []
  | (other, slot) :: slots =>
      let lo := sh_cell (sl_shared slot) in
      let hi := lo + sh_rows (sl_shared slot) in
      let mlo := mv_from m in
      let mhi := mlo + mv_rows m in
      if (other =? mv_seq m)%N || (sh_rows (sl_shared slot) =? 0)
         || (mhi <=? lo) || (hi <=? mlo)
      then sharers_of m slots
      else if (lo <? mlo) || (mhi <? hi) then Err (PlanStraddle other)
      else l ← sharers_of m slots; Ok (other :: l)
  end.

Definition renumber_sharer (m : KvMove) (c : KvCache) (other : N) : KvCache :=
  refresh_spans other
    (set_seqs (alter (λ s, set_shared
                 (mkShared (mv_to m + (sh_cell (sl_shared s) - mv_from m))
                    (sh_rows (sl_shared s))) s) other (kv_seqs c)) c).

Definition apply_move (m : KvMove) (c : KvCache) : kres unit * KvCache :=
  match update_all (move_layer m) (kv_layers c) with
  | None => (Panic, c)
  | Some layers =>
      let c := set_layers layers c in
      let c := set_seqs (alter (set_start (mv_to m)) (mv_seq m) (kv_seqs c)) c in
      let c := refresh_spans (mv_seq m) c in
      if 0 <? mv_rows m then
        match sharers_of m (in_order (kv_seqs c)) with
        | Err e => (Err e, c)
        | Panic => (Panic, c)
        | Ok sharers => (Ok (), foldl (renumber_sharer m) c sharers)
        end
      else (Ok (), c)
  end.

Fixpoint apply_move_list (moves : list KvMove) (c : KvCache) : kres unit * KvCache :=
  match moves with
  | [] => (Ok (), c)
  | m :: moves =>
      match apply_move m c with
      | (Ok _, c) => apply_move_list moves c
      | r => r
      end
  end.

Definition apply_moves (moves : list KvMove) (c : KvCache) : kres nat * KvCache :=
  if decide (moves = []) then (Ok 0, c) else
  let moves := order_moves moves in
  match (planned ← try_map (plan_slot moves) (in_order (kv_seqs c));
         check_planned (kv_n_ctx c) (sort_by pair_le planned)) with
  | Err e => (Err e, c)
  | Panic => (Panic, c)
  | Ok _ =>
      match apply_move_list moves c with
      | (Ok _, c) =>
          let rows_moved := sum_list_with mv_rows moves in
          (Ok rows_moved,
           mkKvCache (kv_layers c) (kv_identity c) (kv_seqs c) (kv_spans c) (kv_n_ctx c)
             (kv_defrags c + 1)
             (kv_cells_moved c + N.of_nat (rows_moved * layer_count c))
             (kv_cows c) (kv_cow_cells c))
      | (Err e, c) => (Err e, c)
      | (Panic, c) => (Panic, c)
      end
  end.
