(* ===== verification/KvFacts.v ===== *)
(** * The invariant of the KV cell store and the lemmas its theorems share

    [kv_wf] is what every operation of [KvCache] keeps: the span lists are the
    ones the run table determines, every run lies in the arena, no two runs
    overlap, and the owner tables have the arena's size. *)
From stdpp Require Import base numbers list gmap option sorting.
From S2P Require Import Prelude Slices KvCache.
(* [naive_solver] and [set_solver] clear hypotheses that are gone already. *)
#[local] Set Warnings "-clear-no-such-hyp".

Create Rewrite HintDb kv.

(** Two cell ranges [[a, a + n)] and [[b, b + m)] do not meet. *)
Definition ranges_disjoint (a n b m : nat) : Prop := a + n ≤ b ∨ b + m ≤ a ∨ n = 0 ∨ m = 0.

Lemma ranges_disjoint_sym a n b m : ranges_disjoint a n b m → ranges_disjoint b m a n.
Proof. unfold ranges_disjoint. lia. Qed.

(** ** Arithmetic at its width *)

Definition usize_sized (x : nat) : Prop := (N.of_nat x < 2 ^ 64)%N.

Lemma usize_add_le a b : usize_add a b ≤ a + b.
Proof. unfold usize_add. pose proof (N.Div0.mod_le (N.of_nat a + N.of_nat b) (2 ^ 64)). lia. Qed.

Lemma usize_add_eq a b : usize_sized (a + b) → usize_add a b = a + b.
Proof. unfold usize_sized, usize_add. intros. rewrite N.mod_small by lia. lia. Qed.

Lemma usize_sub_eq a b : usize_sized a → b ≤ a → usize_sub a b = a - b.
Proof.
  unfold usize_sized, usize_sub. intros Ha Hb.
  replace (N.of_nat a + 2 ^ 64 - N.of_nat b)%N with (N.of_nat (a - b) + 1 * 2 ^ 64)%N by lia.
  rewrite N.Div0.mod_add, N.mod_small by lia. lia.
Qed.

(** ** The invariant *)

Record slot_ok (n_ctx : nat) (s : SeqSlot) : Prop := {
  ok_cap : 0 < sl_cap s;
  ok_run : sl_start s + sl_cap s ≤ n_ctx;
  ok_shared_written : sh_rows (sl_shared s) ≤ sl_written s;
  ok_written : sl_written s ≤ sh_rows (sl_shared s) + sl_cap s;
  ok_shared : 0 < sh_rows (sl_shared s) → sh_cell (sl_shared s) + sh_rows (sl_shared s) ≤ n_ctx
}.

(** The span lists are derived from the run table. *)
Definition coherent (c : KvCache) : Prop := kv_spans c = spans_of_slot <$> kv_seqs c.

Definition runs_disjoint (seqs : gmap N SeqSlot) : Prop :=
  ∀ s s' a b, s ≠ s' → seqs !! s = Some a → seqs !! s' = Some b →
    ranges_disjoint (sl_start a) (sl_cap a) (sl_start b) (sl_cap b).

Definition layers_ok (n_ctx : nat) (layers : gmap N KvLayer) : Prop :=
  map_Forall (λ _ l, length (lay_owner l) = n_ctx ∧ lay_n_used l ≤ n_ctx) layers.

Record kv_wf (c : KvCache) : Prop := {
  wf_coherent : coherent c;
  wf_slots : map_Forall (λ _ s, slot_ok (kv_n_ctx c) s) (kv_seqs c);
  wf_disjoint : runs_disjoint (kv_seqs c);
  wf_layers : layers_ok (kv_n_ctx c) (kv_layers c)
}.

(** ** Spans *)

Lemma spans_of_slot_nonempty s : 0 < sl_cap s → spans_of_slot s ≠ [].
Proof.
  intros H. unfold spans_of_slot. rewrite (proj2 (Nat.ltb_lt 0 (sl_cap s)) H).
  by destruct (0 <? _).
Qed.

(** The cell a slot keeps position [pos] in. *)
Definition slot_cell (s : SeqSlot) (pos : nat) : option nat :=
  let rows := sh_rows (sl_shared s) in
  if decide (pos < rows) then Some (sh_cell (sl_shared s) + pos)
  else if decide (pos < rows + sl_cap s) then Some (sl_start s + (pos - rows))
  else None.

Lemma find_map_spans s pos : find_map (span_cell pos) (spans_of_slot s) = slot_cell s pos.
Proof.
  unfold spans_of_slot, slot_cell.
  set (rows := sh_rows (sl_shared s)).
  destruct (0 <? rows) eqn:Hr, (0 <? sl_cap s) eqn:Hc; simpl;
    rewrite ?Nat.ltb_lt, ?Nat.ltb_ge in *;
    repeat match goal with
    | |- context [?a <=? ?b] => destruct (Nat.leb_spec a b)
    | |- context [?a <? ?b] => destruct (Nat.ltb_spec a b)
    end; simpl; repeat case_decide; try lia; try done; do 2 f_equal; lia.
Qed.

Lemma cell_of_slot c seq pos :
  coherent c → cell_of c seq pos = kv_seqs c !! seq ≫= λ s, slot_cell s pos.
Proof.
  intros H. unfold cell_of. rewrite H, lookup_fmap.
  destruct (kv_seqs c !! seq) as [s|]; simpl; [|done]. apply find_map_spans.
Qed.

Lemma spans_of_coherent c seq :
  coherent c → spans_of c seq = from_option spans_of_slot [] (kv_seqs c !! seq).
Proof.
  intros H. unfold spans_of. rewrite H, lookup_fmap. by destruct (kv_seqs c !! seq).
Qed.

Lemma kv_seqs_refresh seq c : kv_seqs (refresh_spans seq c) = kv_seqs c.
Proof. unfold refresh_spans. repeat case_match; done. Qed.
Lemma kv_layers_refresh seq c : kv_layers (refresh_spans seq c) = kv_layers c.
Proof. unfold refresh_spans. repeat case_match; done. Qed.
Lemma kv_n_ctx_refresh seq c : kv_n_ctx (refresh_spans seq c) = kv_n_ctx c.
Proof. unfold refresh_spans. repeat case_match; done. Qed.
#[export] Hint Rewrite kv_seqs_refresh kv_layers_refresh kv_n_ctx_refresh : kv.

(** Refreshing the one sequence whose slot changed restores coherence. *)
Lemma coherent_refresh seq c :
  (∀ s, s ≠ seq → kv_spans c !! s = spans_of_slot <$> kv_seqs c !! s) →
  (∀ slot, kv_seqs c !! seq = Some slot → 0 < sl_cap slot) →
  coherent (refresh_spans seq c).
Proof.
  intros Ho Hc. unfold coherent. rewrite kv_seqs_refresh.
  apply map_eq. intros s. rewrite lookup_fmap. unfold refresh_spans.
  destruct (kv_seqs c !! seq) as [slot|] eqn:Hs.
  - pose proof (spans_of_slot_nonempty slot (Hc _ eq_refl)) as Hne.
    destruct (spans_of_slot slot) eqn:Hsp; [done|]; simpl.
    destruct (decide (s = seq)) as [->|Hne'].
    + rewrite lookup_insert_eq, Hs; simpl. by rewrite Hsp.
    + rewrite lookup_insert_ne by done. by apply Ho.
  - destruct (decide (s = seq)) as [->|Hne']; simpl.
    + by rewrite lookup_delete_eq, Hs.
    + rewrite lookup_delete_ne by done. by apply Ho.
Qed.

Lemma coherent_insert seq slot c :
  coherent c → 0 < sl_cap slot →
  coherent (refresh_spans seq (set_seqs (<[seq := slot]> (kv_seqs c)) c)).
Proof.
  intros H Hc. apply coherent_refresh; simpl.
  - intros s Hs. rewrite lookup_insert_ne by done. by rewrite H, lookup_fmap.
  - intros ?. rewrite lookup_insert_eq. congruence.
Qed.

Lemma coherent_delete seq c :
  coherent c → coherent (refresh_spans seq (set_seqs (delete seq (kv_seqs c)) c)).
Proof.
  intros H. apply coherent_refresh; simpl.
  - intros s Hs. rewrite lookup_delete_ne by done. by rewrite H, lookup_fmap.
  - intros ?. by rewrite lookup_delete_eq.
Qed.

(** A slot update that keeps its run and its share keeps the span lists. *)
Lemma coherent_written seq w c :
  coherent c → coherent (set_seqs (alter (set_written w) seq (kv_seqs c)) c).
Proof.
  unfold coherent; simpl. intros ->. apply map_eq. intros s.
  rewrite !lookup_fmap. destruct (decide (s = seq)) as [->|Hs].
  - rewrite lookup_alter_eq. by destruct (kv_seqs c !! seq).
  - by rewrite lookup_alter_ne.
Qed.

(** The sequences occupy distinct cells with their own runs. *)
Lemma slot_cell_private s pos :
  sh_rows (sl_shared s) ≤ pos < sh_rows (sl_shared s) + sl_cap s →
  slot_cell s pos = Some (sl_start s + (pos - sh_rows (sl_shared s))).
Proof. intros H. unfold slot_cell. by rewrite decide_False, decide_True by lia. Qed.

Lemma slot_cell_shared s pos :
  pos < sh_rows (sl_shared s) → slot_cell s pos = Some (sh_cell (sl_shared s) + pos).
Proof. intros H. unfold slot_cell. by rewrite decide_True by lia. Qed.

Lemma slot_cell_bound n s pos cell :
  slot_ok n s → slot_cell s pos = Some cell → cell < n.
Proof.
  intros [] H. unfold slot_cell in H. repeat case_decide; simplify_eq; lia.
Qed.

Lemma slot_cell_total n s pos :
  slot_ok n s → pos < sl_written s → is_Some (slot_cell s pos).
Proof. intros [] H. unfold slot_cell. repeat case_decide; eauto; lia. Qed.

(** ** Occupancy *)

(** Cell [i] is named by some span. *)
Definition spanned (spans : gmap N (list span)) (i : nat) : Prop :=
  ∃ s l base cell len, spans !! s = Some l ∧ (base, cell, len) ∈ l ∧ cell ≤ i < cell + len.

Lemma length_mark_span n s taken : length (mark_span n s taken) = length taken.
Proof. destruct s as [[??]?]. apply length_fill_range. Qed.

Lemma lookup_mark_span n s taken i :
  length taken = n →
  mark_span n s taken !! i = Some true ↔
    taken !! i = Some true ∨ (i < n ∧ s.1.2 ≤ i < s.1.2 + s.2).
Proof.
  intros Hn. destruct s as [[base cell] len]; simpl. rewrite lookup_fill_range.
  destruct (taken !! i) as [b|] eqn:Hi; simpl.
  - apply lookup_lt_Some in Hi.
    destruct (Nat.leb_spec cell i), (Nat.ltb_spec i ((cell + len) `min` n)); simpl;
      naive_solver lia.
  - apply lookup_ge_None in Hi. naive_solver lia.
Qed.

Lemma fold_mark_spans n l taken i :
  length taken = n →
  length (foldl (λ t s, mark_span n s t) taken l) = n ∧
  (foldl (λ t s, mark_span n s t) taken l !! i = Some true ↔
    taken !! i = Some true ∨ (i < n ∧ ∃ s : span, s ∈ l ∧ s.1.2 ≤ i < s.1.2 + s.2)).
Proof.
  revert taken. induction l as [|s l IH]; intros taken Hn; simpl.
  - split; [done|]. set_solver.
  - destruct (IH (mark_span n s taken)) as [IH1 IH2]; [by rewrite length_mark_span|].
    split; [done|]. rewrite IH2, lookup_mark_span by done. set_solver.
Qed.

Lemma fold_mark_all n (l : list (N * list span)) taken i :
  length taken = n →
  length (foldl (λ t p, foldl (λ t s, mark_span n s t) t p.2) taken l) = n ∧
  (foldl (λ t p, foldl (λ t s, mark_span n s t) t p.2) taken l !! i = Some true ↔
    taken !! i = Some true ∨
    (i < n ∧ ∃ (p : N * list span) (s : span), p ∈ l ∧ s ∈ p.2 ∧ s.1.2 ≤ i < s.1.2 + s.2)).
Proof.
  revert taken. induction l as [|p l IH]; intros taken Hn; simpl.
  - split; [done|]. set_solver.
  - destruct (fold_mark_spans n p.2 taken i Hn) as [H1 H2].
    destruct (IH _ H1) as [IH1 IH2]. split; [done|]. rewrite IH2, H2. set_solver.
Qed.

Lemma length_occupied c : length (occupied c) = kv_n_ctx c.
Proof. apply (fold_mark_all _ _ _ 0), length_replicate. Qed.

Lemma occupied_true c i :
  occupied c !! i = Some true ↔ i < kv_n_ctx c ∧ spanned (kv_spans c) i.
Proof.
  unfold occupied, spanned.
  rewrite (proj2 (fold_mark_all _ _ _ i (length_replicate _ _))).
  rewrite lookup_replicate. split.
  - intros [[? _]|(Hi & [s l] & [[base cell] len] & Hp & Hs & Hr)]; [done|].
    split; [done|]. apply elem_of_in_order in Hp. by exists s, l, base, cell, len.
  - intros (Hi & s & l & base & cell & len & Hp & Hs & Hr). right. split; [done|].
    apply elem_of_in_order in Hp. by exists (s, l), (base, cell, len).
Qed.

Lemma occupied_false c i :
  occupied c !! i = Some false ↔ i < kv_n_ctx c ∧ ¬ spanned (kv_spans c) i.
Proof.
  pose proof (occupied_true c i) as Ht. pose proof (length_occupied c) as Hl.
  destruct (occupied c !! i) as [[]|] eqn:Hi.
  - naive_solver.
  - apply lookup_lt_Some in Hi. rewrite Hl in Hi. naive_solver.
  - apply lookup_ge_None in Hi. naive_solver lia.
Qed.

(** ** First fit *)

(** [cap] free cells from [start] on. *)
Definition free_at (taken : list bool) (cap start : nat) : Prop :=
  ∀ i, start ≤ i < start + cap → taken !! i = Some false.

Lemma first_fit_spec cap rest pre run :
  run < cap → run ≤ length pre →
  (∀ i, length pre - run ≤ i < length pre → (pre ++ rest) !! i = Some false) →
  (∀ st, st < length pre - run → ¬ free_at (pre ++ rest) cap st) →
  match first_fit cap (length pre) run rest with
  | Some st => free_at (pre ++ rest) cap st ∧ ∀ st', st' < st → ¬ free_at (pre ++ rest) cap st'
  | None => ∀ st, ¬ free_at (pre ++ rest) cap st
  end.
Proof.
  revert pre run. induction rest as [|t rest IH]; intros pre run Hc Hl Hfree Hno; cbn [first_fit].
  - intros st. destruct (decide (st < length pre - run)); [by apply Hno|].
    intros Hst. assert (Hx : (pre ++ []) !! (st + cap - 1) = Some false) by (apply Hst; lia).
    apply lookup_lt_Some in Hx. rewrite app_nil_r in Hx. lia.
  - assert (Ht : (pre ++ t :: rest) !! length pre = Some t) by apply list_lookup_middle, eq_refl.
    replace (pre ++ t :: rest) with ((pre ++ [t]) ++ rest) in * by by rewrite <-app_assoc.
    replace (S (length pre)) with (length (pre ++ [t])) by (rewrite length_app; simpl; lia).
    destruct t.
    + apply IH; rewrite ?length_app; simpl; [lia..|].
      intros st Hst Hf. destruct (decide (st < length pre - run)) as [?|Hge].
      * by eapply Hno.
      * specialize (Hf (length pre)). rewrite Ht in Hf. assert (Some true = Some false); [|done].
        apply Hf. lia.
    + destruct (Nat.eqb_spec (S run) cap) as [Heq|Hne].
      * simpl. replace (length (pre ++ [false]) - cap) with (length pre - run) by (rewrite length_app; simpl; lia). split.
        -- intros i Hi. destruct (decide (i = length pre)) as [->|]; [done|].
           apply Hfree. lia.
        -- intros st' Hst'. apply Hno. lia.
      * apply IH; rewrite ?length_app; simpl; [lia..| |].
        -- intros i Hi. destruct (decide (i = length pre)) as [->|]; [done|]. apply Hfree. lia.
        -- intros st Hst. apply Hno. lia.
Qed.

Lemma first_fit_some c cap st :
  0 < cap → first_fit cap 0 0 (occupied c) = Some st →
  free_at (occupied c) cap st ∧ ∀ st', st' < st → ¬ free_at (occupied c) cap st'.
Proof.
  intros Hc H. pose proof (first_fit_spec cap (occupied c) [] 0) as Hs; simpl in Hs.
  rewrite H in Hs. apply Hs; simpl; intros; lia.
Qed.

Lemma first_fit_none c cap :
  0 < cap → first_fit cap 0 0 (occupied c) = None → ∀ st, ¬ free_at (occupied c) cap st.
Proof.
  intros Hc H. pose proof (first_fit_spec cap (occupied c) [] 0) as Hs; simpl in Hs.
  rewrite H in Hs. apply Hs; simpl; intros; lia.
Qed.

Lemma free_at_bound c cap st :
  0 < cap → free_at (occupied c) cap st → st + cap ≤ kv_n_ctx c.
Proof.
  intros Hc H. assert (Hx : occupied c !! (st + cap - 1) = Some false) by (apply H; lia).
  apply lookup_lt_Some in Hx. rewrite length_occupied in Hx. lia.
Qed.

(** In a coherent store a free run meets no run and no shared prefix. *)
Lemma free_at_disjoint c cap st seq slot :
  coherent c → kv_seqs c !! seq = Some slot → free_at (occupied c) cap st →
  ranges_disjoint st cap (sl_start slot) (sl_cap slot) ∧
  ranges_disjoint st cap (sh_cell (sl_shared slot)) (sh_rows (sl_shared slot)).
Proof.
  intros Hcoh Hs Hf.
  assert (Hno : ∀ base cell len, (base, cell, len) ∈ spans_of_slot slot →
            ranges_disjoint st cap cell len).
  { intros base cell len Hin. unfold ranges_disjoint.
    destruct (decide (cap = 0)), (decide (len = 0)); [lia..|].
    destruct (decide (st + cap ≤ cell)), (decide (cell + len ≤ st)); [lia..|].
    destruct (proj1 (occupied_false c (st `max` cell))) as [_ []].
    - apply Hf. lia.
    - exists seq, (spans_of_slot slot), base, cell, len.
      rewrite Hcoh, lookup_fmap, Hs. simpl. split_and!; [done..| |]; lia. }
  unfold spans_of_slot in Hno. split.
  - destruct (0 <? sl_cap slot) eqn:Hc; [|unfold ranges_disjoint; rewrite Nat.ltb_ge in Hc; lia].
    eapply Hno. apply elem_of_app. right. by apply list_elem_of_singleton.
  - destruct (0 <? sh_rows (sl_shared slot)) eqn:Hc;
      [|unfold ranges_disjoint; rewrite Nat.ltb_ge in Hc; lia].
    eapply Hno. apply elem_of_app. left. by apply list_elem_of_singleton.
Qed.

(** ** Preservation of the invariant *)

Lemma wf_slot c seq slot : kv_wf c → kv_seqs c !! seq = Some slot → slot_ok (kv_n_ctx c) slot.
Proof. intros H Hs. by apply (wf_slots _ H) in Hs. Qed.

Lemma runs_disjoint_insert seqs seq slot :
  runs_disjoint seqs →
  (∀ s' b, s' ≠ seq → seqs !! s' = Some b →
     ranges_disjoint (sl_start slot) (sl_cap slot) (sl_start b) (sl_cap b)) →
  runs_disjoint (<[seq := slot]> seqs).
Proof.
  intros H Hn s s' a b Hne.
  rewrite !lookup_insert. repeat case_decide; subst; try done; intros.
  - simplify_eq. eauto.
  - simplify_eq. apply ranges_disjoint_sym. eauto.
  - eauto.
Qed.

Lemma wf_insert_slot c seq slot :
  kv_wf c → slot_ok (kv_n_ctx c) slot →
  (∀ s' b, s' ≠ seq → kv_seqs c !! s' = Some b →
     ranges_disjoint (sl_start slot) (sl_cap slot) (sl_start b) (sl_cap b)) →
  kv_wf (refresh_spans seq (set_seqs (<[seq := slot]> (kv_seqs c)) c)).
Proof.
  intros [Hc Hs Hd Hl] Hok Hn. split.
  - apply coherent_insert; [done|]. by apply (ok_cap _ _ Hok).
  - autorewrite with kv; simpl. by apply map_Forall_insert_2.
  - autorewrite with kv; simpl. by apply runs_disjoint_insert.
  - by autorewrite with kv.
Qed.

(** The same run, with another share or written count. *)
Lemma wf_update_slot c seq slot slot' :
  kv_wf c → kv_seqs c !! seq = Some slot → slot_ok (kv_n_ctx c) slot' →
  sl_start slot' = sl_start slot → sl_cap slot' = sl_cap slot →
  kv_wf (refresh_spans seq (set_seqs (<[seq := slot']> (kv_seqs c)) c)).
Proof.
  intros H Hs Hok Hst Hcap. apply wf_insert_slot; [done..|].
  intros s' b Hne Hb. rewrite Hst, Hcap. apply (wf_disjoint _ H seq s'); done.
Qed.

Lemma wf_set_layers c layers :
  kv_wf c → layers_ok (kv_n_ctx c) layers → kv_wf (set_layers layers c).
Proof. intros [] ?. by split. Qed.

Lemma layers_ok_fmap n f layers :
  (∀ l, length (lay_owner l) = n → lay_n_used l ≤ n →
     length (lay_owner (f l)) = n ∧ lay_n_used (f l) ≤ n) →
  layers_ok n layers → layers_ok n (f <$> layers).
Proof.
  intros Hf H k l. rewrite lookup_fmap_Some. intros (l' & <- & Hk).
  destruct (H _ _ Hk). by apply Hf.
Qed.

Lemma layers_ok_update_all n f layers layers' :
  (∀ l l', f l = Some l' → length (lay_owner l) = n → lay_n_used l ≤ n →
     length (lay_owner l') = n ∧ lay_n_used l' ≤ n) →
  update_all f layers = Some layers' → layers_ok n layers → layers_ok n layers'.
Proof.
  intros Hf Hu H k l'. rewrite (lookup_update_all _ _ _ _ Hu).
  rewrite bind_Some. intros (l & Hk & Hl). destruct (H _ _ Hk). by eapply Hf.
Qed.

Lemma wf_new : kv_wf kv_new.
Proof.
  split; simpl.
  - unfold coherent; simpl. by rewrite fmap_empty.
  - apply map_Forall_empty.
  - intros s s' a b _ Ha. by rewrite lookup_empty in Ha.
  - apply map_Forall_empty.
Qed.

Lemma used_len_le o : used_len o ≤ length o.
Proof. apply rposition_len_le. Qed.

Lemma wf_reserve c seq cap slot c' :
  kv_wf c → reserve_seq seq cap c = (Ok slot, c') → kv_wf c'.
Proof.
  intros H. unfold reserve_seq.
  destruct (Nat.eqb_spec cap 0) as [|Hcap]; [done|].
  destruct (kv_seqs c !! seq) as [old|] eqn:Hold.
  { destruct (cap <=? sl_cap old); [|done]. by intros [= <- <-]. }
  destruct (kv_n_ctx c =? 0); [done|].
  destruct (first_fit cap 0 0 (occupied c)) as [st|] eqn:Hff; [|done].
  intros [= <- <-]. apply first_fit_some in Hff as [Hfree _]; [|lia].
  pose proof (free_at_bound c cap st ltac:(lia) Hfree).
  apply wf_insert_slot; [done| |].
  - split; simpl; lia.
  - intros s' b _ Hb. by eapply free_at_disjoint; [apply wf_coherent|..].
Qed.

Lemma wf_release c seq : kv_wf c → kv_wf (release_seq seq c).2.
Proof.
  intros H. unfold release_seq. destruct (kv_seqs c !! seq) as [slot|]; [|done]. simpl.
  destruct H as [Hc Hs Hd Hl]. apply wf_set_layers.
  - split; autorewrite with kv; simpl; [by apply coherent_delete|..|done].
    + by apply map_Forall_delete.
    + intros s s' a b Hne. rewrite !lookup_delete_Some. naive_solver.
  - autorewrite with kv; simpl. apply layers_ok_fmap; [|done].
    intros l ??; simpl. by rewrite length_fill_range.
Qed.

Lemma raise_written_bound c seq from n w B :
  w ≤ B → (∀ cell pos, pos_of_cell c seq cell = Some pos → pos < B) →
  w ≤ foldl (λ w cell, match pos_of_cell c seq cell with
                       | Some pos => w `max` (pos + 1) | None => w end)
        w (List.seq from n) ≤ B.
Proof.
  intros Hw Hp. revert from w Hw.
  induction n as [|n IH]; intros from w Hw; simpl; [lia|].
  destruct (pos_of_cell c seq from) as [pos|] eqn:Hpos; [|by apply IH].
  pose proof (Hp _ _ Hpos).
  destruct (IH (S from) (w `max` (pos + 1)) ltac:(lia)). lia.
Qed.

Lemma pos_of_cell_slot c seq cell slot :
  coherent c → kv_seqs c !! seq = Some slot →
  pos_of_cell c seq cell = find_map (span_pos cell) (spans_of_slot slot).
Proof. intros H Hs. unfold pos_of_cell. by rewrite H, lookup_fmap, Hs. Qed.

Lemma find_map_pos_bound s cell pos :
  find_map (span_pos cell) (spans_of_slot s) = Some pos →
  pos < sh_rows (sl_shared s) + sl_cap s.
Proof.
  unfold spans_of_slot.
  destruct (Nat.ltb_spec 0 (sh_rows (sl_shared s))), (Nat.ltb_spec 0 (sl_cap s)); simpl;
    repeat match goal with
    | |- context [?a <=? ?b] => destruct (Nat.leb_spec a b)
    | |- context [?a <? ?b] => destruct (Nat.ltb_spec a b)
    end; simpl; intros; simplify_eq; lia.
Qed.

Lemma wf_alter_written c seq w slot :
  kv_wf c → kv_seqs c !! seq = Some slot →
  sl_written slot ≤ w ≤ sh_rows (sl_shared slot) + sl_cap slot →
  kv_wf (set_seqs (alter (set_written w) seq (kv_seqs c)) c).
Proof.
  intros H Hs Hw. pose proof (wf_slot _ _ _ H Hs) as [].
  destruct H as [Hc Hsl Hd Hl]. split; simpl; [by apply coherent_written|..|done].
  - intros s b. rewrite lookup_alter_Some. intros [(-> & x & Hx & ->)|[_ Hb]]; [|by apply Hsl in Hb].
    simplify_eq. split; simpl; lia.
  - intros s s' a b Hne Ha Hb.
    assert (Hrun : ∀ s x, alter (set_written w) seq (kv_seqs c) !! s = Some x →
              ∃ y, kv_seqs c !! s = Some y ∧ sl_start x = sl_start y ∧ sl_cap x = sl_cap y).
    { intros s0 x. rewrite lookup_alter_Some. naive_solver. }
    destruct (Hrun _ _ Ha) as (a' & Ha' & -> & ->), (Hrun _ _ Hb) as (b' & Hb' & -> & ->).
    by eapply Hd.
Qed.

Lemma alter_missing {V} (f : V → V) (m : gmap N V) k : m !! k = None → alter f k m = m.
Proof.
  intros H. apply map_eq. intros j. rewrite lookup_alter. case_decide; [|done].
  subst. by rewrite H.
Qed.

Lemma wf_own_range c seq from to : kv_wf c → kv_wf (own_range seq from to c).
Proof.
  intros H. unfold own_range; simpl.
  assert (H1 : kv_wf (set_layers (own_layer seq from to <$> kv_layers c) c)).
  { apply wf_set_layers; [done|]. apply layers_ok_fmap; [|apply H].
    intros l ??; simpl. rewrite length_fill_range. lia. }
  revert H1. set (c1 := set_layers _ c). intros H1.
  change (kv_seqs c) with (kv_seqs c1).
  destruct (kv_seqs c1 !! seq) as [slot|] eqn:Hs.
  - apply (wf_alter_written _ _ _ _ H1 Hs).
    pose proof (wf_slot _ _ _ H1 Hs) as [].
    unfold written_rows. rewrite Hs; simpl.
    apply raise_written_bound; [done|]. intros cell pos.
    rewrite (pos_of_cell_slot _ _ _ _ (wf_coherent _ H1) Hs). apply find_map_pos_bound.
  - rewrite alter_missing by done. by destruct c1.
Qed.

Lemma wf_own_positions c seq ps : kv_wf c → kv_wf (own_positions seq ps c).2.
Proof.
  revert c. induction ps as [|pos ps IH]; intros c H; simpl; [done|].
  destruct (cell_of c seq pos); [|done]. by apply IH, wf_own_range.
Qed.

Lemma cell_of_some c seq pos cell :
  coherent c → cell_of c seq pos = Some cell →
  ∃ slot, kv_seqs c !! seq = Some slot ∧ slot_cell slot pos = Some cell.
Proof. intros H. rewrite cell_of_slot by done. by rewrite bind_Some. Qed.

Lemma share_prefix_inv src dst rows c c' :
  share_prefix src dst rows c = (Ok (), c') →
  ∃ donor slot cell,
    0 < rows ∧ src ≠ dst ∧
    kv_seqs c !! src = Some donor ∧ rows ≤ sl_written donor ∧
    kv_seqs c !! dst = Some slot ∧ sh_rows (sl_shared slot) = 0 ∧ sl_written slot = 0 ∧
    cell_of c src 0 = Some cell ∧ cell_of c src (rows - 1) = Some (cell + rows - 1) ∧
    c' = refresh_spans dst (set_seqs
           (<[dst := set_written rows (set_shared (mkShared cell rows) slot)]> (kv_seqs c)) c).
Proof.
  unfold share_prefix.
  destruct (Nat.eqb_spec rows 0); [done|]. destruct (N.eqb_spec src dst); [done|].
  destruct (kv_seqs c !! src) as [donor|] eqn:Hsrc; [|done].
  destruct (Nat.ltb_spec (sl_written donor) rows); [done|].
  destruct (kv_seqs c !! dst) as [slot|] eqn:Hdst; [|done].
  destruct (Nat.ltb_spec 0 (sh_rows (sl_shared slot))); [done|].
  destruct (Nat.ltb_spec 0 (sl_written slot)); [done|].
  destruct (cell_of c src 0) as [cell|] eqn:Hcell0; [|done].
  case_decide as Hlast; [|done]. intros [= <-].
  exists donor, slot, cell. split_and!; try done; lia.
Qed.

Lemma wf_share c src dst rows c' :
  kv_wf c → share_prefix src dst rows c = (Ok (), c') → kv_wf c'.
Proof.
  intros H (donor & slot & cell & ? & ? & ? & ? & Hdst & ? & ? & _ & Hl & ->)%share_prefix_inv.
  apply cell_of_some in Hl as (d & Hd & Hcell); [|apply H].
  pose proof (slot_cell_bound _ _ _ _ (wf_slot _ _ _ H Hd) Hcell).
  pose proof (wf_slot _ _ _ H Hdst) as [].
  apply (wf_update_slot _ _ slot); [done|done| |done|done].
  split; simpl; lia.
Qed.

(** ** Copy-on-write *)

Lemma private_row_for_inv seq t c sh :
  private_row_for seq t c = Ok (Some sh) →
  ∃ slot, kv_seqs c !! seq = Some slot ∧ t < sh_rows (sl_shared slot) ∧
    private_written slot + (sh_rows (sl_shared slot) - t) ≤ sl_cap slot ∧
    sh = mkShift seq t (sl_start slot) (sl_start slot + (sh_rows (sl_shared slot) - t))
           (private_written slot).
Proof.
  unfold private_row_for. destruct (kv_seqs c !! seq) as [slot|]; [|done].
  destruct (Nat.eqb_spec (sh_rows (sl_shared slot)) 0); [done|].
  destruct (Nat.leb_spec (sh_rows (sl_shared slot)) t); simpl; [done|].
  case_match eqn:Hlt; [done|]. apply Nat.ltb_ge in Hlt. intros [= <-]. eauto.
Qed.

Lemma shift_layer_some sh l :
  ks_from sh ≤ ks_to sh → ks_to sh + ks_rows sh ≤ length (lay_owner l) →
  ∃ o, length o = length (lay_owner l) ∧
    shift_layer sh l = Some (set_n_used (used_len o) (set_owner o l)).
Proof.
  intros Hle Hb. unfold shift_layer.
  destruct (0 <? ks_rows sh) eqn:Hr.
  - rewrite copy_within_some by lia. simpl. eexists. split; [|done].
    rewrite length_fill_range, !length_app, !length_take, !length_drop. lia.
  - simpl. eexists. split; [|done]. by rewrite length_fill_range.
Qed.

Lemma existsb_false_forall {A} (f : A → bool) l :
  (∀ x, x ∈ l → f x = false) → existsb f l = false.
Proof.
  intros H. apply not_true_iff_false. rewrite existsb_exists.
  intros (x & Hx & Hf). rewrite H in Hf; [done|]. by apply list_elem_of_In.
Qed.

(** A planned shift is always applied, in every layer. *)
Lemma apply_private_row_ok c seq t sh slot :
  kv_wf c → private_row_for seq t c = Ok (Some sh) → kv_seqs c !! seq = Some slot →
  ∃ layers c',
    update_all (shift_layer sh) (kv_layers c) = Some layers ∧
    apply_private_row sh c = (Ok (), c') ∧
    kv_layers c' = layers ∧ coherent c' ∧ kv_n_ctx c' = kv_n_ctx c ∧
    kv_seqs c' = <[seq := set_shared (mkShared (sh_cell (sl_shared slot)) t) slot]> (kv_seqs c).
Proof.
  intros H (slot' & Hs' & Ht & Hcap & ->)%private_row_for_inv Hs.
  assert (slot' = slot) as -> by congruence.
  pose proof (wf_slot _ _ _ H Hs) as [].
  set (sh := mkShift _ _ _ _ _).
  assert (Hall : ∀ k l, kv_layers c !! k = Some l →
            ks_to sh + ks_rows sh ≤ length (lay_owner l) ∧
            ks_from sh + ks_rows sh ≤ length (lay_owner l)).
  { intros k l Hk. apply (wf_layers _ H) in Hk as [-> _]. simpl. lia. }
  assert (Hupd : is_Some (update_all (shift_layer sh) (kv_layers c))).
  { unfold update_all. rewrite decide_True; [done|]. intros k l Hk.
    destruct (Hall _ _ Hk). destruct (shift_layer_some sh l) as (o & _ & ->); simpl in *; eauto; lia. }
  destruct Hupd as [layers Hupd]. exists layers.
  unfold apply_private_row. rewrite Hupd. change (ks_seq sh) with seq. rewrite Hs.
  change (ks_from sh) with (sl_start slot). change (ks_base sh) with t.
  change (ks_rows sh) with (private_written slot).
  rewrite !Nat.eqb_refl. simpl negb.
  rewrite (proj2 (Nat.leb_gt _ _) Ht). simpl orb.
  rewrite existsb_false_forall.
  - eexists. split_and!; [done|done| | | |]; simpl; [by autorewrite with kv| |by autorewrite with kv..].
    by apply (coherent_insert seq _ (set_layers layers c)); [apply H|].
  - intros [k l] Hk%elem_of_in_order. destruct (Hall _ _ Hk). simpl in *.
    apply orb_false_iff. rewrite !Nat.ltb_ge. lia.
Qed.

Lemma wf_private_row c seq t sh c' :
  kv_wf c → private_row_for seq t c = Ok (Some sh) → apply_private_row sh c = (Ok (), c') →
  kv_wf c'.
Proof.
  intros H Hp Ha.
  pose proof Hp as (slot & Hs & Ht & Hcap & Hsh)%private_row_for_inv.
  destruct (apply_private_row_ok _ _ _ _ _ H Hp Hs) as (layers & c1 & Hu & Ha' & Hl & Hc & Hn & Hq).
  rewrite Ha in Ha'. simplify_eq.
  pose proof (wf_slot _ _ _ H Hs) as []. unfold private_written in Hcap.
  split; [done|..]; rewrite ?Hn, ?Hq.
  - apply map_Forall_insert_2; [|apply H]. split; simpl; lia.
  - apply runs_disjoint_insert; [apply H|]. intros s' b Hne Hb. simpl.
    by apply (wf_disjoint _ H seq s').
  - eapply layers_ok_update_all; [|exact Hu|apply H].
    intros l l' Hl Hlen Hused. simpl in Hlen.
    destruct (shift_layer_some (mkShift seq t (sl_start slot)
      (sl_start slot + (sh_rows (sl_shared slot) - t)) (private_written slot)) l)
      as (o & Ho & Heq); simpl; [lia|unfold private_written in *; lia|].
    rewrite Heq in Hl. simplify_eq. simpl. pose proof (used_len_le o). lia.
Qed.

(** ** Physical removal *)

Lemma rm_layer_some start len l :
  usize_sized (lay_n_used l) → start + len ≤ lay_n_used l → lay_n_used l ≤ length (lay_owner l) →
  ∃ o, length o = length (lay_owner l) ∧
    rm_layer start len l = Some (set_n_used (lay_n_used l - len) (set_owner o l)).
Proof.
  intros Hu H1 H2. unfold rm_layer. rewrite usize_add_eq by (unfold usize_sized in *; lia).
  rewrite usize_sub_eq by (done || lia). rewrite copy_within_some by lia. simpl.
  eexists. split; [|done].
  rewrite length_fill_range, !length_app, !length_take, !length_drop. lia.
Qed.

Lemma wf_rm_layers start len ls nu c :
  usize_sized (start + len) → usize_sized (kv_n_ctx c) → kv_wf c → (∀ k l, (k, l) ∈ ls → length (lay_owner l) = kv_n_ctx c ∧ lay_n_used l ≤ kv_n_ctx c) →
  kv_wf (rm_layers start len ls nu c).2 ∧ (rm_layers start len ls nu c).1 ≠ Panic.
Proof.
  intros Hsl. revert nu c. induction ls as [|[k l] ls IH]; intros nu c Hn H Hls; simpl; [done|].
  rewrite usize_add_eq by done.
  destruct (Nat.ltb_spec (lay_n_used l) (start + len)) as [|Hle]; [done|].
  destruct (Hls k l) as [Hlen Hused]; [by left|].
  destruct (rm_layer_some start len l) as (o & Ho & ->); [unfold usize_sized in *; lia|lia..|].
  apply IH; [done|..].
  - apply wf_set_layers; [done|]. apply map_Forall_insert_2; [simpl; lia|apply H].
  - intros k' l' Hin. apply (Hls k' l'). by right.
Qed.

Lemma wf_after_rm start len c :
  usize_sized (start + len) → usize_sized (kv_n_ctx c) → kv_wf c → kv_wf (after_rm start len c).2 ∧ (after_rm start len c).1 ≠ Panic.
Proof.
  intros Hsl Hn H. unfold after_rm. destruct (existsb _ _); [done|].
  assert (Hgo : kv_wf (rm_layers start len (in_order (kv_layers c)) 0 c).2 ∧
                (rm_layers start len (in_order (kv_layers c)) 0 c).1 ≠ Panic).
  { apply wf_rm_layers; [done..|]. intros k l Hk%elem_of_in_order.
    by apply (wf_layers _ H) in Hk. }
  destruct (kv_seqs c !! SEQ_MAIN) as [slot|]; [|done].
  by destruct (0 <? _).
Qed.
