(* ===== verification/KvMoves.v ===== *)
(** * What applying a move does to the run table

    The lemmas behind compaction: one move rewrites the run table and the
    span lists as [moved_slot] says, plans produced by [compaction_plan] are
    packed and order preserving, and [order_moves] puts them in an order in
    which no move lands on rows that have not been copied yet. *)
From stdpp Require Import base numbers list gmap option sorting.
From S2P Require Import Prelude Slices KvCache KvFacts.

Definition caps_positive (c : KvCache) : Prop :=
  map_Forall (λ _ s, 0 < sl_cap s) (kv_seqs c).

(** The shared prefix of a slot meets the rows a move copies. *)
Definition in_moved_rows (m : KvMove) (s : SeqSlot) : bool :=
  negb ((sh_rows (sl_shared s) =? 0)
        || (mv_from m + mv_rows m <=? sh_cell (sl_shared s))
        || (sh_cell (sl_shared s) + sh_rows (sl_shared s) <=? mv_from m)).

Definition renumbered (m : KvMove) (s : SeqSlot) : SeqSlot :=
  set_shared (mkShared (mv_to m + (sh_cell (sl_shared s) - mv_from m))
                (sh_rows (sl_shared s))) s.

(** The slot of sequence [seq] after the move [m]. *)
Definition moved_slot (m : KvMove) (seq : N) (s : SeqSlot) : SeqSlot :=
  if (seq =? mv_seq m)%N then set_start (mv_to m) s
  else if (0 <? mv_rows m) && in_moved_rows m s then renumbered m s else s.

Definition straddles (m : KvMove) (s : SeqSlot) : Prop :=
  in_moved_rows m s = true ∧
  (sh_cell (sl_shared s) < mv_from m ∨
   mv_from m + mv_rows m < sh_cell (sl_shared s) + sh_rows (sl_shared s)).

(** The sharers a move renumbers. *)
Definition sharer_list (m : KvMove) (slots : list (N * SeqSlot)) : list N :=
  map fst (List.filter (λ p, negb (p.1 =? mv_seq m)%N && in_moved_rows m p.2) slots).

Lemma sharers_of_ok m slots :
  (∀ seq s, (seq, s) ∈ slots → seq ≠ mv_seq m → ¬ straddles m s) →
  sharers_of m slots = Ok (sharer_list m slots).
Proof.
  unfold sharer_list. induction slots as [|[seq s] slots IH]; intros Hno; simpl; [done|].
  assert (IH' : sharers_of m slots = Ok _) by (apply IH; intros; eapply Hno; [by right|done]).
  specialize (Hno seq s ltac:(by left)).
  unfold straddles, in_moved_rows in *.
  destruct (N.eqb_spec seq (mv_seq m)) as [|Hne]; simpl; [done|].
  specialize (Hno Hne).
  destruct (_ || _) in Hno |- *; simpl in *; [done|].
  destruct (Nat.ltb_spec (sh_cell (sl_shared s)) (mv_from m)); [naive_solver|].
  destruct (Nat.ltb_spec (mv_from m + mv_rows m)
              (sh_cell (sl_shared s) + sh_rows (sl_shared s))); [naive_solver|].
  simpl. by rewrite IH'.
Qed.

Lemma kv_seqs_renumber m c other s :
  kv_seqs (renumber_sharer m c other) !! s =
    if decide (s = other) then renumbered m <$> kv_seqs c !! s else kv_seqs c !! s.
Proof.
  unfold renumber_sharer. autorewrite with kv. simpl. rewrite lookup_alter.
  repeat case_decide; subst; done.
Qed.

Lemma coherent_renumber m c other :
  coherent c → caps_positive c →
  coherent (renumber_sharer m c other).
Proof.
  intros Hc Hcap. unfold renumber_sharer. apply coherent_refresh; simpl.
  - intros s Hs. rewrite lookup_alter_ne by done. by rewrite Hc, lookup_fmap.
  - intros slot. rewrite lookup_alter_Some. intros [(_ & x & Hx & ->)|[? _]]; [|done].
    simpl. by apply Hcap in Hx.
Qed.

Lemma fold_renumber m l c :
  NoDup l → coherent c → caps_positive c →
  let c' := foldl (renumber_sharer m) c l in
  coherent c' ∧ kv_n_ctx c' = kv_n_ctx c ∧ kv_layers c' = kv_layers c ∧
  ∀ s, kv_seqs c' !! s =
    if decide (s ∈ l) then renumbered m <$> kv_seqs c !! s else kv_seqs c !! s.
Proof.
  revert c. induction l as [|x l IH]; intros c Hnd Hc Hcap; simpl.
  - split_and!; try done.
  - apply NoDup_cons in Hnd as [Hx Hnd].
    destruct (IH (renumber_sharer m c x)) as (H1 & H2 & H3 & H4); [done| | |].
    + by apply coherent_renumber.
    + intros s slot. rewrite kv_seqs_renumber. case_decide.
      * rewrite fmap_Some. intros (y & Hy & ->). simpl. by apply Hcap in Hy.
      * intros Hy. by apply Hcap in Hy.
    + split_and!; [done| | |].
      * rewrite H2. unfold renumber_sharer. by autorewrite with kv.
      * rewrite H3. unfold renumber_sharer. by autorewrite with kv.
      * intros s. rewrite H4, kv_seqs_renumber.
        repeat case_decide; try set_solver.
Qed.

Lemma NoDup_sharer_list m slots : NoDup slots.*1 → NoDup (sharer_list m slots).
Proof.
  unfold sharer_list. induction slots as [|[k s] o IH]; simpl; [intros; constructor|].
  intros [Hk Hnd]%NoDup_cons. case_match; simpl; [|by apply IH].
  apply NoDup_cons. split; [|by apply IH]. intros Hin. apply Hk.
  apply list_elem_of_In, in_map_iff in Hin as ([k' s'] & <- & [Hf _]%filter_In).
  apply list_elem_of_In. by apply (in_map fst) in Hf.
Qed.

Lemma elem_of_sharer_list m seqs s :
  s ∈ sharer_list m (in_order seqs) ↔
    ∃ slot, seqs !! s = Some slot ∧ s ≠ mv_seq m ∧ in_moved_rows m slot = true.
Proof.
  unfold sharer_list. rewrite list_elem_of_In, in_map_iff. split.
  - intros ([k x] & <- & [Hin Hb]%filter_In). simpl in *. exists x.
    apply list_elem_of_In, elem_of_in_order in Hin. split; [done|].
    apply andb_true_iff in Hb as [Hb ?]. by destruct (N.eqb_spec k (mv_seq m)).
  - intros (x & Hin & Hne & Hb). exists (s, x). split; [done|].
    apply filter_In. rewrite <-list_elem_of_In, elem_of_in_order; simpl.
    destruct (N.eqb_spec s (mv_seq m)); [done|]. by rewrite Hb.
Qed.

(** The first half of a move: the moved run's own slot. *)
Definition relocate (m : KvMove) (layers : gmap N KvLayer) (c : KvCache) : KvCache :=
  refresh_spans (mv_seq m)
    (set_seqs (alter (set_start (mv_to m)) (mv_seq m) (kv_seqs c)) (set_layers layers c)).

Lemma kv_seqs_relocate m layers c s :
  kv_seqs (relocate m layers c) !! s =
    if decide (s = mv_seq m) then set_start (mv_to m) <$> kv_seqs c !! s else kv_seqs c !! s.
Proof.
  unfold relocate. autorewrite with kv. simpl. rewrite lookup_alter.
  repeat case_decide; subst; done.
Qed.

Lemma relocate_coherent m layers c :
  coherent c → caps_positive c →
  coherent (relocate m layers c) ∧ caps_positive (relocate m layers c).
Proof.
  intros Hc Hcap. split.
  - apply coherent_refresh; simpl.
    + intros s Hs. rewrite lookup_alter_ne by done. by rewrite Hc, lookup_fmap.
    + intros slot. rewrite lookup_alter_Some. intros [(_ & x & Hx & ->)|[? _]]; [|done].
      by apply Hcap in Hx.
  - intros s slot. rewrite kv_seqs_relocate. case_decide.
    + rewrite fmap_Some. intros (y & Hy & ->). by apply Hcap in Hy.
    + intros Hy. by apply Hcap in Hy.
Qed.

Definition no_straddle (m : KvMove) (c : KvCache) : Prop :=
  0 < mv_rows m → ∀ seq s, kv_seqs c !! seq = Some s → seq ≠ mv_seq m → ¬ straddles m s.

Lemma apply_move_eq m c layers :
  update_all (move_layer m) (kv_layers c) = Some layers →
  0 < mv_rows m → no_straddle m c →
  apply_move m c =
    (Ok (), foldl (renumber_sharer m) (relocate m layers c)
              (sharer_list m (in_order (kv_seqs (relocate m layers c))))).
Proof.
  intros Hu Hr Hno. unfold apply_move. rewrite Hu.
  change (refresh_spans (mv_seq m) _) with (relocate m layers c).
  rewrite (proj2 (Nat.ltb_lt _ _) Hr).
  rewrite sharers_of_ok; [done|].
  intros seq s Hin%elem_of_in_order Hne.
  rewrite kv_seqs_relocate, decide_False in Hin by done. by apply (Hno Hr seq).
Qed.

(** A move that carries rows. *)
Lemma apply_move_rows m c layers :
  coherent c → caps_positive c →
  update_all (move_layer m) (kv_layers c) = Some layers →
  0 < mv_rows m → no_straddle m c →
  ∃ c', apply_move m c = (Ok (), c') ∧ coherent c' ∧ kv_n_ctx c' = kv_n_ctx c ∧
    kv_layers c' = layers ∧ ∀ s, kv_seqs c' !! s = moved_slot m s <$> kv_seqs c !! s.
Proof.
  intros Hc Hcap Hu Hr Hno. rewrite (apply_move_eq m c layers) by done.
  destruct (relocate_coherent m layers c Hc Hcap) as [Hc1 Hcap1].
  destruct (fold_renumber m _ _ (NoDup_sharer_list m _
    (NoDup_in_order_keys (kv_seqs (relocate m layers c)))) Hc1 Hcap1)
    as (H1 & H2 & H3 & H4).
  eexists. split_and!; [done|done| | |].
  - rewrite H2. unfold relocate. by autorewrite with kv.
  - rewrite H3. unfold relocate. by autorewrite with kv.
  - intros s. rewrite H4. pose proof (elem_of_sharer_list m (kv_seqs (relocate m layers c)) s) as Hl.
    rewrite kv_seqs_relocate in *. unfold moved_slot.
    rewrite (proj2 (Nat.ltb_lt _ _) Hr); simpl.
    destruct (decide (s = mv_seq m)) as [->|Hne].
    + rewrite decide_False by (rewrite Hl; naive_solver). by rewrite N.eqb_refl.
    + rewrite (proj2 (N.eqb_neq _ _) Hne).
      destruct (kv_seqs c !! s) as [slot|]; simpl; [|by case_decide].
      destruct (in_moved_rows m slot) eqn:Hb.
      * rewrite decide_True by naive_solver. done.
      * rewrite decide_False; [done|]. rewrite Hl. intros (? & [= ->] & _ & ?). congruence.
Qed.

(** A run that has written nothing moves without touching the sharers. *)
Lemma apply_move_empty m c layers :
  coherent c → caps_positive c →
  update_all (move_layer m) (kv_layers c) = Some layers → mv_rows m = 0 →
  ∃ c', apply_move m c = (Ok (), c') ∧ coherent c' ∧ kv_n_ctx c' = kv_n_ctx c ∧
    kv_layers c' = layers ∧
    ∀ s, kv_seqs c' !! s = moved_slot m s <$> kv_seqs c !! s.
Proof.
  intros Hc Hcap Hu Hr. unfold apply_move. rewrite Hu, Hr. simpl.
  destruct (relocate_coherent m layers c Hc Hcap) as [Hc1 _].
  exists (relocate m layers c). split_and!; [done|done| | |].
  - unfold relocate. by autorewrite with kv.
  - unfold relocate. by autorewrite with kv.
  - intros s. rewrite kv_seqs_relocate. unfold moved_slot. rewrite Hr; simpl.
    destruct (N.eqb_spec s (mv_seq m)); [by rewrite decide_True|rewrite decide_False by done].
    by destruct (kv_seqs c !! s).
Qed.

(** One move, on the run table. *)
Lemma apply_move_spec m c layers :
  coherent c → caps_positive c →
  update_all (move_layer m) (kv_layers c) = Some layers → no_straddle m c →
  ∃ c', apply_move m c = (Ok (), c') ∧ coherent c' ∧ kv_n_ctx c' = kv_n_ctx c ∧
    kv_layers c' = layers ∧ ∀ s, kv_seqs c' !! s = moved_slot m s <$> kv_seqs c !! s.
Proof.
  intros. destruct (decide (mv_rows m = 0)).
  - by apply apply_move_empty.
  - apply apply_move_rows; [done..|lia|done].
Qed.

(** ** Safe plans

    [layout c] is where each sequence's own written rows are.  A plan is safe
    from a layout when every move starts where its run is, copies all its
    rows, and lands on cells no other sequence's rows are in at that point. *)
Definition layout (seqs : gmap N SeqSlot) : gmap N (nat * nat) :=
  (λ s, (sl_start s, private_written s)) <$> seqs.

Fixpoint safe_moves (n_ctx : nat) (ms : list KvMove) (lay : gmap N (nat * nat)) : Prop :=
  match ms with
  | [] => True
  | m :: ms =>
      lay !! mv_seq m = Some (mv_from m, mv_rows m) ∧
      mv_to m + mv_rows m ≤ n_ctx ∧
      (∀ s a n, s ≠ mv_seq m → lay !! s = Some (a, n) →
         ranges_disjoint (mv_to m) (mv_rows m) a n) ∧
      safe_moves n_ctx ms (<[mv_seq m := (mv_to m, mv_rows m)]> lay)
  end.

(** [m1] is below [m2], before and after the plan. *)
Definition below (m1 m2 : KvMove) : Prop :=
  mv_from m1 + mv_rows m1 ≤ mv_from m2 ∧ mv_from m1 < mv_from m2 ∧
  mv_to m1 + mv_rows m1 ≤ mv_to m2.

(** [m1] may be carried out before [m2]. *)
Definition may_precede (m1 m2 : KvMove) : Prop :=
  mv_seq m1 ≠ mv_seq m2 ∧
  ranges_disjoint (mv_to m1) (mv_rows m1) (mv_from m2) (mv_rows m2) ∧
  ranges_disjoint (mv_to m1) (mv_rows m1) (mv_to m2) (mv_rows m2).

Lemma safe_moves_intro n_ctx ms lay :
  (∀ m, m ∈ ms → lay !! mv_seq m = Some (mv_from m, mv_rows m) ∧
                 mv_to m + mv_rows m ≤ n_ctx) →
  StronglySorted may_precede ms →
  (∀ m s a n, m ∈ ms → s ∉ map mv_seq ms → lay !! s = Some (a, n) →
     ranges_disjoint (mv_to m) (mv_rows m) a n) →
  safe_moves n_ctx ms lay.
Proof.
  intros Hlay Hs. revert lay Hlay. induction Hs as [|m ms Hs IH Hm]; intros lay Hlay Hst; simpl; [done|].
  rewrite Forall_forall in Hm.
  destruct (Hlay m ltac:(by left)) as [Hl Hb]. split_and!; [done|done| |].
  - intros s a n Hne Ha.
    destruct (decide (s ∈ map mv_seq ms)) as [Hin|Hin].
    + apply list_elem_of_In, in_map_iff in Hin as (m2 & <- & Hin%list_elem_of_In).
      destruct (Hlay m2 ltac:(by right)) as [Hl2 _]. simplify_eq.
      by apply Hm.
    + apply (Hst m s); [by left| |done]. simpl. set_solver.
  - apply IH.
    + intros m2 Hin. destruct (Hm m2 Hin) as (Hne & _ & _).
      rewrite lookup_insert_ne by done. apply Hlay. by right.
    + intros m2 s a n Hin Hs2. rewrite lookup_insert. case_decide as Heq.
      * intros [= <- <-]. apply ranges_disjoint_sym. by apply Hm.
      * intros Ha. apply (Hst m2 s); [by right| |done]. simpl. set_solver.
Qed.

Lemma move_le_total x y : move_le x y = true ∨ move_le y x = true.
Proof.
  unfold move_le. repeat case_match; rewrite ?Nat.leb_le; lia.
Qed.
Lemma move_le_trans x y z : move_le x y = true → move_le y z = true → move_le x z = true.
Proof.
  unfold move_le. repeat case_match; rewrite ?Nat.leb_le; lia.
Qed.

(** The order [order_moves] chooses is safe. *)
Lemma move_le_may_precede m1 m2 :
  mv_seq m1 ≠ mv_seq m2 → mv_from m2 ≠ mv_to m2 → below m1 m2 ∨ below m2 m1 →
  move_le m1 m2 = true → may_precede m1 m2.
Proof.
  unfold move_le, may_precede, below, ranges_disjoint. intros Hne H2 Hb Hle.
  split; [done|].
  destruct (Nat.ltb_spec (mv_from m1) (mv_to m1)), (Nat.ltb_spec (mv_from m2) (mv_to m2));
    rewrite ?Nat.leb_le in Hle; try done; lia.
Qed.

Lemma order_moves_sorted ms :
  NoDup (map mv_seq ms) →
  (∀ m, m ∈ ms → mv_from m ≠ mv_to m) →
  (∀ m1 m2, m1 ∈ ms → m2 ∈ ms → mv_seq m1 ≠ mv_seq m2 → below m1 m2 ∨ below m2 m1) →
  StronglySorted may_precede (order_moves ms).
Proof.
  intros Hnd Hne Hb.
  pose proof (sort_by_sorted move_le move_le_total move_le_trans ms) as Hs.
  fold (order_moves ms) in Hs.
  assert (Hp : order_moves ms ≡ₚ ms) by apply sort_by_perm.
  assert (Hnd' : NoDup (map mv_seq (order_moves ms))) by by rewrite Hp.
  assert (Hin : ∀ m, m ∈ order_moves ms → m ∈ ms) by (intros m; by rewrite Hp).
  clear Hp. revert Hnd' Hin. induction Hs as [|m l Hs IH Hm]; simpl; intros Hnd' Hin; [constructor|].
  apply NoDup_cons in Hnd' as [Hfresh Hnd']. constructor.
  - apply IH; [done|]. intros m' ?. apply Hin. by right.
  - rewrite Forall_forall in Hm |- *. intros m2 Hm2.
    assert (mv_seq m ≠ mv_seq m2).
    { intros Heq. apply Hfresh. rewrite Heq. apply list_elem_of_In.
      apply in_map. by apply list_elem_of_In. }
    apply move_le_may_precede; [done| | |by apply Hm].
    + apply Hne, Hin. by right.
    + apply Hb; [apply Hin; by left|apply Hin; by right|done].
Qed.

(** ** Carrying out a safe plan *)

(** Every shared prefix lies in the written rows of a live run. *)
Definition backed (seqs : gmap N SeqSlot) : Prop :=
  ∀ s a, seqs !! s = Some a → 0 < sh_rows (sl_shared a) →
    ∃ d b, d ≠ s ∧ seqs !! d = Some b ∧
      sl_start b ≤ sh_cell (sl_shared a) ∧
      sh_cell (sl_shared a) + sh_rows (sl_shared a) ≤ sl_start b + private_written b.

(** What holds between the moves of a plan: the written rows are apart, even
    where the reservations are not yet. *)
Record arranged (c : KvCache) : Prop := {
  arr_coherent : coherent c;
  arr_slots : map_Forall (λ _ s, 0 < sl_cap s ∧ sh_rows (sl_shared s) ≤ sl_written s ∧
                sl_written s ≤ sh_rows (sl_shared s) + sl_cap s) (kv_seqs c);
  arr_disjoint : ∀ s s' a b, s ≠ s' → kv_seqs c !! s = Some a → kv_seqs c !! s' = Some b →
    ranges_disjoint (sl_start a) (private_written a) (sl_start b) (private_written b);
  arr_backed : backed (kv_seqs c);
  arr_layers : layers_ok (kv_n_ctx c) (kv_layers c)
}.

(** The rows of a region after a move, and after a list of moves. *)
Definition move_rows {X} (m : KvMove) (f : nat → X) : nat → X := λ i,
  if decide (mv_to m ≤ i < mv_to m + mv_rows m) then f (mv_from m + (i - mv_to m)) else f i.

Fixpoint moved_rows {X} (ms : list KvMove) (f : nat → X) : nat → X :=
  match ms with [] => f | m :: ms => moved_rows ms (move_rows m f) end.

Lemma moved_slot_same m s a :
  sl_cap (moved_slot m s a) = sl_cap a ∧ sl_written (moved_slot m s a) = sl_written a ∧
  sh_rows (sl_shared (moved_slot m s a)) = sh_rows (sl_shared a) ∧
  private_written (moved_slot m s a) = private_written a ∧
  sl_start (moved_slot m s a) = if (s =? mv_seq m)%N then mv_to m else sl_start a.
Proof. unfold moved_slot, private_written. repeat case_match; done. Qed.

(** Where a shared prefix goes: with its donor's rows. *)
Lemma moved_slot_shared m s a d b :
  mv_from m = sl_start b ∧ mv_rows m = private_written b ∨ d ≠ mv_seq m →
  (d ≠ mv_seq m → ranges_disjoint (mv_from m) (mv_rows m) (sl_start b) (private_written b)) →
  0 < sh_rows (sl_shared a) → d ≠ s → 
  sl_start b ≤ sh_cell (sl_shared a) →
  sh_cell (sl_shared a) + sh_rows (sl_shared a) ≤ sl_start b + private_written b →
  sh_cell (sl_shared (moved_slot m s a)) =
    if decide (d = mv_seq m) then mv_to m + (sh_cell (sl_shared a) - mv_from m)
    else sh_cell (sl_shared a).
Proof.
  intros Hm Hd Hr Hne Hlo Hhi. unfold moved_slot, in_moved_rows.
  destruct (decide (d = mv_seq m)) as [->|Hdm].
  - destruct Hm as [[Hf Hrows]|]; [|done].
    rewrite (proj2 (N.eqb_neq _ _)) by congruence.
    repeat match goal with
    | |- context [?x <? ?y] => destruct (Nat.ltb_spec x y)
    | |- context [?x <=? ?y] => destruct (Nat.leb_spec x y)
    | |- context [?x =? ?y] => destruct (Nat.eqb_spec x y)
    end; simpl; try lia; done.
  - specialize (Hd Hdm). unfold ranges_disjoint in Hd.
    case_match; [done|].
    repeat match goal with
    | |- context [?x <? ?y] => destruct (Nat.ltb_spec x y)
    | |- context [?x <=? ?y] => destruct (Nat.leb_spec x y)
    | |- context [?x =? ?y] => destruct (Nat.eqb_spec x y)
    end; simpl; try lia; done.
Qed.

Lemma move_layer_some n m l :
  mv_to m + mv_rows m ≤ n → mv_from m + mv_rows m ≤ n →
  length (lay_owner l) = n →
  ∃ o, length o = n ∧ move_layer m l = Some (set_n_used (used_len o) (set_owner o l)).
Proof.
  intros Ht Hf Hl. unfold move_layer.
  rewrite Nat.min_l by lia. destruct (0 <? mv_rows m).
  - rewrite copy_within_some by lia. simpl. eexists. split; [|done].
    rewrite length_fill_range, !length_app, !length_take, !length_drop. lia.
  - simpl. by eexists.
Qed.

Lemma layout_lookup seqs s a n :
  layout seqs !! s = Some (a, n) ↔
    ∃ slot, seqs !! s = Some slot ∧ sl_start slot = a ∧ private_written slot = n.
Proof. unfold layout. rewrite lookup_fmap_Some. naive_solver. Qed.

Section step.
Context (m : KvMove) (c : KvCache) (slot : SeqSlot).
Context (Harr : arranged c) (Hslot : kv_seqs c !! mv_seq m = Some slot).
Context (Hfrom : mv_from m = sl_start slot) (Hrows : mv_rows m = private_written slot).
Context (Hdst : ∀ s a, s ≠ mv_seq m → kv_seqs c !! s = Some a →
           ranges_disjoint (mv_to m) (mv_rows m) (sl_start a) (private_written a)).

Lemma src_disjoint s a :
  s ≠ mv_seq m → kv_seqs c !! s = Some a →
  ranges_disjoint (mv_from m) (mv_rows m) (sl_start a) (private_written a).
Proof using Harr Hslot Hfrom Hrows.
  intros Hne Ha. rewrite Hfrom, Hrows. by apply (arr_disjoint _ Harr (mv_seq m) s).
Qed.

Lemma shared_after s a d b :
  kv_seqs c !! s = Some a → 0 < sh_rows (sl_shared a) → d ≠ s → kv_seqs c !! d = Some b →
  sl_start b ≤ sh_cell (sl_shared a) →
  sh_cell (sl_shared a) + sh_rows (sl_shared a) ≤ sl_start b + private_written b →
  sh_cell (sl_shared (moved_slot m s a)) =
    if decide (d = mv_seq m) then mv_to m + (sh_cell (sl_shared a) - mv_from m)
    else sh_cell (sl_shared a).
Proof using Harr Hslot Hfrom Hrows.
  intros Ha Hr Hne Hb Hlo Hhi. apply (moved_slot_shared m s a d b); try done.
  - destruct (decide (d = mv_seq m)) as [->|]; [|by right]. left. by simplify_eq.
  - intros. by apply (src_disjoint d).
Qed.

Lemma step_no_straddle : no_straddle m c.
Proof using Harr Hslot Hfrom Hrows.
  intros Hr s a Ha Hne [Hin Hst]. unfold in_moved_rows in Hin.
  rewrite negb_true_iff, !orb_false_iff, Nat.eqb_neq, !Nat.leb_gt in Hin.
  destruct (arr_backed _ Harr s a Ha ltac:(lia)) as (d & b & Hd & Hb & Hlo & Hhi).
  destruct (decide (d = mv_seq m)) as [->|Hdm].
  - simplify_eq. lia.
  - pose proof (src_disjoint d b Hdm Hb). unfold ranges_disjoint in *. lia.
Qed.

Lemma step_rows {X} (f : nat → X) c' s pos :
  coherent c' → (∀ s, kv_seqs c' !! s = moved_slot m s <$> kv_seqs c !! s) →
  pos < written_rows c s →
  move_rows m f <$> cell_of c' s pos = f <$> cell_of c s pos.
Proof using Harr Hslot Hfrom Hrows Hdst.
  intros Hc' Hq Hpos. rewrite !cell_of_slot, Hq by (done || apply Harr).
  unfold written_rows in Hpos. destruct (kv_seqs c !! s) as [a|] eqn:Ha; simpl in *; [|done].
  destruct (arr_slots _ Harr s a Ha) as (Hcap & Hsw & Hw).
  destruct (moved_slot_same m s a) as (Ecap & Ew & Er & Epw & Est).
  destruct (decide (pos < sh_rows (sl_shared a))) as [Hsh|Hpr].
  - destruct (arr_backed _ Harr s a Ha ltac:(lia)) as (d & b & Hd & Hb & Hlo & Hhi).
    rewrite !slot_cell_shared by lia. simpl. f_equal. unfold move_rows.
    rewrite (shared_after s a d b) by (done || lia).
    destruct (decide (d = mv_seq m)) as [->|Hdm].
    + simplify_eq. rewrite decide_True by lia. f_equal. lia.
    + pose proof (Hdst d b Hdm Hb). unfold ranges_disjoint in *.
      rewrite decide_False; [done|lia].
  - assert (pos - sh_rows (sl_shared a) < private_written a) by (unfold private_written; lia).
    rewrite !slot_cell_private by lia. simpl. f_equal. unfold move_rows.
    rewrite Er, Est. destruct (N.eqb_spec s (mv_seq m)) as [->|Hne].
    + simplify_eq. rewrite decide_True by lia. f_equal. lia.
    + pose proof (Hdst s a Hne Ha). unfold ranges_disjoint in *.
      rewrite decide_False; [done|lia].
Qed.
End step.

Section step_arranged.
Context (m : KvMove) (c : KvCache) (slot : SeqSlot).
Context (Harr : arranged c) (Hslot : kv_seqs c !! mv_seq m = Some slot).
Context (Hfrom : mv_from m = sl_start slot) (Hrows : mv_rows m = private_written slot).
Context (Hbound : mv_to m + mv_rows m ≤ kv_n_ctx c).
Context (Hsrc : mv_from m + mv_rows m ≤ kv_n_ctx c).
Context (Hdst : ∀ s a, s ≠ mv_seq m → kv_seqs c !! s = Some a →
           ranges_disjoint (mv_to m) (mv_rows m) (sl_start a) (private_written a)).

Lemma step_backed seqs' :
  (∀ s, seqs' !! s = moved_slot m s <$> kv_seqs c !! s) → backed seqs'.
Proof using Harr Hslot Hfrom Hrows Hbound Hsrc.
  intros Hq s a'. rewrite Hq, fmap_Some. intros (a & Ha & ->) Hr.
  destruct (moved_slot_same m s a) as (_ & _ & Er & _ & _). rewrite Er in *.
  destruct (arr_backed _ Harr s a Ha Hr) as (d & b & Hd & Hb & Hlo & Hhi).
  destruct (moved_slot_same m d b) as (_ & _ & _ & Epw & Est).
  exists d, (moved_slot m d b). rewrite Hq, Hb; simpl.
  erewrite (shared_after m c slot Harr Hslot Hfrom Hrows s a d b) by done.
  rewrite Epw, Est. split; [done|split; [done|]].
  destruct (N.eqb_spec d (mv_seq m)) as [->|Hne].
  - rewrite decide_True by done. simplify_eq. lia.
  - rewrite decide_False by done. lia.
Qed.

Lemma step_arranged :
  ∃ c', apply_move m c = (Ok (), c') ∧ arranged c' ∧ kv_n_ctx c' = kv_n_ctx c ∧
    (∀ s, kv_seqs c' !! s = moved_slot m s <$> kv_seqs c !! s) ∧
    update_all (move_layer m) (kv_layers c) = Some (kv_layers c').
Proof using Harr Hslot Hfrom Hrows Hbound Hsrc Hdst.
  assert (Hu : is_Some (update_all (move_layer m) (kv_layers c))).
  { unfold update_all. rewrite decide_True; [done|]. intros k l Hk.
    destruct (arr_layers _ Harr k l Hk) as [Hl _].
    destruct (move_layer_some (kv_n_ctx c) m l) as (o & _ & ->); [done..|by eexists]. }
  destruct Hu as [layers Hu].
  assert (Hcap : caps_positive c).
  { intros s a Ha. by destruct (arr_slots _ Harr s a Ha). }
  destruct (apply_move_spec m c layers (arr_coherent _ Harr) Hcap Hu
    (step_no_straddle m c slot Harr Hslot Hfrom Hrows)) as (c' & Hok & Hc' & Hn & Hl & Hq).
  exists c'. subst layers. split_and!; [done| |done..].
  split; [done| | |by apply step_backed|].
  - intros s a'. rewrite Hq, fmap_Some. intros (a & Ha & ->).
    destruct (arr_slots _ Harr s a Ha) as (?&?&?).
    destruct (moved_slot_same m s a) as (->&->&->&_&_). done.
  - intros s s' a' b' Hne. rewrite !Hq, !fmap_Some. intros (a & Ha & ->) (b & Hb & ->).
    destruct (moved_slot_same m s a) as (_&_&_&->&->).
    destruct (moved_slot_same m s' b) as (_&_&_&->&->).
    destruct (N.eqb_spec s (mv_seq m)) as [->|Hs], (N.eqb_spec s' (mv_seq m)) as [->|Hs'].
    + done.
    + simplify_eq. rewrite <-Hrows. by apply (Hdst s').
    + simplify_eq. rewrite <-Hrows. apply ranges_disjoint_sym. by apply (Hdst s).
    + by apply (arr_disjoint _ Harr s s').
  - rewrite Hn. eapply layers_ok_update_all; [|exact Hu|apply Harr].
    intros l l' Hml Hlen _.
    destruct (move_layer_some (kv_n_ctx c) m l) as (o & Ho & Heq); [done..|].
    rewrite Heq in Hml. simplify_eq. simpl. pose proof (used_len_le o). lia.
Qed.
End step_arranged.

Lemma moved_rows_ext {X} ms (f g : nat → X) :
  (∀ i, f i = g i) → ∀ i, moved_rows ms f i = moved_rows ms g i.
Proof.
  revert f g. induction ms as [|m ms IH]; intros f g H i; simpl; [done|].
  apply IH. intros j. unfold move_rows. case_decide; apply H.
Qed.

Lemma written_rows_moved m c c' s :
  (∀ s, kv_seqs c' !! s = moved_slot m s <$> kv_seqs c !! s) →
  written_rows c' s = written_rows c s.
Proof.
  intros Hq. unfold written_rows. rewrite Hq. destruct (kv_seqs c !! s) as [a|]; simpl; [|done].
  by destruct (moved_slot_same m s a) as (_&->&_).
Qed.

(** Layers keep everything but their owner tables. *)
Definition same_regions (l l' : KvLayer) : Prop :=
  lay_k l' = lay_k l ∧ lay_v l' = lay_v l ∧ lay_elems l' = lay_elems l ∧
  lay_n_ctx l' = lay_n_ctx l.

Lemma move_layer_regions m l l' : move_layer m l = Some l' → same_regions l l'.
Proof.
  unfold move_layer. rewrite bind_Some. intros (o & _ & [= <-]). done.
Qed.

Definition layers_same (c c' : KvCache) : Prop :=
  ∀ k, option_relation same_regions (λ _, False) (λ _, False) (kv_layers c !! k) (kv_layers c' !! k).

(** The final slot of a sequence under a plan. *)
Definition final_start (ms : list KvMove) (s : N) (start : nat) : nat :=
  from_option mv_to start (List.find (λ m, (mv_seq m =? s)%N) ms).

Lemma find_move_none ms s :
  s ∉ map mv_seq ms → List.find (λ m, (mv_seq m =? s)%N) ms = None.
Proof.
  induction ms as [|m ms IH]; simpl; [done|]. rewrite not_elem_of_cons. intros [Hne Hin].
  rewrite (proj2 (N.eqb_neq _ _)) by congruence. by apply IH.
Qed.

(** A safe plan is carried out, and every written position keeps its row. *)
Lemma apply_move_list_safe ms c :
  arranged c → NoDup (map mv_seq ms) →
  (∀ m, m ∈ ms → mv_from m + mv_rows m ≤ kv_n_ctx c) →
  safe_moves (kv_n_ctx c) ms (layout (kv_seqs c)) →
  ∃ c', apply_move_list ms c = (Ok (), c') ∧ arranged c' ∧ kv_n_ctx c' = kv_n_ctx c ∧
    layers_same c c' ∧
    (∀ s, written_rows c' s = written_rows c s) ∧
    (∀ s, (λ a, (final_start ms s (sl_start a), sl_cap a)) <$> kv_seqs c !! s =
          (λ a, (sl_start a, sl_cap a)) <$> kv_seqs c' !! s) ∧
    ∀ X (f : nat → X) s pos, pos < written_rows c s →
      moved_rows ms f <$> cell_of c' s pos = f <$> cell_of c s pos.
Proof.
  revert c. induction ms as [|m ms IH]; intros c Harr Hnd Hsrc Hsafe; simpl.
  { exists c. split_and!; try done. intros k. by destruct (kv_layers c !! k). }
  destruct Hsafe as (Hlay & Hto & Hdst & Hsafe).
  apply NoDup_cons in Hnd as [Hfresh Hnd].
  apply layout_lookup in Hlay as (slot & Hslot & Hfrom & Hrows).
  assert (Hdst' : ∀ s a, s ≠ mv_seq m → kv_seqs c !! s = Some a →
     ranges_disjoint (mv_to m) (mv_rows m) (sl_start a) (private_written a)).
  { intros s a Hne Ha. apply (Hdst s); [done|]. apply layout_lookup. eauto. }
  destruct (step_arranged m c slot Harr Hslot (eq_sym Hfrom) (eq_sym Hrows) Hto
    (Hsrc m ltac:(by left)) Hdst') as (c1 & Hok & Harr1 & Hn1 & Hq & Hu).
  rewrite Hok.
  destruct (IH c1) as (c' & Hok' & Harr' & Hn' & Hls & Hw' & Hst & Hrow); [done|done| | |].
  { intros m' ?. rewrite Hn1. apply Hsrc. by right. }
  { rewrite Hn1. replace (layout (kv_seqs c1)) with
      (<[mv_seq m := (mv_to m, mv_rows m)]> (layout (kv_seqs c))); [done|].
    apply map_eq. intros s. unfold layout. rewrite lookup_insert, !lookup_fmap, Hq.
    case_decide as Hs; [subst s; rewrite Hslot|destruct (kv_seqs c !! s) as [a|]]; simpl; try done.
    - destruct (moved_slot_same m (mv_seq m) slot) as (_&_&_&->&->). by rewrite N.eqb_refl, Hrows.
    - destruct (moved_slot_same m s a) as (_&_&_&->&->).
      by rewrite (proj2 (N.eqb_neq _ _)) by congruence. }
  exists c'. split_and!; [done|done|congruence| | | |].
  - intros k. specialize (Hls k). rewrite (lookup_update_all _ _ _ _ Hu) in Hls.
    destruct (kv_layers c !! k) as [l|] eqn:Hl; simpl in *; [|done].
    destruct (update_all_some _ _ _ _ _ Hu Hl) as [l1 Hl1]. rewrite Hl1 in Hls.
    destruct (kv_layers c' !! k) as [l2|]; simpl in *; [|done].
    apply move_layer_regions in Hl1. unfold same_regions in *. naive_solver congruence.
  - intros s. by rewrite Hw', (written_rows_moved m c c1 s Hq).
  - intros s. rewrite <-Hst, Hq. destruct (kv_seqs c !! s) as [a|]; simpl; [|done].
    destruct (moved_slot_same m s a) as (->&_&_&_&->). unfold final_start; simpl.
    rewrite (N.eqb_sym s). destruct (N.eqb_spec (mv_seq m) s) as [<-|]; [|done].
    simpl. replace (List.find _ ms) with (@None KvMove); [done|].
    symmetry. by apply find_move_none.
  - intros X f s pos Hpos. rewrite Hrow by by rewrite (written_rows_moved m c c1 s Hq).
    apply (step_rows m c slot Harr Hslot); try done. apply Harr1.
Qed.
