(* ===== verification/KvPlans.v ===== *)
(** * Compaction plans are carried out

    A plan is seen here as the list of the runs with the place each one ends
    at ([placed]).  [plan_loop] only makes plans whose places keep the runs'
    order ([packed]); [apply_moves] accepts such a plan, carries it out, and
    every written position keeps its row. *)
From stdpp Require Import base numbers list gmap option sorting.
From S2P Require Import Prelude Slices KvCache KvFacts KvMoves.

Lemma ss_perm_sym {A} (R : A → A → Prop) l l' :
  (∀ x y, R x y → R y x) → l ≡ₚ l' → StronglySorted R l → StronglySorted R l'.
Proof.
  intros Hsym Hp. induction Hp as [|x l l' Hp IH|x y l|]; [done| | |by auto].
  - intros [Hl Hx]%StronglySorted_inv. constructor; [by apply IH|]. by rewrite <-Hp.
  - intros [[Hl Hx]%StronglySorted_inv Hy]%StronglySorted_inv.
    inversion Hy; subst. repeat constructor; auto.
Qed.

Lemma ss_and {A} (R S : A → A → Prop) l :
  StronglySorted R l → StronglySorted S l → StronglySorted (λ x y, R x y ∧ S x y) l.
Proof.
  induction 1 as [|x l Hl IH Hx]; intros H; [constructor|].
  apply StronglySorted_inv in H as [H1 H2]. constructor; [by apply IH|].
  by apply Forall_and.
Qed.

Lemma ss_mono {A} (R S : A → A → Prop) l :
  (∀ x y, x ∈ l → y ∈ l → R x y → S x y) → StronglySorted R l → StronglySorted S l.
Proof.
  intros H Hs. induction Hs as [|x l Hl IH Hx]; constructor.
  - apply IH. intros. apply H; [by right|by right|done].
  - rewrite Forall_forall in *. intros y Hy. apply H; [by left|by right|by apply Hx].
Qed.

Lemma ss_map {A B} (f : A → B) (R : B → B → Prop) l :
  StronglySorted (λ x y, R (f x) (f y)) l → StronglySorted R (map f l).
Proof.
  induction 1 as [|x l Hl IH Hx]; simpl; constructor; [done|]. by apply Forall_map.
Qed.

Lemma ss_pair {A} (R : A → A → Prop) l x y :
  StronglySorted R l → x ∈ l → y ∈ l → x = y ∨ R x y ∨ R y x.
Proof.
  induction 1 as [|z l Hl IH Hz]; [by intros ?%elem_of_nil|].
  rewrite Forall_forall in Hz. rewrite !elem_of_cons. intros [->|Hx] [->|Hy]; auto.
Qed.

(** ** Places *)

Record placed := mkPlaced { pl_seq : N; pl_slot : SeqSlot; pl_to : nat }.

Definition place_move (p : placed) : list KvMove :=
  if sl_start (pl_slot p) =? pl_to p then []
  else [mkMove (pl_seq p) (sl_start (pl_slot p)) (pl_to p) (private_written (pl_slot p))].

Definition moves_of (ps : list placed) : list KvMove := concat (map place_move ps).

Definition stay (r : N * SeqSlot) : placed := mkPlaced r.1 r.2 (sl_start r.2).

(** Where [plan_loop] leaves each run. *)
Fixpoint places (n_ctx : nat) (need : option nat) (cursor : nat)
    (runs : list (N * SeqSlot)) : list placed :=
  match runs with
  | [] => []
  | (seq, slot) :: rest =>
      let cursor' := cursor + sl_cap slot in
      let gap_end := match rest with [] => n_ctx | (_, next) :: _ => sl_start next end in
      mkPlaced seq slot cursor ::
      (if match need with Some n => n <=? gap_end - cursor' | None => false end
       then map stay rest else places n_ctx need cursor' rest)
  end.

Lemma moves_of_stay runs : moves_of (map stay runs) = [].
Proof.
  unfold moves_of. induction runs as [|r runs IH]; simpl; [done|].
  rewrite IH. unfold place_move; simpl. by rewrite Nat.eqb_refl.
Qed.

Lemma plan_loop_places n_ctx need cursor runs :
  plan_loop n_ctx need cursor runs = moves_of (places n_ctx need cursor runs).
Proof.
  revert cursor. induction runs as [|[seq slot] rest IH]; intros cursor; simpl; [done|].
  unfold moves_of in *. rewrite map_cons, concat_cons.
  assert (Hm : (if sl_start slot =? cursor then []
                else [mkMove seq (sl_start slot) cursor (private_written slot)])
               = place_move (mkPlaced seq slot cursor)) by done.
  rewrite Hm. destruct (match need with Some n => _ | None => false end).
  - fold (moves_of (map stay rest)). by rewrite moves_of_stay, app_nil_r.
  - by rewrite IH.
Qed.

Lemma stay_runs (runs : list (N * SeqSlot)) :
  map (λ p, (pl_seq p, pl_slot p)) (map stay runs) = runs.
Proof. induction runs as [|[] runs IH]; simpl; [done|]. by rewrite IH. Qed.

Lemma places_runs n_ctx need cursor runs :
  map (λ p, (pl_seq p, pl_slot p)) (places n_ctx need cursor runs) = runs.
Proof.
  revert cursor. induction runs as [|[seq slot] rest IH]; intros cursor; simpl; [done|].
  f_equal. destruct (match need with Some n => _ | None => false end); [|by apply IH].
  apply stay_runs.
Qed.

Record placed_ok (n_ctx : nat) (p : placed) : Prop := {
  po_cap : 0 < sl_cap (pl_slot p);
  po_rows : private_written (pl_slot p) ≤ sl_cap (pl_slot p);
  po_to : pl_to p + sl_cap (pl_slot p) ≤ n_ctx;
  po_from : sl_start (pl_slot p) + private_written (pl_slot p) ≤ n_ctx
}.

Definition placed_before (p q : placed) : Prop :=
  pl_seq p ≠ pl_seq q ∧
  sl_start (pl_slot p) + private_written (pl_slot p) ≤ sl_start (pl_slot q) ∧
  sl_start (pl_slot p) < sl_start (pl_slot q) ∧
  pl_to p + sl_cap (pl_slot p) ≤ pl_to q.

(** The places keep the order of the runs, and are apart. *)
Definition packed (n_ctx : nat) (ps : list placed) : Prop :=
  StronglySorted placed_before ps ∧ Forall (placed_ok n_ctx) ps.

(** Two runs in arena order, by their reservations and by their rows. *)
Definition run_before (a b : N * SeqSlot) : Prop :=
  a.1 ≠ b.1 ∧ sl_start a.2 + sl_cap a.2 ≤ sl_start b.2.
Definition rows_before (a b : N * SeqSlot) : Prop :=
  a.1 ≠ b.1 ∧ sl_start a.2 < sl_start b.2 ∧
  sl_start a.2 + private_written a.2 ≤ sl_start b.2.
Definition run_ok (n_ctx : nat) (a : N * SeqSlot) : Prop :=
  0 < sl_cap a.2 ∧ private_written a.2 ≤ sl_cap a.2 ∧ sl_start a.2 + sl_cap a.2 ≤ n_ctx.

Lemma in_places n_ctx need cursor runs p :
  p ∈ places n_ctx need cursor runs → (pl_seq p, pl_slot p) ∈ runs.
Proof.
  intros Hp. rewrite <-(places_runs n_ctx need cursor runs).
  apply list_elem_of_fmap. by exists p.
Qed.

Lemma stay_packed n_ctx runs :
  StronglySorted run_before runs → Forall (run_ok n_ctx) runs →
  packed n_ctx (map stay runs).
Proof.
  intros Hs Hok. split.
  - apply ss_map. eapply ss_mono, Hs. intros a b Ha _ [Hne H].
    rewrite Forall_forall in Hok. destruct (Hok a Ha) as (?&?&?).
    unfold placed_before; simpl. split_and!; [done|lia..].
  - apply Forall_map. eapply Forall_impl; [exact Hok|]. intros [s a] (H1&H2&H3). simpl in H1, H2, H3.
    split; simpl; lia.
Qed.

(** Packing runs that do not overlap down from [cursor], stopping early or
    not, keeps them apart. *)
Lemma places_packed n_ctx need cursor runs :
  StronglySorted run_before runs → Forall (run_ok n_ctx) runs →
  Forall (λ r, cursor ≤ sl_start r.2) runs →
  packed n_ctx (places n_ctx need cursor runs) ∧
  Forall (λ p, cursor ≤ pl_to p ≤ sl_start (pl_slot p)) (places n_ctx need cursor runs).
Proof.
  intros Hs. revert cursor. induction Hs as [|[seq slot] rest Hs IH Hb]; intros cursor; simpl.
  { split; [split|]; constructor. }
  intros [(Hcap & Hpw & Hn) Hok]%Forall_cons [Hcur Hrest]%Forall_cons. simpl in *.
  assert (Hcur' : Forall (λ r, cursor + sl_cap slot ≤ sl_start r.2) rest).
  { eapply Forall_impl; [exact Hb|]. intros [] [_ H]. simpl in *. lia. }
  set (tl := if match need with Some n => _ | None => false end then _ else _).
  assert (Htl : (packed n_ctx tl ∧
            Forall (λ p, cursor + sl_cap slot ≤ pl_to p ≤ sl_start (pl_slot p)) tl) ∧
            ∀ p, p ∈ tl → (pl_seq p, pl_slot p) ∈ rest).
  { unfold tl. destruct (match need with Some n => _ | None => false end).
    - split; [split; [by apply stay_packed|]|].
      + apply Forall_map. eapply Forall_impl; [exact Hcur'|]. simpl. lia.
      + intros p. rewrite list_elem_of_In, in_map_iff. intros ([] & <- & H). by apply list_elem_of_In.
    - split; [by apply IH|]. intros p. apply in_places. }
  destruct Htl as [[[Hss Hall] Hto] Hin]. rewrite Forall_forall in Hb. rewrite Forall_forall in Hto.
  split; [split|]; [constructor; [done|]|apply Forall_cons; split|apply Forall_cons; split].
  - apply Forall_forall. intros p Hp. specialize (Hin p Hp).
    destruct (Hb _ Hin) as [Hne Hlt]. specialize (Hto p Hp).
    unfold placed_before; simpl in *. split_and!; [done|lia..].
  - split; simpl; lia.
  - done.
  - simpl. lia.
  - apply Forall_forall. intros p Hp. specialize (Hto p Hp). lia.
Qed.

(** Laying every run out afresh from [cursor]. *)
Lemma places_packed_all n_ctx cursor runs :
  StronglySorted rows_before runs →
  Forall (λ r, 0 < sl_cap r.2 ∧ private_written r.2 ≤ sl_cap r.2 ∧
               sl_start r.2 + private_written r.2 ≤ n_ctx) runs →
  cursor + sum_list_with (λ r, sl_cap r.2) runs ≤ n_ctx →
  packed n_ctx (places n_ctx None cursor runs) ∧
  Forall (λ p, cursor ≤ pl_to p) (places n_ctx None cursor runs).
Proof.
  intros Hs. revert cursor. induction Hs as [|[seq slot] rest Hs IH Hb]; intros cursor; simpl.
  { split; [split|]; constructor. }
  intros [(Hcap & Hpw & Hn) Hok]%Forall_cons Hsum. simpl in *.
  destruct (IH (cursor + sl_cap slot)) as [[Hss Hall] Hto]; [done|lia|].
  rewrite Forall_forall in Hb. rewrite Forall_forall in Hto.
  split; [split|]; [constructor; [done|]|apply Forall_cons; split|apply Forall_cons; split].
  - apply Forall_forall. intros p Hp. specialize (Hto p Hp).
    destruct (Hb _ (in_places _ _ _ _ _ Hp)) as (Hne & Hlt & Hle).
    unfold placed_before; simpl in *. split_and!; [done|lia..].
  - split; simpl; lia.
  - done.
  - simpl. lia.
  - apply Forall_forall. intros p Hp. specialize (Hto p Hp). lia.
Qed.

(** ** The moves of a packed plan *)

Lemma elem_of_moves_of ps m :
  m ∈ moves_of ps ↔ ∃ p, p ∈ ps ∧ sl_start (pl_slot p) ≠ pl_to p ∧
    m = mkMove (pl_seq p) (sl_start (pl_slot p)) (pl_to p) (private_written (pl_slot p)).
Proof.
  unfold moves_of. rewrite list_elem_of_In, in_concat. split.
  - intros (l & Hl & Hm). apply in_map_iff in Hl as (p & <- & Hp%list_elem_of_In).
    unfold place_move in Hm. destruct (Nat.eqb_spec (sl_start (pl_slot p)) (pl_to p)); [done|].
    simpl in Hm. naive_solver.
  - intros (p & Hp%list_elem_of_In & Hne & ->). exists (place_move p).
    split; [by apply in_map|]. unfold place_move.
    destruct (Nat.eqb_spec (sl_start (pl_slot p)) (pl_to p)); [done|by left].
Qed.

Section packed_moves.
Context (n_ctx : nat) (ps : list placed) (Hpk : packed n_ctx ps).

Lemma packed_seq_inj p q : p ∈ ps → q ∈ ps → pl_seq p = pl_seq q → p = q.
Proof using Hpk.
  intros Hp Hq Heq. destruct Hpk as [Hs _].
  destruct (ss_pair _ _ _ _ Hs Hp Hq) as [|[[Hne _]|[Hne _]]]; [done| |]; congruence.
Qed.

Lemma packed_ok p : p ∈ ps → placed_ok n_ctx p.
Proof using Hpk. intros Hp. destruct Hpk as [_ Ho]. rewrite Forall_forall in Ho. by apply Ho. Qed.

Lemma packed_moves_nodup : NoDup (map mv_seq (moves_of ps)).
Proof using Hpk.
  destruct Hpk as [Hs _]. clear Hpk. induction Hs as [|p l Hl IH Hp]; [constructor|].
  unfold moves_of in *. rewrite map_cons, concat_cons, map_app. fold (moves_of l) in *.
  unfold place_move. destruct (_ =? _); [done|]. simpl. apply NoDup_cons. split; [|done].
  intros Hin. apply list_elem_of_In, in_map_iff in Hin as (m & Hm & Hin%list_elem_of_In).
  apply elem_of_moves_of in Hin as (q & Hq & _ & ->). simpl in Hm.
  rewrite Forall_forall in Hp. destruct (Hp q Hq) as [Hne _]. congruence.
Qed.

Lemma packed_moves_ne m : m ∈ moves_of ps → mv_from m ≠ mv_to m.
Proof using. intros (p & _ & Hne & ->)%elem_of_moves_of. done. Qed.

Lemma packed_moves_below m1 m2 :
  m1 ∈ moves_of ps → m2 ∈ moves_of ps → mv_seq m1 ≠ mv_seq m2 →
  below m1 m2 ∨ below m2 m1.
Proof using Hpk.
  intros (p & Hp & _ & ->)%elem_of_moves_of (q & Hq & _ & ->)%elem_of_moves_of Hne.
  simpl in Hne. pose proof (packed_ok p Hp) as H. pose proof (packed_ok q Hq) as H0.
  destruct Hpk as [Hs _]. unfold below; simpl.
  destruct (ss_pair _ _ _ _ Hs Hp Hq) as [->|[(_&?&?&?)|(_&?&?&?)]]; [done|left|right];
    destruct H, H0; lia.
Qed.

Lemma packed_sorted : StronglySorted may_precede (order_moves (moves_of ps)).
Proof using Hpk.
  apply order_moves_sorted.
  - apply packed_moves_nodup.
  - apply packed_moves_ne.
  - apply packed_moves_below.
Qed.

(** The place of a sequence, as a lookup in the plan. *)
Lemma packed_find p ms :
  p ∈ ps → ms ≡ₚ moves_of ps →
  List.find (λ m, (mv_seq m =? pl_seq p)%N) ms =
    if decide (sl_start (pl_slot p) = pl_to p) then None
    else Some (mkMove (pl_seq p) (sl_start (pl_slot p)) (pl_to p)
                 (private_written (pl_slot p))).
Proof using Hpk.
  intros Hp Hperm. destruct (List.find _ ms) as [m|] eqn:Hf.
  - apply List.find_some in Hf as [Hin Heq]. apply list_elem_of_In in Hin.
    rewrite Hperm in Hin. apply elem_of_moves_of in Hin as (q & Hq & Hne & ->).
    apply N.eqb_eq in Heq. simpl in Heq.
    assert (q = p) as -> by by apply packed_seq_inj. by rewrite decide_False.
  - case_decide as Hd; [done|].
    apply (List.find_none _ _) with (x := mkMove (pl_seq p) (sl_start (pl_slot p)) (pl_to p)
                 (private_written (pl_slot p))) in Hf.
    + simpl in Hf. by rewrite N.eqb_refl in Hf.
    + apply list_elem_of_In. rewrite Hperm. apply elem_of_moves_of. by exists p.
Qed.

Lemma packed_plan_slot p ms :
  p ∈ ps → ms ≡ₚ moves_of ps →
  plan_slot ms (pl_seq p, pl_slot p) = Ok (pl_to p, sl_cap (pl_slot p)).
Proof using Hpk.
  intros Hp Hperm. unfold plan_slot. rewrite (packed_find p) by done.
  case_decide as Hd; [by rewrite Hd|]. simpl. rewrite Nat.eqb_refl; simpl.
  destruct (packed_ok p Hp) as [_ Hr _ _].
  by rewrite (proj2 (Nat.ltb_ge _ _) Hr).
Qed.
End packed_moves.

(** ** The planned runs pass the overlap check *)

Lemma check_planned_ok n_ctx l :
  StronglySorted (λ a b : nat * nat, a.1 + a.2 ≤ b.1) l →
  Forall (λ a, a.1 + a.2 ≤ n_ctx) l → check_planned n_ctx l = Ok ().
Proof.
  induction 1 as [|[a n] l Hl IH Ha]; simpl; [done|].
  intros [Hn Hrest]%Forall_cons. simpl in *. destruct l as [|[b k] l].
  - by rewrite (proj2 (Nat.ltb_ge _ _) Hn).
  - apply Forall_cons in Ha as [Hb _]. simpl in Hb.
    rewrite (proj2 (Nat.ltb_ge _ _) Hb). by apply IH.
Qed.

Lemma pair_le_total x y : pair_le x y = true ∨ pair_le y x = true.
Proof.
  unfold pair_le. rewrite !orb_true_iff, !andb_true_iff, !Nat.ltb_lt, !Nat.eqb_eq, !Nat.leb_le. lia.
Qed.
Lemma pair_le_trans x y z : pair_le x y = true → pair_le y z = true → pair_le x z = true.
Proof.
  unfold pair_le. rewrite !orb_true_iff, !andb_true_iff, !Nat.ltb_lt, !Nat.eqb_eq, !Nat.leb_le. lia.
Qed.

Lemma check_planned_packed n_ctx ps l :
  packed n_ctx ps → l ≡ₚ map (λ p, (pl_to p, sl_cap (pl_slot p))) ps →
  check_planned n_ctx (sort_by pair_le l) = Ok ().
Proof.
  intros Hpk Hl. pose proof (packed_ok _ _ Hpk) as Hok. destruct Hpk as [Hs _].
  assert (Hall : ∀ x, x ∈ sort_by pair_le l → 0 < x.2 ∧ x.1 + x.2 ≤ n_ctx).
  { intros x. rewrite elem_of_sort_by, Hl, list_elem_of_In, in_map_iff.
    intros (p & <- & Hp%list_elem_of_In). destruct (Hok p Hp). done. }
  apply check_planned_ok.
  - apply ss_mono with (R := λ a b, pair_le a b = true ∧ ranges_disjoint a.1 a.2 b.1 b.2).
    + intros [a n] [b k] Ha Hb [Hle Hd]. apply Hall in Ha, Hb.
      unfold pair_le, ranges_disjoint in *. simpl in *.
      rewrite orb_true_iff, andb_true_iff, Nat.ltb_lt, Nat.eqb_eq, Nat.leb_le in Hle. lia.
    + apply ss_and; [apply sort_by_sorted; [apply pair_le_total|apply pair_le_trans]|].
      apply ss_perm_sym with (l := map (λ p, (pl_to p, sl_cap (pl_slot p))) ps).
      * intros [] []. apply ranges_disjoint_sym.
      * by rewrite sort_by_perm, Hl.
      * apply ss_map. eapply ss_mono, Hs. intros p q _ _ (_&_&_&?).
        unfold ranges_disjoint; simpl. lia.
  - apply Forall_forall. intros x Hx. by apply Hall.
Qed.

(** ** Carrying a packed plan out *)

(** [ps] places every run of [c]. *)
Record plan_for (c : KvCache) (ps : list placed) : Prop := {
  pf_packed : packed (kv_n_ctx c) ps;
  pf_runs : map (λ p, (pl_seq p, pl_slot p)) ps ≡ₚ in_order (kv_seqs c)
}.

Lemma plan_for_place c ps s a :
  plan_for c ps → kv_seqs c !! s = Some a →
  ∃ p, p ∈ ps ∧ pl_seq p = s ∧ pl_slot p = a.
Proof.
  intros [_ Hr] Ha. apply elem_of_in_order in Ha. rewrite <-Hr in Ha.
  apply list_elem_of_In, in_map_iff in Ha as (p & [= <- <-] & Hp%list_elem_of_In).
  by exists p.
Qed.

Lemma plan_for_covered c ps s :
  plan_for c ps → is_Some (kv_seqs c !! s) → ∃ p, p ∈ ps ∧ pl_seq p = s.
Proof.
  intros Hpf [a Ha]. destruct (plan_for_place c ps s a Hpf Ha) as (p & ? & ? & _). eauto.
Qed.

Lemma plan_for_slot c ps p :
  plan_for c ps → p ∈ ps → kv_seqs c !! pl_seq p = Some (pl_slot p).
Proof.
  intros [_ Hr] Hp. apply elem_of_in_order. rewrite <-Hr.
  apply list_elem_of_fmap. by exists p.
Qed.

Lemma plan_for_ok c ps ms :
  plan_for c ps → ms ≡ₚ moves_of ps →
  (planned ← try_map (plan_slot ms) (in_order (kv_seqs c));
   check_planned (kv_n_ctx c) (sort_by pair_le planned)) = Ok ().
Proof.
  intros Hpf Hms. destruct Hpf as [Hpk Hr].
  set (g := λ x, default (0, 0) (match plan_slot ms x with Ok y => Some y | _ => None end)).
  assert (Hg : ∀ p, p ∈ ps → plan_slot ms (pl_seq p, pl_slot p) = Ok (g (pl_seq p, pl_slot p)) ∧
                 g (pl_seq p, pl_slot p) = (pl_to p, sl_cap (pl_slot p))).
  { intros p Hp. unfold g. by rewrite !(packed_plan_slot _ _ Hpk p ms). }
  rewrite (try_map_total _ g).
  - simpl. apply check_planned_packed with (ps := ps); [done|].
    rewrite <-Hr, map_map. erewrite map_ext_in; [done|].
    intros p Hp%list_elem_of_In. by apply Hg.
  - intros x. rewrite <-Hr, list_elem_of_In, in_map_iff.
    intros (p & <- & Hp%list_elem_of_In). by apply Hg.
Qed.

Lemma plan_for_safe c ps :
  plan_for c ps →
  safe_moves (kv_n_ctx c) (order_moves (moves_of ps)) (layout (kv_seqs c)).
Proof.
  intros Hpf. pose proof (pf_packed _ _ Hpf) as Hpk.
  assert (Hperm : order_moves (moves_of ps) ≡ₚ moves_of ps) by apply sort_by_perm.
  apply safe_moves_intro.
  - intros m. rewrite Hperm. intros (p & Hp & Hne & ->)%elem_of_moves_of. simpl. split.
    + apply layout_lookup. exists (pl_slot p). by rewrite (plan_for_slot c ps p).
    + destruct (packed_ok _ _ Hpk p Hp). lia.
  - by apply (packed_sorted (kv_n_ctx c)).
  - intros m s a n. rewrite Hperm.
    intros (p & Hp & Hne & ->)%elem_of_moves_of Hs (slot & Hslot & <- & <-)%layout_lookup.
    simpl. destruct (plan_for_place c ps s slot Hpf Hslot) as (q & Hq & <- & <-).
    destruct (packed_ok _ _ Hpk p Hp), (packed_ok _ _ Hpk q Hq).
    assert (Hstay : sl_start (pl_slot q) = pl_to q).
    { destruct (decide (sl_start (pl_slot q) = pl_to q)) as [|Hd]; [done|]. exfalso. apply Hs.
      apply list_elem_of_In, in_map_iff.
      exists (mkMove (pl_seq q) (sl_start (pl_slot q)) (pl_to q) (private_written (pl_slot q))).
      split; [done|]. apply list_elem_of_In, elem_of_moves_of. by exists q. }
    rewrite Hstay. destruct Hpk as [Hss _]. unfold ranges_disjoint.
    destruct (ss_pair _ _ _ _ Hss Hp Hq) as [->|[(_&?&?&?)|(_&?&?&?)]]; [congruence|lia..].
Qed.

Lemma plan_for_final c ps s a :
  plan_for c ps → kv_seqs c !! s = Some a →
  ∃ p, p ∈ ps ∧ pl_seq p = s ∧ pl_slot p = a ∧
    final_start (order_moves (moves_of ps)) s (sl_start a) = pl_to p.
Proof.
  intros Hpf Ha. destruct (plan_for_place c ps s a Hpf Ha) as (p & Hp & Hs & Hsl).
  exists p. split_and!; [done..|]. subst s. unfold final_start.
  rewrite (packed_find (kv_n_ctx c) ps (pf_packed _ _ Hpf) p) by
    (done || apply sort_by_perm).
  case_decide as Hd; simpl; congruence.
Qed.

Lemma arranged_wf c :
  arranged c →
  map_Forall (λ _ s, sl_start s + sl_cap s ≤ kv_n_ctx c) (kv_seqs c) →
  runs_disjoint (kv_seqs c) → kv_wf c.
Proof.
  intros Harr Hend Hd. split; [apply Harr| |done|apply Harr].
  intros s a Ha. destruct (arr_slots _ Harr s a Ha) as (?&?&?).
  split; [done|by apply (Hend s)|done|done|]. intros Hr.
  destruct (arr_backed _ Harr s a Ha Hr) as (d & b & _ & Hb & _ & Hhi).
  pose proof (Hend d b Hb) as He. destruct (arr_slots _ Harr d b Hb) as (?&?&?).
  simpl in He. unfold private_written in *. lia.
Qed.

Lemma final_plan_wf c c' ps :
  plan_for c ps → arranged c' → kv_n_ctx c' = kv_n_ctx c →
  (∀ s, (λ a, (final_start (order_moves (moves_of ps)) s (sl_start a), sl_cap a)) <$> kv_seqs c !! s =
        (λ a, (sl_start a, sl_cap a)) <$> kv_seqs c' !! s) →
  kv_wf c'.
Proof.
  intros Hpf Harr Hn Hst. pose proof (pf_packed _ _ Hpf) as Hpk.
  assert (Hinv : ∀ s a', kv_seqs c' !! s = Some a' →
            ∃ p, p ∈ ps ∧ pl_seq p = s ∧ sl_start a' = pl_to p ∧ sl_cap a' = sl_cap (pl_slot p)).
  { intros s a' Ha'. specialize (Hst s). rewrite Ha' in Hst. simpl in Hst.
    destruct (kv_seqs c !! s) as [a|] eqn:Ha; simpl in Hst; [|done].
    destruct (plan_for_final c ps s a Hpf Ha) as (p & Hp & <- & <- & Hf).
    exists p. simplify_eq. split_and!; congruence. }
  apply arranged_wf; [done| |].
  - intros s a' Ha'. destruct (Hinv s a' Ha') as (p & Hp & _ & -> & ->).
    rewrite Hn. by apply (packed_ok _ _ Hpk p).
  - intros s s' a b Hne Ha Hb.
    destruct (Hinv s a Ha) as (p & Hp & <- & -> & ->).
    destruct (Hinv s' b Hb) as (q & Hq & <- & -> & ->).
    destruct Hpk as [Hss _]. unfold ranges_disjoint.
    destruct (ss_pair _ _ _ _ Hss Hp Hq) as [->|[(_&?&?&?)|(_&?&?&?)]]; [congruence|lia..].
Qed.

(** The rows of every written position are where they were, read through the
    new cache in the region the moves were copied in. *)
Definition rows_kept (ms : list KvMove) (c c' : KvCache) : Prop :=
  ∀ X (f : nat → X) s pos, pos < written_rows c s →
    moved_rows ms f <$> cell_of c' s pos = f <$> cell_of c s pos.

Record plan_done (ps : list placed) (c c' : KvCache) : Prop := {
  pd_wf : kv_wf c';
  pd_backed : backed (kv_seqs c');
  pd_n_ctx : kv_n_ctx c' = kv_n_ctx c;
  pd_layers : layers_same c c';
  pd_written : ∀ s, written_rows c' s = written_rows c s;
  pd_places : ∀ p, p ∈ ps → (λ a, (sl_start a, sl_cap a)) <$> kv_seqs c' !! pl_seq p =
                Some (pl_to p, sl_cap (pl_slot p));
  pd_covered : ∀ s, is_Some (kv_seqs c' !! s) → ∃ p, p ∈ ps ∧ pl_seq p = s;
  pd_rows : rows_kept (order_moves (moves_of ps)) c c'
}.

Lemma apply_moves_packed c ps :
  arranged c → plan_for c ps →
  ∃ c', apply_moves (moves_of ps) c =
          (Ok (sum_list_with mv_rows (order_moves (moves_of ps))), c') ∧ plan_done ps c c'.
Proof.
  intros Harr Hpf. pose proof (pf_packed _ _ Hpf) as Hpk.
  assert (Hperm : order_moves (moves_of ps) ≡ₚ moves_of ps) by apply sort_by_perm.
  destruct (apply_move_list_safe (order_moves (moves_of ps)) c) as
    (c' & Hok & Harr' & Hn & Hls & Hw & Hst & Hrow); [done| | |by apply plan_for_safe|].
  { rewrite Hperm. by apply (packed_moves_nodup (kv_n_ctx c)). }
  { intros m. rewrite Hperm. intros (p & Hp & _ & ->)%elem_of_moves_of.
    by apply (packed_ok _ _ Hpk p). }
  assert (Hwf : kv_wf c') by (eapply final_plan_wf; done).
  assert (Hdone : plan_done ps c c').
  { split; [done|apply Harr'|done|done|done| |
      intros s Hs; apply (plan_for_covered c ps); [done|]; specialize (Hst s);
      destruct Hs as [? Hs]; rewrite Hs in Hst; by destruct (kv_seqs c !! s)|exact Hrow].
    intros p Hp. rewrite <-Hst, (plan_for_slot c ps p Hpf Hp). simpl.
    destruct (plan_for_final c ps (pl_seq p) (pl_slot p) Hpf) as (q & Hq & Heq & _ & ->);
      [by apply (plan_for_slot c ps)|].
    assert (q = p) as -> by by apply (packed_seq_inj _ _ Hpk). done. }
  unfold apply_moves. case_decide as Hm.
  { exists c'. split; [|done]. rewrite Hm in *. simpl in *. by injection Hok as ->. }
  rewrite (plan_for_ok c ps) by done. rewrite Hok. eexists. split; [done|].
  destruct Hdone as [[Hc Hs Hd Hl] Hb Hn' Hl' Hw' Hp Hcv Hr]. split; [by split|done..].
Qed.

(** ** The plans the store makes *)

Lemma live_runs_perm c : caps_positive c → live_runs c ≡ₚ in_order (kv_seqs c).
Proof.
  intros Hcap. unfold live_runs. rewrite sort_by_perm.
  assert (Hall : ∀ x, x ∈ in_order (kv_seqs c) → 0 < sl_cap x.2).
  { intros [s a] Ha%elem_of_in_order. by apply (Hcap s). }
  induction (in_order (kv_seqs c)) as [|x l IH]; simpl; [done|].
  rewrite (proj2 (Nat.ltb_lt _ _)) by (apply Hall; by left).
  rewrite IH; [done|]. intros y Hy. apply Hall. by right.
Qed.

Lemma elem_of_live_runs c s a :
  caps_positive c → (s, a) ∈ live_runs c ↔ kv_seqs c !! s = Some a.
Proof. intros Hc. by rewrite live_runs_perm, elem_of_in_order. Qed.

Lemma NoDup_ss {A B} (f : A → B) l :
  NoDup (map f l) → StronglySorted (λ x y, f x ≠ f y) l.
Proof.
  induction l as [|x l IH]; simpl; [constructor|]. intros [Hx Hnd]%NoDup_cons.
  constructor; [by apply IH|]. apply Forall_forall. intros y Hy Heq. apply Hx.
  rewrite Heq. apply list_elem_of_In, in_map. by apply list_elem_of_In.
Qed.

Lemma run_le_total x y : run_le x y = true ∨ run_le y x = true.
Proof.
  unfold run_le. rewrite !orb_true_iff, !andb_true_iff, !Nat.ltb_lt, !Nat.eqb_eq, !N.leb_le. lia.
Qed.
Lemma run_le_trans x y z : run_le x y = true → run_le y z = true → run_le x z = true.
Proof.
  unfold run_le. rewrite !orb_true_iff, !andb_true_iff, !Nat.ltb_lt, !Nat.eqb_eq, !N.leb_le. lia.
Qed.

Lemma live_runs_sorted c (R : N * SeqSlot → N * SeqSlot → Prop) :
  caps_positive c →
  (∀ s s' a b, s ≠ s' → kv_seqs c !! s = Some a → kv_seqs c !! s' = Some b →
     sl_start a ≤ sl_start b → R (s, a) (s', b)) →
  StronglySorted R (live_runs c).
Proof.
  intros Hcap HR.
  assert (Hk : StronglySorted (λ x y, x.1 ≠ y.1) (live_runs c)).
  { apply NoDup_ss. rewrite live_runs_perm by done. apply NoDup_in_order_keys. }
  pose proof (sort_by_sorted run_le run_le_total run_le_trans
    (List.filter (λ p, 0 <? sl_cap p.2) (in_order (kv_seqs c)))) as Hs.
  fold (live_runs c) in Hs.
  eapply ss_mono, (ss_and _ _ _ Hk Hs).
  intros [s a] [s' b] Ha%elem_of_live_runs Hb%elem_of_live_runs [Hne Hle]; [|done..].
  apply HR; [done..|]. unfold run_le in Hle. simpl in Hle.
  rewrite orb_true_iff, andb_true_iff, Nat.ltb_lt, Nat.eqb_eq in Hle. lia.
Qed.

Lemma wf_caps c : kv_wf c → caps_positive c.
Proof. intros Hwf s a Ha. by destruct (wf_slot _ _ _ Hwf Ha). Qed.

Lemma wf_runs_sorted c :
  kv_wf c → StronglySorted run_before (live_runs c) ∧ Forall (run_ok (kv_n_ctx c)) (live_runs c).
Proof.
  intros Hwf. pose proof (wf_caps _ Hwf) as Hcap. split.
  - apply live_runs_sorted; [done|]. intros s s' a b Hne Ha Hb Hle. split; [done|]. simpl.
    destruct (wf_slot _ _ _ Hwf Ha), (wf_slot _ _ _ Hwf Hb).
    pose proof (wf_disjoint _ Hwf s s' a b Hne Ha Hb). unfold ranges_disjoint in *. lia.
  - apply Forall_forall. intros [s a] Ha%elem_of_live_runs; [|done].
    destruct (wf_slot _ _ _ Hwf Ha). unfold run_ok, private_written; simpl. lia.
Qed.

Definition plan_of (need : option nat) (c : KvCache) : list placed :=
  places (kv_n_ctx c) need 0 (live_runs c).

Lemma compaction_plan_for need c :
  kv_wf c →
  plan_for c (plan_of need c) ∧ compaction_plan need c = moves_of (plan_of need c) ∧
  Forall (λ p, pl_to p ≤ sl_start (pl_slot p)) (plan_of need c).
Proof.
  intros Hwf. destruct (wf_runs_sorted c Hwf) as [Hs Hok].
  destruct (places_packed (kv_n_ctx c) need 0 (live_runs c) Hs Hok) as [Hpk Hto].
  { apply Forall_forall. intros. lia. }
  split_and!.
  - split; [done|]. unfold plan_of. rewrite places_runs. by apply live_runs_perm, wf_caps.
  - apply plan_loop_places.
  - eapply Forall_impl; [exact Hto|]. simpl. lia.
Qed.

Lemma wf_arranged c : kv_wf c → backed (kv_seqs c) → arranged c.
Proof.
  intros Hwf Hb. split; [apply Hwf| | |done|apply Hwf].
  - intros s a Ha. by destruct (wf_slot _ _ _ Hwf Ha).
  - intros s s' a b Hne Ha Hb'. destruct (wf_slot _ _ _ Hwf Ha), (wf_slot _ _ _ Hwf Hb').
    pose proof (wf_disjoint _ Hwf s s' a b Hne Ha Hb').
    unfold ranges_disjoint, private_written in *. lia.
Qed.

(** ** Resizing *)

Lemma sum_without {V} (f : N * V → nat) k v (l : list (N * V)) :
  NoDup l.*1 → (k, v) ∈ l →
  sum_list_with f l = f (k, v) + sum_list_with f (List.filter (λ p, negb (p.1 =? k)%N) l).
Proof.
  assert (Hskip : ∀ l : list (N * V), k ∉ l.*1 →
            List.filter (λ p, negb (p.1 =? k)%N) l = l).
  { clear l. induction l as [|[k' v'] l IH]; simpl; [done|]. rewrite not_elem_of_cons.
    intros [Hne Hk]. rewrite (proj2 (N.eqb_neq _ _)) by congruence. simpl. by rewrite IH. }
  induction l as [|[k' v'] l IH]; simpl; [by intros _ ?%elem_of_nil|].
  intros [Hk Hnd]%NoDup_cons [[= <- <-]|Hin]%elem_of_cons.
  - rewrite N.eqb_refl. simpl. by rewrite Hskip.
  - rewrite (proj2 (N.eqb_neq _ _)).
    + simpl. rewrite IH by done. lia.
    + intros ->. apply Hk. by apply list_elem_of_fmap_2 with (f := fst) in Hin.
Qed.

Lemma NoDup_in_order {V} (m : gmap N V) : NoDup (in_order m).
Proof. eapply NoDup_fmap_1, NoDup_in_order_keys. Qed.

Lemma sum_insert (f : N * SeqSlot → nat) seqs k v v' :
  seqs !! k = Some v →
  sum_list_with f (in_order (<[k := v']> seqs)) =
    f (k, v') + sum_list_with f (List.filter (λ p, negb (p.1 =? k)%N) (in_order seqs)).
Proof.
  intros Hk. rewrite (sum_without f k v') by
    (apply NoDup_in_order_keys || (apply elem_of_in_order; by rewrite lookup_insert_eq)).
  f_equal.
  assert (Hp : List.filter (λ p, negb (p.1 =? k)%N) (in_order (<[k := v']> seqs)) ≡ₚ
               List.filter (λ p, negb (p.1 =? k)%N) (in_order seqs)).
  { apply NoDup_Permutation; [apply NoDup_ListNoDup, List.NoDup_filter, NoDup_ListNoDup,
      NoDup_in_order..|].
    intros [k' x]. rewrite !list_elem_of_In, !filter_In, <-!list_elem_of_In, !elem_of_in_order.
    simpl. rewrite lookup_insert. case_decide as Hd; [|done].
    subst. rewrite N.eqb_refl. naive_solver. }
  by rewrite Hp.
Qed.

Lemma backed_same_rows seqs k v v' :
  seqs !! k = Some v → sl_start v' = sl_start v → sl_shared v' = sl_shared v →
  sl_written v' = sl_written v → backed seqs → backed (<[k := v']> seqs).
Proof.
  intros Hk Hst Hsh Hw Hb s a. rewrite lookup_insert.
  assert (Hpw : private_written v' = private_written v) by (unfold private_written; congruence).
  assert (Hdon : ∀ d b, seqs !! d = Some b → ∃ b', <[k := v']> seqs !! d = Some b' ∧
            sl_start b' = sl_start b ∧ private_written b' = private_written b).
  { intros d b Hd. destruct (decide (k = d)) as [->|Hne].
    - rewrite lookup_insert_eq. simplify_eq. eauto.
    - rewrite lookup_insert_ne by done. eauto. }
  case_decide as Heq.
  - intros [= <-] Hr. subst s. rewrite Hsh in *.
    destruct (Hb k v Hk Hr) as (d & b & Hd & Hdb & Hlo & Hhi).
    destruct (Hdon d b Hdb) as (b' & ? & E1 & E2). exists d, b'. by rewrite E1, E2.
  - intros Ha Hr. destruct (Hb s a Ha Hr) as (d & b & Hd & Hdb & Hlo & Hhi).
    destruct (Hdon d b Hdb) as (b' & ? & E1 & E2). exists d, b'. by rewrite E1, E2.
Qed.

(** The store a resize works on: the run table says the new size, the rows are
    where they were. *)
Definition resized (seq : N) (cap : nat) (slot : SeqSlot) (c : KvCache) : KvCache :=
  refresh_spans seq (set_seqs (<[seq := set_slot_cap cap slot]> (kv_seqs c)) c).

Section resize.
Context (c : KvCache) (seq : N) (slot : SeqSlot) (cap : nat).
Context (Hwf : kv_wf c) (Hb : backed (kv_seqs c)).
Context (Hslot : kv_seqs c !! seq = Some slot).
Context (Hcap : private_written slot ≤ cap) (Hpos : 0 < cap).

Lemma resized_arranged : arranged (resized seq cap slot c).
Proof using Hwf Hb Hslot Hcap Hpos.
  pose proof (wf_arranged c Hwf Hb) as Harr. unfold resized.
  destruct (wf_slot _ _ _ Hwf Hslot) as [? ? Hsw ? ?].
  split; autorewrite with kv; simpl.
  - apply coherent_insert; [apply Hwf|done].
  - apply map_Forall_insert_2; [|apply Harr]. simpl. unfold private_written in Hcap. lia.
  - intros s s' a b Hne. rewrite !lookup_insert. repeat case_decide; [congruence| | |].
    + intros [= <-] Hb'. simpl. subst s. by apply (arr_disjoint _ Harr seq s' slot b).
    + intros Ha [= <-]. simpl. subst s'. by apply (arr_disjoint _ Harr s seq a slot).
    + by apply (arr_disjoint _ Harr).
  - by apply (backed_same_rows _ _ slot).
  - apply Hwf.
Qed.

Lemma shrunk_wf : cap ≤ sl_cap slot → kv_wf (resized seq cap slot c).
Proof using Hwf Hb Hslot Hcap Hpos.
  intros Hle. apply arranged_wf; [apply resized_arranged|..]; unfold resized;
    autorewrite with kv; simpl.
  - intros s a. rewrite lookup_insert. case_decide.
    + intros [= <-]. simpl. destruct (wf_slot _ _ _ Hwf Hslot). lia.
    + intros Ha. by destruct (wf_slot _ _ _ Hwf Ha).
  - intros s s' a b Hne. rewrite !lookup_insert.
    pose proof (wf_disjoint _ Hwf) as Hd. unfold runs_disjoint, ranges_disjoint in *.
    repeat case_decide; [congruence| | |].
    + intros [= <-] Hb'. subst s. specialize (Hd _ _ _ _ Hne Hslot Hb'). simpl. lia.
    + intros Ha [= <-]. subst s'. specialize (Hd _ _ _ _ Hne Ha Hslot). simpl. lia.
    + by apply Hd.
Qed.

Lemma grown_plan_for :
  sum_list_with (λ p, sl_cap p.2)
    (List.filter (λ p, negb (p.1 =? seq)%N) (in_order (kv_seqs c))) + cap ≤ kv_n_ctx c →
  plan_for (resized seq cap slot c) (plan_of None (resized seq cap slot c)).
Proof using Hwf Hb Hslot Hcap Hpos.
  intros Hsum. pose proof resized_arranged as Harr.
  assert (Hcp : caps_positive (resized seq cap slot c)).
  { intros s a Ha. by destruct (arr_slots _ Harr s a Ha). }
  assert (Hq : ∀ s a, kv_seqs (resized seq cap slot c) !! s = Some a → ∃ b,
            kv_seqs c !! s = Some b ∧ sl_start a = sl_start b ∧
            private_written a = private_written b).
  { intros s a. unfold resized. autorewrite with kv. simpl. rewrite lookup_insert.
    case_decide; [intros [= <-]; subst s; by exists slot|intros ?; by exists a]. }
  split; [|unfold plan_of; rewrite places_runs; by apply live_runs_perm].
  apply places_packed_all.
  - apply live_runs_sorted; [done|]. intros s s' a b Hne Ha Hb' Hle. split; [done|]. simpl.
    destruct (Hq s a Ha) as (a0 & Ha0 & -> & ->), (Hq s' b Hb') as (b0 & Hb0 & E & _).
    rewrite E. destruct (wf_slot _ _ _ Hwf Ha0), (wf_slot _ _ _ Hwf Hb0).
    pose proof (wf_disjoint _ Hwf s s' a0 b0 Hne Ha0 Hb0).
    destruct (Hq s a Ha) as (? & ? & E1 & _). simplify_eq.
    unfold ranges_disjoint, private_written in *. lia.
  - apply Forall_forall. intros [s a] Ha%elem_of_live_runs; [|done]. simpl.
    destruct (arr_slots _ Harr s a Ha) as (H1 & H2 & H3).
    destruct (Hq s a Ha) as (b & Hb' & -> & E). destruct (wf_slot _ _ _ Hwf Hb').
    unfold private_written in *. unfold resized. autorewrite with kv. simpl. lia.
  - rewrite (live_runs_perm _ Hcp). unfold resized. autorewrite with kv. simpl.
    rewrite (sum_insert _ _ seq slot) by done. simpl. lia.
Qed.
End resize.

Lemma run_sum_le n cursor runs :
  StronglySorted run_before runs → Forall (run_ok n) runs →
  Forall (λ r, cursor ≤ sl_start r.2) runs → cursor ≤ n →
  cursor + sum_list_with (λ r, sl_cap r.2) runs ≤ n.
Proof.
  intros Hs. revert cursor. induction Hs as [|[s a] rest Hs IH Hb]; intros cursor; simpl; [lia|].
  intros [(H1 & H2 & H3) Hok]%Forall_cons [Hc Hr]%Forall_cons Hn. simpl in *.
  enough (cursor + sl_cap a + sum_list_with (λ r, sl_cap r.2) rest ≤ n) by lia.
  apply IH; [done| |lia]. eapply Forall_impl; [exact Hb|]. intros [] [_ H]. simpl in *. lia.
Qed.

Lemma wf_caps_sum c : kv_wf c → sum_list_with (λ p, sl_cap p.2) (in_order (kv_seqs c)) ≤ kv_n_ctx c.
Proof.
  intros Hwf. destruct (wf_runs_sorted c Hwf) as [Hs Hok].
  rewrite <-(live_runs_perm c) by by apply wf_caps.
  apply (run_sum_le _ 0); [done..| |lia]. apply Forall_forall. intros. lia.
Qed.

(** The cells reserved for the other sequences. *)
Definition others (c : KvCache) (seq : N) : nat :=
  sum_list_with (λ p, sl_cap p.2)
    (List.filter (λ p, negb (p.1 =? seq)%N) (in_order (kv_seqs c))).

(** The sum a resize compares does not wrap its way below the arena's size. *)
Definition sum_fits (c : KvCache) (seq : N) (cap : nat) : Prop :=
  usize_add (others c seq) cap ≤ kv_n_ctx c → others c seq + cap ≤ kv_n_ctx c.

Lemma others_le c seq slot :
  kv_wf c → kv_seqs c !! seq = Some slot → others c seq + sl_cap slot ≤ kv_n_ctx c.
Proof.
  intros Hwf Hs. pose proof (wf_caps_sum c Hwf) as Hsum.
  rewrite (sum_without _ seq slot) in Hsum by
    (apply NoDup_in_order_keys || by apply elem_of_in_order). simpl in Hsum. unfold others. lia.
Qed.

Lemma sized_sum_fits c seq slot cap :
  kv_wf c → kv_seqs c !! seq = Some slot → usize_sized (kv_n_ctx c + cap) → sum_fits c seq cap.
Proof.
  intros Hwf Hs Hsz. pose proof (others_le c seq slot Hwf Hs). unfold sum_fits.
  rewrite usize_add_eq; [done|]. unfold usize_sized in *. lia.
Qed.

Lemma set_cap_ok_inv c seq cap moves c1 :
  0 < cap → set_cap seq cap c = (Ok moves, c1) →
  ∃ slot, kv_seqs c !! seq = Some slot ∧
    ((cap = sl_cap slot ∧ moves = [] ∧ c1 = c) ∨
     (c1 = resized seq cap slot c ∧ moves = compaction_plan None c1 ∧
      ((cap < sl_cap slot ∧ private_written slot ≤ cap) ∨
       (sl_cap slot < cap ∧ usize_add (others c seq) cap ≤ kv_n_ctx c)))).
Proof.
  intros Hpos. unfold set_cap. fold (others c seq). destruct (kv_seqs c !! seq) as [slot|]; [|done].
  destruct (Nat.eqb_spec cap (sl_cap slot)) as [->|Hne].
  { intros [= <- <-]. exists slot. naive_solver. }
  rewrite (proj2 (Nat.eqb_neq cap 0)) by lia.
  destruct (Nat.ltb_spec cap (sl_cap slot)), (Nat.ltb_spec cap (private_written slot));
    simpl; try done; try (destruct (Nat.ltb_spec (kv_n_ctx c)
      (usize_add (others c seq) cap)); [done|]);
    intros [= <- <-]; exists slot; (split; [done|right; split; [done|split; [done|]]]).
  - left. lia.
  - right. lia.
  - right. lia.
Qed.

Lemma set_cap_plan c seq cap moves c1 :
  kv_wf c → backed (kv_seqs c) → 0 < cap → sum_fits c seq cap →
  set_cap seq cap c = (Ok moves, c1) → ∃ ps, arranged c1 ∧ plan_for c1 ps ∧ moves = moves_of ps.
Proof.
  intros Hwf Hb Hpos Hsz (slot & Hslot & [(-> & -> & ->)|(-> & -> & Hcase)])%set_cap_ok_inv; [|..|done].
  - exists (map stay (live_runs c)). destruct (wf_runs_sorted c Hwf) as [Hs Hok].
    split_and!; [by apply wf_arranged| |by rewrite moves_of_stay].
    split; [by apply stay_packed|]. rewrite stay_runs. by apply live_runs_perm, wf_caps.
  - assert (Hpw : private_written slot ≤ cap).
    { destruct (wf_slot _ _ _ Hwf Hslot). unfold private_written in *. lia. }
    exists (plan_of None (resized seq cap slot c)).
    split_and!; [by apply resized_arranged| |apply plan_loop_places].
    destruct Hcase as [[Hlt _]|[_ Hsum]].
    + apply compaction_plan_for, shrunk_wf; [done..|lia].
    + apply grown_plan_for; [done..|]. by apply Hsz.
Qed.

(** ** Room after a compaction *)

(** Packing down leaves [n] cells in one run wherever that many are free. *)
Lemma places_gap n_ctx need n cursor runs :
  (∀ k, need = Some k → k = n) →
  StronglySorted run_before runs →
  Forall (λ r, cursor ≤ sl_start r.2) runs →
  cursor + sum_list_with (λ r, sl_cap r.2) runs + n ≤ n_ctx →
  ∃ g, cursor ≤ g ∧ g + n ≤ n_ctx ∧
    Forall (λ p, pl_to p + sl_cap (pl_slot p) ≤ g ∨ g + n ≤ pl_to p)
      (places n_ctx need cursor runs).
Proof.
  intros Hneed Hs. revert cursor. induction Hs as [|[seq slot] rest Hs IH Hb]; intros cursor; simpl.
  { intros _ Hsum. exists cursor. split_and!; [lia..|constructor]. }
  intros [Hcur Hrest]%Forall_cons Hsum. simpl in *.
  assert (Hcur' : Forall (λ r, cursor + sl_cap slot ≤ sl_start r.2) rest).
  { eapply Forall_impl; [exact Hb|]. intros [] [_ H]. simpl in *. lia. }
  destruct (match need with Some n => _ | None => false end) eqn:Hstop.
  - destruct need as [k|]; [|done]. rewrite (Hneed k eq_refl), Nat.leb_le in Hstop.
    exists (cursor + sl_cap slot). split_and!; [lia..|]. constructor; simpl; [lia|].
    apply Forall_map, Forall_forall. intros [s a] Hin. right. simpl.
    destruct rest as [|[s1 a1] rest]; [by apply elem_of_nil in Hin|].
    apply Forall_cons in Hcur' as [Hc1 _]. simpl in Hc1.
    apply elem_of_cons in Hin as [[= -> ->]|Hin]; [lia|].
    apply StronglySorted_inv in Hs as [_ Hs]. rewrite Forall_forall in Hs.
    destruct (Hs _ Hin) as [_ Hlt]. simpl in Hlt. lia.
  - destruct (IH (cursor + sl_cap slot)) as (g & Hg & Hn & Hall); [done|lia|].
    exists g. split_and!; [lia..|]. constructor; [simpl; lia|done].
Qed.

(** In a backed store a cell outside every run is free. *)
Lemma backed_free c cap g :
  kv_wf c → backed (kv_seqs c) → g + cap ≤ kv_n_ctx c →
  (∀ s a, kv_seqs c !! s = Some a →
     sl_start a + sl_cap a ≤ g ∨ g + cap ≤ sl_start a) →
  free_at (occupied c) cap g.
Proof.
  intros Hwf Hb Hn Hout i Hi. apply occupied_false. split; [lia|].
  intros (s & l & base & cell & len & Hl & Hin & Hr).
  rewrite (wf_coherent _ Hwf), lookup_fmap in Hl.
  destruct (kv_seqs c !! s) as [a|] eqn:Ha; simpl in Hl; [|done]. injection Hl as <-.
  unfold spans_of_slot in Hin. apply elem_of_app in Hin as [Hin|Hin].
  - destruct (Nat.ltb_spec 0 (sh_rows (sl_shared a))); [|by apply elem_of_nil in Hin].
    apply list_elem_of_singleton in Hin. simplify_eq.
    destruct (Hb s a Ha) as (d & b & _ & Hdb & Hlo & Hhi); [done|].
    specialize (Hout d b Hdb). destruct (wf_slot _ _ _ Hwf Hdb).
    unfold private_written in *. lia.
  - destruct (0 <? sl_cap a); [|by apply elem_of_nil in Hin].
    apply list_elem_of_singleton in Hin. simplify_eq. specialize (Hout s a Ha). lia.
Qed.

Definition reserved (c : KvCache) : nat := sum_list_with (λ p, sl_cap p.2) (in_order (kv_seqs c)).

Lemma compacted_room c need n c' :
  kv_wf c → (∀ k, need = Some k → k = n) → reserved c + n ≤ kv_n_ctx c →
  plan_done (plan_of need c) c c' →
  ∃ g, free_at (occupied c') n g.
Proof.
  intros Hwf Hneed Hsum Hd. destruct (wf_runs_sorted c Hwf) as [Hs Hok].
  destruct (places_gap (kv_n_ctx c) need n 0 (live_runs c) Hneed Hs) as (g & _ & Hg & Hall).
  { apply Forall_forall. intros. lia. }
  { rewrite (live_runs_perm c) by by apply wf_caps. unfold reserved in Hsum. lia. }
  exists g. destruct Hd as [Hwf' Hb' Hn _ Hw Hpl Hcv _].
  apply backed_free; [done..|by rewrite Hn|]. intros s a' Ha'.
  destruct (Hcv s) as (p & Hp & <-); [by eexists|].
  specialize (Hpl p Hp). rewrite Ha' in Hpl. simpl in Hpl. simplify_eq.
  rewrite Forall_forall in Hall. destruct (Hall p Hp); lia.
Qed.
