(* ===== verification/Batch.v ===== *)
(** * Batch composition: [src/graph/batch.rs]

    One forward's tokens, their positions and the sequence each belongs to;
    the runs a batch is made of, the rows whose logits are wanted, and the
    check that a sequence's tokens are contiguous. *)
From stdpp Require Import base numbers list gmap option sorting.
From S2P Require Import Prelude Slices KvCache.

Record Batch := mkBatch {
  b_tokens : list N;
  b_positions : list nat;
  b_seq_ids : list N
}.

Inductive BatchError :=
| BatchLengths (tokens positions seq_ids : nat)
| BatchEmpty
| BatchSplit (seqs : list N).

Definition single (tokens : list N) (positions : list nat) : Batch :=
  mkBatch tokens positions (replicate (length tokens) SEQ_MAIN).

Definition batch_len (b : Batch) : nat := length (b_tokens b).

(** [out.contains(&s)] decides whether [s] is new. *)
Definition push_new (out : list N) (s : N) : list N :=
  if existsb (N.eqb s) out then out else out ++ [s].

Definition seqs (b : Batch) : list N := foldl push_new [] (b_seq_ids b).

Definition n_seqs (b : Batch) : nat := length (seqs b).

(** One step of [groups]: extend the last run or open a new one. *)
Definition push_group (t : nat) (s : N) (out : list (N * nat * nat)) :
    list (N * nat * nat) :=
  match last out with
  | Some (l, from, _) =>
      if (l =? s)%N then take (length out - 1) out ++ [(l, from, t + 1)]
      else out ++ [(s, t, t + 1)]
  | None => out ++ [(s, t, t + 1)]
  end.

Fixpoint groups_loop (t : nat) (ids : list N) (out : list (N * nat * nat)) :
    list (N * nat * nat) :=
  match ids with
  | [] => out
  | s :: ids => groups_loop (S t) ids (push_group t s out)
  end.

Definition groups (b : Batch) : list (N * nat * nat) := groups_loop 0 (b_seq_ids b) [].

Definition out_rows (b : Batch) (n_out : nat) : list N :=
  if n_seqs b <=? 1 then
    let to := batch_len b in
    let from := to - n_out in
    map cast_u32 (List.seq from (to - from))
  else map (λ g, cast_u32 (g.2 - 1)) (groups b).

Definition check (b : Batch) : res BatchError unit :=
  let nt := length (b_tokens b) in
  if negb (length (b_positions b) =? nt) || negb (length (b_seq_ids b) =? nt)
  then Err (BatchLengths nt (length (b_positions b)) (length (b_seq_ids b))) else
  if nt =? 0 then Err BatchEmpty else
  let gs := groups b in
  if negb (length gs =? n_seqs b) then Err (BatchSplit (map (λ g, g.1.1) gs)) else
  Ok ().

(** ** The runs of a batch *)

(** The ids a list of runs stands for. *)
Definition expand (gs : list (N * nat * nat)) : list N :=
  concat (map (λ g, replicate (g.2 - g.1.2) g.1.1) gs).

(** Runs that tile [0 .. t), each non-empty, neighbours of different sequences. *)
Inductive tiles : nat → list (N * nat * nat) → Prop :=
| tiles_nil : tiles 0 []
| tiles_snoc from gs s to :
    tiles from gs → from < to →
    (∀ l, last gs = Some l → l.1.1 ≠ s) →
    tiles to (gs ++ [(s, from, to)]).

Lemma tiles_last t gs g : tiles t gs → last gs = Some g → g.2 = t.
Proof. destruct 1; [done|]. rewrite last_snoc. by intros [= <-]. Qed.

Lemma push_group_tiles t s gs : tiles t gs → tiles (t + 1) (push_group t s gs).
Proof.
  intros Ht. unfold push_group. destruct (last gs) as [[[l from] to]|] eqn:Hl.
  - pose proof (tiles_last _ _ _ Ht Hl) as Heq. simpl in Heq. subst to.
    destruct (N.eqb_spec l s) as [->|Hne].
    + destruct Ht as [|from' gs s' to Ht Hlt Hn]; [done|].
      rewrite last_snoc in Hl. simplify_eq.
      rewrite length_app. simpl. rewrite Nat.add_sub, take_app_length.
      constructor; [done|lia|done].
    + constructor; [done|lia|]. intros g Hg. rewrite Hl in Hg. by simplify_eq.
  - constructor; [done|lia|]. intros g Hg. by rewrite Hl in Hg.
Qed.

Lemma push_group_expand t s gs : tiles t gs → expand (push_group t s gs) = expand gs ++ [s].
Proof.
  intros Ht. unfold push_group, expand. destruct (last gs) as [[[l from] to]|] eqn:Hl.
  - pose proof (tiles_last _ _ _ Ht Hl) as Heq. simpl in Heq. subst to.
    destruct (N.eqb_spec l s) as [->|Hne].
    + destruct Ht as [|from' gs s' to Ht Hlt Hn]; [done|].
      rewrite last_snoc in Hl. simplify_eq.
      rewrite length_app. simpl. rewrite Nat.add_sub, take_app_length.
      rewrite !map_app, !concat_app, <-app_assoc. f_equal. simpl. rewrite !app_nil_r.
      replace (to + 1 - from) with (to - from + 1) by lia. by rewrite replicate_add.
    + rewrite map_app, concat_app. simpl. by replace (t + 1 - t) with 1 by lia.
  - rewrite map_app, concat_app. simpl. by replace (t + 1 - t) with 1 by lia.
Qed.

Lemma groups_loop_spec ids t gs :
  tiles t gs →
  tiles (t + length ids) (groups_loop t ids gs) ∧
  expand (groups_loop t ids gs) = expand gs ++ ids.
Proof.
  revert t gs. induction ids as [|s ids IH]; intros t gs Ht; simpl.
  - by rewrite Nat.add_0_r, app_nil_r.
  - destruct (IH (S t) (push_group t s gs)) as [H1 H2].
    + rewrite <-Nat.add_1_r. by apply push_group_tiles.
    + replace (t + S (length ids)) with (S t + length ids) by lia. split; [done|].
      by rewrite H2, push_group_expand, <-app_assoc.
Qed.

Lemma groups_tiles b : tiles (length (b_seq_ids b)) (groups b).
Proof. apply (groups_loop_spec (b_seq_ids b) 0 []). constructor. Qed.

Lemma groups_expand b : expand (groups b) = b_seq_ids b.
Proof. apply (groups_loop_spec (b_seq_ids b) 0 []). constructor. Qed.

(** ** Distinct sequences *)

Lemma push_new_spec out s :
  NoDup out → NoDup (push_new out s) ∧ ∀ x, x ∈ push_new out s ↔ x ∈ out ∨ x = s.
Proof.
  intros Hnd. unfold push_new. destruct (existsb (N.eqb s) out) eqn:He.
  - apply existsb_exists in He as (x & Hx & ->%N.eqb_eq).
    split; [done|]. apply list_elem_of_In in Hx. naive_solver.
  - split.
    + apply NoDup_app. split_and!; [done| |apply NoDup_singleton].
      intros x Hx ->%list_elem_of_singleton. apply not_true_iff_false in He. apply He.
      apply existsb_exists. exists s. split; [by apply list_elem_of_In|apply N.eqb_refl].
    + intros x. rewrite elem_of_app, list_elem_of_singleton. done.
Qed.

Lemma seqs_spec_gen ids out :
  NoDup out →
  NoDup (foldl push_new out ids) ∧ ∀ x, x ∈ foldl push_new out ids ↔ x ∈ out ∨ x ∈ ids.
Proof.
  revert out. induction ids as [|s ids IH]; intros out Hnd; simpl.
  - split; [done|]. set_solver.
  - destruct (push_new_spec out s Hnd) as [H1 H2]. destruct (IH _ H1) as [H3 H4].
    split; [done|]. intros x. rewrite H4, H2. set_solver.
Qed.

Lemma seqs_spec b : NoDup (seqs b) ∧ ∀ x, x ∈ seqs b ↔ x ∈ b_seq_ids b.
Proof.
  destruct (seqs_spec_gen (b_seq_ids b) []) as [H1 H2]; [constructor|].
  split; [done|]. intros x. unfold seqs. rewrite H2. set_solver.
Qed.

(** ** What [check] accepts *)

Definition contiguous (ids : list N) : Prop :=
  ∀ i j k s, i ≤ j → j ≤ k → ids !! i = Some s → ids !! k = Some s → ids !! j = Some s.

Definition keys (gs : list (N * nat * nat)) : list N := map (λ g, g.1.1) gs.

Lemma elem_of_expand t gs s : tiles t gs → s ∈ expand gs ↔ s ∈ keys gs.
Proof.
  induction 1 as [|from gs s' to Ht IH Hlt Hn]; [done|].
  unfold expand, keys in *. rewrite !map_app, concat_app, !elem_of_app, IH. simpl.
  rewrite app_nil_r, list_elem_of_singleton, elem_of_replicate. split; [naive_solver|].
  intros [Hx | ->]; [by left|right]. split; [done|lia].
Qed.

Lemma tiles_length t gs : tiles t gs → length (expand gs) = t.
Proof.
  induction 1 as [|from gs s to Ht IH Hlt Hn]; [done|].
  unfold expand in *. rewrite map_app, concat_app, length_app, IH. simpl.
  rewrite app_nil_r, length_replicate. lia.
Qed.

(** As many runs as sequences: no sequence has two runs. *)
Lemma groups_nodup b : length (groups b) = n_seqs b ↔ NoDup (keys (groups b)).
Proof.
  destruct (seqs_spec b) as [Hnd Hin]. unfold n_seqs.
  assert (Hk : ∀ x, x ∈ seqs b ↔ x ∈ keys (groups b)).
  { intros x. by rewrite Hin, <-(elem_of_expand _ _ _ (groups_tiles b)), groups_expand. }
  assert (Hl : length (keys (groups b)) = length (groups b)) by apply length_map.
  split.
  - intros Heq. apply NoDup_ListNoDup, (List.NoDup_incl_NoDup (l := seqs b)).
    + by apply NoDup_ListNoDup.
    + lia.
    + intros x. rewrite <-!list_elem_of_In. apply Hk.
  - intros Hk'. rewrite <-Hl. apply Permutation_length, NoDup_Permutation; [done..|].
    intros x. by rewrite Hk.
Qed.

Lemma tiles_contiguous t gs :
  tiles t gs → contiguous (expand gs) ↔ NoDup (keys gs).
Proof.
  induction 1 as [|from gs s to Ht IH Hlt Hn].
  { split; [constructor|]. by intros _ i j k x ??. }
  pose proof (tiles_length _ _ Ht) as Hlen.
  pose proof (elem_of_expand _ _ s Ht) as Hel.
  assert (Hexp : expand (gs ++ [(s, from, to)]) = expand gs ++ replicate (to - from) s).
  { unfold expand. rewrite map_app, concat_app. simpl. by rewrite app_nil_r. }
  unfold keys in *. rewrite Hexp, map_app. simpl. split.
  - intros Hc. apply NoDup_app. split_and!; [apply IH| |apply NoDup_singleton].
    + intros i j k x Hij Hjk Hi Hk. apply lookup_lt_Some in Hk as Hkl.
      specialize (Hc i j k x Hij Hjk). rewrite !lookup_app_l in Hc by lia. by apply Hc.
    + intros x Hx ->%list_elem_of_singleton. apply Hel in Hx as Hx'.
      destruct Ht as [|from' gs' s' from Ht' Hlt' Hn']; [by apply elem_of_nil in Hx|].
      apply list_elem_of_lookup in Hx' as [i Hi]. apply lookup_lt_Some in Hi as Hil.
      specialize (Hc i (from - 1) from s ltac:(lia) ltac:(lia)).
      rewrite lookup_app_l in Hc by lia. rewrite (lookup_app_r _ _ from) in Hc by lia.
      rewrite lookup_replicate_2 in Hc by lia. rewrite lookup_app_l in Hc by lia.
      specialize (Hc Hi eq_refl). apply (Hn (s', from', from)); [by rewrite last_snoc|].
      unfold expand in Hc, Hlen. rewrite map_app, concat_app in Hc. simpl in Hc.
      rewrite app_nil_r in Hc. pose proof (tiles_length _ _ Ht') as Hl'. unfold expand in Hl'.
      rewrite lookup_app_r in Hc by lia. rewrite lookup_replicate_2 in Hc by lia.
      by simplify_eq.
  - intros (Hnd & Hdis & _)%NoDup_app. apply IH in Hnd as Hc.
    assert (Hs : s ∉ expand gs) by (rewrite Hel; intros Hx; by apply (Hdis s); [|left]).
    intros i j k x Hij Hjk Hi Hk.
    destruct (decide (k < length (expand gs))) as [Hkl|Hkl].
    + rewrite lookup_app_l in * by lia. by apply (Hc i j k).
    + rewrite (lookup_app_r _ _ k) in Hk by lia.
      apply lookup_replicate in Hk as [-> Hk].
      destruct (decide (i < length (expand gs))) as [Hil|Hil].
      * rewrite lookup_app_l in Hi by lia. exfalso. apply Hs. by eapply list_elem_of_lookup_2.
      * rewrite lookup_app_r by lia. apply lookup_replicate_2. lia.
Qed.

(** The check accepts exactly the batches whose three lists have one length,
    that are not empty, and whose sequences are contiguous. *)
Lemma check_ok b :
  check b = Ok () ↔
  length (b_positions b) = length (b_tokens b) ∧ length (b_seq_ids b) = length (b_tokens b)
  ∧ b_tokens b ≠ [] ∧ contiguous (b_seq_ids b).
Proof.
  assert (Hc : contiguous (b_seq_ids b) ↔ length (groups b) = n_seqs b).
  { rewrite groups_nodup, <-(tiles_contiguous _ _ (groups_tiles b)). by rewrite groups_expand. }
  unfold check. rewrite Hc.
  destruct (Nat.eqb_spec (length (b_positions b)) (length (b_tokens b))); simpl; [|naive_solver].
  destruct (Nat.eqb_spec (length (b_seq_ids b)) (length (b_tokens b))); simpl; [|naive_solver].
  destruct (Nat.eqb_spec (length (b_tokens b)) 0) as [H0|H0].
  - apply length_zero_iff_nil in H0. naive_solver.
  - destruct (Nat.eqb_spec (length (groups b)) (n_seqs b)); simpl; [|naive_solver].
    split; [|done]. intros _. split_and!; [done..| |done]. intros Hn. by rewrite Hn in H0.
Qed.

(** Each run is where its sequence's ids are. *)
Lemma tiles_member t gs g :
  tiles t gs → g ∈ gs → g.1.2 < g.2 ≤ t ∧ ∀ i, g.1.2 ≤ i < g.2 → expand gs !! i = Some g.1.1.
Proof.
  induction 1 as [|from gs s to Ht IH Hlt Hn]; [by intros ?%elem_of_nil|].
  pose proof (tiles_length _ _ Ht) as Hlen.
  assert (Hexp : expand (gs ++ [(s, from, to)]) = expand gs ++ replicate (to - from) s).
  { unfold expand. rewrite map_app, concat_app. simpl. by rewrite app_nil_r. }
  rewrite Hexp. intros [Hg | ->%list_elem_of_singleton]%elem_of_app.
  - destruct (IH Hg) as [Hb Hi]. split; [lia|]. intros i Hir. rewrite lookup_app_l by lia. by apply Hi.
  - simpl. split; [lia|]. intros i Hir. rewrite lookup_app_r by lia. apply lookup_replicate_2. lia.
Qed.

Lemma tiles_cover t gs i : tiles t gs → i < t → ∃ g, g ∈ gs ∧ g.1.2 ≤ i < g.2.
Proof.
  induction 1 as [|from gs s to Ht IH Hlt Hn]; [lia|]. intros Hi.
  destruct (decide (i < from)) as [Hf|Hf].
  - destruct (IH Hf) as (g & Hg & Hr). exists g. split; [set_solver|done].
  - exists (s, from, to). split; [set_solver|simpl; lia].
Qed.

Lemma tiles_unique gs g h : NoDup (keys gs) → g ∈ gs → h ∈ gs → g.1.1 = h.1.1 → g = h.
Proof.
  unfold keys. induction gs as [|x gs IH]; simpl; [by intros _ ?%elem_of_nil|].
  intros [Hx Hnd]%NoDup_cons [->|Hg]%elem_of_cons [->|Hh]%elem_of_cons Heq; [done| | |by apply IH].
  - exfalso. apply Hx. rewrite Heq. by apply (list_elem_of_fmap_2 (λ g, g.1.1)).
  - exfalso. apply Hx. rewrite <-Heq. by apply (list_elem_of_fmap_2 (λ g, g.1.1)).
Qed.

(** A row is the last of its sequence. *)
Definition last_row (ids : list N) (t : nat) : Prop :=
  ∃ s, ids !! t = Some s ∧ ∀ u, ids !! u = Some s → u ≤ t.

Lemma groups_last_rows b g :
  contiguous (b_seq_ids b) → g ∈ groups b → last_row (b_seq_ids b) (g.2 - 1).
Proof.
  intros Hc Hg. pose proof (groups_tiles b) as Ht. destruct (tiles_member _ _ _ Ht Hg) as [Hb Hi].
  rewrite groups_expand in Hi. exists g.1.1. split; [apply Hi; lia|]. intros u Hu.
  assert (Hul : u < length (b_seq_ids b)) by by eapply lookup_lt_Some.
  destruct (tiles_cover _ _ u Ht Hul) as (h & Hh & Hr). destruct (tiles_member _ _ _ Ht Hh) as [_ Hih].
  rewrite groups_expand in Hih. rewrite Hih in Hu by done. injection Hu as Hu.
  assert (h = g) as ->; [|lia]. apply (tiles_unique (groups b)); [|done..].
  apply (tiles_contiguous _ _ Ht). by rewrite groups_expand.
Qed.

(** The runs end one after the other. *)
Lemma tiles_ends t gs :
  tiles t gs →
  StronglySorted lt (map (λ g, g.2 - 1) gs) ∧ Forall (λ g, 1 ≤ g.2 ≤ t) gs.
Proof.
  induction 1 as [|from gs s to Ht [IHs IHf] Hlt Hn]; [split; constructor|].
  rewrite map_app. split.
  - apply StronglySorted_app_2; [|done|repeat constructor].
    intros x y Hx Hy. apply list_elem_of_fmap in Hx as (g & -> & Hg).
    rewrite Forall_forall in IHf. specialize (IHf _ Hg). simpl in Hy.
    apply list_elem_of_singleton in Hy as ->. simpl. lia.
  - apply Forall_app. split; [|repeat constructor; simpl; lia].
    eapply Forall_impl; [exact IHf|]. simpl. lia.
Qed.

Lemma out_rows_one b n :
  (N.of_nat (length (b_tokens b)) < 2 ^ 32)%N → n_seqs b ≤ 1 →
  out_rows b n = map N.of_nat (List.seq (length (b_tokens b) - n) (n `min` length (b_tokens b))).
Proof.
  intros Hmax Hone. unfold out_rows, batch_len. rewrite (proj2 (Nat.leb_le _ _)) by lia.
  replace (length (b_tokens b) - (length (b_tokens b) - n)) with (n `min` length (b_tokens b)) by lia.
  apply map_ext_in. intros t Ht%in_seq. unfold cast_u32. apply N.mod_small. lia.
Qed.

(** What [out_rows] returns for an accepted batch: the last [n] rows of a batch
    of one sequence; of a batch of several the last row of each sequence, in
    the batch's order, whatever [n] is. *)
Record rows_wanted (b : Batch) (n : nat) (rows : list N) : Prop := {
  rw_one : n_seqs b = 1 →
    rows = map N.of_nat (List.seq (length (b_tokens b) - n) (n `min` length (b_tokens b)));
  rw_number : 2 ≤ n_seqs b → length rows = n_seqs b;
  rw_order : StronglySorted N.lt rows;
  rw_last : 2 ≤ n_seqs b → ∀ r, r ∈ rows ↔ ∃ t, r = N.of_nat t ∧ last_row (b_seq_ids b) t
}.

Lemma sorted_of_nat l : StronglySorted lt l → StronglySorted N.lt (map N.of_nat l).
Proof.
  induction 1 as [|x l _ IH Hx]; simpl; constructor; [done|].
  apply Forall_map. eapply Forall_impl; [exact Hx|]. simpl. lia.
Qed.

Lemma sorted_seq from n : StronglySorted lt (List.seq from n).
Proof.
  revert from. induction n as [|n IH]; intros from; simpl; constructor; [done|].
  apply Forall_forall. intros x Hx%list_elem_of_In%in_seq. lia.
Qed.

Lemma out_rows_many b n :
  (N.of_nat (length (b_seq_ids b)) < 2 ^ 32)%N → 2 ≤ n_seqs b →
  out_rows b n = map N.of_nat (map (λ g, g.2 - 1) (groups b)).
Proof.
  intros Hmax Htwo. unfold out_rows. rewrite (proj2 (Nat.leb_gt _ _)) by lia.
  rewrite map_map. apply map_ext_in. intros g Hg%list_elem_of_In.
  destruct (tiles_member _ _ _ (groups_tiles b) Hg) as [Hb _]. unfold cast_u32. apply N.mod_small. lia.
Qed.

Lemma out_rows_wanted b n :
  (N.of_nat (length (b_tokens b)) < 2 ^ 32)%N → check b = Ok () → rows_wanted b n (out_rows b n).
Proof.
  intros Hmax (_ & Hl & _ & Hc)%check_ok. rewrite <-Hl in Hmax. pose proof (groups_tiles b) as Ht.
  split.
  - intros Hone. apply out_rows_one; [by rewrite <-Hl|lia].
  - intros Htwo. rewrite out_rows_many, !length_map by done.
    apply groups_nodup, (tiles_contiguous _ _ Ht). by rewrite groups_expand.
  - destruct (decide (n_seqs b ≤ 1)) as [Hone|Htwo].
    + rewrite out_rows_one by (done || by rewrite <-Hl). apply sorted_of_nat, sorted_seq.
    + rewrite out_rows_many by (done || lia). apply sorted_of_nat. by eapply tiles_ends.
  - intros Htwo r. rewrite out_rows_many by done. rewrite map_map, list_elem_of_fmap. split.
    + intros (g & -> & Hg). exists (g.2 - 1). split; [done|by apply groups_last_rows].
    + intros (t & -> & s & Hs & Hmaxt).
      assert (Htl : t < length (b_seq_ids b)) by by eapply lookup_lt_Some.
      destruct (tiles_cover _ _ t Ht Htl) as (g & Hg & Hr). exists g. split; [|done]. f_equal.
      destruct (tiles_member _ _ _ Ht Hg) as [Hb Hi]. rewrite groups_expand in Hi.
      pose proof (Hi t Hr) as Hgs. rewrite Hs in Hgs. injection Hgs as ->.
      pose proof (Hmaxt (g.2 - 1) ltac:(apply Hi; lia)). lia.
Qed.

(** C40. [check] accepts exactly the batches with lists of one length, at least
    one token and contiguous sequences.  Of an accepted batch of one sequence
    [out_rows] names the last [n] rows, of one of several sequences the last
    row of every sequence and nothing else, and always in the batch's order. *)
Theorem check_and_out_rows b n :
  (N.of_nat (length (b_tokens b)) < 2 ^ 32)%N →
  (check b = Ok () ↔
   length (b_positions b) = length (b_tokens b) ∧ length (b_seq_ids b) = length (b_tokens b)
   ∧ b_tokens b ≠ [] ∧ contiguous (b_seq_ids b))
  ∧ (check b = Ok () → rows_wanted b n (out_rows b n)).
Proof. intros Hmax. split; [apply check_ok|]. by apply out_rows_wanted. Qed.

Lemma check_and_out_rows_witness :
  let b := mkBatch [7; 8; 9]%N [0; 4; 5] [2; 5; 5]%N in
  let c := mkBatch [7; 8; 9]%N [0; 1; 2] [2; 2; 2]%N in
  check b = Ok () ∧ rows_wanted b 1 (out_rows b 1) ∧ out_rows b 1 = [0; 2]%N
  ∧ rows_wanted c 2 (out_rows c 2) ∧ out_rows c 2 = [1; 2]%N.
Proof.
  assert (Hb : check (mkBatch [7; 8; 9]%N [0; 4; 5]%nat [2; 5; 5]%N) = Ok ()) by reflexivity.
  assert (Hc : check (mkBatch [7; 8; 9]%N [0; 1; 2]%nat [2; 2; 2]%N) = Ok ()) by reflexivity.
  split; [exact Hb|split; [|split; [reflexivity|split; [|reflexivity]]]].
  - exact (proj2 (check_and_out_rows (mkBatch [7; 8; 9]%N [0; 4; 5] [2; 5; 5]%N) 1 eq_refl) Hb).
  - exact (proj2 (check_and_out_rows (mkBatch [7; 8; 9]%N [0; 1; 2] [2; 2; 2]%N) 2 eq_refl) Hc).
Defined.
