(* ===== verification/KvArena.v ===== *)
(** * The KV arena of the allocator: [src/graph/alloc.rs], [src/graph/cpu_backend.rs]

    The cell store together with the pools that hold the K/V rows: compaction,
    resizing, prefix copies and copy-on-write move the rows and renumber the
    run table.  A pool is any implementation of [CellPool] whose [copy_cells]
    moves rows inside one buffer ([CellPoolLaws]); [CpuPool] is the CPU one. *)
From stdpp Require Import base numbers list gmap option sorting strings.
From S2P Require Import Prelude Slices KvCache KvFacts KvMoves KvPlans Batch.

Inductive PoolError :=
| CrossBuffer (src dst : nat)
| UnknownBuffer (id : nat)
| RangeOverflow
| DoesNotFit (rows src dst : nat).

(** What a backend's pool promises the KV arena: [graph/backend.rs]. *)
Class CellPool (W P : Type) := {
  pool_buf : P → nat → option (list W);
  copy_cells : BufRef → BufRef → nat → nat → nat → nat → P → res PoolError unit * P
}.

(** A buffer the host can address. *)
Definition addressable {W} (buf : list W) : Prop := (N.of_nat (length buf) < 2 ^ 64)%N.

Class CellPoolLaws (W P : Type) `{!CellPool W P} := {
  copy_cells_moves : ∀ (p : P) r dst_row src_row rows elems buf,
    pool_buf p (br_id r) = Some buf → addressable buf →
    (dst_row + rows) * elems ≤ length buf → (src_row + rows) * elems ≤ length buf →
    ∃ p' buf', copy_cells r r dst_row src_row rows elems p = (Ok (), p') ∧
      copy_within buf (src_row * elems) ((src_row + rows) * elems) (dst_row * elems) = Some buf' ∧
      pool_buf p' (br_id r) = Some buf' ∧
      ∀ id, id ≠ br_id r → pool_buf p' id = pool_buf p id
}.

(** ** The CPU pool *)
Module CpuPool.
Definition pool (W : Type) : Type := list (list W).

Definition checked_mul (a b : nat) : option nat :=
  if (N.of_nat a * N.of_nat b <? 2 ^ 64)%N then Some (a * b) else None.

Definition cpu_copy_cells {W} (dst src : BufRef) (dst_row src_row rows elems_per_cell : nat)
    (bufs : pool W) : res PoolError unit * pool W :=
  if negb (br_id dst =? br_id src) then (Err (CrossBuffer (br_id src) (br_id dst)), bufs) else
  match bufs !! br_id dst with
  | None => (Err (UnknownBuffer (br_id dst)), bufs)
  | Some buf =>
  match checked_mul src_row elems_per_cell, checked_mul dst_row elems_per_cell,
        checked_mul rows elems_per_cell with
  | Some src_start, Some dst_start, Some len =>
      if (length buf <? usize_add src_start len) || (length buf <? usize_add dst_start len)
      then (Err (DoesNotFit rows src_start dst_start), bufs) else
      match copy_within buf src_start (usize_add src_start len) dst_start with
      | Some buf => (Ok (), <[br_id dst := buf]> bufs)
      | None => (Panic, bufs)
      end
  | _, _, _ => (Err RangeOverflow, bufs)
  end
  end.

#[export] Instance cpu_pool W : CellPool W (pool W) := {
  pool_buf bufs id := bufs !! id;
  copy_cells := cpu_copy_cells
}.

Lemma checked_mul_some a b n : a * b ≤ n → (N.of_nat n < 2 ^ 64)%N →
  checked_mul a b = Some (a * b).
Proof. intros. unfold checked_mul. rewrite (proj2 (N.ltb_lt _ _)); [done|lia]. Qed.

Lemma usize_add_small a b : (N.of_nat (a + b) < 2 ^ 64)%N → usize_add a b = a + b.
Proof. intros. unfold usize_add. rewrite N.mod_small by lia. lia. Qed.

#[export] Instance cpu_pool_laws W : CellPoolLaws W (pool W).
Proof.
  split. intros p r dst_row src_row rows elems buf Hbuf Haddr Hd Hs. simpl in *.
  unfold addressable in Haddr.
  rewrite copy_within_some by nia. do 2 eexists. split_and!; [|done|..].
  - unfold cpu_copy_cells. rewrite Nat.eqb_refl, Hbuf. simpl.
    rewrite !(checked_mul_some _ _ (length buf)) by nia.
    rewrite !usize_add_small by nia.
    rewrite !(proj2 (Nat.ltb_ge _ _)) by nia. simpl.
    rewrite copy_within_some by nia. by replace (src_row * elems + rows * elems)
      with ((src_row + rows) * elems) by lia.
  - apply list_lookup_insert_eq. by eapply lookup_lt_Some.
  - intros id Hid. by apply list_lookup_insert_ne.
Qed.
End CpuPool.

(** ** The allocator's KV state and operations *)

Inductive ArenaError :=
| AKv (e : KvError)
| ADefragDisabled (e : KvError)
| AAfterCompaction (e : KvError) (moved : nat) (first : KvError)
| APoolMissing (backend : N)
| APool (e : PoolError)
| AMoveFailed (seq : N) (from to : nat) (e : ArenaError)
| ANoRun (seq : N)
| AVanished
| AResizeDisabled (seq : N) (cap : nat)
| ASourceShares (seq : N) (rows : nat)
| ASourceShort (seq : N) (written rows : nat)
| ADestShort (seq : N) (cap rows : nat)
| AUnreserved (seq : N)
| ACellLengths (ids positions : nat)
| ANoReservedRun (t : nat) (seq : N)
| AStoreThroughShared (t : nat) (rel : nat) (seq : N)
| APastRun (t : nat) (rel : nat) (seq : N)
| AOutsideSpans (t : nat) (rel : nat) (seq : N).

Abbreviation ares := (res ArenaError).

Record KvDefragReport := mkReport {
  rep_moves : list KvMove;
  rep_rows_moved : nat;
  rep_before : KvArenaStats;
  rep_after : KvArenaStats
}.

(** The gate's variable is only checked for presence. *)
Definition kv_defrag_enabled_from (no_flag : option string) : bool :=
  match no_flag with None => true | Some _ => false end.

Section arena.
Context {W P : Type} `{!CellPool W P}.

Record Alloc := mkAlloc { ga_kv : KvCache; ga_pools : gmap N P }.

Definition set_kv (c : KvCache) (a : Alloc) : Alloc := mkAlloc c (ga_pools a).
Definition set_pools (ps : gmap N P) (a : Alloc) : Alloc := mkAlloc (ga_kv a) ps.

(** An operation of the store, run on the allocator's. *)
Definition on_kv {A} (f : KvCache → kres A * KvCache) (a : Alloc) : ares A * Alloc :=
  let '(r, c) := f (ga_kv a) in (map_err AKv r, set_kv c a).

Definition copy_cells_in_pool (backend : N) (dst src : BufRef)
    (dst_row src_row rows elems : nat) (a : Alloc) : ares unit * Alloc :=
  match ga_pools a !! backend with
  | None => (Err (APoolMissing backend), a)
  | Some pool =>
      let '(r, pool) := copy_cells dst src dst_row src_row rows elems pool in
      (map_err APool r, set_pools (<[backend := pool]> (ga_pools a)) a)
  end.

(** [(l.k, l.v, (l.elems / l.n_ctx.max(1)).max(1))] of every layer. *)
Definition regions (c : KvCache) : list (BufRef * BufRef * nat) :=
  map (λ p, (lay_k p.2, lay_v p.2,
             (lay_elems p.2 / (lay_n_ctx p.2 `max` 1)) `max` 1)) (in_order (kv_layers c)).

Definition copy_move (k v : BufRef) (elems : nat) (m : KvMove) (a : Alloc) :
    ares unit * Alloc :=
  if mv_rows m =? 0 then (Ok (), a) else
  let '(r, a) := for_each (λ region,
    copy_cells_in_pool (br_backend region) region region (mv_to m) (mv_from m) (mv_rows m)
      elems) [k; v] a in
  (map_err (AMoveFailed (mv_seq m) (mv_from m) (mv_to m)) r, a).

(** The copies of a plan: every layer, every move, K then V. *)
Definition copy_moves (ms : list KvMove) (a : Alloc) : ares unit * Alloc :=
  for_each (λ '(k, v, elems), for_each (copy_move k v elems) ms) (regions (ga_kv a)) a.

Definition kv_defrag (need : option nat) (a : Alloc) : ares KvDefragReport * Alloc :=
  let before := arena_stats (ga_kv a) in
  let moves := compaction_plan need (ga_kv a) in
  if decide (moves = []) then (Ok (mkReport moves 0 before before), a) else
  match copy_moves moves a with
  | (Ok _, a) =>
      let '(r, a) := on_kv (apply_moves moves) a in
      (rows_moved ← r;
       Ok (mkReport moves rows_moved before (arena_stats (ga_kv a))), a)
  | (Err e, a) => (Err e, a)
  | (Panic, a) => (Panic, a)
  end.

Definition kv_reserve_seq_with_defrag (enabled : bool) (seq : N) (cap : nat) (a : Alloc) :
    ares (SeqSlot * list KvMove) * Alloc :=
  match reserve_seq seq cap (ga_kv a) with
  | (Ok slot, c) => (Ok (slot, []), set_kv c a)
  | (Panic, c) => (Panic, set_kv c a)
  | (Err first, c) =>
      let a := set_kv c a in
      if negb enabled then (Err (ADefragDisabled first), a) else
      match kv_defrag (Some cap) a with
      | (Ok report, a) =>
          if decide (rep_moves report = []) then (Err (AKv first), a) else
          let '(r, c) := reserve_seq seq cap (ga_kv a) in
          (slot ← map_err (λ e, AAfterCompaction e (length (rep_moves report)) first) r;
           Ok (slot, rep_moves report), set_kv c a)
      | (Err e, a) => (Err e, a)
      | (Panic, a) => (Panic, a)
      end
  end.

Definition kv_set_cap_with_defrag (enabled : bool) (seq : N) (cap : nat) (a : Alloc) :
    ares (SeqSlot * list KvMove) * Alloc :=
  match seq_slot (ga_kv a) seq with
  | None => (Err (ANoRun seq), a)
  | Some old_slot =>
  let old := sl_cap old_slot in
  match on_kv (set_cap seq cap) a with
  | (Err e, a) => (Err e, a)
  | (Panic, a) => (Panic, a)
  | (Ok moves, a) =>
  if decide (moves = []) then
    (slot ← ok_or (seq_slot (ga_kv a) seq) AVanished; Ok (slot, moves), a)
  else if negb enabled then
    let '(r, a) := on_kv (set_cap seq old) a in
    (_ ← r; Err (AResizeDisabled seq cap), a)
  else
    let ordered := order_moves moves in
    match copy_moves ordered a with
    | (Ok _, a) =>
        let '(r, a) := on_kv (apply_moves ordered) a in
        (_ ← r;
         slot ← ok_or (seq_slot (ga_kv a) seq) AVanished;
         Ok (slot, ordered), a)
    | (Err e, a) => (Err e, a)
    | (Panic, a) => (Panic, a)
    end
  end
  end.

(** K, then V, of every layer: [rows] rows from [src_row] to [dst_row].  The
    copy is dispatched on the K region's backend. *)
Definition copy_rows (dst_row src_row rows : nat) (a : Alloc) : ares unit * Alloc :=
  for_each (λ '(k, v, elems), for_each (λ region,
    copy_cells_in_pool (br_backend k) region region dst_row src_row rows elems) [k; v])
    (regions (ga_kv a)) a.

Definition kv_copy_prefix (src dst : N) (rows : nat) (a : Alloc) : ares unit * Alloc :=
  if rows =? 0 then (Ok (), a) else
  match seq_slot (ga_kv a) src with
  | None => (Err (ANoRun src), a)
  | Some from =>
  if 0 <? sh_rows (sl_shared from)
  then (Err (ASourceShares src (sh_rows (sl_shared from))), a) else
  match seq_slot (ga_kv a) dst with
  | None => (Err (ANoRun dst), a)
  | Some to =>
  let written := written_rows (ga_kv a) src in
  if written <? rows then (Err (ASourceShort src written rows), a) else
  if sl_cap to <? rows then (Err (ADestShort dst (sl_cap to) rows), a) else
  if sl_start from =? sl_start to then (Ok (), a) else
  match copy_rows (sl_start to) (sl_start from) rows a with
  | (Ok _, a) =>
      (Ok (), set_kv (own_range dst (sl_start to) (sl_start to + rows) (ga_kv a)) a)
  | (Err e, a) => (Err (AMoveFailed dst (sl_start from) (sl_start to) e), a)
  | (Panic, a) => (Panic, a)
  end
  end
  end.

Definition kv_share_prefix (src dst : N) (rows : nat) (a : Alloc) : ares nat * Alloc :=
  let '(r, a) := on_kv (share_prefix src dst rows) a in
  (_ ← r; Ok rows, a).

Definition kv_private_row_for (seq : N) (t : nat) (a : Alloc) :
    ares (option KvShift) * Alloc :=
  match private_row_for seq t (ga_kv a) with
  | Err e => (Err (AKv e), a)
  | Panic => (Panic, a)
  | Ok None => (Ok None, a)
  | Ok (Some shift) =>
      match (if 0 <? ks_rows shift
             then copy_rows (ks_to shift) (ks_from shift) (ks_rows shift) a
             else (Ok (), a)) with
      | (Ok _, a) =>
          let '(r, a) := on_kv (apply_private_row shift) a in
          (_ ← r; Ok (Some shift), a)
      | (Err e, a) => (Err (AMoveFailed seq (ks_from shift) (ks_to shift) e), a)
      | (Panic, a) => (Panic, a)
      end
  end.
End arena.
Arguments Alloc P : clear implicits.
Arguments mkAlloc {P} ga_kv ga_pools.

(** The cells a forward's tokens are stored at. *)
Definition store_cell (c : KvCache) (t : nat) (seq : N) (rel : nat) : ares N :=
  slot ← ok_or (seq_slot c seq) (ANoReservedRun t seq);
  if rel <? sh_rows (sl_shared slot) then Err (AStoreThroughShared t rel seq) else
  if sh_rows (sl_shared slot) + sl_cap slot <=? rel then Err (APastRun t rel seq) else
  cell ← ok_or (cell_of c seq rel) (AOutsideSpans t rel seq);
  Ok (cast_u32 cell).

Fixpoint cells_loop (c : KvCache) (t : nat) (seq_ids : list N) (positions : list nat) :
    ares (list N) :=
  match seq_ids, positions with
  | seq :: ss, rel :: ps =>
      cell ← store_cell c t seq rel; cells ← cells_loop c (S t) ss ps; Ok (cell :: cells)
  | _, _ => Ok []
  end.

Definition kv_cells_for_seq (c : KvCache) (seq_ids : list N) (positions : list nat) :
    ares (list N) :=
  if negb (length seq_ids =? length positions)
  then Err (ACellLengths (length seq_ids) (length positions))
  else cells_loop c 0 seq_ids positions.

(** ** Filling a batch's inputs *)

(** [&l[from..to]]; [None] is the panic. *)
Definition slice {A} (l : list A) (from to : nat) : option (list A) :=
  if (from <=? to) && (to <=? length l) then Some (take (to - from) (drop from l)) else None.

Definition list_min (l : list nat) : option nat :=
  match l with [] => None | x :: l => Some (foldl Nat.min x l) end.

(** The inputs [fill_seq_ids] fills, by name, in order; [has] is the graph's
    input list. *)
Definition fill_seq_ids (has : string → bool) (seq_ids : list N) (positions : list nat)
    (c : KvCache) : ares (list (string * list N)) :=
  let seqs_in := if has "seq_ids"%string then [("seq_ids"%string, seq_ids)] else [] in
  cells_in ← (if has "cells"%string
              then cells ← kv_cells_for_seq c seq_ids positions;
                   Ok [("cells"%string, cells)]
              else Ok []);
  if has "kv_map"%string then
    m ← map_err AKv (attn_map c seq_ids positions);
    Ok (seqs_in ++ cells_in ++ [("kv_map"%string, m)])
  else if negb (has "attn_span"%string) then Ok (seqs_in ++ cells_in)
  else
    s ← map_err AKv (attn_span c seq_ids positions);
    Ok (seqs_in ++ cells_in ++ [("attn_span"%string, s)]).

Section fill.
Context {W P : Type} `{!CellPool W P}.

Definition cow_group (b : Batch) (g : N * nat * nat) (a : Alloc P) : ares unit * Alloc P :=
  let '(seq, from, to) := g in
  match slice (b_positions b) from to with
  | None => (Panic, a)
  | Some ps =>
      match list_min ps with
      | None => (Ok (), a)
      | Some t => let '(r, a) := kv_private_row_for seq t a in (_ ← r; Ok (), a)
      end
  end.

Definition own_group (b : Batch) (g : N * nat * nat) (a : Alloc P) : ares unit * Alloc P :=
  let '(seq, from, to) := g in
  let '(r, a) :=
    match seq_slot (ga_kv a) seq with
    | Some _ => (Ok (), a)
    | None =>
        if 1 <? n_seqs b then (Err (AUnreserved seq), a) else
        let '(r, a) := on_kv (reserve_seq seq (kv_n_ctx (ga_kv a))) a in (_ ← r; Ok (), a)
    end in
  match r with
  | Ok _ =>
      match slice (b_positions b) from to with
      | None => (Panic, a)
      | Some ps => on_kv (own_positions seq ps) a
      end
  | Err e => (Err e, a)
  | Panic => (Panic, a)
  end.

Definition fill_batch_inputs (has : string → bool) (b : Batch) (a : Alloc P) :
    ares (list (string * list N)) * Alloc P :=
  match for_each (cow_group b) (groups b) a with
  | (Ok _, a) =>
      match for_each (own_group b) (groups b) a with
      | (Ok _, a) => (fill_seq_ids has (b_seq_ids b) (b_positions b) (ga_kv a), a)
      | (Err e, a) => (Err e, a)
      | (Panic, a) => (Panic, a)
      end
  | (Err e, a) => (Err e, a)
  | (Panic, a) => (Panic, a)
  end.
End fill.
