(* ===== verification/Backend.v ===== *)
(** * Backends, their pools and the KV element types

    The handles of [src/graph/registry.rs] (the build without Metal and CUDA),
    the buffers a pool hands out ([src/graph/backend.rs]), the CPU's pool of
    them ([src/graph/cpu_backend.rs]) and [src/graph/kvformat.rs]. *)
From stdpp Require Import base numbers list gmap option strings.
From S2P Require Import Prelude Slices KvCache KvArena.

(** ** Handles: a backend is its registry id *)

Definition N_BACKENDS : nat := 3.
Definition CPU : N := 0.
Definition METAL : N := 1.

Definition from_index (index : nat) : option N :=
  if index <? N_BACKENDS then Some (N.of_nat index) else None.

(** Only the CPU registers an entry. *)
Definition has_entry (backend : N) : bool := (backend =? CPU)%N.

Definition reads_packed_kv (backend : N) : bool := has_entry backend.

(** ** KV element types *)

Inductive KvFormat := F32 | F16 | Q8_0.

#[export] Instance KvFormat_eq_dec : EqDecision KvFormat.
Proof. solve_decision. Defined.

Definition Q8_0_BLOCK : nat := 32.
Definition Q8_0_BLOCK_BYTES : nat := 34.
Definition WORD_BYTES : nat := 4.

Definition is_packed (f : KvFormat) : bool :=
  match f with Q8_0 => true | _ => false end.

Definition div_ceil (a b : nat) : nat := (a + b - 1) / b.

Definition row_elems (f : KvFormat) (nkt : nat) : nat :=
  match f with
  | F32 | F16 => nkt
  | Q8_0 => div_ceil (nkt / Q8_0_BLOCK * Q8_0_BLOCK_BYTES) WORD_BYTES
  end.

Definition check_width (f : KvFormat) (nkt : nat) : bool :=
  negb (is_packed f && ((nkt =? 0) || negb (nkt mod Q8_0_BLOCK =? 0))).

(** ** Buffers of a pool *)

(** What a pool promises whoever allocates from it: [alloc_buffer] hands out a
    buffer nobody holds, zeroed, of the asked length; [write_host] replaces a
    buffer's words.  [None] is a panic. *)
Class BufferPool (W P : Type) `{!CellPool W P} := {
  zero : W;
  alloc_buffer : nat → P → option (nat * P);
  free_buffer : nat → P → P;
  pool_len : P → nat;
  weights_bytes : P → N;
  read_host : P → nat → option (list W);
  write_host : nat → list W → P → res PoolError unit * P
}.

Class BufferPoolLaws (W P : Type) `{!CellPool W P, !BufferPool W P} := {
  pool_ok : P → Prop;
  held : P → nat → Prop;
  held_buf p id : pool_ok p → held p id → is_Some (pool_buf p id);
  read_host_buf p id : read_host p id = pool_buf p id;
  alloc_buffer_spec p size : pool_ok p →
    ∃ id p', alloc_buffer size p = Some (id, p') ∧ pool_ok p' ∧ ¬ held p id ∧
      (∀ j, held p' j ↔ j = id ∨ held p j) ∧
      pool_buf p' id = Some (replicate size zero) ∧
      (∀ j, j ≠ id → pool_buf p' j = pool_buf p j) ∧ weights_bytes p' = weights_bytes p;
  write_host_spec p id buf data : pool_ok p → pool_buf p id = Some buf →
    addressable data → length data = length buf →
    ∃ p', write_host id data p = (Ok (), p') ∧ pool_ok p' ∧
      (∀ j, held p' j ↔ held p j) ∧ pool_buf p' id = Some data ∧
      (∀ j, j ≠ id → pool_buf p' j = pool_buf p j)
}.

(** ** The CPU's buffers *)
Module CpuBackend.
Section cpu.
Context {W : Type} (z : W).

(** Of a registered weight only the number of its bytes matters here. *)
Record backend := mkBackend {
  cb_buffers : list (list W); cb_free : list nat; cb_weights : gmap string N
}.

Definition new : backend := mkBackend [] [] ∅.

Definition set_buffers (bufs : list (list W)) (b : backend) : backend :=
  mkBackend bufs (cb_free b) (cb_weights b).

Definition register_weight (name : string) (bytes : N) (b : backend) : backend :=
  match cb_weights b !! name with
  | Some _ => b
  | None => mkBackend (cb_buffers b) (cb_free b) (<[name := bytes]> (cb_weights b))
  end.

Definition cpu_weights_bytes (b : backend) : N :=
  (map_fold (λ _ n s, n + s) 0 (cb_weights b) mod 2 ^ 64)%N.

(** [Iterator::position]. *)
Fixpoint position {A} (f : A → option bool) (l : list A) : option (option nat) :=
  match l with
  | [] => Some None
  | x :: l =>
      match f x with
      | None => None
      | Some true => Some (Some 0)
      | Some false => option_map (option_map S) (position f l)
      end
  end.

(** [Vec::swap_remove] at an index in range. *)
Definition swap_remove {A} (i : nat) (l : list A) : option (A * list A) :=
  match l !! i, l !! (length l - 1) with
  | Some x, Some y =>
      Some (x, if decide (S i = length l) then take i l
               else <[i := y]> (take (length l - 1) l))
  | _, _ => None
  end.

Definition push_buffer (size : nat) (b : backend) : nat * backend :=
  (length (cb_buffers b), set_buffers (cb_buffers b ++ [replicate size z]) b).

Definition cpu_alloc_buffer (size : nat) (b : backend) : option (nat * backend) :=
  match position (λ id, option_map (λ buf, length buf =? size) (cb_buffers b !! id))
          (cb_free b) with
  | None => None
  | Some None => Some (push_buffer size b)
  | Some (Some idx) =>
      option_map (λ p, (p.1,
        mkBackend (alter (λ buf, replicate (length buf) z) p.1 (cb_buffers b)) p.2 (cb_weights b)))
        (swap_remove idx (cb_free b))
  end.

Definition cpu_free_buffer (id : nat) (b : backend) : backend :=
  if decide (id ∈ cb_free b) then b else mkBackend (cb_buffers b) (cb_free b ++ [id]) (cb_weights b).

Definition cpu_write_host_window (id offset : nat) (data : list W) (b : backend) :
    res PoolError unit * backend :=
  match cb_buffers b !! id with
  | None => (Err (UnknownBuffer id), b)
  | Some buf =>
      if (2 ^ 64 <=? N.of_nat offset + N.of_nat (length data))%N
      then (Err RangeOverflow, b) else
      if length buf <? offset + length data
      then (Err (DoesNotFit (length data) offset (length buf)), b) else
      (Ok (), set_buffers (<[id := take offset buf ++ data
                                 ++ drop (offset + length data) buf]> (cb_buffers b)) b)
  end.

Definition cpu_write_host (id : nat) (data : list W) (b : backend) :
    res PoolError unit * backend :=
  match cb_buffers b !! id with
  | None => (Err (UnknownBuffer id), b)
  | Some buf =>
      if negb (length buf =? length data)
      then (Err (DoesNotFit (length data) 0 (length buf)), b)
      else cpu_write_host_window id 0 data b
  end.

#[export] Instance backend_cells : CellPool W backend := {
  pool_buf b id := cb_buffers b !! id;
  copy_cells dst src dst_row src_row rows elems b :=
    let '(r, bufs) := CpuPool.cpu_copy_cells dst src dst_row src_row rows elems (cb_buffers b) in
    (r, set_buffers bufs b)
}.

#[export] Instance backend_buffers : BufferPool W backend := {
  zero := z;
  alloc_buffer := cpu_alloc_buffer;
  free_buffer := cpu_free_buffer;
  weights_bytes := cpu_weights_bytes;
  pool_len b := length (cb_buffers b);
  read_host b id := cb_buffers b !! id;
  write_host := cpu_write_host
}.

(** The free list names distinct buffers of the pool. *)
Definition backend_ok (b : backend) : Prop :=
  NoDup (cb_free b) ∧ Forall (λ id, id < length (cb_buffers b)) (cb_free b).
Definition backend_held (b : backend) (id : nat) : Prop :=
  id < length (cb_buffers b) ∧ id ∉ cb_free b.

Lemma position_total {A} (f : A → option bool) l :
  (∀ x, x ∈ l → is_Some (f x)) → ∃ r, position f l = Some r ∧
    ∀ i, r = Some i → ∃ x, l !! i = Some x ∧ f x = Some true.
Proof.
  induction l as [|x l IH]; intros Hf; simpl; [by eexists|].
  destruct (Hf x) as [[] Hx]; [by left|rewrite Hx|rewrite Hx].
  - eexists. split; [done|]. intros i [= <-]. eauto.
  - destruct IH as (r & -> & Hr); [intros y Hy; apply Hf; by right|].
    eexists. split; [done|]. intros [|i] Hi; destruct r; simplify_eq/=. by apply Hr.
Qed.

Lemma swap_remove_perm {A} i (l : list A) x :
  l !! i = Some x → ∃ l', swap_remove i l = Some (x, l') ∧ l ≡ₚ x :: l'.
Proof.
  intros Hi. pose proof (lookup_lt_Some _ _ _ Hi) as Hlt. unfold swap_remove. rewrite Hi. simpl.
  destruct l as [|w l _] using rev_ind; [by rewrite lookup_nil in Hi|].
  rewrite length_app in Hlt |- *. simpl in *.
  replace (length l + 1 - 1) with (length l) by lia. rewrite list_lookup_middle by done.
  eexists. split; [done|]. case_decide as Hd.
  - assert (i = length l) as -> by lia. rewrite lookup_app_r, Nat.sub_diag in Hi by lia.
    injection Hi as ->. rewrite take_app_length. by rewrite Permutation_app_comm.
  - rewrite lookup_app_l in Hi by lia.
    rewrite take_app_length.
    apply list_elem_of_split_length in Hi as (l1 & l2 & -> & ->).
    rewrite insert_app_r_alt, Nat.sub_diag by lia. simpl. rewrite <-app_assoc. simpl.
    rewrite <-!Permutation_middle. by rewrite app_nil_r.
Qed.

Lemma cpu_alloc_buffer_spec b size : backend_ok b →
  ∃ id b', cpu_alloc_buffer size b = Some (id, b') ∧ backend_ok b' ∧ ¬ backend_held b id ∧
    (∀ j, backend_held b' j ↔ j = id ∨ backend_held b j) ∧
    cb_buffers b' !! id = Some (replicate size z) ∧
    (∀ j, j ≠ id → cb_buffers b' !! j = cb_buffers b !! j) ∧
    cpu_weights_bytes b' = cpu_weights_bytes b.
Proof.
  intros [Hnd Hin]. unfold cpu_alloc_buffer.
  destruct (position_total (λ id, option_map (λ buf, length buf =? size) (cb_buffers b !! id))
    (cb_free b)) as ([idx|] & -> & Hr).
  { intros x Hx. rewrite list.Forall_forall in Hin.
    destruct (lookup_lt_is_Some_2 (cb_buffers b) x) as [buf ->]; [by apply Hin|by eexists]. }
  - destruct (Hr idx) as (id & Hidx & Hbuf); [done|].
    destruct (cb_buffers b !! id) as [buf|] eqn:Hb; simplify_eq/=.
    apply Nat.eqb_eq in Hbuf.
    destruct (swap_remove_perm _ _ _ Hidx) as (free & -> & Hp). simpl.
    rewrite Hp in Hnd, Hin. apply list.NoDup_cons in Hnd as [Hid Hnd].
    inversion Hin as [|? ? Hlt Hfree]; subst.
    do 2 eexists. split; [done|]. unfold backend_ok, backend_held. simpl. rewrite length_alter.
    split_and!; [done|done|intros [_ Hf]; apply Hf; rewrite Hp; by left|..].
    + intros j. rewrite Hp, not_elem_of_cons. destruct (decide (j = id)) as [-> |]; naive_solver.
    + rewrite list_lookup_alter_eq, Hb. done.
    + intros j Hj. by rewrite list_lookup_alter_ne.
    + done.
  - do 2 eexists. split; [done|]. unfold backend_ok, backend_held. simpl.
    rewrite length_app. simpl. rewrite list.Forall_forall in Hin.
    split_and!; [done| |lia|..].
    + apply list.Forall_forall. intros x Hx%Hin. lia.
    + intros j. split.
      * intros [Hj Hf]. destruct (decide (j = length (cb_buffers b))); [by left|right; split; [lia|done]].
      * intros [-> |[Hj Hf]]; (split; [lia|]); [|done]. intros Hx%Hin. lia.
    + by apply list_lookup_middle.
    + intros j Hj. destruct (decide (j < length (cb_buffers b))); [by rewrite lookup_app_l|].
      rewrite !lookup_ge_None_2; [done|lia|rewrite length_app; simpl; lia].
    + done.
Qed.

#[export] Instance backend_cells_laws : CellPoolLaws W backend.
Proof.
  split. intros b r dst_row src_row rows elems buf Hbuf Ha Hd Hs. simpl in *.
  destruct (@copy_cells_moves W (CpuPool.pool W) (CpuPool.cpu_pool W) (CpuPool.cpu_pool_laws W) (cb_buffers b) r dst_row src_row rows elems
    buf) as (bufs & buf' & Hc & Hw & Hn & Ho); [done..|].
  simpl in *. rewrite Hc. eauto 10.
Qed.

#[export] Instance backend_buffers_laws : BufferPoolLaws W backend.
Proof.
  refine {| pool_ok := backend_ok; held := backend_held |}.
  - intros b id [Hnd Hin] [Hlt _]. by apply lookup_lt_is_Some_2.
  - done.
  - apply cpu_alloc_buffer_spec.
  - intros b id buf data Hok Hbuf Haddr Hl. unfold addressable in Haddr.
    pose proof (lookup_lt_Some _ _ _ Hbuf) as Hlt. simpl in *.
    unfold cpu_write_host, cpu_write_host_window. rewrite Hbuf, Hl, Nat.eqb_refl. simpl.
    rewrite (proj2 (N.leb_gt _ _)), Nat.ltb_irrefl by lia.
    eexists. split; [done|]. unfold backend_held, backend_ok in *. simpl. rewrite length_insert.
    split_and!; try apply Hok; [done| |].
    + rewrite list_lookup_insert_eq by done. by rewrite drop_all, app_nil_r.
    + intros j Hj. by rewrite list_lookup_insert_ne.
Defined.
End cpu.
Arguments backend W : clear implicits.
End CpuBackend.
