(* ===== verification/Graph.v ===== *)
(** * Compute graphs: [src/graph/mod.rs], [src/graph/ops.rs]

    Nodes with their operations, sources and view aliases, and
    [topo_order].  A float parameter is its bit pattern; of a node's metadata
    only the fields the allocator reads are kept. *)
From stdpp Require Import base numbers list gmap option.
From S2P Require Import Prelude KvCache.

Inductive AttnMode := Mha | Gqa | Flash.
Inductive RopeStyle := NonInterleaved | Interleaved.

(** [[usize; 4]]. *)
Abbreviation shape := (nat * nat * nat * nat)%type.
Definition dim0 (s : shape) : nat := s.1.1.1.
Definition dim1 (s : shape) : nat := s.1.1.2.

Inductive Op :=
| Input
| Add
| Mul
| Scale (f : Z)
| Silu
| Softmax (dim : nat)
| RmsNorm (eps : Z)
| QkNorm (hd nh : nat) (eps : Z)
| MatMul (transpose_b : bool)
| GetRows
| RoPE (style : RopeStyle)
| Attn (mode : AttnMode) (explicit_span : bool)
| KvcacheStore (layer : N)
| KvcacheLoad (layer : N)
| View (offset : nat) (s : shape)
| Reshape (s : shape)
| Permute (dims : shape)
| SwiGLU
| BatchMatMul
| FusedQKV (layer : N)
| QkvBiasRopeStore (layer : N)
| FusedFFN
| FusedQkvNorm (layer : N).

Inductive NodeMeta :=
| MNone
| MMatMul
| MNorm
| MRope
| MAttn
| MKvcache (n_embd row_elems : nat)
| MEmbed
| MFusedQkv (nkt kv_elems row_elems : nat)
| MQkvBiasRopeStore (nkt kv_elems row_elems : nat)
| MFusedFfn
| MFusedQkvNorm (nkt kv_elems row_elems : nat).

Record ViewAlias := mkView { vw_src : nat; vw_offset : nat }.

Record CNode := mkNode {
  nd_id : nat;
  nd_op : Op;
  nd_src : list nat;
  nd_out_shape : shape;
  nd_backend : option N;
  nd_meta : NodeMeta;
  nd_view : option ViewAlias
}.

Definition n_elements (node : CNode) : nat :=
  let '(a, b, c, d) := nd_out_shape node in a * b * c * d.

Definition is_input (node : CNode) : bool :=
  match nd_op node with Input => true | _ => false end.

Record ComputeGraph := mkGraph {
  g_nodes : list CNode;
  g_inputs : list nat;
  g_outputs : list nat;
  g_uid : N
}.

Definition n_nodes (g : ComputeGraph) : nat := length (g_nodes g).

(** [&self.nodes[id]]; [None] is the panic. *)
Definition node (g : ComputeGraph) (id : nat) : option CNode := g_nodes g !! id.

(** ** [topo_order] *)

Inductive GraphError :=
| NodeIdRange (id : nat)
| SrcRange (id src : nat)
| Cycle (ordered n : nat).

(** One node's distinct sources counted into [indeg]. *)
Fixpoint count_srcs (n id : nat) (before srcs : list nat) (indeg : list N) :
    res GraphError (list N) :=
  match srcs with
  | [] => Ok indeg
  | s :: srcs =>
      if n <=? s then Err (SrcRange id s) else
      count_srcs n id (before ++ [s]) srcs
        (if decide (s ∈ before) then indeg else alter (λ d, (d + 1)%N) id indeg)
  end.

Fixpoint count_nodes (n : nat) (nodes : list CNode) (indeg : list N) : res GraphError (list N) :=
  match nodes with
  | [] => Ok indeg
  | nd :: nodes =>
      if n <=? nd_id nd then Err (NodeIdRange (nd_id nd)) else
      indeg ← count_srcs n (nd_id nd) [] (nd_src nd) indeg;
      count_nodes n nodes indeg
  end.

(** Node [u] is done: every node that reads it has one source less to wait
    for, and joins the queue when that was the last. *)
Fixpoint release (u v : nat) (nodes : list CNode) (indeg : list N) (queue : list nat) :
    list N * list nat :=
  match nodes with
  | [] => (indeg, queue)
  | nd :: nodes =>
      if decide (u ∈ nd_src nd) then
        let d := ((default 0 (indeg !! v) + 2 ^ 64 - 1) mod 2 ^ 64)%N in
        release u (S v) nodes (<[v := d]> indeg) (if (d =? 0)%N then queue ++ [v] else queue)
      else release u (S v) nodes indeg queue
  end.

(** The queue keeps what was taken from it: [order] is its first [qi]
    entries. *)
Fixpoint topo_loop (fuel qi : nat) (nodes : list CNode) (indeg : list N) (queue : list nat) :
    option (list nat) :=
  match queue !! qi with
  | None => Some queue
  | Some u =>
      match fuel with
      | O => None
      | S fuel =>
          let '(indeg, queue) := release u 0 nodes indeg queue in
          topo_loop fuel (S qi) nodes indeg queue
      end
  end.

Definition sources_first (indeg : list N) : list nat :=
  filter (λ i, indeg !! i = Some 0%N) (seq 0 (length indeg)).

Definition topo_order (g : ComputeGraph) : res GraphError (list nat) :=
  let n := n_nodes g in
  indeg ← count_nodes n (g_nodes g) (replicate n 0%N);
  order ← or_panic (topo_loop n 0 (g_nodes g) indeg (sources_first indeg));
  if decide (length order = n) then Ok order else Err (Cycle (length order) n).
