(* ===== verification/Allocator.v ===== *)
(** * The buffer allocator: [src/graph/allocplan.rs] and [src/graph/alloc.rs]

    First the plan: the class a request is rounded up to, its bytes, and how a
    backend's activation budget follows from an explicit one or the device's
    answer.
    Element counts are [nat]; bytes are [N], and wrap as [usize]s do. *)
From stdpp Require Import base numbers list strings gmap option.
From S2P Require Import Prelude Backend KvCache KvArena Graph.

Definition CLASS_MIN : nat := 256.
Definition CLASS_GRAIN : nat := Z.to_nat 4096.

Definition class_size (elems : nat) : nat :=
  let elems := elems `max` 1 in
  if elems <=? CLASS_MIN then CLASS_MIN
  else if elems <=? CLASS_GRAIN then 2 ^ Nat.log2_up elems
  else div_ceil elems CLASS_GRAIN * CLASS_GRAIN.

Definition wrap (n : N) : N := (n mod 2 ^ 64)%N.
Definition USIZE_MAX : N := (2 ^ 64 - 1)%N.

Definition class_bytes (elems : nat) : N := wrap (N.of_nat elems * 4).

Inductive DeviceMemory :=
| Reported (free total : N)
| QueryFailed (code : Z) (name : string)
| NoDevice.

(** Whether the query failed is what the notes are about; their text is left
    out. *)
Definition failed (mem : DeviceMemory) : bool :=
  match mem with QueryFailed _ _ => true | _ => false end.

Definition budget_decision (explicit : option N) (mem : DeviceMemory) : option N * bool :=
  match explicit with
  | Some b => (Some b, false)
  | None =>
      match mem with
      | Reported free _ => (Some (free / 4 * 3)%N, false)
      | QueryFailed _ _ => (Some USIZE_MAX, true)
      | NoDevice => (None, false)
      end
  end.

(** A class holds its request. *)
Lemma CLASS_GRAIN_eq : Z.of_nat CLASS_GRAIN = 4096%Z.
Proof. done. Qed.

Lemma div_ceil_bounds a b : 0 < b → a ≤ div_ceil a b * b < a + b.
Proof.
  intros Hb. unfold div_ceil.
  pose proof (Nat.div_mod (a + b - 1) b). pose proof (Nat.mod_upper_bound (a + b - 1) b). nia.
Qed.

Lemma class_size_ge elems : elems ≤ class_size elems.
Proof.
  pose proof CLASS_GRAIN_eq. unfold class_size.
  case_match eqn:Hm; [apply Nat.leb_le in Hm; lia|].
  apply Nat.leb_gt in Hm. assert (1 < elems `max` 1) by (unfold CLASS_MIN in *; lia).
  case_match.
  - pose proof (Nat.log2_up_spec (elems `max` 1)). lia.
  - pose proof (div_ceil_bounds (elems `max` 1) CLASS_GRAIN). lia.
Qed.

(** * The buffer allocator: [src/graph/alloc.rs]

    The whole allocator: the KV arena of [KvArena] with the regions it is made
    of, and the buffers of a graph's nodes, placed by liveness.  Every
    operation is a function from the allocator to a result and the allocator
    it leaves behind.  The build has the CPU's pool only; [device_memory] is
    the answer a device would give. *)
Inductive AllocError :=
| AlGraph (e : GraphError)
| OutOfMemory (backend : N)
| KvWidth (layer : N)
| KvUnreadable (layer : N)
| KvCellWords (layer : N) (words expected : nat)
| KvElems (layer : N) (has wanted : nat)
| KvBackend (layer : N)
| KvPackedness (layer : N)
| ViewParentMissing (id parent : nat)
| ViewBackend (id : nat)
| ViewMetal (id : nat)
| ViewWindow (id : nat)
| InPlaceSrcMissing (id : nat).

Record PersistentBuf := mkPersistent { pb_layer : N; pb_is_v : bool; pb_backend : N; pb_id : nat }.

Record OffloadPlan := mkOffload { op_gpu_layers : nat; op_n_layers : nat }.

Definition is_mixed (p : OffloadPlan) : bool :=
  (0 <? op_gpu_layers p) && (op_gpu_layers p <? op_n_layers p).

(** A buffer of a backend's pool. *)
Abbreviation buf := (N * nat)%type.

(** The node buffers' bookkeeping.  [na_slots] is keyed by backend and size
    class. *)
Record NodeAllocs := mkNodeAllocs {
  na_node_to_buf : gmap nat BufRef;
  na_buf_alive : gmap buf nat;
  na_buf_bytes : gmap buf N;
  na_buf_class : gmap buf nat;
  na_slots : gmap (N * nat) (gset nat);
  na_pool_bytes : gmap N N;
  na_live_bytes : gmap N N;
  na_peak_bytes : gmap N N;
  na_budget : gmap N N
}.

Definition set_node_to_buf (x : gmap nat BufRef) (n : NodeAllocs) : NodeAllocs :=
  mkNodeAllocs x (na_buf_alive n) (na_buf_bytes n) (na_buf_class n) (na_slots n)
    (na_pool_bytes n) (na_live_bytes n) (na_peak_bytes n) (na_budget n).
Definition set_buf_alive (x : gmap buf nat) (n : NodeAllocs) : NodeAllocs :=
  mkNodeAllocs (na_node_to_buf n) x (na_buf_bytes n) (na_buf_class n) (na_slots n)
    (na_pool_bytes n) (na_live_bytes n) (na_peak_bytes n) (na_budget n).
Definition set_buf_bytes (x : gmap buf N) (n : NodeAllocs) : NodeAllocs :=
  mkNodeAllocs (na_node_to_buf n) (na_buf_alive n) x (na_buf_class n) (na_slots n)
    (na_pool_bytes n) (na_live_bytes n) (na_peak_bytes n) (na_budget n).
Definition set_buf_class (x : gmap buf nat) (n : NodeAllocs) : NodeAllocs :=
  mkNodeAllocs (na_node_to_buf n) (na_buf_alive n) (na_buf_bytes n) x (na_slots n)
    (na_pool_bytes n) (na_live_bytes n) (na_peak_bytes n) (na_budget n).
Definition set_slots (x : gmap (N * nat) (gset nat)) (n : NodeAllocs) : NodeAllocs :=
  mkNodeAllocs (na_node_to_buf n) (na_buf_alive n) (na_buf_bytes n) (na_buf_class n) x
    (na_pool_bytes n) (na_live_bytes n) (na_peak_bytes n) (na_budget n).
Definition set_accounts (pool live peak : gmap N N) (n : NodeAllocs) : NodeAllocs :=
  mkNodeAllocs (na_node_to_buf n) (na_buf_alive n) (na_buf_bytes n) (na_buf_class n) (na_slots n)
    pool live peak (na_budget n).

Section allocator.
Context {W P : Type} `{!CellPool W P, !BufferPool W P}.
Context (device_memory : DeviceMemory).

Record GraphAllocator := mkAllocator {
  al_arena : Alloc P;
  al_format : KvFormat;
  al_offload : option OffloadPlan;
  al_persistent : list PersistentBuf;
  al_cross_pending : gset (N * nat * N);
  al_nodes : NodeAllocs
}.

Definition set_arena (x : Alloc P) (a : GraphAllocator) : GraphAllocator :=
  mkAllocator x (al_format a) (al_offload a) (al_persistent a) (al_cross_pending a) (al_nodes a).
Definition set_persistent (x : list PersistentBuf) (a : GraphAllocator) : GraphAllocator :=
  mkAllocator (al_arena a) (al_format a) (al_offload a) x (al_cross_pending a) (al_nodes a).
Definition clear_cross_pending (a : GraphAllocator) : GraphAllocator :=
  mkAllocator (al_arena a) (al_format a) (al_offload a) (al_persistent a) ∅ (al_nodes a).
Definition set_nodes (x : NodeAllocs) (a : GraphAllocator) : GraphAllocator :=
  mkAllocator (al_arena a) (al_format a) (al_offload a) (al_persistent a) (al_cross_pending a) x.

(** A new allocator, its CPU pool given. *)
Definition new_nodes : NodeAllocs := mkNodeAllocs ∅ ∅ ∅ ∅ ∅ ∅ ∅ ∅ ∅.
Definition new (cpu : P) : GraphAllocator :=
  mkAllocator (mkAlloc kv_new {[CPU := cpu]}) F32 None [] ∅ new_nodes.

(** The pool of a backend; a backend has one if it is registered. *)
Definition pool (backend : N) (a : GraphAllocator) : option P :=
  if has_entry backend then ga_pools (al_arena a) !! backend else None.
Definition set_pool (backend : N) (p : P) (a : GraphAllocator) : GraphAllocator :=
  set_arena (set_pools (<[backend := p]> (ga_pools (al_arena a))) (al_arena a)) a.

(** Operations: a result, and the allocator left behind. *)
Definition op (E A : Type) : Type := GraphAllocator → res E A * GraphAllocator.

#[export] Instance op_ret E : MRet (op E) := λ A x a, (Ok x, a).
#[export] Instance op_bind E : MBind (op E) := λ A B f m a,
  match m a with
  | (Ok x, a) => f x a
  | (Err e, a) => (Err e, a)
  | (Panic, a) => (Panic, a)
  end.

Definition raise {E A} (e : E) : op E A := λ a, (Err e, a).
Definition reads_of {E A} (f : GraphAllocator → A) : op E A := λ a, (Ok (f a), a).
Definition modify {E} (f : GraphAllocator → GraphAllocator) : op E unit := λ a, (Ok (), f a).
Definition modify_nodes {E} (f : NodeAllocs → NodeAllocs) : op E unit :=
  modify (λ a, set_nodes (f (al_nodes a)) a).
Definition must {E A} (o : option A) : op E A := λ a, (or_panic o, a).
Definition given {E A} (o : option A) (e : E) : op E A := λ a, (ok_or o e, a).
Definition lift_res {E F A} (f : E → F) (r : res E A) : op F A := λ a, (map_err f r, a).
Definition lift_op {E F A} (f : E → F) (m : op E A) : op F A := λ a,
  let '(r, a) := m a in (map_err f r, a).

(** [for x in xs], the loop's own variables in [s]. *)
Fixpoint loop {E A S} (f : A → S → op E S) (l : list A) (s : S) : op E S :=
  match l with
  | [] => mret s
  | x :: l => s ← f x s; loop f l s
  end.

(** ** Buffers of the pools *)

Definition alloc_exact_in_pool (backend : N) (size : nat) : op AllocError nat := λ a,
  match p ← pool backend a; alloc_buffer size p with
  | Some (id, p) => (Ok id, set_pool backend p a)
  | None => (Panic, a)
  end.

Definition pool_len_of (backend : N) (a : GraphAllocator) : nat :=
  match pool backend a with Some p => pool_len p | None => 0 end.

Definition weights_bytes_of (backend : N) (a : GraphAllocator) : N :=
  match pool backend a with Some p => weights_bytes p | None => 0%N end.

(** [BTreeSet::pop_first]. *)
Definition pop_first (ids : gset nat) : option (nat * gset nat) :=
  id ← list_min (elements ids); Some (id, ids ∖ {[id]}).

Definition take_slot (backend : N) (class : nat) (n : NodeAllocs) : option (nat * NodeAllocs) :=
  idle ← na_slots n !! (backend, class);
  '(id, idle) ← pop_first idle;
  Some (id, set_slots (<[(backend, class) := idle]> (na_slots n)) n).

Definition alloc_class_in_pool (backend : N) (size : nat) : op AllocError nat := λ a,
  match take_slot backend (class_size size) (al_nodes a) with
  | Some (id, n) => (Ok id, set_nodes n a)
  | None => alloc_exact_in_pool backend (class_size size) a
  end.

Definition memory_budget (backend : N) (a : GraphAllocator) : option N :=
  (budget_decision (na_budget (al_nodes a) !! backend)
     (if (backend =? CPU)%N then NoDevice else device_memory)).1.

Definition counter (m : gmap N N) (backend : N) : N := default 0%N (m !! backend).

(** Whether the budget refuses [want] more bytes. *)
Definition over_budget (backend : N) (want : N) (a : GraphAllocator) : bool :=
  match memory_budget backend a with
  | Some budget =>
      (budget <? wrap (wrap (counter (na_pool_bytes (al_nodes a)) backend
                             + weights_bytes_of backend a) + want))%N
  | None => false
  end.

(** The accounts of one allocation; [grew] when the pool did. *)
Definition charge (backend : N) (id : nat) (want : N) (class : nat) (grew : bool)
    (n : NodeAllocs) : NodeAllocs :=
  let n := set_buf_bytes (<[(backend, id) := want]> (na_buf_bytes n)) n in
  let n := set_buf_class (<[(backend, id) := class]> (na_buf_class n)) n in
  let pool := if grew
              then <[backend := wrap (counter (na_pool_bytes n) backend + want)]> (na_pool_bytes n)
              else na_pool_bytes n in
  let live := wrap (counter (na_live_bytes n) backend + want) in
  set_accounts pool (<[backend := live]> (na_live_bytes n))
    (<[backend := N.max (counter (na_peak_bytes n) backend) live]> (na_peak_bytes n)) n.

Definition alloc_in_pool (backend : N) (size : nat) : op AllocError nat :=
  let want := class_bytes (class_size size) in
  over ← reads_of (over_budget backend want);
  if (over : bool) then raise (OutOfMemory backend) else
  before ← reads_of (pool_len_of backend);
  id ← alloc_class_in_pool backend size;
  after ← reads_of (pool_len_of backend);
  _ ← modify_nodes (charge backend id want (class_size size) (before <? after));
  mret id.

Definition free_in_pool (key : buf) (a : GraphAllocator) : GraphAllocator :=
  let '(backend, id) := key in
  let n := al_nodes a in
  let n := match na_buf_bytes n !! key with
           | Some bytes =>
               set_accounts (na_pool_bytes n)
                 (<[backend := (counter (na_live_bytes n) backend - bytes)%N]> (na_live_bytes n))
                 (na_peak_bytes n) (set_buf_bytes (delete key (na_buf_bytes n)) n)
           | None => n
           end in
  match na_buf_class n !! key with
  | Some class =>
      let n := set_buf_class (delete key (na_buf_class n)) n in
      let idle := default ∅ (na_slots n !! (backend, class)) in
      set_nodes (set_slots (<[(backend, class) := {[id]} ∪ idle]> (na_slots n)) n) a
  | None =>
      let a := set_nodes n a in
      match pool backend a with
      | Some p => set_pool backend (free_buffer id p) a
      | None => a
      end
  end.

Definition free_all (keys : list buf) (a : GraphAllocator) : GraphAllocator :=
  foldl (λ a key, free_in_pool key a) a keys.

(** The keys of the buffers whose life ended before step [i]. *)
Definition expired (i : nat) (n : NodeAllocs) : list buf :=
  map fst (filter (λ p, p.2 < i) (map_to_list (na_buf_alive n))).

Definition forget_alive (keys : list buf) (n : NodeAllocs) : NodeAllocs :=
  set_buf_alive (foldl (λ m key, delete key m) (na_buf_alive n) keys) n.

Definition sweep (i : nat) (a : GraphAllocator) : GraphAllocator :=
  let keys := expired i (al_nodes a) in
  free_all keys (set_nodes (forget_alive keys (al_nodes a)) a).

(** ** The KV regions *)

Definition own_ref (backend : N) (id len : nat) : BufRef := mkBufRef backend id 0 len.
Definition window (r : BufRef) (offset len : nat) : BufRef :=
  mkBufRef (br_backend r) (br_id r) (br_offset r + offset) len.

(** The region's name is its layer and which half it is. *)
Definition alloc_persistent (layer : N) (is_v : bool) (backend : N) (size : nat) : op AllocError BufRef :=
  id ← alloc_exact_in_pool backend size;
  _ ← modify (λ a, set_persistent (al_persistent a ++ [mkPersistent layer is_v backend id]) a);
  mret (own_ref backend id size).

Definition check_packed (layer backend : N) (n_embd words : nat) : option AllocError :=
  if negb (check_width Q8_0 n_embd) then Some (KvWidth layer) else
  if negb (reads_packed_kv backend) then Some (KvUnreadable layer) else
  if negb (words =? row_elems Q8_0 n_embd)
  then Some (KvCellWords layer words (row_elems Q8_0 n_embd)) else None.

Definition ensure_kv (layer backend : N) (n_embd words n_ctx : nat) : op AllocError (BufRef * BufRef) :=
  let packed := negb (words =? n_embd) in
  match (if packed then check_packed layer backend n_embd words else None) with
  | Some e => raise e
  | None =>
      let elems := words * n_ctx in
      region ← reads_of (λ a, kv_layers (ga_kv (al_arena a)) !! layer);
      match region with
      | Some r =>
          if negb (lay_elems r =? elems) then raise (KvElems layer (lay_elems r) elems) else
          if negb (br_backend (lay_k r) =? backend)%N then raise (KvBackend layer) else
          if negb (eqb (lay_packed r) packed) then raise (KvPackedness layer) else
          mret (lay_k r, lay_v r)
      | None =>
          k ← alloc_persistent layer false backend elems;
          v ← alloc_persistent layer true backend elems;
          _ ← modify (λ a, set_arena (set_kv (insert_layer layer k v n_embd words n_ctx packed
                                        (ga_kv (al_arena a))) (al_arena a)) a);
          mret (k, v)
      end
  end.

(** ** Placing a graph's nodes *)

(** [v[i] = x]; [None] is the panic. *)
Definition set_at (l : list nat) (i x : nat) : option (list nat) :=
  if i <? length l then Some (<[i := x]> l) else None.

(** The last step that reads each node's buffer. *)
Definition raise_to (i : nat) (l : list nat) (s : nat) : option (list nat) :=
  u ← l !! s; Some (if u <? i then <[s := i]> l else l).

Fixpoint fold_opt {A S} (f : S → A → option S) (s : S) (l : list A) : option S :=
  match l with
  | [] => Some s
  | x :: l => match f s x with Some s => fold_opt f s l | None => None end
  end.

Definition last_uses (g : ComputeGraph) : option (list nat) :=
  let n := n_nodes g in
  let exec := seq 0 n in
  l ← fold_opt (λ l p, fold_opt (raise_to p.1) l (nd_src p.2)) exec (imap pair (g_nodes g));
  l ← fold_opt (λ l o, set_at l o n) l (g_outputs g);
  fold_opt (λ l i, set_at l i n) l (g_inputs g).

(** Source entries, counted. *)
Definition consumers (g : ComputeGraph) : option (list nat) :=
  fold_opt (λ l nd, fold_opt (λ l s, c ← l !! s; Some (<[s := c + 1]> l)) l (nd_src nd))
    (replicate (n_nodes g) 0) (g_nodes g).

(** [extend_through_views]: every round raises one entry below [to]. *)
Fixpoint extend_through_views (fuel : nat) (g : ComputeGraph) (last_use : list nat)
    (cur to : nat) : option (list nat * list nat) :=
  match fuel with
  | O => None
  | S fuel =>
      u ← last_use !! cur;
      if to <=? u then Some (last_use, []) else
      let last_use := <[cur := to]> last_use in
      nd ← node g cur;
      match nd_view nd with
      | None => Some (last_use, [cur])
      | Some v =>
          '(last_use, grown) ← extend_through_views fuel g last_use (vw_src v) to;
          Some (last_use, cur :: grown)
      end
  end.

Definition extend_one (to : nat) (n : NodeAllocs) (id : nat) : NodeAllocs :=
  match na_node_to_buf n !! id with
  | Some br =>
      set_buf_alive (alter (λ al, al `max` to) (br_backend br, br_id br) (na_buf_alive n)) n
  | None => n
  end.
Definition extend_buffer_alive (grown : list nat) (to : nat) (n : NodeAllocs) : NodeAllocs :=
  foldl (extend_one to) n grown.

Definition map_node (id : nat) (r : BufRef) (n : NodeAllocs) : NodeAllocs :=
  set_node_to_buf (<[id := r]> (na_node_to_buf n)) n.

(** A buffer of its own for node [id], alive until [until]. *)
Definition own_buffer (id : nat) (backend : N) (size until : nat) : op AllocError unit :=
  pid ← alloc_in_pool backend size;
  modify_nodes (λ n, map_node id (own_ref backend pid size)
    (set_buf_alive (<[(backend, pid) := until]> (na_buf_alive n)) n)).

(** The life of [from] and of what it is a view of goes on to step [to]. *)
Definition extend (g : ComputeGraph) (last_use : list nat) (from to : nat) : op AllocError (list nat) :=
  '(last_use, grown) ← must (extend_through_views (S (length last_use)) g last_use from to);
  _ ← modify_nodes (extend_buffer_alive grown to);
  mret last_use.

Definition node_backend (nd : CNode) : N := default CPU (nd_backend nd).

Definition place_input (last_use : list nat) (nd : CNode) : op AllocError unit :=
  if negb (is_input nd) then mret () else
  pid ← alloc_in_pool (node_backend nd) (n_elements nd);
  until ← must (last_use !! nd_id nd);
  modify_nodes (λ n, map_node (nd_id nd) (own_ref (node_backend nd) pid (n_elements nd))
    (set_buf_alive (<[(node_backend nd, pid) := until]> (na_buf_alive n)) n)).

Definition place_view (g : ComputeGraph) (id : nat) (nd : CNode) (v : ViewAlias)
    (last_use : list nat) : op AllocError (list nat) :=
  mapped ← reads_of (λ a, na_node_to_buf (al_nodes a) !! vw_src v);
  parent ← given mapped (ViewParentMissing id (vw_src v));
  if negb (br_backend parent =? node_backend nd)%N then raise (ViewBackend id) else
  pn ← must (node g (vw_src v));
  let parent_elems := n_elements pn in
  let w := n_elements nd in
  if (br_backend parent =? METAL)%N && (negb (vw_offset v =? 0) || negb (w =? parent_elems))
  then raise (ViewMetal id) else
  if parent_elems <? vw_offset v + w then raise (ViewWindow id) else
  lu ← must (last_use !! id);
  _ ← modify_nodes (map_node id (window parent (vw_offset v) w));
  extend g last_use (vw_src v) lu.

(** A node whose output is read later gets a buffer. *)
Definition place_own (i : nat) (nd : CNode) (last_use : list nat) : op AllocError unit :=
  lu ← must (last_use !! i);
  if i <? lu then own_buffer i (node_backend nd) (n_elements nd) lu else mret ().

(** [(n_embd, row_elems, n_ctx)] of a fused node. *)
Definition fused_kv (nd : CNode) (m : option (nat * nat * nat)) : nat * nat * nat :=
  match m with
  | Some (nkt, kv_elems, row) => (nkt, row, kv_elems / (nkt `max` 1))
  | None => (dim0 (nd_out_shape nd), dim0 (nd_out_shape nd), dim1 (nd_out_shape nd))
  end.

Definition ensure_fused (layer : N) (nd : CNode) (m : option (nat * nat * nat)) : op AllocError unit :=
  let '(n_embd, row, n_ctx) := fused_kv nd m in
  _ ← ensure_kv layer (node_backend nd) n_embd row n_ctx; mret ().

Definition in_place_ok (g : ComputeGraph) (nd : CNode) (src0 : nat) : option bool :=
  match nd_op nd with
  | SwiGLU => s ← node g src0; Some (bool_decide (is_Some (nd_view s)))
  | _ => Some true
  end.

Definition place_in_place (g : ComputeGraph) (n_consumers : list nat) (i : nat) (nd : CNode)
    (last_use : list nat) : op AllocError (list nat) :=
  lu ← must (last_use !! i);
  if lu <=? i then mret last_use else
  src0 ← must (nd_src nd !! 0);
  mapped ← reads_of (λ a, na_node_to_buf (al_nodes a) !! src0);
  in_ref ← given mapped (InPlaceSrcMissing i);
  ok ← must (in_place_ok g nd src0);
  uses ← must (n_consumers !! src0);
  if ok && (br_backend in_ref =? node_backend nd)%N && (uses =? 1) then
    _ ← modify_nodes (map_node i in_ref);
    extend g last_use src0 lu
  else
    _ ← own_buffer i (node_backend nd) (n_elements nd) lu;
    mret last_use.

Definition place_node (g : ComputeGraph) (n_consumers : list nat) (p : nat * CNode)
    (last_use : list nat) : op AllocError (list nat) :=
  let '(i, nd) := p in
  _ ← modify (sweep i);
  if is_input nd then mret last_use else
  match nd_view nd with
  | Some v => place_view g i nd v last_use
  | None =>
      match nd_op nd with
      | KvcacheStore layer | KvcacheLoad layer =>
          let '(n_embd, row) :=
            match nd_meta nd with
            | MKvcache n_embd row => (n_embd, row)
            | _ => (dim0 (nd_out_shape nd), dim0 (nd_out_shape nd))
            end in
          pair ← ensure_kv layer (node_backend nd) n_embd row (dim1 (nd_out_shape nd));
          _ ← modify_nodes (map_node i pair.1);
          mret last_use
      | FusedQKV layer =>
          _ ← ensure_fused layer nd
                (match nd_meta nd with MFusedQkv n e r => Some (n, e, r) | _ => None end);
          _ ← place_own i nd last_use; mret last_use
      | FusedQkvNorm layer =>
          _ ← ensure_fused layer nd
                (match nd_meta nd with MFusedQkvNorm n e r => Some (n, e, r) | _ => None end);
          _ ← place_own i nd last_use; mret last_use
      | QkvBiasRopeStore layer =>
          _ ← ensure_fused layer nd
                (match nd_meta nd with MQkvBiasRopeStore n e r => Some (n, e, r) | _ => None end);
          place_in_place g n_consumers i nd last_use
      | Silu | RoPE _ | SwiGLU => place_in_place g n_consumers i nd last_use
      | _ => _ ← place_own i nd last_use; mret last_use
      end
  end.

(** What the previous graph held is freed. *)
Definition forget_graph (a : GraphAllocator) : GraphAllocator :=
  let a := free_all (map fst (map_to_list (na_buf_alive (al_nodes a)))) a in
  clear_cross_pending
    (set_nodes (set_node_to_buf ∅ (set_buf_alive ∅ (al_nodes a))) a).

Definition alloc_graph (g : ComputeGraph) : op AllocError unit :=
  _ ← modify forget_graph;
  _ ← lift_res AlGraph (topo_order g);
  last_use ← must (last_uses g);
  n_consumers ← must (consumers g);
  _ ← loop (λ nd _, place_input last_use nd) (g_nodes g) ();
  _ ← loop (place_node g n_consumers) (imap pair (g_nodes g)) last_use;
  mret ().

Definition node_buffer (a : GraphAllocator) (id : nat) : option BufRef :=
  na_node_to_buf (al_nodes a) !! id.
End allocator.
Arguments GraphAllocator P : clear implicits.
Arguments mkAllocator {P}.
