(* ===== verification/AllocFacts.v ===== *)
(** * Who owns a pooled buffer

    [pools_ok] is the invariant of the allocator between its operations: a
    buffer of the pool is live with a class, or idle in the reservation table
    under its class, or a KV region, and never two of them.  One lemma per
    operation says what it does to the buffers; [alloc_in_pool] hands out one
    that nobody holds. *)
From stdpp Require Import base numbers list gmap option strings.
From S2P Require Import Prelude KvCache KvArena Backend Graph Allocator.

Definition key (r : BufRef) : buf := (br_backend r, br_id r).

Section facts.
Context {W P : Type} `{!CellPool W P, !BufferPool W P, !BufferPoolLaws W P}.
Context (device_memory : DeviceMemory).
Implicit Types (a : GraphAllocator P).

Abbreviation mapped a := (na_node_to_buf (al_nodes a)).
Abbreviation alive a := (na_buf_alive (al_nodes a)).
Abbreviation classes a := (na_buf_class (al_nodes a)).
Abbreviation slots a := (na_slots (al_nodes a)).
Abbreviation layers a := (kv_layers (ga_kv (al_arena a))).

(** A buffer of a layer's K or V region. *)
Definition region a (k : buf) : Prop :=
  ∃ id l, layers a !! id = Some l ∧ (k = key (lay_k l) ∨ k = key (lay_v l)).

(** A buffer waiting in the reservation table under class [c]. *)
Definition idle a (k : buf) (c : nat) : Prop :=
  ∃ ids, slots a !! (k.1, c) = Some ids ∧ k.2 ∈ ids.

Definition held_by (p : P) (k : buf) : Prop := k.1 = CPU ∧ held p k.2.

(** Of [c] elements. *)
Definition sized (p : P) (k : buf) (c : nat) : Prop :=
  ∃ b, pool_buf p k.2 = Some b ∧ length b = c.

(** A buffer that may hold a node of class [c]. *)
Definition usable a (k : buf) (c : nat) : Prop :=
  (∀ p, pool CPU a = Some p → held_by p k ∧ sized p k c) ∧ ¬ region a k.

(** The window of [r] lies in its buffer. *)
Definition fits a (r : BufRef) : Prop := ∀ p, pool CPU a = Some p →
  ∃ b, pool_buf p (br_id r) = Some b ∧ br_offset r + br_len r ≤ length b.

Record pools_ok a : Prop := {
  po_pool : ∃ p, pool CPU a = Some p ∧ pool_ok p;
  po_class : ∀ k c, classes a !! k = Some c → usable a k c;
  po_idle : ∀ k c, idle a k c → usable a k c;
  po_region : ∀ p k, pool CPU a = Some p → region a k → held_by p k;
  po_layers : ∀ i j l l', layers a !! i = Some l → layers a !! j = Some l' →
    key (lay_k l) = key (lay_k l') → i = j;
  po_fits : ∀ i l, layers a !! i = Some l → fits a (lay_k l);
  po_alive : ∀ k, is_Some (alive a !! k) → is_Some (classes a !! k);
  po_class_idle : ∀ k c, is_Some (classes a !! k) → ¬ idle a k c
}.

Lemma usable_one a k c c' : pools_ok a → usable a k c → usable a k c' → c = c'.
Proof.
  intros Hok [H _] [H' _]. destruct (po_pool _ Hok) as (p & Hp & _).
  destruct (H p Hp) as [_ (b & Hb & <-)]. destruct (H' p Hp) as [_ (b' & Hb' & <-)]. congruence.
Qed.

(** Only the tables changed: what they name now was usable before. *)
Lemma retabled a a' : pools_ok a → al_arena a' = al_arena a →
  (∀ k c, classes a' !! k = Some c → usable a k c) → (∀ k c, idle a' k c → usable a k c) →
  (∀ k, is_Some (alive a' !! k) → is_Some (classes a' !! k)) →
  (∀ k c, is_Some (classes a' !! k) → ¬ idle a' k c) → pools_ok a'.
Proof.
  intros Hok Ha Hc Hi ? ?. unfold usable, region, pool in *.
  split; unfold fits, usable, region, pool; rewrite ?Ha; auto; apply Hok.
Qed.

Lemma pool_cpu backend a p : pool backend a = Some p → backend = CPU.
Proof. unfold pool, has_entry. case_match eqn:H; [|done]. by apply N.eqb_eq in H. Qed.

Lemma pool_set_cpu p a : pool CPU (set_pool CPU p a) = Some p.
Proof. unfold pool, set_pool. simpl. by rewrite lookup_insert_eq. Qed.

(** The buffers of [a] are those of [a'] too, with their words. *)
Definition keeps a a' : Prop := ∀ p, pool CPU a = Some p →
  ∃ p', pool CPU a' = Some p' ∧ ∀ j, held p j → held p' j ∧ pool_buf p' j = pool_buf p j.

#[export] Instance keeps_preorder : PreOrder keeps.
Proof.
  split; [intros a p Hp; eauto|].
  intros a b c Hab Hbc p Hp. destruct (Hab p Hp) as (q & Hq & Hpq).
  destruct (Hbc q Hq) as (r & Hr & Hqr). exists r. split; [done|]. intros j Hj.
  destruct (Hpq j Hj) as [Hj' <-]. by apply Hqr.
Qed.

Lemma keeps_fits a a' (r : BufRef) : keeps a a' → (∃ p, pool CPU a = Some p) →
  (∀ p, pool CPU a = Some p → held p (br_id r)) → fits a r → fits a' r.
Proof.
  intros Hk [p Hp] Hh Hf q Hq. destruct (Hk p Hp) as (q' & Hq' & Hkeep).
  rewrite Hq in Hq'. injection Hq' as <-. destruct (Hf p Hp) as (b & Hb & Hle).
  exists b. split; [|done]. by rewrite (proj2 (Hkeep _ (Hh p Hp))).
Qed.

Lemma region_fits a a' i l : pools_ok a → keeps a a' → layers a !! i = Some l → fits a' (lay_k l).
Proof.
  intros Hok Hk Hi. destruct (po_pool _ Hok) as (p & Hp & _). apply (keeps_fits a); [done|eauto| |].
  - intros q Hq. apply (po_region _ Hok q (key (lay_k l)) Hq). exists i, l. auto.
  - by eapply po_fits.
Qed.

(** Steps that leave the pools and the KV store alone. *)
Lemma keeps_arena a a' : al_arena a' = al_arena a → keeps a a'.
Proof. intros H p Hp. exists p. unfold pool in *. rewrite H. eauto. Qed.

(** ** A new buffer from the pool *)

(** The pool of [a'] is that of [a] with one more buffer held, [id]. *)
Record grown_by a a' (id size : nat) : Prop := {
  gb_pool : ∃ p p', pool CPU a = Some p ∧ pool CPU a' = Some p' ∧ pool_ok p' ∧
    ¬ held p id ∧ (∀ j, held p' j ↔ j = id ∨ held p j) ∧
    (∀ j, j ≠ id → pool_buf p' j = pool_buf p j) ∧ sized p' (CPU, id) size;
  gb_nodes : al_nodes a' = al_nodes a;
  gb_layers : layers a' = layers a
}.

Lemma alloc_exact_grows size a : pools_ok a →
  ∃ id a', alloc_exact_in_pool CPU size a = (Ok id, a') ∧ grown_by a a' id size ∧
    ga_kv (al_arena a') = ga_kv (al_arena a).
Proof.
  intros Hok. destruct (po_pool _ Hok) as (p & Hp & Hpk). unfold alloc_exact_in_pool. rewrite Hp.
  simpl. destruct (alloc_buffer_spec p size Hpk) as (id & p' & -> & Hpk' & Hn & Hh & Hb & Ho & _).
  do 2 eexists. split; [done|]. split; [|done]. split; [|done|done].
  exists p, p'. rewrite pool_set_cpu. split_and!; try done. eexists. split; [done|].
  apply length_replicate.
Qed.

Lemma grown_region a a' id size k : grown_by a a' id size → region a' k ↔ region a k.
Proof. intros [_ _ Hl]. unfold region. by rewrite Hl. Qed.

Lemma grown_idle a a' id size k c : grown_by a a' id size → idle a' k c ↔ idle a k c.
Proof. intros [_ Hn _]. unfold idle. by rewrite Hn. Qed.

(** The new buffer is in no table yet. *)
Lemma grown_new a a' id size : pools_ok a → grown_by a a' id size →
  classes a !! (CPU, id) = None ∧ (∀ c, ¬ idle a (CPU, id) c) ∧ ¬ region a (CPU, id).
Proof.
  intros Hok [(p & p' & Hp & _ & _ & Hn & _) _ _].
  assert (∀ c, ¬ usable a (CPU, id) c) as Hu by (intros c [Hu _]; by destruct (Hu p Hp) as [[_ H] _]).
  split_and!.
  - destruct (classes a !! (CPU, id)) eqn:Hc; [|done]. by apply (po_class _ Hok), Hu in Hc.
  - intros c Hc. by apply (po_idle _ Hok), Hu in Hc.
  - intros Hc. by apply (po_region _ Hok p) in Hc as [_ Hh].
Qed.

Lemma grown_usable a a' id size k c : grown_by a a' id size →
  usable a k c → usable a' k c.
Proof.
  intros Hg [Hu Hr]. pose proof Hg as [(p & p' & Hp & Hp' & _ & Hn & Hh & Ho & _) _ _].
  split; [|by rewrite grown_region]. intros q Hq. rewrite Hp' in Hq. injection Hq as <-.
  destruct (Hu p Hp) as [[Hb Hk] (b & Hb' & Hlen)]. split; [split; [done|]; apply Hh; by right|].
  exists b. rewrite Ho; [done|congruence].
Qed.

Lemma grown_keeps a a' id size : grown_by a a' id size → keeps a a'.
Proof.
  intros [(p & p' & Hp & Hp' & _ & Hn & Hh & Ho & _) _ _] q Hq.
  rewrite Hp in Hq. injection Hq as <-. exists p'. split; [done|]. intros j Hj.
  split; [apply Hh; by right|]. apply Ho. by intros ->.
Qed.

Lemma grown_ok a a' id size : pools_ok a → grown_by a a' id size → pools_ok a'.
Proof.
  intros Hok Hg. pose proof Hg as [(p & p' & Hp & Hp' & Hpk & _ & Hh & _) Hnd Hl].
  split; rewrite ?Hnd, ?Hl; try apply Hok; [by exists p'|..].
  - intros k c Hc. by eapply grown_usable, Hok.
  - intros k c Hc. rewrite (grown_idle _ _ _ _ k c Hg) in Hc.
    by eapply grown_usable, po_idle.
  - intros q k Hq Hc. rewrite (grown_region _ _ _ _ k Hg) in Hc. rewrite Hp' in Hq. injection Hq as <-.
    apply (po_region _ Hok p) in Hc as [? ?]; [|done]. split; [done|]. apply Hh. by right.
  - intros i l Hi. eapply region_fits; [done|by eapply grown_keeps|done].
  - intros k c Hk Hc. rewrite (grown_idle _ _ _ _ k c Hg) in Hc. by eapply po_class_idle.
Qed.

Lemma grown_new_usable a a' id size : pools_ok a → grown_by a a' id size →
  usable a' (CPU, id) size.
Proof.
  intros Hok Hg. pose proof (grown_new _ _ _ _ Hok Hg) as (_ & _ & Hr).
  pose proof Hg as [(p & p' & Hp & Hp' & Hpk & _ & Hh & _ & Hs) _ _].
  split; [|by rewrite grown_region]. intros q Hq. rewrite Hp' in Hq. injection Hq as <-.
  split; [|done]. split; [done|]. apply Hh. by left.
Qed.


(** ** A buffer for a node *)

(** What placing a buffer of a node's own does: [id] was nobody's, and has
    class [c] now; nothing else changed hands. *)
Record handed a a' (id c : nat) : Prop := {
  hd_ok : pools_ok a';
  hd_new : classes a !! (CPU, id) = None ∧ ¬ region a (CPU, id);
  hd_class : classes a' !! (CPU, id) = Some c;
  hd_mapped : mapped a' = mapped a;
  hd_alive : alive a' = alive a;
  hd_kv : ga_kv (al_arena a') = ga_kv (al_arena a);
  hd_keeps : keeps a a'
}.

Lemma list_min_elem l m : list_min l = Some m → m ∈ l.
Proof.
  destruct l as [|x l]; [done|]. intros [= <-]. revert x.
  induction l as [|y l IH]; intros x; simpl; [by left|].
  destruct (Nat.min_spec x y) as [[_ ->]|[_ ->]].
  - destruct (proj1 (elem_of_cons _ _ _) (IH x)) as [->|]; [by left|by right; right].
  - right. apply IH.
Qed.

Lemma pop_first_elem ids id rest : pop_first ids = Some (id, rest) →
  id ∈ ids ∧ rest = ids ∖ {[id]}.
Proof.
  unfold pop_first. destruct (list_min (elements ids)) as [m|] eqn:Hm; [|done]. simpl.
  intros [= <- <-]. split; [|done]. apply elem_of_elements. by apply list_min_elem.
Qed.

(** Buffer [id] is in use with class [c] and in no other table. *)
Lemma in_use_ok a n id c : pools_ok a → usable a (CPU, id) c →
  na_buf_class n = <[(CPU, id) := c]> (classes a) → na_buf_alive n = alive a →
  (∀ k c', idle (set_nodes n a) k c' → idle a k c' ∧ k ≠ (CPU, id)) →
  pools_ok (set_nodes n a).
Proof.
  intros Hok Hu Hc Ha Hi. apply (retabled a); simpl; rewrite ?Hc, ?Ha; try done.
  - intros k c' [[<- <-]|[_ H]]%lookup_insert_Some; [done|]. by apply po_class.
  - intros k c' [H _]%Hi. by apply po_idle.
  - intros k H. destruct (decide (k = (CPU, id))) as [-> |]; [by rewrite lookup_insert_eq|].
    rewrite lookup_insert_ne by done. by apply po_alive.
  - intros k c' H [H' Hne]%Hi. rewrite lookup_insert_ne in H by done. by eapply po_class_idle.
Qed.

(** An idle buffer of the class is given out again. *)
Lemma take_slot_handed a c id n want : pools_ok a → take_slot CPU c (al_nodes a) = Some (id, n) →
  handed a (set_nodes (charge CPU id want c false n) a) id c.
Proof.
  intros Hok. unfold take_slot. destruct (slots a !! (CPU, c)) as [ids|] eqn:Hs; [|done]. simpl.
  destruct (pop_first ids) as [[x rest]|] eqn:Hp; [|done]. apply pop_first_elem in Hp as [Hx ->].
  intros [= -> <-]. assert (idle a (CPU, id) c) as Hi by (by exists ids).
  assert (usable a (CPU, id) c) as Hu by by apply po_idle.
  split; simpl; try done.
  - apply (in_use_ok a _ id c); try done. intros k c' (ids' & Hids & Hk). simpl in Hids.
    apply lookup_insert_Some in Hids as [[Hk1 <-]|[Hk1 Hids]].
    + injection Hk1 as Hk1 <-. split; [exists ids; rewrite <-Hk1; set_solver|].
      intros ->. set_solver.
    + split; [by exists ids'|]. intros ->. apply Hk1. f_equal. eapply usable_one; [done..|].
      apply po_idle; [done|]. by exists ids'.
  - split; [|apply Hu]. destruct (classes a !! (CPU, id)) eqn:Hc; [|done].
    edestruct (po_class_idle a Hok); [by rewrite Hc|done].
  - apply lookup_insert_eq.
  - by apply keeps_arena.
Qed.

Lemma grown_handed a a' id c want grew : pools_ok a → grown_by a a' id c →
  ga_kv (al_arena a') = ga_kv (al_arena a) →
  handed a (set_nodes (charge CPU id want c grew (al_nodes a')) a') id c.
Proof.
  intros Hok Hg Hkv. pose proof (grown_new _ _ _ _ Hok Hg) as (Hc & Hi & Hr).
  pose proof (grown_new_usable _ _ _ _ Hok Hg) as Hu. pose proof (gb_nodes _ _ _ _ Hg) as Hn.
  split; simpl; rewrite ?Hn; try done.
  - rewrite <-Hn. apply (in_use_ok a' _ id c); try done; [by eapply grown_ok|].
    intros k c' Hk. split; [done|]. intros ->. apply (Hi c').
    by rewrite <-(grown_idle _ _ _ _ _ _ Hg).
  - apply lookup_insert_eq.
  - etrans; [by eapply grown_keeps|]. by apply keeps_arena.
Qed.

(** What [alloc_in_pool] hands out was nobody's; a refusal changes nothing. *)
Lemma alloc_in_pool_handed a size : pools_ok a →
  match alloc_in_pool device_memory CPU size a with
  | (Ok id, a') => handed a a' id (class_size size)
  | (Err _, a') => a' = a
  | (Panic, _) => False
  end.
Proof.
  intros Hok. unfold alloc_in_pool, reads_of, modify_nodes, modify, raise. simpl.
  unfold mbind, op_bind. destruct (over_budget _ _ _ _); [done|]. unfold alloc_class_in_pool.
  destruct (take_slot CPU (class_size size) (al_nodes a)) as [[id n]|] eqn:Ht; simpl.
  - change (pool_len_of CPU (set_nodes n a)) with (pool_len_of CPU a). rewrite Nat.ltb_irrefl.
    exact (take_slot_handed a _ id n _ Hok Ht).
  - destruct (alloc_exact_grows (class_size size) a Hok) as (id & a' & -> & Hg & Hkv).
    by apply grown_handed.
Qed.

(** ** Freeing *)

(** Only the allocator's tables change. *)
Record only_tables a a' : Prop := {
  ot_ok : pools_ok a';
  ot_alive : alive a' = alive a;
  ot_mapped : mapped a' = mapped a;
  ot_arena : al_arena a' = al_arena a
}.

Lemma free_in_pool_freed a k : pools_ok a → is_Some (classes a !! k) → alive a !! k = None →
  only_tables a (free_in_pool k a) ∧ classes (free_in_pool k a) = delete k (classes a).
Proof.
  intros Hok [c Hc] Hal. destruct k as [backend id]. pose proof (po_class _ Hok _ _ Hc) as Hu.
  assert (backend = CPU) as ->.
  { destruct (po_pool _ Hok) as (p & Hp & _). by destruct (proj1 Hu p Hp) as [[H _] _]. }
  unfold free_in_pool.
  set (n := match na_buf_bytes _ !! _ with Some _ => _ | None => _ end).
  assert (na_buf_class n = classes a ∧ na_buf_alive n = alive a ∧ na_node_to_buf n = mapped a
    ∧ na_slots n = slots a) as (Hnc & Hna & Hnm & Hns) by (unfold n; by case_match).
  rewrite Hnc, Hc. split; [|done]. split; simpl; rewrite ?Hna; try done.
  assert (∀ k c', idle (set_nodes (set_slots (<[(CPU, c):={[id]} ∪ default ∅ (slots a !! (CPU, c))]>
    (slots a)) n) a) k c' → idle a k c' ∨ k = (CPU, id) ∧ c' = c) as Hi.
  { intros k c' (ids & Hids & Hk). simpl in Hids.
    apply lookup_insert_Some in Hids as [[Hk1 <-]|[Hk1 Hids]]; [|left; by exists ids].
    injection Hk1 as Hk1 <-. apply elem_of_union in Hk as [Hk%elem_of_singleton|Hk].
    - right. split; [|done]. destruct k; simplify_eq/=. done.
    - left. destruct (slots a !! (CPU, c)) as [ids|] eqn:Hids; [|set_solver].
      exists ids. by rewrite <-Hk1. }
  rewrite Hns. apply (retabled a); simpl; rewrite ?Hnc, ?Hna; try done.
  - intros k c' [_ H]%lookup_delete_Some. by apply po_class.
  - intros k c' [H|[-> ->]]%Hi; [by apply po_idle|done].
  - intros k H. destruct (decide (k = (CPU, id))) as [-> |Hk]; [by rewrite Hal in H; destruct H|].
    rewrite lookup_delete_ne by done. by apply po_alive.
  - intros k c' [x Hx] H. apply lookup_delete_Some in Hx as [Hne Hx].
    destruct (Hi _ _ H) as [H'|[-> _]]; [|done]. by eapply po_class_idle.
Qed.

Lemma free_all_freed ks a : pools_ok a → NoDup ks →
  (∀ k, k ∈ ks → is_Some (classes a !! k) ∧ alive a !! k = None) →
  only_tables a (free_all ks a).
Proof.
  revert a. induction ks as [|k ks IH]; intros a Hok Hnd Hks; [by split|].
  apply list.NoDup_cons in Hnd as [Hk Hnd]. destruct (Hks k) as [Hc Hal]; [by left|].
  destruct (free_in_pool_freed a k) as [[Hok' Ha Hm Hr] Hcl]; [done..|].
  destruct (IH (free_in_pool k a)) as [? Ha' Hm' Hr']; [done..| |].
  - intros k' Hk'. destruct (Hks k') as [? ?]; [by right|]. rewrite Hcl, Ha.
    rewrite lookup_delete_ne by congruence. done.
  - split; [done|..]; simpl; congruence.
Qed.

Lemma expired_spec i n k : k ∈ expired i n ↔ ∃ d, na_buf_alive n !! k = Some d ∧ d < i.
Proof.
  unfold expired. rewrite list_elem_of_fmap. split.
  - intros ([k' d] & -> & [Hd Hk]%list_elem_of_filter). exists d.
    by apply elem_of_map_to_list in Hk.
  - intros (d & Hk & Hd). exists (k, d). split; [done|]. apply list_elem_of_filter.
    split; [done|]. by apply elem_of_map_to_list.
Qed.

Lemma forget_alive_lookup ks n k : na_buf_alive (forget_alive ks n) !! k =
  if decide (k ∈ ks) then None else na_buf_alive n !! k.
Proof.
  unfold forget_alive. simpl. generalize (na_buf_alive n). induction ks as [|x ks IH]; intros m;
    cbn [foldl].
  - by rewrite decide_False by set_solver.
  - rewrite IH. destruct (decide (k ∈ ks)); [by rewrite decide_True by set_solver|].
    destruct (decide (k = x)) as [-> |]; [by rewrite lookup_delete_eq, decide_True by set_solver|].
    by rewrite lookup_delete_ne, decide_False by set_solver.
Qed.

(** Forgetting lives leaves the rest of [pools_ok]. *)
Lemma shorter_alive_ok a m : pools_ok a → (∀ k, is_Some (m !! k) → is_Some (alive a !! k)) →
  pools_ok (set_nodes (set_buf_alive m (al_nodes a)) a).
Proof.
  intros Hok Hm. apply (retabled a); try done; simpl; try apply Hok.
  intros k Hk. by apply Hok, Hm.
Qed.

Lemma sweep_spec i a : pools_ok a →
  pools_ok (sweep i a) ∧ mapped (sweep i a) = mapped a ∧ al_arena (sweep i a) = al_arena a ∧
  ∀ k, alive (sweep i a) !! k = (d ← alive a !! k; if decide (d < i) then None else Some d).
Proof.
  intros Hok. unfold sweep. set (ks := expired i (al_nodes a)).
  assert (∀ k, na_buf_alive (forget_alive ks (al_nodes a)) !! k =
    (d ← alive a !! k; if decide (d < i) then None else Some d)) as Hal.
  { intros k. rewrite forget_alive_lookup. case_decide as Hk.
    - apply expired_spec in Hk as (d & -> & Hd). simpl. by rewrite decide_True.
    - destruct (alive a !! k) as [d|] eqn:Hd; [|done]. simpl. rewrite decide_False; [done|].
      intros H. apply Hk, expired_spec. eauto. }
  destruct (free_all_freed ks (set_nodes (forget_alive ks (al_nodes a)) a)) as [? Ha Hm Hr].
  - apply shorter_alive_ok; [done|]. intros k [d Hd]. change (na_buf_alive (forget_alive ks (al_nodes a)) !! k = Some d) in Hd.
    rewrite Hal in Hd. by destruct (alive a !! k).
  - apply NoDup_fmap_fst; [|apply list.NoDup_filter, NoDup_map_to_list].
    intros k d d' [_ Hd%elem_of_map_to_list]%list_elem_of_filter
      [_ Hd'%elem_of_map_to_list]%list_elem_of_filter. congruence.
  - intros k Hk. apply expired_spec in Hk as (d & Hk & Hd). simpl.
    split; [apply po_alive; by eauto|]. rewrite Hal, Hk. simpl. by rewrite decide_True.
  - split_and!; try done. intros k. rewrite Ha. apply Hal.
Qed.

Lemma free_in_pool_alive k m a :
  free_in_pool k (set_nodes (set_buf_alive m (al_nodes a)) a) =
  set_nodes (set_buf_alive m (al_nodes (free_in_pool k a))) (free_in_pool k a).
Proof.
  destruct k as [backend id]. unfold free_in_pool. simpl.
  destruct (na_buf_bytes (al_nodes a) !! (backend, id)); simpl;
    (destruct (classes a !! (backend, id)); [done|]); unfold pool; simpl;
    by destruct (if has_entry backend then _ else _).
Qed.

Lemma free_all_alive ks m a :
  free_all ks (set_nodes (set_buf_alive m (al_nodes a)) a) =
  set_nodes (set_buf_alive m (al_nodes (free_all ks a))) (free_all ks a).
Proof.
  revert a. induction ks as [|k ks IH]; intros a; [done|]. simpl.
  rewrite free_in_pool_alive. apply IH.
Qed.

Lemma forget_graph_spec a : pools_ok a →
  pools_ok (forget_graph a) ∧ mapped (forget_graph a) = ∅ ∧ alive (forget_graph a) = ∅ ∧
  al_arena (forget_graph a) = al_arena a.
Proof.
  intros Hok. unfold forget_graph. set (ks := map fst _).
  destruct (free_all_freed ks (set_nodes (set_buf_alive ∅ (al_nodes a)) a)) as [Hok' Ha Hm Hr].
  - apply shorter_alive_ok; [done|]. intros k [? []%lookup_empty_Some].
  - apply NoDup_fst_map_to_list.
  - intros k Hk. simpl. rewrite lookup_empty. split; [|done]. apply po_alive; [done|].
    apply list_elem_of_fmap in Hk as ([k' d] & -> & Hk). apply elem_of_map_to_list in Hk. by eauto.
  - rewrite free_all_alive in Hok', Hr. split_and!; [|done..]. apply (retabled (set_nodes
      (set_buf_alive ∅ (al_nodes (free_all ks a))) (free_all ks a))); try done; apply Hok'.
Qed.

(** ** KV regions *)

(** The layer has a region, an old one or one made of two buffers nobody
    held. *)
Record ensured a a' (layer : N) (k : BufRef) : Prop := {
  en_ok : pools_ok a';
  en_nodes : al_nodes a' = al_nodes a;
  en_keeps : keeps a a';
  en_old : ∀ j l, layers a !! j = Some l → layers a' !! j = Some l;
  en_layer : ∃ l, layers a' !! layer = Some l ∧ lay_k l = k;
  en_new : ∀ j l, layers a' !! j = Some l → layers a !! j = Some l ∨
    (∀ p, pool CPU a = Some p → ¬ held p (br_id (lay_k l)) ∧ ¬ held p (br_id (lay_v l)))
}.

Lemma alloc_persistent_grows layer is_v size a : pools_ok a →
  ∃ id a', alloc_persistent layer is_v CPU size a = (Ok (own_ref CPU id size), a') ∧
    grown_by a a' id size ∧ ga_kv (al_arena a') = ga_kv (al_arena a).
Proof.
  intros Hok. destruct (alloc_exact_grows size a Hok) as (id & a' & Ha & Hg & Hkv).
  unfold alloc_persistent, mbind, op_bind. rewrite Ha. do 2 eexists. split; [done|].
  split; [|done]. destruct Hg. by split.
Qed.

Lemma insert_region_ok a layer l : pools_ok a → layers a !! layer = None →
  (∀ k, k = key (lay_k l) ∨ k = key (lay_v l) →
    (∀ p, pool CPU a = Some p → held_by p k) ∧ classes a !! k = None ∧ (∀ c, ¬ idle a k c) ∧
    ¬ region a k) → fits a (lay_k l) →
  ∀ kv, kv_layers kv = <[layer := l]> (layers a) → pools_ok (set_arena (set_kv kv (al_arena a)) a).
Proof.
  intros Hok Hn Hk Hf kv Hkv.
  assert (∀ k, region (set_arena (set_kv kv (al_arena a)) a) k →
    region a k ∨ k = key (lay_k l) ∨ k = key (lay_v l)) as Hreg.
  { intros k (j & l' & Hl & Hk'). simpl in Hl. rewrite Hkv in Hl.
    apply lookup_insert_Some in Hl as [[-> <-]|[_ Hl]]; [by right|left; by exists j, l']. }
  assert (∀ k c, usable a k c → classes a !! k = Some c ∨ idle a k c →
    usable (set_arena (set_kv kv (al_arena a)) a) k c) as Hu.
  { intros k c [Hu Hr] Hin. split; [done|]. intros [H|H]%Hreg; [done|].
    destruct (Hk k H) as (_ & Hc & Hi & _). destruct Hin as [Hin|Hin]; [congruence|by eapply Hi]. }
  split; simpl; try apply Hok.
  - intros k c Hc. apply Hu; [by apply po_class|by left].
  - intros k c Hc. apply Hu; [by apply po_idle|by right].
  - intros p k Hp [H|H]%Hreg; [by eapply po_region|]. by apply Hk.
  - rewrite Hkv. intros i j li lj Hi Hj He.
    apply lookup_insert_Some in Hi as [[<- <-]|[Hni Hi]];
      apply lookup_insert_Some in Hj as [[<- <-]|[Hnj Hj]]; try done.
    + destruct (Hk (key (lay_k l))) as (_ & _ & _ & []); [by left|]. exists j, lj. auto.
    + destruct (Hk (key (lay_k l))) as (_ & _ & _ & []); [by left|]. exists i, li. auto.
    + by eapply po_layers.
  - rewrite Hkv. intros i li [[_ <-]|[_ Hi]]%lookup_insert_Some; [done|exact (po_fits a Hok i li Hi)].
Qed.

Lemma ensure_kv_ensured layer n_embd words n_ctx a : pools_ok a →
  match ensure_kv layer CPU n_embd words n_ctx a with
  | (Ok (k, _), a') => ensured a a' layer k
  | (Err _, a') => a' = a
  | (Panic, _) => False
  end.
Proof.
  intros Hok. unfold ensure_kv.
  destruct (if negb (words =? n_embd) then _ else _) as [e|]; [done|].
  unfold reads_of, raise, mbind, op_bind.
  destruct (layers a !! layer) as [r|] eqn:Hl.
  - destruct (negb (lay_elems r =? _)); [done|]. destruct (negb (br_backend _ =? _)%N); [done|].
    destruct (negb (eqb _ _)); [done|]. simpl. split; try done; [by exists r|].
    intros j l Hj. by left.
  - set (elems := words * n_ctx).
    destruct (alloc_persistent_grows layer false elems a Hok) as (kid & a1 & -> & Hg1 & Hkv1).
    pose proof (grown_ok _ _ _ _ Hok Hg1) as Hok1.
    destruct (alloc_persistent_grows layer true elems a1 Hok1) as (vid & a2 & -> & Hg2 & Hkv2).
    pose proof (grown_ok _ _ _ _ Hok1 Hg2) as Hok2.
    pose proof (grown_new _ _ _ _ Hok Hg1) as (Hc1 & Hi1 & Hr1).
    pose proof (grown_new _ _ _ _ Hok1 Hg2) as (Hc2 & Hi2 & Hr2).
    assert (layers a2 = layers a) as Hly by by rewrite (gb_layers _ _ _ _ Hg2), (gb_layers _ _ _ _ Hg1).
    pose proof (gb_pool _ _ _ _ Hg1) as (p & p1 & Hp & Hp1 & _ & Hn1 & Hh1 & _).
    pose proof (gb_pool _ _ _ _ Hg2) as (p1' & p2 & Hp1' & Hp2 & _ & Hn2 & Hh2 & _).
    rewrite Hp1 in Hp1'. injection Hp1' as <-.
    simpl. split.
    + eapply insert_region_ok; [done|by rewrite Hly| | |done]; simpl; last first.
      { apply (keeps_fits a1); [by eapply grown_keeps|by exists p1|..].
        - intros q Hq. rewrite Hp1 in Hq. injection Hq as <-. apply Hh1. by left.
        - intros q Hq. rewrite Hp1 in Hq. injection Hq as <-.
          destruct (gb_pool _ _ _ _ Hg1) as (? & p1' & _ & Hp1' & _ & _ & _ & _ & b & Hb & Hlb).
          rewrite Hp1 in Hp1'. injection Hp1' as <-. exists b. simpl. split; [done|lia]. }
      intros k Hk. split_and!.
      * intros q Hq. rewrite Hp2 in Hq. injection Hq as <-.
        destruct Hk as [-> | ->]; (split; [done|]); apply Hh2; [right; apply Hh1|]; by left.
      * rewrite (gb_nodes _ _ _ _ Hg2). destruct Hk as [-> | ->]; [|done].
        by rewrite (gb_nodes _ _ _ _ Hg1).
      * intros c Hi. rewrite (grown_idle _ _ _ _ _ _ Hg2) in Hi.
        destruct Hk as [-> | ->]; [|by eapply Hi2].
        rewrite (grown_idle _ _ _ _ _ _ Hg1) in Hi. by eapply Hi1.
      * rewrite (grown_region _ _ _ _ _ Hg2). destruct Hk as [-> | ->]; [|done].
        by rewrite (grown_region _ _ _ _ _ Hg1).
    + simpl. by rewrite (gb_nodes _ _ _ _ Hg2), (gb_nodes _ _ _ _ Hg1).
    + etrans; [by eapply grown_keeps|]. etrans; [by eapply grown_keeps|].
      intros q Hq. by exists q.
    + simpl. rewrite Hly. intros j l Hj. rewrite lookup_insert_ne by congruence. done.
    + eexists. split; [apply lookup_insert_eq|done].
    + simpl. rewrite Hly. intros j l [[<- <-]|[_ Hj]]%lookup_insert_Some; [|by left]. right.
      intros q Hq. rewrite Hp in Hq. injection Hq as <-. split; [done|]. intros H. apply Hn2, Hh1.
      by right.
Qed.
End facts.
