(* ===== verification/AllocLive.v ===== *)
(** * Which nodes a graph lets share a buffer, and how long values live

    [well_built] is what the builder promises of a graph; [shares] the two
    ways a node's output may lie in another node's buffer, and [needed_at] the
    steps that still read a value.  [last_uses], [consumers] and
    [extend_through_views] compute lives that cover them. *)
From stdpp Require Import base numbers list gmap option relations.
From S2P Require Import Prelude Backend Graph Allocator.

Definition in_place_kind (o : Op) : bool :=
  match o with Silu | RoPE _ | SwiGLU | QkvBiasRopeStore _ => true | _ => false end.

Definition kv_layer_of (o : Op) : option N :=
  match o with KvcacheStore layer | KvcacheLoad layer => Some layer | _ => None end.

(** The graphs the builder makes: nodes in build order, inputs listed, views
    and in-place operations with the sources they need; the CPU's. *)
Record well_built (g : ComputeGraph) : Prop := {
  wb_id : ∀ i nd, node g i = Some nd → nd_id nd = i;
  wb_src : ∀ i nd s, node g i = Some nd → s ∈ nd_src nd → s < i;
  wb_view : ∀ i nd v, node g i = Some nd → nd_view nd = Some v → vw_src v ∈ nd_src nd;
  wb_input : ∀ i nd, node g i = Some nd → is_input nd = true → nd_src nd = [];
  wb_inputs : ∀ i, i ∈ g_inputs g ↔ ∃ nd, node g i = Some nd ∧ is_input nd = true;
  wb_outputs : ∀ i, i ∈ g_outputs g → i < n_nodes g;
  wb_cpu : ∀ i nd, node g i = Some nd → node_backend nd = CPU;
  wb_in_place : ∀ i nd, node g i = Some nd → in_place_kind (nd_op nd) = true → nd_src nd ≠ [];
  wb_len : (N.of_nat (n_nodes g) < 2 ^ 64)%N
}.

(** Operations that work in place keep the number of elements, and only a KV
    node is given a KV region's buffer. *)
Record well_shaped (g : ComputeGraph) : Prop := {
  ws_in_place : ∀ i nd s sn, node g i = Some nd → in_place_kind (nd_op nd) = true →
    nd_src nd !! 0 = Some s → node g s = Some sn →
    n_elements nd = n_elements sn ∧ kv_layer_of (nd_op sn) = None;
  ws_view : ∀ i nd v pn, node g i = Some nd → nd_view nd = Some v →
    node g (vw_src v) = Some pn → kv_layer_of (nd_op pn) = None
}.

Definition input_node (g : ComputeGraph) (i : nat) : Prop :=
  ∃ nd, node g i = Some nd ∧ is_input nd = true.

#[export] Instance input_node_dec g i : Decision (input_node g i).
Proof.
  unfold input_node. destruct (node g i) as [nd|]; [|right; by intros (? & ? & _)].
  destruct (is_input nd) eqn:H; [left; eauto|right; intros (? & ? & ?); congruence].
Defined.

(** Node [x] may lie in the buffer of node [y]. *)
Inductive shares (g : ComputeGraph) (x y : nat) : Prop :=
| sh_view nd v : node g x = Some nd → nd_view nd = Some v → vw_src v = y → shares g x y
| sh_in_place nd : node g x = Some nd → in_place_kind (nd_op nd) = true →
    nd_src nd !! 0 = Some y →
    (∀ r nd', node g r = Some nd' → y ∈ nd_src nd' → r = x) → shares g x y
| sh_kv nd nd' layer : node g x = Some nd → node g y = Some nd' →
    kv_layer_of (nd_op nd) = Some layer → kv_layer_of (nd_op nd') = Some layer → shares g x y.

Abbreviation bound g := (rtsc (shares g)).

(** The value of [x] is read at step [r]; outputs, and inputs, to the end. *)
Definition needed_at (g : ComputeGraph) (x r : nat) : Prop :=
  (∃ nd, node g r = Some nd ∧ x ∈ nd_src nd) ∨
  ((x ∈ g_outputs g ∨ x ∈ g_inputs g) ∧ r = n_nodes g).

(** ** Lists of last uses *)

Definition raised (l l' : list nat) : Prop :=
  length l = length l' ∧ ∀ x u, l !! x = Some u → ∃ u', l' !! x = Some u' ∧ u ≤ u'.

#[export] Instance raised_preorder : PreOrder raised.
Proof.
  split; [split; [done|by eauto]|]. intros a b c [Hl H] [Hl' H']. split; [congruence|].
  intros x u Hx. apply H in Hx as (v & Hv & ?). apply H' in Hv as (w & ? & ?).
  exists w. split; [done|lia].
Qed.

Lemma raised_insert l x u v : l !! x = Some u → u ≤ v → raised l (<[x := v]> l).
Proof.
  intros Hx Huv. split; [by rewrite length_insert|]. intros y w Hy.
  destruct (decide (y = x)) as [-> |].
  - exists v. rewrite list_lookup_insert_eq by (by eapply lookup_lt_Some). split; [done|].
    simplify_eq. lia.
  - exists w. by rewrite list_lookup_insert_ne.
Qed.

(** A fold that succeeds at every step, and an invariant of it. *)
Lemma fold_opt_inv {A S} (f : S → A → option S) (I : nat → S → Prop) (l : list A) s :
  I 0 s → (∀ j x s, l !! j = Some x → I j s → ∃ s', f s x = Some s' ∧ I (1 + j) s') →
  ∃ s', fold_opt f s l = Some s' ∧ I (length l) s'.
Proof.
  revert I s. induction l as [|x l IH]; intros I s H0 Hf; simpl; [eauto|].
  destruct (Hf 0 x s) as (s' & -> & Hs'); [done..|].
  apply (IH (λ j, I (1 + j))); [done|]. intros j y t Hj. by apply (Hf (1 + j)).
Qed.

Section uses.
Context (g : ComputeGraph) (Hg : well_built g).
Let n := n_nodes g.

Lemma node_lt i nd : node g i = Some nd → i < n.
Proof. apply lookup_lt_Some. Qed.

Lemma src_lt i nd s : node g i = Some nd → s ∈ nd_src nd → s < n.
Proof. intros Hi Hs. pose proof (wb_src _ Hg _ _ _ Hi Hs). pose proof (node_lt _ _ Hi). lia. Qed.

(** Entries of a list of last uses stay in range. *)
Definition uses_ok (l : list nat) : Prop := length l = n ∧ Forall (λ u, u ≤ n) l.

Lemma raise_to_all i l srcs : uses_ok l → i ≤ n → (∀ s, s ∈ srcs → s < n) →
  ∃ l', fold_opt (raise_to i) l srcs = Some l' ∧ uses_ok l' ∧ raised l l' ∧
    ∀ s, s ∈ srcs → ∃ u, l' !! s = Some u ∧ i ≤ u.
Proof.
  intros Hl Hi. revert l Hl. induction srcs as [|s srcs IH]; intros l Hl Hs; simpl.
  { exists l. split_and!; [done..|]. by intros s Hs'%elem_of_nil. }
  destruct (lookup_lt_is_Some_2 l s) as [u Hu]; [rewrite (proj1 Hl); apply Hs; by left|].
  unfold raise_to at 1. rewrite Hu. simpl.
  set (l1 := if u <? i then <[s := i]> l else l).
  assert (uses_ok l1 ∧ raised l l1 ∧ ∃ u', l1 !! s = Some u' ∧ i ≤ u') as (Hl1 & Hr1 & u' & Hu' & Hiu).
  { unfold l1. destruct (Nat.ltb_spec u i).
    - split_and!; [|by eapply raised_insert; [done|lia]|].
      + split; [rewrite length_insert; apply Hl|]. by apply Forall_insert; [apply Hl|].
      + exists i. rewrite list_lookup_insert_eq; [done|by eapply lookup_lt_Some].
    - split_and!; [done..|by exists u]. }
  destruct (IH l1) as (l' & -> & Hl' & Hr' & Hs'); [done|intros; apply Hs; by right|].
  exists l'. split_and!; [done..|by etrans|].
  intros x [-> |Hx]%elem_of_cons; [|by apply Hs'].
  destruct (proj2 Hr' _ _ Hu') as (w & ? & ?). exists w. split; [done|lia].
Qed.

Lemma set_at_all l xs : uses_ok l → (∀ x, x ∈ xs → x < n) →
  ∃ l', fold_opt (λ l o, set_at l o n) l xs = Some l' ∧ uses_ok l' ∧ raised l l' ∧
    ∀ x, x ∈ xs → l' !! x = Some n.
Proof.
  revert l. induction xs as [|x xs IH]; intros l Hl Hs; simpl.
  { exists l. split_and!; [done..|]. by intros s Hs'%elem_of_nil. }
  assert (x < length l) as Hx by (rewrite (proj1 Hl); apply Hs; by left).
  unfold set_at at 1. rewrite (proj2 (Nat.ltb_lt _ _)) by done.
  destruct (lookup_lt_is_Some_2 l x Hx) as [u Hu].
  destruct (IH (<[x := n]> l)) as (l' & -> & Hl' & Hr' & Hs').
  - split; [rewrite length_insert; apply Hl|]. apply Forall_insert; [apply Hl|done].
  - intros; apply Hs; by right.
  - exists l'. split_and!; [done..| |].
    + etrans; [|done]. eapply raised_insert; [done|].
      destruct Hl as [_ Hl]. rewrite list.Forall_lookup in Hl. by eapply Hl.
    + intros y [-> |Hy]%elem_of_cons; [|by apply Hs'].
      destruct (proj2 Hr' x n) as (w & Hw & ?); [by apply list_lookup_insert_eq|].
      rewrite Hw. f_equal. destruct Hl' as [_ Hl']. rewrite list.Forall_lookup in Hl'.
      pose proof (Hl' _ _ Hw). simpl in *. lia.
Qed.

Lemma seq_uses_ok : uses_ok (seq 0 n).
Proof.
  split; [apply length_seq|]. apply list.Forall_forall. intros u Hu%elem_of_seq. lia.
Qed.

Lemma raise_nodes : ∃ l,
  fold_opt (λ l p, fold_opt (raise_to p.1) l (nd_src p.2)) (seq 0 n) (imap pair (g_nodes g))
    = Some l ∧ uses_ok l ∧ raised (seq 0 n) l ∧
  ∀ r nd x, node g r = Some nd → x ∈ nd_src nd → ∃ u, l !! x = Some u ∧ r ≤ u.
Proof.
  destruct (fold_opt_inv (λ l p, fold_opt (raise_to p.1) l (nd_src p.2))
    (λ j l, uses_ok l ∧ raised (seq 0 n) l ∧ ∀ r nd x, r < j → node g r = Some nd →
       x ∈ nd_src nd → ∃ u, l !! x = Some u ∧ r ≤ u) (imap pair (g_nodes g)) (seq 0 n))
    as (l & Hl & Hok & Hr & Hn).
  - split; [apply seq_uses_ok|]. split; [done|]. intros; lia.
  - intros j [j' nd] l Hj (Hok & Hr & Hn).
    rewrite list_lookup_imap in Hj. apply fmap_Some in Hj as (nd' & Hnd & [= -> ->]). simpl.
    destruct (raise_to_all j l (nd_src nd')) as (l' & Hf & Hok' & Hr' & Hs); [done|..].
    { pose proof (node_lt _ _ Hnd). lia. }
    { intros s Hs. by eapply src_lt. }
    exists l'. split; [done|]. split; [done|]. split; [by etrans|].
    intros r nd x Hlt Hrd Hx. destruct (decide (r = j)) as [-> |].
    + apply Hs. unfold node in *. congruence.
    + destruct (Hn r nd x) as (u & Hu & ?); [lia|done..|].
      destruct (proj2 Hr' _ _ Hu) as (w & ? & ?). exists w. split; [done|lia].
  - exists l. split_and!; [done..|]. intros r nd x Hrd. apply (Hn r nd x); [|done].
    rewrite length_imap. by eapply node_lt.
Qed.

(** [last_uses] covers every read. *)
Lemma last_uses_spec : ∃ l, last_uses g = Some l ∧ uses_ok l ∧ raised (seq 0 n) l ∧
  (∀ x r, needed_at g x r → ∃ u, l !! x = Some u ∧ r ≤ u) ∧
  (∀ x, input_node g x → l !! x = Some n).
Proof.
  destruct raise_nodes as (l1 & H1 & Hok1 & Hr1 & Hn).
  destruct (set_at_all l1 (g_outputs g)) as (l2 & H2 & Hok2 & Hr2 & Ho); [done|apply Hg|].
  destruct (set_at_all l2 (g_inputs g)) as (l3 & H3 & Hok3 & Hr3 & Hi); [done| |].
  { intros x (nd & Hx & _)%(wb_inputs _ Hg). by eapply node_lt. }
  exists l3. unfold last_uses. cbv zeta. fold n. rewrite H1. cbn [mbind option_bind].
  rewrite H2. cbn [mbind option_bind]. rewrite H3.
  split_and!; [done..|by do 2 (etrans; [|done])| |].
  - assert (∀ l l' x u r, raised l l' → l !! x = Some u → r ≤ u → ∃ u, l' !! x = Some u ∧ r ≤ u)
      as Hup.
    { intros l l' x u r [_ Hr] Hx Hle. destruct (Hr _ _ Hx) as (w & ? & ?).
      exists w. split; [done|lia]. }
    intros x r [(nd & Hr & Hx)|[[Hx|Hx] ->]].
    + destruct (Hn r nd x) as (u & Hu & Hle); [done..|].
      eapply (Hup l1); [by etrans|done..].
    + eapply (Hup l2); [done|by apply Ho|done].
    + eauto.
  - intros x Hx. apply Hi. by apply Hg.
Qed.

(** ** Readers *)

Lemma count_src_spec (s : nat) srcs cs : (∀ x, x ∈ srcs → x < length cs) →
  ∃ cs', fold_opt (λ l s, c ← l !! s; Some (<[s := c + 1]> l)) cs srcs = Some cs' ∧
    length cs' = length cs ∧
    ∀ c, cs !! s = Some c → cs' !! s = Some (c + count_occ Nat.eq_dec srcs s).
Proof.
  revert cs. induction srcs as [|x srcs IH]; intros cs Hs; simpl.
  { exists cs. split_and!; [done..|]. intros c ->. f_equal. lia. }
  destruct (lookup_lt_is_Some_2 cs x) as [u Hu]; [apply Hs; by left|]. rewrite Hu. simpl.
  destruct (IH (<[x := u + 1]> cs)) as (cs' & -> & Hl & Hc).
  { intros y Hy. rewrite length_insert. apply Hs. by right. }
  exists cs'. rewrite length_insert in Hl. split_and!; [done..|]. intros c Hcs.
  destruct (Nat.eq_dec x s) as [-> |].
  - rewrite (Hc (u + 1)) by (apply list_lookup_insert_eq; by eapply lookup_lt_Some).
    simplify_eq. f_equal. lia.
  - rewrite (Hc c) by by rewrite list_lookup_insert_ne. done.
Qed.

(** Two entries that name [s] count twice. *)
Lemma consumers_spec (s : nat) : ∃ cs, consumers g = Some cs ∧ length cs = n ∧
  ∀ c, cs !! s = Some c → c = sum_list_with (λ nd, count_occ Nat.eq_dec (nd_src nd) s) (g_nodes g).
Proof.
  destruct (fold_opt_inv (λ l nd, fold_opt (λ l s, c ← l !! s; Some (<[s := c + 1]> l)) l (nd_src nd))
    (λ j cs, length cs = n ∧ ∀ c, cs !! s = Some c →
       c = sum_list_with (λ nd, count_occ Nat.eq_dec (nd_src nd) s) (take j (g_nodes g)))
    (g_nodes g) (replicate n 0)) as (cs & Hcs & Hl & Hc).
  - split; [apply length_replicate|]. by intros c [-> _]%lookup_replicate.
  - intros j nd cs Hj [Hl Hc]. destruct (count_src_spec s (nd_src nd) cs) as (cs' & Hf & Hl' & Hc').
    { intros x Hx. rewrite Hl. by eapply src_lt. }
    exists cs'. split; [done|]. split; [congruence|]. intros c Hx.
    destruct (lookup_lt_is_Some_2 cs s) as [c0 Hc0].
    { rewrite <-Hl'. by eapply lookup_lt_Some. }
    rewrite (Hc' _ Hc0) in Hx. injection Hx as <-. rewrite (Hc _ Hc0).
    change (1 + j) with (S j). rewrite (take_S_r _ _ _ Hj), sum_list_with_app. simpl. lia.
  - exists cs. rewrite firstn_all in Hc. done.
Qed.

Lemma sum_list_with_lookup {A} (f : A → nat) (l : list A) i j x y :
  l !! i = Some x → l !! j = Some y → i ≠ j → f x + f y ≤ sum_list_with f l.
Proof.
  revert i j. induction l as [|z l IH]; intros i j Hi Hj Hne; [done|].
  assert (∀ k w, l !! k = Some w → f w ≤ sum_list_with f l) as Hone.
  { intros k w Hk%list_elem_of_lookup_2. by apply sum_list_with_in. }
  destruct i as [|i], j as [|j]; simplify_eq/=.
  - pose proof (Hone _ _ Hj). lia.
  - pose proof (Hone _ _ Hi). lia.
  - pose proof (IH i j Hi Hj). lia.
Qed.

(** A node counted once has one reader. *)
Lemma sole_reader cs s x nd r nd' : consumers g = Some cs → cs !! s = Some 1 →
  node g x = Some nd → s ∈ nd_src nd → node g r = Some nd' → s ∈ nd_src nd' → r = x.
Proof.
  intros Hcs H1 Hx Hs Hr Hs'. destruct (decide (r = x)) as [|Hne]; [done|]. exfalso.
  destruct (consumers_spec s) as (cs' & Hcs' & _ & Hc).
  rewrite Hcs in Hcs'. injection Hcs' as <-. apply Hc in H1.
  pose proof (sum_list_with_lookup (λ nd, count_occ Nat.eq_dec (nd_src nd) s) _ _ _ _ _ Hx Hr) as Hle.
  apply list_elem_of_In, (count_occ_In Nat.eq_dec) in Hs, Hs'. lia.
Qed.

(** ** [extend_through_views] *)

(** The walk goes up a chain of views, each entry raised to [to]; [Q] holds of
    the nodes on the chain. *)
Record extended (Q : nat → Prop) (cur to : nat) (l l' grown : list nat) : Prop := {
  ex_raised : raised l l';
  ex_grown : ∀ x, x ∈ grown → Q x ∧ l' !! x = Some to;
  ex_rest : ∀ x, x ∉ grown → l' !! x = l !! x;
  ex_parent : ∀ x nd v, x ∈ grown → node g x = Some nd → nd_view nd = Some v →
    ∃ w, l' !! vw_src v = Some w ∧ to ≤ w;
  ex_from : ∃ w, l' !! cur = Some w ∧ to ≤ w
}.

Lemma view_lt x nd v : node g x = Some nd → nd_view nd = Some v → vw_src v < x.
Proof. intros Hx Hv. eapply wb_src; [done..|]. by eapply wb_view. Qed.

Lemma extend_through_views_spec (Q : nat → Prop) fuel l cur to :
  (∀ x nd v, Q x → node g x = Some nd → nd_view nd = Some v → Q (vw_src v)) →
  length l = n → cur < n → cur < fuel → Q cur →
  ∃ l' grown, extend_through_views fuel g l cur to = Some (l', grown) ∧
    extended Q cur to l l' grown ∧ ∀ x, x ∈ grown → x ≤ cur.
Proof.
  intros HQ. revert l cur. induction fuel as [|fuel IH]; intros l cur Hl Hc Hf Hcur; [lia|].
  simpl. destruct (lookup_lt_is_Some_2 l cur) as [u Hu]; [lia|]. rewrite Hu. simpl.
  destruct (Nat.leb_spec to u) as [Hle|Hlt].
  { exists l, []. split; [done|]. split; [|by intros x Hx%elem_of_nil].
    split; [done|by intros x Hx%elem_of_nil|done|by intros x ? ? Hx%elem_of_nil|by exists u]. }
  destruct (lookup_lt_is_Some_2 (g_nodes g) cur) as [nd Hnd]; [done|].
  change (g_nodes g !! cur) with (node g cur) in Hnd. rewrite Hnd. simpl.
  assert (raised l (<[cur := to]> l)) as Hr1 by (eapply raised_insert; [done|lia]).
  assert (<[cur := to]> l !! cur = Some to) as Hto by (apply list_lookup_insert_eq; lia).
  destruct (nd_view nd) as [v|] eqn:Hv.
  - pose proof (view_lt _ _ _ Hnd Hv) as Hvl.
    destruct (IH (<[cur := to]> l) (vw_src v)) as (l' & grown & -> & [Hr Hg1 Hg2 Hg3 Hg4] & Hb);
      [by rewrite length_insert|lia|lia|by eapply HQ|].
    assert (cur ∉ grown) as Hnc by (intros ?%Hb; lia).
    simpl. exists l', (cur :: grown). split; [done|]. split.
    + split.
      * by etrans.
      * intros x [-> |Hx]%elem_of_cons; [|by apply Hg1]. split; [done|]. by rewrite Hg2.
      * intros x [Hx1 Hx2]%not_elem_of_cons. rewrite Hg2 by done. by rewrite list_lookup_insert_ne.
      * intros x nd' v' [-> |Hx]%elem_of_cons; [|by apply Hg3].
        intros. by simplify_eq.
      * exists to. by rewrite Hg2.
    + intros x [-> |Hx]%elem_of_cons; [done|]. pose proof (Hb _ Hx). lia.
  - exists (<[cur := to]> l), [cur]. split; [done|]. split.
    + split.
      * done.
      * by intros x ->%list_elem_of_singleton.
      * intros x Hx%not_elem_of_cons. rewrite list_lookup_insert_ne; naive_solver.
      * intros x nd' v' ->%list_elem_of_singleton. intros. by simplify_eq.
      * by exists to.
    + by intros x ->%list_elem_of_singleton.
Qed.
End uses.
