(* ===== verification/AllocWalk.v ===== *)
(** * The walk of [alloc_graph]

    [walk g l0 j i l a] is what holds of the allocator [a] when the first [j]
    nodes' inputs and the first [i] nodes are placed, [l0] the last uses
    computed before the walk and [l] those it has extended.  Every operation
    of the walk takes it from [i] to [i + 1]. *)
From stdpp Require Import base numbers list gmap option relations.
From S2P Require Import Prelude KvCache KvArena Backend Graph Allocator AllocFacts AllocLive.

(** ** Operations that keep their promises *)
Section triples.
Context {W P : Type} `{!CellPool W P, !BufferPool W P, !BufferPoolLaws W P}.

(** From [Pre], the operation returns with [Post] or refuses with the
    allocator's invariant kept; it does not panic. *)
Definition triple {E A} (Pre : GraphAllocator P → Prop) (m : op (P:=P) E A)
    (Post : A → GraphAllocator P → Prop) : Prop :=
  ∀ a, Pre a → match m a with
               | (Ok x, a') => Post x a'
               | (Err _, a') => pools_ok a'
               | (Panic, _) => False
               end.

Lemma triple_bind {E A B} Pre (m : op (P:=P) E A) Mid (f : A → op (P:=P) E B) Post :
  triple Pre m Mid → (∀ x, triple (Mid x) (f x) Post) → triple Pre (m ≫= f) Post.
Proof.
  intros Hm Hf a Ha. unfold mbind, op_bind. specialize (Hm a Ha).
  destruct (m a) as [[x|e|] a']; [by apply Hf|done..].
Qed.

Lemma triple_ret {E A} (Pre : GraphAllocator P → Prop) (x : A) (Post : A → GraphAllocator P → Prop) :
  (∀ a, Pre a → Post x a) → triple Pre (mret x : op (P:=P) E A) Post.
Proof. intros H a Ha. by apply H. Qed.

Lemma triple_pre {E A} (Pre Pre' : GraphAllocator P → Prop) (m : op (P:=P) E A) Post :
  triple Pre' m Post → (∀ a, Pre a → Pre' a) → triple Pre m Post.
Proof. intros Hm H a Ha. by apply Hm, H. Qed.

Lemma triple_loop {E A S} (f : A → S → op (P:=P) E S) (I : nat → S → GraphAllocator P → Prop) l s :
  (∀ j x s, l !! j = Some x → triple (I j s) (f x s) (I (1 + j))) →
  triple (I 0 s) (loop f l s) (I (length l)).
Proof.
  revert I s. induction l as [|x l IH]; intros I s Hf; simpl.
  { by apply triple_ret. }
  eapply triple_bind; [by apply (Hf 0)|]. intros s'.
  apply (IH (λ j, I (1 + j))). intros j y t Hj. by apply (Hf (1 + j)).
Qed.
End triples.

Section walk.
Context {W P : Type} `{!CellPool W P, !BufferPool W P, !BufferPoolLaws W P}.
Context (device_memory : DeviceMemory) (g : ComputeGraph) (Hg : well_built g).
Implicit Types (a : GraphAllocator P).
Let n := n_nodes g.

Abbreviation mapped a := (na_node_to_buf (al_nodes a)).
Abbreviation alive a := (na_buf_alive (al_nodes a)).
Abbreviation classes a := (na_buf_class (al_nodes a)).
Abbreviation layers a := (kv_layers (ga_kv (al_arena a))).

Definition placed (j i x : nat) : Prop := (input_node g x ∧ x < j) ∨ (¬ input_node g x ∧ x < i).

(** A live value's buffer is a KV region or kept from the free list. *)
Definition kept a (r : BufRef) (u : nat) : Prop :=
  region a (key r) ∨ ∃ d, alive a !! key r = Some d ∧ u ≤ d.

Record walk (l0 : list nat) (j i : nat) (l : list nat) a : Prop := {
  wk_ok : pools_ok a;
  wk_len : length l = n;
  wk_raised : raised l0 l;
  wk_dom : ∀ x r, mapped a !! x = Some r → x < n ∧ placed j i x;
  wk_kept : ∀ x r u, mapped a !! x = Some r → l !! x = Some u → i ≤ u → kept a r u;
  wk_view : ∀ x nd v, is_Some (mapped a !! x) → node g x = Some nd → nd_view nd = Some v →
    is_Some (mapped a !! vw_src v) ∧
    ∃ u w, l !! x = Some u ∧ l !! vw_src v = Some w ∧ u ≤ w;
  wk_held : ∀ p x r, pool CPU a = Some p → mapped a !! x = Some r → held_by p (key r);
  wk_region : ∀ x r m lay, mapped a !! x = Some r → layers a !! m = Some lay →
    key r = key (lay_k lay) →
    ∃ z nd, node g z = Some nd ∧ kv_layer_of (nd_op nd) = Some m ∧ bound g x z;
  wk_bound : ∀ x y r r' u, mapped a !! x = Some r → mapped a !! y = Some r' → key r = key r' →
    ¬ input_node g y → x < y ∨ input_node g x → l0 !! x = Some u → y ≤ u → bound g x y;
  wk_inputs : ∀ x y r r', mapped a !! x = Some r → mapped a !! y = Some r' → key r = key r' →
    input_node g x → input_node g y → x = y;
  wk_fits : well_shaped g → ∀ x r, mapped a !! x = Some r → fits a r ∧
    ∃ nd, node g x = Some nd ∧ (kv_layer_of (nd_op nd) = None → br_len r = n_elements nd);
  wk_placed : ∀ x u, placed j i x → l0 !! x = Some u → x < u → is_Some (mapped a !! x)
}.

(** Last uses computed before the walk, as [last_uses_spec] has them. *)
Context (l0 : list nat) (Hl0 : uses_ok g l0)
  (Hneeded : ∀ x r, needed_at g x r → ∃ u, l0 !! x = Some u ∧ r ≤ u)
  (Hinputs : ∀ x, input_node g x → l0 !! x = Some n).

Lemma walk_uses j i l a x u : walk l0 j i l a → l0 !! x = Some u → ∃ v, l !! x = Some v ∧ u ≤ v.
Proof. intros Hw. apply (wk_raised _ _ _ _ _ Hw). Qed.

(** Two nodes with one buffer, both still needed at step [i]. *)
Lemma walk_same_buffer j i l a x y r r' u v : walk l0 j i l a →
  mapped a !! x = Some r → mapped a !! y = Some r' → key r = key r' →
  l0 !! x = Some u → l0 !! y = Some v → i ≤ u → i ≤ v → bound g x y.
Proof.
  intros Hw Hx Hy Hk Hu Hv Hiu Hiv.
  destruct (wk_dom _ _ _ _ _ Hw _ _ Hx) as [_ Hpx]. destruct (wk_dom _ _ _ _ _ Hw _ _ Hy) as [_ Hpy].
  destruct (decide (x = y)) as [-> |Hne]; [done|].
  destruct (decide (input_node g x)) as [Hix|Hix]; destruct (decide (input_node g y)) as [Hiy|Hiy].
  - by destruct (wk_inputs _ _ _ _ _ Hw _ _ _ _ Hx Hy Hk).
  - destruct Hpy as [[? _]|[_ Hpy]]; [done|].
    eapply (wk_bound _ _ _ _ _ Hw x y); try done; [by right|lia].
  - destruct Hpx as [[? _]|[_ Hpx]]; [done|]. symmetry.
    eapply (wk_bound _ _ _ _ _ Hw y x); try done; [by right|lia].
  - destruct Hpx as [[? _]|[_ Hpx]]; [done|]. destruct Hpy as [[? _]|[_ Hpy]]; [done|].
    destruct (decide (x < y)).
    + eapply (wk_bound _ _ _ _ _ Hw x y); try done; [by left|lia].
    + symmetry. eapply (wk_bound _ _ _ _ _ Hw y x); try done; [left; lia|lia].
Qed.

Lemma walk_sweep j i l a : walk l0 j i l a → walk l0 j i l (sweep i a).
Proof.
  intros Hw. destruct (sweep_spec i a) as (Hok & Hm & Har & Hal); [by apply Hw|].
  assert (∀ k, region (sweep i a) k ↔ region a k) as Hreg by (intros k; unfold region; by rewrite Har).
  split; rewrite ?Hm, ?Har; try apply Hw; [done| | |].
  - intros x r u Hx Hu Hi. unfold kept. rewrite Hreg, Hal.
    destruct (wk_kept _ _ _ _ _ Hw _ _ _ Hx Hu Hi) as [|(d & -> & Hd)]; [by left|right].
    simpl. rewrite decide_False by lia. eauto.
  - intros p x r Hp. apply (wk_held _ _ _ _ _ Hw). unfold pool in *. by rewrite <-Har.
  - intros Hs x r Hx. destruct (wk_fits _ _ _ _ _ Hw Hs _ _ Hx) as [Hf ?]. split; [|done].
    unfold fits, pool in *. by rewrite Har.
Qed.

(** Windows still fit when the pool only grew. *)
Lemma walk_keeps_fits j i l a a' x r : walk l0 j i l a → keeps a a' → mapped a !! x = Some r →
  fits a r → fits a' r.
Proof.
  intros Hw Hk Hx. destruct (po_pool _ (wk_ok _ _ _ _ _ Hw)) as (p & Hp & _).
  apply keeps_fits; [done|eauto|]. intros q Hq. by apply (wk_held _ _ _ _ _ Hw q x r).
Qed.

(** A node that gets no buffer. *)
Lemma walk_skip i l a : walk l0 n i l a → (input_node g i ∨ ∀ u, l0 !! i = Some u → u ≤ i) →
  walk l0 n (1 + i) l a.
Proof.
  intros Hw Hi. split; try apply Hw.
  - intros x r Hx. destruct (wk_dom _ _ _ _ _ Hw _ _ Hx) as [? [?|[? ?]]];
      (split; [done|]); [by left|right; split; [done|lia]].
  - intros x r u Hx Hu Hle. eapply wk_kept; [done..|lia].
  - intros x u Hp Hu Hlt. eapply wk_placed; [done| |done..].
    destruct Hp as [?|[Hni Hx]]; [by left|right]. split; [done|].
    destruct (decide (x = i)) as [-> |]; [|lia]. destruct Hi as [|Hi]; [done|].
    pose proof (Hi _ Hu). lia.
Qed.

(** ** A buffer of its own *)

Definition owned (x id size until : nat) (nds : NodeAllocs) : NodeAllocs :=
  map_node x (own_ref CPU id size) (set_buf_alive (<[(CPU, id) := until]> (na_buf_alive nds)) nds).

Lemma owned_ok a x id size until : pools_ok a → is_Some (classes a !! (CPU, id)) →
  pools_ok (set_nodes (owned x id size until (al_nodes a)) a).
Proof.
  intros Hok Hc. apply (retabled a); try done; simpl; try apply Hok.
  intros k [d [[<- _]|[_ Hd]]%lookup_insert_Some]; [done|]. apply Hok. by exists d.
Qed.

(** A stale reference to the buffer handed out is to a value nobody needs. *)
Lemma handed_dead j i l a a1 id c y r u : walk l0 j i l a → handed a a1 id c →
  mapped a !! y = Some r → key r = (CPU, id) → l !! y = Some u → u < i.
Proof.
  intros Hw Hh Hy Hk Hu. destruct (decide (i ≤ u)) as [Hle|]; [|lia]. exfalso.
  destruct (hd_new _ _ _ _ Hh) as [Hc Hr].
  destruct (wk_kept _ _ _ _ _ Hw _ _ _ Hy Hu Hle) as [H|(d & Hd & _)]; rewrite Hk in *; [done|].
  destruct (po_alive _ (wk_ok _ _ _ _ _ Hw) (CPU, id)) as [? ?]; [by eauto|congruence].
Qed.

(** [x] is the next node: an input before the walk, or the node of its step. *)
Definition next_node (j i j' i' x : nat) : Prop :=
  (input_node g x ∧ x = j ∧ i = 0 ∧ j' = 1 + j ∧ i' = i) ∨
  (¬ input_node g x ∧ x = i ∧ j' = j ∧ i' = 1 + i).

Lemma next_placed j i j' i' x y : next_node j i j' i' x →
  placed j' i' y ↔ y = x ∨ placed j i y.
Proof.
  unfold placed. intros [(? & -> & -> & -> & ->)|(? & -> & -> & ->)];
    (split; [intros [[? ?]|[? ?]]|intros [-> |[[? ?]|[? ?]]]]).
  - destruct (decide (y = j)); [by left|right; left; split; [done|lia]].
  - lia.
  - left. split; [done|lia].
  - left. split; [done|lia].
  - lia.
  - right. by left.
  - destruct (decide (y = i)); [by left|right; right; split; [done|lia]].
  - right. split; [done|lia].
  - by left.
  - right. split; [done|lia].
Qed.

Lemma next_le j i j' i' x : next_node j i j' i' x → i ≤ i' ≤ 1 + i.
Proof. intros [(? & ? & ? & ? & ?)|(? & ? & ? & ?)]; lia. Qed.

Lemma next_unmapped j i j' i' x l a : next_node j i j' i' x → walk l0 j i l a →
  mapped a !! x = None.
Proof.
  intros Hn Hw. destruct (mapped a !! x) eqn:Hx; [|done].
  destruct (wk_dom _ _ _ _ _ Hw _ _ Hx) as [_ Hp].
  destruct Hn as [(? & ? & ? & ? & ?)|(? & ? & ? & ?)]; destruct Hp as [[? ?]|[? ?]]; try done; lia.
Qed.

Lemma walk_own j i j' i' x l a a1 id c size until : next_node j i j' i' x → x < n →
  walk l0 j i l a → handed a a1 id c → l !! x = Some until →
  (∃ nd, node g x = Some nd ∧ nd_view nd = None ∧ size = n_elements nd) → size ≤ c →
  walk l0 j' i' l (set_nodes (owned x id size until (al_nodes a1)) a1).
Proof.
  intros Hn Hx Hw Hh Hu (nx & Hnx & Hv & Hsz) Hc. pose proof (next_unmapped _ _ _ _ _ _ _ Hn Hw) as Hnm.
  pose proof (next_le _ _ _ _ _ Hn) as Hi.
  assert (∀ y r u, mapped a !! y = Some r → key r = (CPU, id) → l0 !! y = Some u → u < i) as Hdead.
  { intros y r u Hy Hk Huy. destruct (walk_uses _ _ _ _ _ _ Hw Huy) as (v & Hvy & ?).
    pose proof (handed_dead _ _ _ _ _ _ _ _ _ _ Hw Hh Hy Hk Hvy). lia. }
  split; simpl; rewrite ?(hd_mapped _ _ _ _ Hh), ?(hd_kv _ _ _ _ Hh); try apply Hw.
  - apply owned_ok; [apply Hh|]. rewrite (hd_class _ _ _ _ Hh). by eexists.
  - intros y r Hy. rewrite next_placed by done.
    apply lookup_insert_Some in Hy as [[<- _]|[_ Hy]]; [by auto|].
    split; [|right]; eapply wk_dom; done.
  - intros y r u Hy Huy Hle. unfold kept, region. simpl.
    rewrite (hd_kv _ _ _ _ Hh), (hd_alive _ _ _ _ Hh).
    apply lookup_insert_Some in Hy as [[<- <-]|[Hne Hy]].
    { right. exists until. rewrite lookup_insert_eq. split; [done|]. by simplify_eq. }
    assert (i ≤ u) as Hiu by lia.
    destruct (wk_kept _ _ _ _ _ Hw _ _ _ Hy Huy Hiu) as [|(d & Hd & ?)]; [by left|right].
    exists d. rewrite lookup_insert_ne; [done|]. intros Hk.
    pose proof (handed_dead _ _ _ _ _ _ _ _ _ _ Hw Hh Hy (eq_sym Hk) Huy). lia.
  - intros y nd v Hy Hnd Hvy. apply lookup_insert_is_Some in Hy as [<-|[Hne Hy]].
    { congruence. }
    destruct (wk_view _ _ _ _ _ Hw _ _ _ Hy Hnd Hvy) as [Hp Hl]. split; [|done].
    apply lookup_insert_is_Some. destruct (decide (x = vw_src v)); auto.
  - intros p y r Hp Hy. change (pool CPU a1 = Some p) in Hp.
    destruct (po_pool _ (wk_ok _ _ _ _ _ Hw)) as (p0 & Hp0 & _).
    destruct (hd_keeps _ _ _ _ Hh p0 Hp0) as (p1 & Hp1 & Hkeep).
    rewrite Hp in Hp1. injection Hp1 as <-.
    apply lookup_insert_Some in Hy as [[<- <-]|[_ Hy]].
    + destruct (po_class _ (hd_ok _ _ _ _ Hh) _ _ (hd_class _ _ _ _ Hh)) as [Hus _].
      by destruct (Hus p Hp).
    + destruct (wk_held _ _ _ _ _ Hw _ _ _ Hp0 Hy) as [? ?]. split; [done|]. by apply Hkeep.
  - intros y r m lay Hy Hm Hk. apply lookup_insert_Some in Hy as [[<- <-]|[_ Hy]].
    + destruct (hd_new _ _ _ _ Hh) as [_ []]. exists m, lay. auto.
    + by eapply wk_region.
  - intros y z r r' u Hy Hz Hk Hniz Hlt Huy Hle.
    apply lookup_insert_Some in Hy as [[<- <-]|[Hny Hy]];
      apply lookup_insert_Some in Hz as [[<- <-]|[Hnz Hz]].
    + done.
    + destruct (wk_dom _ _ _ _ _ Hw _ _ Hz) as [_ [[? _]|[_ Hzi]]]; [done|].
      destruct Hn as [(? & ? & -> & ? & ?)|(? & -> & ? & ?)]; [lia|].
      destruct Hlt as [|]; [lia|done].
    + destruct Hn as [(? & ? & -> & ? & ?)|(? & -> & ? & ?)]; [done|].
      pose proof (Hdead _ _ _ Hy Hk Huy). lia.
    + by eapply wk_bound.
  - intros y z r r' Hy Hz Hk Hiy Hiz.
    apply lookup_insert_Some in Hy as [[<- <-]|[Hny Hy]];
      apply lookup_insert_Some in Hz as [[<- <-]|[Hnz Hz]]; try done.
    + destruct Hn as [(? & ? & -> & ? & ?)|(? & -> & ? & ?)]; [|done].
      pose proof (Hdead _ _ _ Hz (eq_sym Hk) (Hinputs _ Hiz)). lia.
    + destruct Hn as [(? & ? & -> & ? & ?)|(? & -> & ? & ?)]; [|done].
      pose proof (Hdead _ _ _ Hy Hk (Hinputs _ Hiy)). lia.
    + by eapply wk_inputs.
  - intros Hs y r [[<- <-]|[_ Hy]]%lookup_insert_Some.
    + split; [|by exists nx]. intros p Hp. change (pool CPU a1 = Some p) in Hp.
      destruct (po_class _ (hd_ok _ _ _ _ Hh) _ _ (hd_class _ _ _ _ Hh)) as [Hus _].
      destruct (Hus p Hp) as [_ (b & Hb & Hlb)]. exists b. split; [done|]. simpl. lia.
    + destruct (wk_fits _ _ _ _ _ Hw Hs _ _ Hy) as [Hf ?]. split; [|done].
      exact (walk_keeps_fits _ _ _ a a1 y r Hw (hd_keeps _ _ _ _ Hh) Hy Hf).
  - intros y u Hp Huy Hlt. apply lookup_insert_is_Some. destruct (decide (x = y)); [by left|right].
    split; [done|]. rewrite next_placed in Hp by done. destruct Hp as [-> |Hp]; [done|].
    by eapply wk_placed.
Qed.

(** ** A node in another's buffer *)

(** Only lives changed, and only to be longer. *)
Record longer (to : nat) (grown : list nat) (nds nds' : NodeAllocs) : Prop := {
  lg_alive : ∀ k d, na_buf_alive nds !! k = Some d → ∃ d', na_buf_alive nds' !! k = Some d' ∧
    d ≤ d' ∧ ∀ x r, x ∈ grown → na_node_to_buf nds !! x = Some r → key r = k → to ≤ d';
  lg_same : nds' = set_buf_alive (na_buf_alive nds') nds;
  lg_keys : ∀ k, is_Some (na_buf_alive nds' !! k) → is_Some (na_buf_alive nds !! k)
}.

Lemma extend_one_longer to x nds : longer to [x] nds (extend_one to nds x).
Proof.
  unfold extend_one. destruct (na_node_to_buf nds !! x) as [r|] eqn:Hx; split; simpl.
  - intros k d Hd. destruct (decide (k = key r)) as [-> |Hne].
    + exists (d `max` to). change (br_backend r, br_id r) with (key r).
      rewrite lookup_alter_eq, Hd. split; [done|]. split; [lia|]. intros; lia.
    + exists d. rewrite lookup_alter_ne by (intros <-; done). split; [done|]. split; [done|].
      intros y r' ->%list_elem_of_singleton Hy <-. congruence.
  - done.
  - intros k. rewrite lookup_alter_is_Some. done.
  - intros k d Hd. exists d. split; [done|]. split; [done|].
    intros y r' ->%list_elem_of_singleton. congruence.
  - by destruct nds.
  - done.
Qed.

Lemma extend_buffer_alive_longer to grown nds : longer to grown nds (extend_buffer_alive grown to nds).
Proof.
  unfold extend_buffer_alive. revert nds. induction grown as [|x grown IH]; intros nds; simpl.
  { split; [|by destruct nds|done]. intros k d Hd. exists d. split; [done|]. split; [done|].
    by intros x r ?%elem_of_nil. }
  destruct (extend_one_longer to x nds) as [H1 H2 H3].
  destruct (IH (extend_one to nds x)) as [H1' H2' H3']. split; [|by rewrite H2' at 1; rewrite H2|auto].
  intros k d Hd. destruct (H1 _ _ Hd) as (d1 & Hd1 & Hle1 & Hx).
  destruct (H1' _ _ Hd1) as (d2 & Hd2 & Hle2 & Hg2). exists d2. split; [done|]. split; [lia|].
  intros y r [-> |Hy]%elem_of_cons Hm Hk.
  - pose proof (Hx x r (proj2 (list_elem_of_singleton _ _) eq_refl) Hm Hk). lia.
  - eapply Hg2; [done| |done]. by rewrite H2.
Qed.

(** [r] is a window of the buffer of [p], a source of the node [i]. *)
Record aliases (i p : nat) (r : BufRef) (lu : nat) (l : list nat) a : Prop := {
  al_node : ∃ nd, node g i = Some nd ∧ p ∈ nd_src nd ∧
    ∀ v, nd_view nd = Some v → vw_src v = p;
  al_not_input : ¬ input_node g i;
  al_parent : ∃ rp, mapped a !! p = Some rp ∧ key r = key rp;
  al_shares : shares g i p;
  al_window : ∀ nd pn rp, node g i = Some nd → node g p = Some pn → mapped a !! p = Some rp →
    well_shaped g → kv_layer_of (nd_op pn) = None ∧
    (br_len rp = n_elements pn → br_len r = n_elements nd ∧
      br_offset r + br_len r ≤ br_offset rp + br_len rp);
  al_until : l !! i = Some lu
}.

(** A node on the chain of views above a live node is live. *)
Definition live_chain (i : nat) (l : list nat) a (x : nat) : Prop :=
  is_Some (mapped a !! x) ∧ ∃ u, l !! x = Some u ∧ i ≤ u.

Lemma live_chain_up i l a x nd v : walk l0 n i l a → live_chain i l a x →
  node g x = Some nd → nd_view nd = Some v → live_chain i l a (vw_src v).
Proof.
  intros Hw [Hm (u & Hu & Hle)] Hx Hv.
  destruct (wk_view _ _ _ _ _ Hw _ _ _ Hm Hx Hv) as [Hm' (u' & w & Hu' & Hv' & ?)].
  split; [done|]. exists w. split; [done|]. simplify_eq. lia.
Qed.

Lemma alias_live i p r lu l a : walk l0 n i l a → aliases i p r lu l a →
  live_chain i l a p ∧ p < n ∧ ∃ u, l0 !! p = Some u ∧ i ≤ u.
Proof.
  intros Hw [(nd & Hi & Hp & _) _ (rp & Hm & _) _ _].
  destruct (Hneeded p i) as (u & Hu & Hle); [left; eauto|].
  destruct (walk_uses _ _ _ _ _ _ Hw Hu) as (v & Hv & ?). split; [|split].
  - split; [by eexists|]. exists v. split; [done|lia].
  - change (p < n_nodes g). rewrite <-(proj1 Hl0). by eapply lookup_lt_Some.
  - eauto.
Qed.

Lemma walk_alias i p r lu l a : walk l0 n i l a → aliases i p r lu l a →
  triple (λ b, b = set_nodes (map_node i r (al_nodes a)) a) (extend g l p lu)
    (λ l' a', walk l0 n (1 + i) l' a').
Proof.
  intros Hw Ha b ->. destruct (alias_live _ _ _ _ _ _ Hw Ha) as (Hlive & Hpn & up & Hup & Hiup).
  destruct Ha as [(nd & Hi & Hp & Hv) Hni (rp & Hmp & Hk) Hsh Hwin Hlu].
  assert (next_node n i n (1 + i) i) as Hnext by (right; done).
  pose proof (next_unmapped _ _ _ _ _ _ _ Hnext Hw) as Hnm.
  destruct (extend_through_views_spec g Hg (live_chain i l a) (S (length l)) l p lu)
    as (l' & grown & He & [Hr Hg1 Hg2 Hg3 (w & Hw1 & Hw2)] & _).
  { intros x ndx v Hx Hndx Hvx. by eapply live_chain_up. }
  { apply Hw. } { done. } { rewrite (wk_len _ _ _ _ _ Hw). lia. } { done. }
  assert (i ∉ grown) as Hig by (intros [[[? ?] _] _]%Hg1; congruence).
  unfold extend, must, mbind, op_bind. rewrite He. simpl.
  set (nds := map_node i r (al_nodes a)).
  destruct (extend_buffer_alive_longer lu grown nds) as [Hla Hls Hlk].
  set (nds' := extend_buffer_alive grown lu nds) in *. clearbody nds'.
  assert (na_node_to_buf nds' = <[i := r]> (mapped a) ∧ na_buf_class nds' = classes a ∧
    na_slots nds' = na_slots (al_nodes a)) as (Hma & Hcl & Hsl) by by rewrite Hls. clear Hls.
  assert (∀ x s u, mapped a !! x = Some s → l' !! x = Some u → i ≤ u →
    kept (set_nodes nds' a) s u) as Hkept.
  { intros x s u Hx Hu Hle.
    assert (∃ v, l !! x = Some v ∧ i ≤ v ∧ (u = v ∨ u = lu ∧ x ∈ grown)) as (v & Hxv & Hiv & Huv).
    { destruct (decide (x ∈ grown)) as [Hgx|Hgx].
      - destruct (Hg1 _ Hgx) as [[_ (v & ? & ?)] ?]. exists v. split_and!; [done..|right; split; [congruence|done]].
      - rewrite Hg2 in Hu by done. eauto. }
    destruct (wk_kept _ _ _ _ _ Hw _ _ _ Hx Hxv Hiv) as [|(d & Hd & Hvd)]; [by left|right].
    destruct (Hla _ _ Hd) as (d' & Hd' & Hdd & Hgr). exists d'. split; [done|].
    destruct Huv as [-> |[-> Hgx]]; [lia|]. apply (Hgr x s); [done| |done].
    unfold nds. simpl. rewrite lookup_insert_ne; [done|]. by intros ->. }
  assert (∀ y s u, mapped a !! y = Some s → key s = key r → l0 !! y = Some u → i ≤ u →
    bound g y i) as Hbound.
  { intros y s u Hy Hks Hu Hle. trans p; [|by apply rtsc_rl].
    eapply walk_same_buffer; try done. congruence. }
  assert (bound g i p) as Hip by by apply rtsc_lr.
  split; simpl; rewrite ?Hma; try apply Hw.
  - pose proof (wk_ok _ _ _ _ _ Hw) as Hok.
    apply (retabled a); unfold idle; simpl; rewrite ?Hcl, ?Hsl; try apply Hok; [done|].
    intros k Hk'. by apply Hok, Hlk.
  - by rewrite <-(proj1 Hr), (wk_len _ _ _ _ _ Hw).
  - etrans; [apply Hw|done].
  - intros x s. rewrite (next_placed _ _ _ _ _ _ Hnext).
    intros [[<- _]|[_ Hx]]%lookup_insert_Some; [|split; [|right]; by eapply wk_dom].
    split; [by eapply node_lt|by left].
  - intros x s u [[<- <-]|[Hne Hx]]%lookup_insert_Some Hu Hle; [|eapply Hkept; [done..|lia]].
    rewrite Hg2, Hlu in Hu by done. injection Hu as ->. unfold kept. rewrite Hk.
    destruct (Hkept p rp w) as [|(d & Hd & ?)]; [done|done|lia|by left|right].
    exists d. split; [done|lia].
  - intros x ndx v Hx Hndx Hvx. rewrite !lookup_insert_is_Some.
    apply lookup_insert_is_Some in Hx as [<-|[Hne Hx]].
    + simplify_eq. rewrite (Hv _ Hvx). split; [|exists lu, w; by rewrite Hg2].
      destruct (decide (i = p)); [by left|right]. split; [done|by eexists].
    + destruct (wk_view _ _ _ _ _ Hw _ _ _ Hx Hndx Hvx) as [Hm' (u & w' & Hu & Hw' & Huw)].
      split; [destruct (decide (i = vw_src v)); auto|].
      destruct (proj2 Hr _ _ Hw') as (w2 & Hw2' & ?).
      destruct (decide (x ∈ grown)) as [Hgx|Hgx].
      * destruct (Hg3 _ _ _ Hgx Hndx Hvx) as (w3 & ? & ?). exists lu, w3.
        split_and!; [by apply Hg1|done..].
      * exists u, w2. rewrite Hg2 by done. split_and!; [done..|lia].
  - intros q x s Hq [[<- <-]|[_ Hx]]%lookup_insert_Some; [rewrite Hk|];
      by eapply (wk_held _ _ _ _ _ Hw).
  - intros x s m lay [[<- <-]|[_ Hx]]%lookup_insert_Some Hm Hks; [|by eapply wk_region].
    rewrite Hk in Hks. destruct (wk_region _ _ _ _ _ Hw _ _ _ _ Hmp Hm Hks) as (z & ndz & ? & ? & ?).
    exists z, ndz. split_and!; [done..|by trans p].
  - intros x y s s' u Hx Hy Hks Hniy Hlt Hu Hle.
    apply lookup_insert_Some in Hx as [[<- <-]|[Hnx Hx]];
      apply lookup_insert_Some in Hy as [[<- <-]|[Hny Hy]].
    + done.
    + destruct (wk_dom _ _ _ _ _ Hw _ _ Hy) as [_ [[? _]|[_ ?]]]; [done|].
      destruct Hlt as [|]; [lia|done].
    + by eapply Hbound.
    + by eapply wk_bound.
  - intros x y s s' [[<- <-]|[_ Hx]]%lookup_insert_Some [[<- <-]|[_ Hy]]%lookup_insert_Some; try done.
    by eapply wk_inputs.
  - intros Hs x s [[<- <-]|[_ Hx]]%lookup_insert_Some; [|exact (wk_fits _ _ _ _ _ Hw Hs x s Hx)].
    destruct (wk_fits _ _ _ _ _ Hw Hs _ _ Hmp) as [Hf (pn & Hpn' & Hlen)].
    destruct (Hwin _ _ _ Hi Hpn' Hmp Hs) as [Hkv Hwd]. destruct (Hwd (Hlen Hkv)) as [Hlr Hle].
    split; [|by exists nd]. intros q Hq. destruct (Hf q Hq) as (b & Hb & ?).
    unfold key in Hk. injection Hk as _ ->. exists b. split; [done|lia].
  - intros x u. rewrite (next_placed _ _ _ _ _ _ Hnext), lookup_insert_is_Some.
    intros [-> |Hx] Hu Hlt; [by left|]. destruct (decide (i = x)); [by left|right].
    split; [done|]. by eapply wk_placed.
Qed.

(** ** KV regions *)

(** A region that was not there is in no node's buffer. *)
Lemma ensured_region j i l a a' layer kr x r m lay : walk l0 j i l a → ensured a a' layer kr →
  mapped a !! x = Some r → layers a' !! m = Some lay →
  key r = key (lay_k lay) → layers a !! m = Some lay.
Proof.
  intros Hw He Hx Hm Hk. destruct (en_new _ _ _ _ He _ _ Hm) as [|Hnew]; [done|]. exfalso.
  destruct (po_pool _ (wk_ok _ _ _ _ _ Hw)) as (p & Hp & _).
  destruct (wk_held _ _ _ _ _ Hw _ _ _ Hp Hx) as [_ Hh]. destruct (Hnew p Hp) as [Hn1 _].
  unfold key in *. simplify_eq/=. congruence.
Qed.

Lemma walk_ensured j i l a a' layer kr : walk l0 j i l a → ensured a a' layer kr → walk l0 j i l a'.
Proof.
  intros Hw He. split; rewrite ?(en_nodes _ _ _ _ He); try apply Hw; [apply He|..].
  - intros x r u Hx Hu Hle. unfold kept. rewrite (en_nodes _ _ _ _ He).
    destruct (wk_kept _ _ _ _ _ Hw _ _ _ Hx Hu Hle) as [(m & lay & Hm & Hk)|]; [left|by right].
    exists m, lay. split; [|done]. by eapply en_old.
  - intros p x r Hp Hx. destruct (po_pool _ (wk_ok _ _ _ _ _ Hw)) as (q & Hq & _).
    destruct (wk_held _ _ _ _ _ Hw _ _ _ Hq Hx) as [Hb Hh]. split; [done|].
    destruct (en_keeps _ _ _ _ He q Hq) as (p' & Hp' & Hkeep). rewrite Hp in Hp'.
    injection Hp' as <-. by apply Hkeep.
  - intros x r m lay Hx Hm Hk. eapply wk_region; [done..| |done].
    by eapply (ensured_region _ _ _ a a').
  - intros Hs x r Hx. destruct (wk_fits _ _ _ _ _ Hw Hs _ _ Hx) as [Hf ?]. split; [|done].
    by eapply walk_keeps_fits; [..|done]; [|apply He|].
Qed.

(** Node [i] is the K region of its layer. *)
Lemma walk_kv i l a layer kr nd : walk l0 n i l a → pools_ok a →
  (∃ lay, layers a !! layer = Some lay ∧ lay_k lay = kr) →
  node g i = Some nd → kv_layer_of (nd_op nd) = Some layer → nd_view nd = None →
  walk l0 n (1 + i) l (set_nodes (map_node i kr (al_nodes a)) a).
Proof.
  intros Hw Hok (lay & Hlay & <-) Hi Hkv Hv.
  assert (¬ input_node g i) as Hni.
  { intros (nd' & Hi' & Hin). unfold is_input in Hin. simplify_eq. by destruct (nd_op nd). }
  assert (next_node n i n (1 + i) i) as Hnext by (right; done).
  assert (region a (key (lay_k lay))) as Hreg by (exists layer, lay; auto).
  assert (∀ x r, mapped a !! x = Some r → key r = key (lay_k lay) → bound g x i) as Hbound.
  { intros x r Hx Hk. destruct (wk_region _ _ _ _ _ Hw x r layer lay) as (z & ndz & Hz & Hzl & Hb);
      [done..|]. trans z; [done|]. apply rtsc_lr. by eapply sh_kv. }
  split; simpl; try apply Hw.
  - by apply (retabled a); try done; apply Hok.
  - intros x s. rewrite (next_placed _ _ _ _ _ _ Hnext).
    intros [[<- _]|[_ Hx]]%lookup_insert_Some; [|split; [|right]; by eapply wk_dom].
    split; [by eapply node_lt|by left].
  - intros x s u [[<- <-]|[Hne Hx]]%lookup_insert_Some Hu Hle; [by left|].
    eapply (wk_kept _ _ _ _ _ Hw); [done..|lia].
  - intros x ndx v Hx Hndx Hvx. rewrite lookup_insert_is_Some.
    apply lookup_insert_is_Some in Hx as [<-|[Hne Hx]]; [simplify_eq|].
    destruct (wk_view _ _ _ _ _ Hw _ _ _ Hx Hndx Hvx) as [Hm' ?].
    split; [|done]. destruct (decide (i = vw_src v)); auto.
  - intros q x s Hq [[<- <-]|[_ Hx]]%lookup_insert_Some; [by eapply po_region|].
    by eapply (wk_held _ _ _ _ _ Hw).
  - intros x s m lay' [[<- <-]|[_ Hx]]%lookup_insert_Some Hm Hks; [|by eapply wk_region].
    assert (layer = m) as <- by by eapply po_layers. exists i, nd. done.
  - intros x y s s' u Hx Hy Hks Hniy Hlt Hu Hle.
    apply lookup_insert_Some in Hx as [[<- <-]|[Hnx Hx]];
      apply lookup_insert_Some in Hy as [[<- <-]|[Hny Hy]].
    + done.
    + symmetry. by eapply Hbound.
    + by eapply Hbound.
    + by eapply wk_bound.
  - intros x y s s' [[<- <-]|[_ Hx]]%lookup_insert_Some [[<- <-]|[_ Hy]]%lookup_insert_Some; try done.
    by eapply wk_inputs.
  - intros Hs x s [[<- <-]|[_ Hx]]%lookup_insert_Some; [|exact (wk_fits _ _ _ _ _ Hw Hs x s Hx)].
    split; [exact (po_fits a Hok _ _ Hlay)|]. exists nd. split; [done|]. congruence.
  - intros x u. rewrite (next_placed _ _ _ _ _ _ Hnext), lookup_insert_is_Some.
    intros [-> |Hx] Hu Hlt; [by left|]. destruct (decide (i = x)); [by left|right].
    split; [done|]. by eapply wk_placed.
Qed.
End walk.
