(* ===== verification/TopoFacts.v ===== *)
(** * [topo_order] orders exactly the acyclic graphs

    The queue of [topo_loop] holds the nodes all of whose sources were taken
    from it, and [indeg] counts the others; what is left when it runs dry is
    a set of nodes each waiting for one of the set. *)
From stdpp Require Import base numbers list gmap option fin_sets.
From S2P Require Import Prelude Graph AllocLive.
(* [naive_solver] and [set_solver] clear hypotheses that are gone already. *)
#[local] Set Warnings "-clear-no-such-hyp".

Abbreviation srcs nd := (list_to_set (nd_src nd) : gset nat).

(** Sources and ids in range, as a [Vec] of nodes has them. *)
Record in_range (g : ComputeGraph) : Prop := {
  ir_id : ∀ i nd, node g i = Some nd → nd_id nd = i;
  ir_src : ∀ i nd s, node g i = Some nd → s ∈ nd_src nd → s < n_nodes g;
  ir_len : (N.of_nat (n_nodes g) < 2 ^ 64)%N
}.

(** A node comes after each of its sources. *)
Definition sources_before (g : ComputeGraph) (order : list nat) : Prop :=
  ∀ k i nd s, order !! k = Some i → node g i = Some nd → s ∈ nd_src nd → s ∈ take k order.

Definition less_one (d : N) : N := ((d + 2 ^ 64 - 1) mod 2 ^ 64)%N.

Lemma less_one_spec d : (0 < d < 2 ^ 64)%N → less_one d = (d - 1)%N.
Proof.
  intros Hd. unfold less_one. replace (d + 2 ^ 64 - 1)%N with (d - 1 + 1 * 2 ^ 64)%N by lia.
  rewrite N.Div0.mod_add. apply N.mod_small. lia.
Qed.

Lemma release_spec u v nodes indeg queue : v + length nodes ≤ length indeg →
  ∃ indeg' news, release u v nodes indeg queue = (indeg', queue ++ news) ∧
    length indeg' = length indeg ∧
    (∀ w, w < v → indeg' !! w = indeg !! w) ∧
    (∀ k nd d, nodes !! k = Some nd → indeg !! (v + k) = Some d →
       indeg' !! (v + k) = Some (if decide (u ∈ nd_src nd) then less_one d else d)) ∧
    NoDup news ∧
    (∀ w, w ∈ news ↔ ∃ k nd d, w = v + k ∧ nodes !! k = Some nd ∧ indeg !! w = Some d ∧
       u ∈ nd_src nd ∧ less_one d = 0%N).
Proof.
  revert v indeg queue. induction nodes as [|nd nodes IH]; intros v indeg queue Hl; simpl in *.
  { exists indeg, []. rewrite app_nil_r. split_and!; [done..|constructor|].
    intros w. rewrite elem_of_nil. naive_solver. }
  destruct (lookup_lt_is_Some_2 indeg v) as [d0 Hd0]; [lia|]. rewrite Hd0. simpl.
  fold (less_one d0). set (d1 := if decide (u ∈ nd_src nd) then less_one d0 else d0).
  set (add := if decide (u ∈ nd_src nd) then if decide (less_one d0 = 0%N) then [v] else [] else []).
  destruct (IH (S v) (<[v := d1]> indeg) (queue ++ add))
    as (indeg' & news & Heq & Hlen & Hlow & Hup & Hnd & Hin).
  { rewrite length_insert. lia. }
  assert (indeg' !! v = Some d1) as Hv.
  { rewrite Hlow by lia. apply list_lookup_insert_eq. by eapply lookup_lt_Some. }
  exists indeg', (add ++ news). rewrite length_insert in Hlen.
  assert (v ∉ news) as Hvn by (intros (k & ? & ? & ? & _)%Hin; lia).
  split_and!.
  - rewrite app_assoc, <-Heq. unfold add, d1. destruct (decide (u ∈ nd_src nd)); [|].
    + destruct (decide (less_one d0 = 0%N)) as [->|Hne]; [by rewrite N.eqb_refl|].
      rewrite app_nil_r. by rewrite (proj2 (N.eqb_neq _ _)).
    + rewrite app_nil_r. by rewrite list_insert_id.
  - done.
  - intros w Hw. rewrite Hlow by lia. by rewrite list_lookup_insert_ne by lia.
  - intros [|k] nd' d Hk Hd; simplify_eq/=.
    + rewrite Nat.add_0_r in Hd |- *. simplify_eq. done.
    + rewrite <-Nat.add_succ_comm in Hd |- *. apply Hup; [done|].
      by rewrite list_lookup_insert_ne by lia.
  - apply list.NoDup_app. split_and!; [unfold add; repeat case_decide; repeat constructor; set_solver| |done].
    intros x Hx. unfold add in Hx. repeat case_decide; set_solver.
  - intros w. rewrite elem_of_app, Hin. split.
    + intros [Hw|(k & nd' & d & -> & Hk & Hd & Hu & Hz)].
      * exists 0, nd, d0. unfold add in Hw. rewrite Nat.add_0_r.
        repeat case_decide; try set_solver.
      * exists (S k), nd', d. rewrite list_lookup_insert_ne in Hd by lia.
        rewrite <-Nat.add_succ_comm. done.
    + intros ([|k] & nd' & d & -> & Hk & Hd & Hu & Hz); simplify_eq/=.
      * left. rewrite Nat.add_0_r in *. simplify_eq. unfold add. rewrite !decide_True by done. by left.
      * right. exists k, nd', d. rewrite list_lookup_insert_ne by lia.
        rewrite <-Nat.add_succ_comm in Hd |- *. done.
Qed.

Lemma size_cons (X : gset nat) s : s ∉ X → size ({[s]} ∪ X) = 1 + size X.
Proof. intros Hs. rewrite size_union by set_solver. by rewrite size_singleton. Qed.

Lemma first_of_rest (before l : list nat) s : s ∉ before →
  size ((list_to_set (before ++ s :: l) : gset nat) ∖ list_to_set before) =
  1 + size ((list_to_set (before ++ s :: l) : gset nat) ∖ list_to_set (before ++ [s])).
Proof.
  intros Hs. rewrite <-(size_cons _ s) by set_solver. f_equal. apply set_eq. intros x.
  rewrite elem_of_union, !elem_of_difference, elem_of_singleton, !elem_of_list_to_set.
  rewrite !elem_of_app, elem_of_cons, list_elem_of_singleton.
  destruct (decide (x = s)) as [-> |]; naive_solver.
Qed.

Lemma count_srcs_spec n id before l indeg d : (∀ s, s ∈ l → s < n) →
  indeg !! id = Some d →
  count_srcs n id before l indeg = Ok (<[id := (d + N.of_nat (size ((list_to_set (before ++ l) : gset nat)
    ∖ list_to_set before)))%N]> indeg).
Proof.
  revert before indeg d. induction l as [|s l IH]; intros before indeg d Hl Hd; simpl.
  - rewrite app_nil_r, difference_diag_L, size_empty. rewrite N.add_0_r. by rewrite list_insert_id.
  - destruct (Nat.leb_spec n s) as [Hle|_]; [specialize (Hl s ltac:(by left)); lia|].
    assert (∀ s', s' ∈ l → s' < n) as Hl' by (intros; apply Hl; by right).
    pose proof (lookup_lt_Some _ _ _ Hd) as Hlt.
    set (all := list_to_set (before ++ s :: l) : gset nat).
    assert (list_to_set ((before ++ [s]) ++ l) = all) as Hall by (unfold all; set_solver).
    destruct (decide (s ∈ before)) as [Hin|Hin].
    + rewrite (IH (before ++ [s]) indeg d Hl' Hd), Hall.
      replace (list_to_set (before ++ [s]) : gset nat) with (list_to_set before : gset nat)
        by set_solver. done.
    + assert (alter (λ d, (d + 1)%N) id indeg !! id = Some (d + 1)%N) as Hd'
        by by rewrite list_lookup_alter_eq, Hd.
      rewrite (IH (before ++ [s]) _ _ Hl' Hd').
      f_equal. rewrite Hall. apply list_eq. intros x. destruct (decide (x = id)) as [-> |].
      * rewrite (list_lookup_insert_eq indeg) by done.
        rewrite list_lookup_insert_eq by by rewrite length_alter. f_equal.
        pose proof (first_of_rest before l s Hin). unfold all. lia.
      * rewrite !list_lookup_insert_ne by done. by rewrite list_lookup_alter_ne.
Qed.

Lemma size_waiting (X D : gset nat) u : u ∉ D →
  size (X ∖ D) = if decide (u ∈ X) then 1 + size (X ∖ (D ∪ {[u]})) else size (X ∖ (D ∪ {[u]})).
Proof.
  intros Hu. case_decide as Hx.
  - rewrite <-(size_cons _ u) by set_solver. f_equal. apply set_eq. intros x.
    rewrite elem_of_union, !elem_of_difference, elem_of_union, !elem_of_singleton.
    destruct (decide (x = u)) as [-> |]; naive_solver.
  - f_equal. set_solver.
Qed.

Lemma size_none_waiting (X D : gset nat) : size (X ∖ D) = 0 ↔ X ⊆ D.
Proof.
  split.
  - intros H%size_empty_inv x Hx. destruct (decide (x ∈ D)); [done|]. set_solver.
  - intros H. apply size_empty_iff. set_solver.
Qed.

Section topo.
Context (g : ComputeGraph) (Hg : in_range g).
Let n := n_nodes g.

Lemma count_nodes_spec : ∃ indeg, count_nodes n (g_nodes g) (replicate n 0%N) = Ok indeg ∧
  length indeg = n ∧ ∀ i nd, node g i = Some nd → indeg !! i = Some (N.of_nat (size (srcs nd))).
Proof.
  assert (∀ nodes k indeg, nodes = drop k (g_nodes g) → length indeg = n →
    (∀ i, k ≤ i → i < n → indeg !! i = Some 0%N) →
    (∀ i nd, i < k → node g i = Some nd → indeg !! i = Some (N.of_nat (size (srcs nd)))) →
    ∃ indeg', count_nodes n nodes indeg = Ok indeg' ∧ length indeg' = n ∧
      ∀ i nd, node g i = Some nd → indeg' !! i = Some (N.of_nat (size (srcs nd)))) as H.
  { induction nodes as [|nd nodes IH]; intros k indeg Hn Hl H0 H1; simpl.
    - exists indeg. split_and!; [done..|]. intros i nd Hi. apply H1; [|done].
      destruct (decide (i < k)) as [|Hk]; [done|]. exfalso.
      assert (drop k (g_nodes g) !! (i - k) = Some nd) as Hd.
      { rewrite lookup_drop. by replace (k + (i - k)) with i by lia. }
      by rewrite <-Hn in Hd.
    - assert (node g k = Some nd) as Hk.
      { unfold node. rewrite <-(Nat.add_0_r k), <-lookup_drop, <-Hn. done. }
      pose proof (lookup_lt_Some _ _ _ Hk) as Hlt. change (k < n) in Hlt.
      rewrite (ir_id _ Hg _ _ Hk). rewrite (proj2 (Nat.leb_gt _ _)) by lia.
      rewrite (count_srcs_spec n k [] (nd_src nd) indeg 0%N);
        [|intros s Hs; by eapply ir_src|by apply H0].
      simpl. rewrite N.add_0_l. apply (IH (S k)).
      + rewrite <-Nat.add_1_r, <-drop_drop, <-Hn. done.
      + by rewrite length_insert.
      + intros i Hi Hin. rewrite list_lookup_insert_ne by lia. apply H0; lia.
      + intros i nd' Hi Hnd'. destruct (decide (i = k)) as [-> |].
        * simplify_eq. rewrite list_lookup_insert_eq by lia. do 2 f_equal.
          f_equal. set_solver.
        * rewrite list_lookup_insert_ne by done. apply H1; [lia|done]. }
  apply (H (g_nodes g) 0); [done|apply length_replicate| |lia].
  intros i _ Hi. by apply lookup_replicate_2.
Qed.

(** The first [qi] of [queue] were taken; [indeg] counts the sources of each
    node that were not. *)
Record queued (qi : nat) (indeg : list N) (queue : list nat) : Prop := {
  q_len : length indeg = n;
  q_nodup : NoDup queue;
  q_le : qi ≤ length queue;
  q_in : ∀ w, w ∈ queue → w < n;
  q_count : ∀ w nd, node g w = Some nd →
    indeg !! w = Some (N.of_nat (size (srcs nd ∖ list_to_set (take qi queue))));
  q_ready : ∀ w nd, node g w = Some nd → w ∈ queue ↔ srcs nd ⊆ list_to_set (take qi queue);
  q_order : sources_before g queue
}.

Lemma queue_length qi indeg queue : queued qi indeg queue → length queue ≤ n.
Proof.
  intros Hq. rewrite <-(length_seq n 0). apply submseteq_length, NoDup_submseteq; [apply Hq|].
  intros x Hx. apply elem_of_seq. pose proof (q_in _ _ _ Hq _ Hx). lia.
Qed.

Lemma size_srcs w nd (D : gset nat) : node g w = Some nd →
  (N.of_nat (size (srcs nd ∖ D)) < 2 ^ 64)%N.
Proof.
  intros Hw. assert (size (srcs nd ∖ D) ≤ n).
  { assert (size (list_to_set (seq 0 n) : gset nat) = n) as <-.
    { rewrite size_list_to_set by apply NoDup_seq. apply length_seq. }
    apply subseteq_size. intros x [Hx _]%elem_of_difference. apply elem_of_list_to_set in Hx.
    apply elem_of_list_to_set, elem_of_seq. pose proof (ir_src _ Hg _ _ _ Hw Hx).
    change (x < n) in H. lia. }
  pose proof (ir_len _ Hg) as Hlen. change (N.of_nat n < 2 ^ 64)%N in Hlen. lia.
Qed.

Lemma queued_start indeg : length indeg = n →
  (∀ i nd, node g i = Some nd → indeg !! i = Some (N.of_nat (size (srcs nd)))) →
  queued 0 indeg (sources_first indeg).
Proof.
  intros Hl Hc. unfold sources_first. rewrite Hl.
  assert (∀ w, w ∈ filter (λ i, indeg !! i = Some 0%N) (seq 0 n) ↔ indeg !! w = Some 0%N ∧ w < n) as Hin.
  { intros w. rewrite list_elem_of_filter, elem_of_seq. naive_solver lia. }
  assert (∀ w nd, node g w = Some nd → indeg !! w = Some 0%N ↔ srcs nd ⊆ list_to_set []) as Hz.
  { intros w nd Hw. rewrite (Hc _ _ Hw), <-size_none_waiting. simpl. rewrite difference_empty_L.
    split; [intros [= H]; lia|by intros ->]. }
  split; simpl; try done.
  - apply list.NoDup_filter, NoDup_seq.
  - lia.
  - by intros w [_ ?]%Hin.
  - intros w nd Hw. by rewrite difference_empty_L, (Hc _ _ Hw).
  - intros w nd Hw. rewrite Hin, (Hz _ _ Hw). split; [naive_solver|].
    split; [done|]. by apply lookup_lt_Some in Hw.
  - intros k i nd s Hk%list_elem_of_lookup_2 Hi Hs. apply Hin in Hk as [Hk _].
    rewrite (Hz _ _ Hi) in Hk. simpl in Hk. set_solver.
Qed.

Lemma queued_step qi indeg queue u : queued qi indeg queue → queue !! qi = Some u →
  let '(indeg', queue') := release u 0 (g_nodes g) indeg queue in queued (S qi) indeg' queue'.
Proof.
  intros Hq Hu. pose proof (lookup_lt_Some _ _ _ Hu) as Hlt.
  assert (u ∉ take qi queue) as Hut.
  { pose proof (q_nodup _ _ _ Hq) as Hnd. rewrite <-(take_drop_middle _ _ _ Hu) in Hnd.
    apply list.NoDup_app in Hnd as (_ & Hnd & _). intros H. apply (Hnd _ H). by left. }
  set (D := list_to_set (take qi queue) : gset nat).
  assert (u ∉ D) as HuD by (unfold D; set_solver).
  assert (∀ news, list_to_set (take (S qi) (queue ++ news)) = D ∪ {[u]}) as HD.
  { intros news. rewrite take_app_le by lia. rewrite (take_S_r _ _ _ Hu). unfold D. set_solver. }
  destruct (release_spec u 0 (g_nodes g) indeg queue) as
    (indeg' & news & -> & Hl & _ & Hd & Hnd & Hin); [by rewrite (q_len _ _ _ Hq)|].
  assert (∀ w nd, node g w = Some nd → w ∈ news ↔ u ∈ nd_src nd ∧ srcs nd ⊆ D ∪ {[u]}) as Hnews.
  { intros w nd Hw. rewrite Hin, <-size_none_waiting.
    pose proof (size_waiting (srcs nd) D u HuD) as Hsz.
    pose proof (size_srcs w nd D Hw) as Hb. fold D in Hb. split.
    - intros (k & nd' & d & -> & Hk & Hdk & Hus & Hz). simpl in Hdk.
      assert (nd' = nd) as -> by (unfold node in Hw; simpl in Hw; congruence).
      pose proof (q_count _ _ _ Hq _ _ Hw) as Hqc. simpl in Hqc. rewrite Hqc in Hdk.
      fold D in Hdk. injection Hdk as <-.
      rewrite decide_True in Hsz by set_solver. rewrite less_one_spec in Hz by lia.
      split; [done|lia].
    - intros [Hus Hz]. exists w, nd, (N.of_nat (size (srcs nd ∖ D))).
      rewrite decide_True in Hsz by set_solver.
      split_and!; [done|done|by apply (q_count _ _ _ Hq)|done|].
      rewrite less_one_spec by lia. lia. }
  split.
  - by rewrite Hl, (q_len _ _ _ Hq).
  - apply list.NoDup_app. split_and!; [apply Hq| |done].
    intros w Hw Hwn. pose proof (q_in _ _ _ Hq _ Hw) as Hwlt.
    destruct (lookup_lt_is_Some_2 (g_nodes g) w Hwlt) as [nd Hnw].
    apply (q_ready _ _ _ Hq _ _ Hnw) in Hw. apply (Hnews _ _ Hnw) in Hwn as [Hus _].
    apply HuD, Hw. set_solver.
  - rewrite length_app. lia.
  - intros w [Hw|Hw]%elem_of_app; [by eapply q_in|].
    apply Hin in Hw as (k & ? & ? & -> & Hk & _). by apply lookup_lt_Some in Hk.
  - intros w nd Hw. rewrite HD.
    pose proof (Hd w nd _ Hw (q_count _ _ _ Hq _ _ Hw)) as Hdw. simpl in Hdw. rewrite Hdw. f_equal.
    fold D.
    pose proof (size_waiting (srcs nd) D u HuD) as Hsz.
    pose proof (size_srcs w nd D Hw) as Hb.
    destruct (decide (u ∈ nd_src nd)); [rewrite decide_True in Hsz by set_solver|
      rewrite decide_False in Hsz by set_solver; by rewrite Hsz].
    rewrite less_one_spec by lia. lia.
  - intros w nd Hw. rewrite HD, elem_of_app, (q_ready _ _ _ Hq _ _ Hw), (Hnews _ _ Hw). fold D.
    destruct (decide (u ∈ nd_src nd)); [|set_solver]. split; [set_solver|]. by right.
  - intros k w nd s Hk Hw Hs. apply lookup_app_Some in Hk as [Hk|[Hge Hk]].
    + pose proof (lookup_lt_Some _ _ _ Hk). rewrite take_app_le by lia.
      by eapply q_order.
    + apply list_elem_of_lookup_2, (Hnews _ _ Hw) in Hk as [_ Hsub].
      assert (s ∈ (list_to_set (take (S qi) (queue ++ news)) : gset nat)) as Hs'.
      { rewrite HD. apply Hsub. set_solver. }
      apply elem_of_list_to_set in Hs'. rewrite take_app_le in Hs' by lia.
      rewrite take_app_ge by lia. apply elem_of_app. left.
      apply list_elem_of_lookup in Hs' as [j Hj]. apply lookup_take_Some in Hj as [Hj _].
      by eapply list_elem_of_lookup_2.
Qed.

Lemma topo_loop_ends fuel qi indeg queue : queued qi indeg queue → n ≤ fuel + qi →
  ∃ order indeg', topo_loop fuel qi (g_nodes g) indeg queue = Some order ∧
    queued (length order) indeg' order.
Proof.
  revert qi indeg queue. induction fuel as [|fuel IH]; intros qi indeg queue Hq Hf; simpl.
  - pose proof (queue_length _ _ _ Hq). pose proof (q_le _ _ _ Hq).
    rewrite lookup_ge_None_2 by lia. exists queue, indeg. split; [done|].
    by replace (length queue) with qi by lia.
  - destruct (queue !! qi) as [u|] eqn:Hu.
    + pose proof (queued_step _ _ _ _ Hq Hu) as Hs.
      destruct (release u 0 (g_nodes g) indeg queue) as [indeg' queue'].
      apply (IH (S qi) indeg'); [done|lia].
    + apply lookup_ge_None_1 in Hu. pose proof (q_le _ _ _ Hq). exists queue, indeg.
      split; [done|]. by replace (length queue) with qi by lia.
Qed.

(** What the queue never held. *)
Definition waiting (c : list nat) : Prop :=
  (∃ x, x ∈ c) ∧ ∀ y, y ∈ c → ∃ nd s, node g y = Some nd ∧ s ∈ nd_src nd ∧ s ∈ c.

Lemma never_queued indeg queue : queued (length queue) indeg queue → length queue ≠ n →
  waiting (filter (λ x, x ∉ queue) (seq 0 n)).
Proof.
  intros Hq Hne.
  assert (∀ x, x ∈ filter (λ x, x ∉ queue) (seq 0 n) ↔ (x ∉ queue) ∧ x < n) as Hin.
  { intros x. rewrite list_elem_of_filter, elem_of_seq. naive_solver lia. }
  unfold waiting. setoid_rewrite Hin. split.
  - destruct (filter (λ x, x ∉ queue) (seq 0 n)) as [|x l] eqn:Hf.
    + exfalso. apply Hne. pose proof (queue_length _ _ _ Hq).
      assert (length (seq 0 n) ≤ length queue); [|rewrite length_seq in *; lia].
      apply submseteq_length, NoDup_submseteq; [apply NoDup_seq|]. intros x Hx.
      destruct (decide (x ∈ queue)) as [|Hx']; [done|]. exfalso.
      apply (not_elem_of_nil x), Hin. split; [done|]. apply elem_of_seq in Hx. lia.
    + exists x. apply Hin. by left.
  - intros y [Hy Hyn]. destruct (lookup_lt_is_Some_2 (g_nodes g) y Hyn) as [nd Hnd].
    change (node g y = Some nd) in Hnd. pose proof (q_ready _ _ _ Hq _ _ Hnd) as Hr.
    rewrite firstn_all in Hr.
    assert (¬ (∀ s, s ∈ nd_src nd → s ∈ queue)) as Hns by (intros H; apply Hy, Hr; set_solver).
    destruct (list_find (λ s, s ∉ queue) (nd_src nd)) as [[k s]|] eqn:Hs.
    + apply list_find_Some in Hs as (Hs & Hsq & _). apply list_elem_of_lookup_2 in Hs.
      exists nd, s. split_and!; [done..|]. by eapply ir_src.
    + apply list_find_None in Hs. rewrite list.Forall_forall in Hs. destruct Hns.
      intros s Hs'. destruct (decide (s ∈ queue)) as [|Hn]; [done|]. by destruct (Hs _ Hs').
Qed.

Lemma topo_order_in_range : match topo_order g with
  | Ok order => order ≡ₚ seq 0 n ∧ sources_before g order
  | Err e => ∃ k c, e = Cycle k n ∧ k + length c = n ∧ waiting c
  | Panic => False
  end.
Proof.
  unfold topo_order. cbv zeta. destruct count_nodes_spec as (indeg & Hc & Hl & Hi).
  change (n_nodes g) with n. rewrite Hc. cbn [mbind res_bind].
  destruct (topo_loop_ends n 0 indeg (sources_first indeg)) as (order & indeg' & -> & Hq);
    [by apply queued_start|lia|]. simpl.
  pose proof (q_nodup _ _ _ Hq) as Hnd.
  case_decide as Hlen.
  - split; [|apply Hq]. apply submseteq_length_Permutation; [|rewrite length_seq; lia].
    apply NoDup_submseteq; [done|]. intros x Hx%(q_in _ _ _ Hq). apply elem_of_seq. lia.
  - exists (length order), (filter (λ x, x ∉ order) (seq 0 n)). split_and!; [done| |by eapply never_queued].
    rewrite <-(length_seq n 0) at 2. rewrite <-length_app. apply Permutation_length.
    apply NoDup_Permutation.
    + apply list.NoDup_app. split_and!; [done| |apply list.NoDup_filter, NoDup_seq].
      intros x Hx [Hx' _]%list_elem_of_filter. done.
    + apply NoDup_seq.
    + intros x. rewrite elem_of_app, list_elem_of_filter, elem_of_seq.
      split; [intros [Hx%(q_in _ _ _ Hq)|[_ Hx]]; [lia|done]|].
      destruct (decide (x ∈ order)); [by left|by right].
Qed.
End topo.

(** A source out of range is what the first pass finds. *)
Lemma count_srcs_res n id before l indeg :
  match count_srcs n id before l indeg with
  | Ok _ => ∀ s, s ∈ l → s < n
  | Err e => ∃ s, s ∈ l ∧ n ≤ s ∧ e = SrcRange id s
  | Panic => False
  end.
Proof.
  revert before indeg. induction l as [|s l IH]; intros before indeg; simpl.
  { intros s Hs. by apply elem_of_nil in Hs. }
  destruct (Nat.leb_spec n s); [exists s; split; [by left|done]|].
  specialize (IH (before ++ [s]) (if decide (s ∈ before) then indeg else alter (λ d, (d + 1)%N) id indeg)).
  destruct (count_srcs _ _ _ _ _) as [?|e|]; [|naive_solver by right|done].
  intros x [-> |Hx]%elem_of_cons; [done|auto].
Qed.

Lemma count_nodes_res n nodes indeg : (∀ nd, nd ∈ nodes → nd_id nd < n) →
  match count_nodes n nodes indeg with
  | Ok _ => ∀ nd s, nd ∈ nodes → s ∈ nd_src nd → s < n
  | Err e => ∃ nd s, nd ∈ nodes ∧ s ∈ nd_src nd ∧ n ≤ s ∧ e = SrcRange (nd_id nd) s
  | Panic => False
  end.
Proof.
  revert indeg. induction nodes as [|nd nodes IH]; intros indeg Hid; simpl.
  { intros nd s Hs. by apply elem_of_nil in Hs. }
  rewrite (proj2 (Nat.leb_gt _ _)) by (apply Hid; by left).
  pose proof (count_srcs_res n (nd_id nd) [] (nd_src nd) indeg) as Hs.
  destruct (count_srcs _ _ _ _ _) as [indeg'|e|]; simpl; [|..|done].
  - specialize (IH indeg' ltac:(intros; apply Hid; by right)).
    destruct (count_nodes _ _ _) as [?|e|]; [| |done].
    + intros x s [-> |Hx]%elem_of_cons; [by apply Hs|by apply IH].
    + destruct IH as (x & s & ? & ?). exists x, s. split; [by right|done].
  - destruct Hs as (s & ? & ? & ->). exists nd, s. split; [by left|done].
Qed.

Lemma topo_order_acyclic g (rank : nat → nat) : in_range g →
  (∀ i nd s, node g i = Some nd → s ∈ nd_src nd → rank s < rank i) →
  ∃ order, topo_order g = Ok order.
Proof.
  intros Hg Hr. pose proof (topo_order_in_range g Hg) as H.
  destruct (topo_order g) as [order|e|]; [by exists order| |done]. exfalso.
  destruct H as (k & c & _ & _ & (x & Hx) & Hc).
  assert (∀ r x, rank x = r → x ∉ c) as H; [|by eapply H].
  intros r. induction (lt_wf r) as [r _ IH]. intros y <- Hy.
  destruct (Hc y Hy) as (nd & s & Hnd & Hs & Hsc). by eapply (IH (rank s)); [eapply Hr|..].
Qed.
