(* ===== verification/AllocPlace.v ===== *)
(** * Every placement keeps the walk's invariant

    One lemma per operation of the walk, and [alloc_graph_walk]: a graph that
    is placed leaves [walk] at its end, and nothing panics. *)
From stdpp Require Import base numbers list gmap option relations.
From S2P Require Import Prelude KvCache KvArena Backend Graph Allocator AllocFacts AllocLive AllocWalk TopoFacts.

Section place.
Context {W P : Type} `{!CellPool W P, !BufferPool W P, !BufferPoolLaws W P}.
Context (device_memory : DeviceMemory) (g : ComputeGraph) (Hg : well_built g).
Implicit Types (a : GraphAllocator P).
Let n := n_nodes g.

Context (l0 : list nat) (Hl0 : uses_ok g l0)
  (Hneeded : ∀ x r, needed_at g x r → ∃ u, l0 !! x = Some u ∧ r ≤ u)
  (Hinputs : ∀ x, input_node g x → l0 !! x = Some n).

Abbreviation walk := (walk g l0).

Lemma triple_own j i j' i' x l size until : next_node g j i j' i' x → x < n →
  l !! x = Some until →
  (∃ nd, node g x = Some nd ∧ nd_view nd = None ∧ size = n_elements nd) →
  triple (walk j i l)
    (pid ← alloc_in_pool device_memory CPU size;
     modify_nodes (owned x pid size until))
    (λ _ : unit, walk j' i' l).
Proof.
  intros Hn Hx Hu Hv a Hw. unfold mbind, op_bind.
  pose proof (alloc_in_pool_handed device_memory a size (wk_ok _ _ _ _ _ _ Hw)) as Hh.
  destruct (alloc_in_pool _ _ _ a) as [[id|e|] a1]; [|subst; apply Hw|done].
  simpl. eapply walk_own; try done. apply class_size_ge.
Qed.

Lemma node_here i nd : node g i = Some nd → i < n ∧ ∀ l : list nat, length l = n → ∃ u, l !! i = Some u.
Proof.
  intros Hi%lookup_lt_Some. split; [done|]. intros l Hl. apply lookup_lt_is_Some_2. by rewrite Hl.
Qed.

Lemma input_is i nd : node g i = Some nd → input_node g i ↔ is_input nd = true.
Proof. intros Hi. unfold input_node. split; [intros (? & ? & ?); congruence|eauto]. Qed.

Lemma triple_input j nd (s : unit) : node g j = Some nd →
  triple (walk j 0 l0) (place_input device_memory l0 nd) (λ _, walk (1 + j) 0 l0).
Proof.
  intros Hj. destruct (node_here _ _ Hj) as [Hjn Hl]. destruct (Hl l0) as [u Hu]; [apply Hl0|].
  unfold place_input. rewrite (wb_cpu _ Hg _ _ Hj), (wb_id _ Hg _ _ Hj).
  destruct (is_input nd) eqn:Hin; simpl.
  - assert (next_node g j 0 (1 + j) 0 j) as Hnext.
    { left. split_and!; try done. by apply (input_is _ _ Hj). }
    pose proof (triple_own j 0 (1 + j) 0 j l0 (n_elements nd) u Hnext Hjn Hu) as H.
    rewrite Hu. apply H. exists nd. split_and!; [done| |done]. destruct (nd_view nd) eqn:Hv; [|done].
    pose proof (wb_view _ Hg _ _ _ Hj Hv) as Hs. rewrite (wb_input _ Hg _ _ Hj) in Hs by done.
    by apply elem_of_nil in Hs.
  - apply triple_ret. intros a Hw. split; try apply Hw.
    + intros x r Hx. destruct (wk_dom _ _ _ _ _ _ Hw _ _ Hx) as [? [[? ?]|?]];
        (split; [done|]); [left; split; [done|lia]|by right].
    + intros x v Hp. apply (wk_placed _ _ _ _ _ _ Hw). destruct Hp as [[Hix Hx]|?]; [left|by right].
      split; [done|]. destruct (decide (x = j)) as [-> |]; [|lia].
      apply (input_is _ _ Hj) in Hix. congruence.
Qed.

Lemma triple_must {E A B} Pre (o : option A) x (f : A → op (P:=P) E B) Post :
  o = Some x → triple Pre (f x) Post → triple Pre (must o ≫= f) Post.
Proof. intros -> Hf a Ha. by apply Hf. Qed.

(** The node of step [i], not an input. *)
Record at_step (i : nat) (nd : CNode) : Prop := {
  as_node : node g i = Some nd;
  as_input : is_input nd = false
}.

Lemma at_step_not_input i nd : at_step i nd → ¬ input_node g i.
Proof. intros [Hi Hn] H. apply (input_is _ _ Hi) in H. congruence. Qed.

Lemma at_step_next i nd : at_step i nd → next_node g n i n (1 + i) i.
Proof. intros H. right. split; [by eapply at_step_not_input|done]. Qed.

Lemma dead_skips i l u v a : walk n i l a → l !! i = Some u → u ≤ i → l0 !! i = Some v → v ≤ i.
Proof.
  intros Hw Hu Hle Hv. destruct (walk_uses _ _ _ _ _ _ _ _ Hw Hv) as (w & ? & ?). simplify_eq. lia.
Qed.

Lemma triple_place_own i nd l : at_step i nd → nd_view nd = None → length l = n →
  triple (walk n i l) (place_own device_memory i nd l) (λ _, walk n (1 + i) l).
Proof.
  intros Hat Hv Hl. pose proof (as_node _ _ Hat) as Hi. destruct (node_here _ _ Hi) as [Hin Hu].
  destruct (Hu l Hl) as [u Hlu]. unfold place_own. eapply triple_must; [done|].
  destruct (Nat.ltb_spec i u) as [Hlt|Hge].
  - unfold own_buffer. rewrite (wb_cpu _ Hg _ _ Hi).
    apply (triple_own n i n (1 + i) i l (n_elements nd) u); try done; [by eapply at_step_next|].
    by exists nd.
  - apply triple_ret. intros a Hw. eapply walk_skip; [done|]. right. intros v. by eapply dead_skips.
Qed.

Lemma triple_ensure_kv layer n_embd words n_ctx i l :
  triple (walk n i l) (ensure_kv layer CPU n_embd words n_ctx)
    (λ kv a, walk n i l a ∧ ∃ lay, kv_layers (ga_kv (al_arena a)) !! layer = Some lay ∧ lay_k lay = kv.1).
Proof.
  intros a Hw. pose proof (ensure_kv_ensured layer n_embd words n_ctx a) as He.
  destruct (ensure_kv layer CPU n_embd words n_ctx a) as [[[k v]|e|] a'].
  - specialize (He (wk_ok _ _ _ _ _ _ Hw)). split; [by eapply walk_ensured|apply He].
  - rewrite He by apply Hw. apply Hw.
  - by apply He, Hw.
Qed.

Lemma triple_ensure_fused layer nd m i l : node g i = Some nd →
  triple (walk n i l) (ensure_fused layer nd m) (λ _, walk n i l).
Proof.
  intros Hi. unfold ensure_fused. rewrite (wb_cpu _ Hg _ _ Hi).
  destruct (fused_kv nd m) as [[n_embd row] n_ctx].
  eapply triple_bind; [apply triple_ensure_kv|]. intros kv. apply triple_ret. by intros a [? _].
Qed.

(** A KV node is its layer's K region. *)
Lemma triple_place_kv layer n_embd row n_ctx i nd l : at_step i nd →
  kv_layer_of (nd_op nd) = Some layer → nd_view nd = None →
  triple (walk n i l)
    (pair ← ensure_kv layer CPU n_embd row n_ctx; _ ← modify_nodes (map_node i pair.1); mret l)
    (λ l' a, walk n (1 + i) l' a).
Proof.
  intros Hat Hkv Hv. eapply triple_bind; [apply triple_ensure_kv|]. intros kv a [Hw Hlay]. simpl.
  eapply walk_kv; try done; [by apply Hw|by apply Hat].
Qed.

(** ** Placing in another node's buffer *)

Lemma triple_alias i p r lu l a0 : walk n i l a0 → aliases g i p r lu l a0 →
  triple (λ a, a = a0) (_ ← modify_nodes (map_node i r); extend g l p lu)
    (λ l' a, walk n (1 + i) l' a).
Proof.
  intros Hw Ha a ->. unfold mbind, op_bind, modify_nodes, modify. by eapply walk_alias.
Qed.

Lemma triple_place_view i nd v l : at_step i nd → nd_view nd = Some v → length l = n →
  triple (walk n i l) (place_view g i nd v l) (λ l' a, walk n (1 + i) l' a).
Proof.
  intros Hat Hv Hl a Hw. pose proof (as_node _ _ Hat) as Hi.
  pose proof (wb_view _ Hg _ _ _ Hi Hv) as Hs. pose proof (wb_src _ Hg _ _ _ Hi Hs) as Hlt.
  destruct (node_here _ _ Hi) as [Hin Hu]. destruct (Hu l Hl) as [u Hlu].
  destruct (lookup_lt_is_Some_2 (g_nodes g) (vw_src v)) as [pn Hpn]; [unfold n, n_nodes in *; lia|].
  unfold place_view, reads_of, given, raise, mbind, op_bind.
  destruct (na_node_to_buf (al_nodes a) !! vw_src v) as [rp|] eqn:Hm; [|apply Hw]. simpl.
  destruct (negb (br_backend rp =? node_backend nd)%N); [apply Hw|].
  change (node g (vw_src v)) with (g_nodes g !! vw_src v). rewrite Hpn. simpl.
  destruct (_ && _); [apply Hw|]. destruct (Nat.ltb_spec (n_elements pn) (vw_offset v + n_elements nd))
    as [|Hfit]; [apply Hw|]. rewrite Hlu. simpl.
  apply (triple_alias i (vw_src v) (window rp (vw_offset v) (n_elements nd)) u l a Hw); [|done].
  split; [|by eapply at_step_not_input|by exists rp|by eapply sh_view| |done].
  - exists nd. split_and!; [done..|]. congruence.
  - intros nd' pn' rp' Hi' Hpn' Hm' Hs'. unfold node in Hi, Hi', Hpn'. simplify_eq.
    split; [by eapply (ws_view _ Hs' i)|]. intros Hlen. simpl. split; [done|lia].
Qed.

Lemma triple_in_place i nd cs l : at_step i nd → nd_view nd = None → length l = n →
  in_place_kind (nd_op nd) = true → consumers g = Some cs →
  triple (walk n i l) (place_in_place device_memory g cs i nd l) (λ l' a, walk n (1 + i) l' a).
Proof.
  intros Hat Hv Hl Hk Hcs. pose proof (as_node _ _ Hat) as Hi.
  destruct (node_here _ _ Hi) as [Hin Hu]. destruct (Hu l Hl) as [u Hlu].
  destruct (nd_src nd) as [|src0 rest] eqn:Hsrc; [by destruct (wb_in_place _ Hg _ _ Hi Hk)|].
  assert (src0 ∈ nd_src nd) as Hs by (rewrite Hsrc; by left).
  pose proof (wb_src _ Hg _ _ _ Hi Hs) as Hlt.
  destruct (lookup_lt_is_Some_2 (g_nodes g) src0) as [sn Hsn]; [unfold n, n_nodes in *; lia|].
  destruct (consumers_spec g Hg src0) as (cs' & Hcs' & Hcl & _).
  rewrite Hcs in Hcs'. injection Hcs' as <-.
  destruct (lookup_lt_is_Some_2 cs src0) as [uses Huses]; [rewrite Hcl; unfold n, n_nodes in *; lia|].
  assert (∃ b, in_place_ok g nd src0 = Some b) as [b Hb].
  { unfold in_place_ok. case_match; try by eexists. unfold node. rewrite Hsn. by eexists. }
  unfold place_in_place. eapply triple_must; [done|]. destruct (Nat.leb_spec u i) as [Hle|Hgt].
  { apply triple_ret. intros a Hw. eapply walk_skip; [done|]. right. intros v. by eapply dead_skips. }
  apply (triple_must _ _ src0); [by rewrite Hsrc|]. intros a Hw.
  unfold reads_of, given, must, mbind, op_bind. rewrite Hb, Huses.
  destruct (na_node_to_buf (al_nodes a) !! src0) as [rp|] eqn:Hm; [|apply Hw]. simpl.
  destruct (b && _ && _) eqn:Hc.
  - apply andb_true_iff in Hc as [_ ->%Nat.eqb_eq].
    apply (triple_alias i src0 rp u l a Hw); [|done].
    split; [|by eapply at_step_not_input|by exists rp| | |done].
    + exists nd. split_and!; [done..|]. congruence.
    + eapply sh_in_place; [done|done|by rewrite Hsrc|].
      intros r nd' Hr Hs'. by eapply (sole_reader g Hg cs src0 i nd r nd').
    + intros nd' pn' rp' Hi' Hpn' Hm' Hs'. rewrite Hi in Hi'. simplify_eq.
      destruct (ws_in_place _ Hs' i nd' src0 pn') as [He ?]; [done|done|by rewrite Hsrc|done|].
      split; [done|]. intros Hlen. split; [congruence|done].
  - unfold own_buffer. rewrite (wb_cpu _ Hg _ _ Hi).
    pose proof (triple_own n i n (1 + i) i l (n_elements nd) u (at_step_next _ _ Hat) Hin Hlu) as H.
    assert (∃ nd', node g i = Some nd' ∧ nd_view nd' = None ∧ n_elements nd = n_elements nd')
      as Hv' by by exists nd.
    specialize (H Hv' a Hw). unfold owned in H. unfold mbind, op_bind in *.
    by destruct (alloc_in_pool _ _ _ a) as [[?|?|] ?].
Qed.

(** ** The walk *)

Lemma triple_then {E A B} Pre (m : op (P:=P) E A) Mid (k : op (P:=P) E B) Post :
  triple Pre m (λ _, Mid) → triple Mid k Post → triple Pre (m ≫= λ _, k) Post.
Proof. intros Hm Hk. eapply triple_bind; [done|]. intros x. apply Hk. Qed.

Lemma triple_own_keeps i nd l : at_step i nd → nd_view nd = None → length l = n →
  triple (walk n i l) (_ ← place_own device_memory i nd l; mret l : op AllocError _)
    (λ l' a, walk n (1 + i) l' a).
Proof.
  intros. eapply triple_then; [by eapply triple_place_own|]. by apply triple_ret.
Qed.

Lemma triple_place_node i nd cs l : node g i = Some nd → length l = n → consumers g = Some cs →
  triple (walk n i l) (place_node device_memory g cs (i, nd) l) (λ l' a, walk n (1 + i) l' a).
Proof.
  intros Hi Hl Hcs. unfold place_node. apply (triple_then _ _ (walk n i l)).
  { intros a Hw. by apply walk_sweep. }
  destruct (is_input nd) eqn:Hin.
  { apply triple_ret. intros a Hw. eapply walk_skip; [done|]. left. by apply (input_is _ _ Hi). }
  assert (at_step i nd) as Hat by done.
  destruct (nd_view nd) as [v|] eqn:Hv; [by apply triple_place_view|].
  pose proof (wb_cpu _ Hg _ _ Hi) as Hb.
  destruct (nd_op nd) as [] eqn:Ho; try by apply triple_own_keeps.
  all: try by (apply triple_in_place; rewrite ?Ho).
  - rewrite Hb. destruct (match nd_meta nd with MKvcache _ _ => _ | _ => _ end) as [n_embd row].
    eapply triple_place_kv; [done|by rewrite Ho|done].
  - rewrite Hb. destruct (match nd_meta nd with MKvcache _ _ => _ | _ => _ end) as [n_embd row].
    eapply triple_place_kv; [done|by rewrite Ho|done].
  - eapply triple_then; [by apply triple_ensure_fused|]. by apply triple_own_keeps.
  - eapply triple_then; [by apply triple_ensure_fused|]. apply triple_in_place; by rewrite ?Ho.
  - eapply triple_then; [by apply triple_ensure_fused|]. by apply triple_own_keeps.
Qed.

Lemma walk_start a : pools_ok a → walk 0 0 l0 (forget_graph a).
Proof.
  intros Hok. destruct (forget_graph_spec a Hok) as (Hok' & Hm & Ha & Har).
  assert (∀ x, na_node_to_buf (al_nodes (forget_graph a)) !! x = None) as Hn
    by (intros x; rewrite Hm; apply lookup_empty).
  split; try done; [apply Hl0|..].
  all: try by (intros; repeat match goal with H : _ !! _ = Some _ |- _ => rewrite Hn in H end).
  - intros x nd v [r Hx]. by rewrite Hn in Hx.
  - intros x u [[_ ?]|[_ ?]]; lia.
Qed.

Lemma in_range_of : in_range g.
Proof.
  split; [apply Hg| |apply Hg]. intros i nd s Hi Hs. by eapply src_lt.
Qed.
End place.

Section graph.
Context {W P : Type} `{!CellPool W P, !BufferPool W P, !BufferPoolLaws W P}.
Context (device_memory : DeviceMemory).

(** [alloc_graph] places the whole graph or refuses; it does not panic. *)
Lemma alloc_graph_walk g (a : GraphAllocator P) : well_built g → pools_ok a →
  ∃ l0, last_uses g = Some l0 ∧ uses_ok g l0 ∧
    (∀ x r, needed_at g x r → ∃ u, l0 !! x = Some u ∧ r ≤ u) ∧
    match alloc_graph device_memory g a with
    | (Ok (), a') => ∃ l, walk g l0 (n_nodes g) (n_nodes g) l a'
    | (Err _, a') => pools_ok a'
    | (Panic, _) => False
    end.
Proof.
  intros Hg Hok. destruct (last_uses_spec g Hg) as (l0 & Hl0 & Hu & _ & Hneeded & Hin).
  exists l0. split_and!; [done..|]. set (n := n_nodes g).
  assert (triple (λ b, b = a) (alloc_graph device_memory g) (λ _ a', ∃ l, walk g l0 n n l a')) as H.
  2:{ specialize (H a eq_refl). by destruct (alloc_graph device_memory g a) as [[[]|?|] ?]. }
  destruct (topo_order_acyclic g id (in_range_of g Hg)) as [order Ho].
  { intros i nd s. apply Hg. }
  destruct (consumers_spec g Hg 0) as (cs & Hcs & _).
  unfold alloc_graph. rewrite Ho. apply (triple_then _ _ (walk g l0 0 0 l0)).
  { intros b ->. by apply walk_start. }
  apply (triple_then _ _ (walk g l0 0 0 l0)); [by intros b Hb|].
  eapply triple_must; [done|]. eapply triple_must; [done|].
  apply (triple_then _ _ (walk g l0 n 0 l0)).
  - apply (triple_loop _ (λ j _, walk g l0 j 0 l0)). intros j nd s Hj.
    by apply (triple_input device_memory g Hg l0 Hu Hin).
  - apply (triple_bind _ _ (λ l, walk g l0 n n l)); [|intros l; apply triple_ret; eauto].
    pose proof (triple_loop (place_node device_memory g cs) (λ i l, walk g l0 n i l)
      (imap pair (g_nodes g)) l0) as H.
    rewrite length_imap in H. apply H. intros i [i' nd] l Hi b Hw.
    rewrite list_lookup_imap in Hi. apply fmap_Some in Hi as (nd' & Hnd & [= -> ->]).
    apply (triple_place_node device_memory g Hg l0 Hu Hneeded Hin); try done. apply Hw.
Qed.
End graph.
