(* ===== verification/AllocProps.v ===== *)
(** * Theorems about the buffer allocator

    What [alloc_graph] and [topo_order] promise, and three graphs on which
    the code does less than its comments say. *)
From stdpp Require Import base numbers list gmap option strings relations.
From S2P Require Import Prelude KvCache KvArena Backend Graph Allocator AllocFacts AllocLive AllocWalk TopoFacts AllocPlace.

Section props.
Context {W P : Type} `{!CellPool W P, !BufferPool W P, !BufferPoolLaws W P}.
Context (device_memory : DeviceMemory).

(** A value's buffer is its own until its last reader has run. *)
Record placed_soundly (g : ComputeGraph) (a : GraphAllocator P) : Prop := {
  pl_needed : ∀ x r, needed_at g x r → is_Some (node_buffer a x);
  pl_kept : ∀ x y r bx by_, node_buffer a x = Some bx → node_buffer a y = Some by_ →
    key bx = key by_ → ¬ input_node g y → x < y ∨ input_node g x → needed_at g x r → y ≤ r →
    bound g x y;
  pl_inputs : ∀ x y bx by_, node_buffer a x = Some bx → node_buffer a y = Some by_ →
    key bx = key by_ → input_node g x → input_node g y → x = y
}.

Lemma needed_later g x r : well_built g → needed_at g x r → x < r ∧ x < n_nodes g.
Proof.
  intros Hg [(nd & Hr & Hx)|[[Hx|Hx] ->]].
  - split; [by eapply wb_src|by eapply src_lt].
  - pose proof (wb_outputs _ Hg _ Hx). done.
  - apply (wb_inputs _ Hg) in Hx as (nd & Hx & _). by apply lookup_lt_Some in Hx.
Qed.

Lemma walk_placed_soundly g l0 l a : well_built g → uses_ok g l0 →
  (∀ x r, needed_at g x r → ∃ u, l0 !! x = Some u ∧ r ≤ u) →
  walk g l0 (n_nodes g) (n_nodes g) l a → placed_soundly g a.
Proof.
  intros Hg Hu Hneeded Hw. split.
  - intros x r Hx. destruct (needed_later _ _ _ Hg Hx). destruct (Hneeded _ _ Hx) as (u & Hl & ?).
    eapply (wk_placed _ _ _ _ _ _ Hw); [|done|lia].
    destruct (decide (input_node g x)); [by left|by right].
  - intros x y r bx by_ Hx Hy Hk Hniy Hlt Hr Hle. destruct (Hneeded _ _ Hr) as (u & Hl & ?).
    eapply (wk_bound _ _ _ _ _ _ Hw); try done. lia.
  - intros x y bx by_ Hx Hy Hk. by eapply (wk_inputs _ _ _ _ _ _ Hw).
Qed.

(** C18. When a graph is placed, every value that is read has a buffer, and
    until its last reader has run (to the end of the graph for an output or an
    input) no other node is given that buffer, except one the value is tied to
    by a chain of views, in-place operations that are their source's only
    reader, and nodes of one KV layer.  A graph the builder makes is placed or
    refused without a panic, and either way the allocator keeps its tables
    consistent. *)
Theorem live_values_not_overwritten g a : well_built g → pools_ok a →
  match alloc_graph device_memory g a with
  | (Ok _, a') => pools_ok a' ∧ placed_soundly g a'
  | (Err _, a') => pools_ok a'
  | (Panic, _) => False
  end.
Proof.
  intros Hg Hok. destruct (alloc_graph_walk device_memory g a Hg Hok) as (l0 & _ & Hu & Hn & H).
  destruct (alloc_graph device_memory g a) as [[[]|e|] a']; [|done..].
  destruct H as [l Hw]. split; [apply Hw|]. by eapply walk_placed_soundly.
Qed.


(** A new allocator has its tables consistent. *)
Lemma fresh_pools_ok (p : P) : pool_ok p → pools_ok (new p).
Proof.
  intros Hp. assert (pool CPU (new p) = Some p) as Hpool by done.
  split.
  - by exists p.
  - intros k c H. simpl in H. by rewrite lookup_empty in H.
  - intros k c (ids & H & _). simpl in H. simpl in H. by rewrite lookup_empty in H.
  - intros q k _ (m & l & H & _). simpl in H. simpl in H. by rewrite lookup_empty in H.
  - intros m j l l' H. simpl in H. by rewrite lookup_empty in H.
  - intros m l H. simpl in H. by rewrite lookup_empty in H.
  - intros k [d H]. simpl in H. by rewrite lookup_empty in H.
  - intros k c [d H]. simpl in H. by rewrite lookup_empty in H.
Qed.
End props.

(** [topo_order] refuses a source that is no node, and otherwise orders
    the nodes, each after all of its sources, or names a cycle: a nonempty set
    of nodes each reading another of the set, the nodes it could not order. *)
Theorem topo_order_sorts g : (∀ i nd, node g i = Some nd → nd_id nd = i) →
  (N.of_nat (n_nodes g) < 2 ^ 64)%N →
  match topo_order g with
  | Ok order => order ≡ₚ seq 0 (n_nodes g) ∧ sources_before g order
  | Err (SrcRange i s) => ∃ nd, node g i = Some nd ∧ s ∈ nd_src nd ∧ n_nodes g ≤ s
  | Err (NodeIdRange _) => False
  | Err (Cycle k n) => ∃ c, k + length c = n ∧ n = n_nodes g ∧ waiting g c
  | Panic => False
  end.
Proof.
  intros Hid Hlen.
  pose proof (count_nodes_res (n_nodes g) (g_nodes g) (replicate (n_nodes g) 0%N)) as Hc.
  destruct (count_nodes (n_nodes g) _ _) as [indeg|e|] eqn:Heq.
  - assert (in_range g) as Hg.
    { split; [done| |done]. intros i nd s Hi Hs. eapply Hc; [|by eapply list_elem_of_lookup_2|done].
      intros nd' [j Hj]%list_elem_of_lookup. rewrite (Hid _ _ Hj). by eapply lookup_lt_Some. }
    pose proof (topo_order_in_range g Hg) as H.
    destruct (topo_order g) as [order|e|]; [done| |done].
    destruct H as (k & c & -> & ? & ?). by exists c.
  - unfold topo_order. cbv zeta. rewrite Heq. cbn [mbind res_bind].
    destruct Hc as (nd & s & Hnd & Hs & Hle & ->).
    { intros nd' [j Hj]%list_elem_of_lookup. rewrite (Hid _ _ Hj). by eapply lookup_lt_Some. }
    apply list_elem_of_lookup in Hnd as [i Hi]. rewrite (Hid _ _ Hi). eauto.
  - destruct Hc. intros nd' [j Hj]%list_elem_of_lookup. rewrite (Hid _ _ Hj). by eapply lookup_lt_Some.
Qed.

(** ** A graph *)

(** [well_built] as a test. *)
Definition node_well_built (g : ComputeGraph) (i : nat) (nd : CNode) : bool :=
  (nd_id nd =? i) && forallb (λ s, s <? i) (nd_src nd)
  && match nd_view nd with Some v => bool_decide (vw_src v ∈ nd_src nd) | None => true end
  && (negb (is_input nd) || (bool_decide (nd_src nd = []) && bool_decide (i ∈ g_inputs g)))
  && (node_backend nd =? CPU)%N
  && (negb (in_place_kind (nd_op nd)) || negb (bool_decide (nd_src nd = []))).

Definition graph_well_built (g : ComputeGraph) : bool :=
  forallb (λ p, node_well_built g p.1 p.2) (imap pair (g_nodes g))
  && forallb (λ i, match node g i with Some nd => is_input nd | None => false end) (g_inputs g)
  && forallb (λ i, i <? n_nodes g) (g_outputs g)
  && (N.of_nat (n_nodes g) <? 2 ^ 64)%N.

Lemma forallb_elem {A} (f : A → bool) l x : forallb f l = true → x ∈ l → f x = true.
Proof. intros H Hx. by apply (proj1 (forallb_forall f l)), list_elem_of_In. Qed.

Lemma graph_well_built_spec g : graph_well_built g = true → well_built g.
Proof.
  unfold graph_well_built. rewrite !andb_true_iff. intros [[[Hn Hi] Ho] Hl].
  assert (∀ i nd, node g i = Some nd → node_well_built g i nd = true) as Hw.
  { intros i nd Hnd. apply (forallb_elem _ _ (i, nd) Hn). apply list_elem_of_lookup. exists i.
    unfold node in Hnd. by rewrite list_lookup_imap, Hnd. }
  assert (∀ i nd, node g i = Some nd → nd_id nd = i ∧ (∀ s, s ∈ nd_src nd → s < i) ∧
    (∀ v, nd_view nd = Some v → vw_src v ∈ nd_src nd) ∧
    (is_input nd = true → nd_src nd = [] ∧ i ∈ g_inputs g) ∧ node_backend nd = CPU ∧
    (in_place_kind (nd_op nd) = true → nd_src nd ≠ [])) as H.
  { intros i nd Hnd. apply Hw in Hnd. unfold node_well_built in Hnd.
    rewrite !andb_true_iff, !orb_true_iff, !negb_true_iff, !andb_true_iff, !bool_decide_eq_true,
      !bool_decide_eq_false, Nat.eqb_eq, N.eqb_eq in Hnd.
    destruct Hnd as (((((? & Hs) & Hv) & Hin) & ?) & Hp). split_and!; try done.
    - intros s Hx. apply Nat.ltb_lt. by apply (forallb_elem _ _ _ Hs).
    - intros v Hv'. rewrite Hv' in Hv. by apply bool_decide_eq_true in Hv.
    - intros Hi'. destruct Hin; [congruence|done].
    - intros Hi'. destruct Hp; [congruence|done]. }
  split; try (intros i nd Hnd; by apply H).
  - intros i nd s Hnd. by apply (H i nd Hnd).
  - intros i nd v Hnd. by apply (H i nd Hnd).
  - intros i nd Hnd Hin. destruct (H i nd Hnd) as (_ & _ & _ & Hni & _). by apply Hni.
  - intros i. split; [|intros (nd & Hnd & Hin); by destruct (H _ _ Hnd) as (_ & _ & _ & Hni & _); apply Hni].
    intros Hx. pose proof (forallb_elem _ _ _ Hi Hx) as H'. simpl in H'.
    destruct (node g i) as [nd|]; [by exists nd|done].
  - intros i Hx. apply Nat.ltb_lt. by apply (forallb_elem _ _ _ Ho).
  - intros i nd Hnd. by destruct (H i nd Hnd) as (_ & _ & _ & _ & ? & _).
  - intros i nd Hnd. by destruct (H i nd Hnd) as (_ & _ & _ & _ & _ & ?).
  - by apply N.ltb_lt.
Qed.

Module Graphs.
Import CpuBackend.
#[export] Instance words : BufferPool nat (backend nat) := backend_buffers 0.
#[export] Instance words_laws : BufferPoolLaws nat (backend nat) := backend_buffers_laws 0.

Definition vec (n : nat) : shape := (n, 1, 1, 1).
Definition plain (id : nat) (o : Op) (src : list nat) (s : shape) : CNode :=
  mkNode id o src s None MNone None.
Definition view_of (id src offset : nat) (s : shape) : CNode :=
  mkNode id (View offset s) [src] s None MNone (Some (mkView src offset)).

(** A projection split in two views; one half is rotated in place, the other
    stored; attention, a projection, an activation in place, a residual. *)
Definition block : ComputeGraph := mkGraph
  [plain 0 Input [] (vec 4); plain 1 Input [] (vec 1); plain 2 (MatMul false) [0] (vec 8);
   view_of 3 2 0 (vec 4); view_of 4 2 4 (vec 4); plain 5 (RoPE NonInterleaved) [3; 1] (vec 4);
   plain 6 (KvcacheStore 0) [4] (4, 8, 1, 1); plain 7 (KvcacheLoad 0) [6] (4, 8, 1, 1);
   plain 8 (Attn Gqa false) [5; 7] (vec 4); plain 9 (MatMul false) [8] (vec 4);
   plain 10 Silu [9] (vec 4); plain 11 Add [10; 0] (vec 4)]
  [0; 1] [11] 1.

Definition fresh : GraphAllocator (backend nat) := Allocator.new CpuBackend.new.

Lemma fresh_ok : pools_ok fresh.
Proof. apply fresh_pools_ok. split; [constructor|by constructor]. Qed.

Lemma block_built : well_built block.
Proof. apply graph_well_built_spec. by vm_compute. Qed.

Definition built (g : ComputeGraph) (a : GraphAllocator (backend nat)) : GraphAllocator (backend nat) :=
  (alloc_graph NoDevice g a).2.
Definition result (g : ComputeGraph) (a : GraphAllocator (backend nat)) : res AllocError unit :=
  (alloc_graph NoDevice g a).1.
End Graphs.
Import CpuBackend Graphs.

Lemma live_values_not_overwritten_witness :
  result block fresh = Ok () ∧ placed_soundly block (built block fresh) ∧
  node_buffer (built block fresh) 2 = Some (mkBufRef CPU 2 0 8) ∧
  node_buffer (built block fresh) 9 = Some (mkBufRef CPU 2 0 4).
Proof.
  assert (result block fresh = Ok ()) as Hr by (vm_compute; reflexivity).
  split; [done|]. split; [|split; vm_compute; reflexivity].
  pose proof (live_values_not_overwritten NoDevice block fresh block_built fresh_ok) as H.
  unfold result, built in *. destruct (alloc_graph NoDevice block fresh) as [[[]|e|] a']; simpl in *;
    [apply H|congruence|congruence].
Defined.



(** A node that reads itself through another cannot be ordered. *)
Definition knot : ComputeGraph := mkGraph
  [plain 0 Input [] (vec 4); plain 1 Add [0; 2] (vec 4); plain 2 Silu [1] (vec 4)] [0] [2] 2.

Lemma topo_order_sorts_witness :
  topo_order block = Ok (seq 0 2 ++ [2; 3; 4; 5; 6; 7; 8; 9; 10; 11]) ∧
  sources_before block (seq 0 2 ++ [2; 3; 4; 5; 6; 7; 8; 9; 10; 11]) ∧
  topo_order knot = Err (Cycle 1 3) ∧ ∃ c, length c = 2 ∧ waiting knot c.
Proof.
  assert (topo_order block = Ok (seq 0 2 ++ [2; 3; 4; 5; 6; 7; 8; 9; 10; 11])) as Hb
    by (vm_compute; reflexivity).
  assert (topo_order knot = Err (Cycle 1 3)) as Hk by (vm_compute; reflexivity).
  split; [done|]. split; [|split; [done|]].
  - pose proof (topo_order_sorts block (wb_id _ block_built) ltac:(done)) as H.
    rewrite Hb in H. apply H.
  - assert (∀ i nd, node knot i = Some nd → nd_id nd = i) as Hid.
    { intros i nd Hi. do 3 (destruct i as [|i]; [by injection Hi as <-|]). done. }
    pose proof (topo_order_sorts knot Hid ltac:(done)) as H. rewrite Hk in H.
    destruct H as (c & Hc & _ & Hw). exists c. split; [lia|done].
Defined.

(** ** Where the code does less than its comments say *)

Definition with_budget (bytes : N) (a : GraphAllocator (backend nat)) : GraphAllocator (backend nat) :=
  set_nodes (mkNodeAllocs ∅ ∅ ∅ ∅ ∅ ∅ ∅ ∅ {[CPU := bytes]}) a.

(** Node 9 takes a buffer that is idle already, yet it is refused when the
    budget has no room for one more. *)
Example recycled_buffer_charged :
  na_pool_bytes (al_nodes (built block (with_budget 5120 fresh))) !! CPU = Some 4096%N ∧
  result block (with_budget 5119 fresh) = Err (OutOfMemory CPU).
Proof. split; vm_compute; reflexivity. Qed.

(** The output of node 1 is to outlive the graph, but node 2 is computed in
    its buffer. *)
Definition two_outputs : ComputeGraph := mkGraph
  [plain 0 Input [] (vec 4); plain 1 (MatMul false) [0] (vec 4); plain 2 Silu [1] (vec 4)] [0] [1; 2] 3.

Example output_overwritten : result two_outputs fresh = Ok () ∧
  node_buffer (built two_outputs fresh) 1 = node_buffer (built two_outputs fresh) 2.
Proof. split; vm_compute; reflexivity. Qed.

(** Node 3 has the view to itself, but not the buffer under it: node 4 reads
    that after node 3 has written there. *)
Definition viewed : ComputeGraph := mkGraph
  [plain 0 Input [] (vec 4); plain 1 (MatMul false) [0] (vec 4); view_of 2 1 0 (vec 4);
   plain 3 Silu [2] (vec 4); plain 4 Add [1; 3] (vec 4)] [0] [4] 4.

Example viewed_buffer_overwritten : result viewed fresh = Ok () ∧
  node_buffer (built viewed fresh) 1 = node_buffer (built viewed fresh) 3.
Proof. split; vm_compute; reflexivity. Qed.
