(* ===== verification/KvRows.v ===== *)
(** * Rows follow the run table

    What the copies of a plan do to the K/V regions, proved against the
    [CellPool] interface, and the theorems that put the two halves together:
    a compaction or a resize renumbers the run table and moves the rows so
    that every written position reads back what was stored in it. *)
From stdpp Require Import base numbers list gmap option sorting.
From S2P Require Import Prelude Slices KvCache KvFacts KvMoves KvPlans Batch KvArena.

(** ** Rows of a buffer *)

Definition buf_row {W} (elems i : nat) (buf : list W) : list W := take elems (drop (i * elems) buf).

Lemma lookup_buf_row {W} elems i (buf : list W) j :
  buf_row elems i buf !! j = if decide (j < elems) then buf !! (i * elems + j) else None.
Proof.
  unfold buf_row. case_decide.
  - by rewrite lookup_take_lt, lookup_drop by done.
  - by rewrite lookup_take_ge by lia.
Qed.

Lemma cell_index e a r i j : j < e → a * e ≤ i * e + j < (a + r) * e ↔ a ≤ i < a + r.
Proof.
  intros Hj. split.
  - intros [H1 H2]. split; apply Nat.lt_succ_r || idtac; nia.
  - intros [H1 H2]. nia.
Qed.

Lemma buf_row_copy {W} elems dst src rows (buf buf' : list W) i :
  copy_within buf (src * elems) ((src + rows) * elems) (dst * elems) = Some buf' →
  buf_row elems i buf' =
    buf_row elems (if decide (dst ≤ i < dst + rows) then src + (i - dst) else i) buf.
Proof.
  intros Hc. apply list_eq. intros j. rewrite !lookup_buf_row. case_decide as Hj; [|done].
  rewrite (lookup_copy_within _ _ _ _ _ _ Hc).
  replace (dst * elems + ((src + rows) * elems - src * elems)) with ((dst + rows) * elems) by nia.
  pose proof (cell_index elems dst rows i j Hj) as Hidx.
  repeat case_decide; try (exfalso; tauto); [|done].
  f_equal. nia.
Qed.

(** ** One region through the copies *)

Section rows.
Context {W P : Type} `{!CellPool W P, !CellPoolLaws W P}.
Implicit Types (a : Alloc P).

Definition region_buf a r : option (list W) := ga_pools a !! br_backend r ≫= λ p, pool_buf p (br_id r).

(** The rows of a region. *)
Definition region_row a r elems : nat → option (list W) := λ i,
  buf_row elems i <$> region_buf a r.

Definition region_key r : N * nat := (br_backend r, br_id r).

(** A region that holds the arena's rows. *)
Definition region_fits (n_ctx : nat) a (r : BufRef) (elems : nat) : Prop :=
  ∃ buf, region_buf a r = Some buf ∧ addressable buf ∧ n_ctx * elems ≤ length buf.

(** [a'] is [a] with the rows of the region [r] moved as [ms] says. *)
Record copied (ms : list KvMove) (r : BufRef) (elems n_ctx : nat) a a' : Prop := {
  cp_kv : ga_kv a' = ga_kv a;
  cp_fits : region_fits n_ctx a' r elems;
  cp_rows : ∀ i, region_row a' r elems i = moved_rows ms (region_row a r elems) i;
  cp_frame : ∀ r', region_key r' ≠ region_key r → region_buf a' r' = region_buf a r'
}.

Definition in_arena (n_ctx : nat) (m : KvMove) : Prop :=
  mv_to m + mv_rows m ≤ n_ctx ∧ mv_from m + mv_rows m ≤ n_ctx.

Lemma copy_region a r elems n_ctx dst src rows :
  region_fits n_ctx a r elems → dst + rows ≤ n_ctx → src + rows ≤ n_ctx →
  ∃ a', copy_cells_in_pool (br_backend r) r r dst src rows elems a = (Ok (), a') ∧
    copied [mkMove 0 src dst rows] r elems n_ctx a a'.
Proof using All.
  intros (buf & Hbuf & Haddr & Hlen) Hd Hs. unfold region_buf in Hbuf.
  destruct (ga_pools a !! br_backend r) as [p|] eqn:Hp; simpl in Hbuf; [|done].
  destruct (copy_cells_moves p r dst src rows elems buf) as (p' & buf' & Hok & Hcw & Hb' & Hfr);
    [done|done|nia|nia|].
  exists (set_pools (<[br_backend r := p']> (ga_pools a)) a).
  unfold copy_cells_in_pool. rewrite Hp, Hok. split; [done|].
  assert (Hbuf' : region_buf (set_pools (<[br_backend r := p']> (ga_pools a)) a) r = Some buf').
  { unfold region_buf. simpl. by rewrite lookup_insert_eq. }
  split; [done| | |].
  - exists buf'. split_and!; [done|..]; unfold addressable in *;
      by rewrite (length_copy_within _ _ _ _ _ Hcw).
  - intros i. unfold region_row. rewrite Hbuf'. simpl.
    rewrite (buf_row_copy _ _ _ _ _ _ _ Hcw). unfold move_rows; simpl.
    unfold region_buf. rewrite Hp. simpl. rewrite Hbuf. by case_decide.
  - intros r' Hne. unfold region_buf. simpl. rewrite lookup_insert. case_decide as Hk; [|done].
    simpl. rewrite <-Hk, Hp. simpl. apply Hfr. intros Hid. apply Hne. unfold region_key. congruence.
Qed.

(** The copies a list of moves makes in the two regions of a layer. *)
Record copied2 (ms : list KvMove) (k v : BufRef) (elems n_ctx : nat) a a' : Prop := {
  c2_kv : ga_kv a' = ga_kv a;
  c2_fits : region_fits n_ctx a' k elems ∧ region_fits n_ctx a' v elems;
  c2_rows : ∀ i, region_row a' k elems i = moved_rows ms (region_row a k elems) i ∧
                 region_row a' v elems i = moved_rows ms (region_row a v elems) i;
  c2_frame : ∀ r', region_key r' ≠ region_key k → region_key r' ≠ region_key v →
               region_buf a' r' = region_buf a r'
}.

Lemma region_fits_ext n_ctx a a' r elems :
  region_buf a' r = region_buf a r → region_fits n_ctx a r elems → region_fits n_ctx a' r elems.
Proof using. intros He (buf & ? & ?). exists buf. by rewrite He. Qed.

Lemma region_row_ext a a' r elems i :
  region_buf a' r = region_buf a r → region_row a' r elems i = region_row a r elems i.
Proof using. intros He. unfold region_row. by rewrite He. Qed.

Section layer.
Context (k v : BufRef) (elems n_ctx : nat) (Hkv : region_key k ≠ region_key v).

Lemma copy_pair a dst src rows (bk : BufRef → N) :
  region_fits n_ctx a k elems → region_fits n_ctx a v elems →
  dst + rows ≤ n_ctx → src + rows ≤ n_ctx →
  bk k = br_backend k → bk v = br_backend v →
  ∃ a', for_each (λ region, copy_cells_in_pool (bk region) region region
          dst src rows elems) [k; v] a = (Ok (), a') ∧
    copied2 [mkMove 0 src dst rows] k v elems n_ctx a a'.
Proof using All.
  intros Hfk Hfv Hd Hs Ek Ev. cbn [for_each]. rewrite Ek, Ev.
  destruct (copy_region a k elems n_ctx dst src rows Hfk Hd Hs) as (a1 & -> & [K1 F1 R1 X1]).
  assert (Hv1 : region_buf a1 v = region_buf a v) by by apply X1.
  destruct (copy_region a1 v elems n_ctx dst src rows) as (a2 & -> & [K2 F2 R2 X2]);
    [by apply (region_fits_ext _ a)|done..|].
  exists a2. split; [done|].
  assert (Hk2 : region_buf a2 k = region_buf a1 k) by by apply X2.
  split.
  - congruence.
  - split; [by apply (region_fits_ext _ a1)|done].
  - intros i. split.
    + rewrite (region_row_ext a1) by done. apply R1.
    + rewrite R2. apply moved_rows_ext. intros j. by apply region_row_ext.
  - intros r' H1 H2. rewrite X2, X1; done.
Qed.

Lemma copied2_refl a :
  region_fits n_ctx a k elems → region_fits n_ctx a v elems → copied2 [] k v elems n_ctx a a.
Proof using. intros. by split. Qed.

Lemma copied2_cons m ms a a1 a2 :
  copied2 [m] k v elems n_ctx a a1 → copied2 ms k v elems n_ctx a1 a2 →
  copied2 (m :: ms) k v elems n_ctx a a2.
Proof using.
  intros [K1 F1 R1 X1] [K2 F2 R2 X2]. split.
  - congruence.
  - done.
  - intros i. destruct (R2 i) as [-> ->]. simpl in *.
    split; apply moved_rows_ext; intros j; apply R1.
  - intros r' H1 H2. rewrite X2, X1; done.
Qed.

Lemma copy_move_ok m a :
  region_fits n_ctx a k elems → region_fits n_ctx a v elems → in_arena n_ctx m →
  ∃ a', copy_move k v elems m a = (Ok (), a') ∧ copied2 [m] k v elems n_ctx a a'.
Proof using All.
  intros Hfk Hfv [Ht Hf]. unfold copy_move. destruct (Nat.eqb_spec (mv_rows m) 0) as [Hz|Hz].
  - exists a. split; [done|]. split; try done. intros i. simpl. unfold move_rows.
    rewrite !decide_False by lia. done.
  - destruct (copy_pair a (mv_to m) (mv_from m) (mv_rows m) br_backend) as (a' & -> & Hc);
      [done..|].
    exists a'. split; [done|]. destruct Hc as [K F R X]. by split.
Qed.

Lemma copy_layer_ok ms a :
  region_fits n_ctx a k elems → region_fits n_ctx a v elems → Forall (in_arena n_ctx) ms →
  ∃ a', for_each (copy_move k v elems) ms a = (Ok (), a') ∧ copied2 ms k v elems n_ctx a a'.
Proof using All.
  intros Hfk Hfv Hms. revert a Hfk Hfv.
  induction Hms as [|m ms Hm Hms IH]; intros a Hfk Hfv; cbn [for_each].
  { exists a. split; [done|]. by apply copied2_refl. }
  destruct (copy_move_ok m a) as (a1 & -> & Hc1); [done..|].
  destruct (IH a1) as (a2 & -> & Hc2); [apply Hc1..|].
  exists a2. split; [done|]. by eapply copied2_cons.
Qed.
End layer.

(** ** Every layer *)

Abbreviation region_pair := (BufRef * BufRef * nat)%type.

Definition region_keys (rs : list region_pair) : list (N * nat) :=
  concat (map (λ r, [region_key r.1.1; region_key r.1.2]) rs).

Definition regions_fit (n_ctx : nat) a (rs : list region_pair) : Prop :=
  Forall (λ r, region_fits n_ctx a r.1.1 r.2 ∧ region_fits n_ctx a r.1.2 r.2) rs.

(** Every region's rows are moved as [ms] says; other buffers are untouched. *)
Record copied_all (ms : list KvMove) (rs : list region_pair) (n_ctx : nat) a a' : Prop := {
  ca_kv : ga_kv a' = ga_kv a;
  ca_fits : regions_fit n_ctx a' rs;
  ca_rows : ∀ r i, r ∈ rs →
    region_row a' r.1.1 r.2 i = moved_rows ms (region_row a r.1.1 r.2) i ∧
    region_row a' r.1.2 r.2 i = moved_rows ms (region_row a r.1.2 r.2) i;
  ca_frame : ∀ r', region_key r' ∉ region_keys rs → region_buf a' r' = region_buf a r'
}.

Lemma in_region_keys (rs : list region_pair) r :
  r ∈ rs → region_key r.1.1 ∈ region_keys rs ∧ region_key r.1.2 ∈ region_keys rs.
Proof using.
  unfold region_keys. induction rs as [|x rs IH]; [by intros ?%elem_of_nil|].
  intros [-> | Hr]%elem_of_cons; simpl; rewrite !elem_of_cons; [by auto|].
  destruct (IH Hr). auto.
Qed.

(** A loop over the regions whose body copies one layer copies them all. *)
Lemma for_each_region ms n_ctx (f : region_pair → Alloc P → ares unit * Alloc P) :
  (∀ r a, region_key r.1.1 ≠ region_key r.1.2 →
     region_fits n_ctx a r.1.1 r.2 → region_fits n_ctx a r.1.2 r.2 →
     ∃ a', f r a = (Ok (), a') ∧ copied2 ms r.1.1 r.1.2 r.2 n_ctx a a') →
  ∀ rs a, NoDup (region_keys rs) → regions_fit n_ctx a rs →
    ∃ a', for_each f rs a = (Ok (), a') ∧ copied_all ms rs n_ctx a a'.
Proof using.
  intros Hf. induction rs as [|r rs IH]; intros a Hnd Hfit; cbn [for_each].
  { exists a. split; [done|]. split; [done|constructor|by intros ?? ?%elem_of_nil|done]. }
  apply Forall_cons in Hfit as [[Hk Hv] Hfit]. unfold region_keys in Hnd; simpl in Hnd.
  fold (region_keys rs) in Hnd.
  apply NoDup_cons in Hnd as [Hk1 Hnd]. apply NoDup_cons in Hnd as [Hv1 Hnd].
  rewrite not_elem_of_cons in Hk1. destruct Hk1 as [Hkv Hk1].
  destruct (Hf r a) as (a1 & -> & [K1 F1 R1 X1]); [done..|].
  assert (Hsame : ∀ r', r' ∈ rs → region_buf a1 r'.1.1 = region_buf a r'.1.1 ∧
                                  region_buf a1 r'.1.2 = region_buf a r'.1.2).
  { intros r' Hr. destruct (in_region_keys rs r' Hr).
    split; apply X1; intros Heq; congruence. }
  destruct (IH a1) as (a2 & -> & [K2 F2 R2 X2]); [done| |].
  { unfold regions_fit in *. rewrite Forall_forall in *. intros r' Hr.
    destruct (Hsame r' Hr), (Hfit r' Hr). split; by eapply region_fits_ext. }
  exists a2. split; [done|].
  assert (Hr2 : region_buf a2 r.1.1 = region_buf a1 r.1.1 ∧
                region_buf a2 r.1.2 = region_buf a1 r.1.2) by (split; by apply X2).
  destruct Hr2 as [Hr21 Hr22]. split.
  - congruence.
  - constructor; [|done]. destruct F1. split; by eapply region_fits_ext.
  - intros r' i [-> | Hr]%elem_of_cons.
    + rewrite !(region_row_ext a1 a2) by done. apply R1.
    + destruct (R2 r' i Hr) as [-> ->], (Hsame r' Hr).
      split; apply moved_rows_ext; intros j; by apply region_row_ext.
  - intros r'. unfold region_keys. simpl. fold (region_keys rs).
    rewrite !not_elem_of_cons. intros (?&?&?). rewrite X2, X1; done.
Qed.

Lemma copy_moves_ok ms n_ctx a :
  NoDup (region_keys (regions (ga_kv a))) → regions_fit n_ctx a (regions (ga_kv a)) →
  Forall (in_arena n_ctx) ms →
  ∃ a', copy_moves ms a = (Ok (), a') ∧ copied_all ms (regions (ga_kv a)) n_ctx a a'.
Proof using All.
  intros Hnd Hfit Hms. unfold copy_moves.
  apply (for_each_region ms n_ctx); [|done|done].
  intros [[k v] elems] a0 Hkv Hk Hv. by apply copy_layer_ok.
Qed.

(** [copy_rows] dispatches both regions on the K region's backend. *)
Lemma copy_rows_ok n_ctx dst src rows a :
  NoDup (region_keys (regions (ga_kv a))) → regions_fit n_ctx a (regions (ga_kv a)) →
  Forall (λ r, br_backend r.1.2 = br_backend r.1.1) (regions (ga_kv a)) →
  dst + rows ≤ n_ctx → src + rows ≤ n_ctx →
  ∃ a', copy_rows dst src rows a = (Ok (), a') ∧
    copied_all [mkMove 0 src dst rows] (regions (ga_kv a)) n_ctx a a'.
Proof using All.
  intros Hnd Hfit Hbk Hd Hs. unfold copy_rows.
  set (f := λ '(k, v, elems), for_each (λ region : BufRef,
    copy_cells_in_pool (br_backend k) region region dst src rows elems) [k; v]).
  set (g := λ r a, if decide (br_backend r.1.2 = br_backend r.1.1) then f r a
                   else for_each (λ region : BufRef, copy_cells_in_pool (br_backend region)
                          region region dst src rows r.2) [r.1.1; r.1.2] a).
  destruct (for_each_region [mkMove 0 src dst rows] n_ctx g) with
    (rs := regions (ga_kv a)) (a := a) as (a' & Hok & Hc); [|done|done|].
  - intros [[k v] elems] a0 Hkv Hk Hv. unfold g, f. simpl fst. simpl snd. case_decide as Hb.
    + apply (copy_pair k v elems n_ctx Hkv a0 dst src rows (λ _, br_backend k)); done.
    + apply (copy_pair k v elems n_ctx Hkv a0 dst src rows br_backend); done.
  - exists a'. split; [|done]. rewrite <-Hok. clear Hok Hc Hnd Hfit.
    apply for_each_ext. intros r Hr s. rewrite Forall_forall in Hbk.
    unfold g. by rewrite decide_True by by apply Hbk.
Qed.

(** ** What a reader of a sequence sees *)

Definition layer_elems (l : KvLayer) : nat := (lay_elems l / (lay_n_ctx l `max` 1)) `max` 1.

(** The stored row of position [pos] of [seq] in one region of a layer. *)
Definition read_row (region : KvLayer → BufRef) a (layer seq : N) (pos : nat) :
    option (list W) :=
  l ← kv_layers (ga_kv a) !! layer;
  cell ← cell_of (ga_kv a) seq pos;
  region_row a (region l) (layer_elems l) cell.

Definition read_k := read_row lay_k.
Definition read_v := read_row lay_v.

(** Every written position still reads the rows stored for it. *)
Definition reads_kept a a' : Prop :=
  ∀ layer seq pos, pos < written_rows (ga_kv a) seq →
    read_k a' layer seq pos = read_k a layer seq pos ∧
    read_v a' layer seq pos = read_v a layer seq pos.

(** The allocator's KV state is sound: the store is, shared prefixes lie in
    live runs, and every layer has regions of its own with room for the arena. *)
Record arena_ok a : Prop := {
  ao_wf : kv_wf (ga_kv a);
  ao_backed : backed (kv_seqs (ga_kv a));
  ao_keys : NoDup (region_keys (regions (ga_kv a)));
  ao_fit : regions_fit (kv_n_ctx (ga_kv a)) a (regions (ga_kv a));
  ao_backends : Forall (λ r, br_backend r.1.2 = br_backend r.1.1) (regions (ga_kv a))
}.

Lemma regions_same c c' : layers_same c c' → regions c' = regions c.
Proof using.
  intros Hl. set (g := λ l : KvLayer, (lay_k l, lay_v l, layer_elems l)).
  assert (Hg : ∀ c, regions c = map snd (in_order (g <$> kv_layers c))).
  { intros c0. rewrite in_order_fmap, map_map. done. }
  rewrite !Hg. do 2 f_equal. apply map_eq. intros k. rewrite !lookup_fmap.
  specialize (Hl k). unfold g, layer_elems.
  destruct (kv_layers c !! k), (kv_layers c' !! k); simpl in *; try done.
  destruct Hl as (->&->&->&->). done.
Qed.

Lemma in_regions c layer l :
  kv_layers c !! layer = Some l → (lay_k l, lay_v l, layer_elems l) ∈ regions c.
Proof using.
  intros Hl%elem_of_in_order. apply list_elem_of_In, in_map_iff.
  exists (layer, l). split; [done|]. by apply list_elem_of_In.
Qed.

Lemma reads_kept_intro ms n_ctx a a1 c' :
  copied_all ms (regions (ga_kv a)) n_ctx a a1 →
  layers_same (ga_kv a) c' → rows_kept ms (ga_kv a) c' →
  reads_kept a (set_kv c' a1).
Proof using.
  intros Hc Hl Hr layer seq pos Hpos. unfold read_k, read_v, read_row. simpl.
  specialize (Hl layer). destruct (kv_layers (ga_kv a) !! layer) as [l|] eqn:Hk,
    (kv_layers c' !! layer) as [l'|]; simpl in *; try done.
  destruct Hl as (Ek & Ev & Ee & En). apply in_regions in Hk.
  assert (layer_elems l' = layer_elems l) as -> by (unfold layer_elems; congruence).
  rewrite Ek, Ev. pose proof (λ i, ca_rows _ _ _ _ _ Hc _ i Hk) as Hrows.
  assert (Hmv : ∀ r, (∀ i, region_row a1 r (layer_elems l) i =
                        moved_rows ms (region_row a r (layer_elems l)) i) →
            cell_of c' seq pos ≫= region_row (set_kv c' a1) r (layer_elems l) =
            cell_of (ga_kv a) seq pos ≫= region_row a r (layer_elems l)).
  { intros r Hrow. pose proof (Hr _ (region_row a r (layer_elems l)) seq pos Hpos) as He.
    destruct (cell_of c' seq pos) as [i|], (cell_of (ga_kv a) seq pos) as [j|];
      simpl in *; try done.
    injection He as <-. rewrite <-Hrow. done. }
  split; apply Hmv; intros i; by apply Hrows.
Qed.

Lemma plan_for_in_arena c ps : plan_for c ps → Forall (in_arena (kv_n_ctx c)) (moves_of ps).
Proof using.
  intros Hpf. apply Forall_forall. intros m (p & Hp & _ & ->)%elem_of_moves_of.
  destruct (packed_ok _ _ (pf_packed _ _ Hpf) p Hp). split; simpl; lia.
Qed.

(** The two halves of a plan, in the order the code runs them. *)
Lemma copy_then_apply a c1 ps :
  NoDup (region_keys (regions (ga_kv a))) →
  regions_fit (kv_n_ctx (ga_kv a)) a (regions (ga_kv a)) →
  Forall (λ r, br_backend r.1.2 = br_backend r.1.1) (regions (ga_kv a)) →
  ga_kv a = c1 → arranged c1 → plan_for c1 ps →
  ∃ a1 c', copy_moves (order_moves (moves_of ps)) a = (Ok (), a1) ∧ ga_kv a1 = c1 ∧
    apply_moves (moves_of ps) c1 = (Ok (sum_list_with mv_rows (order_moves (moves_of ps))), c') ∧
    plan_done ps c1 c' ∧ arena_ok (set_kv c' a1) ∧ reads_kept a (set_kv c' a1).
Proof using All.
  intros Hnd Hfit Hbk <- Harr Hpf.
  destruct (copy_moves_ok (order_moves (moves_of ps)) (kv_n_ctx (ga_kv a)) a)
    as (a1 & Hcm & Hc); [done|done| |].
  { rewrite (sort_by_perm move_le). by apply plan_for_in_arena. }
  destruct (apply_moves_packed (ga_kv a) ps Harr Hpf) as (c' & Hap & Hd).
  exists a1, c'. split_and!; [done|apply Hc|done|done| |].
  - pose proof (regions_same _ _ (pd_layers _ _ _ Hd)) as Hrg.
    split; simpl; [apply Hd|apply Hd|..]; rewrite ?Hrg, ?(pd_n_ctx _ _ _ Hd); try done. apply Hc.
  - eapply reads_kept_intro; [done|apply Hd|apply Hd].
Qed.
End rows.
