(* ===== verification/KvSteps.v ===== *)
(** * The store as a state machine

    [kv_step] is one operation of the store as its callers use it;
    [sound] is the invariant of every reachable store: the run table, the
    span lists and the owner tables agree ([kv_wf]), and every shared prefix
    lies in the written rows of a live run ([backed]).

    Some transitions carry a side condition that the code does not check and
    its callers have to keep: a run is not released while another sequence
    reads from it, a sequence does not share on a prefix longer than the part
    it shares itself, a resize to zero is a release, and the sums of a resize
    and of a removal do not wrap.  Loading a saved session is no transition:
    [restore_session] takes the table it is given. *)
From stdpp Require Import base numbers list gmap option sorting.
From S2P Require Import Prelude Slices KvCache KvFacts KvMoves KvPlans.

(** Another sequence reads rows of [seq]'s run. *)
Definition donates (c : KvCache) (seq : N) : Prop :=
  ∃ s a b, s ≠ seq ∧ kv_seqs c !! s = Some a ∧ kv_seqs c !! seq = Some b ∧
    0 < sh_rows (sl_shared a) ∧
    ¬ ranges_disjoint (sh_cell (sl_shared a)) (sh_rows (sl_shared a)) (sl_start b) (sl_cap b).

(** The first [rows] positions of [src] lie in one run. *)
Definition one_run (c : KvCache) (src : N) (rows : nat) : Prop :=
  ∀ donor, kv_seqs c !! src = Some donor →
    sh_rows (sl_shared donor) = 0 ∨ rows ≤ sh_rows (sl_shared donor).

Inductive kv_step : KvCache → KvCache → Prop :=
| step_capacity c n :
    kv_seqs c = ∅ → kv_layers c = ∅ → kv_step c (set_n_ctx n c)
| step_layer c layer k v n_embd row_elems packed :
    kv_step c (insert_layer layer k v n_embd row_elems (kv_n_ctx c) packed c)
| step_reserve c seq cap slot c' :
    reserve_seq seq cap c = (Ok slot, c') → kv_step c c'
| step_release c seq :
    ¬ donates c seq → kv_step c (release_seq seq c).2
| step_own_range c seq from to : kv_step c (own_range seq from to c)
| step_own_positions c seq ps : kv_step c (own_positions seq ps c).2
| step_share c src dst rows c' :
    one_run c src rows → share_prefix src dst rows c = (Ok (), c') → kv_step c c'
| step_private c seq t sh c' :
    private_row_for seq t c = Ok (Some sh) → apply_private_row sh c = (Ok (), c') →
    kv_step c c'
| step_rm c start len :
    usize_sized (start + len) → usize_sized (kv_n_ctx c) → kv_step c (after_rm start len c).2
| step_compact c need n c' :
    apply_moves (compaction_plan need c) c = (Ok n, c') → kv_step c c'
| step_resize c seq cap moves c1 n c' :
    0 < cap → usize_sized (kv_n_ctx c + cap) →
    set_cap seq cap c = (Ok moves, c1) → apply_moves moves c1 = (Ok n, c') →
    kv_step c c'.

Definition reachable : KvCache → Prop := rtc kv_step kv_new.

Record sound (c : KvCache) : Prop := {
  so_wf : kv_wf c;
  so_backed : backed (kv_seqs c)
}.

(** ** Shared prefixes stay backed *)

Lemma backed_no_share seqs :
  map_Forall (λ _ s, sh_rows (sl_shared s) = 0) seqs → backed seqs.
Proof. intros H s a Ha Hr. specialize (H s a Ha). simpl in H. lia. Qed.

(** A donor of [seq] is still one after [seq']'s slot changes, if that slot
    keeps its place and its written rows. *)
Lemma backed_update seqs k v v' :
  seqs !! k = Some v → sl_start v' = sl_start v →
  private_written v ≤ private_written v' →
  (0 < sh_rows (sl_shared v') →
     sh_cell (sl_shared v') = sh_cell (sl_shared v) ∧
     sh_rows (sl_shared v') ≤ sh_rows (sl_shared v)) →
  backed seqs → backed (<[k := v']> seqs).
Proof.
  intros Hk Hst Hpw Hsh Hb s a.
  assert (Hdon : ∀ d b, seqs !! d = Some b → ∃ b', <[k := v']> seqs !! d = Some b' ∧
            sl_start b' = sl_start b ∧ private_written b ≤ private_written b').
  { intros d b Hd. rewrite lookup_insert. case_decide; [subst; simplify_eq|]; eauto. }
  rewrite lookup_insert. case_decide as Heq.
  - intros [= <-] Hr. subst s. destruct (Hsh Hr) as [Ec Er].
    destruct (Hb k v Hk ltac:(lia)) as (d & b & Hd & Hdb & Hlo & Hhi).
    destruct (Hdon d b Hdb) as (b' & ? & E1 & E2). exists d, b'. rewrite E1, Ec.
    split_and!; [done..|lia].
  - intros Ha Hr. destruct (Hb s a Ha Hr) as (d & b & Hd & Hdb & Hlo & Hhi).
    destruct (Hdon d b Hdb) as (b' & ? & E1 & E2). exists d, b'. rewrite E1.
    split_and!; [done..|lia].
Qed.

Lemma backed_fresh seqs k v :
  seqs !! k = None → sh_rows (sl_shared v) = 0 → backed seqs → backed (<[k := v]> seqs).
Proof.
  intros Hk Hsh Hb s a. rewrite lookup_insert. case_decide as Heq.
  - intros [= <-] Hr. lia.
  - intros Ha Hr. destruct (Hb s a Ha Hr) as (d & b & Hd & Hdb & Hlo & Hhi).
    exists d, b. rewrite lookup_insert_ne by congruence. done.
Qed.

Lemma sound_reserve c seq cap slot c' :
  sound c → reserve_seq seq cap c = (Ok slot, c') → sound c'.
Proof.
  intros [Hwf Hb] H. split; [by eapply wf_reserve|]. revert H. unfold reserve_seq.
  destruct (cap =? 0); [done|].
  destruct (kv_seqs c !! seq) as [old|] eqn:Hold.
  { destruct (cap <=? sl_cap old); [|done]. by intros [= <- <-]. }
  destruct (kv_n_ctx c =? 0); [done|].
  destruct (first_fit cap 0 0 (occupied c)) as [st|]; [|done].
  intros [= <- <-]. autorewrite with kv. simpl. by apply backed_fresh.
Qed.

Lemma kv_seqs_release c seq : kv_seqs (release_seq seq c).2 = delete seq (kv_seqs c).
Proof.
  unfold release_seq. destruct (kv_seqs c !! seq) as [slot|] eqn:Hs; simpl.
  - by autorewrite with kv.
  - by rewrite delete_id.
Qed.

Lemma sound_release c seq : sound c → ¬ donates c seq → sound (release_seq seq c).2.
Proof.
  intros [Hwf Hb] Hno. split; [by apply wf_release|]. rewrite kv_seqs_release.
  intros s a. rewrite lookup_delete_Some. intros [Hne Ha] Hr.
  destruct (Hb s a Ha Hr) as (d & b & Hd & Hdb & Hlo & Hhi).
  exists d, b. rewrite lookup_delete_ne; [done|]. intros ->. apply Hno.
  exists s, a, b. split_and!; [done..|]. unfold ranges_disjoint.
  destruct (wf_slot _ _ _ Hwf Hdb). unfold private_written in *. lia.
Qed.

Lemma backed_written seqs k w :
  (∀ v, seqs !! k = Some v → sl_written v ≤ w) →
  backed seqs → backed (alter (set_written w) k seqs).
Proof.
  intros Hw Hb. destruct (seqs !! k) as [v|] eqn:Hk.
  - replace (alter (set_written w) k seqs) with (<[k := set_written w v]> seqs).
    + apply (backed_update _ _ v); try done. unfold private_written; simpl.
      specialize (Hw v eq_refl). lia.
    + apply map_eq. intros j. rewrite lookup_insert, lookup_alter.
      case_decide; [|done]. subst. by rewrite Hk.
  - by rewrite alter_missing.
Qed.

Lemma sound_own_range c seq from to : sound c → sound (own_range seq from to c).
Proof.
  intros [Hwf Hb]. split; [by apply wf_own_range|]. unfold own_range; simpl.
  set (c1 := set_layers _ c). assert (Hc1 : coherent c1) by apply Hwf.
  apply (backed_written (kv_seqs c1)); [|done]. intros v Hv.
  unfold raise_written, written_rows. rewrite Hv. simpl.
  pose proof (wf_slot _ _ _ Hwf Hv) as Hok.
  apply (raise_written_bound c1 seq from _ _ (sh_rows (sl_shared v) + sl_cap v)); [apply Hok|].
  intros cell pos. rewrite (pos_of_cell_slot _ _ _ v Hc1 Hv). apply find_map_pos_bound.
Qed.

Lemma sound_own_positions c seq ps : sound c → sound (own_positions seq ps c).2.
Proof.
  revert c. induction ps as [|pos ps IH]; intros c H; simpl; [done|].
  destruct (cell_of c seq pos); [|done]. by apply IH, sound_own_range.
Qed.

Lemma sound_share c src dst rows c' :
  sound c → one_run c src rows → share_prefix src dst rows c = (Ok (), c') → sound c'.
Proof.
  intros [Hwf Hb] Hone Hsh. split; [by eapply wf_share|].
  apply share_prefix_inv in Hsh as
    (donor & slot & cell & Hr & Hne & Hsrc & Hw & Hdst & Hs0 & Hw0 & Hc0 & _ & ->).
  autorewrite with kv. simpl.
  rewrite cell_of_slot, Hsrc in Hc0 by apply Hwf. simpl in Hc0.
  set (new := set_written _ _).
  assert (Hpw : private_written slot = 0) by (unfold private_written; lia).
  assert (Hdon : ∃ d b, d ≠ dst ∧ kv_seqs c !! d = Some b ∧ sl_start b ≤ cell ∧
            cell + rows ≤ sl_start b + private_written b).
  { unfold slot_cell in Hc0. destruct (Hone donor Hsrc) as [Hz|Hle].
    - rewrite decide_False in Hc0 by lia. case_decide; [|done]. simplify_eq.
      exists src, donor. unfold private_written. split_and!; [done|done|lia..].
    - rewrite decide_True in Hc0 by lia. simplify_eq.
      destruct (Hb src donor Hsrc ltac:(lia)) as (d & b & Hd & Hdb & Hlo & Hhi).
      exists d, b. split_and!; [|done|lia..]. intros ->. simplify_eq. lia. }
  intros s a. rewrite lookup_insert. case_decide as Hs.
  - intros [= <-] _. subst s. destruct Hdon as (d & b & Hd & Hdb & Hlo & Hhi).
    exists d, b. rewrite lookup_insert_ne by congruence. done.
  - intros Ha Hra. destruct (Hb s a Ha Hra) as (d & b & Hd & Hdb & Hlo & Hhi).
    exists d, b. rewrite lookup_insert_ne; [done|]. intros <-. simplify_eq. lia.
Qed.

Lemma sound_private c seq t sh c' :
  sound c → private_row_for seq t c = Ok (Some sh) → apply_private_row sh c = (Ok (), c') →
  sound c'.
Proof.
  intros [Hwf Hb] Hp Ha. split; [by eapply wf_private_row|].
  pose proof Hp as (slot & Hs & Ht & _ & _)%private_row_for_inv.
  destruct (apply_private_row_ok _ _ _ _ _ Hwf Hp Hs) as (l & c1 & _ & Ha' & _ & _ & _ & Hq).
  rewrite Ha in Ha'. simplify_eq. rewrite Hq.
  apply (backed_update _ _ slot); [done|done| | |done]; simpl.
  - unfold private_written; simpl. lia.
  - intros _. split; [done|lia].
Qed.

Lemma rm_layers_seqs start len ls nu c :
  kv_seqs (rm_layers start len ls nu c).2 = kv_seqs c.
Proof.
  revert nu c. induction ls as [|[k l] ls IH]; intros nu c; simpl; [done|].
  destruct (_ <? _); [done|]. destruct (rm_layer start len l); [|done]. by rewrite IH.
Qed.

Lemma sound_rm c start len :
  usize_sized (start + len) → usize_sized (kv_n_ctx c) → sound c → sound (after_rm start len c).2.
Proof.
  intros Hsl Hn [Hwf Hb]. split; [by apply wf_after_rm|]. unfold after_rm.
  destruct (existsb _ _); [done|].
  destruct (kv_seqs c !! SEQ_MAIN) as [slot|]; [destruct (0 <? _); [done|]|];
    by rewrite rm_layers_seqs.
Qed.

Lemma sound_compact c need n c' :
  sound c → apply_moves (compaction_plan need c) c = (Ok n, c') → sound c'.
Proof.
  intros [Hwf Hb] Ha. destruct (compaction_plan_for need c Hwf) as (Hpf & Heq & _).
  rewrite Heq in Ha. destruct (apply_moves_packed c _ (wf_arranged c Hwf Hb) Hpf) as (c1 & Ha' & Hd).
  rewrite Ha in Ha'. simplify_eq. split; apply Hd.
Qed.

Lemma sound_resize c seq cap moves c1 n c' :
  sound c → 0 < cap → usize_sized (kv_n_ctx c + cap) →
  set_cap seq cap c = (Ok moves, c1) → apply_moves moves c1 = (Ok n, c') →
  sound c'.
Proof.
  intros [Hwf Hb] Hcap Hsz Hset Ha.
  destruct (set_cap_ok_inv c seq cap moves c1 Hcap Hset) as (slot & Hs & _).
  destruct (set_cap_plan c seq cap moves c1 Hwf Hb Hcap (sized_sum_fits _ _ _ _ Hwf Hs Hsz) Hset) as (ps & Harr & Hpf & ->).
  destruct (apply_moves_packed c1 ps Harr Hpf) as (c2 & Ha' & Hd).
  rewrite Ha in Ha'. simplify_eq. split; apply Hd.
Qed.

Lemma sound_layer c layer k v n_embd row_elems packed :
  sound c → sound (insert_layer layer k v n_embd row_elems (kv_n_ctx c) packed c).
Proof.
  intros [[Hc Hs Hd Hl] Hb]. unfold insert_layer. rewrite Nat.max_id.
  split; [|done]. split; simpl; try done.
  apply map_Forall_insert_2; [|done]. simpl. rewrite length_replicate. lia.
Qed.

Lemma sound_step c c' : sound c → kv_step c c' → sound c'.
Proof.
  intros H Hs. destruct Hs.
  - destruct H as [[Hc Hs Hd Hl] Hb]. split; [|done].
    split; simpl; rewrite ?H0, ?H1; [done|apply map_Forall_empty|by rewrite H0 in Hd|apply map_Forall_empty].
  - by apply sound_layer.
  - by eapply sound_reserve.
  - by apply sound_release.
  - by apply sound_own_range.
  - by apply sound_own_positions.
  - by eapply sound_share.
  - by eapply sound_private.
  - by apply sound_rm.
  - by eapply sound_compact.
  - by eapply sound_resize.
Qed.

Lemma sound_new : sound kv_new.
Proof. split; [apply wf_new|apply backed_no_share, map_Forall_empty]. Qed.

Lemma sound_steps c c' : rtc kv_step c c' → sound c → sound c'.
Proof. induction 1; [done|]. intros. by eapply IHrtc, sound_step. Qed.
