(* ===== verification/KvProps.v ===== *)
(** * The KV arena keeps its promises

    Compaction, resizing and reservation on a sound arena: they succeed when
    there is room, they keep the arena sound, and every written position of
    every sequence still reads the rows stored for it. *)
From stdpp Require Import base numbers list gmap option sorting.
From S2P Require Import Prelude Slices KvCache KvFacts KvMoves KvPlans Batch KvArena KvRows KvSteps.
Import CpuPool.

(** ** The plan of a compaction is already in a safe order *)

Lemma order_moves_down ps :
  StronglySorted placed_before ps → Forall (λ p, pl_to p ≤ sl_start (pl_slot p)) ps →
  order_moves (moves_of ps) = moves_of ps.
Proof.
  intros Hs Hd. apply sort_by_id. induction Hs as [|p ps Hs IH Hp]; [constructor|].
  apply Forall_cons in Hd as [Hd1 Hd]. unfold moves_of. simpl. fold (moves_of ps).
  unfold place_move. destruct (Nat.eqb_spec (sl_start (pl_slot p)) (pl_to p)); [by apply IH|].
  simpl. constructor; [by apply IH|]. apply Forall_forall.
  intros m (q & Hq & Hne & ->)%elem_of_moves_of. rewrite Forall_forall in Hp, Hd.
  destruct (Hp q Hq) as (_ & _ & ? & _). pose proof (Hd q Hq). unfold move_le. simpl.
  rewrite !(proj2 (Nat.ltb_ge _ _)) by lia. apply Nat.leb_le. lia.
Qed.

Lemma order_moves_idem ms : order_moves (order_moves ms) = order_moves ms.
Proof. apply sort_by_id, sort_by_sorted; [apply move_le_total|apply move_le_trans]. Qed.

Lemma apply_moves_ordered ms c : apply_moves (order_moves ms) c = apply_moves ms c.
Proof.
  unfold apply_moves. rewrite order_moves_idem.
  assert (Hnil : order_moves ms = [] ↔ ms = []).
  { split; [|by intros ->]. intros H. apply Permutation_nil. rewrite <-H. apply sort_by_perm. }
  do 2 case_decide; tauto || done.
Qed.

(** ** Capacity *)

Lemma wf_reserved c : kv_wf c → reserved c ≤ kv_n_ctx c.
Proof.
  apply wf_caps_sum.
Qed.

Lemma reserved_caps c :
  reserved c = sum_list (map snd (in_order (sl_cap <$> kv_seqs c))).
Proof.
  unfold reserved. rewrite in_order_fmap, map_map. simpl.
  induction (in_order (kv_seqs c)) as [|p l IH]; simpl; [done|]. by rewrite IH.
Qed.

Lemma reserved_done ps c c' : plan_for c ps → plan_done ps c c' → reserved c' = reserved c.
Proof.
  intros Hpf Hd. rewrite !reserved_caps. do 3 f_equal. apply map_eq. intros s.
  rewrite !lookup_fmap. destruct (kv_seqs c !! s) as [a|] eqn:Ha.
  - destruct (plan_for_place c ps s a Hpf Ha) as (p & Hp & <- & <-).
    pose proof (pd_places _ _ _ Hd p Hp) as Hpl.
    destruct (kv_seqs c' !! pl_seq p); simpl in *; congruence.
  - destruct (kv_seqs c' !! s) as [b|] eqn:Hb; [|done].
    destruct (pd_covered _ _ _ Hd s) as (p & Hp & <-); [by eexists|].
    by rewrite (plan_for_slot c ps p Hpf Hp) in Ha.
Qed.

Lemma reserved_insert c seq slot :
  kv_seqs c !! seq = None →
  sum_list_with (λ p, sl_cap p.2) (in_order (<[seq := slot]> (kv_seqs c))) =
    sl_cap slot + reserved c.
Proof.
  intros Hnone. unfold reserved.
  rewrite (in_order_perm (<[seq:=slot]> (kv_seqs c))), map_to_list_insert by done.
  simpl. by rewrite in_order_perm.
Qed.

(** ** A fresh reservation *)

Lemma reserve_fresh_inv c seq cap slot c' :
  kv_seqs c !! seq = None → reserve_seq seq cap c = (Ok slot, c') →
  ∃ st, slot = slot_new st cap ∧ 0 < cap ∧ free_at (occupied c) cap st ∧
    (∀ st', st' < st → ¬ free_at (occupied c) cap st') ∧
    c' = refresh_spans seq (set_seqs (<[seq := slot]> (kv_seqs c)) c).
Proof.
  intros Hnone. unfold reserve_seq. rewrite Hnone.
  destruct (Nat.eqb_spec cap 0); [done|]. destruct (kv_n_ctx c =? 0); [done|].
  destruct (first_fit cap 0 0 (occupied c)) as [st|] eqn:Hff; [|done].
  intros [= <- <-]. apply first_fit_some in Hff as [Hf Hmin]; [|lia].
  exists st. split_and!; [done|lia|done..].
Qed.

Lemma reserve_fresh_ok c seq cap st :
  kv_seqs c !! seq = None → 0 < cap → free_at (occupied c) cap st →
  ∃ slot c', reserve_seq seq cap c = (Ok slot, c').
Proof.
  intros Hnone Hcap Hf. pose proof (free_at_bound c cap st Hcap Hf). unfold reserve_seq.
  rewrite Hnone. rewrite !(proj2 (Nat.eqb_neq _ _)) by lia.
  destruct (first_fit cap 0 0 (occupied c)) as [st'|] eqn:Hff; [by eauto|].
  by apply first_fit_none with (st := st) in Hff.
Qed.

Lemma reserve_fails c seq cap e c' : reserve_seq seq cap c = (Err e, c') → c' = c.
Proof.
  unfold reserve_seq. repeat case_match; by intros [= <- <-].
Qed.

Lemma reserve_no_panic c seq cap c' : reserve_seq seq cap c ≠ (Panic, c').
Proof. unfold reserve_seq. repeat case_match; done. Qed.

Section props.
Context {W P : Type} `{!CellPool W P, !CellPoolLaws W P}.
Implicit Types (a : Alloc P).

Lemma reads_kept_refl a : reads_kept a a.
Proof using. done. Qed.

Lemma copy_moves_nil a : copy_moves [] a = (Ok (), a).
Proof using.
  unfold copy_moves. generalize (regions (ga_kv a)). intros rs.
  induction rs as [|[[k v] e] rs IH]; simpl; [done|]. apply IH.
Qed.

Lemma kv_defrag_done need a :
  arena_ok a →
  ∃ rep a', kv_defrag need a = (Ok rep, a') ∧ rep_moves rep = compaction_plan need (ga_kv a) ∧
    plan_done (plan_of need (ga_kv a)) (ga_kv a) (ga_kv a') ∧
    arena_ok a' ∧ reads_kept a a'.
Proof using All.
  intros [Hwf Hb Hk Hfit Hbk].
  destruct (compaction_plan_for need (ga_kv a) Hwf) as (Hpf & Hplan & Hdown).
  pose proof (wf_arranged _ Hwf Hb) as Harr.
  destruct (copy_then_apply a (ga_kv a) _ Hk Hfit Hbk eq_refl Harr Hpf)
    as (a1 & c' & Hcm & Hkv & Hap & Hd & Hok & Hr).
  rewrite order_moves_down in Hcm by (apply Hpf || done).
  rewrite <-Hplan in Hcm, Hap.
  unfold kv_defrag. case_decide as Hnil.
  - rewrite Hnil in *. simpl in *. injection Hap as <-.
    assert (a1 = a) as ->.
    { rewrite copy_moves_nil in Hcm. by simplify_eq. }
    eexists _, a. split_and!; [done|done|done|by split|done].
  - rewrite Hcm. unfold on_kv. rewrite Hkv, Hap. simpl. eexists _, _. by split_and!.
Qed.

Lemma set_kv_reserve a seq cap slot c' :
  arena_ok a → kv_seqs (ga_kv a) !! seq = None →
  reserve_seq seq cap (ga_kv a) = (Ok slot, c') →
  arena_ok (set_kv c' a) ∧ reads_kept a (set_kv c' a).
Proof using.
  intros [Hwf Hb Hk Hfit Hbk] Hnone Hres.
  destruct (sound_reserve (ga_kv a) seq cap slot c') as [Hwf' Hb']; [by split|done|].
  apply reserve_fresh_inv in Hres as (st & _ & _ & _ & _ & ->); [|done].
  set (c' := refresh_spans _ _) in *.
  assert (Hrg : regions c' = regions (ga_kv a)) by (unfold regions, c'; by autorewrite with kv).
  assert (Hn : kv_n_ctx c' = kv_n_ctx (ga_kv a)) by (unfold c'; by autorewrite with kv).
  split.
  - split; cbn [ga_kv set_kv]; rewrite ?Hrg, ?Hn; done.
  - intros layer s pos Hpos. unfold read_k, read_v, read_row. simpl.
    assert (Hcell : cell_of c' s pos = cell_of (ga_kv a) s pos);
      [|unfold c' in *; autorewrite with kv; simpl; by rewrite Hcell].
    rewrite !cell_of_slot by (apply Hwf' || apply Hwf). unfold c'. autorewrite with kv. simpl.
    rewrite lookup_insert_ne; [done|]. intros <-. unfold written_rows in Hpos.
    rewrite Hnone in Hpos. simpl in Hpos. lia.
Qed.
End props.

(** ** A small arena to try the operations on *)
Module Demo.
Definition k0 : BufRef := mkBufRef 0 0 0 16.
Definition v0 : BufRef := mkBufRef 0 1 0 16.

(** Eight cells of two elements; sequence 1 left a hole below sequence 2. *)
Definition kv0 : KvCache := insert_layer 0 k0 v0 2 2 8 false (set_n_ctx 8 kv_new).
Definition kv1 : KvCache := (reserve_seq 2 3 (reserve_seq 1 2 kv0).2).2.
Definition kv2 : KvCache := (release_seq 1 (own_positions 2 [0; 1] kv1).2).2.

(** Sequence 2 reads the three rows of sequence 1 in place. *)
Definition kv3a : KvCache :=
  (reserve_seq 2 4 (own_positions 1 [0; 1; 2] (reserve_seq 1 3 kv0).2).2).2.
Definition kv3 : KvCache := (share_prefix 1 2 3 kv3a).2.

Definition pool0 : CpuPool.pool N := [map N.of_nat (List.seq 0 16); map N.of_nat (List.seq 100 16)].
Definition with_pool (c : KvCache) : Alloc (CpuPool.pool N) := mkAlloc c {[ 0%N := pool0 ]}.
Definition arena : Alloc (CpuPool.pool N) := with_pool kv2.

Lemma reserve_sound c seq cap : sound c → sound (reserve_seq seq cap c).2.
Proof.
  intros H. destruct (reserve_seq seq cap c) as [[slot|e|] c'] eqn:Hr; simpl.
  - by eapply sound_reserve.
  - by rewrite (reserve_fails _ _ _ _ _ Hr).
  - by apply reserve_no_panic in Hr.
Qed.

Lemma no_donor c seq :
  forallb (λ p, (p.1 =? seq)%N || (sh_rows (sl_shared p.2) =? 0)) (in_order (kv_seqs c)) = true →
  ¬ donates c seq.
Proof.
  intros Hf (s & a & b & Hne & Ha & _ & Hr & _).
  rewrite forallb_forall in Hf. specialize (Hf (s, a)). simpl in Hf.
  rewrite orb_true_iff, N.eqb_eq, Nat.eqb_eq in Hf.
  destruct Hf; [by apply list_elem_of_In, elem_of_in_order|done|lia].
Qed.

Lemma kv0_sound : sound kv0.
Proof.
  apply (sound_layer (set_n_ctx 8 kv_new)). apply (sound_step kv_new); [apply sound_new|].
  by apply step_capacity.
Qed.

Lemma kv2_sound : sound kv2.
Proof.
  apply sound_release; [|apply no_donor; by vm_compute].
  apply sound_own_positions, reserve_sound, reserve_sound, kv0_sound.
Qed.

Lemma kv3_sound : sound kv3.
Proof.
  apply (sound_share kv3a 1 2 3); [| |by vm_compute].
  - apply reserve_sound, sound_own_positions, reserve_sound, kv0_sound.
  - intros donor Hd. left. revert Hd. vm_compute. by intros [= <-].
Qed.

Lemma demo_arena_ok c :
  sound c → kv_n_ctx c = 8 → regions c = [(k0, v0, 2)] →
  arena_ok (with_pool c).
Proof.
  intros [Hwf Hb] Hn Hr. split; simpl; rewrite ?Hr, ?Hn; [done|done| | |].
  - apply (bool_decide_unpack _). by vm_compute.
  - repeat constructor; simpl; (eexists; split_and!; [reflexivity|by vm_compute|simpl; lia]).
  - by repeat constructor.
Qed.

Lemma arena_sound : arena_ok arena.
Proof. apply demo_arena_ok; [apply kv2_sound|by vm_compute..]. Qed.

(** Two runs side by side, both written. *)
Definition full : Alloc (CpuPool.pool N) :=
  with_pool (own_positions 1 [0; 1] (own_positions 2 [0; 1] kv1).2).2.

Lemma full_sound : arena_ok full.
Proof.
  apply demo_arena_ok; [|by vm_compute..].
  apply sound_own_positions, sound_own_positions, reserve_sound, reserve_sound, kv0_sound.
Qed.

Lemma sharing_sound : arena_ok (with_pool kv3).
Proof. apply demo_arena_ok; [apply kv3_sound|by vm_compute..]. Qed.
End Demo.

(** ** The theorems *)
Section theorems.
Context {W P : Type} `{!CellPool W P, !CellPoolLaws W P}.
Implicit Types (a : Alloc P).

(** C1. Compaction never fails on a sound arena.  It only moves runs down,
    it leaves the arena sound, every sequence keeps its written positions,
    and the K and V row of each written position is the row that was stored
    for it before. *)
Theorem kv_defrag_keeps_rows need a :
  arena_ok a →
  ∃ rep a', kv_defrag need a = (Ok rep, a') ∧ arena_ok a' ∧ reads_kept a a' ∧
    (∀ seq, written_rows (ga_kv a') seq = written_rows (ga_kv a) seq) ∧
    (∀ m, m ∈ rep_moves rep → mv_to m < mv_from m) ∧
    reserved (ga_kv a') = reserved (ga_kv a).
Proof using All.
  intros Hok. destruct (kv_defrag_done need a Hok) as (rep & a' & Heq & Hm & Hd & Hok' & Hr).
  destruct (compaction_plan_for need (ga_kv a) (ao_wf _ Hok)) as (Hpf & Hplan & Hdown).
  exists rep, a'. split_and!; [done|done|done|apply Hd| |by eapply reserved_done].
  intros m. rewrite Hm, Hplan. intros (p & Hp & Hne & ->)%elem_of_moves_of. simpl.
  rewrite Forall_forall in Hdown. specialize (Hdown p Hp). lia.
Qed.

Lemma kv_reserve_fits seq cap a :
  arena_ok a → 0 < cap → kv_seqs (ga_kv a) !! seq = None →
  reserved (ga_kv a) + cap ≤ kv_n_ctx (ga_kv a) →
  ∃ slot moves a', kv_reserve_seq_with_defrag true seq cap a = (Ok (slot, moves), a') ∧
    arena_ok a' ∧ reads_kept a a' ∧
    kv_seqs (ga_kv a') !! seq = Some slot ∧ sl_cap slot = cap.
Proof using All.
  intros Hok Hcap Hnone Hroom. unfold kv_reserve_seq_with_defrag.
  destruct (reserve_seq seq cap (ga_kv a)) as [[slot|e|] c'] eqn:Hres.
  - destruct (set_kv_reserve a seq cap slot c' Hok Hnone Hres) as [Hok' Hr].
    apply reserve_fresh_inv in Hres as (st & -> & _ & _ & _ & ->); [|done].
    eexists _, [], _. split_and!; [done|done|done| |done]. simpl. autorewrite with kv. simpl.
    by rewrite lookup_insert_eq.
  - apply reserve_fails in Hres as Hc. subst c'.
    replace (set_kv (ga_kv a) a) with a by by destruct a. simpl.
    destruct (kv_defrag_done (Some cap) a Hok) as (rep & a1 & -> & Hm & Hd & Hok1 & Hr1).
    destruct (compaction_plan_for (Some cap) (ga_kv a) (ao_wf _ Hok)) as (Hpf & Hplan & _).
    destruct (compacted_room (ga_kv a) (Some cap) cap (ga_kv a1) (ao_wf _ Hok)) as [g Hg];
      [by intros ? [= ->]|done|done|].
    assert (Hnone1 : kv_seqs (ga_kv a1) !! seq = None).
    { apply eq_None_not_Some. intros Hs. destruct (pd_covered _ _ _ Hd seq Hs) as (p & Hp & <-).
      by rewrite (plan_for_slot _ _ p Hpf Hp) in Hnone. }
    destruct (reserve_fresh_ok (ga_kv a1) seq cap g) as (slot & c2 & Hres2); [done..|].
    case_decide as Hnil.
    + exfalso. rewrite Hm in Hnil.
      destruct (apply_moves_packed (ga_kv a) _ (wf_arranged _ (ao_wf _ Hok) (ao_backed _ Hok)) Hpf)
        as (c3 & Hap & Hd3).
      rewrite <-Hplan, Hnil in Hap. simpl in Hap. injection Hap as <-.
      destruct (compacted_room (ga_kv a) (Some cap) cap (ga_kv a) (ao_wf _ Hok)) as [g' Hg'];
        [by intros ? [= ->]|done|done|].
      destruct (reserve_fresh_ok (ga_kv a) seq cap g') as (? & ? & Hx); [done..|]. congruence.
    + rewrite Hres2. simpl.
      destruct (set_kv_reserve a1 seq cap slot c2 Hok1 Hnone1 Hres2) as [Hok2 Hr2].
      apply reserve_fresh_inv in Hres2 as (st & -> & _ & _ & _ & ->); [|done].
      eexists _, _, _. split_and!; [done|done| | |done].
      * intros layer s pos Hpos. destruct (Hr1 layer s pos Hpos) as [<- <-].
        apply Hr2. by rewrite (pd_written _ _ _ Hd).
      * simpl. autorewrite with kv. simpl. by rewrite lookup_insert_eq.
  - by apply reserve_no_panic in Hres.
Qed.

(** C2. On a sound arena a new sequence gets its run exactly when the arena
    has that many unreserved cells, fragmented or not; and whether it does or
    not, the arena stays sound and no stored row is lost. *)
Theorem kv_reserve_seq_with_defrag_complete seq cap a :
  arena_ok a → 0 < cap → kv_seqs (ga_kv a) !! seq = None →
  (reserved (ga_kv a) + cap ≤ kv_n_ctx (ga_kv a) ∧
   ∃ slot moves a', kv_reserve_seq_with_defrag true seq cap a = (Ok (slot, moves), a') ∧
     arena_ok a' ∧ reads_kept a a' ∧
     kv_seqs (ga_kv a') !! seq = Some slot ∧ sl_cap slot = cap) ∨
  (kv_n_ctx (ga_kv a) < reserved (ga_kv a) + cap ∧
   ∃ e a', kv_reserve_seq_with_defrag true seq cap a = (Err e, a') ∧
     arena_ok a' ∧ reads_kept a a').
Proof using All.
  intros Hok Hcap Hnone. destruct (Nat.le_gt_cases (reserved (ga_kv a) + cap) (kv_n_ctx (ga_kv a)))
    as [Hle|Hgt]; [left|right]; (split; [done|]).
  { by apply kv_reserve_fits. }
  assert (Hno : ∀ c slot c', kv_wf c → kv_seqs c !! seq = None →
            kv_n_ctx c < reserved c + cap → reserve_seq seq cap c ≠ (Ok slot, c')).
  { intros c slot c' Hwf Hn Hlt Hres. pose proof (wf_reserve _ _ _ _ _ Hwf Hres) as Hwf'.
    apply wf_reserved in Hwf'. apply reserve_fresh_inv in Hres as (st & -> & _ & _ & _ & ->); [|done].
    unfold reserved in Hwf' at 1. autorewrite with kv in Hwf'. simpl in Hwf'.
    rewrite reserved_insert in Hwf' by done. simpl in Hwf'. lia. }
  unfold kv_reserve_seq_with_defrag.
  destruct (reserve_seq seq cap (ga_kv a)) as [[slot|e|] c'] eqn:Hres.
  - exfalso. apply (Hno (ga_kv a) slot c'); [apply Hok|done..].
  - apply reserve_fails in Hres as ->. replace (set_kv (ga_kv a) a) with a by by destruct a. simpl.
    destruct (kv_defrag_done (Some cap) a Hok) as (rep & a1 & -> & Hm & Hd & Hok1 & Hr1).
    destruct (compaction_plan_for (Some cap) (ga_kv a) (ao_wf _ Hok)) as (Hpf & _ & _).
    case_decide; [by eexists _, _|].
    destruct (reserve_seq seq cap (ga_kv a1)) as [[slot|e2|] c2] eqn:Hres2.
    + exfalso. apply (Hno (ga_kv a1) slot c2); [apply Hok1| | |done].
      * apply eq_None_not_Some. intros Hs. destruct (pd_covered _ _ _ Hd seq Hs) as (p & Hp & <-).
        by rewrite (plan_for_slot _ _ p Hpf Hp) in Hnone.
      * by rewrite (reserved_done _ _ _ Hpf Hd), (pd_n_ctx _ _ _ Hd).
    + apply reserve_fails in Hres2 as ->. replace (set_kv (ga_kv a1) a1) with a1 by by destruct a1.
      simpl. by eexists _, _.
    + by apply reserve_no_panic in Hres2.
  - by apply reserve_no_panic in Hres.
Qed.

Lemma set_cap_fits seq cap slot a :
  arena_ok a → 0 < cap → kv_seqs (ga_kv a) !! seq = Some slot →
  private_written slot ≤ cap → reserved (ga_kv a) + cap ≤ kv_n_ctx (ga_kv a) + sl_cap slot →
  ∃ moves c1, set_cap seq cap (ga_kv a) = (Ok moves, c1) ∧
    kv_layers c1 = kv_layers (ga_kv a) ∧ kv_n_ctx c1 = kv_n_ctx (ga_kv a) ∧
    kv_seqs c1 = <[seq := set_slot_cap cap slot]> (kv_seqs (ga_kv a)).
Proof using.
  intros Hok Hcap Hs Hpw Hsum. unfold set_cap. rewrite Hs.
  assert (Hres : reserved (ga_kv a) = sl_cap slot + sum_list_with (λ p, sl_cap p.2)
            (List.filter (λ p, negb (p.1 =? seq)%N) (in_order (kv_seqs (ga_kv a))))).
  { unfold reserved. by rewrite (sum_without _ seq slot) by
      (apply NoDup_in_order_keys || by apply elem_of_in_order). }
  destruct (Nat.eqb_spec cap (sl_cap slot)) as [->|Hne].
  { eexists _, _. split_and!; [done..|]. symmetry. apply insert_id.
    rewrite Hs. by destruct slot. }
  rewrite (proj2 (Nat.eqb_neq cap 0)) by lia.
  rewrite (proj2 (Nat.ltb_ge cap (private_written slot))) by lia.
  rewrite (proj2 (Nat.ltb_ge (kv_n_ctx (ga_kv a)) _)) by
    (etransitivity; [apply usize_add_le|lia]).
  rewrite !andb_false_r. eexists _, _. split; [done|]. autorewrite with kv. done.
Qed.

(** The rows are where they were while only the run table has changed. *)
Lemma resize_reads seq cap slot a c1 :
  arena_ok a → kv_seqs (ga_kv a) !! seq = Some slot → private_written slot ≤ cap →
  coherent c1 → kv_layers c1 = kv_layers (ga_kv a) →
  kv_seqs c1 = <[seq := set_slot_cap cap slot]> (kv_seqs (ga_kv a)) →
  reads_kept a (set_kv c1 a).
Proof using.
  intros Hok Hs Hpw Hcoh Hl Hq layer s pos Hpos. unfold read_k, read_v, read_row. simpl. rewrite Hl.
  assert (Hcell : cell_of c1 s pos = cell_of (ga_kv a) s pos); [|by rewrite Hcell].
  rewrite !cell_of_slot, Hq, lookup_insert by (done || apply Hok). unfold written_rows in Hpos.
  case_decide; [subst s; rewrite Hs in *; simpl in *|done].
  destruct (wf_slot _ _ _ (ao_wf _ Hok) Hs).
  unfold slot_cell; simpl. unfold private_written in Hpw. repeat case_decide; try done; lia.
Qed.

(** C3. A run can be resized to any size its written rows and the arena
    allow, up or down: other runs move out of the way, the arena stays
    sound, and no written position of any sequence loses its row. *)
Theorem kv_set_cap_with_defrag_keeps_rows seq cap slot a :
  arena_ok a → 0 < cap → kv_seqs (ga_kv a) !! seq = Some slot →
  private_written slot ≤ cap → reserved (ga_kv a) + cap ≤ kv_n_ctx (ga_kv a) + sl_cap slot →
  ∃ slot' moves a', kv_set_cap_with_defrag true seq cap a = (Ok (slot', moves), a') ∧
    arena_ok a' ∧ reads_kept a a' ∧
    kv_seqs (ga_kv a') !! seq = Some slot' ∧ sl_cap slot' = cap.
Proof using All.
  intros Hok Hcap Hs Hpw Hsum.
  destruct (set_cap_fits seq cap slot a) as (moves & c1 & Hset & Hl & Hn & Hq); [done..|].
  destruct (set_cap_plan (ga_kv a) seq cap moves c1) as (ps & Harr & Hpf & ->);
    [apply Hok|apply Hok|done| |done|].
  { intros _. unfold reserved in Hsum. rewrite (sum_without _ seq slot) in Hsum by
      (apply NoDup_in_order_keys || by apply elem_of_in_order). simpl in Hsum. unfold others. lia. }
  assert (Hrg : regions c1 = regions (ga_kv a)) by (unfold regions; by rewrite Hl).
  assert (Hreads : reads_kept a (set_kv c1 a)).
  { apply (resize_reads seq cap slot); try done. apply Harr. }
  unfold kv_set_cap_with_defrag, seq_slot, on_kv. rewrite Hs, Hset. simpl.
  destruct (copy_then_apply (set_kv c1 a) c1 ps) as (a1 & c' & Hcm & Hkv & Hap & Hd & Hok' & Hr);
    [simpl; rewrite Hrg; apply Hok|simpl; rewrite Hrg, Hn; apply Hok|simpl; rewrite Hrg; apply Hok|
     done..|].
  assert (Hfin : ∃ slot', kv_seqs c' !! seq = Some slot' ∧ sl_cap slot' = cap).
  { destruct (plan_for_place c1 ps seq (set_slot_cap cap slot) Hpf) as (p & Hp & <- & Hsl);
      [by rewrite Hq, lookup_insert_eq|].
    pose proof (pd_places _ _ _ Hd p Hp) as Hpl.
    destruct (kv_seqs c' !! pl_seq p) as [x|]; simpl in Hpl; [|done].
    exists x. split; [done|]. injection Hpl as _ ->. by rewrite Hsl. }
  destruct Hfin as (slot' & Hs' & Hc').
  case_decide as Hnil.
  - rewrite Hnil in *. simpl in *. injection Hap as <-.
    rewrite Hs'. eexists _, _, _. split_and!; [done| |done|done|done].
    rewrite copy_moves_nil in Hcm. injection Hcm as <-. done.
  - rewrite Hcm, Hkv, apply_moves_ordered, Hap. simpl. rewrite Hs'. simpl.
    eexists _, _, _. split_and!; [done|done| |done|done].
    intros layer s pos Hpos. destruct (Hreads layer s pos Hpos) as [<- <-]. apply Hr.
    unfold written_rows in *. simpl. rewrite Hq, lookup_insert. case_decide; [|done].
    subst s. by rewrite Hs in Hpos.
Qed.

Lemma refresh_spans_eq seq c :
  refresh_spans seq c = set_spans (kv_spans (refresh_spans seq c)) c.
Proof using. unfold refresh_spans. by repeat case_match. Qed.

Lemma kv_seqs_resized seq cap slot c :
  kv_seqs (resized seq cap slot c) = <[seq := set_slot_cap cap slot]> (kv_seqs c).
Proof using. unfold resized. by autorewrite with kv. Qed.

Lemma resized_eq seq cap slot c :
  resized seq cap slot c =
    set_spans (kv_spans (resized seq cap slot c))
      (set_seqs (<[seq := set_slot_cap cap slot]> (kv_seqs c)) c).
Proof using. apply refresh_spans_eq. Qed.

Lemma resized_back seq cap slot c :
  kv_wf c → kv_seqs c !! seq = Some slot → 0 < cap →
  resized seq (sl_cap slot) (set_slot_cap cap slot) (resized seq cap slot c) = c.
Proof using.
  intros Hwf Hs Hcap. pose proof (wf_coherent _ Hwf) as Hcoh.
  destruct (wf_slot _ _ _ Hwf Hs) as [Hpos _ _ _ _].
  assert (Hslot : set_slot_cap (sl_cap slot) (set_slot_cap cap slot) = slot) by by destruct slot.
  set (c2 := resized _ _ _ _).
  assert (Hcoh' : coherent c2) by (apply coherent_insert; [by apply coherent_insert|done]).
  assert (Hseqs : kv_seqs c2 = kv_seqs c).
  { unfold c2, resized. autorewrite with kv. simpl. autorewrite with kv. simpl.
    rewrite insert_insert_eq, Hslot. by apply insert_id. }
  assert (Hspans : kv_spans c2 = kv_spans c) by (rewrite Hcoh', Hseqs; done).
  assert (Hc2 : c2 = set_spans (kv_spans c2) (set_seqs (kv_seqs c2) c)).
  { assert (Hgen : ∀ r1 r2 A X Y Z, r1 = set_spans Y (set_seqs Z c) →
              r2 = set_spans A (set_seqs X r1) →
              r2 = set_spans (kv_spans r2) (set_seqs (kv_seqs r2) c)) by (intros; by subst).
    eapply Hgen; apply resized_eq. }
  rewrite Hc2, Hseqs, Hspans. by destruct c.
Qed.

Lemma set_cap_back seq cap slot c :
  kv_wf c → kv_seqs c !! seq = Some slot → 0 < cap → cap ≠ sl_cap slot →
  ∃ moves, set_cap seq (sl_cap slot) (resized seq cap slot c) = (Ok moves, c).
Proof using.
  intros Hwf Hs Hcap Hne. pose proof (resized_back seq cap slot c Hwf Hs Hcap) as Hback.
  pose proof (wf_reserved _ Hwf) as Hres. unfold reserved in Hres.
  rewrite (sum_without _ seq slot) in Hres by
    (apply NoDup_in_order_keys || by apply elem_of_in_order). simpl in Hres.
  destruct (wf_slot _ _ _ Hwf Hs).
  assert (Hq : kv_seqs (resized seq cap slot c) = <[seq := set_slot_cap cap slot]> (kv_seqs c))
    by (unfold resized; by autorewrite with kv).
  assert (Hn : kv_n_ctx (resized seq cap slot c) = kv_n_ctx c)
    by (unfold resized; by autorewrite with kv).
  pose proof (sum_insert (λ p, sl_cap p.2) (kv_seqs c) seq slot (set_slot_cap cap slot) Hs) as Hsum.
  rewrite (sum_without _ seq (set_slot_cap cap slot)) in Hsum by
    (apply NoDup_in_order_keys || (apply elem_of_in_order; by rewrite lookup_insert_eq)).
  simpl in Hsum. unfold set_cap. rewrite Hq, Hn, lookup_insert_eq.
  change (sl_cap (set_slot_cap cap slot)) with cap.
  change (private_written (set_slot_cap cap slot)) with (private_written slot).
  rewrite !(proj2 (Nat.eqb_neq _ _)) by lia.
  rewrite (proj2 (Nat.ltb_ge (sl_cap slot) (private_written slot))) by
    (unfold private_written; lia).
  rewrite (proj2 (Nat.ltb_ge (kv_n_ctx c) _)) by (etransitivity; [apply usize_add_le|lia]).
  rewrite !andb_false_r. rewrite <-Hq.
  change (refresh_spans seq _) with (resized seq (sl_cap slot) (set_slot_cap cap slot)
    (resized seq cap slot c)). rewrite Hback. by eexists.
Qed.

Lemma set_cap_zero seq slot c :
  kv_wf c → kv_seqs c !! seq = Some slot →
  ∃ moves, set_cap seq 0 c = (Ok moves, (release_seq seq c).2).
Proof using.
  intros Hwf Hs. destruct (wf_slot _ _ _ Hwf Hs). unfold set_cap. rewrite Hs.
  rewrite (proj2 (Nat.eqb_neq 0 _)) by lia. by eexists.
Qed.

(** C39. With compaction switched off a resize that would move rows is refused.
    One to a positive size is undone: the arena is exactly what it was.  One to
    zero is not: the run is released, the undo then finds no run, and that is
    the error reported. *)
Theorem kv_set_cap_when_disabled seq cap moves c1 a :
  arena_ok a → set_cap seq cap (ga_kv a) = (Ok moves, c1) → moves ≠ [] →
  (0 < cap → kv_set_cap_with_defrag false seq cap a = (Err (AResizeDisabled seq cap), a)) ∧
  (cap = 0 → kv_set_cap_with_defrag false seq cap a = (Err (AKv (NoRun seq)), set_kv c1 a) ∧
     kv_seqs c1 = delete seq (kv_seqs (ga_kv a)) ∧ is_Some (kv_seqs (ga_kv a) !! seq)).
Proof using.
  intros Hok Hset Hne. split.
  - intros Hcap. pose proof Hset as Hinv.
    apply set_cap_ok_inv in Hinv as (slot & Hs & [(_ & ? & _)|(Hc1 & _ & Hcase)]); [done| |done].
    destruct (set_cap_back seq cap slot (ga_kv a)) as (ms & Hback); [apply Hok|done|done|lia|].
    unfold kv_set_cap_with_defrag, seq_slot, on_kv. rewrite Hs, Hset. simpl.
    rewrite decide_False by done. rewrite Hc1, Hback. simpl. by destruct a.
  - intros ->. destruct (kv_seqs (ga_kv a) !! seq) as [slot|] eqn:Hs;
      [|unfold set_cap in Hset; by rewrite Hs in Hset].
    destruct (set_cap_zero seq slot (ga_kv a)) as (ms & Hz); [apply Hok|done|].
    rewrite Hz in Hset. injection Hset as -> <-. pose proof (kv_seqs_release (ga_kv a) seq) as Hq.
    split; [|done]. unfold kv_set_cap_with_defrag, seq_slot, on_kv. rewrite Hs, Hz. simpl.
    rewrite decide_False by done. unfold set_cap at 1. rewrite Hq, lookup_delete_eq. done.
Qed.

(** ** Copy-on-write *)

(** What [kv_private_row_for] leaves of the store and the rows. *)
Lemma private_row_done seq t slot a :
  arena_ok a → kv_seqs (ga_kv a) !! seq = Some slot → t < sh_rows (sl_shared slot) →
  private_written slot + (sh_rows (sl_shared slot) - t) ≤ sl_cap slot →
  ∃ sh a1 c', kv_private_row_for seq t a = (Ok (Some sh), set_kv c' a1) ∧ sound c' ∧
    kv_n_ctx c' = kv_n_ctx (ga_kv a) ∧ layers_same (ga_kv a) c' ∧
    kv_seqs c' = <[seq := set_shared (mkShared (sh_cell (sl_shared slot)) t) slot]>
                   (kv_seqs (ga_kv a)) ∧
    copied_all [mkMove 0 (sl_start slot)
                  (sl_start slot + (sh_rows (sl_shared slot) - t)) (private_written slot)]
      (regions (ga_kv a)) (kv_n_ctx (ga_kv a)) a a1.
Proof using All.
  intros Hok Hs Ht Hroom. destruct (wf_slot _ _ _ (ao_wf _ Hok) Hs).
  set (sh := mkShift seq t (sl_start slot)
               (sl_start slot + (sh_rows (sl_shared slot) - t)) (private_written slot)).
  assert (Hp : private_row_for seq t (ga_kv a) = Ok (Some sh)).
  { unfold private_row_for. rewrite Hs. rewrite (proj2 (Nat.eqb_neq _ _)) by lia.
    rewrite (proj2 (Nat.leb_gt _ _)) by lia. simpl. by rewrite (proj2 (Nat.ltb_ge _ _)) by lia. }
  destruct (apply_private_row_ok _ _ _ _ _ (ao_wf _ Hok) Hp Hs)
    as (layers & c' & Hu & Ha & Hl & Hcoh & Hn & Hq).
  assert (Hcp : ∃ a1, (if 0 <? ks_rows sh
                       then copy_rows (ks_to sh) (ks_from sh) (ks_rows sh) a
                       else (Ok (), a)) = (Ok (), a1) ∧
            copied_all [mkMove 0 (ks_from sh) (ks_to sh) (ks_rows sh)]
              (regions (ga_kv a)) (kv_n_ctx (ga_kv a)) a a1).
  { destruct (Nat.ltb_spec 0 (ks_rows sh)) as [Hr|Hr].
    - apply copy_rows_ok; [apply Hok..| |]; simpl; unfold private_written in *; lia.
    - exists a. split; [done|]. split; [done|apply Hok| |done]. intros r i _. simpl.
      unfold move_rows. simpl. simpl in Hr. by rewrite !decide_False by lia. }
  destruct Hcp as (a1 & Hcp & Hc). exists sh, a1, c'.
  unfold kv_private_row_for. rewrite Hp, Hcp. unfold on_kv. rewrite (ca_kv _ _ _ _ _ Hc), Ha.
  split_and!; [done| |done| |done|done].
  - eapply (sound_private (ga_kv a)); [|done..]. split; apply Hok.
  - intros k. rewrite Hl, (lookup_update_all _ _ _ k Hu).
    destruct (kv_layers (ga_kv a) !! k) as [l|] eqn:Hk; simpl; [|done].
    destruct (update_all_some _ _ _ _ _ Hu Hk) as [l' Hl']. rewrite Hl'. simpl.
    revert Hl'. unfold shift_layer. rewrite bind_Some. by intros (o & _ & [= <-]).
Qed.

(** Where a position is before and after the move, and that the row follows. *)
Lemma cow_cell c seq t slot s b pos :
  kv_wf c → backed (kv_seqs c) → ¬ donates c seq → kv_seqs c !! seq = Some slot →
  t < sh_rows (sl_shared slot) →
  private_written slot + (sh_rows (sl_shared slot) - t) ≤ sl_cap slot →
  kv_seqs c !! s = Some b → pos < sl_written b →
  s ≠ seq ∨ pos < t ∨ sh_rows (sl_shared slot) ≤ pos →
  ∃ i i', slot_cell b pos = Some i ∧
    slot_cell (if decide (seq = s)
               then set_shared (mkShared (sh_cell (sl_shared slot)) t) slot else b) pos
      = Some i' ∧
    ∀ X (f : nat → X), move_rows (mkMove 0 (sl_start slot)
      (sl_start slot + (sh_rows (sl_shared slot) - t)) (private_written slot)) f i' = f i.
Proof using.
  intros Hwf Hb Hdon Hs Ht Hroom Hsb Hpos Hcase.
  destruct (wf_slot _ _ _ Hwf Hs), (wf_slot _ _ _ Hwf Hsb).
  unfold private_written in *. case_decide as Hd.
  - subst s. assert (b = slot) as -> by congruence. destruct Hcase as [|[Hlt|Hge]]; [done| |].
    + destruct (Hb seq slot Hs ltac:(lia)) as (d & x & Hne & Hx & Hlo & Hhi).
      destruct (wf_slot _ _ _ Hwf Hx). unfold private_written in *.
      pose proof (wf_disjoint _ Hwf d seq x slot Hne Hx Hs) as Hdis. unfold ranges_disjoint in Hdis.
      exists (sh_cell (sl_shared slot) + pos), (sh_cell (sl_shared slot) + pos).
      rewrite !slot_cell_shared by (simpl; lia). split_and!; [done|done|].
      intros X f. unfold move_rows. simpl. rewrite decide_False by lia. done.
    + exists (sl_start slot + (pos - sh_rows (sl_shared slot))), (sl_start slot + (pos - t)).
      rewrite !slot_cell_private by (simpl; lia). simpl. split_and!; [done|done|].
      intros X f. unfold move_rows. simpl. rewrite decide_True by lia. f_equal. lia.
  - pose proof (wf_disjoint _ Hwf s seq b slot ltac:(congruence) Hsb Hs) as Hdis.
    unfold ranges_disjoint in Hdis.
    destruct (decide (pos < sh_rows (sl_shared b))) as [Hsh|Hpr].
    + exists (sh_cell (sl_shared b) + pos), (sh_cell (sl_shared b) + pos).
      rewrite slot_cell_shared by lia. split_and!; [done|done|].
      intros X f. unfold move_rows. simpl. rewrite decide_False; [done|]. intros Hin.
      apply Hdon. exists s, b, slot. split_and!; [congruence|done..|lia|].
      unfold ranges_disjoint. lia.
    + exists (sl_start b + (pos - sh_rows (sl_shared b))), (sl_start b + (pos - sh_rows (sl_shared b))).
      rewrite slot_cell_private by lia. split_and!; [done|done|].
      intros X f. unfold move_rows. simpl. rewrite decide_False; [done|lia].
Qed.

(** C4. Copy-on-write of a sequence from whose run nobody shares: its own rows
    keep their positions, so do the shared rows below [t], no other sequence
    loses a row, and position [t] is now in the sequence's own run, where a
    store may go.  The code does not ask whether somebody shares; where
    somebody does, that sequence reads other rows afterwards
    ([KvFindings.cow_of_a_donor_leaves_its_sharer_behind]). *)
Theorem kv_private_row_for_keeps_rows seq t slot a :
  arena_ok a → kv_seqs (ga_kv a) !! seq = Some slot → t < sh_rows (sl_shared slot) →
  private_written slot + (sh_rows (sl_shared slot) - t) ≤ sl_cap slot →
  ¬ donates (ga_kv a) seq →
  ∃ sh a', kv_private_row_for seq t a = (Ok (Some sh), a') ∧ arena_ok a' ∧
    (∀ layer s pos, pos < written_rows (ga_kv a) s →
       s ≠ seq ∨ pos < t ∨ sh_rows (sl_shared slot) ≤ pos →
       read_k a' layer s pos = read_k a layer s pos ∧
       read_v a' layer s pos = read_v a layer s pos) ∧
    (∀ n, store_cell (ga_kv a') n seq t = Ok (cast_u32 (sl_start slot))).
Proof using All.
  intros Hok Hs Ht Hroom Hdon. pose proof (ao_wf _ Hok) as Hwf.
  destruct (private_row_done seq t slot a) as (sh & a1 & c' & Heq & [Hwf' Hb'] & Hn & Hl & Hq & Hc);
    [done..|].
  pose proof (regions_same _ _ Hl) as Hrg. destruct (wf_slot _ _ _ Hwf Hs).
  assert (Hcell' : ∀ s pos, cell_of c' s pos =
            kv_seqs c' !! s ≫= λ x, slot_cell x pos) by (intros; apply cell_of_slot, Hwf').
  exists sh, (set_kv c' a1). split_and!; [done| | |].
  - split; simpl; rewrite ?Hrg, ?Hn; [done|done|apply Hok|apply Hc|apply Hok].
  - set (m := mkMove 0 _ _ _) in Hc.
    intros layer s pos Hpos Hcase. unfold read_k, read_v, read_row. simpl.
    specialize (Hl layer). destruct (kv_layers (ga_kv a) !! layer) as [l|] eqn:Hk,
      (kv_layers c' !! layer) as [l'|]; simpl in *; try done.
    destruct Hl as (Ek & Ev & Ee & En). apply in_regions in Hk.
    assert (layer_elems l' = layer_elems l) as -> by (unfold layer_elems; congruence).
    rewrite Ek, Ev. pose proof (λ i, ca_rows _ _ _ _ _ Hc _ i Hk) as Hrows. simpl in Hrows.
    unfold written_rows in Hpos. destruct (kv_seqs (ga_kv a) !! s) as [b|] eqn:Hsb;
      simpl in Hpos; [|lia].
    destruct (cow_cell (ga_kv a) seq t slot s b pos) as (i & i' & Hi & Hi' & Hmv);
      [done|apply Hok|done..|]. fold m in Hmv.
    assert (Hi1 : cell_of (ga_kv a) s pos = Some i) by
      (rewrite cell_of_slot, Hsb by apply Hwf; done).
    assert (Hi2 : cell_of c' s pos = Some i').
    { rewrite Hcell', Hq, lookup_insert. case_decide; [done|by rewrite Hsb]. }
    rewrite Hi1, Hi2. simpl. change (region_row (set_kv c' a1)) with (region_row a1).
    destruct (Hrows i') as [E1 E2]. rewrite <-(Hmv _ (region_row a (lay_k l) (layer_elems l))),
      <-(Hmv _ (region_row a (lay_v l) (layer_elems l))). done.
  - intros n. unfold store_cell, seq_slot. simpl. rewrite Hq, lookup_insert_eq. simpl.
    rewrite (proj2 (Nat.ltb_ge _ _)) by lia. rewrite (proj2 (Nat.leb_gt _ _)) by lia.
    rewrite Hcell', Hq, lookup_insert_eq. simpl. unfold slot_cell. simpl.
    rewrite decide_False, decide_True by lia. simpl. by rewrite Nat.sub_diag, Nat.add_0_r.
Qed.
End theorems.

(** ** Witnesses *)

Lemma kv_defrag_keeps_rows_witness :
  arena_ok Demo.arena ∧ ∃ rep a', kv_defrag None Demo.arena = (Ok rep, a') ∧
    reads_kept Demo.arena a' ∧ rep_moves rep = [mkMove 2 2 0 2].
Proof.
  split; [apply Demo.arena_sound|].
  destruct (kv_defrag_keeps_rows None Demo.arena Demo.arena_sound)
    as (rep & a' & Heq & _ & Hr & _).
  exists rep, a'. split_and!; [done|done|]. revert Heq. vm_compute. by intros [= <- _].
Defined.

Lemma kv_reserve_seq_with_defrag_complete_witness :
  ∃ slot moves a', kv_reserve_seq_with_defrag true 3 5 Demo.arena = (Ok (slot, moves), a') ∧
    arena_ok a' ∧ reads_kept Demo.arena a'.
Proof.
  destruct (kv_reserve_seq_with_defrag_complete 3 5 Demo.arena Demo.arena_sound)
    as [(_ & slot & moves & a' & H & Hok & Hr & _)|[Hlt _]]; [lia|vm_compute; reflexivity|exact (ex_intro _ slot (ex_intro _ moves (ex_intro _ a' (conj H (conj Hok Hr)))))|].
  exfalso. revert Hlt. vm_compute. lia.
Defined.

Definition demo_slot : SeqSlot := mkSlot 2 3 (mkShared 0 0) 2.

Lemma kv_set_cap_with_defrag_keeps_rows_witness :
  ∃ slot moves a', kv_set_cap_with_defrag true 2 8 Demo.arena = (Ok (slot, moves), a') ∧
    arena_ok a' ∧ reads_kept Demo.arena a' ∧ kv_seqs (ga_kv a') !! 2%N = Some slot ∧ sl_cap slot = 8.
Proof.
  apply (kv_set_cap_with_defrag_keeps_rows 2 8 demo_slot Demo.arena Demo.arena_sound);
    [lia|by vm_compute|vm_compute; lia|vm_compute; lia].
Defined.

Lemma kv_set_cap_when_disabled_witness :
  kv_set_cap_with_defrag false 2 8 Demo.arena = (Err (AResizeDisabled 2 8), Demo.arena) ∧
  (kv_set_cap_with_defrag false 1 0 Demo.full).1 = Err (AKv (NoRun 1)).
Proof.
  split.
  - apply (kv_set_cap_when_disabled 2 8 [mkMove 2 2 0 2] (set_cap 2 8 (ga_kv Demo.arena)).2
      Demo.arena Demo.arena_sound); [by vm_compute|done|lia].
  - destruct (kv_set_cap_when_disabled 1 0 [mkMove 2 2 0 2] (set_cap 1 0 (ga_kv Demo.full)).2
      Demo.full Demo.full_sound) as [_ H]; [by vm_compute|done|].
    by rewrite (proj1 (H eq_refl)).
Defined.

Lemma kv_private_row_for_keeps_rows_witness :
  ∃ sh a', kv_private_row_for 2 1 (Demo.with_pool Demo.kv3) = (Ok (Some sh), a') ∧ arena_ok a' ∧
    ∀ n, store_cell (ga_kv a') n 2 1 = Ok 3%N.
Proof.
  destruct (kv_private_row_for_keeps_rows 2 1 (mkSlot 3 4 (mkShared 0 3) 3) (Demo.with_pool Demo.kv3)
    Demo.sharing_sound) as (sh & a' & H & Hok & _ & Hst);
    [by vm_compute|simpl; lia|vm_compute; lia|apply Demo.no_donor; by vm_compute|].
  exists sh, a'. split_and!; [done|done|]. exact Hst.
Defined.
