(* ===== verification/KvReads.v ===== *)
(** * What a forward reads and writes through the store

    The attention windows name exactly the cells a query may read, stores of
    different tokens land in different cells, a shared prefix reads its
    donor's cells, the free runs are the maximal ones, and a saved store is
    restored as it was. *)
From stdpp Require Import base numbers list gmap option sorting.
From S2P Require Import Prelude Slices KvCache KvFacts KvMoves KvPlans KvArena KvRows KvSteps KvProps.

(** ** Attention windows *)

(** The cells a query's window names: [(cell, length)] pairs, zero-padded. *)
Fixpoint window_cells (w : list N) : list nat :=
  match w with
  | cell :: len :: w => List.seq (N.to_nat cell) (N.to_nat len) ++ window_cells w
  | _ => []
  end.

Definition run_cells (runs : list (nat * nat)) : list nat :=
  concat (map (λ r, List.seq r.1 r.2) runs).

Lemma window_cells_zeros n : window_cells (replicate (2 * n) 0%N) = [].
Proof. induction n as [|n IH]; [done|]. replace (2 * S n) with (S (S (2 * n))) by lia. done. Qed.

Definition u32_sized (x : nat) : Prop := (N.of_nat x < 2 ^ 32)%N.

Lemma cast_u32_small x : u32_sized x → N.to_nat (cast_u32 x) = x.
Proof. unfold u32_sized, cast_u32. intros. rewrite N.mod_small by done. lia. Qed.

Lemma window_cells_runs runs k :
  Forall (λ r, u32_sized r.1 ∧ u32_sized r.2) runs →
  window_cells (concat (map (λ r, [cast_u32 r.1; cast_u32 r.2]) runs) ++
                replicate (2 * k) 0%N) = run_cells runs.
Proof.
  unfold run_cells. induction 1 as [|[c n] runs [H1 H2] Hr IH]; [apply window_cells_zeros|].
  simpl in *. rewrite IH. by rewrite !cast_u32_small.
Qed.

Lemma length_concat_pairs (runs : list (nat * nat)) :
  length (concat (map (λ r, [cast_u32 r.1; cast_u32 r.2]) runs)) = 2 * length runs.
Proof. induction runs as [|r runs IH]; simpl; [done|]. rewrite IH. lia. Qed.

Lemma length_pad_runs runs :
  length runs ≤ KV_MAP_MAX_SPANS → length (pad_runs runs) = 2 * KV_MAP_MAX_SPANS.
Proof.
  intros H. unfold pad_runs. rewrite length_app, length_concat_pairs, length_replicate. lia.
Qed.

Lemma map_slot_cell_run (s : SeqSlot) base cell n :
  (∀ i, i < n → slot_cell s (base + i) = Some (cell + i)) →
  map (slot_cell s) (List.seq base n) = map Some (List.seq cell n).
Proof.
  revert base cell. induction n as [|n IH]; intros base cell H; simpl; [done|]. f_equal.
  - specialize (H 0 ltac:(lia)). by rewrite !Nat.add_0_r in H.
  - apply IH. intros i Hi. replace (S base + i) with (base + S i) by lia.
    rewrite H by lia. f_equal. lia.
Qed.

(** The runs a query at [rel] reads: the shared prefix, then its own run. *)
Definition query_runs (s : SeqSlot) (rel : nat) : list (nat * nat) :=
  let rows := sh_rows (sl_shared s) in
  (if 0 <? rows then [(sh_cell (sl_shared s), rows `min` S rel)] else []) ++
  (if rows <=? rel then [(sl_start s, S rel - rows)] else []).

Lemma map_runs_slot t seq n_ctx s rel :
  slot_ok n_ctx s → rel < sl_written s →
  map_runs t seq rel 0 (spans_of_slot s) = Ok (query_runs s rel).
Proof.
  intros [] Hrel. unfold query_runs, spans_of_slot.
  rewrite (proj2 (Nat.ltb_lt 0 (sl_cap s))) by done.
  set (r := sh_rows (sl_shared s)) in *. replace (S rel) with (rel + 1) by lia.
  destruct (Nat.ltb_spec 0 r) as [Hr|Hr], (Nat.leb_spec r rel) as [Hle|Hlt]; cbn [map_runs app].
  - rewrite (proj2 (Nat.ltb_ge rel 0)), (proj2 (Nat.ltb_ge rel r)) by lia.
    rewrite !(proj2 (Nat.eqb_neq _ 0)) by lia. simpl.
    rewrite Nat.sub_0_r, (Nat.min_l r), (Nat.min_r (sl_cap s)) by lia. done.
  - rewrite (proj2 (Nat.ltb_ge rel 0)), (proj2 (Nat.ltb_lt rel r)) by lia.
    rewrite !(proj2 (Nat.eqb_neq _ 0)) by lia. simpl. by rewrite Nat.sub_0_r.
  - rewrite (proj2 (Nat.ltb_ge rel r)) by lia.
    rewrite !(proj2 (Nat.eqb_neq _ 0)) by lia. simpl.
    by rewrite Nat.min_r by lia.
  - lia.
Qed.

Lemma run_cells_slot n_ctx s rel :
  slot_ok n_ctx s → rel < sl_written s →
  map Some (run_cells (query_runs s rel)) = map (slot_cell s) (List.seq 0 (S rel)).
Proof.
  intros [] Hrel. set (r := sh_rows (sl_shared s)) in *.
  assert (Hsh : map (slot_cell s) (List.seq 0 (r `min` S rel)) =
                map Some (List.seq (sh_cell (sl_shared s)) (r `min` S rel))).
  { apply map_slot_cell_run. intros i Hi. apply slot_cell_shared. fold r. lia. }
  assert (Hpr : map (slot_cell s) (List.seq r (S rel - r)) =
                map Some (List.seq (sl_start s) (S rel - r))).
  { apply map_slot_cell_run. intros i Hi. rewrite slot_cell_private by (fold r; lia).
    f_equal. fold r. lia. }
  assert (Hsplit : List.seq 0 (S rel) = List.seq 0 (r `min` S rel) ++ List.seq r (S rel - r)).
  { destruct (Nat.le_gt_cases r (S rel)).
    - rewrite Nat.min_l by lia. rewrite <-seq_app. f_equal. lia.
    - rewrite Nat.min_r by lia. replace (S rel - r) with 0 by lia. by rewrite app_nil_r. }
  rewrite Hsplit, map_app, Hsh, Hpr, <-map_app. f_equal. unfold query_runs, run_cells. fold r.
  destruct (Nat.ltb_spec 0 r), (Nat.leb_spec r rel); cbn [map concat app fst snd];
    rewrite ?app_nil_r; try done.
  - rewrite (proj2 (Nat.sub_0_le (S rel) r)) by lia. by rewrite app_nil_r.
  - assert (Hz : r = 0) by lia. by rewrite Hz.
  - lia.
Qed.

Lemma map_query_exact c t seq slot rel :
  kv_wf c → kv_seqs c !! seq = Some slot → rel < sl_written slot →
  map_query c t seq rel = Ok (query_runs slot rel) ∧
  map Some (run_cells (query_runs slot rel)) = map (cell_of c seq) (List.seq 0 (S rel)).
Proof.
  intros Hwf Hs Hrel. pose proof (wf_slot _ _ _ Hwf Hs) as Hok. split.
  - unfold map_query. rewrite (spans_of_coherent _ _ (wf_coherent _ Hwf)), Hs.
    cbn [from_option]. rewrite decide_False by (apply spans_of_slot_nonempty, Hok).
    unfold written_rows. rewrite Hs. cbn [from_option].
    rewrite (proj2 (Nat.leb_gt _ _)) by lia. rewrite (map_runs_slot _ _ (kv_n_ctx c)) by done.
    cbn. rewrite decide_False; [done|]. unfold query_runs.
    destruct (sh_rows (sl_shared slot)) as [|k]; by intros [=].
  - rewrite (run_cells_slot (kv_n_ctx c)) by done. apply map_ext. intros pos.
    by rewrite cell_of_slot, Hs by apply Hwf.
Qed.

Lemma query_runs_sized n_ctx s rel :
  slot_ok n_ctx s → rel < sl_written s → u32_sized n_ctx →
  length (query_runs s rel) ≤ KV_MAP_MAX_SPANS ∧
  Forall (λ r, u32_sized r.1 ∧ u32_sized r.2) (query_runs s rel).
Proof.
  unfold u32_sized. intros [] Hrel Hn. unfold query_runs, KV_MAP_MAX_SPANS.
  destruct (Nat.ltb_spec 0 (sh_rows (sl_shared s))), (Nat.leb_spec (sh_rows (sl_shared s)) rel);
    simpl; (split; [lia|repeat constructor; simpl; lia]).
Qed.

(** A batch whose queries are all written: [rel] is a written position of [seq]. *)
Definition queries_written (c : KvCache) (seq_ids : list N) (positions : list nat) : Prop :=
  Forall2 (λ seq rel, rel < written_rows c seq) seq_ids positions.

Lemma per_query_ok {A} (f : nat → N → nat → kres A) (R : N → nat → A → Prop) t ids ps :
  Forall2 (λ s p, ∀ t, ∃ a, f t s p = Ok a ∧ R s p a) ids ps →
  ∃ l, per_query f t ids ps = Ok l ∧ length l = length ids ∧
    ∀ i s p, ids !! i = Some s → ps !! i = Some p → ∃ a, l !! i = Some a ∧ R s p a.
Proof.
  intros H. revert t. induction H as [|s p ids ps Hsp H IH]; intros t; simpl.
  - exists []. split_and!; [done..|]. intros i s p H0. by rewrite lookup_nil in H0.
  - destruct (Hsp t) as (a & -> & Ha), (IH (S t)) as (l & -> & Hlen & Hl). simpl.
    exists (a :: l). split_and!; [done|simpl; lia|]. intros [|i] s' p'; simpl.
    + intros [= <-] [= <-]. eauto.
    + apply Hl.
Qed.

Lemma lookup_concat_blocks {A B} (f : A → list B) k l i x :
  (∀ x, x ∈ l → length (f x) = k) → l !! i = Some x →
  take k (drop (k * i) (concat (map f l))) = f x.
Proof.
  intros Hk. revert i. induction l as [|y l IH]; intros i Hi; [done|].
  assert (Hy : length (f y) = k) by (apply Hk; by left). simpl.
  destruct i as [|i]; simpl in Hi.
  - injection Hi as ->. rewrite Nat.mul_0_r. by rewrite drop_0, <-Hy, take_app_length.
  - replace (k * S i) with (length (f y) + k * i) by lia.
    rewrite <-drop_drop, drop_app_length. apply IH; [|done]. intros z Hz. apply Hk. by right.
Qed.

Lemma written_slot c seq rel :
  rel < written_rows c seq → ∃ slot, kv_seqs c !! seq = Some slot ∧ rel < sl_written slot.
Proof. unfold written_rows. destruct (kv_seqs c !! seq); simpl; [eauto|lia]. Qed.

(** C5. The window of every query names the cells of the positions up to and
    including its own, in order, and nothing else: each query's eight words,
    read as [(cell, length)] pairs, list exactly the cells of [0 .. rel]. *)
Theorem attn_map_exact c seq_ids positions :
  kv_wf c → u32_sized (kv_n_ctx c) → kv_layers c ≠ ∅ →
  queries_written c seq_ids positions →
  ∃ w, attn_map c seq_ids positions = Ok w ∧
    ∀ t seq rel, seq_ids !! t = Some seq → positions !! t = Some rel →
      map Some (window_cells (take 8 (drop (8 * t) w))) =
      map (cell_of c seq) (List.seq 0 (S rel)).
Proof.
  intros Hwf Hn Hl Hq.
  destruct (per_query_ok (map_query c) (λ s p runs, length runs ≤ KV_MAP_MAX_SPANS ∧
     Forall (λ r, u32_sized r.1 ∧ u32_sized r.2) runs ∧
     map Some (run_cells runs) = map (cell_of c s) (List.seq 0 (S p))) 0 seq_ids positions)
    as (l & Hok & Hlen & Hruns).
  { eapply Forall2_impl; [exact Hq|]. intros s p (slot & Hs & Hp)%written_slot t.
    destruct (map_query_exact c t s slot p) as [Hm Hc]; [done..|].
    destruct (query_runs_sized (kv_n_ctx c) slot p) as [? ?];
      [by apply (wf_slot c s slot)|done..|]. eauto. }
  unfold attn_map. apply Forall2_length in Hq as Hll.
  rewrite <-Hll, Nat.eqb_refl. cbn [negb]. rewrite decide_False by done. rewrite Hok.
  exists (concat (map pad_runs l)). split; [done|]. intros t seq rel Ht Hp.
  destruct (Hruns t seq rel Ht Hp) as (runs & Hr & Hlr & Hsz & Hc).
  rewrite (lookup_concat_blocks pad_runs 8 l t runs); [|..|done].
  - unfold pad_runs. by rewrite window_cells_runs.
  - intros x Hx. apply list_elem_of_lookup in Hx as [i Hi].
    apply lookup_lt_Some in Hi as Hil. rewrite Hlen in Hil.
    destruct (lookup_lt_is_Some_2 seq_ids i Hil) as [s Hs].
    destruct (lookup_lt_is_Some_2 positions i) as [p Hp']; [lia|].
    destruct (Hruns i s p Hs Hp') as (r & Hr' & Hlr' & _). simplify_eq.
    by apply length_pad_runs.
Qed.

(** ** Stores *)

Lemma store_cell_inv c t seq rel cell :
  coherent c → store_cell c t seq rel = Ok cell →
  ∃ slot, kv_seqs c !! seq = Some slot ∧ sh_rows (sl_shared slot) ≤ rel ∧
    rel < sh_rows (sl_shared slot) + sl_cap slot ∧
    cell = cast_u32 (sl_start slot + (rel - sh_rows (sl_shared slot))).
Proof.
  intros Hc. unfold store_cell, seq_slot. destruct (kv_seqs c !! seq) as [slot|] eqn:Hs; [|done].
  simpl. destruct (Nat.ltb_spec rel (sh_rows (sl_shared slot))); [done|].
  destruct (Nat.leb_spec (sh_rows (sl_shared slot) + sl_cap slot) rel); [done|].
  rewrite cell_of_slot, Hs by done. simpl. rewrite slot_cell_private by lia. simpl.
  intros [= <-]. by exists slot.
Qed.

Lemma cells_loop_ok c t ids ps cells :
  cells_loop c t ids ps = Ok cells → length ids = length ps →
  length cells = length ids ∧
  ∀ i cell, cells !! i = Some cell → ∃ s p, ids !! i = Some s ∧ ps !! i = Some p ∧
    store_cell c (t + i) s p = Ok cell.
Proof.
  revert t ps cells. induction ids as [|s ids IH]; intros t [|p ps] cells; simpl; try done.
  - intros [= <-] _. split; [done|]. intros i cell H. by rewrite lookup_nil in H.
  - intros (cell & Hc & H)%res_bind_ok Hl. apply res_bind_ok in H as (l & Hl' & [= <-]).
    destruct (IH (S t) ps l Hl') as [Hlen Hi]; [lia|]. split; [simpl; lia|].
    intros [|i] x; simpl.
    + intros [= <-]. exists s, p. by rewrite Nat.add_0_r.
    + intros Hx. destruct (Hi i x Hx) as (s' & p' & ? & ? & ?). exists s', p'.
      replace (t + S i) with (S t + i) by lia. done.
Qed.

(** C6. The cells the tokens of a batch are stored at are in the arena, two
    tokens that differ in sequence or position are stored in different cells,
    and a store never lands in a run another sequence reserved. *)
Theorem kv_cells_for_seq_distinct c seq_ids positions cells :
  kv_wf c → u32_sized (kv_n_ctx c) →
  kv_cells_for_seq c seq_ids positions = Ok cells →
  length cells = length seq_ids ∧
  ∀ i cell, cells !! i = Some cell → ∃ s p slot,
    seq_ids !! i = Some s ∧ positions !! i = Some p ∧ kv_seqs c !! s = Some slot ∧
    cell_of c s p = Some (N.to_nat cell) ∧ N.to_nat cell < kv_n_ctx c ∧
    (∀ s' slot', s' ≠ s → kv_seqs c !! s' = Some slot' →
       N.to_nat cell < sl_start slot' ∨ sl_start slot' + sl_cap slot' ≤ N.to_nat cell) ∧
    (∀ j, cells !! j = Some cell → seq_ids !! j = Some s ∧ positions !! j = Some p).
Proof.
  intros Hwf Hn. unfold kv_cells_for_seq. destruct (Nat.eqb_spec (length seq_ids) (length positions))
    as [Hl|]; [|done]. simpl. intros Hloop.
  destruct (cells_loop_ok _ _ _ _ _ Hloop Hl) as [Hlen Hi]. split; [done|].
  assert (Hcell : ∀ i cell, cells !! i = Some cell → ∃ s p slot, seq_ids !! i = Some s ∧
            positions !! i = Some p ∧ kv_seqs c !! s = Some slot ∧
            sh_rows (sl_shared slot) ≤ p < sh_rows (sl_shared slot) + sl_cap slot ∧
            N.to_nat cell = sl_start slot + (p - sh_rows (sl_shared slot))).
  { intros i cell Hc. destruct (Hi i cell Hc) as (s & p & Hs & Hp & Hst).
    apply store_cell_inv in Hst as (slot & Hslot & ? & ? & ->); [|apply Hwf].
    exists s, p, slot. split_and!; [done..|]. apply cast_u32_small.
    destruct (wf_slot _ _ _ Hwf Hslot). unfold u32_sized in *. lia. }
  intros i cell Hc. destruct (Hcell i cell Hc) as (s & p & slot & Hs & Hp & Hslot & Hr & Heq).
  destruct (wf_slot _ _ _ Hwf Hslot). exists s, p, slot. split_and!; [done..| |lia| |].
  - rewrite cell_of_slot, Hslot by apply Hwf. simpl. rewrite slot_cell_private by lia. by rewrite Heq.
  - intros s' slot' Hne Hslot'. destruct (wf_slot _ _ _ Hwf Hslot').
    pose proof (wf_disjoint _ Hwf s' s slot' slot Hne Hslot' Hslot). unfold ranges_disjoint in *. lia.
  - intros j Hj. destruct (Hcell j cell Hj) as (s' & p' & slot' & Hs' & Hp' & Hslot' & Hr' & Heq').
    destruct (decide (s' = s)) as [->|Hne].
    + simplify_eq. assert (p' = p) as -> by lia. done.
    + pose proof (wf_disjoint _ Hwf s' s slot' slot Hne Hslot' Hslot). unfold ranges_disjoint in *. lia.
Qed.

(** ** Sharing a prefix *)

Lemma slot_cell_contiguous s rows cell :
  0 < rows → rows ≤ sh_rows (sl_shared s) + sl_cap s →
  slot_cell s 0 = Some cell → slot_cell s (rows - 1) = Some (cell + rows - 1) →
  ∀ pos, pos < rows → slot_cell s pos = Some (cell + pos).
Proof.
  unfold slot_cell. intros Hr Hle H0 H1 pos Hpos.
  repeat case_decide; simplify_eq; try lia; f_equal; lia.
Qed.

(** C7. After [share_prefix] the sharer reads the donor's own cells for the
    shared positions, nobody else's view of the store changes, and the first
    position it may write is its own. *)
Theorem share_prefix_reads_donor src dst rows c c' :
  kv_wf c → share_prefix src dst rows c = (Ok (), c') →
  kv_wf c' ∧ written_rows c' dst = rows ∧
  (∀ pos, pos < rows → cell_of c' dst pos = cell_of c src pos ∧ is_Some (cell_of c src pos)) ∧
  (∀ s pos, s ≠ dst → cell_of c' s pos = cell_of c s pos ∧ written_rows c' s = written_rows c s) ∧
  (∀ slot, kv_seqs c !! dst = Some slot → cell_of c' dst rows = Some (sl_start slot)).
Proof.
  intros Hwf Hsh. pose proof (wf_share _ _ _ _ _ Hwf Hsh) as Hwf'.
  apply share_prefix_inv in Hsh as
    (donor & slot & cell & Hr & Hne & Hsrc & Hw & Hdst & Hs0 & Hw0 & Hc0 & Hc1 & ->).
  set (c' := refresh_spans _ _) in *.
  set (new := set_written rows (set_shared (mkShared cell rows) slot)).
  assert (Hq : kv_seqs c' = <[dst := new]> (kv_seqs c)) by (unfold c'; by autorewrite with kv).
  rewrite cell_of_slot, Hsrc in Hc0, Hc1 by apply Hwf. simpl in Hc0, Hc1.
  destruct (wf_slot _ _ _ Hwf Hsrc), (wf_slot _ _ _ Hwf Hdst). split_and!; [done| | | |].
  - unfold written_rows. by rewrite Hq, lookup_insert_eq.
  - intros pos Hpos. rewrite !cell_of_slot by (apply Hwf || apply Hwf').
    rewrite Hq, lookup_insert_eq, Hsrc. simpl.
    rewrite (slot_cell_contiguous donor rows cell) by (done || lia).
    rewrite slot_cell_shared by (simpl; lia). simpl. eauto.
  - intros s pos Hs. unfold written_rows. rewrite !cell_of_slot by (apply Hwf || apply Hwf').
    by rewrite Hq, lookup_insert_ne by congruence.
  - intros slot' Hslot'. simplify_eq. rewrite cell_of_slot, Hq, lookup_insert_eq by apply Hwf'.
    simpl. rewrite slot_cell_private by (simpl; lia). simpl. f_equal. lia.
Qed.

(** ** Free runs *)

(** A maximal run of free cells. *)
Definition maximal_free (taken : list bool) (start len : nat) : Prop :=
  0 < len ∧ free_at taken len start ∧
  (start = 0 ∨ taken !! (start - 1) = Some true) ∧
  (start + len = length taken ∨ taken !! (start + len) = Some true).

Lemma maximal_free_unique taken s1 n1 s2 n2 i :
  maximal_free taken s1 n1 → maximal_free taken s2 n2 →
  s1 ≤ i < s1 + n1 → s2 ≤ i < s2 + n2 → s1 = s2 ∧ n1 = n2.
Proof.
  intros (Hp1 & Hf1 & Hl1 & Hr1) (Hp2 & Hf2 & Hl2 & Hr2) Hi1 Hi2.
  assert (Hs : s1 = s2).
  { destruct (Nat.lt_trichotomy s1 s2) as [Hlt|[?|Hlt]]; [|done|].
    - destruct Hl2 as [?|Hl2]; [lia|]. rewrite Hf1 in Hl2 by lia. done.
    - destruct Hl1 as [?|Hl1]; [lia|]. rewrite Hf2 in Hl1 by lia. done. }
  subst s2. split; [done|]. 
  assert (Hb : ∀ n s, 0 < n → free_at taken n s → s + n ≤ length taken).
  { intros n s Hn Hf. assert (Hx : taken !! (s + n - 1) = Some false) by (apply Hf; lia).
    apply lookup_lt_Some in Hx. lia. }
  pose proof (Hb _ _ Hp1 Hf1). pose proof (Hb _ _ Hp2 Hf2).
  destruct (Nat.lt_trichotomy n1 n2) as [Hlt|[?|Hlt]]; [|done|].
  - destruct Hr1 as [?|Hr1]; [lia|]. rewrite Hf2 in Hr1 by lia. done.
  - destruct Hr2 as [?|Hr2]; [lia|]. rewrite Hf1 in Hr2 by lia. done.
Qed.

(** The scan, with the cells before the current one as [pre]. *)
Lemma runs_loop_spec rest pre open :
  match open with
  | Some st => st < length pre ∧ free_at (pre ++ rest) (length pre - st) st ∧
               (st = 0 ∨ (pre ++ rest) !! (st - 1) = Some true)
  | None => length pre = 0 ∨ (pre ++ rest) !! (length pre - 1) = Some true
  end →
  (∀ r, r ∈ runs_loop (length pre) open rest → maximal_free (pre ++ rest) r.1 r.2) ∧
  (∀ i, match open with Some st => st ≤ i | None => length pre ≤ i end →
     (pre ++ rest) !! i = Some false →
     ∃ r, r ∈ runs_loop (length pre) open rest ∧ r.1 ≤ i < r.1 + r.2).
Proof.
  revert pre open. induction rest as [|t rest IH]; intros pre open Hopen; cbn [runs_loop].
  - rewrite app_nil_r in *. destruct open as [st|].
    + destruct Hopen as (Hlt & Hf & Hl). split.
      * intros r ->%list_elem_of_singleton. simpl. split_and!; [lia|done|done|left; lia].
      * intros i Hi Hfree. apply lookup_lt_Some in Hfree. eexists.
        split; [by apply list_elem_of_singleton|simpl; lia].
    + split; [by intros r ?%elem_of_nil|]. intros i Hi Hf. apply lookup_lt_Some in Hf. lia.
  - assert (Ht : (pre ++ t :: rest) !! length pre = Some t) by apply list_lookup_middle, eq_refl.
    assert (Happ : pre ++ t :: rest = (pre ++ [t]) ++ rest) by by rewrite <-app_assoc.
    assert (Hlen : S (length pre) = length (pre ++ [t])) by (rewrite length_app; simpl; lia).
    rewrite Happ, Hlen in *. destruct t, open as [st|].
    + destruct Hopen as (Hlt & Hf & Hl). destruct (IH (pre ++ [true]) None) as [IH1 IH2].
      { right. rewrite <-Hlen. replace (S (length pre) - 1) with (length pre) by lia. done. }
      split.
      * intros r [->|Hr]%elem_of_cons; [|by apply IH1]. simpl.
        split_and!; [lia|done|done|]. right. by replace (st + (length pre - st)) with (length pre) by lia.
      * intros i Hi Hfree. destruct (decide (i < length pre)).
        -- eexists. split; [by left|simpl; lia].
        -- destruct (decide (i = length pre)) as [->|]; [congruence|].
           destruct (IH2 i) as (r & Hr & Hri); [lia|done|]. exists r. split; [by right|done].
    + destruct (IH (pre ++ [true]) None) as [IH1 IH2].
      { right. rewrite <-Hlen. replace (S (length pre) - 1) with (length pre) by lia. done. }
      split; [done|]. intros i Hi Hfree. destruct (decide (i = length pre)) as [->|]; [congruence|].
      apply IH2; [lia|done].
    + destruct Hopen as (Hlt & Hf & Hl). apply (IH (pre ++ [false]) (Some st)). rewrite <-Hlen.
      split_and!; [lia| |done]. intros i Hi. destruct (decide (i = length pre)) as [->|]; [done|].
      apply Hf. lia.
    + destruct (IH (pre ++ [false]) (Some (length pre))) as [IH1 IH2].
      { rewrite <-Hlen. split_and!; [lia| |done]. intros i Hi. by replace i with (length pre) by lia. }
      split; [done|]. intros i Hi. by apply IH2.
Qed.

(** C37. [free_runs] lists exactly the maximal runs of free cells: each listed
    run is one, and every free cell is in exactly one of them. *)
Theorem free_runs_exact c :
  (∀ start len, (start, len) ∈ free_runs c → maximal_free (occupied c) start len) ∧
  (∀ i, occupied c !! i = Some false →
     ∃ start len, (start, len) ∈ free_runs c ∧ start ≤ i < start + len ∧
       ∀ start' len', (start', len') ∈ free_runs c → start' ≤ i < start' + len' →
         start' = start ∧ len' = len).
Proof.
  destruct (runs_loop_spec (occupied c) [] None) as [H1 H2]; [by left|]. simpl in *.
  split; [intros s n; apply (H1 (s, n))|]. intros i Hi.
  destruct (H2 i) as ([s n] & Hr & Hin); [lia|done|]. exists s, n. simpl in Hin.
  split_and!; [done|lia|lia|]. intros s' n' Hr' Hin'.
  apply (maximal_free_unique (occupied c) s' n' s n i); [by apply (H1 (s', n'))|by apply (H1 (s, n))|done|done].
Qed.

(** ** Saving and restoring the store *)

(** The layers of [l'] in the regions of [l]. *)
Definition with_table (l l' : KvLayer) : KvLayer :=
  set_n_used (lay_n_used l') (set_owner (lay_owner l') l).

Lemma collect_in_order {V} (m : gmap N V) : collect (in_order m) = m.
Proof.
  unfold collect. rewrite <-(list_to_map_in_order m) at 2.
  assert (Hgen : ∀ (l : list (N * V)) acc, NoDup l.*1 →
            foldl (λ m p, <[p.1 := p.2]> m) acc l = (list_to_map l : gmap N V) ∪ acc).
  { induction l as [|[k v] l IH]; intros acc Hnd; simpl; [by rewrite map_empty_union|].
    apply NoDup_cons in Hnd as [Hk Hnd]. rewrite IH by done.
    rewrite <-insert_union_l. rewrite insert_union_r; [done|].
    by apply not_elem_of_list_to_map_1. }
  rewrite Hgen by apply NoDup_in_order_keys. by rewrite map_union_empty.
Qed.

Lemma usize_add_small' n a b : a + b ≤ n → (N.of_nat n < 2 ^ 64)%N → usize_add a b = a + b.
Proof. intros. unfold usize_add. rewrite N.mod_small by lia. lia. Qed.

Lemma find_in_order {V} (m : gmap N V) k v :
  m !! k = Some v → snd <$> List.find (λ q, (q.1 =? k)%N) (in_order m) = Some v.
Proof.
  intros Hk. destruct (List.find _ _) as [[k' v']|] eqn:Hf.
  - apply List.find_some in Hf as [Hin Heq%N.eqb_eq]. simpl in Heq. subst k'.
    apply list_elem_of_In, elem_of_in_order in Hin. simpl. congruence.
  - apply elem_of_in_order, list_elem_of_In in Hk.
    eapply List.find_none in Hf; [|exact Hk]. simpl in Hf. by rewrite N.eqb_refl in Hf.
Qed.

Lemma restore_layers_fold (saved : list (N * KvLayer)) (m : gmap N KvLayer) k l :
  NoDup saved.*1 → m !! k = Some l →
  foldl restore_layer m (map (λ p, mkLayerSession p.1 (lay_n_used p.2) (lay_owner p.2)) saved)
    !! k = Some (match List.find (λ p, (p.1 =? k)%N) saved with
                 | Some p => with_table l p.2
                 | None => l
                 end).
Proof.
  revert m l. induction saved as [|[k' l'] saved IH]; intros m l Hnd Hk; simpl; [done|].
  apply NoDup_cons in Hnd as [Hk' Hnd]. destruct (N.eqb_spec k' k) as [->|Hne].
  - rewrite (IH _ (with_table l l')); [|done|].
    + replace (List.find _ saved) with (@None (N * KvLayer)); [done|]. symmetry.
      destruct (List.find _ saved) as [[]|] eqn:Hf; [|done].
      apply List.find_some in Hf as [Hin Heq%N.eqb_eq]. simpl in Heq. subst.
      exfalso. apply Hk'. apply list_elem_of_In in Hin.
      by apply (list_elem_of_fmap_2 fst) in Hin.
    + unfold restore_layer. simpl. by rewrite lookup_alter_eq, Hk.
  - rewrite (IH _ l); [done|done|]. unfold restore_layer. simpl.
    by rewrite lookup_alter_ne by congruence.
Qed.

Lemma restore_layers_dom ls m k :
  m !! k = None → foldl restore_layer m ls !! k = None.
Proof.
  revert m. induction ls as [|x ls IH]; intros m Hk; simpl; [done|]. apply IH.
  unfold restore_layer. rewrite lookup_alter. case_decide; [by subst; rewrite Hk|done].
Qed.

Lemma check_session_seq_ok c c0 seq slot :
  kv_wf c → (N.of_nat (2 * kv_n_ctx c) < 2 ^ 64)%N → kv_n_ctx c0 = kv_n_ctx c →
  kv_seqs c !! seq = Some slot →
  check_session_seq c0 (session_state c) (seq, slot) = Ok ().
Proof.
  intros Hwf Hn Hn0 Hs. destruct (wf_slot _ _ _ Hwf Hs). unfold check_session_seq.
  assert (Hrows : sh_rows (sl_shared slot) ≤ kv_n_ctx c) by
    (destruct (decide (0 < sh_rows (sl_shared slot))); lia).
  rewrite Hn0. rewrite !(usize_add_small' (2 * kv_n_ctx c)) by lia.
  rewrite !(proj2 (Nat.ltb_ge _ _)) by lia. simpl ss_spans.
  rewrite (find_in_order _ _ (spans_of_slot slot)) by
    (rewrite (wf_coherent _ Hwf), lookup_fmap, Hs; done). simpl.
  rewrite (try_map_total _ (λ _, ())); [done|].
  intros [[base cell] len] Hin. unfold check_session_span. rewrite Hn0.
  assert (Hsp : base + len ≤ sh_rows (sl_shared slot) + sl_cap slot ∧ cell + len ≤ kv_n_ctx c).
  { unfold spans_of_slot in Hin. apply elem_of_app in Hin as [Hin|Hin]; case_match eqn:Hb;
      try by apply elem_of_nil in Hin.
    - apply list_elem_of_singleton in Hin. apply Nat.ltb_lt in Hb. simplify_eq. lia.
    - apply list_elem_of_singleton in Hin. simplify_eq. lia. }
  rewrite !(usize_add_small' (2 * kv_n_ctx c)) by lia.
  by rewrite !(proj2 (Nat.ltb_ge _ _)) by lia.
Qed.

(** The counters read the layers' owner tables only. *)
Lemma arena_stats_eq c :
  arena_stats c =
    let slots := in_order (kv_seqs c) in
    let reserved_cells := sum_list_with (λ p, sl_cap p.2 `min` kv_n_ctx c) slots in
    let runs := free_runs c in
    mkStats (kv_n_ctx c) reserved_cells
      (sum_list_with (λ p, sh_rows (sl_shared p.2)) slots)
      (match in_order (lay_owner <$> kv_layers c) with
       | [] => 0
       | (_, o) :: _ => length (List.filter (λ o, negb (o =? FREE)%N) o)
       end)
      (kv_n_ctx c - reserved_cells) (length runs)
      (foldr (λ r m, r.2 `max` m) 0 runs) (size (kv_seqs c))
      (kv_defrags c) (kv_cells_moved c) (kv_cows c) (kv_cow_cells c).
Proof.
  unfold arena_stats. rewrite in_order_fmap.
  by destruct (in_order (kv_layers c)) as [|[k l] ls].
Qed.

(** What a restored store has of the saved one, and of the store it is in. *)
Definition restored_as (c c0 c' : KvCache) : Prop :=
  kv_wf c' ∧ kv_seqs c' = kv_seqs c ∧ kv_spans c' = kv_spans c ∧ kv_identity c' = kv_identity c ∧
  arena_stats c' = arena_stats c ∧
  (∀ k, kv_layers c' !! k = l0 ← kv_layers c0 !! k; l ← kv_layers c !! k; Some (with_table l0 l)) ∧
  ∀ seq pos, cell_of c' seq pos = cell_of c seq pos.

Lemma saved_session_restores c c0 :
  kv_wf c → (N.of_nat (2 * kv_n_ctx c) < 2 ^ 64)%N →
  kv_n_ctx c0 = kv_n_ctx c → dom (kv_layers c0) = dom (kv_layers c) →
  ∃ c', restore_session (session_state c) c0 = (Ok (), c') ∧ restored_as c c0 c'.
Proof.
  intros Hwf Hn Hn0 Hdom. unfold restore_session. simpl. rewrite Hn0, Nat.eqb_refl. simpl.
  rewrite (try_map_total (check_layer_session c0) (λ _, ())).
  2: { intros ls (p & <- & Hp%list_elem_of_In)%list_elem_of_In%in_map_iff.
       destruct p as [k l]. apply elem_of_in_order in Hp as Hk. unfold check_layer_session. simpl.
       destruct (kv_layers c0 !! k) as [l0|] eqn:Hk0.
       - simpl. destruct (wf_layers _ Hwf k l Hk) as [-> Hu]. rewrite Hn0, Nat.eqb_refl. simpl.
         by rewrite (proj2 (Nat.ltb_ge _ _)).
       - apply not_elem_of_dom in Hk0. rewrite Hdom in Hk0.
         apply not_elem_of_dom in Hk0. congruence. }
  simpl. rewrite (try_map_total (check_session_seq c0 (session_state c)) (λ _, ())).
  2: { intros [seq slot] Hs%elem_of_in_order. by apply check_session_seq_ok. }
  assert (Hlay : ∀ k, foldl restore_layer (kv_layers c0) (ss_layers (session_state c)) !! k =
            l0 ← kv_layers c0 !! k; l ← kv_layers c !! k; Some (with_table l0 l)).
  { intros k. simpl. destruct (kv_layers c0 !! k) as [l0|] eqn:Hk0; simpl.
    - rewrite (restore_layers_fold _ _ _ l0) by (done || apply NoDup_in_order_keys).
      assert (Hk : is_Some (kv_layers c !! k)) by
        (apply elem_of_dom; rewrite <-Hdom; apply elem_of_dom; eauto).
      destruct Hk as [l Hk]. rewrite Hk. pose proof (find_in_order _ _ _ Hk) as Hf.
      destruct (List.find _ _) as [p|]; simpl in *; congruence.
    - by apply restore_layers_dom. }
  set (layers := foldl restore_layer _ _) in *.
  assert (Hown : lay_owner <$> layers = lay_owner <$> kv_layers c).
  { apply map_eq. intros k. rewrite !lookup_fmap, Hlay.
    destruct (kv_layers c0 !! k) as [l0|] eqn:Hk0, (kv_layers c !! k) as [l|] eqn:Hk; simpl; try done.
    apply not_elem_of_dom in Hk0. rewrite Hdom in Hk0. apply not_elem_of_dom in Hk0. congruence. }
  eexists. split; [done|]. unfold restored_as. rewrite !collect_in_order. split_and!; try done.
  - split; simpl; [apply Hwf|apply Hwf|apply Hwf|].
    intros k l' Hk. rewrite Hlay in Hk. destruct (kv_layers c0 !! k); simpl in Hk; [|done].
    destruct (kv_layers c !! k) as [l|] eqn:Hkl; simpl in Hk; [|done]. simplify_eq. simpl.
    by apply (wf_layers _ Hwf k).
  - rewrite !arena_stats_eq. simpl. by rewrite Hown.
Qed.

(** C38. A saved store is restored: on a store with the same arena and the
    same layers, [restore_session] accepts what [session_state] saved and
    rebuilds the run table, the spans, the counters and every layer's owner
    table, in the regions the new store has. *)
Theorem session_restores c c0 :
  kv_wf c → (N.of_nat (2 * kv_n_ctx c) < 2 ^ 64)%N →
  kv_n_ctx c0 = kv_n_ctx c → dom (kv_layers c0) = dom (kv_layers c) →
  ∃ c', restore_session (session_state c) c0 = (Ok (), c') ∧ kv_wf c' ∧
    kv_seqs c' = kv_seqs c ∧ kv_spans c' = kv_spans c ∧ kv_identity c' = kv_identity c ∧
    arena_stats c' = arena_stats c ∧
    (∀ k, kv_layers c' !! k = l0 ← kv_layers c0 !! k; l ← kv_layers c !! k; Some (with_table l0 l)) ∧
    ∀ seq pos, cell_of c' seq pos = cell_of c seq pos.
Proof.
  intros. by apply saved_session_restores.
Qed.

(** ** Reachable stores *)

Lemma sound_cell_inj c seq pos pos' cell :
  sound c → cell_of c seq pos = Some cell → cell_of c seq pos' = Some cell → pos = pos'.
Proof.
  intros [Hwf Hb]. rewrite !cell_of_slot by apply Hwf.
  destruct (kv_seqs c !! seq) as [s|] eqn:Hs; simpl; [|done].
  destruct (wf_slot _ _ _ Hwf Hs).
  assert (Hsep : ∀ p q, p < sh_rows (sl_shared s) → sh_rows (sl_shared s) ≤ q →
            q < sh_rows (sl_shared s) + sl_cap s →
            sh_cell (sl_shared s) + p ≠ sl_start s + (q - sh_rows (sl_shared s))).
  { intros p q Hp Hq Hq'. destruct (Hb seq s Hs ltac:(lia)) as (d & b & Hne & Hd & Hlo & Hhi).
    destruct (wf_slot _ _ _ Hwf Hd). unfold private_written in *.
    pose proof (wf_disjoint _ Hwf d seq b s Hne Hd Hs). unfold ranges_disjoint in *. lia. }
  unfold slot_cell. repeat case_decide; intros; simplify_eq; try lia.
  - exfalso. apply (Hsep pos pos'); lia.
  - exfalso. apply (Hsep pos' pos); lia.
Qed.

(** C36. Whatever a store goes through by the operations of [kv_step]
    (reservations, releases of runs nobody shares from, writes, prefixes shared
    out of one run, copy-on-write, removals, compactions and resizes to
    positive sizes), in any order, every written position has a cell inside
    the arena, no two positions of a sequence have the same one, and the cells
    two sequences may write are different.  The side conditions are
    [kv_step]'s: the code does not check them. *)
Theorem reachable_invariant c :
  reachable c →
  sound c ∧
  (∀ seq pos, pos < written_rows c seq →
     ∃ cell, cell_of c seq pos = Some cell ∧ cell < kv_n_ctx c) ∧
  (∀ seq pos pos' cell, cell_of c seq pos = Some cell → cell_of c seq pos' = Some cell → pos = pos') ∧
  (∀ t t' seq seq' pos pos' cell, u32_sized (kv_n_ctx c) → seq ≠ seq' →
     store_cell c t seq pos = Ok cell → store_cell c t' seq' pos' ≠ Ok cell).
Proof.
  intros Hr. assert (Hs : sound c) by (eapply sound_steps; [exact Hr|apply sound_new]).
  pose proof (so_wf _ Hs) as Hwf. split_and!; [done| | |].
  - intros seq pos (slot & Hsl & Hpos)%written_slot. destruct (wf_slot _ _ _ Hwf Hsl) eqn:Hok.
    rewrite cell_of_slot, Hsl by apply Hwf. simpl.
    destruct (decide (pos < sh_rows (sl_shared slot))).
    + rewrite slot_cell_shared by done. eexists. split; [done|lia].
    + rewrite slot_cell_private by lia. eexists. split; [done|lia].
  - intros *. by apply sound_cell_inj.
  - intros t t' seq seq' pos pos' cell Hn Hne H1 H2.
    apply store_cell_inv in H1 as (a & Ha & ? & ? & ->); [|apply Hwf].
    apply store_cell_inv in H2 as (b & Hb & ? & ? & Heq); [|apply Hwf].
    destruct (wf_slot _ _ _ Hwf Ha), (wf_slot _ _ _ Hwf Hb).
    apply (f_equal N.to_nat) in Heq. unfold u32_sized in Hn.
    rewrite !cast_u32_small in Heq by (unfold u32_sized; lia).
    pose proof (wf_disjoint _ Hwf seq seq' a b Hne Ha Hb). unfold ranges_disjoint in *. lia.
Qed.

(** ** Witnesses *)

Lemma attn_map_exact_witness :
  ∃ w, attn_map Demo.kv2 [2%N; 2%N] [0; 1] = Ok w ∧ window_cells (take 8 (drop 8 w)) = [2; 3].
Proof.
  destruct (attn_map_exact Demo.kv2 [2%N; 2%N] [0; 1]) as (w & Hw & _).
  - apply Demo.kv2_sound.
  - by vm_compute.
  - by vm_compute.
  - repeat constructor; vm_compute; lia.
  - exists w. split; [done|]. revert Hw. vm_compute. by intros [= <-].
Defined.

Lemma kv_cells_for_seq_distinct_witness :
  length [2%N; 3%N] = 2 ∧ cell_of Demo.kv2 2 1 = Some 3.
Proof.
  destruct (kv_cells_for_seq_distinct Demo.kv2 [2%N; 2%N] [0; 1] [2%N; 3%N]) as [Hl Hc].
  - apply Demo.kv2_sound.
  - by vm_compute.
  - by vm_compute.
  - split; [exact Hl|]. destruct (Hc 1 3%N eq_refl) as (s & p & slot & Hs & Hp & _ & H & _).
    simpl in Hs, Hp. injection Hs as <-. injection Hp as <-. exact H.
Defined.

Lemma share_prefix_reads_donor_witness :
  share_prefix 1 2 3 Demo.kv3a = (Ok (), Demo.kv3) ∧ written_rows Demo.kv3 2 = 3.
Proof.
  assert (H : share_prefix 1 2 3 Demo.kv3a = (Ok (), Demo.kv3)) by (vm_compute; reflexivity).
  split; [exact H|]. apply (share_prefix_reads_donor 1 2 3 Demo.kv3a Demo.kv3); [|exact H].
  apply Demo.reserve_sound, sound_own_positions, Demo.reserve_sound, Demo.kv0_sound.
Defined.

Lemma session_restores_witness :
  ∃ c', restore_session (session_state Demo.kv3) Demo.kv0 = (Ok (), c') ∧ kv_seqs c' = kv_seqs Demo.kv3.
Proof.
  destruct (session_restores Demo.kv3 Demo.kv0) as (c' & H & _ & Hs & _).
  - apply Demo.kv3_sound.
  - by vm_compute.
  - by vm_compute.
  - by vm_compute.
  - by exists c'.
Defined.

Lemma demo_reachable : reachable (reserve_seq 1 2 Demo.kv0).2.
Proof.
  eapply rtc_l; [apply (step_capacity kv_new 8); reflexivity|].
  eapply rtc_l; [apply (step_layer _ 0 Demo.k0 Demo.v0 2 2 false)|].
  eapply rtc_l; [|apply rtc_refl]. apply (step_reserve _ 1 2 (slot_new 0 2)). by vm_compute.
Qed.

Lemma reachable_invariant_witness : sound (reserve_seq 1 2 Demo.kv0).2.
Proof. apply (reachable_invariant _ demo_reachable). Defined.
