(* ===== verification/KvFindings.v ===== *)
(** * Where the store does less than its callers may expect

    Concrete runs of the store on which a written position stops reading its
    own row.  Each is a sequence of operations the store accepts; none of them
    is reachable by [kv_step], whose side conditions rule them out. *)
From stdpp Require Import base numbers list gmap option.
From S2P Require Import Prelude Slices KvCache KvFacts KvMoves KvPlans KvArena KvRows KvSteps KvProps.
Import CpuPool.

Definition kv12 : KvCache := insert_layer 0 Demo.k0 Demo.v0 2 2 12 false (set_n_ctx 12 kv_new).

(** Sequence 1 has written four rows and sequence 2 reads them in place, with
    two rows of its own. *)
Definition sharing : KvCache :=
  let c := (reserve_seq 1 4 kv12).2 in
  let c := (own_positions 1 [0; 1; 2; 3] c).2 in
  let c := (reserve_seq 2 4 c).2 in
  let c := (share_prefix 1 2 4 c).2 in
  (own_positions 2 [4; 5] c).2.

(** Releasing the donor is accepted, and the compaction that follows moves the
    sharer's own rows onto the rows it shares: positions 0 and 4 of sequence 2
    are then the same cell. *)
Theorem released_donor_then_compaction_aliases :
  let c := (release_seq 1 sharing).2 in
  ∃ n c', apply_moves (compaction_plan None c) c = (Ok n, c') ∧
    written_rows c' 2 = 6 ∧ cell_of c' 2 0 = Some 0 ∧ cell_of c' 2 4 = Some 0.
Proof.
  pose (r := let c := (release_seq 1 sharing).2 in apply_moves (compaction_plan None c) c).
  exists (match r.1 with Ok n => n | _ => 0 end), r.2.
  split_and!; vm_compute; reflexivity.
Qed.

(** A donor's own store is not diverted: the cell it writes position 1 to is the
    cell the sharer reads position 1 from, and no copy-on-write is planned. *)
Theorem donor_store_reaches_sharer :
  private_row_for 1 1 sharing = Ok None ∧
  kv_cells_for_seq sharing [1%N] [1] = Ok [1%N] ∧ cell_of sharing 2 1 = Some 1.
Proof. by vm_compute. Qed.

(** A sequence that both shares and donates: its copy-on-write moves the rows
    the third sequence reads, and that sequence's cells do not follow. *)
Definition chain : KvCache :=
  let c := (reserve_seq 1 2 kv12).2 in
  let c := (own_positions 1 [0; 1] c).2 in
  let c := (reserve_seq 2 6 c).2 in
  let c := (share_prefix 1 2 2 c).2 in
  let c := (own_positions 2 [2; 3] c).2 in
  let c := (reserve_seq 3 2 c).2 in
  (share_prefix 2 3 4 c).2.

Theorem cow_of_a_donor_leaves_its_sharer_behind :
  ∃ sh c', private_row_for 2 0 chain = Ok (Some sh) ∧ apply_private_row sh chain = (Ok (), c') ∧
    cell_of chain 2 2 = cell_of chain 3 2 ∧
    cell_of c' 2 2 = Some 4 ∧ cell_of c' 3 2 = Some 2.
Proof.
  pose (sh := match private_row_for 2 0 chain with
              | Ok (Some sh) => sh | _ => mkShift 0 0 0 0 0 end).
  exists sh, (apply_private_row sh chain).2.
  split_and!; vm_compute; reflexivity.
Qed.

(** The same chain refuses its own compaction plan half-way through: the shared
    prefix of sequence 3 spans two runs, so a move of one of them fails after
    the run table has been changed. *)
Theorem straddling_prefix_fails_half_way :
  let c := (reserve_seq 9 1 kv12).2 in
  let c := (reserve_seq 1 2 c).2 in
  let c := (own_positions 1 [0; 1] c).2 in
  let c := (reserve_seq 2 4 c).2 in
  let c := (share_prefix 1 2 2 c).2 in
  let c := (own_positions 2 [2; 3] c).2 in
  let c := (reserve_seq 3 2 c).2 in
  let c := (share_prefix 2 3 4 c).2 in
  let c := (release_seq 9 c).2 in
  ∃ c', apply_moves (compaction_plan None c) c = (Err (PlanStraddle 3), c') ∧
    cell_of c 1 0 = Some 1 ∧ cell_of c' 1 0 = Some 0.
Proof. vm_compute. eexists. split_and!; reflexivity. Qed.

(** A removal shortens the layers but not the sequence's written count, which
    is what a saved session reports as its resume position. *)
Theorem removal_keeps_the_written_count :
  let c := (own_positions 0 [0; 1; 2; 3] (reserve_seq 0 12 kv12).2).2 in
  ∃ c', after_rm 0 2 c = (Ok 2, c') ∧ session_written (session_state c') = 4.
Proof. vm_compute. eexists. split; reflexivity. Qed.

(** A saved state in which two sequences claim the same run is accepted. *)
Theorem restore_accepts_overlapping_runs :
  let st := mkSession true 12 [(1%N, slot_new 0 4); (2%N, slot_new 2 4)]
              [(1%N, [(0, 0, 4)]); (2%N, [(0, 2, 4)])] [] 0 0 0 0 in
  ∃ c', restore_session st kv12 = (Ok (), c') ∧
    cell_of c' 1 2 = Some 2 ∧ cell_of c' 2 0 = Some 2.
Proof. vm_compute. eexists. split_and!; reflexivity. Qed.

(** A resize to nothing is carried out and then reported as a failure. *)
Theorem resize_to_zero_reports_failure :
  let a := Demo.with_pool Demo.kv1 in
  ∃ a', kv_set_cap_with_defrag true 1 0 a = (Err AVanished, a') ∧
    kv_seqs (ga_kv a') !! 1%N = None.
Proof. vm_compute. eexists. split; reflexivity. Qed.
