(* ===== verification/Gguf.v ===== *)
(** * The GGUF parser: [src/gguf.rs]

    Bytes are [byte]s, integers [Z]s at their width ([usize] is 64 bits,
    arithmetic wraps as in the release build), floats their bit patterns, and
    a Rust [String] the list of its UTF-8 bytes.  A parser runs on the reader,
    whose record also carries the thread-local failure note; it returns a
    value, fails ([None] in the source) or panics. *)
From Stdlib Require Import ZArith String Strings.Byte.
From coqutil Require Import Byte Word.LittleEndianList.
From stdpp Require Import base numbers list gmap option.
From S2P Require Import Prelude.
Local Open Scope Z_scope.

Abbreviation bytes := (list byte).
#[export] Instance byte_eq_decision : EqDecision byte := Byte.byte_eq_dec.
Definition bstr (s : string) : bytes := list_byte_of_string s.

(** ** Constants *)
Definition GGUF_MAGIC : bytes := bstr "GGUF".
Definition GGUF_VERSION : Z := 3.
Definition GGUF_DEFAULT_ALIGNMENT : Z := 32.
Definition GGUF_KEY_GENERAL_ALIGNMENT : bytes := bstr "general.alignment".
Definition GGUF_MAX_STRING_LENGTH : Z := 1024 * 1024 * 1024.
Definition GGUF_MAX_ARRAY_ELEMENTS : Z := 1024 * 1024 * 1024.
Definition GGML_MAX_DIMS : nat := 4.
Definition GGML_MAX_NAME : Z := 64.
Definition USIZE_MAX : Z := 2 ^ 64 - 1.
Definition I64_MAX : Z := 2 ^ 63 - 1.

(** [mem::size_of] of the two records on a 64-bit target. *)
Definition SIZE_OF_TENSOR_INFO : Z := 104.
Definition SIZE_OF_KV : Z := 80.

(** Wrapping arithmetic. *)
Definition u64 (x : Z) : Z := x mod 2 ^ 64.
Definition signed (bits x : Z) : Z :=
  let y := x mod 2 ^ bits in if y <? 2 ^ (bits - 1) then y else y - 2 ^ bits.
Definition i64 (x : Z) : Z := signed 64 x.

(** ** Types *)
Module GgufType.
Inductive t :=
| Uint8 | Int8 | Uint16 | Int16 | Uint32 | Int32 | Float32 | Bool | String | Array
| Uint64 | Int64 | Float64.

#[global] Instance t_eq_dec : EqDecision t.
Proof. solve_decision. Defined.

(** [None] is the panic on an unknown discriminant. *)
Definition from_i32 (v : Z) : option t :=
  match v with
  | 0 => Some Uint8
  | 1 => Some Int8
  | 2 => Some Uint16
  | 3 => Some Int16
  | 4 => Some Uint32
  | 5 => Some Int32
  | 6 => Some Float32
  | 7 => Some Bool
  | 8 => Some String
  | 9 => Some Array
  | 10 => Some Uint64
  | 11 => Some Int64
  | 12 => Some Float64
  | _ => None
  end.

Definition to_i32 (x : t) : Z :=
  match x with
  | Uint8 => 0 | Int8 => 1 | Uint16 => 2 | Int16 => 3 | Uint32 => 4 | Int32 => 5
  | Float32 => 6 | Bool => 7 | String => 8 | Array => 9 | Uint64 => 10 | Int64 => 11
  | Float64 => 12
  end.

Definition type_size (x : t) : nat :=
  match x with
  | Uint8 | Int8 | Bool => 1
  | Uint16 | Int16 => 2
  | Uint32 | Int32 | Float32 => 4
  | String | Array => 0
  | Uint64 | Int64 | Float64 => 8
  end.
End GgufType.

Module GgmlType.
Inductive t :=
| F32 | F16 | Q4_0 | Q4_1 | Q5_0 | Q5_1 | Q8_0 | Q8_1 | Q2_K | Q3_K | Q4_K | Q5_K | Q6_K
| Q8_K | IQ2_XXS | IQ2_XS | IQ3_XXS | IQ1_S | IQ4_NL | IQ3_S | IQ2_S | IQ4_XS | I8 | I16
| I32 | I64 | F64 | IQ1_M | BF16 | TQ1_0 | TQ2_0 | MXFP4 | NVFP4 | Q1_0.

#[global] Instance t_eq_dec : EqDecision t.
Proof. solve_decision. Defined.

Definition from_i32 (v : Z) : option t :=
  match v with
  | 0 => Some F32 | 1 => Some F16 | 2 => Some Q4_0 | 3 => Some Q4_1
  | 6 => Some Q5_0 | 7 => Some Q5_1 | 8 => Some Q8_0 | 9 => Some Q8_1
  | 10 => Some Q2_K | 11 => Some Q3_K | 12 => Some Q4_K | 13 => Some Q5_K
  | 14 => Some Q6_K | 15 => Some Q8_K | 16 => Some IQ2_XXS | 17 => Some IQ2_XS
  | 18 => Some IQ3_XXS | 19 => Some IQ1_S | 20 => Some IQ4_NL | 21 => Some IQ3_S
  | 22 => Some IQ2_S | 23 => Some IQ4_XS | 24 => Some I8 | 25 => Some I16
  | 26 => Some I32 | 27 => Some I64 | 28 => Some F64 | 29 => Some IQ1_M
  | 30 => Some BF16 | 34 => Some TQ1_0 | 35 => Some TQ2_0 | 39 => Some MXFP4
  | 40 => Some NVFP4 | 41 => Some Q1_0
  | _ => None
  end.

Definition to_i32 (x : t) : Z :=
  match x with
  | F32 => 0 | F16 => 1 | Q4_0 => 2 | Q4_1 => 3 | Q5_0 => 6 | Q5_1 => 7 | Q8_0 => 8
  | Q8_1 => 9 | Q2_K => 10 | Q3_K => 11 | Q4_K => 12 | Q5_K => 13 | Q6_K => 14
  | Q8_K => 15 | IQ2_XXS => 16 | IQ2_XS => 17 | IQ3_XXS => 18 | IQ1_S => 19
  | IQ4_NL => 20 | IQ3_S => 21 | IQ2_S => 22 | IQ4_XS => 23 | I8 => 24 | I16 => 25
  | I32 => 26 | I64 => 27 | F64 => 28 | IQ1_M => 29 | BF16 => 30 | TQ1_0 => 34
  | TQ2_0 => 35 | MXFP4 => 39 | NVFP4 => 40 | Q1_0 => 41
  end.

Definition type_size (x : t) : Z :=
  match x with
  | I8 => 1 | I16 => 2 | I32 => 4 | I64 => 8 | F64 => 8 | F32 => 4 | F16 => 2
  | Q1_0 => 6 | Q4_0 => 18 | Q4_1 => 20 | Q5_0 => 22 | Q5_1 => 24 | Q8_0 => 34
  | Q8_1 => 36 | Q2_K => 70 | Q3_K => 110 | Q4_K => 144 | Q5_K => 176 | Q6_K => 210
  | Q8_K => 290 | IQ2_XXS => 42 | IQ2_XS => 36 | IQ3_XXS => 58 | IQ1_S => 36
  | IQ4_NL => 18 | IQ3_S => 64 | IQ2_S => 48 | IQ4_XS => 28 | IQ1_M => 54 | BF16 => 2
  | TQ1_0 => 68 | TQ2_0 => 100 | MXFP4 => 72 | NVFP4 => 80
  end.

Definition blck_size (x : t) : Z :=
  match x with
  | I8 | I16 | I32 | I64 => 1
  | F64 | F32 | F16 => 1
  | BF16 => 1
  | TQ1_0 | TQ2_0 => 256
  | Q1_0 | Q4_0 | Q4_1 | Q5_0 | Q5_1 | Q8_0 | Q8_1 => 32
  | Q2_K | Q3_K | Q4_K | Q5_K | Q6_K | Q8_K => 256
  | IQ2_XXS | IQ2_XS | IQ3_XXS | IQ1_S => 256
  | IQ4_NL => 32
  | IQ3_S | IQ2_S => 256
  | IQ4_XS => 32
  | IQ1_M => 256
  | MXFP4 | NVFP4 => 32
  end.

Definition type_name (x : t) : string :=
  match x with
  | F32 => "f32" | F16 => "f16" | Q4_0 => "q4_0" | Q4_1 => "q4_1" | Q5_0 => "q5_0"
  | Q5_1 => "q5_1" | Q8_0 => "q8_0" | Q8_1 => "q8_1" | Q2_K => "q2_K" | Q3_K => "q3_K"
  | Q4_K => "q4_K" | Q5_K => "q5_K" | Q6_K => "q6_K" | Q8_K => "q8_K" | I8 => "i8"
  | I16 => "i16" | I32 => "i32" | I64 => "i64" | F64 => "f64" | IQ2_XXS => "iq2_xxs"
  | IQ2_XS => "iq2_xs" | IQ3_XXS => "iq3_xxs" | IQ1_S => "iq1_s" | IQ4_NL => "iq4_nl"
  | IQ3_S => "iq3_s" | IQ2_S => "iq2_s" | IQ4_XS => "iq4_xs" | IQ1_M => "iq1_m"
  | BF16 => "bf16" | TQ1_0 => "tq1_0" | TQ2_0 => "tq2_0" | MXFP4 => "mxfp4"
  | NVFP4 => "nvfp4" | Q1_0 => "q1_0"
  end%string.
End GgmlType.
Definition GGML_TYPE_COUNT : Z := 42.

(** [(x + n - 1) & !(n - 1)]. *)
Definition ggml_pad (x n : Z) : Z := Z.land (u64 (x + n - 1)) (u64 (Z.lnot (u64 (n - 1)))).

(** ** Key/value pairs *)
Record GgufKv := mkKv {
  kv_key : bytes;
  kv_is_array : bool;
  kv_type : GgufType.t;
  kv_data : bytes;
  kv_data_string : list bytes
}.

#[export] Instance GgufKv_eq_dec : EqDecision GgufKv.
Proof. solve_decision. Defined.

(** [new_u8] .. [new_f64]: the value's little-endian bytes. *)
Definition new_num (ty : GgufType.t) (key : bytes) (value : Z) : GgufKv :=
  mkKv key false ty (le_split (GgufType.type_size ty) value) [].
Definition new_u8 := new_num GgufType.Uint8.
Definition new_i8 := new_num GgufType.Int8.
Definition new_u16 := new_num GgufType.Uint16.
Definition new_i16 := new_num GgufType.Int16.
Definition new_u32 := new_num GgufType.Uint32.
Definition new_i32 := new_num GgufType.Int32.
Definition new_f32 := new_num GgufType.Float32.
Definition new_u64 := new_num GgufType.Uint64.
Definition new_i64 := new_num GgufType.Int64.
Definition new_f64 := new_num GgufType.Float64.
Definition new_bool (key : bytes) (value : bool) : GgufKv :=
  mkKv key false GgufType.Bool [byte.of_Z (if value then 1 else 0)] [].
Definition new_string (key value : bytes) : GgufKv :=
  mkKv key false GgufType.String [] [value].
Definition new_string_array (key : bytes) (value : list bytes) : GgufKv :=
  mkKv key true GgufType.String [] value.
Definition new_array (key : bytes) (ty : GgufType.t) (raw_data : bytes) : GgufKv :=
  mkKv key true ty raw_data [].

(** [None] is a failed [assert!] or an index out of range. *)
Definition get_ne (kv : GgufKv) : option nat :=
  if decide (kv_type kv = GgufType.String) then
    let ne := length (kv_data_string kv) in
    if kv_is_array kv || (ne =? 1)%nat then Some ne else None
  else
    let size := GgufType.type_size (kv_type kv) in
    if (size =? 0)%nat then None else
    if negb (length (kv_data kv) mod size =? 0)%nat then None else
    let ne := (length (kv_data kv) / size)%nat in
    if kv_is_array kv || (ne =? 1)%nat then Some ne else None.

(** The [i]th element's bytes as an unsigned integer; the type is asserted. *)
Definition get_val_num (ty : GgufType.t) (kv : GgufKv) (i : nat) : option Z :=
  let size := GgufType.type_size ty in
  if decide (kv_type kv = ty) then
    if ((i + 1) * size <=? length (kv_data kv))%nat
    then Some (le_combine (take size (drop (i * size) (kv_data kv)))) else None
  else None.
Definition get_val_u32 (kv : GgufKv) (i : nat) : option Z := get_val_num GgufType.Uint32 kv i.
Definition get_val_bool (kv : GgufKv) (i : nat) : option bool :=
  (λ v, negb (v =? 0)) <$> get_val_num GgufType.Bool kv i.

(** ** Tensor descriptions and the context *)
Record GgufTensorInfo := mkInfo {
  ti_name : bytes;
  ti_ne : list Z;
  ti_nb : list Z;
  ti_type : GgmlType.t;
  ti_offset : Z
}.

Record GgufContext := mkCtx {
  cx_version : Z;
  cx_kv : list GgufKv;
  cx_info : list GgufTensorInfo;
  cx_alignment : Z;
  cx_offset : Z;
  cx_size : Z
}.

Definition nth_z (l : list Z) (i : nat) : Z := default 0 (l !! i).

(** [ne.iter().product()]. *)
Definition product (ne : list Z) : Z := foldl (λ p x, i64 (p * x)) 1 ne.

Definition usize_of_i64 (x : Z) : Z := u64 x.

(** [(n / blck_size) as usize * type_size]. *)
Definition payload_size (ne : list Z) (ty : GgmlType.t) : Z :=
  u64 (usize_of_i64 (Z.quot (product ne) (GgmlType.blck_size ty)) * GgmlType.type_size ty).

Definition nbytes (ti : GgufTensorInfo) : Z := payload_size (ti_ne ti) (ti_type ti).

Definition get_n_kv (c : GgufContext) : Z := Z.of_nat (length (cx_kv c)).

Fixpoint find_key_from (i : Z) (kv : list GgufKv) (key : bytes) : Z :=
  match kv with
  | [] => -1
  | p :: kv => if decide (key = kv_key p) then i else find_key_from (i + 1) kv key
  end.
Definition find_key (c : GgufContext) (key : bytes) : Z := find_key_from 0 (cx_kv c) key.

Definition get_key (c : GgufContext) (key_id : Z) : option bytes :=
  if (0 <=? key_id) && (key_id <? get_n_kv c)
  then kv_key <$> cx_kv c !! Z.to_nat key_id else None.

Definition ctx_get_val_u32 (c : GgufContext) (key_id : Z) : option Z :=
  if (0 <=? key_id) && (key_id <? get_n_kv c) then
    kv ← cx_kv c !! Z.to_nat key_id;
    ne ← get_ne kv;
    if (ne =? 1)%nat then get_val_u32 kv 0 else None
  else None.

Definition ggml_nelements (ne : list Z) : Z :=
  i64 (i64 (i64 (nth_z ne 0 * nth_z ne 1) * nth_z ne 2) * nth_z ne 3).

(** The strides' part of [ggml_nbytes], over the dimensions [from ..]. *)
Fixpoint add_strides (nbytes : Z) (ne nb : list Z) : Z :=
  match ne, nb with
  | e :: ne, b :: nb => add_strides (u64 (nbytes + u64 (usize_of_i64 (i64 (e - 1)) * b))) ne nb
  | _, _ => nbytes
  end.

Definition ggml_nbytes (info : GgufTensorInfo) : Z :=
  if existsb (λ e, e <=? 0) (ti_ne info) then 0 else
  let blck := GgmlType.blck_size (ti_type info) in
  if blck =? 1 then add_strides (GgmlType.type_size (ti_type info)) (ti_ne info) (ti_nb info)
  else
    add_strides (u64 (usize_of_i64 (nth_z (ti_ne info) 0) * nth_z (ti_nb info) 0) / blck)
      (drop 1 (ti_ne info)) (drop 1 (ti_nb info)).

(** ** The reader *)

(** What the last recorded note says. *)
Inductive GgufNote :=
| NoteStringTooLong (size : Z)
| NoteStringPastEnd (size remain : Z)
| NoteMagic (shown : bytes)
| NoteBadVersion (v : Z)
| NoteEndianness (v : Z)
| NoteVersion1
| NoteNewVersion (v : Z)
| NoteTensorCount (n : Z)
| NoteKvCount (n : Z)
| NoteHeader
| NoteKeyLength (i : Z)
| NoteDuplicateKey (key : bytes) (j i : Z)
| NoteArrayType (key : bytes)
| NoteKvs
| NoteAlignment (a : Z)
| NoteNameLength (i : Z)
| NoteNameTooLong (i len : Z)
| NoteDuplicateName (name : bytes) (j i : Z)
| NoteDims (name : bytes) (n : Z)
| NoteNegativeDim (name : bytes) (j : nat) (ne : Z)
| NoteElements (name : bytes) (ne : list Z)
| NoteGgmlType (name : bytes) (ty : Z)
| NoteRow (name : bytes) (ty : GgmlType.t) (ne0 blck : Z)
| NoteByteSize (name : bytes) (ne : list Z)
| NoteInfos
| NoteSeek
| NoteRangeOverflow (name : bytes) (offset nbytes : Z)
| NoteRangePastEnd (name : bytes) (offset stop limit : Z)
| NoteSplitNo (no count : Z)
| NoteSplitCount (implied count : Z)
| NoteSplitPart (path : bytes) (no i : Z)
| NoteOpen (path : bytes).

Record GgufReader := mkReader {
  gr_data : bytes;
  gr_offset : Z;
  gr_remain : Z;
  gr_note : option GgufNote
}.

(** [Err ()] is [None]. *)
Definition parser (A : Type) : Type := GgufReader → res unit A * GgufReader.

#[export] Instance parser_ret : MRet parser := λ A a s, (Ok a, s).
#[export] Instance parser_bind : MBind parser := λ A B f m s,
  match m s with
  | (Ok a, s) => f a s
  | (Err e, s) => (Err e, s)
  | (Panic, s) => (Panic, s)
  end.

Definition fail {A} : parser A := λ s, (Err (), s).
Definition panic {A} : parser A := λ s, (Panic, s).
Definition note (n : GgufNote) : parser unit := λ s,
  (Ok (), mkReader (gr_data s) (gr_offset s) (gr_remain s) (Some n)).
(** Record a note and give up. *)
Definition refuse {A} (n : GgufNote) : parser A := _ ← note n; fail.
(** A step whose failure records a further note. *)
Definition or_note {A} (m : parser A) (n : GgufNote) : parser A := λ s,
  match m s with
  | (Err _, s) => refuse n s
  | r => r
  end.
Definition lift {A} (o : option A) : parser A := λ s, (or_panic o, s).
Definition get_state : parser GgufReader := λ s, (Ok s, s).

(** [for _ in 0..n], stopping at the first failure: the loop variable's range
    is a 64-bit number, so the loop is by the binary digits of [n]. *)
Fixpoint iter_pos {A} (p : positive) (f : A → parser A) (a : A) : parser A :=
  match p with
  | xH => f a
  | xO p => a ← iter_pos p f a; iter_pos p f a
  | xI p => a ← f a; a ← iter_pos p f a; iter_pos p f a
  end.
Definition for_z {A} (n : Z) (f : A → parser A) (a : A) : parser A :=
  match n with
  | Zpos p => iter_pos p f a
  | _ => mret a
  end.

Definition reader_new (data : bytes) : GgufReader :=
  mkReader data 0 (Z.of_nat (length data)) None.

(** The copy loop takes everything that is left in its first round, so a second
    round finds either nothing more to copy or the end of the data. *)
Definition read_raw (size : Z) : parser bytes := λ s,
  if size =? 0 then (Ok [], s) else
  let got := if Z.of_nat (length (gr_data s)) <=? gr_offset s then []
             else take (Z.to_nat size) (drop (Z.to_nat (gr_offset s)) (gr_data s)) in
  let total := Z.of_nat (length got) in
  let s := mkReader (gr_data s) (u64 (gr_offset s + total)) (gr_remain s) (gr_note s) in
  if gr_remain s <? total then (Panic, s) else
  (Ok got, mkReader (gr_data s) (gr_offset s) (gr_remain s - total) (gr_note s)).

(** [read_val::<T>], [T] an unsigned integer of [size] bytes. *)
Definition read_val (size : nat) : parser Z :=
  s ← get_state;
  if gr_remain s <? Z.of_nat size then fail else
  bs ← read_raw (Z.of_nat size);
  if negb (length bs =? size)%nat then fail else mret (le_combine bs).

Definition read_val_signed (size : nat) : parser Z :=
  v ← read_val size; mret (signed (8 * Z.of_nat size) v).

Definition read_bool : parser bool := v ← read_val 1; mret (negb (v =? 0)).
Definition read_ggml_type : parser GgmlType.t :=
  v ← read_val_signed 4; lift (GgmlType.from_i32 v).
Definition read_gguf_type : parser GgufType.t :=
  v ← read_val_signed 4; lift (GgufType.from_i32 v).

(** ** [String::from_utf8_lossy] *)

Definition uz (b : byte) : Z := byte.unsigned b.
Definition in_range (lo hi x : Z) : bool := (lo <=? x) && (x <=? hi).
Definition is_cont (x : Z) : bool := in_range 0x80 0xBF x.

(** The first sequence of a byte string: [inl k], a valid one of [k] bytes;
    [inr k], an invalid one whose maximal prefix has [k] bytes.  Bytes past
    the end count as 0. *)
Definition utf8_step (bs : bytes) : nat + nat :=
  let get i := from_option uz 0 (bs !! i) in
  let b := get 0%nat in
  let next := get 1%nat in
  if b <? 0x80 then inl 1%nat
  else if in_range 0xC2 0xDF b then
    if is_cont next then inl 2%nat else inr 1%nat
  else if in_range 0xE0 0xEF b then
    if negb (((b =? 0xE0) && in_range 0xA0 0xBF next)
             || (in_range 0xE1 0xEC b && is_cont next)
             || ((b =? 0xED) && in_range 0x80 0x9F next)
             || (in_range 0xEE 0xEF b && is_cont next)) then inr 1%nat
    else if is_cont (get 2%nat) then inl 3%nat else inr 2%nat
  else if in_range 0xF0 0xF4 b then
    if negb (((b =? 0xF0) && in_range 0x90 0xBF next)
             || (in_range 0xF1 0xF3 b && is_cont next)
             || ((b =? 0xF4) && in_range 0x80 0x8F next)) then inr 1%nat
    else if negb (is_cont (get 2%nat)) then inr 2%nat
    else if is_cont (get 3%nat) then inl 4%nat else inr 3%nat
  else inr 1%nat.

Definition REPLACEMENT : bytes := [byte.of_Z 0xEF; byte.of_Z 0xBF; byte.of_Z 0xBD].

Fixpoint utf8_lossy_loop (fuel : nat) (bs : bytes) : bytes :=
  match fuel, bs with
  | S fuel, _ :: _ =>
      match utf8_step bs with
      | inl k => take k bs ++ utf8_lossy_loop fuel (drop k bs)
      | inr k => REPLACEMENT ++ utf8_lossy_loop fuel (drop k bs)
      end
  | _, _ => []
  end.
(** Every step consumes at least one byte. *)
Definition from_utf8_lossy (bs : bytes) : bytes := utf8_lossy_loop (length bs) bs.

Fixpoint utf8_valid_loop (fuel : nat) (bs : bytes) : bool :=
  match fuel, bs with
  | S fuel, _ :: _ =>
      match utf8_step bs with
      | inl k => utf8_valid_loop fuel (drop k bs)
      | inr _ => false
      end
  | _, _ => true
  end.
Definition utf8_valid (bs : bytes) : bool := utf8_valid_loop (length bs) bs.

Definition read_string : parser bytes :=
  size ← read_val 8;
  s ← get_state;
  if GGUF_MAX_STRING_LENGTH <? size then refuse (NoteStringTooLong size) else
  if gr_remain s <? size then refuse (NoteStringPastEnd size (gr_remain s)) else
  bs ← read_raw size;
  if negb (Z.of_nat (length bs) =? size) then fail else mret (from_utf8_lossy bs).

(** The values, last first. *)
Definition push_val {A} (m : parser A) (dst : list A) : parser (list A) :=
  v ← m; mret (v :: dst).

Definition read_vec (size : nat) (n : Z) : parser (list Z) :=
  if GGUF_MAX_ARRAY_ELEMENTS <? n then fail else
  s ← get_state;
  if gr_remain s / Z.of_nat size <? n then fail else
  dst ← for_z n (push_val (read_val size)) [];
  mret (rev dst).

Definition read_string_vec (n : Z) : parser (list bytes) :=
  if GGUF_MAX_ARRAY_ELEMENTS <? n then fail else
  s ← get_state;
  if gr_remain s <? u64 (n * 8) then fail else
  dst ← for_z n (push_val read_string) [];
  mret (rev dst).

Definition tell : parser Z := s ← get_state; mret (gr_offset s).

Definition seek (absolute_offset : Z) : parser bool := λ s,
  let end_offset := Z.of_nat (length (gr_data s)) in
  if end_offset <? absolute_offset then (Ok false, s) else
  (Ok true, mkReader (gr_data s) absolute_offset (end_offset - absolute_offset) (gr_note s)).

(** ** The data section *)
Fixpoint data_section_loop (limit size : Z) (info : list GgufTensorInfo) : res GgufNote Z :=
  match info with
  | [] => Ok size
  | ti :: info =>
      let nb := ggml_nbytes ti in
      let stop := ti_offset ti + nb in
      if USIZE_MAX <? stop then Err (NoteRangeOverflow (ti_name ti) (ti_offset ti) nb) else
      if limit <? stop then Err (NoteRangePastEnd (ti_name ti) (ti_offset ti) stop limit) else
      data_section_loop limit (size `max` stop) info
  end.
Definition data_section_size (info : list GgufTensorInfo) (limit : Z) : res GgufNote Z :=
  data_section_loop limit 0 info.

(** ** [init_from_reader] *)

Definition is_ascii_graphic (b : byte) : bool := in_range 0x21 0x7E (uz b).

Definition read_magic : parser unit :=
  magic ← read_vec 1 4;
  let magic := map byte.of_Z magic in
  if decide (magic = GGUF_MAGIC) then mret () else
  refuse (NoteMagic (map (λ b, if is_ascii_graphic b then b else byte.of_Z 63) magic)).

Definition read_version : parser Z :=
  v ← read_val 4;
  if v =? 0 then refuse (NoteBadVersion v) else
  if Z.land v 0xFFFF =? 0 then refuse (NoteEndianness v) else
  if v =? 1 then refuse NoteVersion1 else
  if GGUF_VERSION <? v then refuse (NoteNewVersion v) else mret v.

Definition read_count (size_of : Z) (n : Z → GgufNote) : parser Z :=
  v ← read_val_signed 8;
  if (v <? 0) || (i64 (USIZE_MAX / size_of) <? v) then refuse (n v) else mret v.

(** Version, tensor count and pair count. *)
Definition read_header : parser (Z * Z * Z) :=
  or_note
    (version ← read_version;
     n_tensors ← read_count SIZE_OF_TENSOR_INFO NoteTensorCount;
     n_kv ← read_count SIZE_OF_KV NoteKvCount;
     mret (version, n_tensors, n_kv)) NoteHeader.

(** The position of a duplicate, if any. *)
Fixpoint index_of {A} (eq : A → bool) (j : Z) (l : list A) : option Z :=
  match l with
  | [] => None
  | x :: l => if eq x then Some j else index_of eq (j + 1) l
  end.

(** A number, or an array of them: their little-endian bytes are kept. *)
Definition read_num (ty : GgufType.t) (key : bytes) (is_array : bool) (n : Z) : parser GgufKv :=
  let size := GgufType.type_size ty in
  if is_array then
    values ← read_vec size n;
    mret (new_array key ty (concat (map (le_split size) values)))
  else
    value ← read_val size;
    mret (new_num ty key value).

Definition read_kv_value (key : bytes) (ty : GgufType.t) (is_array : bool) (n : Z) :
    parser GgufKv :=
  match ty with
  | GgufType.Bool =>
      if is_array then
        if I64_MAX <? n then panic else
        raw ← for_z n (push_val (v ← read_bool; mret (byte.of_Z (if v : bool then 1 else 0)))) [];
        mret (new_array key GgufType.Bool (rev raw))
      else
        value ← read_bool; mret (new_bool key value)
  | GgufType.String =>
      if is_array then
        values ← read_string_vec n; mret (new_string_array key values)
      else
        value ← read_string; mret (new_string key value)
  | GgufType.Array => refuse (NoteArrayType key)
  | ty => read_num ty key is_array n
  end.

Definition read_kv (kvs : list GgufKv) : parser (list GgufKv) :=
  let i := Z.of_nat (length kvs) in
  key ← or_note read_string (NoteKeyLength i);
  match index_of (λ p, bool_decide (key = kv_key p)) 0 kvs with
  | Some j => refuse (NoteDuplicateKey key j i)
  | None =>
      ty ← read_gguf_type;
      if decide (ty = GgufType.Array) then
        ty ← read_gguf_type;
        n ← read_val 8;
        kv ← read_kv_value key ty true n;
        mret (kvs ++ [kv])
      else
        kv ← read_kv_value key ty false 1;
        mret (kvs ++ [kv])
  end.

Definition read_kvs (n_kv : Z) : parser (list GgufKv) :=
  or_note (for_z n_kv read_kv []) NoteKvs.

Definition read_alignment (kvs : list GgufKv) : parser Z :=
  let ctx := mkCtx GGUF_VERSION kvs [] GGUF_DEFAULT_ALIGNMENT 0 0 in
  let idx := find_key ctx GGUF_KEY_GENERAL_ALIGNMENT in
  alignment ← (if idx =? -1 then mret GGUF_DEFAULT_ALIGNMENT
               else lift (ctx_get_val_u32 ctx idx));
  if (alignment =? 0) || negb (Z.land alignment (alignment - 1) =? 0)
  then refuse (NoteAlignment alignment) else mret alignment.

(** Four extents, the missing ones 1. *)
Fixpoint read_dims (name : bytes) (fuel j n_dims : nat) : parser (list Z) :=
  match fuel with
  | 0%nat => mret []
  | S fuel =>
      if (j <? n_dims)%nat then
        v ← read_val_signed 8;
        if v <? 0 then refuse (NoteNegativeDim name j v) else
        ne ← read_dims name fuel (S j) n_dims; mret (v :: ne)
      else ne ← read_dims name fuel (S j) n_dims; mret (1 :: ne)
  end.

(** [i64::MAX / n <= x]; a zero divisor panics. *)
Definition quotient_le (n x : Z) : option bool :=
  if n =? 0 then None else Some (Z.quot I64_MAX n <=? x).

Definition elements_overflow (ne : list Z) : option bool :=
  let n0 := nth_z ne 0 in
  let n1 := nth_z ne 1 in
  let n2 := nth_z ne 2 in
  let n3 := nth_z ne 3 in
  a ← quotient_le n1 n0;
  if a : bool then Some true else
  b ← quotient_le n2 (i64 (n0 * n1));
  if b : bool then Some true else
  quotient_le n3 (i64 (i64 (n0 * n1) * n2)).

Definition strides (ne : list Z) (type_size blck_size : Z) : list Z :=
  let nb0 := type_size in
  let nb1 := u64 (nb0 * usize_of_i64 (Z.quot (nth_z ne 0) blck_size)) in
  let nb2 := u64 (nb1 * usize_of_i64 (nth_z ne 1)) in
  let nb3 := u64 (nb2 * usize_of_i64 (nth_z ne 2)) in
  [nb0; nb1; nb2; nb3].

Definition read_tensor_info (infos : list GgufTensorInfo) : parser (list GgufTensorInfo) :=
  let i := Z.of_nat (length infos) in
  name ← or_note read_string (NoteNameLength i);
  let len := Z.of_nat (length name) in
  if GGML_MAX_NAME <=? len then refuse (NoteNameTooLong i len) else
  match index_of (λ t, bool_decide (name = ti_name t)) 0 infos with
  | Some j => refuse (NoteDuplicateName name j i)
  | None =>
      n_dims ← read_val 4;
      if Z.of_nat GGML_MAX_DIMS <? n_dims then refuse (NoteDims name n_dims) else
      ne ← read_dims name GGML_MAX_DIMS 0 (Z.to_nat n_dims);
      over ← lift (elements_overflow ne);
      if over : bool then refuse (NoteElements name ne) else
      ty ← read_ggml_type;
      let type_val := GgmlType.to_i32 ty in
      if (type_val <? 0) || (GGML_TYPE_COUNT <=? type_val)
      then refuse (NoteGgmlType name type_val) else
      let type_size := GgmlType.type_size ty in
      let blck_size := GgmlType.blck_size ty in
      if (blck_size =? 0) || negb (Z.rem (nth_z ne 0) blck_size =? 0)
      then refuse (NoteRow name ty (nth_z ne 0) blck_size) else
      if USIZE_MAX / type_size <? u64 (Z.quot (ggml_nelements ne) blck_size)
      then refuse (NoteByteSize name ne) else
      offset ← read_val 8;
      mret (infos ++ [mkInfo name ne (strides ne type_size blck_size) ty offset])
  end.

Definition read_infos (n_tensors : Z) : parser (list GgufTensorInfo) :=
  or_note (for_z n_tensors read_tensor_info []) NoteInfos.

Definition seek_data (n_tensors alignment : Z) : parser unit :=
  if 0 <? n_tensors then
    at_ ← tell;
    found ← seek (ggml_pad at_ alignment);
    if found : bool then mret () else refuse NoteSeek
  else mret ().

Definition init_from_reader : parser GgufContext :=
  _ ← read_magic;
  '(version, n_tensors, n_kv) ← read_header;
  kvs ← read_kvs n_kv;
  _ ← (if Z.of_nat (length kvs) =? n_kv then mret () else panic);
  alignment ← read_alignment kvs;
  infos ← read_infos n_tensors;
  _ ← (if Z.of_nat (length infos) =? n_tensors then mret () else panic);
  _ ← seek_data n_tensors alignment;
  offset ← tell;
  s ← get_state;
  match data_section_size infos (0 `max` (Z.of_nat (length (gr_data s)) - offset)) with
  | Ok size => mret (mkCtx version kvs infos alignment offset size)
  | Err n => refuse n
  | Panic => panic
  end.

(** The context, or the note the caller is shown. *)
Definition init_from_data (data : bytes) : res (option GgufNote) GgufContext :=
  match init_from_reader (reader_new data) with
  | (Ok ctx, _) => Ok ctx
  | (Err _, s) => Err (gr_note s)
  | (Panic, _) => Panic
  end.

(** ** Lookups by key *)

Definition find_kv (c : GgufContext) (key : bytes) : option GgufKv :=
  List.find (λ p, bool_decide (kv_key p = key)) (cx_kv c).

Definition get_string (kv : GgufKv) : option bytes :=
  if decide (kv_type kv = GgufType.String) then head (kv_data_string kv) else None.

(** The outer option is the panic. *)
Definition get_i64 (kv : GgufKv) : option (option Z) :=
  let num ty bits := v ← get_val_num ty kv 0; Some (Some (signed bits v)) in
  match kv_type kv with
  | GgufType.Int64 => num GgufType.Int64 64
  | GgufType.Uint32 => v ← get_val_num GgufType.Uint32 kv 0; Some (Some v)
  | GgufType.Int32 => num GgufType.Int32 32
  | GgufType.Uint64 => num GgufType.Uint64 64
  | GgufType.Uint16 => v ← get_val_num GgufType.Uint16 kv 0; Some (Some v)
  | GgufType.Int16 => num GgufType.Int16 16
  | GgufType.Uint8 => v ← get_val_num GgufType.Uint8 kv 0; Some (Some v)
  | GgufType.Int8 => num GgufType.Int8 8
  | GgufType.Bool => b ← get_val_bool kv 0; Some (Some (if b : bool then 1 else 0))
  | _ => Some None
  end.

Definition get_key_val_str (c : GgufContext) (key : bytes) : option bytes :=
  kv ← find_kv c key; get_string kv.
Definition get_key_val_i64 (c : GgufContext) (key : bytes) : option (option Z) :=
  match find_kv c key with Some kv => get_i64 kv | None => Some None end.
