(* ===== verification/GgufWrite.v ===== *)
(** * The GGUF writer: [src/gguf_write.rs]

    A file is the bytes written to it; the disk does not fail.  The caller's
    payload callback is a program of [write_all] calls that sees each one's
    outcome and ends with its own result ([provider]). *)
From Stdlib Require Import ZArith String Strings.Byte.
From coqutil Require Import Byte Word.LittleEndianList.
From stdpp Require Import base numbers list gmap option.
From S2P Require Import Prelude Gguf.
Local Open Scope Z_scope.

Definition KEY_SPLIT_NO : bytes := bstr "split.no".
Definition KEY_SPLIT_COUNT : bytes := bstr "split.count".
Definition KEY_SPLIT_TENSORS_COUNT : bytes := bstr "split.tensors.count".

Record TensorSpec := mkSpec {
  ts_name : bytes;
  ts_ne : list Z;
  ts_type : GgmlType.t
}.

Inductive GgufWriteError :=
| WriteNameTooLong (name : bytes)
| WriteRow (name : bytes) (ne0 blck : Z)
| WriteDim (name : bytes) (j : nat) (ne : Z)
| WriteDuplicate (name : bytes)
| WriteAlignment (alignment : Z)
| WriteUnfinished (next total : nat)
| WriteProvider (name : bytes)
| WritePayload (name : bytes) (written expected : Z)
| SplitEmpty
| SplitTensorTooBig (name : bytes) (padded cap : Z)
| SplitZeroCap.

Abbreviation wres := (res GgufWriteError).

Definition spec_nbytes (s : TensorSpec) : Z := payload_size (ts_ne s) (ts_type s).

Definition ggml_n_dims (ne : list Z) : nat :=
  foldl (λ n j, if nth_z ne j =? 1 then n else S j) 1%nat [1; 2; 3]%nat.

(** ** Encoding *)

Definition u32_bytes (x : Z) : bytes := le_split 4 x.
Definition u64_bytes (x : Z) : bytes := le_split 8 x.

Definition write_string (s : bytes) : bytes := u64_bytes (Z.of_nat (length s)) ++ s.

(** [None]: [get_ne] asserts, or a scalar string without a value is indexed. *)
Definition encode_kv (kv : GgufKv) : option bytes :=
  let key := write_string (kv_key kv) in
  if kv_is_array kv then
    ne ← get_ne kv;
    Some (key ++ u32_bytes (GgufType.to_i32 GgufType.Array)
          ++ u32_bytes (GgufType.to_i32 (kv_type kv)) ++ u64_bytes (Z.of_nat ne)
          ++ (if decide (kv_type kv = GgufType.String)
              then concat (map write_string (kv_data_string kv)) else kv_data kv))
  else
    payload ← (if decide (kv_type kv = GgufType.String)
               then write_string <$> head (kv_data_string kv) else Some (kv_data kv));
    Some (key ++ u32_bytes (GgufType.to_i32 (kv_type kv)) ++ payload).

Fixpoint encode_kvs (kvs : list GgufKv) : option bytes :=
  match kvs with
  | [] => Some []
  | kv :: kvs => b ← encode_kv kv; bs ← encode_kvs kvs; Some (b ++ bs)
  end.

(** Replace in place, or append. *)
Fixpoint kv_upsert (kvs : list GgufKv) (new : GgufKv) : list GgufKv :=
  match kvs with
  | [] => [new]
  | k :: kvs => if decide (kv_key k = kv_key new) then new :: kvs else k :: kv_upsert kvs new
  end.

Definition kv_remove (kvs : list GgufKv) (key : bytes) : list GgufKv :=
  List.filter (λ k, negb (bool_decide (kv_key k = key))) kvs.

(** The tensor index: each tensor's offset is the padded end of the one before. *)
Fixpoint offsets (cursor : Z) (specs : list TensorSpec) (alignment : Z) : list Z :=
  match specs with
  | [] => []
  | s :: specs =>
      cursor :: offsets (u64 (cursor + ggml_pad (spec_nbytes s) alignment)) specs alignment
  end.

Definition encode_spec (s : TensorSpec) (off : Z) : bytes :=
  let n_dims := ggml_n_dims (ts_ne s) in
  write_string (ts_name s) ++ u32_bytes (Z.of_nat n_dims)
  ++ concat (map (λ j, u64_bytes (nth_z (ts_ne s) j)) (List.seq 0 n_dims))
  ++ u32_bytes (GgmlType.to_i32 (ts_type s)) ++ u64_bytes off.

Fixpoint encode_specs (specs : list TensorSpec) (offs : list Z) : bytes :=
  match specs, offs with
  | s :: specs, off :: offs => encode_spec s off ++ encode_specs specs offs
  | _, _ => []
  end.

(** ** Validation *)

(** Dimensions 1 to 3 must be at least 1. *)
Fixpoint check_dims (name : bytes) (ne : list Z) (js : list nat) : wres unit :=
  match js with
  | [] => Ok ()
  | j :: js => if nth_z ne j <? 1 then Err (WriteDim name j (nth_z ne j))
               else check_dims name ne js
  end.

Definition validate_spec (prev : list TensorSpec) (s : TensorSpec) : wres unit :=
  if 64 <=? Z.of_nat (length (ts_name s)) then Err (WriteNameTooLong (ts_name s)) else
  let bs := GgmlType.blck_size (ts_type s) in
  if (bs =? 0) || negb (Z.rem (nth_z (ts_ne s) 0) bs =? 0)
  then Err (WriteRow (ts_name s) (nth_z (ts_ne s) 0) bs) else
  _ ← check_dims (ts_name s) (ts_ne s) [1; 2; 3]%nat;
  if existsb (λ p, bool_decide (ts_name p = ts_name s)) prev
  then Err (WriteDuplicate (ts_name s)) else Ok ().

Fixpoint validate_loop (prev specs : list TensorSpec) : wres unit :=
  match specs with
  | [] => Ok ()
  | s :: specs => _ ← validate_spec prev s; validate_loop (prev ++ [s]) specs
  end.
Definition validate_specs (specs : list TensorSpec) : wres unit := validate_loop [] specs.

(** ** The writer *)
Record GgufWriter := mkWriter {
  gw_out : bytes;
  gw_specs : list TensorSpec;
  gw_alignment : Z;
  gw_next : nat
}.

Definition zeros (n : Z) : bytes := replicate (Z.to_nat n) (byte.of_Z 0).

Definition header_bytes (kvs : bytes) (n_kv : nat) (specs : list TensorSpec) (alignment : Z) :
    bytes :=
  GGUF_MAGIC ++ u32_bytes GGUF_VERSION ++ u64_bytes (Z.of_nat (length specs))
  ++ u64_bytes (Z.of_nat n_kv) ++ kvs ++ encode_specs specs (offsets 0 specs alignment).

(** [header.resize(aligned, 0)]. *)
Definition resize (n : Z) (l : bytes) : bytes :=
  take (Z.to_nat n) l ++ zeros (n - Z.of_nat (length l)).

Definition create (kv : list GgufKv) (specs : list TensorSpec) (alignment : Z) : wres GgufWriter :=
  _ ← validate_specs specs;
  if (alignment =? 0) || negb (Z.land alignment (alignment - 1) =? 0)
  then Err (WriteAlignment alignment) else
  kvs ← or_panic (encode_kvs kv);
  let header := header_bytes kvs (length kv) specs alignment in
  let aligned := ggml_pad (Z.of_nat (length header)) alignment in
  Ok (mkWriter (resize aligned header) specs alignment 0).

Definition finish (w : GgufWriter) : wres bytes :=
  if negb (gw_next w =? length (gw_specs w))%nat
  then Err (WriteUnfinished (gw_next w) (length (gw_specs w))) else Ok (gw_out w).

(** What a payload callback does with the writer it is given. *)
Inductive provider :=
| PDone (ok : bool)
| PWrite (buf : bytes) (k : bool → provider).

(** The bounded view of one tensor's payload. *)
Record TensorStaging := mkStaging { sg_out : bytes; sg_remaining : Z; sg_overflow : Z }.

(** [write_all] through [TensorStaging::write]: a buffer that fits is taken
    whole; of a longer one the part that fits is written and the call fails.
    An empty buffer is not written at all. *)
Definition staging_write_all (buf : bytes) (s : TensorStaging) : bool * TensorStaging :=
  if decide (buf = []) then (true, s) else
  let len := Z.of_nat (length buf) in
  let take_ := len `min` sg_remaining s in
  let s := mkStaging (sg_out s ++ take (Z.to_nat take_) buf) (sg_remaining s - take_)
             (sg_overflow s) in
  if take_ <? len then (false, mkStaging (sg_out s) (sg_remaining s) (u64 (sg_overflow s + (len - take_))))
  else (true, s).

Fixpoint run_provider (p : provider) (s : TensorStaging) : bool * TensorStaging :=
  match p with
  | PDone ok => (ok, s)
  | PWrite buf k => let '(ok, s) := staging_write_all buf s in run_provider (k ok) s
  end.

Definition write_tensor_data (data : nat → provider) (i : nat) (spec : TensorSpec)
    (w : GgufWriter) : wres unit * GgufWriter :=
  let nb := spec_nbytes spec in
  let '(ok, s) := run_provider (data i) (mkStaging (gw_out w) nb 0) in
  let w := mkWriter (sg_out s) (gw_specs w) (gw_alignment w) (gw_next w) in
  if negb ok then (Err (WriteProvider (ts_name spec)), w) else
  if negb (sg_remaining s =? 0) || negb (sg_overflow s =? 0)
  then (Err (WritePayload (ts_name spec) (u64 (nb + sg_overflow s - sg_remaining s)) nb), w) else
  let pad := u64 (ggml_pad nb (gw_alignment w) - nb) in
  (Ok (), mkWriter (gw_out w ++ zeros pad) (gw_specs w) (gw_alignment w) (S (gw_next w))).

(** The tensors of one file, each with its number in the caller's numbering. *)
Definition write_tensors (data : nat → provider) (ids : list (nat * TensorSpec)) (w : GgufWriter) :
    wres unit * GgufWriter :=
  for_each (λ p w, write_tensor_data data p.1 p.2 w) ids w.

(** The three keys a writer of parts owns. *)
Definition strip_split (kv : list GgufKv) : list GgufKv :=
  kv_remove (kv_remove (kv_remove kv KEY_SPLIT_NO) KEY_SPLIT_COUNT) KEY_SPLIT_TENSORS_COUNT.

Definition write_single (kv : list GgufKv) (specs : list TensorSpec) (alignment : Z)
    (data : nat → provider) : wres bytes :=
  w ← create (strip_split kv) specs alignment;
  let '(r, w) := write_tensors data (imap (λ i s, (i, s)) specs) w in
  _ ← r;
  finish w.

(** ** Splitting *)

Fixpoint assign_loop (i : nat) (specs : list TensorSpec) (alignment max_part_bytes : Z)
    (parts : list (list nat)) (cur : list nat) (cur_bytes : Z) : wres (list (list nat)) :=
  match specs with
  | [] => Ok (if decide (cur = []) then parts else parts ++ [cur])
  | s :: specs =>
      let padded := ggml_pad (spec_nbytes s) alignment in
      if max_part_bytes <? padded
      then Err (SplitTensorTooBig (ts_name s) padded max_part_bytes) else
      if negb (bool_decide (cur = [])) && (max_part_bytes <? u64 (cur_bytes + padded)) then
        assign_loop (S i) specs alignment max_part_bytes (parts ++ [cur]) [i] (u64 (0 + padded))
      else
        assign_loop (S i) specs alignment max_part_bytes parts (cur ++ [i])
          (u64 (cur_bytes + padded))
  end.

Definition split_assignment (specs : list TensorSpec) (alignment max_part_bytes : Z) :
    wres (list (list nat)) :=
  if decide (specs = []) then Err SplitEmpty else
  assign_loop 0 specs alignment max_part_bytes [] [] 0.

(** [{:05}]: at least five decimal digits. *)
Fixpoint decimal (fuel : nat) (n : nat) : bytes :=
  let digit := byte.of_Z (48 + Z.of_nat (n mod 10)) in
  match fuel with
  | 0%nat => [digit]
  | S fuel => if (n <? 10)%nat then [digit] else decimal fuel (n / 10) ++ [digit]
  end.
Definition pad5 (n : nat) : bytes :=
  let d := decimal n n in
  replicate (5 - length d) (byte.of_Z 48) ++ d.

Definition single_name (stem : bytes) : bytes := stem ++ bstr ".gguf".
(** [{stem}-{:05}-of-{:05}.gguf]. *)
Definition part_name (stem : bytes) (i count : nat) : bytes :=
  stem ++ bstr "-" ++ pad5 i ++ bstr "-of-" ++ pad5 count ++ bstr ".gguf".

Definition part_kv (base : list GgufKv) (p total n_specs : nat) : list GgufKv :=
  let kv := kv_upsert base (new_u32 KEY_SPLIT_NO (Z.of_nat p)) in
  let kv := kv_upsert kv (new_u32 KEY_SPLIT_COUNT (Z.of_nat total)) in
  kv_upsert kv (new_u32 KEY_SPLIT_TENSORS_COUNT (Z.of_nat n_specs)).

(** One part; [None] is an index out of range. *)
Definition write_part (stem : bytes) (base : list GgufKv) (specs : list TensorSpec)
    (alignment : Z) (data : nat → provider) (total p : nat) (ids : list nat) :
    wres (bytes * bytes) :=
  part_specs ← or_panic (mapM (λ i, specs !! i) ids);
  w ← create (part_kv base p total (length specs)) part_specs alignment;
  let '(r, w) := write_tensors data (zip ids part_specs) w in
  _ ← r;
  out ← finish w;
  Ok (if (total =? 1)%nat then single_name stem else part_name stem (p + 1) total, out).

Fixpoint write_parts (stem : bytes) (base : list GgufKv) (specs : list TensorSpec)
    (alignment : Z) (data : nat → provider) (total p : nat) (assignment : list (list nat)) :
    wres (list (bytes * bytes)) :=
  match assignment with
  | [] => Ok []
  | ids :: rest =>
      part ← write_part stem base specs alignment data total p ids;
      parts ← write_parts stem base specs alignment data total (S p) rest;
      Ok (part :: parts)
  end.

(** The written files, by name. *)
Definition write_split (stem : bytes) (kv : list GgufKv) (specs : list TensorSpec)
    (alignment max_part_bytes : Z) (data : nat → provider) : wres (list (bytes * bytes)) :=
  if max_part_bytes =? 0 then Err SplitZeroCap else
  assignment ← split_assignment specs alignment max_part_bytes;
  if (length assignment =? 1)%nat then
    out ← write_single kv specs alignment data; Ok [(single_name stem, out)]
  else
    write_parts stem (strip_split kv) specs alignment data (length assignment) 0 assignment.
