(* ===== verification/GgufLoad.v ===== *)
(** * The model loader: [split_file_info], [resolve_splits], [load_gguf_model]
    of [src/gguf.rs]

    A directory is a map from file names to contents; the paths the loader
    forms are names in the directory of the path it was given. *)
From Stdlib Require Import ZArith String Strings.Byte.
From coqutil Require Import Byte Word.LittleEndianList.
From stdpp Require Import base numbers list gmap option.
From S2P Require Import Prelude Gguf GgufWrite.
Local Open Scope Z_scope.

Abbreviation directory := (bytes → option bytes).

(** ** String searches *)

Fixpoint starts_with (pat s : bytes) : bool :=
  match pat, s with
  | [], _ => true
  | p :: pat, c :: s => bool_decide (p = c) && starts_with pat s
  | _ :: _, [] => false
  end.

(** [rfind]: the last position at which the pattern occurs. *)
Fixpoint rfind (pat s : bytes) : option nat :=
  match s with
  | [] => if starts_with pat [] then Some 0%nat else None
  | _ :: s' =>
      match rfind pat s' with
      | Some i => Some (S i)
      | None => if starts_with pat s then Some 0%nat else None
      end
  end.

Definition strip_suffix (suffix s : bytes) : option bytes :=
  let n := (length s - length suffix)%nat in
  if decide ((length suffix ≤ length s)%nat ∧ drop n s = suffix) then Some (take n s) else None.

(** [str::parse::<usize>]: an optional [+], then at least one digit. *)
Definition digit_value (b : byte) : option Z :=
  let x := uz b in if (48 <=? x) && (x <=? 57) then Some (x - 48) else None.

Fixpoint parse_digits (acc : Z) (s : bytes) : option Z :=
  match s with
  | [] => Some acc
  | b :: s =>
      d ← digit_value b;
      if USIZE_MAX <? acc * 10 + d then None else parse_digits (acc * 10 + d) s
  end.

Definition parse_usize (s : bytes) : option Z :=
  let s := match s with b :: s' => if bool_decide (b = byte.of_Z 43) then s' else s | [] => s end in
  if decide (s = []) then None else parse_digits 0 s.

(** ** Names of split files *)

Definition split_file_info (name : bytes) : option (bytes * Z * Z) :=
  stem ← strip_suffix (bstr ".gguf") name;
  dash ← rfind (bstr "-of-") stem;
  let idx_part := take dash stem in
  let count_str := drop (dash + 4) stem in
  idx_dash ← rfind (bstr "-") idx_part;
  let prefix := take idx_dash idx_part in
  let idx_num := drop (idx_dash + 1) idx_part in
  if negb (length idx_num =? 5)%nat || negb (length count_str =? 5)%nat then None else
  idx ← parse_usize idx_num;
  count ← parse_usize count_str;
  if (idx =? 0) || (count =? 0) || (count <? idx) then None else
  Some (prefix, idx - 1, count).

Definition resolve_splits (name : bytes) : option (list bytes) :=
  '(prefix, idx, count) ← split_file_info name;
  if negb (idx =? 0) then None else
  Some (map (λ i, part_name prefix (i + 1) (Z.to_nat count)) (List.seq 0 (Z.to_nat count))).

(** ** Loading *)

(** A loader keeps the last recorded note. *)
Definition loader (A : Type) : Type := option GgufNote → res unit A * option GgufNote.

#[export] Instance loader_ret : MRet loader := λ A a n, (Ok a, n).
#[export] Instance loader_bind : MBind loader := λ A B f m n,
  match m n with
  | (Ok a, n) => f a n
  | (Err e, n) => (Err e, n)
  | (Panic, n) => (Panic, n)
  end.
Definition load_fail {A} : loader A := λ n, (Err (), n).
Definition load_refuse {A} (nt : GgufNote) : loader A := λ _, (Err (), Some nt).
Definition load_lift {A} (o : option A) : loader A := λ n, (or_panic o, n).

Record GgufPart := mkPart { pt_ctx : GgufContext; pt_data : bytes }.

(** [MmapFile::map]: an empty file cannot be mapped. *)
Definition map_file (fs : directory) (name : bytes) : loader bytes :=
  match fs name with
  | None => load_refuse (NoteOpen name)
  | Some data => if decide (data = []) then load_fail else mret data
  end.

Definition parse_file (data : bytes) : loader GgufContext := λ n,
  let '(r, s) := init_from_reader (mkReader data 0 (Z.of_nat (length data)) n) in (r, gr_note s).

(** [get_key_val_i64(key).map(|v| v as usize).unwrap_or(default)]. *)
Definition key_usize (ctx : GgufContext) (key : bytes) (dflt : Z) : loader Z :=
  v ← load_lift (get_key_val_i64 ctx key);
  mret (match v : option Z with Some v => usize_of_i64 v | None => dflt end).

Fixpoint load_parts (fs : directory) (i : Z) (paths : list bytes) : loader (list GgufPart) :=
  match paths with
  | [] => mret []
  | p :: paths =>
      data ← map_file fs p;
      ctx ← parse_file data;
      no ← key_usize ctx KEY_SPLIT_NO 0;
      if negb (no =? i) then load_refuse (NoteSplitPart p no i) else
      parts ← load_parts fs (i + 1) paths;
      mret (mkPart ctx data :: parts)
  end.

Definition load_gguf_model_inner (fs : directory) (name : bytes) : loader (list GgufPart) :=
  data0 ← map_file fs name;
  ctx0 ← parse_file data0;
  split_count ← key_usize ctx0 KEY_SPLIT_COUNT 1;
  if split_count <=? 1 then mret [mkPart ctx0 data0] else
  split_no ← key_usize ctx0 KEY_SPLIT_NO 0;
  if negb (split_no =? 0) then load_refuse (NoteSplitNo split_no split_count) else
  match resolve_splits name with
  | None => load_fail
  | Some part_paths =>
      let implied := Z.of_nat (length part_paths) in
      if negb (implied =? split_count) then load_refuse (NoteSplitCount implied split_count) else
      load_parts fs 0 part_paths
  end.

(** The parts, or the reason. *)
Definition load_gguf_model (fs : directory) (name : bytes) : res (option GgufNote) (list GgufPart) :=
  match load_gguf_model_inner fs name None with
  | (Ok parts, _) => Ok parts
  | (Err _, n) => Err n
  | (Panic, _) => Panic
  end.

(** The directory a list of written files makes. *)
Definition dir_of (files : list (bytes * bytes)) : directory := λ name,
  snd <$> List.find (λ f, bool_decide (f.1 = name)) files.

(** A tensor's bytes in a part. *)
Definition tensor_bytes (part : GgufPart) (ti : GgufTensorInfo) : bytes :=
  take (Z.to_nat (nbytes ti))
    (drop (Z.to_nat (cx_offset (pt_ctx part) + ti_offset ti)) (pt_data part)).
