(* ===== verification/GgufRound.v ===== *)
(** * Reading back what was written, step by step

    [reads m bs v]: wherever the parser [m] meets the bytes [bs], it takes
    exactly those and returns [v].  One lemma per reader of [Gguf], then one per record of [GgufWrite]. *)
From Stdlib Require Import ZArith String Strings.Byte.
From coqutil Require Import Byte Word.LittleEndianList.
From stdpp Require Import base numbers list gmap option.
From S2P Require Import Prelude Gguf GgufWrite.
Local Open Scope Z_scope.

(** The files considered are shorter than this. *)
Definition FILE_MAX : Z := 2 ^ 56.

Abbreviation zlen l := (Z.of_nat (length l)).

Definition reader_at (pre rest : bytes) (nt : option GgufNote) : GgufReader :=
  mkReader (pre ++ rest) (zlen pre) (zlen rest) nt.

Lemma remain_at pre rest nt : gr_remain (reader_at pre rest nt) = zlen rest.
Proof. done. Qed.

Definition reads {A} (m : parser A) (bs : bytes) (v : A) : Prop :=
  ∀ pre rest nt, zlen (pre ++ bs ++ rest) < FILE_MAX →
    m (reader_at pre (bs ++ rest) nt) = (Ok v, reader_at (pre ++ bs) rest nt).

Lemma zlen_app {A} (l1 l2 : list A) : zlen (l1 ++ l2) = zlen l1 + zlen l2.
Proof. rewrite length_app. lia. Qed.

Lemma reads_ret {A} (v : A) : reads (mret v) [] v.
Proof. intros pre rest nt _. unfold mret, parser_ret. simpl. by rewrite app_nil_r. Qed.

Lemma reads_bind {A B} (m : parser A) (f : A → parser B) b1 b2 v w :
  reads m b1 v → reads (f v) b2 w → reads (m ≫= f) (b1 ++ b2) w.
Proof.
  intros H1 H2 pre rest nt Hlen. unfold mbind, parser_bind.
  rewrite <-app_assoc, H1 by (by rewrite <-!app_assoc in *).
  rewrite H2 by (by rewrite <-!app_assoc in *). by rewrite <-app_assoc.
Qed.

(** A bind whose first step reads nothing. *)
Lemma reads_bind_nil {A B} (m : parser A) (f : A → parser B) b v w :
  reads m [] v → reads (f v) b w → reads (m ≫= f) b w.
Proof. intros H1 H2. by apply (reads_bind m f [] b v w). Qed.

Lemma reads_last {A B} (m : parser A) (f : A → B) b v :
  reads m b v → reads (x ← m; mret (f x)) b (f v).
Proof. intros H. rewrite <-(app_nil_r b). eapply reads_bind; [done|]. apply reads_ret. Qed.

Lemma reads_or_note {A} (m : parser A) n b v : reads m b v → reads (or_note m n) b v.
Proof. intros H pre rest nt Hl. unfold or_note. by rewrite H. Qed.

Lemma reads_lift {A} (o : option A) v : o = Some v → reads (lift o) [] v.
Proof. intros -> pre rest nt _. unfold lift. simpl. by rewrite app_nil_r. Qed.

Lemma reads_raw bs : reads (read_raw (zlen bs)) bs bs.
Proof.
  intros pre rest nt Hlen. unfold read_raw, reader_at. simpl.
  rewrite !zlen_app in Hlen. unfold FILE_MAX in Hlen.
  destruct (Z.eqb_spec (zlen bs) 0) as [Hz|Hz].
  - destruct bs; [|simpl in Hz; lia]. simpl. by rewrite app_nil_r.
  - rewrite !zlen_app. rewrite (proj2 (Z.leb_gt _ _)) by lia.
    rewrite !Nat2Z.id, drop_app_length, take_app_length.
    rewrite (proj2 (Z.ltb_ge _ _)) by lia.
    f_equal. rewrite <-app_assoc. f_equal.
    + unfold u64. rewrite Z.mod_small by lia. lia.
    + lia.
Qed.

Lemma reads_val size z : reads (read_val size) (le_split size z) (z mod 2 ^ (Z.of_nat size * 8)).
Proof.
  intros pre rest nt Hlen. unfold read_val, mbind, parser_bind, get_state.
  assert (Hl : zlen (le_split size z) = Z.of_nat size) by by rewrite length_le_split.
  rewrite remain_at, zlen_app.
  rewrite (proj2 (Z.ltb_ge _ _)) by lia.
  rewrite <-Hl at 1. rewrite reads_raw by done.
  rewrite length_le_split, Nat.eqb_refl. simpl. unfold mret, parser_ret.
  by rewrite le_combine_split.
Qed.

Lemma reads_val_small size z :
  0 ≤ z < 2 ^ (Z.of_nat size * 8) → reads (read_val size) (le_split size z) z.
Proof. intros Hz. pose proof (reads_val size z) as H. by rewrite Z.mod_small in H. Qed.

Lemma signed_mod bits x :
  0 < bits → - 2 ^ (bits - 1) ≤ x < 2 ^ (bits - 1) → signed bits (x mod 2 ^ bits) = x.
Proof.
  intros Hb Hx. unfold signed.
  assert (H2 : 2 ^ bits = 2 * 2 ^ (bits - 1)).
  { rewrite <-Z.pow_succ_r by lia. f_equal. lia. }
  rewrite Zmod_mod. rewrite H2. set (p := 2 ^ (bits - 1)) in *.
  destruct (Z.le_gt_cases 0 x).
  - rewrite Z.mod_small by lia. by rewrite (proj2 (Z.ltb_lt _ _)) by lia.
  - replace (x mod (2 * p)) with (x + 2 * p).
    + rewrite (proj2 (Z.ltb_ge _ _)) by lia. lia.
    + apply Z.mod_unique with (-1); [left; lia|lia].
Qed.

Lemma reads_val_signed size z :
  (0 < size)%nat → - 2 ^ (8 * Z.of_nat size - 1) ≤ z < 2 ^ (8 * Z.of_nat size - 1) →
  reads (read_val_signed size) (le_split size z) z.
Proof.
  intros Hs Hz. unfold read_val_signed.
  replace z with (signed (8 * Z.of_nat size) (z mod 2 ^ (Z.of_nat size * 8))) at 2.
  - apply (reads_last _ (signed (8 * Z.of_nat size))), reads_val.
  - rewrite (Z.mul_comm (Z.of_nat size) 8). apply signed_mod; [lia|done].
Qed.

(** ** Strings *)

Lemma utf8_step_bound bs k : utf8_step bs = inl k ∨ utf8_step bs = inr k → (1 ≤ k ≤ 4)%nat.
Proof.
  unfold utf8_step. repeat (case_match; try (intros [H'|H']; simplify_eq; lia)).
Qed.

Lemma lossy_valid fuel bs : utf8_valid_loop fuel bs = true → (length bs ≤ fuel)%nat →
  utf8_lossy_loop fuel bs = bs.
Proof.
  revert bs. induction fuel as [|fuel IH]; intros bs Hv Hl; destruct bs as [|b bs]; simpl in *; try done; [lia|].
  destruct (utf8_step (b :: bs)) as [k|k] eqn:Hs; [|done].
  pose proof (utf8_step_bound (b :: bs) k (or_introl Hs)) as Hk.
  rewrite IH; [by rewrite take_drop|done|]. rewrite length_drop. simpl. lia.
Qed.

(** A valid string survives the lossy conversion. *)
Lemma from_utf8_lossy_valid bs : utf8_valid bs = true → from_utf8_lossy bs = bs.
Proof. intros H. by apply lossy_valid. Qed.

Definition good_string (s : bytes) : Prop :=
  utf8_valid s = true ∧ zlen s ≤ GGUF_MAX_STRING_LENGTH.

Lemma reads_string s :
  good_string s → reads read_string (le_split 8 (zlen s) ++ s) s.
Proof.
  intros [Hv Hl]. unfold GGUF_MAX_STRING_LENGTH in Hl. unfold read_string.
  eapply reads_bind.
  { apply (reads_val_small 8). lia. }
  intros pre rest nt Hlen. unfold mbind, parser_bind, get_state.
  rewrite (proj2 (Z.ltb_ge GGUF_MAX_STRING_LENGTH _)) by (unfold GGUF_MAX_STRING_LENGTH; lia).
  rewrite remain_at, zlen_app, (proj2 (Z.ltb_ge _ _)) by lia.
  rewrite reads_raw by done. rewrite Z.eqb_refl. simpl. unfold mret, parser_ret.
  by rewrite from_utf8_lossy_valid.
Qed.

(** ** Loops *)

Fixpoint iter_nat {A} (n : nat) (f : A → parser A) (a : A) : parser A :=
  match n with
  | O => mret a
  | S n => a ← f a; iter_nat n f a
  end.

Lemma iter_nat_add {A} n m (f : A → parser A) a s :
  iter_nat (n + m) f a s = (a ← iter_nat n f a; iter_nat m f a) s.
Proof.
  unfold mbind, parser_bind. revert a s. induction n as [|n IH]; intros a s; simpl; [done|].
  unfold mbind, parser_bind. destruct (f a s) as [[]?]; [apply IH|done..].
Qed.

Lemma iter_pos_nat {A} p (f : A → parser A) a s : iter_pos p f a s = iter_nat (Pos.to_nat p) f a s.
Proof.
  revert a s. induction p as [p IH|p IH|]; intros a s; cbn [iter_pos].
  - rewrite Pos2Nat.inj_xI. cbn [iter_nat]. unfold mbind, parser_bind.
    destruct (f a s) as [[b| |] s']; [|done..].
    replace (2 * Pos.to_nat p)%nat with (Pos.to_nat p + Pos.to_nat p)%nat by lia.
    rewrite iter_nat_add. unfold mbind, parser_bind.
    rewrite IH. destruct (iter_nat _ f b s') as [[]?]; [apply IH|done..].
  - rewrite Pos2Nat.inj_xO.
    replace (2 * Pos.to_nat p)%nat with (Pos.to_nat p + Pos.to_nat p)%nat by lia.
    rewrite iter_nat_add. unfold mbind, parser_bind. rewrite IH.
    destruct (iter_nat _ f a s) as [[]?]; [apply IH|done..].
  - change (Pos.to_nat 1) with 1%nat. cbn [iter_nat].
    unfold mbind, parser_bind, mret, parser_ret. by destruct (f a s) as [[]?].
Qed.

Lemma for_z_nat {A} n (f : A → parser A) a s : for_z (Z.of_nat n) f a s = iter_nat n f a s.
Proof.
  destruct n as [|n]; [done|]. change (Z.of_nat (S n)) with (Zpos (Pos.of_succ_nat n)).
  unfold for_z. by rewrite iter_pos_nat, SuccNat2Pos.id_succ.
Qed.

(** A loop reads a list when each round reads the next element. *)
Lemma reads_for {A X} (f : A → parser A) (enc : X → bytes) (step : A → X → A) l a :
  (∀ done x todo, l = done ++ x :: todo →
     reads (f (foldl step a done)) (enc x) (step (foldl step a done) x)) →
  reads (for_z (zlen l) f a) (concat (map enc l)) (foldl step a l).
Proof.
  intros H pre rest nt Hlen. rewrite for_z_nat.
  assert (Hgen : reads (iter_nat (length l) f a) (concat (map enc l)) (foldl step a l)).
  { clear Hlen. revert a H. induction l as [|x l IH]; intros a H; simpl; [apply reads_ret|].
    eapply reads_bind; [by apply (H [] x l)|]. apply IH. intros d y t ->. apply (H (x :: d) y t eq_refl). }
  by apply Hgen.
Qed.

Lemma foldl_push {X} (l acc : list X) : foldl (λ dst x, x :: dst) acc l = rev l ++ acc.
Proof.
  revert acc. induction l as [|x l IH]; intros acc; simpl; [done|]. by rewrite IH, <-app_assoc.
Qed.

Lemma foldl_snoc {X} (l acc : list X) : foldl (λ dst x, dst ++ [x]) acc l = acc ++ l.
Proof.
  revert acc. induction l as [|x l IH]; intros acc; simpl; [by rewrite app_nil_r|].
  by rewrite IH, <-app_assoc.
Qed.

(** An array read value by value. *)
Lemma reads_pushes {X} (m : parser X) (enc : X → bytes) l :
  (∀ x, x ∈ l → reads m (enc x) x) →
  reads (for_z (zlen l) (push_val m) []) (concat (map enc l)) (rev l).
Proof.
  intros H. rewrite <-(app_nil_r (rev l)), <-foldl_push.
  apply (reads_for _ enc (λ dst x, x :: dst)). intros d x t ->.
  unfold push_val. apply (reads_last m (λ v, v :: _)), H. set_solver.
Qed.

Lemma reads_push {X} (m : parser X) (enc : X → bytes) l :
  (∀ x, x ∈ l → reads m (enc x) x) →
  reads (dst ← for_z (zlen l) (push_val m) []; mret (rev dst)) (concat (map enc l)) l.
Proof.
  intros H. replace l with (rev (rev l)) at 3 by apply rev_involutive.
  by apply (reads_last _ (@rev X)), reads_pushes.
Qed.

(** * Reading back the encoded records

    What the writer encodes for one key/value pair and for one tensor is what
    the parser's record readers read: the lemmas here are the two halves of
    the round trip in [GgufProps]. *)
Local Open Scope Z_scope.

(** ** Well-formed pairs *)

Definition is_bit (b : byte) : Prop := b = byte.of_Z 0 ∨ b = byte.of_Z 1.

(** A pair as the [new_*] constructors build it, within the format's limits. *)
Definition kv_value_ok (kv : GgufKv) : Prop :=
  match kv_type kv, kv_is_array kv with
  | GgufType.Array, _ => False
  | GgufType.String, true =>
      kv_data kv = [] ∧ Forall good_string (kv_data_string kv)
      ∧ zlen (kv_data_string kv) ≤ GGUF_MAX_ARRAY_ELEMENTS
  | GgufType.String, false =>
      kv_data kv = [] ∧ length (kv_data_string kv) = 1%nat
      ∧ Forall good_string (kv_data_string kv)
  | GgufType.Bool, a =>
      kv_data_string kv = [] ∧ Forall is_bit (kv_data kv)
      ∧ (a = true ∨ length (kv_data kv) = 1%nat) ∧ zlen (kv_data kv) ≤ GGUF_MAX_ARRAY_ELEMENTS
  | ty, true =>
      kv_data_string kv = [] ∧ (length (kv_data kv) mod GgufType.type_size ty = 0)%nat
      ∧ zlen (kv_data kv) ≤ GGUF_MAX_ARRAY_ELEMENTS
  | ty, false => kv_data_string kv = [] ∧ length (kv_data kv) = GgufType.type_size ty
  end.

Definition kv_ok (kv : GgufKv) : Prop := good_string (kv_key kv) ∧ kv_value_ok kv.

#[export] Instance good_string_dec s : Decision (good_string s).
Proof. unfold good_string. apply _. Defined.
#[export] Instance is_bit_dec b : Decision (is_bit b).
Proof. unfold is_bit. apply _. Defined.
#[export] Instance kv_ok_dec kv : Decision (kv_ok kv).
Proof.
  unfold kv_ok, kv_value_ok. destruct (kv_type kv), (kv_is_array kv); apply _.
Defined.

Lemma Forall_elem {X} (P : X → Prop) l x : Forall P l → x ∈ l → P x.
Proof. induction 1; set_solver. Qed.

(** ** Numbers and arrays of numbers *)

Lemma le_split_combine n bs : length bs = n → le_split n (le_combine bs) = bs.
Proof. intros <-. apply split_le_combine. Qed.

Lemma le_combine_range bs : 0 ≤ le_combine bs < 2 ^ (8 * zlen bs).
Proof. apply le_combine_bound. Qed.

(** Bytes cut into elements of [size] bytes. *)
Fixpoint chunks (size n : nat) (bs : bytes) : list Z :=
  match n with
  | O => []
  | S n => le_combine (take size bs) :: chunks size n (drop size bs)
  end.

Lemma chunks_concat size n bs :
  length bs = (n * size)%nat → concat (map (le_split size) (chunks size n bs)) = bs.
Proof.
  revert bs. induction n as [|n IH]; intros bs Hl; simpl in *.
  - by destruct bs.
  - rewrite IH by (rewrite length_drop; lia).
    rewrite le_split_combine by (rewrite length_take; lia). apply take_drop.
Qed.

Lemma chunks_range size n bs v :
  v ∈ chunks size n bs → (length bs = n * size)%nat → 0 ≤ v < 2 ^ (8 * Z.of_nat size).
Proof.
  revert bs. induction n as [|n IH]; intros bs Hv Hl; simpl in *; [by apply not_elem_of_nil in Hv|].
  apply elem_of_cons in Hv as [->|Hv].
  - pose proof (le_combine_range (take size bs)) as H. rewrite length_take in H.
    by replace (size `min` length bs)%nat with size in H by lia.
  - eapply IH; [done|]. rewrite length_drop. lia.
Qed.

Lemma length_chunks size n bs : length (chunks size n bs) = n.
Proof. revert bs. induction n as [|n IH]; intros bs; simpl; [done|]. by rewrite IH. Qed.

Lemma reads_vec size vs :
  (0 < size)%nat → zlen vs ≤ GGUF_MAX_ARRAY_ELEMENTS →
  (∀ v, v ∈ vs → 0 ≤ v < 2 ^ (8 * Z.of_nat size)) →
  reads (read_vec size (zlen vs)) (concat (map (le_split size) vs)) vs.
Proof.
  intros Hs Hn Hv pre rest nt Hlen. unfold read_vec.
  rewrite (proj2 (Z.ltb_ge _ _)) by done.
  assert (Hc : zlen (concat (map (le_split size) vs)) = zlen vs * Z.of_nat size).
  { clear -vs. induction vs as [|v vs IH]; simpl; [done|].
    rewrite zlen_app, IH, length_le_split. lia. }
  unfold mbind at 1, parser_bind at 1, get_state. rewrite remain_at, zlen_app, Hc.
  rewrite (proj2 (Z.ltb_ge _ _)).
  - apply (reads_push (read_val size) (le_split size)); [|done].
    intros v Hin. apply reads_val_small. rewrite Z.mul_comm. by apply Hv.
  - apply Z.div_le_lower_bound; lia.
Qed.

Lemma reads_string_vec ss :
  Forall good_string ss → zlen ss ≤ GGUF_MAX_ARRAY_ELEMENTS →
  reads (read_string_vec (zlen ss)) (concat (map write_string ss)) ss.
Proof.
  intros Hs Hn pre rest nt Hlen. unfold read_string_vec.
  rewrite (proj2 (Z.ltb_ge _ _)) by done.
  assert (Hc : zlen ss * 8 ≤ zlen (concat (map write_string ss))).
  { clear -ss. induction ss as [|s ss IH]; [done|]. cbn [map concat length].
    unfold write_string at 1, u64_bytes at 1. rewrite !zlen_app, length_le_split. lia. }
  unfold mbind at 1, parser_bind at 1, get_state. rewrite remain_at, zlen_app.
  unfold GGUF_MAX_ARRAY_ELEMENTS in Hn.
  rewrite (proj2 (Z.ltb_ge _ _)).
  - apply (reads_push read_string write_string); [|done].
    intros s Hin. apply reads_string. by eapply Forall_elem.
  - unfold u64. rewrite Z.mod_small by lia. lia.
Qed.

Lemma from_to_gguf ty : GgufType.from_i32 (GgufType.to_i32 ty) = Some ty.
Proof. by destruct ty. Qed.

Lemma from_to_ggml ty : GgmlType.from_i32 (GgmlType.to_i32 ty) = Some ty.
Proof. by destruct ty. Qed.

Lemma reads_tag {T} (from : Z → option T) z v :
  - 2 ^ 31 ≤ z < 2 ^ 31 → from z = Some v →
  reads (x ← read_val_signed 4; lift (from x)) (u32_bytes z) v.
Proof.
  intros Hz Hf. rewrite <-(app_nil_r (u32_bytes z)). eapply reads_bind.
  - apply (reads_val_signed 4); [lia|exact Hz].
  - by apply reads_lift.
Qed.

Lemma reads_gguf_type ty : reads read_gguf_type (u32_bytes (GgufType.to_i32 ty)) ty.
Proof. apply reads_tag; [by destruct ty|apply from_to_gguf]. Qed.

Lemma reads_ggml_type ty : reads read_ggml_type (u32_bytes (GgmlType.to_i32 ty)) ty.
Proof. apply reads_tag; [by destruct ty|apply from_to_ggml]. Qed.

Definition bit_byte (v : bool) : byte := byte.of_Z (if v then 1 else 0).

Lemma reads_bit b : is_bit b → ∃ v, reads read_bool [b] v ∧ bit_byte v = b.
Proof.
  intros Hb. exists (bool_decide (b = byte.of_Z 1)). split.
  - unfold read_bool. pose proof (reads_val 1 (byte.unsigned b)) as H.
    destruct Hb as [Hb|Hb]; subst b; apply (reads_last _ (λ v, negb (v =? 0)) _ _ H).
  - by destruct Hb as [Hb|Hb]; subst b.
Qed.

(** ** One key/value pair *)

Lemma zlen_mul size n (bs : bytes) : length bs = (n * size)%nat → zlen bs = Z.of_nat n * Z.of_nat size.
Proof. lia. Qed.

Lemma reads_num_array ty key n data :
  (0 < GgufType.type_size ty)%nat → length data = (n * GgufType.type_size ty)%nat →
  zlen data ≤ GGUF_MAX_ARRAY_ELEMENTS →
  reads (read_num ty key true (Z.of_nat n)) data (new_array key ty data).
Proof.
  intros Hs Hl Hn. unfold read_num.
  pose proof (chunks_concat _ _ _ Hl) as Hc.
  pose proof (reads_vec (GgufType.type_size ty) (chunks (GgufType.type_size ty) n data) Hs) as H.
  rewrite Hc, length_chunks in H. rewrite <-Hc at 2.
  apply (reads_last _ (λ values, new_array key ty (concat (map _ values)))), H; [nia|].
  intros v Hv. by eapply chunks_range.
Qed.

Lemma reads_num_scalar ty key data n :
  length data = GgufType.type_size ty →
  reads (read_num ty key false n) data (mkKv key false ty data []).
Proof.
  intros Hl. unfold read_num.
  rewrite <-(le_split_combine _ _ Hl) at 1.
  pose proof (le_combine_range data) as Hr. rewrite Hl in Hr.
  replace data with (le_split (GgufType.type_size ty) (le_combine data)) at 2
    by by apply le_split_combine.
  apply (reads_last _ (new_num ty key)), reads_val_small.
  by rewrite Z.mul_comm.
Qed.

Lemma concat_singletons {X} (l : list X) : concat (map (λ x, [x]) l) = l.
Proof. induction l as [|x l IH]; simpl; [done|]. by rewrite IH. Qed.

Lemma reads_bool_array key data :
  Forall is_bit data →
  reads (read_kv_value key GgufType.Bool true (zlen data)) data (new_array key GgufType.Bool data).
Proof.
  intros Hb pre rest nt Hlen. unfold read_kv_value.
  assert (Hm : zlen data ≤ I64_MAX).
  { rewrite !zlen_app in Hlen. unfold FILE_MAX, I64_MAX in *. lia. }
  rewrite (proj2 (Z.ltb_ge _ _)) by done.
  assert (H : reads (for_z (zlen data)
      (push_val (v ← read_bool; mret (bit_byte v))) []) data (rev data)).
  { pose proof (reads_pushes (v ← read_bool; mret (bit_byte v)) (λ b, [b]) data) as H.
    rewrite concat_singletons in H. apply H.
    intros b Hin. destruct (reads_bit b (Forall_elem _ _ _ Hb Hin)) as (v & Hv & <-).
    by apply (reads_last _ bit_byte). }
  replace data with (rev (rev data)) at 3 by apply rev_involutive.
  by apply (reads_last _ (λ raw, new_array key GgufType.Bool (rev raw)) data (rev data) H).
Qed.

(** The bytes after a pair's type. *)
Definition payload_bytes (kv : GgufKv) : bytes :=
  if decide (kv_type kv = GgufType.String)
  then concat (map write_string (kv_data_string kv)) else kv_data kv.

Lemma get_ne_num kv :
  kv_type kv ≠ GgufType.String → (0 < GgufType.type_size (kv_type kv))%nat →
  kv_is_array kv = true → (length (kv_data kv) mod GgufType.type_size (kv_type kv) = 0)%nat →
  ∃ n, get_ne kv = Some n ∧ length (kv_data kv) = (n * GgufType.type_size (kv_type kv))%nat.
Proof.
  intros Ht Hs Ha Hm. unfold get_ne. rewrite decide_False by done.
  rewrite (proj2 (Nat.eqb_neq _ _)), Hm, Ha by lia. cbn.
  eexists; split; [done|]. pose proof (Nat.div_mod_eq (length (kv_data kv)) (GgufType.type_size (kv_type kv))).
  lia.
Qed.

Lemma reads_array_value kv :
  kv_value_ok kv → kv_is_array kv = true →
  ∃ n, get_ne kv = Some n ∧ Z.of_nat n ≤ GGUF_MAX_ARRAY_ELEMENTS
    ∧ reads (read_kv_value (kv_key kv) (kv_type kv) true (Z.of_nat n)) (payload_bytes kv) kv.
Proof.
  destruct kv as [key a ty data ss]. intros Hok Ha; cbn in Ha; subst a.
  unfold payload_bytes; cbn [kv_type kv_key kv_data kv_data_string].
  assert (Hnum : ss = [] → GgufType.type_size ty ≠ 0%nat → ty ≠ GgufType.String →
    (length data mod GgufType.type_size ty = 0)%nat → zlen data ≤ GGUF_MAX_ARRAY_ELEMENTS →
    ∃ n, get_ne (mkKv key true ty data ss) = Some n ∧ Z.of_nat n ≤ GGUF_MAX_ARRAY_ELEMENTS
      ∧ reads (read_num ty key true (Z.of_nat n)) data (mkKv key true ty data ss)).
  { intros -> Hs Ht Hm Hn.
    destruct (get_ne_num (mkKv key true ty data []) Ht ltac:(cbn; lia) eq_refl Hm) as (n & Hne & Hl).
    exists n; split; [done|]. cbn in Hl. split; [nia|]. apply reads_num_array; [lia|done..]. }
  destruct ty; rewrite ?decide_False, ?decide_True by done;
    try (destruct Hok as (Hss & Hm & Hn); apply Hnum; done).
  - destruct Hok as (Hss & Hm & _ & Hn); cbn in Hss, Hm, Hn; subst ss. exists (length data); split_and!.
    + unfold get_ne. cbn [kv_type kv_data kv_is_array GgufType.type_size].
      by rewrite decide_False, Nat.mod_1_r, Nat.div_1_r.
    + done.
    + by apply reads_bool_array.
  - destruct Hok as (Hd & Hss & Hn); cbn in Hd, Hss, Hn; subst data.
    exists (length ss); split_and!; [done..|].
    by apply (reads_last _ (new_string_array key)), reads_string_vec.
  - done.
Qed.

Lemma reads_scalar_value kv :
  kv_value_ok kv → kv_is_array kv = false →
  reads (read_kv_value (kv_key kv) (kv_type kv) false 1) (payload_bytes kv) kv.
Proof.
  destruct kv as [key a ty data ss]. intros Hok Ha; cbn in Ha; subst a.
  unfold payload_bytes; cbn [kv_type kv_key kv_data kv_data_string].
  destruct ty; rewrite ?decide_False, ?decide_True by done;
    try (destruct Hok as (Hss & Hl); cbn in Hss, Hl; subst ss; by apply reads_num_scalar).
  - destruct Hok as (Hss & Hb & Hl & _); cbn in Hss, Hb, Hl; subst ss.
    destruct Hl as [?|Hl]; [done|]. destruct data as [|b [|]]; try done.
    apply Forall_inv, reads_bit in Hb as (v & Hv & <-).
    by apply (reads_last _ (new_bool key)).
  - destruct Hok as (Hd & Hl & Hg); cbn in Hd, Hl, Hg; subst data.
    destruct ss as [|s [|]]; try done. cbn [map concat]. rewrite app_nil_r.
    apply (reads_last _ (new_string key)), reads_string. by apply Forall_inv in Hg.
  - done.
Qed.

(** ** The whole table of pairs *)

Lemma index_of_none {A} (eq : A → bool) j l : (∀ x, x ∈ l → eq x = false) → index_of eq j l = None.
Proof.
  revert j. induction l as [|x l IH]; intros j H; simpl; [done|].
  rewrite H by by left. apply IH. intros y Hy. apply H. by right.
Qed.

Definition kv_bytes (kv : GgufKv) : bytes := default [] (encode_kv kv).

Lemma encode_kv_ok kv :
  kv_ok kv → ∃ n, (kv_is_array kv = true → Z.of_nat n ≤ GGUF_MAX_ARRAY_ELEMENTS
    ∧ reads (read_kv_value (kv_key kv) (kv_type kv) true (Z.of_nat n)) (payload_bytes kv) kv)
  ∧ encode_kv kv = Some (write_string (kv_key kv)
      ++ (if kv_is_array kv
          then u32_bytes (GgufType.to_i32 GgufType.Array) ++ u32_bytes (GgufType.to_i32 (kv_type kv))
               ++ u64_bytes (Z.of_nat n)
          else u32_bytes (GgufType.to_i32 (kv_type kv))) ++ payload_bytes kv).
Proof.
  intros [_ Hok]. destruct (kv_is_array kv) eqn:Ha.
  - destruct (reads_array_value kv Hok Ha) as (n & Hn & Hmax & Hr). exists n; split; [done|].
    unfold encode_kv. rewrite Ha, Hn. cbn [mbind option_bind]. by rewrite <-!app_assoc.
  - exists 0%nat; split; [done|]. unfold encode_kv, payload_bytes. rewrite Ha.
    destruct (decide (kv_type kv = GgufType.String)) as [Ht|Ht]; [|done].
    destruct kv as [key a ty data ss]; cbn in *; subst a ty.
    destruct Hok as (_ & Hl & _). cbn in Hl. destruct ss as [|s [|]]; try done.
    cbn. by rewrite app_nil_r.
Qed.

Lemma encode_kv_some kv : kv_ok kv → encode_kv kv = Some (kv_bytes kv).
Proof. intros (n & _ & H)%encode_kv_ok. unfold kv_bytes. by rewrite H. Qed.

Lemma reads_kv kvs kv :
  kv_ok kv → kv_key kv ∉ map kv_key kvs →
  reads (read_kv kvs) (kv_bytes kv) (kvs ++ [kv]).
Proof.
  intros Hok Hfresh pre rest nt Hlen. destruct (encode_kv_ok kv Hok) as (n & Harr & Henc).
  assert (Hb : kv_bytes kv = _) by (unfold kv_bytes; rewrite Henc; done).
  destruct Hok as [Hkey Hval].
  rewrite Hb in *. revert pre rest nt Hlen. unfold read_kv.
  apply reads_bind with (v := kv_key kv). { by apply reads_or_note, reads_string. }
  rewrite index_of_none.
  2:{ intros p Hp. apply bool_decide_eq_false. intros Heq. apply Hfresh.
      rewrite Heq. by apply list_elem_of_fmap_2. }
  destruct (kv_is_array kv) eqn:Ha.
  - destruct (Harr eq_refl) as [Hn Hr]. unfold GGUF_MAX_ARRAY_ELEMENTS in Hn. rewrite <-!app_assoc.
    eapply reads_bind; [apply reads_gguf_type|]. rewrite decide_True by done.
    eapply reads_bind; [apply reads_gguf_type|].
    eapply reads_bind; [apply (reads_val_small 8); lia|].
    by apply (reads_last _ (λ kv, kvs ++ [kv])).
  - eapply reads_bind; [apply reads_gguf_type|]. rewrite decide_False.
    + by apply (reads_last _ (λ kv, kvs ++ [kv])), reads_scalar_value.
    + intros Ht. unfold kv_value_ok in Hval. by rewrite Ht in Hval.
Qed.

Definition kvs_ok (kvs : list GgufKv) : Prop := Forall kv_ok kvs ∧ NoDup (map kv_key kvs).

#[export] Instance kvs_ok_dec kvs : Decision (kvs_ok kvs).
Proof. unfold kvs_ok. apply _. Defined.

Lemma encode_kvs_ok kvs : Forall kv_ok kvs → encode_kvs kvs = Some (concat (map kv_bytes kvs)).
Proof.
  induction 1 as [|kv kvs Hkv _ IH]; simpl; [done|].
  rewrite encode_kv_some, IH by done. done.
Qed.

Lemma reads_kvs kvs :
  kvs_ok kvs → reads (read_kvs (zlen kvs)) (concat (map kv_bytes kvs)) kvs.
Proof.
  intros [Hok Hnd]. apply reads_or_note.
  pose proof (foldl_snoc kvs []) as Hf. cbn in Hf. rewrite <-Hf at 3.
  apply reads_for. intros d kv t ->. rewrite foldl_snoc. cbn.
  apply Forall_app in Hok as [_ Hok]. apply reads_kv; [by inversion Hok|].
  rewrite map_app in Hnd. apply list.NoDup_app in Hnd as (_ & Hd & _).
  intros Hin. apply (Hd _ Hin). by left.
Qed.

(** ** Tensor extents *)

(** Four positive extents, rows made of whole blocks, a size in range. *)
Definition dims_ok (ne : list Z) (ty : GgmlType.t) : Prop :=
  length ne = 4%nat ∧ Forall (λ e, 1 ≤ e) ne
  ∧ Z.rem (nth_z ne 0) (GgmlType.blck_size ty) = 0
  ∧ nth_z ne 0 * nth_z ne 1 * nth_z ne 2 * nth_z ne 3 * GgmlType.type_size ty < FILE_MAX.

#[export] Instance dims_ok_dec ne ty : Decision (dims_ok ne ty).
Proof. unfold dims_ok. apply _. Defined.

Lemma type_size_pos ty : 1 ≤ GgmlType.type_size ty < 2 ^ 9.
Proof. by destruct ty. Qed.

Lemma blck_size_pos ty : 1 ≤ GgmlType.blck_size ty ≤ 256.
Proof. by destruct ty. Qed.

(** The extents as four numbers, with the products the checks compute. *)
Lemma dims_ok_elim ne ty :
  dims_ok ne ty → ∃ n0 n1 n2 n3, ne = [n0; n1; n2; n3] ∧ 1 ≤ n0 ∧ 1 ≤ n1 ∧ 1 ≤ n2 ∧ 1 ≤ n3
    ∧ 1 ≤ n0 * n1 ∧ 1 ≤ n0 * n1 * n2
    ∧ n0 ≤ n0 * n1 ∧ n0 * n1 ≤ n0 * n1 * n2 ∧ n0 * n1 * n2 ≤ n0 * n1 * n2 * n3
    ∧ n0 * n1 * n2 * n3 ≤ n0 * n1 * n2 * n3 * GgmlType.type_size ty
    ∧ n0 * n1 * n2 * n3 * GgmlType.type_size ty < 2 ^ 56
    ∧ n1 ≤ n0 * n1 ∧ n2 ≤ n0 * n1 * n2 ∧ n3 ≤ n0 * n1 * n2 * n3
    ∧ n0 = GgmlType.blck_size ty * (n0 / GgmlType.blck_size ty).
Proof.
  intros (Hl & Hp & Hr & Hm). destruct ne as [|n0 [|n1 [|n2 [|n3 [|]]]]]; try done.
  rewrite !list.Forall_cons in Hp. destruct Hp as (? & ? & ? & ? & _). cbn in Hr, Hm. unfold FILE_MAX in Hm.
  pose proof (type_size_pos ty) as Ht. pose proof (blck_size_pos ty) as Hb.
  exists n0, n1, n2, n3. split; [done|]. rewrite Z.rem_mod_nonneg in Hr by lia.
  assert (Hmul : ∀ x y, 1 ≤ x → 1 ≤ y → 1 ≤ x * y ∧ x ≤ x * y ∧ y ≤ x * y) by nia.
  destruct (Hmul n0 n1) as (? & ? & ?); [done..|].
  destruct (Hmul (n0 * n1) n2) as (? & ? & ?); [done..|].
  destruct (Hmul (n0 * n1 * n2) n3) as (? & ? & ?); [done..|].
  destruct (Hmul (n0 * n1 * n2 * n3) (GgmlType.type_size ty)) as (? & ? & ?); [done|lia|].
  split_and!; done || lia || (apply Z_div_exact_full_2; lia).
Qed.

Lemma quotient_le_ok n x :
  1 ≤ n → 0 ≤ x → (x + 1) * n ≤ I64_MAX → quotient_le n x = Some false.
Proof.
  intros Hn Hx Hm. unfold quotient_le. rewrite (proj2 (Z.eqb_neq _ _)) by lia. f_equal.
  apply Z.leb_gt. rewrite Z.quot_div_nonneg by (unfold I64_MAX; lia).
  apply Z.lt_le_trans with (x + 1); [lia|]. apply Z.div_le_lower_bound; lia.
Qed.

Lemma i64_small x : 0 ≤ x < 2 ^ 63 → i64 x = x.
Proof.
  intros Hx. unfold i64, signed. rewrite Z.mod_small by lia.
  by rewrite (proj2 (Z.ltb_lt _ _)) by (simpl; lia).
Qed.

Lemma u64_small x : 0 ≤ x < 2 ^ 64 → u64 x = x.
Proof. intros Hx. unfold u64. by apply Z.mod_small. Qed.

Lemma elements_overflow_ok ne ty : dims_ok ne ty → elements_overflow ne = Some false.
Proof.
  intros (n0 & n1 & n2 & n3 & -> & H)%dims_ok_elim. destruct_and! H.
  unfold elements_overflow, nth_z. cbn -[quotient_le i64 Z.mul].
  assert (Hq : ∀ x n, 1 ≤ n → 1 ≤ x → x * n < 2 ^ 56 → quotient_le n x = Some false).
  { intros x n Hn Hx Hm. apply quotient_le_ok; [lia..|]. unfold I64_MAX. nia. }
  rewrite (Hq n0 n1) by lia. cbn. rewrite !i64_small by (rewrite ?i64_small; lia).
  rewrite (Hq (n0 * n1) n2) by lia. cbn. by rewrite (Hq (n0 * n1 * n2) n3) by lia.
Qed.

Lemma ggml_nelements_ok ne ty :
  dims_ok ne ty → ggml_nelements ne = nth_z ne 0 * nth_z ne 1 * nth_z ne 2 * nth_z ne 3.
Proof.
  intros (n0 & n1 & n2 & n3 & -> & H)%dims_ok_elim. destruct_and! H.
  unfold ggml_nelements, nth_z. cbn -[i64 Z.mul].
  by rewrite !i64_small by (rewrite ?i64_small by (rewrite ?i64_small; lia); lia).
Qed.

(** ** One tensor description *)

Lemma reads_dims_from name nd j l :
  (∀ e, e ∈ l → 1 ≤ e < 2 ^ 63) →
  (∀ i e, l !! i = Some e → (nd ≤ j + i)%nat → e = 1) →
  reads (read_dims name (length l) j nd) (concat (map u64_bytes (take (nd - j) l))) l.
Proof.
  revert j. induction l as [|e l IH]; intros j Hr Hone; cbn [read_dims length].
  - rewrite take_nil. apply reads_ret.
  - assert (HIH : reads (read_dims name (length l) (S j) nd)
              (concat (map u64_bytes (take (nd - S j) l))) l).
    { apply IH; [set_solver|]. intros i x Hx Hle. apply (Hone (S i) x Hx). lia. }
    destruct (Nat.ltb_spec j nd) as [Hlt|Hge].
    + replace (nd - j)%nat with (S (nd - S j)) by lia. cbn [take map concat].
      pose proof (Hr e ltac:(by left)) as He.
      eapply reads_bind; [apply (reads_val_signed 8); [lia|simpl; lia]|].
      rewrite (proj2 (Z.ltb_ge _ _)) by lia. by apply (reads_last _ (cons e)).
    + replace (nd - j)%nat with 0%nat by lia. cbn [take map concat].
      rewrite (Hone 0%nat e) by (done || lia).
      replace (nd - S j)%nat with 0%nat in HIH by lia. by apply (reads_last _ (cons 1)).
Qed.

Lemma ggml_n_dims_spec n0 n1 n2 n3 :
  let nd := ggml_n_dims [n0; n1; n2; n3] in
  (1 ≤ nd ≤ 4)%nat ∧ ∀ i e, [n0; n1; n2; n3] !! i = Some e → (nd ≤ i)%nat → e = 1.
Proof.
  unfold ggml_n_dims. cbn.
  destruct (Z.eqb_spec n1 1), (Z.eqb_spec n2 1), (Z.eqb_spec n3 1); subst;
    (split; [lia|]); intros [|[|[|[|]]]] e He Hle; cbn in He; simplify_eq; lia.
Qed.

Lemma map_nth_z ne nd :
  (nd ≤ length ne)%nat → map (λ j, u64_bytes (nth_z ne j)) (List.seq 0 nd) = map u64_bytes (take nd ne).
Proof.
  intros Hl. apply list_eq. intros i. rewrite !list_lookup_fmap.
  destruct (decide (i < nd)%nat) as [Hi|Hi].
  - rewrite lookup_seq_lt, lookup_take_lt by done. cbn.
    destruct (lookup_lt_is_Some_2 ne i) as [e He]; [lia|]. unfold nth_z. by rewrite He.
  - by rewrite lookup_seq_ge, lookup_take_ge by lia.
Qed.

Lemma reads_dims name ne ty :
  dims_ok ne ty →
  reads (read_dims name GGML_MAX_DIMS 0 (ggml_n_dims ne))
    (concat (map (λ j, u64_bytes (nth_z ne j)) (List.seq 0 (ggml_n_dims ne)))) ne.
Proof.
  intros Hok. destruct (dims_ok_elim _ _ Hok) as (n0 & n1 & n2 & n3 & -> & H). destruct_and! H.
  destruct (ggml_n_dims_spec n0 n1 n2 n3) as [Hnd Hone].
  rewrite map_nth_z by (cbn [length]; lia).
  rewrite <-(Nat.sub_0_r (ggml_n_dims _)) at 2.
  apply (reads_dims_from name _ 0 [n0; n1; n2; n3]); [|done].
  intros e He. rewrite !elem_of_cons, elem_of_nil in He. destruct_or! He; subst; try lia; done.
Qed.

(** A tensor the writer describes and the reader accepts. *)
Definition spec_ok (s : TensorSpec) : Prop :=
  utf8_valid (ts_name s) = true ∧ zlen (ts_name s) < GGML_MAX_NAME ∧ dims_ok (ts_ne s) (ts_type s).

#[export] Instance spec_ok_dec s : Decision (spec_ok s).
Proof. unfold spec_ok. apply _. Defined.

(** What the parser makes of a description at an offset. *)
Definition info_of (s : TensorSpec) (off : Z) : GgufTensorInfo :=
  mkInfo (ts_name s) (ts_ne s)
    (strides (ts_ne s) (GgmlType.type_size (ts_type s)) (GgmlType.blck_size (ts_type s)))
    (ts_type s) off.

Lemma row_bytes_fit ne ty :
  dims_ok ne ty →
  (USIZE_MAX / GgmlType.type_size ty <? u64 (Z.quot (ggml_nelements ne) (GgmlType.blck_size ty)))
    = false.
Proof.
  intros Hok. rewrite (ggml_nelements_ok _ _ Hok).
  destruct (dims_ok_elim _ _ Hok) as (n0 & n1 & n2 & n3 & -> & H). destruct_and! H.
  pose proof (type_size_pos ty) as Ht. pose proof (blck_size_pos ty) as Hb.
  cbn -[u64 Z.mul Z.quot USIZE_MAX]. set (n := n0 * n1 * n2 * n3) in *.
  rewrite Z.quot_div_nonneg by lia.
  assert (Hd : 0 ≤ n / GgmlType.blck_size ty ≤ n).
  { split; [apply Z.div_pos; lia|]. apply Z.div_le_upper_bound; nia. }
  rewrite u64_small by lia. apply Z.ltb_ge. apply Z.div_le_lower_bound; [lia|].
  unfold USIZE_MAX. nia.
Qed.

Lemma reads_tensor_info infos s off :
  spec_ok s → ts_name s ∉ map ti_name infos → 0 ≤ off < 2 ^ 64 →
  reads (read_tensor_info infos) (encode_spec s off) (infos ++ [info_of s off]).
Proof.
  intros (Hutf & Hlen & Hdims) Hfresh Hoff.
  unfold read_tensor_info, encode_spec.
  apply reads_bind with (v := ts_name s).
  { apply reads_or_note, reads_string. split; [done|]. unfold GGML_MAX_NAME, GGUF_MAX_STRING_LENGTH in *. lia. }
  rewrite (proj2 (Z.leb_gt _ _)) by done.
  rewrite index_of_none.
  2:{ intros p Hp. apply bool_decide_eq_false. intros Heq. apply Hfresh.
      rewrite Heq. by apply list_elem_of_fmap_2. }
  assert (Hnd : (ggml_n_dims (ts_ne s) ≤ 4)%nat).
  { destruct (dims_ok_elim _ _ Hdims) as (n0 & n1 & n2 & n3 & -> & _). apply ggml_n_dims_spec. }
  eapply reads_bind; [apply (reads_val_small 4); lia|].
  rewrite (proj2 (Z.ltb_ge _ _)), Nat2Z.id by (unfold GGML_MAX_DIMS; lia).
  eapply reads_bind; [by eapply reads_dims|].
  eapply reads_bind_nil; [by eapply reads_lift, elements_overflow_ok|]. cbn iota.
  eapply reads_bind; [apply reads_ggml_type|].
  replace ((_ <? 0) || _) with false by by destruct (ts_type s).
  replace ((GgmlType.blck_size (ts_type s) =? 0) || _) with false.
  2:{ destruct Hdims as (_ & _ & -> & _). by destruct (ts_type s). }
  rewrite row_bytes_fit by done.
  by apply (reads_last _ (λ o, infos ++ [mkInfo _ _ _ _ o])), (reads_val_small 8).
Qed.

(** ** Sizes and padding *)

(** [a & (a - 1) == 0] says [a] is a power of two. *)
Lemma power_of_two a : 0 < a → Z.land a (a - 1) = 0 → a = 2 ^ Z.log2 a.
Proof.
  intros Ha Hl. pose proof (Z.log2_spec a Ha) as [Hlo Hhi].
  destruct (decide (a = 2 ^ Z.log2 a)) as [|Hne]; [done|]. exfalso.
  assert (Hk : 0 ≤ Z.log2 a) by apply Z.log2_nonneg.
  assert (Hp : 0 < 2 ^ Z.log2 a) by (apply Z.pow_pos_nonneg; lia).
  assert (Hb : Z.testbit (Z.land a (a - 1)) (Z.log2 a) = true).
  { rewrite Z.land_spec, Z.bit_log2 by done.
    replace (Z.log2 a) with (Z.log2 (a - 1)) at 1.
    - rewrite Z.bit_log2 by lia. done.
    - apply Z.log2_unique; lia. }
  rewrite Hl, Z.testbit_0_l in Hb. done.
Qed.

Lemma ggml_pad_power x k :
  0 ≤ x → 0 ≤ k < 64 → x + 2 ^ k ≤ 2 ^ 64 → ggml_pad x (2 ^ k) = (x + 2 ^ k - 1) / 2 ^ k * 2 ^ k.
Proof.
  intros Hx Hk Hle. unfold ggml_pad.
  assert (Hp : 0 < 2 ^ k) by (apply Z.pow_pos_nonneg; lia).
  assert (Hp2 : 2 ^ k < 2 ^ 64) by (apply Z.pow_lt_mono_r; lia).
  rewrite (u64_small (2 ^ k - 1)), (u64_small (x + _ - 1)) by lia.
  replace (2 ^ k - 1) with (Z.ones k) by (rewrite Z.ones_equiv; lia).
  unfold u64. rewrite <-(Z.land_ones _ 64) by lia.
  rewrite (Z.land_comm (Z.lnot _)), Z.land_assoc, Z.land_ones by lia.
  rewrite Z.mod_small by lia.
  rewrite <-Z.ldiff_land, Z.ldiff_ones_r by lia.
  by rewrite Z.shiftl_mul_pow2, Z.shiftr_div_pow2 by lia.
Qed.

Definition good_alignment (a : Z) : Prop := 0 < a < 2 ^ 32 ∧ Z.land a (a - 1) = 0.

(** Padding rounds up to the next multiple. *)
Lemma ggml_pad_spec x a :
  good_alignment a → 0 ≤ x < FILE_MAX → x ≤ ggml_pad x a < x + a ∧ (a | ggml_pad x a).
Proof.
  intros [Ha Hl] Hx. unfold FILE_MAX in Hx. pose proof (power_of_two a ltac:(lia) Hl) as Hk.
  pose proof (Z.log2_nonneg a) as Hn. rewrite Hk. set (k := Z.log2 a) in *. rewrite Hk in Ha.
  assert (k < 32) by (apply (Z.pow_lt_mono_r_iff 2); lia).
  rewrite ggml_pad_power by lia. split.
  - pose proof (Z.div_mod (x + 2 ^ k - 1) (2 ^ k)) as Hd.
    pose proof (Z.mod_pos_bound (x + 2 ^ k - 1) (2 ^ k)). nia.
  - apply Z.divide_factor_r.
Qed.

Lemma mul_ge_1 x y : 1 ≤ x → 1 ≤ y → 1 ≤ x * y ∧ x ≤ x * y ∧ y ≤ x * y.
Proof. nia. Qed.

Lemma add_strides_cons w e ne b nb :
  add_strides w (e :: ne) (b :: nb) = add_strides (u64 (w + u64 (usize_of_i64 (i64 (e - 1)) * b))) ne nb.
Proof. done. Qed.

Lemma strides_sum w n1 n2 n3 :
  1 ≤ n1 < 2 ^ 63 → 1 ≤ n2 < 2 ^ 63 → 1 ≤ n3 < 2 ^ 63 → 1 ≤ w → w * n1 * n2 * n3 < 2 ^ 64 →
  add_strides w [n1; n2; n3]
    [w; u64 (w * usize_of_i64 n1); u64 (u64 (w * usize_of_i64 n1) * usize_of_i64 n2)]
  = w * n1 * n2 * n3.
Proof.
  intros H1 H2 H3 Hw Hm. unfold usize_of_i64. cbn [add_strides].
  destruct (mul_ge_1 w n1) as (? & ? & ?); [lia..|].
  destruct (mul_ge_1 (w * n1) n2) as (? & ? & ?); [lia..|].
  destruct (mul_ge_1 (w * n1 * n2) n3) as (? & ? & ?); [lia..|].
  rewrite !(i64_small (_ - 1)) by lia.
  rewrite !(u64_small n1), !(u64_small n2), !(u64_small (_ - 1)) by lia.
  rewrite !(u64_small (w * n1)), !(u64_small (w * n1 * n2)) by lia.
  assert ((n1 - 1) * w = w * n1 - w) as -> by lia.
  assert ((n2 - 1) * (w * n1) = w * n1 * n2 - w * n1) as -> by lia.
  assert ((n3 - 1) * (w * n1 * n2) = w * n1 * n2 * n3 - w * n1 * n2) as -> by lia.
  rewrite !(u64_small (_ - _)) by lia.
  rewrite (u64_small (w + _)) by lia. replace (w + (w * n1 - w)) with (w * n1) by lia.
  rewrite (u64_small (w * n1 + _)) by lia.
  rewrite u64_small by lia. lia.
Qed.

(** Extents, block and type size, reduced to what the sizes are made of. *)
Lemma rows_elim ne ty :
  dims_ok ne ty → ∃ n0 n1 n2 n3 q, ne = [n0; n1; n2; n3] ∧ n0 = GgmlType.blck_size ty * q
    ∧ 1 ≤ q ∧ 1 ≤ n0 ∧ 1 ≤ n1 ∧ 1 ≤ n2 ∧ 1 ≤ n3
    ∧ n0 * n1 < 2 ^ 56 ∧ n0 * n1 * n2 < 2 ^ 56 ∧ n0 * n1 * n2 * n3 < 2 ^ 56
    ∧ n0 * GgmlType.type_size ty < 2 ^ 56
    ∧ GgmlType.type_size ty * q * n1 * n2 * n3 < 2 ^ 56.
Proof.
  intros (n0 & n1 & n2 & n3 & -> & H)%dims_ok_elim. destruct_and! H.
  pose proof (type_size_pos ty) as Ht. pose proof (blck_size_pos ty) as Hb.
  exists n0, n1, n2, n3, (n0 / GgmlType.blck_size ty).
  set (q := n0 / GgmlType.blck_size ty) in *. set (T := GgmlType.type_size ty) in *.
  set (B := GgmlType.blck_size ty) in *.
  assert (1 ≤ q) by nia. assert (q ≤ n0) by nia.
  split_and!; try done; try lia.
Qed.

Lemma existsb_nonpos ne : Forall (λ e, 1 ≤ e) ne → existsb (λ e, e <=? 0) ne = false.
Proof.
  induction 1 as [|e ne He _ IH]; [done|]. cbn [existsb].
  by rewrite IH, (proj2 (Z.leb_gt e 0)) by lia.
Qed.

(** The size of a contiguous tensor by its strides is the size by its element
    count: a row of [q] blocks, [n1 * n2 * n3] rows. *)
Lemma contiguous_nbytes name ty off q n1 n2 n3 :
  let B := GgmlType.blck_size ty in
  let T := GgmlType.type_size ty in
  let ne := [B * q; n1; n2; n3] in
  1 ≤ q → 1 ≤ n1 < 2 ^ 63 → 1 ≤ n2 < 2 ^ 63 → 1 ≤ n3 < 2 ^ 63 →
  B * q * n1 * n2 * n3 < 2 ^ 63 → B * q * T < 2 ^ 64 → T * q * n1 * n2 * n3 < 2 ^ 64 →
  ggml_nbytes (mkInfo name ne (strides ne T B) ty off) = T * q * n1 * n2 * n3
  ∧ payload_size ne ty = T * q * n1 * n2 * n3.
Proof.
  intros B T ne Hq H1 H2 H3 HN Hrow HT.
  pose proof (type_size_pos ty : 1 ≤ T < 2 ^ 9) as HTp. pose proof (blck_size_pos ty : 1 ≤ B ≤ 256) as HBp.
  destruct (mul_ge_1 B q) as (? & ? & ?); [lia..|].
  destruct (mul_ge_1 (B * q) n1) as (? & ? & ?); [lia..|].
  destruct (mul_ge_1 (B * q * n1) n2) as (? & ? & ?); [lia..|].
  destruct (mul_ge_1 (B * q * n1 * n2) n3) as (? & ? & ?); [lia..|].
  destruct (mul_ge_1 T q) as (? & ? & ?); [lia..|].
  destruct (mul_ge_1 (T * q) n1) as (? & ? & ?); [lia..|].
  destruct (mul_ge_1 (T * q * n1) n2) as (? & ? & ?); [lia..|].
  destruct (mul_ge_1 (T * q * n1 * n2) n3) as (? & ? & ?); [lia..|].
  assert (Hquot : Z.quot (B * q) B = q) by (rewrite Z.mul_comm; apply Z.quot_mul; lia).
  split.
  - unfold ggml_nbytes, strides. cbn [ti_ne ti_nb ti_type]. fold T B.
    unfold ne at 1. rewrite existsb_nonpos by (repeat constructor; lia).
    unfold ne. change (nth_z [B * q; n1; n2; n3] 0) with (B * q).
    change (nth_z [B * q; n1; n2; n3] 1) with n1. change (nth_z [B * q; n1; n2; n3] 2) with n2.
    rewrite Hquot. assert (Hu : usize_of_i64 q = q) by (apply u64_small; lia).
    rewrite Hu, (u64_small (T * q)) by lia. rewrite <-strides_sum by lia.
    destruct (Z.eqb_spec B 1) as [HB|HB].
    + rewrite HB, Z.mul_1_l. rewrite add_strides_cons. f_equal. unfold usize_of_i64.
      rewrite (i64_small (q - 1)), (u64_small (q - 1)) by lia.
      replace ((q - 1) * T) with (T * q - T) by lia. rewrite !u64_small by (rewrite ?u64_small; lia). lia.
    + cbn [drop]. f_equal. unfold nth_z, usize_of_i64. cbn [lookup list_lookup from_option id].
      rewrite (u64_small (B * q)) by lia. cbn -[u64 Z.mul Z.div]. rewrite u64_small by lia.
      replace (B * q * T) with (T * q * B) by lia. apply Z.div_mul. lia.
  - unfold payload_size, product, ne. cbn [foldl]. fold B T.
    rewrite Z.mul_1_l, (i64_small (B * q)), (i64_small (B * q * n1)), (i64_small (B * q * n1 * n2)),
      (i64_small (B * q * n1 * n2 * n3)) by lia.
    replace (B * q * n1 * n2 * n3) with (q * n1 * n2 * n3 * B) by lia. rewrite Z.quot_mul by lia.
    unfold usize_of_i64. replace (T * q * n1 * n2 * n3) with (q * n1 * n2 * n3 * T) in * by lia.
    rewrite !u64_small by (rewrite ?u64_small; nia). done.
Qed.

(** No size of a tensor the writer describes wraps. *)
Lemma nbytes_exact s off :
  spec_ok s →
  ggml_nbytes (info_of s off) = spec_nbytes s
  ∧ spec_nbytes s = GgmlType.type_size (ts_type s)
      * (nth_z (ts_ne s) 0 / GgmlType.blck_size (ts_type s))
      * nth_z (ts_ne s) 1 * nth_z (ts_ne s) 2 * nth_z (ts_ne s) 3
  ∧ 1 ≤ spec_nbytes s < FILE_MAX.
Proof.
  intros (_ & _ & Hdims). destruct s as [name ne ty]; cbn [ts_ne ts_type] in *.
  assert (Hd := Hdims). apply dims_ok_elim in Hd as (m0 & m1 & m2 & m3 & Hne & Hd). destruct_and! Hd.
  destruct (rows_elim _ _ Hdims) as (n0 & n1 & n2 & n3 & q & -> & Hn0 & H'). destruct_and! H'.
  injection Hne as <- <- <- <-.
  pose proof (type_size_pos ty) as Ht. pose proof (blck_size_pos ty) as Hb.
  assert (Hdiv : n0 / GgmlType.blck_size ty = q) by (rewrite Hn0, Z.mul_comm; apply Z.div_mul; lia).
  subst n0. destruct (contiguous_nbytes name ty off q n1 n2 n3) as [Hg Hp]; [lia..|].
  change (nth_z [GgmlType.blck_size ty * q; n1; n2; n3] 0) with (GgmlType.blck_size ty * q).
  change (nth_z [GgmlType.blck_size ty * q; n1; n2; n3] 1) with n1.
  change (nth_z [GgmlType.blck_size ty * q; n1; n2; n3] 2) with n2.
  change (nth_z [GgmlType.blck_size ty * q; n1; n2; n3] 3) with n3.
  rewrite Hdiv. unfold info_of, spec_nbytes. cbn [ts_name ts_ne ts_type]. rewrite Hg, Hp.
  split_and!; [done|done| |unfold FILE_MAX; lia].
  destruct (mul_ge_1 (GgmlType.type_size ty) q) as (? & ? & ?); [lia..|].
  destruct (mul_ge_1 (GgmlType.type_size ty * q) n1) as (? & ? & ?); [lia..|].
  destruct (mul_ge_1 (GgmlType.type_size ty * q * n1) n2) as (? & ? & ?); [lia..|].
  destruct (mul_ge_1 (GgmlType.type_size ty * q * n1 * n2) n3) as (? & ? & ?); lia.
Qed.
