(* ===== verification/GgufFiles.v ===== *)
(** * Whole GGUF files: what the writer lays out and where

    The header and the padded payloads of a written file, the offsets its
    index records, and the parse of such a file up to its data section. *)
From Stdlib Require Import ZArith String Strings.Byte.
From coqutil Require Import Byte Word.LittleEndianList.
From stdpp Require Import base numbers list gmap option.
From S2P Require Import Prelude Gguf GgufWrite GgufRound GgufLoad.
Local Open Scope Z_scope.

(** ** Payload callbacks *)

(** The bytes a callback gets written when it is allowed [nb] of them. *)
Definition provided (p : provider) (nb : Z) : bytes := sg_out (run_provider p (mkStaging [] nb 0)).2.

(** A callback behaves the same whatever was written before it: [extend out]
    puts earlier output in front. *)
Definition extend (out : bytes) (s : TensorStaging) : TensorStaging :=
  mkStaging (out ++ sg_out s) (sg_remaining s) (sg_overflow s).

Lemma staging_write_all_extend out buf s :
  staging_write_all buf (extend out s)
  = ((staging_write_all buf s).1, extend out (staging_write_all buf s).2).
Proof.
  unfold staging_write_all, extend. destruct (decide (buf = [])); [done|]. cbn.
  destruct (_ <? _); cbn; by rewrite app_assoc.
Qed.

Lemma run_provider_extend out p s :
  run_provider p (extend out s) = ((run_provider p s).1, extend out (run_provider p s).2).
Proof.
  revert s. induction p as [ok|buf k IH]; intros s; cbn [run_provider]; [done|].
  rewrite staging_write_all_extend. destruct (staging_write_all buf s) as [ok s']. cbn. apply IH.
Qed.

(** Never more than was allowed, and the budget counts what was written. *)
Lemma staging_write_all_len buf s :
  0 ≤ sg_remaining s →
  let s' := (staging_write_all buf s).2 in
  0 ≤ sg_remaining s' ∧ zlen (sg_out s') + sg_remaining s' = zlen (sg_out s) + sg_remaining s.
Proof.
  intros Hr. unfold staging_write_all. destruct (decide (buf = [])); [done|].
  destruct (_ <? _); cbn; rewrite length_app, length_take; lia.
Qed.

Lemma run_provider_len p s :
  0 ≤ sg_remaining s →
  let s' := (run_provider p s).2 in
  0 ≤ sg_remaining s' ∧ zlen (sg_out s') + sg_remaining s' = zlen (sg_out s) + sg_remaining s.
Proof.
  revert s. induction p as [ok|buf k IH]; intros s Hr; cbn [run_provider]; [done|].
  pose proof (staging_write_all_len buf s Hr) as H. destruct (staging_write_all buf s) as [ok s1].
  cbn in H. destruct H as [H1 H2]. destruct (IH ok s1 H1) as [H3 H4]. split; [done|lia].
Qed.

(** A callback that succeeds with exactly its tensor's bytes. *)
Definition exact (p : provider) (nb : Z) : Prop :=
  run_provider p (mkStaging [] nb 0) = (true, mkStaging (provided p nb) 0 0).

Lemma exact_len p nb : 0 ≤ nb → exact p nb → zlen (provided p nb) = nb.
Proof.
  intros Hn He. pose proof (run_provider_len p (mkStaging [] nb 0) Hn) as H.
  rewrite He in H. cbn in H. lia.
Qed.

(** What a callback delivers when every write of it is taken, by its own text:
    [None] when it reports failure or hands over more or less than [nb]. *)
Fixpoint payload (p : provider) (nb : Z) : option bytes :=
  match p with
  | PDone ok => if ok && (nb =? 0) then Some [] else None
  | PWrite buf k => if zlen buf <=? nb then app buf <$> payload (k true) (nb - zlen buf) else None
  end.

(** The bytes a callback hands over in all, taken or not, when [left] are. *)
Fixpoint offered (p : provider) (left : Z) : Z :=
  match p with
  | PDone _ => 0
  | PWrite buf k => zlen buf + offered (k (zlen buf <=? left)) (left - zlen buf `min` left)
  end.

Lemma offered_nonneg p left : 0 ≤ offered p left.
Proof.
  revert left. induction p as [ok|buf k IH]; intros left; cbn [offered]; [lia|].
  pose proof (IH (zlen buf <=? left) (left - zlen buf `min` left)). lia.
Qed.

Lemma staging_write_all_cases buf out rem ov :
  0 ≤ rem → 0 ≤ ov → ov + zlen buf < 2 ^ 64 →
  staging_write_all buf (mkStaging out rem ov)
  = if zlen buf <=? rem then (true, mkStaging (out ++ buf) (rem - zlen buf) ov)
    else (false, mkStaging (out ++ take (Z.to_nat rem) buf) 0 (ov + (zlen buf - rem))).
Proof.
  intros Hr Ho Hsz. unfold staging_write_all. destruct (decide (buf = [])) as [->|_].
  { change (zlen []) with 0. rewrite app_nil_r, (proj2 (Z.leb_le 0 rem)), Z.sub_0_r by lia. done. }
  cbn [sg_out sg_remaining sg_overflow].
  destruct (Z.leb_spec (zlen buf) rem).
  - rewrite Z.min_l, (proj2 (Z.ltb_ge _ _)) by lia. by rewrite take_ge by lia.
  - rewrite Z.min_r, (proj2 (Z.ltb_lt _ _)), u64_small by lia. by rewrite Z.sub_diag.
Qed.

(** What the bounded view of a tensor's payload ends as. *)
Lemma run_provider_payload p out rem ov :
  0 ≤ rem → 0 ≤ ov → ov + offered p rem < 2 ^ 64 →
  let '(ok, s) := run_provider p (mkStaging out rem ov) in
  match (if ov =? 0 then payload p rem else None) with
  | Some b => ok = true ∧ s = mkStaging (out ++ b) 0 0
  | None => ¬ (ok = true ∧ sg_remaining s = 0 ∧ sg_overflow s = 0)
  end.
Proof.
  revert out rem ov. induction p as [ok|buf k IH]; intros out rem ov Hr Ho Hsz; cbn [run_provider payload].
  - destruct (Z.eqb_spec ov 0) as [->|], ok, (Z.eqb_spec rem 0) as [->|]; cbn; rewrite ?app_nil_r; naive_solver.
  - cbn [offered] in Hsz. pose proof (offered_nonneg (k (zlen buf <=? rem)) (rem - zlen buf `min` rem)).
    rewrite staging_write_all_cases by lia. destruct (Z.leb_spec (zlen buf) rem) as [Hle|Hgt].
    + rewrite Z.min_l in Hsz by lia. specialize (IH true (out ++ buf) (rem - zlen buf) ov).
      destruct (run_provider _ _) as [ok s]. destruct (ov =? 0); [|by apply IH; lia].
      destruct (payload (k true) _) as [b|]; cbn in *; [rewrite app_assoc|]; by apply IH; lia.
    + rewrite Z.min_r in Hsz by lia. rewrite Z.sub_diag in Hsz.
      specialize (IH false (out ++ take (Z.to_nat rem) buf) 0 (ov + (zlen buf - rem))).
      destruct (run_provider _ _) as [ok s]. rewrite (proj2 (Z.eqb_neq (ov + _) 0)) in IH by lia.
      destruct (ov =? 0); apply IH; lia.
Qed.

Lemma exact_payload p nb :
  0 ≤ nb → offered p nb < 2 ^ 64 → exact p nb ↔ payload p nb = Some (provided p nb).
Proof.
  intros Hn Hsz. pose proof (run_provider_payload p [] nb 0 Hn ltac:(lia) Hsz) as H.
  unfold exact, provided. destruct (run_provider p _) as [ok s]. cbn in *.
  destruct (payload p nb) as [b|].
  - destruct H as [-> ->]. done.
  - split; [|done]. intros [= -> Hs]. destruct H. by rewrite Hs.
Qed.

(** ** The data section *)

Definition block (alignment : Z) (data : nat → provider) (p : nat * TensorSpec) : bytes :=
  provided (data p.1) (spec_nbytes p.2)
  ++ zeros (u64 (ggml_pad (spec_nbytes p.2) alignment - spec_nbytes p.2)).

Lemma write_tensor_data_iff data i s w w' :
  write_tensor_data data i s w = (Ok (), w') ↔
  exact (data i) (spec_nbytes s)
  ∧ w' = mkWriter (gw_out w ++ block (gw_alignment w) data (i, s)) (gw_specs w) (gw_alignment w)
           (S (gw_next w)).
Proof.
  unfold write_tensor_data, block, exact. cbn [fst snd].
  assert (Hst : mkStaging (gw_out w) (spec_nbytes s) 0 = extend (gw_out w) (mkStaging [] (spec_nbytes s) 0))
    by (unfold extend; cbn; by rewrite app_nil_r).
  rewrite Hst, run_provider_extend. unfold provided.
  destruct (run_provider (data i) _) as [ok [out rem ov]]. cbn.
  destruct ok; cbn; [|split; [done|by intros [? _]]].
  destruct (Z.eqb_spec rem 0) as [->|]; cbn; [|split; [done|by intros [? _]; simplify_eq]].
  destruct (Z.eqb_spec ov 0) as [->|]; cbn; [|split; [done|by intros [? _]; simplify_eq]].
  rewrite <-app_assoc. split; [by intros [= <-]|by intros [_ ->]].
Qed.

Lemma write_tensors_iff data ids w w' :
  write_tensors data ids w = (Ok (), w') ↔
  Forall (λ p, exact (data p.1) (spec_nbytes p.2)) ids
  ∧ w' = mkWriter (gw_out w ++ concat (map (block (gw_alignment w) data) ids)) (gw_specs w)
           (gw_alignment w) (gw_next w + length ids).
Proof.
  unfold write_tensors. revert w. induction ids as [|[i s] ids IH]; intros w; cbn [for_each].
  - cbn. rewrite app_nil_r, Nat.add_0_r. destruct w. split; [intros [= <-]; by split|by intros [_ ->]].
  - rewrite list.Forall_cons. cbn [fst snd].
    pose proof (write_tensor_data_iff data i s w) as Hi.
    destruct (write_tensor_data data i s w) as [r w1].
    set (w2 := mkWriter (gw_out w ++ block (gw_alignment w) data (i, s)) (gw_specs w) (gw_alignment w)
           (S (gw_next w))) in Hi.
    assert (Hr : (r = Ok () ∧ exact (data i) (spec_nbytes s) ∧ w1 = w2)
      ∨ (r ≠ Ok () ∧ ¬ exact (data i) (spec_nbytes s))).
    { destruct r as [[]|e|].
      - left. split; [done|]. by apply Hi.
      - right. split; [done|]. intros He. discriminate (proj2 (Hi w2) (conj He eq_refl)).
      - right. split; [done|]. intros He. discriminate (proj2 (Hi w2) (conj He eq_refl)). }
    destruct Hr as [(-> & He & ->)|[Hr He]].
    + rewrite IH. unfold w2. cbn [gw_out gw_alignment gw_specs gw_next map concat length].
      rewrite <-app_assoc, Nat.add_succ_r. naive_solver.
    + split; [by destruct r as [[]| |]|naive_solver].
Qed.

Lemma write_tensors_ok data ids w w' :
  Forall (λ p, 0 ≤ spec_nbytes p.2) ids →
  write_tensors data ids w = (Ok (), w') →
  Forall (λ p, zlen (provided (data p.1) (spec_nbytes p.2)) = spec_nbytes p.2) ids
  ∧ w' = mkWriter (gw_out w ++ concat (map (block (gw_alignment w) data) ids)) (gw_specs w)
           (gw_alignment w) (gw_next w + length ids).
Proof.
  intros Hnb (He & ->)%write_tensors_iff. split; [|done].
  induction He as [|p ids Hp _ IH]; [done|]. apply list.Forall_cons in Hnb as [Hn Hnb].
  constructor; [by apply exact_len|auto].
Qed.

Lemma zlen_zeros n : zlen (zeros n) = 0 `max` n.
Proof. unfold zeros. rewrite length_replicate. lia. Qed.

Definition padded (alignment : Z) (s : TensorSpec) : Z := ggml_pad (spec_nbytes s) alignment.

Definition spec_sized (s : TensorSpec) : Prop := 1 ≤ spec_nbytes s < FILE_MAX.

Lemma spec_ok_sized specs : Forall spec_ok specs → Forall spec_sized specs.
Proof. apply Forall_impl. intros s Hs. by apply (nbytes_exact s 0). Qed.

Lemma padded_bound a s : good_alignment a → spec_sized s → spec_nbytes s ≤ padded a s < 2 ^ 57.
Proof.
  intros Ha [Hlo Hhi]. destruct (ggml_pad_spec (spec_nbytes s) a Ha) as [Hp _]; [lia|].
  destruct Ha as [Ha _]. unfold padded, FILE_MAX in *. lia.
Qed.

Lemma zlen_block a data i s :
  good_alignment a → spec_sized s → zlen (provided (data i) (spec_nbytes s)) = spec_nbytes s →
  zlen (block a data (i, s)) = padded a s.
Proof.
  intros Ha Hs Hp. pose proof (padded_bound a s Ha Hs) as Hb. destruct Hs as [Hlo Hhi].
  unfold block. cbn [fst snd]. rewrite zlen_app, zlen_zeros, Hp. fold (padded a s).
  rewrite u64_small by lia. lia.
Qed.

(** Every tensor's block starts where the index says. *)
Lemma offsets_blocks a data ids c R :
  good_alignment a → Forall (λ p, spec_sized p.2) ids →
  Forall (λ p, zlen (provided (data p.1) (spec_nbytes p.2)) = spec_nbytes p.2) ids →
  0 ≤ c → (a | c) → c + zlen (concat (map (block a data) ids)) < FILE_MAX →
  ∀ k i s, ids !! k = Some (i, s) → ∃ off,
    offsets c (map snd ids) a !! k = Some off ∧ (a | off) ∧ c ≤ off
    ∧ off + spec_nbytes s ≤ c + zlen (concat (map (block a data) ids))
    ∧ take (Z.to_nat (spec_nbytes s)) (drop (Z.to_nat (off - c)) (concat (map (block a data) ids) ++ R))
      = provided (data i) (spec_nbytes s).
Proof.
  intros Ha Hs Hp. revert c. induction ids as [|[j t] ids IH]; intros c Hc Hdiv Hmax k i s Hk; [done|].
  apply list.Forall_cons in Hs as [Ht Hs]. apply list.Forall_cons in Hp as [Hpt Hp].
  cbn [fst snd] in Ht, Hpt. cbn [map concat] in *. rewrite zlen_app in Hmax.
  rewrite zlen_block in Hmax by done. pose proof (padded_bound a t Ha Ht) as Hb.
  destruct (ggml_pad_spec (spec_nbytes t) a Ha) as [_ Hpd]; [destruct Ht; lia|].
  destruct k as [|k]; cbn [lookup list_lookup] in Hk.
  - injection Hk as -> ->. exists c. cbn [offsets snd lookup list_lookup].
    rewrite zlen_app, zlen_block by done. split_and!; [done..|lia|lia|].
    rewrite Z.sub_diag. cbn [Z.to_nat drop]. rewrite drop_0. unfold block. cbn [fst snd].
    rewrite <-!app_assoc. rewrite <-Hpt at 1. rewrite Nat2Z.id. apply take_app_length.
  - destruct (IH Hs Hp (c + padded a t)) with (k := k) (i := i) (s := s)
      as (off & Hoff & Hd & Hge & Hle & Htake); [lia| |lia|done|].
    { by apply Z.divide_add_r. }
    exists off. cbn [offsets snd]. fold (padded a t). unfold FILE_MAX in Hmax.
    rewrite u64_small by lia. rewrite zlen_app, zlen_block by done.
    split_and!; [done|done|lia|lia|].
    replace (Z.to_nat (off - c)) with (length (block a data (j, t)) + Z.to_nat (off - (c + padded a t)))%nat.
    + by rewrite <-app_assoc, <-drop_drop, drop_app_length.
    + pose proof (zlen_block a data j t Ha Ht Hpt). lia.
Qed.

(** ** Accepted specifications *)

Lemma check_dims_ok name ne js : check_dims name ne js = Ok () ↔ Forall (λ j, 1 ≤ nth_z ne j) js.
Proof.
  induction js as [|j js IH]; cbn; [done|]. rewrite list.Forall_cons, <-IH.
  destruct (Z.ltb_spec (nth_z ne j) 1); [|naive_solver]. split; [done|]. lia.
Qed.

Lemma validate_loop_names prev specs :
  validate_loop prev specs = Ok () →
  NoDup (map ts_name specs) ∧ ∀ x y, x ∈ prev → y ∈ specs → ts_name x ≠ ts_name y.
Proof.
  revert prev. induction specs as [|s specs IH]; intros prev; cbn [validate_loop map].
  { intros _. split; [constructor|]. intros x y _ Hy. by apply not_elem_of_nil in Hy. }
  intros ([] & Hs & H)%res_bind_ok. apply IH in H as [Hnd Hne].
  unfold validate_spec in Hs. case_match; [done|]. case_match; [done|].
  apply res_bind_ok in Hs as (_ & _ & Hs).
  destruct (existsb _ prev) eqn:He; [done|]. split.
  - constructor; [|done]. intros Hin. apply list_elem_of_fmap in Hin as (y & Hy & Hin).
    apply (Hne s y); [set_solver|done|done].
  - intros x y Hx [->|Hy]%elem_of_cons; [|apply Hne; set_solver].
    intros Heq. assert (existsb (λ p, bool_decide (ts_name p = ts_name s)) prev = true) as Hc.
    { apply existsb_exists. exists x. split; [by apply list_elem_of_In|by apply bool_decide_eq_true]. }
    by rewrite Hc in He.
Qed.

(** ** Parsing a written header *)

Lemma reads_magic : reads read_magic GGUF_MAGIC ().
Proof.
  assert (H : reads (read_vec 1 4) GGUF_MAGIC (map uz GGUF_MAGIC)).
  { apply (reads_vec 1 (map uz GGUF_MAGIC)); [lia|done|].
    intros v Hv. apply (Forall_elem (λ v, 0 ≤ v < 2 ^ 8) (map uz GGUF_MAGIC)); [|done].
    by apply (bool_decide_unpack _). }
  rewrite <-(app_nil_r GGUF_MAGIC). eapply reads_bind; [exact H|].
  rewrite decide_True by done. apply reads_ret.
Qed.

Lemma reads_count size_of mk n :
  0 ≤ n < FILE_MAX → (80 ≤ size_of ≤ 104) → reads (read_count size_of mk) (u64_bytes n) n.
Proof.
  intros Hn Hs. unfold FILE_MAX in Hn. unfold read_count. rewrite <-(app_nil_r (u64_bytes n)).
  eapply reads_bind; [apply (reads_val_signed 8); [lia|simpl; lia]|].
  rewrite (proj2 (Z.ltb_ge n 0)) by lia.
  assert (Hd : n < USIZE_MAX / size_of).
  { apply Z.lt_le_trans with (2 ^ 56); [lia|]. apply Z.div_le_lower_bound; unfold USIZE_MAX; lia. }
  assert (Hu : USIZE_MAX / size_of < 2 ^ 63).
  { apply Z.div_lt_upper_bound; unfold USIZE_MAX; lia. }
  rewrite i64_small by lia. rewrite (proj2 (Z.ltb_ge _ n)) by lia. apply reads_ret.
Qed.

Lemma reads_header nt nkv :
  0 ≤ nt < FILE_MAX → 0 ≤ nkv < FILE_MAX →
  reads read_header (u32_bytes GGUF_VERSION ++ u64_bytes nt ++ u64_bytes nkv) (GGUF_VERSION, nt, nkv).
Proof.
  intros Ht Hk. apply reads_or_note.
  eapply reads_bind.
  { unfold read_version. rewrite <-(app_nil_r (u32_bytes _)).
    eapply reads_bind; [by apply (reads_val_small 4 GGUF_VERSION)|]. apply reads_ret. }
  eapply reads_bind; [by apply reads_count|].
  by apply (reads_last _ (λ n, (GGUF_VERSION, nt, n))), reads_count.
Qed.

(** The alignment the parser works with is the one the file was laid out for. *)
Definition aligned_as (kvs : list GgufKv) (alignment : Z) : Prop :=
  (List.find (λ p, bool_decide (kv_key p = GGUF_KEY_GENERAL_ALIGNMENT)) kvs
     = Some (new_u32 GGUF_KEY_GENERAL_ALIGNMENT alignment))
  ∨ ((GGUF_KEY_GENERAL_ALIGNMENT ∉ map kv_key kvs) ∧ alignment = GGUF_DEFAULT_ALIGNMENT).

#[export] Instance aligned_as_dec kvs a : Decision (aligned_as kvs a).
Proof. unfold aligned_as. apply _. Defined.

Lemma find_key_from_miss i kvs key : key ∉ map kv_key kvs → find_key_from i kvs key = -1.
Proof.
  revert i. induction kvs as [|kv kvs IH]; intros i H; cbn in *; [done|].
  rewrite decide_False by set_solver. apply IH. set_solver.
Qed.

Lemma find_key_from_hit i kvs key kv :
  List.find (λ p, bool_decide (kv_key p = key)) kvs = Some kv →
  ∃ j, find_key_from i kvs key = i + Z.of_nat j ∧ kvs !! j = Some kv.
Proof.
  revert i. induction kvs as [|p kvs IH]; intros i H; cbn [List.find find_key_from] in *; [done|].
  case_bool_decide as Hk.
  - exists 0%nat. injection H as <-. rewrite decide_True by done. split; [lia|done].
  - rewrite decide_False by done. destruct (IH (i + 1) H) as (j & -> & Hj).
    exists (S j). split; [lia|done].
Qed.

Lemma get_ne_u32 key v : get_ne (new_u32 key v) = Some 1%nat.
Proof. done. Qed.

Lemma get_val_new_u32 key v : get_val_u32 (new_u32 key v) 0 = Some (v mod 2 ^ 32).
Proof.
  unfold get_val_u32, get_val_num. cbn [new_u32 new_num kv_type kv_data].
  rewrite decide_True by done. rewrite length_le_split.
  change (0 * _)%nat with 0%nat. rewrite drop_0, take_ge by by rewrite length_le_split.
  rewrite le_combine_split. done.
Qed.

Lemma reads_alignment kvs a :
  aligned_as kvs a → good_alignment a → reads (read_alignment kvs) [] a.
Proof.
  intros Hal [Ha Hl]. unfold read_alignment, find_key. cbn [cx_kv].
  assert (Hg : ((a =? 0) || negb (Z.land a (a - 1) =? 0)) = false).
  { rewrite Hl, (proj2 (Z.eqb_neq a 0)) by lia. done. }
  eapply reads_bind_nil with (v := a); [|rewrite Hg; apply reads_ret].
  destruct Hal as [Hf|[Hmiss ->]].
  - destruct (find_key_from_hit 0 kvs _ _ Hf) as (j & -> & Hj).
    rewrite (proj2 (Z.eqb_neq _ _)) by lia. apply reads_lift.
    unfold ctx_get_val_u32, get_n_kv. cbn [cx_kv].
    apply lookup_lt_Some in Hj as Hlt.
    rewrite (proj2 (Z.leb_le _ _)), (proj2 (Z.ltb_lt _ _)) by lia. cbn [andb].
    rewrite Z.add_0_l, Nat2Z.id, Hj. cbn [mbind option_bind].
    rewrite get_ne_u32. cbn [mbind option_bind Nat.eqb].
    rewrite get_val_new_u32, Z.mod_small by lia. done.
  - rewrite find_key_from_miss by done. apply reads_ret.
Qed.

(** The descriptions the parser builds, in order. *)
Fixpoint infos_of (specs : list TensorSpec) (offs : list Z) : list GgufTensorInfo :=
  match specs, offs with
  | s :: specs, off :: offs => info_of s off :: infos_of specs offs
  | _, _ => []
  end.

Lemma length_offsets c specs a : length (offsets c specs a) = length specs.
Proof. revert c. induction specs as [|s specs IH]; intros c; cbn; [done|]. by rewrite IH. Qed.

Lemma offsets_range c specs a : 0 ≤ c < 2 ^ 64 → Forall (λ o, 0 ≤ o < 2 ^ 64) (offsets c specs a).
Proof.
  revert c. induction specs as [|s specs IH]; intros c Hc; cbn; constructor; [done|].
  apply IH. unfold u64. apply Z.mod_pos_bound. lia.
Qed.

Lemma infos_of_names specs offs :
  length offs = length specs → map ti_name (infos_of specs offs) = map ts_name specs.
Proof.
  revert offs. induction specs as [|s specs IH]; intros [|o offs] H; try done.
  cbn. f_equal. apply IH. by injection H.
Qed.

Lemma infos_of_lookup specs offs k s off :
  specs !! k = Some s → offs !! k = Some off → infos_of specs offs !! k = Some (info_of s off).
Proof.
  revert offs k. induction specs as [|t specs IH]; intros [|o offs] [|k] Hs Ho; try done.
  - cbn in *. by simplify_eq.
  - by apply IH.
Qed.

Lemma length_infos_of specs offs : length offs = length specs → length (infos_of specs offs) = length specs.
Proof. revert offs. induction specs as [|s specs IH]; intros [|o offs] H; cbn in *; try lia. rewrite IH; lia. Qed.

Definition spec_bytes (p : TensorSpec * Z) : bytes := encode_spec p.1 p.2.

Lemma encode_specs_zip specs offs : encode_specs specs offs = concat (map spec_bytes (zip specs offs)).
Proof. revert offs. induction specs as [|s specs IH]; intros [|o offs]; cbn; try done. by rewrite IH. Qed.

Lemma infos_of_zip specs offs : infos_of specs offs = map (λ p, info_of p.1 p.2) (zip specs offs).
Proof. revert offs. induction specs as [|s specs IH]; intros [|o offs]; cbn; try done. by rewrite IH. Qed.

Lemma foldl_app_map {X Y} (g : X → Y) l acc : foldl (λ dst x, dst ++ [g x]) acc l = acc ++ map g l.
Proof.
  revert acc. induction l as [|x l IH]; intros acc; simpl; [by rewrite app_nil_r|].
  by rewrite IH, <-app_assoc.
Qed.

Lemma reads_infos specs offs :
  Forall spec_ok specs → NoDup (map ts_name specs) → Forall (λ o, 0 ≤ o < 2 ^ 64) offs →
  length offs = length specs →
  reads (read_infos (zlen specs)) (encode_specs specs offs) (infos_of specs offs).
Proof.
  intros Hok Hnd Ho Hl. apply reads_or_note. rewrite encode_specs_zip, infos_of_zip.
  pose proof (foldl_app_map (λ p, info_of p.1 p.2) (zip specs offs) []) as Hf. cbn [app] in Hf.
  rewrite <-Hf. replace (zlen specs) with (zlen (zip specs offs)) by (rewrite length_zip_with; lia).
  apply reads_for. intros d [s o] t Hz. rewrite foldl_app_map. cbn [app fst snd spec_bytes].
  assert (Hs : specs = map fst d ++ s :: map fst t).
  { rewrite <-(fst_zip specs offs) by lia. by rewrite Hz, fmap_app. }
  assert (Hoffs : offs = map snd d ++ o :: map snd t).
  { rewrite <-(snd_zip specs offs) by lia. by rewrite Hz, fmap_app. }
  rewrite Hs in Hok, Hnd. rewrite Hoffs in Ho.
  apply Forall_app in Hok as [_ Hok]. apply Forall_app in Ho as [_ Ho].
  apply reads_tensor_info; [by inversion Hok| |by inversion Ho].
  rewrite map_app in Hnd. apply list.NoDup_app in Hnd as (_ & Hd & _).
  rewrite !map_map. cbn [ti_name info_of]. intros Hin. rewrite map_map in Hd.
  apply (Hd (ts_name s)); [done|by left].
Qed.

Lemma zlen_concat_map {X} (enc : X → bytes) l :
  (∀ x, x ∈ l → 1 ≤ zlen (enc x)) → zlen l ≤ zlen (concat (map enc l)).
Proof.
  induction l as [|x l IH]; intros H; [done|]. cbn [map concat length]. rewrite zlen_app.
  pose proof (H x ltac:(by left)). pose proof (IH ltac:(set_solver)). lia.
Qed.

Lemma zlen_encode_spec s o : 1 ≤ zlen (encode_spec s o).
Proof. unfold encode_spec, write_string. rewrite !zlen_app. unfold u64_bytes at 1. rewrite length_le_split. lia. Qed.

Lemma zlen_kv_bytes kv : kv_ok kv → 1 ≤ zlen (kv_bytes kv).
Proof.
  intros (n & _ & H)%encode_kv_ok. unfold kv_bytes. rewrite H. cbn [from_option id].
  unfold write_string. rewrite !zlen_app. unfold u64_bytes at 1. rewrite length_le_split. lia.
Qed.

(** ** The parse of a written file *)

(** [init_from_reader] up to the data section, and from there. *)
Definition read_tables : parser (Z * Z * list GgufKv * Z * list GgufTensorInfo) :=
  _ ← read_magic;
  '(version, n_tensors, n_kv) ← read_header;
  kvs ← read_kvs n_kv;
  _ ← (if Z.of_nat (length kvs) =? n_kv then mret () else panic);
  alignment ← read_alignment kvs;
  infos ← read_infos n_tensors;
  _ ← (if Z.of_nat (length infos) =? n_tensors then mret () else panic);
  mret (n_tensors, version, kvs, alignment, infos).

Definition place_data (t : Z * Z * list GgufKv * Z * list GgufTensorInfo) : parser GgufContext :=
  let '(n_tensors, version, kvs, alignment, infos) := t in
  _ ← seek_data n_tensors alignment;
  offset ← tell;
  s ← get_state;
  match data_section_size infos (0 `max` (Z.of_nat (length (gr_data s)) - offset)) with
  | Ok size => mret (mkCtx version kvs infos alignment offset size)
  | Err n => refuse n
  | Panic => panic
  end.

Lemma init_from_reader_split s : init_from_reader s = (read_tables ≫= place_data) s.
Proof.
  unfold init_from_reader, read_tables, place_data, mbind, parser_bind.
  repeat match goal with
  | |- context [match ?m with (_, _) => _ end] =>
      lazymatch m with
      | context [match _ with _ => _ end] => fail
      | _ => destruct m as [[]?]; try done
      end
  | |- context [if ?x =? ?y then _ else _] => destruct (x =? y); unfold mret, parser_ret, panic; try done
  end.
Qed.

Section written.
Context (kvs : list GgufKv) (specs : list TensorSpec) (a : Z).
Context (Hkvs : kvs_ok kvs) (Hspecs : Forall spec_ok specs) (Hnames : NoDup (map ts_name specs)).
Context (Ha : good_alignment a) (Hal : aligned_as kvs a).

Definition table_bytes : bytes := concat (map kv_bytes kvs).
Definition header : bytes := header_bytes table_bytes (length kvs) specs a.

Lemma header_counts : zlen header < FILE_MAX → zlen specs < FILE_MAX ∧ zlen kvs < FILE_MAX.
Proof using Hkvs.
  unfold header, header_bytes, table_bytes. rewrite !zlen_app, encode_specs_zip. intros H.
  assert (Hk : zlen kvs ≤ zlen (concat (map kv_bytes kvs))).
  { apply zlen_concat_map. intros kv Hkv. apply zlen_kv_bytes. destruct Hkvs as [Hf _].
    by eapply Forall_elem. }
  assert (Hs : zlen specs ≤ zlen (concat (map spec_bytes (zip specs (offsets 0 specs a))))).
  { transitivity (zlen (zip specs (offsets 0 specs a))).
    - rewrite length_zip_with, length_offsets. lia.
    - apply zlen_concat_map. intros [s o] _. apply zlen_encode_spec. }
  lia.
Qed.

Lemma data_section_fits limit infos size :
  Forall (λ ti, 0 ≤ ti_offset ti + ggml_nbytes ti ≤ limit) infos → limit < FILE_MAX → 0 ≤ size ≤ limit →
  ∃ size', data_section_loop limit size infos = Ok size' ∧ size ≤ size' ≤ limit.
Proof using.
  intros Hf Hl. revert size. induction Hf as [|ti infos Hti _ IH]; intros size Hs; cbn [data_section_loop].
  { exists size. split; [done|lia]. }
  unfold FILE_MAX, USIZE_MAX in *.
  rewrite (proj2 (Z.ltb_ge (2 ^ 64 - 1) _)), (proj2 (Z.ltb_ge limit _)) by lia.
  destruct (IH (size `max` (ti_offset ti + ggml_nbytes ti))) as (s' & Hs' & Hb); [lia|].
  exists s'. split; [done|lia].
Qed.

Definition data_start : Z := if decide (specs = []) then zlen header else ggml_pad (zlen header) a.

Lemma reads_tables :
  zlen header < FILE_MAX →
  reads read_tables header (zlen specs, GGUF_VERSION, kvs, a, infos_of specs (offsets 0 specs a)).
Proof using All.
  intros Hlen. destruct (header_counts Hlen) as [Hns Hnk]. unfold read_tables, header, header_bytes.
  eapply reads_bind; [apply reads_magic|].
  rewrite !app_assoc, <-(app_assoc _ (u64_bytes _) (u64_bytes _)), <-!(app_assoc _ table_bytes).
  eapply reads_bind; [apply reads_header; lia|].
  eapply reads_bind; [by apply reads_kvs|].
  eapply reads_bind_nil; [rewrite Z.eqb_refl; apply reads_ret|].
  eapply reads_bind_nil; [by apply reads_alignment|].
  rewrite <-(app_nil_r (encode_specs _ _)).
  eapply reads_bind; [apply reads_infos; [done..| |apply length_offsets]|].
  { by apply offsets_range. }
  eapply reads_bind_nil; [|apply reads_ret].
  rewrite length_infos_of, Z.eqb_refl by apply length_offsets. apply reads_ret.
Qed.

Lemma parse_header nt rest size :
  zlen (header ++ rest) < FILE_MAX → data_start ≤ zlen (header ++ rest) →
  data_section_size (infos_of specs (offsets 0 specs a)) (zlen (header ++ rest) - data_start) = Ok size →
  init_from_reader (mkReader (header ++ rest) 0 (zlen (header ++ rest)) nt)
  = (Ok (mkCtx GGUF_VERSION kvs (infos_of specs (offsets 0 specs a)) a data_start size),
     mkReader (header ++ rest) data_start (zlen (header ++ rest) - data_start) nt).
Proof using All.
  intros Hlen Hstart Hsize.
  rewrite init_from_reader_split.
  change (mkReader (header ++ rest) 0 (zlen (header ++ rest)) nt) with (reader_at [] (header ++ rest) nt).
  unfold mbind at 1, parser_bind at 1. rewrite reads_tables; [|by rewrite zlen_app in Hlen; lia|done]. cbn [app].
  unfold place_data, seek_data, tell, seek, mbind, parser_bind, get_state, mret, parser_ret, reader_at.
  assert (Hmax : zlen (header ++ rest) - data_start = 0 `max` (zlen (header ++ rest) - data_start)) by lia.
  rewrite Hmax in Hsize. unfold data_start in *. destruct (decide (specs = [])) as [He|Hne].
  - rewrite (proj2 (Z.ltb_ge 0 _)) by (rewrite He; done). cbn [gr_data gr_offset gr_note].
    rewrite Hsize. do 2 f_equal. rewrite zlen_app. lia.
  - rewrite (proj2 (Z.ltb_lt 0 _)) by (destruct specs; cbn; lia || done). cbn [gr_data gr_offset gr_note].
    rewrite (proj2 (Z.ltb_ge _ _)) by done. cbn [gr_data gr_offset gr_note]. by rewrite Hsize.
Qed.

(** The bytes of the data section. *)
Definition data_len (ss : list TensorSpec) : Z := foldr (λ s n, padded a s + n) 0 ss.

(** The file is a small enough fraction of the address space. *)
Definition fits : Prop := zlen header + a + data_len specs < FILE_MAX.

Lemma data_len_nonneg ss : Forall spec_sized ss → 0 ≤ data_len ss.
Proof using Ha.
  induction 1 as [|s ss Hs _ IH]; [done|]. cbn [data_len foldr]. fold (data_len ss).
  pose proof (padded_bound a s Ha Hs). destruct Hs. lia.
Qed.

Lemma zlen_blocks data ids :
  Forall (λ p, spec_sized p.2) ids →
  Forall (λ p, zlen (provided (data p.1) (spec_nbytes p.2)) = spec_nbytes p.2) ids →
  zlen (concat (map (block a data) ids)) = data_len (map snd ids).
Proof using Ha.
  intros Hs Hp. induction Hs as [|[i s] ids Hs _ IH]; [done|].
  apply list.Forall_cons in Hp as [Hpi Hp]. cbn [map concat data_len foldr snd].
  rewrite zlen_app, zlen_block, IH by done. done.
Qed.

Lemma resize_pad : fits → resize (ggml_pad (zlen header) a) header
  = header ++ zeros (ggml_pad (zlen header) a - zlen header)
  ∧ zlen header ≤ ggml_pad (zlen header) a < zlen header + a ∧ (a | ggml_pad (zlen header) a).
Proof using Ha Hspecs.
  unfold fits. intros Hfit. pose proof (data_len_nonneg specs (spec_ok_sized _ Hspecs)).
  destruct (ggml_pad_spec (zlen header) a Ha) as [Hpad Hdiv]. { destruct Ha. lia. }
  split; [|done]. unfold resize. by rewrite take_ge by lia.
Qed.

(** What a written file says once parsed. *)
Record file_holds (data : nat → provider) (ids : list (nat * TensorSpec)) (out : bytes)
    (ctx : GgufContext) : Prop := {
  fh_version : cx_version ctx = GGUF_VERSION;
  fh_kv : cx_kv ctx = kvs;
  fh_alignment : cx_alignment ctx = a;
  fh_infos : cx_info ctx = infos_of specs (offsets 0 specs a);
  fh_data : cx_offset ctx + cx_size ctx ≤ zlen out;
  fh_tensors : ∀ k i s, ids !! k = Some (i, s) → ∃ ti,
    cx_info ctx !! k = Some ti ∧ ti_name ti = ts_name s ∧ ti_ne ti = ts_ne s ∧ ti_type ti = ts_type s
    ∧ (a | cx_offset ctx + ti_offset ti)
    ∧ tensor_bytes (mkPart ctx out) ti = provided (data i) (spec_nbytes s)
    ∧ zlen (tensor_bytes (mkPart ctx out) ti) = spec_nbytes s
}.

Lemma zlen_zeros_nonneg n : 0 ≤ n → zlen (zeros n) = n.
Proof using. rewrite zlen_zeros. lia. Qed.

Lemma written_section (data : nat → provider) (ids : list (nat * TensorSpec)) (D : bytes) :
  map snd ids = specs →
  (∀ k i s, ids !! k = Some (i, s) → ∃ off, offsets 0 specs a !! k = Some off ∧ (a | off) ∧ 0 ≤ off
    ∧ off + spec_nbytes s ≤ 0 + zlen D
    ∧ take (Z.to_nat (spec_nbytes s)) (drop (Z.to_nat (off - 0)) D) = provided (data i) (spec_nbytes s)) →
  ∀ limit, 0 ≤ limit → limit < FILE_MAX → (specs ≠ [] → limit = zlen D) →
  ∃ size, data_section_size (infos_of specs (offsets 0 specs a)) limit = Ok size ∧ 0 ≤ size ≤ limit.
Proof using Hspecs Hnames.
  intros Hids Hslice limit H0 Hm Hl. apply data_section_fits; [|done|lia].
  apply Forall_lookup_2. intros k ti Hti.
  assert (Hlt : (k < length specs)%nat).
  { apply lookup_lt_Some in Hti. by rewrite length_infos_of in Hti by apply length_offsets. }
  destruct (lookup_lt_is_Some_2 specs k Hlt) as [s Hs].
  assert (Hk := Hs). rewrite <-Hids, list_lookup_fmap in Hk.
  apply fmap_Some in Hk as ([i s'] & Hk & ->). cbn [snd] in *.
  destruct (Hslice k i s' Hk) as (off & Hoff & _ & Hge & Hle & _).
  rewrite (infos_of_lookup _ _ _ _ _ Hs Hoff) in Hti. injection Hti as <-.
  assert (Hok : spec_ok s') by (apply (Forall_elem _ _ _ Hspecs); by eapply list_elem_of_lookup_2).
  destruct (nbytes_exact s' off Hok) as (-> & _ & Hpos). cbn [ti_offset info_of].
  rewrite (Hl ltac:(by intros ->)). lia.
Qed.

Lemma written_parses data ids out :
  fits → map snd ids = specs →
  Forall (λ p, zlen (provided (data p.1) (spec_nbytes p.2)) = spec_nbytes p.2) ids →
  out = resize (ggml_pad (zlen header) a) header ++ concat (map (block a data) ids) →
  zlen out < FILE_MAX ∧
  ∃ ctx, file_holds data ids out ctx
    ∧ ∀ nt, ∃ s, init_from_reader (mkReader out 0 (zlen out) nt) = (Ok ctx, s) ∧ gr_note s = nt.
Proof using All.
  intros Hfit Hids Hp Hout. destruct (resize_pad Hfit) as (Hres & Hpad & Hdiv).
  rewrite Hres, <-app_assoc in Hout.
  set (D := concat (map (block a data) ids)) in *.
  set (Z0 := zeros (ggml_pad (zlen header) a - zlen header)) in *.
  assert (Hsized : Forall (λ p, spec_sized p.2) ids).
  { pose proof (spec_ok_sized _ Hspecs) as Hs. rewrite <-Hids in Hs.
    by apply (list.Forall_fmap snd spec_sized) in Hs. }
  assert (HD : zlen D = data_len specs) by (unfold D; rewrite zlen_blocks, Hids by done; done).
  assert (Hzl : zlen Z0 = ggml_pad (zlen header) a - zlen header) by (apply zlen_zeros_nonneg; lia).
  assert (Hlen : zlen out = ggml_pad (zlen header) a + data_len specs) by (rewrite Hout, !zlen_app; lia).
  unfold fits in Hfit. split; [lia|].
  assert (Hmax : zlen out < FILE_MAX) by lia.
  assert (Hstart : 0 ≤ data_start ≤ zlen out ∧ (specs ≠ [] → zlen out - data_start = zlen D)).
  { pose proof (data_len_nonneg specs (spec_ok_sized _ Hspecs)). unfold data_start.
    destruct (decide (specs = [])); (split; [lia|]); try done; lia. }
  destruct Hstart as [[Hst0 Hstart] Hlimit].
  assert (Hslice := offsets_blocks a data ids 0 [] Ha Hsized Hp ltac:(lia) ltac:(apply Z.divide_0_r)).
  fold D in Hslice. rewrite Hids, app_nil_r in Hslice. specialize (Hslice ltac:(lia)).
  destruct (written_section data ids D Hids Hslice (zlen out - data_start)) as (size & Hsize & Hsz);
    [lia|lia|done|].
  eexists. split.
  2:{ intros nt. eexists. rewrite Hout in *. split; [by apply parse_header|done]. }
  split; try done; cbn [cx_offset cx_size cx_info]; [lia|].
  intros k i s Hk. destruct (Hslice k i s Hk) as (off & Hoff & Hdo & Hge & Hle & Htake).
  assert (Hsk : specs !! k = Some s) by (rewrite <-Hids, list_lookup_fmap, Hk; done).
  assert (Hds : data_start = ggml_pad (zlen header) a).
  { unfold data_start. rewrite decide_False; [done|]. by intros ->. }
  assert (Hpi : zlen (provided (data i) (spec_nbytes s)) = spec_nbytes s).
  { apply (Forall_elem _ _ (i, s) Hp). by eapply list_elem_of_lookup_2. }
  assert (Hbytes : tensor_bytes (mkPart (mkCtx GGUF_VERSION kvs (infos_of specs (offsets 0 specs a)) a
      data_start size) out) (info_of s off) = provided (data i) (spec_nbytes s)).
  { unfold tensor_bytes. cbn [pt_ctx pt_data cx_offset ti_offset info_of].
    change (nbytes _) with (spec_nbytes s). rewrite <-Htake, Hds, Hout, app_assoc. f_equal.
    rewrite Z.sub_0_r. replace (Z.to_nat (ggml_pad (zlen header) a + off))
      with (length (header ++ Z0) + Z.to_nat off)%nat by (rewrite length_app; lia).
    by rewrite <-drop_drop, drop_app_length. }
  exists (info_of s off). split_and!; try done.
  - by apply infos_of_lookup.
  - rewrite Hds. by apply Z.divide_add_r.
  - by rewrite Hbytes.
Qed.
End written.
