(* ===== verification/GgufSplit.v ===== *)
(** * Split files: names, assignment of tensors to parts

    The file names of a split's parts parse back to the stem, the part's
    number and the count; the greedy assignment is an ordered partition into
    parts under the cap. *)
From Stdlib Require Import ZArith String Strings.Byte.
From coqutil Require Import Byte Word.LittleEndianList.
From stdpp Require Import base numbers list gmap option.
From S2P Require Import Prelude Gguf GgufWrite GgufRound GgufLoad GgufFiles.
Local Open Scope Z_scope.

(** ** Searches *)

Lemma starts_with_app pat s : starts_with pat (pat ++ s) = true.
Proof. induction pat as [|p pat IH]; cbn; [done|]. by rewrite bool_decide_true. Qed.

Lemma starts_with_head p pat s : p ∉ s → starts_with (p :: pat) s = false.
Proof. destruct s as [|c s]; intros H; cbn; [done|]. rewrite bool_decide_false; [done|]. set_solver. Qed.

Lemma rfind_none p pat s : p ∉ s → rfind (p :: pat) s = None.
Proof.
  induction s as [|c s IH]; intros H; [done|]. cbn [rfind].
  rewrite IH by set_solver. by rewrite starts_with_head.
Qed.

(** The last occurrence, found past any prefix. *)
Lemma rfind_last pat s t :
  starts_with pat t = true → t ≠ [] → rfind pat (tail t) = None → rfind pat (s ++ t) = Some (length s).
Proof.
  intros Hs Hne Ht. induction s as [|c s IH]; cbn [app length].
  - destruct t as [|c t]; [done|]. cbn [rfind tail] in *. by rewrite Ht, Hs.
  - cbn [rfind]. by rewrite IH.
Qed.

Lemma strip_suffix_app suffix s : strip_suffix suffix (s ++ suffix) = Some s.
Proof.
  unfold strip_suffix. rewrite length_app, Nat.add_sub.
  rewrite decide_True by (rewrite drop_app_length; split; [lia|done]). by rewrite take_app_length.
Qed.

(** ** Decimal numbers *)

Definition digit (n : nat) : byte := byte.of_Z (48 + Z.of_nat (n mod 10)).

Lemma uz_digit n : uz (digit n) = 48 + Z.of_nat (n mod 10).
Proof.
  unfold uz, digit. pose proof (Nat.mod_upper_bound n 10). 
  rewrite byte.unsigned_of_Z. unfold byte.wrap. apply Z.mod_small. lia.
Qed.

Lemma digit_value_digit n : digit_value (digit n) = Some (Z.of_nat (n mod 10)).
Proof.
  unfold digit_value. pose proof (Nat.mod_upper_bound n 10). rewrite uz_digit.
  rewrite (proj2 (Z.leb_le 48 _)), (proj2 (Z.leb_le _ 57)) by lia. cbn [andb]. f_equal. lia.
Qed.

Lemma decimal_step fuel n :
  decimal fuel n = (if (fuel =? 0)%nat || (n <? 10)%nat then [] else decimal (pred fuel) (n / 10)) ++ [digit n].
Proof. destruct fuel; [done|]. cbn [decimal Nat.eqb orb pred]. by destruct (n <? 10)%nat. Qed.

Lemma decimal_length k fuel n :
  (n ≤ fuel)%nat → (n < 10 ^ S k)%nat → (1 ≤ length (decimal fuel n) ≤ S k)%nat.
Proof.
  revert fuel n. induction k as [|k IH]; intros fuel n Hf Hn; rewrite decimal_step, length_app; cbn [length].
  - rewrite (proj2 (Nat.ltb_lt n 10)) by (simpl in Hn; lia). rewrite orb_true_r. cbn. lia.
  - destruct (Nat.eqb_spec fuel 0), (Nat.ltb_spec n 10); cbn [orb]; try (cbn; lia).
    pose proof (Nat.div_lt n 10). assert (n / 10 < 10 ^ S k)%nat.
    { apply Nat.Div0.div_lt_upper_bound. by rewrite Nat.pow_succ_r' in Hn. }
    destruct (IH (pred fuel) (n / 10)%nat); lia.
Qed.

Lemma parse_digits_app acc s t : parse_digits acc (s ++ t) = x ← parse_digits acc s; parse_digits x t.
Proof.
  revert acc. induction s as [|b s IH]; intros acc; [done|]. cbn [app parse_digits].
  destruct (digit_value b); [|done]. cbn [mbind option_bind].
  destruct (_ <? _); [done|]. apply IH.
Qed.

Lemma parse_decimal fuel n :
  (n ≤ fuel)%nat → Z.of_nat n ≤ USIZE_MAX → parse_digits 0 (decimal fuel n) = Some (Z.of_nat n).
Proof.
  revert n. induction fuel as [|fuel IH]; intros n Hf Hn; rewrite decimal_step, parse_digits_app.
  - replace n with 0%nat by lia. done.
  - pose proof (Nat.div_mod_eq n 10) as Hdm.
    assert (Hd : parse_digits 0 (if (S fuel =? 0)%nat || (n <? 10)%nat then []
                   else decimal (pred (S fuel)) (n / 10)) = Some (Z.of_nat (n / 10))).
    { cbn [Nat.eqb orb pred]. destruct (Nat.ltb_spec n 10).
      - rewrite Nat.div_small by done. done.
      - apply IH; [|lia]. pose proof (Nat.div_lt n 10). lia. }
    rewrite Hd. cbn [mbind option_bind parse_digits]. rewrite digit_value_digit. cbn [mbind option_bind].
    rewrite (proj2 (Z.ltb_ge _ _)) by lia. f_equal. lia.
Qed.

Lemma parse_zeros k s : parse_digits 0 (replicate k (byte.of_Z 48) ++ s) = parse_digits 0 s.
Proof. induction k as [|k IH]; [done|]. by cbn [replicate app parse_digits]. Qed.

Definition is_digit (b : byte) : Prop := 48 ≤ uz b ≤ 57.

Lemma is_digit_digit n : is_digit (digit n).
Proof. unfold is_digit. rewrite uz_digit. pose proof (Nat.mod_upper_bound n 10). lia. Qed.

Lemma decimal_digits fuel n : Forall is_digit (decimal fuel n).
Proof.
  revert n. induction fuel as [|fuel IH]; intros n; cbn [decimal]; fold (digit n).
  - constructor; [apply is_digit_digit|constructor].
  - destruct (n <? 10)%nat; [constructor; [apply is_digit_digit|constructor]|].
    apply Forall_app; split; [apply IH|]. constructor; [apply is_digit_digit|constructor].
Qed.

Lemma pad5_spec n :
  Z.of_nat n < 100000 → length (pad5 n) = 5%nat ∧ Forall is_digit (pad5 n)
    ∧ parse_digits 0 (pad5 n) = Some (Z.of_nat n).
Proof.
  intros Hn. unfold pad5.
  assert (Hl : (1 ≤ length (decimal n n) ≤ 5)%nat) by (apply (decimal_length 4); [done|];
    apply Nat2Z.inj_lt; rewrite Nat2Z.inj_pow; exact Hn).
  split_and!.
  - rewrite length_app, length_replicate. lia.
  - apply Forall_app; split; [|apply decimal_digits]. apply Forall_replicate. done.
  - rewrite parse_zeros. apply parse_decimal; unfold USIZE_MAX; lia.
Qed.

Lemma not_digit b s : Forall is_digit s → (uz b < 48 ∨ 57 < uz b) → b ∉ s.
Proof. intros Hs Hb Hin. pose proof (Forall_elem _ _ _ Hs Hin) as H. unfold is_digit in H. lia. Qed.

Lemma parse_pad5 n : Z.of_nat n < 100000 → parse_usize (pad5 n) = Some (Z.of_nat n).
Proof.
  intros Hn. destruct (pad5_spec n Hn) as (Hl & Hd & Hp). unfold parse_usize.
  destruct (pad5 n) as [|b s]; [done|].
  rewrite bool_decide_false; [by rewrite decide_False|].
  intros ->. apply Forall_inv in Hd. by destruct Hd.
Qed.

Lemma rfind_of_tail d : Forall is_digit d → rfind (bstr "-of-") (tail (bstr "-of-" ++ d)) = None.
Proof.
  intros Hd. assert (Hdash : byte.of_Z 45 ∉ d) by (apply not_digit; [done|by left]).
  assert (Ho : byte.of_Z 111 ∉ d) by (apply not_digit; [done|by right]).
  change (tail (bstr "-of-" ++ d)) with (byte.of_Z 111 :: byte.of_Z 102 :: byte.of_Z 45 :: d).
  change (bstr "-of-") with (byte.of_Z 45 :: byte.of_Z 111 :: bstr "f-").
  cbn [rfind]. rewrite rfind_none by done.
  assert (Hs : starts_with (byte.of_Z 45 :: byte.of_Z 111 :: bstr "f-") (byte.of_Z 45 :: d) = false).
  { change (starts_with (byte.of_Z 111 :: bstr "f-") d = false). by apply starts_with_head. }
  rewrite Hs. done.
Qed.

(** A part's name tells the stem, the part's number and the count, whatever
    dashes the stem has. *)
Lemma split_file_info_part stem i count :
  (1 ≤ i)%nat → (i ≤ count)%nat → Z.of_nat count < 100000 →
  split_file_info (part_name stem i count) = Some (stem, Z.of_nat i - 1, Z.of_nat count).
Proof.
  intros Hi Hic Hc.
  destruct (pad5_spec i) as (Hli & Hdi & _); [lia|]. destruct (pad5_spec count) as (Hlc & Hdc & _); [done|].
  unfold split_file_info, part_name.
  rewrite !(app_assoc _ _ (bstr ".gguf")), (app_assoc stem), (app_assoc (stem ++ bstr "-")).
  rewrite strip_suffix_app. cbn [mbind option_bind].
  set (front := (stem ++ bstr "-") ++ pad5 i).
  rewrite (rfind_last (bstr "-of-") front (bstr "-of-" ++ pad5 count)) by
    (apply starts_with_app || done || by apply rfind_of_tail).
  cbn [mbind option_bind]. rewrite take_app_length.
  replace (length front + 4)%nat with (length (front ++ bstr "-of-")) by (rewrite length_app; done).
  rewrite app_assoc, drop_app_length, Hlc. unfold front. rewrite <-app_assoc.
  rewrite (rfind_last (bstr "-") stem (bstr "-" ++ pad5 i)); [|done|done|].
  2:{ cbn [app tail]. apply rfind_none, not_digit; [done|by left]. }
  cbn [mbind option_bind]. rewrite take_app_length.
  replace (length stem + 1)%nat with (length (stem ++ bstr "-")) by (rewrite length_app; done).
  rewrite app_assoc, drop_app_length, Hli. cbn [Nat.eqb negb orb].
  rewrite !parse_pad5 by lia. cbn [mbind option_bind].
  rewrite (proj2 (Z.eqb_neq _ _)), (proj2 (Z.eqb_neq _ _)), (proj2 (Z.ltb_ge _ _)) by lia. done.
Qed.

(** ** The assignment *)

Section assign.
Context (a cap : Z) (specs0 : list TensorSpec).

(** The padded bytes of the tensors with the given numbers. *)
Definition pad_of (j : nat) : Z := default 0 (padded a <$> specs0 !! j).
Definition size_of (ids : list nat) : Z := foldr (λ j n, pad_of j + n) 0 ids.

(** Each part holds a tensor and respects the cap; a part was closed only
    because the next tensor did not fit. *)
Definition greedy (parts : list (list nat)) : Prop :=
  Forall (λ ids, ids ≠ [] ∧ size_of ids ≤ cap) parts
  ∧ ∀ k p q, parts !! k = Some p → parts !! S k = Some q →
      ∃ j, head q = Some j ∧ cap < size_of p + pad_of j.

Lemma size_of_app l1 l2 : size_of (l1 ++ l2) = size_of l1 + size_of l2.
Proof using. induction l1 as [|j l1 IH]; cbn; [done|]. fold (size_of (l1 ++ l2)) (size_of l1). lia. Qed.

Lemma data_len_app l1 l2 : data_len a (l1 ++ l2) = data_len a l1 + data_len a l2.
Proof using. induction l1 as [|s l1 IH]; cbn; [done|]. fold (data_len a (l1 ++ l2)) (data_len a l1). lia. Qed.

Lemma data_len_pos l : (∀ s, s ∈ l → 0 ≤ padded a s) → 0 ≤ data_len a l.
Proof using.
  induction l as [|s l IH]; intros H; cbn; [done|]. fold (data_len a l).
  pose proof (H s ltac:(by left)). pose proof (IH ltac:(set_solver)). lia.
Qed.

Lemma size_of_seq pre post : specs0 = pre ++ post → size_of (List.seq 0 (length pre)) = data_len a pre.
Proof using.
  revert post. induction pre as [|s pre IH] using rev_ind; intros post Heq; [done|].
  rewrite length_app, Nat.add_1_r, seq_S, size_of_app, data_len_app. cbn [Nat.add].
  rewrite (IH (s :: post)) by (by rewrite Heq, <-app_assoc). cbn. unfold pad_of.
  rewrite Heq, <-app_assoc. cbn [app]. rewrite list_lookup_middle by done. cbn. lia.
Qed.

Lemma greedy_snoc parts cur i :
  greedy (parts ++ [cur]) → cap < size_of cur + pad_of i → pad_of i ≤ cap →
  greedy ((parts ++ [cur]) ++ [[i]]).
Proof using.
  intros [Hf Hg] Hi Hc. split.
  - apply Forall_app; split; [done|]. constructor; [|constructor]. split; [done|]. cbn. lia.
  - intros k p q Hp Hq. destruct (decide (S k < length (parts ++ [cur]))%nat) as [Hlt|Hge].
    + rewrite lookup_app_l in Hp, Hq by lia. by apply (Hg k).
    + apply lookup_lt_Some in Hq as Hlt. rewrite length_app in Hlt. cbn [length] in Hlt.
      rewrite lookup_app_r in Hq by lia.
      replace (S k - length (parts ++ [cur]))%nat with 0%nat in Hq by lia. injection Hq as <-.
      rewrite lookup_app_l in Hp by lia. rewrite length_app in Hge, Hlt. cbn [length] in Hge, Hlt.
      replace k with (length parts) in Hp by lia. rewrite list_lookup_middle in Hp by done.
      injection Hp as <-. exists i. split; [done|lia].
Qed.

Lemma greedy_grow parts cur i :
  cur ≠ [] → greedy (parts ++ [cur]) → size_of cur + pad_of i ≤ cap → greedy (parts ++ [cur ++ [i]]).
Proof using.
  intros Hne [Hf Hg] Hi. apply Forall_app in Hf as [Hf _]. split.
  - apply Forall_app; split; [done|]. constructor; [|constructor]. split; [by destruct cur|].
    rewrite size_of_app. cbn. lia.
  - intros k p q Hp Hq. apply lookup_lt_Some in Hq as Hlt. rewrite length_app in Hlt. cbn [length] in Hlt.
    rewrite lookup_app_l in Hp by lia.
    destruct (decide (S k < length parts)%nat) as [Hl|Hge].
    + rewrite lookup_app_l in Hq by lia. apply (Hg k); rewrite lookup_app_l by lia; done.
    + replace (S k) with (length parts) in Hq by lia. rewrite list_lookup_middle in Hq by done.
      injection Hq as <-. destruct (Hg k p cur) as (j & Hj & Hc).
      * by rewrite lookup_app_l by lia.
      * replace (S k) with (length parts) by lia. by rewrite list_lookup_middle.
      * exists j. split; [|done]. destruct cur; [done|]. done.
Qed.

Context (Hpad : ∀ s, s ∈ specs0 → 0 ≤ padded a s) (Htotal : data_len a specs0 < 2 ^ 64).

Lemma pad_of_at pre s post : specs0 = pre ++ s :: post → pad_of (length pre) = padded a s.
Proof using. intros Heq. unfold pad_of. rewrite Heq. by rewrite list_lookup_middle. Qed.

(** What the loop keeps: the numbers handed out are the first ones, in order. *)
Record assigned (pre : list TensorSpec) (parts : list (list nat)) (cur : list nat) (cur_bytes : Z) :
    Prop := {
  as_order : concat parts ++ cur = List.seq 0 (length pre);
  as_bytes : cur_bytes = size_of cur;
  as_start : cur = [] → parts = [] ∧ pre = [];
  as_greedy : cur ≠ [] → greedy (parts ++ [cur])
}.

Lemma assigned_total pre post parts cur cb :
  specs0 = pre ++ post → assigned pre parts cur cb → 0 ≤ cb ∧ cb + data_len a post < 2 ^ 64 .
Proof using Hpad Htotal.
  intros Heq [Ho -> _ _].
  assert (Hall : ∀ ids, 0 ≤ size_of ids).
  { induction ids as [|j ids IH]; cbn; [done|]. fold (size_of ids). unfold pad_of.
    destruct (specs0 !! j) eqn:Hj; cbn; [|lia]. pose proof (Hpad t (list_elem_of_lookup_2 _ _ _ Hj)). lia. }
  pose proof (size_of_seq pre post Heq) as Hs. rewrite <-Ho, size_of_app in Hs.
  pose proof (Hall (concat parts)). pose proof (Hall cur).
  assert (data_len a specs0 = data_len a pre + data_len a post) by (rewrite Heq; apply data_len_app). lia.
Qed.

Lemma assign_loop_ok pre post parts cur cb :
  specs0 = pre ++ post → assigned pre parts cur cb → Forall (λ s, padded a s ≤ cap) post →
  ∃ res, assign_loop (length pre) post a cap parts cur cb = Ok res
    ∧ concat res = List.seq 0 (length specs0) ∧ (specs0 ≠ [] → greedy res).
Proof using Hpad Htotal.
  revert pre parts cur cb. induction post as [|s post IH]; intros pre parts cur cb Heq Has Hcap; cbn [assign_loop].
  - rewrite app_nil_r in Heq. subst pre. destruct Has as [Ho _ Hst Hg].
    destruct (decide (cur = [])) as [->|Hne]; eexists; (split; [done|]).
    + destruct (Hst eq_refl) as [-> ->]. split; [done|by intros []].
    + rewrite concat_app. cbn. rewrite app_nil_r. split; [done|]. auto.
  - apply list.Forall_cons in Hcap as [Hs Hcap]. fold (padded a s).
    rewrite (proj2 (Z.ltb_ge _ _)) by done.
    destruct (assigned_total pre (s :: post) parts cur cb Heq Has) as [Hcb Htot].
    assert (Hps : 0 ≤ padded a s) by (apply Hpad; rewrite Heq; set_solver).
    assert (Hpo : 0 ≤ data_len a post) by (apply data_len_pos; intros t Ht; apply Hpad; rewrite Heq; set_solver).
    cbn [data_len foldr] in Htot. fold (data_len a post) in Htot.
    pose proof (pad_of_at pre s post Heq) as Hpad_s.
    assert (Heq' : specs0 = (pre ++ [s]) ++ post) by by rewrite <-app_assoc.
    replace (S (length pre)) with (length (pre ++ [s])) by (rewrite length_app; cbn; lia).
    destruct Has as [Ho -> Hst Hg]. rewrite !u64_small by lia.
    destruct (bool_decide_reflect (cur = [])) as [->|Hne]; cbn [negb andb].
    + destruct (Hst eq_refl) as [-> ->]. apply IH; [done| |done]. split; [done|..].
      * cbn. cbn in Hpad_s. lia.
      * done.
      * intros _. split; [constructor; [|constructor]; cbn; cbn in Hpad_s; split; [done|lia]|].
        intros [|k] p q Hp Hq; done.
    + destruct (Z.ltb_spec cap (size_of cur + padded a s)) as [Hover|Hfit]; (apply IH; [done| |done]); split.
      * rewrite concat_app, length_app, seq_app. cbn. rewrite app_nil_r, Ho. done.
      * cbn. lia.
      * done.
      * intros _. apply greedy_snoc; [auto|lia|lia].
      * rewrite app_assoc, length_app, seq_app, Ho. done.
      * rewrite size_of_app. cbn. lia.
      * by destruct cur.
      * intros _. apply greedy_grow; [done|auto|lia].
Qed.

Lemma assign_loop_too_big i pre post parts cur cb s :
  Forall (λ t, padded a t ≤ cap) pre → cap < padded a s →
  assign_loop i (pre ++ s :: post) a cap parts cur cb = Err (SplitTensorTooBig (ts_name s) (padded a s) cap).
Proof using.
  intros Hpre Hs. revert i parts cur cb. induction Hpre as [|t pre Ht _ IH]; intros i parts cur cb; cbn [app assign_loop].
  - fold (padded a s). by rewrite (proj2 (Z.ltb_lt _ _)).
  - fold (padded a t). rewrite (proj2 (Z.ltb_ge _ _)) by done. case_match; apply IH.
Qed.
End assign.
