(* ===== verification/GgufParts.v ===== *)
(** * The parts of a split, written and loaded

    Each part's metadata is the caller's with the three [split.*] keys
    appended; the parts fit when the whole does; the loader walks the part
    names in order. *)
From Stdlib Require Import ZArith String Strings.Byte.
From coqutil Require Import Byte Word.LittleEndianList.
From stdpp Require Import base numbers list gmap option.
From S2P Require Import Prelude Gguf GgufWrite GgufRound GgufLoad GgufFiles GgufSplit.
(* [naive_solver] and [set_solver] clear hypotheses that are gone already. *)
#[local] Set Warnings "-clear-no-such-hyp".
Local Open Scope Z_scope.

(** ** Files a caller can write and read back *)

Lemma create_inv kvs specs a w :
  Forall kv_ok kvs → create kvs specs a = Ok w →
  NoDup (map ts_name specs) ∧ Z.land a (a - 1) = 0 ∧ a ≠ 0
  ∧ w = mkWriter (resize (ggml_pad (zlen (header kvs specs a)) a) (header kvs specs a)) specs a 0.
Proof.
  intros Hkvs H. unfold create in H. apply res_bind_ok in H as ([] & Hv & H).
  apply validate_loop_names in Hv as [Hnd _].
  destruct (Z.eqb_spec a 0); [done|]. destruct (Z.eqb_spec (Z.land a (a - 1)) 0); [|done].
  rewrite encode_kvs_ok in H by done. injection H as <-. done.
Qed.

(** Everything a caller must get right for the file to be written and read. *)
Definition writable (kvs : list GgufKv) (specs : list TensorSpec) (a : Z) : Prop :=
  kvs_ok kvs ∧ Forall spec_ok specs ∧ 0 < a < 2 ^ 32 ∧ aligned_as kvs a ∧ fits kvs specs a.

#[export] Instance writable_dec kvs specs a : Decision (writable kvs specs a).
Proof. unfold writable, fits. apply _. Defined.

Lemma file_written kvs specs a data ids w w' out :
  writable kvs specs a → map snd ids = specs →
  create kvs specs a = Ok w → write_tensors data ids w = (Ok (), w') → finish w' = Ok out →
  zlen out < FILE_MAX ∧ out ≠ [] ∧
  ∃ ctx, file_holds kvs specs a data ids out ctx
    ∧ ∀ nt, ∃ s, init_from_reader (mkReader out 0 (zlen out) nt) = (Ok ctx, s) ∧ gr_note s = nt.
Proof.
  intros (Hkvs & Hspecs & Ha & Hal & Hfit) Hids Hc Hw Hf.
  destruct (create_inv _ _ _ _ (proj1 Hkvs) Hc) as (Hnd & Hland & Hz & ->).
  assert (Hga : good_alignment a) by done.
  apply write_tensors_ok in Hw as [Hp ->].
  2:{ pose proof (spec_ok_sized _ Hspecs) as Hs. rewrite <-Hids in Hs.
      apply (list.Forall_fmap snd spec_sized) in Hs. eapply Forall_impl; [|exact Hs].
      intros p [Hp _]. lia. }
  unfold finish in Hf. cbn [gw_out gw_alignment gw_specs gw_next] in Hf. case_match; [done|].
  assert (Hout : out = resize (ggml_pad (zlen (header kvs specs a)) a) (header kvs specs a)
    ++ concat (map (block a data) ids)) by congruence.
  destruct (written_parses kvs specs a Hkvs Hspecs Hnd Hga Hal data ids out Hfit Hids Hp Hout)
    as [Hlen Hctx].
  split_and!; [done| |done].
  destruct (resize_pad kvs specs a Hspecs Hga Hfit) as [Hr _]. by rewrite Hout, Hr.
Qed.

Lemma find_kv_none (kvs : list GgufKv) key ctx :
  cx_kv ctx = kvs → key ∉ map kv_key kvs → get_key_val_i64 ctx key = Some None.
Proof.
  intros <- Hk. unfold get_key_val_i64, find_kv.
  destruct (List.find _ (cx_kv ctx)) as [kv|] eqn:Hf; [|done].
  exfalso. apply find_some in Hf as [Hin Heq]. apply bool_decide_eq_true in Heq.
  apply Hk. rewrite <-Heq. by apply list_elem_of_fmap_2, list_elem_of_In.
Qed.

Lemma kv_remove_keys kvs key k : k ∈ map kv_key (kv_remove kvs key) ↔ k ∈ map kv_key kvs ∧ k ≠ key.
Proof.
  unfold kv_remove. induction kvs as [|kv kvs IH]; cbn [List.filter map].
  - rewrite elem_of_nil. naive_solver.
  - case_bool_decide as Hk; cbn [negb map]; rewrite !elem_of_cons, ?IH; naive_solver.
Qed.

Lemma strip_split_keys kv k :
  k ∈ map kv_key (strip_split kv) ↔
  k ∈ map kv_key kv ∧ k ≠ KEY_SPLIT_NO ∧ k ≠ KEY_SPLIT_COUNT ∧ k ≠ KEY_SPLIT_TENSORS_COUNT.
Proof. unfold strip_split. rewrite !kv_remove_keys. naive_solver. Qed.

Lemma imap_snd {A} (l : list A) : map snd (imap (λ i s, (i, s)) l) = l.
Proof.
  apply list_eq. intros i. rewrite list_lookup_fmap, list_lookup_imap. by destruct (l !! i).
Qed.

Lemma map_file_dir name out : out ≠ [] → ∀ n, map_file (dir_of [(name, out)]) name n = (Ok out, n).
Proof.
  intros Hne n. unfold map_file, dir_of. cbn. rewrite bool_decide_true by done. cbn.
  by rewrite decide_False.
Qed.

(** ** The metadata of a part *)

Definition split_keys (p total n : nat) : list GgufKv :=
  [new_u32 KEY_SPLIT_NO (Z.of_nat p); new_u32 KEY_SPLIT_COUNT (Z.of_nat total);
   new_u32 KEY_SPLIT_TENSORS_COUNT (Z.of_nat n)].

Lemma kv_upsert_new kvs new : kv_key new ∉ map kv_key kvs → kv_upsert kvs new = kvs ++ [new].
Proof.
  induction kvs as [|k kvs IH]; intros H; [done|]. cbn [map] in H. cbn [kv_upsert app].
  rewrite decide_False by set_solver. rewrite IH by set_solver. done.
Qed.

Lemma split_keys_distinct :
  KEY_SPLIT_COUNT ≠ KEY_SPLIT_NO ∧ KEY_SPLIT_TENSORS_COUNT ≠ KEY_SPLIT_NO
  ∧ KEY_SPLIT_TENSORS_COUNT ≠ KEY_SPLIT_COUNT.
Proof. done. Qed.

Lemma part_kv_app kv p total n : part_kv (strip_split kv) p total n = strip_split kv ++ split_keys p total n.
Proof.
  unfold part_kv. destruct split_keys_distinct as (H1 & H2 & H3).
  rewrite (kv_upsert_new (strip_split kv)) by (cbn [kv_key new_u32 new_num]; rewrite strip_split_keys; naive_solver).
  rewrite (kv_upsert_new (strip_split kv ++ _)) by (cbn [kv_key new_u32 new_num];
    rewrite map_app, elem_of_app, strip_split_keys; cbn; rewrite list_elem_of_singleton; naive_solver).
  rewrite kv_upsert_new, <-!app_assoc; [done|]. cbn [kv_key new_u32 new_num].
  rewrite !map_app, !elem_of_app, strip_split_keys; cbn; rewrite !list_elem_of_singleton. naive_solver.
Qed.

Lemma kv_remove_app l1 l2 k : kv_remove (l1 ++ l2) k = kv_remove l1 k ++ kv_remove l2 k.
Proof. apply List.filter_app. Qed.

Lemma kv_remove_id l k : k ∉ map kv_key l → kv_remove l k = l.
Proof.
  induction l as [|x l IH]; intros Hk; [done|]. cbn [map] in Hk. unfold kv_remove. cbn [List.filter].
  rewrite bool_decide_false by set_solver. cbn [negb]. f_equal. apply IH. set_solver.
Qed.

Lemma strip_split_part kv p total n : strip_split (strip_split kv ++ split_keys p total n) = strip_split kv.
Proof.
  unfold strip_split at 1. rewrite !kv_remove_app.
  rewrite !(kv_remove_id (strip_split kv)) by (rewrite strip_split_keys; naive_solver).
  replace (kv_remove _ _) with (@nil GgufKv) by done. apply app_nil_r.
Qed.

Lemma strip_split_idem kv : strip_split (strip_split kv) = strip_split kv.
Proof.
  unfold strip_split at 1.
  by rewrite !(kv_remove_id (strip_split kv)) by (rewrite strip_split_keys; naive_solver).
Qed.

(** The number a [u32] key holds, found in the metadata. *)
Lemma get_key_u32 ctx kvs1 key v kvs2 :
  cx_kv ctx = kvs1 ++ new_u32 key v :: kvs2 → key ∉ map kv_key kvs1 → 0 ≤ v < 2 ^ 32 →
  get_key_val_i64 ctx key = Some (Some v).
Proof.
  intros Hc Hk Hv. unfold get_key_val_i64, find_kv. rewrite Hc. clear Hc ctx.
  induction kvs1 as [|x kvs1 IH]; cbn [app List.find].
  - rewrite bool_decide_true by done. unfold get_i64. cbn [kv_type new_u32 new_num].
    change (get_val_num GgufType.Uint32 (mkKv key false GgufType.Uint32 (le_split (GgufType.type_size GgufType.Uint32) v) []) 0)
      with (get_val_u32 (new_u32 key v) 0).
    rewrite get_val_new_u32, Z.mod_small by done. done.
  - cbn [map] in Hk. rewrite bool_decide_false by set_solver. apply IH. set_solver.
Qed.

(** ** Parts of a file that fits *)

Lemma good_split_keys : Forall good_string [KEY_SPLIT_NO; KEY_SPLIT_COUNT; KEY_SPLIT_TENSORS_COUNT].
Proof. by apply (bool_decide_unpack _). Qed.

Lemma split_keys_ok p total n : Forall kv_ok (split_keys p total n).
Proof.
  pose proof good_split_keys as Hg. rewrite !list.Forall_cons in Hg. destruct Hg as (H1 & H2 & H3 & _).
  unfold split_keys. rewrite !list.Forall_cons. split_and!; done.
Qed.

Lemma kvs_ok_part kvs p total n p' total' n' :
  kvs_ok (kvs ++ split_keys p total n) → kvs_ok (kvs ++ split_keys p' total' n') ∧ kvs_ok kvs.
Proof.
  intros [Hf Hnd]. apply Forall_app in Hf as [Hf _]. rewrite map_app in Hnd. split; split.
  - apply Forall_app; split; [done|apply split_keys_ok].
  - by rewrite map_app.
  - done.
  - by apply list.NoDup_app in Hnd as (Hnd & _).
Qed.

Lemma aligned_as_part kvs p total n a :
  aligned_as (kvs ++ split_keys p total n) a ↔ aligned_as kvs a.
Proof.
  unfold aligned_as.
  assert (Hf : ∀ f, List.find f (kvs ++ split_keys p total n)
      = match List.find f kvs with Some kv => Some kv | None => List.find f (split_keys p total n) end).
  { intros f. induction kvs as [|kv kvs IH]; [done|]. cbn [app List.find]. by destruct (f kv). }
  rewrite Hf, map_app, elem_of_app.
  assert (Hk : GGUF_KEY_GENERAL_ALIGNMENT ∉ map kv_key (split_keys p total n)).
  { change (map _ _) with [KEY_SPLIT_NO; KEY_SPLIT_COUNT; KEY_SPLIT_TENSORS_COUNT].
    by apply (bool_decide_unpack _). }
  replace (List.find _ (split_keys p total n)) with (@None GgufKv) by done.
  destruct (List.find _ kvs); naive_solver.
Qed.

Definition index_len (specs : list TensorSpec) : Z := foldr (λ s n, zlen (encode_spec s 0) + n) 0 specs.

Lemma zlen_encode_specs c specs a : zlen (encode_specs specs (offsets c specs a)) = index_len specs.
Proof.
  revert c. induction specs as [|s specs IH]; intros c; [done|]. cbn [offsets encode_specs index_len foldr].
  rewrite zlen_app, IH. f_equal. unfold encode_spec, u64_bytes. by rewrite !zlen_app, !length_le_split.
Qed.

Lemma zlen_header kvs specs a :
  zlen (header kvs specs a) = 24 + zlen (table_bytes kvs) + index_len specs.
Proof.
  unfold header, header_bytes, u32_bytes, u64_bytes.
  rewrite !zlen_app, !length_le_split, zlen_encode_specs. change (zlen GGUF_MAGIC) with 4. lia.
Qed.

Lemma index_len_app l1 l2 : index_len (l1 ++ l2) = index_len l1 + index_len l2.
Proof. induction l1 as [|s l1 IH]; [done|]. cbn [app index_len foldr]. fold (index_len (l1 ++ l2)) (index_len l1). lia. Qed.

Lemma index_len_nonneg l : 0 ≤ index_len l.
Proof. induction l as [|s l IH]; [done|]. cbn [index_len foldr]. fold (index_len l). lia. Qed.

Lemma zlen_split_keys kvs p total n p' total' n' :
  zlen (table_bytes (kvs ++ split_keys p total n)) = zlen (table_bytes (kvs ++ split_keys p' total' n')).
Proof. unfold table_bytes. by rewrite !map_app, !concat_app, !zlen_app. Qed.

Lemma fits_part kvs p total n p' total' n' l ps r a :
  good_alignment a → Forall spec_ok (l ++ ps ++ r) →
  fits (kvs ++ split_keys p total n) (l ++ ps ++ r) a →
  fits (kvs ++ split_keys p' total' n') ps a ∧ fits kvs (l ++ ps ++ r) a.
Proof.
  intros Ha Hok Hfit. unfold fits in *. rewrite !zlen_header in *.
  apply spec_ok_sized in Hok. rewrite !index_len_app, !data_len_app in *.
  apply Forall_app in Hok as [Hl Hok]. apply Forall_app in Hok as [Hp Hr].
  pose proof (data_len_nonneg a Ha l Hl). pose proof (data_len_nonneg a Ha ps Hp).
  pose proof (data_len_nonneg a Ha r Hr).
  pose proof (index_len_nonneg l). pose proof (index_len_nonneg ps). pose proof (index_len_nonneg r).
  rewrite (zlen_split_keys kvs p' total' n' p total n). split; [lia|].
  assert (zlen (table_bytes kvs) ≤ zlen (table_bytes (kvs ++ split_keys p total n))).
  { unfold table_bytes. rewrite map_app, concat_app, zlen_app. lia. }
  lia.
Qed.

(** A part of a writable whole is writable, and so is the whole as one file. *)
Lemma writable_part kvs p total n p' total' n' l ps r a :
  Z.land a (a - 1) = 0 →
  writable (kvs ++ split_keys p total n) (l ++ ps ++ r) a →
  writable (kvs ++ split_keys p' total' n') ps a ∧ writable kvs (l ++ ps ++ r) a.
Proof.
  intros Hland (Hkvs & Hspecs & Ha & Hal & Hfit).
  destruct (kvs_ok_part _ _ _ _ p' total' n' Hkvs) as [Hk1 Hk2].
  destruct (fits_part kvs p total n p' total' n' l ps r a (conj Ha Hland) Hspecs Hfit) as [Hf1 Hf2].
  assert (Hal' := proj1 (aligned_as_part _ _ _ _ _) Hal).
  assert (Hps := Hspecs). apply Forall_app in Hps as [_ Hps]. apply Forall_app in Hps as [Hps _].
  split; split_and!; try done; try lia. by apply aligned_as_part.
Qed.

(** ** Writing the parts *)

Definition part_written (stem : bytes) (base : list GgufKv) (specs : list TensorSpec) (a : Z)
    (data : nat → provider) (total p : nat) (ids : list nat) (name out : bytes) : Prop :=
  name = part_name stem (p + 1) total ∧ ∃ ps w w',
    mapM (λ i, specs !! i) ids = Some ps ∧ create (part_kv base p total (length specs)) ps a = Ok w
    ∧ write_tensors data (zip ids ps) w = (Ok (), w') ∧ finish w' = Ok out.

Lemma write_parts_inv stem base specs a data total p assignment files :
  total ≠ 1%nat →
  write_parts stem base specs a data total p assignment = Ok files →
  length files = length assignment ∧
  ∀ k ids, assignment !! k = Some ids → ∃ name out,
    files !! k = Some (name, out) ∧ part_written stem base specs a data total (p + k) ids name out.
Proof.
  intros Htot. revert p files. induction assignment as [|ids rest IH]; intros p files; cbn [write_parts].
  { intros [= <-]. split; [done|]. intros [|k] ids Hk; done. }
  intros ([name out] & Hpart & (files' & Hrest & [= <-])%res_bind_ok)%res_bind_ok.
  destruct (IH _ _ Hrest) as [Hl Hk]. split; [cbn; lia|]. intros [|k] ids' Hids'.
  - injection Hids' as <-. exists name, out. split; [done|]. rewrite Nat.add_0_r.
    unfold write_part in Hpart. apply res_bind_ok in Hpart as (ps & Hps%or_panic_ok & Hpart).
    apply res_bind_ok in Hpart as (w & Hw & Hpart).
    destruct (write_tensors data _ w) as [r w'] eqn:Ht.
    apply res_bind_ok in Hpart as ([] & -> & Hpart). apply res_bind_ok in Hpart as (o & Ho & [= Hn <-]).
    rewrite (proj2 (Nat.eqb_neq total 1)) in Hn by done. split; [done|]. by exists ps, w, w'.
  - destruct (Hk k ids' Hids') as (name' & out' & Hf & Hw). exists name', out'. split; [done|].
    by rewrite Nat.add_succ_r.
Qed.

Lemma part_name_inj stem i j count :
  (1 ≤ i ≤ count)%nat → (1 ≤ j ≤ count)%nat → Z.of_nat count < 100000 →
  part_name stem i count = part_name stem j count → i = j.
Proof.
  intros Hi Hj Hc Heq. pose proof (split_file_info_part stem i count) as H1.
  pose proof (split_file_info_part stem j count) as H2. rewrite Heq in H1.
  rewrite H2 in H1 by lia. specialize (H1 ltac:(lia) ltac:(lia) ltac:(lia)).
  injection H1 as H1. lia.
Qed.

Lemma dir_of_lookup (files : list (bytes * bytes)) k name out :
  files !! k = Some (name, out) → (∀ j f, files !! j = Some f → f.1 = name → j = k) →
  dir_of files name = Some out.
Proof.
  unfold dir_of. revert k. induction files as [|f files IH]; intros k Hk Hu; [done|].
  cbn [List.find]. case_bool_decide as Hf.
  - rewrite <-(Hu 0%nat f eq_refl Hf) in Hk. cbn in Hk. by injection Hk as ->.
  - destruct k as [|k]; [cbn in Hk; by injection Hk as ->|].
    apply (IH k Hk). intros j g Hj Hg. specialize (Hu (S j) g Hj Hg). lia.
Qed.

(** ** Loading them *)

(** A file that parses, whatever was noted before, and says its number. *)
Definition part_file (fs : directory) (name : bytes) (no : Z) (part : GgufPart) : Prop :=
  fs name = Some (pt_data part) ∧ pt_data part ≠ []
  ∧ (∀ nt, ∃ s, init_from_reader (mkReader (pt_data part) 0 (zlen (pt_data part)) nt)
      = (Ok (pt_ctx part), s) ∧ gr_note s = nt)
  ∧ get_key_val_i64 (pt_ctx part) KEY_SPLIT_NO = Some (Some no).

Lemma parse_part_file fs name no part nt :
  part_file fs name no part →
  map_file fs name nt = (Ok (pt_data part), nt) ∧ parse_file (pt_data part) nt = (Ok (pt_ctx part), nt).
Proof.
  intros (Hfs & Hne & Hinit & _). unfold map_file, parse_file. rewrite Hfs, decide_False by done.
  destruct (Hinit nt) as (s & -> & ->). done.
Qed.

Lemma key_usize_some ctx key v d nt :
  get_key_val_i64 ctx key = Some (Some v) → 0 ≤ v < 2 ^ 64 → key_usize ctx key d nt = (Ok v, nt).
Proof.
  intros Hk Hv. unfold key_usize, load_lift, mbind, loader_bind. rewrite Hk. cbn.
  unfold mret, loader_ret, usize_of_i64. by rewrite u64_small.
Qed.

Lemma load_parts_ok fs (names : nat → bytes) parts p nt :
  Z.of_nat (p + length parts) < 2 ^ 64 →
  (∀ k part, parts !! k = Some part → part_file fs (names (p + k)%nat) (Z.of_nat (p + k)) part) →
  load_parts fs (Z.of_nat p) (map names (List.seq p (length parts))) nt = (Ok parts, nt).
Proof.
  revert p. induction parts as [|part parts IH]; intros p Hb Hp; [done|].
  cbn [length List.seq map load_parts]. pose proof (Hp 0%nat part eq_refl) as H0.
  rewrite Nat.add_0_r in H0. destruct (parse_part_file _ _ _ _ nt H0) as [Hm Hi].
  unfold mbind, loader_bind. rewrite Hm, Hi.
  rewrite (key_usize_some _ _ (Z.of_nat p)) by (apply H0 || (cbn [length] in Hb; lia)).
  rewrite Z.eqb_refl. cbn [negb].
  replace (Z.of_nat p + 1) with (Z.of_nat (S p)) by lia. rewrite IH.
  - by destruct part.
  - cbn [length] in Hb. lia.
  - intros k q Hk. specialize (Hp (S k) q Hk). by rewrite Nat.add_succ_r in Hp.
Qed.

(** ** A whole split *)

Lemma list_of_exists {A} (P : nat → A → Prop) n :
  (∀ k, (k < n)%nat → ∃ x, P k x) → ∃ l, length l = n ∧ ∀ k x, l !! k = Some x → P k x.
Proof.
  induction n as [|n IH]; intros H; [by exists []|].
  destruct IH as (l & Hl & Hp); [intros k Hk; apply H; lia|]. destruct (H n) as [x Hx]; [lia|].
  exists (l ++ [x]). split; [rewrite length_app; cbn; lia|]. intros k y Hk.
  apply lookup_app_Some in Hk as [Hk|[Hge Hk]]; [by apply Hp|].
  apply list_lookup_singleton_Some in Hk as [Hk ->]. by replace k with n by lia.
Qed.

Lemma seq_segment n X Y Z : List.seq 0 n = X ++ Y ++ Z → Y = List.seq (length X) (length Y).
Proof.
  intros H. assert (n = (length X + (length Y + length Z))%nat) as ->.
  { rewrite <-!length_app, <-H. by rewrite length_seq. }
  rewrite !seq_app in H. apply app_inj_1 in H as [_ H]; [|by rewrite length_seq].
  by apply app_inj_1 in H as [H _]; [|by rewrite length_seq].
Qed.

Lemma mapM_segment {A} (l : list A) s m ps :
  mapM (λ i, l !! i) (List.seq s m) = Some ps → l = take s l ++ ps ++ drop (s + m) l.
Proof.
  intros H. assert (Hl := length_mapM _ _ _ H). rewrite length_seq in Hl. apply mapM_Some in H.
  assert (Hps : ps = take m (drop s l)).
  { apply list_eq. intros i. destruct (decide (i < m)%nat) as [Hi|Hi].
    - rewrite lookup_take_lt, lookup_drop by done.
      destruct (lookup_lt_is_Some_2 ps i) as [x Hx]; [lia|].
      destruct (Forall2_lookup_r _ _ _ _ _ H Hx) as (y & Hy & Hx').
      rewrite lookup_seq in Hy. destruct Hy as [-> _]. by rewrite Hx.
    - rewrite lookup_take_ge by lia. by rewrite lookup_ge_None_2 by lia. }
  rewrite Hps, <-drop_drop, take_drop. by rewrite take_drop.
Qed.

(** The [k]th part, parsed: its file, its metadata and its tensors. *)
Definition part_holds (kvs : list GgufKv) (specs : list TensorSpec) (a : Z) (data : nat → provider)
    (assignment : list (list nat)) (k : nat) (part : GgufPart) : Prop :=
  ∃ ids ps, assignment !! k = Some ids ∧ mapM (λ i, specs !! i) ids = Some ps
    ∧ file_holds (kvs ++ split_keys k (length assignment) (length specs)) ps a data (zip ids ps)
        (pt_data part) (pt_ctx part).

Lemma split_keys_hit kv k total n :
  ∃ r, strip_split kv ++ split_keys k total n = strip_split kv ++ new_u32 KEY_SPLIT_NO (Z.of_nat k) :: r.
Proof. by eexists. Qed.

Lemma parts_parse stem kv specs a data assignment files :
  concat assignment = List.seq 0 (length specs) → (2 ≤ length assignment)%nat →
  Z.of_nat (length assignment) < 100000 →
  writable (strip_split kv ++ split_keys 0 1 (length specs)) specs a →
  write_parts stem (strip_split kv) specs a data (length assignment) 0 assignment = Ok files →
  ∃ parts, length parts = length assignment ∧ ∀ k part, parts !! k = Some part →
    part_file (dir_of files) (part_name stem (k + 1) (length assignment)) (Z.of_nat k) part
    ∧ part_holds (strip_split kv) specs a data assignment k part.
Proof.
  intros Hconcat Htwo Hmax Hw Hf.
  assert (Hne1 : length assignment ≠ 1%nat) by lia.
  destruct (write_parts_inv _ _ _ _ _ _ _ _ _ Hne1 Hf) as [Hlen Hparts].
  apply (list_of_exists (λ k part, part_file _ _ _ part ∧ part_holds _ _ _ _ _ k part)).
  intros k Hk. destruct (lookup_lt_is_Some_2 assignment k Hk) as [ids Hids].
  destruct (Hparts k ids Hids) as (name & out & Hfile & Hname & ps & w & w' & Hps & Hc & Ht & Hfin).
  cbn [Nat.add] in *. rewrite part_kv_app in Hc.
  assert (Hseg : specs = take (length (concat (take k assignment))) specs ++ ps
      ++ drop (length (concat (take k assignment)) + length ids) specs).
  { apply mapM_segment. rewrite <-(seq_segment (length specs) (concat (take k assignment)) ids
      (concat (drop (S k) assignment))); [done|].
    rewrite <-Hconcat. rewrite <-(take_drop_middle _ _ _ Hids) at 1. by rewrite concat_app. }
  rewrite Hseg in Hw.
  assert (Hland : Z.land a (a - 1) = 0).
  { eapply create_inv; [|exact Hc]. apply Forall_app; split; [|apply split_keys_ok].
    destruct Hw as [[Hall _] _]. by apply Forall_app in Hall as [Hall _]. }
  apply writable_part with (p' := k) (total' := length assignment) (n' := length specs) in Hw as [Hwk _]; [|done].
  assert (Hsnd : map snd (zip ids ps) = ps).
  { apply snd_zip. apply length_mapM in Hps. lia. }
  destruct (file_written _ _ _ _ _ _ _ _ Hwk Hsnd Hc Ht Hfin) as (_ & Hne & ctx & Hholds & Hinit).
  exists (mkPart ctx out). split; [|by exists ids, ps].
  split_and!; [|done|done|].
  - apply (dir_of_lookup _ k); [by rewrite <-Hname|]. intros j [nm o] Hj Hnm. cbn in Hnm. subst nm.
    apply lookup_lt_Some in Hj as Hlt. rewrite Hlen in Hlt.
    destruct (lookup_lt_is_Some_2 assignment j Hlt) as [ids' Hids'].
    destruct (Hparts j ids' Hids') as (name' & out' & Hj' & Hname' & _). cbn [Nat.add] in Hname'.
    rewrite Hj in Hj'. injection Hj' as <- <-. apply part_name_inj in Hname'; lia.
  - destruct (split_keys_hit kv k (length assignment) (length specs)) as [r Hr].
    apply (get_key_u32 _ (strip_split kv) _ _ r).
    + rewrite <-Hr. apply Hholds.
    + rewrite strip_split_keys. naive_solver.
    + lia.
Qed.
