(* ===== verification/GgufProps.v ===== *)
(** * Properties of the GGUF writer, parser and loader

    A file written by [write_single] or a split written by [write_split] loads
    back as what was given to the writer; the assignment of tensors to parts;
    sizes and padding; when writing succeeds. *)
From Stdlib Require Import ZArith String Strings.Byte.
From coqutil Require Import Byte Word.LittleEndianList.
From stdpp Require Import base numbers list gmap option.
From S2P Require Import Prelude Gguf GgufWrite GgufRound GgufLoad GgufFiles GgufSplit GgufParts.
(* [naive_solver] and [set_solver] clear hypotheses that are gone already. *)
#[local] Set Warnings "-clear-no-such-hyp".
Local Open Scope Z_scope.

Lemma single_written kv specs a data name out :
  writable (strip_split kv) specs a →
  write_single kv specs a data = Ok out →
  ∃ ctx, load_gguf_model (dir_of [(name, out)]) name = Ok [mkPart ctx out]
    ∧ file_holds (strip_split kv) specs a data (imap (λ i s, (i, s)) specs) out ctx.
Proof.
  intros Hw H. unfold write_single in H.
  apply res_bind_ok in H as (w & Hc & H).
  destruct (write_tensors data _ w) as [r w'] eqn:Ht. apply res_bind_ok in H as ([] & -> & Hf).
  destruct (file_written _ _ _ _ _ _ _ _ Hw (imap_snd specs) Hc Ht Hf) as (_ & Hne & ctx & Hholds & Hinit).
  exists ctx. split; [|done]. destruct (Hinit None) as (s & Hs & Hnote).
  unfold load_gguf_model, load_gguf_model_inner, mbind, loader_bind.
  rewrite map_file_dir by done. unfold parse_file. rewrite Hs, Hnote.
  unfold key_usize, load_lift, mbind, loader_bind. rewrite (find_kv_none (strip_split kv)).
  - done.
  - apply Hholds.
  - rewrite strip_split_keys. naive_solver.
Qed.

(** C20. What [write_single] writes, [load_gguf_model] loads as one part: the
    same metadata (less the [split.*] keys), the same tensors by name, shape
    and type, each at an aligned offset and with exactly the bytes its
    callback produced. *)
Theorem write_single_roundtrip kv specs a data name out :
  writable (strip_split kv) specs a →
  write_single kv specs a data = Ok out →
  ∃ ctx, load_gguf_model (dir_of [(name, out)]) name = Ok [mkPart ctx out]
    ∧ file_holds (strip_split kv) specs a data (imap (λ i s, (i, s)) specs) out ctx.
Proof.
  apply single_written.
Qed.

(** ** Splits *)

Definition described (s : TensorSpec) : bytes * list Z * GgmlType.t := (ts_name s, ts_ne s, ts_type s).
Definition describes (ti : GgufTensorInfo) : bytes * list Z * GgmlType.t := (ti_name ti, ti_ne ti, ti_type ti).

(** A loaded model says what the writer was given: the tensors in order, the
    metadata in every part, and each tensor's bytes in one of the parts. *)
Definition model_holds (parts : list GgufPart) (kvs : list GgufKv) (specs : list TensorSpec)
    (data : nat → provider) : Prop :=
  concat (map (λ part, map describes (cx_info (pt_ctx part))) parts) = map described specs
  ∧ (∀ part, part ∈ parts → strip_split (cx_kv (pt_ctx part)) = kvs)
  ∧ (∀ i s, specs !! i = Some s → ∃ part ti, part ∈ parts ∧ ti ∈ cx_info (pt_ctx part)
       ∧ describes ti = described s ∧ tensor_bytes part ti = provided (data i) (spec_nbytes s)).

Lemma describes_infos specs offs :
  length offs = length specs → map describes (infos_of specs offs) = map described specs.
Proof.
  revert offs. induction specs as [|s specs IH]; intros [|o offs] H; try done.
  cbn. f_equal. apply IH. by injection H.
Qed.

Lemma holds_describes kvs specs a data ids out ctx :
  file_holds kvs specs a data ids out ctx → map describes (cx_info ctx) = map described specs.
Proof. intros H. rewrite (fh_infos _ _ _ _ _ _ _ H). apply describes_infos, length_offsets. Qed.

Lemma single_holds kv specs a data out ctx :
  file_holds (strip_split kv) specs a data (imap (λ i s, (i, s)) specs) out ctx →
  model_holds [mkPart ctx out] (strip_split kv) specs data.
Proof.
  intros H. split_and!.
  - cbn. rewrite app_nil_r. by eapply holds_describes.
  - intros part ->%list_elem_of_singleton. cbn. rewrite (fh_kv _ _ _ _ _ _ _ H). apply strip_split_idem.
  - intros i s Hs. destruct (fh_tensors _ _ _ _ _ _ _ H i i s) as (ti & Hti & Hn & Hne & Ht & _ & Hb & _).
    { by rewrite list_lookup_imap, Hs. }
    exists (mkPart ctx out), ti. split_and!; [set_solver| |by unfold describes; rewrite Hn, Hne, Ht|done].
    by eapply list_elem_of_lookup_2.
Qed.

Lemma part_describes kvs specs a data assignment k part :
  part_holds kvs specs a data assignment k part →
  ∃ ids, assignment !! k = Some ids
    ∧ map Some (map describes (cx_info (pt_ctx part))) = map (λ i, described <$> specs !! i) ids.
Proof.
  intros (ids & ps & Hids & Hps & Hholds). exists ids. split; [done|].
  rewrite (holds_describes _ _ _ _ _ _ _ Hholds).
  apply mapM_Some in Hps. clear Hids Hholds.
  induction Hps as [|i s ids ps Hi _ IH]; [done|]. cbn [map]. by rewrite Hi, IH.
Qed.

Lemma parts_hold kv specs a data assignment parts :
  concat assignment = List.seq 0 (length specs) → length parts = length assignment →
  (∀ k part, parts !! k = Some part → part_holds (strip_split kv) specs a data assignment k part) →
  model_holds parts (strip_split kv) specs data.
Proof.
  intros Hconcat Hlen Hp. split_and!.
  - apply (inj (map Some)). rewrite concat_map, map_map.
    replace (map (λ part, map Some (map describes (cx_info (pt_ctx part)))) parts)
      with (map (map (λ i, described <$> specs !! i)) assignment).
    + rewrite <-concat_map, Hconcat. apply list_eq. intros i. rewrite !list_lookup_fmap.
      destruct (specs !! i) as [s|] eqn:Hs.
      * rewrite lookup_seq_lt by by eapply lookup_lt_Some. cbn. by rewrite Hs.
      * rewrite lookup_seq_ge by by apply lookup_ge_None_1. done.
    + apply list_eq. intros k. rewrite !list_lookup_fmap. destruct (parts !! k) as [part|] eqn:Hk.
      * destruct (part_describes _ _ _ _ _ _ _ (Hp k part Hk)) as (ids & -> & Hd). cbn. by rewrite Hd.
      * apply lookup_ge_None_1 in Hk. rewrite lookup_ge_None_2; [done|lia].
  - intros part (k & Hk)%list_elem_of_lookup_1. destruct (Hp k part Hk) as (ids & ps & _ & _ & Hh).
    rewrite (fh_kv _ _ _ _ _ _ _ Hh). apply strip_split_part.
  - intros i s Hs. assert (Hin : i ∈ concat assignment).
    { rewrite Hconcat. apply list_elem_of_In, in_seq. apply lookup_lt_Some in Hs. lia. }
    apply list_elem_of_In, in_concat in Hin as (ids & Hids & Hi).
    apply list_elem_of_In, list_elem_of_lookup_1 in Hids as [k Hk].
    apply list_elem_of_In, list_elem_of_lookup_1 in Hi as [j Hj].
    destruct (lookup_lt_is_Some_2 parts k) as [part Hpart]. { rewrite Hlen. by eapply lookup_lt_Some. }
    destruct (Hp k part Hpart) as (ids' & ps & Hk' & Hps & Hh). simplify_eq.
    apply mapM_Some in Hps. destruct (Forall2_lookup_l _ _ _ _ _ Hps Hj) as (s' & Hs' & Hi'). simplify_eq.
    destruct (fh_tensors _ _ _ _ _ _ _ Hh j i s) as (ti & Hti & Hn & Hne & Ht & _ & Hb & _).
    { by apply lookup_zip_Some. }
    exists part, ti. split_and!; [by eapply list_elem_of_lookup_2..|by unfold describes; rewrite Hn, Hne, Ht|].
    by destruct part.
Qed.

Lemma resolve_splits_first stem count :
  (1 ≤ count)%nat → Z.of_nat count < 100000 →
  resolve_splits (part_name stem 1 count)
  = Some (map (λ i, part_name stem (i + 1) count) (List.seq 0 count)).
Proof.
  intros H1 Hc. unfold resolve_splits. rewrite split_file_info_part by lia. cbn [mbind option_bind].
  change (Z.of_nat 1 - 1 =? 0) with true. by rewrite Nat2Z.id.
Qed.

Lemma load_split fs stem kv specs a data assignment parts :
  length parts = length assignment → (2 ≤ length assignment)%nat → Z.of_nat (length assignment) < 100000 →
  (∀ k part, parts !! k = Some part →
    part_file fs (part_name stem (k + 1) (length assignment)) (Z.of_nat k) part
    ∧ part_holds (strip_split kv) specs a data assignment k part) →
  load_gguf_model fs (part_name stem 1 (length assignment)) = Ok parts.
Proof.
  intros Hlen Htwo Hmax Hp. destruct (lookup_lt_is_Some_2 parts 0) as [part Hpart]; [lia|].
  destruct (Hp 0%nat part Hpart) as [Hfile (ids & ps & _ & _ & Hh)].
  destruct (parse_part_file _ _ _ _ None Hfile) as [Hm Hi].
  assert (Hcount : get_key_val_i64 (pt_ctx part) KEY_SPLIT_COUNT = Some (Some (Z.of_nat (length assignment)))).
  { apply (get_key_u32 _ (strip_split kv ++ [new_u32 KEY_SPLIT_NO (Z.of_nat 0)]) _ _
      [new_u32 KEY_SPLIT_TENSORS_COUNT (Z.of_nat (length specs))]); [|..|lia].
    - rewrite (fh_kv _ _ _ _ _ _ _ Hh), <-app_assoc. done.
    - rewrite map_app, elem_of_app, strip_split_keys. cbn. rewrite list_elem_of_singleton.
      pose proof split_keys_distinct. naive_solver. }
  unfold load_gguf_model, load_gguf_model_inner, mbind, loader_bind. cbn [Nat.add] in *. rewrite Hm, Hi.
  rewrite (key_usize_some _ _ _ _ _ Hcount) by lia.
  rewrite (proj2 (Z.leb_gt _ 1)) by lia.
  rewrite (key_usize_some _ _ 0 _ _) by (apply Hfile || lia). cbn [Z.eqb negb].
  rewrite resolve_splits_first by lia. rewrite length_map, length_seq, Z.eqb_refl. cbn [negb].
  replace (List.seq 0 (length assignment)) with (List.seq 0 (length parts)) by by rewrite Hlen.
  change 0 with (Z.of_nat 0).
  rewrite (load_parts_ok fs (λ i, part_name stem (i + 1) (length assignment))); [done|lia|].
  intros k q Hq. apply (Hp k q Hq).
Qed.

Lemma writable_whole kv n specs a :
  Z.land a (a - 1) = 0 →
  writable (strip_split kv ++ split_keys 0 1 n) specs a → writable (strip_split kv) specs a.
Proof.
  intros Hl Hw. pose proof (writable_part (strip_split kv) 0 1 n 0 1 n [] specs [] a Hl) as H.
  rewrite app_nil_r in H. by destruct (H Hw).
Qed.

Lemma first_too_big a cap specs :
  Forall (λ s, padded a s ≤ cap) specs
  ∨ ∃ pre s post, specs = pre ++ s :: post ∧ Forall (λ t, padded a t ≤ cap) pre ∧ cap < padded a s.
Proof.
  induction specs as [|s specs IH]; [by left|]. destruct (Z.le_gt_cases (padded a s) cap) as [Hs|Hs].
  - destruct IH as [IH|(pre & t & post & -> & Hpre & Ht)]; [left; by constructor|right].
    exists (s :: pre), t, post. split_and!; [done|by constructor|done].
  - right. exists [], s, specs. split_and!; [done|constructor|done].
Qed.

Lemma padded_nonneg a s : 0 ≤ padded a s.
Proof. unfold padded, ggml_pad, u64. apply Z.land_nonneg. left. apply Z.mod_pos_bound. lia. Qed.

(** Splitting: what an assignment is, and when there is none. *)
Definition split_spec (specs : list TensorSpec) (a cap : Z) (r : res GgufWriteError (list (list nat))) : Prop :=
  match r with
  | Ok parts => specs ≠ [] ∧ Forall (λ s, padded a s ≤ cap) specs
      ∧ concat parts = List.seq 0 (length specs) ∧ greedy a cap specs parts
  | Err e => (specs = [] ∧ e = SplitEmpty)
      ∨ ∃ pre s post, specs = pre ++ s :: post ∧ Forall (λ t, padded a t ≤ cap) pre ∧ cap < padded a s
        ∧ e = SplitTensorTooBig (ts_name s) (padded a s) cap
  | Panic => False
  end.

Lemma split_assignment_spec specs a cap :
  data_len a specs < 2 ^ 64 → split_spec specs a cap (split_assignment specs a cap).
Proof.
  intros Htot. unfold split_assignment. destruct (decide (specs = [])) as [->|Hne]; [by left|].
  destruct (first_too_big a cap specs) as [Hf|(pre & s & post & -> & Hpre & Hs)].
  - destruct (assign_loop_ok a cap specs (λ s _, padded_nonneg a s) Htot [] specs [] [] 0 eq_refl)
      as (parts & Hp & Hc & Hg); [by split|done|].
    cbn [length] in Hp. rewrite Hp. cbn. auto.
  - rewrite assign_loop_too_big by done. right. by exists pre, s, post.
Qed.

(** C21. What [write_split] writes under a cap, in one file or many,
    [load_gguf_model] loads from the first file: the tensors in the caller's
    order across the parts, the caller's metadata (less the [split.*] keys) in
    every part, and each tensor's bytes as its callback produced them. *)
Theorem write_split_roundtrip stem kv specs a cap data files :
  writable (part_kv (strip_split kv) 0 1 (length specs)) specs a →
  good_alignment a → Z.of_nat (length files) < 100000 →
  write_split stem kv specs a cap data = Ok files →
  ∃ first parts, head (map fst files) = Some first
    ∧ load_gguf_model (dir_of files) first = Ok parts
    ∧ length parts = length files
    ∧ model_holds parts (strip_split kv) specs data.
Proof.
  rewrite part_kv_app. intros Hw [Ha Hland] Hmax H. unfold write_split in H.
  destruct (cap =? 0); [done|]. apply res_bind_ok in H as (assignment & Has & H).
  assert (Hspec : split_spec specs a cap (Ok assignment)).
  { rewrite <-Has. apply split_assignment_spec. destruct Hw as (_ & _ & _ & _ & Hfit). unfold fits, FILE_MAX in Hfit. lia. }
  destruct Hspec as (Hne & _ & Hconcat & Hgreedy).
  destruct (Nat.eqb_spec (length assignment) 1) as [H1|H1].
  - apply res_bind_ok in H as (out & Hs & [= <-]).
    destruct (single_written kv specs a data (single_name stem) out) as (ctx & Hload & Hh);
      [by eapply writable_whole|done|].
    exists (single_name stem), [mkPart ctx out]. split_and!; try done. by eapply single_holds.
  - assert (Htwo : (2 ≤ length assignment)%nat).
    { destruct assignment as [|? [|]]; cbn in *; try lia. destruct specs; [done|]. done. }
    destruct (write_parts_inv _ _ _ _ _ _ _ _ _ H1 H) as [Hlen _].
    destruct (parts_parse stem kv specs a data assignment files) as (parts & Hlp & Hp); [done..|lia|done|done|].
    exists (part_name stem 1 (length assignment)), parts. split_and!; [| |lia|].
    + destruct assignment as [|ids rest]; [cbn in Htwo; lia|].
      destruct (write_parts_inv _ _ _ _ _ _ _ _ _ H1 H) as [_ Hparts].
      destruct (Hparts 0%nat ids eq_refl) as (name & out & Hf & Hn & _).
      destruct files; [done|]. cbn in Hf. injection Hf as ->. cbn. by rewrite Hn.
    + eapply load_split; [done|done|lia|]. exact Hp.
    + eapply parts_hold; [done|done|]. intros k part Hk. by apply Hp.
Qed.

(** ** When writing succeeds *)

(** What [validate_specs] asks of one tensor. *)
Definition spec_valid (s : TensorSpec) : Prop :=
  zlen (ts_name s) < 64 ∧ Z.rem (nth_z (ts_ne s) 0) (GgmlType.blck_size (ts_type s)) = 0
  ∧ 1 ≤ nth_z (ts_ne s) 1 ∧ 1 ≤ nth_z (ts_ne s) 2 ∧ 1 ≤ nth_z (ts_ne s) 3.

Lemma validate_spec_iff prev s :
  validate_spec prev s = Ok () ↔ spec_valid s ∧ ts_name s ∉ map ts_name prev.
Proof.
  unfold validate_spec, spec_valid.
  destruct (Z.leb_spec 64 (zlen (ts_name s))); [split; [done|lia]|].
  pose proof (blck_size_pos (ts_type s)). rewrite (proj2 (Z.eqb_neq (GgmlType.blck_size _) 0)) by lia.
  destruct (Z.eqb_spec (Z.rem (nth_z (ts_ne s) 0) (GgmlType.blck_size (ts_type s))) 0); cbn [orb negb];
    [|split; [done|naive_solver]].
  pose proof (check_dims_ok (ts_name s) (ts_ne s) [1; 2; 3]%nat) as Hd.
  rewrite !list.Forall_cons, list.Forall_nil in Hd.
  assert (Hin : existsb (λ p, bool_decide (ts_name p = ts_name s)) prev = true ↔ ts_name s ∈ map ts_name prev).
  { rewrite existsb_exists, list_elem_of_fmap. setoid_rewrite bool_decide_eq_true.
    setoid_rewrite <-list_elem_of_In. naive_solver. }
  destruct (check_dims _ _ _) as [[]|err|]; cbn; [|split; [done|naive_solver]..].
  destruct (existsb _ prev); [split; [done|naive_solver]|].
  assert (ts_name s ∉ map ts_name prev) by (intros Hc; by apply Hin in Hc). naive_solver.
Qed.

Lemma validate_loop_iff prev specs :
  validate_loop prev specs = Ok () ↔
  Forall spec_valid specs ∧ NoDup (map ts_name specs) ∧ ∀ n, n ∈ map ts_name prev → n ∉ map ts_name specs.
Proof.
  revert prev. induction specs as [|s specs IH]; intros prev; cbn [validate_loop map].
  { split; [|done]. intros _. split_and!; [constructor|constructor|intros n _; apply not_elem_of_nil]. }
  rewrite list.Forall_cons, list.NoDup_cons. split.
  - intros ([] & Hs%validate_spec_iff & H%IH)%res_bind_ok. rewrite map_app in H.
    destruct H as (Hf & Hnd & Hne). destruct Hs as [Hv Hs]. split_and!; [done|done| |done|].
    + apply Hne. set_solver.
    + intros n Hn. rewrite not_elem_of_cons. split; [set_solver|]. apply Hne. set_solver.
  - intros ([Hs Hf] & [Hnin Hnd] & Hne). apply res_bind_ok. exists (). split.
    + apply validate_spec_iff. split; [done|]. intros Hc. apply (Hne _ Hc). by left.
    + apply IH. split_and!; [done..|]. intros n. rewrite map_app. set_solver.
Qed.

(** C23. [validate_specs] accepts a list of tensors exactly when every one has
    a short name, rows of whole blocks and positive outer extents, and no two
    share a name. *)
Theorem validate_specs_iff specs :
  validate_specs specs = Ok () ↔ Forall spec_valid specs ∧ NoDup (map ts_name specs).
Proof. unfold validate_specs. rewrite validate_loop_iff. set_solver. Qed.

Lemma spec_ok_valid specs : Forall spec_ok specs → Forall spec_valid specs.
Proof.
  apply Forall_impl. intros s (_ & Hl & Hd). unfold spec_valid, GGML_MAX_NAME in *.
  assert (Hr := Hd). destruct Hr as (_ & _ & Hr & _).
  destruct (dims_ok_elim _ _ Hd) as (n0 & n1 & n2 & n3 & He & H). destruct_and! H.
  split_and!; [lia|done|by rewrite He..].
Qed.

Lemma create_ok kvs specs a :
  Forall kv_ok kvs → Forall spec_ok specs → NoDup (map ts_name specs) → good_alignment a →
  create kvs specs a
  = Ok (mkWriter (resize (ggml_pad (zlen (header kvs specs a)) a) (header kvs specs a)) specs a 0).
Proof.
  intros Hkvs Hspecs Hnd [Ha Hland]. unfold create, validate_specs.
  assert (Hv : validate_loop [] specs = Ok ()).
  { apply validate_loop_iff. split_and!; [by apply spec_ok_valid|done|]. intros n Hn. by apply not_elem_of_nil in Hn. }
  rewrite Hv. cbn [mbind res_bind]. rewrite (proj2 (Z.eqb_neq a 0)), Hland by lia. cbn [orb negb Z.eqb].
  by rewrite encode_kvs_ok.
Qed.

Lemma imap_pairs_forall {A} (P : nat → A → Prop) l :
  Forall (λ p, P p.1 p.2) (imap (λ i s, (i, s)) l) ↔ ∀ i s, l !! i = Some s → P i s.
Proof.
  rewrite Forall_lookup. split.
  - intros H i s Hs. apply (H i (i, s)). by rewrite list_lookup_imap, Hs.
  - intros H i [j s] Hp. rewrite list_lookup_imap in Hp.
    destruct (l !! i) eqn:Hl; [|done]. cbn in Hp. injection Hp as <- <-. by apply H.
Qed.

(** [create] on any input whose metadata can be encoded at all. *)
Lemma create_iff kvs specs a w :
  create kvs specs a = Ok w ↔
  (Forall spec_valid specs ∧ NoDup (map ts_name specs)) ∧ (a ≠ 0 ∧ Z.land a (a - 1) = 0) ∧
  ∃ enc, encode_kvs kvs = Some enc ∧
    let header := header_bytes enc (length kvs) specs a in
    w = mkWriter (resize (ggml_pad (zlen header) a) header) specs a 0.
Proof.
  unfold create. rewrite res_bind_ok. unfold validate_specs.
  split.
  - intros ([] & Hv & H). apply validate_loop_iff in Hv. destruct (Z.eqb_spec a 0); [done|].
    destruct (Z.eqb_spec (Z.land a (a - 1)) 0); cbn in H; [|done].
    apply res_bind_ok in H as (enc & Henc%or_panic_ok & [= <-]). naive_solver.
  - intros ([Hv Hnd] & [Ha Hland] & enc & Henc & ->). exists (). split.
    + apply validate_loop_iff. split_and!; [done..|]. intros n Hn. by apply not_elem_of_nil in Hn.
    + rewrite (proj2 (Z.eqb_neq a 0)), Hland by done. cbn. by rewrite Henc.
Qed.

Lemma spec_nbytes_nonneg s : 0 ≤ spec_nbytes s.
Proof. unfold spec_nbytes, payload_size, u64. apply Z.mod_pos_bound. lia. Qed.

(** A tensor of the data section: what its callback delivers, padded. *)
Definition delivered (a : Z) (data : nat → provider) (p : nat * TensorSpec) : option bytes :=
  b ← payload (data p.1) (spec_nbytes p.2);
  Some (b ++ zeros (u64 (ggml_pad (spec_nbytes p.2) a - spec_nbytes p.2))).

Lemma delivered_iff a data ids blocks :
  Forall (λ p, offered (data p.1) (spec_nbytes p.2) < 2 ^ 64) ids →
  mapM (delivered a data) ids = Some blocks ↔
  Forall (λ p, exact (data p.1) (spec_nbytes p.2)) ids ∧ blocks = map (block a data) ids.
Proof.
  intros Hsz. revert blocks. induction Hsz as [|p ids Hp Hsz IH]; intros blocks; cbn [mapM map].
  { split; [by intros [= <-]|by intros [_ ->]]. }
  pose proof (exact_payload (data p.1) (spec_nbytes p.2) (spec_nbytes_nonneg _) Hp) as He.
  pose proof (run_provider_payload (data p.1) [] _ 0 (spec_nbytes_nonneg p.2) ltac:(lia) Hp) as Hr.
  assert (Hd : delivered a data p = (λ b, b ++ zeros (u64 (ggml_pad (spec_nbytes p.2) a - spec_nbytes p.2)))
    <$> payload (data p.1) (spec_nbytes p.2)) by (unfold delivered; by destruct (payload _ _)).
  rewrite list.Forall_cons, Hd. destruct (payload (data p.1) (spec_nbytes p.2)) as [x|]; cbn [fmap option_fmap option_map mbind option_bind].
  - assert (block a data p = x ++ zeros (u64 (ggml_pad (spec_nbytes p.2) a - spec_nbytes p.2))) as ->.
    { unfold block, provided. destruct (run_provider _ _) as [ok s]. cbn in *. by destruct Hr as [_ ->]. }
    assert (exact (data p.1) (spec_nbytes p.2)).
    { apply He. unfold provided. destruct (run_provider _ _) as [ok s]. cbn in *. by destruct Hr as [_ ->]. }
    destruct (mapM (delivered a data) ids) as [bs|]; cbn; split; try done.
    + intros [= <-]. by destruct (proj1 (IH bs) eq_refl) as [? ->].
    + intros [[_ Hf] ->]. by injection (proj2 (IH _) (conj Hf eq_refl)) as ->.
    + intros [[_ Hf] ->]. discriminate (proj2 (IH _) (conj Hf eq_refl)).
  - split; [done|]. intros [[Hx%He _] _]. done.
Qed.

(** C22. [write_single] writes a file exactly when every tensor is valid, no two
    share a name, the alignment is a power of two, the metadata can be encoded
    and every callback succeeds after handing over exactly the declared number
    of bytes (one that hands over less or more, in however many writes, or
    reports an error is refused); and then the file is the padded header and
    the callbacks' bytes in order, each padded.  The bytes a callback hands
    over in all are counted in 64 bits. *)
Theorem write_single_iff kv specs a data out :
  Forall (λ p, offered (data p.1) (spec_nbytes p.2) < 2 ^ 64) (imap pair specs) →
  write_single kv specs a data = Ok out ↔
  Forall spec_valid specs ∧ NoDup (map ts_name specs) ∧ a ≠ 0 ∧ Z.land a (a - 1) = 0 ∧
  ∃ enc blocks, encode_kvs (strip_split kv) = Some enc ∧
    mapM (delivered a data) (imap pair specs) = Some blocks ∧
    let header := header_bytes enc (length (strip_split kv)) specs a in
    out = resize (ggml_pad (zlen header) a) header ++ concat blocks.
Proof.
  intros Hsz. unfold write_single. rewrite res_bind_ok. change (λ i s, (i, s)) with (@pair nat TensorSpec).
  split.
  - intros (w & ([Hv Hnd] & [Ha Hland] & enc & Henc & ->)%create_iff & H).
    destruct (write_tensors data _ _) as [r w'] eqn:Ht. apply res_bind_ok in H as ([] & -> & Hf).
    apply write_tensors_iff in Ht as [He ->]. unfold finish in Hf. cbn in Hf.
    rewrite length_imap, Nat.eqb_refl in Hf. injection Hf as <-. split_and!; [done..|].
    exists enc, (map (block a data) (imap pair specs)). split_and!; [done|by apply delivered_iff|done].
  - intros (Hv & Hnd & Ha & Hland & enc & blocks & Henc & Hb & ->).
    apply delivered_iff in Hb as [He ->]; [|done]. eexists. split; [apply create_iff; naive_solver|].
    rewrite (proj2 (write_tensors_iff _ _ _ _) (conj He eq_refl)). cbn [mbind res_bind].
    unfold finish. cbn [gw_next gw_specs gw_out Nat.add]. rewrite length_imap, Nat.eqb_refl. done.
Qed.

(** C24. [split_assignment] hands out the tensors in order, none twice and none
    lost, in non-empty parts within the cap, closing a part only when the next
    tensor does not fit; it fails exactly on an empty list and on a tensor
    larger than the cap, naming the first. *)
Theorem split_assignment_correct specs a cap :
  data_len a specs < 2 ^ 64 → split_spec specs a cap (split_assignment specs a cap).
Proof. apply split_assignment_spec. Qed.

(** C25. The file name of a split's part parses back to the stem, the part's
    index and the count, whatever dashes the stem contains. *)
Theorem split_file_info_roundtrip stem i count :
  (1 ≤ i ≤ count)%nat → Z.of_nat count < 100000 →
  split_file_info (part_name stem i count) = Some (stem, Z.of_nat i - 1, Z.of_nat count).
Proof. intros [H1 H2] Hc. by apply split_file_info_part. Qed.

(** For a tensor within the limits of [spec_ok] (its bytes stay below
    [FILE_MAX], 2^56) the bytes it occupies by its strides ([ggml_nbytes]) are
    the bytes its element count gives ([nbytes]), whatever the type.  Beyond
    them [ggml_nbytes] can wrap: [GgufSafe.wide_row_accepted]. *)
Theorem nbytes_by_strides s off :
  spec_ok s →
  ggml_nbytes (info_of s off) = nbytes (info_of s off)
  ∧ nbytes (info_of s off) * GgmlType.blck_size (ts_type s)
    = GgmlType.type_size (ts_type s) * (nth_z (ts_ne s) 0 * nth_z (ts_ne s) 1 * nth_z (ts_ne s) 2 * nth_z (ts_ne s) 3)
  ∧ 1 ≤ nbytes (info_of s off) < FILE_MAX.
Proof.
  intros Hs. change (nbytes (info_of s off)) with (spec_nbytes s).
  destruct (nbytes_exact s off Hs) as (H1 & H2 & H3). split_and!; [done| |lia|lia].
  rewrite H2. destruct Hs as (_ & _ & Hd).
  destruct (rows_elim _ _ Hd) as (n0 & n1 & n2 & n3 & q & -> & Hn & H). destruct_and! H.
  unfold nth_z. cbn [lookup list_lookup from_option id].
  pose proof (blck_size_pos (ts_type s)). cbn -[Z.div Z.mul].
  rewrite Hn, (Z.mul_comm _ q), Z.div_mul by lia. lia.
Qed.

(** ** A concrete file *)

Module Demo.
Definition kv : list GgufKv :=
  [new_string (bstr "general.architecture") (bstr "llama");
   new_u32 (bstr "general.alignment") 64;
   new_u32 (bstr "split.no") 7;
   new_string_array (bstr "tokenizer.ggml.tokens") [bstr "<s>"; bstr "a"; bstr "b"];
   new_array (bstr "general.flags") GgufType.Bool [byte.of_Z 1; byte.of_Z 0];
   new_array (bstr "rope.scales") GgufType.Float32 (zeros 8)].
Definition specs : list TensorSpec :=
  [mkSpec (bstr "token_embd.weight") [3; 2; 1; 1] GgmlType.F32;
   mkSpec (bstr "blk.0.attn_q.weight") [64; 1; 1; 1] GgmlType.Q4_0;
   mkSpec (bstr "output.weight") [5; 1; 2; 1] GgmlType.F16].
Definition payload (n : nat) (c : Z) : bytes := map (λ i, byte.of_Z (c + Z.of_nat i)) (List.seq 0 n).
(** The first tensor in two writes, the others whole. *)
Definition data (i : nat) : provider :=
  match i with
  | 0%nat => PWrite (payload 10 1) (λ ok, if ok then PWrite (payload 14 11) PDone else PDone false)
  | 1%nat => PWrite (payload 36 100) PDone
  | _ => PWrite (payload 20 200) PDone
  end.
Definition file : bytes := match write_single kv specs 64 data with Ok o => o | _ => [] end.
Definition files : list (bytes * bytes) :=
  match write_split (bstr "m-of-2") kv specs 64 128 data with Ok o => o | _ => [] end.
End Demo.

Ltac by_computation := apply (bool_decide_unpack _); vm_compute; exact I.

Lemma write_single_roundtrip_witness :
  writable (strip_split Demo.kv) Demo.specs 64
  ∧ write_single Demo.kv Demo.specs 64 Demo.data = Ok Demo.file
  ∧ ∃ ctx, load_gguf_model (dir_of [(bstr "m.gguf", Demo.file)]) (bstr "m.gguf") = Ok [mkPart ctx Demo.file]
    ∧ file_holds (strip_split Demo.kv) Demo.specs 64 Demo.data (imap (λ i s, (i, s)) Demo.specs)
        Demo.file ctx.
Proof.
  assert (Hw : writable (strip_split Demo.kv) Demo.specs 64) by by_computation.
  assert (Hf : write_single Demo.kv Demo.specs 64 Demo.data = Ok Demo.file) by (vm_compute; reflexivity).
  split; [exact Hw|split; [exact Hf|]]. exact (write_single_roundtrip _ _ _ _ _ _ Hw Hf).
Defined.

Lemma write_split_roundtrip_witness :
  length Demo.files = 2%nat
  ∧ ∃ first parts, head (map fst Demo.files) = Some first
    ∧ load_gguf_model (dir_of Demo.files) first = Ok parts
    ∧ length parts = length Demo.files
    ∧ model_holds parts (strip_split Demo.kv) Demo.specs Demo.data.
Proof.
  split; [vm_compute; reflexivity|].
  apply (write_split_roundtrip (bstr "m-of-2") Demo.kv Demo.specs 64 128 Demo.data).
  - by_computation.
  - split; [split; reflexivity|reflexivity].
  - reflexivity.
  - vm_compute; reflexivity.
Defined.

Lemma write_single_iff_witness :
  write_single Demo.kv Demo.specs 64 Demo.data = Ok Demo.file
  ∧ Forall spec_valid Demo.specs ∧ NoDup (map ts_name Demo.specs)
  ∧ ∀ out, write_single Demo.kv (Demo.specs ++ Demo.specs) 64 Demo.data ≠ Ok out.
Proof.
  assert (Hf : write_single Demo.kv Demo.specs 64 Demo.data = Ok Demo.file) by (vm_compute; reflexivity).
  assert (Hs : Forall (λ p, offered (Demo.data p.1) (spec_nbytes p.2) < 2 ^ 64) (imap pair Demo.specs))
    by by_computation.
  assert (Ht : Forall (λ p, offered (Demo.data p.1) (spec_nbytes p.2) < 2 ^ 64)
    (imap pair (Demo.specs ++ Demo.specs))) by by_computation.
  split; [exact Hf|].
  destruct (proj1 (write_single_iff Demo.kv Demo.specs 64 Demo.data Demo.file Hs) Hf) as (H1 & H2 & _).
  split; [exact H1|split; [exact H2|]]. intros out H.
  destruct (proj1 (write_single_iff Demo.kv (Demo.specs ++ Demo.specs) 64 Demo.data out Ht) H) as (_ & Hnd & _).
  apply (bool_decide_pack _) in Hnd. vm_compute in Hnd. exact Hnd.
Defined.

Lemma split_assignment_correct_witness :
  split_assignment Demo.specs 64 128 = Ok [[0; 1]; [2]]%nat
  ∧ split_spec Demo.specs 64 128 (split_assignment Demo.specs 64 128).
Proof. split; [reflexivity|]. apply split_assignment_correct. reflexivity. Defined.

Lemma split_file_info_roundtrip_witness :
  split_file_info (part_name (bstr "a-of-b-") 3 12) = Some (bstr "a-of-b-", 2, 12).
Proof. apply (split_file_info_roundtrip (bstr "a-of-b-") 3 12); [lia|reflexivity]. Defined.

Lemma nbytes_by_strides_witness :
  let s := mkSpec (bstr "w") [64; 3; 2; 1] GgmlType.Q4_0 in
  ggml_nbytes (info_of s 0) = nbytes (info_of s 0)
  ∧ nbytes (info_of s 0) * GgmlType.blck_size (ts_type s)
    = GgmlType.type_size (ts_type s) * (nth_z (ts_ne s) 0 * nth_z (ts_ne s) 1 * nth_z (ts_ne s) 2 * nth_z (ts_ne s) 3)
  ∧ 1 ≤ nbytes (info_of s 0) < FILE_MAX.
Proof. apply (nbytes_by_strides _ 0). by_computation. Defined.
