(* ===== verification/GgufSafe.v ===== *)
(** * What every accepted GGUF file satisfies

    [yields m Q]: whenever the parser [m] returns a value, from any reader, it
    satisfies [Q] (and the file is the same).  The parser's checks, collected
    through its loops, are the invariant of the contexts it returns; the
    inputs on which the checks fall short are at the end. *)
From Stdlib Require Import ZArith String Strings.Byte.
From coqutil Require Import Byte Word.LittleEndianList.
From stdpp Require Import base numbers list gmap option.
From S2P Require Import Prelude Gguf GgufWrite GgufRound GgufLoad GgufFiles GgufParts GgufProps.
Local Open Scope Z_scope.

Definition yields {A} (m : parser A) (Q : A → Prop) : Prop :=
  ∀ s v s', m s = (Ok v, s') → gr_data s' = gr_data s ∧ Q v.

Lemma yields_impl {A} (m : parser A) (P Q : A → Prop) : yields m P → (∀ v, P v → Q v) → yields m Q.
Proof. intros H HPQ s v s' Hm. destruct (H _ _ _ Hm). auto. Qed.

Lemma yields_ret {A} (v : A) (Q : A → Prop) : Q v → yields (mret v) Q.
Proof. intros H s w s' [= <- <-]. done. Qed.

Lemma yields_bind {A B} (m : parser A) (f : A → parser B) P Q :
  yields m P → (∀ v, P v → yields (f v) Q) → yields (m ≫= f) Q.
Proof.
  intros Hm Hf s v s'. unfold mbind, parser_bind. destruct (m s) as [[w| |] s1] eqn:H; [|done..].
  intros Hv. destruct (Hm _ _ _ H) as [Hd Hw]. destruct (Hf _ Hw _ _ _ Hv) as [Hd' Hq].
  by rewrite Hd', Hd.
Qed.

Lemma yields_fail {A} (Q : A → Prop) : yields fail Q.
Proof. by intros s v s' H. Qed.
Lemma yields_panic {A} (Q : A → Prop) : yields panic Q.
Proof. by intros s v s' H. Qed.
Lemma yields_refuse {A} n (Q : A → Prop) : yields (refuse n) Q.
Proof. by intros s v s' H. Qed.
Lemma yields_or_note {A} (m : parser A) n Q : yields m Q → yields (or_note m n) Q.
Proof.
  intros Hm s v s'. unfold or_note. destruct (m s) as [[w| |] s1] eqn:H; [|done..].
  intros [= <- <-]. by apply Hm.
Qed.
Lemma yields_lift {A} (o : option A) : yields (lift o) (λ v, o = Some v).
Proof. intros s v s'. unfold lift. destruct o; cbn; [|done]. by intros [= <- <-]. Qed.
Lemma yields_get : yields get_state (λ _, True).
Proof. by intros s v s' [= <- <-]. Qed.

Create HintDb yields.
#[export] Hint Resolve yields_fail yields_panic yields_refuse yields_lift yields_get : yields.

Lemma yields_for {A} n (f : A → parser A) (I : A → Prop) a :
  (∀ x, I x → yields (f x) I) → I a → yields (for_z n f a) I.
Proof.
  intros Hf Ha. assert (Hn : ∀ k x, I x → yields (iter_nat k f x) I).
  { induction k as [|k IH]; intros x Hx; cbn [iter_nat]; [by apply yields_ret|].
    eapply yields_bind; [by apply Hf|]. intros y Hy. by apply IH. }
  intros s v s' Hr. destruct n as [|p|p].
  - by injection Hr as <- <-.
  - cbn [for_z] in Hr. rewrite iter_pos_nat in Hr. by eapply Hn.
  - by injection Hr as <- <-.
Qed.

(** ** The small readers *)

Lemma yields_raw n : yields (read_raw n) (λ _, True).
Proof.
  intros s v s'. unfold read_raw. destruct (n =? 0); [by intros [= <- <-]|].
  case_match; [done|]. by intros [= <- <-].
Qed.
#[export] Hint Resolve yields_raw : yields.

Lemma yields_val n : yields (read_val n) (λ _, True).
Proof.
  eapply yields_bind; [apply yields_get|]. intros s _. case_match; [apply yields_fail|].
  eapply yields_bind; [apply yields_raw|]. intros bs _.
  case_match; [apply yields_fail|by apply yields_ret].
Qed.

Lemma yields_any {A B} (m : parser A) (f : A → B) : yields m (λ _, True) → yields (x ← m; mret (f x)) (λ _, True).
Proof. intros H. eapply yields_bind; [exact H|]. intros v _. by apply yields_ret. Qed.

Lemma yields_val_signed n : yields (read_val_signed n) (λ _, True).
Proof. apply yields_any, yields_val. Qed.

Lemma yields_string : yields read_string (λ _, True).
Proof.
  eapply yields_bind; [apply yields_val|]. intros n _. eapply yields_bind; [apply yields_get|]. intros s _.
  do 2 (case_match; [apply yields_refuse|]). eapply yields_bind; [apply yields_raw|]. intros bs _.
  case_match; [apply yields_fail|by apply yields_ret].
Qed.

Lemma yields_pushes {A} n (m : parser A) l : yields m (λ _, True) → yields (for_z n (push_val m) l) (λ _, True).
Proof. intros H. apply yields_for; [|done]. intros x _. by apply yields_any. Qed.

Lemma yields_vec size n : yields (read_vec size n) (λ _, True).
Proof.
  unfold read_vec. case_match; [apply yields_fail|]. eapply yields_bind; [apply yields_get|]. intros s _.
  case_match; [apply yields_fail|]. apply yields_any, yields_pushes, yields_val.
Qed.

Lemma yields_string_vec n : yields (read_string_vec n) (λ _, True).
Proof.
  unfold read_string_vec. case_match; [apply yields_fail|]. eapply yields_bind; [apply yields_get|]. intros s _.
  case_match; [apply yields_fail|]. apply yields_any, yields_pushes, yields_string.
Qed.

Lemma yields_tag {T} (from : Z → option T) : yields (v ← read_val_signed 4; lift (from v)) (λ _, True).
Proof.
  eapply yields_bind; [apply yields_val_signed|]. intros v _. eapply yields_impl; [apply yields_lift|done].
Qed.
#[export] Hint Resolve yields_val yields_val_signed yields_string yields_vec yields_string_vec : yields.

(** ** The tables *)

Lemma yields_version : yields read_version (λ v, v = 2 ∨ v = 3).
Proof.
  assert (H : ∀ s v s', read_val 4 s = (Ok v, s') → 0 ≤ v).
  { intros s v s'. unfold read_val, mbind, parser_bind, get_state. case_match; [done|].
    destruct (read_raw _ s) as [[bs| |] s1]; [|done..]. case_match; [done|]. intros [= <- _].
    apply le_combine_range. }
  intros s v s'. unfold read_version, mbind, parser_bind.
  pose proof (yields_val 4) as Hy.
  destruct (read_val 4 s) as [[w| |] s1] eqn:Hw; [|done..]. destruct (Hy _ _ _ Hw) as [Hd _]. apply H in Hw.
  destruct (Z.eqb_spec w 0); [done|]. destruct (Z.eqb_spec (Z.land w 65535) 0); [done|].
  destruct (Z.eqb_spec w 1); [done|]. unfold GGUF_VERSION. destruct (Z.ltb_spec 3 w); [done|].
  intros [= <- <-]. split; [done|lia].
Qed.

Lemma index_of_absent {A B} `{EqDecision B} (key : A → B) k j l :
  index_of (λ p, bool_decide (k = key p)) j l = None → k ∉ map key l.
Proof.
  revert j. induction l as [|x l IH]; intros j; cbn [index_of map]; [intros _; apply not_elem_of_nil|].
  case_bool_decide as Hk; [done|]. intros H%IH. set_solver.
Qed.

Lemma NoDup_snoc {A} (l : list A) x : NoDup l → x ∉ l → NoDup (l ++ [x]).
Proof.
  intros Hl Hx. apply list.NoDup_app. split_and!; [done| |apply NoDup_singleton].
  intros y Hy ->%list_elem_of_singleton. done.
Qed.

Lemma yields_kv_value key ty is_array n : yields (read_kv_value key ty is_array n) (λ kv, kv_key kv = key).
Proof.
  assert (Hl : ∀ A (m : parser A) (f : A → GgufKv), yields m (λ _, True) → (∀ v, kv_key (f v) = key) →
    yields (v ← m; mret (f v)) (λ kv, kv_key kv = key)).
  { intros A m f Hm Hf. eapply yields_bind; [exact Hm|]. intros v _. by apply yields_ret. }
  unfold read_kv_value, read_num, read_bool. destruct ty, is_array; try (apply Hl; auto with yields; done).
  - case_match; [apply yields_panic|]. apply Hl; [|done]. apply yields_pushes, yields_any, yields_any, yields_val.
  - apply Hl; [|done]. apply yields_any, yields_val.
  - apply yields_refuse.
  - apply yields_refuse.
Qed.

Lemma yields_kv kvs : NoDup (map kv_key kvs) → yields (read_kv kvs) (λ kvs', NoDup (map kv_key kvs')).
Proof.
  intros Hnd. unfold read_kv. eapply yields_bind; [apply yields_or_note, yields_string|]. intros key _.
  destruct (index_of _ 0 kvs) eqn:Hi; [apply yields_refuse|]. apply index_of_absent in Hi.
  assert (Hpush : ∀ ty a n, yields (kv ← read_kv_value key ty a n; mret (kvs ++ [kv]))
      (λ kvs', NoDup (map kv_key kvs'))).
  { intros ty a n. eapply yields_bind; [apply yields_kv_value|]. intros kv Hkv. apply yields_ret.
    rewrite map_app. cbn. rewrite Hkv. by apply NoDup_snoc. }
  eapply yields_bind; [apply (yields_tag GgufType.from_i32)|]. intros ty _.
  destruct (decide _); [|apply Hpush].
  eapply yields_bind; [apply (yields_tag GgufType.from_i32)|]. intros ty' _.
  eapply yields_bind; [apply yields_val|]. intros n _. apply Hpush.
Qed.

(** What the checks on one tensor description establish: the element count
    does not overflow and neither does the byte count. *)
Definition info_ok (ti : GgufTensorInfo) : Prop :=
  zlen (ti_name ti) < GGML_MAX_NAME
  ∧ ∃ n0 n1 n2 n3, ti_ne ti = [n0; n1; n2; n3]
    ∧ 0 ≤ n0 ∧ 1 ≤ n1 ∧ 1 ≤ n2 ∧ 1 ≤ n3 ∧ n0 * n1 * n2 * n3 < I64_MAX
    ∧ Z.rem n0 (GgmlType.blck_size (ti_type ti)) = 0
    ∧ n0 * n1 * n2 * n3 / GgmlType.blck_size (ti_type ti) * GgmlType.type_size (ti_type ti) ≤ USIZE_MAX
    ∧ ti_nb ti = strides (ti_ne ti) (GgmlType.type_size (ti_type ti)) (GgmlType.blck_size (ti_type ti)).

Lemma yields_dims name fuel j nd :
  yields (read_dims name fuel j nd) (λ ne, length ne = fuel ∧ Forall (λ e, 0 ≤ e) ne).
Proof.
  revert j. induction fuel as [|fuel IH]; intros j; cbn [read_dims]; [by apply yields_ret|].
  assert (Hc : ∀ e, 0 ≤ e → yields (ne ← read_dims name fuel (S j) nd; mret (e :: ne))
    (λ ne, length ne = S fuel ∧ Forall (λ e, 0 ≤ e) ne)).
  { intros e He. eapply yields_bind; [apply IH|]. intros ne [Hl Hf]. apply yields_ret.
    split; [cbn; lia|by constructor]. }
  case_match; [|by apply Hc]. eapply yields_bind; [apply yields_val_signed|]. intros v _.
  destruct (Z.ltb_spec v 0); [apply yields_refuse|by apply Hc].
Qed.

Lemma quotient_le_false n x :
  quotient_le n x = Some false → 0 ≤ n → 0 ≤ x → 1 ≤ n ∧ x * n < I64_MAX.
Proof.
  unfold quotient_le. destruct (Z.eqb_spec n 0); [done|]. intros [= H] Hn Hx. split; [lia|].
  apply Z.leb_gt in H. rewrite Z.quot_div_nonneg in H by (unfold I64_MAX; lia).
  pose proof (Z.mul_div_le I64_MAX n ltac:(lia)). nia.
Qed.

Lemma elements_overflow_false n0 n1 n2 n3 :
  elements_overflow [n0; n1; n2; n3] = Some false → 0 ≤ n0 → 0 ≤ n1 → 0 ≤ n2 → 0 ≤ n3 →
  1 ≤ n1 ∧ 1 ≤ n2 ∧ 1 ≤ n3 ∧ n0 * n1 < I64_MAX ∧ n0 * n1 * n2 < I64_MAX ∧ n0 * n1 * n2 * n3 < I64_MAX.
Proof.
  unfold elements_overflow, nth_z. cbn -[quotient_le i64 Z.mul]. intros H H0 H1 H2 H3.
  destruct (quotient_le n1 n0) as [[|]|] eqn:Q1; cbn -[quotient_le i64 Z.mul] in H; [done| |done].
  apply quotient_le_false in Q1 as [Hn1 Hm1]; [|done..]. unfold I64_MAX in *.
  assert (0 ≤ n0 * n1) by nia. rewrite (i64_small (n0 * n1)) in H by lia.
  destruct (quotient_le n2 (n0 * n1)) as [[|]|] eqn:Q2; cbn -[quotient_le i64 Z.mul] in H; [done| |done].
  apply quotient_le_false in Q2 as [Hn2 Hm2]; [|done..]. unfold I64_MAX in *.
  assert (0 ≤ n0 * n1 * n2) by nia. rewrite (i64_small (n0 * n1 * n2)) in H by lia.
  apply quotient_le_false in H as [Hn3 Hm3]; [|done..]. done.
Qed.

Lemma yields_tensor_info infos :
  Forall info_ok infos ∧ NoDup (map ti_name infos) →
  yields (read_tensor_info infos) (λ infos', Forall info_ok infos' ∧ NoDup (map ti_name infos')).
Proof.
  intros [Hok Hnd]. unfold read_tensor_info. eapply yields_bind; [apply yields_or_note, yields_string|].
  intros name _. destruct (Z.leb_spec GGML_MAX_NAME (zlen name)) as [|Hname]; [apply yields_refuse|].
  destruct (index_of _ 0 infos) eqn:Hi; [apply yields_refuse|]. apply index_of_absent in Hi.
  eapply yields_bind; [apply yields_val|]. intros nd _. case_match; [apply yields_refuse|].
  eapply yields_bind; [apply yields_dims|]. intros ne [Hlen Hpos].
  eapply yields_bind; [apply yields_lift|]. intros over Hover. destruct over; [apply yields_refuse|].
  eapply yields_bind; [apply (yields_tag GgmlType.from_i32)|]. intros ty _.
  case_match; [apply yields_refuse|]. case_match eqn:Hrow; [apply yields_refuse|].
  destruct (Z.ltb_spec (USIZE_MAX / GgmlType.type_size ty)
    (u64 (Z.quot (ggml_nelements ne) (GgmlType.blck_size ty)))) as [|Hbytes]; [apply yields_refuse|].
  eapply yields_bind; [apply yields_val|]. intros off _. apply yields_ret.
  split; [|rewrite map_app; by apply NoDup_snoc].
  apply Forall_app; split; [done|]. constructor; [|constructor]. split; [done|].
  destruct ne as [|n0 [|n1 [|n2 [|n3 [|]]]]]; try done.
  rewrite !list.Forall_cons in Hpos. destruct Hpos as (Hp0 & Hp1 & Hp2 & Hp3 & _).
  destruct (elements_overflow_false _ _ _ _ Hover Hp0 Hp1 Hp2 Hp3) as (? & ? & ? & ? & ? & ?).
  apply orb_false_iff in Hrow as [_ Hrow%negb_false_iff]. apply Z.eqb_eq in Hrow.
  exists n0, n1, n2, n3. split_and!; try done. cbn [ti_type].
  pose proof (type_size_pos ty). pose proof (blck_size_pos ty).
  assert (0 ≤ n0 * n1) by nia. assert (0 ≤ n0 * n1 * n2) by nia. assert (0 ≤ n0 * n1 * n2 * n3) by nia.
  unfold I64_MAX in *. unfold ggml_nelements, nth_z in Hbytes. cbn -[i64 u64 Z.mul Z.quot Z.div] in Hbytes.
  rewrite (i64_small (n0 * n1)), (i64_small (n0 * n1 * n2)), (i64_small (n0 * n1 * n2 * n3)) in Hbytes by lia.
  rewrite Z.quot_div_nonneg in Hbytes by lia. set (N := n0 * n1 * n2 * n3) in *.
  assert (Hd : 0 ≤ N / GgmlType.blck_size ty ≤ N).
  { split; [apply Z.div_pos; lia|]. apply Z.div_le_upper_bound; nia. }
  rewrite u64_small in Hbytes by lia.
  pose proof (Z.mul_div_le USIZE_MAX (GgmlType.type_size ty) ltac:(lia)). nia.
Qed.

(** ** The whole parse *)

Lemma yields_alignment kvs : yields (read_alignment kvs) (λ a, a ≠ 0 ∧ Z.land a (a - 1) = 0).
Proof.
  eapply yields_bind with (P := λ _, True).
  { case_match; [by apply yields_ret|]. eapply yields_impl; [apply yields_lift|done]. }
  intros a _. destruct (Z.eqb_spec a 0); [apply yields_refuse|].
  destruct (Z.eqb_spec (Z.land a (a - 1)) 0); [|apply yields_refuse]. by apply yields_ret.
Qed.

Lemma yields_header : yields read_header (λ '(version, _, _), version = 2 ∨ version = 3).
Proof.
  apply yields_or_note. eapply yields_bind; [apply yields_version|]. intros v Hv.
  assert (Hc : ∀ n f, yields (read_count n f) (λ _, True)).
  { intros n f. eapply yields_bind; [apply yields_val_signed|]. intros x _.
    case_match; [apply yields_refuse|by apply yields_ret]. }
  eapply yields_bind; [apply Hc|]. intros nt _. eapply yields_bind; [apply Hc|]. intros nk _.
  by apply yields_ret.
Qed.

Lemma data_section_inv limit size infos size' :
  data_section_loop limit size infos = Ok size' →
  size ≤ size' ∧ Forall (λ ti, ti_offset ti + ggml_nbytes ti ≤ limit) infos.
Proof.
  revert size. induction infos as [|ti infos IH]; intros size; cbn [data_section_loop].
  { intros [= <-]. split; [lia|constructor]. }
  case_match; [done|]. destruct (Z.ltb_spec limit (ti_offset ti + ggml_nbytes ti)); [done|].
  intros Hl. apply IH in Hl as [Hs Hf]. split; [lia|by constructor].
Qed.

Lemma row_factors n0 n1 n2 n3 :
  1 ≤ n0 → 1 ≤ n1 → 1 ≤ n2 → 1 ≤ n3 →
  n1 ≤ n0 * n1 * n2 * n3 ∧ n2 ≤ n0 * n1 * n2 * n3 ∧ n3 ≤ n0 * n1 * n2 * n3.
Proof.
  intros. destruct (mul_ge_1 n0 n1) as (? & ? & ?); [done..|].
  destruct (mul_ge_1 (n0 * n1) n2) as (? & ? & ?); [done..|].
  destruct (mul_ge_1 (n0 * n1 * n2) n3) as (? & ? & ?); [done..|]. lia.
Qed.

(** When a row's bytes do not wrap, the bound that was checked is the bytes the
    tensor has. *)
Lemma info_ok_nbytes ti :
  info_ok ti → nth_z (ti_ne ti) 0 * GgmlType.type_size (ti_type ti) < 2 ^ 64 → ggml_nbytes ti = nbytes ti.
Proof.
  intros (_ & n0 & n1 & n2 & n3 & Hne & H0 & H1 & H2 & H3 & HN & Hr & Hb & Hnb) Hrow.
  destruct ti as [name ne nb ty off]; cbn [ti_ne ti_nb ti_type] in *. subst ne nb.
  change (nth_z [n0; n1; n2; n3] 0) with n0 in Hrow.
  pose proof (type_size_pos ty) as HT. pose proof (blck_size_pos ty) as HB. unfold I64_MAX, USIZE_MAX in *.
  rewrite Z.rem_mod_nonneg in Hr by lia.
  assert (Hq : n0 = GgmlType.blck_size ty * (n0 / GgmlType.blck_size ty)) by (apply Z_div_exact_full_2; lia).
  set (q := n0 / GgmlType.blck_size ty) in *.
  assert (Hq0 : 0 ≤ q) by (apply Z.div_pos; lia).
  destruct (Z.eq_dec q 0) as [Hz|Hz].
  - assert (n0 = 0) as -> by lia. unfold nbytes, payload_size, product. cbn [ti_ne ti_type foldl]. reflexivity.
  - destruct (row_factors n0 n1 n2 n3) as (? & ? & ?); [lia..|].
    rewrite Hq. unfold nbytes. cbn [ti_ne ti_type].
    replace (n0 * n1 * n2 * n3) with (q * n1 * n2 * n3 * GgmlType.blck_size ty) in Hb by (rewrite Hq; lia).
    rewrite Z.div_mul in Hb by lia.
    destruct (contiguous_nbytes name ty off q n1 n2 n3) as [-> ->]; [lia..| | | |done]; rewrite <-?Hq; lia.
Qed.

(** ** The invariant of every accepted file *)

Record context_ok (data : bytes) (ctx : GgufContext) : Prop := {
  cok_version : cx_version ctx = 2 ∨ cx_version ctx = 3;
  cok_keys : NoDup (map kv_key (cx_kv ctx));
  cok_alignment : cx_alignment ctx ≠ 0 ∧ Z.land (cx_alignment ctx) (cx_alignment ctx - 1) = 0;
  cok_infos : Forall info_ok (cx_info ctx);
  cok_names : NoDup (map ti_name (cx_info ctx));
  cok_range : ∀ ti, ti ∈ cx_info ctx →
    cx_offset ctx + ti_offset ti + ggml_nbytes ti ≤ zlen data
    ∧ (nth_z (ti_ne ti) 0 * GgmlType.type_size (ti_type ti) < 2 ^ 64 →
       cx_offset ctx + ti_offset ti + nbytes ti ≤ zlen data)
}.

Lemma yields_tables :
  yields read_tables (λ '(n, version, kvs, a, infos),
    (version = 2 ∨ version = 3) ∧ NoDup (map kv_key kvs) ∧ (a ≠ 0 ∧ Z.land a (a - 1) = 0)
    ∧ Forall info_ok infos ∧ NoDup (map ti_name infos) ∧ zlen infos = n).
Proof.
  eapply yields_bind with (P := λ _, True).
  { eapply yields_bind; [apply yields_vec|]. intros magic _. cbn zeta. destruct (decide (map byte.of_Z magic = GGUF_MAGIC)); [by apply yields_ret|apply yields_refuse]. }
  intros _ _. eapply yields_bind; [apply yields_header|]. intros [[version nt] nk] Hv.
  eapply yields_bind.
  { apply yields_or_note, (yields_for nk read_kv (λ kvs, NoDup (map kv_key kvs))); [|constructor].
    intros kvs. apply yields_kv. }
  intros kvs Hkvs. eapply yields_bind with (P := λ _, True).
  { case_match; [by apply yields_ret|apply yields_panic]. }
  intros _ _. eapply yields_bind; [apply yields_alignment|]. intros a Ha.
  eapply yields_bind.
  { apply yields_or_note, (yields_for nt read_tensor_info (λ l, Forall info_ok l ∧ NoDup (map ti_name l)));
      [|split; constructor]. intros l. apply yields_tensor_info. }
  intros infos [Hi Hn]. eapply yields_bind with (P := λ _, zlen infos = nt).
  { destruct (Z.eqb_spec (zlen infos) nt); [by apply yields_ret|apply yields_panic]. }
  intros _ Hlen. apply yields_ret. done.
Qed.

Lemma parse_sound data ctx : init_from_data data = Ok ctx → context_ok data ctx.
Proof.
  unfold init_from_data. rewrite init_from_reader_split. unfold mbind, parser_bind.
  destruct (read_tables (reader_new data)) as [[t| |] s] eqn:Ht; [|done..].
  destruct (yields_tables _ _ _ Ht) as [Hd Hq]. destruct t as [[[[nt version] kvs] a] infos].
  destruct Hq as (Hv & Hk & Ha & Hi & Hn & Hlen). cbn [gr_data reader_new] in Hd.
  unfold place_data, mbind, parser_bind.
  destruct (seek_data nt a s) as [[[]| |] s1] eqn:Hs; [|done..]. unfold tell, get_state, mbind, parser_bind, mret, parser_ret.
  assert (Hpos : gr_data s1 = data ∧ (0 < nt → gr_offset s1 ≤ zlen data)).
  { unfold seek_data, tell, seek, get_state, mbind, parser_bind, mret, parser_ret in Hs.
    destruct (Z.ltb_spec 0 nt); [|injection Hs as <-; split; [done|lia]].
    destruct (Z.ltb_spec (zlen (gr_data s)) (ggml_pad (gr_offset s) a)); [done|].
    injection Hs as <-. cbn. by rewrite Hd in *. }
  destruct Hpos as [-> Hoff].
  destruct (data_section_size infos _) as [size| |] eqn:Hsz; [|done..]. intros [= <-].
  apply data_section_inv in Hsz as [_ Hf]. split; try done. cbn [cx_info cx_offset]. intros ti Hin.
  assert (0 < nt).
  { rewrite <-Hlen. destruct infos; [by apply not_elem_of_nil in Hin|]. cbn; lia. }
  pose proof (Forall_elem _ _ _ Hf Hin) as Hle. cbn beta in Hle. split; [lia|]. intros Hw.
  pose proof (info_ok_nbytes ti (Forall_elem _ _ _ Hi Hin) Hw). lia.
Qed.

(** C26. Whatever the bytes, a context the parser returns has a supported
    version, distinct keys and tensor names, a power-of-two alignment, tensor
    extents whose element and byte counts do not overflow, and every tensor's
    range inside the file, as far as [ggml_nbytes] measures it - which is the
    tensor's whole size unless the bytes of one row overflow. *)
Theorem parsed_context_sound data ctx : init_from_data data = Ok ctx → context_ok data ctx.
Proof. apply parse_sound. Qed.

Lemma parsed_context_sound_witness :
  ∃ ctx, init_from_data Demo.file = Ok ctx ∧ length (cx_info ctx) = 3%nat ∧ context_ok Demo.file ctx.
Proof.
  destruct (init_from_data Demo.file) as [ctx| |] eqn:H; [|exfalso; vm_compute in H; discriminate..].
  exists ctx. split; [reflexivity|]. split; [|exact (parsed_context_sound _ _ H)].
  vm_compute in H. injection H as <-. reflexivity.
Defined.

(** ** Where the checks fall short *)

Module Crafted.
(** A file with one tensor and no metadata, and its data section. *)
Definition one_tensor (ne : list Z) (ty : GgmlType.t) (data : bytes) : bytes :=
  let h := header_bytes [] 0 [mkSpec (bstr "w") ne ty] 32 in
  resize (ggml_pad (zlen h) 32) h ++ data.

(** A row of [wide] elements: its blocks take more than 2^61 bytes. *)
Definition wide : Z := 32 * ((5 * 2 ^ 58 + 1) / 9).
Definition wide_file : bytes := one_tensor [wide; 1; 1; 1] GgmlType.Q4_0 (zeros 2).

Definition wide_info : GgufTensorInfo := info_of (mkSpec (bstr "w") [wide; 1; 1; 1] GgmlType.Q4_0) 0.
Definition wide_ctx : GgufContext := mkCtx GGUF_VERSION [] [wide_info] 32 64 2.

Definition empty_tensor_file : bytes :=
  let h := header_bytes [] 0 [] 32 in
  take 8 h ++ u64_bytes 1 ++ u64_bytes 0 ++ write_string (bstr "w") ++ u32_bytes 2 ++ u64_bytes 1 ++ u64_bytes 0.

(** One pair whose value has the given type number. *)
Definition one_pair (key : bytes) (ty : Z) (value : bytes) : bytes :=
  GGUF_MAGIC ++ u32_bytes 3 ++ u64_bytes 0 ++ u64_bytes 1 ++ write_string key ++ u32_bytes ty ++ value.
End Crafted.

(** The bound of the data section can be evaded: a file of under a hundred
    bytes is accepted with a block-quantised tensor whose size is over 2^61
    bytes, because the product in [ggml_nbytes] wraps and it answers 2. *)
Theorem wide_row_accepted :
  ∃ ctx ti, init_from_data Crafted.wide_file = Ok ctx ∧ cx_info ctx = [ti]
    ∧ zlen Crafted.wide_file < 100 ∧ ggml_nbytes ti = 2 ∧ 2 ^ 61 < nbytes ti.
Proof.
  exists Crafted.wide_ctx, Crafted.wide_info. split_and!; vm_compute; reflexivity.
Qed.

(** Malformed input can panic the parser instead of being refused: an
    unknown value type, a tensor with an empty dimension after the first, and
    a [general.alignment] that is not an unsigned 32-bit number. *)
Theorem malformed_files_panic :
  init_from_data (Crafted.one_pair (bstr "k") 13 []) = Panic
  ∧ init_from_data Crafted.empty_tensor_file = Panic
  ∧ init_from_data (Crafted.one_pair (bstr "general.alignment") 5 (u32_bytes 32)) = Panic.
Proof. split_and!; vm_compute; reflexivity. Qed.
