(* ===== verification/Utf8.v ===== *)
(** * UTF-8, one character at a time

    [decode_at] of [src/grammar.rs], which takes the first character of a
    buffer by the standard library's decoder, and [completion_range], the
    codepoints an incomplete sequence can still become.  A codepoint is a [Z];
    [encode] is the standard encoding. *)
From Stdlib Require Import ZArith String Strings.Byte.
From coqutil Require Import Byte.
From stdpp Require Import base numbers list option.
From S2P Require Import Prelude Gguf.
Local Open Scope Z_scope.

(** ** Encoding *)

(** A Unicode scalar value: a codepoint that is not a surrogate. *)
Definition scalar (c : Z) : Prop := 0 ≤ c < 0xD800 ∨ 0xE000 ≤ c < 0x110000.

#[export] Instance scalar_dec c : Decision (scalar c).
Proof. unfold scalar. apply _. Defined.

Definition encode (c : Z) : bytes :=
  if c <? 0x80 then [byte.of_Z c]
  else if c <? 0x800 then [byte.of_Z (0xC0 + c / 64); byte.of_Z (0x80 + c mod 64)]
  else if c <? 0x10000 then
    [byte.of_Z (0xE0 + c / 4096); byte.of_Z (0x80 + c / 64 mod 64); byte.of_Z (0x80 + c mod 64)]
  else
    [byte.of_Z (0xF0 + c / 262144); byte.of_Z (0x80 + c / 4096 mod 64);
     byte.of_Z (0x80 + c / 64 mod 64); byte.of_Z (0x80 + c mod 64)].

Definition encode_all (w : list Z) : bytes := concat (map encode w).

(** ** Decoding *)

Inductive Utf8Step :=
| Cp (cp : Z) (n : nat)
| Incomplete
| Invalid.

(** The second byte a leader of three or four bytes admits. *)
Definition second3 (x y : Z) : bool :=
  ((x =? 0xE0) && in_range 0xA0 0xBF y) || (in_range 0xE1 0xEC x && is_cont y)
  || ((x =? 0xED) && in_range 0x80 0x9F y) || (in_range 0xEE 0xEF x && is_cont y).
Definition second4 (x y : Z) : bool :=
  ((x =? 0xF0) && in_range 0x90 0xBF y) || (in_range 0xF1 0xF3 x && is_cont y)
  || ((x =? 0xF4) && in_range 0x80 0x8F y).

(** A step that needs one more byte. *)
Definition more (bs : bytes) (f : Z → bytes → Utf8Step) : Utf8Step :=
  match bs with [] => Incomplete | y :: bs => f (uz y) bs end.

Definition decode1 (b : byte) (bs : bytes) : Utf8Step :=
  let x := uz b in
  if x <? 0x80 then Cp x 1
  else if in_range 0xC2 0xDF x then
    more bs (λ y _, if is_cont y then Cp ((x - 0xC0) * 64 + (y - 0x80)) 2 else Invalid)
  else if in_range 0xE0 0xEF x then
    more bs (λ y bs, if negb (second3 x y) then Invalid else
      more bs (λ z _, if is_cont z
        then Cp ((x - 0xE0) * 4096 + (y - 0x80) * 64 + (z - 0x80)) 3 else Invalid))
  else if in_range 0xF0 0xF4 x then
    more bs (λ y bs, if negb (second4 x y) then Invalid else
      more bs (λ z bs, if negb (is_cont z) then Invalid else
        more bs (λ u _, if is_cont u
          then Cp ((x - 0xF0) * 262144 + (y - 0x80) * 4096 + (z - 0x80) * 64 + (u - 0x80)) 4
          else Invalid)))
  else Invalid.

(** [decode_at(buf, i)], on the bytes from [i]; nothing to decode panics. *)
Definition decode_at (bs : bytes) : option Utf8Step :=
  match bs with [] => None | b :: bs => Some (decode1 b bs) end.

(** ** Completing *)

(** Sequence length, payload of the leader, range of the first continuation. *)
Definition leader (b0 : Z) : option (Z * Z * Z * Z) :=
  if in_range 0xC2 0xDF b0 then Some (2, Z.land b0 0x1F, 0x80, 0xBF)
  else if b0 =? 0xE0 then Some (3, Z.land b0 0x0F, 0xA0, 0xBF)
  else if in_range 0xE1 0xEC b0 || in_range 0xEE 0xEF b0 then Some (3, Z.land b0 0x0F, 0x80, 0xBF)
  else if b0 =? 0xED then Some (3, Z.land b0 0x0F, 0x80, 0x9F)
  else if b0 =? 0xF0 then Some (4, Z.land b0 0x07, 0x90, 0xBF)
  else if in_range 0xF1 0xF3 b0 then Some (4, Z.land b0 0x07, 0x80, 0xBF)
  else if b0 =? 0xF4 then Some (4, Z.land b0 0x07, 0x80, 0x8F)
  else None.

Fixpoint continuations (idx : nat) (c_lo c_hi value : Z) (bs : bytes) : option Z :=
  match bs with
  | [] => Some value
  | b :: bs =>
      let b := uz b in
      if negb (Z.land b 0xC0 =? 0x80) then None else
      if (idx =? 0)%nat && negb (in_range c_lo c_hi b) then None else
      continuations (S idx) c_lo c_hi (Z.lor (Z.shiftl value 6) (Z.land b 0x3F)) bs
  end.

Definition completion_range (partial : bytes) : option (Z * Z) :=
  match partial with
  | [] => None
  | b0 :: rest =>
      '(len, value0, c_lo, c_hi) ← leader (uz b0);
      let have := Z.of_nat (length partial) in
      if len <=? have then None else
      value ← continuations 0 c_lo c_hi value0 rest;
      if have =? 1 then
        let tail := 6 * (len - 2) in
        let lo := Z.shiftl (Z.lor (Z.shiftl value 6) (c_lo - 0x80)) tail in
        let hi := Z.lor (Z.shiftl (Z.lor (Z.shiftl value 6) (c_hi - 0x80)) tail)
                    (Z.shiftl 1 tail - 1) in
        Some (lo, hi)
      else
        let free := 6 * (len - have) in
        let lo := Z.shiftl value free in
        Some (lo, Z.lor lo (Z.shiftl 1 free - 1))
  end.

Definition SUR_LO : Z := 0xD800.
Definition SUR_HI : Z := 0xDFFF.

(** [lo, hi] split around the surrogates. *)
Definition non_surrogate_parts (lo hi : Z) : list (Z * Z) :=
  if (hi <? SUR_LO) || (SUR_HI <? lo) then [(lo, hi)] else
  (if lo <? SUR_LO then [(lo, SUR_LO - 1)] else [])
  ++ (if SUR_HI <? hi then [(SUR_HI + 1, hi)] else []).
