(* ===== verification/Utf8Facts.v ===== *)
(** * Facts about [decode_at] and [completion_range]

    Decoding is encoding run backwards ([decode_encode], [decode1_cp]), an
    incomplete sequence is a proper prefix of an encoding, and
    [completion_range] is the range of the characters it can become. *)
From Stdlib Require Import ZArith Lia ZifyBool Strings.Byte.
From coqutil Require Import Byte.
From stdpp Require Import base numbers list option.
From S2P Require Import Prelude Gguf Utf8.
Local Open Scope Z_scope.

Ltac div_lia := Z.to_euclidean_division_equations; lia.

(** ** Bytes *)
Lemma uz_range b : 0 ≤ uz b < 256.
Proof. apply byte.unsigned_range. Qed.

Lemma uz_of_Z x : 0 ≤ x < 256 → uz (byte.of_Z x) = x.
Proof.
  intros H. unfold uz. rewrite byte.unsigned_of_Z. unfold byte.wrap. by apply Z.mod_small.
Qed.

Lemma of_Z_eq x b : 0 ≤ x < 256 → byte.of_Z x = b ↔ uz b = x.
Proof.
  intros H. split; [intros <-; by apply uz_of_Z|].
  intros <-. apply byte.of_Z_unsigned.
Qed.

Lemma land_cont b : (Z.land (uz b) 0xC0 =? 0x80) = is_cont (uz b).
Proof. by destruct b. Qed.

Lemma land_low b : is_cont (uz b) = true → Z.land (uz b) 0x3F = uz b - 0x80.
Proof. by destruct b. Qed.

Lemma lor_shift v k y : 0 ≤ k → 0 ≤ y < 2 ^ k → Z.lor (Z.shiftl v k) y = v * 2 ^ k + y.
Proof.
  intros Hk Hy. rewrite <-Z.shiftl_mul_pow2, <-Z.add_lor_land by done.
  enough (Z.land (Z.shiftl v k) y = 0) as -> by (by rewrite Z.add_0_r).
  apply Z.bits_inj'. intros n Hn. rewrite Z.land_spec, Z.bits_0.
  destruct (decide (y = 0)) as [->|]; [by rewrite Z.bits_0, andb_false_r|].
  destruct (decide (n < k)).
  - by rewrite Z.shiftl_spec_low by done.
  - rewrite (Z.bits_above_log2 y n), andb_false_r; [done|lia|].
    apply Z.log2_lt_pow2; [lia|]. apply Z.lt_le_trans with (2 ^ k); [lia|].
    apply Z.pow_le_mono_r; lia.
Qed.

(** ** Round trip *)
Lemma length_encode c : (0 < length (encode c))%nat.
Proof. unfold encode. repeat case_match; simpl; lia. Qed.

Lemma decode_encode c rest :
  scalar c → decode_at (encode c ++ rest) = Some (Cp c (length (encode c))).
Proof.
  intros Hc. unfold scalar in Hc. unfold encode.
  destruct (Z.ltb_spec c 0x80); [|destruct (Z.ltb_spec c 0x800); [|destruct (Z.ltb_spec c 0x10000)]];
    simpl; unfold decode1, more, second3, second4, is_cont, in_range;
    rewrite !uz_of_Z by div_lia; f_equal;
    (repeat (case_match; try (exfalso; div_lia)); f_equal; div_lia).
Qed.

Ltac byte_ranges :=
  repeat match goal with
  | [ b : Init.Byte.byte |- _ ] =>
      lazymatch goal with
      | _ : 0 ≤ uz b < 256 |- _ => fail
      | _ => pose proof (uz_range b)
      end
  end.

Lemma decode1_cp b bs c n :
  decode1 b bs = Cp c n →
  scalar c ∧ n = length (encode c) ∧ b :: bs = encode c ++ drop n (b :: bs).
Proof.
  unfold decode1, more, second3, second4, is_cont, in_range.
  intros H. repeat case_match; try discriminate H; injection H as <- <-; byte_ranges;
    (split; [unfold scalar; lia|]); unfold encode;
    repeat (case_match; try (exfalso; div_lia)); (split; [done|]); simpl;
    repeat f_equal; symmetry; apply of_Z_eq; div_lia.
Qed.

(** ** Incomplete sequences *)

(** [bs] is the start of the encoding of [c], and not all of it. *)
Definition starts (bs : bytes) (c : Z) : Prop :=
  ∃ rest, rest ≠ [] ∧ encode c = bs ++ rest.

Lemma starts_1 b c :
  scalar c →
  starts [b] c ↔ (0x80 ≤ c < 0x800 ∧ uz b = 0xC0 + c / 64)
                 ∨ (0x800 ≤ c < 0x10000 ∧ uz b = 0xE0 + c / 4096)
                 ∨ (0x10000 ≤ c ∧ uz b = 0xF0 + c / 262144).
Proof.
  intros Hc. unfold scalar in Hc. unfold starts, encode.
  destruct (Z.ltb_spec c 0x80); [|destruct (Z.ltb_spec c 0x800); [|destruct (Z.ltb_spec c 0x10000)]];
    split.
  - by intros ([|] & ? & ?).
  - lia.
  - intros (rest & _ & [= <- _]). rewrite uz_of_Z by div_lia. lia.
  - intros Hb. eexists [_]. split; [done|]. simpl. f_equal. apply of_Z_eq; [div_lia|lia].
  - intros (rest & _ & [= <- _]). rewrite uz_of_Z by div_lia. lia.
  - intros Hb. eexists [_; _]. split; [done|]. simpl. f_equal. apply of_Z_eq; [div_lia|lia].
  - intros (rest & _ & [= <- _]). rewrite uz_of_Z by div_lia. lia.
  - intros Hb. eexists [_; _; _]. split; [done|]. simpl. f_equal. apply of_Z_eq; [div_lia|lia].
Qed.

Lemma starts_2 b y c :
  scalar c →
  starts [b; y] c ↔
    (0x800 ≤ c < 0x10000 ∧ uz b = 0xE0 + c / 4096 ∧ uz y = 0x80 + c / 64 mod 64)
    ∨ (0x10000 ≤ c ∧ uz b = 0xF0 + c / 262144 ∧ uz y = 0x80 + c / 4096 mod 64).
Proof.
  intros Hc. unfold scalar in Hc. unfold starts, encode.
  destruct (Z.ltb_spec c 0x80); [|destruct (Z.ltb_spec c 0x800); [|destruct (Z.ltb_spec c 0x10000)]];
    split.
  - by intros ([|] & ? & ?).
  - lia.
  - by intros ([|] & ? & ?).
  - lia.
  - intros (rest & _ & [= <- <- _]). rewrite !uz_of_Z by div_lia. lia.
  - intros Hb. eexists [_]. split; [done|]. simpl.
    f_equal; [|f_equal]; (apply of_Z_eq; [div_lia|lia]).
  - intros (rest & _ & [= <- <- _]). rewrite !uz_of_Z by div_lia. lia.
  - intros Hb. eexists [_; _]. split; [done|]. simpl.
    f_equal; [|f_equal]; (apply of_Z_eq; [div_lia|lia]).
Qed.

Lemma starts_3 b y z c :
  scalar c →
  starts [b; y; z] c ↔
    0x10000 ≤ c ∧ uz b = 0xF0 + c / 262144 ∧ uz y = 0x80 + c / 4096 mod 64
    ∧ uz z = 0x80 + c / 64 mod 64.
Proof.
  intros Hc. unfold scalar in Hc. unfold starts, encode.
  destruct (Z.ltb_spec c 0x80); [|destruct (Z.ltb_spec c 0x800); [|destruct (Z.ltb_spec c 0x10000)]];
    split.
  - by intros ([|] & ? & ?).
  - lia.
  - by intros ([|] & ? & ?).
  - lia.
  - by intros ([|] & ? & ?).
  - lia.
  - intros (rest & _ & [= <- <- <- _]). rewrite !uz_of_Z by div_lia. lia.
  - intros Hb. eexists [_]. split; [done|]. simpl.
    f_equal; [|f_equal; [|f_equal]]; (apply of_Z_eq; [div_lia|lia]).
Qed.

Lemma starts_long bs c : (4 ≤ length bs)%nat → ¬ starts bs c.
Proof.
  intros Hl (rest & Hr & He). assert (length (encode c) = length (bs ++ rest)) as H by by rewrite He.
  rewrite length_app in H. assert (length (encode c) ≤ 4)%nat.
  { unfold encode. repeat case_match; simpl; lia. }
  destruct rest; [done|]. simpl in H. lia.
Qed.

(** ** The range an incomplete sequence completes to *)

(** [completion_range] without bit operations. *)
Definition range_1 (b : Z) : option (Z * Z) :=
  if in_range 0xC2 0xDF b then Some ((b - 0xC0) * 64, (b - 0xC0) * 64 + 63)
  else if in_range 0xE0 0xEF b then
    Some (if b =? 0xE0 then 0x800 else (b - 0xE0) * 4096,
          if b =? 0xED then 0xD7FF else (b - 0xE0) * 4096 + 4095)
  else if in_range 0xF0 0xF4 b then
    Some (if b =? 0xF0 then 0x10000 else (b - 0xF0) * 262144,
          if b =? 0xF4 then 0x10FFFF else (b - 0xF0) * 262144 + 262143)
  else None.

Lemma completion_range_1 b : completion_range [b] = range_1 (uz b).
Proof. by destruct b. Qed.

Definition range_2 (b y : Z) : option (Z * Z) :=
  if in_range 0xE0 0xEF b && second3 b y then
    let v := (b - 0xE0) * 64 + (y - 0x80) in Some (v * 64, v * 64 + 63)
  else if in_range 0xF0 0xF4 b && second4 b y then
    let v := (b - 0xF0) * 64 + (y - 0x80) in Some (v * 4096, v * 4096 + 4095)
  else None.

Definition range_3 (b y z : Z) : option (Z * Z) :=
  if in_range 0xF0 0xF4 b && second4 b y && is_cont z then
    let v := ((b - 0xF0) * 64 + (y - 0x80)) * 64 + (z - 0x80) in Some (v * 64, v * 64 + 63)
  else None.

(** [leader], said by the byte's value. *)
Lemma leader_spec b :
  leader (uz b) =
    if in_range 0xC2 0xDF (uz b) then Some (2, uz b - 0xC0, 0x80, 0xBF)
    else if in_range 0xE0 0xEF (uz b) then
      Some (3, uz b - 0xE0, if uz b =? 0xE0 then 0xA0 else 0x80,
            if uz b =? 0xED then 0x9F else 0xBF)
    else if in_range 0xF0 0xF4 (uz b) then
      Some (4, uz b - 0xF0, if uz b =? 0xF0 then 0x90 else 0x80,
            if uz b =? 0xF4 then 0x8F else 0xBF)
    else None.
Proof. by destruct b. Qed.

Lemma continuation_value v b :
  is_cont (uz b) = true → Z.lor (Z.shiftl v 6) (Z.land (uz b) 0x3F) = v * 64 + (uz b - 0x80).
Proof.
  intros H. rewrite land_low by done. unfold is_cont, in_range in H. apply lor_shift; lia.
Qed.

Lemma fill_ones v k : 0 ≤ k → Z.lor (Z.shiftl v k) (Z.shiftl 1 k - 1) = v * 2 ^ k + (2 ^ k - 1).
Proof.
  intros Hk. rewrite (Z.shiftl_mul_pow2 1), Z.mul_1_l by done.
  pose proof (Z.pow_pos_nonneg 2 k). apply lor_shift; lia.
Qed.

(** The two range bounds of a value with [k] free bits. *)
Lemma range_bounds v k :
  0 ≤ k → (Z.shiftl v k, Z.lor (Z.shiftl v k) (Z.shiftl 1 k - 1))
          = (v * 2 ^ k, v * 2 ^ k + (2 ^ k - 1)).
Proof. intros. by rewrite fill_ones, Z.shiftl_mul_pow2. Qed.

Ltac by_bytes :=
  unfold second3, second4, is_cont, in_range in *; byte_ranges;
  repeat (case_match; simpl; try (exfalso; lia)); try done; try (do 2 f_equal; lia).

Lemma completion_range_2 b y : completion_range [b; y] = range_2 (uz b) (uz y).
Proof.
  unfold completion_range, range_2. rewrite leader_spec.
  destruct (in_range 0xC2 0xDF (uz b)) eqn:H2.
  { simpl. by_bytes. }
  destruct (in_range 0xE0 0xEF (uz b)) eqn:H3;
    [|destruct (in_range 0xF0 0xF4 (uz b)) eqn:H4; [|done]];
    simpl; rewrite land_cont; destruct (is_cont (uz y)) eqn:Hy; [|by_bytes| |by_bytes];
    rewrite continuation_value by done; simpl negb; cbv iota;
    (destruct (in_range _ _ (uz y)) eqn:Hr; simpl;
      [rewrite ?range_bounds by done; by_bytes|by_bytes]).
Qed.

Lemma completion_range_3 b y z : completion_range [b; y; z] = range_3 (uz b) (uz y) (uz z).
Proof.
  unfold completion_range, range_3. rewrite leader_spec.
  destruct (in_range 0xC2 0xDF (uz b)) eqn:H2; [simpl; by_bytes|].
  destruct (in_range 0xE0 0xEF (uz b)) eqn:H3; [simpl; by_bytes|].
  destruct (in_range 0xF0 0xF4 (uz b)) eqn:H4; [|done].
  simpl; rewrite !land_cont; destruct (is_cont (uz y)) eqn:Hy; [|by_bytes].
  destruct (is_cont (uz z)) eqn:Hz; [|simpl; by_bytes].
  rewrite !continuation_value by done. simpl negb. cbv iota.
  destruct (in_range _ _ (uz y)) eqn:Hr; simpl;
    [rewrite ?range_bounds by done; by_bytes|by_bytes].
Qed.

Lemma completion_range_long bs : (4 ≤ length bs)%nat → completion_range bs = None.
Proof.
  destruct bs as [|b bs]; [simpl; lia|]. intros H. unfold completion_range.
  rewrite leader_spec. simpl in H.
  repeat (case_match; simpl; try done); simpl in *; lia.
Qed.

Lemma completion_range_starts bs lo hi c :
  completion_range bs = Some (lo, hi) → scalar c → starts bs c ↔ lo ≤ c ≤ hi.
Proof.
  destruct bs as [|b [|y [|z [|u bs]]]]; intros H Hc; pose proof Hc as Hc'; unfold scalar in Hc'.
  - done.
  - rewrite starts_1 by done. rewrite completion_range_1 in H. revert H.
    unfold range_1, in_range. pose proof (uz_range b).
    repeat (case_match; try done); intros [= <- <-]; div_lia.
  - rewrite starts_2 by done. rewrite completion_range_2 in H. revert H.
    unfold range_2, second3, second4, is_cont, in_range. byte_ranges.
    repeat (case_match; try done); intros [= <- <-]; div_lia.
  - rewrite starts_3 by done. rewrite completion_range_3 in H. revert H.
    unfold range_3, second4, is_cont, in_range. byte_ranges.
    repeat (case_match; try done); intros [= <- <-]; div_lia.
  - rewrite completion_range_long in H; [done|simpl; lia].
Qed.

(** The range is not empty, and leads out of the surrogates. *)
Lemma completion_range_scalar bs lo hi :
  completion_range bs = Some (lo, hi) → scalar lo ∧ scalar hi ∧ lo ≤ hi.
Proof.
  destruct bs as [|b [|y [|z [|u bs]]]]; intros H; [done|..].
  - rewrite completion_range_1 in H. revert H. unfold range_1, in_range, scalar. byte_ranges.
    repeat (case_match; try done); intros [= <- <-]; lia.
  - rewrite completion_range_2 in H. revert H.
    unfold range_2, second3, second4, is_cont, in_range, scalar. byte_ranges.
    repeat (case_match; try done); intros [= <- <-]; lia.
  - rewrite completion_range_3 in H. revert H.
    unfold range_3, second4, is_cont, in_range, scalar. byte_ranges.
    repeat (case_match; try done); intros [= <- <-]; lia.
  - rewrite completion_range_long in H; [done|simpl; lia].
Qed.

(** The decoder calls a sequence incomplete exactly when it has a range. *)
Lemma decode_incomplete bs :
  decode_at bs = Some Incomplete ↔ is_Some (completion_range bs).
Proof.
  destruct bs as [|b [|y [|z [|u bs]]]]; simpl decode_at; unfold decode1, more.
  - split; [done|by intros []].
  - rewrite completion_range_1. unfold range_1, in_range. byte_ranges.
    repeat (case_match; try (exfalso; lia)); split; try done; by intros [].
  - rewrite completion_range_2. unfold range_2, second3, second4, is_cont, in_range. byte_ranges.
    repeat (case_match; try (exfalso; lia)); split; try done; by intros [].
  - rewrite completion_range_3. unfold range_3, second3, second4, is_cont, in_range. byte_ranges.
    repeat (case_match; try (exfalso; lia)); split; try done; by intros [].
  - rewrite completion_range_long by (simpl; lia).
    repeat case_match; (split; [done|by intros []]).
Qed.

(** The start of a character has a range. *)
Lemma starts_range bs c :
  scalar c → bs ≠ [] → starts bs c → is_Some (completion_range bs).
Proof.
  intros Hc Hne Hs. pose proof Hc as Hc'; unfold scalar in Hc'.
  destruct bs as [|b [|y [|z [|u bs]]]]; [done|..].
  - rewrite starts_1 in Hs by done. rewrite completion_range_1. unfold range_1, in_range.
    byte_ranges. repeat (case_match; try done). exfalso. div_lia.
  - rewrite starts_2 in Hs by done. rewrite completion_range_2.
    unfold range_2, second3, second4, is_cont, in_range. byte_ranges.
    repeat (case_match; try done). exfalso. div_lia.
  - rewrite starts_3 in Hs by done. rewrite completion_range_3.
    unfold range_3, second4, is_cont, in_range. byte_ranges.
    repeat (case_match; try done). exfalso. div_lia.
  - exfalso. eapply starts_long; [|exact Hs]. simpl. lia.
Qed.

(** ** Words *)
Lemma encode_all_cons c w : encode_all (c :: w) = encode c ++ encode_all w.
Proof. done. Qed.

Lemma encode_all_app u w : encode_all (u ++ w) = encode_all u ++ encode_all w.
Proof. unfold encode_all. by rewrite map_app, concat_app. Qed.

Lemma encode_all_nil_inv w : encode_all w = [] → w = [].
Proof.
  destruct w as [|c w]; [done|]. rewrite encode_all_cons.
  intros [H _]%app_nil. pose proof (length_encode c) as Hl. rewrite H in Hl. simpl in Hl. lia.
Qed.

(** Two encodings that begin the same begin with the same character. *)
Lemma encode_prefix_free c c' r r' :
  scalar c → scalar c' → encode c ++ r = encode c' ++ r' → c = c' ∧ r = r'.
Proof.
  intros Hc Hc' H. pose proof (decode_encode c r Hc) as H1. rewrite H, decode_encode in H1 by done.
  injection H1 as <- _. split; [done|]. by apply app_inv_head in H.
Qed.

(** Bytes that a text's begin with are cut from it character by character. *)
Lemma encode_all_strip u r w :
  Forall scalar u → Forall scalar w → encode_all u ++ r = encode_all w →
  ∃ w', w = u ++ w' ∧ Forall scalar w' ∧ r = encode_all w'.
Proof.
  intros Hu. revert w. induction Hu as [|c u Hc _ IH]; intros w Hw He; [by exists w|].
  rewrite encode_all_cons, <-(assoc_L (++)) in He. destruct w as [|c' w].
  { apply app_nil in He as [He _]. pose proof (length_encode c) as H. rewrite He in H. simpl in H. lia. }
  apply list.Forall_cons in Hw as [Hc' Hw]. rewrite encode_all_cons in He.
  apply encode_prefix_free in He as [-> He]; [|done..].
  destruct (IH w Hw He) as (w' & -> & ? & ->). by exists w'.
Qed.

(** How a buffer that a sentence goes on from begins: it is empty, or its
    first character is the sentence's, or it stops inside that character. *)
Lemma prefix_cases buf tail w :
  Forall scalar w → buf ++ tail = encode_all w →
  buf = [] ∨ ∃ c w', w = c :: w' ∧
    ((∃ buf', buf = encode c ++ buf' ∧ buf' ++ tail = encode_all w') ∨ starts buf c).
Proof.
  intros Hw H. destruct buf as [|b buf]; [by left|]. right.
  destruct w as [|c w]; [done|]. exists c, w. split; [done|].
  rewrite encode_all_cons in H.
  destruct (decide (length (encode c) ≤ length (b :: buf))%nat) as [Hl|Hl].
  - left. exists (drop (length (encode c)) (b :: buf)).
    assert (take (length (encode c)) (b :: buf) = encode c) as Ht.
    { rewrite <-(take_app_le _ tail), H by done. by rewrite take_app_length. }
    split; [by rewrite <-Ht, take_drop at 1|].
    rewrite <-drop_app_le, H by done. by rewrite drop_app_length.
  - right. exists (drop (length (b :: buf)) (encode c)). split.
    { intros Hd. apply (f_equal length) in Hd. rewrite length_drop in Hd. simpl in *. lia. }
    rewrite <-(take_drop (length (b :: buf)) (encode c)) at 1. f_equal.
    rewrite <-(take_app_le _ (encode_all w)), <-H by lia. by rewrite take_app_length.
Qed.
