(* ===== verification/KvSession.v ===== *)
(** * KV session files: [src/graph/kvsession.rs] and its callers

    The container a session's rows and run table are saved in: a header, one
    K/V blob per layer, the bookkeeping, the caller's host state, and an
    FNV-1a checksum of all of it.  A region is a list of words, each the [Z] of
    its 32 bits.  The disk does not fail: a file is the bytes written to it, and
    the count of them needs no wrap-around.  The two operations of
    [src/graph/alloc.rs] that write and read one are at the end. *)
From Stdlib Require Import ZArith String Strings.Byte.
From coqutil Require Import Byte Word.LittleEndianList.
From stdpp Require Import base numbers list gmap option.
From S2P Require Import Prelude KvCache Backend Gguf GgufWrite Slices KvArena Allocator.
Local Open Scope Z_scope.

Definition MAGIC : bytes := bstr "MINFERKV".
Definition VERSION : Z := 2.
Definition FLAG_PACKED : Z := 1.
Definition FLAG_F16 : Z := 2.
Definition KNOWN_FLAGS : Z := Z.lor FLAG_PACKED FLAG_F16.

Definition flags_of (f : KvFormat) : Z :=
  match f with Q8_0 => FLAG_PACKED | F16 => FLAG_F16 | F32 => 0 end.

Definition format_of_flags (flags : Z) : KvFormat :=
  if negb (Z.land flags FLAG_PACKED =? 0) then Q8_0
  else if negb (Z.land flags FLAG_F16 =? 0) then F16 else F32.

Record KvSessionHeader := mkHeader {
  hd_version : Z;
  hd_format : KvFormat;
  hd_backend : N;
  hd_n_layer : nat;
  hd_n_ctx : nat;
  hd_n_embd : nat;
  hd_row_elems : nat
}.

Definition layer_words (h : KvSessionHeader) : nat := (hd_n_ctx h * hd_row_elems h)%nat.

Record KvSessionExpect := mkExpect { ex_backend : N; ex_n_ctx : nat; ex_n_embd : nat }.

Record KvSessionReport := mkSessionReport {
  rp_layers : nat; rp_cells : nat; rp_bytes : Z; rp_written : nat
}.

Inductive SessionError :=
| Truncated
| NotASession
| WrongVersion (version : Z)
| UnknownFlagBits (flags : Z)
| TwoFormats (flags : Z)
| UnknownTag (tag : Z)
| ZeroSized
| RowWidth (row expected : nat)
| LayerSize (layer : N) (k v : nat)
| TooManyLayers
| LayersMissing (declared got : nat)
| StateCells (n_ctx : nat)
| OwnerTable (layer : N) (owners : nat)
| ChecksumMismatch
| TrailingBytes.

(** ** FNV-1a *)

Definition FNV_OFFSET : Z := 0xcbf29ce484222325.
Definition FNV_PRIME : Z := 0x00000100000001b3.

Definition hash_byte (h : Z) (b : byte) : Z := u64 (Z.lxor h (uz b) * FNV_PRIME).
Definition hash_bytes (h : Z) (bs : bytes) : Z := foldl hash_byte h bs.

Definition tag_of (backend : N) : Z := Z.of_N backend.
Definition backend_of_tag (tag : Z) : option N := from_index (Z.to_nat tag).

(** ** Writing *)

Record Sink := mkSink { sk_out : bytes; sk_hash : Z; sk_written : Z }.

Definition sink_new : Sink := mkSink [] FNV_OFFSET 0.

Definition put (bs : bytes) (s : Sink) : Sink :=
  mkSink (sk_out s ++ bs) (hash_bytes (sk_hash s) bs) (sk_written s + Z.of_nat (length bs)).
Definition put_u32 (v : Z) : Sink → Sink := put (u32_bytes v).
Definition put_u64 (v : Z) : Sink → Sink := put (u64_bytes v).
(** [x as u32] of a [usize]. *)
Definition put_usize (n : nat) : Sink → Sink := put_u32 (Z.of_nat n).
Definition put_id (n : N) : Sink → Sink := put_u32 (Z.of_N n).

(** [for x in xs { f(sink, x) }]. *)
Definition put_all {A} (f : A → Sink → Sink) (l : list A) (s : Sink) : Sink :=
  foldl (λ s x, f x s) s l.

Definition CHUNK : nat := Z.to_nat (2 ^ 14).

(** Words go out in chunks, through one buffer of bytes. *)
Fixpoint put_chunks (fuel : nat) (w : list Z) (s : Sink) : Sink :=
  match fuel with
  | O => s
  | S fuel =>
      match w with
      | [] => s
      | _ => put_chunks fuel (drop CHUNK w) (put (concat (map u32_bytes (take CHUNK w))) s)
      end
  end.
Definition put_words (w : list Z) (s : Sink) : Sink := put_chunks (length w) w s.

(** The file, and the number of its bytes. *)
Definition sink_finish (s : Sink) : bytes * Z :=
  (sk_out s ++ u64_bytes (sk_hash s), sk_written s + 8).

Record KvSessionWriter := mkWriter {
  wr_sink : Sink; wr_header : KvSessionHeader; wr_layers : nat; wr_host : bytes
}.

Definition writer_create (h : KvSessionHeader) : KvSessionWriter :=
  let s := put MAGIC sink_new in
  let s := put_u32 (hd_version h) s in
  let s := put_u32 (flags_of (hd_format h)) s in
  let s := put_u32 (tag_of (hd_backend h)) s in
  let s := put_usize (hd_n_layer h) s in
  let s := put_usize (hd_n_ctx h) s in
  let s := put_usize (hd_n_embd h) s in
  let s := put_usize (hd_row_elems h) s in
  mkWriter s h 0 [].

Definition set_host (host : bytes) (w : KvSessionWriter) : KvSessionWriter :=
  mkWriter (wr_sink w) (wr_header w) (wr_layers w) host.

Definition writer_layer (layer : N) (k v : list Z) (w : KvSessionWriter) :
    res SessionError KvSessionWriter :=
  let want := layer_words (wr_header w) in
  if negb (length k =? want)%nat || negb (length v =? want)%nat
  then Err (LayerSize layer (length k) (length v)) else
  if (hd_n_layer (wr_header w) <=? wr_layers w)%nat then Err TooManyLayers else
  let s := put_id layer (wr_sink w) in
  let s := put_usize (length k) s in
  let s := put_usize (length v) s in
  let s := put_words k s in
  let s := put_words v s in
  Ok (mkWriter s (wr_header w) (S (wr_layers w)) (wr_host w)).

Definition write_slot (p : N * SeqSlot) (s : Sink) : Sink :=
  let '(seq, slot) := p in
  let s := put_id seq s in
  let s := put_usize (sl_start slot) s in
  let s := put_usize (sl_cap slot) s in
  let s := put_usize (sh_cell (sl_shared slot)) s in
  let s := put_usize (sh_rows (sl_shared slot)) s in
  put_usize (sl_written slot) s.

Definition write_span (p : span) (s : Sink) : Sink :=
  let '(base, cell, len) := p in put_usize len (put_usize cell (put_usize base s)).

Definition write_spans (p : N * list span) (s : Sink) : Sink :=
  let s := put_id p.1 s in
  let s := put_usize (length p.2) s in
  put_all write_span p.2 s.

Definition write_layer_state (l : KvLayerSession) (s : Sink) : Sink :=
  let s := put_id (ls_layer l) s in
  let s := put_usize (ls_n_used l) s in
  let s := put_usize (length (ls_owner l)) s in
  put_all put_id (ls_owner l) s.

Definition write_state (st : KvSessionState) (s : Sink) : Sink :=
  let s := put_u32 (Z.b2z (ss_identity st)) s in
  let s := put_usize (ss_n_ctx st) s in
  let s := put_usize (length (ss_seqs st)) s in
  let s := put_all write_slot (ss_seqs st) s in
  let s := put_usize (length (ss_spans st)) s in
  let s := put_all write_spans (ss_spans st) s in
  let s := put_usize (length (ss_layers st)) s in
  let s := put_all write_layer_state (ss_layers st) s in
  let s := put_u64 (Z.of_N (ss_defrags st)) s in
  let s := put_u64 (Z.of_N (ss_cells_moved st)) s in
  let s := put_u64 (Z.of_N (ss_cows st)) s in
  put_u64 (Z.of_N (ss_cow_cells st)) s.

Definition writer_finish (st : KvSessionState) (w : KvSessionWriter) :
    res SessionError (KvSessionReport * bytes) :=
  if negb (wr_layers w =? hd_n_layer (wr_header w))%nat
  then Err (LayersMissing (hd_n_layer (wr_header w)) (wr_layers w)) else
  if negb (ss_n_ctx st =? hd_n_ctx (wr_header w))%nat then Err (StateCells (ss_n_ctx st)) else
  let s := write_state st (wr_sink w) in
  let s := put_usize (length (wr_host w)) s in
  let s := put (wr_host w) s in
  let '(file, n) := sink_finish s in
  Ok (mkSessionReport (wr_layers w) (ss_n_ctx st) n (session_written st), file).

(** ** Reading *)

Record Source := mkSource { so_rest : bytes; so_hash : Z; so_read : Z }.

Definition source_new (file : bytes) : Source := mkSource file FNV_OFFSET 0.

Definition source (A : Type) : Type := Source → res SessionError (A * Source).

#[export] Instance source_ret : MRet source := λ A a s, Ok (a, s).
#[export] Instance source_bind : MBind source := λ A B f m s,
  match m s with
  | Ok (a, s) => f a s
  | Err e => Err e
  | Panic => Panic
  end.

Definition refuse_session {A} (e : SessionError) : source A := λ s, Err e.

(** [read_exact] of [n] bytes, hashed. *)
Definition get (n : nat) : source bytes := λ s,
  if (length (so_rest s) <? n)%nat then Err Truncated else
  let bs := take n (so_rest s) in
  Ok (bs, mkSource (drop n (so_rest s)) (hash_bytes (so_hash s) bs)
            (so_read s + Z.of_nat n)).

Definition get_u32 : source Z := bs ← get 4; mret (le_combine bs).
Definition get_u64 : source Z := bs ← get 8; mret (le_combine bs).
Definition get_usize : source nat := v ← get_u32; mret (Z.to_nat v).
Definition get_id : source N := v ← get_u32; mret (Z.to_N v).
Definition get_counter : source N := v ← get_u64; mret (Z.to_N v).

(** [for _ in 0..n], collecting. *)
Fixpoint get_list {A} (n : nat) (m : source A) : source (list A) :=
  match n with
  | O => mret []
  | S n => x ← m; xs ← get_list n m; mret (x :: xs)
  end.

(** [chunks_exact(4)]. *)
Fixpoint words_of (n : nat) (bs : bytes) : list Z :=
  match n with
  | O => []
  | S n => le_combine (take 4 bs) :: words_of n (drop 4 bs)
  end.

Fixpoint get_chunks (fuel left : nat) : source (list Z) :=
  match fuel with
  | O => mret []
  | S fuel =>
      if (left =? 0)%nat then mret [] else
      let n := (left `min` CHUNK)%nat in
      bs ← get (n * 4);
      rest ← get_chunks fuel (left - n);
      mret (words_of n bs ++ rest)
  end.
Definition get_words (n : nat) : source (list Z) := get_chunks n n.

(** The checksum, and nothing after it. *)
Definition source_finish (s : Source) : res SessionError Z :=
  let want := so_hash s in
  if (length (so_rest s) <? 8)%nat then Err Truncated else
  if negb (le_combine (take 8 (so_rest s)) =? want) then Err ChecksumMismatch else
  match drop 8 (so_rest s) with
  | [] => Ok (so_read s + 8)
  | _ => Err TrailingBytes
  end.

Definition read_header : source KvSessionHeader :=
  magic ← get 8;
  if negb (bool_decide (magic = MAGIC)) then refuse_session NotASession else
  version ← get_u32;
  if negb (version =? VERSION) then refuse_session (WrongVersion version) else
  flags ← get_u32;
  if negb (Z.land flags (Z.lnot KNOWN_FLAGS) =? 0) then refuse_session (UnknownFlagBits flags) else
  if negb (Z.land flags FLAG_PACKED =? 0) && negb (Z.land flags FLAG_F16 =? 0)
  then refuse_session (TwoFormats flags) else
  tag ← get_u32;
  match backend_of_tag tag with
  | None => refuse_session (UnknownTag tag)
  | Some backend =>
      n_layer ← get_usize;
      n_ctx ← get_usize;
      n_embd ← get_usize;
      row ← get_usize;
      let format := format_of_flags flags in
      if (n_layer =? 0)%nat || (n_ctx =? 0)%nat || (n_embd =? 0)%nat || (row =? 0)%nat
      then refuse_session ZeroSized else
      if negb (row =? row_elems format n_embd)%nat
      then refuse_session (RowWidth row (row_elems format n_embd)) else
      mret (mkHeader version format backend n_layer n_ctx n_embd row)
  end.

(** A reader is its header and the number of layers read; the source is
    threaded. *)
Definition next_layer (h : KvSessionHeader) : source (N * list Z * list Z) :=
  layer ← get_id;
  kw ← get_usize;
  vw ← get_usize;
  if negb (kw =? layer_words h)%nat || negb (vw =? layer_words h)%nat
  then refuse_session (LayerSize layer kw vw) else
  k ← get_words kw;
  v ← get_words vw;
  mret (layer, k, v).

Definition read_slot : source (N * SeqSlot) :=
  seq ← get_id;
  start ← get_usize;
  cap ← get_usize;
  cell ← get_usize;
  rows ← get_usize;
  written ← get_usize;
  mret (seq, mkSlot start cap (mkShared cell rows) written).

Definition read_span : source span :=
  base ← get_usize; cell ← get_usize; len ← get_usize; mret (base, cell, len).

Definition read_spans : source (N * list span) :=
  seq ← get_id; count ← get_usize; v ← get_list count read_span; mret (seq, v).

Definition read_layer_state (h : KvSessionHeader) : source KvLayerSession :=
  layer ← get_id;
  n_used ← get_usize;
  owners ← get_usize;
  if negb (owners =? hd_n_ctx h)%nat then refuse_session (OwnerTable layer owners) else
  owner ← get_list owners get_id;
  mret (mkLayerSession layer n_used owner).

Definition read_state (h : KvSessionHeader) : source KvSessionState :=
  identity ← get_u32;
  n_ctx ← get_usize;
  if negb (n_ctx =? hd_n_ctx h)%nat then refuse_session (StateCells n_ctx) else
  n_seq ← get_usize;
  seqs ← get_list n_seq read_slot;
  n_spans ← get_usize;
  spans ← get_list n_spans read_spans;
  n_layers ← get_usize;
  layers ← get_list n_layers (read_layer_state h);
  defrags ← get_counter;
  cells_moved ← get_counter;
  cows ← get_counter;
  cow_cells ← get_counter;
  mret (mkSession (negb (identity =? 0)) n_ctx seqs spans layers defrags cells_moved cows cow_cells).

Record KvSessionBody := mkBody {
  bd_state : KvSessionState; bd_host : bytes; bd_report : KvSessionReport
}.

(** What is left once the layers have been read. *)
Definition reader_finish (h : KvSessionHeader) : source KvSessionBody := λ s,
  match (st ← read_state h; n ← get_usize; host ← get n; mret (st, host)) s with
  | Ok (st, host, s) =>
      bytes ← source_finish s;
      Ok (mkBody st host
            (mkSessionReport (hd_n_layer h) (hd_n_ctx h) bytes (session_written st)), s)
  | Err e => Err e
  | Panic => Panic
  end.

(** The whole file, nothing applied. *)
Definition read_file : source (KvSessionHeader * list (N * list Z * list Z) * KvSessionBody) :=
  h ← read_header;
  layers ← get_list (hd_n_layer h) (next_layer h);
  body ← reader_finish h;
  mret (h, layers, body).

Definition verify (file : bytes) : res SessionError KvSessionHeader :=
  '((h, _, _), _) ← read_file (source_new file); Ok h.

(** * Saving and restoring the KV arena: [src/graph/alloc.rs]

    [kv_save_with_host] writes the arena of the allocator as a session file;
    [kv_load_with_host] checks a file from end to end and then applies it,
    creating the regions it names.  A file is a list of bytes; what a failed
    save leaves on the disk is not modelled. *)
Local Close Scope Z_scope.

Inductive SaveError :=
| NoArenaToSave
| LayerVanished
| MixedLayers (layer : N)
| MixedWidths (layer : N)
| HostReadFailed (layer : N)
| SvSession (e : SessionError).

Inductive LoadError :=
| MixedOffload
| OtherBackend (theirs ours : N)
| OtherContext (theirs ours : nat)
| OtherWidth (theirs ours : nat)
| OtherFormat (theirs ours : KvFormat)
| NoBackend (backend : N)
| LdSession (e : SessionError)
| LdAlloc (e : AllocError)
| LdPool (e : PoolError)
| LdNoPool (backend : N)
| LayerCount (read described : nat)
| LdKv (e : KvError).

Section session.
Context {P : Type} `{!CellPool Z P, !BufferPool Z P}.

Definition kv_element_format (backend : N) (a : GraphAllocator P) : KvFormat :=
  if has_entry backend then al_format a else F32.

Definition host_read (r : BufRef) (a : GraphAllocator P) : option (list Z) :=
  p ← pool (br_backend r) a; read_host p (br_id r).

Definition copy_kv_to_cpu (layer : N) (a : GraphAllocator P) : option (list Z * list Z) :=
  match kv_layers (ga_kv (al_arena a)) !! layer with
  | None => None
  | Some l =>
      match host_read (lay_k l) a, host_read (lay_v l) a with
      | Some k, Some v => Some (k, v)
      | _, _ => None
      end
  end.

Definition cell_words (l : KvLayer) : nat := lay_elems l / (lay_n_ctx l `max` 1).

Definition check_layer (first : KvLayer) (a : GraphAllocator P) (layer : N) : res SaveError unit :=
  l ← ok_or (kv_layers (ga_kv (al_arena a)) !! layer) LayerVanished;
  if negb (lay_n_ctx l =? lay_n_ctx first) || negb (lay_n_embd l =? lay_n_embd first)
     || negb (br_backend (lay_k l) =? br_backend (lay_k first))%N
  then Err (MixedLayers layer) else
  if negb (cell_words l =? cell_words first) then Err (MixedWidths layer) else Ok ().

Definition save_layer (a : GraphAllocator P) (w : KvSessionWriter) (layer : N) :
    res SaveError KvSessionWriter :=
  '(k, v) ← ok_or (copy_kv_to_cpu layer a) (HostReadFailed layer);
  map_err SvSession (writer_layer layer k v w).

(** [for x in l { s = f(s, x)? }]. *)
Fixpoint try_fold {E A S} (f : S → A → res E S) (s : S) (l : list A) : res E S :=
  match l with
  | [] => Ok s
  | x :: l => s ← f s x; try_fold f s l
  end.

Definition session_header (n_layer : nat) (first : KvLayer) (a : GraphAllocator P) :
    KvSessionHeader :=
  mkHeader VERSION (kv_element_format (br_backend (lay_k first)) a) (br_backend (lay_k first))
    n_layer (lay_n_ctx first) (lay_n_embd first) (cell_words first).

Definition kv_save_with_host (host : bytes) (a : GraphAllocator P) :
    res SaveError (KvSessionReport * bytes) :=
  let c := ga_kv (al_arena a) in
  let layers := map fst (in_order (kv_layers c)) in
  first_id ← ok_or (head layers) NoArenaToSave;
  first ← ok_or (kv_layers c !! first_id) NoArenaToSave;
  _ ← try_map (check_layer first a) layers;
  let w := set_host host (writer_create (session_header (length layers) first a)) in
  w ← try_fold (save_layer a) w layers;
  map_err SvSession (writer_finish (session_state c) w).

(** ** Loading *)

Definition write_pool (r : BufRef) (data : list Z) : op LoadError unit := λ a,
  match pool (br_backend r) a with
  | None => (Err (LdNoPool (br_backend r)), a)
  | Some p =>
      let '(res, p) := write_host (br_id r) data p in
      (map_err LdPool res, set_pool (br_backend r) p a)
  end.

Definition load_layer (h : KvSessionHeader) (backend : N) (l : N * list Z * list Z) :
    op LoadError unit :=
  let '(layer, k, v) := l in
  refs ← lift_op LdAlloc (ensure_kv layer backend (hd_n_embd h) (hd_row_elems h) (hd_n_ctx h));
  _ ← write_pool refs.1 k;
  write_pool refs.2 v.

(** [while let Some(layer) = r.next_layer()?], each applied as it is read. *)
Fixpoint load_layers (n : nat) (h : KvSessionHeader) (backend : N) (s : Source) :
    op LoadError Source :=
  match n with
  | O => mret s
  | S n =>
      '(l, s) ← lift_res LdSession (next_layer h s);
      _ ← load_layer h backend l;
      load_layers n h backend s
  end.

Definition check_expect (h : KvSessionHeader) (ex : KvSessionExpect) (live : KvFormat) :
    res LoadError unit :=
  if negb (hd_backend h =? ex_backend ex)%N
  then Err (OtherBackend (hd_backend h) (ex_backend ex)) else
  if negb (hd_n_ctx h =? ex_n_ctx ex) then Err (OtherContext (hd_n_ctx h) (ex_n_ctx ex)) else
  if negb (hd_n_embd h =? ex_n_embd ex) then Err (OtherWidth (hd_n_embd h) (ex_n_embd ex)) else
  if negb (bool_decide (hd_format h = live)) then Err (OtherFormat (hd_format h) live) else
  Ok ().

Definition split_offload (a : GraphAllocator P) : bool :=
  match al_offload a with Some p => is_mixed p | None => false end.

(** [restore_session] on the allocator's store. *)
Definition restore (st : KvSessionState) : op (P:=P) LoadError unit := λ a,
  let '(r, c) := restore_session st (ga_kv (al_arena a)) in
  (map_err LdKv r, set_arena (set_kv c (al_arena a)) a).

Definition kv_load_with_host (file : bytes) (ex : KvSessionExpect) :
    op LoadError (bytes * KvSessionReport) :=
  split ← reads_of split_offload;
  if (split : bool) then raise MixedOffload else
  h ← lift_res LdSession (verify file);
  live ← reads_of (kv_element_format (ex_backend ex));
  _ ← lift_res id (check_expect h ex live);
  '(h, s) ← lift_res LdSession (read_header (source_new file));
  if negb (has_entry (ex_backend ex)) then raise (NoBackend (ex_backend ex)) else
  s ← load_layers (hd_n_layer h) h (ex_backend ex) s;
  '(body, _) ← lift_res LdSession (reader_finish h s);
  if negb (length (ss_layers (bd_state body)) =? hd_n_layer h)
  then raise (LayerCount (hd_n_layer h) (length (ss_layers (bd_state body)))) else
  _ ← restore (bd_state body);
  mret (bd_host body, bd_report body).
End session.
