(* ===== verification/KvSessionFacts.v ===== *)
(** * What a session file's reader takes, and what its checksum catches

    [takes m bs v]: wherever the reader [m] meets the bytes [bs], it takes
    exactly those and returns [v]; [puts f bs]: the writer [f] writes [bs].
    One lemma per record says that what is written is what is read.  [local m]:
    whatever [m] accepts, it accepts for the bytes it took alone, so an
    accepted file has no accepted proper prefix; and the checksum tells apart
    two files that differ in one byte. *)
From Stdlib Require Import ZArith String Strings.Byte.
From coqutil Require Import Byte Word.LittleEndianList.
From stdpp Require Import base numbers list gmap option.
From S2P Require Import Prelude KvCache Backend Gguf GgufWrite GgufRound Utf8 Utf8Facts KvSession.
Local Open Scope Z_scope.

(** ** Readers and writers *)

Definition takes {A} (m : source A) (bs : bytes) (v : A) : Prop :=
  ∀ rest h n, m (mkSource (bs ++ rest) h n) =
    Ok (v, mkSource rest (hash_bytes h bs) (n + zlen bs)).

Definition local {A} (m : source A) : Prop :=
  ∀ s v s', m s = Ok (v, s') → ∃ bs, so_rest s = bs ++ so_rest s' ∧ takes m bs v.

Definition puts (f : Sink → Sink) (bs : bytes) : Prop := ∀ s, f s = put bs s.

Lemma hash_bytes_app h a b : hash_bytes h (a ++ b) = hash_bytes (hash_bytes h a) b.
Proof. apply foldl_app. Qed.

Lemma takes_ret {A} (v : A) : takes (mret v) [] v.
Proof. intros rest h n. unfold mret, source_ret. simpl. by rewrite Z.add_0_r. Qed.

Lemma takes_bind {A B} (m : source A) (f : A → source B) b1 b2 v w :
  takes m b1 v → takes (f v) b2 w → takes (m ≫= f) (b1 ++ b2) w.
Proof.
  intros H1 H2 rest h n. unfold mbind, source_bind.
  rewrite <-app_assoc, H1, H2, hash_bytes_app, zlen_app. by rewrite Z.add_assoc.
Qed.

Lemma takes_last {A B} (m : source A) (f : A → B) b v :
  takes m b v → takes (x ← m; mret (f x)) b (f v).
Proof. intros H. rewrite <-(app_nil_r b). eapply takes_bind; [done|]. apply takes_ret. Qed.

Lemma takes_get bs n : n = length bs → takes (get n) bs bs.
Proof.
  intros -> rest h k. unfold get. simpl. rewrite length_app, (proj2 (Nat.ltb_ge _ _)) by lia.
  by rewrite take_app_length, drop_app_length.
Qed.

Lemma takes_u32 v : 0 ≤ v < 2 ^ 32 → takes get_u32 (u32_bytes v) v.
Proof.
  intros Hv. unfold get_u32.
  assert (v = le_combine (u32_bytes v)) as Heq.
  { unfold u32_bytes. rewrite le_combine_split. symmetry. by apply Z.mod_small. }
  rewrite Heq at 2. apply takes_last, takes_get. unfold u32_bytes. by rewrite length_le_split.
Qed.

Lemma takes_u64 v : 0 ≤ v < 2 ^ 64 → takes get_u64 (u64_bytes v) v.
Proof.
  intros Hv. unfold get_u64.
  assert (v = le_combine (u64_bytes v)) as Heq.
  { unfold u64_bytes. rewrite le_combine_split. symmetry. by apply Z.mod_small. }
  rewrite Heq at 2. apply takes_last, takes_get. unfold u64_bytes. by rewrite length_le_split.
Qed.

(** What fits the file's 32-bit fields. *)
Definition fits (n : nat) : Prop := Z.of_nat n < 2 ^ 32.
Definition fits_id (n : N) : Prop := (n < 2 ^ 32)%N.
Definition fits_count (n : N) : Prop := (n < 2 ^ 64)%N.
#[export] Instance fits_dec n : Decision (fits n).
Proof. apply _. Defined.
#[export] Instance fits_id_dec n : Decision (fits_id n).
Proof. apply _. Defined.
#[export] Instance fits_count_dec n : Decision (fits_count n).
Proof. apply _. Defined.

Definition usize_bytes (n : nat) : bytes := u32_bytes (Z.of_nat n).
Definition id_bytes (n : N) : bytes := u32_bytes (Z.of_N n).
Definition count_bytes (n : N) : bytes := u64_bytes (Z.of_N n).

Lemma takes_usize n : fits n → takes get_usize (usize_bytes n) n.
Proof.
  intros Hn. unfold get_usize. rewrite <-(Nat2Z.id n) at 2.
  apply takes_last, takes_u32. unfold fits in Hn. lia.
Qed.

Lemma takes_id n : fits_id n → takes get_id (id_bytes n) n.
Proof.
  intros Hn. unfold get_id. rewrite <-(N2Z.id n) at 2.
  apply takes_last, takes_u32. unfold fits_id in Hn. lia.
Qed.

Lemma takes_counter n : fits_count n → takes get_counter (count_bytes n) n.
Proof.
  intros Hn. unfold get_counter. rewrite <-(N2Z.id n) at 2.
  apply takes_last, takes_u64. unfold fits_count in Hn. lia.
Qed.

Lemma takes_list {A} (m : source A) (f : A → bytes) l :
  Forall (λ x, takes m (f x) x) l → takes (get_list (length l) m) (concat (map f l)) l.
Proof.
  induction 1 as [|x l Hx Hl IH]; simpl; [apply takes_ret|].
  eapply takes_bind; [done|]. by apply (takes_last _ (cons x)).
Qed.

Lemma put_app a b s : put (a ++ b) s = put b (put a s).
Proof.
  unfold put. simpl. rewrite hash_bytes_app, length_app, Nat2Z.inj_add, app_assoc.
  by rewrite Z.add_assoc.
Qed.

Lemma put_nil s : put [] s = s.
Proof. destruct s. unfold put. simpl. by rewrite app_nil_r, Z.add_0_r. Qed.

Lemma puts_all {A} (f : A → Sink → Sink) (b : A → bytes) l :
  (∀ x, puts (f x) (b x)) → puts (put_all f l) (concat (map b l)).
Proof.
  intros Hf s. unfold put_all. revert s. induction l as [|x l IH]; intros s; simpl.
  - by rewrite put_nil.
  - by rewrite IH, Hf, put_app.
Qed.

(** ** Words *)

Definition words_bytes (w : list Z) : bytes := concat (map u32_bytes w).

Lemma words_bytes_app a b : words_bytes (a ++ b) = words_bytes a ++ words_bytes b.
Proof. unfold words_bytes. by rewrite map_app, concat_app. Qed.

Lemma length_words_bytes w : length (words_bytes w) = (length w * 4)%nat.
Proof.
  induction w as [|x w IH]; [done|]. change (words_bytes (x :: w)) with (u32_bytes x ++ words_bytes w).
  rewrite length_app, IH. unfold u32_bytes. rewrite length_le_split. simpl. lia.
Qed.

Lemma CHUNK_pos : (0 < CHUNK)%nat.
Proof. apply Nat.ltb_lt. vm_compute. reflexivity. Qed.

Lemma puts_chunks fuel w : (length w ≤ fuel)%nat → puts (put_chunks fuel w) (words_bytes w).
Proof.
  revert w. induction fuel as [|fuel IH]; intros [|x w] Hl s; try (by rewrite put_nil); [simpl in Hl; lia|].
  cbn [put_chunks]. rewrite IH.
  - rewrite <-put_app. f_equal. fold (words_bytes (take CHUNK (x :: w))).
    by rewrite <-words_bytes_app, take_drop.
  - pose proof CHUNK_pos. rewrite length_drop. simpl length in *. lia.
Qed.

Lemma puts_words w : puts (put_words w) (words_bytes w).
Proof. by apply puts_chunks. Qed.

(** A 32-bit word. *)
Definition word (x : Z) : Prop := 0 ≤ x < 2 ^ 32.
#[export] Instance word_dec x : Decision (word x).
Proof. apply _. Defined.

Lemma words_of_bytes w : Forall word w → words_of (length w) (words_bytes w) = w.
Proof.
  induction 1 as [|x w Hx Hw IH]; [done|].
  change (words_bytes (x :: w)) with (u32_bytes x ++ words_bytes w). cbn [words_of length].
  rewrite (take_app_length' (u32_bytes x)), (drop_app_length' (u32_bytes x)) by done.
  rewrite IH. f_equal. unfold u32_bytes. rewrite le_combine_split. by apply Z.mod_small.
Qed.

Lemma takes_chunks fuel w : Forall word w → (length w ≤ fuel)%nat →
  takes (get_chunks fuel (length w)) (words_bytes w) w.
Proof.
  revert w. induction fuel as [|fuel IH]; intros w Hw Hl; cbn [get_chunks].
  { destruct w; [apply takes_ret|simpl in Hl; lia]. }
  destruct (Nat.eqb_spec (length w) 0) as [Hz|Hz].
  { destruct w; [apply takes_ret|done]. }
  set (n := (length w `min` CHUNK)%nat). pose proof CHUNK_pos.
  assert (length (take n w) = n) as Hn by (rewrite length_take; lia).
  replace (words_bytes w) with (words_bytes (take n w) ++ words_bytes (drop n w))
    by (by rewrite <-words_bytes_app, take_drop).
  eapply takes_bind; [apply takes_get; by rewrite length_words_bytes, Hn|].
  assert (words_of n (words_bytes (take n w)) = take n w) as ->.
  { rewrite <-Hn at 1. by apply words_of_bytes, Forall_take. }
  pose proof (takes_last (get_chunks fuel (length w - n)) (app (take n w))
    (words_bytes (drop n w)) (drop n w)) as Hd. rewrite take_drop in Hd. apply Hd.
  rewrite <-length_drop. apply IH; [by apply Forall_drop|]. rewrite length_drop. lia.
Qed.

Lemma takes_words w n : Forall word w → n = length w → takes (get_words n) (words_bytes w) w.
Proof. intros Hw ->. by apply takes_chunks. Qed.

(** ** The bookkeeping *)

#[local] Opaque u32_bytes u64_bytes.

Definition slot_bytes (p : N * SeqSlot) : bytes :=
  id_bytes p.1 ++ usize_bytes (sl_start p.2) ++ usize_bytes (sl_cap p.2)
  ++ usize_bytes (sh_cell (sl_shared p.2)) ++ usize_bytes (sh_rows (sl_shared p.2))
  ++ usize_bytes (sl_written p.2).
Definition span_bytes (p : span) : bytes :=
  let '(base, cell, len) := p in usize_bytes base ++ usize_bytes cell ++ usize_bytes len.
Definition spans_bytes (p : N * list span) : bytes :=
  id_bytes p.1 ++ usize_bytes (length p.2) ++ concat (map span_bytes p.2).
Definition layer_state_bytes (l : KvLayerSession) : bytes :=
  id_bytes (ls_layer l) ++ usize_bytes (ls_n_used l) ++ usize_bytes (length (ls_owner l))
  ++ concat (map id_bytes (ls_owner l)).
Definition state_bytes (st : KvSessionState) : bytes :=
  u32_bytes (Z.b2z (ss_identity st)) ++ usize_bytes (ss_n_ctx st)
  ++ usize_bytes (length (ss_seqs st)) ++ concat (map slot_bytes (ss_seqs st))
  ++ usize_bytes (length (ss_spans st)) ++ concat (map spans_bytes (ss_spans st))
  ++ usize_bytes (length (ss_layers st)) ++ concat (map layer_state_bytes (ss_layers st))
  ++ count_bytes (ss_defrags st) ++ count_bytes (ss_cells_moved st)
  ++ count_bytes (ss_cows st) ++ count_bytes (ss_cow_cells st).

Definition slot_fits (p : N * SeqSlot) : Prop :=
  fits_id p.1 ∧ fits (sl_start p.2) ∧ fits (sl_cap p.2) ∧ fits (sh_cell (sl_shared p.2)) ∧
  fits (sh_rows (sl_shared p.2)) ∧ fits (sl_written p.2).
Definition span_fits (p : span) : Prop := fits p.1.1 ∧ fits p.1.2 ∧ fits p.2.
Definition spans_fit (p : N * list span) : Prop :=
  fits_id p.1 ∧ fits (length p.2) ∧ Forall span_fits p.2.
Definition layer_state_fits (n_ctx : nat) (l : KvLayerSession) : Prop :=
  fits_id (ls_layer l) ∧ fits (ls_n_used l) ∧ length (ls_owner l) = n_ctx ∧
  Forall fits_id (ls_owner l).
Record state_fits (st : KvSessionState) : Prop := {
  sf_n_ctx : fits (ss_n_ctx st);
  sf_seqs : fits (length (ss_seqs st)) ∧ Forall slot_fits (ss_seqs st);
  sf_spans : fits (length (ss_spans st)) ∧ Forall spans_fit (ss_spans st);
  sf_layers : fits (length (ss_layers st)) ∧
    Forall (layer_state_fits (ss_n_ctx st)) (ss_layers st);
  sf_counts : fits_count (ss_defrags st) ∧ fits_count (ss_cells_moved st) ∧
    fits_count (ss_cows st) ∧ fits_count (ss_cow_cells st)
}.

(** A field and what follows it. *)
Section fields.
Context {B : Type} (b : bytes) (w : B).

Lemma takes_then {A} (m : source A) (f : A → source B) b1 v :
  takes m b1 v → takes (f v) b w → takes (m ≫= f) (b1 ++ b) w.
Proof. apply takes_bind. Qed.

Lemma takes_end {A} (m : source A) (f : A → source B) b1 v :
  takes m b1 v → takes (f v) [] w → takes (m ≫= f) b1 w.
Proof. intros H1 H2. rewrite <-(app_nil_r b1). by eapply takes_bind. Qed.
End fields.

(** One field: its reader, then what follows. *)
Ltac take_field l :=
  match goal with
  | |- takes _ (_ ++ _) _ => eapply takes_then; [apply l; done | cbn beta]
  | |- takes _ _ _ => eapply takes_end; [apply l; done | cbn beta]
  end.
Ltac take_fields := repeat match goal with
  | |- takes (mret _) _ _ => apply takes_ret
  | |- takes (get_usize ≫= _) _ _ => take_field takes_usize
  | |- takes (get_id ≫= _) _ _ => take_field takes_id
  | |- takes (get_counter ≫= _) _ _ => take_field takes_counter
  end.

Lemma puts_usize n : puts (put_usize n) (usize_bytes n).
Proof. done. Qed.

Lemma puts_slot p : puts (write_slot p) (slot_bytes p).
Proof. intros s. destruct p as [q sl]. unfold slot_bytes. by rewrite !put_app. Qed.
Lemma puts_span p : puts (write_span p) (span_bytes p).
Proof. intros s. destruct p as [[b c] l]. unfold span_bytes. by rewrite !put_app. Qed.
Lemma puts_spans p : puts (write_spans p) (spans_bytes p).
Proof.
  intros s. unfold write_spans, spans_bytes.
  by rewrite !put_app, (puts_all _ span_bytes _ puts_span).
Qed.
Lemma puts_id n : puts (put_id n) (id_bytes n).
Proof. done. Qed.
Lemma puts_layer_state l : puts (write_layer_state l) (layer_state_bytes l).
Proof.
  intros s. unfold write_layer_state, layer_state_bytes.
  by rewrite !put_app, (puts_all _ id_bytes _ puts_id).
Qed.
Lemma puts_state st : puts (write_state st) (state_bytes st).
Proof.
  intros s. unfold write_state, state_bytes.
  by rewrite !put_app, (puts_all _ _ _ puts_slot), (puts_all _ _ _ puts_spans),
    (puts_all _ _ _ puts_layer_state).
Qed.

Lemma takes_slot p : slot_fits p → takes read_slot (slot_bytes p) p.
Proof.
  destruct p as [q [st cp [c r] w]]. intros (? & ? & ? & ? & ? & ?).
  unfold read_slot, slot_bytes. simpl in *. take_fields.
Qed.

Lemma takes_span p : span_fits p → takes read_span (span_bytes p) p.
Proof.
  destruct p as [[b c] l]. intros (? & ? & ?).
  unfold read_span, span_bytes. simpl in *. take_fields.
Qed.

(** A counted list of records. *)
Lemma takes_counted {A} (m : source A) (f : A → bytes) (P : A → Prop) l :
  (∀ x, P x → takes m (f x) x) → Forall P l → takes (get_list (length l) m) (concat (map f l)) l.
Proof. intros Hm Hl. apply takes_list. by eapply Forall_impl. Qed.

Lemma takes_spans p : spans_fit p → takes read_spans (spans_bytes p) p.
Proof.
  destruct p as [q l]. intros (? & ? & ?). unfold read_spans, spans_bytes. simpl in *.
  take_fields. take_field (takes_counted _ _ _ l takes_span). take_fields.
Qed.

Lemma takes_layer_state h l : layer_state_fits (hd_n_ctx h) l →
  fits (hd_n_ctx h) → takes (read_layer_state h) (layer_state_bytes l) l.
Proof.
  destruct l as [q u o]. intros (? & ? & Ho & ?) ?. unfold read_layer_state, layer_state_bytes.
  simpl in *. rewrite Ho. take_fields. rewrite Nat.eqb_refl. cbn [negb]. rewrite <-Ho at 1.
  take_field (takes_counted _ _ _ o takes_id). take_fields.
Qed.

Lemma takes_state h st : state_fits st → ss_n_ctx st = hd_n_ctx h →
  takes (read_state h) (state_bytes st) st.
Proof.
  destruct st as [id n sq sp ly d m c cc]. intros [Hn [? Hsq] [? Hsp] [? Hly] (? & ? & ? & ?)] Hh.
  simpl in *. subst n. unfold read_state, state_bytes. simpl.
  eapply takes_then; [apply takes_u32; by destruct id|]. cbn beta.
  take_fields. rewrite Nat.eqb_refl. cbn [negb]. take_fields.
  take_field (takes_counted _ _ _ sq takes_slot). take_fields.
  take_field (takes_counted _ _ _ sp takes_spans). take_fields.
  take_field (takes_counted _ _ _ ly (λ l Hl, takes_layer_state h l Hl Hn)).
  take_fields. destruct id; apply takes_ret.
Qed.

(** ** The header, a layer, the whole file *)

Definition header_bytes (h : KvSessionHeader) : bytes :=
  MAGIC ++ u32_bytes (hd_version h) ++ u32_bytes (flags_of (hd_format h))
  ++ id_bytes (hd_backend h) ++ usize_bytes (hd_n_layer h) ++ usize_bytes (hd_n_ctx h)
  ++ usize_bytes (hd_n_embd h) ++ usize_bytes (hd_row_elems h).

Record header_ok (h : KvSessionHeader) : Prop := {
  ho_version : hd_version h = VERSION;
  ho_backend : (hd_backend h < 3)%N;
  ho_layers : hd_n_layer h ≠ 0%nat ∧ fits (hd_n_layer h);
  ho_n_ctx : hd_n_ctx h ≠ 0%nat ∧ fits (hd_n_ctx h);
  ho_n_embd : hd_n_embd h ≠ 0%nat ∧ fits (hd_n_embd h);
  ho_row : hd_row_elems h ≠ 0%nat ∧ fits (hd_row_elems h);
  ho_row_width : hd_row_elems h = row_elems (hd_format h) (hd_n_embd h);
  ho_words : fits (layer_words h)
}.

Lemma wr_sink_create h : wr_sink (writer_create h) = put (header_bytes h) sink_new.
Proof. unfold header_bytes. by rewrite !put_app. Qed.

Lemma flags_format f : format_of_flags (flags_of f) = f.
Proof. by destruct f. Qed.

Lemma flags_known f : (Z.land (flags_of f) (Z.lnot KNOWN_FLAGS) =? 0) = true ∧
  negb (Z.land (flags_of f) FLAG_PACKED =? 0) && negb (Z.land (flags_of f) FLAG_F16 =? 0) = false.
Proof. by destruct f. Qed.

Lemma backend_tag b : (b < 3)%N → backend_of_tag (tag_of b) = Some b.
Proof.
  intros Hb. unfold backend_of_tag, tag_of, from_index, N_BACKENDS.
  rewrite (proj2 (Nat.ltb_lt _ _)) by lia. f_equal. lia.
Qed.

Lemma takes_header h : header_ok h → takes read_header (header_bytes h) h.
Proof.
  destruct h as [ver f b nl nc ne row].
  intros [Hv Hb [Hl ?] [Hc ?] [He ?] [Hr ?] Hw _]. simpl in *. subst ver.
  unfold read_header, header_bytes.
  cbn [hd_version hd_format hd_backend hd_n_layer hd_n_ctx hd_n_embd hd_row_elems].
  eapply takes_then; [by apply takes_get|]. cbn beta. rewrite bool_decide_true by done. cbn [negb].
  eapply takes_then; [by apply takes_u32|]. cbn beta. rewrite Z.eqb_refl. cbn [negb].
  eapply takes_then; [apply takes_u32; by destruct f|]. cbn beta.
  destruct (flags_known f) as [-> ->]. cbn [negb].
  eapply takes_then; [apply (takes_u32 (tag_of b)); unfold tag_of; lia|]. cbn beta.
  rewrite backend_tag by done. cbn beta iota. take_fields.
  rewrite !(proj2 (Nat.eqb_neq _ _)) by done. cbn [orb].
  rewrite flags_format, <-Hw, Nat.eqb_refl. cbn [negb]. take_fields.
Qed.

Definition blob : Type := N * list Z * list Z.
Definition blob_bytes (l : blob) : bytes :=
  let '(layer, k, v) := l in
  id_bytes layer ++ usize_bytes (length k) ++ usize_bytes (length v) ++ words_bytes k ++ words_bytes v.
Definition blob_ok (h : KvSessionHeader) (l : blob) : Prop :=
  let '(layer, k, v) := l in
  fits_id layer ∧ length k = layer_words h ∧ length v = layer_words h ∧
  Forall word k ∧ Forall word v.

Lemma takes_blob h l : header_ok h → blob_ok h l → takes (next_layer h) (blob_bytes l) l.
Proof.
  intros [_ _ _ _ _ _ _ Hf]. destruct l as [[layer k] v]. intros (? & Hk & Hv & Wk & Wv).
  unfold next_layer, blob_bytes. rewrite Hk, Hv. take_fields.
  rewrite Nat.eqb_refl. cbn [negb orb]. rewrite <-Hk at 1.
  take_field (takes_words k (length k) Wk). rewrite <-Hv.
  take_field (takes_words v (length v) Wv). take_fields.
Qed.

Lemma writer_layer_ok l w : (wr_layers w < hd_n_layer (wr_header w))%nat →
  blob_ok (wr_header w) l →
  writer_layer l.1.1 l.1.2 l.2 w =
    Ok (mkWriter (put (blob_bytes l) (wr_sink w)) (wr_header w) (S (wr_layers w)) (wr_host w)).
Proof.
  destruct l as [[layer k] v]. intros Hl (? & Hk & Hv & _). unfold writer_layer, blob_bytes. simpl.
  rewrite Hk, Hv, Nat.eqb_refl. cbn [negb orb]. rewrite (proj2 (Nat.leb_gt _ _)) by done.
  by rewrite !puts_words, !put_app.
Qed.

(** Everything a checksum covers. *)
Definition payload_bytes (h : KvSessionHeader) (ls : list blob) (st : KvSessionState)
    (host : bytes) : bytes :=
  header_bytes h ++ concat (map blob_bytes ls) ++ state_bytes st
  ++ usize_bytes (length host) ++ host.

Definition sealed (payload : bytes) : bytes :=
  payload ++ u64_bytes (hash_bytes FNV_OFFSET payload).

(** The parts of a file before its checksum. *)
Definition payload : source (KvSessionHeader * list blob * (KvSessionState * bytes)) :=
  h ← read_header;
  ls ← get_list (hd_n_layer h) (next_layer h);
  st ← read_state h;
  n ← get_usize;
  host ← get n;
  mret (h, ls, (st, host)).

Lemma takes_payload h ls st host :
  header_ok h → length ls = hd_n_layer h → Forall (blob_ok h) ls →
  state_fits st → ss_n_ctx st = hd_n_ctx h → fits (length host) →
  takes payload (payload_bytes h ls st host) (h, ls, (st, host)).
Proof.
  intros Hh Hn Hls Hst Hc Hho. unfold payload, payload_bytes.
  take_field (takes_header h Hh). rewrite <-Hn.
  take_field (takes_counted _ _ _ ls (λ l, takes_blob h l Hh)).
  eapply takes_then; [by apply takes_state|]. cbn beta. take_fields.
  eapply takes_end; [by apply takes_get|]. apply takes_ret.
Qed.

(** [read_file] is [payload], then the checksum. *)
Definition report_of (h : KvSessionHeader) (st : KvSessionState) (n : Z) : KvSessionReport :=
  mkSessionReport (hd_n_layer h) (hd_n_ctx h) n (session_written st).

Lemma read_file_payload s : read_file s =
  match payload s with
  | Ok ((h, ls, (st, host)), s) =>
      n ← source_finish s; Ok ((h, ls, mkBody st host (report_of h st n)), s)
  | Err e => Err e
  | Panic => Panic
  end.
Proof.
  unfold read_file, payload, reader_finish, mbind, source_bind, mret, source_ret.
  repeat (case_match; simplify_eq/=; try done);
    unfold res_bind in *; by repeat (case_match; simplify_eq/=).
Qed.

(** ** What is accepted is accepted for the bytes taken *)

Lemma local_ret {A} (v : A) : local (mret v).
Proof. intros s w s' [= <- <-]. exists []. split; [done|apply takes_ret]. Qed.

Lemma local_refuse {A} e : local (refuse_session (A:=A) e).
Proof. done. Qed.

Lemma local_bind {A B} (m : source A) (f : A → source B) :
  local m → (∀ v, local (f v)) → local (m ≫= f).
Proof.
  intros Hm Hf s w s'. unfold mbind at 1, source_bind.
  destruct (m s) as [[v s1]| |] eqn:H1; [|done..]. intros H2.
  apply Hm in H1 as (b1 & Hb1 & T1). apply Hf in H2 as (b2 & Hb2 & T2).
  exists (b1 ++ b2). split; [by rewrite Hb1, Hb2, app_assoc|]. by eapply takes_bind.
Qed.

Lemma local_get n : local (get n).
Proof.
  intros s bs s'. unfold get. case_match eqn:Hn; [done|]. intros [= <- <-]. simpl.
  apply Nat.ltb_ge in Hn. exists (take n (so_rest s)). rewrite take_drop. split; [done|].
  apply takes_get. rewrite length_take. lia.
Qed.

Create HintDb session.
#[export] Hint Resolve local_ret local_refuse local_bind local_get : session.
#[export] Hint Extern 2 (local (match _ with _ => _ end)) => case_match : session.

(** Readers made of readers. *)
Ltac local_reader :=
  repeat first
    [ apply local_ret | apply local_refuse | apply local_get
    | apply local_bind; [| intros ?] | progress cbv zeta | case_match | solve [auto with session] ].

Lemma local_u32 : local get_u32. Proof. unfold get_u32. local_reader. Qed.
Lemma local_u64 : local get_u64. Proof. unfold get_u64. local_reader. Qed.
#[export] Hint Resolve local_u32 local_u64 : session.
Lemma local_usize : local get_usize. Proof. unfold get_usize. local_reader. Qed.
Lemma local_id : local get_id. Proof. unfold get_id. local_reader. Qed.
Lemma local_counter : local get_counter. Proof. unfold get_counter. local_reader. Qed.
#[export] Hint Resolve local_usize local_id local_counter : session.
Lemma local_list {A} n (m : source A) : local m → local (get_list n m).
Proof. intros Hm. induction n as [|n IH]; simpl; local_reader. Qed.
Lemma local_chunks fuel n : local (get_chunks fuel n).
Proof. revert n. induction fuel as [|fuel IH]; intros n; cbn [get_chunks]; local_reader. Qed.
Lemma local_words n : local (get_words n). Proof. apply local_chunks. Qed.
#[export] Hint Resolve local_list local_words : session.
Lemma local_header : local read_header. Proof. unfold read_header. local_reader. Qed.
Lemma local_blob h : local (next_layer h). Proof. unfold next_layer. local_reader. Qed.
Lemma local_slot : local read_slot. Proof. unfold read_slot. local_reader. Qed.
Lemma local_span : local read_span. Proof. unfold read_span. local_reader. Qed.
#[export] Hint Resolve local_header local_blob local_slot local_span : session.
Lemma local_spans : local read_spans. Proof. unfold read_spans. local_reader. Qed.
Lemma local_layer_state h : local (read_layer_state h).
Proof. unfold read_layer_state. local_reader. Qed.
#[export] Hint Resolve local_spans local_layer_state : session.
Lemma local_state h : local (read_state h). Proof. unfold read_state. local_reader. Qed.
#[export] Hint Resolve local_state : session.
Lemma local_payload : local payload. Proof. unfold payload. local_reader.
Qed.

#[local] Transparent u32_bytes u64_bytes.

(** An accepted file is a payload and its checksum, and the payload is what
    was read. *)
Lemma hash_byte_range h b : 0 ≤ hash_byte h b < 2 ^ 64.
Proof. apply Z.mod_pos_bound. lia. Qed.

Lemma hash_bytes_range h bs : 0 ≤ h < 2 ^ 64 → 0 ≤ hash_bytes h bs < 2 ^ 64.
Proof.
  revert h. induction bs as [|b bs IH]; intros h Hh; [done|]. simpl. apply IH, hash_byte_range.
Qed.

Lemma FNV_OFFSET_range : 0 ≤ FNV_OFFSET < 2 ^ 64.
Proof. done. Qed.

Lemma source_finish_ok s n : 0 ≤ so_hash s < 2 ^ 64 → source_finish s = Ok n →
  so_rest s = u64_bytes (so_hash s).
Proof.
  intros Hh. unfold source_finish. case_match eqn:Hl; [done|]. apply Nat.ltb_ge in Hl.
  case_match eqn:Hc; [done|]. case_match eqn:Hd; [|done]. intros _.
  apply negb_false_iff, Z.eqb_eq in Hc.
  rewrite <-(take_drop 8 (so_rest s)), Hd, app_nil_r, <-Hc.
  assert (length (take 8 (so_rest s)) = 8%nat) as H8 by (rewrite length_take; lia).
  unfold u64_bytes. by rewrite split_le_combine'.
Qed.

Lemma source_finish_intact hash n : 0 ≤ hash < 2 ^ 64 →
  source_finish (mkSource (u64_bytes hash) hash n) = Ok (n + 8).
Proof.
  intros Hh. unfold source_finish. cbn [so_rest so_hash so_read].
  assert (length (u64_bytes hash) = 8%nat) as H8 by apply length_le_split.
  rewrite H8. cbn [Nat.ltb Nat.leb]. rewrite take_ge, drop_ge by lia.
  unfold u64_bytes. by rewrite le_combine_split, Z.mod_small, Z.eqb_refl.
Qed.

Lemma accepted_sealed file v s : read_file (source_new file) = Ok (v, s) →
  ∃ bs ls, file = sealed bs ∧ takes payload bs ls ∧ v.1 = ls.1 ∧
    (bd_state v.2, bd_host v.2) = ls.2.
Proof.
  rewrite read_file_payload. destruct (payload _) as [[[[h ls] [st host]] s1]| |] eqn:Hp; [|done..].
  intros (n & Hn & [= <- <-])%res_bind_ok.
  apply local_payload in Hp as Hb. destruct Hb as (bs & Hbs & T). simpl in Hbs.
  exists bs, (h, ls, (st, host)). split_and!; [|done..].
  specialize (T (so_rest s1) FNV_OFFSET 0). rewrite <-Hbs in T.
  change (mkSource file FNV_OFFSET 0) with (source_new file) in T. rewrite Hp in T.
  injection T as T. apply source_finish_ok in Hn.
  - rewrite Hbs, Hn, T. done.
  - rewrite T. apply hash_bytes_range, FNV_OFFSET_range.
Qed.

(** The bookkeeping, the host state and the checksum, once the header and the
    layers [done] have been read. *)
Definition tail_bytes (st : KvSessionState) (host : bytes) : bytes :=
  state_bytes st ++ usize_bytes (length host) ++ host.

Lemma finish_sealed h st host rest n hash :
  state_fits st → ss_n_ctx st = hd_n_ctx h → fits (length host) → 0 ≤ hash < 2 ^ 64 →
  rest = tail_bytes st host ++ u64_bytes (hash_bytes hash (tail_bytes st host)) →
  ∃ s, reader_finish h (mkSource rest hash n) =
    Ok (mkBody st host (report_of h st (n + zlen (tail_bytes st host) + 8)), s).
Proof.
  intros Hst Hc Hho Hr ->. unfold reader_finish.
  assert (takes (st ← read_state h; n ← get_usize; host ← get n; mret (st, host))
            (tail_bytes st host) (st, host)) as ->.
  { eapply takes_then; [by apply takes_state|]. cbn beta. take_fields.
    eapply takes_end; [by apply takes_get|]. apply takes_ret. }
  eexists. rewrite source_finish_intact; [done|]. by apply hash_bytes_range.
Qed.

Lemma read_sealed bs h ls st host : takes payload bs (h, ls, (st, host)) →
  read_file (source_new (sealed bs)) =
    Ok ((h, ls, mkBody st host (report_of h st (zlen bs + 8))),
        mkSource (u64_bytes (hash_bytes FNV_OFFSET bs)) (hash_bytes FNV_OFFSET bs) (zlen bs)).
Proof.
  intros T. rewrite read_file_payload. unfold sealed, source_new. rewrite T.
  rewrite source_finish_intact; [done|]. apply hash_bytes_range, FNV_OFFSET_range.
Qed.

(** ** What the checksum catches *)

Definition FNV_INVERSE : Z := 14886173955864302971.

Lemma times_prime_inj x y :
  0 ≤ x < 2 ^ 64 → 0 ≤ y < 2 ^ 64 → u64 (x * FNV_PRIME) = u64 (y * FNV_PRIME) → x = y.
Proof.
  intros Hx Hy H.
  assert (∀ z, 0 ≤ z < 2 ^ 64 → u64 (u64 (z * FNV_PRIME) * FNV_INVERSE) = z) as Hinv.
  { intros z Hz. unfold u64. rewrite Zmult_mod_idemp_l, <-Z.mul_assoc, <-Zmult_mod_idemp_r.
    change ((FNV_PRIME * FNV_INVERSE) mod 2 ^ 64) with 1. rewrite Z.mul_1_r.
    by apply Z.mod_small. }
  rewrite <-(Hinv x), <-(Hinv y) by done. by rewrite H.
Qed.

Lemma lxor_range h b : 0 ≤ h < 2 ^ 64 → 0 ≤ Z.lxor h (uz b) < 2 ^ 64.
Proof.
  intros Hh. pose proof (byte.unsigned_range b) as Hb. unfold uz. split.
  - apply Z.lxor_nonneg. lia.
  - assert (∀ x, 0 ≤ x < 2 ^ 64 → Z.log2 x < 64) as Hlog.
    { intros x Hx. destruct (Z.eq_dec x 0) as [-> |]; [done|]. apply Z.log2_lt_pow2; lia. }
    apply Z.log2_lt_cancel. eapply Z.le_lt_trans; [apply Z.log2_lxor; lia|].
    rewrite Z.log2_pow2 by lia. apply Z.max_lub_lt; apply Hlog; lia.
Qed.

Lemma hash_byte_inj h h' b b' : 0 ≤ h < 2 ^ 64 → 0 ≤ h' < 2 ^ 64 →
  hash_byte h b = hash_byte h' b' → Z.lxor h (uz b) = Z.lxor h' (uz b').
Proof. intros Hh Hh'. apply times_prime_inj; by apply lxor_range. Qed.

Lemma lxor_cancel_r a b c : Z.lxor a c = Z.lxor b c → a = b.
Proof.
  intros H. apply (f_equal (λ z, Z.lxor z c)) in H.
  by rewrite !Z.lxor_assoc, !Z.lxor_nilpotent, !Z.lxor_0_r in H.
Qed.

Lemma hash_bytes_inj h h' bs : 0 ≤ h < 2 ^ 64 → 0 ≤ h' < 2 ^ 64 →
  hash_bytes h bs = hash_bytes h' bs → h = h'.
Proof.
  revert h h'. induction bs as [|b bs IH]; intros h h' Hh Hh' H; [done|]. simpl in H.
  apply IH in H; [|apply hash_byte_range..]. apply hash_byte_inj in H; [|done..].
  by apply lxor_cancel_r in H.
Qed.

(** Two runs of bytes that differ in one byte have different checksums. *)
Lemma hash_detects pre b b' post :
  hash_bytes FNV_OFFSET (pre ++ b :: post) = hash_bytes FNV_OFFSET (pre ++ b' :: post) → b = b'.
Proof.
  pose proof (hash_bytes_range FNV_OFFSET pre FNV_OFFSET_range) as Hr.
  rewrite !hash_bytes_app. simpl. intros H.
  apply hash_bytes_inj in H; [|apply hash_byte_range..].
  apply hash_byte_inj in H; [|done..]. rewrite !(Z.lxor_comm (hash_bytes _ _)) in H.
  apply lxor_cancel_r in H. unfold uz in H. by apply byte.unsigned_inj in H.
Qed.

Lemma length_sealed bs : length (sealed bs) = (length bs + 8)%nat.
Proof. unfold sealed, u64_bytes. by rewrite length_app, length_le_split. Qed.

Lemma sealed_inj bs bs' : sealed bs = sealed bs' → bs = bs'.
Proof.
  intros H. pose proof (f_equal length H) as Hl. rewrite !length_sealed in Hl.
  unfold sealed in H. apply app_inj_1 in H as [H _]; [done|lia].
Qed.

Lemma sealed_one_byte bs bs' i b b' :
  sealed bs !! i = Some b → sealed bs' = <[i := b']> (sealed bs) → b = b'.
Proof.
  intros Hi H. pose proof (f_equal length H) as Hl. rewrite length_insert, !length_sealed in Hl.
  assert (length bs' = length bs) as Hl' by lia.
  destruct (decide (i < length bs)%nat) as [Hlt|Hge].
  - unfold sealed in H. rewrite insert_app_l in H by done.
    apply app_inj_1 in H as [Hb Hs]; [|by rewrite length_insert].
    unfold sealed in Hi. rewrite lookup_app_l in Hi by done.
    apply list_elem_of_split_length in Hi as (pre & post & -> & ->).
    rewrite insert_app_r_alt, Nat.sub_diag in Hb by done. simpl in Hb. subst bs'.
    apply (f_equal le_combine) in Hs. unfold u64_bytes in Hs. rewrite !le_combine_split in Hs.
    rewrite !Z.mod_small in Hs by apply (hash_bytes_range FNV_OFFSET), FNV_OFFSET_range.
    symmetry. by apply hash_detects in Hs.
  - assert (bs' = bs) as ->.
    { unfold sealed in H. rewrite insert_app_r_alt in H by lia.
      by apply app_inj_1 in H as [-> _]. }
    rewrite H in Hi. apply lookup_lt_Some in Hi as Hlt.
    rewrite list_lookup_insert_eq in Hi by (rewrite length_insert in Hlt; done). congruence.
Qed.

(** No reader panics. *)
Definition calm {A} (m : source A) : Prop := ∀ s, m s ≠ Panic.

Lemma still_bind {A B} (m : source A) (f : A → source B) :
  calm m → (∀ v, calm (f v)) → calm (m ≫= f).
Proof.
  intros Hm Hf s. unfold mbind, source_bind. specialize (Hm s).
  destruct (m s) as [[v s']| |]; [apply Hf|done..].
Qed.
Lemma still_ret {A} (v : A) : calm (mret v). Proof. done. Qed.
Lemma calm_refuse {A} e : calm (refuse_session (A:=A) e). Proof. done. Qed.
Lemma still_get n : calm (get n). Proof. intros s. unfold get. by case_match. Qed.

Ltac calm_reader :=
  repeat first
    [ apply still_ret | apply calm_refuse | apply still_get
    | apply still_bind; [| intros ?] | progress cbv zeta | case_match
    | solve [auto with session] ].

Lemma calm_u32 : calm get_u32. Proof. unfold get_u32. calm_reader. Qed.
Lemma calm_u64 : calm get_u64. Proof. unfold get_u64. calm_reader. Qed.
#[export] Hint Resolve calm_u32 calm_u64 : session.
Lemma calm_usize : calm get_usize. Proof. unfold get_usize. calm_reader. Qed.
Lemma calm_id : calm get_id. Proof. unfold get_id. calm_reader. Qed.
Lemma calm_counter : calm get_counter. Proof. unfold get_counter. calm_reader. Qed.
#[export] Hint Resolve calm_usize calm_id calm_counter : session.
Lemma calm_list {A} n (m : source A) : calm m → calm (get_list n m).
Proof. intros Hm. induction n as [|n IH]; simpl; calm_reader. Qed.
Lemma calm_chunks fuel n : calm (get_chunks fuel n).
Proof. revert n. induction fuel as [|fuel IH]; intros n; cbn [get_chunks]; calm_reader. Qed.
Lemma calm_words n : calm (get_words n). Proof. apply calm_chunks. Qed.
#[export] Hint Resolve calm_list calm_words : session.
Lemma calm_header : calm read_header. Proof. unfold read_header. calm_reader. Qed.
Lemma calm_blob h : calm (next_layer h). Proof. unfold next_layer. calm_reader. Qed.
Lemma calm_slot : calm read_slot. Proof. unfold read_slot. calm_reader. Qed.
Lemma calm_span : calm read_span. Proof. unfold read_span. calm_reader. Qed.
#[export] Hint Resolve calm_header calm_blob calm_slot calm_span : session.
Lemma calm_spans : calm read_spans. Proof. unfold read_spans. calm_reader. Qed.
Lemma calm_layer_state h : calm (read_layer_state h).
Proof. unfold read_layer_state. calm_reader. Qed.
#[export] Hint Resolve calm_spans calm_layer_state : session.
Lemma calm_state h : calm (read_state h). Proof. unfold read_state. calm_reader. Qed.
#[export] Hint Resolve calm_state : session.
Lemma calm_payload : calm payload. Proof. unfold payload. calm_reader. Qed.

Lemma verify_calm file : verify file ≠ Panic.
Proof.
  unfold verify. rewrite read_file_payload. pose proof (calm_payload (source_new file)) as Hp.
  destruct (payload _) as [[[[h ls] [st host]] s]| |]; [|done..].
  unfold source_finish. by repeat case_match.
Qed.

(** ** An accepted file is the only one like it *)

Lemma verify_sealed file h : verify file = Ok h →
  ∃ bs ls, file = sealed bs ∧ takes payload bs ls ∧ ls.1.1 = h.
Proof.
  unfold verify. intros ([[[h' ls] body] s] & H & [= ->])%res_bind_ok.
  apply accepted_sealed in H as (bs & [[h'' ls'] t] & -> & T & Heq & _).
  simplify_eq/=. eauto.
Qed.

Lemma verify_extended file extra h : extra ≠ [] → verify file = Ok h →
  verify (file ++ extra) = Err TrailingBytes.
Proof.
  intros Hne (bs & [[h' ls] [st host]] & -> & T & _)%verify_sealed.
  unfold verify. rewrite read_file_payload. unfold source_new, sealed.
  rewrite <-app_assoc, T. unfold source_finish. cbn [so_rest so_hash so_read].
  assert (length (u64_bytes (hash_bytes FNV_OFFSET bs)) = 8%nat) as H8 by apply length_le_split.
  rewrite length_app, H8. rewrite (proj2 (Nat.ltb_ge _ _)) by lia.
  rewrite (take_app_length' _ _ 8), (drop_app_length' _ _ 8) by done. unfold u64_bytes.
  rewrite le_combine_split, Z.mod_small, Z.eqb_refl
    by (apply (hash_bytes_range FNV_OFFSET bs), FNV_OFFSET_range).
  cbn [negb]. by destruct extra.
Qed.

(** [bad] is [good] cut short, gone on with, or with one byte changed. *)
Definition damaged (good bad : bytes) : Prop :=
  (∃ extra, extra ≠ [] ∧ good = bad ++ extra) ∨ (∃ extra, extra ≠ [] ∧ bad = good ++ extra) ∨
  (∃ i x y, good !! i = Some x ∧ x ≠ y ∧ bad = <[i := y]> good).

Lemma damaged_refused good bad h : verify good = Ok h → damaged good bad →
  ∃ e, verify bad = Err e.
Proof.
  intros Hg Hd. destruct (verify bad) as [h'|e|] eqn:Hb; [exfalso|by eexists|by apply verify_calm in Hb].
  destruct Hd as [(extra & Hne & ->)|[(extra & Hne & ->)|(i & x & y & Hi & Hxy & ->)]].
  - by rewrite (verify_extended _ _ h') in Hg.
  - by rewrite (verify_extended _ _ h) in Hb.
  - apply verify_sealed in Hg as (bs & _ & -> & _), Hb as (bs' & _ & Heq & _).
    by apply (sealed_one_byte bs bs' i x y) in Hi.
Qed.

Lemma sink_finish_new p : sink_finish (put p sink_new) = (sealed p, zlen p + 8).
Proof. done. Qed.
