(* ===== verification/SessionProps.v ===== *)
(** * Saved sessions come back, damaged ones change nothing

    Saving writes the sealed payload of the arena's header, layers and
    bookkeeping; loading it creates the regions one layer at a time
    ([loaded]) and restores the run table.  A file that differs from a saved
    one in a byte, or is cut short, or goes on after its end, is refused with
    the allocator as it was. *)
From Stdlib Require Import ZArith Strings.Byte.
From stdpp Require Import base numbers list gmap option sorting.
From S2P Require Import Prelude Slices KvCache KvFacts KvArena Backend Graph Allocator KvReads.
From S2P Require Import Gguf GgufWrite GgufRound KvSession KvSessionFacts.
Local Open Scope nat_scope.

Section session.
Context {P : Type} `{!CellPool Z P, !BufferPool Z P, !BufferPoolLaws Z P}.

Abbreviation kvc a := (ga_kv (al_arena a)).

(** One layer of the arena a header describes, with its rows [k] and [v]. *)
Record layer_saved (h : KvSessionHeader) (a : GraphAllocator P) (id : N) (l : KvLayer)
    (k v : list Z) : Prop := {
  lv_n_ctx : lay_n_ctx l = hd_n_ctx h;
  lv_n_embd : lay_n_embd l = hd_n_embd h;
  lv_elems : lay_elems l = hd_row_elems h * hd_n_ctx h;
  lv_packed : lay_packed l = negb (hd_row_elems h =? hd_n_embd h);
  lv_backends : br_backend (lay_k l) = CPU ∧ br_backend (lay_v l) = CPU;
  lv_k : host_read (lay_k l) a = Some k;
  lv_v : host_read (lay_v l) a = Some v;
  lv_blob : blob_ok h (id, k, v)
}.

(** The allocator holds an arena the header describes. *)
Record saveable (h : KvSessionHeader) (a : GraphAllocator P) : Prop := {
  sv_header : header_ok h;
  sv_backend : hd_backend h = CPU;
  sv_format : hd_format h = al_format a;
  sv_wf : kv_wf (kvc a);
  sv_n_ctx : kv_n_ctx (kvc a) = hd_n_ctx h;
  sv_n_layer : size (kv_layers (kvc a)) = hd_n_layer h;
  sv_layers : map_Forall (λ id l, ∃ k v, layer_saved h a id l k v) (kv_layers (kvc a));
  sv_state : state_fits (session_state (kvc a))
}.

Lemma length_in_order {V} (m : gmap N V) : length (in_order m) = size m.
Proof. unfold in_order. by rewrite length_sort_by, length_map_to_list. Qed.

(** ** Saving *)

Definition blob_of (a : GraphAllocator P) (id : N) (b : blob) : Prop :=
  b.1.1 = id ∧ copy_kv_to_cpu id a = Some (b.1.2, b.2).

Section save.
Context (h : KvSessionHeader) (a : GraphAllocator P) (Hs : saveable h a).

Lemma saved_blobs : ∃ bs, Forall2 (blob_of a) (map fst (in_order (kv_layers (kvc a)))) bs ∧
  Forall (blob_ok h) bs ∧ length bs = hd_n_layer h.
Proof using Hs.
  assert (Forall (λ p, kv_layers (kvc a) !! p.1 = Some p.2) (in_order (kv_layers (kvc a)))) as Hf.
  { apply list.Forall_forall. intros [k l] Hk. by apply elem_of_in_order in Hk. }
  rewrite <-(sv_n_layer _ _ Hs), <-length_in_order.
  induction Hf as [|[id l] ls Hl Hf IH]; simpl; [by exists []; split_and!; constructor|].
  destruct IH as (bs & H1 & H2 & H3). simpl in Hl.
  destruct (sv_layers _ _ Hs _ _ Hl) as (k & v & Hkv).
  exists ((id, k, v) :: bs). simpl. rewrite H3. split_and!; [|by constructor; [apply Hkv|]|done].
  constructor; [|done]. split; [done|]. simpl. unfold copy_kv_to_cpu.
  by rewrite Hl, (lv_k _ _ _ _ _ _ Hkv), (lv_v _ _ _ _ _ _ Hkv).
Qed.

Lemma cell_words_saved l k v id : layer_saved h a id l k v → cell_words l = hd_row_elems h.
Proof using Hs.
  intros [Hc _ He _ _ _ _ _]. unfold cell_words. rewrite Hc, He.
  pose proof (ho_n_ctx _ (sv_header _ _ Hs)).
  replace (hd_n_ctx h `max` 1) with (hd_n_ctx h) by lia. apply Nat.div_mul. naive_solver.
Qed.

Lemma session_header_saved l k v id : layer_saved h a id l k v →
  session_header (hd_n_layer h) l a = h.
Proof using Hs.
  intros Hl. unfold session_header. rewrite (cell_words_saved _ _ _ _ Hl).
  destruct Hl as [Hc He _ _ [Hb _] _ _ _]. rewrite Hc, He, Hb. unfold kv_element_format. simpl.
  destruct h as [ver f bk nl nc ne row], Hs as [[Hv _ _ _ _ _ _ _] Hbk Hf _ _ _ _ _].
  simpl in *. by subst.
Qed.

Lemma check_layer_saved l0 k0 v0 id0 id : layer_saved h a id0 l0 k0 v0 →
  id ∈ map fst (in_order (kv_layers (kvc a))) → check_layer l0 a id = Ok ().
Proof using Hs.
  intros H0 ([id' l] & -> & Hl%elem_of_in_order)%list_elem_of_fmap. unfold check_layer. simpl.
  rewrite Hl. simpl. destruct (sv_layers _ _ Hs _ _ Hl) as (k & v & H).
  rewrite (cell_words_saved _ _ _ _ H), (cell_words_saved _ _ _ _ H0).
  destruct H as [-> -> _ _ [-> _] _ _ _], H0 as [-> -> _ _ [-> _] _ _ _].
  by rewrite !Nat.eqb_refl, N.eqb_refl.
Qed.

Lemma save_layers ids bs w : Forall2 (blob_of a) ids bs → Forall (blob_ok h) bs →
  wr_header w = h → wr_layers w + length bs = hd_n_layer h →
  try_fold (save_layer a) w ids =
    Ok (mkWriter (put (concat (map blob_bytes bs)) (wr_sink w)) h (hd_n_layer h) (wr_host w)).
Proof using Type.
  clear Hs. intros Hb. revert w. induction Hb as [|id [[id' k] v] ids bs [Hid Hb] _ IH]; intros w Ho Hh Hn.
  - cbn [map concat try_fold]. rewrite put_nil. destruct w; simpl in *. do 2 f_equal; [done|lia].
  - inversion Ho as [|? ? Hok Hoks]; subst. cbn [fst snd length] in *.
    cbn [try_fold map concat].
    assert (save_layer a w id' = Ok (mkWriter (put (blob_bytes (id', k, v)) (wr_sink w))
      (wr_header w) (S (wr_layers w)) (wr_host w))) as ->.
    { unfold save_layer. rewrite Hb. cbn [ok_or mbind res_bind].
      pose proof (writer_layer_ok (id', k, v) w) as Hw. cbn [fst snd] in Hw.
      by rewrite Hw by (done || lia). }
    cbn [mbind res_bind]. rewrite IH by (done || cbn [wr_layers]; lia).
    cbn [wr_sink wr_host]. by rewrite put_app.
Qed.

Lemma kv_save_sealed host :
  ∃ bs, Forall2 (blob_of a) (map fst (in_order (kv_layers (kvc a)))) bs ∧
    Forall (blob_ok h) bs ∧ length bs = hd_n_layer h ∧
    let p := payload_bytes h bs (session_state (kvc a)) host in
    kv_save_with_host host a =
      Ok (report_of h (session_state (kvc a)) (zlen p + 8)%Z, sealed p).
Proof using Hs.
  destruct saved_blobs as (bs & Hb & Ho & Hn). exists bs. split_and!; [done..|].
  unfold kv_save_with_host. pose proof (ho_layers _ (sv_header _ _ Hs)) as [Hnz _].
  destruct (in_order (kv_layers (kvc a))) as [|[id l] ls] eqn:Hio.
  { simpl in Hb. inversion Hb; subst. simpl in Hn. congruence. }
  assert (kv_layers (kvc a) !! id = Some l) as Hl.
  { apply elem_of_in_order. rewrite Hio. by left. }
  destruct (sv_layers _ _ Hs _ _ Hl) as (k & v & Hkv). cbn [map head ok_or fst mbind res_bind].
  rewrite Hl. cbn [ok_or mbind res_bind]. change (id :: map fst ls) with (map fst ((id, l) :: ls)).
  rewrite (try_map_total _ (λ _, ())) by
    (intros x Hx; eapply check_layer_saved; [done|by rewrite Hio]).
  cbn [mbind res_bind]. rewrite length_map, <-Hio, length_in_order, (sv_n_layer _ _ Hs).
  rewrite (session_header_saved _ _ _ _ Hkv), Hio.
  rewrite (save_layers _ bs) by done. cbn [mbind res_bind map_err].
  unfold writer_finish. simpl wr_header. simpl wr_layers. simpl ss_n_ctx.
  rewrite (sv_n_ctx _ _ Hs), !Nat.eqb_refl. cbn [negb wr_sink wr_host set_host].
  rewrite wr_sink_create, puts_state, puts_usize, <-!put_app.
  fold (tail_bytes (session_state (kvc a)) host).
  rewrite sink_finish_new. reflexivity.
Qed.
End save.

(** ** Loading *)

Definition shape_of (h : KvSessionHeader) (kr vr : BufRef) : KvLayer :=
  mkKvLayer kr vr (hd_row_elems h * hd_n_ctx h) (hd_n_ctx h) (hd_n_embd h)
    (negb (hd_row_elems h =? hd_n_embd h)) (replicate (hd_n_ctx h) FREE) 0.

(** An allocator with no arena yet, which may hold one of this shape. *)
Record ready (h : KvSessionHeader) (b : GraphAllocator P) : Prop := {
  rd_layers : kv_layers (kvc b) = ∅;
  rd_n_ctx : kv_n_ctx (kvc b) ≤ hd_n_ctx h;
  rd_pool : ∃ p, pool CPU b = Some p ∧ pool_ok p;
  rd_offload : split_offload b = false;
  rd_format : al_format b = hd_format h;
  rd_width : check_width (hd_format h) (hd_n_embd h) = true
}.

(** The layers [ls] have been applied to [b0]. *)
Record loaded (h : KvSessionHeader) (b0 b : GraphAllocator P) (ls : list blob) : Prop := {
  ld_pool : ∃ p, pool CPU b = Some p ∧ pool_ok p ∧
    ∀ id k v, (id, k, v) ∈ ls → ∃ kid vid,
      kv_layers (kvc b) !! id = Some (shape_of h (own_ref CPU kid (hd_row_elems h * hd_n_ctx h))
                                        (own_ref CPU vid (hd_row_elems h * hd_n_ctx h))) ∧
      held p kid ∧ held p vid ∧ pool_buf p kid = Some k ∧ pool_buf p vid = Some v;
  ld_dom : ∀ id, kv_layers (kvc b) !! id = None ↔ ∀ k v, (id, k, v) ∉ ls;
  ld_n_ctx : kv_n_ctx (kvc b) = if decide (ls = []) then kv_n_ctx (kvc b0) else hd_n_ctx h;
  ld_format : al_format b = al_format b0;
  ld_nodes : al_nodes b = al_nodes b0
}.

Lemma pool_set_pool (p : P) (b : GraphAllocator P) : pool CPU (set_pool CPU p b) = Some p.
Proof. unfold pool, set_pool. simpl. by rewrite lookup_insert_eq. Qed.

Lemma alloc_persistent_spec layer is_v size (b : GraphAllocator P) (p : P) : pool CPU b = Some p → pool_ok p →
  ∃ id p' b', alloc_persistent layer is_v CPU size b = (Ok (own_ref CPU id size), b') ∧
    pool CPU b' = Some p' ∧ pool_ok p' ∧ ¬ held p id ∧ (∀ j, held p' j ↔ j = id ∨ held p j) ∧
    pool_buf p' id = Some (replicate size zero) ∧
    (∀ j, j ≠ id → pool_buf p' j = pool_buf p j) ∧
    kvc b' = kvc b ∧ al_format b' = al_format b ∧ al_nodes b' = al_nodes b.
Proof.
  intros Hp Hok. destruct (alloc_buffer_spec p size Hok) as (id & p' & Ha & Hok' & Hn & Hh & Hb & Ho & _).
  unfold alloc_persistent, alloc_exact_in_pool, mbind, op_bind. rewrite Hp. simpl. rewrite Ha.
  do 3 eexists. split; [done|]. rewrite <-(pool_set_pool p' b). split_and!; try done.
Qed.

Lemma write_pool_spec id buf data (b : GraphAllocator P) (p : P) : pool CPU b = Some p → pool_ok p →
  pool_buf p id = Some buf → addressable data → length data = length buf →
  ∃ p' b', write_pool (own_ref CPU id (length data)) data b = (Ok (), b') ∧
    pool CPU b' = Some p' ∧ pool_ok p' ∧ (∀ j, held p' j ↔ held p j) ∧
    pool_buf p' id = Some data ∧ (∀ j, j ≠ id → pool_buf p' j = pool_buf p j) ∧
    kvc b' = kvc b ∧ al_format b' = al_format b ∧ al_nodes b' = al_nodes b.
Proof.
  intros Hp Hok Hb Ha Hl. destruct (write_host_spec p id buf data Hok Hb Ha Hl) as (p' & Hw & ? & ? & ? & ?).
  unfold write_pool. simpl. rewrite Hp. rewrite Hw. simpl.
  exists p'. eexists. split; [done|]. by rewrite pool_set_pool.
Qed.

Section load.
Context (h : KvSessionHeader) (b0 : GraphAllocator P).
Context (Hh : header_ok h) (Hr : ready h b0).

Lemma packed_layout_ok id backend : has_entry backend = true →
  (if negb (hd_row_elems h =? hd_n_embd h)
   then check_packed id backend (hd_n_embd h) (hd_row_elems h) else None) = None.
Proof using Hh Hr.
  intros Hb. pose proof (ho_row_width _ Hh) as Hw. pose proof (rd_width _ _ Hr) as Hc.
  unfold check_packed, reads_packed_kv. rewrite Hb, Hw.
  destruct (hd_format h); cbn [row_elems]; rewrite ?Nat.eqb_refl; [done..|].
  rewrite Hc. cbn [negb]. by case_match.
Qed.

Lemma ensure_new id (b : GraphAllocator P) (p : P) :
  kv_layers (kvc b) !! id = None → pool CPU b = Some p → pool_ok p →
  ∃ kid vid p' b', let e := hd_row_elems h * hd_n_ctx h in
    ensure_kv id CPU (hd_n_embd h) (hd_row_elems h) (hd_n_ctx h) b =
      (Ok (own_ref CPU kid e, own_ref CPU vid e), b') ∧
    pool CPU b' = Some p' ∧ pool_ok p' ∧ kid ≠ vid ∧ ¬ held p kid ∧ ¬ held p vid ∧
    (∀ j, held p' j ↔ j = vid ∨ j = kid ∨ held p j) ∧
    pool_buf p' kid = Some (replicate e zero) ∧ pool_buf p' vid = Some (replicate e zero) ∧
    (∀ j, j ≠ kid → j ≠ vid → pool_buf p' j = pool_buf p j) ∧
    kvc b' = insert_layer id (own_ref CPU kid e) (own_ref CPU vid e) (hd_n_embd h)
               (hd_row_elems h) (hd_n_ctx h) (negb (hd_row_elems h =? hd_n_embd h)) (kvc b) ∧
    al_format b' = al_format b ∧ al_nodes b' = al_nodes b.
Proof using Hh Hr BufferPoolLaws0.
  intros Hid Hp Hok. unfold ensure_kv. rewrite packed_layout_ok by done.
  unfold reads_of, mbind at 1, op_bind. rewrite Hid.
  destruct (alloc_persistent_spec id false (hd_row_elems h * hd_n_ctx h) b p)
    as (kid & p1 & b1 & H1 & Hp1 & Hok1 & Hn1 & Hh1 & Hz1 & Ho1 & Hk1 & Hf1 & Hd1); [done..|].
  unfold mbind at 1, op_bind. rewrite H1.
  destruct (alloc_persistent_spec id true (hd_row_elems h * hd_n_ctx h) b1 p1)
    as (vid & p2 & b2 & H2 & Hp2 & Hok2 & Hn2 & Hh2 & Hz2 & Ho2 & Hk2 & Hf2 & Hd2); [done..|].
  unfold mbind at 1, op_bind. rewrite H2. unfold modify, mbind, op_bind, mret, op_ret.
  assert (kid ≠ vid) as Hne by (intros ->; apply Hn2, Hh1; by left).
  exists kid, vid, p2. eexists. cbv zeta. split; [done|].
  split_and!; try done.
  - intros Hv. apply Hn2, Hh1. by right.
  - intros j. rewrite Hh2, Hh1. done.
  - by rewrite Ho2.
  - intros j Hj1 Hj2. by rewrite Ho2, Ho1.
  - simpl. by rewrite Hk2, Hk1.
  - simpl. by rewrite Hf2.
  - simpl. by rewrite Hd2.
Qed.

Lemma load_layer_spec b ls id k v :
  loaded h b0 b ls → blob_ok h (id, k, v) → (∀ k v, (id, k, v) ∉ ls) →
  ∃ b', load_layer h CPU (id, k, v) b = (Ok (), b') ∧ loaded h b0 b' (ls ++ [(id, k, v)]).
Proof using Hh Hr BufferPoolLaws0.
  intros [(p & Hp & Hok & Hls) Hdom Hctx Hfmt Hnodes] (_ & Lk & Lv & _ & _) Hnew.
  assert (layer_words h = hd_row_elems h * hd_n_ctx h) as He by apply Nat.mul_comm.
  rewrite He in Lk, Lv. pose proof (ho_words _ Hh) as Hfits. unfold fits in Hfits.
  destruct (ensure_new id b p) as (kid & vid & p1 & b1 & H1 & Hp1 & Hok1 & Hne & Hnk & Hnv &
    Hh1 & Hk1 & Hv1 & Ho1 & Hkv1 & Hf1 & Hd1); [by apply Hdom|done..|].
  cbv zeta in *. set (e := hd_row_elems h * hd_n_ctx h) in *.
  destruct (write_pool_spec kid (replicate e zero) k b1 p1) as (p2 & b2 & H2 & Hp2 & Hok2 & Hh2 &
    Hk2 & Ho2 & Hkv2 & Hf2 & Hd2); [done..|unfold addressable; lia|by rewrite length_replicate|].
  destruct (write_pool_spec vid (replicate e zero) v b2 p2) as (p3 & b3 & H3 & Hp3 & Hok3 & Hh3 &
    Hk3 & Ho3 & Hkv3 & Hf3 & Hd3);
    [done|done|by rewrite Ho2|unfold addressable; lia|by rewrite length_replicate|].
  rewrite Lk in H2. rewrite Lv in H3. exists b3. split.
  { unfold load_layer, lift_op, mbind, op_bind. rewrite H1. cbn [map_err fst snd].
    by rewrite H2, H3. }
  assert (kvc b3 = kvc b1) as Hkv by congruence. split.
  - exists p3. split_and!; [done..|]. intros id' k' v' [Hin|Hin]%elem_of_app.
    + destruct (Hls _ _ _ Hin) as (kid' & vid' & Hl' & Hhk & Hhv & Hbk & Hbv).
      assert (kid' ≠ kid ∧ kid' ≠ vid ∧ vid' ≠ kid ∧ vid' ≠ vid) as (? & ? & ? & ?)
        by (split_and!; congruence).
      exists kid', vid'. rewrite Hkv, Hkv1. simpl. rewrite lookup_insert_ne by
        (intros ->; by apply (Hnew k' v')).
      rewrite !Hh3, !Hh2, !Hh1, !Ho3, !Ho2, !Ho1 by done. split_and!; auto.
    + apply list_elem_of_singleton in Hin as [= -> -> ->]. exists kid, vid.
      rewrite Hkv, Hkv1. simpl. rewrite lookup_insert_eq, !Hh3, !Hh2, !Hh1, Ho3 by done.
      split_and!; auto.
  - intros id'. rewrite Hkv, Hkv1. simpl. destruct (decide (id' = id)) as [-> |Hni].
    + rewrite lookup_insert_eq. split; [done|]. intros Hx. exfalso. apply (Hx k v). set_solver.
    + rewrite lookup_insert_ne, Hdom by done. set_solver.
  - rewrite Hkv, Hkv1. simpl. rewrite decide_False by (by destruct ls). rewrite Hctx.
    pose proof (rd_n_ctx _ _ Hr). case_decide; lia.
  - congruence.
  - congruence.
Qed.

Lemma load_layers_spec todo ls b rest hash n :
  loaded h b0 b ls → Forall (blob_ok h) todo → NoDup (map (λ l : blob, l.1.1) (ls ++ todo)) →
  ∃ b', load_layers (length todo) h CPU
      (mkSource (concat (map blob_bytes todo) ++ rest) hash n) b =
    (Ok (mkSource rest (hash_bytes hash (concat (map blob_bytes todo)))
       (n + zlen (concat (map blob_bytes todo)))%Z), b') ∧
    loaded h b0 b' (ls ++ todo).
Proof using Hh Hr BufferPoolLaws0.
  revert ls b hash n. induction todo as [|[[id k] v] todo IH]; intros ls b hash n Hld Hok Hnd.
  - exists b. rewrite app_nil_r. split; [|done]. cbn. by rewrite Z.add_0_r.
  - inversion Hok as [|? ? Hok1 Hok2]; subst.
    destruct (load_layer_spec b ls id k v) as (b1 & H1 & Hld1); [done..| |].
    { intros k' v' Hin. rewrite map_app in Hnd.
      apply NoDup_app in Hnd as (_ & Hnd & _).
      eapply (Hnd id); [|cbn; by left]. by apply (list_elem_of_fmap_2 (λ l : blob, l.1.1)) in Hin. }
    assert ((ls ++ [(id, k, v)]) ++ todo = ls ++ (id, k, v) :: todo) as Heq
      by by rewrite <-app_assoc.
    destruct (IH (ls ++ [(id, k, v)]) b1 (hash_bytes hash (blob_bytes (id, k, v)))
      (n + zlen (blob_bytes (id, k, v)))%Z) as (b2 & H2 & Hld2);
      [done|done|by rewrite Heq|].
    rewrite Heq in Hld2. exists b2. split; [|done]. cbn [length load_layers map concat].
    unfold lift_res at 1, mbind at 1, op_bind. rewrite <-app_assoc.
    rewrite (takes_blob h (id, k, v) Hh Hok1). cbn [map_err].
    unfold mbind, op_bind. rewrite H1, H2, hash_bytes_app, zlen_app. by rewrite Z.add_assoc.
Qed.
End load.

Lemma loaded_nil h b : ready h b → loaded h b b [].
Proof.
  intros [Hl _ (p & Hp & Hok) _ _ _]. split; [|..|done|done|done].
  - exists p. split_and!; [done..|]. intros id k v Hin. by apply elem_of_nil in Hin.
  - intros id. rewrite Hl, lookup_empty. split; [|done]. intros _ k v Hin. by apply elem_of_nil in Hin.
Qed.

Lemma op_step {E A B} (m : op (P:=P) E A) (f : A → op E B) a x a' :
  m a = (Ok x, a') → (m ≫= f) a = f x a'.
Proof. intros H. unfold mbind, op_bind. by rewrite H. Qed.

(** ** The theorems *)

(** The store and the rows of [b] are those of [a]. *)
Record same_session (a b : GraphAllocator P) : Prop := {
  ss_wf : kv_wf (kvc b);
  ss_runs : kv_seqs (kvc b) = kv_seqs (kvc a) ∧ kv_spans (kvc b) = kv_spans (kvc a) ∧
    kv_identity (kvc b) = kv_identity (kvc a) ∧ arena_stats (kvc b) = arena_stats (kvc a);
  ss_cells : ∀ seq pos, cell_of (kvc b) seq pos = cell_of (kvc a) seq pos;
  ss_dom : dom (kv_layers (kvc b)) = dom (kv_layers (kvc a));
  ss_rows : ∀ id l, kv_layers (kvc a) !! id = Some l → ∃ l',
    kv_layers (kvc b) !! id = Some l' ∧ lay_owner l' = lay_owner l ∧
    lay_n_used l' = lay_n_used l ∧ lay_elems l' = lay_elems l ∧
    lay_packed l' = lay_packed l ∧ copy_kv_to_cpu id b = copy_kv_to_cpu id a
}.

Definition expect_of (h : KvSessionHeader) : KvSessionExpect :=
  mkExpect (hd_backend h) (hd_n_ctx h) (hd_n_embd h).

Section roundtrip.
Context (h : KvSessionHeader) (a b : GraphAllocator P).
Context (Hs : saveable h a) (Hr : ready h b).

(** What [restore_session] needs of the store it finds, and the rows it leaves
    in place. *)
Lemma restore_loaded bs b1 :
  Forall2 (blob_of a) (map fst (in_order (kv_layers (kvc a)))) bs → bs ≠ [] →
  loaded h b b1 bs →
  ∃ b2, restore (session_state (kvc a)) b1 = (Ok (), b2) ∧ same_session a b2.
Proof using Hs.
  intros Hb Hne [(p & Hp & _ & Hls) Hdom Hctx _ _]. rewrite decide_False in Hctx by done.
  assert (∀ id l, kv_layers (kvc a) !! id = Some l → ∃ k v, (id, k, v) ∈ bs ∧
    copy_kv_to_cpu id a = Some (k, v) ∧ layer_saved h a id l k v) as Hsaved.
  { intros id l Hl. assert (id ∈ map fst (in_order (kv_layers (kvc a)))) as Hin.
    { apply (list_elem_of_fmap_2' fst _ (id, l)); [|done]. by apply elem_of_in_order. }
    apply list_elem_of_lookup in Hin as [i Hi].
    destruct (Forall2_lookup_l _ _ _ _ _ Hb Hi) as ([[id' k] v] & Hi' & [Hid Hc]). simpl in *.
    subst id'. exists k, v. split_and!; [by apply list_elem_of_lookup; eauto|done|].
    destruct (sv_layers _ _ Hs _ _ Hl) as (k' & v' & Hl'). revert Hc. unfold copy_kv_to_cpu.
    by rewrite Hl, (lv_k _ _ _ _ _ _ Hl'), (lv_v _ _ _ _ _ _ Hl'); intros [= -> ->]. }
  assert (dom (kv_layers (kvc b1)) = dom (kv_layers (kvc a))) as Hd.
  { apply set_eq. intros id. split; intros [l Hl]%elem_of_dom; apply elem_of_dom.
    - destruct (kv_layers (kvc a) !! id) eqn:Ha; [by eexists|]. exfalso.
      enough (kv_layers (kvc b1) !! id = None) by congruence. apply Hdom. intros k v Hin.
      apply list_elem_of_lookup in Hin as [i Hi].
      destruct (Forall2_lookup_r _ _ _ _ _ Hb Hi) as (id' & Hi' & [Hid _]). simpl in Hid. subst id'.
      apply list_elem_of_lookup_2, list_elem_of_fmap in Hi' as ([id' l'] & -> & Hl'%elem_of_in_order).
      simpl in Ha. congruence.
    - destruct (Hsaved _ _ Hl) as (k & v & Hin & _). destruct (Hls _ _ _ Hin) as (? & ? & -> & _).
      by eexists. }
  assert (N.of_nat (2 * kv_n_ctx (kvc a)) < 2 ^ 64)%N as Hsmall.
  { rewrite (sv_n_ctx _ _ Hs). pose proof (ho_n_ctx _ (sv_header _ _ Hs)) as [_ Hf].
    unfold fits in Hf. lia. }
  destruct (saved_session_restores (kvc a) (kvc b1)) as (c & Hc & Hw & H1 & H2 & H3 & H4 & H5 & H6);
    [apply Hs|done|by rewrite Hctx, (sv_n_ctx _ _ Hs)|done|].
  unfold restore. rewrite Hc. eexists. split; [done|]. split; simpl.
  - done.
  - done.
  - done.
  - apply set_eq. intros id. rewrite !elem_of_dom, H5.
    assert (is_Some (kv_layers (kvc b1) !! id) ↔ is_Some (kv_layers (kvc a) !! id)) as Hiff
      by (rewrite <-!elem_of_dom; by rewrite Hd).
    destruct (kv_layers (kvc b1) !! id), (kv_layers (kvc a) !! id); simpl; naive_solver.
  - intros id l Hl. destruct (Hsaved _ _ Hl) as (k & v & Hin & Hcp & Hlv).
    destruct (Hls _ _ _ Hin) as (kid & vid & Hl1 & _ & _ & Hk & Hv).
    exists (with_table (shape_of h (own_ref CPU kid (hd_row_elems h * hd_n_ctx h))
      (own_ref CPU vid (hd_row_elems h * hd_n_ctx h))) l).
    assert (kv_layers c !! id = Some (with_table (shape_of h
      (own_ref CPU kid (hd_row_elems h * hd_n_ctx h))
      (own_ref CPU vid (hd_row_elems h * hd_n_ctx h))) l)) as Hcl by by rewrite H5, Hl1; simpl; rewrite Hl.
    split_and!; [done..| | |].
    + simpl. by rewrite (lv_elems _ _ _ _ _ _ Hlv).
    + simpl. by rewrite (lv_packed _ _ _ _ _ _ Hlv).
    + rewrite Hcp. unfold copy_kv_to_cpu, host_read. simpl. rewrite Hcl. simpl.
      unfold pool in *. simpl in *. rewrite Hp. simpl. by rewrite !read_host_buf, Hk, Hv.
Qed.

(** C27. A saved session comes back: an arena the file's header describes is
    saved with its host state, and loading that file into an allocator that has
    no arena yet returns the host state and the report of the save, and leaves
    an arena with the same run table, spans, counters and cells, whose layers
    hold the same words. *)
Theorem kv_session_file_roundtrip host : fits (length host) →
  ∃ rep file b', kv_save_with_host host a = Ok (rep, file) ∧
    kv_load_with_host file (expect_of h) b = (Ok (host, rep), b') ∧ same_session a b'.
Proof using Hs Hr BufferPoolLaws0.
  intros Hf. pose proof (sv_header _ _ Hs) as Hh.
  destruct (kv_save_sealed h a Hs host) as (bs & Hb & Ho & Hn & Hsave).
  assert (NoDup (map (λ l : blob, l.1.1) ([] ++ bs))) as Hnd.
  { simpl. replace (map (λ l : blob, l.1.1) bs) with (map fst (in_order (kv_layers (kvc a)))).
    - apply NoDup_in_order_keys.
    - clear -Hb. induction Hb as [|id l ids ls [Hid _] _ IH]; simpl; congruence. }
  pose proof (takes_payload h bs (session_state (kvc a)) host Hh Hn Ho (sv_state _ _ Hs)
    (sv_n_ctx _ _ Hs) Hf) as Hp.
  destruct (load_layers_spec h b Hh Hr bs [] b (tail_bytes (session_state (kvc a)) host ++
    u64_bytes (hash_bytes FNV_OFFSET (payload_bytes h bs (session_state (kvc a)) host)))
    (hash_bytes FNV_OFFSET (header_bytes h)) (0 + zlen (header_bytes h))) as (b1 & Hload & Hld);
    [by apply loaded_nil|done..|]. simpl app in Hld.
  assert (bs ≠ []) as Hne.
  { intros ->. pose proof (ho_layers _ Hh) as [Hz _]. apply Hz. rewrite <-Hn. reflexivity. }
  destruct (restore_loaded bs b1 Hb Hne Hld) as (b2 & Hres & Hsame).
  do 3 eexists. split; [exact Hsave|]. split; [|exact Hsame].
  unfold kv_load_with_host, expect_of, reads_of. rewrite (sv_backend _ _ Hs). cbn [ex_backend].
  erewrite op_step by done. rewrite (rd_offload _ _ Hr). cbn iota.
  assert (verify (sealed (payload_bytes h bs (session_state (kvc a)) host)) = Ok h) as Hv.
  { unfold verify. by rewrite (read_sealed _ _ _ _ _ Hp). }
  rewrite Hv. erewrite op_step by done. erewrite op_step by done.
  assert (kv_element_format CPU b = hd_format h) as -> by apply (rd_format _ _ Hr).
  assert (check_expect h (mkExpect CPU (hd_n_ctx h) (hd_n_embd h)) (hd_format h) = Ok ()) as ->.
  { unfold check_expect. cbn [ex_backend ex_n_ctx ex_n_embd].
    rewrite (sv_backend _ _ Hs), N.eqb_refl, !Nat.eqb_refl, bool_decide_true by done. done. }
  erewrite op_step by done.
  unfold source_new, sealed. unfold payload_bytes at 1. rewrite <-!app_assoc.
  rewrite (takes_header h Hh). erewrite op_step by done.
  change (has_entry CPU) with true. cbn [negb]. rewrite <-Hn at 1.
  assert (∀ r, state_bytes (session_state (kvc a)) ++ usize_bytes (length host) ++ host ++ r =
    tail_bytes (session_state (kvc a)) host ++ r) as -> by
    (intros r; unfold tail_bytes; by rewrite <-!app_assoc).
  erewrite op_step by exact Hload.
  destruct (finish_sealed h (session_state (kvc a)) host (tail_bytes (session_state (kvc a)) host ++
    u64_bytes (hash_bytes FNV_OFFSET (payload_bytes h bs (session_state (kvc a)) host)))
    (0 + zlen (header_bytes h) + zlen (concat (map blob_bytes bs)))
    (hash_bytes (hash_bytes FNV_OFFSET (header_bytes h)) (concat (map blob_bytes bs))))
    as (s & Hfin).
  { apply Hs. } { apply (sv_n_ctx _ _ Hs). } { done. }
  { apply hash_bytes_range, hash_bytes_range, FNV_OFFSET_range. }
  { unfold payload_bytes. by rewrite <-!hash_bytes_app. }
  rewrite Hfin. erewrite op_step by done. cbn [bd_state bd_host bd_report].
  assert (length (ss_layers (session_state (kvc a))) = hd_n_layer h) as ->.
  { simpl. by rewrite length_map, length_in_order, (sv_n_layer _ _ Hs). }
  rewrite Nat.eqb_refl. cbn [negb]. erewrite op_step by exact Hres.
  unfold mret, op_ret. do 4 f_equal. unfold payload_bytes. fold (tail_bytes (session_state (kvc a)) host).
  rewrite !zlen_app. lia.
Qed.
End roundtrip.

(** C28. A damaged file changes nothing: of a file the reader accepts, any
    proper beginning, any extension, and any copy with one byte changed is
    refused, whatever the run expects, with an error and the allocator exactly
    as it was; and so is the file itself when its header does not describe the
    run. *)
Theorem damaged_session_refused good h : verify good = Ok h →
  (∀ bad ex (a : GraphAllocator P), damaged good bad →
     ∃ e, kv_load_with_host bad ex a = (Err e, a)) ∧
  ∀ ex (a : GraphAllocator P),
    hd_backend h ≠ ex_backend ex ∨ hd_n_ctx h ≠ ex_n_ctx ex ∨ hd_n_embd h ≠ ex_n_embd ex ∨
    hd_format h ≠ kv_element_format (ex_backend ex) a →
    ∃ e, kv_load_with_host good ex a = (Err e, a).
Proof.
  intros Hg. split.
  - intros bad ex a Hd. destruct (damaged_refused _ _ _ Hg Hd) as [e He].
    unfold kv_load_with_host, reads_of, mbind, op_bind, lift_res, raise. rewrite He.
    destruct (split_offload a); by eexists.
  - intros ex a Hne. unfold kv_load_with_host, reads_of, mbind, op_bind, lift_res, raise.
    rewrite Hg. cbn [map_err]. destruct (split_offload a); [by eexists|].
    assert (∃ e, check_expect h ex (kv_element_format (ex_backend ex) a) = Err e) as [e ->];
      [|by eexists]. unfold check_expect.
    destruct (N.eqb_spec (hd_backend h) (ex_backend ex)); [|by eexists].
    destruct (Nat.eqb_spec (hd_n_ctx h) (ex_n_ctx ex)); [|by eexists].
    destruct (Nat.eqb_spec (hd_n_embd h) (ex_n_embd ex)); [|by eexists].
    case_bool_decide; [|by eexists]. naive_solver.
Qed.
End session.

(** ** A small session *)
Module Demo.
Import CpuBackend.
#[export] Instance words : BufferPool Z (CpuBackend.backend Z) := CpuBackend.backend_buffers 0%Z.
#[export] Instance words_laws : BufferPoolLaws Z (CpuBackend.backend Z) :=
  CpuBackend.backend_buffers_laws 0%Z.

Definition no_nodes : NodeAllocs := mkNodeAllocs ∅ ∅ ∅ ∅ ∅ ∅ ∅ ∅ ∅.
Definition with_cpu (c : KvCache) (bufs : list (list Z)) : GraphAllocator (CpuBackend.backend Z) :=
  mkAllocator (mkAlloc c {[ CPU := CpuBackend.mkBackend bufs [] ∅ ]}) F32 None [] ∅ no_nodes.

(** One layer of eight cells, two words each; sequence 2 has written two. *)
Definition saved : GraphAllocator (CpuBackend.backend Z) :=
  with_cpu KvProps.Demo.kv2 [map Z.of_nat (List.seq 0 16); map Z.of_nat (List.seq 100 16)].
Definition fresh : GraphAllocator (CpuBackend.backend Z) := with_cpu kv_new [].
Definition hd : KvSessionHeader := mkHeader VERSION F32 CPU 1 8 2 2.

Definition layer : KvLayer :=
  mkKvLayer KvProps.Demo.k0 KvProps.Demo.v0 16 8 2 false
    [FREE; FREE; 2; 2; FREE; FREE; FREE; FREE]%N 4.

Lemma saved_saveable : saveable hd saved.
Proof.
  split; [|done|done|apply KvProps.Demo.kv2_sound|by vm_compute..| |].
  - split; by vm_compute.
  - assert (kv_layers KvProps.Demo.kv2 = {[ 0%N := layer ]}) as Hls.
    { apply (bool_decide_unpack _). by vm_compute. }
    cbn [saved with_cpu al_arena ga_kv]. rewrite Hls. apply map_Forall_singleton.
    exists (map Z.of_nat (List.seq 0 16)), (map Z.of_nat (List.seq 100 16)).
    split; [reflexivity..|by split| | |]; [vm_compute; reflexivity..|].
    split_and!; [done|reflexivity..| |];
      apply (bool_decide_unpack _); vm_compute; exact I.
  - split; split_and?; apply (bool_decide_unpack _); vm_compute; exact I.
Qed.

Lemma fresh_ready : ready hd fresh.
Proof.
  split; [done|by vm_compute; lia| |done..].
  exists (CpuBackend.mkBackend [] [] ∅). split; [done|]. split; [constructor|by constructor].
Qed.
End Demo.
Import CpuBackend Demo.

Lemma kv_session_file_roundtrip_witness :
  ∃ rep file b', kv_save_with_host [Byte.x41] Demo.saved = Ok (rep, file) ∧
    kv_load_with_host file (expect_of Demo.hd) Demo.fresh = (Ok ([Byte.x41], rep), b') ∧
    same_session Demo.saved b'.
Proof.
  apply (kv_session_file_roundtrip Demo.hd Demo.saved Demo.fresh Demo.saved_saveable
    Demo.fresh_ready [Byte.x41]). by vm_compute.
Defined.

(** The file of that session is accepted; changing its last byte damages it. *)
Definition saved_file : bytes :=
  match kv_save_with_host [Byte.x41] Demo.saved with Ok (_, f) => f | _ => [] end.

Lemma damaged_session_refused_witness :
  verify saved_file = Ok Demo.hd ∧
  (∃ e, kv_load_with_host (removelast saved_file) (expect_of Demo.hd) Demo.fresh =
    (Err e, Demo.fresh)) ∧
  ∃ e, kv_load_with_host saved_file (mkExpect CPU 16 2) Demo.fresh = (Err e, Demo.fresh).
Proof.
  assert (verify saved_file = Ok Demo.hd) as Hv by (vm_compute; reflexivity).
  destruct (damaged_session_refused saved_file Demo.hd Hv (P:=CpuBackend.backend Z)) as [Hd He].
  split; [exact Hv|]. split.
  - apply Hd. left. exists [List.last saved_file Byte.x00]. split; [done|].
    vm_compute. reflexivity.
  - apply He. right. left. vm_compute. discriminate.
Defined.

(** A file can be refused after it has been applied: the bookkeeping is checked
    against the arena only once every layer has been written into its pool.
    Here the run table of an otherwise sound file claims nine of eight cells. *)
Definition overlong : KvSessionState :=
  mkSession false 8 [(2%N, mkSlot 0 9 (mkShared 0 0) 0)] [(2%N, [(0, 0, 9)])]
    [mkLayerSession 0 0 (replicate 8 FREE)] 0 0 0 0.
Definition overlong_file : bytes :=
  sealed (payload_bytes Demo.hd [(0%N, replicate 16 0%Z, replicate 16 0%Z)] overlong []).

Lemma late_refusal_leaves_rows :
  verify overlong_file = Ok Demo.hd ∧
  let '(r, b) := kv_load_with_host overlong_file (expect_of Demo.hd) Demo.fresh in
  r = Err (LdKv (SessionRun 2)) ∧ layer_count (ga_kv (al_arena b)) = 1.
Proof. split; [vm_compute; reflexivity|]. vm_compute. split; reflexivity. Qed.
