(* ===== verification/Gbnf.v ===== *)
(** * The GBNF parser of [src/grammar.rs]

    A Rust [&str] is the list of its characters, each the [Z] of its
    codepoint; the parser's cursor [i] is the text that is left.  Every
    function takes the text left and returns what is left after it.  The
    mutually recursive descent runs on fuel; [parse] gives enough of it. *)
From Stdlib Require Import ZArith String Ascii.
From stdpp Require Import base numbers list option.
From S2P Require Import Prelude.
Local Open Scope Z_scope.

Definition MAX_REPEAT : nat := 1024.

Abbreviation text := (list Z) (only parsing).

(** A character literal and a string literal of the source. *)
Definition ch (a : ascii) : Z := Z.of_N (N_of_ascii a).
Definition codes (s : string) : text := map ch (list_ascii_of_string s).
Definition QUOTE : Z := 34.
Definition NEWLINE : Z := 10.

Inductive Node :=
| NStr (cps : list Z)
| NClass (negated : bool) (ranges : list (Z * Z))
| NAny
| NSeq (items : list Node)
| NAlt (branches : list Node)
| NRep (inner : Node) (m : nat) (n : option nat)
| NRef (name : text).

(** The error values; a position is the text left at it. *)
Inductive GbnfErr :=
| Expected (lit : text) (at_ : text)
| ExpectedName (at_ : text)
| DuplicateRule (name : text)
| NoRules
| UndefinedRef (owner name : text)
| ExpectedNumber (at_ : text)
| NumberTooLarge (digits : text)
| RepeatReversed (m n : nat)
| RepeatTooLarge (n : nat)
| RepeatUnclosed (at_ : text)
| MissingParen (at_ : text)
| UnterminatedString
| UnterminatedEscape
| UnsupportedEscape (c : Z) (at_ : text)
| ExpectedHex (n : nat) (at_ : text)
| ShorthandEndpoint (at_ : text)
| UnterminatedClass
| EmptyClass
| RangeReversed (lo hi : Z)
| ExpectedAtom (at_ : text)
| OutOfFuel.

Abbreviation parser A := (text → res GbnfErr (A * text)).

(** ** Characters *)

(** [char::is_whitespace], the Unicode White_Space property. *)
Definition is_whitespace (c : Z) : bool :=
  ((9 <=? c) && (c <=? 13)) || (c =? 32) || (c =? 0x85) || (c =? 0xA0)
  || (c =? 0x1680) || ((0x2000 <=? c) && (c <=? 0x200A)) || (c =? 0x2028)
  || (c =? 0x2029) || (c =? 0x202F) || (c =? 0x205F) || (c =? 0x3000).
Definition between (lo hi : ascii) (c : Z) : bool := (ch lo <=? c) && (c <=? ch hi).
Definition is_ascii_digit (c : Z) : bool := between "0" "9" c.
Definition is_ascii_alphabetic (c : Z) : bool := between "a" "z" c || between "A" "Z" c.
Definition is_ascii_alphanumeric (c : Z) : bool := is_ascii_alphabetic c || is_ascii_digit c.
Definition is_ascii_hexdigit (c : Z) : bool :=
  is_ascii_digit c || between "a" "f" c || between "A" "F" c.
Definition name_start (c : Z) : bool := is_ascii_alphabetic c || (c =? ch "_").
Definition name_char (c : Z) : bool :=
  is_ascii_alphanumeric c || (c =? ch "_") || (c =? ch "-").

(** ** The cursor *)
Definition peek (s : text) : option Z := head s.
Definition bump (s : text) : text := tail s.

(** [self.peek() == Some(c)]. *)
Definition peeks (c : Z) (s : text) : bool :=
  match s with x :: _ => x =? c | [] => false end.

Fixpoint skip_trivia (s : text) : text :=
  match s with
  | [] => []
  | c :: s' =>
      if is_whitespace c then skip_trivia s'
      else if c =? ch "#" then skip_comment s'
      else s
  end
with skip_comment (s : text) : text :=
  match s with
  | [] => []
  | c :: s' => if c =? NEWLINE then skip_trivia s' else skip_comment s'
  end.

Fixpoint starts_with (lit s : text) : bool :=
  match lit, s with
  | [], _ => true
  | a :: lit, b :: s => (a =? b) && starts_with lit s
  | _, [] => false
  end.

Definition expect_str (lit : text) (s : text) : res GbnfErr text :=
  if starts_with lit s then Ok (drop (length lit) s) else Err (Expected lit s).

(** The longest prefix whose characters pass a test, and the rest. *)
Fixpoint span (p : Z → bool) (s : text) : text * text :=
  match s with
  | c :: s' => if p c then let '(a, b) := span p s' in (c :: a, b) else ([], s)
  | [] => ([], [])
  end.

Definition ident : parser text := λ s,
  match s with
  | c :: s' =>
      if name_start c then let '(a, b) := span name_char s' in Ok (c :: a, b)
      else Err (ExpectedName s)
  | [] => Err (ExpectedName s)
  end.

(** [at_rule_boundary] skips trivia by bytes.  A byte of a character past
    U+007F is a leader, which is no whitespace as a character of its own, so
    only the one-byte whitespace is skipped, and a comment ends at its
    newline or with the text. *)
Definition byte_whitespace (c : Z) : bool := (c <? 0x80) && is_whitespace c.

Fixpoint skip_byte_trivia (s : text) : text :=
  match s with
  | [] => []
  | c :: s' =>
      if byte_whitespace c then skip_byte_trivia s'
      else if c =? ch "#" then skip_byte_comment s'
      else s
  end
with skip_byte_comment (s : text) : text :=
  match s with
  | [] => []
  | c :: s' => if c =? NEWLINE then skip_byte_trivia s' else skip_byte_comment s'
  end.

Definition at_rule_boundary (s : text) : bool :=
  match s with
  | c :: _ =>
      name_start c
      && starts_with (codes "::=") (skip_byte_trivia (span name_char s).2)
  | [] => false
  end.

(** ** Numbers and escapes *)
Definition digit_val (c : Z) : Z :=
  if is_ascii_digit c then c - ch "0"
  else if between "a" "f" c then c - ch "a" + 10
  else c - ch "A" + 10.
Definition from_digits (radix : Z) (ds : text) : Z :=
  foldl (λ v d, v * radix + digit_val d) 0 ds.

Definition number : parser nat := λ s,
  let '(ds, rest) := span is_ascii_digit s in
  if decide (ds = []) then Err (ExpectedNumber s) else
  let v := from_digits 10 ds in
  if v <? 2 ^ 64 then Ok (Z.to_nat v, rest) else Err (NumberTooLarge ds).

(** [hex(n)]: [all] is the whole count, for the message. *)
Fixpoint hex_digits (all n : nat) (s : text) : res GbnfErr (text * text) :=
  match n with
  | O => Ok ([], s)
  | S n =>
      match s with
      | c :: s' =>
          if is_ascii_hexdigit c then
            '(ds, s') ← hex_digits all n s'; Ok (c :: ds, s')
          else Err (ExpectedHex all s)
      | [] => Err (ExpectedHex all s)
      end
  end.
Definition hex (n : nat) : parser Z := λ s,
  '(ds, s) ← hex_digits n n s; Ok (from_digits 16 ds, s).

Definition escape : parser Z := λ s,
  match s with
  | [] => Err UnterminatedEscape
  | c :: s =>
      if c =? ch "n" then Ok (10, s)
      else if c =? ch "r" then Ok (13, s)
      else if c =? ch "t" then Ok (9, s)
      else if (c =? ch "\") || (c =? QUOTE) || (c =? ch "'") || (c =? ch "[")
        || (c =? ch "]") || (c =? ch "-") || (c =? ch "^") || (c =? ch "/") then Ok (c, s)
      else if c =? ch "x" then hex 2 s
      else if c =? ch "u" then hex 4 s
      else Err (UnsupportedEscape c s)
  end.

(** ** Character classes *)
Definition class_shorthand : parser (option (list (Z * Z))) := λ s,
  let ranges :=
    if peeks (ch "d") s then Some [(ch "0", ch "9")]
    else if peeks (ch "w") s then
      Some [(ch "0", ch "9"); (ch "A", ch "Z"); (ch "_", ch "_"); (ch "a", ch "z")]
    else if peeks (ch "s") s then Some [(9, 13); (ch " ", ch " ")]
    else None in
  match ranges with
  | None => Ok (None, s)
  | Some rs =>
      let s := bump s in
      if peeks (ch "-") s
         && negb match peek (bump s) with Some c => c =? ch "]" | None => true end
      then Err (ShorthandEndpoint s)
      else Ok (Some rs, s)
  end.

Definition push_range (ranges : list (Z * Z)) (lo hi : Z) (s : text) :
    res GbnfErr (list (Z * Z) * text) :=
  if hi <? lo then Err (RangeReversed lo hi) else Ok (ranges ++ [(lo, hi)], s).

Definition push_class_item (ranges : list (Z * Z)) (lo : Z) (s : text) :
    res GbnfErr (list (Z * Z) * text) :=
  if negb (peeks (ch "-") s) then Ok (ranges ++ [(lo, lo)], s) else
  let s := bump s in
  match s with
  | [] => Ok (ranges ++ [(lo, lo); (ch "-", ch "-")], s)
  | c :: s' =>
      if c =? ch "]" then Ok (ranges ++ [(lo, lo); (ch "-", ch "-")], s)
      else if c =? ch "\" then '(hi, s) ← escape s'; push_range ranges lo hi s
      else push_range ranges lo c s'
  end.

Fixpoint class_items (fuel : nat) (ranges : list (Z * Z)) (s : text) :
    res GbnfErr (list (Z * Z) * text) :=
  match fuel with
  | O => Err OutOfFuel
  | S fuel =>
      match s with
      | [] => Err UnterminatedClass
      | c :: s =>
          if c =? ch "]" then Ok (ranges, s)
          else if c =? ch "\" then
            '(short, s) ← class_shorthand s;
            match short with
            | Some rs => class_items fuel (ranges ++ rs) s
            | None =>
                '(lo, s) ← escape s;
                '(ranges, s) ← push_class_item ranges lo s;
                class_items fuel ranges s
            end
          else
            '(ranges, s) ← push_class_item ranges c s;
            class_items fuel ranges s
      end
  end.

(** [Vec<(u32, u32)>]'s order. *)
Definition range_le (x y : Z * Z) : bool :=
  (x.1 <? y.1) || ((x.1 =? y.1) && (x.2 <=? y.2)).

Definition char_class : parser Node := λ s,
  let negated := peeks (ch "^") s in
  let s := if negated then bump s else s in
  '(ranges, s) ← class_items (S (length s)) [] s;
  if decide (ranges = []) then Err EmptyClass
  else Ok (NClass negated (sort_by range_le ranges), s).

(** ** Literals and repetitions *)
Fixpoint string_chars (fuel : nat) (cps : list Z) (s : text) : res GbnfErr (list Z * text) :=
  match fuel with
  | O => Err OutOfFuel
  | S fuel =>
      match s with
      | [] => Err UnterminatedString
      | c :: s =>
          if c =? QUOTE then Ok (cps, s)
          else if c =? ch "\" then '(x, s) ← escape s; string_chars fuel (cps ++ [x]) s
          else string_chars fuel (cps ++ [c]) s
      end
  end.

(** The arm of [{m}], [{m,}] and [{m,n}], after the brace. *)
Definition repetition : parser (nat * option nat) := λ s,
  '(m, s) ← number s;
  let s := skip_trivia s in
  '(n, s) ←
    (if peeks (ch ",") s then
       let s := skip_trivia (bump s) in
       if peeks (ch "}") s then Ok (None, s)
       else '(n, s) ← number s; Ok (Some n, s)
     else Ok (Some m, s));
  let s := skip_trivia s in
  if negb (peeks (ch "}") s) then Err (RepeatUnclosed s) else
  let s := bump s in
  match n with
  | Some n =>
      if (n <? m)%nat then Err (RepeatReversed m n)
      else if (MAX_REPEAT <? n)%nat then Err (RepeatTooLarge n)
      else Ok ((m, Some n), s)
  | None => Ok ((m, None), s)
  end.

(** The loop of [item] over the repetition operators. *)
Fixpoint postfix (fuel : nat) (node : Node) (s : text) : res GbnfErr (Node * text) :=
  match fuel with
  | O => Err OutOfFuel
  | S fuel =>
      let s := skip_trivia s in
      if peeks (ch "*") s then postfix fuel (NRep node 0 None) (bump s)
      else if peeks (ch "+") s then postfix fuel (NRep node 1 None) (bump s)
      else if peeks (ch "?") s then postfix fuel (NRep node 0 (Some 1%nat)) (bump s)
      else if peeks (ch "{") s then
        '((m, n), s) ← repetition (bump s); postfix fuel (NRep node m n) s
      else Ok (node, s)
  end.

(** ** The descent *)

(** [alternation] and [sequence] carry what their loops have collected. *)
Fixpoint alternation (fuel : nat) (branches : list Node) (s : text) : res GbnfErr (Node * text) :=
  match fuel with
  | O => Err OutOfFuel
  | S fuel =>
      '(b, s) ← sequence fuel [] s;
      let branches := branches ++ [b] in
      let s := skip_trivia s in
      if peeks (ch "|") s then alternation fuel branches (bump s)
      else Ok (match branches with [b] => b | _ => NAlt branches end, s)
  end
with sequence (fuel : nat) (items : list Node) (s : text) : res GbnfErr (Node * text) :=
  match fuel with
  | O => Err OutOfFuel
  | S fuel =>
      let s := skip_trivia s in
      if at_rule_boundary s || bool_decide (s = []) || peeks (ch "|") s || peeks (ch ")") s then
        Ok (match items with [x] => x | _ => NSeq items end, s)
      else '(x, s) ← item fuel s; sequence fuel (items ++ [x]) s
  end
with item (fuel : nat) (s : text) : res GbnfErr (Node * text) :=
  match fuel with
  | O => Err OutOfFuel
  | S fuel => '(x, s) ← atom fuel s; postfix (S (length s)) x s
  end
with atom (fuel : nat) (s : text) : res GbnfErr (Node * text) :=
  match fuel with
  | O => Err OutOfFuel
  | S fuel =>
      let s := skip_trivia s in
      match s with
      | [] => Err (ExpectedAtom s)
      | c :: s' =>
          if c =? ch "(" then
            '(inner, s) ← alternation fuel [] s';
            let s := skip_trivia s in
            if peeks (ch ")") s then Ok (inner, bump s) else Err (MissingParen s)
          else if c =? QUOTE then
            '(cps, s) ← string_chars (S (length s')) [] s'; Ok (NStr cps, s)
          else if c =? ch "[" then char_class s'
          else if c =? ch "." then Ok (NAny, s')
          else if name_start c then '(name, s) ← ident s; Ok (NRef name, s)
          else Err (ExpectedAtom s)
      end
  end.

(** ** Rules *)
Fixpoint check_refs (node : Node) (rules : list (text * Node)) (owner : text) :
    res GbnfErr unit :=
  match node with
  | NRef name =>
      if decide (name ∈ rules.*1) then Ok () else Err (UndefinedRef owner name)
  | NSeq items | NAlt items =>
      (fix go items := match items with
       | [] => Ok ()
       | it :: items => _ ← check_refs it rules owner; go items
       end) items
  | NRep inner _ _ => check_refs inner rules owner
  | NStr _ | NClass _ _ | NAny => Ok ()
  end.

Fixpoint parse_rules (fuel : nat) (rules : list (text * Node)) (s : text) :
    res GbnfErr (list (text * Node)) :=
  match fuel with
  | O => Err OutOfFuel
  | S fuel =>
      let s := skip_trivia s in
      if decide (s = []) then Ok rules else
      '(name, s) ← ident s;
      s ← expect_str (codes "::=") (skip_trivia s);
      '(body, s) ← alternation (5 * length s + 5) [] s;
      if decide (name ∈ rules.*1) then Err (DuplicateRule name)
      else parse_rules fuel (rules ++ [(name, body)]) s
  end.

Definition parse (source : text) : res GbnfErr (list (text * Node)) :=
  rules ← parse_rules (S (length source)) [] source;
  if decide (rules = []) then Err NoRules else
  _ ← try_map (λ '(name, node), check_refs node rules name) rules;
  Ok rules.
