(* ===== verification/Grammar.v ===== *)
(** * The grammar engine of [src/grammar.rs]

    Rules compile to programs; a state is a set of call stacks of frames
    [(rule, pc)] and the bytes of an unfinished character.  A stack is kept
    with its current frame first (the source keeps it last).  [usize] and
    [u32] indices are [nat]s, codepoints [Z]s, mask words [Z]s of 64 bits.
    Left out: the counter [walked] of the mask, which only tests read, the
    texts of the messages and [describe], which prints one. *)
From Stdlib Require Import ZArith String Strings.Byte.
From coqutil Require Import Byte.
From stdpp Require Import base numbers list gmap option.
From S2P Require Import Prelude Gguf Utf8 Gbnf.
Local Open Scope Z_scope.

Definition MAX_STACK_DEPTH : nat := 256.
Definition MAX_STACKS : nat := 64.
Definition MAX_CLOSURE_STEPS : N := 65536.
Definition MAX_MASK_CACHE : nat := 64.

(** ** Data *)
Inductive Inst :=
| ICp (c : Z)
| IClass (negated : bool) (ranges : list (Z * Z))
| IAny
| ISplit (a b : nat)
| IJump (a : nat)
| ICall (rule : nat)
| IRet.

#[export] Instance Inst_eq_dec : EqDecision Inst.
Proof. solve_decision. Defined.

Abbreviation frame := (nat * nat)%type.
Abbreviation stack := (list frame).

#[export] Instance byte_countable : Countable byte.
Proof. apply (inj_countable Byte.to_N Byte.of_N). intros b. apply Byte.of_to_N. Defined.

Record StateKey := { stacks : list stack; partial : bytes; done : bool }.

#[export] Instance StateKey_eq_dec : EqDecision StateKey.
Proof. solve_decision. Defined.
#[export] Instance StateKey_countable : Countable StateKey.
Proof.
  apply (inj_countable' (λ k, (stacks k, partial k, done k))
           (λ '(a, b, c), {| stacks := a; partial := b; done := c |})).
  by intros [].
Defined.

Abbreviation mask_bits := (list Z) (only parsing).

Record GrammarState := {
  inner : StateKey;
  accepting : bool;
  cache : gmap StateKey mask_bits;
}.

Record TokenIndex := {
  buckets : list (Z * list nat);
  headless : list nat;
}.

Record Accepted := { wide : bool; ranges : list (Z * Z) }.

Inductive Walk := Whole | Buckets (a : Accepted).

Record Grammar := {
  rules : list (list Inst);
  names : list text;
  root : nat;
  n_vocab : nat;
  pieces : list (option bytes);
  eog_ids : list nat;
  source : text;
  index : TokenIndex;
}.

(** Error values: what stops the closure, a step, a token. *)
Inductive CloseErr := TooManySteps | TooDeep | TooManyStacks (n : nat).
Inductive Refusal :=
| Surrogate (cp : Z)
| NoStack (cp : Z)
| Closure (e : CloseErr)
| Unfinishable (bs : bytes)
| InvalidByte (b : byte).
Inductive TokenErr :=
| OutsideVocab
| AfterEnd
| EogRejected
| EmptyPiece
| Rejected (accepted : nat) (why : Refusal).

(** ** Ranges *)
Definition in_class (rs : list (Z * Z)) (cp : Z) : bool :=
  existsb (λ '(a, b), (a <=? cp) && (cp <=? b)) rs.

Fixpoint covers_from (rs : list (Z * Z)) (next hi : Z) : bool :=
  match rs with
  | [] => false
  | (a, b) :: rs =>
      if b <? next then covers_from rs next hi
      else if next <? a then false
      else if hi <=? b then true
      else covers_from rs (b + 1) hi
  end.
Definition covers (rs : list (Z * Z)) (lo hi : Z) : bool := covers_from rs lo hi.

Definition U32_MAX : Z := 2 ^ 32 - 1.

(** The loop of [merge_ranges]; [out] is kept with its last range first. *)
Fixpoint merge_loop (out rs : list (Z * Z)) : list (Z * Z) :=
  match rs with
  | [] => reverse out
  | (a, b) :: rs =>
      match out with
      | (a', b') :: out' =>
          if a <=? Z.min (b' + 1) U32_MAX then merge_loop ((a', Z.max b' b) :: out') rs
          else merge_loop ((a, b) :: out) rs
      | [] => merge_loop [(a, b)] rs
      end
  end.
Definition merge_ranges (rs : list (Z * Z)) : list (Z * Z) :=
  merge_loop [] (sort_by range_le rs).

(** [Accepted]'s methods. *)
Definition width (acc : Accepted) : Z :=
  u64 (foldr (λ '(a, b) n, u64 (u64 (b - a) + 1) + n) 0 (ranges acc)).

(** [partition_point], on a list the test is true on a prefix of. *)
Fixpoint partition_point {A} (p : A → bool) (l : list A) : nat :=
  match l with x :: l => if p x then S (partition_point p l) else O | [] => O end.

Definition contains (acc : Accepted) (cp : Z) : bool :=
  match partition_point (λ r, r.1 <=? cp) (ranges acc) with
  | O => false
  | S i => match ranges acc !! i with Some (_, b) => cp <=? b | None => false end
  end.

Definition codepoints (acc : Accepted) : list Z :=
  concat (map (λ '(a, b), seqZ a (b - a + 1)) (ranges acc)).

(** ** The program of a rule

    [emit_node] appends to the program and patches the branches it has
    emitted; [ids] numbers the rules. *)
Definition set_at (i : nat) (x : Inst) (prog : list Inst) : list Inst := <[i := x]> prog.

(** One optional copy: [split body end; body; end:]. *)
Definition emit_optional (emit : list Inst → res GbnfErr (list Inst)) (prog : list Inst) :
    res GbnfErr (list Inst) :=
  let split := length prog in
  let prog := prog ++ [ISplit 0 0] in
  let body := length prog in
  prog ← emit prog;
  Ok (set_at split (ISplit body (length prog)) prog).

(** A loop: [split body end; body; jump split; end:]. *)
Definition emit_star (emit : list Inst → res GbnfErr (list Inst)) (prog : list Inst) :
    res GbnfErr (list Inst) :=
  let split := length prog in
  let prog := prog ++ [ISplit 0 0] in
  let body := length prog in
  prog ← emit prog;
  let prog := prog ++ [IJump split] in
  Ok (set_at split (ISplit body (length prog)) prog).

(** [for _ in 0..n]. *)
Fixpoint emit_times (n : nat) (emit : list Inst → res GbnfErr (list Inst)) (prog : list Inst) :
    res GbnfErr (list Inst) :=
  match n with
  | O => Ok prog
  | S n => prog ← emit prog; emit_times n emit prog
  end.

Definition patch_jumps (jumps : list nat) (prog : list Inst) : list Inst :=
  foldl (λ prog j, set_at j (IJump (length prog)) prog) prog jumps.

Fixpoint emit_node (ids : text → option nat) (node : Node) (prog : list Inst) {struct node} :
    res GbnfErr (list Inst) :=
  match node with
  | NStr cps => Ok (foldl (λ prog c, prog ++ [ICp c]) prog cps)
  | NClass negated ranges => Ok (prog ++ [IClass negated ranges])
  | NAny => Ok (prog ++ [IAny])
  | NRef name =>
      id ← ok_or (ids name) (UndefinedRef [] name);
      Ok (prog ++ [ICall id])
  | NSeq items =>
      (fix go items prog := match items with
       | [] => Ok prog
       | it :: items => prog ← emit_node ids it prog; go items prog
       end) items prog
  | NAlt branches =>
      (fix go branches jumps prog := match branches with
       | [] => Ok (patch_jumps jumps prog)
       | [branch] => prog ← emit_node ids branch prog; Ok (patch_jumps jumps prog)
       | branch :: branches =>
           let split := length prog in
           let prog := prog ++ [ISplit 0 0] in
           let start := length prog in
           prog ← emit_node ids branch prog;
           let j := length prog in
           let prog := prog ++ [IJump 0] in
           go branches (jumps ++ [j]) (set_at split (ISplit start (length prog)) prog)
       end) branches [] prog
  | NRep inner m n =>
      prog ← emit_times m (emit_node ids inner) prog;
      match n with
      | None => emit_star (emit_node ids inner) prog
      | Some total => emit_times (total - m) (emit_optional (emit_node ids inner)) prog
      end
  end.

(** ** The epsilon closure *)
Inductive Flow := FSplit (a b : nat) | FJump (a : nat) | FCall (r : nat) | FRet | FConsume.

Section engine.
Context (g : Grammar).

Definition inst_at (f : frame) : option Inst := rules g !! f.1 ≫= (.!! f.2).

Definition flow (f : frame) : option Flow :=
  (λ i, match i with
        | ISplit a b => FSplit a b
        | IJump a => FJump a
        | ICall r => FCall r
        | IRet => FRet
        | ICp _ | IClass _ _ | IAny => FConsume
        end) <$> inst_at f.

(** [work] and [budget]: the stacks to visit, the next one first, and how
    many more the loop may take. *)
Fixpoint close_loop (budget : nat) (work : list stack) (seen : gset stack) (out : list stack) :
    res CloseErr (list stack) :=
  match work with
  | [] => Ok out
  | st :: work =>
      match budget with
      | O => Err TooManySteps
      | S budget =>
          if decide (st ∈ seen) then close_loop budget work seen out else
          let seen := {[ st ]} ∪ seen in
          if (MAX_STACK_DEPTH <? length st)%nat then Err TooDeep else
          match st with
          | [] => Panic
          | f :: below =>
              match flow f with
              | None => Panic
              | Some (FSplit a b) =>
                  close_loop budget (((f.1, b) :: below) :: ((f.1, a) :: below) :: work) seen out
              | Some (FJump a) => close_loop budget (((f.1, a) :: below) :: work) seen out
              | Some (FCall r) =>
                  close_loop budget (((r, O) :: (f.1, S f.2) :: below) :: work) seen out
              | Some FRet =>
                  match below with
                  | [] => close_loop budget work seen (out ++ [st])
                  | _ => close_loop budget (below :: work) seen out
                  end
              | Some FConsume => close_loop budget work seen (out ++ [st])
              end
          end
      end
  end.

(** [Vec<[u32; 2]>]'s order, the bottom frame first. *)
Definition frame_cmp (x y : frame) : comparison :=
  match (x.1 ?= y.1)%nat with Eq => (x.2 ?= y.2)%nat | c => c end.
Fixpoint stack_le_from (x y : stack) : bool :=
  match x, y with
  | [], _ => true
  | _, [] => false
  | a :: x, b :: y =>
      match frame_cmp a b with Lt => true | Gt => false | Eq => stack_le_from x y end
  end.
Definition stack_le (x y : stack) : bool := stack_le_from (reverse x) (reverse y).

(** [dedup]: of equal neighbours the first stays. *)
Fixpoint dedup (l : list stack) : list stack :=
  match l with
  | x :: (y :: _) as l' => if decide (x = y) then dedup l' else x :: dedup l'
  | l => l
  end.

Definition close (input : list stack) : res CloseErr (list stack) :=
  out ← close_loop (N.to_nat MAX_CLOSURE_STEPS) (reverse input) ∅ [];
  let out := dedup (sort_by stack_le out) in
  if (MAX_STACKS <? length out)%nat then Err (TooManyStacks (length out)) else Ok out.

(** ** Consuming *)
Definition inst_matches (i : Inst) (cp : Z) : bool :=
  match i with
  | ICp c => c =? cp
  | IAny => true
  | IClass negated rs => negb (eqb (in_class rs cp) negated)
  | IRet | ISplit _ _ | IJump _ | ICall _ => false
  end.

(** The stacks that consume [cp], past it; [None] is the panic. *)
Fixpoint advance (sts : list stack) (cp : Z) : option (list stack) :=
  match sts with
  | [] => Some []
  | [] :: _ => None
  | (f :: below) :: sts =>
      i ← inst_at f;
      next ← advance sts cp;
      Some (if inst_matches i cp then ((f.1, S f.2) :: below) :: next else next)
  end.

Definition step (sts : list stack) (cp : Z) : res Refusal (list stack) :=
  next ← or_panic (advance sts cp);
  if decide (next = []) then Err (NoStack cp) else map_err Closure (close next).

(** Does a range of codepoints meet what the instruction consumes? *)
Definition inst_meets (i : Inst) (lo hi : Z) : bool :=
  match i with
  | IAny => true
  | ICp c => (lo <=? c) && (c <=? hi)
  | IClass false rs => existsb (λ '(a, b), (a <=? hi) && (lo <=? b)) rs
  | IClass true rs => negb (covers rs lo hi)
  | IRet | ISplit _ _ | IJump _ | ICall _ => false
  end.

Fixpoint any_stack_accepts_plain_range (sts : list stack) (lo hi : Z) : option bool :=
  match sts with
  | [] => Some false
  | [] :: _ => None
  | (f :: _) :: sts =>
      i ← inst_at f;
      if inst_meets i lo hi then Some true else any_stack_accepts_plain_range sts lo hi
  end.

(** [any] over the parts, left to right. *)
Fixpoint any_part (sts : list stack) (parts : list (Z * Z)) : option bool :=
  match parts with
  | [] => Some false
  | (a, b) :: parts =>
      r ← any_stack_accepts_plain_range sts a b;
      if r : bool then Some true else any_part sts parts
  end.
Definition any_stack_accepts_range (sts : list stack) (lo hi : Z) : option bool :=
  any_part sts (non_surrogate_parts lo hi).

Definition partial_can_complete (sts : list stack) (part : bytes) : option bool :=
  match completion_range part with
  | Some (lo, hi) => any_stack_accepts_range sts lo hi
  | None => Some false
  end.

(** [None] is the panic of an index out of range. *)
Definition state_key_accepting (key : StateKey) : option bool :=
  if done key then Some false else
  if negb (bool_decide (partial key = [])) then Some false else
  (fix go sts := match sts with
   | [] => Some false
   | [f] :: sts => i ← inst_at f; if decide (i = IRet) then Some true else go sts
   | _ :: sts => go sts
   end) (stacks key).

(** The loop of [consume] over what is left of the buffer; [i] bytes of it
    are behind, [carried] of them from the state.  Every round takes at
    least a byte, so the length of the buffer is fuel enough. *)
Fixpoint consume_loop (fuel carried i : nat) (sts : list stack) (buf : bytes) :
    res (nat * Refusal) (list stack * bytes) :=
  match buf with
  | [] => Ok (sts, [])
  | b :: _ =>
      match fuel with
      | O => Panic
      | S fuel =>
          u ← or_panic (decode_at buf);
          match u with
          | Cp cp n =>
              if (SUR_LO <=? cp) && (cp <=? SUR_HI) then Err ((i - carried)%nat, Surrogate cp)
              else
                sts ← map_err (pair (i - carried)%nat) (step sts cp);
                consume_loop fuel carried (i + n) sts (drop n buf)
          | Incomplete =>
              can ← or_panic (partial_can_complete sts buf);
              if can : bool then Ok (sts, buf) else Err ((i - carried)%nat, Unfinishable buf)
          | Invalid => Err ((i - carried)%nat, InvalidByte b)
          end
      end
  end.

Definition consume (from : StateKey) (bs : bytes) : res (nat * Refusal) StateKey :=
  let buf := partial from ++ bs in
  '(sts, rest) ← consume_loop (length buf) (length (partial from)) 0 (stacks from) buf;
  Ok {| stacks := sts; partial := rest; done := done from |}.

(** ** Tokens *)
Definition accept_token (st : GrammarState) (id : nat) : res TokenErr unit * GrammarState :=
  if (n_vocab g <=? id)%nat then (Err OutsideVocab, st)
  else if done (inner st) then (Err AfterEnd, st)
  else if decide (id ∈ eog_ids g) then
    if negb (accepting st) then (Err EogRejected, st)
    else
      (Ok (), {| inner := {| stacks := stacks (inner st); partial := partial (inner st);
                             done := true |};
                 accepting := false; cache := ∅ |})
  else
    match pieces g !! id with
    | None => (Panic, st)
    | Some None => (Err EmptyPiece, st)
    | Some (Some piece) =>
        match consume (inner st) piece with
        | Ok next =>
            match state_key_accepting next with
            | Some acc => (Ok (), {| inner := next; accepting := acc; cache := cache st |})
            | None => (Panic, st)
            end
        | Err (n, why) => (Err (Rejected n why), st)
        | Panic => (Panic, st)
        end
    end.

(** A fresh state; its [expect] is a panic. *)
Definition state : res Empty_set GrammarState :=
  match close [[(root g, O)]] with
  | Ok sts =>
      let key := {| stacks := sts; partial := []; done := false |} in
      acc ← or_panic (state_key_accepting key);
      Ok {| inner := key; accepting := acc; cache := ∅ |}
  | _ => Panic
  end.

(** ** The mask

    A mask computation threads its machinery; [None] is a panic. *)
Record MaskWalk := {
  states : list (list stack);
  intern : gmap (list stack) nat;
  memo : gmap (nat * Z) (option nat);
}.

Definition new_walk (seed : list stack) : MaskWalk :=
  {| states := [seed]; intern := {[ seed := O ]}; memo := ∅ |}.

(** [.ok()] of a result that may have panicked. *)
Definition to_ok {E A} (m : res E A) : option (option A) :=
  match m with Ok a => Some (Some a) | Err _ => Some None | Panic => None end.

Definition intern_state (ns : list stack) (w : MaskWalk) : nat * MaskWalk :=
  match intern w !! ns with
  | Some idx => (idx, w)
  | None =>
      let idx := length (states w) in
      (idx, {| states := states w ++ [ns]; intern := <[ns := idx]> (intern w);
               memo := memo w |})
  end.

Definition memo_step (cur : nat) (cp : Z) (w : MaskWalk) : option (option nat * MaskWalk) :=
  match memo w !! (cur, cp) with
  | Some cached => Some (cached, w)
  | None =>
      sts ← states w !! cur;
      stepped ← to_ok (step sts cp);
      let '(next, w) :=
        match stepped with
        | Some ns => let '(idx, w) := intern_state ns w in (Some idx, w)
        | None => (None, w)
        end in
      Some (next, {| states := states w; intern := intern w;
                     memo := <[(cur, cp) := next]> (memo w) |})
  end.

(** The loop of [allows] over what is left of the piece. *)
Fixpoint allows_loop (fuel cur : nat) (piece : bytes) (w : MaskWalk) :
    option (bool * MaskWalk) :=
  match piece with
  | [] => Some (true, w)
  | _ =>
      match fuel with
      | O => None
      | S fuel =>
          u ← decode_at piece;
          match u with
          | Cp cp n =>
              if (SUR_LO <=? cp) && (cp <=? SUR_HI) then Some (false, w) else
              '(next, w) ← memo_step cur cp w;
              match next with
              | Some cur => allows_loop fuel cur (drop n piece) w
              | None => Some (false, w)
              end
          | Incomplete =>
              sts ← states w !! cur;
              can ← partial_can_complete sts piece;
              Some (can, w)
          | Invalid => Some (false, w)
          end
      end
  end.
Definition allows (piece : bytes) (w : MaskWalk) : option (bool * MaskWalk) :=
  allows_loop (length piece) 0 piece w.

Definition set_bit (bits : mask_bits) (id : nat) : option mask_bits :=
  word ← bits !! (id / 64)%nat;
  Some (<[(id / 64)%nat := Z.lor word (Z.shiftl 1 (Z.of_nat (id mod 64)))]> bits).

Fixpoint set_bits (ids : list nat) (bits : mask_bits) : option mask_bits :=
  match ids with
  | [] => Some bits
  | id :: ids => bits ← set_bit bits id; set_bits ids bits
  end.

Definition eog_bits (key : StateKey) (acc : bool) : option mask_bits :=
  let bits := replicate ((n_vocab g + 63) / 64) 0 in
  if done key || acc then set_bits (eog_ids g) bits else Some bits.

(** [if allowed { set_bit }]. *)
Definition set_if (allowed : bool) (bits : mask_bits) (id : nat) : option mask_bits :=
  if allowed then set_bit bits id else Some bits.

(** The body of the loop of [mask_whole] for one token. *)
Definition whole_token (key : StateKey) (id : nat) (s : mask_bits * MaskWalk) :
    option (mask_bits * MaskWalk) :=
  let '(bits, w) := s in
  if decide (id ∈ eog_ids g) then Some (bits, w) else
  p ← pieces g !! id;
  match p with
  | None => Some (bits, w)
  | Some piece =>
      '(allowed, w) ←
        (if negb (bool_decide (partial key = [])) then
           r ← to_ok (consume key piece); Some (bool_decide (is_Some r), w)
         else allows piece w);
      bits ← set_if allowed bits id;
      Some (bits, w)
  end.

(** A [for] loop that a panic leaves. *)
Fixpoint loop_over {A S} (f : A → S → option S) (l : list A) (s : S) : option S :=
  match l with
  | [] => Some s
  | x :: l => s ← f x s; loop_over f l s
  end.

Definition mask_whole (key : StateKey) (acc : bool) : option mask_bits :=
  bits ← eog_bits key acc;
  if done key then Some bits else
  r ← loop_over (whole_token key) (seq 0 (n_vocab g)) (bits, new_walk (stacks key));
  Some r.1.

(** [piece]: the [expect] that an indexed token has one. *)
Definition piece (id : nat) : option bytes := mjoin (pieces g !! id).

Definition walk_token (id : nat) (s : mask_bits * MaskWalk) : option (mask_bits * MaskWalk) :=
  let '(bits, w) := s in
  p ← piece id;
  '(allowed, w) ← allows p w;
  bits ← set_if allowed bits id;
  Some (bits, w).

(** [MaskWalk::bucket]. *)
Definition bucket : list nat → mask_bits * MaskWalk → option (mask_bits * MaskWalk) :=
  loop_over walk_token.

(** [binary_search_by_key] on buckets in ascending order of distinct keys. *)
Definition find_bucket (cp : Z) : option (list nat) :=
  snd <$> find (λ b, b.1 =? cp) (buckets (index g)).

Definition mask_buckets (key : StateKey) (acc : bool) (a : Accepted) : option mask_bits :=
  bits ← eog_bits key acc;
  s ← loop_over walk_token (headless (index g)) (bits, new_walk (stacks key));
  r ←
    (if width a <=? Z.of_nat (length (buckets (index g))) then
       loop_over (λ cp s, match find_bucket cp with
                          | Some ids => bucket ids s
                          | None => Some s
                          end) (codepoints a) s
     else
       loop_over (λ '(cp, ids) s, if contains a cp then bucket ids s else Some s)
         (buckets (index g)) s);
  Some r.1.

(** What one instruction adds to the frontier; [None] makes it wide. *)
Definition inst_ranges (i : Inst) : option (list (Z * Z)) :=
  match i with
  | IAny => None
  | ICp c => Some (if (SUR_LO <=? c) && (c <=? SUR_HI) then [] else [(c, c)])
  | IClass false rs => Some (concat (map (λ '(a, b), non_surrogate_parts a b) rs))
  | IClass true _ => None
  | IRet | ISplit _ _ | IJump _ | ICall _ => Some []
  end.

(** The loop of [first_codepoints]: the ranges, [None] when wide. *)
Fixpoint frontier (sts : list stack) (rs : list (Z * Z)) : option (option (list (Z * Z))) :=
  match sts with
  | [] => Some (Some rs)
  | [] :: _ => None
  | (f :: _) :: sts =>
      i ← inst_at f;
      match inst_ranges i with
      | None => Some None
      | Some new => frontier sts (rs ++ new)
      end
  end.

Definition first_codepoints (sts : list stack) : option Accepted :=
  r ← frontier sts [];
  Some match r with
       | None => {| wide := true; ranges := [] |}
       | Some rs => {| wide := false; ranges := merge_ranges rs |}
       end.

Definition plan (key : StateKey) : option Walk :=
  if negb (bool_decide (partial key = [])) || done key then Some Whole else
  a ← first_codepoints (stacks key);
  Some (if wide a || (Z.of_nat (n_vocab g) <=? width a) then Whole else Buckets a).

Definition mask (st : GrammarState) : option (mask_bits * GrammarState) :=
  match cache st !! inner st with
  | Some cached => Some (cached, st)
  | None =>
      w ← plan (inner st);
      m ← match w with
          | Whole => mask_whole (inner st) (accepting st)
          | Buckets a => mask_buckets (inner st) (accepting st) a
          end;
      let kept := if (MAX_MASK_CACHE <=? size (cache st))%nat then ∅ else cache st in
      Some (m, {| inner := inner st; accepting := accepting st;
                  cache := <[inner st := m]> kept |})
  end.
End engine.

(** ** Building *)

(** [TokenIndex::build]; an empty piece panics in the decoder. *)
Definition index_token (eog : list nat) (id : nat) (p : option bytes)
    (s : gmap Z (list nat) * list nat) : option (gmap Z (list nat) * list nat) :=
  let '(by_cp, headless) := s in
  match p with
  | None => Some s
  | Some p =>
      if decide (id ∈ eog) then Some s else
      u ← decode_at p;
      Some match u with
           | Cp cp _ => (<[cp := default [] (by_cp !! cp) ++ [id]]> by_cp, headless)
           | Incomplete => (by_cp, headless ++ [id])
           | Invalid => s
           end
  end.

Definition cp_le (x y : Z * list nat) : bool := x.1 <=? y.1.

Definition build (pieces : list (option bytes)) (eog : list nat) : option TokenIndex :=
  '(by_cp, headless) ←
    loop_over (λ '(id, p), index_token eog id p) (imap pair pieces) (∅, []);
  Some {| buckets := sort_by cp_le (map_to_list by_cp); headless := headless |}.

Inductive GrammarErr :=
| Gbnf (e : GbnfErr)
| NoRoot
| RuleClosure (r : nat) (e : CloseErr).

(** [ids]: of a name, its index. *)
Definition rule_id (names : list text) (name : text) : option nat :=
  fst <$> list_find (name =.) names.

(** The program of a rule; the [assert!] on its length is a panic. *)
Definition compile_rule (ids : text → option nat) (node : Node) : res GrammarErr (list Inst) :=
  prog ← map_err Gbnf (emit_node ids node []);
  let prog := prog ++ [IRet] in
  if Z.of_nat (length prog) <? U32_MAX then Ok prog else Panic.

Definition eog_list (eog : list bool) : list nat :=
  omap (λ '(id, flag), if flag : bool then Some id else None) (imap pair eog).

Definition from_gbnf (source : text) (pieces : list (option bytes)) (eog : list bool) :
    res GrammarErr Grammar :=
  parsed ← map_err Gbnf (parse source);
  let names := parsed.*1 in
  let ids := rule_id names in
  root ← ok_or (ids (codes "root")) NoRoot;
  rules ← try_map (λ '(_, node), compile_rule ids node) parsed;
  let eog_ids := eog_list eog in
  index ← or_panic (build pieces eog_ids);
  let g := {| rules := rules; names := names; root := root; n_vocab := length pieces;
              pieces := pieces; eog_ids := eog_ids; source := source; index := index |} in
  _ ← try_map (λ r, map_err (RuleClosure r) (close g [[(r, O)]])) (seq 0 (length rules));
  Ok g.
