(* ===== verification/GrammarRuns.v ===== *)
(** * Runs of the call stacks, and what [close] and [step] do to them

    [run n st w]: from the stack [st] the program can consume the codepoints
    [w] and then return from its last rule, in [n] moves.  [close] keeps what
    a set of stacks can run, and [step] takes the first codepoint away. *)
From Stdlib Require Import ZArith.
From stdpp Require Import base numbers list gmap option relations sorting.
From S2P Require Import Prelude Gguf Utf8 Gbnf Grammar.
Local Open Scope nat_scope.

(** ** Well-formed programs *)

(** A class in the order the parser leaves it: ranges of codepoints, sorted by
    their lower bounds. *)
Definition wf_ranges (rs : list (Z * Z)) : Prop :=
  Forall (λ r, 0 ≤ r.1 ∧ r.1 ≤ r.2 ∧ r.2 < 0x110000)%Z rs
  ∧ StronglySorted (λ x y, range_le x y = true) rs.

Definition wf_inst (nrules len pc : nat) (i : Inst) : Prop :=
  match i with
  | ICp c => S pc < len ∧ (0 ≤ c < 0x110000)%Z
  | IAny => S pc < len
  | IClass _ rs => S pc < len ∧ wf_ranges rs
  | ISplit a b => a < len ∧ b < len
  | IJump a => a < len
  | ICall r => r < nrules ∧ S pc < len
  | IRet => True
  end.

Definition wf_prog (nrules : nat) (prog : list Inst) : Prop :=
  0 < length prog ∧ ∀ pc i, prog !! pc = Some i → wf_inst nrules (length prog) pc i.

Record wf_grammar (g : Grammar) : Prop := {
  wf_rules : Forall (wf_prog (length (rules g))) (rules g);
  wf_root : root g < length (rules g);
}.

Section runs.
Context (g : Grammar).

Definition valid_frame (f : frame) : Prop := is_Some (inst_at g f).
Definition valid_stack (st : stack) : Prop := st ≠ [] ∧ Forall valid_frame st.

(** What the closure pushes for a stack, and where it stops. *)
Definition succs (st : stack) : list stack :=
  match st with
  | [] => []
  | f :: below =>
      match flow g f with
      | Some (FSplit a b) => [(f.1, b) :: below; (f.1, a) :: below]
      | Some (FJump a) => [(f.1, a) :: below]
      | Some (FCall r) => [(r, 0) :: (f.1, S f.2) :: below]
      | Some FRet => match below with [] => [] | _ => [below] end
      | Some FConsume | None => []
      end
  end.

Definition stops (st : stack) : bool :=
  match st with
  | [] => false
  | f :: below =>
      match flow g f with
      | Some FConsume => true
      | Some FRet => match below with [] => true | _ => false end
      | _ => false
      end
  end.

Inductive run : nat → stack → list Z → Prop :=
| run_done f : inst_at g f = Some IRet → run 0 [f] []
| run_eps n st st' w : st' ∈ succs st → run n st' w → run (S n) st w
| run_cp n f i k cp w :
    inst_at g f = Some i → inst_matches i cp = true →
    run n ((f.1, S f.2) :: k) w → run (S n) (f :: k) (cp :: w).

(** What a set of stacks accepts. *)
Definition lang (sts : list stack) (w : list Z) : Prop :=
  ∃ st n, st ∈ sts ∧ run n st w.

(** A closed set: every stack waits for input or has finished. *)
Definition closed (sts : list stack) : Prop :=
  Forall (λ st, valid_stack st ∧ stops st = true) sts.

Lemma lang_nil w : ¬ lang [] w.
Proof. intros (st & n & H & _). by apply elem_of_nil in H. Qed.

Lemma lang_ext sts sts' w :
  (∀ st, st ∈ sts ↔ st ∈ sts') → lang sts w ↔ lang sts' w.
Proof. intros H. unfold lang. by setoid_rewrite H. Qed.

(** ** One round of the closure *)
Lemma close_loop_seen b st work seen out :
  st ∈ seen → close_loop g (S b) (st :: work) seen out = close_loop g b work seen out.
Proof. intros H. cbn [close_loop]. by rewrite decide_True. Qed.

Lemma close_loop_new b st work seen out :
  st ∉ seen → length st ≤ MAX_STACK_DEPTH → valid_stack st →
  close_loop g (S b) (st :: work) seen out =
  close_loop g b (succs st ++ work) ({[ st ]} ∪ seen)
    (if stops st then out ++ [st] else out).
Proof.
  intros Hs Hd [Hne Hv]. cbn [close_loop]. rewrite decide_False by done.
  rewrite (proj2 (Nat.ltb_ge _ _)) by done.
  destruct st as [|f k]; [done|]. apply list.Forall_cons in Hv as [[i Hi] _].
  unfold succs, stops. unfold flow. rewrite Hi.
  destruct i; simpl; try done. by destruct k.
Qed.

(** The closure's outcome on a stack it has not seen. *)
Lemma close_loop_new_ok b st work seen out out' :
  st ∉ seen → close_loop g (S b) (st :: work) seen out = Ok out' →
  length st ≤ MAX_STACK_DEPTH
  ∧ close_loop g b (succs st ++ work) ({[ st ]} ∪ seen)
      (if stops st then out ++ [st] else out) = Ok out'.
Proof.
  intros Hs. cbn [close_loop]. rewrite decide_False by done.
  destruct (Nat.ltb_spec MAX_STACK_DEPTH (length st)); [done|].
  intros H'. split; [lia|]. revert H'. unfold succs, stops.
  destruct st as [|f k]; [done|].
  destruct (flow g f) as [[]|]; try done. by destruct k.
Qed.

Definition loop_inv (work : list stack) (seen : gset stack) (out : list stack) : Prop :=
  ∀ s, s ∈ seen → (stops s = true → s ∈ out) ∧ ∀ s', s' ∈ succs s → s' ∈ seen ∨ s' ∈ work.

(** Everything visited is in [seen'] at the end, and its successors too. *)
Lemma close_loop_saturates b work seen out out' :
  close_loop g b work seen out = Ok out' → loop_inv work seen out →
  ∃ seen', loop_inv [] seen' out' ∧ (∀ s, s ∈ seen → s ∈ seen') ∧ (∀ s, s ∈ work → s ∈ seen').
Proof.
  revert work seen out. induction b as [|b IH]; intros [|st work] seen out.
  1,3: intros [= <-] Hinv; exists seen; split_and!; [done|done|];
       intros s Hs; by apply elem_of_nil in Hs.
  { done. }
  destruct (decide (st ∈ seen)) as [Hs|Hs].
  - rewrite close_loop_seen by done. intros H Hinv.
    destruct (IH work seen out H) as (seen' & Hi & H1 & H2).
    { intros s Hin. destruct (Hinv s Hin) as [Ho Hsu]. split; [done|].
      intros s' Hs'. destruct (Hsu s' Hs') as [ | [-> | ]%elem_of_cons]; auto. }
    exists seen'. split_and!; [done..|]. intros s [->|]%elem_of_cons; auto.
  - intros [_ H]%close_loop_new_ok Hinv; [|done].
    destruct (IH _ _ _ H) as (seen' & Hi & H1 & H2).
    { intros s [->%elem_of_singleton|Hin]%elem_of_union.
      - split; [intros ->; set_solver|]. intros s' ?. right. set_solver.
      - destruct (Hinv s Hin) as [Ho Hsu]. split; [intros; case_match; set_solver|].
        intros s' Hs'. destruct (Hsu s' Hs') as [ | [-> | ]%elem_of_cons]; set_solver. }
    exists seen'. split_and!; [done|set_solver|].
    intros s [->|]%elem_of_cons; set_solver.
Qed.

Lemma run_saturated seen out n s w :
  loop_inv [] seen out → run n s w → s ∈ seen → ∃ o m, o ∈ out ∧ run m o w.
Proof.
  intros Hinv Hrun. induction Hrun as [f Hf|n st st' w Hsu Hrun IH|n f i k cp w Hi Hm Hrun IH];
    intros Hseen; destruct (Hinv _ Hseen) as [Ho Hsu'].
  - exists [f], 0. split; [|by constructor]. apply Ho. unfold stops, flow. by rewrite Hf.
  - apply IH. destruct (Hsu' _ Hsu) as [|?%elem_of_nil]; done.
  - exists (f :: k), (S n). split; [|by econstructor]. apply Ho. unfold stops, flow.
    rewrite Hi. by destruct i.
Qed.

(** What comes out was put in or is reached without input. *)
Lemma close_loop_reaches b work seen out out' :
  close_loop g b work seen out = Ok out' →
  ∀ o, o ∈ out' → o ∈ out ∨ stops o = true ∧ ∃ s, s ∈ work ∧ rtc (λ x y, y ∈ succs x) s o.
Proof.
  revert work seen out. induction b as [|b IH]; intros [|st work] seen out.
  1,3: intros [= <-]; by left.
  { done. }
  destruct (decide (st ∈ seen)) as [Hs|Hs].
  - rewrite close_loop_seen by done. intros H o Ho.
    destruct (IH _ _ _ H o Ho) as [|(? & s & ? & ?)]; [by left|].
    right. split; [done|]. exists s. split; [set_solver|done].
  - intros [_ H]%close_loop_new_ok o Ho; [|done].
    destruct (IH _ _ _ H o Ho) as [Hout|(? & s & [Hin|Hin]%elem_of_app & ?)].
    + destruct (stops st) eqn:Hst; [|by left].
      apply elem_of_app in Hout as [Ho1 | ->%list_elem_of_singleton]; [by left|].
      right. split; [done|]. exists st. split; [set_solver|done].
    + right. split; [done|]. exists st. split; [set_solver|]. by eapply rtc_l.
    + right. split; [done|]. exists s. split; [set_solver|done].
Qed.

Lemma close_loop_depth b work seen out out' :
  close_loop g b work seen out = Ok out' → Forall (λ o, length o ≤ MAX_STACK_DEPTH) out →
  Forall (λ o, length o ≤ MAX_STACK_DEPTH) out'.
Proof.
  revert work seen out. induction b as [|b IH]; intros [|st work] seen out.
  1,3: by intros [= <-].
  { done. }
  destruct (decide (st ∈ seen)) as [Hs|Hs].
  - rewrite close_loop_seen by done. apply IH.
  - intros [Hd H]%close_loop_new_ok Hout; [|done]. eapply IH; [exact H|].
    destruct (stops st); [|done]. apply list.Forall_app. by rewrite list.Forall_singleton.
Qed.

Lemma run_reaches s o n w :
  rtc (λ x y, y ∈ succs x) s o → run n o w → ∃ m, run m s w.
Proof.
  induction 1 as [|s s' o Hs _ IH]; [eauto|]. intros [m Hm]%IH.
  exists (S m). by econstructor.
Qed.

(** ** Sorting and deduplication keep the set *)
Lemma elem_of_dedup x l : x ∈ dedup l ↔ x ∈ l.
Proof.
  induction l as [|y [|z l] IH]; [done..|].
  change (dedup (y :: z :: l)) with
    (if decide (y = z) then dedup (z :: l) else y :: dedup (z :: l)).
  case_decide as Hd; [subst y; rewrite IH; set_solver|].
  rewrite !elem_of_cons, IH, elem_of_cons. done.
Qed.

Lemma close_ok input out :
  close g input = Ok out →
  ∃ out0, close_loop g (N.to_nat MAX_CLOSURE_STEPS) (reverse input) ∅ [] = Ok out0
  ∧ (∀ s, s ∈ out ↔ s ∈ out0) ∧ length out ≤ MAX_STACKS.
Proof.
  unfold close. intros (out0 & H & Hl)%res_bind_ok.
  destruct (Nat.ltb_spec MAX_STACKS (length (dedup (sort_by stack_le out0)))); [done|].
  injection Hl as <-. exists out0. split_and!; [done| |done].
  intros s. by rewrite elem_of_dedup, elem_of_sort_by.
Qed.

(** What the limits keep small. *)
Definition bounded (sts : list stack) : Prop :=
  length sts ≤ MAX_STACKS ∧ Forall (λ st, length st ≤ MAX_STACK_DEPTH) sts.

Lemma close_bounded input out : close g input = Ok out → bounded out.
Proof.
  intros (out0 & H & He & Hl)%close_ok. split; [done|].
  apply close_loop_depth in H; [|done]. rewrite list.Forall_forall in *.
  intros st Hst%He. by apply H.
Qed.

Lemma close_lang input out w : close g input = Ok out → lang out w ↔ lang input w.
Proof.
  intros (out0 & H & He & _)%close_ok. rewrite (lang_ext _ _ w He). split.
  - intros (o & n & Ho & Hrun).
    destruct (close_loop_reaches _ _ _ _ _ H o Ho) as [?%elem_of_nil|(_ & s & Hs & Hr)]; [done|].
    destruct (run_reaches _ _ _ _ Hr Hrun) as [m Hm].
    exists s, m. split; [|done]. by rewrite elem_of_reverse in Hs.
  - intros (s & n & Hs & Hrun).
    destruct (close_loop_saturates _ _ _ _ _ H) as (seen & Hinv & _ & Hw).
    { intros ? ?%elem_of_empty. done. }
    destruct (run_saturated _ _ _ _ _ Hinv Hrun) as (o & m & ? & ?); [|by exists o, m].
    apply Hw. by rewrite elem_of_reverse.
Qed.
End runs.

(** ** Closed sets stay valid, and nothing panics *)
Section valid.
Context (g : Grammar) (Hwf : wf_grammar g).

Lemma wf_inst_at f i :
  inst_at g f = Some i →
  ∃ prog, rules g !! f.1 = Some prog ∧ wf_inst (length (rules g)) (length prog) f.2 i.
Proof using Hwf.
  unfold inst_at. intros (prog & Hp & Hi)%bind_Some. exists prog. split; [done|].
  destruct (proj1 (Forall_lookup _ _) (wf_rules _ Hwf) _ _ Hp) as [_ H]. by apply H.
Qed.

Lemma valid_frame_lt f prog :
  rules g !! f.1 = Some prog → f.2 < length prog → valid_frame g f.
Proof using.
  intros Hp Hl. unfold valid_frame, inst_at. rewrite Hp. simpl. by apply lookup_lt_is_Some.
Qed.

Lemma valid_rule r : r < length (rules g) → valid_frame g (r, 0).
Proof using Hwf.
  intros [prog Hp]%lookup_lt_is_Some. eapply valid_frame_lt; [exact Hp|].
  apply (proj1 (Forall_lookup _ _) (wf_rules _ Hwf) _ _ Hp).
Qed.

Lemma valid_succs st st' : valid_stack g st → st' ∈ succs g st → valid_stack g st'.
Proof using Hwf.
  intros [Hne Hv]. destruct st as [|f k]; [done|].
  apply list.Forall_cons in Hv as [[i Hi] Hk].
  destruct (wf_inst_at f i Hi) as (prog & Hp & Hw).
  unfold succs, flow. rewrite Hi.
  destruct i; simpl in *; intros Hin;
    try by (apply elem_of_nil in Hin).
  - rewrite !elem_of_cons in Hin. destruct Hw as [Ha Hb].
    destruct Hin as [->|[->|?%elem_of_nil]]; [..|done];
      (split; [done|]; constructor; [by eapply valid_frame_lt|done]).
  - apply list_elem_of_singleton in Hin as ->.
    split; [done|]; constructor; [by eapply valid_frame_lt|done].
  - apply list_elem_of_singleton in Hin as ->. destruct Hw as [Hr Hpc].
    split; [done|]. constructor; [by apply valid_rule|].
    constructor; [by eapply valid_frame_lt|done].
  - destruct k as [|f' k]; [by apply elem_of_nil in Hin|].
    by apply list_elem_of_singleton in Hin as ->.
Qed.

Lemma close_loop_no_panic b work seen out :
  Forall (valid_stack g) work → close_loop g b work seen out ≠ Panic.
Proof using Hwf.
  revert work seen out. induction b as [|b IH]; intros [|st work] seen out; [done..|].
  intros [Hst Hw]%list.Forall_cons.
  destruct (decide (st ∈ seen)) as [Hs|Hs].
  { rewrite close_loop_seen by done. by apply IH. }
  destruct (decide (length st ≤ MAX_STACK_DEPTH)) as [Hd|Hd].
  - rewrite close_loop_new by done. apply IH, list.Forall_app. split; [|done].
    apply list.Forall_forall. intros st' Hin. by eapply valid_succs.
  - cbn [close_loop]. rewrite decide_False by done.
    destruct (Nat.ltb_spec MAX_STACK_DEPTH (length st)); [done|lia].
Qed.

Lemma close_no_panic input : Forall (valid_stack g) input → close g input ≠ Panic.
Proof using Hwf.
  intros H. unfold close.
  assert (close_loop g (N.to_nat MAX_CLOSURE_STEPS) (reverse input) ∅ [] ≠ Panic) as Hn.
  { apply close_loop_no_panic. by rewrite list.Forall_reverse. }
  destruct (close_loop g _ _ _ _); simpl; [by case_match|done|by apply Hn].
Qed.

Lemma close_closed input out :
  Forall (valid_stack g) input → close g input = Ok out → closed g out.
Proof using Hwf.
  intros Hv (out0 & H & He & _)%close_ok. apply list.Forall_forall. intros o Ho%He.
  destruct (close_loop_reaches _ _ _ _ _ _ H o Ho) as [?%elem_of_nil|(Hst & s & Hs & Hr)]; [done|].
  split; [|done]. rewrite elem_of_reverse in Hs.
  rewrite list.Forall_forall in Hv. specialize (Hv s Hs).
  clear -Hv Hr Hwf. induction Hr as [|s s' o Hsu _ IH]; [done|].
  apply IH. by eapply valid_succs.
Qed.

(** ** One codepoint *)
Lemma advance_some sts cp :
  Forall (valid_stack g) sts →
  ∃ next, advance g sts cp = Some next
  ∧ ∀ st, st ∈ next ↔ ∃ f k i, f :: k ∈ sts ∧ inst_at g f = Some i
                      ∧ inst_matches i cp = true ∧ st = (f.1, S f.2) :: k.
Proof using.
  induction sts as [|st sts IH]; intros Hv.
  - exists []. split; [done|]. intros st. rewrite elem_of_nil. split; [done|].
    intros (?&?&?&?%elem_of_nil&_). done.
  - apply list.Forall_cons in Hv as [[Hne Hst] Hv].
    destruct st as [|f k]; [done|]. apply list.Forall_cons in Hst as [[i Hi] _].
    destruct (IH Hv) as (next & Hn & Hin). simpl. rewrite Hi, Hn. simpl.
    eexists. split; [done|]. intros st.
    assert (st ∈ next ↔ ∃ f k i, f :: k ∈ sts ∧ inst_at g f = Some i
              ∧ inst_matches i cp = true ∧ st = (f.1, S f.2) :: k) as Hnx by apply Hin.
    destruct (inst_matches i cp) eqn:Hm; rewrite ?elem_of_cons, Hnx; split.
    + intros [-> | (f'&k'&i'&?&?&?&?)]; [exists f, k, i|exists f', k', i'];
        rewrite elem_of_cons; auto.
    + intros (f'&k'&i'&[[= -> ->]|?]%elem_of_cons&?&?&?); [by left|]. right. by exists f', k', i'.
    + intros (f'&k'&i'&?&?&?&?); exists f', k', i'; rewrite elem_of_cons; auto.
    + intros (f'&k'&i'&[[= -> ->]|?]%elem_of_cons&?&?&?); [congruence|]. by exists f', k', i'.
Qed.

Lemma consuming_pc i nr len pc cp :
  wf_inst nr len pc i → inst_matches i cp = true → S pc < len.
Proof using. destruct i; simpl; naive_solver. Qed.

Lemma advance_valid sts cp next :
  Forall (valid_stack g) sts → advance g sts cp = Some next → Forall (valid_stack g) next.
Proof using Hwf.
  intros Hv Ha. destruct (advance_some sts cp Hv) as (next' & Ha' & Hin).
  assert (next' = next) as -> by congruence.
  apply list.Forall_forall. intros st (f & k & i & Hfk & Hi & Hm & ->)%Hin.
  rewrite list.Forall_forall in Hv. destruct (Hv _ Hfk) as [_ Hf].
  apply list.Forall_cons in Hf as [_ Hk].
  split; [done|]. constructor; [|done].
  destruct (wf_inst_at f i Hi) as (prog & Hp & Hw).
  eapply valid_frame_lt; [exact Hp|]. by eapply consuming_pc.
Qed.

Lemma closed_valid sts : closed g sts → Forall (valid_stack g) sts.
Proof using. intros H. eapply Forall_impl; [exact H|]. by intros st []. Qed.

(** A stopped stack runs by its own instruction. *)
Lemma run_stopped n f k w :
  stops g (f :: k) = true → run g n (f :: k) w →
  (w = [] ∧ k = [] ∧ inst_at g f = Some IRet) ∨
  ∃ m i cp w', n = S m ∧ w = cp :: w' ∧ inst_at g f = Some i ∧ inst_matches i cp = true
             ∧ run g m ((f.1, S f.2) :: k) w'.
Proof using.
  intros Hst Hr. inversion Hr as [f0 Hf|m st st' w0 Hsu Hr'|m f0 i k0 cp w' Hi Hm Hr']; subst.
  - by left.
  - exfalso. revert Hsu Hst. unfold succs, stops. intros H1 H2.
    destruct (flow g f) as [[]|]; try done; [destruct k; [|done]|];
      by apply elem_of_nil in H1.
  - right. by exists m, i, cp, w'.
Qed.

Lemma advance_lang sts cp next w :
  closed g sts → advance g sts cp = Some next → lang g next w ↔ lang g sts (cp :: w).
Proof using.
  intros Hc Ha. destruct (advance_some sts cp (closed_valid _ Hc)) as (next' & Ha' & Hin).
  assert (next' = next) as -> by congruence. split.
  - intros (st & n & (f & k & i & Hfk & Hi & Hm & ->)%Hin & Hr).
    exists (f :: k), (S n). split; [done|]. by econstructor.
  - intros (st & n & Hst & Hr). unfold closed in Hc. rewrite list.Forall_forall in Hc.
    destruct (Hc _ Hst) as [[Hne _] Hs]. destruct st as [|f k]; [done|].
    apply run_stopped in Hr as [[? _]|(m & i & cp' & w' & -> & [= <- <-] & Hi & Hm & Hr)]; [done| |done].
    exists ((f.1, S f.2) :: k), m. split; [|done]. apply Hin. by exists f, k, i.
Qed.

(** The set after a codepoint runs exactly what the codepoint led. *)
Lemma step_lang sts cp sts' w :
  closed g sts → step g sts cp = Ok sts' → lang g sts' w ↔ lang g sts (cp :: w).
Proof using.
  intros Hc. unfold step. destruct (advance g sts cp) as [next|] eqn:Ha; [|done]. simpl.
  case_decide; [done|]. destruct (close g next) as [out| |] eqn:Hcl; [|done..].
  intros [= ->]. rewrite (close_lang _ _ _ w Hcl). by apply advance_lang.
Qed.

Lemma step_closed sts cp sts' : closed g sts → step g sts cp = Ok sts' → closed g sts'.
Proof using Hwf.
  intros Hc. unfold step. destruct (advance g sts cp) as [next|] eqn:Ha; [|done]. simpl.
  case_decide; [done|]. destruct (close g next) as [out| |] eqn:Hcl; [|done..].
  intros [= ->]. eapply close_closed; [|exact Hcl].
  eapply advance_valid; [|exact Ha]. by apply closed_valid.
Qed.

Lemma step_no_panic sts cp : closed g sts → step g sts cp ≠ Panic.
Proof using Hwf.
  intros Hc. unfold step.
  destruct (advance_some sts cp (closed_valid _ Hc)) as (next & Ha & _). rewrite Ha. simpl.
  case_decide; [done|]. pose proof (close_no_panic next) as Hn.
  destruct (close g next); simpl; [done..|]. intros _. apply Hn; [|done].
  eapply advance_valid; [|exact Ha]. by apply closed_valid.
Qed.

Lemma step_bounded sts cp sts' : step g sts cp = Ok sts' → bounded sts'.
Proof using.
  unfold step. destruct (advance g sts cp) as [next|]; [|done]. simpl. case_decide; [done|].
  destruct (close g next) as [out| |] eqn:Hcl; [|done..].
  intros [= ->]. by eapply close_bounded.
Qed.

(** The stacks a codepoint can be consumed by. *)
Definition consumes (sts : list stack) (cp : Z) : Prop :=
  ∃ f k i, f :: k ∈ sts ∧ inst_at g f = Some i ∧ inst_matches i cp = true.

Lemma step_no_stack sts cp :
  closed g sts → step g sts cp = Err (NoStack cp) ↔ ¬ consumes sts cp.
Proof using.
  intros Hc. unfold step.
  destruct (advance_some sts cp (closed_valid _ Hc)) as (next & -> & Hin). simpl.
  case_decide as Hd.
  - subst next. split; [|done]. intros _ (f & k & i & Hf & Hi & Hm).
    assert ((f.1, S f.2) :: k ∈ @nil stack) as ?%elem_of_nil; [|done].
    apply Hin. by exists f, k, i.
  - split; [by destruct (close g next)|]. intros Hn. exfalso.
    destruct next as [|st next]; [done|]. apply Hn.
    destruct (proj1 (Hin st) ltac:(left)) as (f & k & i & ?&?&?&_). by exists f, k, i.
Qed.

Lemma step_ok_consumes sts cp sts' :
  closed g sts → step g sts cp = Ok sts' → consumes sts cp.
Proof using.
  intros Hc. unfold step.
  destruct (advance_some sts cp (closed_valid _ Hc)) as (next & -> & Hin). simpl.
  case_decide; [done|]. intros _. destruct next as [|st next]; [done|].
  destruct (proj1 (Hin st) ltac:(left)) as (f & k & i & ?&?&?&_). by exists f, k, i.
Qed.

Lemma step_cases sts cp :
  closed g sts →
  (∃ sts', step g sts cp = Ok sts' ∧ closed g sts') ∨
  (∃ e, step g sts cp = Err (Closure e) ∧ consumes sts cp) ∨
  (step g sts cp = Err (NoStack cp) ∧ ¬ consumes sts cp).
Proof using Hwf.
  intros Hc. destruct (step g sts cp) as [sts'|r|] eqn:Hs.
  - left. exists sts'. split; [done|]. by eapply step_closed.
  - right. revert Hs. unfold step.
    destruct (advance_some sts cp (closed_valid _ Hc)) as (next & Ha & Hin). rewrite Ha. simpl.
    case_decide as Hd.
    + intros [= <-]. right. split; [done|]. apply step_no_stack; [done|].
      unfold step. rewrite Ha. simpl. by rewrite decide_True.
    + destruct (close g next) as [|e'|]; [done| |done].
      intros [= <-]. left. exists e'. split; [done|]. destruct next as [|st next]; [done|].
      destruct (proj1 (Hin st) ltac:(left)) as (f & k & i & ?&?&?&_). by exists f, k, i.
  - by apply step_no_panic in Hs.
Qed.

(** A set that cannot take the codepoint runs no word it leads. *)
Lemma lang_consumes sts cp w : closed g sts → lang g sts (cp :: w) → consumes sts cp.
Proof using.
  intros Hc (st & n & Hst & Hr). unfold closed in Hc. rewrite list.Forall_forall in Hc.
  destruct (Hc _ Hst) as [[Hne _] Hs]. destruct st as [|f k]; [done|].
  apply run_stopped in Hr as [[? _]|(m & i & cp' & w' & -> & [= <- <-] & Hi & Hm & Hr)]; [done| |done].
  by exists f, k, i.
Qed.

Lemma lang_nil_iff sts :
  closed g sts → lang g sts [] ↔ ∃ f, [f] ∈ sts ∧ inst_at g f = Some IRet.
Proof using.
  intros Hc. split.
  - intros (st & n & Hst & Hr). unfold closed in Hc. rewrite list.Forall_forall in Hc.
    destruct (Hc _ Hst) as [[Hne _] Hs]. destruct st as [|f k]; [done|].
    apply run_stopped in Hr as [(_ & -> & Hi)|(m & i & cp' & w' & _ & ? & _)]; [|done|done].
    by exists f.
  - intros (f & Hf & Hi). exists [f], 0. split; [done|by constructor].
Qed.
End valid.
