(* ===== verification/GrammarLang.v ===== *)
(** * The language of a grammar, and the programs that run it

    [matches] says what a node of a parsed grammar matches.  [code] is the
    program of a node written down at its place, with every branch target
    known; the patching [emit_node] appends exactly that ([emit_node_code]),
    and running it is matching ([matches_run], [run_matches]). *)
From Stdlib Require Import ZArith.
From stdpp Require Import base numbers list gmap option relations sorting.
From S2P Require Import Prelude Gguf Utf8 Gbnf Grammar GrammarRuns.
Local Open Scope nat_scope.

(** ** Induction on nodes *)
Section node_ind.
Context (P : Node → Prop).
Context (Hstr : ∀ cps, P (NStr cps)) (Hclass : ∀ neg rs, P (NClass neg rs)) (Hany : P NAny).
Context (Hseq : ∀ l, Forall P l → P (NSeq l)) (Halt : ∀ l, Forall P l → P (NAlt l)).
Context (Hrep : ∀ x m n, P x → P (NRep x m n)) (Href : ∀ name, P (NRef name)).

Fixpoint node_ind' (node : Node) : P node :=
  let all := fix all (l : list Node) : Forall P l :=
    match l with
    | [] => Forall_nil_2 P
    | x :: l => Forall_cons_2 P x l (node_ind' x) (all l)
    end in
  match node with
  | NStr cps => Hstr cps
  | NClass neg rs => Hclass neg rs
  | NAny => Hany
  | NSeq l => Hseq l (all l)
  | NAlt l => Halt l (all l)
  | NRep x m n => Hrep x m n (node_ind' x)
  | NRef name => Href name
  end.
End node_ind.

(** ** What a node matches *)
Section matching.
Context (body : text → option Node).

Inductive matches : Node → list Z → Prop :=
| match_str cps : matches (NStr cps) cps
| match_class neg rs c : in_class rs c = negb neg → matches (NClass neg rs) [c]
| match_any c : matches NAny [c]
| match_seq_nil : matches (NSeq []) []
| match_seq x l u v : matches x u → matches (NSeq l) v → matches (NSeq (x :: l)) (u ++ v)
| match_alt x l w : x ∈ l → matches x w → matches (NAlt l) w
| match_rep_stop x n : matches (NRep x 0 n) []
| match_rep_must x m n u v :
    matches x u → matches (NRep x m n) v → matches (NRep x (S m) (S <$> n)) (u ++ v)
| match_rep_may x n u v :
    matches x u → matches (NRep x 0 n) v → matches (NRep x 0 (S <$> n)) (u ++ v)
| match_ref name x w : body name = Some x → matches x w → matches (NRef name) w.

(** A repetition, said at once: between [m] and [n] matches in a row. *)
Lemma matches_rep_iff x m n w :
  from_option (λ n, m ≤ n) True n →
  matches (NRep x m n) w ↔
  ∃ ws, w = concat ws ∧ Forall (matches x) ws ∧ m ≤ length ws
        ∧ from_option (λ n, length ws ≤ n) True n.
Proof.
  intros Hmn. split.
  - clear Hmn. remember (NRep x m n) as node eqn:Hn. intros H. revert m n Hn.
    induction H as [| | | | | |x' n'|x' m' n' u v Hu _ Hv IH|x' n' u v Hu _ Hv IH|];
      intros m n [= Hx Hm0 Hn0]; subst.
    + exists []. split_and!; [done|constructor|done|destruct n; simpl; lia].
    + destruct (IH m' n' eq_refl) as (ws & -> & Hf & Hm & Hn). exists (u :: ws).
      split_and!; [done|by constructor|simpl; lia|]. destruct n'; simpl in *; lia.
    + destruct (IH 0 n' eq_refl) as (ws & -> & Hf & Hm & Hn). exists (u :: ws).
      split_and!; [done|by constructor|simpl; lia|]. destruct n'; simpl in *; lia.
  - intros (ws & -> & Hf & Hm & Hn). clear Hmn. revert m n Hm Hn.
    induction Hf as [|u ws Hu _ IH]; intros m n Hm Hn; simpl in *.
    + destruct m; [constructor|lia].
    + assert (∃ n', n = S <$> n' ∧ from_option (λ n, length ws ≤ n) True n') as (n' & -> & Hn').
      { destruct n as [[|n]|]; simpl in *; [lia|exists (Some n)|exists None]; simpl; auto with lia. }
      destruct m as [|m].
      * apply match_rep_may; [done|]. apply IH; [lia|done].
      * apply match_rep_must; [done|]. apply IH; [lia|done].
Qed.
End matching.

(** ** The program of a node, at its place *)
Fixpoint chain (k : nat) (f : nat → list Inst) (pc : nat) : list Inst :=
  match k with O => [] | S k => f pc ++ chain k f (pc + length (f pc)) end.

Definition optional_code (f : nat → list Inst) (pc : nat) : list Inst :=
  ISplit (S pc) (S pc + length (f (S pc))) :: f (S pc).
Definition star_code (f : nat → list Inst) (pc : nat) : list Inst :=
  ISplit (S pc) (S (S pc + length (f (S pc)))) :: f (S pc) ++ [IJump pc].

Section code.
Context (ids : text → option nat).

Section lists.
Context (f : Node → nat → list Inst).

Fixpoint seq_code (l : list Node) (pc : nat) : list Inst :=
  match l with [] => [] | x :: l => f x pc ++ seq_code l (pc + length (f x pc)) end.

(** [e]: where the branches meet. *)
Fixpoint alt_code (e : nat) (l : list Node) (pc : nat) : list Inst :=
  match l with
  | [] => []
  | [x] => f x pc
  | x :: l =>
      let next := S (S pc + length (f x (S pc))) in
      ISplit (S pc) next :: f x (S pc) ++ IJump e :: alt_code e l next
  end.

Fixpoint alt_jumps (l : list Node) (pc : nat) : list nat :=
  match l with
  | [] | [_] => []
  | x :: l => let j := S pc + length (f x (S pc)) in j :: alt_jumps l (S j)
  end.
End lists.

Fixpoint code (node : Node) (pc : nat) {struct node} : list Inst :=
  match node with
  | NStr cps => map ICp cps
  | NClass neg rs => [IClass neg rs]
  | NAny => [IAny]
  | NRef name => [ICall (default 0 (ids name))]
  | NSeq l => seq_code code l pc
  | NAlt l => alt_code code (pc + length (alt_code code 0 l pc)) l pc
  | NRep x m n =>
      chain m (code x) pc ++
      let pc := pc + length (chain m (code x) pc) in
      match n with
      | None => star_code (code x) pc
      | Some t => chain (t - m) (optional_code (code x)) pc
      end
  end.

(** The length of a program does not depend on its place. *)
Definition code_size (node : Node) : nat := length (code node 0).

Lemma length_chain k f pc pc' :
  (∀ p q, length (f p) = length (f q)) → length (chain k f pc) = length (chain k f pc').
Proof.
  intros H. revert pc pc'. induction k as [|k IH]; intros pc pc'; simpl; [done|].
  rewrite !length_app. f_equal; [apply H|apply IH].
Qed.

Lemma length_alt_code f e e' l pc pc' :
  Forall (λ x, ∀ p q, length (f x p) = length (f x q)) l →
  length (alt_code f e l pc) = length (alt_code f e' l pc').
Proof.
  intros H. revert pc pc'. induction H as [|x l Hx Hl IH]; intros pc pc'; [done|].
  destruct l as [|y l]; [apply Hx|].
  change (alt_code f ?e (x :: y :: l) ?pc) with
    (ISplit (S pc) (S (S pc + length (f x (S pc)))) :: f x (S pc) ++
       IJump e :: alt_code f e (y :: l) (S (S pc + length (f x (S pc))))).
  cbn [length]. rewrite !length_app. cbn [length].
  rewrite (Hx (S pc) (S pc')). f_equal. f_equal. f_equal. apply IH.
Qed.

Lemma length_code node pc : length (code node pc) = code_size node.
Proof.
  unfold code_size. generalize 0 as q. revert pc.
  induction node as [cps|neg rs| |l IH|l IH|x m n IH|name] using node_ind'; intros pc q; simpl.
  - by rewrite !length_map.
  - done.
  - done.
  - revert pc q. induction IH as [|x l Hx _ IH]; intros pc q; simpl; [done|].
    rewrite !length_app. f_equal; [apply Hx|apply IH].
  - by apply length_alt_code.
  - rewrite !length_app. f_equal; [by apply length_chain|].
    destruct n as [t|].
    + apply length_chain. intros p p'. simpl. f_equal. apply IH.
    + simpl. f_equal. rewrite !length_app. f_equal. apply IH.
  - done.
Qed.

Lemma length_branches e e' l pc :
  length (alt_code code e l pc) = length (alt_code code e' l pc).
Proof.
  apply length_alt_code, list.Forall_forall. intros x _ p q. by rewrite !length_code.
Qed.

(** ** Emission is this program *)
Definition emits (node : Node) : Prop := ∀ prog prog',
  emit_node ids node prog = Ok prog' → prog' = prog ++ code node (length prog).

Lemma emit_times_chain k emit f :
  (∀ prog prog', emit prog = Ok prog' → prog' = prog ++ f (length prog)) →
  ∀ prog prog', emit_times k emit prog = Ok prog' → prog' = prog ++ chain k f (length prog).
Proof.
  intros He. induction k as [|k IH]; intros prog prog'; simpl.
  - intros [= <-]. by rewrite app_nil_r.
  - intros (p1 & ->%He & ->%IH)%res_bind_ok.
    by rewrite <-(assoc_L (++)), length_app.
Qed.

Lemma set_at_middle prog x y rest : set_at (length prog) y (prog ++ x :: rest) = prog ++ y :: rest.
Proof. unfold set_at. by rewrite insert_app_r_alt, Nat.sub_diag by lia. Qed.

Lemma emit_optional_code emit f :
  (∀ prog prog', emit prog = Ok prog' → prog' = prog ++ f (length prog)) →
  ∀ prog prog', emit_optional emit prog = Ok prog' →
  prog' = prog ++ optional_code f (length prog).
Proof.
  intros He prog prog'. unfold emit_optional. intros (p1 & ->%He & [= <-])%res_bind_ok.
  rewrite !length_app, <-!(assoc_L (++)). cbn [length app]. rewrite set_at_middle.
  unfold optional_code. by rewrite !Nat.add_1_r.
Qed.

Lemma emit_star_code emit f :
  (∀ prog prog', emit prog = Ok prog' → prog' = prog ++ f (length prog)) →
  ∀ prog prog', emit_star emit prog = Ok prog' →
  prog' = prog ++ star_code f (length prog).
Proof.
  intros He prog prog'. unfold emit_star. intros (p1 & ->%He & [= <-])%res_bind_ok.
  rewrite !length_app, <-!(assoc_L (++)). cbn [length app]. rewrite set_at_middle.
  unfold star_code. rewrite !Nat.add_1_r. do 4 f_equal.
Qed.

Lemma patch_alt f e l pre :
  foldl (λ prog j, set_at j (IJump e) prog) (pre ++ alt_code f 0 l (length pre))
    (alt_jumps f l (length pre)) = pre ++ alt_code f e l (length pre).
Proof.
  revert pre. induction l as [|x l IH]; intros pre; [done|].
  destruct l as [|y l]; [done|].
  set (c := f x (S (length pre))).
  change (alt_jumps f (x :: y :: l) (length pre)) with
    ((S (length pre) + length c) :: alt_jumps f (y :: l) (S (S (length pre) + length c))).
  change (alt_code f ?e (x :: y :: l) (length pre)) with
    (ISplit (S (length pre)) (S (S (length pre) + length c)) :: c ++
       IJump e :: alt_code f e (y :: l) (S (S (length pre) + length c))).
  cbn [foldl].
  set (sp := ISplit _ _).
  assert (∀ z rest, pre ++ sp :: c ++ z :: rest = (pre ++ sp :: c) ++ z :: rest) as Ha.
  { intros. by rewrite <-(assoc_L (++)). }
  assert (S (length pre) + length c = length (pre ++ sp :: c)) as Hl.
  { rewrite length_app. simpl. lia. }
  rewrite !Ha, Hl, set_at_middle.
  assert (∀ z : Inst, S (length (pre ++ sp :: c)) = length ((pre ++ sp :: c) ++ [z])) as Hl'.
  { intros. rewrite (length_app _ [_]). simpl. lia. }
  rewrite (Hl' (IJump e)).
  assert (∀ rest, (pre ++ sp :: c) ++ IJump e :: rest = ((pre ++ sp :: c) ++ [IJump e]) ++ rest) as Hb.
  { intros. by rewrite <-(assoc_L (++) (pre ++ sp :: c)). }
  rewrite (Hb (alt_code f 0 _ _)), (Hb (alt_code f e _ _)). apply IH.
Qed.

(** The loop over branches, its jumps not yet patched. *)
Lemma emit_alt_code l jumps prog prog' :
  Forall emits l →
  (fix go branches jumps prog := match branches with
       | [] => Ok (patch_jumps jumps prog)
       | [branch] => prog ← emit_node ids branch prog; Ok (patch_jumps jumps prog)
       | branch :: branches =>
           let split := length prog in
           let prog := prog ++ [ISplit 0 0] in
           let start := length prog in
           prog ← emit_node ids branch prog;
           let j := length prog in
           let prog := prog ++ [IJump 0] in
           go branches (jumps ++ [j]) (set_at split (ISplit start (length prog)) prog)
       end) l jumps prog = Ok prog' →
  prog' = patch_jumps (jumps ++ alt_jumps code l (length prog))
            (prog ++ alt_code code 0 l (length prog)).
Proof.
  intros Hl. revert jumps prog prog'. induction Hl as [|x l Hx _ IH]; intros jumps prog prog'.
  { intros [= <-]. by rewrite !app_nil_r. }
  destruct l as [|y l].
  { intros (p & ->%Hx & [= <-])%res_bind_ok. by rewrite app_nil_r. }
  set (c := code x (S (length prog))).
  change (alt_jumps code (x :: y :: l) (length prog)) with
    ((S (length prog) + length c) ::
       alt_jumps code (y :: l) (S (S (length prog) + length c))).
  change (alt_code code 0 (x :: y :: l) (length prog)) with
    (ISplit (S (length prog)) (S (S (length prog) + length c)) :: c ++
       IJump 0 :: alt_code code 0 (y :: l) (S (S (length prog) + length c))).
  cbn zeta. intros (p & Hp & Hgo)%res_bind_ok. apply Hx in Hp.
  rewrite length_app in Hp. cbn [length] in Hp. rewrite Nat.add_1_r in Hp. fold c in Hp.
  apply IH in Hgo. rewrite Hgo. subst p.
  rewrite <-!(assoc_L (++)). cbn [app]. rewrite set_at_middle.
  rewrite !length_app, Nat.add_1_r. cbn [length]. rewrite !length_app. cbn [length].
  replace (length prog + S (length c)) with (S (length prog) + length c) by lia.
  replace (length prog + S (length c + 1)) with (S (S (length prog) + length c)) by lia.
  cbn [app]. rewrite <-!(assoc_L (++)). cbn [app]. by rewrite <-(assoc_L (++) c).
Qed.

Lemma length_patch e js prog :
  length (foldl (λ prog j, set_at j (IJump e) prog) prog js) = length prog.
Proof.
  revert prog. induction js as [|j js IH]; intros prog; simpl; [done|].
  rewrite IH. apply length_insert.
Qed.

Lemma patch_jumps_const js prog :
  patch_jumps js prog = foldl (λ p j, set_at j (IJump (length prog)) p) prog js.
Proof.
  unfold patch_jumps. generalize (eq_refl (length prog)).
  generalize prog at 1 3 5. revert prog.
  induction js as [|j js IH]; intros prog p Hp; simpl; [done|].
  rewrite Hp. apply IH. unfold set_at. rewrite length_insert. lia.
Qed.

Lemma emit_node_code node : emits node.
Proof.
  induction node as [cps|neg rs| |l IH|l IH|x m n IH|name] using node_ind'; intros prog prog'.
  - intros [= <-]. revert prog. induction cps as [|c cps IH]; intros prog; simpl.
    + by rewrite app_nil_r.
    + by rewrite IH, <-(assoc_L (++)).
  - by intros [= <-].
  - by intros [= <-].
  - simpl. revert prog prog'. induction IH as [|x l Hx _ IH]; intros prog prog'.
    + intros [= <-]. by rewrite app_nil_r.
    + intros (p & ->%Hx & ->%IH)%res_bind_ok. cbn [seq_code].
      by rewrite <-(assoc_L (++)), length_app.
  - intros H. apply emit_alt_code in H; [|done]. subst prog'. simpl app.
    rewrite patch_jumps_const, length_app. apply patch_alt.
  - simpl. intros (p & Hp & Hn)%res_bind_ok.
    apply (emit_times_chain _ _ (code x)) in Hp; [|exact IH]. subst p.
    rewrite <-length_app. destruct n as [t|].
    + apply (emit_times_chain _ _ (optional_code (code x))) in Hn; [|by apply emit_optional_code].
      subst prog'. by rewrite length_app, <-(assoc_L (++)).
    + apply (emit_star_code _ (code x)) in Hn; [|exact IH].
      subst prog'. by rewrite length_app, <-(assoc_L (++)).
  - simpl. intros (id & Hid%ok_or_ok & [= <-])%res_bind_ok. by rewrite Hid.
Qed.
End code.

(** ** Running a program is matching its node *)
Section segments.
Definition seg (P : list Inst) (pc : nat) (c : list Inst) : Prop :=
  ∀ i x, c !! i = Some x → P !! (pc + i) = Some x.

Lemma seg_app P pc c c' : seg P pc (c ++ c') ↔ seg P pc c ∧ seg P (pc + length c) c'.
Proof.
  split.
  - intros H. split; intros i x Hi.
    + apply H. by apply lookup_app_l_Some.
    + rewrite <-Nat.add_assoc. apply H. by rewrite lookup_app_r, Nat.add_comm, Nat.add_sub by lia.
  - intros [H1 H2] i x [Hi|[Hl Hi]]%lookup_app_Some; [by apply H1|].
    replace (pc + i) with (pc + length c + (i - length c)) by lia. by apply H2.
Qed.

Lemma seg_cons P pc x c : seg P pc (x :: c) ↔ P !! pc = Some x ∧ seg P (S pc) c.
Proof.
  change (x :: c) with ([x] ++ c). rewrite seg_app. simpl. rewrite Nat.add_1_r.
  split; intros [H ?]; (split; [|done]).
  - rewrite <-(Nat.add_0_r pc). by apply H.
  - intros [|[]] y; simpl; [intros [= <-]; by rewrite Nat.add_0_r|done..].
Qed.

Lemma seg_start c c' : seg (c ++ c') 0 c.
Proof. intros i x Hi. simpl. by apply lookup_app_l_Some. Qed.
End segments.

Section correct.
Context (g : Grammar) (rs : list (text * Node)).

Definition rule_ids : text → option nat := rule_id rs.*1.
Definition rule_body (name : text) : option Node := id ← rule_ids name; snd <$> rs !! id.

(** The programs of [g] are those of the parsed rules. *)
Definition compiled : Prop := ∀ id name node,
  rs !! id = Some (name, node) → rules g !! id = Some (code rule_ids node 0 ++ [IRet]).

Implicit Types (P : list Inst) (k : stack) (w : list Z).

Lemma inst_in P r pc i :
  rules g !! r = Some P → P !! pc = Some i → inst_at g (r, pc) = Some i.
Proof using. intros HP Hi. unfold inst_at. simpl. by rewrite HP. Qed.

(** The moves of a run, by the instruction at hand. *)
Lemma run_branch P r pc a b k w n m :
  rules g !! r = Some P → P !! pc = Some (ISplit a b) → m = a ∨ m = b →
  run g n ((r, m) :: k) w → run g (S n) ((r, pc) :: k) w.
Proof using.
  intros HP Hi Hm Hr. econstructor; [|exact Hr].
  simpl. unfold flow. rewrite (inst_in P r pc _ HP Hi). simpl.
  destruct Hm as [->| ->]; set_solver.
Qed.

Lemma run_jump P r pc a k w n :
  rules g !! r = Some P → P !! pc = Some (IJump a) →
  run g n ((r, a) :: k) w → run g (S n) ((r, pc) :: k) w.
Proof using.
  intros HP Hi Hr. econstructor; [|exact Hr].
  simpl. unfold flow. rewrite (inst_in P r pc _ HP Hi). set_solver.
Qed.

Lemma run_one P r pc i c k w n :
  rules g !! r = Some P → P !! pc = Some i → inst_matches i c = true →
  run g n ((r, S pc) :: k) w → run g (S n) ((r, pc) :: k) (c :: w).
Proof using.
  intros HP Hi Hm Hr. eapply run_cp; [by eapply inst_in|done|done].
Qed.

(** Some run exists; the number of moves does not matter. *)
Definition runs (st : stack) w : Prop := ∃ n, run g n st w.

(** A program that leads over [u] from its start to its end. *)
Definition leads P r (c : nat → list Inst) (u : list Z) : Prop := ∀ pc k w,
  seg P pc (c pc) → runs ((r, pc + length (c pc)) :: k) w → runs ((r, pc) :: k) (u ++ w).

Lemma chain_skip P r f t pc k w :
  rules g !! r = Some P → seg P pc (chain t (optional_code f) pc) →
  runs ((r, pc + length (chain t (optional_code f) pc)) :: k) w → runs ((r, pc) :: k) w.
Proof using.
  intros HP. revert pc. induction t as [|t IH]; intros pc; cbn [chain length].
  { by rewrite Nat.add_0_r. }
  rewrite seg_app, length_app, Nat.add_assoc. intros [Hs Ht] Hr.
  apply IH in Hr as [n Hr]; [|done]. exists (S n).
  unfold optional_code in Hs. apply seg_cons in Hs as [Hi _].
  eapply run_branch; [done..|by right|]. simpl in Hr. by rewrite Nat.add_succ_r in Hr.
Qed.

Lemma leads_alt P r e l x u pc k w :
  rules g !! r = Some P → x ∈ l → seg P pc (alt_code (code rule_ids) e l pc) →
  leads P r (code rule_ids x) u →
  e = pc + length (alt_code (code rule_ids) e l pc) →
  runs ((r, e) :: k) w → runs ((r, pc) :: k) (u ++ w).
Proof.
  intros HP Hx Hs Hl He Hr. revert pc Hx Hs He.
  induction l as [|y l IH]; intros pc Hx Hs He; [by apply elem_of_nil in Hx|].
  destruct l as [|z l].
  { apply list_elem_of_singleton in Hx as ->. apply Hl; [done|].
    cbn [alt_code] in He. by rewrite <-He. }
  set (c := code rule_ids y (S pc)).
  change (alt_code (code rule_ids) e (y :: z :: l) pc) with
    (ISplit (S pc) (S (S pc + length c)) :: c ++
       IJump e :: alt_code (code rule_ids) e (z :: l) (S (S pc + length c))) in Hs, He.
  rewrite seg_cons, seg_app, seg_cons in Hs. destruct Hs as (Hi & Hc & Hj & Ht).
  cbn [length] in He. rewrite length_app in He. cbn [length] in He.
  apply elem_of_cons in Hx as [<-|Hx].
  - destruct Hr as [n Hr].
    destruct (Hl (S pc) k w Hc) as [m Hm].
    { exists (S n). eapply run_jump; [done..|]. exact Hr. }
    exists (S m). eapply run_branch; [done..|by left|done].
  - destruct (IH (S (S pc + length c)) Hx Ht) as [m Hm]; [lia|].
    exists (S m). eapply run_branch; [done..|by right|done].
Qed.

Context (Hcomp : compiled).

(** Completeness of the programs. *)
Lemma matches_leads node u :
  matches rule_body node u → ∀ P r, rules g !! r = Some P → leads P r (code rule_ids node) u.
Proof using Hcomp.
  induction 1 as [cps|neg rs' c Hc|c| |x l u v _ IHu _ IHv|x l u Hx _ IH|x n|x m n u v _ IHu _ IHv
    |x n u v _ IHu _ IHv|name x u Hb _ IH]; intros P r HP pc k w Hs Hr.
  - revert pc Hs Hr. induction cps as [|c cps IH]; intros pc Hs Hr; simpl in *.
    { by rewrite Nat.add_0_r in Hr. }
    rewrite seg_cons in Hs. destruct Hs as [Hi Hs].
    destruct (IH (S pc) Hs) as [n Hn]; [by rewrite Nat.add_succ_r in Hr|].
    exists (S n). eapply run_one; [done..| |done]. simpl. lia.
  - destruct Hr as [n Hr]. simpl in *. rewrite Nat.add_1_r in Hr. apply seg_cons in Hs as [Hi _].
    exists (S n). eapply run_one; [done..| |done]. simpl. rewrite Hc. by destruct neg.
  - destruct Hr as [n Hr]. simpl in *. rewrite Nat.add_1_r in Hr. apply seg_cons in Hs as [Hi _].
    exists (S n). by eapply run_one.
  - simpl in *. by rewrite Nat.add_0_r in Hr.
  - cbn [code seq_code] in *. rewrite seg_app in Hs. destruct Hs as [Hs1 Hs2].
    rewrite <-(assoc_L (++)). apply (IHu P r HP); [done|].
    apply (IHv P r HP); [done|]. by rewrite length_app, Nat.add_assoc in Hr.
  - cbn [code] in *. eapply (leads_alt P r _ l x u pc); [done|done|exact Hs|by apply IH| |].
    + f_equal. apply length_branches.
    + by rewrite (length_branches _ _ 0) in Hr.
  - cbn [code chain app length] in *. rewrite Nat.add_0_r in *. destruct n as [t|].
    + by eapply chain_skip.
    + unfold star_code in *. apply seg_cons in Hs as [Hi _]. destruct Hr as [n Hr].
      exists (S n). eapply run_branch; [done..|by right|].
      cbn [length] in Hr. rewrite length_app in Hr. cbn [length] in Hr.
      by replace (S (S pc + length (code rule_ids x (S pc))))
        with (pc + S (length (code rule_ids x (S pc)) + 1)) by lia.
  - assert (code rule_ids (NRep x (S m) (S <$> n)) pc =
      code rule_ids x pc ++ code rule_ids (NRep x m n) (pc + length (code rule_ids x pc))) as Hc.
    { cbn [code chain]. rewrite <-(assoc_L (++)), length_app, Nat.add_assoc. by destruct n. }
    rewrite Hc in *. rewrite seg_app in Hs. destruct Hs as [Hs1 Hs2].
    rewrite <-(assoc_L (++)). apply (IHu P r HP); [done|].
    apply (IHv P r HP); [done|]. by rewrite length_app, Nat.add_assoc in Hr.
  - destruct n as [t|]; cbn [fmap option_fmap option_map] in *.
    + cbn [code chain app length Nat.sub] in *. rewrite Nat.add_0_r in *.
      cbn [code chain app length Nat.sub] in IHv.
      rewrite seg_app in Hs. destruct Hs as [Hs1 Hs2].
      unfold optional_code at 1 in Hs1. apply seg_cons in Hs1 as [Hi Hc].
      rewrite <-(assoc_L (++)).
      destruct (IHu P r HP (S pc) k (v ++ w) Hc) as [n Hn].
      { replace (S pc + length (code rule_ids x (S pc)))
          with (pc + length (optional_code (code rule_ids x) pc)) by (simpl; lia).
        apply (IHv P r HP).
        - by rewrite Nat.add_0_r, Nat.sub_0_r.
        - rewrite Nat.add_0_r, Nat.sub_0_r. by rewrite length_app, Nat.add_assoc in Hr. }
      exists (S n). eapply run_branch; [done..|by left|done].
    + pose proof Hs as Hs'.
      cbn [code chain app length Nat.sub] in Hs'. rewrite Nat.add_0_r in Hs'.
      unfold star_code in Hs'. rewrite seg_cons, seg_app, seg_cons in Hs'.
      destruct Hs' as (Hi & Hc & Hj & _). rewrite <-(assoc_L (++)).
      destruct (IHv P r HP pc k w Hs Hr) as [n Hn].
      destruct (IHu P r HP (S pc) k (v ++ w) Hc) as [n' Hn'].
      { exists (S n). by eapply run_jump. }
      exists (S n'). eapply run_branch; [done..|by left|done].
  - unfold rule_body in Hb. apply bind_Some in Hb as (id & Hid & Hx).
    apply fmap_Some in Hx as ([name' x'] & Hx & ->).
    cbn [code length] in *. rewrite Hid in Hs. simpl in Hs. apply seg_cons in Hs as [Hi _].
    rewrite Nat.add_1_r in Hr. destruct Hr as [n Hr].
    pose proof (Hcomp _ _ _ Hx) as HP'. simpl in *.
    destruct (IH _ id HP' 0 ((r, S pc) :: k) w) as [m Hm].
    + apply seg_start.
    + exists (S n). eapply run_eps; [|exact Hr]. simpl. unfold flow.
      rewrite (inst_in _ id _ IRet HP').
      * simpl. set_solver.
      * rewrite lookup_app_r by done. by rewrite Nat.sub_diag.
    + exists (S m). eapply run_eps; [|exact Hm]. simpl. unfold flow.
      rewrite (inst_in _ _ _ _ HP Hi). simpl. set_solver.
Qed.

(** ** Soundness: a run splits at the end of every node *)

(** A node whose references are rules, whose alternations have branches and
    whose repetitions are not reversed. *)
Fixpoint wf_node (node : Node) : Prop :=
  match node with
  | NStr cps => Forall (λ c, 0 ≤ c < 0x110000)%Z cps
  | NAny => True
  | NClass _ rs' => wf_ranges rs'
  | NSeq l => foldr (λ x, and (wf_node x)) True l
  | NAlt l => l ≠ [] ∧ foldr (λ x, and (wf_node x)) True l
  | NRep x m n => wf_node x ∧ from_option (λ n, m ≤ n) True n
  | NRef name => is_Some (rule_body name)
  end.

Lemma run_inv r pc i k w n :
  inst_at g (r, pc) = Some i → run g n ((r, pc) :: k) w →
  match i with
  | ISplit a b => ∃ m, n = S m ∧ (run g m ((r, a) :: k) w ∨ run g m ((r, b) :: k) w)
  | IJump a => ∃ m, n = S m ∧ run g m ((r, a) :: k) w
  | ICall r' => ∃ m, n = S m ∧ run g m ((r', 0) :: (r, S pc) :: k) w
  | IRet => k ≠ [] → ∃ m, n = S m ∧ run g m k w
  | _ => ∃ m c w', n = S m ∧ w = c :: w' ∧ inst_matches i c = true
                 ∧ run g m ((r, S pc) :: k) w'
  end.
Proof using.
  intros Hi Hr. inversion Hr as [f0 Hf|m st st' w0 Hsu Hr'|m f0 i' k0 cp w' Hi' Hm Hr']; subst.
  - rewrite Hi in Hf. by injection Hf as ->.
  - simpl in Hsu. unfold flow in Hsu. rewrite Hi in Hsu.
    destruct i; simpl in Hsu; try by apply elem_of_nil in Hsu.
    + exists m. split; [done|]. rewrite !elem_of_cons, elem_of_nil in Hsu. naive_solver.
    + exists m. split; [done|]. by apply list_elem_of_singleton in Hsu as ->.
    + exists m. split; [done|]. by apply list_elem_of_singleton in Hsu as ->.
    + intros Hk. destruct k; [done|]. exists m. split; [done|].
      by apply list_elem_of_singleton in Hsu as ->.
  - simpl in *. rewrite Hi in Hi'. injection Hi' as <-.
    destruct i; try discriminate Hm; by exists m, cp, w'.
Qed.

Definition splits (N : nat) P r (c : nat → list Inst) (M : list Z → Prop) : Prop :=
  ∀ n pc k w, n < N → seg P pc (c pc) → run g n ((r, pc) :: k) w →
  ∃ n' u v, n' ≤ n ∧ w = u ++ v ∧ M u ∧ run g n' ((r, pc + length (c pc)) :: k) v.

Lemma splits_one N P r i (M : list Z → Prop) :
  rules g !! r = Some P → (∀ c, inst_matches i c = true → M [c]) →
  (match i with ICp _ | IClass _ _ | IAny => True | _ => False end) →
  splits N P r (λ _, [i]) M.
Proof using.
  intros HP HM Hc n pc k w Hn Hs Hr. apply seg_cons in Hs as [Hi _].
  apply (run_inv _ _ i) in Hr; [|by eapply inst_in].
  assert (∃ m c w', n = S m ∧ w = c :: w' ∧ inst_matches i c = true
                 ∧ run g m ((r, S pc) :: k) w') as (m & c & w' & -> & -> & Hm & Hr').
  { destruct i; done. }
  exists m, [c], w'. rewrite Nat.add_1_r. auto with lia.
Qed.

Lemma splits_app N P r c (f : nat → nat) c' (M M' : list Z → Prop) :
  (∀ pc, f pc = pc + length (c pc)) → splits N P r c M → splits N P r c' M' →
  splits N P r (λ pc, c pc ++ c' (f pc)) (λ w, ∃ u v, w = u ++ v ∧ M u ∧ M' v).
Proof using.
  intros Hf H H' n pc k w Hn [Hs Hs']%seg_app Hr. rewrite Hf in *.
  destruct (H n pc k w Hn Hs Hr) as (n1 & u & v & Hn1 & -> & Hu & Hr1).
  destruct (H' n1 _ k v ltac:(lia) Hs' Hr1) as (n2 & u' & v' & Hn2 & -> & Hu' & Hr2).
  exists n2, (u ++ u'), v'. rewrite length_app, Nat.add_assoc, (assoc_L (++)).
  split_and!; [lia|done| |done]. by exists u, u'.
Qed.

Lemma splits_weaken N P r c (M M' : list Z → Prop) :
  (∀ w, M w → M' w) → splits N P r c M → splits N P r c M'.
Proof using.
  intros HM H n pc k w Hn Hs Hr.
  destruct (H n pc k w Hn Hs Hr) as (n' & u & v & ?&?&?&?). exists n', u, v. auto.
Qed.

Lemma splits_alt N P r e l (M : list Z → Prop) n pc k w :
  rules g !! r = Some P → l ≠ [] →
  (∀ x, x ∈ l → splits N P r (code rule_ids x) M) →
  n < N → seg P pc (alt_code (code rule_ids) e l pc) →
  e = pc + length (alt_code (code rule_ids) e l pc) → run g n ((r, pc) :: k) w →
  ∃ n' u v, n' ≤ n ∧ w = u ++ v ∧ M u ∧ run g n' ((r, e) :: k) v.
Proof using.
  intros HP. revert pc n. induction l as [|y l IH]; intros pc n Hne Hx Hn Hs He Hr; [done|].
  destruct l as [|z l].
  { cbn [alt_code] in *. rewrite He. by apply (Hx y ltac:(left)). }
  set (c := code rule_ids y (S pc)).
  change (alt_code (code rule_ids) e (y :: z :: l) pc) with
    (ISplit (S pc) (S (S pc + length c)) :: c ++
       IJump e :: alt_code (code rule_ids) e (z :: l) (S (S pc + length c))) in Hs, He.
  rewrite seg_cons, seg_app, seg_cons in Hs. destruct Hs as (Hi & Hc & Hj & Ht).
  cbn [length] in He. rewrite length_app in He. cbn [length] in He.
  apply (run_inv _ _ _ _ _ _ (inst_in _ _ _ _ HP Hi)) in Hr as (m & -> & [Hr|Hr]).
  - destruct (Hx y ltac:(left) m (S pc) k w ltac:(lia) Hc Hr) as (n1 & u & v & ? & -> & Hu & Hr1).
    apply (run_inv _ _ _ _ _ _ (inst_in _ _ _ _ HP Hj)) in Hr1 as (m' & -> & Hr1).
    exists m', u, v. auto with lia.
  - destruct (IH (S (S pc + length c)) m) as (n1 & u & v & ? & -> & Hu & Hr1);
      [done| |lia|done|lia|done|].
    { intros x Hin. apply Hx. by right. }
    exists n1, u, v. auto with lia.
Qed.

Lemma splits_optional N P r c (M : list Z → Prop) :
  rules g !! r = Some P → splits N P r c M →
  splits N P r (optional_code c) (λ w, w = [] ∨ M w).
Proof using.
  intros HP H n pc k w Hn [Hi Hc]%seg_cons Hr. simpl length.
  apply (run_inv _ _ _ _ _ _ (inst_in _ _ _ _ HP Hi)) in Hr as (m & -> & [Hr|Hr]).
  - destruct (H m (S pc) k w ltac:(lia) Hc Hr) as (n1 & u & v & ? & -> & Hu & Hr1).
    exists n1, u, v. replace (pc + S (length (c (S pc)))) with (S pc + length (c (S pc))) by lia.
    auto with lia.
  - exists m, [], w. replace (pc + S (length (c (S pc)))) with (S pc + length (c (S pc))) by lia.
    auto with lia.
Qed.

Lemma splits_chain N P r c t (M : list Z → Prop) :
  splits N P r c M →
  splits N P r (chain t c) (λ w, ∃ ws, w = concat ws ∧ length ws = t ∧ Forall M ws).
Proof using.
  intros H. induction t as [|t IH].
  - intros n pc k w Hn _ Hr. exists n, [], w. simpl. rewrite Nat.add_0_r.
    split_and!; [done|done| |done]. by exists [].
  - eapply splits_weaken; [|exact (splits_app _ _ _ _ _ _ _ _ (λ pc, eq_refl) H IH)].
    intros w (u & v & -> & Hu & ws & -> & Hl & Hws). exists (u :: ws). simpl. auto.
Qed.

Lemma splits_star N P r c (M : list Z → Prop) :
  rules g !! r = Some P → splits N P r c M →
  splits N P r (star_code c) (λ w, ∃ ws, w = concat ws ∧ Forall M ws).
Proof using.
  intros HP H n. induction (lt_wf n) as [n _ IH]. intros pc k w Hn Hs Hr.
  pose proof Hs as Hs'. unfold star_code in Hs'. rewrite seg_cons, seg_app, seg_cons in Hs'.
  destruct Hs' as (Hi & Hc & Hj & _).
  apply (run_inv _ _ _ _ _ _ (inst_in _ _ _ _ HP Hi)) in Hr as (m & -> & [Hr|Hr]).
  - destruct (H m (S pc) k w ltac:(lia) Hc Hr) as (n1 & u & v & ? & -> & Hu & Hr1).
    apply (run_inv _ _ _ _ _ _ (inst_in _ _ _ _ HP Hj)) in Hr1 as (m' & -> & Hr1).
    destruct (IH m' ltac:(lia) pc k v ltac:(lia) Hs Hr1)
      as (n2 & u' & v' & ? & -> & (ws & -> & Hws) & Hr2).
    exists n2, (u ++ concat ws), v'. rewrite (assoc_L (++)). split_and!; [lia|done| |done].
    exists (u :: ws). auto.
  - exists m, [], w. split_and!; [lia|done|by exists []|].
    unfold star_code. cbn [length]. rewrite length_app. cbn [length].
    by replace (pc + S (length (c (S pc)) + 1)) with (S (S pc + length (c (S pc)))) by lia.
Qed.

Lemma wf_node_all l x :
  foldr (λ x, and (wf_node x)) True l → x ∈ l → wf_node x.
Proof using.
  induction l as [|y l IH]; simpl; [by intros _ ?%elem_of_nil|].
  intros [Hy Hl] [->|Hx]%elem_of_cons; auto.
Qed.

Lemma matches_seq_cons x l w :
  (∃ u v, w = u ++ v ∧ matches rule_body x u ∧ matches rule_body (NSeq l) v) →
  matches rule_body (NSeq (x :: l)) w.
Proof using. intros (u & v & -> & ? & ?). by constructor. Qed.

Lemma length_concat_options (M : list Z → Prop) ws :
  Forall (λ w, w = [] ∨ M w) ws →
  ∃ ws', concat ws = concat ws' ∧ length ws' ≤ length ws ∧ Forall M ws'.
Proof using.
  induction 1 as [|w ws Hw _ (ws' & Hc & Hl & Hf)]; [by exists []|].
  destruct Hw as [->|Hw]; [exists ws'|exists (w :: ws')]; simpl; rewrite Hc; auto with lia.
Qed.

(** What the program of a repetition splits off is a repetition. *)
Lemma splits_rep N P r x m n :
  rules g !! r = Some P → from_option (λ n, m ≤ n) True n →
  splits N P r (code rule_ids x) (matches rule_body x) →
  splits N P r (code rule_ids (NRep x m n)) (matches rule_body (NRep x m n)).
Proof using.
  intros HP Hmn Hx. destruct n as [t|].
  - eapply splits_weaken; [|exact (splits_app _ _ _ _ _ _ _ _ (λ pc, eq_refl)
      (splits_chain _ _ _ _ m _ Hx)
      (splits_chain _ _ _ _ (t - m) _ (splits_optional _ _ _ _ _ HP Hx)))].
    intros w (u & v & -> & (ws & -> & Hl & Hws) & vs & -> & Hl' & Hvs).
    apply length_concat_options in Hvs as (vs' & -> & Hl'' & Hvs).
    apply matches_rep_iff; [done|]. exists (ws ++ vs').
    rewrite concat_app, length_app. split_and!; [done|by apply list.Forall_app|lia|].
    simpl in *. lia.
  - eapply splits_weaken; [|exact (splits_app _ _ _ _ _ _ _ _ (λ pc, eq_refl)
      (splits_chain _ _ _ _ m _ Hx) (splits_star _ _ _ _ _ HP Hx))].
    intros w (u & v & -> & (ws & -> & Hl & Hws) & vs & -> & Hvs).
    apply matches_rep_iff; [done|]. exists (ws ++ vs).
    rewrite concat_app, length_app. split_and!; [done|by apply list.Forall_app|lia|done].
Qed.

Context (Hwf : Forall (λ r, wf_node r.2) rs).

(** A call runs the rule it names and comes back. *)
Lemma splits_ref N P r name :
  (∀ P' r' x, rules g !! r' = Some P' → wf_node x →
     splits N P' r' (code rule_ids x) (matches rule_body x)) →
  rules g !! r = Some P → is_Some (rule_body name) →
  splits (S N) P r (code rule_ids (NRef name)) (matches rule_body (NRef name)).
Proof using Hcomp Hwf.
  intros IH HP [x Hb] n pc k w Hn Hs Hr. pose proof Hb as Hb'.
  unfold rule_body in Hb'. apply bind_Some in Hb' as (id & Hid & Hx).
  apply fmap_Some in Hx as ([name' x'] & Hx & ->). simpl in Hb.
  cbn [code] in Hs. rewrite Hid in Hs. simpl in Hs. apply seg_cons in Hs as [Hi _].
  apply (run_inv _ _ _ _ _ _ (inst_in _ _ _ _ HP Hi)) in Hr as (m & -> & Hr).
  pose proof (Hcomp _ _ _ Hx) as HP'.
  destruct (IH _ id x' HP') with (n := m) (pc := 0) (k := (r, S pc) :: k) (w := w)
    as (n1 & u & v & ? & -> & Hu & Hr1); [|lia|apply seg_start|done|].
  { exact (proj1 (Forall_lookup _ _) Hwf _ _ Hx). }
  apply (run_inv _ _ IRet) in Hr1; [|  |done].
  2:{ apply (inst_in _ _ _ _ HP'). simpl. rewrite lookup_app_r by done. by rewrite Nat.sub_diag. }
  destruct Hr1 as (m' & -> & Hr1).
  exists m', u, v. simpl length. rewrite Nat.add_1_r.
  split_and!; [lia|done|by econstructor|done].
Qed.

Lemma run_splits N node P r :
  rules g !! r = Some P → wf_node node →
  splits N P r (code rule_ids node) (matches rule_body node).
Proof using Hcomp Hwf.
  revert node P r. induction N as [|N IHN]; [intros node P r _ _ n pc k w ?; lia|].
  induction node as [cps|neg rs'| |l IH|l IH|x m n IH|name] using node_ind'; intros P r HP Hw.
  - clear Hw. induction cps as [|c cps IH].
    + intros n pc k w Hn _ Hr. exists n, [], w. simpl. rewrite Nat.add_0_r.
      split_and!; [done|done|constructor|done].
    + assert (splits (S N) P r (λ _, [ICp c]) (λ w, w = [c])) as Hc.
      { apply splits_one; [done| |done]. intros c' H. simpl in H. f_equal. lia. }
      eapply splits_weaken; [|exact (splits_app _ _ _ _ _ _ _ _ (λ pc, eq_refl) Hc IH)].
      intros w (u & v & -> & -> & Hv). inversion Hv; subst. constructor.
  - apply splits_one; [done| |done]. intros c. simpl. intros H. constructor.
    by destruct (in_class rs' c), neg.
  - apply splits_one; [done| |done]. intros. constructor.
  - simpl in Hw. induction IH as [|x l Hx _ IH].
    + intros n pc k w Hn _ Hr. exists n, [], w. simpl. rewrite Nat.add_0_r.
      split_and!; [done|done|constructor|done].
    + destruct Hw as [Hwx Hwl]. eapply splits_weaken; [by apply matches_seq_cons|].
      exact (splits_app _ _ _ _ _ _ _ _ (λ pc, eq_refl) (Hx P r HP Hwx) (IH Hwl)).
  - destruct Hw as [Hne Hw]. intros n pc k w Hn Hs Hr. cbn [code] in *.
    rewrite (length_branches _ _ 0).
    apply (splits_alt (S N) P r _ l (matches rule_body (NAlt l)) n pc); try done.
    + intros x Hx. rewrite list.Forall_forall in IH.
      eapply splits_weaken; [|by apply IH; [|exact HP|by eapply wf_node_all]].
      intros w' ?. by eapply match_alt.
    + f_equal. apply length_branches.
  - destruct Hw as [Hwx Hmn]. apply splits_rep; [done..|]. by apply IH.
  - apply splits_ref; [|done|exact Hw]. intros. by apply IHN.
Qed.

(** The start stack of a rule runs exactly what its node matches. *)
Lemma rule_lang id name node w :
  rs !! id = Some (name, node) →
  lang g [[(id, 0)]] w ↔ matches rule_body node w.
Proof using Hcomp Hwf.
  intros Hid. pose proof (Hcomp _ _ _ Hid) as HP.
  assert (inst_at g (id, length (code rule_ids node 0)) = Some IRet) as Hret.
  { apply (inst_in _ _ _ _ HP). rewrite lookup_app_r by done. by rewrite Nat.sub_diag. }
  split.
  - intros (st & n & ->%list_elem_of_singleton & Hr).
    destruct (run_splits (S n) node _ id HP) with (n := n) (pc := 0) (k := @nil frame) (w := w)
      as (n1 & u & v & ? & -> & Hu & Hr1); [|lia|apply seg_start|done|].
    { exact (proj1 (Forall_lookup _ _) Hwf _ _ Hid). }
    simpl in Hr1. inversion Hr1 as [|? ? st' ? Hsu|? ? i ? ? ? Hi Hm]; subst.
    + by rewrite app_nil_r.
    + simpl in Hsu. unfold flow in Hsu. rewrite Hret in Hsu. by apply elem_of_nil in Hsu.
    + rewrite Hret in Hi. injection Hi as <-. done.
  - intros Hm. destruct (matches_leads _ _ Hm _ id HP 0 [] []) as [n Hn].
    + apply seg_start.
    + exists 0. by constructor.
    + rewrite app_nil_r in Hn. exists [(id, 0)], n. split; [by left|done].
Qed.

(** ** Compiled programs are well formed *)

(** Every instruction of a piece of program at [pc] is, in a program of
    length [len] that goes on behind the piece. *)
Definition code_wf len (pc : nat) (c : list Inst) : Prop :=
  pc + length c < len → ∀ i x, c !! i = Some x → wf_inst (length rs) len (pc + i) x.

Lemma code_wf_app len pc c c' :
  code_wf len pc c → code_wf len (pc + length c) c' → code_wf len pc (c ++ c').
Proof using.
  intros H H' Hl i x Hi. rewrite length_app in Hl.
  apply lookup_app_Some in Hi as [Hi|[Hi Hx]].
  - apply H; [lia|done].
  - replace (pc + i) with (pc + length c + (i - length c)) by lia. apply H'; [lia|done].
Qed.

Lemma code_wf_one len pc i :
  (S pc < len → wf_inst (length rs) len pc i) → code_wf len pc [i].
Proof using.
  intros H Hl [|[]] x; simpl in *; [|done..]. intros [= <-].
  rewrite Nat.add_0_r. apply H. lia.
Qed.

Lemma code_wf_cons len pc i c :
  (pc + S (length c) < len → wf_inst (length rs) len pc i) → code_wf len (S pc) c →
  code_wf len pc (i :: c).
Proof using.
  intros H H' Hl [|j] x; simpl in *.
  - intros [= <-]. rewrite Nat.add_0_r. apply H. lia.
  - intros Hj. rewrite Nat.add_succ_r. apply H'; [lia|done].
Qed.

Lemma code_wf_chain len t c pc :
  (∀ pc, code_wf len pc (c pc)) → code_wf len pc (chain t c pc).
Proof using.
  intros H. revert pc. induction t as [|t IH]; intros pc; simpl; [by intros _ i x|].
  by apply code_wf_app.
Qed.

Lemma rule_body_lookup name node :
  rule_body name = Some node →
  ∃ id, rule_ids name = Some id ∧ rs !! id = Some (name, node).
Proof using.
  unfold rule_body. intros (id & Hid & Hx)%bind_Some. exists id. split; [done|].
  unfold rule_ids, rule_id in Hid. apply fmap_Some in Hid as ([id' n'] & Hf & ->).
  apply list_find_Some in Hf as (Hn & <- & _). simpl in *.
  apply fmap_Some in Hx as ([n y] & Hx & ->). rewrite Hx.
  apply list_lookup_fmap_Some in Hn as ([n' y'] & -> & Hn). by simplify_eq/=.
Qed.

Lemma code_wf_node node len pc : wf_node node → code_wf len pc (code rule_ids node pc).
Proof using.
  revert pc. induction node as [cps|neg rs'| |l IH|l IH|x m n IH|name] using node_ind';
    intros pc Hw.
  - simpl in *. revert pc. induction Hw as [|c cps Hc _ IH]; intros pc; simpl;
      [by intros _ i x|]. apply code_wf_cons; [cbn [wf_inst]; lia|done].
  - apply code_wf_one. simpl. auto.
  - apply code_wf_one. simpl. auto.
  - simpl in *. revert pc. induction IH as [|x l Hx _ IH]; intros pc; simpl; [by intros _ i x|].
    destruct Hw. apply code_wf_app; auto.
  - destruct Hw as [_ Hw]. cbn [code]. rewrite (length_branches _ 0 (pc + length (alt_code (code rule_ids) 0 l pc))).
    remember (pc + length (alt_code (code rule_ids) (pc + length (alt_code (code rule_ids) 0 l pc)) l pc))
      as e eqn:He.
    assert (pc + length (alt_code (code rule_ids) e l pc) = e) as He'.
    { rewrite He. f_equal. apply length_branches. }
    clear He. revert pc He'. induction IH as [|x l Hx Hl IH]; intros pc He; [by intros _ i x|].
    destruct l as [|y l]; [by apply Hx, Hw|]. destruct Hw as [Hwx Hw].
    set (c := code rule_ids x (S pc)).
    change (alt_code (code rule_ids) e (x :: y :: l) pc) with
      (ISplit (S pc) (S (S pc + length c)) :: c ++
         IJump e :: alt_code (code rule_ids) e (y :: l) (S (S pc + length c))) in *.
    cbn [length] in He. rewrite length_app in He. cbn [length] in He.
    apply code_wf_cons.
    { rewrite length_app. cbn [wf_inst length]. lia. }
    apply code_wf_app; [by apply Hx|]. apply code_wf_cons; [cbn [wf_inst]; lia|].
    apply IH; [done|]. lia.
  - destruct Hw as [Hw _]. cbn [code].
    apply code_wf_app; [apply code_wf_chain; auto|].
    generalize (pc + length (chain m (code rule_ids x) pc)) as q. intros q.
    destruct n as [t|].
    + apply code_wf_chain. intros p. apply code_wf_cons; [cbn [wf_inst]; lia|auto].
    + unfold star_code. apply code_wf_cons.
      * rewrite length_app. cbn [wf_inst length]. lia.
      * apply code_wf_app; [by apply IH|]. apply code_wf_one. cbn [wf_inst]. lia.
  - apply code_wf_one. simpl in *. destruct Hw as [node Hb].
    apply rule_body_lookup in Hb as (id & -> & Hid). simpl.
    intros. split; [by eapply lookup_lt_Some|done].
Qed.

Lemma compiled_wf :
  length (rules g) = length rs → root g < length rs → wf_grammar g.
Proof using Hcomp Hwf.
  intros Hl Hr. split; [|lia]. rewrite Hl. apply Forall_lookup. intros id prog Hp.
  destruct (rs !! id) as [[name node]|] eqn:Hid.
  2:{ apply lookup_ge_None in Hid. apply lookup_lt_Some in Hp. lia. }
  pose proof (Hcomp _ _ _ Hid) as HP. assert (prog = code rule_ids node 0 ++ [IRet]) as -> by congruence.
  split; [rewrite length_app; simpl; lia|]. intros pc i Hi.
  apply lookup_app_Some in Hi as [Hi|[Hi Hx]].
  - apply (code_wf_node node _ 0 (proj1 (Forall_lookup _ _) Hwf _ _ Hid)); [rewrite length_app; simpl; lia|done].
  - destruct (pc - _) as [|[]]; simpl in Hx; [|done..]. by injection Hx as <-.
Qed.
End correct.
