(* ===== verification/GrammarConsume.v ===== *)
(** * What [consume] and a run of tokens do: bytes against the language

    The checks of an unfinished character are exact ([covers_spec],
    [partial_can_complete_spec]), and [consume] splits its bytes into whole
    characters, takes them away from the language, and keeps a tail only when
    some character can still be made of it. *)
From Stdlib Require Import ZArith Lia ZifyBool Strings.Byte.
From stdpp Require Import base numbers list gmap option relations sorting.
From S2P Require Import Prelude Gguf Utf8 Utf8Facts Gbnf Grammar GrammarRuns.
Local Open Scope Z_scope.

(** ** Ranges *)
Lemma in_class_spec rs cp : in_class rs cp = true ↔ ∃ a b, (a, b) ∈ rs ∧ a ≤ cp ≤ b.
Proof.
  unfold in_class. rewrite existsb_exists. split.
  - intros ([a b] & Hin & H). exists a, b. split; [by apply list_elem_of_In|lia].
  - intros (a & b & Hin & H). exists (a, b). split; [by apply list_elem_of_In|lia].
Qed.

Lemma covers_from_spec rs next hi :
  wf_ranges rs → next ≤ hi →
  covers_from rs next hi = true ↔ ∀ cp, next ≤ cp ≤ hi → in_class rs cp = true.
Proof.
  intros [Hr Hs]. revert next. induction Hs as [|[a b] rs Hs IH Hab]; intros next Hl; simpl.
  { split; [done|]. intros H. by apply (H next); lia. }
  apply list.Forall_cons in Hr as [Hab' Hr]. simpl in Hab'.
  destruct (Z.ltb_spec b next); [|destruct (Z.ltb_spec next a); [|destruct (Z.leb_spec hi b)]].
  - rewrite (IH Hr) by done. split; intros H' cp Hcp; specialize (H' cp Hcp).
    + rewrite H'. apply orb_true_r.
    + apply orb_true_iff in H' as [?|?]; [lia|done].
  - split; [done|]. intros H'. specialize (H' next ltac:(lia)).
    apply orb_true_iff in H' as [?|(a' & b' & Hin & ?)%in_class_spec]; [lia|].
    rewrite list.Forall_forall in Hab. specialize (Hab _ Hin). unfold range_le in Hab.
    simpl in *. lia.
  - split; [|done]. intros _ cp Hcp. apply orb_true_iff. left. lia.
  - rewrite (IH Hr) by lia. split; intros H' cp Hcp.
    + destruct (Z.leb_spec cp b); [apply orb_true_iff; left; lia|].
      rewrite H' by lia. apply orb_true_r.
    + specialize (H' cp ltac:(lia)). apply orb_true_iff in H' as [?|?]; [lia|done].
Qed.

(** [covers]: every codepoint of the range is in some range of the class. *)
Lemma covers_spec rs lo hi :
  wf_ranges rs → lo ≤ hi →
  covers rs lo hi = true ↔ ∀ cp, lo ≤ cp ≤ hi → in_class rs cp = true.
Proof. apply covers_from_spec. Qed.

Lemma not_covered rs lo hi :
  wf_ranges rs → lo ≤ hi → covers rs lo hi = false → ∃ cp, lo ≤ cp ≤ hi ∧ in_class rs cp = false.
Proof.
  intros [Hr Hs]. unfold covers. revert lo.
  induction Hs as [|[a b] rs Hs IH Hab]; intros lo Hl; simpl; [intros _; by exists lo; auto with lia|].
  apply list.Forall_cons in Hr as [Hab' Hr]. simpl in Hab'.
  destruct (Z.ltb_spec b lo); [|destruct (Z.ltb_spec lo a); [|destruct (Z.leb_spec hi b); [done|]]].
  - intros (cp & ? & ?)%IH; [|done..]. exists cp. split; [done|]. apply orb_false_iff. split; [lia|done].
  - intros _. exists lo. split; [lia|]. apply orb_false_iff. split; [lia|].
    apply not_true_iff_false. intros (a' & b' & Hin & ?)%in_class_spec.
    rewrite list.Forall_forall in Hab. specialize (Hab _ Hin). unfold range_le in Hab.
    simpl in *. lia.
  - intros (cp & ? & ?)%IH; [|done|lia]. exists cp. split; [lia|]. apply orb_false_iff. split; [lia|done].
Qed.

(** An instruction meets a range when it matches a codepoint of it. *)
Lemma inst_meets_spec i lo hi nr len pc :
  wf_inst nr len pc i → lo ≤ hi →
  inst_meets i lo hi = true ↔ ∃ cp, lo ≤ cp ≤ hi ∧ inst_matches i cp = true.
Proof.
  intros Hi Hl. destruct i as [c|[] rs| |a b|a|r|]; simpl.
  - split; [intros; exists c; lia|]. intros (cp & ?). lia.
  - rewrite negb_true_iff. split.
    + intros (cp & ? & Hc)%not_covered; [|apply Hi|done]. exists cp. by rewrite Hc.
    + intros (cp & Hcp & Hm). apply not_true_iff_false. intros Hco.
      rewrite covers_spec in Hco by first [apply Hi|done]. by rewrite Hco in Hm.
  - rewrite existsb_exists. destruct Hi as [_ [Hr _]]. rewrite list.Forall_forall in Hr. split.
    + intros ([a b] & Hin%list_elem_of_In & H). exists (Z.max lo a).
      specialize (Hr _ Hin). simpl in Hr. split; [lia|].
      rewrite (proj2 (in_class_spec rs (Z.max lo a))); [done|]. exists a, b. split; [done|lia].
    + intros (cp & Hcp & Hm). destruct (in_class rs cp) eqn:Hc; [|done].
      apply in_class_spec in Hc as (a & b & Hin & ?). exists (a, b).
      split; [by apply list_elem_of_In|lia].
  - split; [intros; exists lo; lia|done].
  - split; [done|]. by intros (?&_&?).
  - split; [done|]. by intros (?&_&?).
  - split; [done|]. by intros (?&_&?).
  - split; [done|]. by intros (?&_&?).
Qed.

Lemma non_surrogate_parts_spec lo hi cp :
  lo ≤ hi →
  (∃ a b, (a, b) ∈ non_surrogate_parts lo hi ∧ a ≤ cp ≤ b)
  ↔ lo ≤ cp ≤ hi ∧ ¬ (SUR_LO ≤ cp ≤ SUR_HI).
Proof.
  intros Hl. unfold non_surrogate_parts, SUR_LO, SUR_HI.
  destruct (_ || _) eqn:H1.
  { setoid_rewrite list_elem_of_singleton. split; [intros (a & b & [= -> ->] & ?); lia|].
    intros []. exists lo, hi. split; [done|lia]. }
  setoid_rewrite elem_of_app.
  destruct (Z.ltb_spec lo 0xD800), (Z.ltb_spec 0xDFFF hi); split.
  all: try (intros (a & b & [Hin|Hin] & ?);
    first [apply list_elem_of_singleton in Hin as [= -> ->]; lia | by apply elem_of_nil in Hin]).
  all: intros [? Hs]; try lia.
  - destruct (Z.ltb_spec cp 0xD800); [exists lo, 0xD7FF|exists 0xE000, hi];
      (split; [set_solver|lia]).
  - exists lo, 0xD7FF. split; [set_solver|lia].
  - exists 0xE000, hi. split; [set_solver|lia].
Qed.

Lemma non_surrogate_parts_le lo hi a b :
  lo ≤ hi → (a, b) ∈ non_surrogate_parts lo hi → lo ≤ a ∧ a ≤ b ∧ b ≤ hi.
Proof.
  intros Hl. unfold non_surrogate_parts, SUR_LO, SUR_HI. destruct (_ || _) eqn:H1.
  { intros [= -> ->]%list_elem_of_singleton. lia. }
  intros [Hin|Hin]%elem_of_app; case_match;
    first [apply list_elem_of_singleton in Hin as [= -> ->]; lia | by apply elem_of_nil in Hin].
Qed.

Section consume.
Context (g : Grammar) (Hwf : wf_grammar g).

(** ** Can the stacks go on? *)
Lemma any_plain_spec sts lo hi :
  Forall (valid_stack g) sts → lo ≤ hi →
  ∃ b, any_stack_accepts_plain_range g sts lo hi = Some b
  ∧ (b = true ↔ ∃ cp, lo ≤ cp ≤ hi ∧ consumes g sts cp).
Proof using Hwf.
  intros Hv Hl. induction Hv as [|st sts [Hne Hst] _ (b & Hb & Hspec)]; simpl.
  { exists false. split; [done|]. split; [done|].
    intros (cp & _ & f & k & i & ?%elem_of_nil & _). done. }
  destruct st as [|f k]; [done|]. apply list.Forall_cons in Hst as [[i Hi] _].
  rewrite Hi. simpl. destruct (wf_inst_at g Hwf f i Hi) as (prog & _ & Hw).
  pose proof (inst_meets_spec i lo hi _ _ _ Hw Hl) as Hm.
  destruct (inst_meets i lo hi).
  - exists true. split; [done|]. split; [intros _|done].
    destruct (proj1 Hm eq_refl) as (cp & ? & ?). exists cp. split; [done|].
    exists f, k, i. split; [by left|done].
  - exists b. split; [done|]. rewrite Hspec. split; intros (cp & Hcp & f' & k' & i' & Hin & Hi' & Hm').
    + exists cp. split; [done|]. exists f', k', i'. split; [by right|done].
    + exists cp. split; [done|]. apply elem_of_cons in Hin as [[= -> ->]|Hin]; [|by exists f', k', i'].
      assert (i' = i) as -> by congruence.
      assert (false = true) by (apply Hm; by exists cp). done.
Qed.

Lemma any_part_spec sts parts :
  Forall (valid_stack g) sts → (∀ a b, (a, b) ∈ parts → a ≤ b) →
  ∃ r, any_part g sts parts = Some r
  ∧ (r = true ↔ ∃ a b cp, (a, b) ∈ parts ∧ a ≤ cp ≤ b ∧ consumes g sts cp).
Proof using Hwf.
  intros Hv. induction parts as [|[a b] parts IH]; intros Hp; simpl.
  { exists false. split; [done|]. split; [done|]. by intros (?&?&?&?%elem_of_nil&_). }
  destruct (any_plain_spec sts a b Hv) as (r & -> & Hr); [apply Hp; by left|]. simpl.
  destruct IH as (r' & Hr' & Hs); [intros; apply Hp; by right|].
  destruct r.
  - exists true. split; [done|]. split; [intros _|done].
    destruct (proj1 Hr eq_refl) as (cp & ? & ?). exists a, b, cp. split; [by left|done].
  - exists r'. split; [done|]. rewrite Hs. split.
    + intros (a' & b' & cp & Hin & ?). exists a', b', cp. split; [by right|done].
    + intros (a' & b' & cp & [[= -> ->]|Hin]%elem_of_cons & Hcp & Hc); [|by exists a', b', cp].
      assert (false = true) by (apply Hr; by exists cp). done.
Qed.

(** [partial_can_complete] is exact: some character the bytes start is one
    the stacks can consume. *)
Lemma partial_can_complete_exact sts part :
  Forall (valid_stack g) sts → part ≠ [] →
  ∃ b, partial_can_complete g sts part = Some b
  ∧ (b = true ↔ ∃ c, scalar c ∧ starts part c ∧ consumes g sts c).
Proof using Hwf.
  intros Hv Hne. unfold partial_can_complete.
  destruct (completion_range part) as [[lo hi]|] eqn:Hr.
  - destruct (completion_range_scalar _ _ _ Hr) as (Hlo & Hhi & Hl).
    unfold any_stack_accepts_range.
    destruct (any_part_spec sts (non_surrogate_parts lo hi) Hv) as (r & -> & Hs).
    { intros a b Hin. by apply (non_surrogate_parts_le lo hi) in Hin as (_ & ? & _). }
    exists r. split; [done|]. rewrite Hs. split.
    + intros (a & b & cp & Hin & Hcp & Hc).
      destruct (proj1 (non_surrogate_parts_spec lo hi cp Hl)) as [Hc1 Hc2]; [by exists a, b|].
      assert (scalar cp) as Hsc.
      { unfold scalar in *. unfold SUR_LO, SUR_HI in Hc2. lia. }
      exists cp. split; [done|]. split; [|done]. by eapply completion_range_starts.
    + intros (c & Hsc & Hst & Hc). eapply completion_range_starts in Hst; [|done..].
      destruct (proj2 (non_surrogate_parts_spec lo hi c Hl)) as (a & b & ? & ?); [|by exists a, b, c].
      split; [done|]. unfold scalar, SUR_LO, SUR_HI in *. lia.
  - exists false. split; [done|]. split; [done|]. intros (c & Hsc & Hst & _).
    destruct (starts_range part c Hsc Hne Hst) as [? Hx]. by rewrite Hr in Hx.
Qed.

(** ** Walking a word *)
Inductive path : list stack → list Z → list stack → Prop :=
| path_nil sts : path sts [] sts
| path_cons sts c u sts1 sts' :
    step g sts c = Ok sts1 → path sts1 u sts' → path sts (c :: u) sts'.

Lemma path_closed sts u sts' : closed g sts → path sts u sts' → closed g sts'.
Proof using Hwf.
  intros Hc Hp. induction Hp as [|sts c u sts1 sts' Hs _ IH]; [done|].
  apply IH. by eapply step_closed.
Qed.

Lemma path_bounded sts u sts' : bounded sts → path sts u sts' → bounded sts'.
Proof using.
  intros Hb Hp. induction Hp as [|sts c u sts1 sts' Hs _ IH]; [done|].
  apply IH. by eapply step_bounded.
Qed.

Lemma path_lang sts u sts' w :
  closed g sts → path sts u sts' → lang g sts' w ↔ lang g sts (u ++ w).
Proof using Hwf.
  intros Hc Hp. revert w. induction Hp as [|sts c u sts1 sts' Hs _ IH]; intros w; [done|].
  rewrite IH by by eapply step_closed. by eapply step_lang.
Qed.

Lemma path_app sts u sts1 v sts' : path sts u sts1 → path sts1 v sts' → path sts (u ++ v) sts'.
Proof using. induction 1; [done|]. intros. econstructor; [done|auto]. Qed.

(** The sentences that begin with some bytes. *)
Definition continues (sts : list stack) (buf : bytes) : Prop :=
  ∃ tail w, Forall scalar w ∧ buf ++ tail = encode_all w ∧ lang g sts w.

(** A tail that can become a character the stacks consume. *)
Definition finishable (sts : list stack) (rest : bytes) : Prop :=
  rest = [] ∨ ∃ c, scalar c ∧ starts rest c ∧ consumes g sts c.

Lemma not_surrogate c : scalar c → (SUR_LO <=? c) && (c <=? SUR_HI) = false.
Proof using. unfold scalar, SUR_LO, SUR_HI. lia. Qed.

(** A whole character at the head of the buffer is the sentence's next one. *)
Lemma continues_cp sts c buf :
  scalar c → continues sts (encode c ++ buf) →
  ∃ tail w, Forall scalar w ∧ buf ++ tail = encode_all w ∧ lang g sts (c :: w).
Proof using.
  intros Hc (tail & w & Hw & He & Hl). rewrite <-(assoc_L (++)) in He.
  destruct w as [|c' w].
  { apply app_nil in He as [He _]. pose proof (length_encode c) as H. rewrite He in H. simpl in H. lia. }
  apply list.Forall_cons in Hw as [Hc' Hw]. rewrite encode_all_cons in He.
  apply encode_prefix_free in He as [<- He]; [|done..]. by exists tail, w.
Qed.

Lemma continues_decode sts buf u :
  decode_at buf = Some u → continues sts buf →
  match u with
  | Cp c _ => True
  | Incomplete => ∃ c w, starts buf c ∧ scalar c ∧ lang g sts (c :: w)
  | Invalid => False
  end.
Proof using.
  intros Hd (tail & w & Hw & He & Hl).
  destruct (prefix_cases buf tail w Hw He) as [->|(c & w' & -> & [(buf' & -> & He')|Hs])]; [done| |];
    apply list.Forall_cons in Hw as [Hc Hw].
  - rewrite decode_encode in Hd by done. by injection Hd as <-.
  - destruct (starts_range buf c) as [r Hr]; [done|by destruct buf|done|].
    assert (decode_at buf = Some Incomplete) as Hi by (apply decode_incomplete; eauto).
    assert (u = Incomplete) as -> by congruence. by exists c, w'.
Qed.

Lemma consume_loop_spec fuel carried i sts buf :
  closed g sts → (length buf ≤ fuel)%nat →
  match consume_loop g fuel carried i sts buf with
  | Ok (sts', rest) =>
      ∃ u, Forall scalar u ∧ buf = encode_all u ++ rest ∧ path sts u sts' ∧ finishable sts' rest
  | Err (n, why) =>
      (∃ u rest sts', Forall scalar u ∧ buf = encode_all u ++ rest ∧ path sts u sts'
                      ∧ n = (i + length (encode_all u) - carried)%nat)
      ∧ ((∃ e, why = Closure e) ∨ ¬ continues sts buf)
  | Panic => False
  end.
Proof using Hwf.
  revert i sts buf. induction fuel as [|fuel IH]; intros i sts buf Hc Hl.
  { destruct buf; [|simpl in Hl; lia]. exists [].
    split_and!; [done|done|constructor|by left]. }
  destruct buf as [|b buf]; [exists []; split_and!; [done|done|constructor|by left]|].
  cbn [consume_loop].
  assert (∃ u rest sts', Forall scalar u ∧ b :: buf = encode_all u ++ rest
    ∧ path sts u sts' ∧ (i - carried)%nat = (i + length (encode_all u) - carried)%nat) as Here.
  { exists [], (b :: buf), sts. split_and!; [done|done|constructor|simpl; lia]. }
  destruct (decode_at (b :: buf)) as [u|] eqn:Hd; [|done].
  pose proof (continues_decode sts _ _ Hd) as Hcont. cbn [or_panic mbind res_bind].
  destruct u as [c n| |].
  - pose proof Hd as Hd'. simpl in Hd'. injection Hd' as Hd'.
    apply decode1_cp in Hd' as (Hsc & -> & Hbuf).
    set (buf' := drop (length (encode c)) (b :: buf)) in *.
    rewrite not_surrogate by done.
    destruct (step_cases g Hwf sts c Hc) as [(sts1 & Hs & Hc1)|[(e & Hs & _)|(Hs & Hn)]];
      rewrite Hs; cbn [map_err mbind res_bind].
    + specialize (IH (i + length (encode c))%nat sts1 buf' Hc1).
      assert (length buf' ≤ fuel)%nat as Hl'.
      { unfold buf'. rewrite length_drop. pose proof (length_encode c). simpl in *. lia. }
      specialize (IH Hl').
      destruct (consume_loop g fuel carried _ sts1 buf') as [[sts' rest]|[m why]|]; [| |done].
      * destruct IH as (u & Hu & Hb & Hp & Hf). exists (c :: u).
        rewrite encode_all_cons, <-(assoc_L (++)), <-Hb.
        split_and!; [by constructor|done|by econstructor|done].
      * destruct IH as ((u & rest & sts' & Hu & Hb & Hp & Hm) & Hwhy). split.
        { exists (c :: u), rest, sts'. rewrite encode_all_cons, <-(assoc_L (++)), <-Hb, length_app.
          split_and!; [by constructor|done|by econstructor|lia]. }
        destruct Hwhy as [He|Hno]; [by left|]. right. intros Hco. apply Hno.
        rewrite Hbuf in Hco. apply continues_cp in Hco as (tail & w & Hw & He & Hlg); [|done].
        exists tail, w. split_and!; [done..|]. by apply (step_lang g sts c).
    + split; [by apply Here|]. left. by exists e.
    + split; [by apply Here|]. right. rewrite Hbuf. intros (tail & w & _ & _ & Hlg)%continues_cp; [|done].
      apply Hn. by eapply lang_consumes.
  - destruct (partial_can_complete_exact sts (b :: buf)) as (can & Hcan & Hspec);
      [by apply closed_valid|done|].
    rewrite Hcan. cbn [or_panic mbind res_bind]. destruct can.
    + exists []. split_and!; [done|done|constructor|]. right. by apply Hspec.
    + split; [by apply Here|]. right. intros (c & w & Hst & Hsc & Hlg)%Hcont.
      assert (false = true); [|done]. apply Hspec. exists c. split_and!; [done..|].
      by eapply lang_consumes.
  - split; [by apply Here|]. right. exact Hcont.
Qed.
End consume.

(** * Tokens: what a run of accepted tokens has emitted

    [tracks sts0 text key]: from the stacks [sts0] the bytes [text] lead to
    the state [key].  [consume] keeps that up, and refuses bytes only when no
    sentence begins with them or a limit of the closure is hit. *)
Local Open Scope nat_scope.

Section tokens.
Context (g : Grammar) (Hwf : wf_grammar g).

Record wf_key (key : StateKey) : Prop := {
  key_closed : closed g (stacks key);
  key_finishable : finishable g (stacks key) (partial key);
}.

(** [state_key_accepting] says whether the stacks have run a sentence. *)
Lemma state_key_accepting_spec key :
  closed g (stacks key) →
  ∃ b, state_key_accepting g key = Some b
  ∧ (b = true ↔ done key = false ∧ partial key = [] ∧ lang g (stacks key) []).
Proof using.
  intros Hc. unfold state_key_accepting. destruct (done key); [exists false; naive_solver|].
  case_bool_decide as Hp; simpl; [|exists false; naive_solver].
  assert (∃ b, (fix go sts := match sts with
     | [] => Some false
     | [f] :: sts => i ← inst_at g f; if decide (i = IRet) then Some true else go sts
     | _ :: sts => go sts
     end) (stacks key) = Some b
    ∧ (b = true ↔ ∃ f, [f] ∈ stacks key ∧ inst_at g f = Some IRet)) as (b & Hb & Hspec).
  { clear Hp. induction Hc as [|st sts [[Hne Hv] _] _ (b & Hb & Hspec)].
    - exists false. split; [done|]. split; [done|]. by intros (f & ?%elem_of_nil & _).
    - assert (st ∈ [st] ++ sts) as _ by (by left).
      destruct st as [|f [|f' k]]; [done| |].
      + apply list.Forall_singleton in Hv as [i Hi]. rewrite Hi. simpl. case_decide as Hd.
        * subst i. exists true. split; [done|]. split; [|done]. intros _. exists f. split; [by left|done].
        * exists b. split; [done|]. rewrite Hspec. split; intros (f' & Hin & Hi').
          -- exists f'. split; [by right|done].
          -- apply elem_of_cons in Hin as [[= ->]|Hin]; [congruence|by exists f'].
      + exists b. split; [done|]. rewrite Hspec. split; intros (f0 & Hin & Hi').
        * exists f0. split; [by right|done].
        * apply elem_of_cons in Hin as [?|Hin]; [done|by exists f0]. }
  exists b. split; [done|]. rewrite Hspec, (lang_nil_iff g _ Hc). naive_solver.
Qed.

(** ** Tracking the text *)
Record tracks (sts0 : list stack) (text : bytes) (key : StateKey) : Prop := {
  tracks_word : ∃ u, Forall scalar u ∧ text = encode_all u ++ partial key
                  ∧ path g sts0 u (stacks key);
  tracks_finishable : finishable g (stacks key) (partial key);
}.

Lemma tracks_start sts0 : tracks sts0 [] {| stacks := sts0; partial := []; done := false |}.
Proof using.
  split; [|by left]. exists []. split_and!; [done|done|constructor].
Qed.

Lemma tracks_wf sts0 text key : closed g sts0 → tracks sts0 text key → wf_key key.
Proof using Hwf.
  intros Hc [(u & _ & _ & Hp) Hf]. split; [by eapply path_closed|done].
Qed.

(** Sentences of [sts0] that begin with [text ++ bs] are those of the state
    that begin with the carried bytes and [bs]. *)
Lemma tracks_continues sts0 text key bs :
  closed g sts0 → tracks sts0 text key →
  continues g sts0 (text ++ bs) ↔ continues g (stacks key) (partial key ++ bs).
Proof using Hwf.
  intros Hc [(u & Hu & -> & Hp) _]. split.
  - intros (tail & w & Hw & He & Hl). rewrite <-!(assoc_L (++)) in He.
    apply encode_all_strip in He as (w' & -> & Hw' & He); [|done..].
    exists tail, w'. rewrite <-(assoc_L (++)). split_and!; [done..|].
    by apply (path_lang g Hwf sts0 u).
  - intros (tail & w & Hw & He & Hl). exists tail, (u ++ w).
    rewrite <-!(assoc_L (++)) in *. split_and!.
    + by apply list.Forall_app.
    + by rewrite He, encode_all_app.
    + by apply (path_lang g Hwf sts0 u (stacks key)).
Qed.

Lemma consume_spec key bs :
  wf_key key →
  match consume g key bs with
  | Ok key' =>
      done key' = done key
      ∧ ∃ u, Forall scalar u ∧ partial key ++ bs = encode_all u ++ partial key'
          ∧ path g (stacks key) u (stacks key') ∧ finishable g (stacks key') (partial key')
  | Err (n, why) =>
      (∃ u rest sts', Forall scalar u ∧ partial key ++ bs = encode_all u ++ rest
         ∧ path g (stacks key) u sts' ∧ n = length (encode_all u) - length (partial key))
      ∧ ((∃ e, why = Closure e) ∨ ¬ continues g (stacks key) (partial key ++ bs))
  | Panic => False
  end.
Proof using Hwf.
  intros [Hc _]. unfold consume.
  pose proof (consume_loop_spec g Hwf (length (partial key ++ bs)) (length (partial key)) 0
    (stacks key) (partial key ++ bs) Hc ltac:(lia)) as H.
  destruct (consume_loop g _ _ _ _ _) as [[sts' rest]|[n why]|]; simpl; [by split| |done].
  exact H.
Qed.

Lemma tracks_consume sts0 text key bs key' :
  closed g sts0 → tracks sts0 text key → consume g key bs = Ok key' →
  tracks sts0 (text ++ bs) key' ∧ done key' = done key.
Proof using Hwf.
  intros Hc Ht Hk. pose proof (consume_spec key bs (tracks_wf _ _ _ Hc Ht)) as H.
  rewrite Hk in H. destruct H as (Hd & u' & Hu' & He & Hp' & Hf). split; [|done].
  destruct Ht as [(u & Hu & -> & Hp) _]. split; [|done].
  exists (u ++ u'). rewrite <-(assoc_L (++)), He, encode_all_app, <-(assoc_L (++)).
  split_and!; [by apply list.Forall_app|done|by eapply path_app].
Qed.

(** The emitted bytes are a sentence exactly when the state accepts. *)
Lemma tracks_accepting sts0 text key :
  closed g sts0 → tracks sts0 text key → done key = false →
  ∃ b, state_key_accepting g key = Some b
  ∧ (b = true ↔ ∃ w, Forall scalar w ∧ text = encode_all w ∧ lang g sts0 w).
Proof using Hwf.
  intros Hc Ht Hd. destruct (tracks_wf _ _ _ Hc Ht) as [Hck _].
  destruct (state_key_accepting_spec key Hck) as (b & Hb & Hspec). exists b. split; [done|].
  rewrite Hspec. destruct Ht as [(u & Hu & -> & Hp) Hf]. split.
  - intros (_ & -> & Hl). exists u. rewrite app_nil_r. split_and!; [done|done|].
    rewrite <-(app_nil_r u). by apply (path_lang g Hwf sts0 u (stacks key)).
  - intros (w & Hw & He & Hl). split; [done|].
    apply encode_all_strip in He as (w' & -> & Hw' & He); [|done..].
    assert (lang g (stacks key) w') as Hl' by by apply (path_lang g Hwf sts0 u).
    destruct w' as [|c' w']; [by split|]. exfalso.
    apply list.Forall_cons in Hw' as [Hc' _]. rewrite encode_all_cons in He.
    destruct Hf as [Hn|(c & Hsc & (rest & Hne & Henc) & _)].
    + rewrite Hn in He. symmetry in He. apply app_nil in He as [He _].
      pose proof (length_encode c') as H. rewrite He in H. simpl in H. lia.
    + rewrite He, <-(assoc_L (++)), <-(app_nil_r (encode c)) in Henc.
      apply encode_prefix_free in Henc as [_ Hr]; [|done..].
      symmetry in Hr. apply app_nil in Hr as [_ ->]. done.
Qed.

(** ** States *)
Record wf_state (st : GrammarState) : Prop := {
  state_key : wf_key (inner st);
  state_accepting : state_key_accepting g (inner st) = Some (accepting st);
}.

(** The bytes of a list of tokens. *)
Definition token_text (ids : list nat) : bytes :=
  concat (map (λ id, default [] (mjoin (pieces g !! id))) ids).

Lemma token_text_app ids ids' : token_text (ids ++ ids') = token_text ids ++ token_text ids'.
Proof using. unfold token_text. by rewrite map_app, concat_app. Qed.

(** A state that has emitted [text] and not ended, or has ended on it. *)
Definition emitted (sts0 : list stack) (text : bytes) (st : GrammarState) : Prop :=
  wf_state st ∧
  if done (inner st) then ∃ w, Forall scalar w ∧ text = encode_all w ∧ lang g sts0 w
  else tracks sts0 text (inner st).

(** Once ended, every token is an error. *)
Lemma accept_token_after_end st id :
  done (inner st) = true →
  accept_token g st id = (Err (if decide (n_vocab g ≤ id) then OutsideVocab else AfterEnd), st).
Proof using.
  intros Hd. unfold accept_token. rewrite Hd.
  destruct (Nat.leb_spec (n_vocab g) id); [by rewrite decide_True|by rewrite decide_False by lia].
Qed.

Context (Hvocab : n_vocab g = length (pieces g)).

(** What [accept_token] answers in a state that has not ended. *)
Lemma accept_token_spec sts0 text st id :
  closed g sts0 → emitted sts0 text st → done (inner st) = false →
  match accept_token g st id with
  | (Ok _, st') =>
      (id ∈ eog_ids g ∧ done (inner st') = true ∧ emitted sts0 text st')
      ∨ (∃ p, ¬ id ∈ eog_ids g ∧ pieces g !! id = Some (Some p) ∧ done (inner st') = false
         ∧ emitted sts0 (text ++ p) st')
  | (Err e, st') =>
      st' = st ∧
      match e with
      | OutsideVocab => n_vocab g ≤ id
      | AfterEnd => False
      | EogRejected =>
          id ∈ eog_ids g ∧ ¬ (∃ w, Forall scalar w ∧ text = encode_all w ∧ lang g sts0 w)
      | EmptyPiece => ¬ id ∈ eog_ids g ∧ pieces g !! id = Some None
      | Rejected _ why =>
          ∃ p, ¬ id ∈ eog_ids g ∧ pieces g !! id = Some (Some p)
          ∧ ((∃ e, why = Closure e) ∨ ¬ continues g sts0 (text ++ p))
      end
  | (Panic, _) => False
  end.
Proof using Hwf Hvocab.
  intros Hc [[Hk Ha] Ht] Hd. rewrite Hd in Ht. unfold accept_token.
  destruct (Nat.leb_spec (n_vocab g) id) as [|Hid]; [done|]. rewrite Hd.
  destruct (tracks_accepting _ _ _ Hc Ht Hd) as (b & Hb & Hspec).
  assert (b = accepting st) as -> by congruence.
  case_decide as He.
  - destruct (accepting st) eqn:Hacc; simpl.
    + left. split_and!; [done..|]. split; [split|].
      * split; apply Hk.
      * done.
      * simpl. by apply Hspec.
    + split; [done|]. split; [done|]. intros Hw. by apply Hspec in Hw.
  - destruct (pieces g !! id) as [[p|]|] eqn:Hp;
      [|done|apply lookup_ge_None in Hp; lia].
    pose proof (consume_spec (inner st) p Hk) as Hcs.
    destruct (consume g (inner st) p) as [key'|[n why]|] eqn:Hco; [| |done].
    + destruct (tracks_consume _ _ _ _ _ Hc Ht Hco) as [Ht' Hd'].
      rewrite Hd in Hd'. destruct (tracks_accepting _ _ _ Hc Ht' Hd') as (b & Hb' & _).
      rewrite Hb'. right. exists p. split_and!; [done..|]. split; [split|].
      * by eapply tracks_wf.
      * done.
      * simpl. by rewrite Hd'.
    + destruct Hcs as [_ Hwhy]. split; [done|]. exists p. split_and!; [done..|].
      destruct Hwhy as [?|Hno]; [by left|]. right. by rewrite tracks_continues.
Qed.
End tokens.
