(* ===== verification/GbnfFacts.v ===== *)
(** * The GBNF parser ends, and what it returns is well formed

    [parses k P s r]: the parser ran on [s] without running out of fuel, and
    if it succeeded then its value has [P], it took at least [k] characters
    and left a suffix of [s]. *)
From Stdlib Require Import ZArith Lia ZifyBool Ascii String.
From stdpp Require Import base numbers list option relations sorting.
From S2P Require Import Prelude Gguf Utf8 Gbnf Grammar GrammarRuns GrammarLang.
Local Open Scope nat_scope.

(** A character of a Rust string: a codepoint. *)
Definition cpt (c : Z) : Prop := (0 ≤ c < 0x110000)%Z.

Definition parses {A} (k : nat) (P : A → Prop) (s : text) (r : res GbnfErr (A * text)) : Prop :=
  match r with
  | Ok (a, s') => P a ∧ s' `suffix_of` s ∧ length s' + k ≤ length s
  | Err e => e ≠ OutOfFuel
  | Panic => False
  end.

Lemma parses_ok {A} k (P : A → Prop) s a : P a → k = 0 → parses k P s (Ok (a, s)).
Proof. intros ? ->. split_and!; [done|reflexivity|lia]. Qed.

Lemma parses_bind {A B} k k' (P : A → Prop) (Q : B → Prop) s r (f : A * text → res GbnfErr (B * text)) :
  parses k P s r →
  (∀ a s', P a → s' `suffix_of` s → length s' + k ≤ length s →
     parses (k' - k) Q s' (f (a, s'))) →
  parses k' Q s (r ≫= f).
Proof.
  destruct r as [[a s']|e|]; simpl; [|done|done]. intros (HP & Hsuf & Hl) Hf.
  specialize (Hf a s' HP Hsuf Hl). revert Hf. unfold parses.
  destruct (f (a, s')) as [[b s'']| |]; [|done|done]. intros (? & ? & ?).
  split_and!; [done|by etrans|lia].
Qed.

(** Running on what is left of the text. *)
Lemma parses_from {A} k k' (P : A → Prop) s s' r :
  parses k P s' r → s' `suffix_of` s → length s' + k' ≤ length s + k → parses k' P s r.
Proof.
  destruct r as [[a s'']| |]; simpl; [|done|done]. intros (?&?&?) ??.
  split_and!; [done|by etrans|lia].
Qed.

Lemma parses_weaken {A} k k' (P Q : A → Prop) s r :
  parses k P s r → (∀ a, P a → Q a) → k' ≤ k → parses k' Q s r.
Proof. destruct r as [[a s'']| |]; simpl; [|done|done]. naive_solver lia. Qed.

Lemma suffix_length (s s' : text) : s' `suffix_of` s → length s' ≤ length s.
Proof. intros [k ->]. rewrite length_app. lia. Qed.

Lemma suffix_cons_l (c : Z) s : s `suffix_of` c :: s.
Proof. by exists [c]. Qed.

Lemma suffix_Forall (s s' : text) : s' `suffix_of` s → Forall cpt s → Forall cpt s'.
Proof. intros [k ->]. rewrite list.Forall_app. by intros []. Qed.

Lemma suffix_drop_text n (s : text) : drop n s `suffix_of` s.
Proof. exists (take n s). by rewrite take_drop. Qed.

Lemma bump_suffix (s : text) : bump s `suffix_of` s.
Proof. destruct s; [reflexivity|apply suffix_cons_l]. Qed.

Lemma peeks_bump c s : peeks c s = true → s = c :: bump s.
Proof. destruct s as [|x s]; simpl; [done|]. intros. f_equal. lia. Qed.

Lemma suffix_refl (s : text) : s `suffix_of` s.
Proof. reflexivity. Qed.

#[local] Hint Resolve suffix_refl bump_suffix suffix_cons_l suffix_drop_text : core.

(** ** Trivia *)
Lemma skip_suffix s : skip_trivia s `suffix_of` s ∧ skip_comment s `suffix_of` s.
Proof.
  induction s as [|c s [IH1 IH2]]; [done|]. simpl. split.
  - destruct (is_whitespace c); [by apply suffix_cons_r|].
    destruct (c =? ch "#")%Z; [by apply suffix_cons_r|done].
  - destruct (c =? NEWLINE)%Z; by apply suffix_cons_r.
Qed.

Lemma skip_trivia_suffix s : skip_trivia s `suffix_of` s.
Proof. apply skip_suffix. Qed.
#[local] Hint Resolve skip_trivia_suffix : core.

Lemma skip_trivia_length s : length (skip_trivia s) ≤ length s.
Proof. by apply suffix_length. Qed.

Lemma span_app p s : (span p s).1 ++ (span p s).2 = s.
Proof.
  induction s as [|c s IH]; [done|]. simpl. destruct (p c); [|done].
  destruct (span p s). simpl in *. by rewrite IH.
Qed.

Lemma span_suffix p s : (span p s).2 `suffix_of` s.
Proof. exists (span p s).1. by rewrite span_app. Qed.

(** ** Names, numbers, escapes *)
Lemma ident_parses s : parses 1 (λ _, True) s (ident s).
Proof.
  destruct s as [|c s]; [done|]. unfold ident. destruct (name_start c); [|done].
  pose proof (span_suffix name_char s) as Hs. destruct (span name_char s) as [a b]. simpl in *.
  apply suffix_length in Hs as Hl. split_and!; [done|by apply suffix_cons_r|lia].
Qed.

Lemma number_parses s : parses 1 (λ _, True) s (number s).
Proof.
  unfold number. pose proof (span_app is_ascii_digit s) as Hs.
  destruct (span is_ascii_digit s) as [ds rest]. simpl in *. case_decide as Hd; [done|].
  case_match; [|done]. subst s. simpl. rewrite length_app.
  split_and!; [done|by exists ds|]. destruct ds; [done|]. simpl. lia.
Qed.

Lemma digit_val_range c : is_ascii_hexdigit c = true → (0 ≤ digit_val c < 16)%Z.
Proof.
  unfold digit_val, is_ascii_hexdigit, is_ascii_digit, between, ch. simpl. intros.
  repeat case_match; lia.
Qed.

Lemma hex_digits_parses all n s :
  parses n (λ ds, length ds = n ∧ Forall (λ c, is_ascii_hexdigit c = true) ds) s
    (hex_digits all n s).
Proof.
  revert s. induction n as [|n IH]; intros s; [by apply parses_ok|].
  simpl. destruct s as [|c s]; [done|]. destruct (is_ascii_hexdigit c) eqn:Hc; [|done].
  eapply (parses_from (S n - 1)); [|apply suffix_cons_l|simpl; lia].
  eapply parses_bind; [apply IH|]. intros ds s' [Hl Hds] Hs Hl'. simpl.
  split_and!; [by simpl; rewrite Hl|by constructor|done|lia].
Qed.

Lemma from_digits_range ds :
  Forall (λ c, is_ascii_hexdigit c = true) ds → length ds ≤ 4 →
  (0 ≤ from_digits 16 ds < 0x10000)%Z.
Proof.
  intros Hds Hl. unfold from_digits.
  assert (∀ v k, (0 ≤ v < 16 ^ Z.of_nat k)%Z →
    (0 ≤ foldl (λ v d, v * 16 + digit_val d)%Z v ds < 16 ^ Z.of_nat (k + length ds))%Z) as H.
  { clear Hl. induction Hds as [|c ds Hc _ IH]; intros v k Hv; simpl.
    - by rewrite Nat.add_0_r.
    - rewrite Nat.add_succ_r. apply (IH _ (S k)). apply digit_val_range in Hc.
      rewrite Nat2Z.inj_succ, Z.pow_succ_r by lia. lia. }
  specialize (H 0%Z 0 ltac:(simpl; lia)). split; [lia|].
  eapply Z.lt_le_trans; [apply H|]. change 0x10000%Z with (16 ^ 4)%Z.
  apply Z.pow_le_mono_r; lia.
Qed.

Lemma hex_parses n s : n ≤ 4 → parses n cpt s (hex n s).
Proof.
  intros Hn. unfold hex. eapply parses_bind; [apply hex_digits_parses|].
  intros ds s' [Hl Hds] Hs Hl'. apply parses_ok; [|lia]. unfold cpt.
  pose proof (from_digits_range ds Hds). lia.
Qed.

Lemma escape_parses s : Forall cpt s → parses 1 cpt s (escape s).
Proof.
  intros Hs. destruct s as [|c s]; [done|]. apply list.Forall_cons in Hs as [Hc Hs].
  unfold escape. apply (parses_from 0 1 cpt _ s); [|apply suffix_cons_l|simpl; lia].
  repeat (match goal with |- context [if ?b then _ else _] => destruct b end);
    try (apply parses_ok; [unfold cpt in *; lia|done]); [..|done].
  - eapply parses_weaken; [by apply hex_parses; lia|done|lia].
  - eapply parses_weaken; [by apply hex_parses; lia|done|lia].
Qed.

(** ** Classes *)
Definition range_ok (r : Z * Z) : Prop := (0 ≤ r.1 ∧ r.1 ≤ r.2 ∧ r.2 < 0x110000)%Z.

Ltac ranges_ok :=
  repeat (apply list.Forall_cons; split); try apply list.Forall_nil; try done;
  unfold range_ok, cpt, ch in *; simpl; try lia.

Lemma class_shorthand_parses s :
  parses 0 (from_option (Forall range_ok) True) s (class_shorthand s).
Proof.
  unfold class_shorthand.
  assert (∀ rs : list (Z * Z), Forall range_ok rs →
    parses 0 (from_option (Forall range_ok) True) s
      (if peeks (ch "-") (bump s)
          && negb match peek (bump (bump s)) with Some c => (c =? ch "]")%Z | None => true end
       then Err (ShorthandEndpoint (bump s)) else Ok (Some rs, bump s))) as H.
  { intros rs Hrs. destruct (_ && _); [done|].
    eapply parses_from; [by apply parses_ok|apply bump_suffix|].
    pose proof (suffix_length _ _ (bump_suffix s)). lia. }
  destruct (peeks (ch "d") s); [apply H|destruct (peeks (ch "w") s);
    [apply H|destruct (peeks (ch "s") s); [apply H|by apply parses_ok]]]; ranges_ok.
Qed.

Lemma push_range_parses ranges lo hi s :
  Forall range_ok ranges → cpt lo → cpt hi →
  parses 0 (Forall range_ok) s (push_range ranges lo hi s).
Proof.
  intros Hr Hlo Hhi. unfold push_range. destruct (Z.ltb_spec hi lo); [done|].
  apply parses_ok; [|done]. apply list.Forall_app. split; [done|].
  ranges_ok.
Qed.

Lemma push_class_item_parses ranges lo s :
  Forall range_ok ranges → cpt lo → Forall cpt s →
  parses 0 (Forall range_ok) s (push_class_item ranges lo s).
Proof.
  intros Hr Hlo Hs. unfold push_class_item.
  assert (Forall range_ok (ranges ++ [(lo, lo); (ch "-", ch "-")])
          ∧ Forall range_ok (ranges ++ [(lo, lo)])) as [H2 H1].
  { rewrite !list.Forall_app. unfold cpt in Hlo. split; (split; [done|]);
      ranges_ok. }
  destruct (peeks (ch "-") s); simpl negb; cbv iota; [|by apply parses_ok].
  apply (parses_from 0 0 _ _ (bump s)); [|apply bump_suffix|
    pose proof (suffix_length _ _ (bump_suffix s)); lia].
  pose proof (suffix_Forall _ _ (bump_suffix s) Hs) as Hb.
  destruct (bump s) as [|c s']; [by apply parses_ok|].
  apply list.Forall_cons in Hb as [Hc Hs'].
  destruct (c =? ch "]")%Z; [by apply parses_ok|].
  destruct (c =? ch "\")%Z.
  - eapply parses_from; [|apply suffix_cons_l|].
    + eapply (parses_bind 1 0); [by apply escape_parses|]. intros hi s'' Hhi _ _.
      by apply push_range_parses.
    + simpl. lia.
  - eapply parses_from; [by apply push_range_parses|apply suffix_cons_l|simpl; lia].
Qed.

Lemma class_items_parses fuel ranges s :
  Forall range_ok ranges → Forall cpt s → length s < fuel →
  parses 1 (Forall range_ok) s (class_items fuel ranges s).
Proof.
  revert ranges s. induction fuel as [|fuel IH]; intros ranges s Hr Hs Hl; [lia|].
  destruct s as [|c s]; [done|]. apply list.Forall_cons in Hs as [Hc Hs]. simpl in Hl.
  cbn [class_items]. apply (parses_from 0 1 _ _ s); [|apply suffix_cons_l|simpl; lia].
  destruct (c =? ch "]")%Z; [by apply parses_ok|].
  assert (∀ ranges' s', Forall range_ok ranges' → s' `suffix_of` s →
    parses 0 (Forall range_ok) s' (class_items fuel ranges' s')) as Hgo.
  { intros ranges' s' Hr' Hs'. eapply parses_weaken; [apply IH|done|lia]; [done| |].
    - by eapply suffix_Forall.
    - apply suffix_length in Hs'. lia. }
  destruct (c =? ch "\")%Z.
  - eapply parses_bind; [apply class_shorthand_parses|]. intros [rs|] s1 Hrs Hs1 _; simpl in Hrs.
    + apply Hgo; [by apply list.Forall_app|done].
    + eapply parses_bind; [by eapply escape_parses, suffix_Forall|]. intros lo s2 Hlo Hs2 _.
      eapply parses_bind; [apply push_class_item_parses; [done|done|]|].
      { eapply suffix_Forall; [|exact Hs]. by etrans. }
      intros ranges' s3 Hr' Hs3 _. apply Hgo; [done|]. by do 2 (etrans; [done|]).
  - eapply parses_bind; [by apply push_class_item_parses|].
    intros ranges' s3 Hr' Hs3 _. by apply Hgo.
Qed.

Lemma range_le_sorted rs : StronglySorted (λ x y, range_le x y = true) (sort_by range_le rs).
Proof. apply sort_by_sorted; unfold range_le; intros *; lia. Qed.

(** ** Nodes *)
Fixpoint syntax_ok (node : Node) : Prop :=
  match node with
  | NStr cps => Forall cpt cps
  | NClass _ rs => rs ≠ [] ∧ wf_ranges rs
  | NAny | NRef _ => True
  | NSeq l => foldr (λ x, and (syntax_ok x)) True l
  | NAlt l => l ≠ [] ∧ foldr (λ x, and (syntax_ok x)) True l
  | NRep x m n => syntax_ok x ∧ from_option (λ n, m ≤ n ∧ n ≤ MAX_REPEAT) True n
  end.

Lemma foldr_and_Forall {A} (P : A → Prop) l : foldr (λ x, and (P x)) True l ↔ Forall P l.
Proof. induction l; simpl; [split; constructor|]. rewrite list.Forall_cons. naive_solver. Qed.

Lemma char_class_parses s : Forall cpt s → parses 1 syntax_ok s (char_class s).
Proof.
  intros Hs. unfold char_class. set (s1 := if peeks _ s then bump s else s).
  assert (s1 `suffix_of` s) as Hs1 by (unfold s1; destruct (peeks _ s); eauto).
  apply (parses_from 1 1 _ _ s1); [|done|apply suffix_length in Hs1; lia].
  eapply parses_bind; [apply class_items_parses; [done|by eapply suffix_Forall|lia]|].
  intros rs s2 Hrs Hs2 _. simpl. case_decide as Hd; [done|]. apply parses_ok; [|done].
  split; [|split].
  - intros He. apply (f_equal length) in He. rewrite length_sort_by in He. by destruct rs.
  - apply list.Forall_forall. intros r Hr%elem_of_sort_by.
    rewrite list.Forall_forall in Hrs. by apply Hrs.
  - apply range_le_sorted.
Qed.

Lemma string_chars_parses fuel cps s :
  Forall cpt cps → Forall cpt s → length s < fuel →
  parses 1 (Forall cpt) s (string_chars fuel cps s).
Proof.
  revert cps s. induction fuel as [|fuel IH]; intros cps s Hr Hs Hl; [lia|].
  destruct s as [|c s]; [done|]. apply list.Forall_cons in Hs as [Hc Hs]. simpl in Hl.
  cbn [string_chars]. apply (parses_from 0 1 _ _ s); [|apply suffix_cons_l|simpl; lia].
  destruct (c =? QUOTE)%Z; [by apply parses_ok|].
  assert (∀ cps' s', Forall cpt cps' → s' `suffix_of` s →
    parses 0 (Forall cpt) s' (string_chars fuel cps' s')) as Hgo.
  { intros cps' s' Hr' Hs'. eapply parses_weaken; [apply IH|done|lia]; [done| |].
    - by eapply suffix_Forall.
    - apply suffix_length in Hs'. lia. }
  destruct (c =? ch "\")%Z.
  - eapply parses_bind; [by apply escape_parses|]. intros x s1 Hx Hs1 _.
    apply Hgo; [|done]. apply list.Forall_app. by rewrite list.Forall_singleton.
  - apply Hgo; [|done]. apply list.Forall_app. by rewrite list.Forall_singleton.
Qed.

Lemma repetition_parses s :
  parses 1 (λ r, from_option (λ n, r.1 ≤ n ∧ n ≤ MAX_REPEAT) True r.2) s (repetition s).
Proof.
  unfold repetition. eapply parses_bind; [apply number_parses|]. intros m s1 _ Hs1 Hl1.
  set (s2 := skip_trivia s1).
  apply (parses_from 0 _ _ _ s2); [|apply skip_trivia_suffix|
    unfold s2; pose proof (skip_trivia_length s1); simpl; lia].
  eapply (parses_bind 0 _ (λ _, True)).
  - destruct (peeks (ch ",") s2); [|by apply parses_ok].
    set (s3 := skip_trivia (bump s2)).
    assert (s3 `suffix_of` s2) as Hs3 by (etrans; [apply skip_trivia_suffix|apply bump_suffix]).
    apply (parses_from 0 _ _ _ s3); [|done|apply suffix_length in Hs3; lia].
    destruct (peeks (ch "}") s3); [by apply parses_ok|].
    eapply parses_bind; [apply number_parses|]. intros n s4 _ _ _. by apply parses_ok.
  - intros n s3 _ Hs3 _. set (s4 := skip_trivia s3).
    destruct (peeks (ch "}") s4); simpl negb; cbv iota; [|done].
    assert (bump s4 `suffix_of` s3) as Hb.
    { etrans; [apply bump_suffix|apply skip_trivia_suffix]. }
    apply (parses_from 0 _ _ _ (bump s4)); [|done|apply suffix_length in Hb; lia].
    destruct n as [n|]; [|by apply parses_ok].
    destruct (Nat.ltb_spec n m); [done|]. destruct (Nat.ltb_spec MAX_REPEAT n); [done|].
    by apply parses_ok.
Qed.

Lemma postfix_parses fuel node s :
  syntax_ok node → length s < fuel → parses 0 syntax_ok s (postfix fuel node s).
Proof.
  revert node s. induction fuel as [|fuel IH]; intros node s Hn Hl; [lia|].
  cbn [postfix]. set (s1 := skip_trivia s).
  assert (s1 `suffix_of` s) as Hs1 by apply skip_trivia_suffix.
  apply (parses_from 0 _ _ _ s1); [|done|apply suffix_length in Hs1; lia].
  assert (∀ c node', peeks c s1 = true → syntax_ok node' →
    parses 0 syntax_ok s1 (postfix fuel node' (bump s1))) as Hgo.
  { intros c node' Hp Hn'. apply suffix_length in Hs1.
    apply peeks_bump in Hp. pose proof (f_equal length Hp) as Hlen. simpl in Hlen.
    eapply parses_from; [apply IH; [done|lia]|apply bump_suffix|lia]. }
  destruct (peeks (ch "*") s1) eqn:H1; [eapply Hgo; [done|by simpl]|].
  destruct (peeks (ch "+") s1) eqn:H2; [eapply Hgo; [done|by simpl]|].
  destruct (peeks (ch "?") s1) eqn:H3.
  { eapply Hgo; [done|]. simpl. split; [done|]. unfold MAX_REPEAT. lia. }
  destruct (peeks (ch "{") s1) eqn:H4; [|by apply parses_ok].
  apply (parses_from 0 _ _ _ (bump s1)); [|apply bump_suffix|
    pose proof (suffix_length _ _ (bump_suffix s1)); lia].
  eapply parses_bind; [apply repetition_parses|]. intros [m n] s2 Hmn Hs2 Hl2. simpl.
  apply IH; [done|]. apply suffix_length in Hs1.
  pose proof (suffix_length _ _ (bump_suffix s1)). lia.
Qed.

(** ** The descent: five rounds of fuel per character are enough *)
Definition descent_ok (fuel : nat) : Prop :=
  (∀ branches s, Forall syntax_ok branches → Forall cpt s → 5 * length s + 4 ≤ fuel →
     parses 0 syntax_ok s (alternation fuel branches s))
  ∧ (∀ items s, Forall syntax_ok items → Forall cpt s → 5 * length s + 3 ≤ fuel →
     parses 0 syntax_ok s (sequence fuel items s))
  ∧ (∀ s, Forall cpt s → 5 * length s + 2 ≤ fuel → parses 1 syntax_ok s (item fuel s))
  ∧ (∀ s, Forall cpt s → 5 * length s + 1 ≤ fuel → parses 1 syntax_ok s (atom fuel s)).

(** Trivia before a parser. *)
Lemma parses_trivia {A} k (P : A → Prop) s r :
  parses k P (skip_trivia s) r → parses k P s r.
Proof.
  intros H. eapply parses_from; [exact H|apply skip_trivia_suffix|].
  pose proof (skip_trivia_length s). lia.
Qed.

Lemma trivia_cpt s : Forall cpt s → Forall cpt (skip_trivia s).
Proof. apply suffix_Forall, skip_trivia_suffix. Qed.

Lemma alternation_step fuel branches s :
  descent_ok fuel → Forall syntax_ok branches → Forall cpt s → 5 * length s + 4 ≤ S fuel →
  parses 0 syntax_ok s (alternation (S fuel) branches s).
Proof.
  intros (IHa & IHs & _ & _) Hb Hs Hl. cbn [alternation].
  eapply parses_bind; [apply IHs; [done|done|lia]|]. intros b s1 Hok Hs1 Hl1. simpl.
  apply parses_trivia. assert (Forall syntax_ok (branches ++ [b])) as Hb'.
  { apply list.Forall_app. by rewrite list.Forall_singleton. }
  assert (Forall cpt (skip_trivia s1)) as Hc by by eapply trivia_cpt, suffix_Forall.
  pose proof (skip_trivia_length s1) as Ht.
  destruct (peeks (ch "|") (skip_trivia s1)) eqn:Hp.
  - pose proof (f_equal length (peeks_bump _ _ Hp)) as Hlen. simpl in Hlen.
    eapply parses_from; [apply IHa; [done| |lia]|apply bump_suffix|lia].
    by eapply suffix_Forall; [apply bump_suffix|].
  - apply parses_ok; [|done].
    destruct branches as [|x l]; simpl.
    + exact Hok.
    + assert (syntax_ok (NAlt ((x :: l) ++ [b]))) as Hall.
      { split; [done|]. by apply foldr_and_Forall. }
      by destruct l.
Qed.

Lemma sequence_step fuel items s :
  descent_ok fuel → Forall syntax_ok items → Forall cpt s → 5 * length s + 3 ≤ S fuel →
  parses 0 syntax_ok s (sequence (S fuel) items s).
Proof.
  intros (_ & IHs & IHi & _) Hit Hs Hl. cbn [sequence]. apply parses_trivia.
  pose proof (skip_trivia_length s) as Ht. apply trivia_cpt in Hs.
  destruct (_ || _).
  - apply parses_ok; [|done].
    assert (syntax_ok (NSeq items)) as Hseq by by apply foldr_and_Forall.
    destruct items as [|x [|y l]]; [done| |done]. by rewrite list.Forall_singleton in Hit.
  - eapply parses_bind; [apply IHi; [done|lia]|]. intros x s1 Hx Hs1 Hl1. simpl.
    eapply parses_weaken; [apply IHs|done|lia]; [|by eapply suffix_Forall|lia].
    apply list.Forall_app. by rewrite list.Forall_singleton.
Qed.

Lemma atom_step fuel s :
  descent_ok fuel → Forall cpt s → 5 * length s + 1 ≤ S fuel →
  parses 1 syntax_ok s (atom (S fuel) s).
Proof.
  intros (IHa & _) Hs Hl. cbn [atom]. apply parses_trivia.
  pose proof (skip_trivia_length s) as Ht. apply trivia_cpt in Hs.
  set (t := skip_trivia s) in *. clearbody t.
  destruct t as [|c t']; [done|]. pose proof Hs as Hs0. apply list.Forall_cons in Hs as [Hc Hs].
  simpl in Ht.
  destruct (c =? ch "(")%Z.
  { apply (parses_from 0 _ _ _ t'); [|apply suffix_cons_l|simpl; lia].
    eapply parses_bind; [apply IHa; [done|done|lia]|]. intros inner s2 Hin Hs2 _. simpl.
    apply parses_trivia. destruct (peeks (ch ")") (skip_trivia s2)); [|done].
    eapply parses_from; [by apply parses_ok|apply bump_suffix|].
    pose proof (suffix_length _ _ (bump_suffix (skip_trivia s2))). lia. }
  destruct (c =? QUOTE)%Z.
  { eapply parses_from; [|apply suffix_cons_l|].
    - eapply (parses_bind 1 0); [apply string_chars_parses; [done|done|lia]|].
      intros cps s2 Hin Hs2 _. by apply parses_ok.
    - simpl. lia. }
  destruct (c =? ch "[")%Z.
  { eapply parses_from; [by apply char_class_parses|apply suffix_cons_l|simpl; lia]. }
  destruct (c =? ch ".")%Z.
  { eapply parses_from; [by apply parses_ok|apply suffix_cons_l|simpl; lia]. }
  destruct (name_start c); [|done].
  eapply (parses_bind 1 1); [apply ident_parses|]. intros name s2 _ _ _. by apply parses_ok.
Qed.

Lemma descent fuel : descent_ok fuel.
Proof.
  induction fuel as [|fuel IH]; [split_and!; intros; lia|]. split_and!.
  - intros. by apply alternation_step.
  - intros. by apply sequence_step.
  - intros s Hs Hl. destruct IH as (_ & _ & _ & IHat). cbn [item].
    eapply (parses_bind 1 1); [apply IHat; [done|lia]|]. intros x s1 Hx Hs1 Hl1.
    apply postfix_parses; [done|lia].
  - intros. by apply atom_step.
Qed.

Lemma alternation_parses s :
  Forall cpt s → parses 0 syntax_ok s (alternation (5 * length s + 5) [] s).
Proof. intros Hs. apply (descent (5 * length s + 5)); [done|done|lia]. Qed.

(** ** The rules *)
Definition rules_ok (rs : list (text * Node)) : Prop :=
  NoDup rs.*1 ∧ Forall (λ r, syntax_ok r.2) rs.

Lemma expect_str_ok lit s s' :
  expect_str lit s = Ok s' → s' `suffix_of` s.
Proof. unfold expect_str. destruct (starts_with lit s); [|done]. intros [= <-]. auto. Qed.

Lemma parse_rules_ok fuel rs s :
  rules_ok rs → Forall cpt s → length s < fuel →
  match parse_rules fuel rs s with
  | Ok rs' => rules_ok rs'
  | Err e => e ≠ OutOfFuel
  | Panic => False
  end.
Proof.
  revert rs s. induction fuel as [|fuel IH]; intros rs s Hrs Hs Hl; [lia|].
  cbn [parse_rules]. case_decide as Hd; [done|].
  pose proof (skip_trivia_length s) as Ht. apply trivia_cpt in Hs.
  pose proof (ident_parses (skip_trivia s)) as Hi.
  destruct (ident (skip_trivia s)) as [[name s1]| |]; [|done|done].
  destruct Hi as (_ & Hs1 & Hl1). cbn [mbind res_bind].
  destruct (expect_str (codes "::=") (skip_trivia s1)) as [s2|e|] eqn:He; cbn [mbind res_bind].
  - apply expect_str_ok in He. assert (s2 `suffix_of` s1) as Hs2 by (etrans; [done|auto]).
    apply suffix_length in Hs2 as Hl2.
    pose proof (suffix_Forall _ _ Hs2 (suffix_Forall _ _ Hs1 Hs)) as Hc2.
    pose proof (alternation_parses s2 Hc2) as Ha.
    destruct (alternation _ [] s2) as [[body s3]| |]; [|done|done]. destruct Ha as (Hb & Hs3 & Hl3).
    cbn [mbind res_bind]. case_decide as Hin; [done|].
    apply IH; [|by eapply suffix_Forall|lia]. destruct Hrs as [Hnd Hf]. split.
    + rewrite fmap_app. simpl. apply list.NoDup_app. split_and!; [done| |by apply NoDup_singleton].
      intros x Hx ->%list_elem_of_singleton. done.
    + apply list.Forall_app. by rewrite list.Forall_singleton.
  - revert He. unfold expect_str. destruct (starts_with _ _); [done|]. by intros [= <-].
  - revert He. unfold expect_str. by destruct (starts_with _ _).
Qed.

(** [check_refs] passes exactly when every reference names a rule. *)
Fixpoint refs_in (names : list text) (node : Node) : Prop :=
  match node with
  | NStr _ | NAny | NClass _ _ => True
  | NSeq l | NAlt l => foldr (λ x, and (refs_in names x)) True l
  | NRep x _ _ => refs_in names x
  | NRef name => name ∈ names
  end.

Lemma check_refs_spec node rs owner :
  match check_refs node rs owner with
  | Ok _ => refs_in rs.*1 node
  | Err e => e ≠ OutOfFuel ∧ ¬ refs_in rs.*1 node
  | Panic => False
  end.
Proof.
  induction node as [cps|neg rs'| |l IH|l IH|x m n IH|name] using node_ind'; simpl; try done.
  1,2: induction IH as [|x l Hx _ IH]; [done|]; simpl;
    destruct (check_refs x rs owner) as [[]| |]; [|naive_solver|done]; cbn [mbind res_bind];
    match goal with |- context [match ?r with _ => _ end] => destruct r as [| |] end; naive_solver.
  by case_decide.
Qed.

Lemma refs_resolved rs node :
  refs_in rs.*1 node → syntax_ok node → wf_node rs node.
Proof.
  induction node as [cps|neg rs'| |l IH|l IH|x m n IH|name] using node_ind'; simpl; try done.
  - by intros _ [].
  - intros Hr Hs. induction IH as [|x l Hx _ IH]; [done|]. simpl in *. naive_solver.
  - intros Hr [Hne Hs]. split; [done|]. clear Hne.
    induction IH as [|x l Hx _ IH]; [done|]. simpl in *. naive_solver.
  - intros Hr [Hx Hmn]. split; [auto|]. destruct n; simpl in *; naive_solver.
  - intros Hin _. unfold rule_body, rule_ids, rule_id.
    apply list_elem_of_lookup in Hin as [i Hi].
    destruct (list_find (name =.) rs.*1) as [[id n']|] eqn:Hf.
    + apply list_find_Some in Hf as (Hn & <- & _). simpl.
      apply list_lookup_fmap_Some in Hn as ([n y] & _ & ->). by eexists.
    + apply list_find_None in Hf. rewrite list.Forall_forall in Hf.
      exfalso. apply (Hf name); [|done]. by eapply list_elem_of_lookup_2.
Qed.

(** What [parse] promises of the rules it returns. *)
Lemma parse_spec source :
  Forall cpt source →
  match parse source with
  | Ok rs => NoDup rs.*1 ∧ Forall (λ r, syntax_ok r.2) rs ∧ Forall (λ r, refs_in rs.*1 r.2) rs
  | Err e => e ≠ OutOfFuel
  | Panic => False
  end.
Proof.
  intros Hs. unfold parse.
  pose proof (parse_rules_ok (S (length source)) [] source) as H.
  destruct (parse_rules _ _ _) as [rs|e|]; cbn [mbind res_bind].
  - destruct H as [Hnd Hf]; [split; [constructor|done]|done|lia|]. case_decide; [done|].
    destruct (try_map _ rs) as [us|e|] eqn:Ht; cbn [mbind res_bind].
    + split_and!; [done|done|]. apply try_map_ok in Ht. apply Forall_lookup. intros i [n x] Hi.
      destruct (Forall2_lookup_l _ _ _ _ _ Ht Hi) as (y & _ & Hy). simpl in *.
      pose proof (check_refs_spec x rs n) as Hc. by rewrite Hy in Hc.
    + assert (∀ l, try_map (λ '(name, node), check_refs node rs name) l = Err e → e ≠ OutOfFuel) as Hl;
        [|by eapply Hl]. clear. induction l as [|[n x] l IH]; simpl; [done|].
      pose proof (check_refs_spec x rs n) as Hc. destruct (check_refs x rs n); cbn [mbind res_bind].
      * destruct (try_map _ l); cbn [mbind res_bind]; [done| |done]. intros [= ->]. by apply IH.
      * intros [= ->]. apply Hc.
      * done.
    + assert (∀ l, try_map (λ '(name, node), check_refs node rs name) l ≠ Panic) as Hl;
        [|by eapply Hl]. clear. induction l as [|[n x] l IH]; simpl; [done|].
      pose proof (check_refs_spec x rs n) as Hc. destruct (check_refs x rs n); cbn [mbind res_bind];
        [|done|done]. by destruct (try_map _ l).
  - apply H; [split; [constructor|done]|done|lia].
  - apply H; [split; [constructor|done]|done|lia].
Qed.
