(* ===== verification/GrammarIndex.v ===== *)
(** * The index of the vocabulary and the frontier that filters it

    [merge_ranges] keeps what its ranges hold and leaves them in order and
    apart, so [contains] and [codepoints] find it again; the frontier of a
    state holds every character the stacks consume; and the index holds every
    token under its first character. *)
From Stdlib Require Import ZArith Lia ZifyBool Strings.Byte.
From stdpp Require Import base numbers list gmap option relations sorting.
From S2P Require Import Prelude Gguf Utf8 Utf8Facts Gbnf Grammar GrammarRuns GrammarConsume.
From S2P Require Import GbnfFacts.
(* [naive_solver] and [set_solver] clear hypotheses that are gone already. *)
#[local] Set Warnings "-clear-no-such-hyp".
Local Open Scope Z_scope.

(** ** Merging ranges *)

(** In order and apart. *)
Definition apart (rs : list (Z * Z)) : Prop :=
  StronglySorted (λ x y, x.2 < y.1) rs ∧ Forall (λ r, r.1 ≤ r.2 ∧ r.2 < 0x110000) rs.

Lemma in_class_app rs rs' cp : in_class (rs ++ rs') cp = in_class rs cp || in_class rs' cp.
Proof. apply existsb_app. Qed.

Lemma in_class_reverse rs cp : in_class (reverse rs) cp = in_class rs cp.
Proof.
  apply eq_true_iff_eq. rewrite !in_class_spec. by setoid_rewrite elem_of_reverse.
Qed.

(** [out] holds its last range first. *)
Lemma merge_loop_spec out rs :
  StronglySorted (λ x y, y.2 < x.1) out → Forall (λ r, r.1 ≤ r.2 ∧ r.2 < 0x110000) out →
  Forall (λ r, r.1 ≤ r.2 ∧ r.2 < 0x110000) rs →
  StronglySorted (λ x y, range_le x y = true) rs →
  (∀ x y, x ∈ out → y ∈ rs → x.1 ≤ y.1) →
  apart (merge_loop out rs)
  ∧ ∀ cp, in_class (merge_loop out rs) cp = in_class out cp || in_class rs cp.
Proof.
  intros Ho Hof Hrf Hrs. revert out Ho Hof. induction Hrs as [|[a b] rs Hrs IH Hab]; intros out Ho Hof Hle.
  { simpl. split.
    - split; [|by rewrite list.Forall_reverse].
      clear -Ho. induction Ho as [|x out Ho IH Hx]; [constructor|].
      rewrite reverse_cons, StronglySorted_app. split_and!; [|done|repeat constructor].
      intros y z Hy ->%list_elem_of_singleton. rewrite elem_of_reverse in Hy.
      rewrite list.Forall_forall in Hx. by apply Hx.
    - intros cp. by rewrite in_class_reverse, orb_false_r. }
  apply list.Forall_cons in Hrf as [Hr Hrf]. simpl in Hr.
  assert (∀ y, y ∈ rs → a ≤ y.1) as Hay.
  { intros y Hy. rewrite list.Forall_forall in Hab. specialize (Hab y Hy). unfold range_le in Hab.
    simpl in Hab. lia. }
  destruct out as [|[a' b'] out]; cbn [merge_loop].
  - edestruct (IH Hrf [(a, b)]) as [H1 H2].
    + repeat constructor.
    + by rewrite list.Forall_singleton.
    + intros x y ->%list_elem_of_singleton. apply Hay.
    + split; [done|]. intros cp. rewrite H2. simpl. by rewrite orb_false_r.
  - inversion Ho as [|? ? Ho' Hout]; subst. apply list.Forall_cons in Hof as [Hr' Hof]. simpl in Hr'.
    assert (a' ≤ a) as Haa by (apply (Hle (a', b') (a, b)); by left).
    unfold U32_MAX. destruct (Z.leb_spec a (Z.min (b' + 1) (2 ^ 32 - 1))).
    + edestruct (IH Hrf ((a', Z.max b' b) :: out)) as [H1 H2].
      * by constructor.
      * constructor; [simpl; lia|done].
      * intros x y [->|Hx]%elem_of_cons Hy; [specialize (Hay y Hy); simpl; lia|].
        apply Hle; by right.
      * split; [done|]. intros cp. rewrite H2. simpl. rewrite !orb_assoc. f_equal.
        apply eq_true_iff_eq. rewrite !orb_true_iff.
        destruct (in_class out cp); [naive_solver|]. lia.
    + edestruct (IH Hrf ((a, b) :: (a', b') :: out)) as [H1 H2].
      * constructor; [done|]. constructor; [simpl; lia|].
        eapply Forall_impl; [exact Hout|]. intros x Hx. simpl in *. lia.
      * by repeat (apply list.Forall_cons; split).
      * intros x y [->|Hx]%elem_of_cons Hy; [by apply Hay|]. apply Hle; [done|by right].
      * split; [done|]. intros cp. rewrite H2. simpl.
        destruct (in_class rs cp), (in_class out cp); rewrite ?orb_true_r, ?orb_false_r; try done.
        by rewrite orb_comm.
Qed.

Lemma in_class_sort rs cp : in_class (sort_by range_le rs) cp = in_class rs cp.
Proof.
  apply eq_true_iff_eq. rewrite !in_class_spec. by setoid_rewrite elem_of_sort_by.
Qed.

Lemma merge_ranges_spec rs :
  Forall (λ r, r.1 ≤ r.2 ∧ r.2 < 0x110000) rs →
  apart (merge_ranges rs) ∧ ∀ cp, in_class (merge_ranges rs) cp = in_class rs cp.
Proof.
  intros Hr. unfold merge_ranges.
  destruct (merge_loop_spec [] (sort_by range_le rs)) as [H1 H2].
  - constructor.
  - done.
  - apply list.Forall_forall. intros r Hin%elem_of_sort_by.
    rewrite list.Forall_forall in Hr. by apply Hr.
  - apply range_le_sorted.
  - by intros x y ?%elem_of_nil.
  - split; [done|]. intros cp. by rewrite H2, in_class_sort.
Qed.

(** [contains] answers for ranges that are apart. *)
Lemma contains_spec w rs cp :
  apart rs → in_class rs cp = true → contains {| wide := w; ranges := rs |} cp = true.
Proof.
  unfold contains. simpl. intros [Hs Hf]. induction Hs as [|[a b] rs Hrs IH Hab]; [done|].
  apply list.Forall_cons in Hf as [Hr Hf]. simpl in Hr. specialize (IH Hf).
  cbn [partition_point]. intros Hin.
  assert (∀ a' b', (a', b') ∈ rs → b < a') as Hlt.
  { intros a' b' H. rewrite list.Forall_forall in Hab. by apply (Hab (a', b')). }
  destruct (Z.leb_spec a cp) as [Ha|Ha]; cbn [fst].
  - rewrite (proj2 (Z.leb_le a cp)) by done.
    destruct (partition_point (λ r, r.1 <=? cp) rs) as [|i] eqn:Hp.
    + simpl. apply orb_true_iff in Hin as [?|(a' & b' & H & ?)%in_class_spec]; [lia|].
      exfalso. destruct rs as [|[a1 b1] rs]; [by apply elem_of_nil in H|].
      simpl in Hp. destruct (Z.leb_spec a1 cp); [done|].
      apply elem_of_cons in H as [[= -> ->]|H]; [lia|].
      inversion Hrs as [|? ? ? Hrest]; subst. rewrite list.Forall_forall in Hrest.
      specialize (Hrest _ H). simpl in Hrest.
      apply list.Forall_cons in Hf as [Hab1 _]. simpl in Hab1. lia.
    + cbn [lookup list_lookup]. apply IH.
      apply orb_true_iff in Hin as [?|?]; [|done]. exfalso.
      destruct rs as [|[a1 b1] rs]; [done|]. simpl in Hp.
      specialize (Hlt a1 b1 ltac:(left)).
      destruct (Z.leb_spec a1 cp); [lia|done].
  - exfalso. apply orb_true_iff in Hin as [?|(a' & b' & H & ?)%in_class_spec]; [lia|].
    specialize (Hlt _ _ H). lia.
Qed.

Lemma codepoints_spec w rs cp :
  in_class rs cp = true → cp ∈ codepoints {| wide := w; ranges := rs |}.
Proof.
  intros (a & b & Hin & Hcp)%in_class_spec. unfold codepoints. simpl.
  apply list_elem_of_In, in_concat. exists (seqZ a (b - a + 1)). split.
  - apply in_map_iff. exists (a, b). split; [done|]. by apply list_elem_of_In.
  - apply list_elem_of_In, elem_of_seqZ. lia.
Qed.

(** ** The frontier *)
Section frontier.
Context (g : Grammar) (Hwf : wf_grammar g).

Definition ranges_ok (rs : list (Z * Z)) : Prop := Forall (λ r, r.1 ≤ r.2 ∧ r.2 < 0x110000) rs.

Lemma inst_ranges_spec i nr len pc :
  wf_inst nr len pc i →
  match inst_ranges i with
  | None => True
  | Some new =>
      ranges_ok new
      ∧ ∀ cp, scalar cp → inst_matches i cp = true → in_class new cp = true
  end.
Proof using.
  destruct i as [c|[] rs| |a b|a|r|]; simpl; try done.
  - intros [_ Hc]. destruct (_ && _) eqn:Hsur.
    + split; [constructor|]. unfold scalar, SUR_LO, SUR_HI in *. lia.
    + split; [by apply list.Forall_singleton; simpl; lia|]. simpl. lia.
  - intros [_ [Hr _]]. split.
    + apply list.Forall_forall. intros [a b] Hin.
      apply list_elem_of_In, in_concat in Hin as (l & Hl & Hin).
      apply in_map_iff in Hl as ([a' b'] & <- & Hin'). rewrite list.Forall_forall in Hr.
      apply list_elem_of_In in Hin'. specialize (Hr _ Hin'). simpl in Hr.
      apply list_elem_of_In, (non_surrogate_parts_le a' b') in Hin; [simpl; lia|lia].
    + intros cp Hcp Hm. destruct (in_class rs cp) eqn:Hc; [|done].
      apply in_class_spec in Hc as (a & b & Hin & Hab). apply in_class_spec.
      rewrite list.Forall_forall in Hr. specialize (Hr _ Hin). simpl in Hr.
      destruct (proj2 (non_surrogate_parts_spec a b cp ltac:(lia))) as (a' & b' & Hin' & ?).
      { split; [done|]. unfold scalar, SUR_LO, SUR_HI in *. lia. }
      exists a', b'. split; [|done]. apply list_elem_of_In, in_concat.
      exists (non_surrogate_parts a b). split; [|by apply list_elem_of_In].
      apply in_map_iff. exists (a, b). split; [done|]. by apply list_elem_of_In.
  - split; [constructor|done].
  - split; [constructor|done].
  - split; [constructor|done].
  - split; [constructor|done].
Qed.

Lemma frontier_spec sts rs0 :
  Forall (valid_stack g) sts → ranges_ok rs0 →
  ∃ r, frontier g sts rs0 = Some r ∧
  match r with
  | None => True
  | Some rs => ranges_ok rs
      ∧ ∀ cp, scalar cp → in_class rs0 cp = true ∨ consumes g sts cp → in_class rs cp = true
  end.
Proof using Hwf.
  intros Hv. revert rs0. induction Hv as [|st sts [Hne Hst] _ IH]; intros rs0 H0; simpl.
  { exists (Some rs0). split; [done|]. split; [done|].
    intros cp _ [?|(f & k & i & ?%elem_of_nil & _)]; done. }
  destruct st as [|f k]; [done|]. apply list.Forall_cons in Hst as [[i Hi] _].
  rewrite Hi. simpl. destruct (wf_inst_at g Hwf f i Hi) as (prog & _ & Hw).
  pose proof (inst_ranges_spec i _ _ _ Hw) as Hr.
  destruct (inst_ranges i) as [new|]; [|by exists None]. destruct Hr as [Hnew Hm].
  destruct (IH (rs0 ++ new)) as (r & -> & Hspec); [by apply list.Forall_app|].
  exists r. split; [done|]. destruct r as [rs|]; [|done]. destruct Hspec as [Hrs Hspec].
  split; [done|]. intros cp Hcp Hor. apply Hspec; [done|]. rewrite in_class_app.
  destruct Hor as [->|(f' & k' & i' & [[= -> ->]|Hin]%elem_of_cons & Hi' & Hm')]; [by left| |].
  - left. assert (i' = i) as -> by congruence. rewrite Hm by done. apply orb_true_r.
  - right. by exists f', k', i'.
Qed.

(** The filter by first codepoints loses no character. *)
Lemma first_codepoints_spec sts :
  Forall (valid_stack g) sts →
  ∃ a, first_codepoints g sts = Some a
  ∧ (wide a = false → apart (ranges a)
     ∧ ∀ cp, scalar cp → consumes g sts cp → in_class (ranges a) cp = true).
Proof using Hwf.
  intros Hv. unfold first_codepoints.
  destruct (frontier_spec sts [] Hv) as (r & -> & Hr); [constructor|]. simpl.
  eexists. split; [done|]. destruct r as [rs|]; [|done]. simpl. intros _.
  destruct Hr as [Hrs Hspec]. destruct (merge_ranges_spec rs Hrs) as [Ha Hm].
  split; [done|]. intros cp Hcp Hc. rewrite Hm. apply Hspec; [done|]. by right.
Qed.
End frontier.

(** ** The index *)
Section index.
Context (eog : list nat).

Lemma index_loop_spec (l : list (nat * option bytes)) by_cp hl by_cp' hl' :
  loop_over (λ '(id, p), index_token eog id p) l (by_cp, hl) = Some (by_cp', hl') →
  (∀ id bs, (id, Some bs) ∈ l → id ∉ eog → bs ≠ [])
  ∧ (∀ id, id ∈ hl' ↔ id ∈ hl ∨ ∃ bs, (id, Some bs) ∈ l ∧ (id ∉ eog)
       ∧ decode_at bs = Some Incomplete)
  ∧ (∀ cp id, id ∈ default [] (by_cp' !! cp) ↔ id ∈ default [] (by_cp !! cp)
       ∨ ∃ bs n, (id, Some bs) ∈ l ∧ (id ∉ eog) ∧ decode_at bs = Some (Cp cp n)).
Proof using.
  revert by_cp hl. induction l as [|[id p] l IH]; intros by_cp hl; simpl.
  { intros [= <- <-]. split_and!.
    - by intros id bs ?%elem_of_nil.
    - intros id. split; [by left|]. intros [?|(bs & ?%elem_of_nil & _)]; done.
    - intros cp id. split; [by left|]. intros [?|(bs & n & ?%elem_of_nil & _)]; done. }
  intros ([by_cp1 hl1] & Ht & H)%bind_Some. destruct (IH _ _ H) as (H1 & H2 & H3).
  assert (p = None ∨ id ∈ eog ∨ ∃ bs, p = Some bs ∧ id ∉ eog) as Hcase.
  { destruct p as [bs|]; [|by left]. destruct (decide (id ∈ eog)); eauto. }
  assert ((p = None ∨ id ∈ eog) → by_cp1 = by_cp ∧ hl1 = hl) as Hskip.
  { intros Hs. destruct p as [bs|]; simpl in Ht; [|by injection Ht].
    destruct Hs as [|Hs]; [done|]. rewrite decide_True in Ht by done. by injection Ht. }
  destruct Hcase as [Hc|[Hc|(bs & -> & Hin)]]; [destruct Hskip as [-> ->]; [auto|]..|].
  1,2: split_and!; [intros id' bs' [[= <- Hbs]|Hl]%elem_of_cons; [by subst p|eauto]
    |intros id'; rewrite H2; by setoid_rewrite elem_of_cons; naive_solver
    |intros cp id'; rewrite H3; by setoid_rewrite elem_of_cons; naive_solver].
  clear Hskip. simpl in Ht. rewrite decide_False in Ht by done.
  destruct (decode_at bs) as [u|] eqn:Hd; [|done]. simpl in Ht.
  split_and!.
  - intros id' bs' [[= -> ->]|Hl]%elem_of_cons; [|eauto]. intros _ ->. done.
  - intros id'. rewrite H2. setoid_rewrite elem_of_cons.
    destruct u as [c n| |]; injection Ht as <- <-; rewrite ?elem_of_app, ?list_elem_of_singleton;
      naive_solver.
  - intros cp id'. rewrite H3. setoid_rewrite elem_of_cons.
    destruct u as [c n| |]; injection Ht as <- <-; [|naive_solver..].
    destruct (decide (c = cp)) as [->|Hne].
    + rewrite lookup_insert_eq. simpl. rewrite elem_of_app, list_elem_of_singleton. naive_solver.
    + rewrite lookup_insert_ne by done. naive_solver.
Qed.

Lemma find_map_to_list (m : gmap Z (list nat)) cp l :
  l ≡ₚ map_to_list m → snd <$> find (λ b, b.1 =? cp) l = m !! cp.
Proof using.
  intros Hl. destruct (find _ l) as [[k v]|] eqn:Hf; simpl.
  - apply find_some in Hf as [Hin Hk]. simpl in Hk. assert (k = cp) as -> by lia.
    symmetry. apply elem_of_map_to_list. rewrite <-Hl. by apply list_elem_of_In.
  - symmetry. destruct (m !! cp) as [v|] eqn:Hm; [|done].
    apply elem_of_map_to_list in Hm. rewrite <-Hl in Hm. apply list_elem_of_In in Hm.
    apply (find_none _ _ Hf) in Hm. simpl in Hm. lia.
Qed.

(** What the index holds. *)
Record indexes (ps : list (option bytes)) (idx : TokenIndex) : Prop := {
  index_nonempty : ∀ id bs, ps !! id = Some (Some bs) → id ∉ eog → bs ≠ [];
  index_headless : ∀ id, id ∈ headless idx ↔
    ∃ bs, ps !! id = Some (Some bs) ∧ (id ∉ eog) ∧ decode_at bs = Some Incomplete;
  index_bucket : ∀ cp id,
    id ∈ default [] (snd <$> find (λ b, b.1 =? cp) (buckets idx)) ↔
    ∃ bs n, ps !! id = Some (Some bs) ∧ (id ∉ eog) ∧ decode_at bs = Some (Cp cp n);
  index_keys : NoDup (buckets idx).*1;
}.

Lemma build_spec ps idx : build ps eog = Some idx → indexes ps idx.
Proof using.
  unfold build. intros ([by_cp hl] & Hl & [= <-])%bind_Some.
  apply index_loop_spec in Hl as (H1 & H2 & H3).
  assert (∀ id p, (id, p) ∈ imap pair ps ↔ ps !! id = Some p) as Hin.
  { intros id p. rewrite list_elem_of_lookup. split.
    - intros [i Hi]. rewrite list_lookup_imap in Hi. apply fmap_Some in Hi as (p' & Hp & [= -> ->]). done.
    - intros Hp. exists id. by rewrite list_lookup_imap, Hp. }
  split; simpl.
  - intros id bs Hp. apply H1. by apply Hin.
  - intros id. rewrite H2. setoid_rewrite Hin. rewrite elem_of_nil. naive_solver.
  - intros cp id. rewrite (find_map_to_list by_cp) by apply sort_by_perm.
    rewrite H3. setoid_rewrite Hin. rewrite lookup_empty. simpl. rewrite elem_of_nil. naive_solver.
  - rewrite sort_by_perm. apply NoDup_fst_map_to_list.
Qed.
End index.
