(* ===== verification/GrammarMask.v ===== *)
(** * The token mask is the set of tokens [accept_token] takes

    The memoised walk of a piece is [consume] ([allows_spec]), the filter by
    first codepoints loses nothing ([first_codepoints_spec]), the index holds
    every token ([build_spec]); so both ways of computing a mask set exactly
    the bits of the admitted tokens. *)
From Stdlib Require Import ZArith Lia ZifyBool.
From stdpp Require Import base numbers list gmap option relations sorting.
From S2P Require Import Prelude Gguf Utf8 Utf8Facts Gbnf Grammar GrammarRuns GrammarConsume.
From S2P Require Import GrammarIndex.
Local Open Scope nat_scope.

(** ** Bits *)
Definition bit (bits : list Z) (id : nat) : bool :=
  Z.testbit (default 0%Z (bits !! (id / 64))) (Z.of_nat (id mod 64)).

Definition mask_words (n : nat) : nat := (n + 63) / 64.

Lemma word_in_mask n id : id < n → id / 64 < mask_words n.
Proof.
  intros H. unfold mask_words. pose proof (Nat.div_mod_eq id 64). pose proof (Nat.div_mod_eq (n + 63) 64).
  pose proof (Nat.mod_upper_bound id 64). pose proof (Nat.mod_upper_bound (n + 63) 64). lia.
Qed.

Lemma set_bit_spec bits id :
  id / 64 < length bits →
  ∃ bits', set_bit bits id = Some bits' ∧ length bits' = length bits
  ∧ ∀ j, bit bits' j = bit bits j || bool_decide (j = id).
Proof.
  intros [word Hw]%lookup_lt_is_Some. unfold set_bit. rewrite Hw. cbn [mbind option_bind]. eexists.
  split; [done|]. split; [apply length_insert|]. intros j. unfold bit.
  destruct (decide (j / 64 = id / 64)) as [He|He].
  - rewrite He, list_lookup_insert_eq by by eapply lookup_lt_Some. rewrite Hw. cbn [from_option Datatypes.id].
    rewrite Z.lor_spec. f_equal. rewrite Z.shiftl_spec by lia.
    case_bool_decide as Hj.
    + subst j. by rewrite Z.sub_diag.
    + assert (j mod 64 ≠ id mod 64).
      { pose proof (Nat.div_mod_eq j 64). pose proof (Nat.div_mod_eq id 64). lia. }
      destruct (decide (j mod 64 < id mod 64)).
      * apply Z.testbit_neg_r. lia.
      * apply Z.bits_above_log2; [done|]. change (Z.log2 1) with 0%Z. lia.
  - rewrite list_lookup_insert_ne by done. rewrite bool_decide_false, orb_false_r; [done|].
    by intros ->.
Qed.

(** [bits'] is [bits] with the bits of the listed tokens that have [f] set. *)
Definition marked (bits bits' : list Z) (ids : list nat) (f : nat → bool) : Prop :=
  length bits' = length bits ∧
  ∀ j, bit bits' j = bit bits j || (bool_decide (j ∈ ids) && f j).

Lemma marked_nil bits f : marked bits bits [] f.
Proof. split; [done|]. intros j. rewrite bool_decide_false by apply not_elem_of_nil. by rewrite orb_false_r. Qed.

Lemma marked_app b1 b2 b3 ids ids' f :
  marked b1 b2 ids f → marked b2 b3 ids' f → marked b1 b3 (ids ++ ids') f.
Proof.
  intros [Hl H] [Hl' H']. split; [congruence|]. intros j. rewrite H', H.
  rewrite (bool_decide_ext (j ∈ ids ++ ids') (j ∈ ids ∨ j ∈ ids')) by apply elem_of_app.
  rewrite bool_decide_or. destruct (bit b1 j), (bool_decide (j ∈ ids)), (f j); simpl;
    rewrite ?orb_true_r, ?orb_false_r, ?andb_true_r, ?andb_false_r; done.
Qed.

Lemma set_if_spec bits id (f : nat → bool) :
  id / 64 < length bits →
  ∃ bits', set_if (f id) bits id = Some bits' ∧ marked bits bits' [id] f.
Proof.
  intros H. unfold set_if. destruct (f id) eqn:Hf.
  - destruct (set_bit_spec bits id H) as (bits' & Hs & Hl & Hb). exists bits'.
    split; [done|]. split; [done|]. intros j. rewrite Hb. f_equal.
    rewrite (bool_decide_ext (j ∈ [id]) (j = id)) by apply list_elem_of_singleton.
    case_bool_decide; [by subst|done].
  - exists bits. split; [done|]. split; [done|]. intros j.
    rewrite (bool_decide_ext (j ∈ [id]) (j = id)) by apply list_elem_of_singleton.
    case_bool_decide; [subst; by rewrite Hf, orb_false_r|by rewrite orb_false_r].
Qed.

Lemma set_bits_spec bits ids :
  Forall (λ id, id / 64 < length bits) ids →
  ∃ bits', set_bits ids bits = Some bits' ∧ marked bits bits' ids (λ _, true).
Proof.
  revert bits. induction ids as [|id ids IH]; intros bits Hf; simpl.
  { exists bits. split; [done|apply marked_nil]. }
  apply list.Forall_cons in Hf as [Hid Hf].
  destruct (set_if_spec bits id (λ _, true) Hid) as (b1 & Hs & Hm). simpl in Hs.
  rewrite Hs. simpl. destruct (IH b1) as (b2 & -> & Hm').
  { destruct Hm as [Hl _]. by rewrite Hl. }
  exists b2. split; [done|]. by apply (marked_app _ b1 _ [id]).
Qed.

Section mask.
Context (g : Grammar) (Hwf : wf_grammar g).

(** ** The memoised walk *)
Record walk_ok (seed : list stack) (w : MaskWalk) : Prop := {
  walk_seed : states w !! 0 = Some seed;
  walk_closed : ∀ i sts, states w !! i = Some sts → closed g sts;
  walk_intern : ∀ ns i, intern w !! ns = Some i → states w !! i = Some ns;
  walk_memo : ∀ cur cp r, memo w !! (cur, cp) = Some r →
    ∃ sts, states w !! cur = Some sts ∧
    match r with
    | Some i => ∃ ns, step g sts cp = Ok ns ∧ states w !! i = Some ns
    | None => ∃ e, step g sts cp = Err e
    end;
}.

Lemma new_walk_ok seed : closed g seed → walk_ok seed (new_walk seed).
Proof using.
  intros Hc. split; simpl.
  - done.
  - intros [|[]] sts; simpl; [|done..]. by intros [= <-].
  - intros ns i [-> <-]%lookup_singleton_Some. done.
  - by intros.
Qed.

Lemma intern_state_spec seed w ns :
  walk_ok seed w → closed g ns →
  ∃ i w', intern_state ns w = (i, w') ∧ walk_ok seed w' ∧ states w `prefix_of` states w'
  ∧ states w' !! i = Some ns ∧ memo w' = memo w.
Proof using.
  intros Hw Hc. unfold intern_state. destruct (intern w !! ns) as [i|] eqn:Hi.
  - exists i, w. split_and!; [done|done|done|by eapply walk_intern|done].
  - eexists _, _. split; [done|]. simpl.
    assert (∀ i sts, states w !! i = Some sts → (states w ++ [ns]) !! i = Some sts) as Hext.
    { intros. by apply lookup_app_l_Some. }
    split_and!; [|by exists [ns]|by rewrite lookup_app_r, Nat.sub_diag|done].
    destruct Hw as [Hs Hcl Hin Hm]. split; simpl.
    + by apply Hext.
    + intros i sts [H|[_ H]]%lookup_app_Some; [by eapply Hcl|].
      destruct (i - _) as [|[]]; simpl in H; [|done..]. by injection H as <-.
    + intros ns' i [[<- <-]|[Hne H]]%lookup_insert_Some; [|by apply Hext, Hin].
      by rewrite lookup_app_r, Nat.sub_diag.
    + intros cur cp r H. destruct (Hm _ _ _ H) as (sts & Hst & Hr). exists sts.
      split; [by apply Hext|]. destruct r; [|done]. destruct Hr as (ns' & ? & ?).
      exists ns'. split; [done|by apply Hext].
Qed.

Lemma memo_step_spec seed w cur cp sts :
  walk_ok seed w → states w !! cur = Some sts →
  ∃ r w', memo_step g cur cp w = Some (r, w') ∧ walk_ok seed w'
  ∧ states w `prefix_of` states w'
  ∧ match r with
    | Some i => ∃ ns, step g sts cp = Ok ns ∧ states w' !! i = Some ns
    | None => ∃ e, step g sts cp = Err e
    end.
Proof using Hwf.
  intros Hw Hcur. unfold memo_step. destruct (memo w !! (cur, cp)) as [r|] eqn:Hm.
  { exists r, w. split_and!; [done|done|done|].
    destruct (walk_memo _ _ Hw _ _ _ Hm) as (sts' & Hs & Hr). by simplify_eq. }
  rewrite Hcur. cbn [mbind option_bind].
  assert (closed g sts) as Hc by by eapply walk_closed.
  assert (∀ w1 r, walk_ok seed w1 → states w `prefix_of` states w1 → memo w1 = memo w →
    match r with
    | Some i => ∃ ns, step g sts cp = Ok ns ∧ states w1 !! i = Some ns
    | None => ∃ e, step g sts cp = Err e
    end → walk_ok seed {| states := states w1; intern := intern w1;
                          memo := <[(cur, cp) := r]> (memo w1) |}) as Hmemo.
  { intros w1 r [H1 H2 H3 H4] Hpre He Hr. split; simpl; [done..|].
    intros cur' cp' r' [[[= <- <-] <-]|[Hne H]]%lookup_insert_Some; [|by apply H4].
    exists sts. split; [by eapply prefix_lookup_Some|done]. }
  destruct (step g sts cp) as [ns|e|] eqn:Hs; [| |by apply step_no_panic in Hs].
  - cbn [to_ok mbind option_bind].
    destruct (intern_state_spec seed w ns Hw) as (i & w1 & Hi & Hw1 & Hpre & Hl & He).
    { by eapply step_closed. }
    rewrite Hi. eexists _, _. split; [done|].
    split_and!; [apply Hmemo; eauto|done|]. simpl. eauto.
  - cbn [to_ok mbind option_bind]. eexists _, _. split; [done|].
    split_and!; [apply Hmemo; eauto|done|eauto].
Qed.

(** The walk of a piece answers what [consume] answers. *)
Lemma allows_loop_spec fuel seed w cur piece sts carried i :
  walk_ok seed w → states w !! cur = Some sts → length piece ≤ fuel →
  ∃ w', allows_loop g fuel cur piece w = Some (is_ok (consume_loop g fuel carried i sts piece), w')
  ∧ walk_ok seed w'.
Proof using Hwf.
  revert w cur piece sts i. induction fuel as [|fuel IH]; intros w cur piece sts i Hw Hcur Hl.
  { destruct piece; [by exists w|simpl in Hl; lia]. }
  destruct piece as [|b piece]; [by exists w|]. cbn [allows_loop consume_loop].
  assert (closed g sts) as Hc by by eapply walk_closed.
  destruct (decode_at (b :: piece)) as [u|] eqn:Hd; [|done]. cbn [mbind option_bind or_panic res_bind].
  destruct u as [c n| |].
  - destruct (_ && _); [by exists w|].
    destruct (memo_step_spec seed w cur c sts Hw Hcur) as (r & w1 & Hm & Hw1 & Hpre & Hr).
    rewrite Hm. cbn [mbind option_bind].
    pose proof Hd as Hd'. simpl in Hd'. injection Hd' as (_ & -> & _)%decode1_cp.
    destruct r as [i'|].
    + destruct Hr as (ns & Hs & Hns). rewrite Hs. cbn [map_err mbind res_bind].
      apply IH; [done|done|]. rewrite length_drop. pose proof (length_encode c). simpl in *. lia.
    + destruct Hr as [e Hs]. rewrite Hs. by exists w1.
  - rewrite Hcur. cbn [mbind option_bind].
    destruct (partial_can_complete_exact g Hwf sts (b :: piece)) as (can & Hcan & _);
      [by apply closed_valid|done|].
    rewrite Hcan. exists w. cbn [mbind option_bind or_panic res_bind]. by destruct can.
  - by exists w.
Qed.

(** The tokens a state takes by their pieces. *)
Definition admits (key : StateKey) (id : nat) : bool :=
  match pieces g !! id with
  | Some (Some p) => negb (bool_decide (id ∈ eog_ids g)) && is_ok (consume g key p)
  | _ => false
  end.

Lemma allows_spec seed w key p :
  walk_ok seed w → stacks key = seed → partial key = [] →
  ∃ w', allows g p w = Some (is_ok (consume g key p), w') ∧ walk_ok seed w'.
Proof using Hwf.
  intros Hw Hseed Hp. unfold allows, consume. rewrite Hp, Hseed. simpl app.
  destruct (allows_loop_spec (length p) seed w 0 p seed 0 0 Hw (walk_seed _ _ Hw) ltac:(lia))
    as (w' & Ha & Hw'). exists w'. split; [|done]. rewrite Ha. f_equal. f_equal.
  by destruct (consume_loop g _ _ _ _ _) as [[]| |].
Qed.

(** ** The loops over tokens *)
Context (Hvocab : n_vocab g = length (pieces g)).
Context (Heog : Forall (λ id, id < n_vocab g) (eog_ids g)).

(** A state of the loops: the bits have room for the vocabulary, the walk is
    sound. *)
Definition loop_ok (seed : list stack) (s : list Z * MaskWalk) : Prop :=
  length s.1 = mask_words (n_vocab g) ∧ walk_ok seed s.2.

(** A loop body marks some tokens. *)
Definition marks {A} (seed : list stack) (key : StateKey)
    (f : A → list Z * MaskWalk → option (list Z * MaskWalk)) (ids : A → list nat) (x : A) : Prop :=
  ∀ s, loop_ok seed s →
  ∃ s', f x s = Some s' ∧ loop_ok seed s' ∧ marked s.1 s'.1 (ids x) (admits key).

Lemma loop_marks {A} seed key f (ids : A → list nat) l :
  (∀ x, x ∈ l → marks seed key f ids x) →
  marks seed key (λ l, loop_over f l) (λ l, concat (map ids l)) l.
Proof using.
  induction l as [|x l IH]; intros Hf s Hs; simpl.
  { exists s. split_and!; [done|done|apply marked_nil]. }
  destruct (Hf x ltac:(left) s Hs) as (s1 & -> & Hs1 & Hm1). simpl.
  destruct (IH ltac:(intros; apply Hf; by right) s1 Hs1) as (s2 & -> & Hs2 & Hm2).
  exists s2. split_and!; [done|done|by eapply marked_app].
Qed.

Lemma set_admitted seed key id bits w :
  id < n_vocab g → loop_ok seed (bits, w) →
  ∃ bits', set_if (admits key id) bits id = Some bits' ∧ loop_ok seed (bits', w)
  ∧ marked bits bits' [id] (admits key).
Proof using.
  intros Hid [Hl Hw]. simpl in *.
  destruct (set_if_spec bits id (admits key)) as (bits' & Hs & Hm).
  { rewrite Hl. by apply word_in_mask. }
  exists bits'. split_and!; [done| |done]. destruct Hm as [Hl' _]. split; simpl; [congruence|done].
Qed.

Lemma marked_none bits id key : admits key id = false → marked bits bits [id] (admits key).
Proof using.
  intros Ha. split; [done|]. intros j.
  rewrite (bool_decide_ext (j ∈ [id]) (j = id)) by apply list_elem_of_singleton.
  case_bool_decide; [subst; by rewrite Ha, orb_false_r|by rewrite orb_false_r].
Qed.

(** The body of the whole-vocabulary walk. *)
Lemma whole_token_marks key id :
  closed g (stacks key) → wf_key g key → id < n_vocab g →
  marks (stacks key) key (whole_token g key) (λ id, [id]) id.
Proof using Hwf Hvocab.
  intros Hc Hk Hid [bits w] Hs. unfold whole_token.
  destruct (decide (id ∈ eog_ids g)) as [Hin|Hin].
  { exists (bits, w). split_and!; [done|done|]. apply marked_none. unfold admits.
    rewrite bool_decide_true by done. by destruct (pieces g !! id) as [[]|]. }
  destruct (pieces g !! id) as [[p|]|] eqn:Hp; cbn [mbind option_bind].
  - assert (admits key id = is_ok (consume g key p)) as Had.
    { unfold admits. by rewrite Hp, bool_decide_false. }
    assert (∃ w', (if negb (bool_decide (partial key = []))
        then r ← to_ok (consume g key p); Some (bool_decide (is_Some r), w)
        else allows g p w) = Some (admits key id, w') ∧ walk_ok (stacks key) w') as (w' & Hw & Hw').
    { rewrite Had. destruct Hs as [_ Hw]. case_bool_decide as Hpart; simpl.
      - by apply allows_spec.
      - exists w. split; [|done]. pose proof (consume_spec g Hwf key p Hk) as Hcs.
        by destruct (consume g key p). }
    rewrite Hw. cbn [mbind option_bind].
    destruct (set_admitted (stacks key) key id bits w' Hid) as (bits' & Hb & Hs' & Hm).
    { by destruct Hs. }
    rewrite Hb. cbn [mbind option_bind]. by exists (bits', w').
  - exists (bits, w). split_and!; [done|done|]. apply marked_none. unfold admits. by rewrite Hp.
  - exfalso. apply lookup_ge_None in Hp. lia.
Qed.

Definition indexed (id : nat) : Prop :=
  ∃ p, pieces g !! id = Some (Some p) ∧ ¬ id ∈ eog_ids g.

(** The body of the indexed walk. *)
Lemma walk_token_marks key id :
  partial key = [] → indexed id →
  marks (stacks key) key (walk_token g) (λ id, [id]) id.
Proof using Hwf Hvocab.
  intros Hpart (p & Hp & Hin) [bits w] Hs. unfold walk_token, piece. rewrite Hp.
  cbn [mjoin option_join mbind option_bind].
  assert (admits key id = is_ok (consume g key p)) as Had.
  { unfold admits. by rewrite Hp, bool_decide_false. }
  destruct Hs as [Hl Hw].
  destruct (allows_spec (stacks key) w key p Hw eq_refl Hpart) as (w' & -> & Hw').
  cbn [mbind option_bind]. rewrite <-Had.
  destruct (set_admitted (stacks key) key id bits w') as (bits' & Hb & Hs' & Hm).
  { apply lookup_lt_Some in Hp. lia. }
  { done. }
  rewrite Hb. cbn [mbind option_bind]. by exists (bits', w').
Qed.

Lemma concat_units (l : list nat) : concat (map (λ id, [id]) l) = l.
Proof using. induction l; simpl; congruence. Qed.

Lemma bucket_marks key ids :
  partial key = [] → Forall indexed ids →
  marks (stacks key) key (λ ids, bucket g ids) (λ ids, ids) ids.
Proof using Hwf Hvocab.
  intros Hpart Hids s Hs. unfold bucket.
  destruct (loop_marks (stacks key) key (walk_token g) (λ id, [id]) ids) with (s := s)
    as (s' & ? & ? & Hm); [|done|].
  { intros id Hid. apply walk_token_marks; [done|]. rewrite list.Forall_forall in Hids. auto. }
  exists s'. rewrite concat_units in Hm. done.
Qed.

(** ** The mask of a state *)

(** The tokens that may come in the state [key]. *)
Definition allowed (key : StateKey) (acc : bool) (id : nat) : bool :=
  ((done key || acc) && bool_decide (id ∈ eog_ids g)) || (negb (done key) && admits key id).

Definition exact (key : StateKey) (acc : bool) (bits : list Z) : Prop :=
  length bits = mask_words (n_vocab g) ∧ ∀ id, bit bits id = allowed key acc id.

Lemma bit_zeros n id : bit (replicate n 0%Z) id = false.
Proof using.
  unfold bit. destruct (replicate n 0%Z !! (id / 64)) as [x|] eqn:Hx; simpl; [|by rewrite Z.bits_0].
  apply lookup_replicate in Hx as [-> _]. by rewrite Z.bits_0.
Qed.

Lemma eog_bits_spec key acc :
  ∃ bits, eog_bits g key acc = Some bits ∧ length bits = mask_words (n_vocab g)
  ∧ ∀ id, bit bits id = (done key || acc) && bool_decide (id ∈ eog_ids g).
Proof using Heog.
  unfold eog_bits. fold (mask_words (n_vocab g)).
  set (zeros := replicate (mask_words (n_vocab g)) 0%Z).
  assert (length zeros = mask_words (n_vocab g)) as Hz by apply length_replicate.
  destruct (done key || acc).
  - destruct (set_bits_spec zeros (eog_ids g)) as (bits & Hb & Hl & Hbit).
    { rewrite Hz. eapply Forall_impl; [exact Heog|]. intros id Hid. by apply word_in_mask. }
    exists bits. split_and!; [done|congruence|]. intros id.
    rewrite Hbit. unfold zeros. rewrite bit_zeros. simpl. by rewrite andb_true_r.
  - exists zeros. split_and!; [done|done|]. intros id. apply bit_zeros.
Qed.

Lemma admits_lt key id : admits key id = true → id < n_vocab g.
Proof using Hvocab.
  unfold admits. destruct (pieces g !! id) eqn:Hp; [|done]. intros _.
  apply lookup_lt_Some in Hp. lia.
Qed.

Lemma mask_whole_exact key acc :
  wf_key g key → ∃ bits, mask_whole g key acc = Some bits ∧ exact key acc bits.
Proof using Hwf Hvocab Heog.
  intros Hk. unfold mask_whole.
  destruct (eog_bits_spec key acc) as (b0 & -> & Hl & Hb0). cbn [mbind option_bind].
  destruct (done key) eqn:Hd.
  { exists b0. split; [done|]. split; [done|]. intros id. unfold allowed.
    by rewrite Hb0, Hd, orb_false_r. }
  destruct (loop_marks (stacks key) key (whole_token g key) (λ id, [id]) (seq 0 (n_vocab g)))
    with (s := (b0, new_walk (stacks key))) as ([bits w] & -> & [Hl' _] & [_ Hm]).
  { intros id Hid%elem_of_seq. apply whole_token_marks; [apply Hk|done|lia]. }
  { split; [done|]. apply new_walk_ok, Hk. }
  cbn [mbind option_bind fst]. exists bits. split; [done|]. split; [done|]. intros id.
  rewrite concat_units in Hm. simpl in Hm. rewrite Hm, Hb0. unfold allowed. rewrite Hd. simpl.
  f_equal. destruct (admits key id) eqn:Ha; [|by rewrite andb_false_r].
  apply admits_lt in Ha. rewrite bool_decide_true; [done|]. apply elem_of_seq. lia.
Qed.

Context (Hindex : indexes (eog_ids g) (pieces g) (index g)).

(** An admitted token with no carried bytes is indexed: without a first
    character, or under one the stacks consume. *)
Lemma admits_indexed key id :
  wf_key g key → partial key = [] → admits key id = true →
  id ∈ headless (index g)
  ∨ ∃ cp, scalar cp ∧ consumes g (stacks key) cp ∧ id ∈ default [] (find_bucket g cp).
Proof using Hwf Hindex.
  intros [Hc _] Hpart. unfold admits.
  destruct (pieces g !! id) as [[p|]|] eqn:Hp; [|done|done].
  case_bool_decide as Hin; [done|]. simpl. unfold consume. rewrite Hpart. simpl app.
  assert (p ≠ []) as Hne by by eapply index_nonempty.
  destruct p as [|b p]; [done|]. cbn [length consume_loop].
  destruct (decode_at (b :: p)) as [u|] eqn:Hd; [|done]. cbn [or_panic mbind res_bind].
  destruct u as [cp n| |].
  - pose proof Hd as Hd'. simpl in Hd'. injection Hd' as (Hsc & _ & _)%decode1_cp.
    rewrite not_surrogate by done. intros Hok. right. exists cp. split; [done|].
    destruct (step_cases g Hwf (stacks key) cp Hc) as [(sts' & Hs & _)|[(e & Hs & _)|(Hs & _)]];
      rewrite Hs in Hok; [|done|done].
    split.
    + by eapply step_ok_consumes.
    + unfold find_bucket. apply (index_bucket _ _ _ Hindex). by eexists _, n.
  - intros _. left. apply (index_headless _ _ _ Hindex). by eexists.
  - done.
Qed.

Lemma bucket_indexed cp ids : find_bucket g cp = Some ids → Forall indexed ids.
Proof using Hindex.
  intros Hf. apply list.Forall_forall. intros id Hid.
  destruct (proj1 (index_bucket _ _ _ Hindex cp id)) as (bs & n & ? & ? & _).
  { unfold find_bucket in Hf. by rewrite Hf. }
  by exists bs.
Qed.

(** A bucket of the list is the one found under its character. *)
Lemma find_listed cp ids :
  (cp, ids) ∈ buckets (index g) → find_bucket g cp = Some ids.
Proof using Hindex.
  intros Hin. unfold find_bucket. pose proof (index_keys _ _ _ Hindex) as Hnd.
  induction (buckets (index g)) as [|[c l] bs IH]; [by apply elem_of_nil in Hin|].
  simpl in *. apply NoDup_cons in Hnd as [Hni Hnd].
  apply elem_of_cons in Hin as [[= -> ->]|Hin]; [by rewrite Z.eqb_refl|].
  destruct (Z.eqb_spec c cp) as [->|]; [|by apply IH].
  exfalso. apply Hni. apply list_elem_of_fmap. by exists (cp, ids).
Qed.

(** The two ways to visit the buckets of the frontier mark the same tokens. *)
Lemma visit_marks key a :
  partial key = [] →
  ∃ visited, marks (stacks key) key
    (λ (_ : unit) s,
       if (width a <=? Z.of_nat (length (buckets (index g))))%Z then
         loop_over (λ cp s, match find_bucket g cp with
                            | Some ids => bucket g ids s
                            | None => Some s
                            end) (codepoints a) s
       else
         loop_over (λ '(cp, ids) s, if contains a cp then bucket g ids s else Some s)
           (buckets (index g)) s) (λ _, visited) ()
  ∧ ∀ cp, cp ∈ codepoints a → contains a cp = true →
      ∀ id, id ∈ default [] (find_bucket g cp) → id ∈ visited.
Proof using Hwf Hvocab Hindex.
  intros Hpart. destruct (_ <=? _)%Z.
  - exists (concat (map (λ cp, default [] (find_bucket g cp)) (codepoints a))). split.
    + intros s Hs. apply (loop_marks (stacks key) key _ (λ cp, default [] (find_bucket g cp)));
        [|done]. intros cp _ s1 Hs1.
      destruct (find_bucket g cp) as [ids|] eqn:Hf.
      * apply bucket_marks; [done|by eapply bucket_indexed|done].
      * exists s1. split_and!; [done|done|apply marked_nil].
    + intros cp Hcp _ id Hid. apply list_elem_of_In, in_concat.
      eexists. split; [|by apply list_elem_of_In]. apply in_map_iff. exists cp.
      split; [done|]. by apply list_elem_of_In.
  - exists (concat (map (λ '(cp, ids), if contains a cp then ids else []) (buckets (index g)))). split.
    + intros s Hs. apply (loop_marks (stacks key) key _
        (λ '(cp, ids), if contains a cp then ids else [])); [|done].
      intros [cp ids] Hin s1 Hs1. destruct (contains a cp).
      * apply bucket_marks; [done| |done]. eapply bucket_indexed. by apply find_listed.
      * exists s1. split_and!; [done|done|apply marked_nil].
    + intros cp _ Hc id Hid. unfold find_bucket in Hid.
      destruct (find _ (buckets (index g))) as [[c ids]|] eqn:Hf; simpl in Hid;
        [|by apply elem_of_nil in Hid].
      apply find_some in Hf as [Hin Hk]. simpl in Hk. assert (c = cp) as -> by lia.
      apply list_elem_of_In, in_concat. exists ids.
      split; [|by apply list_elem_of_In]. apply in_map_iff. exists (cp, ids).
      by rewrite Hc.
Qed.

Lemma headless_indexed : Forall indexed (headless (index g)).
Proof using Hindex.
  apply list.Forall_forall. intros id Hid.
  apply (index_headless _ _ _ Hindex) in Hid as (bs & ? & ? & _). by exists bs.
Qed.

Lemma mask_buckets_exact key acc a :
  wf_key g key → partial key = [] → done key = false →
  first_codepoints g (stacks key) = Some a → wide a = false →
  ∃ bits, mask_buckets g key acc a = Some bits ∧ exact key acc bits.
Proof using Hwf Hvocab Heog Hindex.
  intros Hk Hpart Hd Hfc Hwide. unfold mask_buckets.
  destruct (eog_bits_spec key acc) as (b0 & -> & Hl & Hb0). cbn [mbind option_bind].
  destruct (bucket_marks key (headless (index g)) Hpart headless_indexed (b0, new_walk (stacks key)))
    as (s1 & Hs1 & Hok1 & Hm1).
  { split; [done|]. apply new_walk_ok, Hk. }
  unfold bucket in Hs1. rewrite Hs1. cbn [mbind option_bind].
  destruct (visit_marks key a Hpart) as (visited & Hv & Hvis).
  destruct (Hv s1 Hok1) as (s2 & Hs2 & Hok2 & Hm2). rewrite Hs2. cbn [mbind option_bind].
  exists s2.1. split; [done|]. split; [apply Hok2|]. intros id.
  destruct (marked_app _ _ _ _ _ _ Hm1 Hm2) as [_ Hm]. simpl in Hm.
  rewrite Hm, Hb0. unfold allowed. rewrite Hd. simpl. f_equal.
  destruct (admits key id) eqn:Ha; [|by rewrite andb_false_r]. rewrite andb_true_r.
  apply bool_decide_true. apply elem_of_app.
  destruct (admits_indexed key id Hk Hpart Ha) as [|(cp & Hsc & Hcp & Hid)]; [by left|]. right.
  destruct (first_codepoints_spec g Hwf (stacks key)) as (a' & Ha' & Hspec);
    [apply closed_valid, Hk|]. rewrite Hfc in Ha'. injection Ha' as <-.
  destruct (Hspec Hwide) as [Hap Hin]. specialize (Hin cp Hsc Hcp).
  destruct a as [w rs]. simpl in *. subst w.
  by apply (Hvis cp); [apply codepoints_spec|apply contains_spec|].
Qed.

Lemma plan_spec key :
  wf_key g key →
  ∃ w, plan g key = Some w ∧
  match w with
  | Whole => True
  | Buckets a => partial key = [] ∧ done key = false
                 ∧ first_codepoints g (stacks key) = Some a ∧ wide a = false
  end.
Proof using Hwf.
  intros Hk. unfold plan. case_bool_decide as Hp; simpl; [|by exists Whole].
  destruct (done key); simpl; [by exists Whole|].
  destruct (first_codepoints_spec g Hwf (stacks key)) as (a & Ha & _); [apply closed_valid, Hk|].
  rewrite Ha. simpl. destruct (wide a) eqn:Hw; simpl; [by exists Whole|].
  destruct (_ <=? _)%Z; [by exists Whole|]. by exists (Buckets a).
Qed.

(** A state of a run: sound, and its cached masks are exact. *)
Record sound (st : GrammarState) : Prop := {
  sound_state : wf_state g st;
  sound_cache : ∀ k m, cache st !! k = Some m →
    ∃ acc, state_key_accepting g k = Some acc ∧ exact k acc m;
}.

Lemma mask_spec st :
  sound st →
  ∃ bits st', mask g st = Some (bits, st') ∧ exact (inner st) (accepting st) bits
  ∧ sound st' ∧ inner st' = inner st ∧ accepting st' = accepting st
  ∧ size (cache st') ≤ Nat.max (size (cache st)) MAX_MASK_CACHE.
Proof using Hwf Hvocab Heog Hindex.
  intros [[Hk Hacc] Hcache]. unfold mask.
  destruct (cache st !! inner st) as [m|] eqn:Hc.
  { destruct (Hcache _ _ Hc) as (acc & Ha & He). assert (acc = accepting st) as -> by congruence.
    exists m, st. split_and!; [done|done|done|done|done|lia]. }
  destruct (plan_spec (inner st) Hk) as (w & -> & Hw). cbn [mbind option_bind].
  assert (∃ m, match w with
    | Whole => mask_whole g (inner st) (accepting st)
    | Buckets a => mask_buckets g (inner st) (accepting st) a
    end = Some m ∧ exact (inner st) (accepting st) m) as (m & -> & He).
  { destruct w as [|a]; [by apply mask_whole_exact|].
    destruct Hw as (?&?&?&?). by apply mask_buckets_exact. }
  cbn [mbind option_bind]. set (kept := if MAX_MASK_CACHE <=? size (cache st) then ∅ else cache st).
  eexists _, _. split; [done|]. cbn [inner accepting cache]. split; [done|].
  split_and!; [|done|done|].
  - split; [by split|]. cbn [cache]. intros k m' [[<- <-]|[Hne Hm]]%lookup_insert_Some.
    + by exists (accepting st).
    + apply Hcache. unfold kept in Hm. case_match; [by apply lookup_empty_Some in Hm|done].
  - rewrite map_size_insert. unfold kept. destruct (Nat.leb_spec MAX_MASK_CACHE (size (cache st))).
    + rewrite lookup_empty, map_size_empty. unfold MAX_MASK_CACHE. lia.
    + rewrite Hc. lia.
Qed.
End mask.
