(* ===== verification/GrammarSessions.v ===== *)
(** * What [from_gbnf] builds, and runs of it

    Of a source text of codepoints it returns rules that are the programs of
    the parsed nodes, all well formed and closable; so a fresh state exists
    and its stacks run what the root rule matches. *)
From Stdlib Require Import ZArith Lia ZifyBool Strings.String.
From stdpp Require Import base numbers list gmap option relations sorting.
From S2P Require Import Prelude Gguf Utf8 Utf8Facts Gbnf Grammar GrammarRuns GrammarLang GbnfFacts GrammarConsume GrammarIndex GrammarMask.
Local Open Scope nat_scope.

Record built (source : text) (pieces' : list (option bytes)) (eog : list bool)
    (g : Grammar) (rs : list (text * Node)) : Prop := {
  built_parsed : parse source = Ok rs;
  built_nodup : NoDup rs.*1;
  built_syntax : Forall (λ r, syntax_ok r.2) rs;
  built_compiled : compiled g rs;
  built_nodes : Forall (λ r, wf_node rs r.2) rs;
  built_length : length (rules g) = length rs;
  built_root : ∃ node, rs !! root g = Some (codes "root", node);
  built_pieces : pieces g = pieces';
  built_vocab : n_vocab g = length pieces';
  built_eog : eog_ids g = eog_list eog;
  built_index : build pieces' (eog_list eog) = Some (index g);
  built_closable : ∀ r, r < length (rules g) → ∃ sts, close g [[(r, 0)]] = Ok sts;
}.

Lemma map_err_ok {E F A} (f : E → F) (m : res E A) a : map_err f m = Ok a ↔ m = Ok a.
Proof. destruct m; simpl; naive_solver. Qed.

Lemma compile_rule_code ids node prog :
  compile_rule ids node = Ok prog → prog = code ids node 0 ++ [IRet].
Proof.
  unfold compile_rule. intros (p & Hp%map_err_ok & H)%res_bind_ok.
  apply (emit_node_code ids node) in Hp. simpl in Hp. subst p.
  destruct (_ <? _)%Z; [|done]. by injection H as <-.
Qed.

(** The closure of a rule's start reads the programs alone. *)
Lemma from_gbnf_built source pieces' eog g :
  Forall cpt source → from_gbnf source pieces' eog = Ok g →
  ∃ rs, built source pieces' eog g rs.
Proof.
  intros Hs. unfold from_gbnf.
  intros (rs & Hparse%map_err_ok & H)%res_bind_ok. exists rs.
  pose proof (parse_spec source Hs) as Hspec. rewrite Hparse in Hspec.
  destruct Hspec as (Hnd & Hsyn & Hrefs).
  apply res_bind_ok in H as (root & Hroot%ok_or_ok & H).
  apply res_bind_ok in H as (progs & Hprogs%try_map_ok & H).
  apply res_bind_ok in H as (idx & Hidx%or_panic_ok & H).
  apply res_bind_ok in H as (us & Hus%try_map_ok & [= <-]).
  split; try done.
  - intros id name node Hid. simpl.
    destruct (Forall2_lookup_l _ _ _ _ _ Hprogs Hid) as (prog & Hp & Hc).
    rewrite Hp. f_equal. by apply compile_rule_code.
  - apply Forall_lookup. intros i r Hi.
    apply refs_resolved; [by apply (proj1 (Forall_lookup _ _) Hrefs i)
      |by apply (proj1 (Forall_lookup _ _) Hsyn i)].
  - simpl. by apply Forall2_length in Hprogs.
  - simpl. unfold rule_id in Hroot. apply fmap_Some in Hroot as ([id n] & Hf & ->).
    apply list_find_Some in Hf as (Hn & <- & _). simpl.
    apply list_lookup_fmap_Some in Hn as ([n y] & -> & Hn). by exists y.
  - simpl. intros r Hr.
    assert (seq 0 (length progs) !! r = Some r) as Hl by by apply lookup_seq.
    destruct (Forall2_lookup_l _ _ _ _ _ Hus Hl) as (sts & _ & Hc%map_err_ok). by eexists.
Qed.

Section built.
Context (source : text) (pieces' : list (option bytes)) (eog : list bool).
Context (g : Grammar) (rs : list (text * Node)) (Hb : built source pieces' eog g rs).

Lemma built_root_lt : root g < length (rules g).
Proof using Hb.
  destruct (built_root _ _ _ _ _ Hb) as (node & H%lookup_lt_Some).
  by rewrite (built_length _ _ _ _ _ Hb).
Qed.

Lemma built_wf : wf_grammar g.
Proof using Hb.
  pose proof built_root_lt as Hr. rewrite (built_length _ _ _ _ _ Hb) in Hr.
  by eapply compiled_wf; [apply Hb..|].
Qed.

(** The sentences of the grammar. *)
Definition sentence (w : list Z) : Prop := matches (rule_body rs) (NRef (codes "root")) w.

Lemma root_lang w : lang g [[(root g, 0)]] w ↔ sentence w.
Proof using Hb.
  destruct (built_root _ _ _ _ _ Hb) as (node & Hn).
  rewrite (rule_lang g rs (built_compiled _ _ _ _ _ Hb) (built_nodes _ _ _ _ _ Hb) _ _ _ _ Hn).
  assert (rule_body rs (codes "root") = Some node) as Hbody.
  { assert (is_Some (rule_body rs (codes "root"))) as [node' Hn'].
    { apply (refs_resolved rs (NRef (codes "root"))); [|done]. simpl.
      apply list_elem_of_lookup. exists (root g). rewrite list_lookup_fmap. by rewrite Hn. }
    destruct (rule_body_lookup _ _ _ Hn') as (id & Hid & Hl).
    assert (id = root g) as ->; [|congruence].
    eapply NoDup_lookup; [apply (built_nodup _ _ _ _ _ Hb)| |];
      rewrite list_lookup_fmap; [by rewrite Hl|by rewrite Hn]. }
  unfold sentence. split.
  - intros H. by econstructor.
  - inversion 1; subst. congruence.
Qed.

(** A fresh state exists. *)
Lemma state_total :
  ∃ sts acc, close g [[(root g, 0)]] = Ok sts ∧ closed g sts
  ∧ state_key_accepting g {| stacks := sts; partial := []; done := false |} = Some acc
  ∧ state g = Ok {| inner := {| stacks := sts; partial := []; done := false |};
                    accepting := acc; cache := ∅ |}.
Proof using Hb.
  destruct (built_closable _ _ _ _ _ Hb (root g) built_root_lt) as [sts Hc].
  assert (closed g sts) as Hcl.
  { eapply close_closed; [apply built_wf| |exact Hc]. rewrite list.Forall_singleton.
    split; [done|]. rewrite list.Forall_singleton. apply valid_rule; [apply built_wf|apply built_root_lt]. }
  assert (∃ acc, state_key_accepting g {| stacks := sts; partial := []; done := false |} = Some acc)
    as [acc Ha]; [|exists sts, acc; unfold state; rewrite Hc, Ha; done].
  unfold state_key_accepting. simpl. clear Hc. induction Hcl as [|st sts [[Hne Hv] _] _ IH]; [eauto|].
  destruct st as [|f [|]]; [done| |done]. apply list.Forall_singleton in Hv as [i Hi].
  rewrite Hi. simpl. case_decide; eauto.
Qed.
End built.

(** * Runs of a grammar: masks and tokens in any order

    [reached g st ids]: from a fresh state, masks asked for and the tokens
    [ids] accepted, in any order, lead to [st].  Such a state is sound
    ([reached_sound]): its stacks run what may follow the bytes emitted, and
    every mask it caches is exact. *)
Local Open Scope nat_scope.

Inductive reached (g : Grammar) : GrammarState → list nat → Prop :=
| reached_start st : state g = Ok st → reached g st []
| reached_mask st ids bits st' :
    reached g st ids → mask g st = Some (bits, st') → reached g st' ids
| reached_token st ids id st' :
    reached g st ids → accept_token g st id = (Ok (), st') → reached g st' (ids ++ [id]).

(** What the engine keeps small in every state. *)
Record small (st : GrammarState) : Prop := {
  small_stacks : bounded (stacks (inner st));
  small_partial : length (partial (inner st)) < 4;
  small_cache : size (cache st) ≤ MAX_MASK_CACHE;
}.

Section sessions.
Context (source : text) (pieces' : list (option bytes)) (eog : list bool).
Context (g : Grammar) (rs : list (text * Node)) (Hb : built source pieces' eog g rs).
Context (Heog : length eog = length pieces').

Lemma eog_list_lt : Forall (λ id, id < length eog) (eog_list eog).
Proof using.
  unfold eog_list. apply list.Forall_forall. intros id Hid.
  apply list_elem_of_omap in Hid as ([i flag] & Hin & Hf). destruct flag; [|done].
  injection Hf as ->. apply list_elem_of_lookup in Hin as [j Hj].
  rewrite list_lookup_imap in Hj. apply fmap_Some in Hj as (b & Hb' & [= -> _]).
  by eapply lookup_lt_Some.
Qed.

Lemma session_wf : wf_grammar g.
Proof using Hb. by eapply built_wf. Qed.

Lemma session_vocab : n_vocab g = length (pieces g).
Proof using Hb. by rewrite (built_vocab _ _ _ _ _ Hb), (built_pieces _ _ _ _ _ Hb). Qed.

Lemma session_eog : Forall (λ id, id < n_vocab g) (eog_ids g).
Proof using Hb Heog.
  rewrite (built_vocab _ _ _ _ _ Hb), (built_eog _ _ _ _ _ Hb), <-Heog. apply eog_list_lt.
Qed.

Lemma session_index : indexes (eog_ids g) (pieces g) (index g).
Proof using Hb.
  apply build_spec. rewrite (built_eog _ _ _ _ _ Hb), (built_pieces _ _ _ _ _ Hb). apply Hb.
Qed.

(** The stacks every run starts from. *)
Definition start_stacks : list stack :=
  match close g [[(root g, 0)]] with Ok sts => sts | _ => [] end.

Lemma start_spec :
  closed g start_stacks ∧ bounded start_stacks ∧ ∀ w, lang g start_stacks w ↔ sentence rs w.
Proof using Hb.
  destruct (state_total _ _ _ _ _ Hb) as (sts & acc & Hc & Hcl & _ & _).
  unfold start_stacks. rewrite Hc. split_and!; [done|by eapply close_bounded|].
  intros w. rewrite (close_lang _ _ _ w Hc). by eapply root_lang.
Qed.

Lemma start_closed : closed g start_stacks.
Proof using Hb. apply start_spec. Qed.

Lemma start_state st :
  state g = Ok st →
  inner st = {| stacks := start_stacks; partial := []; done := false |} ∧ cache st = ∅
  ∧ state_key_accepting g (inner st) = Some (accepting st).
Proof using Hb.
  destruct (state_total _ _ _ _ _ Hb) as (sts & acc & Hc & _ & Ha & ->). intros [= <-].
  unfold start_stacks. by rewrite Hc.
Qed.

(** The tokens accepted so far, without the one that ended the run. *)
Definition run_of (st : GrammarState) (ids body : list nat) : Prop :=
  if done (inner st) then ∃ last, ids = body ++ [last] ∧ last ∈ eog_ids g else ids = body.

Lemma small_emitted text st :
  emitted g start_stacks text st → done (inner st) = false →
  bounded (stacks (inner st)) ∧ length (partial (inner st)) < 4.
Proof using Hb Heog.
  intros [_ Ht] Hd. rewrite Hd in Ht. destruct Ht as [(u & _ & _ & Hp) Hf].
  split; [by eapply path_bounded; [apply start_spec|]|].
  destruct Hf as [->|(c & _ & Hs & _)]; [simpl; lia|].
  destruct (decide (4 ≤ length (partial (inner st)))); [|lia]. by apply starts_long in Hs.
Qed.

(** Accepting changes the cache only to drop it, and at the end only marks it. *)
Lemma accept_token_keeps st id st' :
  accept_token g st id = (Ok (), st') →
  (cache st' = cache st ∨ cache st' = ∅)
  ∧ (done (inner st') = true →
     stacks (inner st') = stacks (inner st) ∧ partial (inner st') = partial (inner st)
     ∨ done (inner st) = true).
Proof using.
  unfold accept_token. destruct (_ <=? _); [done|]. destruct (done (inner st)) eqn:Hd0; [done|].
  case_decide.
  { destruct (negb _); [done|]. intros [= <-]. simpl. auto. }
  destruct (pieces g !! id) as [[p|]|]; [|done|done].
  destruct (consume g (inner st) p) as [key|[]|] eqn:Hc; [|done|done].
  destruct (state_key_accepting g key); [|done]. intros [= <-]. simpl. split; [by left|].
  intros Hd. unfold consume in Hc. destruct (consume_loop g _ _ _ _ _) as [[]| |]; [|done|done].
  injection Hc as <-. simpl in Hd. congruence.
Qed.

Record run_ok (st : GrammarState) (ids : list nat) : Prop := {
  run_sound : sound g st;
  run_emitted : ∃ body, run_of st ids body ∧ emitted g start_stacks (token_text g body) st
                ∧ Forall (λ id, ¬ id ∈ eog_ids g) body;
  run_small : small st;
}.

Lemma run_ok_start st : state g = Ok st → run_ok st [].
Proof using Hb Heog.
  intros (Hi & Hc & Ha)%start_state.
  assert (emitted g start_stacks [] st) as He.
  { split; [split; [|done]|].
    - rewrite Hi. eapply tracks_wf; [apply session_wf|apply start_closed|apply tracks_start].
    - rewrite Hi. apply tracks_start. }
  split.
  - split; [apply He|]. intros k m. rewrite Hc, lookup_empty. done.
  - exists []. split_and!; [|done|constructor]. unfold run_of. by rewrite Hi.
  - destruct (small_emitted _ _ He) as [? ?]; [by rewrite Hi|]. split; [done|done|].
    rewrite Hc, map_size_empty. lia.
Qed.

Lemma run_ok_mask st ids bits st' :
  run_ok st ids → mask g st = Some (bits, st') → run_ok st' ids.
Proof using Hb Heog.
  intros [Hs (body & Hr & He & Hbody) Hsm] Hm.
  destruct (mask_spec g session_wf session_vocab session_eog session_index st Hs)
    as (bits' & st'' & Hm' & _ & Hs' & Hi & Ha & Hsz).
  rewrite Hm in Hm'. injection Hm' as <- <-. split; [done| |].
  - exists body. unfold run_of, emitted in *. rewrite Hi in *. destruct He as [_ Ht].
    split_and!; [done|apply Hs'|done|done].
  - destruct Hsm. split; rewrite ?Hi; [done|done|lia].
Qed.

Lemma run_ok_token st ids id st' :
  run_ok st ids → accept_token g st id = (Ok (), st') → run_ok st' (ids ++ [id]).
Proof using Hb Heog.
  intros [Hs (body & Hr & He & Hbody) Hsm] Hacc.
  destruct (done (inner st)) eqn:Hd.
  { rewrite accept_token_after_end in Hacc by done. done. }
  pose proof (accept_token_spec g session_wf session_vocab _ _ _ id start_closed He Hd) as Hspec.
  destruct (accept_token_keeps _ _ _ Hacc) as [Hcache Hkeep]. rewrite Hacc in Hspec.
  unfold run_of in Hr. rewrite Hd in Hr. subst body.
  assert (∀ k m, cache st' !! k = Some m →
    ∃ acc, state_key_accepting g k = Some acc ∧ exact g k acc m) as Hcs.
  { intros k m. destruct Hcache as [->| ->]; [apply Hs|by rewrite lookup_empty]. }
  assert (size (cache st') ≤ MAX_MASK_CACHE) as Hsz.
  { destruct Hcache as [->| ->]; [apply Hsm|rewrite map_size_empty; lia]. }
  destruct Hspec as [(Hin & Hd' & He')|(p & Hin & Hp & Hd' & He')].
  - split; [split; [apply He'|done]| |].
    + exists ids. split_and!; [|done|done]. unfold run_of. rewrite Hd'. by exists id.
    + destruct (Hkeep Hd') as [[Hk1 Hk2]|]; [|congruence]. destruct Hsm.
      split; [by rewrite Hk1|by rewrite Hk2|done].
  - split; [split; [apply He'|done]| |].
    + exists (ids ++ [id]). split_and!.
      * unfold run_of. by rewrite Hd'.
      * rewrite token_text_app. unfold token_text at 2. simpl. by rewrite Hp, app_nil_r.
      * apply list.Forall_app. by rewrite list.Forall_singleton.
    + destruct (small_emitted _ _ He' Hd'). by split.
Qed.

Lemma reached_sound st ids : reached g st ids → run_ok st ids.
Proof using Hb Heog.
  induction 1.
  - by apply run_ok_start.
  - by eapply run_ok_mask.
  - by eapply run_ok_token.
Qed.

(** The sentences that go on from some bytes, said with [matches]. *)
Definition goes_on (buf : bytes) : Prop :=
  ∃ tail w, Forall scalar w ∧ buf ++ tail = encode_all w ∧ sentence rs w.

Lemma continues_goes_on buf : continues g start_stacks buf ↔ goes_on buf.
Proof using Hb.
  unfold continues, goes_on. by setoid_rewrite (proj2 (proj2 start_spec)).
Qed.
End sessions.
