(* ===== verification/GrammarProps.v ===== *)
(** * The grammar engine's properties

    What constrained decoding promises: the text of a run that ended is a
    sentence of the grammar, a token is refused only when no sentence goes on
    with it, the mask is the set of tokens that will be taken, and nothing on
    the way panics or grows past its limit. *)
From Stdlib Require Import ZArith Lia ZifyBool String Strings.Byte.
From stdpp Require Import base numbers list gmap option relations sorting.
From S2P Require Import Prelude Gguf Utf8 Utf8Facts Gbnf Grammar GrammarRuns GrammarLang.
From S2P Require Import GrammarConsume GbnfFacts GrammarSessions GrammarIndex GrammarMask.
Local Open Scope nat_scope.

(** ** An example grammar and vocabulary *)
Definition ex_source : list Z := codes "root ::= [\xe9] [a-c]* | [x] root".
Definition ex_pieces : list (option bytes) :=
  [Some [xc3]; Some [xa9]; Some (bstr "a"); Some (bstr "d"); Some (bstr "xx");
   Some (bstr "</s>"); None]%list.
Definition ex_eog : list bool := [false; false; false; false; false; true; false].
Definition ex_empty : Grammar :=
  {| rules := []; names := []; root := 0; n_vocab := 0; pieces := []; eog_ids := [];
     source := []; index := {| buckets := []; headless := [] |} |}.
Definition ex_grammar : Grammar :=
  match from_gbnf ex_source ex_pieces ex_eog with Ok g => g | _ => ex_empty end.
Definition ex_rules : list (list Z * Node) :=
  match parse ex_source with Ok rs => rs | _ => [] end.
Definition ex_state (ids : list nat) : GrammarState :=
  foldl (λ st id, (accept_token ex_grammar st id).2)
    (match state ex_grammar with
     | Ok st => st
     | _ => {| inner := {| stacks := []; partial := []; done := false |};
               accepting := false; cache := ∅ |}
     end) ids.

Lemma ex_built : from_gbnf ex_source ex_pieces ex_eog = Ok ex_grammar.
Proof. vm_compute. reflexivity. Qed.

Lemma ex_parsed : parse ex_source = Ok ex_rules.
Proof. vm_compute. reflexivity. Qed.

Lemma ex_codepoints : Forall cpt ex_source.
Proof.
  apply list.Forall_forall. intros c Hc%list_elem_of_In.
  assert (forallb (λ c, (0 <=? c) && (c <? 0x110000))%Z ex_source = true) as H
    by (vm_compute; reflexivity).
  rewrite forallb_forall in H. specialize (H c Hc). unfold cpt. lia.
Qed.

Lemma ex_reached_0 : reached ex_grammar (ex_state []) [].
Proof. constructor. vm_compute. reflexivity. Qed.

Lemma ex_reached_1 : reached ex_grammar (ex_state [4; 0]) [4; 0].
Proof.
  apply (reached_token _ (ex_state [4]) [4]); [|vm_compute; reflexivity].
  apply (reached_token _ (ex_state []) []); [|vm_compute; reflexivity].
  apply ex_reached_0.
Qed.

Lemma ex_reached_2 : reached ex_grammar (ex_state [4; 0; 1; 2; 5]) [4; 0; 1; 2; 5].
Proof.
  apply (reached_token _ (ex_state [4; 0; 1; 2]) [4; 0; 1; 2]); [|vm_compute; reflexivity].
  apply (reached_token _ (ex_state [4; 0; 1]) [4; 0; 1]); [|vm_compute; reflexivity].
  apply (reached_token _ (ex_state [4; 0]) [4; 0]); [|vm_compute; reflexivity].
  apply ex_reached_1.
Qed.

(** ** The text of a run *)
Section text.
Context (source : list Z) (pieces' : list (option bytes)) (eog : list bool).
Context (g : Grammar) (rs : list (list Z * Node)).

(** C13. A run that an end-of-generation token has ended has emitted a
    sentence: whatever tokens were accepted, and however masks were asked for
    in between, the bytes of the tokens before the last one are the UTF-8
    encoding of a word the [root] rule matches. *)
Theorem ended_run_is_sentence st ids :
  Forall cpt source → length eog = length pieces' →
  from_gbnf source pieces' eog = Ok g → parse source = Ok rs →
  reached g st ids → done (inner st) = true →
  ∃ body last w, ids = body ++ [last] ∧ last ∈ eog_ids g ∧ Forall scalar w
  ∧ token_text g body = encode_all w ∧ matches (rule_body rs) (NRef (codes "root")) w.
Proof.
  intros Hs Hl Hg Hp Hr Hd. destruct (from_gbnf_built _ _ _ _ Hs Hg) as (rs' & Hb).
  assert (rs' = rs) as -> by (pose proof (built_parsed _ _ _ _ _ Hb); congruence).
  destruct (reached_sound _ _ _ _ _ Hb Hl _ _ Hr) as [_ (body & Hrun & [_ He] & _) _].
  unfold run_of in Hrun. rewrite Hd in Hrun, He. destruct Hrun as (last & -> & Hin).
  destruct He as (w & Hw & Ht & Hlang). exists body, last, w. split_and!; [done..|].
  by eapply start_spec.
Qed.



(** The index loses nothing: for every state whose plan is the indexed
    walk, that walk and the walk of the whole vocabulary both return a mask,
    and the masks agree bit for bit. *)
Theorem indexed_mask_is_whole_mask st ids a :
  Forall cpt source → length eog = length pieces' →
  from_gbnf source pieces' eog = Ok g → reached g st ids →
  plan g (inner st) = Some (Buckets a) →
  ∃ indexed whole, mask_buckets g (inner st) (accepting st) a = Some indexed
  ∧ mask_whole g (inner st) (accepting st) = Some whole
  ∧ length indexed = length whole ∧ ∀ id, bit indexed id = bit whole id.
Proof.
  intros Hs Hl Hg Hr Hplan. destruct (from_gbnf_built _ _ _ _ Hs Hg) as (rs' & Hb).
  destruct (reached_sound _ _ _ _ _ Hb Hl _ _ Hr) as [[[Hk _] _] _ _].
  pose proof (session_wf _ _ _ _ _ Hb) as Hwf.
  pose proof (session_vocab _ _ _ _ _ Hb) as Hv.
  pose proof (session_eog _ _ _ _ _ Hb Hl) as Heog.
  destruct (plan_spec g Hwf (inner st) Hk) as (w & Hpl & Hw).
  rewrite Hplan in Hpl. injection Hpl as <-. destruct Hw as (Hpart & Hd & Hfc & Hwide).
  destruct (mask_buckets_exact g Hwf Hv Heog (session_index _ _ _ _ _ Hb) (inner st) (accepting st) a)
    as (b1 & H1 & [Hl1 He1]); [done..|].
  destruct (mask_whole_exact g Hwf Hv Heog (inner st) (accepting st) Hk) as (b2 & H2 & [Hl2 He2]).
  exists b1, b2. split_and!; [done|done|congruence|]. intros id. by rewrite He1, He2.
Qed.

(** Every state of a run stays within the limits: at most 64 stacks, none
    empty and none deeper than 256 frames, every frame on an instruction of
    its rule and every stack waiting for input or at the end of [root]; fewer
    than four carried bytes; at most 64 cached masks. *)
Theorem run_states_small st ids :
  Forall cpt source → length eog = length pieces' →
  from_gbnf source pieces' eog = Ok g → reached g st ids →
  closed g (stacks (inner st))
  ∧ length (stacks (inner st)) ≤ MAX_STACKS
  ∧ Forall (λ stk, 0 < length stk ≤ MAX_STACK_DEPTH) (stacks (inner st))
  ∧ length (partial (inner st)) < 4 ∧ size (cache st) ≤ MAX_MASK_CACHE.
Proof.
  intros Hs Hl Hg Hr. destruct (from_gbnf_built _ _ _ _ Hs Hg) as (rs' & Hb).
  destruct (reached_sound _ _ _ _ _ Hb Hl _ _ Hr) as [[[[Hc _] _] _] _ [[Hn Hdepth] Hp Hsz]].
  split_and!; [done|done| |done|done]. unfold closed in Hc. rewrite list.Forall_forall in *.
  intros stk Hin. destruct (Hc stk Hin) as [[Hne _] _]. specialize (Hdepth stk Hin).
  destruct stk; [done|]. simpl in *. lia.
Qed.

(** Nothing panics: a compiled grammar has a fresh state, and in every
    state of a run the mask is computed and every token, in the vocabulary or
    not, is accepted or refused with an error. *)
Theorem runs_never_panic st ids id :
  Forall cpt source → length eog = length pieces' →
  from_gbnf source pieces' eog = Ok g → reached g st ids →
  (∃ st0, state g = Ok st0) ∧ is_Some (mask g st) ∧ (accept_token g st id).1 ≠ Panic.
Proof.
  intros Hs Hl Hg Hr. destruct (from_gbnf_built _ _ _ _ Hs Hg) as (rs' & Hb).
  destruct (reached_sound _ _ _ _ _ Hb Hl _ _ Hr) as [Hsd (body & Hrun & He & _) _].
  pose proof (session_wf _ _ _ _ _ Hb) as Hwf. pose proof (session_vocab _ _ _ _ _ Hb) as Hv.
  split_and!.
  - destruct (state_total _ _ _ _ _ Hb) as (sts & acc & _ & _ & _ & ->). by eexists.
  - destruct (mask_spec g Hwf Hv (session_eog _ _ _ _ _ Hb Hl) (session_index _ _ _ _ _ Hb) st Hsd)
      as (bits & st' & -> & _). by eexists.
  - destruct (done (inner st)) eqn:Hd.
    + rewrite accept_token_after_end by done. done.
    + pose proof (accept_token_spec g Hwf Hv _ _ _ id (start_closed _ _ _ _ _ Hb) He Hd) as Hspec.
      by destruct (accept_token g st id) as [[[]|e|] st'].
Qed.

(** A carried character is never stranded: when a run has not ended and
    holds the first bytes of a character, there are bytes that complete it to
    one the state consumes, and feeding them in is refused by nothing but a
    limit of the closure. *)
Theorem carried_bytes_complete st ids :
  Forall cpt source → length eog = length pieces' →
  from_gbnf source pieces' eog = Ok g → reached g st ids →
  done (inner st) = false → partial (inner st) ≠ [] →
  ∃ c rest, scalar c ∧ rest ≠ [] ∧ encode c = partial (inner st) ++ rest
  ∧ match consume g (inner st) rest with
    | Ok key => partial key = []
    | Err (_, why) => ∃ e, why = Closure e
    | Panic => False
    end.
Proof.
  intros Hs Hl Hg Hr Hd Hpart. destruct (from_gbnf_built _ _ _ _ Hs Hg) as (rs' & Hb).
  destruct (reached_sound _ _ _ _ _ Hb Hl _ _ Hr) as [[[[Hc Hf] _] _] _ _].
  pose proof (session_wf _ _ _ _ _ Hb) as Hwf.
  destruct Hf as [|(c & Hsc & (rest & Hne & Henc) & Hcons)]; [done|].
  exists c, rest. split_and!; [done..|]. unfold consume. rewrite <-Henc.
  pose proof (decode_encode c [] Hsc) as Hdec. rewrite app_nil_r in Hdec.
  destruct (encode c) as [|b bs] eqn:Hbs; [by pose proof (length_encode c) as Hle; rewrite Hbs in Hle; simpl in Hle; lia|].
  cbn [length consume_loop]. rewrite Hdec. cbn [or_panic mbind res_bind].
  rewrite not_surrogate by done.
  destruct (step_cases g Hwf _ c Hc) as [(sts' & -> & _)|[(e & -> & _)|(_ & Hno)]]; [| |done].
  - cbn [map_err mbind res_bind]. change (S (length bs)) with (length (b :: bs)).
    rewrite drop_all. by destruct (length bs).
  - cbn [map_err mbind res_bind]. by exists e.
Qed.
End text.

(** ** Compiling *)

(** C16. Compiling is right: in the grammar [from_gbnf] returns, the program
    of every rule - emitted in one pass, its branches patched - run on the
    call stacks from its start accepts exactly the words its node matches. *)
Theorem compiled_rule_runs_its_node source pieces' eog g rs id name node w :
  Forall cpt source → from_gbnf source pieces' eog = Ok g → parse source = Ok rs →
  rs !! id = Some (name, node) →
  lang g [[(id, 0)]] w ↔ matches (rule_body rs) node w.
Proof.
  intros Hs Hg Hp Hid. destruct (from_gbnf_built _ _ _ _ Hs Hg) as (rs' & Hb).
  assert (rs' = rs) as -> by (pose proof (built_parsed _ _ _ _ _ Hb); congruence).
  eapply rule_lang; [apply Hb|apply Hb|exact Hid].
Qed.

(** What [from_gbnf] returns is well typed: one program per name, the
    names distinct, [root] among them; in every program branch targets and
    the instruction after a call or a character are inside it, calls name a
    rule, and class ranges are codepoints in ascending order.  And the
    closure of every rule's start succeeds, so the [expect] of [state] cannot
    fail. *)
Theorem compiled_grammar_typed source pieces' eog g :
  Forall cpt source → from_gbnf source pieces' eog = Ok g →
  wf_grammar g ∧ length (names g) = length (rules g) ∧ NoDup (names g)
  ∧ names g !! root g = Some (codes "root")
  ∧ ∀ r, r < length (rules g) → ∃ sts, close g [[(r, 0)]] = Ok sts ∧ closed g sts.
Proof.
  intros Hs Hg. destruct (from_gbnf_built _ _ _ _ Hs Hg) as (rs & Hb).
  pose proof (built_wf _ _ _ _ _ Hb) as Hwf.
  assert (names g = rs.*1) as Hn.
  { revert Hg. unfold from_gbnf. rewrite (built_parsed _ _ _ _ _ Hb). simpl.
    intros (root & _ & H)%res_bind_ok. apply res_bind_ok in H as (progs & _ & H).
    apply res_bind_ok in H as (idx & _ & H). by apply res_bind_ok in H as (us & _ & [= <-]). }
  rewrite Hn. split_and!.
  - done.
  - by rewrite length_fmap, (built_length _ _ _ _ _ Hb).
  - apply Hb.
  - destruct (built_root _ _ _ _ _ Hb) as (node & Hr). by rewrite list_lookup_fmap, Hr.
  - intros r Hr. destruct (built_closable _ _ _ _ _ Hb r Hr) as [sts Hc]. exists sts.
    split; [done|]. eapply close_closed; [done| |exact Hc]. rewrite list.Forall_singleton.
    split; [done|]. rewrite list.Forall_singleton. by apply valid_rule.
Qed.

(** C17. The parser ends on every text: five rounds of its recursion per
    character are enough, so it never stops for want of fuel and never
    panics.  It returns rules with distinct names whose references all
    resolve, whose classes are not empty and whose bounded repetitions are
    not reversed and end at 1024 - or an error. *)
Theorem parse_ends source :
  Forall cpt source →
  match parse source with
  | Ok rs => NoDup rs.*1 ∧ Forall (λ r, syntax_ok r.2) rs
             ∧ Forall (λ r, wf_node rs r.2) rs
  | Err e => e ≠ OutOfFuel
  | Panic => False
  end.
Proof.
  intros Hs. pose proof (parse_spec source Hs) as H.
  destruct (parse source) as [rs|e|]; [|done|done]. destruct H as (Hnd & Hsyn & Hrefs).
  split_and!; [done|done|]. rewrite list.Forall_forall in *. intros r Hr.
  apply refs_resolved; auto.
Qed.

(** ** Characters *)

(** [completion_range] is exact: of a byte string that is the proper
    start of some character's encoding it is the range of the characters it
    starts, which is not empty and has no surrogate at its ends; of any
    other, none. *)
Theorem completion_range_exact bs :
  bs ≠ [] →
  match completion_range bs with
  | Some (lo, hi) => scalar lo ∧ scalar hi ∧ lo ≤ hi
      ∧ ∀ c, scalar c → starts bs c ↔ lo ≤ c ≤ hi
  | None => ∀ c, scalar c → ¬ starts bs c
  end%Z.
Proof.
  intros Hne. destruct (completion_range bs) as [[lo hi]|] eqn:Hr.
  - destruct (completion_range_scalar _ _ _ Hr) as (?&?&?). split_and!; [done..|].
    intros c Hc. by eapply completion_range_starts.
  - intros c Hc Hs. destruct (starts_range _ _ Hc Hne Hs) as [? H]. by rewrite Hr in H.
Qed.

(** [decode_at] is encoding run backwards: it finds a character exactly
    when the buffer begins with its encoding, and says [Incomplete] exactly
    when the buffer is the proper start of some character's encoding. *)
Theorem decode_inverts_encode bs :
  (∀ c n, decode_at bs = Some (Cp c n) ↔
     scalar c ∧ n = length (encode c) ∧ ∃ rest, bs = encode c ++ rest)
  ∧ (decode_at bs = Some Incomplete ↔ bs ≠ [] ∧ ∃ c, scalar c ∧ starts bs c).
Proof.
  split.
  - intros c n. split.
    + destruct bs as [|b bs]; [done|]. simpl. intros [= H]. apply decode1_cp in H as (?&->&H).
      split_and!; [done..|]. eauto.
    + intros (Hc & -> & rest & ->). by apply decode_encode.
  - rewrite decode_incomplete. split.
    + intros [[lo hi] Hr]. split; [by destruct bs|].
      destruct (completion_range_scalar _ _ _ Hr) as (Hlo & _ & Hle). exists lo.
      split; [done|]. eapply completion_range_starts; [done..|lia].
    + intros (Hne & c & Hc & Hs). by eapply starts_range.
Qed.

(** ** Witnesses *)
Lemma ended_run_is_sentence_witness :
  ∃ body last w, [4; 0; 1; 2; 5] = body ++ [last] ∧ last ∈ eog_ids ex_grammar ∧ Forall scalar w
  ∧ token_text ex_grammar body = encode_all w
  ∧ matches (rule_body ex_rules) (NRef (codes "root")) w.
Proof.
  exact (ended_run_is_sentence ex_source ex_pieces ex_eog ex_grammar ex_rules
    (ex_state [4; 0; 1; 2; 5]) [4; 0; 1; 2; 5] ex_codepoints eq_refl ex_built ex_parsed
    ex_reached_2 ltac:(vm_compute; reflexivity)).
Defined.



Lemma indexed_mask_is_whole_mask_witness :
  ∃ indexed whole,
    mask_buckets ex_grammar (inner (ex_state [])) (accepting (ex_state []))
      {| wide := false; ranges := [(120, 120); (233, 233)]%Z |} = Some indexed
  ∧ mask_whole ex_grammar (inner (ex_state [])) (accepting (ex_state [])) = Some whole
  ∧ length indexed = length whole ∧ ∀ id, bit indexed id = bit whole id.
Proof.
  exact (indexed_mask_is_whole_mask ex_source ex_pieces ex_eog ex_grammar (ex_state []) []
    {| wide := false; ranges := [(120, 120); (233, 233)]%Z |}
    ex_codepoints eq_refl ex_built ex_reached_0 ltac:(vm_compute; reflexivity)).
Defined.

Lemma run_states_small_witness :
  closed ex_grammar (stacks (inner (ex_state [4; 0])))
  ∧ length (stacks (inner (ex_state [4; 0]))) ≤ MAX_STACKS
  ∧ Forall (λ stk, 0 < length stk ≤ MAX_STACK_DEPTH) (stacks (inner (ex_state [4; 0])))
  ∧ length (partial (inner (ex_state [4; 0]))) < 4
  ∧ size (cache (ex_state [4; 0])) ≤ MAX_MASK_CACHE.
Proof.
  exact (run_states_small ex_source ex_pieces ex_eog ex_grammar (ex_state [4; 0]) [4; 0]
    ex_codepoints eq_refl ex_built ex_reached_1).
Defined.

Lemma runs_never_panic_witness :
  (∃ st0, state ex_grammar = Ok st0) ∧ is_Some (mask ex_grammar (ex_state [4; 0]))
  ∧ (accept_token ex_grammar (ex_state [4; 0]) 99).1 ≠ Panic.
Proof.
  exact (runs_never_panic ex_source ex_pieces ex_eog ex_grammar (ex_state [4; 0]) [4; 0] 99
    ex_codepoints eq_refl ex_built ex_reached_1).
Defined.

Lemma carried_bytes_complete_witness :
  partial (inner (ex_state [4; 0])) = [xc3] ∧
  ∃ c rest, scalar c ∧ rest ≠ [] ∧ encode c = partial (inner (ex_state [4; 0])) ++ rest
  ∧ match consume ex_grammar (inner (ex_state [4; 0])) rest with
    | Ok key => partial key = []
    | Err (_, why) => ∃ e, why = Closure e
    | Panic => False
    end.
Proof.
  split; [vm_compute; reflexivity|].
  exact (carried_bytes_complete ex_source ex_pieces ex_eog ex_grammar (ex_state [4; 0]) [4; 0]
    ex_codepoints eq_refl ex_built ex_reached_1 ltac:(vm_compute; reflexivity)
    ltac:(vm_compute; discriminate)).
Defined.

Lemma compiled_rule_runs_its_node_witness :
  ∃ node, ex_rules !! 0 = Some (codes "root", node)
  ∧ (lang ex_grammar [[(0, 0)]] [120; 233; 97]%Z ↔ matches (rule_body ex_rules) node [120; 233; 97]%Z).
Proof.
  eexists. split; [vm_compute; reflexivity|].
  apply (compiled_rule_runs_its_node ex_source ex_pieces ex_eog ex_grammar ex_rules 0 (codes "root"));
    [exact ex_codepoints|exact ex_built|exact ex_parsed|vm_compute; reflexivity].
Defined.

Lemma compiled_grammar_typed_witness :
  wf_grammar ex_grammar ∧ length (names ex_grammar) = length (rules ex_grammar)
  ∧ NoDup (names ex_grammar) ∧ names ex_grammar !! root ex_grammar = Some (codes "root")
  ∧ ∀ r, r < length (rules ex_grammar) →
      ∃ sts, close ex_grammar [[(r, 0)]] = Ok sts ∧ closed ex_grammar sts.
Proof.
  exact (compiled_grammar_typed ex_source ex_pieces ex_eog ex_grammar ex_codepoints ex_built).
Defined.

Lemma parse_ends_witness :
  match parse ex_source with
  | Ok rs => NoDup rs.*1 ∧ Forall (λ r, syntax_ok r.2) rs
             ∧ Forall (λ r, wf_node rs r.2) rs
  | Err e => e ≠ OutOfFuel
  | Panic => False
  end.
Proof. exact (parse_ends ex_source ex_codepoints). Defined.

Lemma completion_range_exact_witness :
  completion_range [xed] = Some (0xD000, 0xD7FF)%Z
  ∧ ∀ c, scalar c → starts [xed] c ↔ (0xD000 ≤ c ≤ 0xD7FF)%Z.
Proof.
  split; [reflexivity|].
  exact (proj2 (proj2 (proj2 (completion_range_exact [xed] ltac:(discriminate))))).
Defined.

(** ** What the checks showed *)

(** The mask of an ended run still sets the bits of the end-of-generation
    tokens; [accept_token] refuses every token there. *)
Lemma ended_mask_allows_eog :
  (∃ bits st', mask ex_grammar (ex_state [4; 0; 1; 2; 5]) = Some (bits, st') ∧ bit bits 5 = true)
  ∧ (accept_token ex_grammar (ex_state [4; 0; 1; 2; 5]) 5).1 = Err AfterEnd.
Proof.
  split; [|vm_compute; reflexivity].
  eexists _, _. split; [vm_compute; reflexivity|]. vm_compute. reflexivity.
Qed.

(** The limit of 1024 on repetitions is not asked of an open one. *)
Lemma open_repetition_unlimited :
  parse (codes "root ::= .{2000,}") = Ok [(codes "root", NRep NAny 2000 None)]
  ∧ parse (codes "root ::= .{2000}") = Err (RepeatTooLarge 2000).
Proof. split; vm_compute; reflexivity. Qed.

(** A name followed by a whitespace character past U+007F is taken as a rule's
    name at the start of the text, but not after another rule's body. *)
Lemma wide_space_hides_rule :
  let nbsp := [0xA0%Z] in
  parse (codes "root" ++ nbsp ++ codes "::= [a]") = Ok [(codes "root", NClass false [(97, 97)%Z])]
  ∧ parse (codes "root ::= x x ::= [a]")
    = Ok [(codes "root", NRef (codes "x")); (codes "x", NClass false [(97, 97)%Z])]
  ∧ parse (codes "root ::= x x" ++ nbsp ++ codes "::= [a]")
    = Err (ExpectedAtom (codes "::= [a]")).
Proof. split_and!; vm_compute; reflexivity. Qed.
