(* ===== verification/Sampling.v ===== *)
(** * Choosing a token: [src/sampler.rs]

    The part of the sampler that decides which tokens can come out: the
    penalty window, the grammar's mask over the logits, the greedy choice,
    and the one pipeline every caller runs.  The float formulas (penalties,
    top-k, temperature, mirostat) are the class [SamplerMaths]; an [f32] is an
    [F] with the comparison [gt].  Also the two byte scans a stream of tokens
    goes through, the stop strings and [complete_utf8_prefix_len] of
    [src/tokenizer.rs]. *)
From Stdlib Require Import ZArith Strings.Byte.
From coqutil Require Import Byte.
From stdpp Require Import base numbers list option.
From S2P Require Import Prelude Gguf Grammar.
Local Open Scope nat_scope.

Definition REPEAT_LAST_N : nat := 64.

Definition recent_window (tokens : list nat) (last_n : nat) : list nat :=
  drop (length tokens - last_n) tokens.

(** A committed token joins the window of the last [REPEAT_LAST_N]. *)
Definition push_capped (prev_tokens : list nat) (t : nat) : list nat :=
  let prev_tokens := prev_tokens ++ [t] in
  if REPEAT_LAST_N <? length prev_tokens
  then drop (length prev_tokens - REPEAT_LAST_N) prev_tokens else prev_tokens.

(** ** Stop strings *)

Fixpoint match_stop_loop (buf : bytes) (stops : list bytes) (best : option nat) : option nat :=
  match stops with
  | [] => best
  | s :: stops =>
      if (length s =? 0) || (length buf <? length s) then match_stop_loop buf stops best else
      let start := length buf - length s in
      match_stop_loop buf stops
        (if decide (drop start buf = s)
         then Some (match best with Some b => b `min` start | None => start end) else best)
  end.

Definition match_stop_suffix (buf : bytes) (stops : list bytes) : option nat :=
  match_stop_loop buf stops None.

(** ** Whole characters *)

Definition char_len (b : byte) : nat :=
  let b := byte.unsigned b in
  if (b <? 0x80)%Z then 1
  else if (Z.land b 0xE0 =? 0xC0)%Z then 2
  else if (Z.land b 0xF0 =? 0xE0)%Z then 3
  else if (Z.land b 0xF8 =? 0xF0)%Z then 4
  else 1.

Fixpoint complete_loop (fuel : nat) (rest : bytes) (i : nat) : nat :=
  match fuel, rest with
  | S fuel, b :: _ =>
      if length rest <? char_len b then i
      else complete_loop fuel (drop (char_len b) rest) (i + char_len b)
  | _, _ => i
  end.

Definition complete_utf8_prefix_len (bs : bytes) : nat := complete_loop (length bs) bs 0.

(** ** The pipeline *)

Class Floats (F : Type) := { gt : F → F → bool; neg_inf : F }.

(** [K] are the knobs of a [SamplerConfig] the formulas read, [M] mirostat's
    state, [R] a random generator's. *)
Class SamplerMaths (F K M R : Type) := {
  apply_deterministic_filters : K → list nat → list F → list F;
  narrow : K → list F → R → list F * R;
  sample_temperature : K → list F → R → nat * R;
  sample_mirostat : K → list F → M → R → nat * M * R
}.

Record SamplerConfig (K : Type) := mkConfig {
  sc_cold : bool;
  sc_mirostat : bool;
  sc_grammar : option Grammar;
  sc_knobs : K
}.
Arguments mkConfig {K}.
Arguments sc_cold {K}.
Arguments sc_mirostat {K}.
Arguments sc_grammar {K}.
Arguments sc_knobs {K}.

Inductive SampleError :=
| NoAllowedToken
| GrammarRow (len n_vocab : nat)
| GrammarRefused (e : TokenErr)
| GrammarNoState.

Section sampler.
Context {F K M R : Type} `{!Floats F, !SamplerMaths F K M R}.

(** The first of the largest entries; an empty row panics. *)
Definition sample_greedy (logits : list F) : option nat :=
  match logits with
  | [] => None
  | x :: _ =>
      Some (foldl (λ best p, if gt p.2 best.2 then p else best) (0, x) (imap pair logits)).1
  end.

Definition mask_bit (mask : mask_bits) (i : nat) : bool :=
  match mask !! (i / 64) with Some w => Z.testbit w (Z.of_nat (i mod 64)) | None => false end.

Definition apply_token_mask (logits : list F) (mask : mask_bits) : nat * list F :=
  let logits := imap (λ i v, if mask_bit mask i then v else neg_inf) logits in
  (length (filter (λ p, mask_bit mask p.1 && gt p.2 neg_inf = true) (imap pair logits)), logits).

(** The constraint: the grammar's state after its mask, and the masked row. *)
Definition constrain (cfg : SamplerConfig K) (logits : list F) (gst : option GrammarState) :
    res SampleError (list F * option (Grammar * GrammarState)) :=
  match sc_grammar cfg, gst with
  | Some g, Some st =>
      if negb (length logits =? n_vocab g) then Err (GrammarRow (length logits) (n_vocab g)) else
      '(mask, st) ← or_panic (mask g st);
      let '(allowed, logits) := apply_token_mask logits mask in
      if allowed =? 0 then Err NoAllowedToken else Ok (logits, Some (g, st))
  | Some _, None => Err GrammarNoState
  | None, _ => Ok (logits, None)
  end.

Definition choose (cfg : SamplerConfig K) (logits : list F) (mst : M) (r : R) :
    option (nat * M * R) :=
  if sc_cold cfg then id ← sample_greedy logits; Some (id, mst, r) else
  let '(logits, r) := narrow (sc_knobs cfg) logits r in
  if sc_mirostat cfg then Some (sample_mirostat (sc_knobs cfg) logits mst r) else
  let '(id, r) := sample_temperature (sc_knobs cfg) logits r in Some (id, mst, r).

Definition sample_with_config_grammar (cfg : SamplerConfig K) (logits : list F)
    (prev_tokens : list nat) (mst : M) (gst : option GrammarState) (r : R) :
    res SampleError (nat * M * option GrammarState * R) :=
  let logits := apply_deterministic_filters (sc_knobs cfg) prev_tokens logits in
  '(logits, constrained) ← constrain cfg logits gst;
  '(id, mst, r) ← or_panic (choose cfg logits mst r);
  match constrained with
  | Some (g, st) =>
      let '(r', st) := accept_token g st id in
      _ ← map_err GrammarRefused r'; Ok (id, mst, Some st, r)
  | None => Ok (id, mst, gst, r)
  end.

(** An error here is [unreachable!], a panic. *)
Definition sample_with_config (cfg : SamplerConfig K) (logits : list F) (prev_tokens : list nat)
    (mst : M) (r : R) : option (nat * M * R) :=
  match sample_with_config_grammar cfg logits prev_tokens mst None r with
  | Ok (id, mst, _, r) => Some (id, mst, r)
  | _ => None
  end.
End sampler.
