(* ===== verification/Spec.v ===== *)
(** * Speculative decoding: [src/spec.rs]

    What a model's forward promises the loops that call it
    ([forward_graph_cached] of [src/models/mod.rs]) as a class, and one
    speculative round: draft, verify in one forward, accept while equal.  The
    adaptive depth is chosen by floats and wall-clock times, and is the class
    [DepthController]. *)
From stdpp Require Import base numbers list option.
From S2P Require Import Prelude Gguf Grammar Sampling.
Local Open Scope nat_scope.

(** A forward at [positions], [n_out] rows of logits wanted, over a cache;
    [None] is a panic. *)
Class ModelDef (F C : Type) := {
  forward_graph_cached : list nat → list nat → nat → nat → C → option (list F) * C;
  n_vocab : nat
}.

(** [holds c h]: the cache's rows are those of the tokens [h], from position
    0.  A forward of the tokens that follow [h] gives the logits after each of
    its last [n_out] tokens, as a run token by token would, and adds their
    rows; if it panics, the rows before its positions are as they were. *)
Class ModelLaws (F C : Type) `{!ModelDef F C} := {
  holds : C → list nat → Prop;
  logits_after : list nat → list F;
  length_logits h : length (logits_after h) = n_vocab;
  holds_prefix c h h' : holds c (h ++ h') → holds c h;
  holds_nil c : holds c [];
  forward_spec c h tokens n_out n_ctx : holds c h → 0 < n_out ≤ length tokens →
    length h + length tokens ≤ n_ctx →
    match forward_graph_cached tokens (seq (length h) (length tokens)) n_out n_ctx c with
    | (Some rows, c') => holds c' (h ++ tokens) ∧
        rows = concat (map (λ i, logits_after (h ++ take i tokens))
                         (seq (length tokens - n_out + 1) n_out))
    | (None, c') => holds c' h
    end
}.

(** [AdaptiveD]. *)
Class DepthController (A : Type) := {
  pick : nat → A → nat * A;
  observe_draft : nat → A → A;
  observe_verify : nat → A → A;
  observe_round : nat → nat → A → A
}.

Class DepthLaws (A : Type) `{!DepthController A} := {
  pick_le horizon a : (pick horizon a).1 ≤ horizon
}.

Record SpecStats := mkStats {
  ss_rounds : N; ss_drafted : N; ss_accepted : N; ss_repairs : N; ss_d_sum : N
}.

Record SpecEngine (D A : Type) := mkEngine {
  se_draft_cache : D;
  se_draft_n : nat;
  se_adaptive : option A;
  se_stats : SpecStats
}.
Arguments mkEngine {D A}.
Arguments se_draft_cache {D A}.
Arguments se_draft_n {D A}.
Arguments se_adaptive {D A}.
Arguments se_stats {D A}.

Section spec.
Context {F K M R : Type} `{!Floats F, !SamplerMaths F K M R}.
(** [MirostatState::new] for the knobs. *)
Context (mirostat_new : K → M).

(** [&l[a..b]], when it is in range. *)
Definition row_of (nv i : nat) (logits : list F) : option (list F) :=
  if (i + 1) * nv <=? length logits then Some (take nv (drop (i * nv) logits)) else None.

Definition argmax (logits : list F) : nat :=
  (foldl (λ best p, if gt p.2 best.2 then p else best) (0, neg_inf) (imap pair logits)).1.

Definition draft_proposal (cfg : SamplerConfig K) (logits : list F) (window : list nat) : nat :=
  argmax (apply_deterministic_filters (sc_knobs cfg) window logits).

(** What [accept_loop] carries: the tokens emitted, the accepted count, and
    the window, mirostat's state and the generator. *)
Record Accepting := mkAccepting {
  ac_emitted : list nat; ac_accepted : nat; ac_prev : list nat; ac_mst : M; ac_rng : R
}.

(** Rows [i..=d]; [rest] are the proposals from [i]. *)
Fixpoint accept_rows (cfg : SamplerConfig K) (nv : nat) (logits : list F) (i : nat)
    (rest : list nat) (s : Accepting) : option Accepting :=
  row ← row_of nv i logits;
  '(id, mst, rng) ← sample_with_config cfg row (ac_prev s) (ac_mst s) (ac_rng s);
  let next := mkAccepting (ac_emitted s ++ [id]) (ac_accepted s) (push_capped (ac_prev s) id) mst rng in
  match rest with
  | p :: rest =>
      if id =? p
      then accept_rows cfg nv logits (S i) rest
             (mkAccepting (ac_emitted next) (S (ac_accepted s)) (ac_prev next) mst rng)
      else Some next
  | [] => Some next
  end.

Definition accept_loop (cfg : SamplerConfig K) (logits : list F) (proposals prev_tokens : list nat)
    (rng : R) : option Accepting :=
  let d := length proposals in
  accept_rows cfg (length logits / (d + 1)) logits 0 proposals
    (mkAccepting [] 0 prev_tokens (mirostat_new (sc_knobs cfg)) rng).

Context {C D A : Type} `{!ModelDef F C, !DepthController A}.
(** The draft model. *)
Context (draft : ModelDef F D).

Definition reset_draft (fresh : D) (e : SpecEngine D A) : SpecEngine D A :=
  mkEngine fresh (se_draft_n e) (se_adaptive e) (se_stats e).

Definition set_draft_cache (c : D) (e : SpecEngine D A) : SpecEngine D A :=
  mkEngine c (se_draft_n e) (se_adaptive e) (se_stats e).
Definition set_adaptive (f : A → A) (e : SpecEngine D A) : SpecEngine D A :=
  mkEngine (se_draft_cache e) (se_draft_n e) (option_map f (se_adaptive e)) (se_stats e).
Definition on_stats (f : SpecStats → SpecStats) (e : SpecEngine D A) : SpecEngine D A :=
  mkEngine (se_draft_cache e) (se_draft_n e) (se_adaptive e) (f (se_stats e)).
Definition count_drafted (d : nat) (s : SpecStats) : SpecStats :=
  mkStats (ss_rounds s) (ss_drafted s + N.of_nat d) (ss_accepted s) (ss_repairs s)
    (ss_d_sum s + N.of_nat d).
Definition count_round (accepted : nat) (s : SpecStats) : SpecStats :=
  mkStats (ss_rounds s + 1) (ss_drafted s) (ss_accepted s + N.of_nat accepted) (ss_repairs s)
    (ss_d_sum s).
Definition count_repair (s : SpecStats) : SpecStats :=
  mkStats (ss_rounds s) (ss_drafted s) (ss_accepted s) (ss_repairs s + 1) (ss_d_sum s).

Definition draft_forward (tok pos n_ctx : nat) (c : D) : option (list F) * D :=
  forward_graph_cached (ModelDef:=draft) [tok] [pos] 1 n_ctx c.

(** [d] drafts from [tok] at [pos]. *)
Fixpoint draft_loop (cfg : SamplerConfig K) (d tok pos n_ctx : nat) (window : list nat) (c : D) :
    option (list nat) * D :=
  match d with
  | O => (Some [], c)
  | S d =>
      match draft_forward tok pos n_ctx c with
      | (None, c) => (None, c)
      | (Some logits, c) =>
          let tok := draft_proposal cfg logits window in
          let '(rest, c) := draft_loop cfg d tok (S pos) n_ctx (push_capped window tok) c in
          (option_map (cons tok) rest, c)
      end
  end.

(** The draft depth of a round. *)
Definition depth (horizon : nat) (e : SpecEngine D A) : nat * SpecEngine D A :=
  match se_adaptive e with
  | Some ad => let '(d, ad) := pick horizon ad in
      (d, mkEngine (se_draft_cache e) (se_draft_n e) (Some ad) (se_stats e))
  | None => (se_draft_n e `min` horizon, e)
  end.

(** What a round leaves: the tokens, or nothing when it panicked; the
    target's cache, the engine, the window and the generator. *)
Record RoundOut := mkRound {
  ro_tokens : option (list nat); ro_cache : C; ro_engine : SpecEngine D A;
  ro_prev : list nat; ro_rng : R
}.

(** At the context edge: one plain step. *)
Definition plain_step (cfg : SamplerConfig K) (next_token pos n_ctx : nat) (prev : list nat)
    (rng : R) (c : C) (e : SpecEngine D A) : RoundOut :=
  let '(row, c) := forward_graph_cached [next_token] [pos] 1 n_ctx c in
  match row ← row; sample_with_config cfg row prev (mirostat_new (sc_knobs cfg)) rng with
  | None => mkRound None c e prev rng
  | Some (id, _, rng) =>
      mkRound (Some [id]) c (on_stats (count_round 0) e) (push_capped prev id) rng
  end.

(** All [d] proposals were accepted: the draft has not seen the last yet. *)
Definition repair (proposals : list nat) (pos n_ctx : nat) (e : SpecEngine D A) :
    option unit * SpecEngine D A :=
  match proposals !! (length proposals - 1) with
  | None => (None, e)
  | Some p =>
      let '(r, c) := draft_forward p (pos + length proposals) n_ctx (se_draft_cache e) in
      let e := set_draft_cache c e in
      match r with Some _ => (Some (), on_stats count_repair e) | None => (None, e) end
  end.

Definition round (cfg : SamplerConfig K) (next_token pos n_ctx : nat) (prev : list nat) (rng : R)
    (c : C) (e : SpecEngine D A) : RoundOut :=
  let '(d, e) := depth (n_ctx - (pos + 1)) e in
  if d =? 0 then plain_step cfg next_token pos n_ctx prev rng c e else
  let '(proposals, dc) := draft_loop cfg d next_token pos n_ctx prev (se_draft_cache e) in
  let e := set_draft_cache dc e in
  match proposals with
  | None => mkRound None c e prev rng
  | Some proposals =>
      let e := on_stats (count_drafted d) (set_adaptive (observe_draft d) e) in
      let '(logits, c) := forward_graph_cached (next_token :: proposals) (seq pos (d + 1)) (d + 1) n_ctx c in
      let e := set_adaptive (observe_verify (d + 1)) e in
      match logits ← logits; accept_loop cfg logits proposals prev rng with
      | None => mkRound None c e prev rng
      | Some s =>
          let e := on_stats (count_round (ac_accepted s))
                     (set_adaptive (observe_round d (ac_accepted s)) e) in
          let '(r, e) := if length (ac_emitted s) =? d + 1 then repair proposals pos n_ctx e
                         else (Some (), e) in
          mkRound (option_map (λ _, ac_emitted s) r) c e (ac_prev s) (ac_rng s)
      end
  end.
End spec.
