(* ===== verification/SpecFacts.v ===== *)
(** * A speculative round emits what token-by-token sampling emits

    [samples h prev rng toks prev' rng']: the tokens a run draws one after the
    other from the history [h].  [round_spec]: whatever the draft proposes, a
    round emits such tokens, at least one, and leaves the rows of all of them
    but the last. *)
From Stdlib Require Import ZArith Lia.
From stdpp Require Import base numbers list option.
From S2P Require Import Prelude Gguf Grammar Sampling Spec.
Local Open Scope nat_scope.

(** What the filters keep. *)
Class SamplerLaws (F K M R : Type) `{!SamplerMaths F K M R} := {
  length_filters (k : K) prev (logits : list F) :
    length (apply_deterministic_filters k prev logits) = length logits
}.

Lemma row_of_concat {F} (nv i : nat) (rows : list (list F)) row :
  (∀ r, r ∈ rows → length r = nv) → rows !! i = Some row →
  row_of nv i (concat rows) = Some row.
Proof.
  intros Hlen Hi. apply list_elem_of_split_length in Hi as (l1 & l2 & -> & ->).
  assert (∀ l : list (list F), (∀ r, r ∈ l → length r = nv) → length (concat l) = length l * nv) as Hc.
  { induction l as [|x l IH]; intros H; [done|]. simpl. rewrite length_app, IH, (H x).
    - done.
    - by left.
    - intros r Hr. apply H. by right. }
  assert (length row = nv) as Hrow.
  { apply Hlen. apply elem_of_app. right. by left. }
  assert (length (concat l1) = length l1 * nv) as H1.
  { apply Hc. intros r Hr. apply Hlen. apply elem_of_app. by left. }
  unfold row_of. rewrite concat_app. simpl. rewrite !length_app, H1, Hrow.
  rewrite (proj2 (Nat.leb_le _ _)) by lia.
  rewrite drop_app_ge by lia. rewrite H1, Nat.sub_diag, drop_0, take_app_le by lia.
  by rewrite firstn_all2 by lia.
Qed.

Section sampler.
Context {F K M R : Type} `{!Floats F, !SamplerMaths F K M R, !SamplerLaws F K M R}.
Context (cfg : SamplerConfig K) (Hgr : sc_grammar cfg = None) (Hmi : sc_mirostat cfg = false).

Lemma sample_plain logits prev (m : M) gst (r : R) :
  sample_with_config_grammar cfg logits prev m gst r =
  match sample_with_config cfg logits prev m r with
  | Some (id, m, r) => Ok (id, m, gst, r)
  | None => Panic
  end.
Proof using Hgr.
  unfold sample_with_config, sample_with_config_grammar, constrain. rewrite Hgr. simpl.
  by destruct (choose _ _ _ _) as [[[] ]|].
Qed.

Lemma sample_total logits prev (m : M) (r : R) :
  logits ≠ [] → ∃ id r', sample_with_config cfg logits prev m r = Some (id, m, r').
Proof using All.
  intros Hne. unfold sample_with_config, sample_with_config_grammar, constrain. rewrite Hgr. simpl.
  unfold choose. pose proof (length_filters (sc_knobs cfg) prev logits) as Hlen.
  destruct (sc_cold cfg).
  - destruct (apply_deterministic_filters _ _ _) as [|x l] eqn:Hl; simpl.
    + destruct logits; [done|]. done.
    + by do 2 eexists.
  - destruct (narrow _ _ _) as [l r1]. rewrite Hmi. destruct (sample_temperature _ _ _) as [id r2].
    simpl. by do 2 eexists.
Qed.
End sampler.

(** A round that comes back has emitted something. *)
Section emitting.
Context {F K M R C D A : Type} `{!Floats F, !SamplerMaths F K M R}.
Context `{target : !ModelDef F C, !DepthController A}.
Context (mirostat_new : K → M) (draft : ModelDef F D) (cfg : SamplerConfig K).

Lemma accept_rows_emits nv logits i rest (s s' : Accepting (M:=M) (R:=R)) :
  accept_rows cfg nv logits i rest s = Some s' → ac_emitted s' ≠ [].
Proof using.
  revert i s. induction rest as [|p rest IH]; intros i s; cbn [accept_rows].
  - intros (row & _ & H)%bind_Some. apply bind_Some in H as ([[id m] r] & _ & [= <-]). simpl.
    by intros [_ ?]%app_nil.
  - intros (row & _ & H)%bind_Some. apply bind_Some in H as ([[id m] r] & _ & H).
    destruct (id =? p); [by apply IH in H|]. injection H as <-. simpl. by intros [_ ?]%app_nil.
Qed.

Lemma round_emits t pos n_ctx prev rng (c : C) (e : SpecEngine D A) toks :
  ro_tokens (round mirostat_new draft cfg t pos n_ctx prev rng c e) = Some toks → toks ≠ [].
Proof using.
  unfold round. destruct (depth _ e) as [d e1]. destruct (d =? 0).
  { unfold plain_step. destruct (forward_graph_cached _ _ _ _ _) as [row c'].
    destruct (row ≫= _) as [[[id m] r]|]; [|done]. by intros [= <-]. }
  destruct (draft_loop _ _ _ _ _ _ _ _) as [[ps|] dc]; [|done].
  destruct (forward_graph_cached _ _ _ _ _) as [logits c'].
  destruct (logits ≫= _) as [s|] eqn:Ha; [|done].
  apply bind_Some in Ha as (l & _ & Ha). apply accept_rows_emits in Ha.
  destruct (if _ =? _ then _ else _) as [[[]|] e2]; [|done]. by intros [= <-].
Qed.
End emitting.

Section rounds.
Context {F K M R C D A : Type} `{!Floats F, !SamplerMaths F K M R, !SamplerLaws F K M R}.
Context `{target : !ModelDef F C, !ModelLaws F C, !DepthController A, !DepthLaws A}.
Context (mirostat_new : K → M) (draft : ModelDef F D).
Context (cfg : SamplerConfig K) (Hgr : sc_grammar cfg = None) (Hmi : sc_mirostat cfg = false).
(** The rows of a verify forward over [t] and the proposals. *)
Definition verify_rows (h : list nat) (t : nat) (proposals : list nat) : list F :=
  concat (map (λ i, logits_after (h ++ take i (t :: proposals))) (seq 1 (length proposals + 1))).

Lemma verify_row h t proposals i :
  i ≤ length proposals →
  row_of (n_vocab (ModelDef:=target)) i (verify_rows h t proposals) = Some (logits_after (h ++ t :: take i proposals)).
Proof using.
  intros Hi. apply row_of_concat.
  - intros r Hr. apply list_elem_of_In, in_map_iff in Hr as (j & <- & _). apply length_logits.
  - change (map ?f ?l) with (f <$> l). rewrite list_lookup_fmap, lookup_seq_lt by lia. done.
Qed.


(** The models' forwards come back. *)
Definition total {X} (m : ModelDef F X) : Prop :=
  ∀ tokens positions n_out n_ctx c,
    is_Some (forward_graph_cached (ModelDef:=m) tokens positions n_out n_ctx c).1.
Context (Htotal : total target) (Hdraft : total draft).

Lemma length_verify_rows h t proposals :
  length (verify_rows h t proposals) / (length proposals + 1) = n_vocab (ModelDef:=target).
Proof using.
  enough (length (verify_rows h t proposals)
          = n_vocab (ModelDef:=target) * (length proposals + 1)) as ->
    by (apply Nat.div_mul; lia).
  unfold verify_rows. rewrite <-(length_seq (length proposals + 1) 1) at 2.
  induction (seq 1 (length proposals + 1)) as [|i l IH]; simpl; [lia|].
  rewrite length_app, length_logits, IH. lia.
Qed.

(** ** Drafting *)
Lemma draft_loop_total d tok pos n_ctx window c :
  ∃ proposals c', draft_loop draft cfg d tok pos n_ctx window c = (Some proposals, c')
  ∧ length proposals = d.
Proof using Hdraft.
  revert tok pos window c. induction d as [|d IH]; intros tok pos window c; [by do 2 eexists|].
  simpl. unfold draft_forward. destruct (Hdraft [tok] [pos] 1 n_ctx c) as [l Hl].
  destruct (forward_graph_cached _ _ _ _ _) as [l' c1]. simpl in Hl. subst l'.
  edestruct IH as (ps & c2 & -> & Hlen). eexists _, c2. split; [done|]. simpl. lia.
Qed.

Lemma repair_total proposals pos n_ctx (e : SpecEngine D A) :
  proposals ≠ [] → (repair draft proposals pos n_ctx e).1 = Some ().
Proof using Hdraft.
  intros Hne. unfold repair.
  destruct (lookup_lt_is_Some_2 proposals (length proposals - 1)) as [p ->].
  { destruct proposals; [done|]. simpl. lia. }
  unfold draft_forward.
  destruct (Hdraft [p] [pos + length proposals] 1 n_ctx (se_draft_cache e)) as [l Hl].
  destruct (forward_graph_cached _ _ _ _ _) as [l' c]. simpl in Hl. by subst l'.
Qed.

Lemma depth_le horizon (e : SpecEngine D A) : (depth horizon e).1 ≤ horizon.
Proof using DepthLaws0.
  unfold depth. destruct (se_adaptive e) as [a|]; simpl; [|lia].
  pose proof (pick_le horizon a). by destruct (pick horizon a).
Qed.

(** ** The verify forward *)
Lemma forward_next h t rest n_ctx c :
  holds c h → length h + S (length rest) ≤ n_ctx →
  ∃ c', forward_graph_cached (t :: rest) (seq (length h) (length rest + 1)) (length rest + 1) n_ctx c
        = (Some (verify_rows h t rest), c') ∧ holds c' (h ++ t :: rest).
Proof using Htotal.
  intros Hc Hlen.
  pose proof (forward_spec c h (t :: rest) (length rest + 1) n_ctx Hc) as H.
  destruct (Htotal (t :: rest) (seq (length h) (length rest + 1)) (length rest + 1) n_ctx c) as [rows Hr].
  replace (length (t :: rest)) with (length rest + 1) in H by (simpl; lia).
  destruct (forward_graph_cached _ _ _ _ _) as [r c']. cbn [fst] in Hr. subst r.
  destruct H as [Hh ->]; [lia|lia|]. exists c'. split; [|done].
  by rewrite Nat.sub_diag.
Qed.
(** ** The tokens a run draws *)
Context (Hnv : 0 < n_vocab (ModelDef:=target)).

(** Mirostat's state of a run without it. *)
Definition idle_mst : M := mirostat_new (sc_knobs cfg).

Inductive samples : list nat → list nat → R → list nat → list nat → R → Prop :=
| samples_nil h prev rng : samples h prev rng [] prev rng
| samples_cons h prev rng id rng1 toks prev' rng' :
    sample_with_config cfg (logits_after h) prev idle_mst rng = Some (id, idle_mst, rng1) →
    samples (h ++ [id]) (push_capped prev id) rng1 toks prev' rng' →
    samples h prev rng (id :: toks) prev' rng'.

Lemma draw_total h prev rng :
  ∃ id rng', sample_with_config cfg (logits_after h) prev idle_mst rng = Some (id, idle_mst, rng').
Proof using SamplerLaws0 Hgr Hmi Hnv.
  apply sample_total; [done|done|]. intros Hn. pose proof (length_logits h) as Hl.
  rewrite Hn in Hl. simpl in Hl. lia.
Qed.

(** [pre] is accepted; the proposals from there on are [rest]. *)
Lemma accept_rows_spec h t pre rest s :
  ∃ s' toks, accept_rows cfg (n_vocab (ModelDef:=target)) (verify_rows h t (pre ++ rest)) (length pre) rest s = Some s'
  ∧ (ac_mst s = idle_mst →
     ac_emitted s' = ac_emitted s ++ toks ∧ toks ≠ [] ∧ length toks ≤ length rest + 1
     ∧ (∃ k, removelast toks = take k rest)
     ∧ samples (h ++ t :: pre) (ac_prev s) (ac_rng s) toks (ac_prev s') (ac_rng s')).
Proof using SamplerLaws0 Hgr Hmi Hnv.
  revert pre s. induction rest as [|p rest IH]; intros pre s.
  - cbn [accept_rows]. rewrite app_nil_r, verify_row, firstn_all by done. simpl.
    destruct (sample_total cfg Hgr Hmi (logits_after (h ++ t :: pre)) (ac_prev s) (ac_mst s) (ac_rng s))
      as (id & r & Hs).
    { intros Hn. pose proof (length_logits (h ++ t :: pre)) as Hl. rewrite Hn in Hl. simpl in Hl. lia. }
    rewrite Hs. simpl. eexists _, [id]. split; [done|]. intros Hm. simpl. split_and!; [done|done|lia| |].
    + by exists 0.
    + rewrite Hm in Hs. by econstructor; [|constructor].
  - cbn [accept_rows]. rewrite verify_row by (rewrite length_app; lia). rewrite take_app_length. simpl.
    destruct (sample_total cfg Hgr Hmi (logits_after (h ++ t :: pre)) (ac_prev s) (ac_mst s) (ac_rng s))
      as (id & r & Hs).
    { intros Hn. pose proof (length_logits (h ++ t :: pre)) as Hl. rewrite Hn in Hl. simpl in Hl. lia. }
    rewrite Hs. simpl. destruct (Nat.eqb_spec id p) as [->|Hne].
    + specialize (IH (pre ++ [p]) (mkAccepting (ac_emitted s ++ [p]) (S (ac_accepted s))
        (push_capped (ac_prev s) p) (ac_mst s) r)).
      rewrite <-(assoc_L (++)) in IH. simpl in IH. rewrite length_app, Nat.add_1_r in IH.
      destruct IH as (s' & toks & -> & H). exists s', (p :: toks). split; [done|]. intros Hm.
      destruct (H Hm) as (He & Hne & Hlen & (k & Hk) & Hsm). simpl in *.
      split_and!; [by rewrite He, <-(assoc_L (++))|done|lia| |].
      * exists (S k). destruct toks; [done|]. by rewrite Hk.
      * rewrite Hm in Hs. econstructor; [done|].
        by rewrite <-(assoc_L (++)).
    + eexists _, [id]. split; [done|]. intros Hm. simpl. split_and!; [done|done|lia| |].
      * by exists 0.
      * rewrite Hm in Hs. by econstructor; [|constructor].
Qed.


(** ** A round *)
Lemma accept_loop_spec h t proposals prev rng :
  ∃ s toks, accept_loop mirostat_new cfg (verify_rows h t proposals) proposals prev rng = Some s
  ∧ ac_emitted s = toks ∧ toks ≠ [] ∧ length toks ≤ length proposals + 1
  ∧ (∃ k, removelast toks = take k proposals)
  ∧ samples (h ++ [t]) prev rng toks (ac_prev s) (ac_rng s).
Proof using SamplerLaws0 Hgr Hmi Hnv.
  unfold accept_loop. rewrite length_verify_rows.
  destruct (accept_rows_spec h t [] proposals (mkAccepting [] 0 prev idle_mst rng))
    as (s & toks & Hs & H).
  destruct (H eq_refl) as (He & ?). exists s, toks. by split.
Qed.

Lemma round_spec h t n_ctx prev rng c (e : SpecEngine D A) :
  holds c h → length h < n_ctx →
  let ro := round mirostat_new draft cfg t (length h) n_ctx prev rng c e in
  ∃ toks, ro_tokens ro = Some toks ∧ toks ≠ [] ∧ length toks ≤ n_ctx - length h
  ∧ samples (h ++ [t]) prev rng toks (ro_prev ro) (ro_rng ro)
  ∧ holds (ro_cache ro) (h ++ t :: removelast toks).
Proof using All.
  intros Hc Hlt. unfold round.
  pose proof (depth_le (n_ctx - (length h + 1)) e) as Hd.
  destruct (depth _ e) as [d e1]. cbn [fst] in Hd. destruct (Nat.eqb_spec d 0) as [->|Hd0].
  { destruct (forward_next h t [] n_ctx c Hc) as (c' & Hf & Hc'); [simpl; lia|].
    cbn [length Nat.add seq] in Hf. unfold plain_step. rewrite Hf. cbn [mbind option_bind].
    assert (verify_rows h t [] = logits_after (h ++ [t])) as Hrow.
    { unfold verify_rows. simpl. by rewrite app_nil_r. }
    rewrite Hrow. destruct (draw_total (h ++ [t]) prev rng) as (id & r & Hs).
    fold idle_mst. rewrite Hs. exists [id]. simpl. split_and!; [done|done|lia| |done].
    econstructor; [done|]. constructor. }
  destruct (draft_loop_total d t (length h) n_ctx prev (se_draft_cache e1)) as (ps & dc & -> & Hps).
  subst d. destruct (forward_next h t ps n_ctx c Hc) as (c' & -> & Hc'); [lia|].
  cbn [mbind option_bind].
  destruct (accept_loop_spec h t ps prev rng) as (s & toks & -> & He & Hne & Hl & (k & Hk) & Hs).
  match goal with |- context [if _ then repair _ _ _ _ ?e else _] => set (e2 := e) end.
  pose proof (repair_total ps (length h) n_ctx e2) as Hrep.
  destruct (if _ =? _ then _ else _) as [r e3] eqn:Hr. cbn [ro_tokens ro_cache ro_prev ro_rng].
  assert (r = Some ()) as ->.
  { destruct (_ =? _); [|by injection Hr]. rewrite Hr in Hrep. apply Hrep. by destruct ps. }
  exists toks. simpl. split_and!; [by rewrite He|done|lia|done|].
  rewrite Hk. apply (holds_prefix _ _ (drop k ps)). rewrite <-(assoc_L (++)). simpl.
  by rewrite take_drop.
Qed.
End rounds.
