(* ===== verification/Chat.v ===== *)
(** * The chat generation loop: [src/server/chat.rs], [src/server/slot.rs]

    One request on one slot: prefill with prefix reuse, then the loop that
    samples a token (or runs a speculative round), watches for stop tokens,
    stop strings and limits, and streams whole characters; the serial worker
    that gives jobs to slots.  Logging, metrics and the live view are left
    out.  The client may go away: a channel takes [ch_left] more events. *)
From Stdlib Require Import ZArith Strings.Byte.
From stdpp Require Import base numbers list option.
From S2P Require Import Prelude Gguf Grammar Sampling Spec.
Local Open Scope nat_scope.

(** ** Tokens that end a turn: [src/models/mod.rs] *)

Record SpecialTokens := mkSpecial {
  sp_eos : nat; sp_im_end : option nat; sp_eot : option nat; sp_eom : option nat
}.

Definition is_stop (s : SpecialTokens) (id : nat) : bool :=
  (id =? sp_eos s) || bool_decide (Some id = sp_im_end s) || bool_decide (Some id = sp_eot s)
  || bool_decide (Some id = sp_eom s).

(** ** A request's grammar: [compile_source] of [src/grammar.rs]

    The pieces and the end-of-generation tokens the grammar is compiled
    against, for a GBNF source (a JSON schema is turned into one first). *)

Definition pieces_of (decode_bytes : nat → bytes) (n_vocab : nat) : list (option bytes) :=
  map (λ id, match decode_bytes id with [] => None | bs => Some bs end) (seq 0 n_vocab).

Definition eog_of (special : SpecialTokens) (n_vocab : nat) : list bool :=
  map (λ id, (id =? sp_eos special) || bool_decide (Some id = sp_im_end special)) (seq 0 n_vocab).

Definition compile_source (source : list Z) (decode_bytes : nat → bytes) (n_vocab : nat)
    (special : SpecialTokens) : res GrammarErr Grammar :=
  from_gbnf source (pieces_of decode_bytes n_vocab) (eog_of special n_vocab).

(** ** Events *)

Inductive ApiError :=
| PromptEmpty
| ExceedContext (len n_ctx : nat)
| GrammarWithSpec
| MirostatWithSpec
| Sampling (e : SampleError)
| ClientDisconnected
| InferencePanicked
| InternalPanic
| NoIdleSlot
| NoSuchSlot (idx : nat)
| SlotBusy (idx : nat)
| GroupTooLong (nt cap : nat)
| GroupLogits (len k : nat)
| QueueFull
| Draining
| WorkerStalled
| RunStalled.

Inductive FinishReason := FinStop | FinLength.

Inductive StreamEvent :=
| Text (chunk : bytes)
| Finish (reason : FinishReason) (tokens : nat)
| EvErr (e : ApiError).

Record Channel := mkChannel { ch_sent : list StreamEvent; ch_left : option nat }.

(** [blocking_send]: whether the event was taken. *)
Definition send (ev : StreamEvent) (ch : Channel) : bool * Channel :=
  match ch_left ch with
  | Some O => (false, ch)
  | Some (S k) => (true, mkChannel (ch_sent ch ++ [ev]) (Some k))
  | None => (true, mkChannel (ch_sent ch ++ [ev]) None)
  end.

(** ** The text so far *)

(** [full] is every byte generated, of which [emitted] were sent. *)
Record Output := mkOutput { ot_full : bytes; ot_emitted : nat; ot_count : nat; ot_tx : Channel }.

Definition emit (upto : nat) (o : Output) : bool * Output :=
  if ot_emitted o <? upto then
    let chunk := from_utf8_lossy (take (upto - ot_emitted o) (drop (ot_emitted o) (ot_full o))) in
    let '(ok, tx) := send (Text chunk) (ot_tx o) in
    (ok, mkOutput (ot_full o) (if ok then upto else ot_emitted o) (ot_count o) tx)
  else (true, o).

Definition complete_end (o : Output) : nat :=
  ot_emitted o + complete_utf8_prefix_len (drop (ot_emitted o) (ot_full o)).

Definition add_token (piece : bytes) (o : Output) : Output :=
  mkOutput (ot_full o ++ piece) (ot_emitted o) (ot_count o + 1) (ot_tx o).

(** ** Prefix reuse *)

Fixpoint common_prefix_len (cached prompt : list nat) : nat :=
  match cached, prompt with
  | a :: cached, b :: prompt => if a =? b then S (common_prefix_len cached prompt) else 0
  | _, _ => 0
  end.

Definition prefill_span (nt reuse : nat) : nat * nat :=
  let feed_from := reuse `min` (nt - 1) in (feed_from, nt - feed_from).

Record SamplingParams (K : Type) := mkParams {
  pr_config : SamplerConfig K;
  pr_stops : list bytes;
  pr_max_tokens : Z;
  pr_seed : N
}.
Arguments mkParams {K}.
Arguments pr_config {K}.
Arguments pr_stops {K}.
Arguments pr_max_tokens {K}.
Arguments pr_seed {K}.

Section chat.
Context {F K M R C D A : Type}.
Context `{!Floats F, !SamplerMaths F K M R, !ModelDef F C, !DepthController A}.
Context (mirostat_new : K → M) (seed_from_u64 : N → R) (draft : ModelDef F D) (draft_fresh : D).
Context (decode_bytes : nat → bytes) (special : SpecialTokens).
(** [MINFER_NO_PREFIX_REUSE=1]. *)
Context (no_prefix_reuse : bool).

(** The variables of [generate_seq]. *)
Record Run := mkRun {
  rn_logits : list F;
  rn_pos : nat;
  rn_cache : C;
  rn_cached : list nat;
  rn_prev : list nat;
  rn_mst : M;
  rn_gst : option GrammarState;
  rn_rng : R;
  rn_out : Output;
  rn_seed : option nat;
  rn_engine : option (SpecEngine D A)
}.

Definition set_out (o : Output) (s : Run) : Run :=
  mkRun (rn_logits s) (rn_pos s) (rn_cache s) (rn_cached s) (rn_prev s) (rn_mst s) (rn_gst s)
    (rn_rng s) o (rn_seed s) (rn_engine s).
Definition set_pos (p : nat) (s : Run) : Run :=
  mkRun (rn_logits s) p (rn_cache s) (rn_cached s) (rn_prev s) (rn_mst s) (rn_gst s)
    (rn_rng s) (rn_out s) (rn_seed s) (rn_engine s).
Definition set_cached (l : list nat) (s : Run) : Run :=
  mkRun (rn_logits s) (rn_pos s) (rn_cache s) l (rn_prev s) (rn_mst s) (rn_gst s)
    (rn_rng s) (rn_out s) (rn_seed s) (rn_engine s).
Definition set_prev (l : list nat) (s : Run) : Run :=
  mkRun (rn_logits s) (rn_pos s) (rn_cache s) (rn_cached s) l (rn_mst s) (rn_gst s)
    (rn_rng s) (rn_out s) (rn_seed s) (rn_engine s).
Definition set_seed (o : option nat) (s : Run) : Run :=
  mkRun (rn_logits s) (rn_pos s) (rn_cache s) (rn_cached s) (rn_prev s) (rn_mst s) (rn_gst s)
    (rn_rng s) (rn_out s) o (rn_engine s).
Definition set_sampled (mst : M) (gst : option GrammarState) (rng : R) (s : Run) : Run :=
  mkRun (rn_logits s) (rn_pos s) (rn_cache s) (rn_cached s) (rn_prev s) mst gst rng (rn_out s)
    (rn_seed s) (rn_engine s).
Definition set_forwarded (logits : list F) (c : C) (s : Run) : Run :=
  mkRun logits (rn_pos s) c (rn_cached s) (rn_prev s) (rn_mst s) (rn_gst s) (rn_rng s) (rn_out s)
    (rn_seed s) (rn_engine s).
Definition set_round (ro : RoundOut (R:=R) (C:=C) (D:=D) (A:=A)) (s : Run) : Run :=
  mkRun (rn_logits s) (rn_pos s) (ro_cache ro) (rn_cached s) (ro_prev ro) (rn_mst s) (rn_gst s)
    (ro_rng ro) (rn_out s) (rn_seed s) (Some (ro_engine ro)).

(** A statement of the loop falls through, breaks out of it, returns an
    error, or unwinds. *)
Inductive outcome (X : Type) :=
| Next (x : X) (s : Run)
| Break (reason : FinishReason) (by_string : bool) (s : Run)
| Fails (e : ApiError) (s : Run)
| Unwinds (s : Run).
#[global] Arguments Next {X}.
#[global] Arguments Break {X}.
#[global] Arguments Fails {X}.
#[global] Arguments Unwinds {X}.

Definition stmt (X : Type) : Type := Run → outcome X.
#[export] Instance stmt_ret : MRet stmt := λ X x s, Next x s.
#[export] Instance stmt_bind : MBind stmt := λ X Y f m s,
  match m s with
  | Next x s => f x s
  | Break r b s => Break r b s
  | Fails e s => Fails e s
  | Unwinds s => Unwinds s
  end.

Definition change (f : Run → Run) : stmt unit := λ s, Next () (f s).
Definition break_if (b : Run → bool) (reason : FinishReason) : stmt unit := λ s,
  if b s then Break reason false s else Next () s.
Definition change_out (f : Output → Output) : stmt unit := change (λ s, set_out (f (rn_out s)) s).

Definition emit_to (upto : Output → nat) : stmt unit := λ s,
  let '(ok, o) := emit (upto (rn_out s)) (rn_out s) in
  if ok then Next () (set_out o s) else Fails ClientDisconnected (set_out o s).

Section request.
Context (params : SamplingParams K) (n_ctx_slot : nat).

(** A stop string at the end of the text cuts it and ends the turn, the
    position moved on by [committed]. *)
Definition cut_at (committed cut : nat) : stmt unit :=
  _ ← emit_to (λ _, cut);
  (λ s, Break FinStop true (set_pos (rn_pos s + committed) s)) : stmt unit.

Definition stop_check (committed : nat) : stmt unit := λ s,
  match match_stop_suffix (ot_full (rn_out s)) (pr_stops params) with
  | None => Next () s
  | Some cut => cut_at committed cut s
  end.

Definition flush_complete : stmt unit := emit_to complete_end.

Definition at_max (s : Run) : bool :=
  ((0 <=? pr_max_tokens params) && (pr_max_tokens params <=? Z.of_nat (ot_count (rn_out s))))%Z.

(** The next token from [logits]; [on_err] is what an error of the pipeline
    does. *)
Definition sample (on_err : SampleError → Run → outcome nat) : stmt nat := λ s,
  match sample_with_config_grammar (pr_config params) (rn_logits s) (rn_prev s) (rn_mst s)
          (rn_gst s) (rn_rng s) with
  | Ok (id, mst, gst, rng) => Next id (set_sampled mst gst rng s)
  | Err e => on_err e s
  | Panic => Unwinds s
  end.

Definition push_prev (id : nat) : stmt unit := change (λ s, set_prev (push_capped (rn_prev s) id) s).

(** ** One speculative iteration *)

Definition first_seed : stmt nat :=
  id ← sample (λ e s, Fails (Sampling e) s);
  _ ← break_if (λ _, is_stop special id) FinStop;
  _ ← change_out (add_token (decode_bytes id));
  _ ← stop_check 0;
  _ ← push_prev id;
  _ ← flush_complete;
  mret id.

Definition take_seed : stmt nat := λ s,
  match rn_seed s with
  | Some id => Next id (set_seed None s)
  | None => first_seed s
  end.

Definition run_round (seed : nat) : stmt (list nat) := λ s,
  match rn_engine s with
  | None => Unwinds s
  | Some e =>
      let ro := round mirostat_new draft (pr_config params) seed (rn_pos s) n_ctx_slot (rn_prev s)
                  (rn_rng s) (rn_cache s) e in
      match ro_tokens ro with
      | Some toks => Next toks (set_round ro s)
      | None => Unwinds (set_round ro s)
      end
  end.

Definition break_at (i : nat) (b : Run → bool) (reason : FinishReason) : stmt unit := λ s,
  if b s then Break reason false (set_pos (rn_pos s + (1 + i)) s) else Next () s.

(** The tokens of a round, from the [i]-th. *)
Fixpoint batch (i : nat) (toks : list nat) : stmt unit :=
  match toks with
  | [] => mret ()
  | tok :: toks =>
      _ ← break_at i at_max FinLength;
      _ ← break_at i (λ _, is_stop special tok) FinStop;
      _ ← change_out (add_token (decode_bytes tok));
      _ ← stop_check (1 + i);
      _ ← flush_complete;
      batch (S i) toks
  end.

Definition spec_iteration : stmt unit :=
  seed ← take_seed;
  toks ← run_round seed;
  _ ← batch 0 toks;
  change (λ s, set_seed (toks !! (length toks - 1)) (set_pos (rn_pos s + length toks) s)).

(** ** One plain iteration *)

(** [guarded_forward]: a panic is caught and becomes an error. *)
Definition forward_one (track : bool) (id : nat) : stmt unit := λ s,
  match forward_graph_cached [id] [rn_pos s] 1 n_ctx_slot (rn_cache s) with
  | (None, c) => Fails InferencePanicked (set_forwarded (rn_logits s) c s)
  | (Some logits, c) =>
      let s := set_pos (rn_pos s + 1) (set_forwarded logits c s) in
      Next () (if track then set_cached (rn_cached s ++ [id]) s else s)
  end.

Definition plain_iteration (track : bool) : stmt unit :=
  id ← sample (λ e s, Break FinStop false s);
  _ ← break_if (λ _, is_stop special id) FinStop;
  _ ← push_prev id;
  _ ← change_out (add_token (decode_bytes id));
  _ ← stop_check 0;
  _ ← flush_complete;
  forward_one track id.

(** ** The loop *)

Definition iteration (track : bool) : stmt unit :=
  _ ← break_if at_max FinLength;
  _ ← break_if (λ s, n_ctx_slot <=? rn_pos s) FinLength;
  (λ s, match rn_engine s with Some _ => spec_iteration s | None => plain_iteration track s end)
    : stmt unit.

(** Every iteration moves the position on, so [n_ctx_slot] of them and the
    one that breaks are enough; [None] is out of fuel. *)
Fixpoint generation_loop (fuel : nat) (track : bool) (s : Run) : option (outcome unit) :=
  match fuel with
  | O => None
  | S fuel =>
      match iteration track s with
      | Next _ s => generation_loop fuel track s
      | o => Some o
      end
  end.

(** The final flush: nothing past a stop string, no unfinished character. *)
Definition final_flush (by_string : bool) : stmt unit := λ s,
  let o := rn_out s in
  if length (ot_full o) <=? ot_emitted o then Next () s else
  if by_string then
    let o := match match_stop_suffix (ot_full o) (pr_stops params) with
             | Some cut => mkOutput (take cut (ot_full o)) (ot_emitted o) (ot_count o) (ot_tx o)
             | None => o
             end in
    emit_to (λ o, length (ot_full o)) (set_out o s)
  else flush_complete s.

Definition send_finish (reason : FinishReason) (s : Run) : Run :=
  let o := rn_out s in
  set_out (mkOutput (ot_full o) (ot_emitted o) (ot_count o)
             (send (Finish reason (ot_count o)) (ot_tx o)).2) s.

Definition finish_turn (o : option (outcome unit)) : option (outcome unit) :=
  match o with
  | Some (Break reason by_string s) =>
      Some (match final_flush by_string s with
            | Next _ s => Next () (send_finish reason s)
            | o => o
            end)
  | o => o
  end.

Definition grammar_state : res Empty_set (option GrammarState) :=
  match sc_grammar (pr_config params) with
  | Some g => match state g with Ok st => Ok (Some st) | _ => Panic end
  | None => Ok None
  end.

Definition start (input_ids : list nat) (logits : list F) (c : C) (cached : list nat) (tx : Channel)
    (engine : option (SpecEngine D A)) : res Empty_set Run :=
  gst ← grammar_state;
  Ok (mkRun logits (length input_ids) c cached (recent_window input_ids REPEAT_LAST_N)
        (mirostat_new (sc_knobs (pr_config params))) gst (seed_from_u64 (pr_seed params))
        (mkOutput [] 0 0 tx) None engine).

(** What a request leaves behind: [Ok], the error it returned or the panic,
    and the slot's cache and record, the channel and the engine. *)
Record Left := mkLeft {
  lf_result : res ApiError unit;
  lf_cache : C;
  lf_cached : list nat;
  lf_tx : Channel;
  lf_engine : option (SpecEngine D A)
}.

Definition left_of (r : res ApiError unit) (s : Run) : Left :=
  mkLeft r (rn_cache s) (rn_cached s) (ot_tx (rn_out s)) (rn_engine s).

Definition left_outcome (o : outcome unit) : Left :=
  match o with
  | Next _ s => left_of (Ok ()) s
  | Fails e s => left_of (Err e) s
  | Break _ _ s | Unwinds s => left_of Panic s
  end.

(** What the slot already holds of the prompt, and the forward that feeds the
    rest: at least the last token, for its logits. *)
Definition reused (track : bool) (input_ids cached : list nat) : nat :=
  if track then common_prefix_len cached input_ids else 0.

Definition prefill (track : bool) (input_ids cached : list nat) (c : C) : option (list F) * C :=
  let '(feed_from, feed_len) := prefill_span (length input_ids) (reused track input_ids cached) in
  forward_graph_cached (drop feed_from input_ids) (seq feed_from feed_len) 1 n_ctx_slot c.

Definition tracked (engine : option (SpecEngine D A)) : bool :=
  negb (bool_decide (is_Some engine)) && negb no_prefix_reuse.

Definition generate_seq (input_ids : list nat) (c : C) (cached : list nat) (tx : Channel)
    (engine : option (SpecEngine D A)) : Left :=
  if length input_ids =? 0 then mkLeft (Err PromptEmpty) c cached tx engine else
  if n_ctx_slot <? length input_ids
  then mkLeft (Err (ExceedContext (length input_ids) n_ctx_slot)) c cached tx engine else
  let track := tracked engine in
  match prefill track input_ids cached c with
  | (None, c) => mkLeft (Err InferencePanicked) c cached tx engine
  | (Some logits, c) =>
      let cached := if track then input_ids else [] in
      match start input_ids logits c cached tx engine with
      | Ok s =>
          match finish_turn (generation_loop (S n_ctx_slot) track s) with
          | Some o => left_outcome o
          | None => left_of Panic s
          end
      | _ => mkLeft Panic c cached tx engine
      end
  end.

Definition generate (input_ids : list nat) (c : C) (cached : list nat) (tx : Channel) : Left :=
  if length input_ids =? 0 then mkLeft (Err PromptEmpty) c cached tx None
  else generate_seq input_ids c cached tx None.

Definition generate_spec (input_ids : list nat) (c : C) (cached : list nat) (tx : Channel)
    (e : SpecEngine D A) : Left :=
  match sc_grammar (pr_config params) with
  | Some _ => mkLeft (Err GrammarWithSpec) c cached tx (Some e)
  | None =>
      if length input_ids =? 0 then mkLeft (Err PromptEmpty) c cached tx (Some e)
      else generate_seq input_ids c cached tx (Some (reset_draft draft_fresh e))
  end.
End request.

(** ** Slots and the serial worker *)

Inductive SlotState := Idle | Processing.

Record Slot := mkSlot {
  sl_state : SlotState; sl_cache : C; sl_cached_tokens : list nat; sl_n_ctx_slot : nat
}.

Definition new_slots (fresh : C) (n_slots n_ctx_total : nat) : list Slot :=
  replicate n_slots (mkSlot Idle fresh [] (n_ctx_total / (n_slots `max` 1))).

Record Job := mkJob {
  jb_id : N; jb_input_ids : list nat; jb_params : SamplingParams K; jb_tx : Channel
}.

(** [run_job_isolated]: the event an error or a panic ends with, and whether
    the job completed. *)
Definition run_job_isolated (l : Left) : bool * Channel :=
  match lf_result l with
  | Ok _ => (true, lf_tx l)
  | Err e => (true, (send (EvErr e) (lf_tx l)).2)
  | Panic => (false, (send (EvErr InternalPanic) (lf_tx l)).2)
  end.

Definition is_idle (s : Slot) : Prop := match sl_state s with Idle => True | Processing => False end.
#[export] Instance is_idle_dec s : Decision (is_idle s).
Proof. unfold is_idle. destruct (sl_state s); apply _. Defined.

(** One turn of [worker_loop_serial]: a job, the slots and their engines, to
    the slots and engines after it and the job's channel. *)
Definition serve_job (j : Job) (slots : list Slot) (specs : list (option (SpecEngine D A))) :
    list Slot * list (option (SpecEngine D A)) * Channel :=
  match list_find is_idle slots with
  | None => (slots, specs, (send (EvErr NoIdleSlot) (jb_tx j)).2)
  | Some (idx, slot) =>
      let spec := mjoin (specs !! idx) in
      if bool_decide (is_Some spec) && sc_mirostat (pr_config (jb_params j))
      then (slots, specs, (send (EvErr MirostatWithSpec) (jb_tx j)).2) else
      let l := match spec with
               | Some e => generate_spec (jb_params j) (sl_n_ctx_slot slot) (jb_input_ids j)
                             (sl_cache slot) (sl_cached_tokens slot) (jb_tx j) e
               | None => generate (jb_params j) (sl_n_ctx_slot slot) (jb_input_ids j)
                           (sl_cache slot) (sl_cached_tokens slot) (jb_tx j)
               end in
      let '(completed, tx) := run_job_isolated l in
      (<[idx := mkSlot Idle (lf_cache l) (if completed then lf_cached l else []) (sl_n_ctx_slot slot)]> slots,
       <[idx := lf_engine l]> specs, tx)
  end.
End chat.
