(* ===== verification/ChatFacts.v ===== *)
(** * What a request answers, said without caches and rounds

    [serve]: the tokens drawn one after the other from the history, each said
    to the client, until the turn ends.  [plain_serves] and [spec_serves]: the
    loop of [generate_seq], plain or speculative, answers what [serve]
    does. *)
From Stdlib Require Import ZArith Lia.
From stdpp Require Import base numbers list option.
From S2P Require Import Prelude Gguf Grammar Sampling Spec SpecFacts Chat.
Local Open Scope nat_scope.

(** How a turn ends, with the output then. *)
Inductive served :=
| Ended (reason : FinishReason) (by_string : bool) (o : Output)
| Failed (e : ApiError) (o : Output)
| Crashed (o : Output).

Section talk.
Context (stops : list bytes).

(** One more token's text: the output to go on with, or how the turn ends. *)
Definition say (piece : bytes) (o : Output) : Output + served :=
  let o := add_token piece o in
  match match_stop_suffix (ot_full o) stops with
  | Some cut => let '(ok, o) := emit cut o in
      inr (if ok then Ended FinStop true o else Failed ClientDisconnected o)
  | None => let '(ok, o) := emit (complete_end o) o in
      if ok then inl o else inr (Failed ClientDisconnected o)
  end.

Definition trimmed (by_string : bool) (o : Output) : Output :=
  if by_string
  then match match_stop_suffix (ot_full o) stops with
       | Some cut => mkOutput (take cut (ot_full o)) (ot_emitted o) (ot_count o) (ot_tx o)
       | None => o
       end
  else o.

(** The end of a turn: the flush and the last event. *)
Definition hang_up (v : served) : res ApiError unit * Channel :=
  match v with
  | Ended reason by_string o =>
      let o := trimmed by_string o in
      let '(ok, o) := emit (if by_string then length (ot_full o) else complete_end o) o in
      if ok then (Ok (), (send (Finish reason (ot_count o)) (ot_tx o)).2)
      else (Err ClientDisconnected, ot_tx o)
  | Failed e o => (Err e, ot_tx o)
  | Crashed o => (Panic, ot_tx o)
  end.
End talk.

Section serving.
Context {F K M R C : Type} `{!Floats F, !SamplerMaths F K M R}.
Context `{target : !ModelDef F C, !ModelLaws F C}.
Context (decode_bytes : nat → bytes) (special : SpecialTokens).
Context (params : SamplingParams K).

Definition full_up (o : Output) : bool :=
  ((0 <=? pr_max_tokens params) && (pr_max_tokens params <=? Z.of_nat (ot_count o)))%Z.

(** At most [n] more tokens after the history [h]. *)
Fixpoint serve (n : nat) (h prev : list nat) (mst : M) (gst : option GrammarState) (rng : R)
    (o : Output) : served :=
  if full_up o then Ended FinLength false o else
  match n with
  | O => Ended FinLength false o
  | S n =>
      match sample_with_config_grammar (pr_config params) (logits_after h) prev mst gst rng with
      | Ok (id, mst, gst, rng) =>
          if is_stop special id then Ended FinStop false o else
          match say (pr_stops params) (decode_bytes id) o with
          | inl o => serve n (h ++ [id]) (push_capped prev id) mst gst rng o
          | inr v => v
          end
      | Err _ => Ended FinStop false o
      | Panic => Crashed o
      end
  end.
End serving.

Section loops.
Context {F K M R C D A : Type}.
Context `{!Floats F, !SamplerMaths F K M R, target : !ModelDef F C, !DepthController A}.
Context (mirostat_new : K → M) (draft : ModelDef F D).
Context (decode_bytes : nat → bytes) (special : SpecialTokens).
Context (params : SamplingParams K) (n_ctx_slot : nat).

#[local] Abbreviation Run := (Run (F:=F) (M:=M) (R:=R) (C:=C) (D:=D) (A:=A)).
#[local] Abbreviation outcome := (outcome (F:=F) (M:=M) (R:=R) (C:=C) (D:=D) (A:=A)).

Definition outcome_served {X} (x : outcome X) : option served :=
  match x with
  | Next _ _ => None
  | Break reason by_string s => Some (Ended reason by_string (rn_out s))
  | Fails e s => Some (Failed e (rn_out s))
  | Unwinds s => Some (Crashed (rn_out s))
  end.

Lemma emit_to_run upto (s : Run) :
  emit_to upto s = let '(ok, o) := emit (upto (rn_out s)) (rn_out s) in
    if ok then Next () (set_out o s) else Fails ClientDisconnected (set_out o s).
Proof using. done. Qed.

Lemma emit_up_to_date upto o : upto ≤ ot_emitted o → emit upto o = (true, o).
Proof using. intros H. unfold emit. by rewrite (proj2 (Nat.ltb_ge _ _)) by done. Qed.

Lemma complete_end_done o : length (ot_full o) ≤ ot_emitted o → complete_end o = ot_emitted o.
Proof using. intros H. unfold complete_end. rewrite drop_ge by done. apply Nat.add_0_r. Qed.

(** The end of [generate_seq] reads the output alone. *)
Lemma finish_hangs_up (x : outcome unit) v :
  outcome_served x = Some v →
  ∃ y, finish_turn params (Some x) = Some y
  ∧ (lf_result (left_outcome y), lf_tx (left_outcome y)) = hang_up (pr_stops params) v.
Proof using.
  destruct x as [|reason by_string s|e s|s]; intros [= <-]; simpl; [|by eexists..].
  eexists. split; [done|]. unfold final_flush. destruct (Nat.leb_spec (length (ot_full (rn_out s))) (ot_emitted (rn_out s))) as [Hle|Hlt].
  - rewrite emit_up_to_date.
    + unfold trimmed. destruct by_string; [|done]. by destruct (match_stop_suffix _ _).
    + unfold trimmed. destruct by_string; [|by rewrite complete_end_done].
      destruct (match_stop_suffix _ _); [|done]. simpl. rewrite length_take. lia.
  - destruct by_string.
    + rewrite emit_to_run. simpl. by destruct (emit _ _) as [[] o].
    + unfold flush_complete. rewrite emit_to_run. by destruct (emit _ _) as [[] o].
Qed.

(** The statements that say a token's text. *)
Lemma stop_check_run k (s : Run) :
  stop_check params k s =
  match match_stop_suffix (ot_full (rn_out s)) (pr_stops params) with
  | None => Next () s
  | Some cut => let '(ok, o) := emit cut (rn_out s) in
      if ok then Break FinStop true (set_pos (rn_pos s + k) (set_out o s))
      else Fails ClientDisconnected (set_out o s)
  end.
Proof using.
  unfold stop_check. destruct (match_stop_suffix _ _) as [cut|]; [|done].
  unfold cut_at, mbind, stmt_bind. rewrite emit_to_run. by destruct (emit _ _) as [[] o].
Qed.

(** [x] goes on as [k] after the token was said, or ends as saying it did. *)
Definition said {X} (r : Output + served) (k : Output → outcome X) (x : outcome X) : Prop :=
  match r with
  | inl o => x = k o
  | inr v => outcome_served x = Some v
  end.

Lemma speak {X} piece n (k : Run → outcome X) (pre : Run → outcome unit) (f : Run → Run) (s : Run) :
  (∀ s, pre s = Next () (f s)) → (∀ s, rn_out (f s) = rn_out s) →
  said (say (pr_stops params) piece (rn_out s)) (λ o, k (set_out o (f (set_out (add_token piece (rn_out s)) s))))
    ((_ ← change_out (add_token piece); _ ← stop_check params n; _ ← pre; _ ← flush_complete; k) s).
Proof using.
  intros Hpre Hf. unfold mbind, stmt_bind. unfold change_out, change.
  rewrite stop_check_run. unfold say. cbn [rn_out set_out].
  destruct (match_stop_suffix _ _) as [cut|]; [by destruct (emit _ _) as [[] o]|].
  rewrite Hpre. unfold flush_complete. rewrite emit_to_run, Hf. cbn [rn_out set_out].
  by destruct (emit _ _) as [[] o].
Qed.

Lemma speak_on {X} piece n (k : stmt X) (s : Run) :
  said (say (pr_stops params) piece (rn_out s)) (λ o, k (set_out o s))
    ((_ ← change_out (add_token piece); _ ← stop_check params n; _ ← flush_complete; k) s).
Proof using. by apply (speak piece n k (λ s, Next () s) (λ s, s)). Qed.

Definition iterate := iteration (C:=C) mirostat_new draft decode_bytes special params n_ctx_slot.
Definition run_loop := generation_loop (C:=C) mirostat_new draft decode_bytes special params n_ctx_slot.

Lemma loop_step fuel track (s : Run) :
  run_loop (S fuel) track s =
  match iterate track s with Next _ s => run_loop fuel track s | o => Some o end.
Proof using. done. Qed.

Lemma at_max_full (s : Run) : at_max params s = full_up params (rn_out s).
Proof using. done. Qed.

(** ** The plain loop *)
Context `{!ModelLaws F C} (Htotal : total target).

Lemma forward_one_run track id h (s : Run) :
  holds (rn_cache s) h → rn_pos s = length h → length h < n_ctx_slot →
  ∃ s', forward_one n_ctx_slot track id s = Next () s'
  ∧ holds (rn_cache s') (h ++ [id]) ∧ rn_pos s' = length (h ++ [id])
  ∧ rn_logits s' = logits_after (h ++ [id]) ∧ rn_engine s' = rn_engine s
  ∧ rn_prev s' = rn_prev s ∧ rn_mst s' = rn_mst s ∧ rn_gst s' = rn_gst s
  ∧ rn_rng s' = rn_rng s ∧ rn_out s' = rn_out s.
Proof using Htotal.
  intros Hc Hp Hlt. unfold forward_one. rewrite Hp.
  destruct (forward_next Htotal h id [] n_ctx_slot (rn_cache s) Hc) as (c' & Hf & Hc');
    [simpl; lia|].
  cbn [length Nat.add seq] in Hf. rewrite Hf. rewrite length_app. simpl.
  assert (verify_rows h id [] = logits_after (h ++ [id])) as Hrow.
  { unfold verify_rows. simpl. by rewrite app_nil_r. }
  eexists. split; [done|]. rewrite Hrow. by destruct track.
Qed.

Lemma plain_serves n fuel h track (s : Run) :
  rn_engine s = None → holds (rn_cache s) h → rn_pos s = length h →
  rn_logits s = logits_after h → n_ctx_slot = rn_pos s + n → n < fuel →
  ∃ x, run_loop fuel track s = Some x
  ∧ outcome_served x = Some (serve decode_bytes special params n h (rn_prev s) (rn_mst s)
                               (rn_gst s) (rn_rng s) (rn_out s)).
Proof using Htotal.
  revert fuel h s. induction n as [|n IH]; intros fuel h s He Hc Hp Hl Hn Hfuel;
    (destruct fuel as [|fuel]; [lia|]); rewrite loop_step; unfold iterate, iteration, mbind at 1,
    stmt_bind at 1, break_if at 1; rewrite at_max_full; cbn [serve];
    (destruct (full_up params (rn_out s)); [by eexists|]); unfold mbind at 1, stmt_bind at 1, break_if at 1.
  { rewrite (proj2 (Nat.leb_le _ _)) by lia. by eexists. }
  rewrite (proj2 (Nat.leb_gt _ _)) by lia. rewrite He. unfold plain_iteration.
  unfold mbind at 1, stmt_bind at 1, sample. rewrite Hl.
  destruct (sample_with_config_grammar _ _ _ _ _ _) as [[[[id m] gst] rng]|e|]; [|by eexists..].
  unfold mbind at 1, stmt_bind at 1, break_if. destruct (is_stop special id); [by eexists|].
  unfold mbind at 1, stmt_bind at 1, push_prev, change at 1.
  pose proof (speak_on (decode_bytes id) 0 (forward_one n_ctx_slot track id)
    (set_prev (push_capped (rn_prev s) id) (set_sampled m gst rng s))) as Hs.
  cbn [rn_out rn_prev set_prev set_sampled] in *.
  destruct (say _ _ _) as [o|v]; simpl in Hs.
  - rewrite Hs. edestruct (forward_one_run track id h) as (s' & -> & Hc' & Hp' & Hl' & He' & Hrest);
      [exact Hc|exact Hp|lia|].
    destruct (IH fuel (h ++ [id]) s') as (x & -> & Hx); [by rewrite He'|done..| |lia|].
    { rewrite Hp', length_app. simpl. lia. }
    exists x. split; [done|]. rewrite Hx. by destruct Hrest as (-> & -> & -> & -> & ->).
  - match type of Hs with outcome_served ?x = _ => destruct x end; [done|..]; by eexists.
Qed.

(** ** The speculative loop *)
Context `{!SamplerLaws F K M R, !DepthLaws A} (Hdraft : total draft).
Context (Hgr : sc_grammar (pr_config params) = None) (Hmi : sc_mirostat (pr_config params) = false).
Context (Hnv : 0 < n_vocab (ModelDef:=target)).

Definition no_mirostat : M := idle_mst mirostat_new (pr_config params).
Definition drawn := samples (target:=target) mirostat_new (pr_config params).
Definition answer := serve (target:=target) decode_bytes special params.

Lemma answer_drawn n h prev gst rng id rng' o :
  sample_with_config (pr_config params) (logits_after h) prev no_mirostat rng = Some (id, no_mirostat, rng') →
  answer (S n) h prev no_mirostat gst rng o =
  if full_up params o then Ended FinLength false o else
  if is_stop special id then Ended FinStop false o else
  match say (pr_stops params) (decode_bytes id) o with
  | inl o => answer n (h ++ [id]) (push_capped prev id) no_mirostat gst rng' o
  | inr v => v
  end.
Proof using Hgr.
  intros Hs. unfold answer. cbn [serve]. by rewrite (sample_plain _ Hgr), Hs.
Qed.

Lemma batch_serves i toks n h prev rng prev' rng' gst (s : Run) :
  drawn h prev rng toks prev' rng' →
  match batch decode_bytes special params i toks s with
  | Next _ s' => s' = set_out (rn_out s') s
      ∧ answer (length toks + n) h prev no_mirostat gst rng (rn_out s)
        = answer n (h ++ toks) prev' no_mirostat gst rng' (rn_out s')
  | x => outcome_served x = Some (answer (length toks + n) h prev no_mirostat gst rng (rn_out s))
  end.
Proof using Hgr.
  intros Hs. revert i s. induction Hs as [h prev rng|h prev rng id rng1 toks prev' rng' Hd _ IH]; intros i s.
  { simpl. rewrite app_nil_r. split; [|done]. by destruct s. }
  cbn [batch length Nat.add]. rewrite (answer_drawn _ _ _ _ _ _ _ _ Hd).
  unfold mbind at 1, stmt_bind at 1, break_at at 1. rewrite at_max_full.
  destruct (full_up params (rn_out s)); [done|].
  unfold mbind at 1, stmt_bind at 1, break_at at 1. destruct (is_stop special id); [done|].
  pose proof (speak_on (decode_bytes id) (1 + i) (batch decode_bytes special params (S i) toks) s) as Hk.
  destruct (say _ _ _) as [o|v]; simpl in Hk.
  - rewrite Hk. specialize (IH (S i) (set_out o s)). cbn [rn_out set_out] in IH.
    rewrite <-(assoc_L (++)) in IH. cbn [app] in IH.
    destruct (batch _ _ _ _ _ _) as [[] s'| | |]; [|done..].
    destruct IH as [-> IH]. split; [done|exact IH].
  - match type of Hk with outcome_served ?x = _ => destruct x end; done.
Qed.

(** An iteration once its seed is there. *)
Definition after_seed (seed : nat) : stmt (F:=F) (M:=M) (R:=R) (C:=C) (D:=D) (A:=A) unit :=
  toks ← run_round mirostat_new draft params n_ctx_slot seed;
  _ ← batch decode_bytes special params 0 toks;
  change (λ s, set_seed (toks !! (length toks - 1)) (set_pos (rn_pos s + length toks) s)).

Lemma after_seed_serves n h t e (s : Run) :
  rn_engine s = Some e → holds (rn_cache s) h → rn_pos s = length h →
  n_ctx_slot = length h + n → 0 < n →
  match after_seed t s with
  | Next _ s' => ∃ h' t' n', n' < n ∧ n_ctx_slot = length h' + n'
      ∧ (∃ e', rn_engine s' = Some e') ∧ rn_seed s' = Some t' ∧ holds (rn_cache s') h'
      ∧ rn_pos s' = length h' ∧ rn_gst s' = rn_gst s
      ∧ answer n (h ++ [t]) (rn_prev s) no_mirostat (rn_gst s) (rn_rng s) (rn_out s)
        = answer n' (h' ++ [t']) (rn_prev s') no_mirostat (rn_gst s) (rn_rng s') (rn_out s')
  | x => outcome_served x
         = Some (answer n (h ++ [t]) (rn_prev s) no_mirostat (rn_gst s) (rn_rng s) (rn_out s))
  end.
Proof using All.
  intros He Hc Hp Hn Hn0. unfold after_seed. unfold mbind at 1, stmt_bind at 1, run_round.
  rewrite He, Hp.
  destruct (round_spec mirostat_new draft (pr_config params) Hgr Hmi Htotal Hdraft Hnv h t n_ctx_slot
    (rn_prev s) (rn_rng s) (rn_cache s) e Hc) as (toks & Ht & Hne & Hlen & Hs & Hc'); [lia|].
  rewrite Ht. unfold mbind at 1, stmt_bind at 1.
  set (ro := round _ _ _ _ _ _ _ _ _ _) in *.
  pose proof (batch_serves 0 toks (n - length toks) _ _ _ _ _ (rn_gst s) (set_round ro s) Hs) as Hb.
  replace (length toks + (n - length toks)) with n in Hb by lia.
  destruct (batch _ _ _ _ _ _) as [[] s'| | |]; [|exact Hb..].
  destruct Hb as [-> Hb]. unfold change.
  destruct toks as [|t' init _] using rev_ind; [done|]. rewrite removelast_last in Hc'.
  rewrite length_app in *. cbn [length] in *. rewrite Nat.add_sub.
  exists (h ++ t :: init), t', (n - (length init + 1)). rewrite list_lookup_middle by done.
  rewrite length_app in *. cbn [length rn_engine rn_seed rn_cache rn_pos rn_gst rn_prev rn_rng rn_out
    set_seed set_pos set_out set_round] in *. rewrite Hp.
  split_and!; [lia|lia|by eexists|done|done|lia|done|].
  rewrite Hb. by rewrite <-!(assoc_L (++)).
Qed.

Lemma seeded_serves n fuel h t track (s : Run) :
  is_Some (rn_engine s) → rn_seed s = Some t → holds (rn_cache s) h → rn_pos s = length h →
  n_ctx_slot = length h + n → n < fuel →
  ∃ x, run_loop fuel track s = Some x
  ∧ outcome_served x = Some (answer n (h ++ [t]) (rn_prev s) no_mirostat (rn_gst s) (rn_rng s) (rn_out s)).
Proof using All.
  revert fuel h t s. induction (lt_wf n) as [n _ IH]. intros fuel h t s [e He] Ht Hc Hp Hn Hf.
  destruct fuel as [|fuel]; [lia|]. rewrite loop_step. unfold iterate, iteration, mbind at 1,
    stmt_bind at 1, break_if at 1. rewrite at_max_full.
  destruct (full_up params (rn_out s)) eqn:Hfull.
  { eexists. split; [done|]. unfold answer. destruct n; cbn [serve]; by rewrite Hfull. }
  unfold mbind at 1, stmt_bind at 1, break_if at 1. destruct (Nat.leb_spec n_ctx_slot (rn_pos s)).
  { assert (n = 0) as -> by lia. eexists. split; [done|]. unfold answer. cbn [serve]. by rewrite Hfull. }
  rewrite He. unfold spec_iteration. unfold mbind at 1, stmt_bind at 1, take_seed. rewrite Ht.
  pose proof (after_seed_serves n h t e (set_seed None s) He Hc Hp Hn) as Ha.
  fold (after_seed t). destruct (after_seed t (set_seed None s)) as [[] s'| | |];
    [|eexists; split; [done|by apply Ha; lia]..].
  destruct Ha as (h' & t' & n' & Hn' & Hn2 & Hs' & Ht' & Hc' & Hp' & Hg' & Hans); [lia|].
  destruct (IH n' Hn' fuel h' t' s') as (x & -> & Hx); [done..|lia|].
  exists x. split; [done|]. rewrite Hx, Hg'. f_equal. symmetry. exact Hans.
Qed.

Lemma spec_serves n fuel h track (s : Run) :
  is_Some (rn_engine s) → rn_seed s = None → holds (rn_cache s) h → rn_pos s = length h →
  rn_logits s = logits_after h → rn_mst s = no_mirostat →
  n_ctx_slot = length h + n → 0 < n → n < fuel →
  ∃ x, run_loop fuel track s = Some x
  ∧ outcome_served x = Some (answer (S n) h (rn_prev s) no_mirostat (rn_gst s) (rn_rng s) (rn_out s)).
Proof using All.
  intros [e He] Hsd Hc Hp Hl Hm Hn Hn0 Hf. destruct fuel as [|fuel]; [lia|].
  destruct (draw_total mirostat_new (pr_config params) Hgr Hmi Hnv h (rn_prev s) (rn_rng s))
    as (id & rng & Hd).
  rewrite (answer_drawn _ _ _ _ _ _ _ _ Hd), loop_step.
  unfold iterate, iteration, mbind at 1, stmt_bind at 1, break_if at 1. rewrite at_max_full.
  destruct (full_up params (rn_out s)); [by eexists|].
  unfold mbind at 1, stmt_bind at 1, break_if at 1. rewrite (proj2 (Nat.leb_gt _ _)) by lia.
  rewrite He. unfold spec_iteration. unfold mbind at 1, stmt_bind at 1, take_seed. rewrite Hsd.
  fold after_seed. unfold first_seed. unfold mbind at 1, stmt_bind at 1, sample.
  rewrite (sample_plain _ Hgr), Hl, Hm. unfold no_mirostat. rewrite Hd.
  unfold mbind at 1, stmt_bind at 1, break_if. destruct (is_stop special id); [by eexists|].
  set (s1 := set_sampled _ _ _ s).
  pose proof (speak (decode_bytes id) 0 (mret (M:=stmt) id) (push_prev id)
    (λ s, set_prev (push_capped (rn_prev s) id) s) s1 (λ _, eq_refl) (λ _, eq_refl)) as Hs.
  change (rn_out s1) with (rn_out s) in Hs. destruct (say _ _ _) as [o|v]; simpl in Hs.
  - rewrite Hs. unfold mret at 1, stmt_ret at 1. fold no_mirostat.
    set (s2 := set_out o _).
    pose proof (after_seed_serves n h id e s2 He Hc Hp Hn Hn0) as Ha.
    lazymatch goal with |- context [match ?x with _ => _ end] => change x with (after_seed id s2) end.
    destruct (after_seed id s2) as [[] s'| | |]; [|eexists; split; [done|exact Ha]..].
    destruct Ha as (h' & t' & n' & Hn' & Hn2 & Hs' & Ht' & Hc' & Hp' & Hg' & Hans).
    destruct (seeded_serves n' fuel h' t' track s') as (x & -> & Hx); [done..|lia|].
    exists x. split; [done|]. rewrite Hx, Hg'. f_equal. symmetry. exact Hans.
  - match type of Hs with outcome_served ?x = _ => destruct x end; [done|..]; by eexists.
Qed.
End loops.
