(* ===== verification/ChatKeep.v ===== *)
(** * What every step of a request keeps

    Each iteration of the loop as one equation ([plain_iteration_eq]), and
    what holds of a run whatever the model, the draft and the client do: the
    token count stays within [max_tokens], the position moves on, and a slot's
    record names rows its cache holds. *)
From Stdlib Require Import ZArith Lia.
From stdpp Require Import base numbers list option.
From S2P Require Import Prelude Gguf Grammar Sampling Spec SpecFacts Chat ChatFacts.
Local Open Scope nat_scope.

Section keeping.
Context {F K M R C D A : Type}.
Context `{!Floats F, !SamplerMaths F K M R, target : !ModelDef F C, !DepthController A}.
Context (mirostat_new : K → M) (draft : ModelDef F D).
Context (decode_bytes : nat → bytes) (special : SpecialTokens).
Context (params : SamplingParams K) (n_ctx_slot : nat).

#[local] Abbreviation Run := (Run (F:=F) (M:=M) (R:=R) (C:=C) (D:=D) (A:=A)).
#[local] Abbreviation outcome := (outcome (F:=F) (M:=M) (R:=R) (C:=C) (D:=D) (A:=A)).
#[local] Abbreviation stmt := (stmt (F:=F) (M:=M) (R:=R) (C:=C) (D:=D) (A:=A)).

(** ** Statements as equations *)
Definition ended {X} (k : nat) (v : served) (s : Run) : outcome X :=
  match v with
  | Ended reason by_string o => Break reason by_string (set_pos (rn_pos s + k) (set_out o s))
  | Failed e o => Fails e (set_out o s)
  | Crashed o => Unwinds (set_out o s)
  end.

Lemma speak_eq {X} piece k (m : stmt X) (s : Run) :
  (_ ← change_out (add_token piece); _ ← stop_check params k; _ ← flush_complete; m) s =
  match say (pr_stops params) piece (rn_out s) with
  | inl o => m (set_out o s)
  | inr v => ended k v s
  end.
Proof using.
  unfold mbind, stmt_bind, change_out, change. rewrite stop_check_run. unfold say. cbn [rn_out set_out].
  destruct (match_stop_suffix _ _) as [cut|]; [by destruct (emit _ _) as [[] o]|].
  unfold flush_complete. rewrite emit_to_run. cbn [rn_out set_out]. by destruct (emit _ _) as [[] o].
Qed.

Lemma plain_iteration_eq track (s : Run) :
  plain_iteration decode_bytes special params n_ctx_slot track s =
  match sample_with_config_grammar (pr_config params) (rn_logits s) (rn_prev s) (rn_mst s)
          (rn_gst s) (rn_rng s) with
  | Ok (id, mst, gst, rng) =>
      let s := set_sampled mst gst rng s in
      if is_stop special id then Break FinStop false s else
      let s := set_prev (push_capped (rn_prev s) id) s in
      match say (pr_stops params) (decode_bytes id) (rn_out s) with
      | inl o => forward_one n_ctx_slot track id (set_out o s)
      | inr v => ended 0 v s
      end
  | Err _ => Break FinStop false s
  | Panic => Unwinds s
  end.
Proof using.
  unfold plain_iteration. unfold mbind at 1, stmt_bind at 1, sample.
  destruct (sample_with_config_grammar _ _ _ _ _ _) as [[[[id m] gst] rng]| |]; [|done..].
  unfold mbind at 1, stmt_bind at 1, break_if. cbn zeta. destruct (is_stop special id); [done|].
  unfold mbind at 1, stmt_bind at 1, push_prev, change at 1. by rewrite speak_eq.
Qed.

(** The first seed joins the window only once its text has passed the stop
    strings. *)
Lemma first_seed_eq (s : Run) :
  first_seed decode_bytes special params s =
  match sample_with_config_grammar (pr_config params) (rn_logits s) (rn_prev s) (rn_mst s)
          (rn_gst s) (rn_rng s) with
  | Ok (id, mst, gst, rng) =>
      let s := set_sampled mst gst rng s in
      if is_stop special id then Break FinStop false s else
      let pushed := set_prev (push_capped (rn_prev s) id) s in
      match say (pr_stops params) (decode_bytes id) (rn_out s) with
      | inl o => Next id (set_out o pushed)
      | inr v => ended 0 v (match match_stop_suffix (ot_full (rn_out s) ++ decode_bytes id) (pr_stops params) with
                            | Some _ => s | None => pushed end)
      end
  | Err e => Fails (Sampling e) s
  | Panic => Unwinds s
  end.
Proof using.
  unfold first_seed. unfold mbind at 1, stmt_bind at 1, sample.
  destruct (sample_with_config_grammar _ _ _ _ _ _) as [[[[id m] gst] rng]| |]; [|done..].
  unfold mbind at 1, stmt_bind at 1, break_if. cbn zeta. destruct (is_stop special id); [done|].
  unfold mbind, stmt_bind, change_out, change. rewrite stop_check_run. unfold say.
  cbn [rn_out set_out add_token ot_full].
  destruct (match_stop_suffix _ _) as [cut|]; [by destruct (emit _ _) as [[] o]|].
  unfold push_prev, change, flush_complete. rewrite emit_to_run. cbn [rn_out set_out set_prev].
  by destruct (emit _ _) as [[] o].
Qed.

(** ** What statements keep *)
Definition leaves {X} (P : X → Run → Prop) (Q : Run → Prop) (x : outcome X) : Prop :=
  match x with Next x s => P x s | Break _ _ s | Fails _ s | Unwinds s => Q s end.

Definition preserves {X} (P Q : Run → Prop) (P' : X → Run → Prop) (m : stmt X) : Prop :=
  ∀ s, P s → leaves P' Q (m s).

Lemma keeps_bind {X Y} (P Q : Run → Prop) (P' : X → Run → Prop) P'' (m : stmt X) (f : X → stmt Y) :
  preserves P Q P' m → (∀ x, preserves (P' x) Q P'' (f x)) → preserves P Q P'' (m ≫= f).
Proof using.
  intros Hm Hf s Hs. specialize (Hm s Hs). unfold mbind, stmt_bind.
  destruct (m s) as [x s'| | |]; simpl in *; [by apply Hf|done..].
Qed.

Lemma keeps_then {X} (P Q P' : Run → Prop) P'' (m : stmt unit) (m' : stmt X) :
  preserves P Q (λ _, P') m → preserves P' Q P'' m' → preserves P Q P'' (_ ← m; m').
Proof using. intros H H'. eapply keeps_bind; [exact H|]. by intros []. Qed.

Lemma keeps_change (P Q P' : Run → Prop) f :
  (∀ s, P s → P' (f s)) → preserves P Q (λ _, P') (change f).
Proof using. intros H s Hs. by apply H. Qed.

Lemma keeps_break (P Q P' : Run → Prop) b reason :
  (∀ s, P s → b s = true → Q s) → (∀ s, P s → b s = false → P' s) →
  preserves P Q (λ _, P') (break_if b reason).
Proof using. intros Ht Hf s Hs. unfold break_if. destruct (b s) eqn:Hb; simpl; auto. Qed.

#[local] Abbreviation Iterate :=
  (iterate (target:=target) mirostat_new draft decode_bytes special params n_ctx_slot).
#[local] Abbreviation Loop :=
  (run_loop (target:=target) mirostat_new draft decode_bytes special params n_ctx_slot).

Lemma loop_keeps fuel track (P Q : Run → Prop) (s : Run) x :
  preserves P Q (λ _, P) (Iterate track) → P s → Loop fuel track s = Some x →
  leaves (λ _ _, False) Q x.
Proof using.
  intros Hk. revert s. induction fuel as [|fuel IH]; intros s Hs; [done|]. rewrite loop_step.
  specialize (Hk s Hs). destruct (Iterate track s) as [[] s'| | |]; simpl in Hk; [by apply IH|..];
    by intros [= <-].
Qed.

(** [P] is about the cache, the record, the position, the output and the
    engine, and [Q] follows from it wherever a turn ends. *)
Record invariant (P Q : Run → Prop) : Prop := {
  inv_same s s' : P s → rn_cache s' = rn_cache s → rn_cached s' = rn_cached s →
    rn_pos s' = rn_pos s → rn_out s' = rn_out s → rn_engine s' = rn_engine s → P s';
  inv_end s k : P s → Q (set_pos k s);
  inv_say piece s : P s → full_up params (rn_out s) = false →
    match say (pr_stops params) piece (rn_out s) with
    | inl o => P (set_out o s)
    | inr (Ended _ _ o) | inr (Failed _ o) | inr (Crashed o) => ∀ k, Q (set_pos k (set_out o s))
    end
}.

Lemma pos_same (s : Run) : set_pos (rn_pos s) s = s.
Proof using. by destruct s. Qed.

Section invariants.
Context (P Q : Run → Prop) (Hinv : invariant P Q).

Lemma inv_stop s : P s → Q s.
Proof using Hinv. rewrite <-(pos_same s) at 2. apply Hinv. Qed.

Lemma ended_keeps {X} piece k v s (P' : X → Run → Prop) :
  P s → full_up params (rn_out s) = false → say (pr_stops params) piece (rn_out s) = inr v →
  leaves P' Q (ended k v s).
Proof using Hinv.
  intros Hs Hf Hv. pose proof (inv_say _ _ Hinv piece s Hs Hf) as H. rewrite Hv in H.
  destruct v; simpl; [by apply H|..]; rewrite <-(pos_same (set_out _ _)); apply H.
Qed.

Lemma said_keeps piece s o :
  P s → full_up params (rn_out s) = false → say (pr_stops params) piece (rn_out s) = inl o →
  P (set_out o s).
Proof using Hinv.
  intros Hs Hf Hv. pose proof (inv_say _ _ Hinv piece s Hs Hf) as H. by rewrite Hv in H.
Qed.

(** A batch says its tokens and touches nothing else but the position. *)
Lemma batch_keeps i toks : preserves P Q (λ _, P) (batch decode_bytes special params i toks).
Proof using Hinv.
  revert i. induction toks as [|tok toks IH]; intros i s Hs; [done|].
  cbn [batch]. unfold mbind at 1, stmt_bind at 1, break_at at 1. rewrite at_max_full.
  destruct (full_up params (rn_out s)) eqn:Hfull; [by apply Hinv|].
  unfold mbind at 1, stmt_bind at 1, break_at at 1. destruct (is_stop special tok); [by apply Hinv|].
  rewrite speak_eq. destruct (say _ _ _) as [o|v] eqn:Hsay.
  - apply IH. by eapply said_keeps.
  - by eapply ended_keeps.
Qed.

Lemma first_seed_keeps s :
  P s → full_up params (rn_out s) = false →
  leaves (λ _, P) Q (first_seed decode_bytes special params s).
Proof using Hinv.
  intros Hs Hf. rewrite first_seed_eq.
  destruct (sample_with_config_grammar _ _ _ _ _ _) as [[[[id m] gst] rng]| |]; [|by apply inv_stop..].
  assert (P (set_sampled m gst rng s)) as H1 by by eapply Hinv.
  cbn zeta. set (s1 := set_sampled m gst rng s) in *. destruct (is_stop special id); [by apply inv_stop|].
  assert (P (set_prev (push_capped (rn_prev s1) id) s1)) as H2 by by eapply Hinv.
  destruct (say _ _ _) as [o|v] eqn:Hsay.
  - simpl. by apply (said_keeps _ _ _ H2 Hf Hsay).
  - destruct (match_stop_suffix _ _);
      [by apply (ended_keeps _ _ _ _ _ H1 Hf Hsay)|by apply (ended_keeps _ _ _ _ _ H2 Hf Hsay)].
Qed.

End invariants.

Lemma invariant_at P Q p :
  invariant P Q → invariant (λ s, P s ∧ is_Some (rn_engine s) ∧ rn_pos s = p) Q.
Proof using.
  intros Hinv. split.
  - intros s s' (Hs & He & Hp) Hc Hr Hpos Ho Hen. rewrite Hpos, Hen. split; [by eapply Hinv|done].
  - intros s k (Hs & _). by apply Hinv.
  - intros piece s (Hs & He & Hp) Hf. pose proof (inv_say _ _ Hinv piece s Hs Hf) as H.
    destruct (say _ _ _) as [o|v]; [by split|done].
Qed.

Lemma run_round_next seed (s s' : Run) toks :
  run_round mirostat_new draft params n_ctx_slot seed s = Next toks s' →
  is_Some (rn_engine s') ∧ rn_pos s' = rn_pos s ∧ toks ≠ [].
Proof using.
  unfold run_round. destruct (rn_engine s) as [e|]; [|done].
  destruct (ro_tokens _) as [l|] eqn:Hl; [|done]. apply round_emits in Hl.
  intros [= <- <-]. split; [by eexists|done].
Qed.

Lemma take_seed_keeps P Q s :
  invariant P Q → P s → is_Some (rn_engine s) → full_up params (rn_out s) = false →
  leaves (λ _ s', P s' ∧ is_Some (rn_engine s') ∧ rn_pos s' = rn_pos s) Q
    (take_seed decode_bytes special params s).
Proof using.
  intros Hinv Hs He Hf. unfold take_seed. destruct (rn_seed s) as [id|].
  - simpl. split; [|done]. by eapply Hinv.
  - by apply (first_seed_keeps _ _ (invariant_at P Q (rn_pos s) Hinv)).
Qed.

(** ** Iterations *)
Section iterations.
Context (P Q : Run → Prop) (Hinv : invariant P Q) (track : bool).
Context (Hforward : ∀ id s, P s → rn_pos s < n_ctx_slot → rn_engine s = None →
  leaves (λ _, P) Q (forward_one n_ctx_slot track id s)).
Context (Hround : ∀ seed s, P s → rn_pos s < n_ctx_slot → is_Some (rn_engine s) →
  leaves (λ _, P) Q (run_round mirostat_new draft params n_ctx_slot seed s)).
Context (Hadvance : ∀ o n s, P s → is_Some (rn_engine s) → P (set_seed o (set_pos (rn_pos s + n) s))).

Lemma spec_keeps s :
  P s → rn_pos s < n_ctx_slot → is_Some (rn_engine s) → full_up params (rn_out s) = false →
  leaves (λ _, P) Q (spec_iteration mirostat_new draft decode_bytes special params n_ctx_slot s).
Proof using Hinv Hround Hadvance.
  intros Hs Hp He Hf. pose proof (take_seed_keeps P Q s Hinv Hs He Hf) as H.
  unfold spec_iteration. unfold mbind at 1, stmt_bind at 1.
  destruct (take_seed _ _ _ s) as [seed s1| | |]; simpl in H; [|done..].
  destruct H as (H1 & He1 & Hp1). unfold mbind at 1, stmt_bind at 1.
  pose proof (Hround seed s1 H1 ltac:(lia) He1) as H.
  destruct (run_round _ _ _ _ seed s1) as [toks s2| | |] eqn:Hr; simpl in H; [|done..].
  apply run_round_next in Hr as (He2 & _ & _). unfold mbind at 1, stmt_bind at 1.
  pose proof (batch_keeps _ _ (invariant_at P Q (rn_pos s2) Hinv) 0 toks s2 (conj H (conj He2 eq_refl))) as Hb.
  destruct (batch _ _ _ 0 toks s2) as [[] s3| | |]; simpl in Hb; [|done..].
  destruct Hb as (H3 & He3 & _). by apply Hadvance.
Qed.

Lemma plain_keeps s :
  P s → rn_pos s < n_ctx_slot → rn_engine s = None → full_up params (rn_out s) = false →
  leaves (λ _, P) Q (plain_iteration decode_bytes special params n_ctx_slot track s).
Proof using Hinv Hforward.
  intros Hs Hp He Hf. rewrite plain_iteration_eq.
  destruct (sample_with_config_grammar _ _ _ _ _ _) as [[[[id m] gst] rng]| |];
    [|by apply (inv_stop _ _ Hinv)..].
  assert (P (set_sampled m gst rng s)) as H1 by by eapply Hinv.
  cbn zeta. set (s1 := set_sampled m gst rng s) in *.
  destruct (is_stop special id); [by apply (inv_stop _ _ Hinv)|].
  assert (P (set_prev (push_capped (rn_prev s1) id) s1)) as H2 by by eapply Hinv.
  destruct (say _ _ _) as [o|v] eqn:Hsay.
  - apply Hforward; [|done..]. by apply (said_keeps _ _ Hinv _ _ _ H2 Hf Hsay).
  - by apply (ended_keeps _ _ Hinv _ _ _ _ _ H2 Hf Hsay).
Qed.

Lemma iterate_keeps : preserves P Q (λ _, P) (Iterate track).
Proof using All.
  intros s Hs. unfold iterate, iteration. unfold mbind at 1, stmt_bind at 1, break_if at 1.
  rewrite at_max_full. destruct (full_up params (rn_out s)) eqn:Hfull; [by apply (inv_stop _ _ Hinv)|].
  unfold mbind at 1, stmt_bind at 1, break_if at 1.
  destruct (Nat.leb_spec n_ctx_slot (rn_pos s)) as [|Hlt]; [by apply (inv_stop _ _ Hinv)|].
  destruct (rn_engine s) as [e|] eqn:He.
  - apply spec_keeps; [done|done|by rewrite He|done].
  - by apply plain_keeps.
Qed.
End iterations.
(** ** Every iteration moves on, and [max_tokens] bounds the count *)
Definition within (o : Output) : Prop :=
  (0 ≤ pr_max_tokens params → Z.of_nat (ot_count o) ≤ pr_max_tokens params)%Z.

Lemma say_within piece o :
  full_up params o = false →
  match say (pr_stops params) piece o with
  | inl o => within o
  | inr (Ended _ _ o) | inr (Failed _ o) | inr (Crashed o) => within o
  end.
Proof using.
  intros Hf. unfold say. set (o1 := add_token piece o).
  assert (within o1) as H1. { unfold within, full_up in *. simpl. lia. }
  assert (∀ upto, within (emit upto o1).2) as He.
  { intros upto. unfold emit. destruct (_ <? _); [|done]. by destruct (send _ _). }
  destruct (match_stop_suffix _ _) as [cut|].
  - specialize (He cut). by destruct (emit cut o1) as [[] o'].
  - specialize (He (complete_end o1)). by destruct (emit _ o1) as [[] o'].
Qed.

Lemma invariant_pos p : invariant (λ s, rn_pos s = p) (λ _, True).
Proof using.
  split; [by intros s s' <- _ _ -> _ _|done|]. intros piece s Hs _.
  by destruct (say _ _ _) as [o|[]].
Qed.

Lemma forward_one_moves track id (s s' : Run) :
  forward_one n_ctx_slot track id s = Next () s' → rn_pos s' = rn_pos s + 1.
Proof using.
  unfold forward_one. destruct (forward_graph_cached _ _ _ _ _) as [[l|] c]; [|done].
  intros [= <-]. by destruct track.
Qed.

Lemma iterate_moves track (s s' : Run) :
  Iterate track s = Next () s' → rn_pos s < n_ctx_slot ∧ rn_pos s < rn_pos s'.
Proof using.
  unfold iterate, iteration. unfold mbind at 1, stmt_bind at 1, break_if at 1.
  rewrite at_max_full. destruct (full_up params (rn_out s)) eqn:Hfull; [done|].
  unfold mbind at 1, stmt_bind at 1, break_if at 1.
  destruct (Nat.leb_spec n_ctx_slot (rn_pos s)) as [|Hlt]; [done|]. intros H. split; [done|]. revert H.
  destruct (rn_engine s) as [e|] eqn:He.
  - unfold spec_iteration. unfold mbind at 1, stmt_bind at 1.
    pose proof (take_seed_keeps _ _ s (invariant_pos (rn_pos s)) eq_refl ltac:(by rewrite He) Hfull) as H.
    destruct (take_seed _ _ _ s) as [seed s1| | |]; simpl in H; [|done..].
    destruct H as (Hp1 & _). unfold mbind at 1, stmt_bind at 1.
    destruct (run_round _ _ _ _ seed s1) as [toks s2| | |] eqn:Hr; [|done..].
    apply run_round_next in Hr as (_ & Hp2 & Hne). unfold mbind at 1, stmt_bind at 1.
    pose proof (batch_keeps _ _ (invariant_pos (rn_pos s2)) 0 toks s2 eq_refl) as Hb.
    destruct (batch _ _ _ 0 toks s2) as [[] s3| | |]; simpl in Hb; [|done..].
    intros [= <-]. cbn [rn_pos set_seed set_pos]. destruct toks; [done|]. simpl. lia.
  - rewrite plain_iteration_eq.
    destruct (sample_with_config_grammar _ _ _ _ _ _) as [[[[id m] gst] rng]| |]; [|done..].
    cbn zeta. destruct (is_stop special id); [done|].
    destruct (say _ _ _) as [o|[]]; [|done..]. intros H%forward_one_moves. rewrite H. simpl. lia.
Qed.

Lemma loop_ends fuel track (s : Run) :
  n_ctx_slot - rn_pos s < fuel → is_Some (Loop fuel track s).
Proof using.
  revert s. induction fuel as [|fuel IH]; intros s Hf; [lia|]. rewrite loop_step.
  destruct (Iterate track s) as [[] s'| | |] eqn:Hi; [|by eexists..].
  apply iterate_moves in Hi as [? ?]. apply IH. lia.
Qed.

Lemma invariant_within : invariant (λ s, within (rn_out s)) (λ s, within (rn_out s)).
Proof using.
  split; [by intros s s' Hs _ _ _ -> _|done|]. intros piece s _ Hf.
  pose proof (say_within piece (rn_out s) Hf) as H. by destruct (say _ _ _) as [o|[]].
Qed.

Lemma iterate_within track : preserves (λ s, within (rn_out s)) (λ s, within (rn_out s))
  (λ _ s, within (rn_out s)) (Iterate track).
Proof using.
  apply iterate_keeps; [apply invariant_within|..].
  - intros id s Hs _ _. unfold forward_one.
    destruct (forward_graph_cached _ _ _ _ _) as [[l|] c]; [|done]. by destruct track.
  - intros seed s Hs _ [e He]. unfold run_round. rewrite He. by destruct (ro_tokens _).
  - done.
Qed.

(** ** The record of the slot *)
Context `{!ModelLaws F C}.

(** With [track], one row per recorded token; without, no record. *)
Definition recorded (track : bool) (s : Run) : Prop :=
  if track then rn_engine s = None ∧ holds (rn_cache s) (rn_cached s) ∧ rn_pos s = length (rn_cached s)
  else rn_cached s = [].

Definition true_record (s : Run) : Prop :=
  holds (rn_cache s) (rn_cached s) ∧ length (rn_cached s) ≤ n_ctx_slot.

Definition tracking (track : bool) (s : Run) : Prop := recorded track s ∧ (track = true → rn_pos s ≤ n_ctx_slot).

Lemma tracking_true track s : tracking track s → true_record s.
Proof using.
  intros [H Hp]. unfold true_record. destruct track; simpl in H.
  - destruct H as (_ & Hh & Hl). rewrite <-Hl. auto.
  - rewrite H. split; [apply holds_nil|simpl; lia].
Qed.

Lemma invariant_record track : invariant (tracking track) true_record.
Proof using.
  split.
  - intros s s' [Hs Hp] Hc Hr Hpos _ He. unfold tracking, recorded in *. by rewrite Hc, Hr, Hpos, He.
  - intros s k Hs. by apply (tracking_true track s).
  - intros piece s Hs _. destruct (say _ _ _) as [o|v]; [exact Hs|].
    by destruct v; intros k; apply (tracking_true track s).
Qed.

Lemma iterate_record track : preserves (tracking track) true_record (λ _, tracking track) (Iterate track).
Proof using.
  apply iterate_keeps; [apply invariant_record|..].
  - intros id s Hs Hp He. unfold forward_one. destruct track.
    + destruct Hs as [(_ & Hh & Hl) _].
      pose proof (forward_spec (rn_cache s) (rn_cached s) [id] 1 n_ctx_slot Hh) as H.
      simpl in H. rewrite <-Hl in H.
      destruct (forward_graph_cached _ _ _ _ _) as [[l|] c]; simpl.
      * destruct H as [Hh' _]; [lia|lia|]. split; [|simpl; lia]. simpl. rewrite length_app. simpl.
        by rewrite Hl.
      * split; [apply H; lia|simpl; lia].
    + destruct Hs as [Hs _]. simpl in Hs.
      destruct (forward_graph_cached _ _ _ _ _) as [[l|] c]; simpl; [by split|].
      apply (tracking_true false). by split.
  - intros seed s [Hs Hp] _ [e He]. unfold run_round. rewrite He. destruct track; simpl in Hs.
    { destruct Hs as [? _]. congruence. }
    destruct (ro_tokens _); simpl; [by split|]. apply (tracking_true false). by split.
  - intros o n s [Hs Hp] [e He]. destruct track; simpl in Hs; [destruct Hs as [? _]; congruence|]. by split.
Qed.
End keeping.
