(* ===== verification/ToyModel.v ===== *)
(** * A small model for concrete runs

    Eight tokens; the next one is the sum of those before and their number, the
    cache is the list of its rows' tokens, and a forward of a token of [bad]
    panics after half its rows are written.  The draft counts up by two from its
    token. *)
From Stdlib Require Import ZArith Lia String Strings.Byte.
From coqutil Require Import Byte.
From stdpp Require Import base numbers list option.
From S2P Require Import Prelude Gguf Grammar Sampling Spec SpecFacts Chat.
Local Open Scope nat_scope.

#[export] Instance toy_floats : Floats nat := {| gt x y := y <? x; neg_inf := 0 |}.

(** Warm requests draw the greedy token and the generator counts. *)
#[export] Instance toy_maths : SamplerMaths nat unit unit nat := {|
  apply_deterministic_filters _ _ l := l;
  narrow _ l r := (l, S r);
  sample_temperature _ l r := (default 0 (sample_greedy l), r);
  sample_mirostat _ l m r := (default 0 (sample_greedy l), m, r)
|}.

#[export] Instance toy_maths_laws : SamplerLaws nat unit unit nat.
Proof. by split. Qed.

Definition one_hot (k : nat) : list nat := map (λ i, if i =? k then 2 else 1) (seq 0 8).

Definition toy_logits (h : list nat) : list nat := one_hot ((sum_list h + length h) mod 8).

Definition toy_rows (c : list nat) (p n n_out : nat) : list nat :=
  concat (map (λ i, toy_logits (take (p + i) c)) (seq (n - n_out + 1) n_out)).

(** The target. *)
Definition toy (bad : list nat) : ModelDef nat (list nat) := {|
  forward_graph_cached tokens positions n_out n_ctx c :=
    let p := default 0 (head positions) in
    if existsb (λ t, bool_decide (t ∈ bad)) tokens then (None, take p c ++ [9; 9])
    else let c := take p c ++ tokens in (Some (toy_rows c p (length tokens) n_out), c);
  n_vocab := 8
|}.

#[export] Instance toy_laws bad : @ModelLaws nat (list nat) (toy bad).
Proof.
  refine {| holds c h := take (length h) c = h; logits_after := toy_logits |}.
  - done.
  - intros c h h' H. rewrite <-(take_app_length h h') at 2. rewrite <-H, take_take. f_equal.
    rewrite length_app. lia.
  - done.
  - intros c h tokens n_out n_ctx Hc Ho _. simpl.
    assert (head (seq (length h) (length tokens)) = Some (length h)) as ->.
    { destruct tokens; simpl in *; [lia|done]. }
    simpl. destruct (existsb _ _).
    + by rewrite Hc, take_app_length.
    + rewrite Hc. split; [by rewrite firstn_all|]. unfold toy_rows. f_equal.
      apply map_ext. intros i. by rewrite take_app_add.
Defined.

Lemma toy_total : total (toy []).
Proof.
  intros tokens positions n_out n_ctx c. simpl.
  destruct (existsb _ _) eqn:H; [|by eexists]. by apply existsb_exists in H as (t & _ & H).
Qed.

Definition toy_draft : ModelDef nat nat := {|
  forward_graph_cached tokens _ _ _ c := (Some (one_hot ((default 0 (head tokens) + 2) `min` 7)), S c);
  n_vocab := 8
|}.

Lemma toy_draft_total : total toy_draft.
Proof. intros tokens positions n_out n_ctx c. by eexists. Qed.

(** Depths in turn. *)
#[export] Instance toy_depths : DepthController nat := {|
  pick horizon a := ((a mod 4) `min` horizon, S a);
  observe_draft _ a := a; observe_verify _ a := a; observe_round _ _ a := a
|}.

#[export] Instance toy_depths_laws : DepthLaws nat.
Proof. split. intros horizon a. simpl. lia. Qed.

Definition toy_engine : SpecEngine nat nat := mkEngine 0 4 (Some 3) (mkStats 0 0 0 0 0).

(** Token [t] is the letter [a + t]; 0 ends the turn. *)
Definition toy_bytes (t : nat) : bytes := [byte.of_Z (97 + Z.of_nat t)].
Definition toy_special : SpecialTokens := mkSpecial 0 None None None.

Definition toy_params (cold : bool) (stops : list bytes) (max_tokens : Z) : SamplingParams unit :=
  mkParams (mkConfig cold false None ()) stops max_tokens 7.

Definition toy_tx : Channel := mkChannel [] None.

Definition toy_generate (bad : list nat) (params : SamplingParams unit) (n_ctx_slot : nat)
    (input_ids : list nat) (c cached : list nat) : Left (C:=list nat) (D:=nat) (A:=nat) :=
  @generate _ _ _ _ _ _ _ _ _ (toy bad) _ (λ _, ()) (λ n, N.to_nat n) toy_draft toy_bytes toy_special
    false params n_ctx_slot input_ids c cached toy_tx.

Definition toy_spec (bad : list nat) (params : SamplingParams unit) (n_ctx_slot : nat)
    (input_ids : list nat) (c cached : list nat) : Left (C:=list nat) (D:=nat) (A:=nat) :=
  @generate_spec _ _ _ _ _ _ _ _ _ (toy bad) _ (λ _, ()) (λ n, N.to_nat n) toy_draft 0 toy_bytes
    toy_special false params n_ctx_slot input_ids c cached toy_tx toy_engine.
