(* ===== verification/ChatProps.v ===== *)
(** * Properties of a request

    A slot's record changes nothing, a draft changes nothing, and every job
    leaves the slot with a true record. *)
From Stdlib Require Import ZArith Lia String Strings.Byte.
From coqutil Require Import Byte.
From stdpp Require Import base numbers list option.
From S2P Require Import Prelude Gguf Grammar Sampling Spec SpecFacts Chat ChatFacts ChatKeep ToyModel.
Local Open Scope string_scope.
Local Open Scope list_scope.
Local Open Scope nat_scope.

Lemma common_prefix_take cached prompt :
  ∃ rest rest', let n := common_prefix_len cached prompt in
  cached = take n prompt ++ rest ∧ prompt = take n prompt ++ rest'.
Proof.
  revert prompt. induction cached as [|a cached IH]; intros [|b prompt]; simpl; [by do 2 eexists..|].
  destruct (Nat.eqb_spec a b) as [->|]; [|by do 2 eexists].
  destruct (IH prompt) as (r & r' & Hr & Hr'). exists r, r'. simpl. by rewrite <-Hr, <-Hr'.
Qed.

Section requests.
Context {F K M R C : Type} `{!Floats F, !SamplerMaths F K M R}.
Context `{target : !ModelDef F C, !ModelLaws F C}.
Context (mirostat_new : K → M) (seed_from_u64 : N → R).
Context (decode_bytes : nat → bytes) (special : SpecialTokens).
Context (params : SamplingParams K).

Lemma prefill_holds no_reuse n_ctx_slot {D A} (engine : option (SpecEngine D A)) input_ids cached c :
  holds c cached → 0 < length input_ids ≤ n_ctx_slot →
  match prefill n_ctx_slot (tracked no_reuse engine) input_ids cached c with
  | (Some logits, c') => holds c' input_ids ∧ logits = logits_after input_ids
  | (None, c') => holds c' (take (reused (tracked no_reuse engine) input_ids cached `min` (length input_ids - 1)) input_ids)
  end.
Proof using.
  intros Hc Hlen. unfold prefill, prefill_span.
  set (k := reused _ _ _). set (m := k `min` (length input_ids - 1)).
  assert (holds c (take m input_ids)) as Hm.
  { subst k m. unfold reused. destruct (tracked _ _); [|simpl; apply holds_nil].
    destruct (common_prefix_take cached input_ids) as (r & r' & Hr & _).
    apply (holds_prefix _ _ (drop (length input_ids - 1) (take (common_prefix_len cached input_ids) input_ids) ++ r)).
    rewrite (assoc_L (++)), Nat.min_comm, <-take_take, take_drop. by rewrite <-Hr. }
  pose proof (forward_spec c (take m input_ids) (drop m input_ids) 1 n_ctx_slot Hm) as H.
  rewrite length_take, length_drop in H. replace (m `min` length input_ids) with m in H by lia.
  destruct (forward_graph_cached _ _ _ _ _) as [[logits|] c']; rewrite ?take_drop in H;
    [|apply H; lia].
  destruct H as [Hh ->]; [lia|lia|]. split; [done|].
  replace (length input_ids - m - 1 + 1) with (length (drop m input_ids)) by (rewrite length_drop; lia).
  simpl. by rewrite firstn_all, take_drop, app_nil_r.
Qed.

(** What a request of [n] tokens at most is answered. *)
Definition reply (n : nat) (input_ids : list nat) (tx : Channel) : res ApiError unit * Channel :=
  match grammar_state params with
  | Ok gst => hang_up (pr_stops params)
      (serve (target:=target) decode_bytes special params n input_ids
         (recent_window input_ids REPEAT_LAST_N) (mirostat_new (sc_knobs (pr_config params))) gst
         (seed_from_u64 (pr_seed params)) (mkOutput [] 0 0 tx))
  | _ => (Panic, tx)
  end.

Context {D A : Type} `{!DepthController A} (draft : ModelDef F D) (draft_fresh : D).
Context (Htotal : total target).

Lemma seq_replies no_reuse n_ctx_slot input_ids c cached tx :
  holds c cached → 0 < length input_ids ≤ n_ctx_slot →
  let l := generate_seq (C:=C) (A:=A) mirostat_new seed_from_u64 draft decode_bytes special no_reuse params
             n_ctx_slot input_ids c cached tx None in
  (lf_result l, lf_tx l) = reply (n_ctx_slot - length input_ids) input_ids tx.
Proof using Htotal.
  intros Hc Hlen. unfold generate_seq.
  rewrite (proj2 (Nat.eqb_neq _ _)), (proj2 (Nat.ltb_ge _ _)) by lia.
  pose proof (prefill_holds no_reuse n_ctx_slot (D:=D) (A:=A) None input_ids cached c Hc Hlen) as Hp.
  set (track := tracked _ _) in *. unfold prefill in *.
  destruct (prefill_span _ _) as [from len].
  destruct (Htotal (drop from input_ids) (seq from len) 1 n_ctx_slot c) as [logits Hf].
  destruct (forward_graph_cached _ _ _ _ _) as [r c']. cbn [fst] in Hf. subst r.
  destruct Hp as [Hc' ->]. unfold reply, start.
  destruct (grammar_state params) as [gst|[]|]; [|done]. cbn [mbind res_bind].
  set (s := mkRun _ _ _ _ _ _ _ _ _ _ _).
  destruct (plain_serves mirostat_new draft decode_bytes special params n_ctx_slot Htotal
    (n_ctx_slot - length input_ids) (S n_ctx_slot) input_ids track s) as (x & Hx & Hs);
    [done|done|done|done|simpl; lia|lia|].
  unfold run_loop in Hx. rewrite Hx.
  destruct (finish_hangs_up params x _ Hs) as (y & -> & ->). done.
Qed.

Context `{!SamplerLaws F K M R, !DepthLaws A} (Hdraft : total draft).
Context (Hgr : sc_grammar (pr_config params) = None) (Hmi : sc_mirostat (pr_config params) = false).
Context (Hnv : 0 < n_vocab (ModelDef:=target)).

End requests.

(** ** Nothing but speed *)
Section answers.
Context {F K M R C D A : Type} `{!Floats F, !SamplerMaths F K M R}.
Context `{target : !ModelDef F C, !ModelLaws F C, !DepthController A}.
Context (mirostat_new : K → M) (seed_from_u64 : N → R) (draft : ModelDef F D) (draft_fresh : D).
Context (decode_bytes : nat → bytes) (special : SpecialTokens).

(** C11. Prefix reuse changes nothing a client can see: two slots that hold
    different rows, with true records, give the same request the same result
    and the same events, whether either reuses its rows or not. *)
Theorem reuse_changes_nothing params n_ctx_slot input_ids tx c1 cached1 no_reuse1 c2 cached2 no_reuse2 :
  total target → holds c1 cached1 → holds c2 cached2 →
  let run no_reuse := generate (C:=C) (A:=A) mirostat_new seed_from_u64 draft decode_bytes special
                        no_reuse params n_ctx_slot input_ids in
  let l1 := run no_reuse1 c1 cached1 tx in
  let l2 := run no_reuse2 c2 cached2 tx in
  lf_result l1 = lf_result l2 ∧ lf_tx l1 = lf_tx l2.
Proof.
  intros Ht H1 H2. simpl. unfold generate. destruct (Nat.eqb_spec (length input_ids) 0) as [|Hne]; [done|].
  destruct (Nat.ltb_spec n_ctx_slot (length input_ids)) as [Hlt|Hle].
  { unfold generate_seq. rewrite (proj2 (Nat.eqb_neq _ _)), (proj2 (Nat.ltb_lt _ _)) by done. done. }
  apply pair_equal_spec. rewrite !seq_replies by (done || lia). done.
Qed.

End answers.

(** ** The slots *)
Section slots.
Context {F K M R C D A : Type} `{!Floats F, !SamplerMaths F K M R}.
Context `{target : !ModelDef F C, !DepthController A}.
Context (mirostat_new : K → M) (seed_from_u64 : N → R) (draft : ModelDef F D) (draft_fresh : D).
Context (decode_bytes : nat → bytes) (special : SpecialTokens).

(** A turn ends, whatever the model, the draft, the sampler and the
    client do: from any state, at most one iteration per row of the slot's
    context and one more, and no more tokens said than [max_tokens] allows. *)
Theorem generation_ends params n_ctx_slot track
    (s : Run (F:=F) (M:=M) (R:=R) (C:=C) (D:=D) (A:=A)) :
  within params (rn_out s) →
  ∃ x, generation_loop mirostat_new draft decode_bytes special params n_ctx_slot (S n_ctx_slot) track s
       = Some x
  ∧ match x with
    | Next _ _ => False
    | Break _ _ s' | Fails _ s' | Unwinds s' => within params (rn_out s')
    end.
Proof.
  intros Hs.
  destruct (loop_ends mirostat_new draft decode_bytes special params n_ctx_slot (S n_ctx_slot) track s)
    as [x Hx]; [lia|].
  exists x. split; [exact Hx|].
  exact (loop_keeps _ _ _ _ _ _ _ _ _ _ s x
    (iterate_within mirostat_new draft decode_bytes special params n_ctx_slot track) Hs Hx).
Qed.

Context `{!ModelLaws F C}.

Lemma left_kept (params : SamplingParams K) n_ctx_slot (x y : outcome unit (F:=F) (M:=M) (R:=R) (C:=C) (D:=D) (A:=A)) :
  leaves (λ _ _, False) (true_record n_ctx_slot) x → finish_turn params (Some x) = Some y →
  holds (lf_cache (left_outcome y)) (lf_cached (left_outcome y))
  ∧ length (lf_cached (left_outcome y)) ≤ n_ctx_slot.
Proof using.
  destruct x as [|reason by_string s|e s|s]; [done| |by intros Hs [= <-]..].
  intros Hs [= <-]. unfold final_flush, flush_complete.
  destruct (_ <=? _); [exact Hs|]. destruct by_string; rewrite emit_to_run;
    by destruct (emit _ _) as [[] o].
Qed.

Definition slot_true (slot : Slot (C:=C)) : Prop :=
  sl_state slot = Idle ∧ holds (sl_cache slot) (sl_cached_tokens slot)
  ∧ length (sl_cached_tokens slot) ≤ sl_n_ctx_slot slot.

Lemma seq_record no_reuse params n_ctx_slot input_ids c cached tx engine :
  holds c cached → length cached ≤ n_ctx_slot →
  (∀ track, is_Some (prefill n_ctx_slot track input_ids cached c).1) →
  let l := generate_seq (C:=C) (A:=A) mirostat_new seed_from_u64 draft decode_bytes special no_reuse
             params n_ctx_slot input_ids c cached tx engine in
  lf_result l = Panic ∨ holds (lf_cache l) (lf_cached l) ∧ length (lf_cached l) ≤ n_ctx_slot.
Proof using.
  intros Hc Hl Hpre. unfold generate_seq.
  destruct (Nat.eqb_spec (length input_ids) 0); [by right|].
  destruct (Nat.ltb_spec n_ctx_slot (length input_ids)); [by right|].
  pose proof (prefill_holds no_reuse n_ctx_slot engine input_ids cached c Hc ltac:(lia)) as Hp.
  destruct (Hpre (tracked no_reuse engine)) as [logits Hf]. set (track := tracked _ _) in *.
  destruct (prefill _ _ _ _ _) as [r c']. cbn [fst] in Hf. subst r. destruct Hp as [Hc' _].
  destruct (start _ _ _ _ _ _ _ _) as [s|[]|] eqn:Hs; [|by left].
  assert (tracking n_ctx_slot track s) as Ht.
  { unfold start in Hs. destruct (grammar_state params); [|done..]. injection Hs as <-.
    split; [|simpl; lia]. unfold recorded. cbn [rn_cached rn_cache rn_engine rn_pos].
    subst track. unfold tracked. destruct engine; simpl; [done|]. by destruct no_reuse. }
  destruct (loop_ends mirostat_new draft decode_bytes special params n_ctx_slot (S n_ctx_slot) track s)
    as [x Hx]; [lia|].
  pose proof (loop_keeps _ _ _ _ _ _ _ _ _ _ s x
    (iterate_record mirostat_new draft decode_bytes special params n_ctx_slot track) Ht Hx) as Hq.
  unfold run_loop in Hx. rewrite Hx.
  destruct (finish_turn params (Some x)) as [y|] eqn:Hy; [|by destruct x].
  right. by eapply left_kept.
Qed.

Lemma new_slots_true fresh n_slots n_ctx_total : Forall slot_true (new_slots fresh n_slots n_ctx_total).
Proof using.
  unfold new_slots. apply Forall_replicate. split; [done|]. split; [apply holds_nil|simpl; lia].
Qed.

(** Every job leaves every slot idle, with a record that names rows its
    cache holds - whether it succeeds, is refused, loses its client, fails in
    a decode forward or panics - as long as the prefill's forward comes
    back. *)
Theorem serve_job_keeps_records no_reuse j slots specs :
  Forall slot_true slots →
  Forall (λ slot, ∀ track, is_Some
    (prefill (sl_n_ctx_slot slot) track (jb_input_ids j) (sl_cached_tokens slot) (sl_cache slot)).1) slots →
  let '(slots', specs', _) := serve_job (A:=A) mirostat_new seed_from_u64 draft draft_fresh decode_bytes
                                special no_reuse j slots specs in
  Forall slot_true slots' ∧ map sl_n_ctx_slot slots' = map sl_n_ctx_slot slots
  ∧ length specs' = length specs.
Proof.
  intros Hall Hpre. unfold serve_job. destruct (list_find is_idle slots) as [[idx slot]|] eqn:Hfind; [|done].
  apply list_find_Some in Hfind as (Hidx & _ & _).
  destruct (_ && _); [done|].
  rewrite Forall_lookup in Hall, Hpre. destruct (Hall _ _ Hidx) as (_ & Hc & Hl).
  set (l := match mjoin (specs !! idx) with Some _ => _ | None => _ end).
  assert (lf_result l = Panic ∨ holds (lf_cache l) (lf_cached l)
    ∧ length (lf_cached l) ≤ sl_n_ctx_slot slot) as Hleft.
  { subst l. destruct (mjoin _) as [e|].
    - unfold generate_spec. destruct (sc_grammar _); [by right|].
      destruct (_ =? 0); [by right|]. apply seq_record; [done|done|by eapply Hpre].
    - unfold generate. destruct (_ =? 0); [by right|]. apply seq_record; [done|done|by eapply Hpre]. }
  destruct (run_job_isolated l) as [completed tx] eqn:Hr.
  assert (completed = true → lf_result l ≠ Panic) as Hdone.
  { unfold run_job_isolated in Hr. intros -> Hp. by rewrite Hp in Hr. }
  split_and!.
  - apply Forall_lookup. intros i s' Hi. apply list_lookup_insert_Some in Hi as [(-> & <- & _)|(_ & Hi)];
      [|by eapply Hall].
    split; [done|]. simpl. destruct completed.
    + destruct Hleft as [Hp|Hleft]; [by destruct (Hdone eq_refl)|done].
    + split; [apply holds_nil|simpl; lia].
  - change (map ?f ?l) with (f <$> l). rewrite list_fmap_insert. simpl.
    apply list_insert_id. by rewrite list_lookup_fmap, Hidx.
  - by rewrite length_insert.
Qed.
End slots.

(** ** Witnesses *)
Lemma reuse_changes_nothing_witness :
  let params := toy_params true [] 5 in
  let l1 := toy_generate [] params 12 [2; 1; 3] [2; 1; 5; 6] [2; 1; 5; 6] in
  let l2 := toy_generate [] params 12 [2; 1; 3] [] [] in
  lf_result l1 = lf_result l2 ∧ lf_tx l1 = lf_tx l2.
Proof.
  apply (reuse_changes_nothing (target:=toy []) (λ _, ()) (λ n, N.to_nat n) toy_draft toy_bytes toy_special
    (toy_params true [] 5) 12 [2; 1; 3] toy_tx [2; 1; 5; 6] [2; 1; 5; 6] false [] [] false);
    [exact toy_total|reflexivity|reflexivity].
Defined.


(** At the end of the context the speculative request says one token more. *)
Example speculation_runs_one_over :
  let texts l := length (ch_sent (lf_tx l)) in
  texts (toy_spec [] (toy_params true [] 20) 12 [2; 1] [] []) = 12
  ∧ texts (toy_generate [] (toy_params true [] 20) 12 [2; 1] [] []) = 11.
Proof. vm_compute. done. Qed.

Definition toy_run (bad : list nat) (params : SamplingParams unit) : Run (F:=nat) (M:=unit) (R:=nat)
    (C:=list nat) (D:=nat) (A:=nat) :=
  mkRun (toy_logits [2; 1]) 2 [2; 1] [2; 1] [2; 1] () None 7 (mkOutput [] 0 0 toy_tx) None None.

Lemma generation_ends_witness :
  ∃ x, generation_loop (ModelDef0:=toy []) (λ _, ()) toy_draft toy_bytes toy_special (toy_params true [] 5) 12 13 true
         (toy_run [] (toy_params true [] 5)) = Some x
  ∧ match x with
    | Next _ _ => False
    | Break _ _ s' | Fails _ s' | Unwinds s' => within (toy_params true [] 5) (rn_out s')
    end.
Proof.
  apply (generation_ends (target:=toy []) (λ _, ()) toy_draft toy_bytes toy_special (toy_params true [] 5)
    12 true (toy_run [] (toy_params true [] 5))).
  unfold within. simpl. lia.
Defined.

Definition toy_slots (cached : list nat) : list (Slot (C:=list nat)) :=
  [mkSlot Idle cached cached 12; mkSlot Idle [] [] 12].

Definition toy_serve (bad : list nat) (input_ids : list nat) (slots : list (Slot (C:=list nat))) :
    list (Slot (C:=list nat)) * list (option (SpecEngine nat nat)) * Channel :=
  serve_job (ModelDef0:=toy bad) (λ _, ()) (λ n, N.to_nat n) toy_draft 0 toy_bytes toy_special false
    (mkJob 0 input_ids (toy_params true [] 5) toy_tx) slots [None; None].

Lemma serve_job_keeps_records_witness :
  let '(slots, specs, _) := toy_serve [7] [2; 1; 4] (toy_slots [2; 1; 5; 6]) in
  Forall (slot_true (ModelLaws0:=toy_laws [7])) slots
  ∧ map sl_n_ctx_slot slots = [12; 12] ∧ length specs = 2.
Proof.
  apply (serve_job_keeps_records (target:=toy [7]) (λ _, ()) (λ n, N.to_nat n) toy_draft 0 toy_bytes
    toy_special false (mkJob 0 [2; 1; 4] (toy_params true [] 5) toy_tx) (toy_slots [2; 1; 5; 6]) [None; None]).
  - repeat constructor; simpl; lia.
  - repeat constructor; intros []; eexists; vm_compute; reflexivity.
Defined.

(** A prefill that panics leaves a false record: the job is answered with
    an error, which counts as a completed job, so the record is kept although
    the rows after the common prefix were overwritten.  The next request that
    begins with the record reads those rows, and is answered otherwise than a
    fresh slot answers it. *)
Theorem prefill_panic_leaves_false_record :
  let '(slots, _, tx) := toy_serve [7] [2; 1; 7] (toy_slots [2; 1; 5; 6]) in
  ch_sent tx = [EvErr InferencePanicked]
  ∧ Forall (slot_true (ModelLaws0:=toy_laws [7])) (toy_slots [2; 1; 5; 6])
  ∧ ¬ Forall (slot_true (ModelLaws0:=toy_laws [7])) slots
  ∧ ch_sent (toy_serve [7] [2; 1; 5; 6; 2] slots).2
    ≠ ch_sent (toy_serve [7] [2; 1; 5; 6; 2] (toy_slots [])).2.
Proof.
  destruct (toy_serve [7] [2; 1; 7] (toy_slots [2; 1; 5; 6])) as [[slots specs] tx] eqn:He.
  vm_compute in He. injection He as <- _ <-. split_and!.
  - reflexivity.
  - repeat constructor; simpl; lia.
  - intros [(_ & H & _) _]%list.Forall_cons. discriminate H.
  - vm_compute. discriminate.
Qed.

(** A stop string in the middle of a token is not seen. *)
Example stop_inside_token_missed :
  match_stop_suffix (bstr "one. " ++ bstr "two") [bstr ". t"] = None
  ∧ match_stop_suffix (bstr "one. t") [bstr ". t"] = Some 3.
Proof. by vm_compute. Qed.
