(* ===== verification/ChatGrammar.v ===== *)
(** * Requests under a grammar

    The grammar a request compiles, the sampler's mask and the text that is
    streamed, put together: [constrained_turn] is what the client of a
    constrained request has when its turn ends. *)
From Stdlib Require Import ZArith Lia ZifyBool String Strings.Byte.
From coqutil Require Import Byte.
From stdpp Require Import base numbers list gmap option.
From S2P Require Import Prelude Gguf Utf8 Utf8Facts Gbnf Grammar GrammarRuns GrammarLang GrammarConsume GbnfFacts.
From S2P Require Import GrammarSessions Sampling Spec SpecFacts Chat ChatFacts ChatKeep ToyModel.

(** * The text of a request under a grammar

    [complete_utf8_prefix_len] finds the whole characters, [from_utf8_lossy]
    keeps them, and so the chunks a client receives make up exactly the whole
    characters said so far ([streamed]). *)
Local Open Scope Z_scope.

(** ** Whole characters *)
Lemma char_len_spec b :
  char_len b = if uz b <? 0x80 then 1%nat else if in_range 0xC0 0xDF (uz b) then 2%nat
               else if in_range 0xE0 0xEF (uz b) then 3%nat
               else if in_range 0xF0 0xF7 (uz b) then 4%nat else 1%nat.
Proof. by destruct b. Qed.

Lemma char_len_encode c b bs : scalar c → encode c = b :: bs → char_len b = length (encode c).
Proof.
  intros Hc He. unfold scalar in Hc. rewrite char_len_spec. unfold in_range. revert He. unfold encode.
  destruct (Z.ltb_spec c 0x80); [|destruct (Z.ltb_spec c 0x800); [|destruct (Z.ltb_spec c 0x10000)]];
    intros [= <- <-]; rewrite uz_of_Z by div_lia; simpl;
    repeat (case_match; try done); div_lia.
Qed.

Lemma utf8_step_encode c r : scalar c → utf8_step (encode c ++ r) = inl (length (encode c)).
Proof.
  intros Hc. unfold scalar in Hc. unfold encode.
  destruct (Z.ltb_spec c 0x80); [|destruct (Z.ltb_spec c 0x800); [|destruct (Z.ltb_spec c 0x10000)]];
    unfold utf8_step; simpl; unfold is_cont, in_range; rewrite !uz_of_Z by div_lia;
    repeat (case_match; try done); div_lia.
Qed.

Lemma lossy_encode_all u : Forall scalar u → from_utf8_lossy (encode_all u) = encode_all u.
Proof.
  intros Hu. unfold from_utf8_lossy.
  assert (∀ n, (length (encode_all u) ≤ n)%nat → utf8_lossy_loop n (encode_all u) = encode_all u) as H;
    [|by apply H].
  induction Hu as [|c u Hc _ IH]; intros n Hn; [by destruct n|].
  rewrite encode_all_cons in *. rewrite length_app in Hn. pose proof (length_encode c).
  pose proof (utf8_step_encode c (encode_all u) Hc) as Hs.
  destruct n as [|n]; [lia|]. destruct (encode c ++ encode_all u) as [|b bs] eqn:He.
  { apply app_nil in He as [He _]. rewrite He in *. simpl in *. lia. }
  cbn [utf8_lossy_loop]. rewrite Hs, <-He, take_app_length, drop_app_length. by rewrite IH by lia.
Qed.

(** The start of a character, or nothing. *)
Definition carried (p : bytes) : Prop := p = [] ∨ ∃ c, scalar c ∧ starts p c.

Lemma carried_not_whole c r p : scalar c → carried p → p ≠ encode c ++ r.
Proof.
  intros Hc [->|(c' & Hc' & rest & Hne & He)] H.
  - symmetry in H. apply app_nil in H as [H _]. pose proof (length_encode c) as Hl.
    rewrite H in Hl. simpl in Hl. lia.
  - rewrite H, <-(assoc_L (++)), <-(app_nil_r (encode c')) in He.
    apply encode_prefix_free in He as [_ He]; [|done..]. symmetry in He. by apply app_nil in He as [_ ->].
Qed.

Lemma complete_len_encode_all u p :
  Forall scalar u → carried p → complete_utf8_prefix_len (encode_all u ++ p) = length (encode_all u).
Proof.
  intros Hu Hp. unfold complete_utf8_prefix_len.
  assert (∀ n i, (length (encode_all u ++ p) ≤ n)%nat →
    complete_loop n (encode_all u ++ p) i = (i + length (encode_all u))%nat) as H; [|by rewrite H].
  induction Hu as [|c u Hc _ IH]; intros n i Hn.
  - change (encode_all [] ++ p) with p in *. change (length (encode_all [])) with 0%nat.
    destruct p as [|b p]; [destruct n; simpl; lia|]. destruct n as [|n]; [simpl in Hn; lia|].
    destruct Hp as [?|(c & Hc & rest & Hne & He)]; [done|]. cbn [complete_loop].
    rewrite (char_len_encode c b (p ++ rest)) by done. rewrite He, length_app.
    rewrite (proj2 (Nat.ltb_lt _ _)); [lia|]. destruct rest; [done|]. simpl. lia.
  - rewrite encode_all_cons, <-(assoc_L (++)) in *. rewrite !length_app in *. pose proof (length_encode c).
    destruct n as [|n]; [lia|]. destruct (encode c ++ encode_all u ++ p) as [|b bs] eqn:He.
    { apply app_nil in He as [He _]. rewrite He in *. simpl in *. lia. }
    cbn [complete_loop]. rewrite <-He.
    assert (char_len b = length (encode c)) as ->.
    { destruct (encode c) as [|b' bs'] eqn:Hb; [simpl in *; lia|]. injection He as <- _. rewrite <-Hb.
      by eapply char_len_encode. }
    rewrite (proj2 (Nat.ltb_ge _ _)) by (rewrite length_app; lia).
    rewrite drop_app_length, IH by (rewrite ?length_app; lia). lia.
Qed.

(** Two readings of the same bytes: the shorter is a prefix. *)
Lemma encode_all_extend u u' r p :
  Forall scalar u → Forall scalar u' → carried p → encode_all u ++ r = encode_all u' ++ p →
  ∃ v, u' = u ++ v ∧ Forall scalar v ∧ r = encode_all v ++ p.
Proof.
  intros Hu. revert u'. induction Hu as [|c u Hc _ IH]; intros u' Hu' Hp He; [by exists u'|].
  rewrite encode_all_cons, <-(assoc_L (++)) in He. destruct u' as [|c' u'].
  { simpl in He. symmetry in He. by apply carried_not_whole in He. }
  apply list.Forall_cons in Hu' as [Hc' Hu']. rewrite encode_all_cons, <-(assoc_L (++)) in He.
  apply encode_prefix_free in He as [<- He]; [|done..].
  destruct (IH u' Hu' Hp He) as (v & -> & ? & ->). by exists v.
Qed.

(** ** What was sent *)
Section streaming.
Context (sent0 : list StreamEvent).

(** The client has the whole characters [u] of the text, in chunks. *)
Record streamed (u : list Z) (o : Output) : Prop := {
  str_scalar : Forall scalar u;
  str_text : ∃ p, ot_full o = encode_all u ++ p ∧ carried p;
  str_emitted : ot_emitted o = length (encode_all u);
  str_sent : ∃ chunks, ch_sent (ot_tx o) = sent0 ++ map Text chunks ∧ concat chunks = encode_all u;
  str_left : ch_left (ot_tx o) = None
}.

Lemma send_stays ev ch : ch_left ch = None → send ev ch = (true, mkChannel (ch_sent ch ++ [ev]) None).
Proof using. intros H. unfold send. by rewrite H. Qed.

(** Flushing sends the characters completed since. *)
Lemma emit_streamed u v p o :
  Forall scalar u → Forall scalar v → carried p → ot_full o = encode_all (u ++ v) ++ p →
  ot_emitted o = length (encode_all u) → ch_left (ot_tx o) = None →
  (∃ chunks, ch_sent (ot_tx o) = sent0 ++ map Text chunks ∧ concat chunks = encode_all u) →
  ∃ o', emit (complete_end o) o = (true, o') ∧ streamed (u ++ v) o'
  ∧ ot_full o' = ot_full o ∧ ot_count o' = ot_count o.
Proof using.
  intros Hu Hv Hp Hf He Hl (chunks & Hs & Hc).
  assert (drop (ot_emitted o) (ot_full o) = encode_all v ++ p) as Hd.
  { by rewrite He, Hf, encode_all_app, <-(assoc_L (++)), drop_app_length. }
  unfold complete_end, emit. rewrite Hd, complete_len_encode_all, Nat.add_comm, Nat.add_sub by done.
  rewrite take_app_length.
  assert (Forall scalar (u ++ v)) as Huv by by apply list.Forall_app.
  destruct (Nat.ltb_spec (ot_emitted o) (length (encode_all v) + ot_emitted o)) as [Hlt|Hle].
  - rewrite send_stays, lossy_encode_all by done. eexists. split; [done|]. split; [|done].
    split; simpl; [done|by exists p| | |done].
    + rewrite He, encode_all_app, length_app. lia.
    + exists (chunks ++ [encode_all v]). rewrite Hs, map_app, <-(assoc_L (++)). split; [done|].
      by rewrite concat_app, Hc, encode_all_app; simpl; rewrite app_nil_r.
  - exists o. split; [done|]. split; [|done].
    assert (v = []) as ->. { apply encode_all_nil_inv. apply nil_length_inv. lia. }
    rewrite app_nil_r in *. split; [done|by exists p|done|by exists chunks|done].
Qed.

Lemma say_streamed piece u u' p' o :
  streamed u o → Forall scalar u' → carried p' → ot_full o ++ piece = encode_all u' ++ p' →
  ∃ o', say [] piece o = inl o' ∧ streamed u' o' ∧ ot_full o' = ot_full o ++ piece
  ∧ ot_count o' = (ot_count o + 1)%nat.
Proof using.
  intros [Hu (p & Hf & Hp) He Hs Hl] Hu' Hp' Htext.
  pose proof Htext as Hx. rewrite Hf, <-(assoc_L (++)) in Hx.
  destruct (encode_all_extend u u' (p ++ piece) p' Hu Hu' Hp' Hx) as (v & -> & Hv & _).
  unfold say, match_stop_suffix. simpl.
  destruct (emit_streamed u v p' (add_token piece o)) as (o' & -> & Ho & Hfull & Hcount); [done..|].
  exists o'. rewrite Hfull, Hcount. done.
Qed.

Lemma hang_up_streamed u reason o :
  streamed u o →
  ∃ chunks, hang_up [] (Ended reason false o)
    = (Ok (), mkChannel (sent0 ++ map Text chunks ++ [Finish reason (ot_count o)]) None)
  ∧ concat chunks = encode_all u.
Proof using.
  intros [Hu (p & Hf & Hp) He (chunks & Hs & Hc) Hl]. simpl.
  rewrite emit_up_to_date.
  - rewrite send_stays by done. exists chunks. by rewrite Hs, <-(assoc_L (++)).
  - unfold complete_end. rewrite He, Hf, drop_app_length.
    pose proof (complete_len_encode_all [] p ltac:(done) Hp) as H.
    change (complete_utf8_prefix_len p = 0%nat) in H. lia.
Qed.
End streaming.
Local Close Scope Z_scope.

(** * The turn of a constrained request *)
Local Open Scope string_scope.
Local Open Scope list_scope.
Local Open Scope nat_scope.

(** ** The vocabulary a request compiles against *)
Lemma elem_of_eog_list eog id : id ∈ eog_list eog ↔ eog !! id = Some true.
Proof.
  unfold eog_list. rewrite list_elem_of_omap. split.
  - intros ([i flag] & Hin & Hf). destruct flag; [|done]. injection Hf as ->.
    apply list_elem_of_lookup in Hin as [j Hj]. rewrite list_lookup_imap in Hj.
    by apply fmap_Some in Hj as (b & Hb & [= -> <-]).
  - intros H. exists (id, true). split; [|done]. apply list_elem_of_lookup. exists id.
    by rewrite list_lookup_imap, H.
Qed.

Lemma pieces_of_lookup decode_bytes n id p :
  pieces_of decode_bytes n !! id = Some (Some p) → decode_bytes id = p.
Proof.
  unfold pieces_of. change (map ?f ?l) with (f <$> l). rewrite list_lookup_fmap.
  intros (i & Hi & H)%fmap_Some. apply lookup_seq in Hi as [-> _]. simpl in H.
  destruct (decode_bytes id); [done|]. by injection H.
Qed.

Lemma eog_of_lookup special n id :
  id ∈ eog_list (eog_of special n) ↔ id < n ∧ (id = sp_eos special ∨ Some id = sp_im_end special).
Proof.
  rewrite elem_of_eog_list. unfold eog_of. change (map ?f ?l) with (f <$> l).
  rewrite list_lookup_fmap, fmap_Some. split.
  - intros (i & [-> Hi]%lookup_seq & H). simpl in H. split; [done|]. symmetry in H.
    apply orb_prop in H as [?%Nat.eqb_eq|?%bool_decide_eq_true]; auto.
  - intros [Hn H]. exists id. split; [by apply lookup_seq|]. symmetry. apply orb_true_iff.
    destruct H as [->| ->]; [left; by apply Nat.eqb_eq|right; by apply bool_decide_eq_true].
Qed.

Section constrained.
Context {F K M R C D A : Type} `{!Floats F, !SamplerMaths F K M R, target : !ModelDef F C, !DepthController A}.
Context (mirostat_new : K → M) (seed_from_u64 : N → R) (draft : ModelDef F D).
Context (decode_bytes : nat → bytes) (special : SpecialTokens) (n_vocab : nat).
Context (params : SamplingParams K) (n_ctx_slot : nat).
Context (source : list Z) (g : Grammar) (rs : list (list Z * Node)).
Context (Hb : built source (pieces_of decode_bytes n_vocab) (eog_of special n_vocab) g rs).
Context (Hg : sc_grammar (pr_config params) = Some g) (Hstops : pr_stops params = []).

(** The stop tokens are those the grammar was compiled with. *)
Definition stops_known : Prop :=
  ∀ id, id < n_vocab → is_stop special id = true → id = sp_eos special ∨ Some id = sp_im_end special.
Context (Hstop : stops_known).

Lemma eog_length : length (eog_of special n_vocab) = length (pieces_of decode_bytes n_vocab).
Proof using. unfold eog_of, pieces_of. by rewrite !length_map. Qed.

Lemma eog_stops id : id < n_vocab → (id ∈ eog_ids g ↔ is_stop special id = true).
Proof using Hb Hstop.
  intros Hid. rewrite (built_eog _ _ _ _ _ Hb), eog_of_lookup. split; [|by auto].
  intros [_ H]. unfold is_stop. destruct H as [->| ->].
  - by rewrite Nat.eqb_refl.
  - rewrite bool_decide_true by done. by rewrite orb_true_r.
Qed.

(** What a running state has said. *)
Lemma reached_said st ids :
  reached g st ids → done (inner st) = false →
  ∃ u p, Forall scalar u ∧ token_text g ids = encode_all u ++ p ∧ carried p.
Proof using Hb.
  intros Hr Hd. destruct (reached_sound _ _ _ _ _ Hb eog_length _ _ Hr) as [_ (body & Hrun & [_ He] & _) _].
  unfold run_of in Hrun. rewrite Hd in Hrun, He. subst body.
  destruct He as [(u & Hu & Ht & _) Hf]. exists u, (partial (inner st)). split_and!; [done|done|].
  destruct Hf as [->|(c & Hc & Hs & _)]; [by left|right; by exists c].
Qed.

(** The pipeline drew a token: the grammar took it. *)
Lemma sampled_accepted logits prev m st rng id m' gst rng' :
  sample_with_config_grammar (pr_config params) logits prev m (Some st) rng = Ok (id, m', gst, rng') →
  ∃ bits st1 st2, mask g st = Some (bits, st1) ∧ accept_token g st1 id = (Ok (), st2) ∧ gst = Some st2.
Proof using Hg.
  unfold sample_with_config_grammar, constrain. rewrite Hg. intros H.
  apply res_bind_ok in H as ([l con] & Hc & H).
  destruct (negb _); [done|]. destruct (mask g st) as [[bits st1]|]; [|done]. simpl in Hc.
  destruct (_ =? 0); [done|]. injection Hc as <- <-.
  apply res_bind_ok in H as ([[id' m1] r1] & _ & H).
  destruct (accept_token g st1 id') as [r st2] eqn:Ha.
  apply res_bind_ok in H as ([] & Hr & [= <- <- <- <-]). exists bits, st1, st2.
  destruct r as [[]|e|]; [done|done..].
Qed.

Lemma accepted_said st ids id st' :
  reached g st ids → done (inner st) = false → accept_token g st id = (Ok (), st') →
  id < n_vocab ∧
  ((id ∈ eog_ids g ∧ ∃ w, Forall scalar w ∧ token_text g ids = encode_all w
      ∧ matches (rule_body rs) (NRef (codes "root")) w)
   ∨ (¬ id ∈ eog_ids g ∧ done (inner st') = false ∧ pieces g !! id = Some (Some (decode_bytes id)))).
Proof using Hb.
  intros Hr Hd Ha.
  pose proof (session_wf _ _ _ _ _ Hb) as Hwf. pose proof (session_vocab _ _ _ _ _ Hb) as Hv.
  destruct (reached_sound _ _ _ _ _ Hb eog_length _ _ Hr) as [_ (body & Hrun & He & _) _].
  unfold run_of in Hrun. rewrite Hd in Hrun. subst body.
  assert (id < n_vocab) as Hid.
  { replace n_vocab with (Grammar.n_vocab g).
    - unfold accept_token in Ha. destruct (Nat.leb_spec (Grammar.n_vocab g) id); [done|lia].
    - rewrite (built_vocab _ _ _ _ _ Hb). unfold pieces_of. by rewrite length_map, length_seq. }
  split; [done|].
  pose proof (accept_token_spec g Hwf Hv _ _ _ id (start_closed _ _ _ _ _ Hb) He Hd) as H.
  rewrite Ha in H. destruct H as [(Hin & Hd' & _ & He')|(p & Hin & Hp & Hd' & _)].
  - left. split; [done|]. rewrite Hd' in He'. destruct He' as (w & Hw & Ht & Hlang).
    exists w. split_and!; [done..|]. by apply (proj2 (proj2 (start_spec _ _ _ _ _ Hb))).
  - right. split_and!; [done..|]. rewrite (built_pieces _ _ _ _ _ Hb) in *.
    by rewrite (pieces_of_lookup _ _ _ _ Hp).
Qed.

(** ** The loop under the grammar *)
#[local] Abbreviation Run := (Run (F:=F) (M:=M) (R:=R) (C:=C) (D:=D) (A:=A)).

(** The tokens [ids] were accepted, said and counted. *)
Record speaking (sent0 : list StreamEvent) (ids : list nat) (st : GrammarState) (s : Run) : Prop := {
  spk_engine : rn_engine s = None;
  spk_reached : reached g st ids;
  spk_going : done (inner st) = false;
  spk_text : ot_full (rn_out s) = token_text g ids;
  spk_streamed : ∃ u, streamed sent0 u (rn_out s);
  spk_count : ot_count (rn_out s) = length ids
}.

(** How a constrained turn ends: at a limit, at a stop token after a sentence,
    or where the pipeline finds no token. *)
Definition turn_over (sent0 : list StreamEvent) (reason : FinishReason) (s : Run) : Prop :=
  ∃ ids st, speaking sent0 ids st s ∧
  match reason with
  | FinLength => True
  | FinStop =>
      (∃ w, Forall scalar w ∧ token_text g ids = encode_all w
         ∧ matches (rule_body rs) (NRef (codes "root")) w)
      ∨ ∃ e, sample_with_config_grammar (pr_config params) (rn_logits s) (rn_prev s) (rn_mst s)
               (Some st) (rn_rng s) = Err e
  end.

Lemma loop_speaks fuel track sent0 ids st (s : Run) reason by_string s' :
  speaking sent0 ids st s → rn_gst s = Some st →
  run_loop mirostat_new draft decode_bytes special params n_ctx_slot fuel track s
    = Some (Break reason by_string s') →
  by_string = false ∧ turn_over sent0 reason s'.
Proof using Hb Hg Hstops Hstop.
  revert ids st s. induction fuel as [|fuel IH]; intros ids st s Hs Hst; [done|]. rewrite loop_step.
  unfold iterate, iteration. unfold mbind at 1, stmt_bind at 1, break_if at 1. rewrite at_max_full.
  destruct (full_up params (rn_out s)).
  { intros [= <- <- <-]. split; [done|]. by exists ids, st. }
  unfold mbind at 1, stmt_bind at 1, break_if at 1. destruct (_ <=? _).
  { intros [= <- <- <-]. split; [done|]. by exists ids, st. }
  rewrite (spk_engine _ _ _ _ Hs), plain_iteration_eq, Hst.
  destruct (sample_with_config_grammar _ _ _ _ _ _) as [[[[id m] gst] rng]|e|] eqn:Hsmp; [| |done].
  2: { intros [= <- <- <-]. split; [done|]. exists ids, st. split; [done|]. right. by exists e. }
  apply sampled_accepted in Hsmp as (bits & st1 & st2 & Hmask & Hacc & ->).
  pose proof (reached_mask _ _ _ _ _ (spk_reached _ _ _ _ Hs) Hmask) as Hr1.
  assert (done (inner st1) = false) as Hd1.
  { destruct (done (inner st1)) eqn:Hd; [|done]. by rewrite accept_token_after_end in Hacc. }
  destruct (accepted_said _ _ _ _ Hr1 Hd1 Hacc) as [Hid Hcases]. cbn zeta.
  destruct (is_stop special id) eqn:His.
  { intros [= <- <- <-]. split; [done|]. exists ids, st. split; [by destruct Hs|]. left.
    destruct Hcases as [[_ Hw]|[Hno _]]; [done|]. by apply (eog_stops id Hid) in His. }
  destruct Hcases as [[Hin _]|(Hno & Hd2 & Hpiece)]; [apply (eog_stops id Hid) in Hin; congruence|].
  pose proof (reached_token _ _ _ _ _ Hr1 Hacc) as Hr2.
  destruct (reached_said _ _ Hr2 Hd2) as (u & p & Hu & Ht & Hp).
  assert (token_text g (ids ++ [id]) = token_text g ids ++ decode_bytes id) as Hsplit.
  { rewrite token_text_app. unfold token_text at 2. simpl. by rewrite Hpiece, app_nil_r. }
  destruct (spk_streamed _ _ _ _ Hs) as [u0 Hstr]. rewrite Hstops. cbn [rn_out set_prev set_sampled].
  destruct (say_streamed sent0 (decode_bytes id) u0 u p (rn_out s)) as (o & -> & Ho & Hf & Hc); [done..| |].
  { by rewrite (spk_text _ _ _ _ Hs), <-Hsplit. }
  unfold forward_one. destruct (forward_graph_cached _ _ _ _ _) as [[l|] c]; [|done].
  destruct Hs. apply (IH (ids ++ [id]) st2); [|by destruct track].
  assert (ot_count o = length (ids ++ [id])) as Hcount by (rewrite length_app; simpl; lia).
  by destruct track; split; simpl; rewrite ?Hf; try congruence; eauto.
Qed.
End constrained.

Lemma carried_end u w p :
  Forall scalar u → Forall scalar w → carried p → encode_all w = encode_all u ++ p → p = [] ∧ w = u.
Proof.
  intros Hu Hw Hp He.
  destruct (encode_all_extend u w p [] Hu Hw) as (v & -> & Hv & ->); [by left|by rewrite app_nil_r|].
  destruct v as [|c v]; [split; [done|by rewrite app_nil_r]|]. apply list.Forall_cons in Hv as [Hc _].
  exfalso. rewrite encode_all_cons, <-(assoc_L (++)) in Hp. by eapply carried_not_whole.
Qed.

Section turns.
Context {F K M R C D A : Type} `{!Floats F, !SamplerMaths F K M R, target : !ModelDef F C, !DepthController A}.
Context (mirostat_new : K → M) (seed_from_u64 : N → R) (draft : ModelDef F D).
Context (decode_bytes : nat → bytes) (special : SpecialTokens).

(** C12. What a client has when the turn of a request under a grammar ends,
    whatever the model computes: text chunks that make up whole characters,
    all those of the tokens the grammar accepted, and the number of these.
    When the reason is [stop], the text is a sentence of the grammar, unless
    the pipeline found no token to go on with - if the model has no stop
    tokens but the ones the grammar was compiled with. *)
Theorem constrained_turn source g rs n_vocab params n_ctx_slot track input_ids (logits : list F) (c : C)
    cached tx (s0 s : Run (F:=F) (M:=M) (R:=R) (C:=C) (D:=D) (A:=A)) reason by_string :
  Forall cpt source → compile_source source decode_bytes n_vocab special = Ok g →
  parse source = Ok rs → stops_known special n_vocab →
  sc_grammar (pr_config params) = Some g → pr_stops params = [] → ch_left tx = None →
  start mirostat_new seed_from_u64 params input_ids logits c cached tx None = Ok s0 →
  generation_loop mirostat_new draft decode_bytes special params n_ctx_slot (S n_ctx_slot) track s0
    = Some (Break reason by_string s) →
  ∃ ids st u p chunks s',
  finish_turn params (Some (Break reason by_string s)) = Some (Next () s')
  ∧ ch_sent (ot_tx (rn_out s')) = ch_sent tx ++ map Text chunks ++ [Finish reason (length ids)]
  ∧ Forall scalar u ∧ concat chunks = encode_all u
  ∧ reached g st ids ∧ token_text g ids = encode_all u ++ p ∧ carried p
  ∧ (reason = FinStop →
       (p = [] ∧ matches (rule_body rs) (NRef (codes "root")) u)
       ∨ ∃ e, sample_with_config_grammar (pr_config params) (rn_logits s) (rn_prev s) (rn_mst s)
                (Some st) (rn_rng s) = Err e).
Proof.
  intros Hs Hg Hp Hstop Hgr Hstops Hleft Hstart Hloop.
  destruct (from_gbnf_built _ _ _ _ Hs Hg) as (rs' & Hb).
  assert (rs' = rs) as -> by (pose proof (built_parsed _ _ _ _ _ Hb); congruence).
  unfold start, grammar_state in Hstart. rewrite Hgr in Hstart.
  destruct (state g) as [st0| |] eqn:Hst0; [|done..]. injection Hstart as <-.
  match type of Hloop with generation_loop _ _ _ _ _ _ _ _ ?s0 = _ =>
    assert (speaking g (ch_sent tx) [] st0 s0) as H0 end.
  { destruct (start_state _ _ _ _ _ Hb _ Hst0) as (Hi & _).
    split; simpl; [done|by constructor|by rewrite Hi|done| |done].
    exists []. split; simpl; [done|exists []; split; [done|by left]|done| |done].
    exists []. split; [|done]. simpl. by rewrite app_nil_r. }
  destruct (loop_speaks mirostat_new draft decode_bytes special n_vocab params n_ctx_slot source g rs Hb Hgr
    Hstops Hstop (S n_ctx_slot) track (ch_sent tx) [] st0 _ reason by_string s H0 eq_refl Hloop)
    as (-> & ids & st & Hsp & Hr).
  destruct (spk_streamed _ _ _ _ _ Hsp) as [u Hu].
  destruct (hang_up_streamed _ u reason _ Hu) as (chunks & Hh & Hc).
  destruct (finish_hangs_up params (Break reason false s) _ eq_refl) as (y & Hy & Hl).
  rewrite Hstops, Hh in Hl. destruct y as [[] s'| | |]; try discriminate Hl. injection Hl as Hl.
  pose proof Hu as [Hus (p & Ht & Hpc) _ _ _]. rewrite (spk_text _ _ _ _ _ Hsp) in Ht.
  exists ids, st, u, p, chunks, s'. split; [exact Hy|]. split.
  { change (lf_tx (left_outcome (Next () s'))) with (ot_tx (rn_out s')) in Hl. rewrite Hl. simpl.
    by rewrite (spk_count _ _ _ _ _ Hsp). }
  split_and!; [done|done|apply Hsp|done|done|]. intros ->. destruct Hr as [(w & Hw & Hwt & Hm)|He]; [|by right].
  left. rewrite Ht in Hwt. symmetry in Hwt.
  destruct (carried_end u w p Hus Hw Hpc Hwt) as [-> ->]. done.
Qed.
End turns.

(** ** A constrained run of the small model *)
Definition toy_source : list Z := codes "root ::= [a-f] ([a-e] [h]?)*".
Definition no_grammar : Grammar :=
  {| rules := []; names := []; root := 0; Grammar.n_vocab := 0; pieces := []; eog_ids := [];
     Grammar.source := []; index := {| buckets := []; headless := [] |} |}.
Definition toy_grammar : Grammar :=
  match compile_source toy_source toy_bytes 8 toy_special with Ok g => g | _ => no_grammar end.
Definition toy_rules : list (list Z * Node) := match parse toy_source with Ok rs => rs | _ => [] end.

Definition toy_constrained (max_tokens : Z) : SamplingParams unit :=
  mkParams (mkConfig true false (Some toy_grammar) ()) [] max_tokens 7.

Definition toy_start (max_tokens : Z) : Run (F:=nat) (M:=unit) (R:=nat) (C:=list nat) (D:=nat) (A:=nat) :=
  match start (λ _, ()) (λ n, N.to_nat n) (toy_constrained max_tokens) [2; 1] (toy_logits [2; 1]) [2; 1]
          [2; 1] toy_tx None with
  | Ok s => s
  | _ => mkRun [] 0 [] [] [] () None 0 (mkOutput [] 0 0 toy_tx) None None
  end.

Definition toy_loop (max_tokens : Z) : option (outcome (F:=nat) (M:=unit) (R:=nat) (C:=list nat)
    (D:=nat) (A:=nat) unit) :=
  generation_loop (ModelDef0:=toy []) (λ _, ()) toy_draft toy_bytes toy_special (toy_constrained max_tokens)
    12 13 true (toy_start max_tokens).

Definition toy_end (max_tokens : Z) : Run (F:=nat) (M:=unit) (R:=nat) (C:=list nat) (D:=nat) (A:=nat) :=
  match toy_loop max_tokens with Some (Break _ _ s) => s | _ => toy_start max_tokens end.

Lemma toy_codepoints : Forall cpt toy_source.
Proof.
  apply list.Forall_forall. intros c Hc%list_elem_of_In.
  assert (forallb (λ c, (0 <=? c) && (c <? 0x110000))%Z toy_source = true) as H
    by (vm_compute; reflexivity).
  rewrite forallb_forall in H. specialize (H c Hc). unfold cpt. lia.
Qed.

Lemma constrained_turn_witness :
  ∃ ids st u p chunks s',
  finish_turn (toy_constrained 20) (Some (Break FinStop false (toy_end 20))) = Some (Next () s')
  ∧ ch_sent (ot_tx (rn_out s')) = ch_sent toy_tx ++ map Text chunks ++ [Finish FinStop (length ids)]
  ∧ Forall scalar u ∧ concat chunks = encode_all u
  ∧ reached toy_grammar st ids ∧ token_text toy_grammar ids = encode_all u ++ p ∧ carried p
  ∧ (FinStop = FinStop →
       (p = [] ∧ matches (rule_body toy_rules) (NRef (codes "root")) u)
       ∨ ∃ e, sample_with_config_grammar (pr_config (toy_constrained 20)) (rn_logits (toy_end 20))
                (rn_prev (toy_end 20)) (rn_mst (toy_end 20)) (Some st) (rn_rng (toy_end 20)) = Err e).
Proof.
  apply (constrained_turn (target:=toy []) (λ _, ()) (λ n, N.to_nat n) toy_draft toy_bytes toy_special
    toy_source toy_grammar toy_rules 8 (toy_constrained 20) 12 true [2; 1] (toy_logits [2; 1]) [2; 1] [2; 1]
    toy_tx (toy_start 20) (toy_end 20) FinStop false).
  - exact toy_codepoints.
  - vm_compute. reflexivity.
  - vm_compute. reflexivity.
  - intros id _ H. left. destruct id; [reflexivity|discriminate H].
  - reflexivity.
  - reflexivity.
  - reflexivity.
  - vm_compute. reflexivity.
  - vm_compute. reflexivity.
Defined.

(** A stop token the grammar was not compiled with is text to the mask, but
    ends the turn: the client is told [stop] after a text that is no
    sentence. *)
Example uncompiled_stop_cuts_sentence :
  let special := mkSpecial 0 None (Some 3) None in
  let source := codes "root ::= [a-f] [d] [h]" in
  let g := match compile_source source toy_bytes 8 special with Ok g => g | _ => no_grammar end in
  let params := mkParams (mkConfig true false (Some g) ()) [] 20%Z 7%N in
  ch_sent (lf_tx (@generate _ _ _ _ _ nat nat _ _ (toy []) _ (λ _, ()) (λ n, N.to_nat n) toy_draft toy_bytes special
    false params 12 [2; 1] [] [] toy_tx)) = [Text (bstr "f"); Finish FinStop 1].
Proof. vm_compute. reflexivity. Qed.
