(* ===== verification/KvFollow.v ===== *)
(** * What a caller that keeps a run's place may rely on

    The engine remembers where each of its runs starts and follows the moves an
    operation reports.  Here: those moves are exactly how the run table
    changed, no run changes its size, its prefix or its written rows on the
    way, and what each operation does to a store without shared prefixes,
    whether it succeeds or not. *)
From stdpp Require Import base numbers list gmap option sorting.
From S2P Require Import Prelude Slices KvCache KvFacts KvMoves KvPlans KvArena KvRows KvSteps KvProps.

(** ** Moves and places *)

Definition moved_start (ms : list KvMove) (sq : N) (start : nat) : nat :=
  foldl (λ st m, if (mv_seq m =? sq)%N then mv_to m else st) start ms.

(** Start, size, shared and written rows of a run. *)
Definition place (s : SeqSlot) : nat * nat * nat * nat :=
  (sl_start s, sl_cap s, sh_rows (sl_shared s), sl_written s).

Definition place_after (ms : list KvMove) (sq : N) (s : SeqSlot) : nat * nat * nat * nat :=
  (moved_start ms sq (sl_start s), sl_cap s, sh_rows (sl_shared s), sl_written s).

Definition follows (ms : list KvMove) (c c' : KvCache) : Prop :=
  ∀ sq, place <$> kv_seqs c' !! sq = place_after ms sq <$> kv_seqs c !! sq.

Lemma follows_refl c : follows [] c c.
Proof. done. Qed.

Lemma follows_trans ms ms' c c1 c2 :
  follows ms c c1 → follows ms' c1 c2 → follows (ms ++ ms') c c2.
Proof.
  intros H1 H2 sq. specialize (H1 sq). specialize (H2 sq). rewrite H2.
  destruct (kv_seqs c1 !! sq) as [s1|], (kv_seqs c !! sq) as [s|]; simpl in *; try done.
  injection H1 as E1 E2 E3 E4. unfold place_after, moved_start in *.
  by rewrite foldl_app, E1, E2, E3, E4.
Qed.

Lemma renumber_place m c others sq :
  place <$> kv_seqs (foldl (renumber_sharer m) c others) !! sq = place <$> kv_seqs c !! sq.
Proof.
  revert c. induction others as [|o others IH]; intros c; simpl; [done|].
  rewrite IH. unfold renumber_sharer. autorewrite with kv. simpl. rewrite lookup_alter.
  case_decide; [|done]. subst. by destruct (kv_seqs c !! _).
Qed.

Lemma apply_move_follows m c c' : apply_move m c = (Ok (), c') → follows [m] c c'.
Proof.
  unfold apply_move. destruct (update_all _ _) as [layers|]; [|done].
  set (c1 := refresh_spans _ _).
  assert (follows [m] c c1) as H1.
  { intros sq. unfold c1. autorewrite with kv. simpl. rewrite lookup_alter. unfold place_after.
    simpl. case_decide as Hs.
    - subst. rewrite N.eqb_refl. by destruct (kv_seqs c !! _).
    - rewrite (proj2 (N.eqb_neq _ _)) by done. by destruct (kv_seqs c !! _). }
  destruct (0 <? mv_rows m); [|by intros [= <-]].
  destruct (sharers_of _ _) as [l| |]; [|done..]. intros [= <-].
  intros sq. by rewrite renumber_place, H1.
Qed.

Lemma apply_move_list_follows ms c c' : apply_move_list ms c = (Ok (), c') → follows ms c c'.
Proof.
  revert c. induction ms as [|m ms IH]; intros c; simpl; [by intros [= <-]|].
  destruct (apply_move m c) as [[[]|e|] c1] eqn:Hm; [|done..]. intros H.
  apply (follows_trans [m]) with c1; [by apply apply_move_follows|by apply IH].
Qed.

Lemma apply_moves_follows ms c n c' : apply_moves ms c = (Ok n, c') → follows (order_moves ms) c c'.
Proof.
  unfold apply_moves. case_decide as Hn; [subst; by intros [= _ <-]|].
  destruct (mbind _ _); [|done..].
  destruct (apply_move_list _ c) as [[[]|e|] c1] eqn:Hm; [|done..]. intros [= _ <-].
  exact (apply_move_list_follows _ _ _ Hm).
Qed.

(** A table that follows only the empty list of moves has the same places. *)
Lemma follows_at ms c c' sq s :
  follows ms c c' → kv_seqs c !! sq = Some s →
  ∃ s', kv_seqs c' !! sq = Some s' ∧ sl_start s' = moved_start ms sq (sl_start s) ∧
    sl_cap s' = sl_cap s ∧ sh_rows (sl_shared s') = sh_rows (sl_shared s) ∧
    sl_written s' = sl_written s.
Proof.
  intros H Hs. specialize (H sq). rewrite Hs in H.
  destruct (kv_seqs c' !! sq) as [s'|]; simpl in H; [|done]. injection H as E1 E2 E3 E4. eauto 10.
Qed.

Lemma follows_none ms c c' sq : follows ms c c' → kv_seqs c !! sq = None → kv_seqs c' !! sq = None.
Proof.
  intros H Hs. specialize (H sq). rewrite Hs in H. by destruct (kv_seqs c' !! sq).
Qed.

(** ** Stores without shared prefixes *)

Definition unshared (c : KvCache) : Prop := map_Forall (λ _ s, sh_rows (sl_shared s) = 0) (kv_seqs c).

Lemma unshared_backed c : unshared c → backed (kv_seqs c).
Proof. apply backed_no_share. Qed.

Lemma unshared_no_donor c sq : unshared c → ¬ donates c sq.
Proof. intros H (s & a & b & _ & Ha & _ & Hr & _). specialize (H s a Ha). simpl in H. lia. Qed.

Lemma unshared_follows ms c c' : follows ms c c' → unshared c → unshared c'.
Proof.
  intros H Hu sq s' Hs'. simpl. specialize (H sq). rewrite Hs' in H.
  destruct (kv_seqs c !! sq) as [s|] eqn:Hs; simpl in H; [|done]. injection H as _ _ Hr _.
  rewrite Hr. exact (Hu sq s Hs).
Qed.

Lemma for_each_same {S A E B} (g : S → B) (f : A → S → res E unit * S) l s :
  (∀ x s, g (f x s).2 = g s) → g (for_each f l s).2 = g s.
Proof.
  intros Hf. revert s. induction l as [|x l IH]; intros s; simpl; [done|].
  specialize (Hf x s). destruct (f x s) as [[] s']; simpl in *; [by rewrite IH|done..].
Qed.

Section ops.
Context {W P : Type} `{!CellPool W P, !CellPoolLaws W P}.
Implicit Types (a : Alloc P).

Lemma copy_cells_kv b dst src d s n e a : ga_kv (copy_cells_in_pool b dst src d s n e a).2 = ga_kv a.
Proof using. unfold copy_cells_in_pool. repeat case_match; done. Qed.

Lemma copy_move_kv k v e m a : ga_kv (copy_move k v e m a).2 = ga_kv a.
Proof using.
  unfold copy_move. case_match; [done|].
  pose proof (for_each_same ga_kv (λ region, copy_cells_in_pool (br_backend region) region region
    (mv_to m) (mv_from m) (mv_rows m) e) [k; v] a) as Hkv.
  destruct (for_each _ _ _) as [r a']. simpl in *. apply Hkv. intros. apply copy_cells_kv.
Qed.

Lemma copy_moves_kv ms a : ga_kv (copy_moves ms a).2 = ga_kv a.
Proof using.
  unfold copy_moves. apply for_each_same. intros [[k v] e] a1. apply for_each_same.
  intros m a2. apply copy_move_kv.
Qed.

(** ** Compaction *)

Lemma kv_defrag_follows need a :
  arena_ok a →
  ∃ rep a', kv_defrag need a = (Ok rep, a') ∧ arena_ok a' ∧ reads_kept a a' ∧
    follows (rep_moves rep) (ga_kv a) (ga_kv a') ∧ kv_n_ctx (ga_kv a') = kv_n_ctx (ga_kv a).
Proof using All.
  intros Hok. destruct (kv_defrag_done need a Hok) as (rep & a' & Heq & Hm & Hd & Hok' & Hr).
  exists rep, a'. split_and!; [done..| |apply Hd].
  destruct (compaction_plan_for need (ga_kv a) (ao_wf _ Hok)) as (Hpf & Hplan & Hdown).
  revert Heq. unfold kv_defrag. case_decide as Hn.
  { intros [= <- <-]. simpl. by rewrite Hn. }
  pose proof (copy_moves_kv (compaction_plan need (ga_kv a)) a) as Hkv.
  destruct (copy_moves _ a) as [[[]|e|] a1]; [|done..]. simpl in Hkv. unfold on_kv. rewrite Hkv.
  destruct (apply_moves _ (ga_kv a)) as [[n|e|] c'] eqn:Ha; intros [= <- <-]. simpl.
  apply apply_moves_follows in Ha. rewrite Hplan, order_moves_down in Ha by (apply Hpf || done).
  by rewrite Hplan.
Qed.

(** ** Reservation *)

Lemma reserve_places c sq cap slot c' :
  kv_seqs c !! sq = None → reserve_seq sq cap c = (Ok slot, c') →
  kv_seqs c' = <[sq := slot]> (kv_seqs c) ∧ kv_n_ctx c' = kv_n_ctx c ∧ sl_cap slot = cap ∧
  sh_rows (sl_shared slot) = 0 ∧ sl_written slot = 0.
Proof using.
  intros Hn (st & -> & _ & _ & _ & ->)%reserve_fresh_inv; [|done]. by autorewrite with kv.
Qed.

(** What a reservation leaves of the other runs. *)
Record reserved_ok (sq : N) (cap : nat) (r : ares (SeqSlot * list KvMove)) a a' : Prop := {
  ro_ok : arena_ok a';
  ro_n_ctx : kv_n_ctx (ga_kv a') = kv_n_ctx (ga_kv a);
  ro_reads : reads_kept a a';
  ro_result : ∃ ms c, follows ms (ga_kv a) c ∧ kv_seqs c !! sq = None ∧
    match r with
    | Ok (slot, _) => kv_seqs (ga_kv a') = <[sq := slot]> (kv_seqs c) ∧ sl_cap slot = cap ∧
        sh_rows (sl_shared slot) = 0 ∧ sl_written slot = 0
    | Err _ => kv_seqs (ga_kv a') = kv_seqs c
    | Panic => False
    end
}.

Lemma kv_reserve_total sq cap a :
  arena_ok a → 0 < cap → kv_seqs (ga_kv a) !! sq = None →
  let '(r, a') := kv_reserve_seq_with_defrag true sq cap a in reserved_ok sq cap r a a'.
Proof using All.
  intros Hok Hcap Hnone. unfold kv_reserve_seq_with_defrag.
  destruct (reserve_seq sq cap (ga_kv a)) as [[slot|e|] c'] eqn:Hres.
  - destruct (set_kv_reserve a sq cap slot c' Hok Hnone Hres) as [Hok' Hr].
    destruct (reserve_places _ _ _ _ _ Hnone Hres) as (Hq & Hn & ?).
    split; [done|done|done|]. exists [], (ga_kv a). split; [apply follows_refl|by split].
  - apply reserve_fails in Hres as ->. replace (set_kv (ga_kv a) a) with a by by destruct a. simpl.
    destruct (kv_defrag_follows (Some cap) a Hok) as (rep & a1 & -> & Hok1 & Hr1 & Hf & Hn1).
    assert (kv_seqs (ga_kv a1) !! sq = None) as Hnone1 by by eapply follows_none.
    case_decide as Hnil.
    { split; [done..|]. exists (rep_moves rep), (ga_kv a1). by split; [|split]. }
    destruct (reserve_seq sq cap (ga_kv a1)) as [[slot|e2|] c2] eqn:Hres2; simpl.
    + destruct (set_kv_reserve a1 sq cap slot c2 Hok1 Hnone1 Hres2) as [Hok2 Hr2].
      destruct (reserve_places _ _ _ _ _ Hnone1 Hres2) as (Hq & Hn2 & ?).
      split; [done|simpl; congruence| |].
      * intros layer s pos Hpos. destruct (Hr1 layer s pos Hpos) as [<- <-]. apply Hr2.
        unfold written_rows in *. specialize (Hf s).
        destruct (kv_seqs (ga_kv a) !! s), (kv_seqs (ga_kv a1) !! s); simpl in *; try done; try lia.
        by injection Hf as _ _ _ ->.
      * exists (rep_moves rep), (ga_kv a1). by split; [|split].
    + apply reserve_fails in Hres2 as ->. replace (set_kv (ga_kv a1) a1) with a1 by by destruct a1.
      split; [done..|]. exists (rep_moves rep), (ga_kv a1). by split; [|split].
    + by apply reserve_no_panic in Hres2.
  - by apply reserve_no_panic in Hres.
Qed.

(** ** Resizing *)

Record resized_ok (sq : N) (cap : nat) (slot : SeqSlot) (r : ares (SeqSlot * list KvMove)) a a' : Prop := {
  rz_ok : arena_ok a';
  rz_n_ctx : kv_n_ctx (ga_kv a') = kv_n_ctx (ga_kv a);
  rz_reads : reads_kept a a';
  rz_result : match r with
    | Ok (slot', _) => ∃ ms c, follows ms c (ga_kv a') ∧ kv_seqs (ga_kv a') !! sq = Some slot' ∧
        kv_seqs c = <[sq := set_slot_cap cap slot]> (kv_seqs (ga_kv a))
    | Err _ => a' = a
    | Panic => False
    end
}.

Lemma set_cap_err sq cap c e c' : 0 < cap → set_cap sq cap c = (Err e, c') → c' = c.
Proof using.
  intros Hcap. unfold set_cap. rewrite (proj2 (Nat.eqb_neq cap 0)) by lia.
  destruct (kv_seqs c !! sq); [|by intros [= _ <-]]. repeat case_match; by intros [= <- <-].
Qed.

Lemma set_cap_no_panic sq cap c c' : set_cap sq cap c ≠ (Panic, c').
Proof using. unfold set_cap. repeat case_match; done. Qed.

Lemma kv_set_cap_total sq cap slot a :
  arena_ok a → 0 < cap → usize_sized (kv_n_ctx (ga_kv a) + cap) →
  kv_seqs (ga_kv a) !! sq = Some slot →
  let '(r, a') := kv_set_cap_with_defrag true sq cap a in resized_ok sq cap slot r a a'.
Proof using All.
  intros Hok Hcap Hsz Hs. unfold kv_set_cap_with_defrag, seq_slot. rewrite Hs. unfold on_kv.
  destruct (set_cap sq cap (ga_kv a)) as [[ms|e|] c1] eqn:Hset; simpl.
  2: { apply set_cap_err in Hset as ->; [|done]. replace (set_kv (ga_kv a) a) with a by by destruct a.
       by split. }
  2: { by apply set_cap_no_panic in Hset. }
  destruct (set_cap_ok_inv _ _ _ _ _ Hcap Hset) as (slot0 & Hs0 & Hcase).
  assert (slot0 = slot) as -> by congruence.
  destruct (set_cap_plan _ _ _ _ _ (ao_wf _ Hok) (ao_backed _ Hok) Hcap
    (sized_sum_fits _ _ _ _ (ao_wf _ Hok) Hs Hsz) Hset) as (ps & Harr & Hpf & ->).
  assert (kv_seqs c1 = <[sq := set_slot_cap cap slot]> (kv_seqs (ga_kv a))
          ∧ kv_layers c1 = kv_layers (ga_kv a) ∧ kv_n_ctx c1 = kv_n_ctx (ga_kv a)) as (Hq & Hl & Hn).
  { destruct Hcase as [(-> & _ & ->)|(-> & _)]; unfold resized; autorewrite with kv; [|done].
    split_and!; [|done..]. rewrite insert_id; [done|]. rewrite Hs. by destruct slot. }
  assert (private_written slot ≤ cap) as Hpw.
  { destruct (wf_slot _ _ _ (ao_wf _ Hok) Hs). unfold private_written in *.
    destruct Hcase as [(-> & _)|(_ & _ & [[_ H]|[H _]])]; lia. }
  assert (regions c1 = regions (ga_kv a)) as Hrg by (unfold regions; by rewrite Hl).
  assert (reads_kept a (set_kv c1 a)) as Hreads.
  { apply (resize_reads sq cap slot); try done. apply Harr. }
  destruct (copy_then_apply (set_kv c1 a) c1 ps) as (a1 & c' & Hcm & Hkv & Hap & Hd & Hok' & Hr);
    [simpl; rewrite Hrg; apply Hok|simpl; rewrite Hrg, Hn; apply Hok|simpl; rewrite Hrg; apply Hok|
     done..|].
  assert (is_Some (kv_seqs c' !! sq)) as [slot' Hs'].
  { pose proof (apply_moves_follows _ _ _ _ Hap sq) as Hf. rewrite Hq, lookup_insert_eq in Hf.
    by destruct (kv_seqs c' !! sq). }
  assert (reads_kept a (set_kv c' a1)) as Hall.
  { intros layer s pos Hpos. destruct (Hreads layer s pos Hpos) as [<- <-]. apply Hr.
    unfold written_rows in *. simpl. rewrite Hq, lookup_insert. case_decide; [|done].
    subst s. by rewrite Hs in Hpos. }
  case_decide as Hnil.
  - rewrite Hnil in *. simpl in *. rewrite copy_moves_nil in Hcm. injection Hcm as <-.
    injection Hap as <-. rewrite Hs'. split; simpl; [done|by rewrite Hn|done|].
    by exists [], c1.
  - rewrite Hcm, Hkv, apply_moves_ordered, Hap. simpl. rewrite Hs'. simpl.
    split; simpl; [done|by rewrite (pd_n_ctx _ _ _ Hd)|done|].
    exists (order_moves (moves_of ps)), c1. split_and!; [|done|done].
    by eapply apply_moves_follows.
Qed.

(** ** Release *)

Lemma kv_release_total sq a :
  arena_ok a → unshared (ga_kv a) →
  let a' := set_kv (release_seq sq (ga_kv a)).2 a in
  arena_ok a' ∧ kv_n_ctx (ga_kv a') = kv_n_ctx (ga_kv a) ∧
  kv_seqs (ga_kv a') = delete sq (kv_seqs (ga_kv a)) ∧
  ∀ layer s pos, s ≠ sq → pos < written_rows (ga_kv a) s →
    read_k a' layer s pos = read_k a layer s pos ∧ read_v a' layer s pos = read_v a layer s pos.
Proof using.
  intros Hok Hu. simpl. rewrite kv_seqs_release.
  destruct (sound_release (ga_kv a) sq) as [Hwf' Hb']; [split; apply Hok|by apply unshared_no_donor|].
  assert (kv_n_ctx (release_seq sq (ga_kv a)).2 = kv_n_ctx (ga_kv a)) as Hn.
  { unfold release_seq. case_match; simpl; by autorewrite with kv. }
  assert (layers_same (ga_kv a) (release_seq sq (ga_kv a)).2) as Hl.
  { intros k. unfold release_seq. case_match; simpl; [|by destruct (_ !! k)].
    autorewrite with kv. simpl. rewrite lookup_fmap. by destruct (kv_layers (ga_kv a) !! k). }
  pose proof (regions_same _ _ Hl) as Hrg. split_and!; [|done|done|].
  - split; simpl; rewrite ?Hrg, ?Hn; [done|done|apply Hok|apply Hok|apply Hok].
  - intros layer s pos Hs Hpos. unfold read_k, read_v, read_row. simpl. specialize (Hl layer).
    assert (cell_of (release_seq sq (ga_kv a)).2 s pos = cell_of (ga_kv a) s pos) as ->.
    { rewrite !cell_of_slot by (apply Hok || apply Hwf').
      rewrite kv_seqs_release, lookup_delete_ne by done. done. }
    destruct (kv_layers (ga_kv a) !! layer), (kv_layers (release_seq sq (ga_kv a)).2 !! layer);
      simpl in *; try done.
    destruct Hl as (Ek & Ev & Ee & En). unfold layer_elems. by rewrite Ek, Ev, Ee, En.
Qed.

(** ** Taking over a prefix *)

Lemma find_map_own (s : SeqSlot) i :
  sh_rows (sl_shared s) = 0 → i < sl_cap s →
  find_map (span_pos (sl_start s + i)) (spans_of_slot s) = Some i.
Proof using.
  intros Hs Hi. unfold spans_of_slot. rewrite Hs.
  rewrite (proj2 (Nat.ltb_lt 0 (sl_cap s))) by lia. simpl.
  rewrite (proj2 (Nat.leb_le _ _)), (proj2 (Nat.ltb_lt _ _)) by lia. simpl. f_equal. lia.
Qed.

Lemma raise_own c sq slot n w :
  coherent c → kv_seqs c !! sq = Some slot → sh_rows (sl_shared slot) = 0 → n ≤ sl_cap slot →
  raise_written c sq (sl_start slot) (sl_start slot + n) w = w `max` n.
Proof using.
  intros Hc Hs Hz Hn. unfold raise_written. replace (sl_start slot + n - sl_start slot) with n by lia.
  induction n as [|n IH]; [simpl; lia|].
  rewrite seq_S, foldl_app, IH by lia. simpl.
  rewrite (pos_of_cell_slot _ _ _ slot Hc Hs), find_map_own by (done || lia). lia.
Qed.

Lemma own_range_run c sq slot n :
  kv_wf c → kv_seqs c !! sq = Some slot → sh_rows (sl_shared slot) = 0 → n ≤ sl_cap slot →
  let c' := own_range sq (sl_start slot) (sl_start slot + n) c in
  kv_seqs c' = <[sq := set_written (sl_written slot `max` n) slot]> (kv_seqs c) ∧
  kv_n_ctx c' = kv_n_ctx c ∧ layers_same c c'.
Proof using.
  intros Hwf Hs Hz Hn. unfold own_range. set (c1 := set_layers _ c).
  assert (kv_seqs c1 !! sq = Some slot) as Hs1 by done. simpl.
  assert (written_rows c1 sq = sl_written slot) as -> by by unfold written_rows; rewrite Hs1.
  rewrite (raise_own c1 sq slot) by (done || apply Hwf). split_and!; [|done|].
  - apply map_eq. intros s. rewrite lookup_alter, lookup_insert. case_decide; [|done]. subst. by rewrite Hs.
  - intros k. simpl. rewrite lookup_fmap. by destruct (kv_layers c !! k).
Qed.

(** [dst] has the first [rows] rows of [src]; nobody else's changed. *)
Record copied_prefix (src dst : N) (rows : nat) a a' : Prop := {
  cx_ok : arena_ok a';
  cx_n_ctx : kv_n_ctx (ga_kv a') = kv_n_ctx (ga_kv a);
  cx_seqs : ∃ to, kv_seqs (ga_kv a) !! dst = Some to ∧
    kv_seqs (ga_kv a') = <[dst := set_written (sl_written to `max` rows) to]> (kv_seqs (ga_kv a));
  cx_others : ∀ layer s pos, s ≠ dst → pos < written_rows (ga_kv a) s →
    read_k a' layer s pos = read_k a layer s pos ∧ read_v a' layer s pos = read_v a layer s pos;
  cx_rows : ∀ layer pos, pos < rows →
    read_k a' layer dst pos = read_k a layer src pos ∧ read_v a' layer dst pos = read_v a layer src pos
}.

Lemma copied_prefix_intro src dst rows a from to a1 :
  arena_ok a → unshared (ga_kv a) → src ≠ dst →
  kv_seqs (ga_kv a) !! src = Some from → kv_seqs (ga_kv a) !! dst = Some to →
  rows ≤ sl_written from → rows ≤ sl_cap to →
  copied_all [mkMove 0 (sl_start from) (sl_start to) rows] (regions (ga_kv a)) (kv_n_ctx (ga_kv a)) a a1 →
  copied_prefix src dst rows a
    (set_kv (own_range dst (sl_start to) (sl_start to + rows) (ga_kv a)) a1).
Proof using.
  intros Hok Hu Hne Hf Ht Hrf Hrt Hc. pose proof (ao_wf _ Hok) as Hwf.
  pose proof (Hu src from Hf) as Hzf. pose proof (Hu dst to Ht) as Hzt. simpl in Hzf, Hzt.
  destruct (own_range_run (ga_kv a) dst to rows Hwf Ht Hzt Hrt) as (Hq & Hn & Hl).
  destruct (sound_own_range (ga_kv a) dst (sl_start to) (sl_start to + rows)) as [Hwf' Hb'];
    [split; apply Hok|].
  set (c' := own_range _ _ _ _) in *. clearbody c'. pose proof (regions_same _ _ Hl) as Hrg.
  destruct (wf_slot _ _ _ Hwf Hf), (wf_slot _ _ _ Hwf Ht).
  assert (∀ s b pos, kv_seqs (ga_kv a) !! s = Some b → slot_cell b pos = cell_of (ga_kv a) s pos) as Hcell.
  { intros s b pos Hb. by rewrite cell_of_slot, Hb by apply Hwf. }
  assert (∀ s b pos, kv_seqs (ga_kv a) !! s = Some b → cell_of c' s pos = slot_cell b pos) as Hcell'.
  { intros s b pos Hb. rewrite cell_of_slot, Hq, lookup_insert by apply Hwf'. case_decide; [|by rewrite Hb].
    subst. by simplify_eq. }
  assert (∀ (X : nat → option (list W)) i, moved_rows [mkMove 0 (sl_start from) (sl_start to) rows] X i =
    if decide (sl_start to ≤ i < sl_start to + rows) then X (sl_start from + (i - sl_start to)) else X i) as Hmv
    by done.
  assert (∀ (region : KvLayer → BufRef), region = lay_k ∨ region = lay_v →
    (∀ layer s pos, s ≠ dst → pos < written_rows (ga_kv a) s →
      read_row region (set_kv c' a1) layer s pos = read_row region a layer s pos) ∧
    (∀ layer pos, pos < rows →
      read_row region (set_kv c' a1) layer dst pos = read_row region a layer src pos)) as Hread.
  { intros region Hreg.
    assert (∀ layer l l', kv_layers (ga_kv a) !! layer = Some l → kv_layers c' !! layer = Some l' →
      ∀ i, region_row (set_kv c' a1) (region l') (layer_elems l') i =
        if decide (sl_start to ≤ i < sl_start to + rows)
        then region_row a (region l) (layer_elems l) (sl_start from + (i - sl_start to))
        else region_row a (region l) (layer_elems l) i) as Hrow.
    { intros layer l l' Hk Hk' i. pose proof (Hl layer) as H. rewrite Hk, Hk' in H. simpl in H.
      destruct H as (Ek & Ev & Ee & En). apply in_regions in Hk.
      assert (layer_elems l' = layer_elems l) as -> by (unfold layer_elems; congruence).
      assert (region l' = region l) as -> by (destruct Hreg as [->| ->]; done).
      change (region_row (set_kv c' a1)) with (region_row a1). rewrite <-Hmv.
      pose proof (ca_rows _ _ _ _ _ Hc _ i Hk) as Hr. destruct Hreg as [->| ->]; apply Hr. }
    assert (∀ layer, match kv_layers c' !! layer with
      | Some _ => is_Some (kv_layers (ga_kv a) !! layer) | None => kv_layers (ga_kv a) !! layer = None end) as Hdom.
    { intros layer. pose proof (Hl layer) as H.
      destruct (kv_layers c' !! layer), (kv_layers (ga_kv a) !! layer); simpl in *; by eauto. }
    split.
    - intros layer s pos Hs Hpos. unfold read_row. simpl. specialize (Hdom layer).
      destruct (kv_layers c' !! layer) as [l'|] eqn:Hk'; [|by rewrite Hdom].
      destruct Hdom as [l Hk]. rewrite Hk. simpl.
      unfold written_rows in Hpos. destruct (kv_seqs (ga_kv a) !! s) as [b|] eqn:Hb; simpl in Hpos; [|lia].
      rewrite (Hcell' s b pos Hb), (Hcell s b pos Hb).
      destruct (cell_of (ga_kv a) s pos) as [i|] eqn:Hi; simpl; [|done].
      rewrite (Hrow layer l l' Hk Hk'), decide_False; [done|]. intros Hin.
      pose proof (Hu s b Hb) as Hzb. simpl in Hzb. rewrite <-(Hcell s b pos Hb) in Hi.
      destruct (wf_slot _ _ _ Hwf Hb). rewrite slot_cell_private in Hi by lia. injection Hi as <-.
      pose proof (wf_disjoint _ Hwf s dst b to Hs Hb Ht) as Hd. unfold ranges_disjoint in Hd. lia.
    - intros layer pos Hpos. unfold read_row. simpl. specialize (Hdom layer).
      destruct (kv_layers c' !! layer) as [l'|] eqn:Hk'; [|by rewrite Hdom].
      destruct Hdom as [l Hk]. rewrite Hk. simpl.
      rewrite (Hcell' dst to pos Ht), <-(Hcell src from pos Hf), !slot_cell_private by lia. simpl.
      rewrite (Hrow layer l l' Hk Hk'), decide_True by lia. f_equal. lia. }
  destruct (Hread lay_k) as [K1 K2]; [by left|]. destruct (Hread lay_v) as [V1 V2]; [by right|].
  split.
  - split; simpl; rewrite ?Hrg, ?Hn; [done|done|apply Hok|apply Hc|apply Hok].
  - done.
  - exists to. split; [done|]. exact Hq.
  - intros layer s pos Hs Hpos. split; [by apply K1|by apply V1].
  - intros layer pos Hpos. split; [by apply K2|by apply V2].
Qed.

Lemma kv_copy_prefix_total src dst rows a :
  arena_ok a → unshared (ga_kv a) → src ≠ dst → 0 < rows →
  match kv_copy_prefix src dst rows a with
  | (Ok _, a') => copied_prefix src dst rows a a' ∧ rows ≤ written_rows (ga_kv a) src
  | (Err _, a') => a' = a
  | (Panic, _) => False
  end.
Proof using All.
  intros Hok Hu Hne Hrows. unfold kv_copy_prefix, seq_slot. rewrite (proj2 (Nat.eqb_neq _ _)) by lia.
  destruct (kv_seqs (ga_kv a) !! src) as [from|] eqn:Hf; [|done].
  destruct (0 <? sh_rows (sl_shared from)); [done|].
  destruct (kv_seqs (ga_kv a) !! dst) as [to|] eqn:Ht; [|done].
  assert (written_rows (ga_kv a) src = sl_written from) as Hw by by unfold written_rows; rewrite Hf.
  rewrite Hw. destruct (Nat.ltb_spec (sl_written from) rows); [done|].
  destruct (Nat.ltb_spec (sl_cap to) rows); [done|].
  destruct (wf_slot _ _ _ (ao_wf _ Hok) Hf), (wf_slot _ _ _ (ao_wf _ Hok) Ht).
  pose proof (Hu src from Hf) as Hzf. pose proof (Hu dst to Ht) as Hzt. simpl in Hzf, Hzt.
  pose proof (wf_disjoint _ (ao_wf _ Hok) src dst from to Hne Hf Ht) as Hd. unfold ranges_disjoint in Hd.
  destruct (Nat.eqb_spec (sl_start from) (sl_start to)); [lia|].
  destruct (copy_rows_ok (kv_n_ctx (ga_kv a)) (sl_start to) (sl_start from) rows a) as (a1 & -> & Hc);
    [apply Hok|apply Hok|apply Hok|lia|lia|].
  rewrite (ca_kv _ _ _ _ _ Hc). split; [|done]. by apply (copied_prefix_intro src dst rows a from to).
Qed.
End ops.
