(* ===== verification/BatchEngine.v ===== *)
(** * Continuous batching: [src/server/batch.rs]

    One arena holds a run per slot; a step of the engine carries every ready
    slot's pending token in one forward, then samples, says and queues the
    next token of each.  Admission places a job on the idle slot with the
    longest common prefix, takes rows over from other slots, makes room by
    releasing idle runs and feeds the rest in chunks, between which the other
    slots go on.  Logging, metrics readings, the live view and the snapshot
    file are left out; [be_answered] are the channels whose sender is gone, by
    request. *)
From Stdlib Require Import ZArith Strings.Byte.
From stdpp Require Import base numbers list option gmap.
From S2P Require Import Prelude Gguf Grammar KvCache KvArena Batch Sampling Chat.
Local Open Scope nat_scope.

Definition MAX_BATCH : nat := 16.
Definition MAX_PREFILL_BATCH : nat := 512.
Definition DEFAULT_PREFILL_CHUNK : nat := 2048.

(** ** Pure policies *)

Fixpoint chunk_loop (fuel at_ total chunk : nat) : list (nat * nat) :=
  match fuel with
  | O => []
  | S fuel =>
      if at_ <? total then
        let end_ := (at_ + chunk) `min` total in
        (at_, end_) :: chunk_loop fuel end_ total chunk
      else []
  end.

Definition prefill_chunks (from total chunk : nat) : list (nat * nat) :=
  if total <=? from then [] else
  if (chunk =? 0) || (total - from <=? chunk) then [(from, total)]
  else chunk_loop (total - from) from total chunk.

Definition wanted_cells_from (nt : nat) (max_tokens : Z) (slot_cap n_ctx_total : nat) : nat :=
  let headroom := if (max_tokens <? 0)%Z then slot_cap else Z.to_nat max_tokens in
  ((nt + headroom) `min` n_ctx_total) `max` nt.

(** ** The model and the sampler's row *)

(** [forward_batch] of [src/models/mod.rs] on the shared arena; [None] is a
    panic. *)
Class BatchModel (F P : Type) := {
  forward_batch : Batch → nat → nat → Alloc P → option (list F) * Alloc P
}.

Inductive StepOutcome := Continue | FinishWith (reason : FinishReason).

(** [MINFER_TEST_TICK]. *)
Inductive TickSeam := Off | Wedge | Spin.

Section engine.
Context {F K M R W P : Type}.
Context `{!Floats F, !SamplerMaths F K M R, !CellPool W P, !BatchModel F P}.
Context (mirostat_new : K → M) (seed_from_u64 : N → R).
Context (decode_bytes : nat → bytes) (special : SpecialTokens).
(** What the sampler's pipeline, which works in place, leaves of a row. *)
Context (spent : SamplerConfig K → list F → list nat → M → option GrammarState → R → list F).
(** [MINFER_NO_PREFIX_REUSE=1], [gathers_kv_map], whether compaction is on,
    whether several prompts may share a forward, and the test seam. *)
Context (no_prefix_reuse gathers defrag prefill_batch_ok : bool) (seam : TickSeam).

#[local] Abbreviation Job := (Job (K:=K)).

Record Run := mkRun {
  br_id : N;
  br_params : SamplingParams K;
  br_mst : M;
  br_gst : option GrammarState;
  br_rng : R;
  br_prev : list nat;
  br_out : Output;
  br_pos : nat;
  br_logits : list F;
  br_needs : option nat;
  br_progress : N
}.

Record SlotState := mkSlotState {
  ss_seq : N; ss_start : nat; ss_cap : nat; ss_cached : list nat; ss_run : option Run
}.

Record BatchEngine := mkBatchEngine {
  be_cache : Alloc P;
  be_n_ctx_total : nat;
  be_slots : list SlotState;
  be_prefix_rows_copied : nat;
  be_n_batch : nat;
  be_prefill_forwards : nat;
  be_prefill_max_nt : nat;
  be_prefill_fed : nat;
  be_interleaved_ticks : N;
  be_work_units : N;
  be_answered : list (N * Channel)
}.

Definition set_br_out (o : Output) (r : Run) : Run :=
  mkRun (br_id r) (br_params r) (br_mst r) (br_gst r) (br_rng r) (br_prev r) o (br_pos r)
    (br_logits r) (br_needs r) (br_progress r).
Definition set_br_needs (t : option nat) (r : Run) : Run :=
  mkRun (br_id r) (br_params r) (br_mst r) (br_gst r) (br_rng r) (br_prev r) (br_out r) (br_pos r)
    (br_logits r) t (br_progress r).
Definition set_br_progress (w : N) (r : Run) : Run :=
  mkRun (br_id r) (br_params r) (br_mst r) (br_gst r) (br_rng r) (br_prev r) (br_out r) (br_pos r)
    (br_logits r) (br_needs r) w.
(** The row of the pending token is there: its logits, the next position. *)
Definition set_br_row (logits : list F) (r : Run) : Run :=
  mkRun (br_id r) (br_params r) (br_mst r) (br_gst r) (br_rng r) (br_prev r) (br_out r) (br_pos r + 1)
    logits None (br_progress r).

Definition set_ss_start (x : nat) (s : SlotState) : SlotState :=
  mkSlotState (ss_seq s) x (ss_cap s) (ss_cached s) (ss_run s).
Definition set_ss_place (start cap : nat) (s : SlotState) : SlotState :=
  mkSlotState (ss_seq s) start cap (ss_cached s) (ss_run s).
Definition set_ss_cached (l : list nat) (s : SlotState) : SlotState :=
  mkSlotState (ss_seq s) (ss_start s) (ss_cap s) l (ss_run s).
Definition set_ss_run (r : option Run) (s : SlotState) : SlotState :=
  mkSlotState (ss_seq s) (ss_start s) (ss_cap s) (ss_cached s) r.

Definition set_cache (c : Alloc P) (e : BatchEngine) : BatchEngine :=
  mkBatchEngine c (be_n_ctx_total e) (be_slots e) (be_prefix_rows_copied e) (be_n_batch e)
    (be_prefill_forwards e) (be_prefill_max_nt e) (be_prefill_fed e) (be_interleaved_ticks e)
    (be_work_units e) (be_answered e).
Definition set_slots (l : list SlotState) (e : BatchEngine) : BatchEngine :=
  mkBatchEngine (be_cache e) (be_n_ctx_total e) l (be_prefix_rows_copied e) (be_n_batch e)
    (be_prefill_forwards e) (be_prefill_max_nt e) (be_prefill_fed e) (be_interleaved_ticks e)
    (be_work_units e) (be_answered e).
Definition set_prefill_chunk (n : nat) (e : BatchEngine) : BatchEngine :=
  mkBatchEngine (be_cache e) (be_n_ctx_total e) (be_slots e) (be_prefix_rows_copied e) n
    (be_prefill_forwards e) (be_prefill_max_nt e) (be_prefill_fed e) (be_interleaved_ticks e)
    (be_work_units e) (be_answered e).
Definition count_rows_copied (n : nat) (e : BatchEngine) : BatchEngine :=
  mkBatchEngine (be_cache e) (be_n_ctx_total e) (be_slots e) (be_prefix_rows_copied e + n)
    (be_n_batch e) (be_prefill_forwards e) (be_prefill_max_nt e) (be_prefill_fed e)
    (be_interleaved_ticks e) (be_work_units e) (be_answered e).
Definition count_prefill (nt : nat) (e : BatchEngine) : BatchEngine :=
  mkBatchEngine (be_cache e) (be_n_ctx_total e) (be_slots e) (be_prefix_rows_copied e)
    (be_n_batch e) (be_prefill_forwards e + 1) (be_prefill_max_nt e `max` nt) (be_prefill_fed e)
    (be_interleaved_ticks e) (be_work_units e) (be_answered e).
Definition count_fed (n : nat) (e : BatchEngine) : BatchEngine :=
  mkBatchEngine (be_cache e) (be_n_ctx_total e) (be_slots e) (be_prefix_rows_copied e)
    (be_n_batch e) (be_prefill_forwards e) (be_prefill_max_nt e) (be_prefill_fed e + n)
    (be_interleaved_ticks e) (be_work_units e) (be_answered e).
Definition count_interleaved (e : BatchEngine) : BatchEngine :=
  mkBatchEngine (be_cache e) (be_n_ctx_total e) (be_slots e) (be_prefix_rows_copied e)
    (be_n_batch e) (be_prefill_forwards e) (be_prefill_max_nt e) (be_prefill_fed e)
    (be_interleaved_ticks e + 1) (be_work_units e) (be_answered e).
Definition add_work (n : N) (e : BatchEngine) : BatchEngine :=
  mkBatchEngine (be_cache e) (be_n_ctx_total e) (be_slots e) (be_prefix_rows_copied e)
    (be_n_batch e) (be_prefill_forwards e) (be_prefill_max_nt e) (be_prefill_fed e)
    (be_interleaved_ticks e) (be_work_units e + n) (be_answered e).
(** The job's sender is dropped. *)
Definition drop_sender (id : N) (tx : Channel) (e : BatchEngine) : BatchEngine :=
  mkBatchEngine (be_cache e) (be_n_ctx_total e) (be_slots e) (be_prefix_rows_copied e)
    (be_n_batch e) (be_prefill_forwards e) (be_prefill_max_nt e) (be_prefill_fed e)
    (be_interleaved_ticks e) (be_work_units e) (be_answered e ++ [(id, tx)]).

Definition on_slot (idx : nat) (f : SlotState → SlotState) (e : BatchEngine) : BatchEngine :=
  set_slots (alter f idx (be_slots e)) e.

(** ** Operations of the engine *)

Definition op (A : Type) : Type := BatchEngine → res ApiError A * BatchEngine.
#[export] Instance op_ret : MRet op := λ A x e, (Ok x, e).
#[export] Instance op_bind : MBind op := λ A B f m e,
  match m e with
  | (Ok x, e) => f x e
  | (Err er, e) => (Err er, e)
  | (Panic, e) => (Panic, e)
  end.

Definition modify (f : BatchEngine → BatchEngine) : op unit := λ e, (Ok (), f e).
Definition get {A} (f : BatchEngine → A) : op A := λ e, (Ok (f e), e).

Definition throw {A} (er : ApiError) : op A := λ e, (Err er, e).

(** [self.slots[idx]]. *)
Definition slot_at (idx : nat) : op SlotState := λ e, (or_panic (be_slots e !! idx), e).

(** An operation of the arena whose error the engine only logs. *)
Definition attempt {A} (f : Alloc P → ares A * Alloc P) : op (option A) := λ e,
  let '(r, c) := f (be_cache e) in
  (match r with Ok a => Ok (Some a) | Err _ => Ok None | Panic => Panic end, set_cache c e).

Definition guarded_forward_batch (b : Batch) : op (list F) := λ e,
  let '(r, c) := forward_batch b 1 (be_n_ctx_total e) (be_cache e) in
  (match r with Some logits => Ok logits | None => Err InferencePanicked end, set_cache c e).

(** The error is answered on the job's own channel and handed back. *)
Definition reject {A} (job : Job) (er : ApiError) : op A := λ e,
  (Err er, drop_sender (jb_id job) (send (EvErr er) (jb_tx job)).2 e).

Definition running (s : SlotState) : bool := bool_decide (is_Some (ss_run s)).
Definition busy (e : BatchEngine) : bool := existsb running (be_slots e).
Definition running_slots (e : BatchEngine) : nat := length (List.filter running (be_slots e)).
Definition idle_slots (e : BatchEngine) : nat := length (be_slots e) - running_slots e.

Definition has_pending_decode (e : BatchEngine) : bool :=
  existsb (λ s, match ss_run s with
                | Some r => bool_decide (is_Some (br_needs r))
                | None => false
                end) (be_slots e).

(** ** Room *)

Definition apply_run_moves (slots : list SlotState) (moves : list KvMove) : list SlotState :=
  foldl (λ slots m,
    match list_find (λ s, ss_seq s = mv_seq m) slots with
    | Some (i, _) => alter (set_ss_start (mv_to m)) i slots
    | None => slots
    end) slots moves.

(** A run that was reserved or resized: the moves, then the slot's own. *)
Definition adopt (idx : nat) (slot : SeqSlot) (moves : list KvMove) : op unit :=
  _ ← modify (λ e, set_slots (apply_run_moves (be_slots e) moves) e);
  modify (on_slot idx (set_ss_place (sl_start slot) (sl_cap slot))).

Definition free_cells (e : BatchEngine) : nat := st_free_cells (arena_stats (ga_kv (be_cache e))).

Definition release (j : nat) (s : SlotState) (e : BatchEngine) : BatchEngine :=
  let c := be_cache e in
  on_slot j (λ s, set_ss_cached [] (set_ss_place (ss_start s) 0 s))
    (set_cache (set_kv (release_seq (ss_seq s) (ga_kv c)).2 c) e).

Fixpoint reclaim (idx need : nat) (js : list nat) (e : BatchEngine) : BatchEngine :=
  match js with
  | [] => e
  | j :: js =>
      match be_slots e !! j with
      | None => e
      | Some s =>
          if (j =? idx) || running s || (ss_cap s =? 0) then reclaim idx need js e else
          if need <=? free_cells e then e else reclaim idx need js (release j s e)
      end
  end.

Definition ensure_slot_capacity (idx want : nat) : op unit :=
  n_ctx ← get be_n_ctx_total;
  s ← slot_at idx;
  let want := want `min` n_ctx in
  if (want =? 0) || (want <=? ss_cap s) then mret () else
  if ss_cap s =? 0 then
    r ← attempt (kv_reserve_seq_with_defrag defrag (ss_seq s) want);
    match r with Some (slot, moves) => adopt idx slot moves | None => mret () end
  else
    _ ← modify (λ e, reclaim idx (want - ss_cap s) (seq 0 (length (be_slots e))) e);
    r ← attempt (kv_set_cap_with_defrag defrag (ss_seq s) want);
    match r with Some (slot, moves) => adopt idx slot moves | None => mret () end.

Definition wanted_cells (idx nt : nat) (max_tokens : Z) : op nat :=
  s ← slot_at idx;
  get (λ e, wanted_cells_from nt max_tokens (ss_cap s) (be_n_ctx_total e)).

(** ** Prefixes *)

Definition feed_span (s : SlotState) (input_ids : list nat) : nat * nat :=
  prefill_span (length input_ids)
    (if no_prefix_reuse then 0 else common_prefix_len (ss_cached s) input_ids).

Fixpoint best_donor (idx usable : nat) (prompt : list nat) (j : nat) (slots : list SlotState)
    (best : nat * option nat) : nat * option nat :=
  match slots with
  | [] => best
  | s :: slots =>
      let n := common_prefix_len (ss_cached s) prompt `min` usable in
      best_donor idx usable prompt (S j) slots
        (if (j =? idx) || (length (ss_cached s) =? 0) then best
         else if best.1 <? n then (n, Some j) else best)
  end.

Definition shared_prefix (idx : nat) (prompt : list nat) (own : nat) (e : BatchEngine) :
    nat * option nat :=
  if (own =? 0) && no_prefix_reuse then (0, None) else
  let usable := length prompt - 1 in
  best_donor idx usable prompt 0 (be_slots e) (own `min` usable, None).

Definition copy_prefix_from (src idx rows own : nat) : op nat :=
  from ← slot_at src;
  to ← slot_at idx;
  r ← (if gathers then r ← attempt (kv_share_prefix (ss_seq from) (ss_seq to) rows);
                       mret (option_map (λ _, ()) r)
       else attempt (kv_copy_prefix (ss_seq from) (ss_seq to) rows));
  match r with
  | Some _ =>
      _ ← modify (on_slot idx (set_ss_cached (take rows (ss_cached from))));
      _ ← modify (count_rows_copied rows);
      mret rows
  | None => mret own
  end.

(** Where the feeding of a prompt starts on a slot. *)
Definition feed_from (idx : nat) (input_ids : list nat) : op nat :=
  s ← slot_at idx;
  let own := (feed_span s input_ids).1 in
  '(rows, donor) ← get (shared_prefix idx input_ids own);
  match donor with
  | Some src => copy_prefix_from src idx rows own
  | None => mret rows
  end.

(** ** The end of a run *)

Definition fail (idx : nat) (er : ApiError) (e : BatchEngine) : BatchEngine :=
  match be_slots e !! idx with
  | None => e
  | Some s =>
      let e := match ss_run s with
               | Some r => drop_sender (br_id r) (send (EvErr er) (ot_tx (br_out r))).2 e
               | None => e
               end in
      on_slot idx (λ s, set_ss_cached [] (set_ss_run None s)) e
  end.

Definition fail_batch (rows : list nat) (er : ApiError) (e : BatchEngine) : BatchEngine :=
  foldl (λ e idx, fail idx er e) e rows.

(** One turn of a failing loop. *)
Definition fail_if (p : SlotState → bool) (er : ApiError) (acc : nat * BatchEngine) (idx : nat) :
    nat * BatchEngine :=
  match be_slots acc.2 !! idx with
  | Some s => if p s then (acc.1 + 1, fail idx er acc.2) else acc
  | None => acc
  end.

Definition fail_where (p : SlotState → bool) (er : ApiError) (e : BatchEngine) : nat * BatchEngine :=
  foldl (fail_if p er) (0, e) (seq 0 (length (be_slots e))).

Definition fail_all (er : ApiError) (e : BatchEngine) : nat * BatchEngine := fail_where running er e.

Definition fail_lagging_runs (limit : N) (er : ApiError) (e : BatchEngine) : nat * BatchEngine :=
  let now := be_work_units e in
  fail_where (λ s, match ss_run s with
                   | Some r => (limit <=? now - br_progress r)%N
                   | None => false
                   end) er e.

(** The text a stop string ends is cut before it. *)
Definition trim_stop (stops : list bytes) (o : Output) : Output :=
  match match_stop_suffix (ot_full o) stops with
  | Some cut => mkOutput (take cut (ot_full o)) (ot_emitted o) (ot_count o) (ot_tx o)
  | None => o
  end.

Definition finish (idx : nat) (reason : FinishReason) (e : BatchEngine) : BatchEngine :=
  match be_slots e !! idx with
  | None => e
  | Some s =>
  match ss_run s with
  | None => e
  | Some r =>
      let o := trim_stop (pr_stops (br_params r)) (br_out r) in
      let '(ok, o) := if ot_emitted o <? length (ot_full o) then emit (complete_end o) o
                      else (true, o) in
      let e := on_slot idx (set_ss_run None) e in
      if ok then drop_sender (br_id r) (send (Finish reason (ot_count o)) (ot_tx o)).2 e
      else drop_sender (br_id r) (ot_tx o) (on_slot idx (set_ss_cached []) e)
  end
  end.

(** ** One token of one run *)

Definition budget_done (r : Run) : bool :=
  let max := pr_max_tokens (br_params r) in
  ((0 <=? max) && (max <=? Z.of_nat (ot_count (br_out r))))%Z.

Definition advance (cap : nat) (r : Run) : res ApiError StepOutcome * Run :=
  if budget_done r then (Ok (FinishWith FinLength), r) else
  if cap <=? br_pos r then (Ok (FinishWith FinLength), r) else
  let cfg := pr_config (br_params r) in
  let left := spent cfg (br_logits r) (br_prev r) (br_mst r) (br_gst r) (br_rng r) in
  match sample_with_config_grammar cfg (br_logits r) (br_prev r) (br_mst r) (br_gst r) (br_rng r) with
  | Err _ => (Ok (FinishWith FinStop), r)
  | Panic => (Panic, r)
  | Ok (tok, mst, gst, rng) =>
      let at_prev prev o :=
        mkRun (br_id r) (br_params r) mst gst rng prev o (br_pos r) left (br_needs r) (br_progress r) in
      if is_stop special tok then (Ok (FinishWith FinStop), at_prev (br_prev r) (br_out r)) else
      let r := at_prev (push_capped (br_prev r) tok) (add_token (decode_bytes tok) (br_out r)) in
      match match_stop_suffix (ot_full (br_out r)) (pr_stops (br_params r)) with
      | Some _ => (Ok (FinishWith FinStop), r)
      | None =>
          let '(ok, o) := emit (complete_end (br_out r)) (br_out r) in
          let r := set_br_out o r in
          if negb ok then (Err ClientDisconnected, r) else
          if budget_done r || (cap <=? br_pos r + 1) then (Ok (FinishWith FinLength), r)
          else (Ok Continue, set_br_needs (Some tok) r)
      end
  end.

(** ** A step *)

(** The slots with a token whose row is not written: the first [MAX_BATCH]. *)
Definition pending_row (p : nat * SlotState) : option (nat * nat * nat * N) :=
  r ← ss_run p.2; tok ← br_needs r; Some (p.1, tok, br_pos r, ss_seq p.2).

Definition pending_rows (e : BatchEngine) : list (nat * nat * nat * N) :=
  take MAX_BATCH (omap pending_row (imap pair (be_slots e))).

Definition batch_of_rows (rows : list (nat * nat * nat * N)) : Batch :=
  mkBatch (map (λ '(_, tok, _, _), N.of_nat tok) rows) (map (λ '(_, _, pos, _), pos) rows)
    (map (λ '(_, _, _, sq), sq) rows).

Definition row_written (logits : list F) (s : SlotState) : SlotState :=
  match ss_run s with
  | Some r =>
      match br_needs r with
      | Some tok => set_ss_run (Some (set_br_row logits r)) (set_ss_cached (ss_cached s ++ [tok]) s)
      | None => s
      end
  | None => s
  end.

Fixpoint write_rows (r nv : nat) (logits : list F) (idxs : list nat) (slots : list SlotState) :
    list SlotState :=
  match idxs with
  | [] => slots
  | i :: idxs =>
      write_rows (S r) nv logits idxs
        (alter (row_written (take nv (drop (r * nv) logits))) i slots)
  end.

(** The forward of a step; the slots that moved. *)
Definition forward_rows : op (list nat) := λ e,
  let rows := pending_rows e in
  let idxs := map (λ '(i, _, _, _), i) rows in
  match rows with
  | [] => (Ok [], e)
  | _ =>
      match guarded_forward_batch (batch_of_rows rows) e with
      | (Err er, e) => (Err er, fail_batch idxs er e)
      | (Panic, e) => (Panic, e)
      | (Ok logits, e) =>
          let e := add_work (N.of_nat (length rows)) e in
          let nv := length logits / length rows in
          (Ok idxs, set_slots (write_rows 0 nv logits idxs (be_slots e)) e)
      end
  end.

(** A slot's run advances; whether it goes on. *)
Definition step_slot (idx : nat) : op bool := λ e,
  match be_slots e !! idx with
  | None => (Ok false, e)
  | Some s =>
  match ss_run s with
  | None => (Ok false, e)
  | Some r =>
      let '(out, r) := advance (ss_cap s) r in
      let e := on_slot idx (set_ss_run (Some r)) e in
      match out with
      | Ok Continue => (Ok true, add_work 1 e)
      | Ok (FinishWith reason) => (Ok false, finish idx reason e)
      | Err er => (Ok false, fail idx er e)
      | Panic => (Panic, e)
      end
  end
  end.

Fixpoint step_slots (idxs : list nat) : op (list nat) :=
  match idxs with
  | [] => mret []
  | i :: idxs =>
      moved ← step_slot i;
      rest ← step_slots idxs;
      mret (if moved : bool then i :: rest else rest)
  end.

Definition stamp (idxs : list nat) (e : BatchEngine) : BatchEngine :=
  foldl (λ e idx, on_slot idx (λ s,
    set_ss_run (option_map (set_br_progress (be_work_units e)) (ss_run s)) s) e) e idxs.

Definition tick : op unit :=
  match seam with
  | Wedge => mret ()
  | Spin => modify (add_work 1)
  | Off =>
      written ← forward_rows;
      n ← get (λ e, length (be_slots e));
      moved ← step_slots (seq 0 n);
      modify (stamp (written ++ moved))
  end.

(** ** Admission *)

Definition new_grammar_state (p : SamplingParams K) : op (option GrammarState) := λ e,
  (match grammar_state p with Ok g => Ok g | Err er => match er with end | Panic => Panic end, e).

Definition install_run (idx : nat) (job : Job) (last_logits : list F) (from : nat) : op unit :=
  let nt := length (jb_input_ids job) in
  let p := jb_params job in
  _ ← modify (count_fed (nt - from));
  _ ← modify (on_slot idx (set_ss_cached (if no_prefix_reuse then [] else jb_input_ids job)));
  gst ← new_grammar_state p;
  work ← get be_work_units;
  modify (on_slot idx (set_ss_run (Some
    (mkRun (jb_id job) p (mirostat_new (sc_knobs (pr_config p))) gst (seed_from_u64 (pr_seed p))
       (recent_window (jb_input_ids job) REPEAT_LAST_N) (mkOutput [] 0 0 (jb_tx job)) nt last_logits
       None work)))).

(** The chunks of a prompt, the other slots going on between them. *)
Fixpoint feed (sq : N) (job : Job) (spans : list (nat * nat)) (last_logits : list F) : op (list F) :=
  match spans with
  | [] => mret last_logits
  | (from, to) :: spans => λ e,
      let toks := take (to - from) (drop from (jb_input_ids job)) in
      let b := mkBatch (map N.of_nat toks) (seq from (to - from)) (replicate (to - from) sq) in
      match guarded_forward_batch b (count_prefill (batch_len b) e) with
      | (Err er, e) => reject job er e
      | (Panic, e) => (Panic, e)
      | (Ok logits, e) =>
          match spans with
          | [] => (Ok logits, e)
          | _ =>
              if has_pending_decode e then
                match tick (count_interleaved e) with
                | (Panic, e) => (Panic, e)
                | (_, e) => feed sq job spans last_logits e
                end
              else feed sq job spans last_logits e
          end
      end
  end.

Definition submit_on (idx : nat) (job : Job) : op nat := λ e,
  match be_slots e !! idx with
  | None => reject job (NoSuchSlot idx) e
  | Some s =>
      if running s then reject job (SlotBusy idx) e else
      let nt := length (jb_input_ids job) in
      (want ← wanted_cells idx nt (pr_max_tokens (jb_params job));
       _ ← ensure_slot_capacity idx want;
       s ← slot_at idx;
       if ss_cap s <? nt then reject job (ExceedContext nt (ss_cap s)) else
       from ← feed_from idx (jb_input_ids job);
       n_batch ← get be_n_batch;
       last_logits ← feed (ss_seq s) job (prefill_chunks from nt n_batch) [];
       _ ← install_run idx job last_logits from;
       mret idx) e
  end.

(** *** A group in one forward *)

Definition placed : Type := list (nat * Job * nat).

(** The slot of a placed job is readied; its part of the batch, its feed. *)
Definition ready_one (p : nat * Job * nat) : op (list nat * list nat * list N * nat) :=
  let '(_, job, idx) := p in
  let nt := length (jb_input_ids job) in
  from ← feed_from idx (jb_input_ids job);
  want ← wanted_cells idx nt (pr_max_tokens (jb_params job));
  _ ← ensure_slot_capacity idx want;
  s ← slot_at idx;
  if ss_cap s <? nt then throw (GroupTooLong nt (ss_cap s)) else
  mret (drop from (jb_input_ids job), seq from (nt - from), replicate (nt - from) (ss_seq s), from).

Fixpoint ready_all (ps : placed) : op (list nat * list nat * list N * list nat) :=
  match ps with
  | [] => mret ([], [], [], [])
  | p :: ps =>
      '(ts, xs, ss, from) ← ready_one p;
      '(ts', xs', ss', feeds) ← ready_all ps;
      mret (ts ++ ts', xs ++ xs', ss ++ ss', from :: feeds)
  end.

Fixpoint install_all (r nv : nat) (logits : list F) (ps : placed) (feeds : list nat) : op unit :=
  match ps, feeds with
  | (_, job, idx) :: ps, from :: feeds =>
      _ ← install_run idx job (take nv (drop (r * nv) logits)) from;
      install_all (S r) nv logits ps feeds
  | _, _ => mret ()
  end.

Definition prefill_group (ps : placed) : op unit :=
  '(tokens, positions, seq_ids, feeds) ← ready_all ps;
  logits ← guarded_forward_batch (mkBatch (map N.of_nat tokens) positions seq_ids);
  let k := length ps in
  if negb (length logits mod k =? 0) then throw (GroupLogits (length logits) k) else
  install_all 0 (length logits / k) logits ps feeds.

(** *** The idle slot of a job *)

Fixpoint best_slot (taken : list bool) (slots : list SlotState) (input_ids : list nat) (i : nat)
    (best : option (nat * nat)) : option (nat * nat) :=
  match taken, slots with
  | t :: taken, s :: slots =>
      let n := common_prefix_len (ss_cached s) input_ids in
      best_slot taken slots input_ids (S i)
        (if t : bool then best else
         match best with
         | Some (bn, _) => if bn <? n then Some (n, i) else best
         | None => Some (n, i)
         end)
  | _, _ => best
  end.

(** The jobs with a slot, by index; the others are answered. *)
Fixpoint place_jobs (i : nat) (jobs : list Job) (taken : list bool) (e : BatchEngine) :
    placed * list nat * BatchEngine :=
  match jobs with
  | [] => ([], [], e)
  | job :: jobs =>
      match best_slot taken (be_slots e) (jb_input_ids job) 0 None with
      | Some (_, slot) =>
          let '(ps, refused, e) := place_jobs (S i) jobs (<[slot := true]> taken) e in
          ((i, job, slot) :: ps, refused, e)
      | None =>
          let e := drop_sender (jb_id job) (send (EvErr NoIdleSlot) (jb_tx job)).2 e in
          let '(ps, refused, e) := place_jobs (S i) jobs taken e in
          (ps, i :: refused, e)
      end
  end.

Fixpoint reject_all (ps : placed) (er : ApiError) (e : BatchEngine) : BatchEngine :=
  match ps with
  | [] => e
  | (_, job, _) :: ps => reject_all ps er (reject (A:=unit) job er e).2
  end.

(** What became of each placed job. *)
Fixpoint submit_all (ps : placed) : op (list (nat * res ApiError nat)) :=
  match ps with
  | [] => mret []
  | (i, job, idx) :: ps => λ e,
      match submit_on idx job e with
      | (Panic, e) => (Panic, e)
      | (r, e) => (rest ← submit_all ps; mret ((i, r) :: rest)) e
      end
  end.

Definition answer_of (refused : list nat) (answers : list (nat * res ApiError nat)) (i : nat) :
    res ApiError nat :=
  if decide (i ∈ refused) then Err NoIdleSlot
  else match list_find (λ p, p.1 = i) answers with Some (_, (_, r)) => r | None => Panic end.

(** [admit]: the jobs are placed, then fed together if that is allowed. *)
Definition admit_jobs (jobs : list Job) : op (list (res ApiError nat)) := λ e,
  let '(ps, refused, e) := place_jobs 0 jobs (map running (be_slots e)) e in
  let total := sum_list_with (λ '(_, job, idx),
    match be_slots e !! idx with
    | Some s => (feed_span s (jb_input_ids job)).1
    | None => 0
    end) ps in
  let group_cap := if be_n_batch e =? 0 then MAX_PREFILL_BATCH
                   else be_n_batch e `min` MAX_PREFILL_BATCH in
  let results answers := map (answer_of refused answers) (seq 0 (length jobs)) in
  if (1 <? length ps) && (total <=? group_cap) && prefill_batch_ok then
    match prefill_group ps e with
    | (Ok _, e) => (Ok (results (map (λ '(i, _, idx), (i, Ok idx)) ps)), e)
    | (Err er, e) => (Ok (results (map (λ '(i, _, _), (i, Err er)) ps)), reject_all ps er e)
    | (Panic, e) => (Panic, e)
    end
  else (answers ← submit_all ps; mret (results answers)) e.

(** ** A new engine *)

Inductive NewError :=
| NoRowPerSlot (n_ctx_total n_slots : nat)
| SlotUnreserved (i : nat) (e : ArenaError).

(** One run a slot, of the sequences from 1 on. *)
Fixpoint reserve_slots (k i cap : nat) (slots : list SlotState) (a : Alloc P) :
    res NewError (list SlotState) * Alloc P :=
  match k with
  | O => (Ok slots, a)
  | S k =>
      let sq := (1 + N.of_nat i)%N in
      match kv_reserve_seq_with_defrag defrag sq cap a with
      | (Ok (slot, moves), a) =>
          reserve_slots k (S i) cap
            (apply_run_moves slots moves ++ [mkSlotState sq (sl_start slot) cap [] None]) a
      | (Err e, a) => (Err (SlotUnreserved i e), a)
      | (Panic, a) => (Panic, a)
      end
  end.

(** [cache] is the fresh [GraphCache]. *)
Definition new (n_slots n_ctx_total : nat) (cache : Alloc P) : res NewError BatchEngine :=
  let n_slots := n_slots `max` 1 in
  let cap := n_ctx_total / n_slots in
  if cap =? 0 then Err (NoRowPerSlot n_ctx_total n_slots) else
  match reserve_slots n_slots 0 cap [] (set_kv (set_n_ctx n_ctx_total (ga_kv cache)) cache) with
  | (Ok slots, a) => Ok (mkBatchEngine a n_ctx_total slots 0 DEFAULT_PREFILL_CHUNK 0 0 0 0 0 [])
  | (Err e, _) => Err e
  | (Panic, _) => Panic
  end.
End engine.
