(* ===== verification/BatchRows.v ===== *)
(** * The rows of a batched model

    What a batched forward promises the engine ([BatchLaws]): on an arena
    without shared prefixes, whose runs hold the rows of a history each, a
    batch that continues some of them leaves the rows of the longer histories
    there, answers the logits a forward of one sequence alone would, and
    touches no other sequence.  And what the operations of the arena do to the
    histories its runs hold. *)
From Stdlib Require Import ZArith.
From stdpp Require Import base numbers list option gmap.
From S2P Require Import Prelude KvCache KvFacts KvPlans KvArena KvRows KvSteps KvProps KvFollow Batch Grammar Sampling Spec BatchEngine.
Local Open Scope nat_scope.

(** The K and V row of a history's last token, by layer. *)
Class ModelRows (W : Type) := {
  model_layers : list N;
  k_row : N → list nat → list W;
  v_row : N → list nat → list W
}.

(** The tokens of one sequence in a batch, after its history. *)
Record Segment := mkSegment { sg_seq : N; sg_history : list nat; sg_tokens : list nat }.

Definition batch_of (segs : list Segment) : Batch :=
  mkBatch (map N.of_nat (concat (map sg_tokens segs)))
    (concat (map (λ s, seq (length (sg_history s)) (length (sg_tokens s))) segs))
    (concat (map (λ s, replicate (length (sg_tokens s)) (sg_seq s)) segs)).

Definition continued (s : Segment) : list nat := sg_history s ++ sg_tokens s.

Section holds.
Context {W P : Type} `{!CellPool W P, !ModelRows W}.
Implicit Types (a : Alloc P).

(** The run of [sq] holds the rows of the history [h]. *)
Definition seq_holds a (sq : N) (h : list nat) : Prop :=
  length h ≤ written_rows (ga_kv a) sq ∧
  ∀ layer pos, layer ∈ model_layers → pos < length h →
    read_k a layer sq pos = Some (k_row layer (take (S pos) h)) ∧
    read_v a layer sq pos = Some (v_row layer (take (S pos) h)).

Lemma seq_holds_nil a sq : seq_holds a sq [].
Proof using. split; simpl; [lia|]. intros. lia. Qed.

Lemma seq_holds_prefix a sq h h' : seq_holds a sq (h ++ h') → seq_holds a sq h.
Proof using.
  intros [Hl Hr]. rewrite length_app in Hl. split; [lia|]. intros layer pos Hlayer Hpos.
  destruct (Hr layer pos Hlayer) as [-> ->]; [rewrite length_app; lia|].
  by rewrite !take_app_le by lia.
Qed.

(** A sequence keeps its histories and its size from [a] to [a']. *)
Record seq_kept a a' (sq : N) : Prop := {
  sk_holds : ∀ h, seq_holds a sq h → seq_holds a' sq h;
  sk_cap : sl_cap <$> kv_seqs (ga_kv a') !! sq = sl_cap <$> kv_seqs (ga_kv a) !! sq
}.

Lemma seq_kept_refl a sq : seq_kept a a sq.
Proof using. by split. Qed.

Lemma seq_kept_trans a a1 a2 sq : seq_kept a a1 sq → seq_kept a1 a2 sq → seq_kept a a2 sq.
Proof using. intros [H1 E1] [H2 E2]. split; [by auto|by rewrite E2]. Qed.

Lemma seq_holds_reads a a' sq h :
  written_rows (ga_kv a) sq ≤ written_rows (ga_kv a') sq →
  (∀ layer pos, pos < written_rows (ga_kv a) sq →
     read_k a' layer sq pos = read_k a layer sq pos ∧ read_v a' layer sq pos = read_v a layer sq pos) →
  seq_holds a sq h → seq_holds a' sq h.
Proof using.
  intros Hw Hr [Hl Hh]. split; [lia|]. intros layer pos Hlayer Hpos.
  destruct (Hr layer pos) as [-> ->]; [lia|]. by apply Hh.
Qed.

Definition written_of (s : option SeqSlot) : nat := default 0 (sl_written <$> s).

Lemma written_rows_of c sq : written_rows c sq = written_of (kv_seqs c !! sq).
Proof using. unfold written_rows, written_of. by destruct (kv_seqs c !! sq). Qed.

Lemma seq_kept_follows ms a a' sq :
  place <$> kv_seqs (ga_kv a') !! sq = place_after ms sq <$> kv_seqs (ga_kv a) !! sq →
  (∀ layer pos, pos < written_rows (ga_kv a) sq →
     read_k a' layer sq pos = read_k a layer sq pos ∧ read_v a' layer sq pos = read_v a layer sq pos) →
  seq_kept a a' sq.
Proof using.
  intros Hp Hr.
  assert (sl_cap <$> kv_seqs (ga_kv a') !! sq = sl_cap <$> kv_seqs (ga_kv a) !! sq
    ∧ written_rows (ga_kv a') sq = written_rows (ga_kv a) sq) as [Hc Hw].
  { rewrite !written_rows_of. destruct (kv_seqs (ga_kv a') !! sq), (kv_seqs (ga_kv a) !! sq);
      simpl in *; try done.
    unfold place, place_after in Hp. injection Hp as _ Hc _ Hw. cbn. by rewrite Hc, Hw. }
  split; [|done]. intros h. apply seq_holds_reads; [lia|done].
Qed.
End holds.

(** An arena the engine works on. *)
Record cache_ok {W P} `{!CellPool W P} (n_ctx : nat) (a : Alloc P) : Prop := {
  co_ok : arena_ok a;
  co_unshared : unshared (ga_kv a);
  co_n_ctx : kv_n_ctx (ga_kv a) = n_ctx;
  (** The arena's cells are counted in words of the host. *)
  co_small : usize_sized (2 * n_ctx)
}.

(** ** The promise of [forward_batch] *)

Section laws.
Context {W P : Type} `{!CellPool W P, !ModelRows W}.
Implicit Types (a : Alloc P).

(** The history is there and the run has room for the tokens. *)
Record segment_ready a (s : Segment) : Prop := {
  sr_tokens : sg_tokens s ≠ [];
  sr_holds : seq_holds a (sg_seq s) (sg_history s);
  sr_room : ∃ slot, kv_seqs (ga_kv a) !! sg_seq s = Some slot ∧
    length (continued s) ≤ sl_cap slot
}.
End laws.

Class BatchLaws (F W P C : Type) `{!CellPool W P, !BatchModel F P, !ModelRows W,
    !ModelDef F C, !ModelLaws F C} := {
  forward_batch_spec n_ctx (a : Alloc P) segs :
    cache_ok n_ctx a → segs ≠ [] → NoDup (map sg_seq segs) → Forall (segment_ready a) segs →
    let '(r, a') := forward_batch (batch_of segs) 1 n_ctx a in
    cache_ok n_ctx a' ∧
    (∀ sq, sq ∉ map sg_seq segs → seq_kept a a' sq) ∧
    (∀ s, s ∈ segs → seq_holds a' (sg_seq s) (sg_history s) ∧
       sl_cap <$> kv_seqs (ga_kv a') !! sg_seq s = sl_cap <$> kv_seqs (ga_kv a) !! sg_seq s) ∧
    match r with
    | Some logits => logits = concat (map (λ s, logits_after (continued s)) segs) ∧
        ∀ s, s ∈ segs → seq_holds a' (sg_seq s) (continued s)
    | None => True
    end
}.

(** ** The operations of the arena *)

Section steps.
Context {W P : Type} `{!CellPool W P, !CellPoolLaws W P, !ModelRows W}.
Implicit Types (a : Alloc P).

Lemma reads_at a a' sq : reads_kept a a' → ∀ layer pos, pos < written_rows (ga_kv a) sq →
  read_k a' layer sq pos = read_k a layer sq pos ∧ read_v a' layer sq pos = read_v a layer sq pos.
Proof using. intros H layer pos. apply H. Qed.

Lemma reserve_step n sq cap a :
  cache_ok n a → 0 < cap → kv_seqs (ga_kv a) !! sq = None →
  let '(r, a') := kv_reserve_seq_with_defrag true sq cap a in
  cache_ok n a' ∧ (∀ s, s ≠ sq → seq_kept a a' s) ∧
  match r with
  | Ok (slot, _) => sl_cap <$> kv_seqs (ga_kv a') !! sq = Some (sl_cap slot) ∧ sl_cap slot = cap
  | Err _ => kv_seqs (ga_kv a') !! sq = None
  | Panic => False
  end.
Proof using All.
  intros [Hok Hu Hn Hsm] Hcap Hnone. pose proof (kv_reserve_total sq cap a Hok Hcap Hnone) as H.
  destruct (kv_reserve_seq_with_defrag true sq cap a) as [r a'].
  destruct H as [Hok' Hn' Hr (ms & c & Hf & Hsq & Hres)].
  pose proof (unshared_follows _ _ _ Hf Hu) as Huc.
  assert (∀ s, s ≠ sq → kv_seqs (ga_kv a') !! s = kv_seqs c !! s) as Hs.
  { intros s Hne. destruct r as [[slot ms']|e|]; [destruct Hres as [-> _]|by rewrite Hres|done].
    by rewrite lookup_insert_ne. }
  split; [split; [done| |by rewrite Hn'|done]|split].
  - intros s x Hx. destruct (decide (s = sq)) as [->|Hne].
    + destruct r as [[slot ms']|e|]; [|by rewrite Hres, Hsq in Hx|done].
      destruct Hres as (Hq & _ & Hz & _). rewrite Hq, lookup_insert_eq in Hx. by injection Hx as <-.
    + rewrite Hs in Hx by done. exact (Huc s x Hx).
  - intros s Hne. apply (seq_kept_follows ms); [by rewrite Hs, Hf|by apply reads_at].
  - destruct r as [[slot ms']|e|]; [|by rewrite Hres|done].
    destruct Hres as (-> & <- & _). by rewrite lookup_insert_eq.
Qed.

Lemma resize_step n sq cap slot a :
  cache_ok n a → 0 < cap → cap ≤ n → kv_seqs (ga_kv a) !! sq = Some slot →
  let '(r, a') := kv_set_cap_with_defrag true sq cap a in
  cache_ok n a' ∧ (∀ s, s ≠ sq → seq_kept a a' s) ∧
  (∀ h, seq_holds a sq h → seq_holds a' sq h) ∧
  match r with
  | Ok (slot', _) => sl_cap <$> kv_seqs (ga_kv a') !! sq = Some (sl_cap slot') ∧ sl_cap slot' = cap
  | Err _ => sl_cap <$> kv_seqs (ga_kv a') !! sq = Some (sl_cap slot)
  | Panic => False
  end.
Proof using All.
  intros [Hok Hu Hn Hsm] Hcap Hle Hs.
  assert (usize_sized (kv_n_ctx (ga_kv a) + cap)) as Hsz by (rewrite Hn; unfold usize_sized in *; lia).
  pose proof (kv_set_cap_total sq cap slot a Hok Hcap Hsz Hs) as H.
  destruct (kv_set_cap_with_defrag true sq cap a) as [r a'].
  destruct H as [Hok' Hn' Hr Hres]. destruct r as [[slot' ms']|e|]; [|subst a'|done].
  2: { split; [done|]. split; [intros; apply seq_kept_refl|]. split; [done|]. by rewrite Hs. }
  destruct Hres as (ms & c & Hf & Hs' & Hq).
  assert (unshared c) as Huc.
  { intros s x. rewrite Hq, lookup_insert. case_decide; [|apply Hu]. intros [= <-]. simpl.
    exact (Hu sq slot Hs). }
  destruct (follows_at ms c (ga_kv a') sq (set_slot_cap cap slot) Hf) as (x & Hx & _ & Hcx & _ & Hwx);
    [by rewrite Hq, lookup_insert_eq|].
  assert (x = slot') as -> by congruence. split; [split|split; [|split]].
  - done.
  - by eapply unshared_follows.
  - by rewrite Hn'.
  - done.
  - intros s Hne. apply (seq_kept_follows ms); [|by apply reads_at].
    by rewrite Hf, Hq, lookup_insert_ne.
  - intros h. apply seq_holds_reads; [|by apply reads_at].
    rewrite !written_rows_of, Hs, Hs'. cbn. rewrite Hwx. cbn. lia.
  - by rewrite Hs'.
Qed.

Lemma release_step n sq a :
  cache_ok n a →
  let a' := set_kv (release_seq sq (ga_kv a)).2 a in
  cache_ok n a' ∧ (∀ s, s ≠ sq → seq_kept a a' s) ∧ kv_seqs (ga_kv a') !! sq = None.
Proof using.
  intros [Hok Hu Hn Hsm]. destruct (kv_release_total sq a Hok Hu) as (Hok' & Hn' & Hq & Hr). simpl in *.
  split; [split|split]; simpl.
  - done.
  - intros s x. rewrite Hq, lookup_delete_Some. intros [_ Hx]. exact (Hu s x Hx).
  - by rewrite Hn'.
  - done.
  - intros s Hne. apply (seq_kept_follows []); [|by auto]. simpl. rewrite Hq, lookup_delete_ne by done.
    by destruct (kv_seqs (ga_kv a) !! s).
  - by rewrite Hq, lookup_delete_eq.
Qed.

Lemma copy_step n src dst rows h a :
  cache_ok n a → src ≠ dst → 0 < rows → seq_holds a src h → rows ≤ length h →
  let '(r, a') := kv_copy_prefix src dst rows a in
  cache_ok n a' ∧ (∀ s, s ≠ dst → seq_kept a a' s) ∧
  sl_cap <$> kv_seqs (ga_kv a') !! dst = sl_cap <$> kv_seqs (ga_kv a) !! dst ∧
  match r with
  | Ok _ => seq_holds a' dst (take rows h)
  | Err _ => a' = a
  | Panic => False
  end.
Proof using All.
  intros Hco Hne Hrows Hh Hlen. destruct Hco as [Hok Hu Hn].
  pose proof (kv_copy_prefix_total src dst rows a Hok Hu Hne Hrows) as H.
  destruct (kv_copy_prefix src dst rows a) as [[[]|e|] a']; [|subst a'|done].
  2: { split; [by split|]. split; [intros; apply seq_kept_refl|done]. }
  destruct H as [[Hok' Hn' (to & Ht & Hq) Hoth Hown] Hw].
  split; [split|split; [|split]].
  - done.
  - intros s x. rewrite Hq, lookup_insert. case_decide; [|apply Hu]. intros [= <-]. exact (Hu dst to Ht).
  - by rewrite Hn'.
  - done.
  - intros s Hs. apply (seq_kept_follows []); [|by auto]. rewrite Hq, lookup_insert_ne by done.
    by destruct (kv_seqs (ga_kv a) !! s).
  - by rewrite Hq, lookup_insert_eq, Ht.
  - destruct Hh as [_ Hh]. split.
    + rewrite written_rows_of, Hq, lookup_insert_eq, length_take. cbn. lia.
    + intros layer pos Hlayer Hpos. rewrite length_take in Hpos.
      destruct (Hown layer pos) as [-> ->]; [lia|].
      rewrite take_take, Nat.min_l by lia. apply Hh; [done|lia].
Qed.
End steps.
