(* ===== verification/BatchTurns.v ===== *)
(** * A batched run keeps to its turn

    [serve] of [ChatFacts] says what a request is answered without caches.
    Here: what a run of the engine still has to answer ([turn_of]) stays the
    same from step to step, and the way [finish] and [fail] close a channel is
    the way the serial worker does. *)
From Stdlib Require Import ZArith Lia Strings.Byte.
From stdpp Require Import base numbers list option gmap.
From S2P Require Import Prelude Gguf Grammar KvCache KvArena Sampling Spec Chat ChatFacts BatchEngine.
Local Open Scope nat_scope.

(** ** Whole characters, piecewise *)

Lemma char_len_pos b : 1 ≤ char_len b.
Proof. unfold char_len. repeat case_match; lia. Qed.

Lemma complete_loop_shift fuel rest i : complete_loop fuel rest i = i + complete_loop fuel rest 0.
Proof.
  revert rest i. induction fuel as [|n IH]; intros rest i; [simpl; lia|].
  destruct rest as [|b rest]; [simpl; lia|]. cbn [complete_loop]. destruct (_ <? _); [lia|].
  rewrite IH, (IH _ (0 + char_len b)). lia.
Qed.

Lemma complete_loop_enough fuel rest i :
  length rest ≤ fuel → complete_loop fuel rest i = i + complete_utf8_prefix_len rest.
Proof.
  intros Hl. rewrite complete_loop_shift. f_equal. unfold complete_utf8_prefix_len.
  assert (∀ n m rest, length rest ≤ n → length rest ≤ m →
    complete_loop n rest 0 = complete_loop m rest 0) as H; [|by apply H].
  clear. induction n as [|n IH]; intros m rest Hn Hm.
  { destruct rest; [|simpl in Hn; lia]. by destruct m. }
  destruct rest as [|b rest]; [by destruct m|]. destruct m as [|m]; [simpl in Hm; lia|].
  cbn [complete_loop]. destruct (_ <? _); [done|]. pose proof (char_len_pos b).
  rewrite (complete_loop_shift n), (complete_loop_shift m). f_equal.
  apply IH; rewrite length_drop; simpl in *; lia.
Qed.

Lemma complete_cons b rest :
  complete_utf8_prefix_len (b :: rest) =
  if length (b :: rest) <? char_len b then 0
  else char_len b + complete_utf8_prefix_len (drop (char_len b) (b :: rest)).
Proof.
  unfold complete_utf8_prefix_len at 1. cbn [complete_loop length]. case_match; [done|].
  rewrite complete_loop_enough; [lia|]. pose proof (char_len_pos b). rewrite length_drop. simpl. lia.
Qed.

(** Induction over the characters of a text. *)
Lemma complete_ind (P : bytes → Prop) :
  P [] → (∀ b l, length (b :: l) < char_len b → P (b :: l)) →
  (∀ b l, char_len b ≤ length (b :: l) → P (drop (char_len b) (b :: l)) → P (b :: l)) → ∀ l, P l.
Proof.
  intros H0 H1 H2 l. assert (∀ n l, length l ≤ n → P l) as H; [|by apply (H (length l))].
  clear l. induction n as [|n IH]; intros l Hl; destruct l as [|b l]; [done|simpl in Hl; lia|done|].
  destruct (Nat.lt_ge_cases (length (b :: l)) (char_len b)) as [|Hle]; [by apply H1|].
  apply H2; [done|]. apply IH. pose proof (char_len_pos b). rewrite length_drop. simpl in *. lia.
Qed.

Lemma complete_le l : complete_utf8_prefix_len l ≤ length l.
Proof.
  induction l as [|b l H|b l H IH] using complete_ind; [done|..]; rewrite complete_cons.
  - rewrite (proj2 (Nat.ltb_lt _ _)) by done. lia.
  - rewrite (proj2 (Nat.ltb_ge _ _)) by done. rewrite length_drop in IH. lia.
Qed.

Lemma complete_app a b :
  complete_utf8_prefix_len a = length a →
  complete_utf8_prefix_len (a ++ b) = length a + complete_utf8_prefix_len b.
Proof.
  induction a as [|x a H|x a H IH] using complete_ind; [done|..].
  - rewrite complete_cons, (proj2 (Nat.ltb_lt _ _)) by done. simpl. lia.
  - rewrite complete_cons, (proj2 (Nat.ltb_ge _ _)) by done. intros Ha.
    change ((x :: a) ++ b) with (x :: (a ++ b)). rewrite complete_cons.
    change (x :: (a ++ b)) with ((x :: a) ++ b).
    rewrite (proj2 (Nat.ltb_ge _ _)) by (rewrite length_app; lia).
    rewrite drop_app_le, IH by (rewrite ?length_drop; lia). rewrite length_drop. lia.
Qed.

Lemma complete_take l : complete_utf8_prefix_len (take (complete_utf8_prefix_len l) l) = complete_utf8_prefix_len l.
Proof.
  induction l as [|b l H|b l H IH] using complete_ind; [done|..]; rewrite complete_cons.
  - by rewrite (proj2 (Nat.ltb_lt _ _)) by done.
  - rewrite (proj2 (Nat.ltb_ge _ _)) by done.
    set (c := complete_utf8_prefix_len (drop (char_len b) (b :: l))) in *.
    rewrite <-(take_drop (char_len b) (take _ (b :: l))) at 1.
    rewrite take_take, Nat.min_l, skipn_firstn_comm by lia.
    replace (char_len b + c - char_len b) with c by lia.
    rewrite complete_app; [rewrite IH, length_take; lia|].
    rewrite length_take, Nat.min_l by done. pose proof (char_len_pos b).
    destruct (take (char_len b) (b :: l)) as [|x r] eqn:Ht.
    { apply (f_equal length) in Ht. rewrite length_take in Ht. simpl in *. lia. }
    assert (x = b) as -> by (destruct (char_len b); [lia|]; by injection Ht).
    rewrite complete_cons, <-Ht, length_take, Nat.min_l, Nat.ltb_irrefl by done.
    rewrite skipn_firstn_comm, Nat.sub_diag. simpl. unfold complete_utf8_prefix_len. simpl. lia.
Qed.

(** [n] is the end of whole characters of [l]. *)
Definition whole (l : bytes) (n : nat) : Prop := n ≤ length l ∧ complete_utf8_prefix_len (take n l) = n.

Lemma whole_more l n k : whole l n → n ≤ k ≤ length l → 
  complete_utf8_prefix_len (take k l) = n + complete_utf8_prefix_len (drop n (take k l)).
Proof.
  intros [Hn Hw] Hk. rewrite <-(take_drop n (take k l)) at 1. rewrite take_take, Nat.min_l by lia.
  rewrite complete_app; rewrite length_take, Nat.min_l by lia; done.
Qed.

Lemma whole_complete l n r : whole l n → whole (l ++ r) (n + complete_utf8_prefix_len (drop n (l ++ r))).
Proof.
  intros [Hn Hw]. set (x := drop n (l ++ r)). pose proof (complete_le x) as Hx.
  assert (length x = length (l ++ r) - n) as Hlx by (subst x; apply length_drop).
  assert (take n (l ++ r) = take n l) as Htk by by rewrite take_app_le by lia.
  rewrite length_app in Hlx. split; [rewrite length_app; lia|].
  rewrite <-(take_drop n (take _ (l ++ r))), take_take, Nat.min_l, Htk by lia.
  rewrite complete_app; rewrite length_take, Nat.min_l by lia; [|done].
  rewrite skipn_firstn_comm. fold x.
  replace (n + complete_utf8_prefix_len x - n) with (complete_utf8_prefix_len x) by lia.
  by rewrite complete_take.
Qed.

(** ** Channels *)

Lemma send_refused ev ch : ch_left ch = Some 0 → send ev ch = (false, ch).
Proof. intros H. unfold send. by rewrite H. Qed.

Lemma send_false ev ch ch' : send ev ch = (false, ch') → ch' = ch ∧ ch_left ch = Some 0.
Proof. unfold send. destruct (ch_left ch) as [[|k]|]; by intros [= <-]. Qed.

Lemma emit_false upto o o' : emit upto o = (false, o') →
  ot_tx o' = ot_tx o ∧ ch_left (ot_tx o) = Some 0 ∧ ot_full o' = ot_full o.
Proof.
  unfold emit. destruct (_ <? _); [|done]. destruct (send _ _) as [ok tx] eqn:Hs.
  destruct ok; intros [= <-]. by apply send_false in Hs as [-> ?].
Qed.

Lemma emit_true upto o o' : emit upto o = (true, o') →
  ot_full o' = ot_full o ∧ ot_count o' = ot_count o ∧ ot_emitted o' = ot_emitted o `max` upto.
Proof.
  unfold emit. destruct (Nat.ltb_spec (ot_emitted o) upto).
  - destruct (send _ _) as [[] tx]; intros [= <-]. simpl. split_and!; [done|done|lia].
  - intros [= <-]. split_and!; [done|done|lia].
Qed.

Definition closing (stops : list bytes) (v : served) : Channel :=
  match hang_up stops v with
  | (Ok _, tx) => tx
  | (Err e, tx) => (send (EvErr e) tx).2
  | (Panic, tx) => (send (EvErr InternalPanic) tx).2
  end.

(** A stop string does not begin inside a character. *)
Definition tidy (stops : list bytes) (v : served) : Prop :=
  match v with
  | Ended _ true o =>
      match match_stop_suffix (ot_full o) stops with
      | Some cut => complete_utf8_prefix_len (take cut (ot_full o)) = cut
      | None => True
      end
  | _ => True
  end.

Lemma stop_at_end buf stops cut : match_stop_suffix buf stops = Some cut → cut ≤ length buf.
Proof.
  unfold match_stop_suffix.
  assert (∀ best, (∀ b, best = Some b → b ≤ length buf) →
    match_stop_loop buf stops best = Some cut → cut ≤ length buf) as H; [|by apply H].
  induction stops as [|s stops IH]; intros best Hb; simpl; [by apply Hb|].
  case_match; [by apply IH|]. apply IH. intros b.
  case_decide; [|by apply Hb]. destruct best as [b0|]; intros [= <-]; [|lia].
  specialize (Hb b0 eq_refl). lia.
Qed.

Lemma no_stop_in_nothing stops : match_stop_suffix [] stops = None.
Proof.
  unfold match_stop_suffix. induction stops as [|s stops IH]; simpl; [done|].
  by destruct s.
Qed.

Section turns.
Context {F K M R C : Type} `{!Floats F, !SamplerMaths F K M R}.
Context `{target : !ModelDef F C, !ModelLaws F C}.
Context (mirostat_new : K → M) (seed_from_u64 : N → R).
Context (decode_bytes : nat → bytes) (special : SpecialTokens).
Context (spent : SamplerConfig K → list F → list nat → M → option GrammarState → R → list F).

#[local] Abbreviation Run := (BatchEngine.Run (F:=F) (K:=K) (M:=M) (R:=R)).
#[local] Abbreviation Job := (Job (K:=K)).
#[local] Abbreviation serve := (serve (target:=target) decode_bytes special).
#[local] Abbreviation advance := (advance decode_bytes special spent).

(** What a job is answered on a slot of [cap] cells. *)
Definition turn_of_job (j : Job) (cap : nat) : option served :=
  let p := jb_params j in
  match grammar_state p with
  | Ok gst => Some (serve p (cap - length (jb_input_ids j)) (jb_input_ids j)
      (recent_window (jb_input_ids j) REPEAT_LAST_N) (mirostat_new (sc_knobs (pr_config p))) gst
      (seed_from_u64 (pr_seed p)) (mkOutput [] 0 0 (jb_tx j)))
  | _ => None
  end.

(** The history once the pending token's row is there. *)
Definition pending_history (h : list nat) (r : Run) : list nat :=
  h ++ match br_needs r with Some t => [t] | None => [] end.

(** What is left to answer of a run whose rows are those of [h]. *)
Definition turn_of (h : list nat) (cap : nat) (r : Run) : served :=
  let h := pending_history h r in
  serve (br_params r) (cap - length h) h (br_prev r) (br_mst r) (br_gst r) (br_rng r) (br_out r).

Record run_ok (h : list nat) (cap : nat) (r : Run) : Prop := {
  rk_pos : br_pos r = length h;
  rk_room : length (pending_history h r) ≤ cap;
  rk_logits : br_needs r = None → br_logits r = logits_after h;
  rk_fresh : match_stop_suffix (ot_full (br_out r)) (pr_stops (br_params r)) = None;
  rk_whole : whole (ot_full (br_out r)) (ot_emitted (br_out r))
}.

(** The channel of a run that [finish] closes. *)
Definition last_flush (r : Run) : bool * Output :=
  let o := trim_stop (pr_stops (br_params r)) (br_out r) in
  if ot_emitted o <? length (ot_full o) then emit (complete_end o) o else (true, o).

Definition finished (reason : FinishReason) (r : Run) : Channel :=
  let '(ok, o) := last_flush r in
  if ok then (send (Finish reason (ot_count o)) (ot_tx o)).2 else ot_tx o.

Lemma finished_plain reason r :
  match_stop_suffix (ot_full (br_out r)) (pr_stops (br_params r)) = None →
  finished reason r = closing (pr_stops (br_params r)) (Ended reason false (br_out r)).
Proof using.
  intros Hf. unfold finished, last_flush, trim_stop, closing. rewrite Hf. simpl.
  set (o := br_out r).
  assert ((if ot_emitted o <? length (ot_full o) then emit (complete_end o) o else (true, o))
    = emit (complete_end o) o) as ->.
  { destruct (Nat.ltb_spec (ot_emitted o) (length (ot_full o))); [done|].
    by rewrite emit_up_to_date by by rewrite complete_end_done. }
  destruct (emit _ o) as [[] o'] eqn:He; [done|]. apply emit_false in He as (-> & Hl & _).
  by rewrite send_refused.
Qed.

(** A refused channel takes nothing any more. *)
Lemma finished_refused reason r :
  ch_left (ot_tx (br_out r)) = Some 0 → finished reason r = ot_tx (br_out r).
Proof using.
  intros Hl. unfold finished, last_flush. set (o := trim_stop _ _).
  assert (ot_tx o = ot_tx (br_out r)) as Ho.
  { subst o. unfold trim_stop. by destruct (match_stop_suffix _ _). }
  rewrite <-Ho in *. destruct (_ <? _); [|simpl; by rewrite send_refused].
  unfold emit. destruct (_ <? _); [rewrite send_refused by done; done|]. by rewrite send_refused.
Qed.

(** The turn of a run that has just said a stop string. *)
Lemma finished_cut r cut o :
  o = br_out r → match_stop_suffix (ot_full o) (pr_stops (br_params r)) = Some cut →
  whole (ot_full o) (ot_emitted o) →
  let v := let '(ok, o') := emit cut o in
           if ok then Ended FinStop true o' else Failed ClientDisconnected o' in
  tidy (pr_stops (br_params r)) v → finished FinStop r = closing (pr_stops (br_params r)) v.
Proof using.
  intros -> Hm Hw. set (o := br_out r) in *. pose proof (stop_at_end _ _ _ Hm) as Hcut.
  destruct (emit cut o) as [ok o'] eqn:He. destruct ok; simpl.
  2: { intros _. apply emit_false in He as (Ht & Hl & _). rewrite finished_refused by done.
       unfold closing. simpl. by rewrite Ht, send_refused. }
  pose proof He as (Hf & Hc & He')%emit_true. rewrite Hf, Hm. intros Hwhole.
  unfold closing. simpl. unfold trimmed. rewrite Hf, Hm.
  rewrite emit_up_to_date by (simpl; rewrite length_take, He'; lia). simpl.
  unfold finished, last_flush, trim_stop. fold o. rewrite Hm. simpl.
  rewrite length_take, Nat.min_l by done.
  revert He. unfold emit. destruct (Nat.ltb_spec (ot_emitted o) cut) as [Hlt|Hge].
  - assert (complete_end (mkOutput (take cut (ot_full o)) (ot_emitted o) (ot_count o) (ot_tx o)) = cut) as ->.
    { unfold complete_end. simpl.
      pose proof (whole_more _ _ cut Hw ltac:(lia)) as H. rewrite Hwhole in H. lia. }
    simpl. rewrite (proj2 (Nat.ltb_lt _ _)) by done.
    rewrite skipn_firstn_comm, take_take, Nat.min_id.
    destruct (send _ _) as [ok tx]. intros [= -> <-]. done.
  - by intros [= <-].
Qed.

Lemma run_ok_out h cap r : run_ok h cap r → whole (ot_full (br_out r)) (ot_emitted (br_out r)).
Proof using. apply rk_whole. Qed.

(** One token of a run whose pending row is there. *)
Lemma advance_turn h cap r :
  run_ok h cap r → br_needs r = None →
  match advance cap r with
  | (Ok Continue, r') => run_ok h cap r' ∧ turn_of h cap r' = turn_of h cap r ∧
      is_Some (br_needs r') ∧ br_id r' = br_id r ∧ br_params r' = br_params r ∧
      br_progress r' = br_progress r
  | (Ok (FinishWith reason), r') => br_id r' = br_id r ∧
      (tidy (pr_stops (br_params r)) (turn_of h cap r) →
       finished reason r' = closing (pr_stops (br_params r)) (turn_of h cap r))
  | (Err e, r') => br_id r' = br_id r ∧
      (send (EvErr e) (ot_tx (br_out r'))).2 = closing (pr_stops (br_params r)) (turn_of h cap r)
  | (Panic, _) => True
  end.
Proof using.
  intros Hok Hn. destruct Hok as [Hpos Hroom Hlog Hfresh Hw].
  unfold turn_of, pending_history in *. rewrite Hn in *. rewrite app_nil_r in *.
  specialize (Hlog eq_refl). set (p := br_params r) in *. set (o := br_out r) in *.
  assert (∀ reason, finished reason r = closing (pr_stops p) (Ended reason false o)) as Hplain.
  { intros reason. by apply finished_plain. }
  unfold BatchEngine.advance. fold p. rewrite Hpos.
  change (budget_done r) with (full_up p o).
  destruct (cap - length h) as [|n] eqn:Hcap; cbn [ChatFacts.serve]; fold o;
    (destruct (full_up p o) eqn:Hfull; [by auto|]).
  { rewrite (proj2 (Nat.leb_le _ _)) by lia. by auto. }
  rewrite (proj2 (Nat.leb_gt _ _)) by lia. rewrite Hlog.
  destruct (sample_with_config_grammar _ _ _ _ _ _) as [[[[tok mst] gst] rng]|e|]; [|by auto|done].
  destruct (is_stop special tok). { split; [done|]. intros _. by apply finished_plain. }
  cbn [br_out br_params br_prev br_needs br_pos]. fold p o.
  set (o1 := add_token (decode_bytes tok) o).
  unfold say. fold o1. destruct (match_stop_suffix (ot_full o1) (pr_stops p)) as [cut|] eqn:Hm.
  { set (r1 := mkRun _ _ _ _ _ _ _ _ _ _ _).
    assert (whole (ot_full o1) (ot_emitted o1)) as Hw1.
    { destruct Hw as [H1 H2]. unfold o1, add_token. simpl. split; [rewrite length_app; lia|].
      by rewrite take_app_le by done. }
    pose proof (finished_cut r1 cut o1 eq_refl Hm Hw1) as Hfin. simpl in Hfin.
    destruct (emit cut o1) as [[] o2]; (split; [done|exact Hfin]). }
  destruct (emit (complete_end o1) o1) as [ok o2] eqn:He. destruct ok; [|by split].
  pose proof He as (Hf2 & Hc2 & He2)%emit_true.
  unfold negb. set (r2 := set_br_out o2 _).
  assert (match_stop_suffix (ot_full (br_out r2)) (pr_stops (br_params r2)) = None) as Hm2.
  { simpl. by rewrite Hf2. }
  assert (∀ reason, finished reason r2 = closing (pr_stops p) (Ended reason false o2)) as Hplain2.
  { intros reason. by apply finished_plain. }
  change (budget_done r2) with (full_up p o2). change (br_pos r2) with (length h).
  destruct (full_up p o2) eqn:Hfull2; simpl orb.
  { split; [done|]. intros _. destruct n; cbn [ChatFacts.serve]; rewrite Hfull2; apply Hplain2. }
  destruct (Nat.leb_spec cap (length h + 1)).
  { split; [done|]. intros _. assert (n = 0) as -> by lia. cbn [ChatFacts.serve]. rewrite Hfull2. apply Hplain2. }
  split_and!; try done.
  - split; [done| |done|done|].
    + unfold pending_history. simpl. rewrite length_app. simpl. lia.
    + simpl. rewrite Hf2, He2. unfold o1, add_token. simpl.
      pose proof (whole_complete (ot_full o) (ot_emitted o) (decode_bytes tok) Hw) as Hwc.
      unfold complete_end. simpl. rewrite Nat.max_r by lia. exact Hwc.
  - simpl. rewrite length_app. simpl. by replace (cap - (length h + 1)) with n by lia.
Qed.

(** The row of the pending token has been written. *)
Lemma row_turn h cap r t :
  run_ok h cap r → br_needs r = Some t →
  let r' := set_br_row (logits_after (h ++ [t])) r in
  run_ok (h ++ [t]) cap r' ∧ turn_of (h ++ [t]) cap r' = turn_of h cap r ∧ br_needs r' = None.
Proof using.
  intros [Hpos Hroom Hlog Hfresh Hw] Hn. unfold turn_of, pending_history in *. rewrite Hn in *. simpl.
  rewrite app_nil_r. split; [|done]. split; simpl; [|unfold pending_history; simpl; by rewrite app_nil_r|done..].
  rewrite length_app. simpl. lia.
Qed.

(** A job that has just been installed. *)
Lemma install_turn (j : Job) cap gst work :
  grammar_state (jb_params j) = Ok gst → length (jb_input_ids j) ≤ cap →
  let p := jb_params j in
  let r := mkRun (jb_id j) p (mirostat_new (sc_knobs (pr_config p))) gst (seed_from_u64 (pr_seed p))
    (recent_window (jb_input_ids j) REPEAT_LAST_N) (mkOutput [] 0 0 (jb_tx j))
    (length (jb_input_ids j)) (logits_after (jb_input_ids j)) None work in
  run_ok (jb_input_ids j) cap r ∧ turn_of_job j cap = Some (turn_of (jb_input_ids j) cap r).
Proof using.
  intros Hg Hl. simpl. split.
  - split; simpl; [done|unfold pending_history; by rewrite app_nil_r|done|apply no_stop_in_nothing|done].
  - unfold turn_of_job, turn_of, pending_history. rewrite Hg. simpl. by rewrite app_nil_r.
Qed.
End turns.
