(* ===== verification/BatchFacts.v ===== *)
(** * The engine's invariant

    [engine_ok]: the slots' records name the rows their runs hold, every
    running request is on its turn, and every closed channel was answered.
    Here: the operations that make room, take over prefixes, step the runs
    and end them keep it. *)
From Stdlib Require Import ZArith Lia Strings.Byte.
From stdpp Require Import base numbers list option gmap.
From S2P Require Import Prelude Gguf Grammar KvCache KvFacts KvPlans KvArena KvRows KvSteps KvProps KvFollow Batch Sampling Spec Chat ChatFacts ChatProps BatchEngine BatchRows BatchTurns.
Local Open Scope nat_scope.

Section facts.
Context {F K M R W P C : Type} `{!Floats F, !SamplerMaths F K M R}.
Context `{!CellPool W P, !CellPoolLaws W P, !BatchModel F P, !ModelRows W}.
Context `{target : !ModelDef F C, laws : !ModelLaws F C, !BatchLaws F W P C}.
Context (mirostat_new : K → M) (seed_from_u64 : N → R).
Context (decode_bytes : nat → bytes) (special : SpecialTokens).
Context (spent : SamplerConfig K → list F → list nat → M → option GrammarState → R → list F).
(** The requests, by id. *)
Context (jobs : N → Job (K:=K)).

#[local] Abbreviation Run := (BatchEngine.Run (F:=F) (K:=K) (M:=M) (R:=R)).
#[local] Abbreviation SlotState := (BatchEngine.SlotState (F:=F) (K:=K) (M:=M) (R:=R)).
#[local] Abbreviation Engine := (BatchEngine (F:=F) (K:=K) (M:=M) (R:=R) (P:=P)).
#[local] Abbreviation Job := (Job (K:=K)).
#[local] Abbreviation turn_of := (turn_of (target:=target) decode_bytes special).
#[local] Abbreviation turn_of_job := (turn_of_job (target:=target) mirostat_new seed_from_u64 decode_bytes special).
#[local] Abbreviation run_ok := (run_ok (target:=target) (F:=F) (K:=K) (M:=M) (R:=R)).
Implicit Types (a : Alloc P) (s : SlotState) (r : Run) (e : Engine).

(** ** The invariant *)

Record on_track (h : list nat) (cap : nat) r : Prop := {
  ot_params : br_params r = jb_params (jobs (br_id r));
  ot_run : run_ok h cap r;
  ot_fits : length (jb_input_ids (jobs (br_id r))) ≤ cap;
  ot_turn : turn_of_job (jobs (br_id r)) cap = Some (turn_of h cap r)
}.

(** The slot's run holds the rows of [h], and its request is on its turn. *)
Record slot_ok a (h : list nat) s : Prop := {
  so_holds : seq_holds a (ss_seq s) h;
  so_cap : sl_cap <$> kv_seqs (ga_kv a) !! ss_seq s =
             (if ss_cap s =? 0 then None else Some (ss_cap s));
  so_run : ∀ r, ss_run s = Some r → h = ss_cached s ∧ on_track h (ss_cap s) r
}.

(** The errors that end a run, and those that refuse a job at the door. *)
Definition run_failure (er : ApiError) : Prop :=
  match er with InferencePanicked | WorkerStalled | RunStalled => True | _ => False end.
Definition refusal (er : ApiError) : Prop :=
  match er with
  | NoSuchSlot _ | SlotBusy _ | ExceedContext _ _ | NoIdleSlot | QueueFull | Draining | WorkerStalled => True
  | _ => False
  end.

(** The answer of a request: as the serial worker gives it on a slot of some
    size; or its run failed; or it was refused with nothing said. *)
Definition answer_ok (n_ctx : nat) (p : N * Channel) : Prop :=
  let j := jobs p.1 in
  (∃ cap v, length (jb_input_ids j) ≤ cap ≤ n_ctx ∧ turn_of_job j cap = Some v ∧
     (tidy (pr_stops (jb_params j)) v → p.2 = closing (pr_stops (jb_params j)) v)) ∨
  (∃ er tx, run_failure er ∧ p.2 = (send (EvErr er) tx).2) ∨
  (∃ er, refusal er ∧ p.2 = (send (EvErr er) (jb_tx j)).2).

(** While a slot is being filled its record does not name its rows: [gh] is
    that slot, and the history its rows hold. *)
Definition history (gh : option (nat * list nat)) (i : nat) s : list nat :=
  match gh with
  | Some (i', h) => if i =? i' then h else ss_cached s
  | None => ss_cached s
  end.

Record engine_ok (gh : option (nat * list nat)) e : Prop := {
  eo_cache : cache_ok (be_n_ctx_total e) (be_cache e);
  eo_seqs : NoDup (map ss_seq (be_slots e));
  eo_slots : ∀ i s, be_slots e !! i = Some s → slot_ok (be_cache e) (history gh i s) s;
  eo_idle : ∀ i h s, gh = Some (i, h) → be_slots e !! i = Some s → ss_run s = None;
  eo_answers : Forall (answer_ok (be_n_ctx_total e)) (be_answered e)
}.

Lemma slot_ok_idle a h s :
  slot_ok a h s → ss_run s = None →
  ∀ h' s', seq_holds a (ss_seq s) h' → ss_seq s' = ss_seq s → ss_cap s' = ss_cap s → ss_run s' = None →
  slot_ok a h' s'.
Proof using. intros [? Hc ?] Hn h' s' Hh E1 E2 E3. split; rewrite ?E1, ?E2, ?E3; done. Qed.

Lemma slot_ok_kept a a' h s : seq_kept a a' (ss_seq s) → slot_ok a h s → slot_ok a' h s.
Proof using. intros [Hh Hc] [? ? ?]. split; [by apply Hh|by rewrite Hc|done]. Qed.

Lemma slot_room a h s n : cache_ok n a → slot_ok a h s → length h ≤ ss_cap s.
Proof using.
  intros [Hok Hu _] [[Hl _] Hc _]. rewrite written_rows_of in Hl.
  destruct (kv_seqs (ga_kv a) !! ss_seq s) as [x|] eqn:Hx; simpl in *.
  - destruct (wf_slot _ _ _ (ao_wf _ Hok) Hx). pose proof (Hu _ _ Hx) as Hz. simpl in Hz.
    destruct (Nat.eqb_spec (ss_cap s) 0); [done|]. injection Hc as <-. unfold written_of in Hl.
    simpl in Hl. lia.
  - unfold written_of in Hl. simpl in Hl. lia.
Qed.

Lemma slot_cap_bound a h s n : cache_ok n a → slot_ok a h s → ss_cap s ≤ n.
Proof using.
  intros [Hok Hu <-] [_ Hc _]. destruct (Nat.eqb_spec (ss_cap s) 0); [lia|].
  destruct (kv_seqs (ga_kv a) !! ss_seq s) as [x|] eqn:Hx; [|done]. injection Hc as <-.
  destruct (wf_slot _ _ _ (ao_wf _ Hok) Hx). lia.
Qed.

(** ** Changes of one slot *)

Lemma lookup_on_slot i f e j : be_slots (on_slot i f e) !! j =
  if decide (i = j) then f <$> be_slots e !! j else be_slots e !! j.
Proof using. unfold on_slot. simpl. case_decide; [subst; apply list_lookup_alter_eq|by apply list_lookup_alter_ne]. Qed.

Lemma map_seq_alter i f l :
  (∀ s, ss_seq (f s) = ss_seq s) → map ss_seq (alter f i l) = map (ss_seq (F:=F) (K:=K) (M:=M) (R:=R)) l.
Proof using.
  intros Hf. revert i. induction l as [|s l IH]; intros [|i]; simpl; [done..| |].
  - by rewrite Hf.
  - f_equal. apply IH.
Qed.

Lemma seqs_apart e i j s s' :
  NoDup (map ss_seq (be_slots e)) → be_slots e !! i = Some s → be_slots e !! j = Some s' → i ≠ j →
  ss_seq s ≠ ss_seq s'.
Proof using.
  intros Hnd Hi Hj Hne He. apply Hne. eapply (NoDup_lookup _ i j (ss_seq s) Hnd).
  - by rewrite list_lookup_fmap, Hi.
  - by rewrite list_lookup_fmap, Hj, He.
Qed.

(** The arena changed under one slot, and the slot with it. *)
Lemma engine_ok_slot gh gh' e e' i s f :
  engine_ok gh e → be_slots e !! i = Some s →
  cache_ok (be_n_ctx_total e) (be_cache e') → be_n_ctx_total e' = be_n_ctx_total e →
  be_slots e' = alter f i (be_slots e) → (∀ s, ss_seq (f s) = ss_seq s) →
  (∀ sq, sq ≠ ss_seq s → seq_kept (be_cache e) (be_cache e') sq) →
  (∀ j x, j ≠ i → history gh' j x = history gh j x) →
  slot_ok (be_cache e') (history gh' i (f s)) (f s) →
  (∀ j h, gh' = Some (j, h) → j = i ∧ ss_run (f s) = None ∨ j ≠ i ∧ gh = gh') →
  Forall (answer_ok (be_n_ctx_total e)) (be_answered e') →
  engine_ok gh' e'.
Proof using.
  intros [Hc Hnd Hs Hid Ha] Hi Hc' Hn Hsl Hf Hk Hh Hok Hg Ha'. split.
  - by rewrite Hn.
  - by rewrite Hsl, map_seq_alter.
  - intros j x. rewrite Hsl. destruct (decide (i = j)) as [<-|Hne].
    + rewrite list_lookup_alter_eq, Hi. by intros [= <-].
    + rewrite list_lookup_alter_ne by done. intros Hj. rewrite Hh by done.
      apply (slot_ok_kept (be_cache e)); [|by apply Hs]. apply Hk. by eapply seqs_apart.
  - intros j h x Hgh. destruct (Hg j h Hgh) as [[-> Hr]|[Hne ->]]; rewrite Hsl.
    + rewrite list_lookup_alter_eq, Hi. by intros [= <-].
    + rewrite list_lookup_alter_ne by done. by eapply Hid.
  - by rewrite Hn.
Qed.

(** The arena did not change. *)
Lemma engine_ok_local gh e e' i s f :
  engine_ok gh e → be_slots e !! i = Some s → be_cache e' = be_cache e →
  be_n_ctx_total e' = be_n_ctx_total e → be_slots e' = alter f i (be_slots e) →
  (∀ s, ss_seq (f s) = ss_seq s) →
  slot_ok (be_cache e) (history gh i (f s)) (f s) →
  (∀ h, gh = Some (i, h) → ss_run (f s) = None) →
  Forall (answer_ok (be_n_ctx_total e)) (be_answered e') →
  engine_ok gh e'.
Proof using.
  intros Hok Hi Hc Hn Hsl Hf Hs Hg Ha. eapply (engine_ok_slot gh gh e e' i s f); try done.
  - rewrite Hc. apply Hok.
  - intros. rewrite Hc. apply seq_kept_refl.
  - by rewrite Hc.
  - intros j h Hj. destruct (decide (j = i)) as [->|]; [left; split; [done|by eapply Hg]|by right].
Qed.

(** A step of bookkeeping. *)
Lemma engine_ok_same gh e e' :
  engine_ok gh e → be_cache e' = be_cache e → be_n_ctx_total e' = be_n_ctx_total e →
  be_slots e' = be_slots e → Forall (answer_ok (be_n_ctx_total e)) (be_answered e') →
  engine_ok gh e'.
Proof using.
  intros [? ? ? ? ?] Ec En Es Ha. split; rewrite ?Ec, ?En, ?Es; done.
Qed.

(** ** The end of a run *)

(** What the other slots of an engine see of an operation on slot [i]. *)
Record apart (i : nat) e e' : Prop := {
  ap_n_ctx : be_n_ctx_total e' = be_n_ctx_total e;
  ap_length : length (be_slots e') = length (be_slots e);
  ap_slots : ∀ j, j ≠ i → be_slots e' !! j = be_slots e !! j;
  ap_seqs : map ss_seq (be_slots e') = map ss_seq (be_slots e)
}.

Lemma apart_refl i e : apart i e e.
Proof using. by split. Qed.

Lemma apart_trans i e e1 e2 : apart i e e1 → apart i e1 e2 → apart i e e2.
Proof using.
  intros [? ? H1 ?] [? ? H2 ?]. split; [congruence|congruence| |congruence].
  intros j Hj. by rewrite H2, H1.
Qed.

Lemma apart_alter i f e e' :
  be_n_ctx_total e' = be_n_ctx_total e → be_slots e' = alter f i (be_slots e) →
  (∀ s, ss_seq (f s) = ss_seq s) → apart i e e'.
Proof using.
  intros Hn Hs Hf. split; [done|by rewrite Hs, length_alter| |by rewrite Hs, map_seq_alter].
  intros j Hj. by rewrite Hs, list_lookup_alter_ne.
Qed.

Lemma fail_apart i er e : apart i e (fail i er e).
Proof using.
  unfold fail. destruct (be_slots e !! i) as [s|]; [|apply apart_refl].
  by destruct (ss_run s); apply (apart_alter i (λ s, set_ss_cached [] (set_ss_run None s))).
Qed.

Lemma fail_idle i er e s : be_slots (fail i er e) !! i = Some s → ss_run s = None.
Proof using.
  unfold fail. destruct (be_slots e !! i) as [x|] eqn:Hi; [|by rewrite Hi].
  destruct (ss_run x); rewrite lookup_on_slot, decide_True by done; simpl; rewrite Hi; by intros [= <-].
Qed.

Lemma fail_ok gh i er e :
  run_failure er → engine_ok gh e → (∀ h, gh ≠ Some (i, h)) → engine_ok gh (fail i er e).
Proof using.
  intros Her Hok Hg. unfold fail. destruct (be_slots e !! i) as [s|] eqn:Hi; [|done].
  set (f := λ s, set_ss_cached [] (set_ss_run None s)).
  assert (slot_ok (be_cache e) (history gh i (f s)) (f s)) as Hs.
  { replace (history gh i (f s)) with (@nil nat).
    - pose proof (eo_slots _ _ Hok i s Hi) as [_ Hc _]. split; [apply seq_holds_nil|done|done].
    - unfold history. destruct gh as [[i' h]|]; [|done]. destruct (Nat.eqb_spec i i'); [|done].
      subst. by destruct (Hg h). }
  assert (Forall (answer_ok (be_n_ctx_total e)) (be_answered e)) as Ha by apply Hok.
  destruct (ss_run s) as [r|]; eapply (engine_ok_local gh e _ i s f); try done; simpl.
  apply Forall_app. split; [done|]. apply Forall_singleton. right. left. by eexists _, _.
Qed.

Lemma finish_apart i reason e : apart i e (finish i reason e).
Proof using.
  unfold finish. destruct (be_slots e !! i) as [s|]; [|apply apart_refl].
  destruct (ss_run s) as [r|]; [|apply apart_refl].
  destruct (if _ <? _ then _ else _) as [[] o]; [by apply (apart_alter i (set_ss_run None))|].
  apply (apart_trans i _ (on_slot i (set_ss_run None) e));
    [by apply (apart_alter i (set_ss_run None))|by apply (apart_alter i (set_ss_cached []))].
Qed.

Lemma finish_idle i reason e s : be_slots (finish i reason e) !! i = Some s → ss_run s = None.
Proof using.
  unfold finish. destruct (be_slots e !! i) as [x|] eqn:Hi; [|by rewrite Hi].
  destruct (ss_run x) as [r|] eqn:Hr; [|rewrite Hi; by intros [= <-]].
  destruct (if _ <? _ then _ else _) as [[] o]; simpl; rewrite ?list_lookup_alter_eq, Hi; by intros [= <-].
Qed.

(** The run as its last token left it is closed. *)
Lemma finish_ok gh i reason e s r :
  engine_ok gh e → (∀ h, gh ≠ Some (i, h)) → be_slots e !! i = Some s → ss_run s ≠ None →
  answer_ok (be_n_ctx_total e) (br_id r, finished reason r) →
  engine_ok gh (finish i reason (on_slot i (set_ss_run (Some r)) e)).
Proof using.
  intros Hok Hg Hi Hr Hans. unfold finish. rewrite lookup_on_slot, decide_True, Hi by done. simpl.
  change (if ot_emitted _ <? _ then _ else _) with (last_flush r). unfold finished in Hans.
  destruct (last_flush r) as [ok o].
  assert (∀ l x, history gh i (set_ss_cached l x) = l) as Hh.
  { intros l x. unfold history. destruct gh as [[i' h]|]; [|done]. destruct (Nat.eqb_spec i i'); [|done].
    subst. by destruct (Hg h). }
  pose proof (eo_slots _ _ Hok i s Hi) as [Hhold Hc Hrun].
  destruct (ss_run s) as [r0|] eqn:Hr0; [|done]. destruct (Hrun r0 eq_refl) as [Hhis _].
  rewrite Hhis in Hhold.
  assert (∀ ch, answer_ok (be_n_ctx_total e) (br_id r, ch) →
    Forall (answer_ok (be_n_ctx_total e)) (be_answered e ++ [(br_id r, ch)])) as Hall.
  { intros ch Hch. apply Forall_app. split; [apply Hok|]. by apply Forall_singleton. }
  destruct ok.
  - set (f := λ s, set_ss_run None (set_ss_run (Some r) s)).
    eapply (engine_ok_local gh e _ i s f); try done; simpl; [apply list_alter_alter_eq| |by apply Hall].
    specialize (Hh (ss_cached s) (f s)). change (set_ss_cached (ss_cached s) (f s)) with (f s) in Hh.
    rewrite Hh. by split.
  - set (f := λ s, set_ss_cached [] (set_ss_run None (set_ss_run (Some r) s))).
    eapply (engine_ok_local gh e _ i s f); try done; simpl;
      [by rewrite !list_alter_alter_eq| |by apply Hall].
    unfold f at 1. rewrite Hh. split; [apply seq_holds_nil|done|done].
Qed.

Lemma fail_run_ok gh i er e s r :
  engine_ok gh e → (∀ h, gh ≠ Some (i, h)) → be_slots e !! i = Some s →
  answer_ok (be_n_ctx_total e) (br_id r, (send (EvErr er) (ot_tx (br_out r))).2) →
  engine_ok gh (fail i er (on_slot i (set_ss_run (Some r)) e)).
Proof using.
  intros Hok Hg Hi Hans. unfold fail. rewrite lookup_on_slot, decide_True, Hi by done. simpl.
  set (f := λ s, set_ss_cached [] (set_ss_run None (set_ss_run (Some r) s))).
  eapply (engine_ok_local gh e _ i s f); try done; simpl; [by rewrite !list_alter_alter_eq| |].
  - replace (history gh i (f s)) with (@nil nat).
    + pose proof (eo_slots _ _ Hok i s Hi) as [_ Hc _]. split; [apply seq_holds_nil|done|done].
    + unfold history. destruct gh as [[i' h]|]; [|done]. destruct (Nat.eqb_spec i i'); [|done].
      subst. by destruct (Hg h).
  - apply Forall_app. split; [apply Hok|]. by apply Forall_singleton.
Qed.
End facts.
