(* ===== verification/BatchTick.v ===== *)
(** * A step of the engine

    With at most [MAX_BATCH] slots a step writes the row of every pending
    token, then gives every run the token its turn has next. *)
From Stdlib Require Import ZArith Lia Strings.Byte.
From stdpp Require Import base numbers list option gmap.
From S2P Require Import Prelude Gguf Grammar KvCache KvFacts KvPlans KvArena KvRows KvSteps KvProps KvFollow Batch Sampling Spec Chat ChatFacts ChatProps BatchEngine BatchRows BatchTurns BatchFacts.
Local Open Scope nat_scope.

Section ticks.
Context {F K M R W P C : Type} `{!Floats F, !SamplerMaths F K M R}.
Context `{!CellPool W P, !CellPoolLaws W P, !BatchModel F P, !ModelRows W}.
Context `{target : !ModelDef F C, laws : !ModelLaws F C, blaws : !BatchLaws F W P C}.
Context (mirostat_new : K → M) (seed_from_u64 : N → R).
Context (decode_bytes : nat → bytes) (special : SpecialTokens).
Context (spent : SamplerConfig K → list F → list nat → M → option GrammarState → R → list F).
Context (jobs : N → Job (K:=K)).

#[local] Abbreviation Run := (BatchEngine.Run (F:=F) (K:=K) (M:=M) (R:=R)).
#[local] Abbreviation SlotState := (BatchEngine.SlotState (F:=F) (K:=K) (M:=M) (R:=R)).
#[local] Abbreviation Engine := (BatchEngine (F:=F) (K:=K) (M:=M) (R:=R) (P:=P)).
#[local] Abbreviation engine_ok := (engine_ok (target:=target) (laws:=laws) mirostat_new seed_from_u64 decode_bytes special jobs (P:=P) (R:=R) (M:=M)).
#[local] Abbreviation slot_ok := (slot_ok (target:=target) (laws:=laws) mirostat_new seed_from_u64 decode_bytes special jobs (P:=P) (R:=R) (M:=M)).
#[local] Abbreviation on_track := (on_track (target:=target) (laws:=laws) mirostat_new seed_from_u64 decode_bytes special jobs).
Implicit Types (a : Alloc P) (s : SlotState) (r : Run) (e : Engine) (l : list SlotState).

(** What a step keeps: everything of the idle slots, and who the slots are. *)
Record stepped e e' : Prop := {
  st_n_ctx : be_n_ctx_total e' = be_n_ctx_total e;
  st_n_batch : be_n_batch e' = be_n_batch e;
  st_seqs : map ss_seq (be_slots e') = map ss_seq (be_slots e);
  st_idle : ∀ i s, be_slots e !! i = Some s → ss_run s = None → be_slots e' !! i = Some s
}.

Lemma stepped_refl e : stepped e e.
Proof using. by split. Qed.

Lemma stepped_trans e e1 e2 : stepped e e1 → stepped e1 e2 → stepped e e2.
Proof using.
  intros [? ? ? H1] [? ? ? H2]. split; [congruence..|]. intros i s Hi Hr. eauto.
Qed.

Lemma stepped_length e e' : stepped e e' → length (be_slots e') = length (be_slots e).
Proof using. intros [_ _ H _]. by rewrite <-(length_map ss_seq), H, length_map. Qed.

(** ** The batch of a step *)

Lemma omap_length_le {A B} (f : A → option B) (l : list A) : length (omap f l) ≤ length l.
Proof using. induction l as [|x l IH]; cbn in *; [lia|]. destruct (f x); cbn in *; lia. Qed.

Definition rows_from (n : nat) l : list (nat * nat * nat * N) :=
  omap pending_row (imap (λ i s, (n + i, s)) l).

Definition segment_of s : option Segment :=
  r ← ss_run s; t ← br_needs r; Some (mkSegment (ss_seq s) (ss_cached s) [t]).

Definition segments l : list Segment := omap segment_of l.

Lemma rows_from_cons n s l :
  rows_from n (s :: l) =
  match pending_row (n, s) with Some x => x :: rows_from (S n) l | None => rows_from (S n) l end.
Proof using.
  unfold rows_from. cbn [imap omap list_omap]. rewrite Nat.add_0_r.
  assert (imap ((λ (i : nat) s, (n + i, s)) ∘ S) l = imap (λ i s, (S n + i, s)) l) as ->.
  { apply imap_ext. intros i x _. simpl. f_equal. lia. }
  by destruct (pending_row (n, s)).
Qed.

(** Where a running slot's next row goes. *)
Definition at_end s : Prop := ∀ r, ss_run s = Some r → br_pos r = length (ss_cached s).

Lemma rows_are_segments n l :
  Forall at_end l →
  map (λ '(_, t, _, _), N.of_nat t) (rows_from n l) = map N.of_nat (concat (map sg_tokens (segments l))) ∧
  map (λ '(_, _, pos, _), pos) (rows_from n l) =
    concat (map (λ g, seq (length (sg_history g)) (length (sg_tokens g))) (segments l)) ∧
  map (λ '(_, _, _, sq), sq) (rows_from n l) =
    concat (map (λ g, replicate (length (sg_tokens g)) (sg_seq g)) (segments l)) ∧
  length (rows_from n l) = length (segments l).
Proof using.
  intros Hl. revert n. induction Hl as [|s l Hs _ IH]; intros n; [done|].
  rewrite rows_from_cons. unfold segments. cbn [omap list_omap]. fold (segments l).
  destruct (IH (S n)) as (E1 & E2 & E3 & E4). unfold pending_row, segment_of. simpl.
  destruct (ss_run s) as [r|] eqn:Hr; simpl; [|done].
  destruct (br_needs r) as [t|]; simpl; [|done].
  rewrite E1, E2, E3, E4, (Hs r Hr). done.
Qed.

Lemma segments_seqs l g : g ∈ segments l → ∃ s r t, s ∈ l ∧ ss_run s = Some r ∧ br_needs r = Some t ∧
  g = mkSegment (ss_seq s) (ss_cached s) [t].
Proof using.
  unfold segments. intros (s & Hs & Hg)%list_elem_of_omap. unfold segment_of in Hg.
  destruct (ss_run s) as [r|] eqn:Hr; simpl in Hg; [|done].
  destruct (br_needs r) as [t|] eqn:Ht; simpl in Hg; [|done]. injection Hg as <-. by exists s, r, t.
Qed.

Lemma segments_apart l : NoDup (map ss_seq l) → NoDup (map sg_seq (segments l)).
Proof using.
  induction l as [|s l IH]; intros Hnd; [constructor|]. simpl in Hnd.
  apply NoDup_cons in Hnd as [Hn Hnd]. specialize (IH Hnd).
  unfold segments. cbn [omap list_omap]. fold (segments l).
  destruct (segment_of s) as [g|] eqn:Hg; [|done]. simpl. apply NoDup_cons. split; [|done].
  assert (sg_seq g = ss_seq s) as ->.
  { unfold segment_of in Hg. destruct (ss_run s) as [r|]; simpl in Hg; [|done].
    destruct (br_needs r); simpl in Hg; [|done]. by injection Hg as <-. }
  intros Hin. apply Hn. apply list_elem_of_In, in_map_iff in Hin as (g' & He & Hg'%list_elem_of_In).
  apply segments_seqs in Hg' as (s' & r & t & Hs' & _ & _ & ->). simpl in He. rewrite <-He.
  apply list_elem_of_In, in_map_iff. exists s'. split; [done|]. by apply list_elem_of_In.
Qed.

(** The slot once its pending token's row is there. *)
Definition row_done s : SlotState :=
  match ss_run s with
  | Some r =>
      match br_needs r with
      | Some t => set_ss_run (Some (set_br_row (logits_after (ss_cached s ++ [t])) r))
                    (set_ss_cached (ss_cached s ++ [t]) s)
      | None => s
      end
  | None => s
  end.

Definition segment_rows (gs : list Segment) : list F := concat (map (λ g, logits_after (continued g)) gs).

Lemma write_rows_done l n k pre (front : list F) :
  length front = k * n_vocab (ModelDef:=target) → length pre = n →
  write_rows k (n_vocab (ModelDef:=target)) (front ++ segment_rows (segments l))
    (map (λ '(i, _, _, _), i) (rows_from n l)) (pre ++ l) = pre ++ map row_done l.
Proof using.
  set (nv := n_vocab (ModelDef:=target)). revert n k pre front.
  induction l as [|s l IH]; intros n k pre front Hf Hp.
  { simpl. done. }
  rewrite rows_from_cons. unfold segments. cbn [omap list_omap]. fold (segments l).
  unfold pending_row, segment_of. simpl. unfold row_done at 1.
  destruct (ss_run s) as [r|] eqn:Hr; simpl;
    [destruct (br_needs r) as [t|] eqn:Ht; simpl|].
  - assert (length (logits_after (continued (mkSegment (ss_seq s) (ss_cached s) [t]))) = nv) as Hlen
      by apply length_logits.
    unfold segment_rows. simpl. fold (segment_rows (segments l)).
    set (row := logits_after _) in *.
    rewrite drop_app_length', take_app_length' by done.
    rewrite alter_app_r_alt by lia. rewrite Hp, Nat.sub_diag. simpl.
    replace (row_written row s) with
      (set_ss_run (Some (set_br_row (logits_after (ss_cached s ++ [t])) r)) (set_ss_cached (ss_cached s ++ [t]) s)).
    2: { unfold row_written. by rewrite Hr, Ht. }
    set (s' := set_ss_run _ _).
    rewrite (assoc_L (++) front), (cons_middle s' pre l), (assoc_L (++) pre [s'] l).
    rewrite (IH (S n) (S k)); [by rewrite <-(assoc_L (++))| |].
    + rewrite length_app. lia.
    + rewrite length_app. simpl. lia.
  - rewrite (cons_middle s pre l), (assoc_L (++) pre [s] l).
    rewrite (IH (S n) k); [by rewrite <-(assoc_L (++))|done|]. rewrite length_app. simpl. lia.
  - rewrite (cons_middle s pre l), (assoc_L (++) pre [s] l).
    rewrite (IH (S n) k); [by rewrite <-(assoc_L (++))|done|]. rewrite length_app. simpl. lia.
Qed.

(** No token is pending. *)
Definition written_up e : Prop :=
  ∀ i s r, be_slots e !! i = Some s → ss_run s = Some r → br_needs r = None.

Lemma map_row_done_seqs l : map ss_seq (map row_done l) = map ss_seq l.
Proof using.
  rewrite map_map. apply map_ext. intros s. unfold row_done.
  destruct (ss_run s) as [r|]; [|done]. by destruct (br_needs r).
Qed.

Lemma running_history gh e i s r :
  engine_ok gh e → be_slots e !! i = Some s → ss_run s = Some r → history gh i s = ss_cached s.
Proof using. intros Hok Hi Hr. by destruct (so_run _ _ _ _ _ _ _ _ (eo_slots _ _ _ _ _ _ _ Hok i s Hi) r Hr). Qed.

Lemma running_at_end gh e : engine_ok gh e → Forall at_end (be_slots e).
Proof using.
  intros Hok. apply Forall_lookup_2. intros i s Hi r Hr.
  pose proof (eo_slots _ _ _ _ _ _ _ Hok i s Hi) as Hs. destruct (so_run _ _ _ _ _ _ _ _ Hs r Hr) as [-> Ht].
  by destruct Ht as [_ [Hp _ _ _ _] _ _].
Qed.

Lemma segment_is_ready gh e g :
  engine_ok gh e → g ∈ segments (be_slots e) → segment_ready (be_cache e) g.
Proof using.
  intros Hok (s & r & t & Hs & Hr & Ht & ->)%segments_seqs.
  apply list_elem_of_lookup in Hs as [i Hi]. pose proof (eo_slots _ _ _ _ _ _ _ Hok i s Hi) as Hso.
  destruct (so_run _ _ _ _ _ _ _ _ Hso r Hr) as [Hh Htr]. rewrite Hh in Hso, Htr.
  destruct Hso as [Hhold Hcap _]. destruct Htr as [_ [_ Hroom _ _ _] _ _].
  unfold pending_history in Hroom. rewrite Ht in Hroom. split; simpl; [done|done|].
  destruct (Nat.eqb_spec (ss_cap s) 0) as [Hz|Hz]; [rewrite length_app in Hroom; simpl in Hroom; lia|].
  destruct (kv_seqs (ga_kv (be_cache e)) !! ss_seq s) as [x|]; [|done]. injection Hcap as Hx.
  exists x. by rewrite Hx.
Qed.

Lemma concat_rows_length (gs : list Segment) :
  length (segment_rows gs) = length gs * n_vocab (ModelDef:=target).
Proof using.
  unfold segment_rows. induction gs as [|g gs IH]; simpl; [done|].
  rewrite length_app, length_logits, IH. lia.
Qed.

Lemma slot_rows_done gh e a' i s :
  engine_ok gh e → be_slots e !! i = Some s →
  (∀ sq, sq ∉ map sg_seq (segments (be_slots e)) → seq_kept (be_cache e) a' sq) →
  (∀ g, g ∈ segments (be_slots e) → seq_holds a' (sg_seq g) (continued g) ∧
     sl_cap <$> kv_seqs (ga_kv a') !! sg_seq g = sl_cap <$> kv_seqs (ga_kv (be_cache e)) !! sg_seq g) →
  slot_ok a' (history gh i (row_done s)) (row_done s).
Proof using.
  intros Hok Hi Hkept Hseg. pose proof (eo_slots _ _ _ _ _ _ _ Hok i s Hi) as Hso.
  destruct (segment_of s) as [g|] eqn:Hg.
  - assert (g ∈ segments (be_slots e)) as Hin.
    { apply list_elem_of_omap. exists s. split; [|done]. by eapply list_elem_of_lookup_2. }
    destruct (Hseg g Hin) as [Hh Hc]. unfold segment_of in Hg. unfold row_done.
    destruct (ss_run s) as [r|] eqn:Hr; simpl in Hg; [|done].
    destruct (br_needs r) as [t|] eqn:Ht; simpl in Hg; [|done]. injection Hg as <-. simpl in Hh, Hc.
    set (s' := set_ss_run _ _).
    assert (history gh i s' = ss_cached s') as ->.
    { pose proof (running_history _ _ _ _ _ Hok Hi Hr) as E. unfold history in *.
      destruct gh as [[i' h]|]; [|done]. destruct (Nat.eqb_spec i i'); [|done]. subst i'.
      by rewrite (eo_idle _ _ _ _ _ _ _ Hok i h s eq_refl Hi) in Hr. }
    destruct Hso as [Hhold Hcap Hrun]. destruct (Hrun r Hr) as [Hhis [Hp Hro Hf Htu]]. rewrite Hhis in *.
    split; simpl; [done|by rewrite Hc|]. intros r' [= <-]. split; [done|].
    destruct (row_turn decode_bytes special _ _ _ _ Hro Ht) as (H1 & H2 & _).
    split; simpl; [done|done|done|]. by rewrite Htu, H2.
  - assert (row_done s = s) as ->.
    { unfold row_done. unfold segment_of in Hg. destruct (ss_run s) as [r|]; simpl in Hg; [|done].
      by destruct (br_needs r). }
    apply (slot_ok_kept _ _ _ _ _ (be_cache e)); [|done]. apply Hkept.
    intros Hin. apply list_elem_of_In, in_map_iff in Hin as (g & He & Hg'%list_elem_of_In).
    apply segments_seqs in Hg' as (s' & r & t & Hs' & Hr & Ht & ->). simpl in He.
    apply list_elem_of_lookup in Hs' as [j Hj]. destruct (decide (i = j)) as [->|Hne].
    + assert (s' = s) as -> by congruence. unfold segment_of in Hg. rewrite Hr in Hg. simpl in Hg.
      by rewrite Ht in Hg.
    + by eapply (seqs_apart e i j s s'); [apply Hok|..].
Qed.

Lemma slot_rows_lost gh e a' i s :
  engine_ok gh e → be_slots e !! i = Some s →
  (∀ sq, sq ∉ map sg_seq (segments (be_slots e)) → seq_kept (be_cache e) a' sq) →
  (∀ g, g ∈ segments (be_slots e) → seq_holds a' (sg_seq g) (sg_history g) ∧
     sl_cap <$> kv_seqs (ga_kv a') !! sg_seq g = sl_cap <$> kv_seqs (ga_kv (be_cache e)) !! sg_seq g) →
  slot_ok a' (history gh i s) s.
Proof using.
  intros Hok Hi Hkept Hseg. pose proof (eo_slots _ _ _ _ _ _ _ Hok i s Hi) as Hso.
  destruct (decide (ss_seq s ∈ map sg_seq (segments (be_slots e)))) as [Hin|Hin];
    [|by apply (slot_ok_kept _ _ _ _ _ (be_cache e)); [apply Hkept|]].
  apply list_elem_of_In, in_map_iff in Hin as (g & He & Hg%list_elem_of_In).
  destruct (Hseg g Hg) as [Hh Hc].
  apply segments_seqs in Hg as (s' & r & t & Hs' & Hr & Ht & ->). simpl in *.
  apply list_elem_of_lookup in Hs' as [j Hj].
  assert (i = j) as <-. { destruct (decide (i = j)); [done|]. exfalso. by eapply (seqs_apart e i j s s'); [apply Hok|..]. }
  assert (s' = s) as -> by congruence. rewrite (running_history _ _ _ _ _ Hok Hi Hr) in *.
  destruct Hso as [_ Hcap Hrun]. split; [done|by rewrite Hc|done].
Qed.

Lemma fail_batch_ok gh er idxs e :
  run_failure er → engine_ok gh e → (∀ i h, gh = Some (i, h) → i ∉ idxs) →
  engine_ok gh (fail_batch idxs er e) ∧ be_n_ctx_total (fail_batch idxs er e) = be_n_ctx_total e ∧
  be_n_batch (fail_batch idxs er e) = be_n_batch e ∧
  map ss_seq (be_slots (fail_batch idxs er e)) = map ss_seq (be_slots e) ∧
  ∀ j, j ∉ idxs → be_slots (fail_batch idxs er e) !! j = be_slots e !! j.
Proof using.
  intros Her. unfold fail_batch. revert e. induction idxs as [|i idxs IH]; intros e Hok Hg; simpl; [done|].
  destruct (IH (fail i er e)) as (H1 & H2 & H3 & H4 & H5).
  - apply fail_ok; [done|done|]. intros h Hgh. specialize (Hg i h Hgh). apply Hg. by left.
  - intros j h Hgh Hin. apply (Hg j h Hgh). by right.
  - destruct (fail_apart i er e) as [A1 _ A3 A4].
    split; [done|split; [by rewrite H2|split; [|split; [by rewrite H4|]]]].
    + rewrite H3. unfold fail. destruct (be_slots e !! i) as [s|]; [|done]. by destruct (ss_run s).
    + intros j Hj. rewrite not_elem_of_cons in Hj. destruct Hj as [Hj1 Hj2]. rewrite H5, A3; done.
Qed.

Lemma row_index n l i t pos sq : (i, t, pos, sq) ∈ rows_from n l →
  ∃ s r, l !! (i - n) = Some s ∧ n ≤ i ∧ ss_run s = Some r ∧ br_needs r = Some t.
Proof using.
  unfold rows_from. intros ([k s] & Hk & Hp)%list_elem_of_omap.
  apply elem_of_lookup_imap in Hk as (j & x & [= -> ->] & Hj).
  unfold pending_row in Hp. simpl in Hp. destruct (ss_run x) as [r|] eqn:Hr; simpl in Hp; [|done].
  destruct (br_needs r) as [t'|] eqn:Ht; simpl in Hp; [|done]. injection Hp as <- <- <- <-.
  exists x, r. replace (n + j - n) with j by lia. split_and!; [done|lia|done|done].
Qed.

(** The forward of a step. *)
Lemma forward_rows_ok gh e :
  engine_ok gh e → length (be_slots e) ≤ MAX_BATCH →
  match forward_rows e with
  | (Ok _, e') => engine_ok gh e' ∧ stepped e e' ∧ written_up e'
  | (Err _, e') => engine_ok gh e' ∧ stepped e e'
  | (Panic, _) => False
  end.
Proof using laws blaws.
  intros Hok Hlen. unfold forward_rows.
  assert (pending_rows e = rows_from 0 (be_slots e)) as Hrows.
  { unfold pending_rows, rows_from. rewrite take_ge; [done|].
    etrans; [apply omap_length_le|]. by rewrite length_imap. }
  rewrite Hrows. destruct (rows_are_segments 0 (be_slots e) (running_at_end gh e Hok)) as (E1 & E2 & E3 & E4).
  destruct (decide (segments (be_slots e) = [])) as [Hnil|Hne].
  { rewrite Hnil in E4. destruct (rows_from 0 (be_slots e)); [|done].
    split; [done|split; [apply stepped_refl|]]. intros i s r Hi Hr.
    destruct (br_needs r) as [t|] eqn:Ht; [|done]. exfalso.
    assert (mkSegment (ss_seq s) (ss_cached s) [t] ∈ segments (be_slots e)) as Hin.
    { apply list_elem_of_omap. exists s. split; [by eapply list_elem_of_lookup_2|].
      unfold segment_of. rewrite Hr. simpl. by rewrite Ht. }
    rewrite Hnil in Hin. by apply elem_of_nil in Hin. }
  assert (batch_of_rows (rows_from 0 (be_slots e)) = batch_of (segments (be_slots e))) as Hb.
  { unfold batch_of_rows, batch_of. by rewrite E1, E2, E3. }
  unfold guarded_forward_batch. rewrite Hb.
  pose proof (forward_batch_spec (C:=C) (be_n_ctx_total e) (be_cache e) (segments (be_slots e))
    (eo_cache _ _ _ _ _ _ _ Hok) Hne (segments_apart _ (eo_seqs _ _ _ _ _ _ _ Hok))) as Hf.
  assert (Forall (segment_ready (be_cache e)) (segments (be_slots e))) as Hready.
  { apply Forall_forall. intros g. by apply (segment_is_ready gh). }
  specialize (Hf Hready).
  destruct (forward_batch (batch_of (segments (be_slots e))) 1 (be_n_ctx_total e) (be_cache e)) as [[logits|] a'];
    destruct Hf as (Hc' & Hkept & Hcaps & Hres).
  - destruct Hres as [-> Hh]. destruct (rows_from 0 (be_slots e)) as [|x rows] eqn:Hrf.
    { destruct (segments (be_slots e)); [done|]. simpl in E4. lia. }
    rewrite <-Hrf in *. cbn [set_cache add_work be_slots].
    change (concat (map (λ g, logits_after (continued g)) (segments (be_slots e)))) with (segment_rows (segments (be_slots e))).
    assert (length (segment_rows (segments (be_slots e))) / length (rows_from 0 (be_slots e)) = n_vocab (ModelDef:=target)) as ->.
    { rewrite concat_rows_length, E4, Nat.mul_comm. apply Nat.div_mul.
      destruct (segments (be_slots e)); [done|]. simpl. lia. }
    pose proof (write_rows_done (be_slots e) 0 0 [] [] eq_refl eq_refl) as Hw. simpl in Hw. rewrite Hw. clear Hw.
    split; [|split].
    + split; simpl.
      * done.
      * rewrite map_row_done_seqs. apply Hok.
      * intros i s'. rewrite list_lookup_fmap. destruct (be_slots e !! i) as [s|] eqn:Hi; [|done].
        intros [= <-]. apply (slot_rows_done gh e a'); try done.
        intros g Hg. split; [by apply Hh|by apply Hcaps].
      * intros i h s' Hgh. rewrite list_lookup_fmap. destruct (be_slots e !! i) as [s|] eqn:Hi; [|done].
        intros [= <-]. pose proof (eo_idle _ _ _ _ _ _ _ Hok i h s Hgh Hi) as Hr. unfold row_done. by rewrite Hr.
      * apply Hok.
    + split; simpl; [done|done|apply map_row_done_seqs|]. intros i s Hi Hr.
      rewrite list_lookup_fmap, Hi. simpl. unfold row_done. by rewrite Hr.
    + intros i s' r'. simpl. rewrite list_lookup_fmap. destruct (be_slots e !! i) as [s|] eqn:Hi; [|done].
      intros [= <-]. unfold row_done. destruct (ss_run s) as [r|] eqn:Hr; [|by rewrite Hr].
      destruct (br_needs r) as [t|] eqn:Ht; [by intros [= <-]|]. rewrite Hr. by intros [= <-].
  - assert (engine_ok gh (set_cache a' e)) as Hok'.
    { split; simpl; [done|apply Hok| | |apply Hok].
      - intros i s Hi. by apply (slot_rows_lost gh e a').
      - intros i h s. by apply Hok. }
    assert (∀ i, i ∈ map (λ '(i, _, _, _), i) (rows_from 0 (be_slots e)) →
      ∃ s r, be_slots e !! i = Some s ∧ ss_run s = Some r) as Hidx.
    { intros i Hi. apply list_elem_of_fmap in Hi as ([[[j t] pos] sq] & -> & Hin).
      apply row_index in Hin as (s & r & Hs & _ & Hr & _). rewrite Nat.sub_0_r in Hs. eauto. }
    destruct (rows_from 0 (be_slots e)) as [|x rows] eqn:Hrf.
    { destruct (segments (be_slots e)); [done|]. simpl in E4. lia. }
    rewrite <-Hrf in *.
    destruct (fail_batch_ok gh InferencePanicked (map (λ '(i, _, _, _), i) (rows_from 0 (be_slots e))) (set_cache a' e))
      as (H1 & H2 & H3 & H4 & H5); [done|done| |].
    { intros i h Hgh Hin. destruct (Hidx i Hin) as (s & r & Hs & Hr).
      by rewrite (eo_idle _ _ _ _ _ _ _ Hok i h s Hgh Hs) in Hr. }
    split; [done|]. split; [by rewrite H2|by rewrite H3|by rewrite H4|].
    intros i s Hi Hr. rewrite H5; [done|]. intros Hin. destruct (Hidx i Hin) as (s' & r & Hs & Hr').
    simpl in *. congruence.
Qed.

(** ** The runs advance *)
#[local] Abbreviation step_slot := (step_slot decode_bytes special spent (P:=P)).

Lemma on_slot_apart i f e : (∀ s, ss_seq (f s) = ss_seq s) → apart i e (on_slot i f e).
Proof using. by apply apart_alter. Qed.

Lemma stepped_apart i e e' :
  apart i e e' → be_n_batch e' = be_n_batch e →
  (∀ s, be_slots e !! i = Some s → ss_run s ≠ None) → stepped e e'.
Proof using.
  intros [A1 A2 A3 A4] Hb Hr. split; [done..|]. intros j s Hj Hn.
  destruct (decide (j = i)) as [->|]; [by destruct (Hr s Hj)|by rewrite A3].
Qed.

Lemma fail_n_batch i er e : be_n_batch (fail i er e) = be_n_batch e.
Proof using. unfold fail. destruct (be_slots e !! i) as [s|]; [|done]. by destruct (ss_run s). Qed.

Lemma finish_n_batch i reason e : be_n_batch (finish i reason e) = be_n_batch e.
Proof using.
  unfold finish. destruct (be_slots e !! i) as [s|]; [|done]. destruct (ss_run s); [|done].
  by destruct (if _ <? _ then _ else _) as [[] o].
Qed.

Lemma step_slot_ok gh i e :
  engine_ok gh e →
  (∀ s r, be_slots e !! i = Some s → ss_run s = Some r → br_needs r = None) →
  match step_slot i e with
  | (Ok b, e') => engine_ok gh e' ∧ stepped e e' ∧ (∀ j, j ≠ i → be_slots e' !! j = be_slots e !! j)
  | (Err _, _) => False
  | (Panic, _) => True
  end.
Proof using.
  intros Hok Hn. unfold BatchEngine.step_slot.
  destruct (be_slots e !! i) as [s|] eqn:Hi; [|split; [done|split; [apply stepped_refl|done]]].
  destruct (ss_run s) as [r|] eqn:Hr; [|split; [done|split; [apply stepped_refl|done]]].
  assert (∀ h, gh ≠ Some (i, h)) as Hg.
  { intros h Hgh. by rewrite (eo_idle _ _ _ _ _ _ _ Hok i h s Hgh Hi) in Hr. }
  pose proof (eo_slots _ _ _ _ _ _ _ Hok i s Hi) as Hso.
  destruct (so_run _ _ _ _ _ _ _ _ Hso r Hr) as [Hh Htr]. rewrite Hh in Htr.
  destruct Htr as [Hp Hro Hf Ht].
  pose proof (advance_turn decode_bytes special spent _ _ _ Hro (Hn s r eq_refl Hr)) as Hadv.
  pose proof (slot_cap_bound _ _ _ _ _ _ _ _ _ (eo_cache _ _ _ _ _ _ _ Hok) Hso) as Hcap.
  assert (∀ x, be_slots e !! i = Some x → ss_run x ≠ None) as Hrun by (intros x Hx; congruence).
  destruct (advance decode_bytes special spent (ss_cap s) r) as [[[|reason]|er|] r'].
  - destruct Hadv as (Hro' & Htu & _ & Hid & Hpa & _). split; [|split].
    + eapply (engine_ok_local _ _ _ _ _ gh e _ i s (set_ss_run (Some r'))); try done; simpl.
      * assert (history gh i (set_ss_run (Some r') s) = ss_cached s) as ->.
        { unfold history. destruct gh as [[i' h]|]; [|done]. destruct (Nat.eqb_spec i i'); [|done].
          subst. by destruct (Hg h). }
        destruct Hso as [Hhold Hc _]. rewrite Hh in Hhold. split; simpl; [done|done|].
        intros r'' [= <-]. split; [done|]. split; rewrite ?Hid, ?Hpa; [done..|]. by rewrite Ht, Htu.
      * intros h Hgh. by destruct (Hg h).
      * apply Hok.
    + eapply stepped_apart; [|done|exact Hrun]. by apply (apart_alter i (set_ss_run (Some r'))).
    + intros j Hj. simpl. by rewrite list_lookup_alter_ne by done.
  - destruct Hadv as [Hid Hfin].
    assert (apart i e (finish i reason (on_slot i (set_ss_run (Some r')) e))) as Hap.
    { eapply apart_trans; [by apply (on_slot_apart i (set_ss_run (Some r')))|apply finish_apart]. }
    split; [|split; [|apply Hap]].
    + eapply finish_ok; [done|done|done|congruence|]. left. simpl. rewrite Hid.
      exists (ss_cap s), (turn_of decode_bytes special (ss_cached s) (ss_cap s) r).
      rewrite <-Hp. split_and!; [done|done|done|exact Hfin].
    + eapply stepped_apart; [exact Hap|by rewrite finish_n_batch|exact Hrun].
  - destruct Hadv as [Hid Her].
    assert (apart i e (fail i er (on_slot i (set_ss_run (Some r')) e))) as Hap.
    { eapply apart_trans; [by apply (on_slot_apart i (set_ss_run (Some r')))|apply fail_apart]. }
    split; [|split; [|apply Hap]].
    + eapply fail_run_ok; [done|done|done|]. left. simpl. rewrite Hid.
      exists (ss_cap s), (turn_of decode_bytes special (ss_cached s) (ss_cap s) r).
      rewrite <-Hp. split_and!; [done|done|done|]. by intros _.
    + eapply stepped_apart; [exact Hap|by rewrite fail_n_batch|exact Hrun].
  - done.
Qed.

Lemma step_slots_ok gh idxs e :
  engine_ok gh e → NoDup idxs →
  (∀ i s r, i ∈ idxs → be_slots e !! i = Some s → ss_run s = Some r → br_needs r = None) →
  match step_slots decode_bytes special spent idxs e with
  | (Ok _, e') => engine_ok gh e' ∧ stepped e e'
  | (Err _, _) => False
  | (Panic, _) => True
  end.
Proof using.
  revert e. induction idxs as [|i idxs IH]; intros e Hok Hnd Hn; cbn [step_slots].
  { split; [done|apply stepped_refl]. }
  apply NoDup_cons in Hnd as [Hni Hnd]. unfold mbind, op_bind.
  pose proof (step_slot_ok gh i e Hok) as Hs.
  destruct (step_slot i e) as [[b|er|] e1]; [|apply Hs; intros; eapply Hn; [by left|done..]|done].
  destruct Hs as (Hok1 & Hst1 & Hoth); [intros; eapply Hn; [by left|done..]|].
  specialize (IH e1 Hok1 Hnd). destruct (step_slots decode_bytes special spent idxs e1) as [[rest|er|] e2].
  - destruct IH as [Hok2 Hst2]; [|by split; [|eapply stepped_trans]].
    intros j s r Hj. rewrite Hoth by (intros ->; done). intros. eapply Hn; [by right|done..].
  - apply IH. intros j s r Hj. rewrite Hoth by (intros ->; done). intros. eapply Hn; [by right|done..].
  - done.
Qed.

(** ** The stamp *)

Lemma stamp_ok gh idxs e : engine_ok gh e → engine_ok gh (stamp idxs e) ∧ stepped e (stamp idxs e).
Proof using.
  unfold stamp. revert e.
  induction idxs as [|i idxs IH]; intros e Hok; simpl; [by split; [|apply stepped_refl]|].
  set (f := λ s : SlotState, set_ss_run (option_map (set_br_progress (be_work_units e)) (ss_run s)) s).
  assert (engine_ok gh (on_slot i f e) ∧ stepped e (on_slot i f e)) as [Hok1 Hst1].
  { destruct (be_slots e !! i) as [s|] eqn:Hi.
    2: { assert (alter f i (be_slots e) = be_slots e) as Ha.
         { apply list_eq. intros j. destruct (decide (i = j)) as [<-|].
           - rewrite list_lookup_alter_eq, Hi. done.
           - by rewrite list_lookup_alter_ne. }
         split; [|split; simpl; rewrite ?Ha; done].
         apply (engine_ok_same _ _ _ _ _ gh e); [done|done|done|done|apply Hok]. }
    split.
    - eapply (engine_ok_local _ _ _ _ _ gh e _ i s f); try done; simpl.
      + assert (history gh i (f s) = history gh i s) as -> by done.
        destruct (eo_slots _ _ _ _ _ _ _ Hok i s Hi) as [Hh Hc Hr]. split; simpl; [done|done|].
        intros r. destruct (ss_run s) as [r0|] eqn:Hr0; [|done]. simpl. intros [= <-].
        destruct (Hr r0 eq_refl) as [-> [Hp [R1 R2 R3 R4 R5] Hf Ht]]. split; [done|].
        split; simpl; [done|by split|done|done].
      + intros h Hgh. by rewrite (eo_idle _ _ _ _ _ _ _ Hok i h s Hgh Hi).
      + apply Hok.
    - split; simpl; [done|done|by apply map_seq_alter|]. intros j x Hj Hr.
      destruct (decide (i = j)) as [<-|]; [|by rewrite list_lookup_alter_ne].
      rewrite list_lookup_alter_eq, Hj. simpl. f_equal. unfold f. rewrite Hr. by destruct x; simpl in *; subst. }
  destruct (IH _ Hok1) as [Hok2 Hst2]. split; [done|by eapply stepped_trans].
Qed.

(** ** A whole step *)

Lemma tick_ok gh e :
  engine_ok gh e → length (be_slots e) ≤ MAX_BATCH →
  match tick decode_bytes special spent Off e with
  | (Panic, _) => True
  | (_, e') => engine_ok gh e' ∧ stepped e e'
  end.
Proof using laws blaws.
  intros Hok Hlen. unfold tick, mbind, op_bind, get, modify.
  pose proof (forward_rows_ok gh e Hok Hlen) as Hf.
  destruct (forward_rows e) as [[written|er|] e1]; [|done|done].
  destruct Hf as (Hok1 & Hst1 & Hw).
  pose proof (step_slots_ok gh (seq 0 (length (be_slots e1))) e1 Hok1 (NoDup_seq _ _)) as Hs.
  destruct (step_slots decode_bytes special spent (seq 0 (length (be_slots e1))) e1) as [[moved|er|] e2].
  - destruct Hs as [Hok2 Hst2]; [intros i s r _; apply Hw|].
    destruct (stamp_ok gh (written ++ moved) e2 Hok2) as [Hok3 Hst3]. split; [done|].
    eapply stepped_trans; [exact Hst1|]. by eapply stepped_trans.
  - destruct Hs. intros i s r _. apply Hw.
  - done.
Qed.
End ticks.
