(* ===== verification/BatchAdmit.v ===== *)
(** * Admission keeps the invariant

    Making room, taking over a prefix and feeding the rest of a prompt, with
    the other slots going on in between, leave the new slot with the rows of
    its prompt and everybody else on his turn. *)
From Stdlib Require Import ZArith Lia Strings.Byte.
From stdpp Require Import base numbers list option gmap.
From S2P Require Import Prelude Gguf Grammar KvCache KvFacts KvPlans KvArena KvRows KvSteps KvProps KvFollow Batch Sampling Spec Chat ChatFacts ChatProps BatchEngine BatchRows BatchTurns BatchFacts BatchTick.
Local Open Scope nat_scope.

(** ** The chunks of a prompt *)

(** Spans that follow each other from [from] to [total]. *)
Inductive chain : nat → nat → list (nat * nat) → Prop :=
| chain_nil total : chain total total []
| chain_cons from to total spans : from < to → chain to total spans → chain from total ((from, to) :: spans).

Lemma chunk_loop_chain fuel from total chunk :
  0 < chunk → from ≤ total → total - from ≤ fuel → chain from total (chunk_loop fuel from total chunk).
Proof.
  intros Hc. revert from. induction fuel as [|fuel IH]; intros from Hle Hf; simpl.
  { replace from with total by lia. constructor. }
  destruct (Nat.ltb_spec from total); [|replace from with total by lia; constructor].
  constructor; [lia|]. apply IH; lia.
Qed.

Lemma prefill_chunks_chain from total chunk : from ≤ total → chain from total (prefill_chunks from total chunk).
Proof.
  intros Hle. unfold prefill_chunks. destruct (Nat.leb_spec total from).
  { replace from with total by lia. constructor. }
  destruct (Nat.eqb_spec chunk 0); simpl; [constructor; [lia|constructor]|].
  destruct (total - from <=? chunk); [constructor; [lia|constructor]|]. apply chunk_loop_chain; lia.
Qed.

(** ** Common prefixes *)

Lemma common_prefix_le cached prompt n :
  n ≤ common_prefix_len cached prompt → take n cached = take n prompt ∧ n ≤ length cached ∧ n ≤ length prompt.
Proof.
  revert prompt n. induction cached as [|a cached IH]; intros [|b prompt] n; simpl;
    try (intros ?; assert (n = 0) as -> by lia; simpl; by split; [|split; lia]).
  destruct (Nat.eqb_spec a b) as [->|]; [|intros ?; assert (n = 0) as -> by lia; simpl; split; [done|split; lia]].
  destruct n as [|n]; [simpl; split; [done|split; lia]|]. intros Hn.
  destruct (IH prompt n) as (Ht & ? & ?); [lia|]. rewrite !firstn_cons. simpl. split; [by rewrite Ht|split; lia].
Qed.

Section admission.
Context {F K M R W P C : Type} `{!Floats F, !SamplerMaths F K M R}.
Context `{!CellPool W P, pool_laws : !CellPoolLaws W P, !BatchModel F P, !ModelRows W}.
Context `{target : !ModelDef F C, laws : !ModelLaws F C, blaws : !BatchLaws F W P C}.
Context (mirostat_new : K → M) (seed_from_u64 : N → R).
Context (decode_bytes : nat → bytes) (special : SpecialTokens).
Context (spent : SamplerConfig K → list F → list nat → M → option GrammarState → R → list F).
Context (jobs : N → Job (K:=K)).

#[local] Abbreviation Run := (BatchEngine.Run (F:=F) (K:=K) (M:=M) (R:=R)).
#[local] Abbreviation SlotState := (BatchEngine.SlotState (F:=F) (K:=K) (M:=M) (R:=R)).
#[local] Abbreviation Engine := (BatchEngine (F:=F) (K:=K) (M:=M) (R:=R) (P:=P)).
#[local] Abbreviation engine_ok := (engine_ok (target:=target) (laws:=laws) mirostat_new seed_from_u64 decode_bytes special jobs (P:=P) (R:=R) (M:=M)).
#[local] Abbreviation slot_ok := (slot_ok (target:=target) (laws:=laws) mirostat_new seed_from_u64 decode_bytes special jobs (P:=P) (R:=R) (M:=M)).
Implicit Types (a : Alloc P) (s : SlotState) (r : Run) (e : Engine) (l : list SlotState).

(** What an operation on the idle slot [i] keeps of the engine: who the slots
    are, and every running one as it is. *)
Record readied (i : nat) e e' : Prop := {
  rd_n_ctx : be_n_ctx_total e' = be_n_ctx_total e;
  rd_n_batch : be_n_batch e' = be_n_batch e;
  rd_seqs : map ss_seq (be_slots e') = map ss_seq (be_slots e);
  rd_runs : map ss_run (be_slots e') = map ss_run (be_slots e)
}.

Lemma readied_refl i e : readied i e e.
Proof using. by split. Qed.
Lemma readied_trans i e e1 e2 : readied i e e1 → readied i e1 e2 → readied i e e2.
Proof using. intros [? ? ? ?] [? ? ? ?]. split; congruence. Qed.

Lemma readied_at i e e' j s : readied i e e' → be_slots e !! j = Some s →
  ∃ s', be_slots e' !! j = Some s' ∧ ss_seq s' = ss_seq s ∧ ss_run s' = ss_run s.
Proof using.
  intros [_ _ Hq Hr] Hj. apply (f_equal (lookup j)) in Hq, Hr.
  rewrite !list_lookup_fmap, Hj in Hq. rewrite !list_lookup_fmap, Hj in Hr. destruct (be_slots e' !! j) as [s'|]; [|done].
  exists s'. simpl in *. split; [done|]. split; congruence.
Qed.

Lemma map_alter_same {B} (g : SlotState → B) f i l : (∀ s, g (f s) = g s) → map g (alter f i l) = map g l.
Proof using.
  intros Hf. revert i. induction l as [|s l IH]; intros [|i]; simpl; [done..| |].
  - by rewrite Hf.
  - f_equal. apply IH.
Qed.

(** ** Following the moves *)

Lemma apply_run_moves_same {B} (g : SlotState → B) ms l :
  (∀ x s, g (set_ss_start x s) = g s) → map g (apply_run_moves l ms) = map g l.
Proof using.
  intros Hg. unfold apply_run_moves. revert l. induction ms as [|m ms IH]; intros l; simpl; [done|].
  rewrite IH. destruct (list_find _ l) as [[i x]|]; [|done]. apply map_alter_same. intros. apply Hg.
Qed.

Lemma apply_run_moves_at ms l i s : apply_run_moves l ms !! i = Some s →
  ∃ s0, l !! i = Some s0 ∧ ∃ x, s = set_ss_start x s0.
Proof using.
  unfold apply_run_moves. revert l. induction ms as [|m ms IH]; intros l; simpl.
  { intros Hs. exists s. split; [done|]. exists (ss_start s). by destruct s. }
  intros (s1 & Hs1 & x & ->)%IH. destruct (list_find _ l) as [[j y]|]; [|by eauto].
  destruct (decide (j = i)) as [->|].
  - rewrite list_lookup_alter_eq in Hs1. destruct (l !! i) as [s0|]; [|done]. injection Hs1 as <-.
    exists s0. split; [done|]. by exists x.
  - rewrite list_lookup_alter_ne in Hs1 by done. eauto.
Qed.

Lemma history_start gh i x s : history gh i (set_ss_start x s) = history gh i s.
Proof using. done. Qed.

Lemma slot_ok_start a h x s : slot_ok a h s → slot_ok a h (set_ss_start x s).
Proof using. by intros [? ? ?]. Qed.

Lemma moves_ok gh e ms :
  engine_ok gh e → engine_ok gh (set_slots (apply_run_moves (be_slots e) ms) e).
Proof using.
  intros Hok. split; simpl.
  - apply Hok.
  - rewrite (apply_run_moves_same ss_seq) by done. apply Hok.
  - intros i s (s0 & Hs & x & ->)%apply_run_moves_at. rewrite history_start. apply slot_ok_start.
    by apply (eo_slots _ _ _ _ _ _ _ Hok).
  - intros i h s Hgh (s0 & Hs & x & ->)%apply_run_moves_at. simpl. by eapply (eo_idle _ _ _ _ _ _ _ Hok).
  - apply Hok.
Qed.

Lemma moves_readied i e ms : readied i e (set_slots (apply_run_moves (be_slots e) ms) e).
Proof using. split; simpl; [done|done|by apply apply_run_moves_same..]. Qed.

(** ** Room *)

Lemma engine_ok_cache gh e a' :
  engine_ok gh e → cache_ok (be_n_ctx_total e) a' →
  (∀ i s, be_slots e !! i = Some s → seq_kept (be_cache e) a' (ss_seq s)) →
  engine_ok gh (set_cache a' e).
Proof using.
  intros Hok Hc Hk. split; simpl; [done|apply Hok| | |apply Hok].
  - intros i s Hi. apply (slot_ok_kept _ _ _ _ _ (be_cache e)); [by eapply Hk|by apply (eo_slots _ _ _ _ _ _ _ Hok)].
  - intros i h s. apply (eo_idle _ _ _ _ _ _ _ Hok).
Qed.

(** The run of slot [i] was reserved or resized to [slot]. *)
Lemma adopt_ok e i s a' (slot : SeqSlot) ms :
  engine_ok None e → be_slots e !! i = Some s → ss_run s = None →
  cache_ok (be_n_ctx_total e) a' → (∀ sq, sq ≠ ss_seq s → seq_kept (be_cache e) a' sq) →
  seq_holds a' (ss_seq s) (ss_cached s) →
  sl_cap <$> kv_seqs (ga_kv a') !! ss_seq s = Some (sl_cap slot) → sl_cap slot ≠ 0 →
  match adopt i slot ms (set_cache a' e) with
  | (Ok _, e') => engine_ok None e' ∧ readied i e e'
  | _ => False
  end.
Proof using.
  intros Hok Hi Hr Hc Hk Hh Hcap Hz. unfold adopt, mbind, op_bind, modify.
  pose proof (moves_ok None e ms Hok) as Hok1. set (e1 := set_slots _ e) in Hok1.
  assert (∃ x, be_slots e1 !! i = Some (set_ss_start x s)) as [x Hx].
  { destruct (readied_at i e e1 i s (moves_readied i e ms) Hi) as (s' & Hs' & _).
    pose proof Hs' as (s0 & Hs0 & x & Hx)%apply_run_moves_at. exists x. rewrite Hs', Hx. congruence. }
  set (f := set_ss_place (sl_start slot) (sl_cap slot)). split.
  - eapply (engine_ok_slot _ _ _ _ _ None None e1 _ i _ f); try done; simpl.
    + split; simpl; [done|by rewrite Hcap, (proj2 (Nat.eqb_neq _ _))|]. by rewrite Hr.
    + apply Hok.
  - split; simpl; [done|done|..].
    + rewrite map_alter_same by done. by apply (apply_run_moves_same ss_seq).
    + rewrite map_alter_same by done. by apply (apply_run_moves_same ss_run).
Qed.

Lemma release_ok e j s :
  engine_ok None e → be_slots e !! j = Some s → ss_run s = None →
  engine_ok None (release j s e) ∧ (∀ i, i ≠ j → be_slots (release j s e) !! i = be_slots e !! i) ∧
  readied j e (release j s e).
Proof using.
  intros Hok Hj Hr. unfold release. set (f := λ s, set_ss_cached [] _).
  destruct (release_step (be_n_ctx_total e) (ss_seq s) (be_cache e) (eo_cache _ _ _ _ _ _ _ Hok))
    as (Hc & Hk & Hnone). cbn in Hnone. split; [|split].
  - eapply (engine_ok_slot _ _ _ _ _ None None e _ j s f); try done; simpl.
    + split; simpl; [apply seq_holds_nil|by rewrite Hnone|by rewrite Hr].
    + apply Hok.
  - intros i Hi. simpl. by rewrite list_lookup_alter_ne.
  - split; simpl; [done|done|by apply map_alter_same..].
Qed.

Lemma reclaim_ok i need js e :
  engine_ok None e →
  engine_ok None (reclaim i need js e) ∧ be_slots (reclaim i need js e) !! i = be_slots e !! i ∧
  readied i e (reclaim i need js e).
Proof using.
  revert e. induction js as [|j js IH]; intros e Hok; simpl; [by split; [|split; [|apply readied_refl]]|].
  destruct (be_slots e !! j) as [s|] eqn:Hj; [|by split; [|split; [|apply readied_refl]]].
  destruct (Nat.eqb_spec j i); simpl; [by apply IH|].
  unfold running. case_bool_decide as Hr; simpl; [by apply IH|].
  destruct (ss_cap s =? 0); simpl; [by apply IH|].
  destruct (_ <=? _); [by split; [|split; [|apply readied_refl]]|].
  destruct (release_ok e j s Hok Hj) as (H1 & H2 & H3); [by apply eq_None_not_Some|].
  destruct (IH _ H1) as (H4 & H5 & H6). split; [done|split].
  - rewrite H5. apply H2. done.
  - eapply (readied_trans i); [|exact H6]. destruct H3; by split.
Qed.

Lemma ensure_ok i want e s :
  engine_ok None e → be_slots e !! i = Some s → ss_run s = None →
  match ensure_slot_capacity true i want e with
  | (Ok _, e') => engine_ok None e' ∧ readied i e e'
  | _ => False
  end.
Proof using pool_laws.
  intros Hok Hi Hr. unfold ensure_slot_capacity, mbind, op_bind, get, slot_at, mret, op_ret.
  rewrite Hi. cbn [or_panic]. set (w := want `min` be_n_ctx_total e).
  destruct (Nat.eqb_spec w 0) as [|Hw]; cbn [orb]; [by split; [|apply readied_refl]|].
  destruct (Nat.leb_spec w (ss_cap s)) as [|Hlt]; [by split; [|apply readied_refl]|].
  pose proof (eo_slots _ _ _ _ _ _ _ Hok i s Hi) as Hso. simpl in Hso.
  destruct (Nat.eqb_spec (ss_cap s) 0) as [Hz|Hz].
  - assert (ss_cached s = []) as Hnil.
    { apply nil_length_inv. pose proof (slot_room _ _ _ _ _ _ _ _ _ (eo_cache _ _ _ _ _ _ _ Hok) Hso). lia. }
    assert (kv_seqs (ga_kv (be_cache e)) !! ss_seq s = None) as Hnone.
    { destruct Hso as [_ Hc _]. rewrite Hz in Hc. simpl in Hc.
      by destruct (kv_seqs (ga_kv (be_cache e)) !! ss_seq s). }
    pose proof (reserve_step (be_n_ctx_total e) (ss_seq s) w (be_cache e) (eo_cache _ _ _ _ _ _ _ Hok)
      ltac:(lia) Hnone) as Hstep. unfold attempt.
    destruct (kv_reserve_seq_with_defrag true (ss_seq s) w (be_cache e)) as [[[slot ms]|er|] a'];
      [|..|by destruct Hstep as (_ & _ & ?)].
    + destruct Hstep as (Hc & Hk & Hcap & Hcw). apply (adopt_ok e i s a'); try done; [|lia].
      rewrite Hnil. apply seq_holds_nil.
    + destruct Hstep as (Hc & Hk & Hn'). split; [|by split].
      eapply (engine_ok_slot _ _ _ _ _ None None e _ i s (λ s, s)); try done; simpl.
      * symmetry. by apply list_alter_id.
      * rewrite Hnil. split; [apply seq_holds_nil|by rewrite Hn', Hz|by rewrite Hr].
      * apply Hok.
  - unfold modify.
    destruct (reclaim_ok i (w - ss_cap s) (seq 0 (length (be_slots e))) e Hok) as (Hok1 & Hi1 & Hrd).
    set (e1 := reclaim _ _ _ e) in *. rewrite Hi in Hi1.
    pose proof (eo_slots _ _ _ _ _ _ _ Hok1 i s Hi1) as Hso1. simpl in Hso1.
    destruct Hso1 as [Hh1 Hc1 _]. rewrite (proj2 (Nat.eqb_neq _ _)) in Hc1 by done.
    destruct (kv_seqs (ga_kv (be_cache e1)) !! ss_seq s) as [slot0|] eqn:Hs0; [|done]. injection Hc1 as Hc1.
    pose proof (resize_step (be_n_ctx_total e1) (ss_seq s) w slot0 (be_cache e1) (eo_cache _ _ _ _ _ _ _ Hok1)
      ltac:(lia) ltac:(rewrite (rd_n_ctx _ _ _ Hrd); lia) Hs0) as Hstep. unfold attempt.
    destruct (kv_set_cap_with_defrag true (ss_seq s) w (be_cache e1)) as [[[slot ms]|er|] a'];
      [|..|by destruct Hstep as (_ & _ & _ & ?)].
    + destruct Hstep as (Hc & Hk & Hh & Hcap & Hcw).
      pose proof (adopt_ok e1 i s a' slot ms Hok1 Hi1 Hr Hc Hk (Hh _ Hh1) Hcap ltac:(lia)) as Had.
      destruct (adopt i slot ms (set_cache a' e1)) as [[[]|er|] e2]; [|done..].
      destruct Had as [Had Hrd2]. split; [done|]. by eapply readied_trans.
    + destruct Hstep as (Hc & Hk & Hh & Hcap). split; [|destruct Hrd; by split].
      eapply (engine_ok_slot _ _ _ _ _ None None e1 _ i s (λ s, s)); try done; simpl.
      * symmetry. by apply list_alter_id.
      * split; [by apply Hh|by rewrite Hcap, (proj2 (Nat.eqb_neq _ _)), Hc1|by rewrite Hr].
      * apply Hok1.
Qed.

(** ** Where the feeding starts *)

Lemma best_donor_found idx usable prompt j l best n d :
  best_donor idx usable prompt j l best = (n, d) →
  (n, d) = best ∨
  (∃ src s, d = Some src ∧ j ≤ src ∧ src ≠ idx ∧ l !! (src - j) = Some s ∧ best.1 < n ∧
     n = common_prefix_len (ss_cached s) prompt `min` usable).
Proof using.
  revert j best. induction l as [|s l IH]; intros j best; simpl; [by left|].
  set (m := common_prefix_len (ss_cached s) prompt `min` usable).
  intros [Hb|(src & s' & -> & Hj & Hne & Hs & Hlt & Hn)]%IH.
  - destruct (Nat.eqb_spec j idx); simpl in Hb; [by left|]. destruct (length (ss_cached s) =? 0); [by left|].
    destruct (Nat.ltb_spec best.1 m); [|by left]. injection Hb as -> ->. right.
    exists j, s. rewrite Nat.sub_diag. split_and!; done.
  - right. exists src, s'. replace (src - j) with (S (src - S j)) by lia.
    split; [done|split; [lia|split; [done|split; [done|split; [|done]]]]].
    destruct (_ || _); [done|]. destruct (Nat.ltb_spec best.1 m); simpl in Hlt; lia.
Qed.

(** The slot takes over the longest prefix of the prompt there is. *)
Lemma feed_from_ok idx input_ids e s :
  engine_ok None e → be_slots e !! idx = Some s → ss_run s = None →
  match feed_from false false idx input_ids e with
  | (Ok from, e') => engine_ok None e' ∧ readied idx e e' ∧ from ≤ length input_ids - 1 ∧
      seq_holds (be_cache e') (ss_seq s) (take from input_ids) ∧
      (∀ s', be_slots e' !! idx = Some s' → ss_cap s' = ss_cap s)
  | _ => False
  end.
Proof using pool_laws.
  intros Hok Hi Hr. unfold feed_from, feed_span, prefill_span, mbind, op_bind, slot_at, get, mret, op_ret. rewrite Hi. simpl.
  pose proof (eo_slots _ _ _ _ _ _ _ Hok) as Hsl. pose proof (Hsl idx s Hi) as Hso. simpl in Hso.
  unfold shared_prefix. rewrite andb_false_r.
  set (own := common_prefix_len (ss_cached s) input_ids `min` (length input_ids - 1)).
  assert (∀ n (x : SlotState), slot_ok (be_cache e) (ss_cached x) x →
    n ≤ common_prefix_len (ss_cached x) input_ids → seq_holds (be_cache e) (ss_seq x) (take n input_ids)) as Hpre.
  { intros n x [Hh _ _] (<- & _ & _)%common_prefix_le.
    apply (seq_holds_prefix _ _ _ (drop n (ss_cached x))). by rewrite take_drop. }
  assert (engine_ok None e ∧ readied idx e e ∧ own ≤ length input_ids - 1 ∧
    seq_holds (be_cache e) (ss_seq s) (take own input_ids) ∧
    (∀ s', be_slots e !! idx = Some s' → ss_cap s' = ss_cap s)) as Hown.
  { split; [done|split; [apply readied_refl|split; [lia|split]]].
    - apply Hpre; [done|lia].
    - intros s'. rewrite Hi. by intros [= <-]. }
  destruct (best_donor idx _ input_ids 0 (be_slots e) _) as [n d] eqn:Hbest. simpl.
  apply best_donor_found in Hbest as [[= -> ->]|(src & from & -> & _ & Hne & Hf & Hlt & Hn)].
  { rewrite Nat.min_l by lia. exact Hown. }
  rewrite Nat.sub_0_r in Hf. simpl in Hlt.
  unfold copy_prefix_from, attempt, modify, mbind, op_bind, slot_at, mret, op_ret. rewrite Hf, Hi. simpl.
  destruct (common_prefix_le (ss_cached from) input_ids n) as (Htake & Hlc & Hlp); [lia|].
  pose proof (Hsl src from Hf) as Hsof. simpl in Hsof.
  assert (ss_seq from ≠ ss_seq s) as Hsne by (eapply seqs_apart; [apply Hok|exact Hf|exact Hi|done]).
  pose proof (copy_step (be_n_ctx_total e) (ss_seq from) (ss_seq s) n (ss_cached from) (be_cache e)
    (eo_cache _ _ _ _ _ _ _ Hok) Hsne ltac:(lia) (so_holds _ _ _ _ _ _ _ _ Hsof) Hlc) as Hstep.
  destruct (kv_copy_prefix (ss_seq from) (ss_seq s) n (be_cache e)) as [[[]|er|] a'];
    [|..|by destruct Hstep as (_ & _ & _ & ?)].
  - destruct Hstep as (Hc & Hk & Hcap & Hh).
    set (f := set_ss_cached (take n (ss_cached from)) : SlotState → SlotState).
    split; [|split; [|split; [lia|split; [by rewrite <-Htake|]]]].
    + eapply (engine_ok_slot _ _ _ _ _ None None e _ idx s f); try done; simpl.
      * split; simpl; [done|by rewrite Hcap; apply Hso|by rewrite Hr].
      * apply Hok.
    + split; simpl; [done|done|by apply map_alter_same..].
    + intros s'. simpl. rewrite list_lookup_alter_eq, Hi. by intros [= <-].
  - destruct Hstep as (Hc & Hk & Hcap & ->). destruct Hown as (H1 & H2 & H3 & H4 & H5).
    split; [by apply (engine_ok_same _ _ _ _ _ None e); [..|apply Hok]|].
    split; [by destruct H2|]. done.
Qed.

(** ** Feeding the rest *)

(** The record of slot [i] no longer names its rows. *)
Lemma engine_ok_ghost e i s h :
  engine_ok None e → be_slots e !! i = Some s → ss_run s = None → seq_holds (be_cache e) (ss_seq s) h →
  engine_ok (Some (i, h)) e.
Proof using.
  intros [Hc Hnd Hs Hid Ha] Hi Hr Hh. split; [done|done| | |done].
  - intros j x Hj. specialize (Hs j x Hj). unfold history. destruct (Nat.eqb_spec j i) as [->|]; [|done].
    assert (x = s) as -> by congruence. destruct Hs as [_ Hcap _]. split; [done|done|by rewrite Hr].
  - intros j h' x [= <- <-] Hj. congruence.
Qed.

Lemma reject_ok gh e (job : Job (K:=K)) er :
  refusal er → jobs (jb_id job) = job → engine_ok gh e →
  engine_ok gh (drop_sender (jb_id job) (send (EvErr er) (jb_tx job)).2 e).
Proof using.
  intros Her Hj Hok. apply (engine_ok_same _ _ _ _ _ gh e); [done..|]. simpl. apply Forall_app.
  split; [apply Hok|]. apply Forall_singleton. right. right. exists er. simpl. by rewrite Hj.
Qed.

(** One chunk of the prompt. *)
Lemma chunk_ok e i s from to input_ids :
  engine_ok (Some (i, take from input_ids)) e → be_slots e !! i = Some s →
  from < to → to ≤ length input_ids → to ≤ ss_cap s →
  let toks := take (to - from) (drop from input_ids) in
  let b := mkBatch (map N.of_nat toks) (seq from (to - from)) (replicate (to - from) (ss_seq s)) in
  match guarded_forward_batch b (count_prefill (batch_len b) e) with
  | (Ok logits, e') => logits = logits_after (take to input_ids) ∧
      engine_ok (Some (i, take to input_ids)) e' ∧ stepped e e'
  | (Err er, _) => er = InferencePanicked
  | (Panic, _) => False
  end.
Proof using blaws.
  intros Hok Hi Hlt Hto Hcap. cbn zeta. set (toks := take (to - from) (drop from input_ids)).
  set (g := mkSegment (ss_seq s) (take from input_ids) toks).
  assert (length toks = to - from) as Hlen by (subst toks; rewrite length_take, length_drop; lia).
  assert (continued g = take to input_ids) as Hcont.
  { unfold continued. subst g toks. simpl. rewrite <-skipn_firstn_comm.
    rewrite <-(take_drop from (take to input_ids)) at 2. by rewrite take_take, Nat.min_l by lia. }
  set (b := mkBatch _ _ _). unfold guarded_forward_batch.
  assert (b = batch_of [g]) as ->.
  { unfold b, batch_of. simpl. rewrite !app_nil_r, length_take, Hlen, Nat.min_l by lia. done. }
  pose proof (eo_slots _ _ _ _ _ _ _ Hok i s Hi) as [Hh Hc Hrun].
  pose proof (eo_idle _ _ _ _ _ _ _ Hok i _ s eq_refl Hi) as Hr.
  assert (history (Some (i, take from input_ids)) i s = take from input_ids) as Hhis.
  { unfold history. by rewrite Nat.eqb_refl. }
  rewrite Hhis in Hh.
  rewrite (proj2 (Nat.eqb_neq _ _)) in Hc by lia.
  pose proof (forward_batch_spec (C:=C) (be_n_ctx_total e) (be_cache e) [g] (eo_cache _ _ _ _ _ _ _ Hok)) as Hf.
  specialize (Hf ltac:(done) ltac:(apply NoDup_singleton)).
  assert (Forall (segment_ready (be_cache e)) [g]) as Hready.
  { apply Forall_singleton. split; simpl; [by destruct toks; simpl in *; [lia|]|done|].
    destruct (kv_seqs (ga_kv (be_cache e)) !! ss_seq s) as [x|]; [|done]. exists x. split; [done|].
    injection Hc as ->. rewrite Hcont, length_take. lia. }
  specialize (Hf Hready). cbn [count_prefill be_cache be_n_ctx_total].
  destruct (forward_batch (batch_of [g]) 1 (be_n_ctx_total e) (be_cache e)) as [[logits|] a'];
    destruct Hf as (Hc' & Hkept & Hcaps & Hres); [|done].
  destruct Hres as [-> Hholds]. simpl. rewrite app_nil_r, Hcont. split; [done|]. split; [|by split].
  destruct (Hcaps g) as [_ Hcap']; [by left|]. specialize (Hholds g ltac:(by left)). simpl in *.
  eapply (engine_ok_slot _ _ _ _ _ _ (Some (i, take to input_ids)) e _ i s (λ s, s)); try done; simpl.
  - symmetry. by apply list_alter_id.
  - intros sq Hsq. apply Hkept. by rewrite list_elem_of_singleton.
  - intros j x Hj. unfold history. by rewrite (proj2 (Nat.eqb_neq _ _)).
  - unfold history. rewrite Nat.eqb_refl. rewrite Hcont in Hholds.
    split; [done|by rewrite Hcap', Hc, (proj2 (Nat.eqb_neq _ _)) by lia|by rewrite Hr].
  - intros j h [= <- <-]. by left.
  - apply Hok.
Qed.

Lemma feed_ok i s job spans last_logits from e :
  chain from (length (jb_input_ids job)) spans →
  engine_ok (Some (i, take from (jb_input_ids job))) e → be_slots e !! i = Some s →
  length (jb_input_ids job) ≤ ss_cap s → length (be_slots e) ≤ MAX_BATCH →
  match feed decode_bytes special spent Off (ss_seq s) job spans last_logits e with
  | (Ok logits, e') => (spans ≠ [] → logits = logits_after (jb_input_ids job)) ∧
      engine_ok (Some (i, jb_input_ids job)) e' ∧ stepped e e'
  | (Err er, _) => er = InferencePanicked
  | (Panic, _) => True
  end.
Proof using laws blaws.
  set (nt := length (jb_input_ids job)). intros Hch Hok Hi Hcap Hlen.
  assert (∃ total, total = nt ∧ chain from total spans) as (total & Ht & Hch') by eauto. clear Hch.
  revert e Hok Hi Hlen. induction Hch' as [total|from to total spans Hlt Hch IH]; intros e Hok Hi Hlen; cbn [feed].
  { subst total. unfold nt in Hok. rewrite firstn_all in Hok. split; [done|]. split; [done|apply stepped_refl]. }
  specialize (IH Ht).
  assert (to ≤ total) as Hle. { clear -Hch. induction Hch; lia. }
  pose proof (chunk_ok e i s from to (jb_input_ids job) Hok Hi Hlt ltac:(lia) ltac:(lia)) as Hone.
  cbn zeta in Hone.
  destruct (guarded_forward_batch _ (count_prefill _ e)) as [[logits|er|] e1]; [|by simpl|done].
  destruct Hone as (-> & Hok1 & Hst1).
  pose proof (eo_idle _ _ _ _ _ _ _ Hok i _ s eq_refl Hi) as Hr.
  pose proof (st_idle _ _ Hst1 i s Hi Hr) as Hi1. pose proof (stepped_length _ _ Hst1) as Hl1.
  destruct spans as [|sp spans].
  { inversion Hch; subst. unfold nt in *. rewrite firstn_all in *. by split. }
  assert (∀ e2, engine_ok (Some (i, take to (jb_input_ids job))) e2 → stepped e1 e2 →
    match feed decode_bytes special spent Off (ss_seq s) job (sp :: spans) last_logits e2 with
    | (Ok logits, e') => ((from, to) :: sp :: spans ≠ [] → logits = logits_after (jb_input_ids job)) ∧
        engine_ok (Some (i, jb_input_ids job)) e' ∧ stepped e e'
    | (Err er, _) => er = InferencePanicked
    | (Panic, _) => True
    end) as Hrest.
  { intros e2 Hok2 Hst2. pose proof (stepped_length _ _ Hst2).
    specialize (IH e2 Hok2 (st_idle _ _ Hst2 i s Hi1 Hr) ltac:(lia)).
    destruct (feed decode_bytes special spent Off (ss_seq s) job (sp :: spans) last_logits e2) as [[logits|er'|] e3]; [|exact IH|exact I].
    destruct IH as (H1 & H2 & H3). split; [by intros _; apply H1|]. split; [done|].
    by eapply stepped_trans; [exact Hst1|eapply stepped_trans]. }
  destruct (has_pending_decode e1); [|apply Hrest; [done|apply stepped_refl]].
  assert (engine_ok (Some (i, take to (jb_input_ids job))) (count_interleaved e1)) as Hok1'.
  { apply (engine_ok_same _ _ _ _ _ _ e1); [done..|apply Hok1]. }
  pose proof (tick_ok mirostat_new seed_from_u64 decode_bytes special spent jobs _ _ Hok1' ltac:(simpl; lia)) as Ht1.
  destruct (tick decode_bytes special spent Off (count_interleaved e1)) as [[[]|er|] e2]; [..|done];
    destruct Ht1 as [Hok2 Hst2]; apply Hrest; destruct Hst2; done || by split.
Qed.

(** ** The run *)

Lemma install_ok e i s (job : Job (K:=K)) from :
  engine_ok (Some (i, jb_input_ids job)) e → be_slots e !! i = Some s →
  jobs (jb_id job) = job → length (jb_input_ids job) ≤ ss_cap s →
  match install_run mirostat_new seed_from_u64 false i job (logits_after (jb_input_ids job)) from e with
  | (Ok _, e') => engine_ok None e' ∧ be_n_ctx_total e' = be_n_ctx_total e ∧
      map ss_seq (be_slots e') = map ss_seq (be_slots e) ∧ be_answered e' = be_answered e
  | (Err _, _) => False
  | (Panic, _) => True
  end.
Proof using.
  intros Hok Hi Hj Hcap. unfold install_run, mbind, op_bind, modify, new_grammar_state, get.
  destruct (grammar_state (jb_params job)) as [gst|er|] eqn:Hg; [|by destruct er|done].
  set (r := mkRun _ _ _ _ _ _ _ _ _ _ _). simpl.
  set (f := λ s : SlotState, set_ss_run (Some r) (set_ss_cached (jb_input_ids job) s)).
  split; [|split; [done|split; [by rewrite !map_alter_same|done]]].
  pose proof (eo_slots _ _ _ _ _ _ _ Hok i s Hi) as [Hh Hc _].
  unfold history in Hh. rewrite Nat.eqb_refl in Hh.
  destruct (install_turn (target:=target) mirostat_new seed_from_u64 decode_bytes special job (ss_cap s) gst (be_work_units e) Hg Hcap)
    as [Hro Ht].
  eapply (engine_ok_slot _ _ _ _ _ (Some (i, jb_input_ids job)) None e _ i s f); try done; simpl.
  - apply Hok.
  - apply list_alter_alter_eq.
  - intros j x Hne. by rewrite (proj2 (Nat.eqb_neq _ _)).
  - split; simpl; [done|done|]. intros r' [= <-]. split; [done|]. split; simpl; rewrite ?Hj; done.
  - apply Hok.
Qed.

(** ** A whole admission *)

#[local] Abbreviation submit_on := (submit_on mirostat_new seed_from_u64 decode_bytes special spent false false true Off (P:=P)).

(** What an admission keeps of the engine itself. *)
Definition same_slots e e' : Prop :=
  be_n_ctx_total e' = be_n_ctx_total e ∧ map ss_seq (be_slots e') = map ss_seq (be_slots e).

Lemma same_slots_refl e : same_slots e e.
Proof using. done. Qed.
Lemma same_slots_trans e e1 e2 : same_slots e e1 → same_slots e1 e2 → same_slots e e2.
Proof using. intros [? ?] [? ?]. split; congruence. Qed.
Lemma readied_same i e e' : readied i e e' → same_slots e e'.
Proof using. by intros []. Qed.
Lemma stepped_same e e' : stepped e e' → same_slots e e'.
Proof using. by intros []. Qed.
Lemma same_slots_length e e' : same_slots e e' → length (be_slots e') = length (be_slots e).
Proof using. intros [_ H]. by rewrite <-(length_map ss_seq), H, length_map. Qed.

Lemma submit_on_ok i (job : Job (K:=K)) e :
  engine_ok None e → jobs (jb_id job) = job → jb_input_ids job ≠ [] → length (be_slots e) ≤ MAX_BATCH →
  match submit_on i job e with
  | (Err InferencePanicked, _) | (Panic, _) => True
  | (_, e') => engine_ok None e' ∧ same_slots e e'
  end.
Proof using pool_laws laws blaws.
  intros Hok Hj Hne Hlen. unfold BatchEngine.submit_on.
  destruct (be_slots e !! i) as [s|] eqn:Hi.
  2: { unfold reject. split; [by apply reject_ok|done]. }
  unfold running. case_bool_decide as Hrun.
  { unfold reject. split; [by apply reject_ok|done]. }
  apply eq_None_not_Some in Hrun. set (nt := length (jb_input_ids job)).
  assert (0 < nt) as Hnt by (subst nt; destruct (jb_input_ids job); simpl; [done|lia]).
  unfold wanted_cells, mbind, op_bind, slot_at, get, mret, op_ret, modify. rewrite Hi. cbn [or_panic].
  set (want := wanted_cells_from _ _ _ _).
  pose proof (ensure_ok i want e s Hok Hi Hrun) as Hens.
  destruct (ensure_slot_capacity true i want e) as [[[]|er|] e1]; [|done..]. destruct Hens as [Hok1 Hrd1].
  destruct (readied_at i e e1 i s Hrd1 Hi) as (s1 & Hi1 & Hseq1 & Hrun1). rewrite Hrun in Hrun1.
  rewrite Hi1. cbn [or_panic]. pose proof (readied_same _ _ _ Hrd1) as Hsame1.
  fold nt. destruct (Nat.ltb_spec (ss_cap s1) nt) as [|Hcap].
  { unfold reject. split; [by apply reject_ok|done]. }
  pose proof (feed_from_ok i (jb_input_ids job) e1 s1 Hok1 Hi1 Hrun1) as Hff.
  destruct (feed_from false false i (jb_input_ids job) e1) as [[from|er|] e2]; [|done..].
  destruct Hff as (Hok2 & Hrd2 & Hfrom & Hholds & Hcap2).
  destruct (readied_at i e1 e2 i s1 Hrd2 Hi1) as (s2 & Hi2 & Hseq2 & Hrun2). rewrite Hrun1 in Hrun2.
  specialize (Hcap2 s2 Hi2). rewrite <-Hseq2 in *.
  pose proof (same_slots_trans _ _ _ Hsame1 (readied_same _ _ _ Hrd2)) as Hsame2.
  pose proof (engine_ok_ghost e2 i s2 _ Hok2 Hi2 Hrun2 Hholds) as Hok2'.
  assert (from ≤ nt) as Hle by (unfold nt; lia).
  pose proof (prefill_chunks_chain from nt (be_n_batch e2) Hle) as Hch.
  assert (length (be_slots e2) ≤ MAX_BATCH) as Hl2 by by rewrite (same_slots_length _ _ Hsame2).
  assert (nt ≤ ss_cap s2) as Hcap' by (rewrite Hcap2; exact Hcap).
  pose proof (feed_ok i s2 job _ [] from e2 Hch Hok2' Hi2 Hcap' Hl2) as Hfeed.
  fold nt. destruct (feed decode_bytes special spent Off (ss_seq s2) job _ [] e2) as [[logits|er|] e3];
    [|by subst er|done].
  destruct Hfeed as (Hlog & Hok3 & Hst3). rewrite Hlog.
  2: { intros Hnil. rewrite Hnil in Hch. inversion Hch. unfold nt in *. lia. }
  pose proof (st_idle _ _ Hst3 i s2 Hi2 Hrun2) as Hi3.
  pose proof (install_ok e3 i s2 job from Hok3 Hi3 Hj Hcap') as Hins.
  destruct (install_run _ _ false i job _ from e3) as [[[]|er|] e4]; [|done..].
  destruct Hins as (Hok4 & Hn4 & Hs4 & _). split; [done|].
  eapply same_slots_trans; [exact Hsame2|]. eapply same_slots_trans; [by apply stepped_same|]. done.
Qed.
End admission.
