(* ===== verification/ToyBatch.v ===== *)
(** * A small batched model

    The batched forward of the model of [ToyModel] on an arena of plain lists
    of words: the K row of a position is the sum of the tokens up to it, worked
    out from the row before, the V row their number, and the answer one row a
    sequence.  A token of [bad] panics with the rows before it written. *)
From Stdlib Require Import ZArith Lia.
From stdpp Require Import base numbers list option gmap.
From S2P Require Import Prelude Slices KvCache KvFacts KvPlans KvArena KvRows KvSteps KvProps KvFollow Batch Grammar Sampling Spec BatchEngine BatchRows ToyModel.
Import CpuPool.
Local Open Scope nat_scope.

Abbreviation toy_pool := (CpuPool.pool N).
Abbreviation TArena := (Alloc toy_pool).
Implicit Types (a : TArena).

Definition put (r : BufRef) (i : nat) (w : N) a : option TArena :=
  p ← ga_pools a !! br_backend r;
  buf ← p !! KvCache.br_id r;
  Some (set_pools (<[br_backend r := <[KvCache.br_id r := <[i := w]> buf]> p]> (ga_pools a)) a).

Lemma put_ok n a r i w :
  region_fits n a r 1 → i < n →
  ∃ a', put r i w a = Some a' ∧ ga_kv a' = ga_kv a ∧
    (∀ r' e, region_fits n a r' e → region_fits n a' r' e) ∧
    (∀ j, region_row a' r 1 j = if decide (j = i) then Some [w] else region_row a r 1 j) ∧
    (∀ r', region_key r' ≠ region_key r → region_buf a' r' = region_buf a r').
Proof.
  intros (buf & Hbuf & Haddr & Hlen) Hi. unfold put.
  destruct (ga_pools a !! br_backend r) as [p|] eqn:Hp; [|by unfold region_buf in Hbuf; rewrite Hp in Hbuf].
  assert (p !! KvCache.br_id r = Some buf) as Hpb by by unfold region_buf in Hbuf; rewrite Hp in Hbuf.
  simpl. rewrite Hpb. simpl. eexists. split; [done|]. split; [done|]. set (a' := set_pools _ a).
  assert (region_buf a' r = Some (<[i := w]> buf)) as Hb.
  { unfold region_buf. simpl. rewrite lookup_insert_eq. simpl.
    apply list_lookup_insert_eq. by eapply lookup_lt_Some. }
  assert (∀ r', region_key r' ≠ region_key r → region_buf a' r' = region_buf a r') as Hframe.
  { intros r' Hne. unfold region_buf. simpl. rewrite lookup_insert. case_decide as Hk; [|done].
    simpl. rewrite <-Hk, Hp. simpl. apply list_lookup_insert_ne. intros Hid. apply Hne.
    unfold region_key. congruence. }
  split; [|split; [|done]].
  - intros r' e (buf' & Hbuf' & Haddr' & Hlen'). destruct (decide (region_key r' = region_key r)) as [Hk|Hk].
    + exists (<[i := w]> buf). unfold addressable. rewrite length_insert.
      assert (∀ x : TArena, region_buf (W:=N) x r' = region_buf x r) as Heq.
      { intros x. unfold region_buf. injection Hk as -> ->. done. }
      rewrite Heq in *. split; [done|]. split; [done|]. by simplify_eq.
    + exists buf'. by rewrite Hframe.
  - intros j. unfold region_row. rewrite Hb, Hbuf. simpl. case_decide as Hj.
    + subst j. f_equal. apply list_eq. intros k. rewrite lookup_buf_row. case_decide.
      * assert (k = 0) as -> by lia. rewrite Nat.mul_1_r, Nat.add_0_r. simpl.
        apply list_lookup_insert_eq. lia.
      * symmetry. apply lookup_ge_None_2. simpl. lia.
    + f_equal. apply list_eq. intros k. rewrite !lookup_buf_row. case_decide; [|done].
      apply list_lookup_insert_ne. lia.
Qed.

Lemma keys_apart (rs : list (BufRef * BufRef * nat)) r :
  NoDup (region_keys rs) → r ∈ rs → region_key r.1.1 ≠ region_key r.1.2.
Proof.
  unfold region_keys. induction rs as [|x rs IH]; [by intros _ ?%elem_of_nil|]. simpl.
  intros [Hx Hnd]%NoDup_cons [-> | Hr]%elem_of_cons.
  - intros He. apply Hx. rewrite He. by left.
  - apply NoDup_cons in Hnd as [_ Hnd]. by apply IH.
Qed.

#[export] Instance toy_rows_of : ModelRows N := {|
  model_layers := [0%N];
  k_row _ h := [N.of_nat (sum_list h)];
  v_row _ h := [N.of_nat (length h)]
|}.

(** One token of one sequence. *)
Definition toy_write (sq : N) (pos : nat) (tok : N) a : option TArena :=
  slot ← kv_seqs (ga_kv a) !! sq;
  l ← kv_layers (ga_kv a) !! 0%N;
  if negb ((pos <? sl_cap slot) && (layer_elems l =? 1)) then None else
  prev ← (match pos with O => Some 0%N | S p => read_k a 0 sq p ≫= head end);
  a1 ← put (lay_k l) (sl_start slot + pos) (prev + tok)%N a;
  a2 ← put (lay_v l) (sl_start slot + pos) (N.of_nat (S pos)) a1;
  Some (set_kv (own_range sq (sl_start slot) (sl_start slot + S pos) (ga_kv a2)) a2).

(** What the sequence's last row says of the next token. *)
Definition toy_next (sq : N) (pos : nat) a : list nat :=
  match read_k a 0 sq pos ≫= head, read_v a 0 sq pos ≫= head with
  | Some s, Some n => one_hot ((N.to_nat s + N.to_nat n) mod 8)
  | _, _ => []
  end.

Fixpoint toy_steps (bad : list nat) (ts : list (N * nat * N)) a : option (list nat) * TArena :=
  match ts with
  | [] => (Some [], a)
  | (tok, pos, sq) :: ts =>
      if bool_decide (N.to_nat tok ∈ bad) then (None, a) else
      match toy_write sq pos tok a with
      | None => (None, a)
      | Some a =>
          let last := match ts with (_, _, sq') :: _ => negb (sq =? sq')%N | [] => true end in
          let row := if last then toy_next sq pos a else [] in
          match toy_steps bad ts a with
          | (Some rows, a) => (Some (row ++ rows), a)
          | (None, a) => (None, a)
          end
      end
  end.

Definition toy_batch (bad : list nat) : BatchModel nat toy_pool := {|
  forward_batch b _ _ a := toy_steps bad (zip (zip (b_tokens b) (b_positions b)) (b_seq_ids b)) a
|}.

(** ** It keeps its promise *)

Lemma sum_list_snoc h t : sum_list (h ++ [t]) = sum_list h + t.
Proof. induction h; simpl in *; lia. Qed.

Lemma toy_next_is sq pos a h :
  read_k a 0 sq pos = Some [N.of_nat (sum_list h)] → read_v a 0 sq pos = Some [N.of_nat (length h)] →
  toy_next sq pos a = toy_logits h.
Proof. intros Hk Hv. unfold toy_next. rewrite Hk, Hv. simpl. by rewrite !Nat2N.id. Qed.

Lemma toy_write_ok n a sq h t :
  cache_ok n a → seq_holds a sq h →
  (∃ slot, kv_seqs (ga_kv a) !! sq = Some slot ∧ length h < sl_cap slot) →
  match toy_write sq (length h) (N.of_nat t) a with
  | None => True
  | Some a' => cache_ok n a' ∧ (∀ s, s ≠ sq → seq_kept a a' s) ∧
      sl_cap <$> kv_seqs (ga_kv a') !! sq = sl_cap <$> kv_seqs (ga_kv a) !! sq ∧
      seq_holds a' sq (h ++ [t]) ∧ toy_next sq (length h) a' = toy_logits (h ++ [t])
  end.
Proof.
  intros [Hok Hu Hn Hsm] [Hlen Hrows] (slot & Hslot & Hcap). unfold toy_write. rewrite Hslot. cbn [mbind option_bind].
  destruct (kv_layers (ga_kv a) !! 0%N) as [l|] eqn:Hl; cbn [mbind option_bind]; [|done].
  rewrite (proj2 (Nat.ltb_lt _ _)) by done.
  destruct (Nat.eqb_spec (layer_elems l) 1) as [He|]; cbn [andb negb]; [|done].
  set (prev := match length h with O => _ | S p => _ end).
  destruct prev as [x|] eqn:Hprev; cbn [mbind option_bind]; [|done].
  assert (x = N.of_nat (sum_list h)) as ->.
  { subst prev. destruct (length h) as [|p] eqn:Hlh.
    - destruct h; [by injection Hprev as <-|done].
    - destruct (Hrows 0%N p) as [Hk _]; [by left|lia|]. rewrite Hk in Hprev. simpl in Hprev.
      rewrite take_ge in Hprev by lia. by injection Hprev as <-. }
  clear prev Hprev. rewrite <-Nat2N.inj_add.
  pose proof (in_regions _ _ _ Hl) as Hin. rewrite He in Hin.
  pose proof (wf_slot _ _ _ (ao_wf _ Hok) Hslot) as Hws. pose proof (Hu sq slot Hslot) as Hz. simpl in Hz.
  pose proof Hok as [Hwf Hbk Hkeys Hfit Hbe].
  pose proof (keys_apart _ _ Hkeys Hin) as Hkv. simpl in Hkv.
  pose proof Hfit as Hfit'. unfold regions_fit in Hfit'. rewrite Forall_forall in Hfit'.
  destruct (Hfit' _ Hin) as [Fk Fv]. simpl in Fk, Fv. clear Hfit'.
  set (cell := sl_start slot + length h).
  assert (cell < kv_n_ctx (ga_kv a)) as Hcell by (destruct Hws; lia).
  destruct (put_ok _ a (lay_k l) cell (N.of_nat (sum_list h + t)) Fk Hcell) as (a1 & -> & E1 & F1 & R1 & X1). cbn [mbind option_bind].
  destruct (put_ok _ a1 (lay_v l) cell (N.of_nat (S (length h))) (F1 _ _ Fv) Hcell) as (a2 & -> & E2 & F2 & R2 & X2). cbn [mbind option_bind].
  rewrite E2, E1. replace (sl_start slot + S (length h)) with (sl_start slot + (length h + 1)) by lia.
  destruct (own_range_run (ga_kv a) sq slot (length h + 1) Hwf Hslot Hz ltac:(lia)) as (Hq & Hn' & Hls).
  destruct (sound_own_range (ga_kv a) sq (sl_start slot) (sl_start slot + (length h + 1))) as [Hwf' Hb'];
    [by split|].
  set (c' := own_range _ _ _ _) in *. clearbody c'. pose proof (regions_same _ _ Hls) as Hrg.
  assert (∀ j, region_row a2 (lay_k l) 1 j =
    if decide (j = cell) then Some [N.of_nat (sum_list h + t)] else region_row a (lay_k l) 1 j) as Rk.
  { intros j. rewrite <-R1. apply region_row_ext. by apply X2. }
  assert (∀ j, region_row a2 (lay_v l) 1 j =
    if decide (j = cell) then Some [N.of_nat (S (length h))] else region_row a (lay_v l) 1 j) as Rv.
  { intros j. rewrite R2. case_decide; [done|]. apply region_row_ext. apply X1. congruence. }
  pose proof (Hls 0%N) as Hl'. rewrite Hl in Hl'. destruct (kv_layers c' !! 0%N) as [l'|] eqn:Hk'; [|done].
  simpl in Hl'. destruct Hl' as (Ek & Ev & Ee & En).
  assert (layer_elems l' = 1) as He' by (unfold layer_elems in *; congruence).
  (* a row of the layer, before and after *)
  assert (∀ s x pos, kv_seqs (ga_kv a) !! s = Some x → pos < sl_cap x →
    read_k a 0 s pos = region_row a (lay_k l) 1 (sl_start x + pos) ∧
    read_v a 0 s pos = region_row a (lay_v l) 1 (sl_start x + pos) ∧
    read_k (set_kv c' a2) 0 s pos = region_row a2 (lay_k l) 1 (sl_start x + pos) ∧
    read_v (set_kv c' a2) 0 s pos = region_row a2 (lay_v l) 1 (sl_start x + pos)) as Hread.
  { intros s x pos Hx Hpos. pose proof (Hu s x Hx) as Hzx. simpl in Hzx.
    assert (cell_of (ga_kv a) s pos = Some (sl_start x + pos)) as Hc1.
    { rewrite cell_of_slot, Hx by apply Hwf. simpl. rewrite slot_cell_private by lia. f_equal. lia. }
    assert (cell_of c' s pos = Some (sl_start x + pos)) as Hc2.
    { rewrite cell_of_slot, Hq, lookup_insert by apply Hwf'. case_decide as Hs.
      - subst s. simplify_eq. simpl. rewrite slot_cell_private by (simpl; lia). simpl. f_equal. lia.
      - rewrite Hx. simpl. rewrite slot_cell_private by lia. f_equal. lia. }
    unfold read_k, read_v, read_row. simpl. rewrite Hl, Hk', Hc1, Hc2. simpl. rewrite He, He', Ek, Ev. done. }
  assert (∀ layer, layer ∈ [0%N] → layer = 0%N) as Honly by by intros layer ?%list_elem_of_singleton.
  split; [|split; [|split; [|split]]].
  - split; [split|..]; simpl.
    + done.
    + done.
    + by rewrite Hrg.
    + rewrite Hrg, Hn'. unfold regions_fit in *. eapply Forall_impl; [exact Hfit|].
      intros r [? ?]. split; apply F2, F1; done.
    + by rewrite Hrg.
    + intros s x. rewrite Hq, lookup_insert. case_decide; [|apply Hu]. intros [= <-]. exact Hz.
    + by rewrite Hn'.
    + done.
  - intros s Hs. split.
    + intros g [Hg Hgr]. split.
      * rewrite written_rows_of. simpl. rewrite Hq, lookup_insert_ne, <-written_rows_of by done. done.
      * intros layer pos Hlay Hpos. rewrite (Honly layer Hlay). destruct (Hgr 0%N pos) as [G1 G2]; [by left|done|].
        unfold written_rows in Hg. destruct (kv_seqs (ga_kv a) !! s) as [x|] eqn:Hx; simpl in Hg; [|lia].
        destruct (wf_slot _ _ _ Hwf Hx). pose proof (Hu s x Hx) as Hzx. simpl in Hzx.
        pose proof (wf_disjoint _ Hwf s sq x slot Hs Hx Hslot) as Hd. unfold ranges_disjoint in Hd.
        destruct (Hread s x pos Hx) as (K1 & V1 & K2 & V2); [lia|].
        rewrite K2, V2, Rk, Rv, !decide_False, <-K1, <-V1 by (subst cell; lia). done.
    + simpl. by rewrite Hq, lookup_insert_ne by done.
  - simpl. by rewrite Hq, lookup_insert_eq.
  - split.
    + rewrite written_rows_of. simpl. rewrite Hq, lookup_insert_eq, length_app. cbn. lia.
    + intros layer pos Hlay Hpos. rewrite (Honly layer Hlay). rewrite length_app in Hpos. simpl in Hpos.
      destruct (Hread sq slot pos Hslot) as (K1 & V1 & K2 & V2); [lia|]. rewrite K2, V2, Rk, Rv.
      destruct (decide (pos = length h)) as [->|Hne].
      * rewrite !decide_True by done. rewrite take_ge by (rewrite length_app; simpl; lia).
        simpl. rewrite sum_list_snoc, length_app. simpl. split; [done|]. by rewrite Nat.add_1_r.
      * rewrite !decide_False by (subst cell; lia). rewrite <-K1, <-V1, take_app_le by lia.
        apply Hrows; [by left|lia].
  - apply toy_next_is.
    + destruct (Hread sq slot (length h) Hslot) as (_ & _ & -> & _); [lia|].
      by rewrite Rk, decide_True, sum_list_snoc.
    + destruct (Hread sq slot (length h) Hslot) as (_ & _ & _ & ->); [lia|].
      rewrite Rv, decide_True, length_app by done. simpl. by rewrite Nat.add_1_r.
Qed.

(** The steps of a sequence's tokens. *)
Definition triples (sq : N) (from : nat) (toks : list nat) : list (N * nat * N) :=
  zip (zip (map N.of_nat toks) (seq from (length toks))) (replicate (length toks) sq).

(** What the steps of [sq] keep, and the history it holds after. *)
Record stepped_seq n (sq : N) (h : list nat) a a' : Prop := {
  ts_cache : cache_ok n a';
  ts_others : ∀ s, s ≠ sq → seq_kept a a' s;
  ts_cap : sl_cap <$> kv_seqs (ga_kv a') !! sq = sl_cap <$> kv_seqs (ga_kv a) !! sq;
  ts_holds : seq_holds a' sq h
}.

Lemma toy_segment bad n sq rest toks : ∀ h a,
  toks ≠ [] → cache_ok n a → seq_holds a sq h →
  (∃ slot, kv_seqs (ga_kv a) !! sq = Some slot ∧ length h + length toks ≤ sl_cap slot) →
  match rest with (_, _, sq') :: _ => sq' ≠ sq | [] => True end →
  (∃ a1, stepped_seq n sq (h ++ toks) a a1 ∧
     toy_steps bad (triples sq (length h) toks ++ rest) a =
       (let '(r, a2) := toy_steps bad rest a1 in (app (toy_logits (h ++ toks)) <$> r, a2))) ∨
  (∃ a1, stepped_seq n sq h a a1 ∧ toy_steps bad (triples sq (length h) toks ++ rest) a = (None, a1)).
Proof.
  induction toks as [|t toks IH]; intros h a Hne Hco Hh (slot & Hs & Hcap) Hrest; [done|]. simpl in Hcap.
  change (triples sq (length h) (t :: toks)) with ((N.of_nat t, length h, sq) :: triples sq (S (length h)) toks).
  cbn [app toy_steps].
  assert (stepped_seq n sq h a a) as Hsame by (split; [done|intros; apply seq_kept_refl|done|done]).
  case_bool_decide; [right; by exists a|].
  pose proof (toy_write_ok n a sq h t Hco Hh ltac:(exists slot; split; [done|lia])) as Hw.
  destruct (toy_write sq (length h) (N.of_nat t) a) as [a1|]; [|right; by exists a].
  destruct Hw as (Hco1 & Hoth & Hc1 & Hh1 & Hnext).
  destruct toks as [|t' toks].
  - left. exists a1. split; [by split|]. simpl.
    assert ((match rest with [] => true | (_, _, sq') :: _ => negb (sq =? sq')%N end) = true) as ->.
    { destruct rest as [|[[? ?] sq'] rest]; [done|]. by rewrite (proj2 (N.eqb_neq _ _)). }
    rewrite Hnext. by destruct (toy_steps bad rest a1) as [[rows|] a2].
  - assert (seq_holds a1 sq (h ++ [t])) as Hpre by done.
    assert ((match triples sq (S (length h)) (t' :: toks) ++ rest with
      | (_, _, sq') :: _ => negb (sq =? sq')%N | [] => true end) = false) as ->
      by (simpl; by rewrite N.eqb_refl).
    replace (S (length h)) with (length (h ++ [t])) by (rewrite length_app; simpl; lia).
    assert (length (h ++ [t]) + length (t' :: toks) ≤ sl_cap slot) as Hcap' by (rewrite length_app; simpl in *; lia).
    assert (∃ slot, kv_seqs (ga_kv a1) !! sq = Some slot ∧ length (h ++ [t]) + length (t' :: toks) ≤ sl_cap slot) as Hs1.
    { rewrite Hs in Hc1. destruct (kv_seqs (ga_kv a1) !! sq) as [x|]; [|done]. injection Hc1 as Hc1.
      exists x. split; [done|lia]. }
    assert (∀ g a2, stepped_seq n sq g a1 a2 → stepped_seq n sq g a a2) as Htrans.
    { intros g a2 [T1 T2 T3 T4]. split; [done| |by rewrite T3|done].
      intros s Hsq. eapply seq_kept_trans; [by apply Hoth|by apply T2]. }
    destruct (IH (h ++ [t]) a1 ltac:(done) Hco1 Hh1 Hs1 Hrest) as [(a2 & Hst & ->)|(a2 & Hst & ->)].
    + left. exists a2. rewrite <-app_assoc in Hst. split; [by apply Htrans|]. rewrite <-app_assoc.
      by destruct (toy_steps bad rest a2) as [[rows|] a3].
    + right. exists a2. split; [|done]. apply Htrans. destruct Hst as [T1 T2 T3 T4].
      split; [done..|]. by eapply seq_holds_prefix.
Qed.

Lemma zip_app_same {A B} (l1 l2 : list A) (k1 k2 : list B) :
  length l1 = length k1 → zip (l1 ++ l2) (k1 ++ k2) = zip l1 k1 ++ zip l2 k2.
Proof. revert k1. induction l1; intros [|k k1]; simpl; intros; try done. f_equal. auto. Qed.

Lemma batch_triples segs :
  let b := batch_of segs in
  zip (zip (b_tokens b) (b_positions b)) (b_seq_ids b) =
  concat (map (λ g, triples (sg_seq g) (length (sg_history g)) (sg_tokens g)) segs).
Proof.
  simpl. induction segs as [|g segs IH]; [done|]. simpl. rewrite map_app, !zip_app_same;
    [by rewrite IH|rewrite ?length_zip_with, ?length_map, ?length_seq, ?length_replicate; lia..].
Qed.

Lemma toy_segments bad n segs : ∀ a,
  cache_ok n a → NoDup (map sg_seq segs) → Forall (segment_ready a) segs →
  let '(r, a') := toy_steps bad
    (concat (map (λ g, triples (sg_seq g) (length (sg_history g)) (sg_tokens g)) segs)) a in
  cache_ok n a' ∧
  (∀ sq, sq ∉ map sg_seq segs → seq_kept a a' sq) ∧
  (∀ g, g ∈ segs → seq_holds a' (sg_seq g) (sg_history g) ∧
     sl_cap <$> kv_seqs (ga_kv a') !! sg_seq g = sl_cap <$> kv_seqs (ga_kv a) !! sg_seq g) ∧
  match r with
  | Some logits => logits = concat (map (λ g, toy_logits (continued g)) segs) ∧
      ∀ g, g ∈ segs → seq_holds a' (sg_seq g) (continued g)
  | None => True
  end.
Proof.
  induction segs as [|g segs IH]; intros a Hco Hnd Hready.
  { simpl. split; [done|]. split; [intros; apply seq_kept_refl|]. split; [by intros ? ?%elem_of_nil|].
    split; [done|]. by intros ? ?%elem_of_nil. }
  simpl in Hnd. apply NoDup_cons in Hnd as [Hni Hnd]. apply Forall_cons in Hready as [Hg Hready].
  pose proof Hg as [Hne Hh (slot & Hs & Hcap)]. unfold continued in Hcap. rewrite length_app in Hcap.
  assert (∀ g', g' ∈ segs → sg_seq g' ≠ sg_seq g) as Hapart.
  { intros g' Hin He. apply Hni. rewrite <-He. apply list_elem_of_In, in_map_iff. exists g'.
    split; [done|]. by apply list_elem_of_In. }
  cbn [map concat]. set (rest := concat (map _ segs)).
  assert (match rest with (_, _, sq') :: _ => sq' ≠ sg_seq g | [] => True end) as Hrest.
  { subst rest. destruct segs as [|g' segs]; [done|]. simpl. apply Forall_cons in Hready as [[Hne' _ _] _].
    specialize (Hapart g' ltac:(by left)). by destruct (sg_tokens g'). }
  destruct (toy_segment bad n (sg_seq g) rest (sg_tokens g) (sg_history g) a Hne Hco Hh
    ltac:(by exists slot) Hrest) as [(a1 & [T1 T2 T3 T4] & ->)|(a1 & [T1 T2 T3 T4] & ->)].
  - assert (Forall (segment_ready a1) segs) as Hready1.
    { rewrite Forall_forall in *. intros g' Hin. destruct (Hready g' Hin) as [R1 R2 (s' & R3 & R4)].
      destruct (T2 _ (Hapart g' Hin)) as [K1 K2]. split; [done|by apply K1|]. rewrite R3 in K2.
      destruct (kv_seqs (ga_kv a1) !! sg_seq g') as [x|]; [|done]. injection K2 as K2. exists x. split; [done|lia]. }
    specialize (IH a1 T1 Hnd Hready1). fold rest in IH.
    destruct (toy_steps bad rest a1) as [r a2]. destruct IH as (C2 & O2 & H2 & R2).
    destruct (O2 _ Hni) as [K1 K2]. split; [done|]. split; [|split].
    + intros sq. rewrite not_elem_of_cons. intros [? ?]. eapply seq_kept_trans; [by apply T2|by apply O2].
    + intros g' [->|Hin]%elem_of_cons.
      * split; [apply K1; by eapply seq_holds_prefix|by rewrite K2].
      * destruct (H2 g' Hin) as [? E2]. split; [done|]. rewrite E2.
        apply (T2 _ (Hapart g' Hin)).
    + destruct r as [logits|]; [|done]. destruct R2 as [-> R2]. simpl. split; [done|].
      intros g' [->|Hin]%elem_of_cons; [by apply K1|by apply R2].
  - split; [done|]. split; [|split; [|done]].
    + intros sq. rewrite not_elem_of_cons. intros [? ?]. by apply T2.
    + intros g' [->|Hin]%elem_of_cons; [by split|].
      rewrite Forall_forall in Hready. destruct (Hready g' Hin) as [_ R2 _].
      destruct (T2 _ (Hapart g' Hin)) as [K1 K2]. split; [by apply K1|done].
Qed.

#[export] Instance toy_batch_laws bad :
  @BatchLaws nat N toy_pool (list nat) (CpuPool.cpu_pool N) (toy_batch bad) toy_rows_of (toy bad) (toy_laws bad).
Proof.
  split. intros n_ctx a segs Hco Hne Hnd Hready. unfold forward_batch, toy_batch. rewrite batch_triples.
  by apply (toy_segments bad n_ctx segs a).
Qed.

(** ** An arena of [n] cells *)

Definition toy_k : BufRef := mkBufRef 0 0 0 0.
Definition toy_v : BufRef := mkBufRef 0 1 0 0.

Definition toy_arena (n : nat) : TArena :=
  mkAlloc (insert_layer 0 toy_k toy_v 1 1 n false (set_n_ctx n kv_new))
    {[ 0%N := [replicate n 0%N; replicate n 0%N] ]}.

Lemma toy_arena_sized n : set_kv (set_n_ctx n (ga_kv (toy_arena n))) (toy_arena n) = toy_arena n.
Proof. unfold toy_arena, set_kv. simpl. do 2 f_equal. unfold insert_layer. cbn. by rewrite Nat.max_id. Qed.

Lemma toy_arena_regions n : regions (ga_kv (toy_arena n)) = [(toy_k, toy_v, 1)].
Proof.
  unfold regions, toy_arena, insert_layer. simpl. set (l := mkKvLayer _ _ _ _ _ _ _ _).
  assert (in_order (<[0%N := l]> (∅ : gmap N KvLayer)) = [(0%N, l)]) as -> by reflexivity. simpl.
  replace (n + 0) with n by lia. destruct n as [|n]; [done|].
  rewrite (Nat.max_l (S n) 1) by lia. by rewrite Nat.div_same.
Qed.

Lemma toy_arena_ok n : (N.of_nat n < 2 ^ 64)%N → arena_ok (toy_arena n).
Proof.
  intros Hn. assert (sound (ga_kv (toy_arena n))) as [Hwf Hb].
  { apply (sound_layer (set_n_ctx n kv_new)). apply (sound_step kv_new); [apply sound_new|]. by apply step_capacity. }
  assert (kv_n_ctx (ga_kv (toy_arena n)) = n) as Hn' by apply Nat.max_id.
  split; rewrite ?toy_arena_regions, ?Hn'; [done|done| | |by repeat constructor].
  - apply (bool_decide_unpack _). by vm_compute.
  - repeat constructor; simpl; (exists (replicate n 0%N); split; [done|]);
      unfold addressable; rewrite length_replicate; (split; [done|lia]).
Qed.
