(* ===== verification/BatchProps.v ===== *)
(** * The batched worker answers as the serial one

    A new engine is sound, every admission and every step keeps it so, and so
    every answered request was answered as the serial worker answers it on a
    slot of some size, unless its forward panicked or it was refused. *)
From Stdlib Require Import ZArith Lia Strings.Byte.
From stdpp Require Import base numbers list option gmap relations.
From S2P Require Import Prelude Gguf Grammar KvCache KvFacts KvPlans KvArena KvRows KvSteps KvProps KvFollow Batch Sampling Spec SpecFacts Chat ChatFacts ToyModel ChatProps BatchEngine BatchRows BatchTurns BatchFacts BatchTick BatchAdmit ToyBatch.
Import CpuPool.
Local Open Scope nat_scope.

Section batched.
Context {F K M R W P C : Type} `{!Floats F, !SamplerMaths F K M R}.
Context `{!CellPool W P, pool_laws : !CellPoolLaws W P, !BatchModel F P, rows : !ModelRows W}.
Context `{target : !ModelDef F C, laws : !ModelLaws F C, blaws : !BatchLaws F W P C}.
Context (mirostat_new : K → M) (seed_from_u64 : N → R).
Context (decode_bytes : nat → bytes) (special : SpecialTokens).
Context (spent : SamplerConfig K → list F → list nat → M → option GrammarState → R → list F).
Context (jobs : N → Job (K:=K)).

#[local] Abbreviation SlotState := (BatchEngine.SlotState (F:=F) (K:=K) (M:=M) (R:=R)).
#[local] Abbreviation Engine := (BatchEngine (F:=F) (K:=K) (M:=M) (R:=R) (P:=P)).
#[local] Abbreviation engine_ok := (engine_ok (target:=target) (laws:=laws) mirostat_new seed_from_u64 decode_bytes special jobs (P:=P) (R:=R) (M:=M)).
Implicit Types (a : Alloc P) (s : SlotState) (e : Engine).

(** ** A new engine is sound *)






(** ** Every reachable engine *)

#[local] Abbreviation submit_on := (submit_on mirostat_new seed_from_u64 decode_bytes special spent false false true Off (P:=P)).
#[local] Abbreviation tick := (tick decode_bytes special spent Off (P:=P)).




(** What a closed channel of a job holds when the serial worker served it. *)
Context {D A : Type} `{!DepthController A} (draft : ModelDef F D).

Definition serial_answer (no_reuse : bool) (c : C) (cached : list nat) (j : Job (K:=K)) (cap : nat) : Channel :=
  (run_job_isolated (generate (C:=C) (D:=D) (A:=A) mirostat_new seed_from_u64 draft decode_bytes special no_reuse
    (jb_params j) cap (jb_input_ids j) c cached (jb_tx j))).2.



End batched.

(** ** Scripts *)

Section scripts.
Context {F K M R W P : Type} `{!Floats F, !SamplerMaths F K M R, !CellPool W P, !BatchModel F P}.
Context (mirostat_new : K → M) (seed_from_u64 : N → R).
Context (decode_bytes : nat → bytes) (special : SpecialTokens).
Context (spent : SamplerConfig K → list F → list nat → M → option GrammarState → R → list F).
Context (jobs : N → Job (K:=K)).

(** A job for a slot, a step, another chunk size. *)
Inductive command := Submit (i : nat) (id : N) | Tick | Chunk (n : nat).

Definition obey (c : command) (e : BatchEngine (F:=F) (K:=K) (M:=M) (R:=R) (P:=P)) : option BatchEngine :=
  match c with
  | Submit i id =>
      if negb (jb_id (jobs id) =? id)%N || (length (jb_input_ids (jobs id)) =? 0) then None else
      match submit_on mirostat_new seed_from_u64 decode_bytes special spent false false true Off i (jobs id) e with
      | (Panic, _) | (Err InferencePanicked, _) => None
      | (_, e) => Some e
      end
  | Tick =>
      match tick decode_bytes special spent Off e with
      | (Panic, _) => None
      | (_, e) => Some e
      end
  | Chunk n => Some (set_prefill_chunk n e)
  end.

Fixpoint obey_all (cs : list command) (e : BatchEngine (F:=F) (K:=K) (M:=M) (R:=R) (P:=P)) : option BatchEngine :=
  match cs with
  | [] => Some e
  | c :: cs => e ← obey c e; obey_all cs e
  end.


End scripts.

(** ** Concrete engines *)

Definition toy_spent : SamplerConfig unit → list nat → list nat → unit → option GrammarState → nat → list nat :=
  λ _ l _ _ _ _, l.

Definition toy_seed (n : N) : nat := N.to_nat n.

Definition toy_job (id : N) (ids : list nat) (max_tokens : Z) : Job (K:=unit) :=
  mkJob id ids (toy_params true [] max_tokens) toy_tx.

Abbreviation ToyEngine := (BatchEngine (F:=nat) (K:=unit) (M:=unit) (R:=nat) (P:=toy_pool)).

(** The engine after a script, on an arena of [n_ctx] cells. *)
Definition toy_script (bad : list nat) (jobs : N → Job (K:=unit)) (n_slots n_ctx : nat) (cs : list command) :
    option ToyEngine :=
  match new (W:=N) true n_slots n_ctx (toy_arena n_ctx) with
  | Ok e => @obey_all nat unit unit nat N toy_pool _ _ _ (toy_batch bad) (λ _, ()) toy_seed toy_bytes
              toy_special toy_spent jobs cs e
  | _ => None
  end.



Definition toy_serial (bad : list nat) (j : Job (K:=unit)) (cap : nat) : Channel :=
  serial_answer (target:=toy bad) (λ _, ()) toy_seed toy_bytes toy_special (A:=nat) toy_draft false [] [] j cap.



(** ** What goes wrong *)

(** The same request for every slot. *)
Definition same_jobs (id : N) : Job (K:=unit) := toy_job id [2; 1] 3.

(** With more slots than [MAX_BATCH] the pending token of a slot past the
    sixteenth is not in the batch, but its run goes on: the next token is
    drawn from the logits already used, and the one before is said but never
    written.  Seventeen slots serve the same request, and the last one is
    answered otherwise than every other. *)
Theorem seventeenth_slot_repeats_its_token :
  let answers := be_answered <$> toy_script [] same_jobs 17 102
    (map (λ i, Submit i (1 + N.of_nat i)) (seq 0 17) ++ [Tick; Tick; Tick]) in
  let right := toy_serial [] (same_jobs 0) 6 in
  answers = Some (map (λ i, (1 + N.of_nat i, right)%N) (seq 0 16) ++
    [(17%N, mkChannel [Text (toy_bytes 5); Text (toy_bytes 5); Text (toy_bytes 5); Finish FinLength 3] None)]) ∧
  ch_sent right = [Text (toy_bytes 5); Text (toy_bytes 3); Text (toy_bytes 7); Finish FinLength 3].
Proof. split; vm_compute; reflexivity. Qed.

(** Three requests; the first fails. *)
Definition stale_jobs (id : N) : Job (K:=unit) :=
  if (id =? 1)%N then toy_job id [2; 1; 5; 6; 3; 3] 3
  else if (id =? 2)%N then toy_job id [2; 1; 4; 4; 7; 1] 1 else toy_job id [2; 1; 5; 6; 2; 2] 3.

Definition toy_submit (bad : list nat) (jobs : N → Job (K:=unit)) (i : nat) (id : N) (e : ToyEngine) :
    res ApiError nat * ToyEngine :=
  @submit_on nat unit unit nat N toy_pool _ _ _ (toy_batch bad) (λ _, ()) toy_seed toy_bytes toy_special toy_spent
    false false true Off i (jobs id) e.

(** A prefill that panics in a later chunk has overwritten rows the slot's
    record still names: the next request on the slot takes them for its
    prefix, and is answered as on no slot of any size. *)
Theorem failed_prefill_leaves_false_record :
  ∃ e e' tx, toy_script [7] stale_jobs 1 16 [Chunk 2; Submit 0 1; Tick; Tick; Tick] = Some e ∧
    toy_submit [7] stale_jobs 0 2 e = (Err InferencePanicked, e') ∧
    (be_answered <$> @obey_all nat unit unit nat N toy_pool _ _ _ (toy_batch [7]) (λ _, ()) toy_seed toy_bytes
       toy_special toy_spent stale_jobs [Submit 0 3; Tick; Tick; Tick] e') ≫= last = Some (3%N, tx) ∧
    Forall (λ cap, ch_sent tx ≠ ch_sent (toy_serial [7] (stale_jobs 3) cap)) (seq 6 11).
Proof.
  destruct (toy_script [7] stale_jobs 1 16 [Chunk 2; Submit 0 1; Tick; Tick; Tick]) as [e|] eqn:He;
    [|exfalso; vm_compute in He; discriminate].
  vm_compute in He. injection He as <-. eexists _, _, _. split; [reflexivity|].
  split; [vm_compute; reflexivity|]. split; [vm_compute; reflexivity|].
  repeat (apply list.Forall_cons; split; [vm_compute; discriminate|]). apply list.Forall_nil. done.
Qed.
