(* ===== verification/BatchServe.v ===== *)
(** * The serve loop: [serve_loop] of [src/server/batch.rs]

    One pass takes the transport's backlog, places at most one job an idle
    slot from the oldest end, answers what the queue cannot hold, and steps
    the engine; two counted bounds end a pass that does not move.  What the
    transport does during a pass is an argument ([Around]); a run of the loop
    is a list of them. *)
From Stdlib Require Import ZArith Strings.Byte.
From stdpp Require Import base numbers list option gmap.
From S2P Require Import Prelude Gguf Grammar KvCache KvArena Batch Sampling Chat BatchEngine.
Local Open Scope nat_scope.

Definition STALL_STEP_LIMIT : N := 64.
Definition RUN_STALL_STEP_LIMIT : N := 64.
Definition QUEUE_MAX : nat := 64.

(** How the loop ended, [WorkerExit] of [worker.rs]. *)
Inductive WorkerExit := Shutdown | Stalled.

Section serve.
Context {F K M R W P : Type}.
Context `{!Floats F, !SamplerMaths F K M R, !CellPool W P, !BatchModel F P}.
Context (mirostat_new : K → M) (seed_from_u64 : N → R).
Context (decode_bytes : nat → bytes) (special : SpecialTokens).
Context (spent : SamplerConfig K → list F → list nat → M → option GrammarState → R → list F).
Context (no_prefix_reuse gathers defrag prefill_batch_ok : bool) (seam : TickSeam).

#[local] Abbreviation Job := (Job (K:=K)).
#[local] Abbreviation Engine := (BatchEngine (F:=F) (K:=K) (M:=M) (R:=R) (P:=P)).

Record Serve := mkServe {
  sv_engine : Engine;
  sv_pending : list Job;
  sv_channel : list Job;
  sv_stalled_steps : N;
  sv_jobs_admitted : nat;
  sv_jobs_dropped : nat;
  sv_worker_pending : nat;
  sv_worker_stalled : nat
}.

(** Jobs that arrive before the backlog is taken, before the draining flag is
    read, and before the step is over; the flag; whether all senders are gone
    when the loop waits and when it ends the pass. *)
Record Around := mkAround {
  ar_now : list Job; ar_mid : list Job; ar_late : list Job;
  ar_draining : bool; ar_closed : bool; ar_closed_end : bool
}.

Definition set_engine (e : Engine) (s : Serve) : Serve :=
  mkServe e (sv_pending s) (sv_channel s) (sv_stalled_steps s) (sv_jobs_admitted s)
    (sv_jobs_dropped s) (sv_worker_pending s) (sv_worker_stalled s).
Definition set_pending (l : list Job) (s : Serve) : Serve :=
  mkServe (sv_engine s) l (sv_channel s) (sv_stalled_steps s) (sv_jobs_admitted s)
    (sv_jobs_dropped s) (sv_worker_pending s) (sv_worker_stalled s).
Definition set_channel (l : list Job) (s : Serve) : Serve :=
  mkServe (sv_engine s) (sv_pending s) l (sv_stalled_steps s) (sv_jobs_admitted s)
    (sv_jobs_dropped s) (sv_worker_pending s) (sv_worker_stalled s).
Definition set_stalled (n : N) (s : Serve) : Serve :=
  mkServe (sv_engine s) (sv_pending s) (sv_channel s) n (sv_jobs_admitted s)
    (sv_jobs_dropped s) (sv_worker_pending s) (sv_worker_stalled s).
(** [n] jobs left the queue, [d] of them unplaced. *)
Definition count_left (n d : nat) (s : Serve) : Serve :=
  mkServe (sv_engine s) (sv_pending s) (sv_channel s) (sv_stalled_steps s) (sv_jobs_admitted s + n)
    (sv_jobs_dropped s + d) (sv_worker_pending s) (sv_worker_stalled s).
Definition set_worker_pending (n : nat) (s : Serve) : Serve :=
  mkServe (sv_engine s) (sv_pending s) (sv_channel s) (sv_stalled_steps s) (sv_jobs_admitted s)
    (sv_jobs_dropped s) n (sv_worker_stalled s).
Definition count_stall (s : Serve) : Serve :=
  mkServe (sv_engine s) (sv_pending s) (sv_channel s) (sv_stalled_steps s) (sv_jobs_admitted s)
    (sv_jobs_dropped s) (sv_worker_pending s) (sv_worker_stalled s + 1).

Inductive passed :=
| Again (s : Serve)
| Waits (s : Serve)
| Ends (exit : WorkerExit) (s : Serve)
| Unwinds.

(** Every queued job is answered [er]. *)
Definition reject_jobs (jobs : list Job) (er : ApiError) (e : Engine) : Engine :=
  foldl (λ e job, (reject (A:=unit) job er e).2) e jobs.

Definition reject_queued (er : ApiError) (s : Serve) : Serve :=
  let queued := sv_pending s ++ sv_channel s in
  count_left (length queued) (length queued)
    (set_engine (reject_jobs queued er (sv_engine s)) (set_pending [] (set_channel [] s))).

(** The blocking wait, then the backlog; [None] when the wait goes on. *)
Definition receive (now : list Job) (s : Serve) : option Serve :=
  let channel := sv_channel s ++ now in
  if negb (busy (sv_engine s)) && (length (sv_pending s) =? 0) then
    match channel with
    | [] => None
    | job :: rest => Some (set_stalled 0 (set_channel [] (set_pending (job :: rest) s)))
    end
  else Some (set_channel [] (set_pending (sv_pending s ++ channel) s)).

Definition failed_answers (answers : list (res ApiError nat)) : nat :=
  length (List.filter (λ r, match r with Err _ => true | _ => false end) answers).

(** At most one job an idle slot, oldest first. *)
Definition admission (s : Serve) : option Serve :=
  let n := idle_slots (sv_engine s) `min` length (sv_pending s) in
  if n =? 0 then Some s else
  match admit_jobs mirostat_new seed_from_u64 decode_bytes special spent no_prefix_reuse gathers defrag
          prefill_batch_ok seam (take n (sv_pending s)) (sv_engine s) with
  | (Ok answers, e) =>
      Some (count_left n (failed_answers answers) (set_engine e (set_pending (drop n (sv_pending s)) s)))
  | _ => None
  end.

(** The newest past the bound are answered, from the newest on. *)
Definition bound_queue (queue_max : nat) (s : Serve) : Serve :=
  if queue_max <? length (sv_pending s) then
    let over := drop queue_max (sv_pending s) in
    count_left (length over) (length over)
      (set_engine (reject_jobs (rev over) QueueFull (sv_engine s))
         (set_pending (take queue_max (sv_pending s)) s))
  else s.

(** The counted bound on steps that leave the engine busy and the counter
    where it was; a failed step has answered its batch. *)
Definition count_step (ok : bool) (before : N) (s : Serve) : Serve :=
  if ok && busy (sv_engine s) && (be_work_units (sv_engine s) =? before)%N
  then set_stalled (sv_stalled_steps s + 1) s else set_stalled 0 s.

(** Whether the worker is declared stalled, everybody answered; if not, the
    runs that lag behind are. *)
Definition stall_check (s : Serve) : bool * Serve :=
  if (STALL_STEP_LIMIT <=? sv_stalled_steps s)%N then
    let s := set_engine (fail_all WorkerStalled (sv_engine s)).2 s in
    (true, set_worker_pending 0 (count_stall (reject_queued WorkerStalled s)))
  else (false, set_engine (fail_lagging_runs RUN_STALL_STEP_LIMIT RunStalled (sv_engine s)).2 s).

(** The step of a busy engine. *)
Definition serve_step (late : list Job) (s : Serve) : option (bool * Serve) :=
  if negb (busy (sv_engine s)) then Some (false, set_channel (sv_channel s ++ late) s) else
  let before := be_work_units (sv_engine s) in
  let after e := set_channel (sv_channel s ++ late) (set_engine e s) in
  match tick decode_bytes special spent seam (sv_engine s) with
  | (Ok _, e) => Some (stall_check (count_step true before (after e)))
  | (Err _, e) => Some (stall_check (count_step false before (after e)))
  | (Panic, _) => None
  end.

Definition pass (queue_max : nat) (around : Around) (s : Serve) : passed :=
  match receive (ar_now around) s with
  | None =>
      let s := set_channel (ar_mid around ++ ar_late around) (set_stalled 0 s) in
      if ar_closed around then Ends Shutdown (set_worker_pending 0 s) else Waits s
  | Some s =>
      let s := set_channel (sv_channel s ++ ar_mid around) s in
      match (if ar_draining around then Some (reject_queued Draining s)
             else bound_queue queue_max <$> admission s) with
      | None => Unwinds
      | Some s =>
          match serve_step (ar_late around) (set_worker_pending (length (sv_pending s)) s) with
          | None => Unwinds
          | Some (true, s) => Ends Stalled s
          | Some (false, s) =>
              if negb (busy (sv_engine s)) && ar_closed_end around && (length (sv_pending s) =? 0)
              then Ends Shutdown s else Again s
          end
      end
  end.

(** The loop over what happens around it; [queue_max.max(1)]. *)
Fixpoint serve_loop (queue_max : nat) (arounds : list Around) (s : Serve) : passed :=
  match arounds with
  | [] => Again s
  | around :: arounds =>
      match pass (queue_max `max` 1) around s with
      | Again s | Waits s => serve_loop queue_max arounds s
      | p => p
      end
  end.

Definition start (e : Engine) (channel : list Job) : Serve := mkServe e [] channel 0 0 0 0 0.
End serve.
