(* ===== verification/BatchFlow.v ===== *)
(** * No request is lost

    [held]: the requests answered and those running.  Every operation of the
    engine keeps them, and an admission adds the jobs it was given: one
    answer or one run each, whatever the model, the sampler and the client do,
    unless the code panics. *)
From Stdlib Require Import ZArith Lia Permutation Strings.Byte.
From stdpp Require Import base numbers list option gmap.
From S2P Require Import Prelude Gguf Grammar KvCache KvArena Batch Sampling Chat BatchEngine.
Local Open Scope nat_scope.
#[local] Existing Instances Permutation_app' Permutation_cons.

Section flow.
Context {F K M R W P : Type}.
Context `{!Floats F, !SamplerMaths F K M R, !CellPool W P, !BatchModel F P}.
Context (mirostat_new : K → M) (seed_from_u64 : N → R).
Context (decode_bytes : nat → bytes) (special : SpecialTokens).
Context (spent : SamplerConfig K → list F → list nat → M → option GrammarState → R → list F).
Context (no_prefix_reuse gathers defrag prefill_batch_ok : bool) (seam : TickSeam).

Create HintDb calm.

#[local] Abbreviation Job := (Job (K:=K)).
#[local] Abbreviation SlotState := (BatchEngine.SlotState (F:=F) (K:=K) (M:=M) (R:=R)).
#[local] Abbreviation Engine := (BatchEngine (F:=F) (K:=K) (M:=M) (R:=R) (P:=P)).
#[local] Abbreviation op := (op (F:=F) (K:=K) (M:=M) (R:=R) (P:=P)).
Implicit Types (e : Engine) (s : SlotState) (l : list SlotState).

Definition run_id s : option N := br_id <$> ss_run s.
Definition running_ids l : list N := omap run_id l.
Definition held e : list N := map fst (be_answered e) ++ running_ids (be_slots e).

Definition idle_at (i : nat) e : Prop := ∃ s, be_slots e !! i = Some s ∧ ss_run s = None.

(** Nobody came, nobody left, and idle slots stay idle. *)
Record quiet e e' : Prop := {
  qu_held : held e' ≡ₚ held e;
  qu_idle : ∀ i, idle_at i e → idle_at i e'
}.

#[export] Instance quiet_refl : Reflexive quiet.
Proof using. by split. Qed.
#[export] Instance quiet_trans : Transitive quiet.
Proof using. intros e e1 e2 [H1 I1] [H2 I2]. split; [by rewrite H2|auto]. Qed.

(** ** The runs of the slots *)

Lemma running_ids_same f i l : (∀ s, run_id (f s) = run_id s) → running_ids (alter f i l) = running_ids l.
Proof using.
  intros Hf. unfold running_ids. revert i. induction l as [|s l IH]; intros [|i]; cbn; [done..| |].
  - by rewrite Hf.
  - destruct (run_id s); [f_equal|]; apply IH.
Qed.

(** A run ends, or one begins. *)
Lemma running_ids_alter f i l s :
  l !! i = Some s →
  option_list (run_id s) ++ running_ids (alter f i l) ≡ₚ option_list (run_id (f s)) ++ running_ids l.
Proof using.
  unfold running_ids. revert i. induction l as [|x l IH]; intros [|i]; cbn; [done..| |].
  - intros [= ->]. destruct (run_id s), (run_id (f s)); cbn; by rewrite 1?Permutation_swap.
  - intros Hi. specialize (IH i Hi). destruct (run_id x) as [n|]; [|done].
    cbn. rewrite <-!Permutation_middle. by apply perm_skip.
Qed.

Lemma lookup_on_slot' i f e j : be_slots (on_slot i f e) !! j =
  if decide (i = j) then f <$> be_slots e !! j else be_slots e !! j.
Proof using. unfold on_slot. simpl. case_decide; [subst; apply list_lookup_alter_eq|by apply list_lookup_alter_ne]. Qed.

Lemma on_slot_quiet i f e : (∀ s, run_id (f s) = run_id s) → quiet e (on_slot i f e).
Proof using.
  intros Hf. split.
  - unfold held. simpl. by rewrite running_ids_same.
  - intros j (s & Hj & Hr). unfold idle_at. rewrite lookup_on_slot'. case_decide; [|by eauto].
    rewrite Hj. simpl. exists (f s). split; [done|]. specialize (Hf s). unfold run_id in Hf.
    rewrite Hr in Hf. by destruct (ss_run (f s)).
Qed.

(** Bookkeeping that does not touch slots or answers. *)
Lemma quiet_same e e' : be_slots e' = be_slots e → be_answered e' = be_answered e → quiet e e'.
Proof using.
  intros Hs Ha. split; unfold held, idle_at; rewrite ?Hs, ?Ha; done.
Qed.

Lemma slots_quiet e l :
  map run_id l = map run_id (be_slots e) → quiet e (set_slots l e).
Proof using.
  intros Hl. assert (running_ids l = running_ids (be_slots e)) as Hr.
  { unfold running_ids. revert Hl. generalize (be_slots e). clear. induction l as [|s l IH]; intros [|x k]; try done.
    cbn. intros [= Hs Hk]. rewrite Hs. destruct (run_id x); [f_equal|]; by apply IH. }
  split; [by unfold held; simpl; rewrite Hr|]. intros i (s & Hi & Hn). unfold idle_at. simpl.
  apply (f_equal (lookup i)) in Hl. rewrite !list_lookup_fmap, Hi in Hl. simpl in Hl. unfold run_id at 2 in Hl.
  rewrite Hn in Hl. destruct (l !! i) as [s'|]; [|done]. exists s'. split; [done|].
  simpl in Hl. unfold run_id in Hl. injection Hl as Hl. by destruct (ss_run s').
Qed.

(** ** Operations that only work on idle slots *)

(** The runs, the answers and the work done are as they were. *)
Record frame e e' : Prop := {
  fr_runs : map ss_run (be_slots e') = map ss_run (be_slots e);
  fr_answered : be_answered e' = be_answered e;
  fr_work : be_work_units e' = be_work_units e
}.

#[export] Instance frame_refl : Reflexive frame.
Proof using. by split. Qed.
#[export] Instance frame_trans : Transitive frame.
Proof using. intros e e1 e2 [? ? ?] [? ? ?]. split; congruence. Qed.

Lemma frame_quiet e e' : frame e e' → quiet e e'.
Proof using.
  intros [Hr Ha _]. assert (map run_id (be_slots e') = map run_id (be_slots e)) as Hi.
  { assert (∀ l, map run_id l = map (fmap br_id) (map ss_run l)) as H by (intros; by rewrite map_map).
    by rewrite !H, Hr. }
  destruct (slots_quiet e (be_slots e') Hi) as [H1 H2]. split; [|done].
  unfold held in *. by rewrite Ha.
Qed.

(** They end well or in a panic, and are framed. *)
Definition calm {A} (m : op A) : Prop := ∀ e,
  match m e with (Ok _, e') => frame e e' | (Err _, _) => False | (Panic, _) => True end.

Lemma calm_ret {A} (x : A) : calm (mret x).
Proof using. intros e. apply frame_refl. Qed.

Lemma calm_bind {A B} (m : op A) (f : A → op B) : calm m → (∀ x, calm (f x)) → calm (m ≫= f).
Proof using.
  intros Hm Hf e. unfold mbind, op_bind. specialize (Hm e). destruct (m e) as [[x|er|] e1]; [|done..].
  specialize (Hf x e1). destruct (f x e1) as [[y|er|] e2]; [|done..]. by etrans.
Qed.

Lemma calm_modify f : (∀ e, frame e (f e)) → calm (modify f).
Proof using. intros Hf e. apply Hf. Qed.

Lemma calm_get {A} (f : Engine → A) : calm (get f).
Proof using. intros e. apply frame_refl. Qed.

Lemma calm_slot_at i : calm (slot_at i).
Proof using. intros e. unfold slot_at. destruct (be_slots e !! i); simpl; [apply frame_refl|done]. Qed.

Lemma calm_attempt {A} (f : Alloc P → ares A * Alloc P) : calm (attempt f).
Proof using.
  intros e. unfold attempt. by destruct (f (be_cache e)) as [[x|er|] a].
Qed.

#[local] Hint Resolve calm_ret calm_bind calm_get calm_slot_at calm_attempt : calm.

Lemma calm_if {A} (b : bool) (m1 m2 : op A) : calm m1 → calm m2 → calm (if b then m1 else m2).
Proof using. by destruct b. Qed.
#[local] Hint Resolve calm_if : calm.

Lemma alter_map {B} (g : SlotState → B) f i l : (∀ s, g (f s) = g s) → map g (alter f i l) = map g l.
Proof using.
  intros Hf. revert i. induction l as [|s l IH]; intros [|i]; simpl; [done..| |]; [by rewrite Hf|f_equal; apply IH].
Qed.

Lemma on_slot_frame i f e : (∀ s, ss_run (f s) = ss_run s) → frame e (on_slot i f e).
Proof using. intros Hf. split; [|done..]. by apply alter_map. Qed.

Lemma calm_on_slot i f : (∀ s, ss_run (f s) = ss_run s) → calm (modify (on_slot i f)).
Proof using. intros Hf. apply calm_modify. intros e. by apply on_slot_frame. Qed.

Lemma run_moves_runs ms l : map ss_run (apply_run_moves l ms) = map ss_run l.
Proof using.
  unfold apply_run_moves. revert l. induction ms as [|m ms IH]; intros l; simpl; [done|]. rewrite IH.
  destruct (list_find _ l) as [[i x]|]; [|done]. by apply alter_map.
Qed.

Lemma calm_adopt i slot ms : calm (adopt i slot ms).
Proof using.
  apply calm_bind; [|intros; by apply calm_on_slot]. apply calm_modify. intros e. split; [|done..]. apply run_moves_runs.
Qed.

Lemma release_frame j s e : frame e (release j s e).
Proof using. split; [|done..]. by apply alter_map. Qed.

Lemma reclaim_frame i need js e : frame e (reclaim i need js e).
Proof using.
  revert e. induction js as [|j js IH]; intros e; simpl; [done|].
  destruct (be_slots e !! j) as [s|]; [|done]. destruct (_ || _); [apply IH|].
  destruct (_ <=? _); [done|]. etrans; [apply release_frame|apply IH].
Qed.

Lemma calm_ensure i want : calm (ensure_slot_capacity defrag i want).
Proof using.
  unfold ensure_slot_capacity. apply calm_bind; [auto with calm|]. intros n_ctx.
  apply calm_bind; [auto with calm|]. intros s. apply calm_if; [auto with calm|]. apply calm_if.
  - apply calm_bind; [auto with calm|]. intros [[slot ms]|]; [apply calm_adopt|auto with calm].
  - apply calm_bind; [apply calm_modify; intros e; apply reclaim_frame|]. intros _.
    apply calm_bind; [auto with calm|]. intros [[slot ms]|]; [apply calm_adopt|auto with calm].
Qed.

Lemma calm_wanted i nt mt : calm (wanted_cells i nt mt).
Proof using. unfold wanted_cells. apply calm_bind; auto with calm. Qed.

Lemma calm_copy src i rows own : calm (copy_prefix_from gathers src i rows own).
Proof using.
  unfold copy_prefix_from. do 2 (apply calm_bind; [auto with calm|]; intros ?). apply calm_bind.
  - apply calm_if; [|auto with calm]. apply calm_bind; auto with calm.
  - intros [[]|]; [|auto with calm]. apply calm_bind; [by apply calm_on_slot|]. intros _.
    apply calm_bind; [|auto with calm]. by apply calm_modify.
Qed.

Lemma calm_feed_from i ids : calm (feed_from no_prefix_reuse gathers i ids).
Proof using.
  unfold feed_from. apply calm_bind; [auto with calm|]. intros s. apply calm_bind; [auto with calm|].
  intros [rows [src|]]; [apply calm_copy|auto with calm].
Qed.

(** ** The end of a run *)

Lemma quiet_ends i e e' s r ch f :
  be_slots e !! i = Some s → ss_run s = Some r → be_slots e' = alter f i (be_slots e) →
  (∀ s, ss_run (f s) = None) → be_answered e' = be_answered e ++ [(br_id r, ch)] → quiet e e'.
Proof using.
  intros Hi Hr Hs Hf Ha. split.
  - unfold held. rewrite Hs, Ha, map_app. simpl.
    pose proof (running_ids_alter f i (be_slots e) s Hi) as Hp. unfold run_id in Hp. rewrite Hr, Hf in Hp.
    simpl in Hp. by rewrite <-(assoc_L (++)), <-Hp.
  - intros j (x & Hj & Hx). unfold idle_at. rewrite Hs. destruct (decide (i = j)) as [<-|].
    + rewrite list_lookup_alter_eq, Hi. simpl. eauto.
    + rewrite list_lookup_alter_ne by done. eauto.
Qed.

Lemma fail_quiet i er e : quiet e (fail i er e).
Proof using.
  unfold fail. destruct (be_slots e !! i) as [s|] eqn:Hi; [|done].
  set (f := λ s, set_ss_cached [] (set_ss_run None s)). destruct (ss_run s) as [r|] eqn:Hr.
  - by eapply (quiet_ends i _ _ s r _ f).
  - apply (quiet_trans _ (on_slot i f e)); [|done]. split.
    + unfold held. simpl. pose proof (running_ids_alter f i (be_slots e) s Hi) as Hp.
      unfold run_id in Hp. rewrite Hr in Hp. simpl in Hp. by rewrite Hp.
    + intros j (x & Hj & Hx). unfold idle_at. rewrite lookup_on_slot'. case_decide; [|eauto].
      rewrite Hj. simpl. eauto.
Qed.

Lemma finish_quiet i reason e : quiet e (finish i reason e).
Proof using.
  unfold finish. destruct (be_slots e !! i) as [s|] eqn:Hi; [|done].
  destruct (ss_run s) as [r|] eqn:Hr; [|done]. destruct (if _ <? _ then _ else _) as [[] o].
  - by eapply (quiet_ends i _ _ s r _ (set_ss_run None)).
  - eapply (quiet_ends i _ _ s r _ (λ s, set_ss_cached [] (set_ss_run None s))); [done|done| |done|done].
    simpl. apply list_alter_alter_eq.
Qed.

Lemma fail_batch_quiet idxs er e : quiet e (fail_batch idxs er e).
Proof using.
  unfold fail_batch. revert e. induction idxs as [|i idxs IH]; intros e; simpl; [done|].
  etrans; [apply fail_quiet|apply IH].
Qed.

Lemma fail_where_quiet p er e : quiet e (fail_where p er e).2.
Proof using.
  unfold fail_where. generalize (seq 0 (length (be_slots e))). intros idxs.
  assert (∀ acc, quiet acc.2 (foldl (fail_if p er) acc idxs).2) as H; [|apply (H (0, e))].
  induction idxs as [|i idxs IH]; intros acc; cbn [foldl]; [done|].
  etrans; [|apply IH]. unfold fail_if. destruct (be_slots acc.2 !! i) as [s|]; [|done].
  destruct (p s); [apply fail_quiet|done].
Qed.

(** ** A step *)

Lemma row_written_id logits s : run_id (row_written logits s) = run_id s.
Proof using. unfold row_written, run_id. destruct (ss_run s) as [r|] eqn:Hr; [|by rewrite Hr].
  destruct (br_needs r); [done|by rewrite Hr].
Qed.

Lemma write_rows_ids r nv logits idxs l : map run_id (write_rows r nv logits idxs l) = map run_id l.
Proof using.
  revert r l. induction idxs as [|i idxs IH]; intros r l; simpl; [done|].
  rewrite IH. apply alter_map. intros. apply row_written_id.
Qed.

Lemma forward_quiet b e : quiet e (guarded_forward_batch b e).2.
Proof using. unfold guarded_forward_batch. destruct (forward_batch _ _ _ _) as [r a]. by apply quiet_same. Qed.

Lemma forward_no_panic b e : (guarded_forward_batch b e).1 ≠ Panic.
Proof using. unfold guarded_forward_batch. by destruct (forward_batch _ _ _ _) as [[] a]. Qed.

Lemma forward_err b e er : (guarded_forward_batch b e).1 = Err er → er = InferencePanicked.
Proof using. unfold guarded_forward_batch. destruct (forward_batch _ _ _ _) as [[] a]; simpl; congruence. Qed.

Lemma forward_rows_quiet e : quiet e (forward_rows e).2.
Proof using.
  unfold forward_rows. destruct (pending_rows e) as [|x rows]; [done|].
  pose proof (forward_quiet (batch_of_rows (x :: rows)) e) as Hq.
  destruct (guarded_forward_batch _ e) as [[logits|er|] e1]; simpl in *; [| |done].
  - etrans; [exact Hq|]. etrans; [by apply (quiet_same _ (add_work (N.of_nat (S (length rows))) e1))|].
    apply slots_quiet. simpl. rewrite write_rows_ids. apply alter_map. intros. apply row_written_id.
  - etrans; [exact Hq|]. apply (fail_batch_quiet (map (λ '(i, _, _, _), i) (x :: rows))).
Qed.

Lemma advance_id cap r : br_id (advance decode_bytes special spent cap r).2 = br_id r.
Proof using.
  unfold advance. destruct (budget_done r); [done|]. destruct (cap <=? br_pos r); [done|].
  destruct (sample_with_config_grammar _ _ _ _ _ _) as [[[[tok mst] gst] rng]|e|]; [|done..].
  destruct (is_stop special tok); [done|]. cbn [br_out br_params].
  destruct (match_stop_suffix _ _); [done|].
  destruct (emit _ _) as [[] o]; simpl; [|done]. by destruct (_ || _).
Qed.

Lemma step_slot_quiet i e :
  match step_slot decode_bytes special spent i e with
  | (Ok _, e') => quiet e e'
  | (Err _, _) => False
  | (Panic, _) => True
  end.
Proof using.
  unfold step_slot. destruct (be_slots e !! i) as [s|] eqn:Hi; [|done].
  destruct (ss_run s) as [r|] eqn:Hr; [|done]. pose proof (advance_id (ss_cap s) r) as Hid.
  destruct (advance _ _ _ _ r) as [out r']. simpl in Hid.
  assert (quiet e (on_slot i (set_ss_run (Some r')) e)) as Hq.
  { split.
    - unfold held. simpl. pose proof (running_ids_alter (set_ss_run (Some r')) i (be_slots e) s Hi) as Hp.
      unfold run_id in Hp. rewrite Hr in Hp. simpl in Hp. rewrite Hid in Hp. apply (inj (cons _)) in Hp. by rewrite Hp.
    - intros j (x & Hj & Hx). unfold idle_at. rewrite lookup_on_slot'. case_decide; [|eauto]. subst j. congruence. }
  destruct out as [[|reason]|er|]; [|..|done].
  - etrans; [exact Hq|by apply quiet_same].
  - etrans; [exact Hq|apply finish_quiet].
  - etrans; [exact Hq|apply fail_quiet].
Qed.

Lemma step_slots_quiet idxs e :
  match step_slots decode_bytes special spent idxs e with
  | (Ok _, e') => quiet e e'
  | (Err _, _) => False
  | (Panic, _) => True
  end.
Proof using.
  revert e. induction idxs as [|i idxs IH]; intros e; cbn [step_slots]; [apply quiet_refl|].
  unfold mbind, op_bind. pose proof (step_slot_quiet i e) as Hs.
  destruct (step_slot _ _ _ i e) as [[moved|er|] e1]; [|done..]. specialize (IH e1).
  destruct (step_slots _ _ _ idxs e1) as [[rest|er|] e2]; [exact (quiet_trans _ _ _ Hs IH)|done..].
Qed.

Lemma stamp_quiet idxs e : quiet e (stamp idxs e).
Proof using.
  unfold stamp. revert e. induction idxs as [|i idxs IH]; intros e; simpl; [done|].
  etrans; [|apply IH]. apply on_slot_quiet. intros s. unfold run_id. simpl. by destruct (ss_run s).
Qed.

Lemma tick_quiet e :
  match tick decode_bytes special spent seam e with (Panic, _) => True | (_, e') => quiet e e' end.
Proof using.
  unfold tick. destruct seam; [|done|by apply quiet_same]. unfold mbind, op_bind, get, modify.
  pose proof (forward_rows_quiet e) as Hf. destruct (forward_rows e) as [[written|er|] e1]; simpl in Hf; [|done..].
  pose proof (step_slots_quiet (seq 0 (length (be_slots e1))) e1) as Hs.
  destruct (step_slots _ _ _ _ e1) as [[moved|er|] e2]; [|done..].
  etrans; [exact Hf|]. etrans; [exact Hs|]. apply stamp_quiet.
Qed.

(** ** Admission *)

(** The jobs [ids] came in: the slots [taken] may be running now. *)
Record came (ids : list N) (taken : list nat) e e' : Prop := {
  cm_held : held e' ≡ₚ ids ++ held e;
  cm_idle : ∀ i, i ∉ taken → idle_at i e → idle_at i e'
}.

Lemma quiet_came e e' taken : quiet e e' → came [] taken e e'.
Proof using. intros [H1 H2]. split; [done|auto]. Qed.

Lemma came_trans ids1 ids2 t1 t2 e e1 e2 :
  came ids1 t1 e e1 → came ids2 t2 e1 e2 → came (ids1 ++ ids2) (t1 ++ t2) e e2.
Proof using.
  intros [H1 I1] [H2 I2]. split.
  - rewrite H2, H1, !(assoc_L (++)). by rewrite (Permutation_app_comm ids2).
  - intros i [Hi1 Hi2]%not_elem_of_app Hid. apply I2; [exact Hi2|]. by apply I1.
Qed.

Lemma came_quiet ids taken e e1 e2 : came ids taken e e1 → quiet e1 e2 → came ids taken e e2.
Proof using. intros [H1 I1] [H2 I2]. split; [by rewrite H2|auto]. Qed.

Lemma quiet_came_trans ids taken e e1 e2 : quiet e e1 → came ids taken e1 e2 → came ids taken e e2.
Proof using. intros [H1 I1] [H2 I2]. split; [by rewrite H2, H1|auto]. Qed.

Lemma reject_came {A} (job : Job) er taken e : came [jb_id job] taken e (reject (A:=A) job er e).2.
Proof using.
  split; [|done]. unfold held. simpl. rewrite map_app. simpl. rewrite <-(assoc_L (++)). simpl.
  by rewrite <-Permutation_middle.
Qed.

Lemma install_came i (job : Job) logits from e :
  idle_at i e →
  match install_run mirostat_new seed_from_u64 no_prefix_reuse i job logits from e with
  | (Ok _, e') => came [jb_id job] [i] e e'
  | (Err _, _) => False
  | (Panic, _) => True
  end.
Proof using.
  intros (s & Hi & Hr). unfold install_run, mbind, op_bind, modify, new_grammar_state, get.
  destruct (grammar_state (jb_params job)) as [gst|er|]; [|destruct er|done].
  set (r := mkRun _ _ _ _ _ _ _ _ _ _ _). set (ids := if no_prefix_reuse then _ else _).
  split.
  - unfold held. simpl. rewrite list_alter_alter_eq.
    pose proof (running_ids_alter (λ s, set_ss_run (Some r) (set_ss_cached ids s)) i (be_slots e) s Hi) as Hp.
    unfold run_id in Hp. rewrite Hr in Hp. simpl in Hp. rewrite Hp. by rewrite <-Permutation_middle.
  - intros j Hj (x & Hx & Hn). exists x. split; [|done]. simpl.
    rewrite !list_lookup_alter_ne; [done|..]; intros ->; apply Hj; by left.
Qed.

Lemma feed_flow sq (job : Job) spans last_logits e :
  match feed decode_bytes special spent seam sq job spans last_logits e with
  | (Ok _, e') => quiet e e'
  | (Err _, e') => came [jb_id job] [] e e'
  | (Panic, _) => True
  end.
Proof using.
  revert e. induction spans as [|[from to] spans IH]; intros e; cbn [feed]; [apply quiet_refl|].
  set (b := mkBatch _ _ _). set (e0 := count_prefill _ e).
  assert (quiet e e0) as Hq0 by by apply quiet_same.
  pose proof (forward_quiet b e0) as Hf. destruct (guarded_forward_batch b e0) as [[logits|er|] e1]; simpl in Hf; [| |done].
  - assert (quiet e e1) as Hq1 by by etrans.
    destruct spans as [|sp spans]; [done|].
    assert (∀ e2, quiet e1 e2 → match feed decode_bytes special spent seam sq job (sp :: spans) last_logits e2 with
      | (Ok _, e') => quiet e e' | (Err _, e') => came [jb_id job] [] e e' | (Panic, _) => True end) as Hrest.
    { intros e2 Hq2. specialize (IH e2). assert (quiet e e2) by by etrans.
      destruct (feed decode_bytes special spent seam sq job (sp :: spans) last_logits e2) as [[x|er|] e3]; [by etrans| |done].
      by eapply quiet_came_trans. }
    destruct (has_pending_decode e1); [|by apply Hrest].
    pose proof (tick_quiet (count_interleaved e1)) as Ht.
    assert (quiet e1 (count_interleaved e1)) as Hqc by by apply quiet_same.
    destruct (tick decode_bytes special spent seam (count_interleaved e1)) as [[[]|er|] e2]; [..|done];
      apply Hrest; by etrans.
  - eapply quiet_came_trans; [by etrans|]. apply (reject_came (A:=list F)).
Qed.

Lemma submit_on_flow i (job : Job) e :
  match submit_on mirostat_new seed_from_u64 decode_bytes special spent no_prefix_reuse gathers defrag seam i job e with
  | (Panic, _) => True
  | (_, e') => came [jb_id job] [i] e e'
  end.
Proof using.
  unfold submit_on. destruct (be_slots e !! i) as [s|] eqn:Hi; [|apply (reject_came (A:=nat))].
  unfold running. case_bool_decide as Hrun; [apply (reject_came (A:=nat))|]. apply eq_None_not_Some in Hrun.
  assert (idle_at i e) as Hidle by by exists s.
  set (nt := length (jb_input_ids job)). unfold mbind, op_bind.
  pose proof (calm_wanted i nt (pr_max_tokens (jb_params job)) e) as H1.
  destruct (wanted_cells i nt _ e) as [[want|er|] e1]; [|done..].
  pose proof (calm_ensure i want e1) as H2.
  destruct (ensure_slot_capacity defrag i want e1) as [[[]|er|] e2]; [|done..].
  pose proof (calm_slot_at i e2) as H3. destruct (slot_at i e2) as [[s3|er|] e3]; [|done..].
  assert (quiet e e3) as Hq3 by (apply frame_quiet; etrans; [exact H1|by etrans]).
  destruct (ss_cap s3 <? nt).
  { eapply quiet_came_trans; [exact Hq3|]. apply (reject_came (A:=nat)). }
  pose proof (calm_feed_from i (jb_input_ids job) e3) as H4.
  destruct (feed_from no_prefix_reuse gathers i (jb_input_ids job) e3) as [[from|er|] e4]; [|done..].
  assert (quiet e e4) as Hq4 by (etrans; [exact Hq3|by apply frame_quiet]). unfold get.
  pose proof (feed_flow (ss_seq s3) job (prefill_chunks from nt (be_n_batch e4)) [] e4) as H5.
  destruct (feed decode_bytes special spent seam (ss_seq s3) job _ [] e4) as [[logits|er|] e5]; [| |done].
  - assert (quiet e e5) as Hq5 by by etrans.
    pose proof (install_came i job logits from e5 (qu_idle _ _ Hq5 i Hidle)) as H6.
    destruct (install_run _ _ _ i job logits from e5) as [[[]|er|] e6]; [|done..].
    by eapply quiet_came_trans.
  - eapply quiet_came_trans; [exact Hq4|]. destruct H5 as [C1 C2]. split; [done|].
    intros j _. apply C2. by intros ?%elem_of_nil.
Qed.

(** *** Placing *)

#[local] Abbreviation placed := (placed (K:=K)).
Definition ids_of (ps : placed) : list N := map (λ p, jb_id p.1.2) ps.
Definition slots_of (ps : placed) : list nat := map snd ps.

Lemma best_slot_found taken l ids i best n slot :
  best_slot taken l ids i best = Some (n, slot) →
  (best = Some (n, slot)) ∨ (i ≤ slot ∧ taken !! (slot - i) = Some false ∧ is_Some (l !! (slot - i))).
Proof using.
  revert l i best. induction taken as [|t taken IH]; intros l i best; simpl; [by left|].
  destruct l as [|s l]; [by left|]. intros [Hb|(Hi & Ht & Hl)]%IH.
  - destruct t; [by left|].
    assert (best = Some (n, slot) ∨ slot = i) as [H|H].
    { destruct best as [[bn bs]|]; [destruct (bn <? _)|]; simplify_eq; auto. }
    + by left.
    + right. subst. rewrite Nat.sub_diag. simpl. by eauto.
  - right. replace (slot - i) with (S (slot - S i)) by lia. simpl. split; [lia|done].
Qed.

Lemma place_jobs_flow i (jobs : list Job) taken e :
  let '(ps, refused, e') := place_jobs i jobs taken e in
  ids_of ps ++ held e' ≡ₚ map jb_id jobs ++ held e ∧ be_slots e' = be_slots e ∧ NoDup (slots_of ps) ∧
  Forall (λ slot, taken !! slot = Some false ∧ is_Some (be_slots e !! slot)) (slots_of ps).
Proof using.
  revert i taken e. induction jobs as [|job jobs IH]; intros i taken e; cbn [place_jobs].
  { split_and!; [done|done|constructor|constructor]. }
  destruct (best_slot taken (be_slots e) (jb_input_ids job) 0 None) as [[n slot]|] eqn:Hb.
  - apply best_slot_found in Hb as [|(_ & Ht & Hs)]; [done|]. rewrite Nat.sub_0_r in *.
    specialize (IH (S i) (<[slot := true]> taken) e).
    destruct (place_jobs (S i) jobs (<[slot := true]> taken) e) as [[ps refused] e1].
    destruct IH as (Hh & Hsl & Hnd & Hall).
    assert (Forall (λ x, x ≠ slot ∧ taken !! x = Some false ∧ is_Some (be_slots e !! x)) (slots_of ps)) as Hall'.
    { eapply Forall_impl; [exact Hall|]. intros x [Hx Hx']. destruct (decide (slot = x)) as [->|].
      - rewrite list_lookup_insert_eq in Hx by by eapply lookup_lt_Some. done.
      - rewrite list_lookup_insert_ne in Hx by done. by split. }
    split_and!; [|done| |].
    + simpl. by rewrite Hh.
    + simpl. constructor; [|done]. intros Hin. rewrite Forall_forall in Hall'. by destruct (Hall' _ Hin).
    + simpl. constructor; [done|]. eapply Forall_impl; [exact Hall'|]. intros x (_ & H1 & H2). done.
  - set (e0 := drop_sender _ _ e). specialize (IH (S i) taken e0).
    destruct (place_jobs (S i) jobs taken e0) as [[ps refused] e1]. destruct IH as (Hh & Hsl & Hnd & Hall).
    split_and!; [|done|done|done]. rewrite Hh.
    destruct (reject_came (A:=nat) job NoIdleSlot [] e) as [Hc _]. simpl in Hc. change (held e0) with (held e0) in *.
    unfold reject in Hc. simpl in Hc. fold e0 in Hc. rewrite Hc. simpl. by rewrite <-Permutation_middle.
Qed.

Lemma reject_all_flow (ps : placed) er e : came (ids_of ps) [] e (reject_all ps er e).
Proof using.
  revert e. induction ps as [|[[i job] slot] ps IH]; intros e; cbn [reject_all]; [by apply quiet_came|].
  change (ids_of ((i, job, slot) :: ps)) with ([jb_id job] ++ ids_of ps).
  apply (came_trans _ _ [] [] _ (reject (A:=unit) job er e).2); [apply reject_came|apply IH].
Qed.

Lemma submit_all_flow (ps : placed) e :
  match submit_all mirostat_new seed_from_u64 decode_bytes special spent no_prefix_reuse gathers defrag seam ps e with
  | (Ok _, e') => came (ids_of ps) (slots_of ps) e e'
  | (Err _, _) => False
  | (Panic, _) => True
  end.
Proof using.
  revert e. induction ps as [|[[i job] slot] ps IH]; intros e; cbn [submit_all]; [by apply quiet_came|].
  pose proof (submit_on_flow slot job e) as Hs.
  change (ids_of ((i, job, slot) :: ps)) with ([jb_id job] ++ ids_of ps).
  change (slots_of ((i, job, slot) :: ps)) with ([slot] ++ slots_of ps).
  destruct (submit_on _ _ _ _ _ _ _ _ _ slot job e) as [[x|er|] e1]; [..|done];
    unfold mbind, op_bind; specialize (IH e1);
    (destruct (submit_all _ _ _ _ _ _ _ _ _ ps e1) as [[rest|er'|] e2]; [by eapply came_trans|done..]).
Qed.

Lemma ready_one_flow p e :
  match ready_one no_prefix_reuse gathers defrag p e with (Panic, _) => True | (_, e') => frame e e' end.
Proof using.
  destruct p as [[i job] slot]. unfold ready_one, mbind, op_bind.
  pose proof (calm_feed_from slot (jb_input_ids job) e) as H1.
  destruct (feed_from _ _ slot _ e) as [[from|er|] e1]; [|done..].
  pose proof (calm_wanted slot (length (jb_input_ids job)) (pr_max_tokens (jb_params job)) e1) as H2.
  destruct (wanted_cells slot _ _ e1) as [[want|er|] e2]; [|done..].
  pose proof (calm_ensure slot want e2) as H3.
  destruct (ensure_slot_capacity defrag slot want e2) as [[[]|er|] e3]; [|done..].
  pose proof (calm_slot_at slot e3) as H4. destruct (slot_at slot e3) as [[s|er|] e4]; [|done..].
  assert (frame e e4) by (etrans; [exact H1|etrans; [exact H2|by etrans]]). by destruct (_ <? _).
Qed.

Lemma ready_all_flow (ps : placed) e :
  match ready_all no_prefix_reuse gathers defrag ps e with
  | (Ok (_, _, _, feeds), e') => frame e e' ∧ length feeds = length ps
  | (Err _, e') => frame e e'
  | (Panic, _) => True
  end.
Proof using.
  revert e. induction ps as [|p ps IH]; intros e; cbn [ready_all]; [by split|].
  unfold mbind, op_bind. pose proof (ready_one_flow p e) as H1.
  destruct (ready_one _ _ _ p e) as [[[[[ts xs] ss] from]|er|] e1]; [|done..].
  specialize (IH e1). destruct (ready_all _ _ _ ps e1) as [[[[[ts' xs'] ss'] feeds]|er|] e2]; [|by etrans|done].
  destruct IH as [H2 H3]. split; [by etrans|]. simpl. by rewrite H3.
Qed.

Lemma install_all_flow r nv logits (ps : placed) feeds e :
  length feeds = length ps → NoDup (slots_of ps) → Forall (λ i, idle_at i e) (slots_of ps) →
  match install_all mirostat_new seed_from_u64 no_prefix_reuse r nv logits ps feeds e with
  | (Ok _, e') => came (ids_of ps) (slots_of ps) e e'
  | (Err _, _) => False
  | (Panic, _) => True
  end.
Proof using.
  revert r feeds e. induction ps as [|[[i job] slot] ps IH]; intros r [|from feeds] e Hl Hnd Hall;
    [by apply quiet_came|done..|]. cbn [install_all]. injection Hl as Hl.
  change (ids_of ((i, job, slot) :: ps)) with ([jb_id job] ++ ids_of ps).
  change (slots_of ((i, job, slot) :: ps)) with ([slot] ++ slots_of ps).
  simpl in Hnd, Hall. apply NoDup_cons in Hnd as [Hn Hnd]. apply Forall_cons in Hall as [Hi Hall].
  unfold mbind, op_bind. pose proof (install_came slot job (take nv (drop (r * nv) logits)) from e Hi) as H1.
  destruct (install_run _ _ _ slot job _ from e) as [[[]|er|] e1]; [|done..].
  specialize (IH (S r) feeds e1 Hl Hnd).
  destruct (install_all _ _ _ (S r) nv logits ps feeds e1) as [[[]|er|] e2];
    [eapply came_trans; [exact H1|]|..|done]; apply IH; rewrite Forall_forall in *; intros x Hx;
    (apply (cm_idle _ _ _ _ H1); [|by apply Hall]); intros ->%list_elem_of_singleton; done.
Qed.

Lemma prefill_group_flow (ps : placed) e :
  NoDup (slots_of ps) → Forall (λ i, idle_at i e) (slots_of ps) →
  match prefill_group mirostat_new seed_from_u64 no_prefix_reuse gathers defrag ps e with
  | (Ok _, e') => came (ids_of ps) (slots_of ps) e e'
  | (Err _, e') => quiet e e'
  | (Panic, _) => True
  end.
Proof using.
  intros Hnd Hall. unfold prefill_group, mbind, op_bind. pose proof (ready_all_flow ps e) as H1.
  destruct (ready_all _ _ _ ps e) as [[[[[ts xs] ss] feeds]|er|] e1]; [|by apply frame_quiet|done].
  destruct H1 as [H1%frame_quiet Hl].
  pose proof (forward_quiet (mkBatch (map N.of_nat ts) xs ss) e1) as H2.
  destruct (guarded_forward_batch _ e1) as [[logits|er|] e2]; simpl in H2; [|by etrans|done].
  assert (quiet e e2) as Hq by by etrans. destruct (negb _); [done|].
  pose proof (install_all_flow 0 (length logits / length ps) logits ps feeds e2 Hl Hnd) as H3.
  assert (Forall (λ i, idle_at i e2) (slots_of ps)) as Hall2.
  { eapply Forall_impl; [exact Hall|]. intros i. apply (qu_idle _ _ Hq). }
  specialize (H3 Hall2). destruct (install_all _ _ _ 0 _ logits ps feeds e2) as [[[]|er|] e3]; [|done..].
  by eapply quiet_came_trans.
Qed.

(** A whole admission: every job is answered or running. *)
Lemma admit_flow (jobs : list Job) e :
  match admit_jobs mirostat_new seed_from_u64 decode_bytes special spent no_prefix_reuse gathers defrag prefill_batch_ok seam jobs e with
  | (Ok answers, e') => held e' ≡ₚ map jb_id jobs ++ held e ∧ length answers = length jobs
  | (Err _, _) => False
  | (Panic, _) => True
  end.
Proof using.
  unfold admit_jobs. pose proof (place_jobs_flow 0 jobs (map running (be_slots e)) e) as Hp.
  destruct (place_jobs 0 jobs _ e) as [[ps refused] e1]. destruct Hp as (Hh & Hs & Hnd & Hall).
  assert (Forall (λ i, idle_at i e1) (slots_of ps)) as Hidle.
  { eapply Forall_impl; [exact Hall|]. intros i [Ht [s Hi]]. unfold idle_at. rewrite Hs. exists s. split; [done|].
    rewrite list_lookup_fmap, Hi in Ht. injection Ht as Ht. unfold running in Ht.
    apply bool_decide_eq_false_1 in Ht. by apply eq_None_not_Some. }
  assert (∀ taken e2, came (ids_of ps) taken e1 e2 → held e2 ≡ₚ map jb_id jobs ++ held e) as Hdone.
  { intros taken e2 [Hc _]. by rewrite Hc. }
  destruct (_ && prefill_batch_ok).
  - pose proof (prefill_group_flow ps e1 Hnd Hidle) as Hg.
    destruct (prefill_group _ _ _ _ _ ps e1) as [[[]|er|] e2]; [| |done]; rewrite length_map, length_seq;
      (split; [|done]); (eapply Hdone); [exact Hg|]. eapply quiet_came_trans; [exact Hg|apply reject_all_flow].
  - unfold mbind, op_bind, mret, op_ret. pose proof (submit_all_flow ps e1) as Hg.
    destruct (submit_all _ _ _ _ _ _ _ _ _ ps e1) as [[answers|er|] e2]; [|done..].
    rewrite length_map, length_seq. split; [|done]. by eapply Hdone.
Qed.
End flow.
