(* ===== verification/BatchLive.v ===== *)
(** * Every step moves

    A step counts its work: what it leaves running has just been given a row
    or a token, so the counter has moved and every live run was stamped with
    it.  And a run takes one position a step, so a worker without arrivals
    runs dry in as many steps as a slot has cells. *)
From Stdlib Require Import ZArith Lia Strings.Byte.
From stdpp Require Import base numbers list option gmap.
From S2P Require Import Prelude Gguf Grammar KvCache KvArena Batch Sampling Chat BatchEngine BatchFlow.
Local Open Scope nat_scope.

Section live.
Context {F K M R W P : Type}.
Context `{!Floats F, !SamplerMaths F K M R, !CellPool W P, !BatchModel F P}.
Context (mirostat_new : K → M) (seed_from_u64 : N → R).
Context (decode_bytes : nat → bytes) (special : SpecialTokens).
Context (spent : SamplerConfig K → list F → list nat → M → option GrammarState → R → list F).
Context (no_prefix_reuse gathers defrag prefill_batch_ok : bool).

#[local] Abbreviation Job := (Job (K:=K)).
#[local] Abbreviation Run := (BatchEngine.Run (F:=F) (K:=K) (M:=M) (R:=R)).
#[local] Abbreviation SlotState := (BatchEngine.SlotState (F:=F) (K:=K) (M:=M) (R:=R)).
#[local] Abbreviation Engine := (BatchEngine (F:=F) (K:=K) (M:=M) (R:=R) (P:=P)).
#[local] Abbreviation tick := (tick decode_bytes special spent Off (P:=P)).
Implicit Types (e : Engine) (s : SlotState) (r : Run) (l : list SlotState).

Definition runs_at (i : nat) e (r : Run) : Prop := ∃ s, be_slots e !! i = Some s ∧ ss_run s = Some r.

(** Every live run was stamped with the work done so far. *)
Definition synced e : Prop := ∀ i r, runs_at i e r → br_progress r = be_work_units e.

Lemma frame_runs e e' i r : frame e e' → runs_at i e' r → runs_at i e r.
Proof using.
  intros [Hr _ _] (s & Hs & Hrun). apply (f_equal (lookup i)) in Hr. rewrite !list_lookup_fmap, Hs in Hr.
  destruct (be_slots e !! i) as [s'|] eqn:Hs'; [|done]. exists s'. split; [done|]. simpl in Hr. congruence.
Qed.

Lemma frame_synced e e' : frame e e' → synced e → synced e'.
Proof using.
  intros Hf Hs i r Hr. rewrite (fr_work _ _ Hf). by eapply Hs, frame_runs.
Qed.

(** ** The parts of a step *)

(** A step on slot [i] alone. *)
Record only (i : nat) e e' : Prop := {
  on_others : ∀ j, j ≠ i → be_slots e' !! j = be_slots e !! j;
  on_length : length (be_slots e') = length (be_slots e)
}.

Lemma fail_only i er e : only i e (fail i er e) ∧ be_work_units (fail i er e) = be_work_units e ∧
  ∀ r, ¬ runs_at i (fail i er e) r.
Proof using.
  unfold fail. destruct (be_slots e !! i) as [s|] eqn:Hi.
  - destruct (ss_run s); (split; [split; [intros j Hj; simpl; by rewrite list_lookup_alter_ne|simpl; apply length_alter]|split; [done|]]);
      intros r0 (x & Hx & Hr); simpl in Hx; rewrite list_lookup_alter_eq, Hi in Hx; injection Hx as <-; done.
  - split; [done|split; [done|]]. intros r (x & Hx & _). congruence.
Qed.

Lemma finish_only i reason e : only i e (finish i reason e) ∧
  be_work_units (finish i reason e) = be_work_units e ∧ ∀ r, ¬ runs_at i (finish i reason e) r.
Proof using.
  unfold finish. destruct (be_slots e !! i) as [s|] eqn:Hi.
  2: { split; [done|split; [done|]]. intros r (x & Hx & _). congruence. }
  destruct (ss_run s) as [r|] eqn:Hr.
  2: { split; [done|split; [done|]]. intros r (x & Hx & ?). congruence. }
  destruct (if _ <? _ then _ else _) as [[] o];
    (split; [split; [intros j Hj; simpl; by rewrite !list_lookup_alter_ne by done|simpl; by rewrite !length_alter]|split; [done|]]);
    intros r' (x & Hx & Hr'); simpl in Hx; rewrite !list_lookup_alter_eq, Hi in Hx; injection Hx as <-; done.
Qed.

Lemma only_trans i e e1 e2 : only i e e1 → only i e1 e2 → only i e e2.
Proof using. intros [H1 L1] [H2 L2]. split; [intros j Hj; by rewrite H2, H1|congruence]. Qed.

Lemma on_slot_only i f e : only i e (on_slot i f e).
Proof using. split; [intros j Hj; simpl; by rewrite list_lookup_alter_ne|simpl; apply length_alter]. Qed.

(** A run that goes on: one token, if its cell is there. *)
Lemma advance_goes_on cap r r' :
  advance decode_bytes special spent cap r = (Ok Continue, r') →
  br_pos r' = br_pos r ∧ br_pos r + 1 < cap ∧ is_Some (br_needs r').
Proof using.
  unfold advance. destruct (budget_done r); [done|]. destruct (Nat.leb_spec cap (br_pos r)); [done|].
  destruct (sample_with_config_grammar _ _ _ _ _ _) as [[[[tok mst] gst] rng]|e|]; [|done..].
  destruct (is_stop special tok); [done|]. cbn [br_out br_params].
  destruct (match_stop_suffix _ _); [done|]. destruct (emit _ _) as [[] o]; simpl; [|done].
  destruct (budget_done _); [done|]. simpl. destruct (Nat.leb_spec cap (br_pos r + 1)); [done|].
  intros [= <-]. simpl. by eauto.
Qed.

Lemma step_slot_moves i e :
  match step_slot decode_bytes special spent i e with
  | (Ok moved, e') => only i e e' ∧
      be_work_units e' = (be_work_units e + if moved then 1 else 0)%N ∧
      ∀ r', runs_at i e' r' → moved = true ∧ ∃ s r, be_slots e !! i = Some s ∧ ss_run s = Some r ∧
        advance decode_bytes special spent (ss_cap s) r = (Ok Continue, r') ∧
        ss_cap <$> be_slots e' !! i = Some (ss_cap s)
  | _ => True
  end.
Proof using.
  unfold step_slot. destruct (be_slots e !! i) as [s|] eqn:Hi.
  2: { split; [done|]. split; [lia|]. intros r' (x & Hx & _). congruence. }
  destruct (ss_run s) as [r|] eqn:Hr.
  2: { split; [done|]. split; [lia|]. intros r' (x & Hx & ?). congruence. }
  destruct (advance decode_bytes special spent (ss_cap s) r) as [[[|reason]|er|] r'] eqn:Hadv; [..|done].
  - destruct (on_slot_only i (set_ss_run (Some r')) e). split; [by split|]. split; [done|]. intros r'' (x & Hx & Hrx). split; [done|].
    simpl in Hx. rewrite list_lookup_alter_eq, Hi in Hx. injection Hx as <-. simpl in Hrx. injection Hrx as <-.
    exists s, r. split_and!; [done|done|done|]. simpl. by rewrite list_lookup_alter_eq, Hi.
  - set (e1 := on_slot i _ e). destruct (finish_only i reason e1) as (H1 & H2 & H3).
    split; [by eapply only_trans; [apply on_slot_only|]|]. split; [rewrite H2; simpl; lia|]. by intros r'' ?%H3.
  - set (e1 := on_slot i _ e). destruct (fail_only i er e1) as (H1 & H2 & H3).
    split; [by eapply only_trans; [apply on_slot_only|]|]. split; [rewrite H2; simpl; lia|]. by intros r'' ?%H3.
Qed.

(** A run after the step, and the one it comes from. *)
Definition went_on (i : nat) e (r' : Run) (cap : nat) : Prop :=
  ∃ s r, be_slots e !! i = Some s ∧ ss_run s = Some r ∧ cap = ss_cap s ∧
    advance decode_bytes special spent (ss_cap s) r = (Ok Continue, r').

Lemma step_slots_move idxs e :
  NoDup idxs →
  match step_slots decode_bytes special spent idxs e with
  | (Ok moved, e') =>
      be_work_units e' = (be_work_units e + N.of_nat (length moved))%N ∧
      length (be_slots e') = length (be_slots e) ∧
      (∀ j, j ∉ idxs → be_slots e' !! j = be_slots e !! j) ∧
      (∀ j s r', j ∈ idxs → be_slots e' !! j = Some s → ss_run s = Some r' →
         j ∈ moved ∧ went_on j e r' (ss_cap s))
  | _ => True
  end.
Proof using.
  revert e. induction idxs as [|i idxs IH]; intros e Hnd; cbn [step_slots].
  { split; [simpl; lia|]. split; [done|]. split; [done|]. by intros j s r' ?%elem_of_nil. }
  apply NoDup_cons in Hnd as [Hn Hnd]. unfold mbind, op_bind.
  pose proof (step_slot_moves i e) as Hs. destruct (step_slot _ _ _ i e) as [[b|er|] e1]; [|done..].
  destruct Hs as ([O1 L1] & W1 & R1). specialize (IH e1 Hnd).
  destruct (step_slots _ _ _ idxs e1) as [[rest|er|] e2]; [|done..].
  unfold mret, op_ret. destruct IH as (W2 & L2 & O2 & R2).
  split; [rewrite W2, W1; destruct b; simpl; lia|]. split; [congruence|]. split.
  - intros j [Hj1 Hj2]%not_elem_of_cons. by rewrite O2, O1.
  - intros j s r' [->|Hj]%elem_of_cons Hs Hr.
    + rewrite O2 in Hs by done. destruct (R1 r') as (-> & x & r & Hx & Hrx & Ha & Hc); [by exists s|].
      split; [by left|]. exists x, r. rewrite Hs in Hc. injection Hc as ->. done.
    + destruct (R2 j s r' Hj Hs Hr) as [Hin (x & r & Hx & Hrx & Hc & Ha)].
      split; [destruct b; [by right|done]|]. exists x, r. rewrite O1 in Hx; [done|]. by intros ->.
Qed.

Lemma stamp_slots idxs e :
  be_work_units (stamp idxs e) = be_work_units e ∧
  ∀ i, be_slots (stamp idxs e) !! i =
    if decide (i ∈ idxs)
    then (λ s, set_ss_run (option_map (set_br_progress (be_work_units e)) (ss_run s)) s) <$> be_slots e !! i
    else be_slots e !! i.
Proof using.
  unfold stamp. revert e. induction idxs as [|j idxs IH]; intros e; cbn [foldl].
  { split; [done|]. intros i. rewrite decide_False; [done|]. by intros ?%elem_of_nil. }
  set (g := λ s, set_ss_run (option_map (set_br_progress (be_work_units e)) (ss_run s)) s).
  set (e1 := on_slot j g e). destruct (IH e1) as [W1 S1]. split; [by rewrite W1|]. intros i. rewrite S1.
  change (be_work_units e1) with (be_work_units e). fold g. unfold e1. rewrite lookup_on_slot'.
  assert (∀ s, g (g s) = g s) as Hgg by (intros s; unfold g; simpl; by destruct (ss_run s) as [[]|]).
  destruct (decide (i ∈ idxs)) as [Hin|Hin].
  - rewrite (decide_True (P:=i ∈ j :: idxs)) by by right. case_decide; [|done].
    destruct (be_slots e !! i); [simpl; by rewrite Hgg|done].
  - case_decide as Hj.
    + subst j. by rewrite decide_True by by left.
    + rewrite decide_False; [done|]. rewrite elem_of_cons. intros [->|]; done.
Qed.

(** ** The forward of a step *)

Definition batch_slots e : list nat := map (λ '(i, _, _, _), i) (pending_rows e).

Lemma pending_indices l n :
  let idxs := map (λ '(i, _, _, _), i) (omap pending_row (imap (λ i s, (n + i, s)) l)) in
  NoDup idxs ∧ ∀ i, i ∈ idxs ↔ n ≤ i ∧ ∃ s r, l !! (i - n) = Some s ∧ ss_run s = Some r ∧ is_Some (br_needs r).
Proof using.
  revert n. induction l as [|s l IH]; intros n; cbn.
  { split; [constructor|]. intros i. split; [by intros ?%elem_of_nil|]. by intros (_ & s & r & ? & _). }
  assert (imap ((λ (i : nat) s, (n + i, s)) ∘ S) l = imap (λ i s, (S n + i, s)) l) as ->.
  { apply imap_ext. intros i x _. simpl. f_equal. lia. }
  rewrite Nat.add_0_r. destruct (IH (S n)) as [Hnd Hin]. cbn in Hnd, Hin.
  assert (∀ i, n ≤ i ∧ (∃ s' r, (s :: l) !! (i - n) = Some s' ∧ ss_run s' = Some r ∧ is_Some (br_needs r)) ↔
    (i = n ∧ ∃ r, ss_run s = Some r ∧ is_Some (br_needs r)) ∨
    (S n ≤ i ∧ ∃ s' r, l !! (i - S n) = Some s' ∧ ss_run s' = Some r ∧ is_Some (br_needs r))) as Hsplit.
  { intros i. split.
    - intros (Hi & s' & r & Hs & Hr & Ht). destruct (decide (i = n)) as [->|].
      + left. rewrite Nat.sub_diag in Hs. injection Hs as ->. eauto.
      + right. split; [lia|]. exists s', r. replace (i - n) with (S (i - S n)) in Hs by lia. done.
    - intros [(-> & r & Hr & Ht)|(Hi & s' & r & Hs & Hr & Ht)].
      + split; [lia|]. exists s, r. by rewrite Nat.sub_diag.
      + split; [lia|]. exists s', r. by replace (i - n) with (S (i - S n)) by lia. }
  assert (∀ (Q : Prop) i, (¬ Q) → (i ∈ map (λ '(i, _, _, _), i) (omap pending_row (imap (λ i s, (S n + i, s)) l)) ↔
    (i = n ∧ Q) ∨ (S n ≤ i ∧ ∃ s' r, l !! (i - S n) = Some s' ∧ ss_run s' = Some r ∧ is_Some (br_needs r)))) as Hskip.
  { intros Q i HQ. rewrite Hin. split; [by right|]. by intros [[_ ?]|]. }
  destruct (ss_run s) as [r|] eqn:Hr; [destruct (br_needs r) as [t|] eqn:Ht|].
  - assert (pending_row (n, s) = Some (n, t, br_pos r, ss_seq s)) as ->
      by (unfold pending_row; simpl; rewrite Hr; simpl; by rewrite Ht).
    cbn. split.
    + constructor; [|done]. rewrite Hin. lia.
    + intros i. rewrite Hsplit, elem_of_cons, Hin. split; (intros [Hi|Hi]; [left|by right]).
      * split; [done|]. exists r. rewrite Ht. by eauto.
      * apply Hi.
  - assert (pending_row (n, s) = None) as -> by (unfold pending_row; simpl; rewrite Hr; simpl; by rewrite Ht).
    split; [done|]. intros i. rewrite Hsplit. apply Hskip. intros (r' & [= <-] & [t Ht']). congruence.
  - assert (pending_row (n, s) = None) as -> by (unfold pending_row; simpl; by rewrite Hr).
    split; [done|]. intros i. rewrite Hsplit. apply Hskip. by intros (r' & ? & _).
Qed.

Lemma batch_slots_nodup e : NoDup (batch_slots e).
Proof using.
  unfold batch_slots, pending_rows. destruct (pending_indices (be_slots e) 0) as [H _]. cbn in H.
  rewrite <-firstn_map.
  rewrite <-(take_drop MAX_BATCH (map _ _)) in H. by apply list.NoDup_app in H as [H _].
Qed.

Lemma batch_slots_pending e i : i ∈ batch_slots e → ∃ r, runs_at i e r ∧ is_Some (br_needs r).
Proof using.
  unfold batch_slots, pending_rows. rewrite <-firstn_map. intros Hk.
  assert (i ∈ map (λ '(i, _, _, _), i) (omap pending_row (imap pair (be_slots e)))) as Hk'.
  { rewrite <-(take_drop MAX_BATCH (map _ _)). apply elem_of_app. by left. }
  destruct (pending_indices (be_slots e) 0) as [_ H]. cbn in H. apply H in Hk' as (_ & s & r & Hs & Hr & Ht).
  rewrite Nat.sub_0_r in Hs. exists r. split; [by exists s|done].
Qed.

Lemma pending_in_batch e i r :
  length (be_slots e) ≤ MAX_BATCH → runs_at i e r → is_Some (br_needs r) → i ∈ batch_slots e.
Proof using.
  intros Hlen (s & Hs & Hr) Ht. unfold batch_slots, pending_rows. rewrite take_ge.
  - destruct (pending_indices (be_slots e) 0) as [_ H]. cbn in H. apply H. split; [lia|].
    exists s, r. by rewrite Nat.sub_0_r.
  - etrans; [|exact Hlen]. rewrite <-(length_imap pair (be_slots e)). generalize (imap pair (be_slots e)).
    intros k. induction k as [|x k IH]; cbn in *; [lia|]. destruct (pending_row x); cbn in *; lia.
Qed.

Lemma write_rows_at n nv logits idxs l i :
  NoDup idxs → ∃ lg, write_rows n nv logits idxs l !! i = if decide (i ∈ idxs) then row_written lg <$> l !! i else l !! i.
Proof using.
  revert n l. induction idxs as [|j idxs IH]; intros n l Hnd; cbn [write_rows].
  { exists []. rewrite decide_False; [done|]. by intros ?%elem_of_nil. }
  apply NoDup_cons in Hnd as [Hn Hnd]. set (lg := take nv (drop (n * nv) logits)).
  destruct (IH (S n) (alter (row_written lg) j l) Hnd) as [lg' ->].
  destruct (decide (i = j)) as [->|Hij].
  - exists lg. rewrite decide_False, list_lookup_alter_eq, decide_True by (done || by left). done.
  - exists lg'. rewrite list_lookup_alter_ne by done.
    destruct (decide (i ∈ idxs)); [by rewrite decide_True by by right|].
    rewrite decide_False; [done|]. by intros [->|?]%elem_of_cons.
Qed.

(** What a forward left of slot [i]. *)
Definition row_maybe (written : bool) s s' : Prop :=
  if written then ∃ lg, s' = row_written lg s else s' = s.

Lemma forward_rows_moves e :
  match forward_rows e with
  | (Ok written, e') => written = batch_slots e ∧
      be_work_units e' = (be_work_units e + N.of_nat (length written))%N ∧
      length (be_slots e') = length (be_slots e) ∧
      ∀ i s', be_slots e' !! i = Some s' → ∃ s, be_slots e !! i = Some s ∧
        row_maybe (bool_decide (i ∈ batch_slots e)) s s'
  | (Err _, e') => batch_slots e ≠ [] ∧ be_work_units e' = be_work_units e ∧
      length (be_slots e') = length (be_slots e) ∧
      (∀ i, i ∉ batch_slots e → be_slots e' !! i = be_slots e !! i) ∧
      ∀ i r, i ∈ batch_slots e → ¬ runs_at i e' r
  | (Panic, _) => False
  end.
Proof using.
  pose proof (batch_slots_nodup e) as Hnd. unfold forward_rows. unfold batch_slots in *.
  destruct (pending_rows e) as [|x rows] eqn:Hrows.
  { split; [done|]. split; [simpl; lia|]. split; [done|]. intros i s' Hs. exists s'. split; [done|].
    rewrite bool_decide_false; [done|]. by intros ?%elem_of_nil. }
  set (idxs := map _ (x :: rows)) in *. unfold guarded_forward_batch.
  destruct (forward_batch _ _ _ _) as [[logits|] a].
  - split; [done|]. split; [unfold idxs; rewrite length_map; done|]. cbn [add_work set_cache be_slots be_work_units set_slots].
    split.
    { pose proof (f_equal length (write_rows_ids 0 (length logits / length (x :: rows)) logits idxs (be_slots e))) as Hl.
      by rewrite !length_map in Hl. }
    intros i s'. destruct (write_rows_at 0 (length logits / length (x :: rows)) logits idxs (be_slots e) i Hnd) as [lg ->].
    case_decide as Hin.
    + destruct (be_slots e !! i) as [s|]; [|done]. intros [= <-]. exists s. split; [done|].
      rewrite bool_decide_true by done. by exists lg.
    + intros Hs. exists s'. split; [done|]. by rewrite bool_decide_false.
  - split; [done|]. set (e1 := set_cache a e). unfold fail_batch.
    assert (∀ k e2, be_work_units (foldl (λ e idx, fail idx InferencePanicked e) e2 k) = be_work_units e2 ∧
      length (be_slots (foldl (λ e idx, fail idx InferencePanicked e) e2 k)) = length (be_slots e2) ∧
      (∀ i, i ∉ k → be_slots (foldl (λ e idx, fail idx InferencePanicked e) e2 k) !! i = be_slots e2 !! i) ∧
      (∀ i, (∀ r, ¬ runs_at i e2 r) → ∀ r, ¬ runs_at i (foldl (λ e idx, fail idx InferencePanicked e) e2 k) r) ∧
      ∀ i r, i ∈ k → ¬ runs_at i (foldl (λ e idx, fail idx InferencePanicked e) e2 k) r) as Hk.
    { clear. induction k as [|j k IH]; intros e2; cbn [foldl].
      { split_and!; try done. by intros i r ?%elem_of_nil. }
      destruct (fail_only j InferencePanicked e2) as ([O L] & Wk & Rn). destruct (IH (fail j InferencePanicked e2)) as (H1 & H2 & H3 & H4 & H5).
      split; [by rewrite H1|]. split; [congruence|]. split; [|split].
      - intros i [Hi1 Hi2]%not_elem_of_cons. by rewrite H3, O.
      - intros i Hi. apply H4. intros r (s & Hs & Hr). destruct (decide (i = j)) as [->|Hne].
        + apply (Rn r). by exists s.
        + rewrite O in Hs by done. apply (Hi r). by exists s.
      - intros i r [->|Hi]%elem_of_cons; [by apply H4|by apply H5]. }
    destruct (Hk idxs e1) as (H1 & H2 & H3 & _ & H5). done.
Qed.

(** ** A whole step *)

(** Steps a run may still take. *)
Definition left s : nat :=
  match ss_run s with
  | Some r => S (ss_cap s - (br_pos r + match br_needs r with Some _ => 1 | None => 0 end))
  | None => 0
  end.

Definition all_left e : nat := sum_list_with left (be_slots e).

(** With the counter, the stamps and what is left. *)
Lemma tick_moves e :
  match tick e with
  | (Ok _, e') => length (be_slots e') = length (be_slots e) ∧ (be_work_units e ≤ be_work_units e')%N ∧
      ∀ i s' r', be_slots e' !! i = Some s' → ss_run s' = Some r' →
        (be_work_units e < be_work_units e')%N ∧ br_progress r' = be_work_units e' ∧
        ∃ s r, be_slots e !! i = Some s ∧ ss_run s = Some r ∧
          (length (be_slots e) ≤ MAX_BATCH → left s' < left s)
  | (Err _, e') => batch_slots e ≠ [] ∧ be_work_units e' = be_work_units e ∧
      length (be_slots e') = length (be_slots e) ∧
      (∀ i, i ∉ batch_slots e → be_slots e' !! i = be_slots e !! i) ∧
      ∀ i r, i ∈ batch_slots e → ¬ runs_at i e' r
  | (Panic, _) => True
  end.
Proof using.
  unfold BatchEngine.tick, mbind, op_bind, get, modify. pose proof (forward_rows_moves e) as Hf.
  destruct (forward_rows e) as [[written|er|] e1]; [|done|done]. destruct Hf as (-> & W1 & L1 & S1).
  pose proof (step_slots_move (seq 0 (length (be_slots e1))) e1 (NoDup_seq _ _)) as Hs.
  destruct (step_slots _ _ _ _ e1) as [[moved|er|] e2] eqn:Hss; [| |done].
  2: { pose proof (step_slots_quiet decode_bytes special spent (seq 0 (length (be_slots e1))) e1) as Hq. by rewrite Hss in Hq. }
  destruct Hs as (W2 & L2 & O2 & R2). destruct (stamp_slots (batch_slots e ++ moved) e2) as [W3 S3].
  assert (length (be_slots (stamp (batch_slots e ++ moved) e2)) = length (be_slots e2)) as L3.
  { unfold stamp. generalize (batch_slots e ++ moved). intros k. generalize e2.
    induction k as [|j k IH]; intros x; cbn [foldl]; [done|]. rewrite IH. simpl. apply length_alter. }
  split; [congruence|]. split; [rewrite W3, W2, W1; lia|]. intros i s' r' Hi Hr. rewrite S3 in Hi.
  assert (∃ s2 r2, be_slots e2 !! i = Some s2 ∧ ss_run s2 = Some r2) as (s2 & r2 & Hs2 & Hr2).
  { case_decide; [|by eauto]. destruct (be_slots e2 !! i) as [s2|]; [|done]. injection Hi as <-. simpl in Hr.
    destruct (ss_run s2) as [r2|] eqn:Hr2; [|done]. by eauto. }
  destruct (R2 i s2 r2) as [Hm (s1 & r1 & Hs1 & Hr1 & Hcap & Hadv)]; [|done|done|].
  { apply elem_of_seq. split; [lia|]. rewrite <-L2. by eapply lookup_lt_Some. }
  rewrite decide_True in Hi by (apply elem_of_app; by right). rewrite Hs2 in Hi. injection Hi as <-.
  simpl in Hr. rewrite Hr2 in Hr. injection Hr as <-. rewrite W3. split; [|split; [done|]].
  { rewrite W2, W1. apply list_elem_of_lookup in Hm as [k Hk%lookup_lt_Some]. lia. }
  destruct (S1 i s1 Hs1) as (s & Hs & Hrow). apply advance_goes_on in Hadv as (Hpos & Hlt & Hnd).
  assert (∃ r, ss_run s = Some r) as [r Hrun].
  { revert Hrow. unfold row_maybe. case_bool_decide; [intros [lg ->]|intros ->]; [|by eauto].
    unfold row_written in Hr1. destruct (ss_run s) eqn:Hx; [by eauto|]. congruence. }
  exists s, r. split; [done|]. split; [done|]. intros Hmax. unfold left. simpl. rewrite Hr2, Hrun. simpl.
  destruct Hnd as [t ->]. revert Hrow. unfold row_maybe. case_bool_decide as Hin.
  - intros [lg ->]. unfold row_written in Hr1, Hcap, Hlt. rewrite Hrun in Hr1, Hcap, Hlt.
    destruct (br_needs r) as [t'|]; simpl in *; [injection Hr1 as <-; simpl in *; lia|].
    rewrite Hrun in Hr1. injection Hr1 as <-. lia.
  - intros ->. rewrite Hrun in Hr1. injection Hr1 as <-. destruct (br_needs r) as [t'|] eqn:Hneed; [|lia].
    exfalso. apply Hin. apply (pending_in_batch e i r Hmax); [by exists s|by rewrite Hneed].
Qed.

(** ** The worker runs dry *)

Lemma sum_pointwise l l' :
  length l' = length l → (∀ i s s', l !! i = Some s → l' !! i = Some s' → left s' ≤ left s) →
  sum_list_with left l' ≤ sum_list_with left l ∧
  ((∃ i s s', l !! i = Some s ∧ l' !! i = Some s' ∧ left s' < left s) → sum_list_with left l' < sum_list_with left l).
Proof using.
  revert l'. induction l as [|s l IH]; intros [|s' l'] Hl Hp; try done.
  { split; [done|]. by intros (i & s & s' & ? & _). }
  injection Hl as Hl. simpl. destruct (IH l' Hl) as [H1 H2]; [intros i; apply (Hp (S i))|].
  pose proof (Hp 0 s s' eq_refl eq_refl) as H0. split; [lia|].
  intros ([|i] & x & x' & Hx & Hx' & Hlt).
  - simpl in Hx, Hx'. injection Hx as ->. injection Hx' as ->. lia.
  - specialize (H2 ltac:(by exists i, x, x')). lia.
Qed.

Lemma left_pos i e r : runs_at i e r → ∃ s, be_slots e !! i = Some s ∧ 0 < left s.
Proof using. intros (s & Hs & Hr). exists s. split; [done|]. unfold left. rewrite Hr. lia. Qed.

Lemma busy_runs e : busy e = true ↔ ∃ i r, runs_at i e r.
Proof using.
  unfold busy. rewrite existsb_exists. split.
  - intros (s & Hs & Hr). apply list_elem_of_In, list_elem_of_lookup in Hs as [i Hi]. unfold running in Hr.
    apply bool_decide_eq_true_1 in Hr as [r Hr]. exists i, r. by exists s.
  - intros (i & r & s & Hs & Hr). exists s. split; [by apply list_elem_of_In; eapply list_elem_of_lookup_2|].
    unfold running. rewrite Hr. by apply bool_decide_eq_true_2.
Qed.

Lemma tick_left e :
  length (be_slots e) ≤ MAX_BATCH →
  match tick e with
  | (Panic, _) => True
  | (_, e') => length (be_slots e') = length (be_slots e) ∧ all_left e' ≤ all_left e ∧
      (busy e = true → all_left e' < all_left e)
  end.
Proof using.
  intros Hmax. pose proof (tick_moves e) as H. unfold all_left. destruct (tick e) as [[[]|er|] e']; [..|done].
  - destruct H as (Hl & _ & Hs). split; [done|].
    assert (∀ i s s', be_slots e !! i = Some s → be_slots e' !! i = Some s' →
      left s' ≤ left s ∧ (ss_run s ≠ None → left s' < left s)) as Hp.
    { intros i s s' Hi Hi'. destruct (ss_run s') as [r'|] eqn:Hr'.
      - destruct (Hs i s' r' Hi' Hr') as (_ & _ & x & r & Hx & Hr & Hlt). simplify_eq. specialize (Hlt Hmax).
        split; [lia|done].
      - unfold left at 1 3. rewrite Hr'. split; [lia|]. unfold left. destruct (ss_run s); [lia|done]. }
    destruct (sum_pointwise (be_slots e) (be_slots e') Hl) as [H1 H2]; [intros; by eapply Hp|].
    split; [done|]. intros (i & r & s & Hi & Hr)%busy_runs. apply H2.
    destruct (lookup_lt_is_Some_2 (be_slots e') i) as [s' Hi']; [rewrite Hl; by eapply lookup_lt_Some|].
    exists i, s, s'. split; [done|]. split; [done|]. apply (Hp i s s' Hi Hi'). by rewrite Hr.
  - destruct H as (Hne & _ & Hl & Ho & Hn). split; [done|].
    assert (∀ i s s', be_slots e !! i = Some s → be_slots e' !! i = Some s' →
      left s' ≤ left s ∧ (i ∈ batch_slots e → left s' = 0)) as Hp.
    { intros i s s' Hi Hi'. destruct (decide (i ∈ batch_slots e)) as [Hin|Hin].
      - assert (left s' = 0) as ->; [|lia]. unfold left. destruct (ss_run s') as [r'|] eqn:Hr'; [|done].
        exfalso. apply (Hn i r' Hin). by exists s'.
      - rewrite Ho, Hi in Hi' by done. by injection Hi' as ->. }
    destruct (sum_pointwise (be_slots e) (be_slots e') Hl) as [H1 H2]; [intros; by eapply Hp|].
    split; [done|]. intros _. apply H2. destruct (batch_slots e) as [|i k] eqn:Hb; [done|].
    assert (i ∈ batch_slots e) as Hin by (rewrite Hb; by left).
    destruct (batch_slots_pending e i Hin) as (r & Hrun & _). destruct (left_pos i e r Hrun) as (s & Hi & Hpos).
    destruct (lookup_lt_is_Some_2 (be_slots e') i) as [s' Hi']; [rewrite Hl; by eapply lookup_lt_Some|].
    exists i, s, s'. split; [done|]. split; [done|]. rewrite (proj2 (Hp i s s' Hi Hi')); [done|by left].
Qed.

(** Steps alone. *)
Fixpoint tick_for (n : nat) e : option Engine :=
  match n with
  | O => Some e
  | S n => match tick e with (Panic, _) => None | (_, e') => tick_for n e' end
  end.

Lemma dry_when_nothing_left e : all_left e = 0 → busy e = false.
Proof using.
  intros H. destruct (busy e) eqn:Hb; [|done]. apply busy_runs in Hb as (i & r & Hr).
  destruct (left_pos i e r Hr) as (s & Hs & Hpos). unfold all_left in H.
  apply list_elem_of_lookup_2 in Hs. revert Hs H. generalize (be_slots e). intros l.
  induction l as [|x l IH]; [by intros ?%elem_of_nil|]. intros [->|Hs]%elem_of_cons; simpl; [lia|].
  intros Hz. apply IH; [done|lia].
Qed.

Lemma tick_for_dry n e e' :
  length (be_slots e) ≤ MAX_BATCH → all_left e ≤ n → tick_for n e = Some e' → busy e' = false.
Proof using.
  revert e. induction n as [|n IH]; intros e Hmax Hn; cbn [tick_for].
  { intros [= <-]. apply dry_when_nothing_left. lia. }
  pose proof (tick_left e Hmax) as H.
  assert (∀ e1, length (be_slots e1) = length (be_slots e) ∧ all_left e1 ≤ all_left e ∧
    (busy e = true → all_left e1 < all_left e) → tick_for n e1 = Some e' → busy e' = false) as Hgo.
  { intros e1 (H1 & H2 & H3) He. apply (IH e1); [lia| |done]. destruct (busy e) eqn:Hb; [specialize (H3 eq_refl); lia|].
    destruct (decide (all_left e = 0)); [lia|]. exfalso.
    assert (∀ l, sum_list_with left l ≠ 0 → ∃ i s, l !! i = Some s ∧ left s ≠ 0) as Hex.
    { clear. induction l as [|s l IH]; simpl; [done|]. intros Hs. destruct (decide (left s = 0)) as [Hz|Hz].
      - destruct IH as (i & x & Hi & Hx); [lia|]. by exists (S i), x.
      - by exists 0, s. }
    destruct (Hex (be_slots e)) as (i & s & Hi & Hs); [done|]. unfold left in Hs.
    destruct (ss_run s) as [r|] eqn:Hr; [|done].
    assert (busy e = true); [|congruence]. apply busy_runs. exists i, r. by exists s. }
  destruct (tick e) as [[[]|er|] e1]; [..|done]; by apply Hgo.
Qed.

(** ** The stamps *)

Lemma tick_synced e :
  synced e →
  match tick e with
  | (Panic, _) => True
  | (_, e') => synced e'
  end.
Proof using.
  intros Hs. pose proof (tick_moves e) as H. destruct (tick e) as [[[]|er|] e']; [..|done].
  - destruct H as (_ & _ & Hr). intros i r (s & Hi & Hrun). by destruct (Hr i s r Hi Hrun) as (_ & ? & _).
  - destruct H as (_ & Hw & _ & Ho & Hn). intros i r Hrun. rewrite Hw.
    destruct (decide (i ∈ batch_slots e)) as [Hin|Hin]; [by destruct (Hn i r Hin)|].
    apply (Hs i). destruct Hrun as (s & Hi & Hr). exists s. by rewrite <-Ho.
Qed.

#[local] Abbreviation submit_on := (submit_on mirostat_new seed_from_u64 decode_bytes special spent no_prefix_reuse gathers defrag Off).

Lemma same_synced e e' :
  be_slots e' = be_slots e → be_work_units e' = be_work_units e → synced e → synced e'.
Proof using. intros Hs Hw H i r (s & Hi & Hr). rewrite Hw. apply (H i). exists s. by rewrite <-Hs. Qed.

Lemma forward_synced b e : synced e → synced (guarded_forward_batch b e).2.
Proof using. unfold guarded_forward_batch. destruct (forward_batch _ _ _ _) as [r a]. by apply same_synced. Qed.

Lemma feed_synced sq (job : Job) spans last_logits e :
  synced e →
  match feed decode_bytes special spent Off sq job spans last_logits e with
  | (Panic, _) => True
  | (_, e') => synced e'
  end.
Proof using.
  revert e. induction spans as [|[from to] spans IH]; intros e Hs; cbn [feed]; [done|].
  set (b := mkBatch _ _ _). set (e0 := count_prefill _ e).
  pose proof (forward_synced b e0 ltac:(by apply (same_synced e))) as H1.
  destruct (guarded_forward_batch b e0) as [[logits|er|] e1]; simpl in H1; [| |done].
  - destruct spans as [|sp spans]; [done|]. destruct (has_pending_decode e1); [|by apply IH].
    pose proof (tick_synced (count_interleaved e1) ltac:(by apply (same_synced e1))) as H2.
    destruct (BatchEngine.tick decode_bytes special spent Off (count_interleaved e1)) as [[[]|er|] e2]; [..|done]; by apply IH.
  - by apply (same_synced e1).
Qed.

Lemma install_synced i (job : Job) logits from e :
  synced e →
  match install_run mirostat_new seed_from_u64 no_prefix_reuse i job logits from e with
  | (Ok _, e') => synced e'
  | (Err _, _) => False
  | (Panic, _) => True
  end.
Proof using.
  intros Hs. unfold install_run, mbind, op_bind, modify, new_grammar_state, get.
  destruct (grammar_state (jb_params job)) as [gst|[]|]; [|done..]. intros j r (s & Hj & Hr). simpl in *.
  rewrite list_alter_alter_eq in Hj. destruct (decide (i = j)) as [<-|].
  - rewrite list_lookup_alter_eq in Hj. destruct (be_slots e !! i); [|done]. injection Hj as <-.
    simpl in Hr. by injection Hr as <-.
  - rewrite list_lookup_alter_ne in Hj by done. apply (Hs j). by exists s.
Qed.

Lemma submit_on_synced i (job : Job) e :
  synced e → match submit_on i job e with (Panic, _) => True | (_, e') => synced e' end.
Proof using.
  intros Hs. unfold BatchEngine.submit_on.
  destruct (be_slots e !! i) as [s|]; [|by apply (same_synced e)]. destruct (running s); [by apply (same_synced e)|].
  set (nt := length (jb_input_ids job)). unfold mbind, op_bind.
  pose proof (calm_wanted i nt (pr_max_tokens (jb_params job)) e) as H1.
  destruct (wanted_cells i nt _ e) as [[want|er|] e1]; [|done..].
  pose proof (calm_ensure defrag i want e1) as H2.
  destruct (ensure_slot_capacity defrag i want e1) as [[[]|er|] e2]; [|done..].
  pose proof (calm_slot_at i e2) as H3. destruct (slot_at i e2) as [[s3|er|] e3]; [|done..].
  assert (synced e3) as Hs3 by (eapply frame_synced; [|exact Hs]; etrans; [exact H1|by etrans]).
  destruct (ss_cap s3 <? nt); [by apply (same_synced e3)|].
  pose proof (calm_feed_from no_prefix_reuse gathers i (jb_input_ids job) e3) as H4.
  destruct (feed_from no_prefix_reuse gathers i (jb_input_ids job) e3) as [[from|er|] e4]; [|done..].
  pose proof (frame_synced _ _ H4 Hs3) as Hs4. unfold get.
  pose proof (feed_synced (ss_seq s3) job (prefill_chunks from nt (be_n_batch e4)) [] e4 Hs4) as H5.
  destruct (feed decode_bytes special spent Off (ss_seq s3) job _ [] e4) as [[logits|er|] e5]; [|done..].
  pose proof (install_synced i job logits from e5 H5) as H6.
  by destruct (install_run _ _ _ i job logits from e5) as [[[]|er|] e6].
Qed.

Lemma install_all_synced k nv logits (ps : placed (K:=K)) feeds e :
  synced e →
  match install_all mirostat_new seed_from_u64 no_prefix_reuse k nv logits ps feeds e with
  | (Ok _, e') => synced e'
  | (Err _, _) => False
  | (Panic, _) => True
  end.
Proof using.
  revert k feeds e. induction ps as [|[[i job] slot] ps IH]; intros k [|from feeds] e Hs; cbn [install_all]; try done.
  unfold mbind, op_bind. pose proof (install_synced slot job (take nv (drop (k * nv) logits)) from e Hs) as H1.
  destruct (install_run _ _ _ slot job _ from e) as [[[]|er|] e1]; [|done..]. by apply IH.
Qed.

Lemma reject_all_synced (ps : placed (K:=K)) er e : synced e → synced (reject_all ps er e).
Proof using.
  revert e. induction ps as [|[[i job] slot] ps IH]; intros e Hs; cbn [reject_all]; [done|].
  apply IH. by apply (same_synced e).
Qed.

Lemma submit_all_synced (ps : placed (K:=K)) e :
  synced e →
  match submit_all mirostat_new seed_from_u64 decode_bytes special spent no_prefix_reuse gathers defrag Off ps e with
  | (Ok _, e') => synced e'
  | _ => True
  end.
Proof using.
  revert e. induction ps as [|[[i job] slot] ps IH]; intros e Hs; cbn [submit_all]; [done|].
  pose proof (submit_on_synced slot job e Hs) as H1.
  destruct (submit_on slot job e) as [[x|er|] e1]; [..|done]; unfold mbind, op_bind; specialize (IH e1 H1);
    by destruct (submit_all _ _ _ _ _ _ _ _ _ ps e1) as [[rest|er'|] e2].
Qed.

Lemma admit_synced (jobs : list Job) e :
  synced e →
  match admit_jobs mirostat_new seed_from_u64 decode_bytes special spent no_prefix_reuse gathers defrag prefill_batch_ok Off jobs e with
  | (Ok _, e') => synced e'
  | _ => True
  end.
Proof using.
  intros Hs. unfold admit_jobs.
  assert (∀ k taken e, synced e → synced (place_jobs k jobs taken e).2) as Hplace.
  { clear. induction jobs as [|job jobs IH]; intros k taken e Hs; cbn [place_jobs]; [done|].
    destruct (best_slot _ _ _ _ _) as [[n slot]|].
    - specialize (IH (S k) (<[slot:=true]> taken) e Hs). by destruct (place_jobs _ _ _ _) as [[ps refused] e1].
    - specialize (IH (S k) taken (drop_sender (jb_id job) (send (EvErr NoIdleSlot) (jb_tx job)).2 e)
        ltac:(by apply (same_synced e))). by destruct (place_jobs _ _ _ _) as [[ps refused] e1]. }
  specialize (Hplace 0 (map running (be_slots e)) e Hs).
  destruct (place_jobs 0 jobs _ e) as [[ps refused] e1]. simpl in Hplace. destruct (_ && prefill_batch_ok).
  - unfold prefill_group, mbind, op_bind. pose proof (ready_all_flow no_prefix_reuse gathers defrag ps e1) as H1.
    destruct (ready_all _ _ _ ps e1) as [[[[[ts xs] ss] feeds]|er|] e2]; [| |done].
    + destruct H1 as [H1 _]. pose proof (frame_synced _ _ H1 Hplace) as H2.
      pose proof (forward_synced (mkBatch (map N.of_nat ts) xs ss) e2 H2) as H3.
      destruct (guarded_forward_batch _ e2) as [[logits|er|] e3]; simpl in H3; [|by apply reject_all_synced|done].
      destruct (negb _); [by apply reject_all_synced|].
      pose proof (install_all_synced 0 (length logits / length ps) logits ps feeds e3 H3) as H5.
      by destruct (install_all _ _ _ 0 _ logits ps feeds e3) as [[[]|er|] e4].
    + apply reject_all_synced. by eapply frame_synced.
  - unfold mbind, op_bind, mret, op_ret. pose proof (submit_all_synced ps e1 Hplace) as Hg.
    by destruct (submit_all _ _ _ _ _ _ _ _ _ ps e1) as [[answers|er|] e2].
Qed.
End live.
