(* ===== verification/BatchLoop.v ===== *)
(** * The serve loop answers everybody

    Whatever comes when: every request that reaches the loop is in the queue,
    running, or answered once; the queue is first come, first served and
    bounded; a healthy engine never trips a stall bound, and an engine that
    does leaves nobody waiting. *)
From Stdlib Require Import ZArith Lia Permutation Strings.Byte.
From stdpp Require Import base numbers list option gmap.
From S2P Require Import Prelude Gguf Grammar KvCache KvArena Batch Sampling Spec SpecFacts Chat ToyModel BatchEngine ToyBatch BatchFlow BatchLive BatchProps BatchServe.
Import CpuPool.
Local Open Scope nat_scope.
#[local] Existing Instances Permutation_app' Permutation_cons.

Section loop.
Context {F K M R W P : Type}.
Context `{!Floats F, !SamplerMaths F K M R, !CellPool W P, !BatchModel F P}.
Context (mirostat_new : K → M) (seed_from_u64 : N → R).
Context (decode_bytes : nat → bytes) (special : SpecialTokens).
Context (spent : SamplerConfig K → list F → list nat → M → option GrammarState → R → list F).
Context (no_prefix_reuse gathers defrag prefill_batch_ok : bool).

#[local] Abbreviation Job := (Job (K:=K)).
#[local] Abbreviation Engine := (BatchEngine (F:=F) (K:=K) (M:=M) (R:=R) (P:=P)).
#[local] Abbreviation Serve := (Serve (F:=F) (K:=K) (M:=M) (R:=R) (P:=P)).
#[local] Abbreviation admission := (admission mirostat_new seed_from_u64 decode_bytes special spent no_prefix_reuse gathers defrag prefill_batch_ok).
#[local] Abbreviation pass := (pass mirostat_new seed_from_u64 decode_bytes special spent no_prefix_reuse gathers defrag prefill_batch_ok).
#[local] Abbreviation serve_loop := (serve_loop mirostat_new seed_from_u64 decode_bytes special spent no_prefix_reuse gathers defrag prefill_batch_ok).
#[local] Abbreviation serve_step := (serve_step decode_bytes special spent).
Implicit Types (e : Engine) (s : Serve) (js : list Job).

(** ** Nobody is lost *)

Definition ids js : list N := map jb_id js.

(** Everybody who is answered, running or waiting. *)
Definition everyone s : list N := held (sv_engine s) ++ ids (sv_pending s) ++ ids (sv_channel s).

(** The jobs that have not left the queue, and those that have. *)
Definition counted s : nat := sv_jobs_admitted s + length (sv_pending s) + length (sv_channel s).

(** From [s] to [s'], with the newcomers [js]. *)
Record kept js s s' : Prop := {
  kp_everyone : everyone s' ≡ₚ everyone s ++ ids js;
  kp_counted : counted s' = counted s + length js
}.

Lemma kept_trans js1 js2 s s1 s2 : kept js1 s s1 → kept js2 s1 s2 → kept (js1 ++ js2) s s2.
Proof using.
  intros [H1 C1] [H2 C2]. split.
  - rewrite H2, H1. unfold ids. by rewrite map_app, (assoc_L (++)).
  - rewrite length_app. lia.
Qed.

Lemma kept_then js s s1 s2 : kept js s s1 → kept [] s1 s2 → kept js s s2.
Proof using. intros H1 H2. rewrite <-(app_nil_r js). by eapply kept_trans. Qed.

Lemma reject_jobs_held js er e : held (reject_jobs js er e) ≡ₚ ids js ++ held e.
Proof using.
  unfold reject_jobs. revert e. induction js as [|j js IH]; intros e; cbn [foldl]; [done|].
  rewrite IH. destruct (reject_came (A:=unit) j er [] e) as [Hc _]. rewrite Hc. simpl. by rewrite <-Permutation_middle.
Qed.

Lemma kept_engine s e :
  held e ≡ₚ held (sv_engine s) → kept [] s (set_engine e s).
Proof using. intros H. split; [unfold everyone; simpl; rewrite H; by rewrite app_nil_r|unfold counted; simpl; lia]. Qed.

Lemma reject_queued_kept er s : kept [] s (reject_queued er s).
Proof using.
  unfold reject_queued. split.
  - unfold everyone. simpl. rewrite !app_nil_r, reject_jobs_held. unfold ids. rewrite map_app.
    by rewrite Permutation_app_comm.
  - unfold counted. simpl. rewrite length_app. lia.
Qed.

Lemma receive_kept now s s' : receive now s = Some s' → kept now s s' ∧ sv_channel s' = [] ∧
  sv_engine s' = sv_engine s ∧ sv_pending s' = sv_pending s ++ sv_channel s ++ now.
Proof using.
  unfold receive. destruct (negb _ && _) eqn:Hb.
  - apply andb_prop in Hb as [_ Hp]. apply Nat.eqb_eq, nil_length_inv in Hp.
    destruct (sv_channel s ++ now) as [|j rest] eqn:Hc; [done|]. intros [= <-]. split; [|by rewrite Hp].
    assert (length (sv_channel s) + length now = S (length rest)) as Hl by (rewrite <-length_app, Hc; done).
    split; unfold everyone, counted; simpl; rewrite Hp; simpl; [|lia].
    rewrite app_nil_r. rewrite <-(assoc_L (++)). f_equiv. unfold ids. by rewrite <-map_app, Hc.
  - intros [= <-]. split; [|done]. split; unfold everyone, counted; simpl.
    + unfold ids. by rewrite app_nil_r, !map_app, !(assoc_L (++)).
    + rewrite !length_app. lia.
Qed.

Lemma admission_kept seam s s' : admission seam s = Some s' → kept [] s s' ∧
  sv_pending s' = drop (idle_slots (sv_engine s) `min` length (sv_pending s)) (sv_pending s) ∧
  sv_channel s' = sv_channel s.
Proof using.
  unfold BatchServe.admission. set (n := idle_slots _ `min` _).
  destruct (Nat.eqb_spec n 0) as [Hz|Hz].
  { intros [= <-]. rewrite Hz. split; [|done]. split; [by rewrite app_nil_r|simpl; lia]. }
  pose proof (admit_flow mirostat_new seed_from_u64 decode_bytes special spent no_prefix_reuse gathers defrag
    prefill_batch_ok seam (take n (sv_pending s)) (sv_engine s)) as H.
  destruct (admit_jobs _ _ _ _ _ _ _ _ _ _ _ _) as [[answers|er|] e]; [|done..]. destruct H as [H _].
  intros [= <-]. split; [|done]. split.
  - unfold everyone. simpl. rewrite app_nil_r, H. unfold ids.
    rewrite <-(take_drop n (sv_pending s)) at 3. rewrite map_app, !(assoc_L (++)).
    by rewrite (Permutation_app_comm (map jb_id (take n _))).
  - unfold counted. simpl. rewrite length_drop. lia.
Qed.

Lemma bound_kept queue_max s : kept [] s (bound_queue queue_max s) ∧
  sv_pending (bound_queue queue_max s) = take queue_max (sv_pending s) ∧
  sv_channel (bound_queue queue_max s) = sv_channel s.
Proof using.
  unfold bound_queue. destruct (Nat.ltb_spec queue_max (length (sv_pending s))).
  - split; [|done]. split.
    + unfold everyone. simpl. rewrite app_nil_r, reject_jobs_held. unfold ids.
      rewrite <-(take_drop queue_max (sv_pending s)) at 3. rewrite map_app, map_rev, <-Permutation_rev, !(assoc_L (++)).
      rewrite (Permutation_app_comm (map jb_id (drop queue_max _))).
      rewrite <-!(assoc_L (++)). f_equiv. rewrite !(assoc_L (++)). by rewrite (Permutation_app_comm (map jb_id (drop queue_max _))).
    + unfold counted. simpl. rewrite length_take, length_drop. lia.
  - split; [split; [by rewrite app_nil_r|simpl; lia]|]. by rewrite take_ge by lia.
Qed.

Lemma kept_same s s' :
  sv_engine s' = sv_engine s → sv_pending s' = sv_pending s → sv_channel s' = sv_channel s →
  sv_jobs_admitted s' = sv_jobs_admitted s → kept [] s s'.
Proof using.
  intros E P' C A. split; unfold everyone, counted; rewrite ?E, ?P', ?C, ?A; [by rewrite app_nil_r|simpl; lia].
Qed.

Lemma count_step_kept ok before s : kept [] s (count_step ok before s).
Proof using. unfold count_step. destruct (_ && _); by apply kept_same. Qed.

Lemma stall_check_kept s : kept [] s (stall_check s).2.
Proof using.
  unfold stall_check. destruct (_ <=? _)%N; cbn [snd].
  - eapply kept_then; [apply kept_engine, fail_where_quiet|].
    eapply kept_then; [apply reject_queued_kept|]. by apply kept_same.
  - apply kept_engine, fail_where_quiet.
Qed.

Lemma arrive_kept js s e :
  held e ≡ₚ held (sv_engine s) → kept js s (set_channel (sv_channel s ++ js) (set_engine e s)).
Proof using.
  intros H. split; unfold everyone, counted; simpl.
  - rewrite H. unfold ids. by rewrite map_app, !(assoc_L (++)).
  - rewrite length_app. lia.
Qed.

Lemma serve_step_kept seam late s stalled s' :
  serve_step seam late s = Some (stalled, s') → kept late s s'.
Proof using.
  unfold BatchServe.serve_step. destruct (busy (sv_engine s)); cbn [negb].
  2: { intros [= <- <-]. by apply (arrive_kept late s (sv_engine s)). }
  pose proof (tick_quiet decode_bytes special spent seam (sv_engine s)) as Ht.
  destruct (tick _ _ _ seam (sv_engine s)) as [[[]|er|] e]; [..|done]; intros Hs%(inj Some);
    apply (f_equal snd) in Hs; cbn [snd] in Hs; subst s';
    (eapply kept_then; [apply arrive_kept, Ht|]);
    (eapply kept_then; [apply count_step_kept|apply stall_check_kept]).
Qed.

Lemma pass_kept seam queue_max around s :
  match pass seam queue_max around s with
  | Again s' | Waits s' | Ends _ s' => kept (ar_now around ++ ar_mid around ++ ar_late around) s s'
  | Unwinds => True
  end.
Proof using.
  unfold BatchServe.pass. destruct (receive (ar_now around) s) as [s1|] eqn:Hrec.
  2: { assert (ar_now around = [] ∧ sv_channel s = []) as [Hn Hc].
       { unfold receive in Hrec. destruct (negb _ && _); [|done].
         destruct (sv_channel s) as [|j l]; [|done]. by destruct (ar_now around). }
       assert (kept (ar_now around ++ ar_mid around ++ ar_late around) s
         (set_channel (ar_mid around ++ ar_late around) (set_stalled 0 s))) as Hk.
       { rewrite Hn. split; unfold everyone, counted; simpl; rewrite Hc; simpl; [|lia].
         by rewrite app_nil_r, !(assoc_L (++)). }
       destruct (ar_closed around); [|done]. destruct Hk as [H1 H2]. by split. }
  apply receive_kept in Hrec as (H1 & Hc1 & _).
  set (s2 := set_channel (sv_channel s1 ++ ar_mid around) s1).
  assert (kept (ar_mid around) s1 s2) as H2.
  { split; unfold everyone, counted; simpl; rewrite ?length_app; [|lia].
    unfold ids. by rewrite map_app, !(assoc_L (++)). }
  set (o := if ar_draining around then _ else _).
  assert (∀ s3, o = Some s3 → kept [] s2 s3) as H3.
  { intros s3. unfold o. destruct (ar_draining around); [intros [= <-]; apply reject_queued_kept|].
    destruct (admission seam s2) as [s3'|] eqn:Ha; [|done]. intros [= <-].
    eapply kept_then; [by eapply admission_kept|apply bound_kept]. }
  destruct o as [s3|]; [|done]. specialize (H3 s3 eq_refl).
  set (s4 := set_worker_pending _ s3). assert (kept [] s3 s4) as H4 by (split; [by rewrite app_nil_r|unfold counted; simpl; lia]).
  destruct (serve_step seam (ar_late around) s4) as [[stalled s5]|] eqn:Hst; [|done].
  apply serve_step_kept in Hst.
  assert (kept (ar_now around ++ ar_mid around ++ ar_late around) s s5) as Hk.
  { eapply kept_trans; [exact H1|]. eapply kept_trans; [exact H2|].
    change (ar_late around) with ([] ++ [] ++ ar_late around).
    eapply kept_trans; [exact H3|]. by eapply kept_trans. }
  destruct stalled; [done|]. by destruct (_ && _).
Qed.

(** C9. Everybody who comes is in the queue, running or answered, once.  After any
    number of passes, whatever comes when, whichever way the flags and the
    test seam are set: the requests answered, running, queued and in the
    channel are those there were and those that came, each as often; and
    [jobs_admitted] has counted exactly those that left the queue. *)
Theorem serve_loop_loses_nobody seam queue_max arounds s :
  match serve_loop seam queue_max arounds s with
  | Again s' | Waits s' | Ends _ s' => ∃ n,
      let came := concat (map (λ a, ar_now a ++ ar_mid a ++ ar_late a) (take n arounds)) in
      everyone s' ≡ₚ everyone s ++ ids came ∧
      sv_jobs_admitted s' + length (sv_pending s') + length (sv_channel s') =
        sv_jobs_admitted s + length (sv_pending s) + length (sv_channel s) + length came
  | Unwinds => True
  end.
Proof.
  cut (match serve_loop seam queue_max arounds s with
    | Again s' | Waits s' | Ends _ s' => ∃ n,
        kept (concat (map (λ a, ar_now a ++ ar_mid a ++ ar_late a) (take n arounds))) s s'
    | Unwinds => True end).
  { destruct (serve_loop seam queue_max arounds s) as [s'|s'|ex s'|]; [..|done];
      intros (n & [H1 H2]); exists n; by split. }
  revert s. induction arounds as [|around arounds IH]; intros s; cbn [BatchServe.serve_loop].
  { exists 0. split; [by rewrite app_nil_r|simpl; lia]. }
  pose proof (pass_kept seam (queue_max `max` 1) around s) as Hp.
  destruct (pass seam (queue_max `max` 1) around s) as [s1|s1|ex s1|]; [..|done].
  - specialize (IH s1). destruct (serve_loop seam queue_max arounds s1) as [s'|s'|ex s'|]; [..|done];
      destruct IH as [n IH]; exists (S n); simpl; by eapply kept_trans.
  - specialize (IH s1). destruct (serve_loop seam queue_max arounds s1) as [s'|s'|ex s'|]; [..|done];
      destruct IH as [n IH]; exists (S n); simpl; by eapply kept_trans.
  - exists 1. simpl. by rewrite app_nil_r.
Qed.

(** ** The queue *)

Lemma step_pending seam late s s' : serve_step seam late s = Some (false, s') → sv_pending s' = sv_pending s.
Proof using.
  unfold BatchServe.serve_step. destruct (busy (sv_engine s)); cbn [negb]; [|by intros [= <-]].
  destruct (tick _ _ _ seam (sv_engine s)) as [[[]|er|] e]; [..|done]; intros Hs%(inj Some); revert Hs;
    unfold stall_check; (destruct (_ <=? _)%N; [done|]); intros [= <-]; unfold count_step; by destruct (_ && _).
Qed.

(** The queue is first come, first served, and bounded.  A pass hands the
    engine the oldest jobs, one an idle slot, and what is left waits in its
    order, the newest past [queue_max] refused; a draining pass leaves
    nobody waiting. *)
Theorem queue_is_fifo seam queue_max around s s' :
  pass seam queue_max around s = Again s' →
  let queue := sv_pending s ++ sv_channel s ++ ar_now around in
  sv_pending s' = (if ar_draining around then []
                   else take queue_max (drop (idle_slots (sv_engine s) `min` length queue) queue)) ∧
  length (sv_pending s') ≤ queue_max.
Proof.
  unfold BatchServe.pass. destruct (receive (ar_now around) s) as [s1|] eqn:Hrec; [|by destruct (ar_closed around)].
  apply receive_kept in Hrec as (_ & _ & He & Hp). set (s2 := set_channel _ s1).
  assert (match (if ar_draining around then Some (reject_queued Draining s2)
                 else bound_queue queue_max <$> admission seam s2) with
    | Some s3 => sv_pending s3 = (if ar_draining around then []
        else take queue_max (drop (idle_slots (sv_engine s) `min` length (sv_pending s1)) (sv_pending s1)))
    | None => True end) as H.
  { destruct (ar_draining around); [done|]. destruct (admission seam s2) as [s3|] eqn:Ha; [|done].
    apply admission_kept in Ha as (_ & Ha & _). simpl. destruct (bound_kept queue_max s3) as (_ & -> & _).
    rewrite Ha. simpl. by rewrite He. }
  rewrite <-Hp. destruct (if ar_draining around then _ else _) as [s3|]; [|done].
  destruct (serve_step seam (ar_late around) _) as [[[] s5]|] eqn:Hst; [done| |done].
  apply step_pending in Hst. simpl in Hst. destruct (_ && _); [done|]. intros [= <-].
  rewrite Hst, H. split; [done|]. destruct (ar_draining around); [simpl; lia|]. rewrite length_take. lia.
Qed.

(** ** The stall bounds *)



Lemma all_fail er e : busy (fail_all er e).2 = false.
Proof using.
  unfold fail_all, fail_where.
  assert (∀ k (acc : nat * Engine), (∀ i r, runs_at i acc.2 r → i ∈ k) →
    ∀ i r, ¬ runs_at i (foldl (fail_if running er) acc k).2 r) as H.
  { induction k as [|j k IH]; intros acc Hx; cbn [foldl].
    { intros i r Hr. by apply Hx, elem_of_nil in Hr. }
    apply IH. intros i r Hr. unfold fail_if in Hr. destruct (decide (i = j)) as [->|Hne].
    - exfalso. destruct (be_slots acc.2 !! j) as [s|] eqn:Hj.
      2: { destruct Hr as (s & Hs & _). congruence. }
      destruct (running s) eqn:Hrun; [destruct (fail_only j er acc.2) as (_ & _ & Hn); by destruct (Hn r)|].
      destruct Hr as (y & Hy & Hr). assert (y = s) as -> by congruence.
      unfold running in Hrun. rewrite Hr in Hrun. by rewrite bool_decide_true in Hrun.
    - assert (runs_at i acc.2 r) as Hr'.
      { destruct (be_slots acc.2 !! j) as [s|]; [|done]. destruct (running s); [|done].
        destruct (fail_only j er acc.2) as ([O _] & _ & _). destruct Hr as (y & Hy & Hr). simpl in Hy.
        rewrite O in Hy by done. by exists y. }
      by destruct (proj1 (elem_of_cons _ _ _) (Hx i r Hr')). }
  destruct (busy _) eqn:Hb; [|done]. apply busy_runs in Hb as (i & r & Hr). exfalso. revert Hr. apply (H _ (0, e)).
  intros j r' (s & Hs & _). apply elem_of_seq. split; [lia|]. by eapply lookup_lt_Some.
Qed.









(** *** The end of a stalled worker *)

Definition answered_all s : Prop := busy (sv_engine s) = false ∧ sv_pending s = [] ∧ sv_channel s = [].

Lemma answered_all_everyone s : answered_all s → everyone s = map fst (be_answered (sv_engine s)).
Proof using.
  intros (Hb & Hp & Hc). unfold everyone, held. rewrite Hp, Hc. simpl.
  assert (running_ids (be_slots (sv_engine s)) = []) as ->; [|by rewrite !app_nil_r].
  unfold running_ids. assert (∀ i y, be_slots (sv_engine s) !! i = Some y → ss_run y = None) as Hn.
  { intros i y Hy. destruct (ss_run y) as [r|] eqn:Hr; [|done]. assert (busy (sv_engine s) = true); [|congruence].
    apply busy_runs. exists i, r. by exists y. }
  revert Hn. generalize (be_slots (sv_engine s)). intros l. induction l as [|y l IH]; intros Hn; cbn; [done|].
  unfold run_id at 1. rewrite (Hn 0 y eq_refl). simpl. apply IH. intros i. apply (Hn (S i)).
Qed.

Lemma stall_check_answers s : (stall_check s).1 = true → answered_all (stall_check s).2.
Proof using.
  unfold stall_check. destruct (_ <=? _)%N; [|done]. intros _. split; [|done]. simpl.
  assert (∀ js er e, busy (reject_jobs js er e) = busy e) as Hrej.
  { intros js er. unfold reject_jobs. induction js as [|j js IH]; intros e; cbn [foldl]; [done|]. by rewrite IH. }
  rewrite Hrej. apply all_fail.
Qed.

Lemma stalled_step_answers seam late s s' : serve_step seam late s = Some (true, s') → answered_all s'.
Proof using.
  unfold BatchServe.serve_step. destruct (busy (sv_engine s)); cbn [negb]; [|done].
  destruct (tick _ _ _ seam (sv_engine s)) as [[[]|er|] e]; [..|done]; intros Hc%(inj Some);
    (match type of Hc with stall_check ?z = _ => pose proof (stall_check_answers z) as H end);
    rewrite Hc in H; by apply H.
Qed.

(** A worker that is declared stalled leaves nobody behind: every run and
    every queued job has been answered, on whatever the engine was stuck. *)
Theorem stalled_worker_answers_everybody seam queue_max arounds s s' :
  serve_loop seam queue_max arounds s = Ends Stalled s' →
  busy (sv_engine s') = false ∧ sv_pending s' = [] ∧ sv_channel s' = [] ∧
  everyone s' = map fst (be_answered (sv_engine s')).
Proof.
  revert s. induction arounds as [|around arounds IH]; intros s; cbn [BatchServe.serve_loop]; [done|].
  destruct (pass seam (queue_max `max` 1) around s) as [s1|s1|ex s1|] eqn:Hp; [apply IH|apply IH| |done].
  intros [= -> ->]. revert Hp. unfold BatchServe.pass.
  destruct (receive (ar_now around) s) as [s1|]; [|by destruct (ar_closed around)].
  destruct (if ar_draining around then _ else _) as [s3|]; [|done].
  destruct (serve_step seam (ar_late around) _) as [[[] s5]|] eqn:Hst; [|by destruct (_ && _)|done].
  intros [= <-]. pose proof (stalled_step_answers _ _ _ _ Hst) as Hall. destruct Hall as (H1 & H2 & H3).
  split_and!; [done|done|done|by apply answered_all_everyone].
Qed.

(** ** The engine runs dry *)

(** C35. Steps alone end every run: with at most [MAX_BATCH] slots, as many steps
    as the slots have cells and one more each leave no run, whatever the
    model and the sampler do; a step that fails has ended the runs of its
    batch. *)
Theorem engine_runs_dry n e e' :
  length (be_slots e) ≤ MAX_BATCH → sum_list_with (λ x, S (ss_cap x)) (be_slots e) ≤ n →
  tick_for decode_bytes special spent n e = Some e' → busy e' = false.
Proof.
  intros Hmax Hn. apply tick_for_dry; [done|]. etrans; [|exact Hn]. unfold all_left. clear.
  induction (be_slots e) as [|x l IH]; simpl; [lia|]. unfold left at 1. destruct (ss_run x); lia.
Qed.
End loop.

(** ** Concrete workers *)

Abbreviation ToyServe := (Serve (F:=nat) (K:=unit) (M:=unit) (R:=nat) (P:=toy_pool)).

Abbreviation toy_loop := (@serve_loop nat unit unit nat N toy_pool _ _ _ (toy_batch []) (λ _, ()) toy_seed toy_bytes
  toy_special toy_spent false false true true).

Definition quiet_pass : Around (K:=unit) := mkAround [] [] [] false false false.
Definition arriving (js : list (Job (K:=unit))) : Around := mkAround js [] [] false false false.

(** Three requests for two slots, then silence. *)
Definition three_jobs : list (Job (K:=unit)) := [toy_job 1 [2; 1; 4] 3; toy_job 2 [2; 1; 4; 1] 2; toy_job 3 [5] 2].

Definition toy_engine (n_slots n_ctx : nat) : ToyEngine :=
  match new (W:=N) true n_slots n_ctx (toy_arena n_ctx) with
  | Ok e => e
  | _ => mkBatchEngine (toy_arena 0) 0 [] 0 0 0 0 0 0 0 []
  end.

Abbreviation toy_pass := (@pass nat unit unit nat N toy_pool _ _ _ (toy_batch []) (λ _, ()) toy_seed toy_bytes toy_special
  toy_spent false false true true Off).

Definition the_state (p : passed) : ToyServe :=
  match p with Again s | Waits s | Ends _ s => s | Unwinds => start (toy_engine 0 0) [] end.

Definition first_pass : ToyServe := the_state (toy_pass 4 (arriving three_jobs) (start (toy_engine 2 16) [])).

Lemma queue_is_fifo_witness :
  toy_pass 4 (arriving three_jobs) (start (toy_engine 2 16) []) = Again first_pass ∧
  map jb_id (sv_pending first_pass) = [3%N] ∧
  sv_pending first_pass = take 4 (drop 2 three_jobs) ∧ length (sv_pending first_pass) ≤ 4.
Proof.
  assert (toy_pass 4 (arriving three_jobs) (start (toy_engine 2 16) []) = Again first_pass) as Hp
    by (vm_compute; reflexivity).
  split; [exact Hp|]. split; [vm_compute; reflexivity|].
  destruct (queue_is_fifo (BatchModel0:=toy_batch []) (λ _, ()) toy_seed toy_bytes toy_special toy_spent
    false false true true Off 4 (arriving three_jobs) (start (toy_engine 2 16) []) first_pass Hp) as [H1 H2].
  split; [|exact H2]. rewrite H1. vm_compute. reflexivity.
Defined.



(** An engine that is wedged: its passes step nothing, and the sixty-fourth
    ends the loop. *)
Definition wedged : ToyServe :=
  the_state (toy_loop Wedge 4 (arriving three_jobs :: repeat quiet_pass 70) (start (toy_engine 2 16) [])).

Lemma stalled_worker_answers_everybody_witness :
  toy_loop Wedge 4 (arriving three_jobs :: repeat quiet_pass 70) (start (toy_engine 2 16) []) = Ends Stalled wedged ∧
  (busy (sv_engine wedged) = false ∧ sv_pending wedged = [] ∧ sv_channel wedged = [] ∧
   everyone wedged = map fst (be_answered (sv_engine wedged))) ∧
  map fst (be_answered (sv_engine wedged)) = [1; 2; 3]%N.
Proof.
  assert (toy_loop Wedge 4 (arriving three_jobs :: repeat quiet_pass 70) (start (toy_engine 2 16) []) =
    Ends Stalled wedged) as Hp by (vm_compute; reflexivity).
  split; [exact Hp|]. split; [|vm_compute; reflexivity].
  exact (stalled_worker_answers_everybody (BatchModel0:=toy_batch []) (λ _, ()) toy_seed toy_bytes toy_special toy_spent
    false false true true Wedge 4 (arriving three_jobs :: repeat quiet_pass 70) (start (toy_engine 2 16) []) wedged Hp).
Defined.

(** Two runs of eight cells each are over within eighteen steps. *)
Lemma engine_runs_dry_witness :
  ∃ e', tick_for (BatchModel0:=toy_batch []) toy_bytes toy_special toy_spent 18 (sv_engine first_pass) = Some e' ∧
    busy (sv_engine first_pass) = true ∧ busy e' = false.
Proof.
  destruct (tick_for (BatchModel0:=toy_batch []) toy_bytes toy_special toy_spent 18 (sv_engine first_pass)) as [e'|] eqn:He;
    [|exfalso; vm_compute in He; discriminate].
  exists e'. split; [done|]. split; [vm_compute; reflexivity|].
  apply (engine_runs_dry (BatchModel0:=toy_batch []) toy_bytes toy_special toy_spent 18 (sv_engine first_pass) e');
    [apply Nat.leb_le; vm_compute; reflexivity..|exact He].
Defined.
