(* ===== verification/Pretok.v ===== *)
(** * Pre-tokenization: [PreTokenizer] of [src/tokenizer.rs]

    A text is a list of codepoints.  [split] is the scan of the source, arm by
    arm; [find_all] with [pattern] is the regular expression each rule is
    documented by, with the leftmost-first semantics of a backtracking matcher.
    The Unicode categories come from the [regex] crate and are a class.  The
    second half proves that the two agree. *)
From Stdlib Require Import ZArith.
From stdpp Require Import base numbers list option.
From S2P Require Import Prelude.
Local Open Scope Z_scope.

Abbreviation text := (list Z).

(** ** Characters *)

(** [\p{L}], [\p{N}] and [\p{M}] of the [regex] crate. *)
Class UnicodeClasses := {
  is_letter : Z → bool;
  is_number : Z → bool;
  is_accent_mark : Z → bool
}.

(** [char::is_whitespace], the property [White_Space]. *)
Definition is_whitespace (c : Z) : bool :=
  ((9 <=? c) && (c <=? 13)) || (c =? 0x20) || (c =? 0x85) || (c =? 0xA0) || (c =? 0x1680)
  || ((0x2000 <=? c) && (c <=? 0x200A)) || (c =? 0x2028) || (c =? 0x2029) || (c =? 0x202F)
  || (c =? 0x205F) || (c =? 0x3000).

Definition SPACE : Z := 0x20.
Definition CR : Z := 13.
Definition LF : Z := 10.
Definition QUOTE : Z := 0x27.

Definition newline (c : Z) : bool := (c =? CR) || (c =? LF).

(** [char::to_ascii_lowercase]. *)
Definition ascii_lower (c : Z) : Z := if (0x41 <=? c) && (c <=? 0x5A) then c + 32 else c.

Definition S_ : Z := 0x73.
Definition T_ : Z := 0x74.
Definition R_ : Z := 0x72.
Definition E_ : Z := 0x65.
Definition V_ : Z := 0x76.
Definition M_ : Z := 0x6D.
Definition L_ : Z := 0x6C.
Definition D_ : Z := 0x64.

(** ** The rules *)

Inductive PreTokenizer :=
| Qwen2 | Qwen35 | LlamaBpe | Gemma4Rule | Lfm2 | SmaugDbrx | JinaV1En | WhitespaceRule.

#[export] Instance PreTokenizer_eq_dec : EqDecision PreTokenizer.
Proof. solve_decision. Defined.

Definition ignores_merges (p : PreTokenizer) : bool :=
  match p with LlamaBpe | Lfm2 => true | _ => false end.

Definition include_marks (p : PreTokenizer) : bool :=
  match p with Qwen35 => true | _ => false end.

Definition number_run (p : PreTokenizer) : N :=
  match p with
  | LlamaBpe | Lfm2 | SmaugDbrx => 3
  | Qwen2 | Qwen35 | Gemma4Rule | WhitespaceRule => 1
  | JinaV1En => 2 ^ 64 - 1
  end%N.

Definition applies_nfc_rule (p : PreTokenizer) : bool :=
  match p with Qwen2 | Qwen35 => true | _ => false end.

(** [while pos < n && p(chars[pos])]: how far it goes. *)
Fixpoint run (p : Z → bool) (rest : text) : nat :=
  match rest with
  | c :: rest => if p c then S (run p rest) else O
  | [] => O
  end.

Definition next_is (p : Z → bool) (rest : text) : bool :=
  match rest with c :: _ => p c | [] => false end.

(** The tail of a contraction of three characters. *)
Definition three_letters (l1 l2 : Z) : bool :=
  ((l1 =? R_) && (l2 =? E_)) || ((l1 =? V_) && (l2 =? E_)) || ((l1 =? L_) && (l2 =? L_)).

Definition two_letters (l1 : Z) : bool :=
  (l1 =? S_) || (l1 =? T_) || (l1 =? M_) || (l1 =? D_).

(** The characters of the contraction that starts here. *)
Definition contraction (rest : text) : option nat :=
  match rest with
  | c :: c1 :: rest =>
      if c =? QUOTE then
        if two_letters (ascii_lower c1) then Some 2%nat else
        match rest with
        | c2 :: _ => if three_letters (ascii_lower c1) (ascii_lower c2) then Some 3%nat else None
        | [] => None
        end
      else None
  | _ => None
  end.

(** The whitespace from here: how many characters, and where the last line
    break in it ends. *)
Fixpoint whitespace_scan (rest : text) (num_ws last_end : nat) : nat * nat :=
  match rest with
  | c :: rest =>
      if is_whitespace c
      then whitespace_scan rest (S num_ws) (if newline c then S num_ws else last_end)
      else (num_ws, last_end)
  | [] => (num_ws, last_end)
  end.

Section split.
Context `{!UnicodeClasses}.

(** The first arm that takes something. *)
Definition or_else (m : option nat) (n : option nat) : option nat :=
  match m with Some k => Some k | None => n end.

Definition symbol_of (marks : bool) (c : Z) : bool :=
  negb (is_whitespace c) && negb (is_letter c) && negb (is_number c)
  && negb (marks && is_accent_mark c).

Definition word_of (marks : bool) (c : Z) : bool := is_letter c || (marks && is_accent_mark c).

(** An optional character that is no line break, letter or digit, then a word. *)
Definition word_arm (marks : bool) (rest : text) : option nat :=
  match rest with
  | c :: more =>
      if negb (newline c) && negb (is_number c) then
        if word_of marks c || next_is (word_of marks) more
        then Some (S (run (word_of marks) more)) else None
      else None
  | [] => None
  end.

Definition number_arm (cap : N) (rest : text) : option nat :=
  if next_is is_number rest
  then Some (N.to_nat (cap `min` N.of_nat (run is_number rest))) else None.

(** An optional space, symbols, then line breaks. *)
Definition symbol_arm (marks : bool) (rest : text) : option nat :=
  match rest with
  | c :: more =>
      let sp := c =? SPACE in
      let from := if sp then more else rest in
      if next_is (symbol_of marks) from then
        let k := run (symbol_of marks) from in
        Some ((if sp then 1 else 0) + k + run newline (drop k from))%nat
      else None
  | [] => None
  end.

Definition whitespace_arm (rest : text) : option nat :=
  let '(num_ws, last_end) := whitespace_scan rest 0 0 in
  if (0 <? last_end)%nat then Some last_end else
  if (1 <? num_ws)%nat && (num_ws <? length rest)%nat then Some (num_ws - 1)%nat else
  if (0 <? num_ws)%nat then Some num_ws else None.

(** One turn of the scan of the Qwen and Llama rules. *)
Definition scan_step (p : PreTokenizer) (rest : text) : nat :=
  let marks := include_marks p in
  default 1%nat
    (or_else (contraction rest)
    (or_else (word_arm marks rest)
    (or_else (number_arm (number_run p) rest)
    (or_else (symbol_arm marks rest) (whitespace_arm rest))))).

(** One turn of the plain GPT-2 rule. *)
Definition gpt2_step (rest : text) : nat :=
  let symbol := symbol_of false in
  match rest with
  | [] => O
  | c :: more =>
      if c =? QUOTE then
        match contraction rest with
        | Some k => k
        | None => S (run symbol more)
        end
      else if (c =? SPACE) && next_is is_letter more then S (run is_letter more)
      else if is_letter c then S (run is_letter more)
      else if (c =? SPACE) && next_is is_number more then S (run is_number more)
      else if is_number c then S (run is_number more)
      else if (c =? SPACE) && next_is symbol more then S (run symbol more)
      else if negb (c =? SPACE) && symbol c then S (run symbol more)
      else if is_whitespace c then
        let j := run is_whitespace rest in
        if (j <? length rest)%nat && (1 <? j)%nat then (j - 1)%nat else j
      else 1%nat
  end.

(** The pieces, each as long as [step] says; every turn takes a character. *)
Fixpoint pieces (step : text → nat) (fuel : nat) (rest : text) : list text :=
  match fuel, rest with
  | S fuel, _ :: _ =>
      let k := step rest in
      if (0 <? k)%nat then take k rest :: pieces step fuel (drop k rest)
      else pieces step fuel rest
  | _, _ => []
  end.

(** Maximal runs of line feeds and of everything else. *)
Definition line_step (rest : text) : nat :=
  match rest with
  | c :: more => S (run (λ x, Bool.eqb (x =? LF) (c =? LF)) more)
  | [] => O
  end.

(** [split_whitespace]: the runs of characters that are no whitespace. *)
Fixpoint split_whitespace (fuel : nat) (rest : text) : list text :=
  match fuel, rest with
  | S fuel, c :: more =>
      if is_whitespace c then split_whitespace fuel more else
      let k := run (λ c, negb (is_whitespace c)) rest in
      take k rest :: split_whitespace fuel (drop k rest)
  | _, _ => []
  end.

Definition split (p : PreTokenizer) (t : text) : list text :=
  match p with
  | JinaV1En => pieces gpt2_step (length t) t
  | WhitespaceRule => split_whitespace (length t) t
  | Gemma4Rule => pieces line_step (length t) t
  | _ => pieces (scan_step p) (length t) t
  end.
End split.

(** ** The reference: regular expressions

    What a backtracking matcher tries, in its order: a repetition of a class
    gives up a character at a time, from as many as there are. *)
Inductive regex :=
| Chars (lo : nat) (hi : option N) (p : Z → bool)
| Then (r s : regex)
| Or (r s : regex)
| NotAhead (p : Z → bool).

(** How many characters a repetition takes, the greediest first. *)
Fixpoint counts (lo hi : nat) : list nat :=
  if (lo <=? hi)%nat then hi :: match hi with O => [] | S hi => counts lo hi end else [].

Definition most (hi : option N) (n : nat) : nat :=
  match hi with Some h => N.to_nat (h `min` N.of_nat n) | None => n end.

(** The lengths of the matches at the head of [t], in order of preference. *)
Fixpoint matches (r : regex) (t : text) : list nat :=
  match r with
  | Chars lo hi p => counts lo (most hi (run p t))
  | Then r s => m ← matches r t; Nat.add m <$> matches s (drop m t)
  | Or r s => matches r t ++ matches s t
  | NotAhead p => if next_is p t then [] else [O]
  end.

Definition find_at (r : regex) (t : text) : option nat := head (matches r t).

(** The matches from left to right; a character where none starts is skipped. *)
Fixpoint find_all (r : regex) (fuel : nat) (t : text) : list text :=
  match fuel, t with
  | S fuel, _ :: t' =>
      match find_at r t with
      | Some (S k) => take (S k) t :: find_all r fuel (drop (S k) t)
      | _ => find_all r fuel t'
      end
  | _, _ => []
  end.

Definition one (p : Z → bool) : regex := Chars 1 (Some 1%N) p.
Definition maybe (p : Z → bool) : regex := Chars 0 (Some 1%N) p.
Definition some (p : Z → bool) : regex := Chars 1 None p.
Definition any (p : Z → bool) : regex := Chars 0 None p.
(** A letter in either case. *)
Definition letter_i (l : Z) : regex := one (λ c, ascii_lower c =? l).
Definition quoted (r : regex) : regex := Then (one (λ c, c =? QUOTE)) r.

Section pattern.
Context `{!UnicodeClasses}.

Definition contractions : regex :=
  Or (quoted (letter_i S_)) (Or (quoted (letter_i T_))
  (Or (quoted (Then (letter_i R_) (letter_i E_))) (Or (quoted (Then (letter_i V_) (letter_i E_)))
  (Or (quoted (letter_i M_)) (Or (quoted (Then (letter_i L_) (letter_i L_)))
  (quoted (letter_i D_))))))).

(** [\s*[\r\n]+|\s+(?!\S)|\s+] *)
Definition spaces : regex :=
  Or (Then (some is_whitespace) (NotAhead (λ c, negb (is_whitespace c)))) (some is_whitespace).
Definition breaks : regex := Then (any is_whitespace) (some newline).

(** The patterns of the rules' comments. *)
Definition pattern (p : PreTokenizer) : regex :=
  match p with
  | JinaV1En =>
      Or contractions
      (Or (Then (maybe (λ c, c =? SPACE)) (some is_letter))
      (Or (Then (maybe (λ c, c =? SPACE)) (some is_number))
      (Or (Then (maybe (λ c, c =? SPACE)) (some (symbol_of false))) spaces)))
  | WhitespaceRule => some (λ c, negb (is_whitespace c))
  | Gemma4Rule => Or (some (λ c, negb (c =? LF))) (some (λ c, c =? LF))
  | _ =>
      let marks := include_marks p in
      Or contractions
      (Or (Then (maybe (λ c, negb (newline c) && negb (is_letter c) && negb (is_number c)))
                (some (word_of marks)))
      (Or (Chars 1 (Some (number_run p)) is_number)
      (Or (Then (maybe (λ c, c =? SPACE)) (Then (some (symbol_of marks)) (any newline)))
      (Or breaks spaces))))
  end.
End pattern.

(** * The scan is the regular expression

    [split] of every rule is [find_all] of its documented pattern, and its
    pieces tile the text, but for the rule that drops whitespace. *)
Local Open Scope Z_scope.

(** What the Unicode categories promise: L, N and M share no codepoint, and
    neither do they with the property [White_Space]; an apostrophe is none. *)
Class UnicodeLaws `{!UnicodeClasses} := {
  space_no_letter c : is_whitespace c = true → is_letter c = false;
  space_no_number c : is_whitespace c = true → is_number c = false;
  space_no_mark c : is_whitespace c = true → is_accent_mark c = false;
  number_no_letter c : is_number c = true → is_letter c = false;
  number_no_mark c : is_number c = true → is_accent_mark c = false;
  quote_no_letter : is_letter QUOTE = false;
  quote_no_number : is_number QUOTE = false;
  quote_no_mark : is_accent_mark QUOTE = false
}.

(** ** Matches *)

Lemma run_le p t : (run p t ≤ length t)%nat.
Proof. induction t as [|c t IH]; simpl; [lia|]. destruct (p c); lia. Qed.

Lemma run_pos p t : (0 <? run p t)%nat = next_is p t.
Proof. destruct t as [|c t]; [done|]. simpl. by destruct (p c). Qed.

Lemma run_zero p t : next_is p t = false → run p t = O.
Proof. rewrite <-run_pos. intros H%Nat.ltb_ge. lia. Qed.

Lemma run_cons p c t : p c = true → run p (c :: t) = S (run p t).
Proof. simpl. by intros ->. Qed.

(** The character after a run is none of its kind. *)
Lemma run_stops p t : next_is p (drop (run p t) t) = false.
Proof.
  induction t as [|c t IH]; [done|]. simpl. destruct (p c) eqn:Hc; [done|]. simpl. done.
Qed.

Lemma run_in p t i : (i < run p t)%nat → next_is p (drop i t) = true.
Proof.
  revert i. induction t as [|c t IH]; intros i; simpl; [lia|].
  destruct (p c) eqn:Hc; [|lia]. destruct i as [|i]; [done|]. intros Hi. apply IH. lia.
Qed.

Lemma run_ext p q t : (∀ c, p c = q c) → run p t = run q t.
Proof. intros Hpq. induction t as [|c t IH]; [done|]. simpl. by rewrite Hpq, IH. Qed.

Lemma head_app {A} (l k : list A) : head (l ++ k) = match head l with Some x => Some x | None => head k end.
Proof. by destruct l. Qed.

Lemma find_or r s t : find_at (Or r s) t = or_else (find_at r t) (find_at s t).
Proof. apply head_app. Qed.

Lemma counts_last lo hi :
  counts lo hi = if (lo <=? hi)%nat then hi :: match hi with O => [] | S hi => counts lo hi end else [].
Proof. by destruct hi. Qed.

Lemma elem_of_counts lo hi m : m ∈ counts lo hi ↔ (lo ≤ m ≤ hi)%nat.
Proof.
  induction hi as [|hi IH]; rewrite counts_last; destruct (_ <=? _)%nat eqn:Hle; rewrite ?Nat.leb_le, ?Nat.leb_gt in Hle;
    rewrite ?elem_of_cons, ?IH, ?elem_of_nil; lia.
Qed.

Lemma find_chars lo hi p t :
  find_at (Chars lo hi p) t = if (lo <=? most hi (run p t))%nat then Some (most hi (run p t)) else None.
Proof. unfold find_at. simpl. rewrite counts_last. by destruct (_ <=? _)%nat. Qed.

Lemma find_some p t : find_at (some p) t = if next_is p t then Some (run p t) else None.
Proof. unfold some. rewrite find_chars. simpl. rewrite <-run_pos. by destruct (run p t). Qed.

Lemma matches_one p t : matches (one p) t = if next_is p t then [1%nat] else [].
Proof.
  unfold one. simpl. rewrite <-run_pos. destruct (run p t) as [|n] eqn:Hn; [done|]. simpl.
  by replace (N.to_nat (1 `min` N.of_nat (S n))) with 1%nat by lia.
Qed.

Lemma matches_maybe p t : matches (maybe p) t = if next_is p t then [1%nat; O] else [O].
Proof.
  unfold maybe. simpl. rewrite <-run_pos. destruct (run p t) as [|n] eqn:Hn; [done|]. simpl.
  by replace (N.to_nat (1 `min` N.of_nat (S n))) with 1%nat by lia.
Qed.

Lemma head_fmap_add m (l : list nat) : head (Nat.add m <$> l) = Nat.add m <$> head l.
Proof. by destruct l. Qed.

Lemma find_then_one p r t :
  find_at (Then (one p) r) t =
  match t with c :: t' => if p c then S <$> find_at r t' else None | [] => None end.
Proof.
  unfold find_at. cbn [matches]. rewrite matches_one. destruct t as [|c t']; [done|]. cbn [next_is].
  destruct (p c); [|done]. cbn [mbind list_bind]. rewrite app_nil_r, head_fmap_add. by destruct (head _).
Qed.

Lemma find_one p t : find_at (one p) t = if next_is p t then Some 1%nat else None.
Proof. unfold find_at. rewrite matches_one. by destruct (next_is p t). Qed.

Lemma find_then_maybe p r t :
  find_at (Then (maybe p) r) t =
  if next_is p t then or_else (S <$> find_at r (drop 1 t)) (find_at r t) else find_at r t.
Proof.
  unfold find_at. cbn [matches]. rewrite matches_maybe. destruct (next_is p t); cbn [mbind list_bind].
  - rewrite app_nil_r, head_app, !head_fmap_add, drop_0.
    destruct (head (matches r (drop 1 t))); [done|]. by destruct (head (matches r t)).
  - rewrite app_nil_r, drop_0, head_fmap_add. by destruct (head (matches r t)).
Qed.

(** A greedy class before something that always matches. *)
Lemma find_some_then p r t :
  (∀ u, is_Some (find_at r u)) →
  find_at (Then (some p) r) t =
  if next_is p t then Nat.add (run p t) <$> find_at r (drop (run p t) t) else None.
Proof.
  intros Hr. unfold find_at in *. cbn [matches some]. rewrite counts_last. simpl most.
  rewrite <-run_pos. destruct (run p t) as [|n] eqn:Hn; [done|].
  replace (1 <=? S n)%nat with true by done. replace (0 <? S n)%nat with true by done.
  cbn [mbind list_bind]. rewrite head_app, head_fmap_add.
  destruct (Hr (drop (S n) t)) as [m Hm]. by rewrite Hm.
Qed.

Lemma find_any p t : find_at (any p) t = Some (run p t).
Proof. unfold any. rewrite find_chars. done. Qed.

(** ** Arms *)

Lemma find_letter_i l t :
  find_at (letter_i l) t = if next_is (λ c, ascii_lower c =? l) t then Some 1%nat else None.
Proof. apply find_one. Qed.

Lemma find_quoted r t :
  find_at (quoted r) t =
  match t with c :: t' => if c =? QUOTE then S <$> find_at r t' else None | [] => None end.
Proof. apply find_then_one. Qed.

Lemma find_two l1 l2 t :
  find_at (Then (letter_i l1) (letter_i l2)) t =
  match t with
  | c1 :: c2 :: _ => if (ascii_lower c1 =? l1) && (ascii_lower c2 =? l2) then Some 2%nat else None
  | _ => None
  end.
Proof.
  unfold letter_i at 1. rewrite find_then_one. destruct t as [|c1 t]; [done|].
  rewrite find_letter_i. destruct t as [|c2 t]; simpl; [by destruct (_ =? _)|].
  destruct (ascii_lower c1 =? l1), (ascii_lower c2 =? l2); done.
Qed.

Section laws.
Context `{UnicodeLaws}.

Lemma find_contractions t : find_at contractions t = contraction t.
Proof.
  unfold contractions. rewrite !find_or, !find_quoted. destruct t as [|c t]; [done|].
  rewrite !find_two, !find_letter_i. unfold contraction. destruct t as [|c1 t].
  { by destruct (c =? QUOTE). }
  destruct (c =? QUOTE); [|done]. unfold two_letters, three_letters. cbn [next_is].
  set (l1 := ascii_lower c1).
  destruct (Z.eqb_spec l1 S_) as [->|]; [done|]. destruct (Z.eqb_spec l1 T_) as [->|]; [done|].
  destruct t as [|c2 t].
  { by destruct (l1 =? M_), (l1 =? D_). }
  set (l2 := ascii_lower c2).
  destruct (Z.eqb_spec l1 R_) as [->|]; [by destruct (l2 =? E_)|].
  destruct (Z.eqb_spec l1 V_) as [->|]; [by destruct (l2 =? E_)|].
  destruct (Z.eqb_spec l1 M_) as [->|]; [done|].
  destruct (Z.eqb_spec l1 L_) as [->|]; [by destruct (l2 =? L_)|].
  by destruct (l1 =? D_).
Qed.

Lemma newline_space c : newline c = true → is_whitespace c = true.
Proof. unfold newline, CR, LF. intros [->%Z.eqb_eq| ->%Z.eqb_eq]%orb_prop; done. Qed.

Lemma space_no_word marks c : is_whitespace c = true → word_of marks c = false.
Proof.
  intros Hc. unfold word_of. by rewrite (space_no_letter c Hc), (space_no_mark c Hc), andb_false_r.
Qed.

Lemma space_no_symbol marks c : is_whitespace c = true → symbol_of marks c = false.
Proof. intros Hc. unfold symbol_of. by rewrite Hc. Qed.

Lemma number_no_word marks c : is_number c = true → word_of marks c = false.
Proof.
  intros Hc. unfold word_of. by rewrite (number_no_letter c Hc), (number_no_mark c Hc), andb_false_r.
Qed.

Lemma SPACE_whitespace : is_whitespace SPACE = true. Proof. done. Qed.

Lemma find_word_arm marks t :
  find_at (Then (maybe (λ c, negb (newline c) && negb (is_letter c) && negb (is_number c)))
             (some (word_of marks))) t = word_arm marks t.
Proof.
  rewrite find_then_maybe, !find_some. destruct t as [|c t]; [done|]. cbn [drop next_is word_arm run].
  rewrite drop_0. destruct (newline c) eqn:Hn; simpl.
  { by rewrite (space_no_word marks c (newline_space c Hn)). }
  destruct (is_number c) eqn:Hd.
  { rewrite andb_false_r. by rewrite (number_no_word marks c Hd). }
  rewrite andb_true_r. destruct (is_letter c) eqn:Hl; simpl.
  { unfold word_of at 1 2 4. by rewrite Hl. }
  destruct (next_is (word_of marks) t) eqn:Hx; simpl; [by rewrite orb_true_r|].
  rewrite orb_false_r. by destruct (word_of marks c).
Qed.

Lemma find_number_arm cap t :
  (1 ≤ cap)%N → find_at (Chars 1 (Some cap) is_number) t = number_arm cap t.
Proof.
  intros Hcap. rewrite find_chars. unfold number_arm. simpl most. rewrite <-run_pos.
  destruct (run is_number t) as [|n]; [by rewrite N.min_0_r|].
  replace (0 <? S n)%nat with true by done.
  destruct (Nat.leb_spec 1 (N.to_nat (cap `min` N.of_nat (S n)))); [done|lia].
Qed.

Lemma find_symbols marks u :
  find_at (Then (some (symbol_of marks)) (any newline)) u =
  if next_is (symbol_of marks) u
  then Some (run (symbol_of marks) u + run newline (drop (run (symbol_of marks) u) u))%nat else None.
Proof.
  rewrite find_some_then; [|intros w; rewrite find_any; by eexists].
  rewrite find_any. by destruct (next_is _ u).
Qed.

Lemma find_symbol_arm marks t :
  find_at (Then (maybe (λ c, c =? SPACE)) (Then (some (symbol_of marks)) (any newline))) t =
  symbol_arm marks t.
Proof.
  rewrite find_then_maybe, !find_symbols. destruct t as [|c t]; [done|].
  cbn [next_is]. unfold symbol_arm. destruct (Z.eqb_spec c SPACE) as [->|Hne].
  - cbn [drop]. rewrite drop_0. rewrite (space_no_symbol marks SPACE) by done.
    by destruct (next_is (symbol_of marks) t).
  - cbn [next_is]. by destruct (symbol_of marks c).
Qed.

(** *** Whitespace *)

(** What the scan of whitespace has found after [n] characters. *)
Lemma whitespace_scan_run t n e :
  (whitespace_scan t n e).1 = (n + run is_whitespace t)%nat.
Proof.
  revert n e. induction t as [|c t IH]; intros n e; simpl; [lia|].
  destruct (is_whitespace c); simpl; [rewrite IH|]; lia.
Qed.

(** The end of the last line break in the whitespace, and that there is none
    after it. *)
Definition last_break (t : text) (e : nat) : Prop :=
  (e ≤ run is_whitespace t)%nat ∧
  (∀ i, (e ≤ i < run is_whitespace t)%nat → next_is newline (drop i t) = false) ∧
  match e with O => True | S i => next_is newline (drop i t) = true end.

Lemma whitespace_scan_break t n e :
  let e' := (whitespace_scan t n e).2 in
  (e' = e ∧ ∀ i, (i < run is_whitespace t)%nat → next_is newline (drop i t) = false) ∨
  (∃ i, (e' = S (n + i) ∧ i < run is_whitespace t ∧ next_is newline (drop i t) = true ∧
    ∀ j, i < j < run is_whitespace t → next_is newline (drop j t) = false))%nat.
Proof.
  revert n e. induction t as [|c t IH]; intros n e; [left; split; [done|]; simpl; lia|].
  simpl. destruct (is_whitespace c) eqn:Hc; simpl; [|left; split; [done|lia]].
  destruct (IH (S n) (if newline c then S n else e)) as [[He Hn]|(i & He & Hi & Hx & Hj)].
  - destruct (newline c) eqn:Hnl.
    + right. exists O. split_and!; [rewrite He; lia|lia|done|].
      intros [|j] Hj; [lia|]. apply Hn. lia.
    + left. split; [done|]. intros [|i] Hi; [done|]. apply Hn. lia.
  - right. exists (S i). split_and!; [rewrite He; lia|lia|done|].
    intros [|j] Hj'; [lia|]. apply Hj. lia.
Qed.

Lemma last_break_scan t : last_break t (whitespace_scan t 0 0).2.
Proof.
  destruct (whitespace_scan_break t 0 0) as [[-> Hn]|(i & -> & Hi & Hx & Hj)].
  - split_and!; [lia| |done]. intros i [_ Hi]. by apply Hn.
  - split_and!; [lia| |done]. intros j [Hj1 Hj2]. apply Hj. lia.
Qed.

(** What a repetition tried from its longest on finds first. *)
Lemma counts_find lo hi (f : nat → list nat) m k :
  (lo ≤ m ≤ hi)%nat → head (f m) = Some k → (∀ j, (m < j ≤ hi)%nat → f j = []) →
  head (j ← counts lo hi; Nat.add j <$> f j) = Some (m + k)%nat.
Proof.
  intros Hm Hk Hj. induction hi as [|hi IH].
  - assert (m = O) as -> by lia. rewrite counts_last. replace (lo <=? 0)%nat with true by (symmetry; apply Nat.leb_le; lia).
    cbn [mbind list_bind]. by rewrite app_nil_r, head_fmap_add, Hk.
  - rewrite counts_last. destruct (Nat.leb_spec lo (S hi)); [|lia].
    cbn [mbind list_bind]. rewrite head_app, head_fmap_add. destruct (decide (m = S hi)) as [->|Hne].
    { by rewrite Hk. }
    rewrite (Hj (S hi)) by lia. simpl. apply IH; [lia|]. intros j Hj'. apply Hj. lia.
Qed.

Lemma counts_none lo hi (f : nat → list nat) :
  (∀ j, (lo ≤ j ≤ hi)%nat → f j = []) → (j ← counts lo hi; Nat.add j <$> f j) = [].
Proof.
  intros Hj. induction hi as [|hi IH]; rewrite counts_last; (destruct (_ <=? _)%nat eqn:Hl; [|done]);
    apply Nat.leb_le in Hl; cbn [mbind list_bind].
  - by rewrite (Hj O) by lia.
  - rewrite (Hj (S hi)) by lia. simpl. apply IH. intros j Hj'. apply Hj. lia.
Qed.

Lemma matches_some_none p t : next_is p t = false → matches (some p) t = [].
Proof. intros Ht. unfold some. simpl. by rewrite (run_zero p t Ht). Qed.

(** After the last line break there is none up to the end of the whitespace. *)
Lemma no_break_after t e j :
  last_break t e → (e ≤ j ≤ run is_whitespace t)%nat → next_is newline (drop j t) = false.
Proof.
  intros (_ & Hno & _) Hj. destruct (decide (j < run is_whitespace t)%nat); [apply Hno; lia|].
  replace j with (run is_whitespace t) by lia. pose proof (run_stops is_whitespace t) as Hs.
  destruct (drop (run is_whitespace t) t) as [|c u]; [done|]. cbn [next_is] in *.
  apply not_true_is_false. intros Hc%newline_space. congruence.
Qed.

Lemma find_breaks t e : last_break t e → find_at breaks t = if (0 <? e)%nat then Some e else None.
Proof.
  intros Hl. pose proof Hl as (He & _ & Hat). unfold find_at, breaks. cbn [matches]. unfold any. cbn [matches most].
  destruct e as [|e]; cbn [Nat.ltb Nat.leb].
  - rewrite counts_none; [done|]. intros j Hj. apply matches_some_none. apply (no_break_after t 0); [done|lia].
  - replace (S e) with (e + 1)%nat by lia. apply counts_find; [lia| |].
    + fold (find_at (some newline) (drop e t)). rewrite find_some, Hat. f_equal.
      assert (drop (S e) t = drop 1 (drop e t)) as Hd by (rewrite drop_drop; f_equal; lia).
      pose proof (no_break_after t (S e) (S e) Hl ltac:(lia)) as Hn. rewrite Hd in Hn.
      destruct (drop e t) as [|c u]; [done|]. simpl in Hat. rewrite run_cons by done. f_equal. by apply run_zero.
    + intros j Hj. apply matches_some_none. apply (no_break_after t (S e)); [done|lia].
Qed.

Lemma drop_whole (t : text) : drop (length t) t = [].
Proof. by apply drop_ge. Qed.

Lemma find_spaces t :
  find_at spaces t =
  let n := run is_whitespace t in
  if (1 <? n)%nat && (n <? length t)%nat then Some (n - 1)%nat else if (0 <? n)%nat then Some n else None.
Proof.
  unfold spaces. rewrite find_or, find_some, <-run_pos. cbv zeta. set (n := run is_whitespace t).
  pose proof (run_le is_whitespace t) as Hle. fold n in Hle.
  pose proof (run_stops is_whitespace t) as Hs. fold n in Hs.
  assert (∀ i, (i < n)%nat → next_is is_whitespace (drop i t) = true) as Hin by apply run_in.
  assert (∀ u, next_is is_whitespace u = true → next_is (λ c, negb (is_whitespace c)) u = false) as Hneg.
  { intros [|c u]; [done|]. simpl. by intros ->. }
  unfold find_at at 1. cbn [matches some most]. fold n.
  destruct (decide (n = O)) as [->|Hn0]; [done|].
  destruct (decide (n = length t)) as [Hn|Hn].
  - replace (n <? length t)%nat with false by (symmetry; apply Nat.ltb_ge; lia). rewrite andb_false_r.
    rewrite (counts_find 1 n _ n 0); [|lia| |lia].
    + simpl. destruct (Nat.ltb_spec 0 n); [f_equal|]; lia.
    + cbn [matches]. by rewrite Hn, drop_whole.
  - replace (n <? length t)%nat with true by (symmetry; apply Nat.ltb_lt; lia). rewrite andb_true_r.
    assert (next_is (λ c, negb (is_whitespace c)) (drop n t) = true) as Hstop.
    { destruct (drop n t) as [|c u] eqn:Hd;
        [apply (f_equal length) in Hd; rewrite length_drop in Hd; simpl in Hd; lia|].
      simpl in *. by rewrite Hs. }
    destruct (Nat.ltb_spec 1 n) as [H1|H1].
    + rewrite (counts_find 1 n _ (n - 1) 0); [simpl; f_equal; lia|lia| |].
      * cbn [matches]. by rewrite (Hneg _ (Hin (n - 1)%nat ltac:(lia))).
      * intros j Hj. replace j with n by lia. cbn [matches]. by rewrite Hstop.
    + rewrite counts_none; [by destruct (0 <? n)%nat|]. intros j Hj. replace j with n by lia.
      cbn [matches]. by rewrite Hstop.
Qed.

Lemma find_whitespace_arm t : find_at (Or breaks spaces) t = whitespace_arm t.
Proof.
  rewrite find_or, (find_breaks t _ (last_break_scan t)), find_spaces. unfold whitespace_arm.
  pose proof (whitespace_scan_run t 0 0) as Hn. destruct (whitespace_scan t 0 0) as [n e]. cbn [fst snd] in *.
  subst n. by destruct (0 <? e)%nat.
Qed.

(** Every character starts some match. *)
Lemma some_arm marks cap t :
  t ≠ [] → word_arm marks t = None → number_arm cap t = None →
  symbol_arm marks t = None → is_Some (whitespace_arm t).
Proof.
  destruct t as [|c t]; [done|]. intros _ Hw Hd Hs.
  rewrite <-find_whitespace_arm, find_or, (find_breaks _ _ (last_break_scan _)), find_spaces.
  destruct (0 <? _)%nat; [by eexists|]. simpl or_else. cbv zeta.
  destruct (_ && _); [by eexists|]. cbn [run length].
  destruct (is_whitespace c) eqn:Hc; [by eexists|]. exfalso.
  unfold number_arm in Hd. cbn [next_is] in Hd. destruct (is_number c) eqn:Hn; [done|].
  assert (newline c = false) as Hnl by (apply not_true_is_false; intros H1%newline_space; congruence).
  cbn [word_arm] in Hw. rewrite Hnl, Hn in Hw. simpl in Hw. destruct (word_of marks c) eqn:Hwo; [done|].
  unfold symbol_arm in Hs. destruct (Z.eqb_spec c SPACE) as [->|_]; [done|]. cbn [next_is] in Hs.
  unfold symbol_of in Hs. rewrite Hc, Hn in Hs. unfold word_of in Hwo.
  destruct (is_letter c); [done|]. destruct (marks && is_accent_mark c); done.
Qed.

(** ** Turns *)

(** A turn takes what the pattern matches, and at least a character. *)
Definition turn (r : regex) (step : text → nat) : Prop :=
  ∀ t, t ≠ [] → find_at r t = Some (step t) ∧ (0 < step t)%nat.

Lemma contraction_pos t k : contraction t = Some k → (0 < k)%nat.
Proof.
  destruct t as [|c [|c1 [|c2 t]]]; simpl; try done; destruct (c =? QUOTE); try done;
    destruct (two_letters _); try (by intros [= <-]; lia); [].
  destruct (three_letters _ _); [|done]. intros [= <-]. lia.
Qed.

Lemma word_arm_pos marks t k : word_arm marks t = Some k → (0 < k)%nat.
Proof. destruct t as [|c t]; [done|]. simpl. repeat case_match; intros; simplify_eq; lia. Qed.

Lemma number_arm_pos cap t k : (1 ≤ cap)%N → number_arm cap t = Some k → (0 < k)%nat.
Proof.
  unfold number_arm. intros Hcap. rewrite <-run_pos. destruct (Nat.ltb_spec 0 (run is_number t)); [|done].
  intros [= <-]. lia.
Qed.

Lemma symbol_arm_pos marks t k : symbol_arm marks t = Some k → (0 < k)%nat.
Proof.
  unfold symbol_arm. destruct t as [|c t]; [done|]. rewrite <-run_pos.
  set (from := if c =? SPACE then t else c :: t).
  destruct (Nat.ltb_spec 0 (run (symbol_of marks) from)); [|done]. intros [= <-]. lia.
Qed.

Lemma whitespace_arm_pos t k : whitespace_arm t = Some k → (0 < k)%nat.
Proof.
  unfold whitespace_arm. destruct (whitespace_scan t 0 0) as [n e].
  destruct (Nat.ltb_spec 0 e); [by intros [= <-]|].
  destruct (Nat.ltb_spec 1 n); simpl.
  - destruct (_ <? _)%nat; [intros [= <-]; lia|]. destruct (Nat.ltb_spec 0 n); [|done]. intros [= <-]. lia.
  - destruct (Nat.ltb_spec 0 n); [|done]. intros [= <-]. lia.
Qed.

Lemma scan_step_turn p :
  match p with JinaV1En | WhitespaceRule | Gemma4Rule => False | _ => True end →
  turn (pattern p) (scan_step p).
Proof.
  intros Hp t Ht. assert (1 ≤ number_run p)%N as Hcap by (destruct p; done).
  assert (find_at (pattern p) t =
    or_else (contraction t) (or_else (word_arm (include_marks p) t)
      (or_else (number_arm (number_run p) t) (or_else (symbol_arm (include_marks p) t) (whitespace_arm t))))) as Hf.
  { destruct p; try done; unfold pattern;
      rewrite find_or, find_contractions, find_or, find_word_arm, find_or, find_number_arm, find_or,
        find_symbol_arm, find_whitespace_arm by done; done. }
  rewrite Hf. unfold scan_step.
  destruct (contraction t) as [k|] eqn:H1; [split; [done|by eapply contraction_pos]|].
  destruct (word_arm _ t) as [k|] eqn:H2; [split; [done|by eapply word_arm_pos]|].
  destruct (number_arm _ t) as [k|] eqn:H3; [split; [done|by eapply number_arm_pos]|].
  destruct (symbol_arm _ t) as [k|] eqn:H4; [split; [done|by eapply symbol_arm_pos]|].
  destruct (some_arm _ _ t Ht H2 H3 H4) as [k Hk]. rewrite Hk. split; [done|by eapply whitespace_arm_pos].
Qed.

(** An optional space, then a run. *)
Lemma find_spaced q c t :
  q SPACE = false →
  find_at (Then (maybe (λ x, x =? SPACE)) (some q)) (c :: t) =
  if (c =? SPACE) && next_is q t then Some (S (run q t)) else if q c then Some (S (run q t)) else None.
Proof.
  intros Hq. rewrite find_then_maybe, !find_some. cbn [drop next_is run]. rewrite drop_0.
  destruct (Z.eqb_spec c SPACE) as [->|]; simpl; [|by destruct (q c)].
  rewrite Hq. by destruct (next_is q t).
Qed.

Lemma gpt2_step_turn : turn (pattern JinaV1En) gpt2_step.
Proof.
  intros [|c t] Ht; [done|]. clear Ht. unfold pattern.
  assert (is_letter SPACE = false ∧ is_number SPACE = false) as [Hsl Hsn]
    by (split; [by apply space_no_letter|by apply space_no_number]).
  rewrite find_or, find_contractions, find_or, (find_spaced is_letter) by done.
  rewrite find_or, (find_spaced is_number) by done.
  rewrite find_or, (find_spaced (symbol_of false)), find_spaces by done.
  unfold gpt2_step. destruct (Z.eqb_spec c QUOTE) as [->|Hq].
  { destruct (contraction (QUOTE :: t)) as [k|] eqn:Hc; [split; [done|by eapply contraction_pos]|].
    assert (symbol_of false QUOTE = true) as Hs.
    { unfold symbol_of. by rewrite quote_no_letter, quote_no_number. }
    rewrite quote_no_letter, quote_no_number, Hs. split; [done|lia]. }
  assert (contraction (c :: t) = None) as ->.
  { destruct t as [|c1 t]; [done|]. simpl. apply Z.eqb_neq in Hq. by rewrite Hq. }
  cbn [or_else]. destruct ((c =? SPACE) && next_is is_letter t) eqn:H1; [split; [done|lia]|].
  destruct (is_letter c) eqn:H2; [split; [done|lia]|]. cbn [or_else].
  destruct ((c =? SPACE) && next_is is_number t) eqn:H3; [split; [done|lia]|].
  destruct (is_number c) eqn:H4; [split; [done|lia]|]. cbn [or_else].
  destruct ((c =? SPACE) && next_is (symbol_of false) t) eqn:H5; [split; [done|lia]|].
  destruct (symbol_of false c) eqn:H6.
  { destruct (Z.eqb_spec c SPACE) as [->|]; [done|]. split; [done|simpl; lia]. }
  rewrite andb_false_r. cbn [or_else]. unfold symbol_of in H6. rewrite H2, H4 in H6.
  destruct (is_whitespace c) eqn:H7; [|done]. cbv zeta. rewrite andb_comm.
  pose proof (run_pos is_whitespace (c :: t)) as Hr. cbn [next_is] in Hr. rewrite H7 in Hr. rewrite Hr.
  apply Nat.ltb_lt in Hr. destruct (Nat.ltb_spec 1 (run is_whitespace (c :: t))); [|rewrite andb_false_r; done].
  rewrite andb_true_r. destruct (_ <? length _)%nat; split; try done; lia.
Qed.

Lemma line_step_turn : turn (pattern Gemma4Rule) line_step.
Proof.
  intros [|c t] Ht; [done|]. clear Ht. unfold pattern. rewrite find_or, !find_some. cbn [next_is run line_step].
  destruct (c =? LF) eqn:Hc; simpl; (split; [f_equal; f_equal; apply run_ext; intros x|lia]); by destruct (x =? LF).
Qed.

Lemma find_all_pieces r step :
  turn r step → ∀ fuel t, find_all r fuel t = pieces step fuel t.
Proof.
  intros Hr fuel. induction fuel as [|fuel IH]; intros t; [done|]. destruct t as [|c t]; [done|].
  destruct (Hr (c :: t)) as [Hf Hp]; [done|]. cbn [find_all pieces]. rewrite Hf.
  destruct (step (c :: t)) as [|k]; [lia|]. replace (0 <? S k)%nat with true by done. by rewrite IH.
Qed.

(** The whitespace rule: the words, and what is between them is skipped. *)
Lemma find_all_words fuel t : find_all (pattern WhitespaceRule) fuel t = split_whitespace fuel t.
Proof.
  unfold pattern. revert t. induction fuel as [|fuel IH]; intros t; [done|]. destruct t as [|c t]; [done|].
  cbn [find_all split_whitespace]. rewrite find_some. cbn [next_is run].
  destruct (is_whitespace c); cbn [negb]; [apply IH|]. by rewrite IH.
Qed.

(** ** The pieces *)

Lemma pieces_tile step fuel t :
  (∀ u, u ≠ [] → (0 < step u)%nat) → (length t ≤ fuel)%nat →
  concat (pieces step fuel t) = t ∧ Forall (λ u, u ≠ []) (pieces step fuel t).
Proof.
  intros Hs. revert t. induction fuel as [|fuel IH]; intros t Hl.
  { destruct t; [done|simpl in Hl; lia]. }
  destruct t as [|c t]; [done|]. cbn [pieces]. pose proof (Hs (c :: t) ltac:(done)) as Hp.
  replace (0 <? step (c :: t))%nat with true by (symmetry; by apply Nat.ltb_lt).
  destruct (step (c :: t)) as [|k]; [lia|].
  destruct (IH (drop (S k) (c :: t))) as [Hc Hf]; [rewrite length_drop; simpl in *; lia|].
  cbn [concat]. rewrite Hc. split; [by rewrite take_drop|]. by constructor.
Qed.

Lemma split_whitespace_words fuel t :
  (length t ≤ fuel)%nat →
  concat (split_whitespace fuel t) = filter (λ c, is_whitespace c = false) t ∧
  Forall (λ u, u ≠ []) (split_whitespace fuel t).
Proof.
  revert t. induction fuel as [|fuel IH]; intros t Hl.
  { destruct t; [done|simpl in Hl; lia]. }
  destruct t as [|c t]; [done|]. cbn [split_whitespace]. simpl in Hl. rewrite filter_cons.
  destruct (is_whitespace c) eqn:Hc.
  { rewrite decide_False by done. apply IH. lia. }
  rewrite decide_True by done. set (q := λ x, negb (is_whitespace x)).
  assert (q c = true) as Hq by (unfold q; by rewrite Hc). rewrite run_cons by done. cbn [take drop concat].
  destruct (IH (drop (run q t) t)) as [Hw Hf]; [rewrite length_drop; lia|]. rewrite Hw.
  split; [|by constructor]. simpl. f_equal. clear -Hl. induction t as [|x t IH]; [done|].
  simpl. rewrite filter_cons. destruct (q x) eqn:Hx; unfold q in Hx.
  - simpl. rewrite decide_True by (by apply negb_true_iff). f_equal. apply IH. simpl in Hl. lia.
  - simpl. by rewrite filter_cons.
Qed.

Lemma pieces_kind p step :
  match p with WhitespaceRule => False | _ => True end →
  step = match p with JinaV1En => gpt2_step | Gemma4Rule => line_step | _ => scan_step p end →
  turn (pattern p) step ∧ ∀ t, split p t = pieces step (length t) t.
Proof.
  intros Hp ->. destruct p; try done; (split; [|done]);
    first [by apply gpt2_step_turn|by apply line_step_turn|by apply scan_step_turn].
Qed.

(** The pieces of a rule that drops nothing. *)
Lemma split_tiles p t :
  p ≠ WhitespaceRule → concat (split p t) = t ∧ Forall (λ u, u ≠ []) (split p t).
Proof.
  intros Hp. destruct (pieces_kind p _ ltac:(by destruct p) eq_refl) as [Hturn ->].
  apply pieces_tile; [|done]. intros u Hu. by apply Hturn.
Qed.
End laws.
