(* ===== verification/Nfc.v ===== *)
(** * Unicode normalization: [src/tokenizer/nfc.rs]

    Canonical decomposition, ordering and composition.  The tables are
    generated from a Unicode database and are a class; Hangul syllables are
    arithmetic.  The theorem of the file's second half is that the test that
    lets a text through unchanged is exact. *)
From Stdlib Require Import ZArith.
From stdpp Require Import base numbers list option sorting.
From S2P Require Import Prelude Pretok.
Local Open Scope Z_scope.

(** The tables of [tables.rs], in the order of their keys. *)
Class NfcTables := {
  DECOMPOSITION : list (Z * text);
  COMBINING_CLASS : list (Z * Z);
  COMPOSITION : list (Z * Z * Z);
  COMPOSITION_SECOND : list Z
}.

(** *** Lookups: a binary search for a key that occurs once *)

Definition decomposition_of `{!NfcTables} (cp : Z) : option text :=
  p ← List.find (λ p, p.1 =? cp) DECOMPOSITION; Some p.2.
Definition combining_class `{!NfcTables} (cp : Z) : Z :=
  match List.find (λ p, p.1 =? cp) COMBINING_CLASS with Some p => p.2 | None => 0 end.
Definition composition `{!NfcTables} (a b : Z) : option Z :=
  p ← List.find (λ p, (p.1.1 =? a) && (p.1.2 =? b)) COMPOSITION; Some p.2.
Definition is_composition_second `{!NfcTables} (cp : Z) : bool := existsb (Z.eqb cp) COMPOSITION_SECOND.

Definition S_BASE : Z := 0xAC00.
Definition L_BASE : Z := 0x1100.
Definition V_BASE : Z := 0x1161.
Definition T_BASE : Z := 0x11A7.
Definition L_COUNT : Z := 19.
Definition V_COUNT : Z := 21.
Definition T_COUNT : Z := 28.
Definition N_COUNT : Z := V_COUNT * T_COUNT.
Definition S_COUNT : Z := L_COUNT * N_COUNT.

Definition within (lo n c : Z) : bool := (lo <=? c) && (c <? lo + n).

Definition is_hangul_jamo (cp : Z) : bool :=
  within L_BASE L_COUNT cp || within V_BASE V_COUNT cp || within (T_BASE + 1) (T_COUNT - 1) cp.

Definition is_hangul_syllable (cp : Z) : bool := within S_BASE S_COUNT cp.

Section nfc.
Context `{!NfcTables}.

Definition needs_normalization (input : text) : bool :=
  existsb (λ cp, bool_decide (is_Some (decomposition_of cp)) || negb (combining_class cp =? 0)
                 || is_hangul_jamo cp || is_composition_second cp) input.

(** The parts of a syllable. *)
Definition syllable_parts (cp : Z) : text :=
  let s := cp - S_BASE in
  [L_BASE + s / N_COUNT; V_BASE + (s mod N_COUNT) / T_COUNT]
  ++ (if s mod T_COUNT =? 0 then [] else [T_BASE + s mod T_COUNT]).

(** [fuel] bounds how often the parts of a part decompose. *)
Fixpoint push_decomposed (fuel : nat) (cp : Z) : text :=
  if is_hangul_syllable cp then syllable_parts cp else
  match decomposition_of cp with
  | Some parts =>
      match fuel with
      | S fuel => parts ≫= push_decomposed fuel
      | O => parts
      end
  | None => [cp]
  end.

Definition decompose (fuel : nat) (input : text) : text := input ≫= push_decomposed fuel.

(** Every maximal run of characters with a class is sorted by it, stably. *)
Fixpoint canonical_order (fuel : nat) (cps : text) : text :=
  match fuel, cps with
  | S fuel, c :: more =>
      if combining_class c =? 0 then c :: canonical_order fuel more else
      let k := run (λ x, negb (combining_class x =? 0)) cps in
      sort_by (λ a b, combining_class a <=? combining_class b) (take k cps)
      ++ canonical_order fuel (drop k cps)
  | _, _ => cps
  end.

Definition compose_pair (a b : Z) : option Z :=
  if within L_BASE L_COUNT a && within V_BASE V_COUNT b
  then Some (S_BASE + ((a - L_BASE) * V_COUNT + (b - V_BASE)) * T_COUNT) else
  if is_hangul_syllable a && ((a - S_BASE) mod T_COUNT =? 0) && within (T_BASE + 1) (T_COUNT - 1) b
  then Some (a + (b - T_BASE)) else composition a b.

(** [out], the index of the last starter in it, the last class pushed. *)
Definition compose_one (acc : text * option nat * Z) (cp : Z) : text * option nat * Z :=
  let '(out, starter, last_class) := acc in
  let class := combining_class cp in
  let push := (out ++ [cp], (if class =? 0 then Some (length out) else starter), class) in
  match starter with
  | Some si =>
      if (si + 1 <? length out)%nat && (class <=? last_class) then push else
      match out !! si with
      | Some a =>
          match compose_pair a cp with
          | Some composed => (<[si := composed]> out, starter, last_class)
          | None => push
          end
      | None => push
      end
  | None => push
  end.

Definition compose (cps : text) : text := (foldl compose_one ([], None, 0) cps).1.1.

Definition is_ascii (input : text) : bool := forallb (λ c, c <? 0x80) input.

Definition full_nfc (fuel : nat) (input : text) : text :=
  compose (canonical_order (length (decompose fuel input)) (decompose fuel input)).

(** The form of UAX #15, and the input itself where nothing can change. *)
Definition nfc (fuel : nat) (input : text) : text :=
  if is_ascii input || negb (needs_normalization input) then input else full_nfc fuel input.

Definition nfd (fuel : nat) (input : text) : text :=
  if is_ascii input then input
  else canonical_order (length (decompose fuel input)) (decompose fuel input).

(** ** What passes unchanged *)

(** What the generated tables promise: nothing in ASCII decomposes, has a
    class or is the second half of a composition; a composition's second half
    is listed; syllables and jamo are not in the tables. *)
Class NfcLaws := {
  ascii_decomposition c : 0 ≤ c < 0x80 → decomposition_of c = None;
  ascii_class c : 0 ≤ c < 0x80 → combining_class c = 0;
  ascii_second c : 0 ≤ c < 0x80 → is_composition_second c = false;
  composition_listed a b c : composition a b = Some c → is_composition_second b = true;
  hangul_class c : is_hangul_syllable c = true ∨ is_hangul_jamo c = true → combining_class c = 0;
  jamo_second c : is_hangul_jamo c = true → is_composition_second c = false
}.
End nfc.
Arguments NfcLaws : clear implicits.
Arguments NfcLaws {_}.

Section laws.
Context `{!NfcTables, !NfcLaws}.

(** Nothing in the text can change. *)
Definition settled (cp : Z) : Prop :=
  decomposition_of cp = None ∧ combining_class cp = 0 ∧ is_hangul_jamo cp = false ∧
  is_composition_second cp = false.

Lemma needs_normalization_false t : needs_normalization t = false → Forall settled t.
Proof.
  unfold needs_normalization. induction t as [|c t IH]; [constructor|]. simpl.
  intros [Hc Ht]%orb_false_iff. constructor; [|by apply IH].
  apply orb_false_iff in Hc as [Hc H4]. apply orb_false_iff in Hc as [Hc H3].
  apply orb_false_iff in Hc as [H1 H2]. apply bool_decide_eq_false in H1.
  apply negb_false_iff, Z.eqb_eq in H2. split_and!; try done. by apply eq_None_not_Some.
Qed.

Lemma ascii_settled t : Forall (λ c, 0 ≤ c) t → is_ascii t = true → Forall settled t.
Proof.
  intros Hpos Ha. unfold is_ascii in Ha. rewrite forallb_forall in Ha. apply list.Forall_forall. intros c Hc.
  pose proof (Ha c (proj1 (list_elem_of_In _ _) Hc)) as Hlt%Z.ltb_lt.
  pose proof (proj1 (list.Forall_forall _ _) Hpos c Hc) as Hge. simpl in Hge.
  split_and!; [apply ascii_decomposition|apply ascii_class| |apply ascii_second]; [lia|lia| |lia].
  unfold is_hangul_jamo, within, L_BASE, V_BASE, T_BASE, L_COUNT, V_COUNT, T_COUNT. lia.
Qed.

Lemma order_starters fuel t : Forall (λ c, combining_class c = 0) t → canonical_order fuel t = t.
Proof.
  revert t. induction fuel as [|fuel IH]; intros t Ht; [by destruct t|].
  destruct Ht as [|c t Hc Ht]; [done|]. simpl. rewrite Hc. simpl. by rewrite IH.
Qed.

Lemma compose_settled b a : settled b → compose_pair a b = None.
Proof.
  intros (_ & _ & Hj & Hs). unfold compose_pair. unfold is_hangul_jamo in Hj.
  apply orb_false_iff in Hj as [Hj Ht]. apply orb_false_iff in Hj as [_ Hv].
  rewrite Hv, Ht, !andb_false_r. destruct (composition a b) eqn:Hc; [|done].
  apply composition_listed in Hc. congruence.
Qed.

(** *** Syllables *)

(** The number of a syllable in its three digits. *)
Lemma syllable_digits s :
  0 ≤ s < 11172 →
  0 ≤ s / 588 < 19 ∧ 0 ≤ s mod 588 / 28 < 21 ∧ 0 ≤ s mod 28 < 28 ∧
  s = (s / 588 * 21 + s mod 588 / 28) * 28 + s mod 28.
Proof.
  intros Hs. pose proof (Z.div_mod s 588 ltac:(lia)) as H1.
  pose proof (Z.mod_pos_bound s 588 ltac:(lia)) as Hm.
  pose proof (Z.div_mod (s mod 588) 28 ltac:(lia)) as H2.
  assert ((s mod 588) mod 28 = s mod 28) as H3.
  { rewrite H1 at 2. replace (588 * (s / 588) + s mod 588) with (s mod 588 + 21 * (s / 588) * 28) by lia.
    by rewrite Z.mod_add by lia. }
  split_and!; [apply Z.div_pos; lia|apply Z.div_lt_upper_bound; lia|apply Z.div_pos; lia|
    apply Z.div_lt_upper_bound; lia|apply Z.mod_pos_bound; lia|apply Z.mod_pos_bound; lia|lia].
Qed.

Ltac ranges := unfold is_hangul_jamo, is_hangul_syllable, within, L_BASE, V_BASE, T_BASE, S_BASE, S_COUNT,
  N_COUNT, L_COUNT, V_COUNT, T_COUNT in *.

Lemma compose_leading a l : 0 ≤ l < 19 → compose_pair a (L_BASE + l) = None.
Proof.
  intros Hl. assert (is_hangul_jamo (L_BASE + l) = true) as Hj by (ranges; lia). unfold compose_pair.
  replace (within V_BASE V_COUNT (L_BASE + l)) with false by (ranges; lia).
  replace (within (T_BASE + 1) (T_COUNT - 1) (L_BASE + l)) with false by (ranges; lia).
  rewrite !andb_false_r. destruct (composition _ _) eqn:Hc; [|done].
  apply composition_listed in Hc. by rewrite (jamo_second _ Hj) in Hc.
Qed.

Lemma compose_vowel l v :
  0 ≤ l < 19 → 0 ≤ v < 21 →
  compose_pair (L_BASE + l) (V_BASE + v) = Some (S_BASE + (l * 21 + v) * 28).
Proof.
  intros Hl Hv. unfold compose_pair.
  replace (within L_BASE L_COUNT (L_BASE + l) && within V_BASE V_COUNT (V_BASE + v)) with true by (ranges; lia).
  f_equal. ranges. lia.
Qed.

Lemma compose_trailing n t :
  0 ≤ n < 399 → 0 < t < 28 → compose_pair (S_BASE + n * 28) (T_BASE + t) = Some (S_BASE + n * 28 + t).
Proof.
  intros Hn Ht. unfold compose_pair.
  replace (within L_BASE L_COUNT (S_BASE + n * 28)) with false by (ranges; lia).
  replace (is_hangul_syllable (S_BASE + n * 28)) with true by (ranges; lia).
  replace ((S_BASE + n * 28 - S_BASE) mod T_COUNT) with 0
    by (replace (S_BASE + n * 28 - S_BASE) with (n * T_COUNT) by (ranges; lia); by rewrite Z.mod_mul).
  replace (within (T_BASE + 1) (T_COUNT - 1) (T_BASE + t)) with true by (ranges; lia).
  simpl. f_equal. ranges. lia.
Qed.

(** A starter that does not compose with what is before it is pushed, and one
    that composes with the starter just pushed takes its place. *)
Lemma compose_one_push out st lc c :
  combining_class c = 0 → (∀ a, compose_pair a c = None) →
  compose_one (out, st, lc) c = (out ++ [c], Some (length out), 0).
Proof.
  intros Hc Hp. unfold compose_one. rewrite Hc. simpl. destruct st as [si|]; [|done].
  destruct (_ && _); [done|]. destruct (out !! si) as [a|]; [|done]. by rewrite Hp.
Qed.

Lemma compose_one_join out lc a c x :
  compose_pair a c = Some x →
  compose_one (out ++ [a], Some (length out), lc) c = (out ++ [x], Some (length out), lc).
Proof.
  intros Hp. unfold compose_one. rewrite length_app. simpl.
  replace (_ <? _)%nat with false by (symmetry; apply Nat.ltb_ge; lia). simpl.
  rewrite lookup_app_r, Nat.sub_diag by lia. simpl. rewrite Hp.
  by rewrite insert_app_r_alt, Nat.sub_diag by lia.
Qed.

(** A syllable is put together again from its parts. *)
Lemma syllable_recomposes c out st lc :
  is_hangul_syllable c = true →
  foldl compose_one (out, st, lc) (syllable_parts c) = (out ++ [c], Some (length out), 0).
Proof.
  intros Hc. assert (0 ≤ c - S_BASE < 11172) as Hs by (ranges; lia).
  destruct (syllable_digits _ Hs) as (Hl & Hv & Ht & Hsum). set (s := c - S_BASE) in *.
  change (syllable_parts c) with ([L_BASE + s / 588; V_BASE + s mod 588 / 28] ++
    (if s mod 28 =? 0 then [] else [T_BASE + s mod 28])).
  rewrite foldl_app. cbn [foldl].
  rewrite compose_one_push; [|apply hangul_class; right; ranges; lia|intros a; by apply compose_leading].
  rewrite (compose_one_join _ _ _ _ _ (compose_vowel _ _ Hl Hv)).
  destruct (Z.eqb_spec (s mod 28) 0) as [Hz|Hz]; cbn [foldl].
  - replace (S_BASE + _) with c by (unfold s in *; lia). done.
  - rewrite (compose_one_join _ _ _ _ (S_BASE + (s / 588 * 21 + s mod 588 / 28) * 28 + s mod 28)).
    + replace (_ + s mod 28) with c by (unfold s in *; lia). done.
    + apply compose_trailing; lia.
Qed.

Lemma syllable_parts_class c : is_hangul_syllable c = true → Forall (λ x, combining_class x = 0) (syllable_parts c).
Proof.
  intros Hc. assert (0 ≤ c - S_BASE < 11172) as Hs by (ranges; lia).
  destruct (syllable_digits _ Hs) as (Hl & Hv & Ht & _). set (s := c - S_BASE) in *.
  change (syllable_parts c) with ([L_BASE + s / 588; V_BASE + s mod 588 / 28] ++
    (if s mod 28 =? 0 then [] else [T_BASE + s mod 28])).
  repeat (constructor; [apply hangul_class; right; ranges; lia|]).
  destruct (Z.eqb_spec (s mod 28) 0); constructor; [|constructor]. apply hangul_class. right. ranges. lia.
Qed.

Lemma decompose_settled fuel c :
  settled c → push_decomposed fuel c = if is_hangul_syllable c then syllable_parts c else [c].
Proof. intros (Hd & _). destruct fuel; simpl; by rewrite Hd. Qed.

Lemma decomposed_class fuel t : Forall settled t → Forall (λ c, combining_class c = 0) (decompose fuel t).
Proof.
  intros Ht. apply list.Forall_bind. eapply list.Forall_impl; [exact Ht|]. intros c Hc. simpl.
  rewrite decompose_settled by done. destruct (is_hangul_syllable c) eqn:Hs; [by apply syllable_parts_class|].
  constructor; [|constructor]. apply Hc.
Qed.

Lemma compose_settled_all fuel t out st lc :
  Forall settled t → (foldl compose_one (out, st, lc) (decompose fuel t)).1.1 = out ++ t.
Proof.
  revert out st lc. induction t as [|c t IH]; intros out st lc Ht; [by rewrite app_nil_r|].
  apply list.Forall_cons in Ht as [Hc Ht]. unfold decompose. cbn [mbind list_bind].
  rewrite foldl_app, decompose_settled by done. destruct (is_hangul_syllable c) eqn:Hs.
  - rewrite syllable_recomposes by done. fold (decompose fuel t). rewrite IH by done. by rewrite <-app_assoc.
  - cbn [foldl]. rewrite compose_one_push; [|apply Hc|intros a; by apply compose_settled].
    fold (decompose fuel t). rewrite IH by done. by rewrite <-app_assoc.
Qed.

(** What is let through is what the whole algorithm would have returned. *)
Lemma settled_unchanged fuel t : Forall settled t → full_nfc fuel t = t.
Proof.
  intros Ht. unfold full_nfc. rewrite order_starters by (by apply decomposed_class).
  unfold compose. by rewrite compose_settled_all.
Qed.

Lemma nfc_full fuel t : Forall (λ c, 0 ≤ c) t → nfc fuel t = full_nfc fuel t.
Proof.
  intros Hz. unfold nfc. destruct (is_ascii t) eqn:Ha; simpl.
  { symmetry. apply settled_unchanged. by apply ascii_settled. }
  destruct (needs_normalization t) eqn:Hn; simpl; [done|].
  symmetry. apply settled_unchanged. by apply needs_normalization_false.
Qed.
End laws.
