(* ===== verification/VocabTrie.v ===== *)
(** * The vocabulary trie: [VocabTrie] of [src/tokenizer.rs]

    A list of nodes, each with its children by byte.  [trie_of] is the map from
    entries to ids the insertions stand for, and every walk is a lookup of the
    prefixes of its input in that map. *)
From Stdlib Require Import ZArith Strings.Byte.
From coqutil Require Import Byte.
From stdpp Require Import base numbers list option gmap.
From S2P Require Import Prelude Gguf.
From S2P Require Grammar.
Local Open Scope nat_scope.
#[local] Existing Instance Grammar.byte_countable.

Record TrieNode := mkNode { tn_children : gmap byte nat; tn_token : option nat }.
Abbreviation VocabTrie := (list TrieNode).

Definition node_default : TrieNode := mkNode ∅ None.

Definition add_child (b : byte) (next : nat) (n : TrieNode) : TrieNode :=
  mkNode (<[b := next]> (tn_children n)) (tn_token n).
Definition set_token (id : nat) (n : TrieNode) : TrieNode := mkNode (tn_children n) (Some id).

(** The child of [node] for the byte [b], if any. *)
Definition step (t : VocabTrie) (node : nat) (b : byte) : option nat :=
  n ← t !! node; tn_children n !! b.

(** The entry that ends at [node], if any. *)
Definition terminal (t : VocabTrie) (node : nat) : option nat := n ← t !! node; tn_token n.

(** The path of [bs] from [node], made where it is missing. *)
Fixpoint insert_path (bs : bytes) (node : nat) (t : VocabTrie) : nat * VocabTrie :=
  match bs with
  | [] => (node, t)
  | b :: bs =>
      match step t node b with
      | Some next => insert_path bs next t
      | None =>
          let next := length t in
          insert_path bs next (alter (add_child b next) node (t ++ [node_default]))
      end
  end.

Definition insert_bytes (bs : bytes) (id : nat) (t : VocabTrie) : VocabTrie :=
  let t := match t with [] => [node_default] | _ => t end in
  let '(node, t) := insert_path bs 0 t in
  alter (set_token id) node t.

(** Every entry that is a prefix of [bs], by increasing length. *)
Fixpoint trie_matches (t : VocabTrie) (node at_ : nat) (bs : bytes) : list (nat * nat) :=
  match bs with
  | [] => []
  | b :: bs =>
      match step t node b with
      | None => []
      | Some next =>
          match terminal t next with
          | Some id => (id, S at_) :: trie_matches t next (S at_) bs
          | None => trie_matches t next (S at_) bs
          end
      end
  end.

Definition starts_with_byte (t : VocabTrie) (b : byte) : bool :=
  match t with n :: _ => bool_decide (is_Some (tn_children n !! b)) | [] => false end.

(** The longest entry that is a prefix of [bs], with its length. *)
Fixpoint longest_from (t : VocabTrie) (node at_ : nat) (bs : bytes) (best : option (nat * nat)) :
    option (nat * nat) :=
  match bs with
  | [] => best
  | b :: bs =>
      match step t node b with
      | None => best
      | Some next =>
          longest_from t next (S at_) bs
            (match terminal t next with Some id => Some (id, S at_) | None => best end)
      end
  end.

Definition longest_prefix_bytes (t : VocabTrie) (bs : bytes) : option (nat * nat) :=
  match t with [] => None | _ => longest_from t 0 0 bs None end.

(** ** The map a trie stands for *)

(** The node a path leads to. *)
Fixpoint node_at (t : VocabTrie) (node : nat) (bs : bytes) : option nat :=
  match bs with
  | [] => Some node
  | b :: bs => next ← step t node b; node_at t next bs
  end.

Definition trie_lookup (t : VocabTrie) (bs : bytes) : option nat := node_at t 0 bs ≫= terminal t.

(** Children are nodes made after their parents, each child of one byte of one
    node: distinct paths end at distinct nodes. *)
Definition trie_ok (t : VocabTrie) : Prop :=
  (∀ node b next, step t node b = Some next → node < next < length t) ∧
  (∀ n1 b1 n2 b2 next, step t n1 b1 = Some next → step t n2 b2 = Some next → n1 = n2 ∧ b1 = b2).

Lemma trie_ok_nil : trie_ok [].
Proof. by split; intros. Qed.

Lemma node_at_app t node u v : node_at t node (u ++ v) = node_at t node u ≫= λ n, node_at t n v.
Proof. revert node. induction u as [|b u IH]; intros node; [done|]. simpl. destruct (step t node b); [apply IH|done]. Qed.

Lemma node_at_le t node bs m : trie_ok t → node_at t node bs = Some m → node ≤ m.
Proof.
  intros [Ht _]. revert node. induction bs as [|b bs IH]; intros node; simpl; [intros [= ->]; lia|].
  destruct (step t node b) as [next|] eqn:Hs; [|done]. simpl. intros Hm%IH. apply Ht in Hs. lia.
Qed.

Lemma node_at_inj t u v m : trie_ok t → node_at t 0 u = Some m → node_at t 0 v = Some m → u = v.
Proof.
  intros Ht. revert v m. induction u as [|b u IH] using rev_ind; intros v m Hu Hv.
  - destruct v as [|b' v] using rev_ind; [done|]. exfalso. simpl in Hu. injection Hu as <-.
    rewrite node_at_app in Hv. destruct (node_at t 0 v) as [n|] eqn:Hn; [|done]. simpl in Hv.
    destruct (step t n b') as [k|] eqn:Hs; [|done]. simpl in Hv. injection Hv as ->.
    apply (proj1 Ht) in Hs. lia.
  - rewrite node_at_app in Hu. destruct (node_at t 0 u) as [n|] eqn:Hn; [|done]. simpl in Hu.
    destruct (step t n b) as [k|] eqn:Hs; [|done]. simpl in Hu. injection Hu as ->.
    destruct v as [|b' v _] using rev_ind.
    { simpl in Hv. injection Hv as <-. apply (proj1 Ht) in Hs. lia. }
    rewrite node_at_app in Hv. destruct (node_at t 0 v) as [n'|] eqn:Hn'; [|done]. simpl in Hv.
    destruct (step t n' b') as [k|] eqn:Hs'; [|done]. simpl in Hv. injection Hv as ->.
    destruct (proj2 Ht _ _ _ _ _ Hs Hs') as [-> ->]. by rewrite (IH v n').
Qed.

(** ** Insertion *)

Lemma step_alter_child t node b next n b' :
  node < length t →
  step (alter (add_child b next) node (t ++ [node_default])) n b' =
  if decide (n = node ∧ b' = b) then Some next else step t n b'.
Proof.
  intros Hlt. unfold step. destruct (decide (n = node)) as [->|Hn].
  - rewrite list_lookup_alter_eq, lookup_app_l by done.
    destruct (lookup_lt_is_Some_2 t node Hlt) as [x ->]. simpl.
    destruct (decide (b' = b)) as [->|Hb].
    + by rewrite decide_True, lookup_insert_eq.
    + by rewrite decide_False, lookup_insert_ne by naive_solver.
  - rewrite list_lookup_alter_ne by done. rewrite decide_False by naive_solver.
    destruct (decide (n < length t)) as [Hl|Hl]; [by rewrite lookup_app_l|].
    rewrite lookup_app_r by lia. rewrite (lookup_ge_None_2 t n) by lia.
    destruct (n - length t); simpl; [|done]. by rewrite lookup_empty.
Qed.

Lemma terminal_alter_child t node b next n :
  terminal (alter (add_child b next) node (t ++ [node_default])) n = terminal t n.
Proof.
  unfold terminal. destruct (decide (n = node)) as [->|Hn].
  - rewrite list_lookup_alter_eq. destruct (decide (node < length t)) as [Hl|Hl].
    + rewrite lookup_app_l by done. by destruct (t !! node).
    + rewrite lookup_app_r, (lookup_ge_None_2 t node) by lia. by destruct (node - length t) as [|[]].
  - rewrite list_lookup_alter_ne by done. destruct (decide (n < length t)) as [Hl|Hl]; [by rewrite lookup_app_l|].
    rewrite lookup_app_r, (lookup_ge_None_2 t n) by lia. by destruct (n - length t) as [|[]].
Qed.

Lemma child_ok t node b :
  trie_ok t → node < length t → step t node b = None →
  trie_ok (alter (add_child b (length t)) node (t ++ [node_default])).
Proof.
  intros [Ht1 Ht2] Hlt Hno. split.
  - intros n b' next. rewrite step_alter_child by done. rewrite length_alter, length_app. simpl.
    case_decide as Hd; [intros [= <-]; lia|]. intros Hs%Ht1. lia.
  - intros n1 b1 n2 b2 next. rewrite !step_alter_child by done.
    repeat case_decide; destruct_and?; subst; try (intros; simplify_eq; done).
    + intros [= <-] Hs%Ht1. lia.
    + intros Hs%Ht1 [= <-]. lia.
    + apply Ht2.
Qed.

(** After the path is made it leads to the node, and every other path with it. *)
Lemma insert_path_spec bs node t m t' :
  trie_ok t → node < length t → insert_path bs node t = (m, t') →
  trie_ok t' ∧ length t ≤ length t' ∧ m < length t' ∧ node_at t' node bs = Some m ∧
  (∀ n, terminal t' n = terminal t n) ∧
  (∀ n b next, step t n b = Some next → step t' n b = Some next) ∧
  (∀ n u k, n < length t → node_at t' n u = Some k → k < length t → node_at t n u = Some k) ∧
  (∀ n, length t ≤ n → terminal t n = None).
Proof.
  assert (∀ (t : VocabTrie) n, length t ≤ n → terminal t n = None) as Hout.
  { intros t0 n Hn. unfold terminal. by rewrite lookup_ge_None_2. }
  revert node t. induction bs as [|b bs IH]; intros node t Ht Hlt; simpl.
  { intros [= <- <-]. split_and!; try done. by apply Hout. }
  destruct (step t node b) as [next|] eqn:Hs.
  - intros Hi. assert (next < length t) as Hnx by (by apply (proj1 Ht) in Hs as [_ ?]).
    destruct (IH next t Ht Hnx Hi) as (H1 & H2 & H3 & H4 & H5 & H6 & H7 & H8).
    split_and!; try done. by rewrite (H6 _ _ _ Hs).
  - set (t1 := alter (add_child b (length t)) node (t ++ [node_default])). intros Hi.
    pose proof (child_ok t node b Ht Hlt Hs) as Ht1. fold t1 in Ht1.
    assert (length t1 = S (length t)) as Hl1 by (unfold t1; rewrite length_alter, length_app; simpl; lia).
    destruct (IH (length t) t1 Ht1 ltac:(lia) Hi) as (H1 & H2 & H3 & H4 & H5 & H6 & H7 & H8).
    assert (∀ n b', step t1 n b' = if decide (n = node ∧ b' = b) then Some (length t) else step t n b') as Hst.
    { intros n b'. by apply step_alter_child. }
    assert (∀ n b' nx, step t n b' = Some nx → step t1 n b' = Some nx) as Hsub.
    { intros n b' nx Hn. rewrite Hst, decide_False; [done|].
      intros [-> ->]. congruence. }
    assert (∀ n u k, n < length t → node_at t1 n u = Some k → k < length t → node_at t n u = Some k) as Hback.
    { intros n u. revert n. induction u as [|c u IHu]; intros n k Hn; simpl; [done|].
      rewrite Hst. case_decide as Hd.
      - simpl. intros Hk Hkl. apply node_at_le in Hk; [lia|done].
      - destruct (step t n c) as [nx|] eqn:Hn'; [|done]. simpl. intros Hk Hkl.
        apply IHu; [by apply (proj1 Ht) in Hn' as [_ ?]|done|done]. }
    split_and!; try done; [lia| | | | |by apply Hout].
    + rewrite (H6 node b (length t)); [done|]. by rewrite Hst, decide_True.
    + intros n. rewrite H5. apply terminal_alter_child.
    + intros n b' nx Hn. by apply H6, Hsub.
    + intros n u k Hn Hk Hkl. apply Hback; [done| |done]. apply H7; [lia|done|lia].
Qed.

Lemma node_at_sub t t' n u k :
  (∀ n b next, step t n b = Some next → step t' n b = Some next) →
  node_at t n u = Some k → node_at t' n u = Some k.
Proof.
  intros Hsub. revert n. induction u as [|b u IH]; intros n; simpl; [done|].
  destruct (step t n b) as [nx|] eqn:Hs; [|done]. rewrite (Hsub _ _ _ Hs). apply IH.
Qed.

Lemma node_at_lt t n u k : trie_ok t → n < length t → node_at t n u = Some k → k < length t.
Proof.
  intros [Ht _]. revert n. induction u as [|b u IH]; intros n Hn; simpl; [intros [= <-]; done|].
  destruct (step t n b) as [nx|] eqn:Hs; [|done]. apply IH. by apply Ht in Hs as [_ ?].
Qed.

Lemma step_set_token t m id n b : step (alter (set_token id) m t) n b = step t n b.
Proof.
  unfold step. destruct (decide (n = m)) as [->|Hn]; [|by rewrite list_lookup_alter_ne].
  rewrite list_lookup_alter_eq. by destruct (t !! m).
Qed.

Lemma node_at_set_token t m id n u : node_at (alter (set_token id) m t) n u = node_at t n u.
Proof.
  revert n. induction u as [|b u IH]; intros n; [done|]. simpl. rewrite step_set_token.
  destruct (step t n b); [apply IH|done].
Qed.

Lemma terminal_set_token t m id n :
  m < length t → terminal (alter (set_token id) m t) n = if decide (n = m) then Some id else terminal t n.
Proof.
  intros Hm. unfold terminal. case_decide as Hn.
  - subst n. rewrite list_lookup_alter_eq. by destruct (lookup_lt_is_Some_2 t m Hm) as [x ->].
  - by rewrite list_lookup_alter_ne.
Qed.

Lemma trie_ok_root : trie_ok [node_default].
Proof.
  assert (∀ n b, step [node_default] n b = None) as H.
  { intros [|[|n]] b; [|done..]. unfold step. simpl. apply lookup_empty. }
  by split; intros; rewrite H in *.
Qed.

(** An insertion is an insertion in the map. *)
Lemma insert_bytes_spec bs id t :
  trie_ok t →
  trie_ok (insert_bytes bs id t) ∧
  ∀ u, trie_lookup (insert_bytes bs id t) u = if decide (u = bs) then Some id else trie_lookup t u.
Proof.
  intros Ht. unfold insert_bytes.
  set (t0 := match t with [] => [node_default] | _ => t end).
  assert (trie_ok t0 ∧ 0 < length t0 ∧ ∀ u, trie_lookup t0 u = trie_lookup t u) as (Ht0 & Hl & Hsame).
  { unfold t0. destruct t as [|x t]; [|simpl; split_and!; [done|lia|done]].
    split_and!; [apply trie_ok_root|simpl; lia|]. intros [|b u]; [done|]. unfold trie_lookup. simpl.
    unfold step at 1. simpl. by rewrite lookup_empty. }
  destruct (insert_path bs 0 t0) as [m t'] eqn:Hi.
  destruct (insert_path_spec bs 0 t0 m t' Ht0 Hl Hi) as (H1 & H2 & H3 & H4 & H5 & H6 & H7 & H8). split.
  - split.
    + intros n b next. rewrite step_set_token, length_alter. apply H1.
    + intros n1 b1 n2 b2 next. rewrite !step_set_token. apply H1.
  - intros u. rewrite <-Hsame. unfold trie_lookup at 1. rewrite node_at_set_token. case_decide as Hu.
    { subst u. rewrite H4. simpl. rewrite terminal_set_token by done. by rewrite decide_True. }
    unfold trie_lookup. destruct (node_at t' 0 u) as [k|] eqn:Hk; simpl.
    + rewrite terminal_set_token by done. rewrite decide_False.
      2: { intros ->. by apply Hu, (node_at_inj t' u bs m). }
      rewrite H5. destruct (node_at t0 0 u) as [k'|] eqn:Hk'; simpl.
      * pose proof (node_at_sub t0 t' _ _ _ H6 Hk') as He. rewrite Hk in He. by injection He as ->.
      * apply H8. destruct (decide (k < length t0)) as [Hlt|]; [|lia]. by rewrite (H7 0 u k) in Hk'.
    + destruct (node_at t0 0 u) as [k'|] eqn:Hk'; [|done].
      by rewrite (node_at_sub t0 t' _ _ _ H6 Hk') in Hk.
Qed.

(** ** Walks *)

(** The entries among the prefixes of [bs], after [u] has been read. *)
Definition prefixes_in (t : VocabTrie) (u : bytes) (at_ : nat) (bs : bytes) : list (nat * nat) :=
  omap (λ k, (λ id, (id, at_ + k)) <$> trie_lookup t (u ++ take k bs)) (seq 1 (length bs)).

Lemma omap_seq_shift {A} (f : nat → option A) i n : omap f (seq (S i) n) = omap (λ k, f (S k)) (seq i n).
Proof. revert i. induction n as [|n IH]; intros i; [done|]. simpl. by rewrite IH. Qed.

Lemma omap_pointwise {A B} (f g : A → option B) (l : list A) : (∀ x, f x = g x) → omap f l = omap g l.
Proof. intros Hfg. induction l as [|x l IH]; [done|]. cbn [omap list_omap] in *. by rewrite Hfg, IH. Qed.

Lemma trie_matches_spec t u node at_ bs :
  node_at t 0 u = Some node → trie_matches t node at_ bs = prefixes_in t u at_ bs.
Proof.
  unfold prefixes_in. revert u node at_. induction bs as [|b bs IH]; intros u node at_ Hu; [done|].
  cbn [trie_matches length seq omap list_omap take].
  assert (∀ v, node_at t 0 (u ++ b :: v) = step t node b ≫= λ nx, node_at t nx v) as Hcons.
  { intros v. rewrite node_at_app, Hu. done. }
  destruct (step t node b) as [next|] eqn:Hs.
  - assert (node_at t 0 (u ++ [b]) = Some next) as Hn by (by rewrite Hcons).
    assert (trie_matches t next (S at_) bs =
      omap (λ k, (λ id, (id, at_ + k)) <$> trie_lookup t (u ++ take k (b :: bs))) (seq 2 (length bs))) as Hrest.
    { rewrite (IH (u ++ [b]) next (S at_) Hn), (omap_seq_shift _ 1). apply omap_pointwise. intros k.
      rewrite <-app_assoc. simpl. by replace (at_ + S k) with (S (at_ + k)) by lia. }
    assert (trie_lookup t (u ++ [b]) = terminal t next) as Hone by (unfold trie_lookup; by rewrite Hn).
    rewrite Hrest. cbn [take]. rewrite take_0, Hone. destruct (terminal t next); simpl; [|done]. by replace (at_ + 1) with (S at_) by lia.
  - assert (∀ k, trie_lookup t (u ++ take (S k) (b :: bs)) = None) as Hno.
    { intros k. unfold trie_lookup. simpl. by rewrite Hcons. }
    pose proof (Hno 0) as Hn0. cbn [take] in Hn0. rewrite Hn0. cbn [fmap option_fmap option_map]. symmetry.
    apply elem_of_nil_inv. intros x (k & Hk & Hx)%list_elem_of_omap.
    apply elem_of_seq in Hk. destruct k as [|k]; [lia|]. by rewrite Hno in Hx.
Qed.

Lemma longest_from_last t node at_ bs best :
  longest_from t node at_ bs best =
  match last (trie_matches t node at_ bs) with Some x => Some x | None => best end.
Proof.
  revert node at_ best. induction bs as [|b bs IH]; intros node at_ best; [done|]. simpl.
  destruct (step t node b) as [next|]; [|done]. rewrite IH.
  destruct (terminal t next) as [id|]; [|done]. rewrite last_cons. by destruct (last _).
Qed.

Lemma longest_prefix_last t bs : longest_prefix_bytes t bs = last (prefixes_in t [] 0 bs).
Proof.
  rewrite <-(trie_matches_spec t [] 0 0 bs) by done. destruct t as [|x t].
  { by destruct bs. }
  unfold longest_prefix_bytes. rewrite longest_from_last. by destruct (last _).
Qed.

(** The longest match is an entry that is a prefix, and no longer one is. *)
Lemma longest_prefix_spec t bs :
  match longest_prefix_bytes t bs with
  | Some (id, k) => 1 ≤ k ≤ length bs ∧ trie_lookup t (take k bs) = Some id ∧
                    ∀ j, k < j ≤ length bs → trie_lookup t (take j bs) = None
  | None => ∀ j, 1 ≤ j ≤ length bs → trie_lookup t (take j bs) = None
  end.
Proof.
  rewrite longest_prefix_last. unfold prefixes_in. cbn [app]. induction (length bs) as [|n IH]; [simpl; lia|].
  rewrite seq_S, omap_app, last_app. cbn [omap list_omap].
  destruct (trie_lookup t (take (1 + n) bs)) as [id|] eqn:Hl; cbn [fmap option_fmap option_map].
  - simpl. split_and!; [lia|lia|done|lia].
  - simpl last. destruct (last _) as [[id k]|].
    + destruct IH as (H1 & H2 & H3). split_and!; [lia|lia|done|]. intros j Hj.
      destruct (decide (j = 1 + n)) as [->|]; [done|]. apply H3. lia.
    + intros j Hj. destruct (decide (j = 1 + n)) as [->|]; [done|]. apply IH. lia.
Qed.
