(* ===== verification/TokenText.v ===== *)
(** * Texts, bytes and the byte-level alphabet of [src/tokenizer.rs]

    A Rust [String] is the list of its codepoints; [encode_all] gives its bytes
    and [chars_of] its codepoints back.  [build_byte_to_unicode] is the table
    that stands every byte for a printable character. *)
From Stdlib Require Import ZArith Strings.Byte.
From coqutil Require Import Byte.
From stdpp Require Import base numbers list option gmap.
From S2P Require Import Prelude Gguf Utf8 Utf8Facts Pretok.
From S2P Require Grammar.
Local Open Scope Z_scope.
#[local] Existing Instance Grammar.byte_countable.

(** ** Codepoints of a byte string *)

Fixpoint chars_loop (fuel : nat) (bs : bytes) : text :=
  match fuel, decode_at bs with
  | S fuel, Some (Cp c n) => c :: chars_loop fuel (drop n bs)
  | _, _ => []
  end.

(** [chars] of a valid string. *)
Definition chars_of (bs : bytes) : text := chars_loop (length bs) bs.

(** [len], in bytes. *)
Definition byte_len (t : text) : nat := length (encode_all t).

Definition is_scalar_text (t : text) : Prop := Forall scalar t.

Lemma chars_loop_encode fuel t :
  Forall scalar t → (length (encode_all t) ≤ fuel)%nat → chars_loop fuel (encode_all t) = t.
Proof.
  revert t. induction fuel as [|fuel IH]; intros t Ht Hl.
  - destruct t as [|c t]; [done|]. rewrite encode_all_cons, length_app in Hl.
    pose proof (length_encode c). lia.
  - destruct Ht as [|c t Hc Ht]; [done|]. rewrite encode_all_cons in *. rewrite length_app in Hl.
    pose proof (length_encode c). cbn [chars_loop]. rewrite (decode_encode c) by done.
    rewrite drop_app_length. f_equal. apply IH; [done|lia].
Qed.

Lemma chars_of_encode t : Forall scalar t → chars_of (encode_all t) = t.
Proof. intros Ht. by apply chars_loop_encode. Qed.

(** Two texts with the same bytes are the same. *)
Lemma encode_all_inj t u : Forall scalar t → Forall scalar u → encode_all t = encode_all u → t = u.
Proof. intros Ht Hu He. rewrite <-(chars_of_encode t), <-(chars_of_encode u) by done. by rewrite He. Qed.

(** ** The byte-level alphabet *)

Definition printable : list Z := seqZ 0x21 94 ++ seqZ 0xA1 12 ++ seqZ 0xAE 82.

(** [bs], [cs] and [n] of the source. *)
Definition fill_step (acc : list Z * list Z * Z) (b : Z) : list Z * list Z * Z :=
  let '(bs, cs, n) := acc in
  if decide (b ∈ bs) then acc else (bs ++ [b], cs ++ [256 + n], n + 1).

Definition byte_pairs : list (Z * Z) :=
  let '(bs, cs, _) := foldl fill_step (printable, printable, 0) (seqZ 0 256) in zip bs cs.

Definition build_byte_to_unicode : gmap byte Z :=
  list_to_map (map (λ p, (byte.of_Z p.1, p.2)) byte_pairs).

Definition build_unicode_to_byte : gmap Z byte :=
  list_to_map (map (λ p, (p.2, p.1)) (map_to_list build_byte_to_unicode)).

(** [byte_to_unicode[&b]]; a missing byte would panic. *)
Definition byte_encode (t : text) (byte_to_unicode : gmap byte Z) : res Empty_set text :=
  or_panic (mapM (λ b, byte_to_unicode !! b) (encode_all t)).

(** Every byte has its own character. *)
Definition byte_char (b : byte) : Z := default 0 (build_byte_to_unicode !! b).

Definition all_bytes : list byte := map byte.of_Z (seqZ 0 256).

Lemma all_bytes_elem b : b ∈ all_bytes.
Proof.
  unfold all_bytes. apply list_elem_of_fmap. exists (uz b). split.
  - symmetry. apply byte.of_Z_unsigned.
  - apply elem_of_seqZ. pose proof (uz_range b). lia.
Qed.

Lemma byte_table_total :
  forallb (λ b, match build_byte_to_unicode !! b with Some _ => true | None => false end) all_bytes = true.
Proof. vm_compute. reflexivity. Qed.

Lemma byte_table_back :
  forallb (λ b, match build_unicode_to_byte !! byte_char b with Some b' => uz b' =? uz b | None => false end)
    all_bytes = true.
Proof. vm_compute. reflexivity. Qed.

Lemma all_bytes_test (p : byte → bool) b : forallb p all_bytes = true → p b = true.
Proof. intros Hp. rewrite forallb_forall in Hp. apply Hp, list_elem_of_In, all_bytes_elem. Qed.

Lemma byte_char_lookup b : build_byte_to_unicode !! b = Some (byte_char b).
Proof.
  pose proof (all_bytes_test _ b byte_table_total) as H. cbv beta in H. unfold byte_char.
  by destruct (build_byte_to_unicode !! b).
Qed.

Lemma byte_char_back b : build_unicode_to_byte !! byte_char b = Some b.
Proof.
  pose proof (all_bytes_test _ b byte_table_back) as H. cbv beta in H.
  destruct (build_unicode_to_byte !! byte_char b) as [b'|]; [|done]. apply Z.eqb_eq in H.
  f_equal. by apply byte.unsigned_inj.
Qed.

Lemma byte_char_inj b b' : byte_char b = byte_char b' → b = b'.
Proof. intros He. pose proof (byte_char_back b) as H. rewrite He, byte_char_back in H. by injection H. Qed.

Lemma mapM_total {A B} (f : A → option B) (g : A → B) l : (∀ x, f x = Some (g x)) → mapM f l = Some (map g l).
Proof. intros Hf. induction l as [|x l IH]; [done|]. simpl. rewrite Hf. simpl. by rewrite IH. Qed.

Lemma byte_encode_ok t : byte_encode t build_byte_to_unicode = Ok (map byte_char (encode_all t)).
Proof. unfold byte_encode. by rewrite (mapM_total _ byte_char _ byte_char_lookup). Qed.

#[global] Opaque build_byte_to_unicode build_unicode_to_byte.

(** *** Searching *)

Definition starts_with (pat t : text) : bool := bool_decide (take (length pat) t = pat).

(** [find]: where the pattern first occurs, in characters. *)
Fixpoint find_text (pat t : text) : option nat :=
  if starts_with pat t then Some O else
  match t with
  | [] => None
  | _ :: t => S <$> find_text pat t
  end.

Lemma text_starts_with pat t : starts_with pat t = true ↔ ∃ rest, t = pat ++ rest.
Proof.
  unfold starts_with. rewrite bool_decide_eq_true. split.
  - intros H. exists (drop (length pat) t). by rewrite <-H at 1; rewrite take_drop.
  - intros [rest ->]. apply take_app_length.
Qed.
