(* ===== verification/Tokenizer.v ===== *)
(** * The tokenizer: [Tokenizer] of [src/tokenizer.rs]

    The data of a loaded tokenizer and its engines: the merge loop of byte-level
    and raw byte-pair encoding, the greedy trie walk of RWKV, the backward
    dynamic program of PLaMo-2, 6-mers, WordPiece, the unigram walk; texts with
    special tokens; and back to bytes.  SentencePiece is in [SpmMerge], [load]
    in [TokenizerLoad].  Scores are floats behind a class; the character classes
    the [regex] crate and the standard library decide are classes too. *)
From Stdlib Require Import ZArith Strings.Byte.
From coqutil Require Import Byte.
From stdpp Require Import base numbers list option gmap.
From S2P Require Import Prelude Gguf Utf8 Pretok Nfc TokenText VocabTrie.
From S2P Require Grammar.
Local Open Scope nat_scope.
#[local] Existing Instance Grammar.byte_countable.

(** Scores: [f32] is [F], the sums of the unigram walk are [f64], [G]. *)
Class ScoreMath (F G : Type) := {
  f32_of_bits : Z → F;
  f32_zero : F;
  f32_max : F;
  f32_min : F → F → F;
  f32_eqb : F → F → bool;
  f32_minus_ten : F → F;
  partial_cmp : F → F → option comparison;
  is_finite : F → bool;
  (** [(score * 1e4).round() as i64]. *)
  scaled : F → Z;
  to_f64 : F → G;
  f64_zero : G;
  f64_min : G;
  f64_add : G → G → G;
  f64_gt : G → G → bool
}.

(** What WordPiece asks of a character. *)
Class CharClasses := {
  is_control_char : Z → bool;
  is_punctuation_char : Z → bool;
  is_accent_mark_char : Z → bool;
  is_alphanumeric : Z → bool;
  to_lowercase : Z → text
}.

Inductive TokenizerModel :=
| Gpt2 | Spm | Ugm | Rwkv | Whitespace | NoVocab | HybridDna | Plamo2 | Gemma4 | Bert.

#[export] Instance TokenizerModel_eq_dec : EqDecision TokenizerModel.
Proof. solve_decision. Defined.

Definition SPM_SPACE : Z := 0x2581.
Definition DNA_KMER_MARKER : text := [0xE000%Z].

Record NormalizerOptions := mkNormalizer { lowercase : bool; strip_accents : bool }.

Record DnaData := mkDna { dn_begin : nat; dn_end : nat; dn_oov : nat; dn_kmers : gmap text nat }.

Record UgmData (F : Type) := mkUgm {
  ug_trie : VocabTrie;
  ug_user_defined : VocabTrie;
  ug_unknown_token_score : F;
  ug_xcda : list Z;
  ug_prefix_replacements : bytes
}.
Arguments mkUgm {F}.
Arguments ug_trie {F}.
Arguments ug_user_defined {F}.
Arguments ug_unknown_token_score {F}.
Arguments ug_xcda {F}.
Arguments ug_prefix_replacements {F}.

Record Tokenizer (F : Type) := mkTokenizer {
  id_to_token : list text;
  id_to_score : list F;
  id_to_type : list Z;
  vocab : gmap text nat;
  merges : gmap (text * text) nat;
  byte_to_unicode : gmap byte Z;
  unicode_to_byte : gmap Z byte;
  special_tokens : gmap text nat;
  model : TokenizerModel;
  pre : option PreTokenizer;
  add_space_prefix : bool;
  spm_byte_to_id : gmap byte nat;
  normalizer : NormalizerOptions;
  max_token_len : nat;
  unk_token : nat;
  ugm : UgmData F;
  ignore_merges : bool;
  dna : option DnaData;
  remove_extra_whitespaces : bool;
  special_by_first : gmap Z (list (text * nat));
  bos_token : nat;
  eos_token : nat
}.
Arguments mkTokenizer {F}.
Arguments id_to_token {F}. Arguments id_to_score {F}. Arguments id_to_type {F}. Arguments vocab {F}.
Arguments merges {F}. Arguments byte_to_unicode {F}. Arguments unicode_to_byte {F}.
Arguments special_tokens {F}. Arguments model {F}. Arguments pre {F}. Arguments add_space_prefix {F}.
Arguments spm_byte_to_id {F}. Arguments normalizer {F}. Arguments max_token_len {F}.
Arguments unk_token {F}. Arguments ugm {F}. Arguments ignore_merges {F}. Arguments dna {F}.
Arguments remove_extra_whitespaces {F}. Arguments special_by_first {F}. Arguments bos_token {F}.
Arguments eos_token {F}.

(** No error of the source: a loop that the given fuel does not end. *)
Inductive Forever := StillRunning.
Abbreviation enc := (res Forever).

(** [panic!] inside what cannot fail otherwise. *)
Definition total {A} (m : res Empty_set A) : enc A :=
  match m with Ok a => Ok a | Err e => match e with end | Panic => Panic end.

Definition look {A} (o : option A) : enc A := or_panic o.

(** ** Special tokens *)

(** Where an entry goes in a group that is kept longest first. *)
Definition special_index (special : gmap text nat) : gmap Z (list (text * nat)) :=
  let groups := foldl (λ index p, partial_alter (λ g, Some (default [] g ++ [p])) (default 0%Z (head p.1)) index)
                  ∅ (map_to_list special) in
  sort_by (λ a b, byte_len b.1 <=? byte_len a.1) <$> groups.

(** The first special token of [remaining]: where, which, how long. *)
Definition special_here (index : gmap Z (list (text * nat))) (rest : text) : option (nat * nat) :=
  ch ← head rest; group ← index !! ch;
  p ← list_find (λ p, starts_with p.1 rest = true) group; Some (p.2.2, length p.2.1).

Fixpoint special_scan (index : gmap Z (list (text * nat))) (ci : nat) (rest : text) : option (nat * nat * nat) :=
  match rest with
  | [] => None
  | _ :: more =>
      match special_here index rest with
      | Some (id, len) => Some (ci, id, len)
      | None => special_scan index (S ci) more
      end
  end.

(** ** Byte-pair encoding *)

Section merging.
Context (ranks : gmap (text * text) nat).

(** The adjacent pair of the lowest rank, the first of them. *)
Fixpoint best_merge (i : nat) (word : list text) (best : option (nat * nat)) : option (nat * nat) :=
  match word with
  | a :: ((b :: _) as rest) =>
      best_merge (S i) rest
        (match ranks !! (a, b) with
         | Some rank =>
             match best with
             | Some (r, _) => if rank <? r then Some (rank, i) else best
             | None => Some (rank, i)
             end
         | None => best
         end)
  | _ => best
  end.

(** [word.splice(idx..=idx + 1, once(merged))]. *)
Definition merge_at (idx : nat) (word : list text) : list text :=
  take idx word ++ match drop idx word with a :: b :: rest => (a ++ b) :: rest | rest => rest end.

Fixpoint merge_loop (fuel : nat) (word : list text) : list text :=
  match best_merge 0 word None, fuel with
  | Some (_, idx), S fuel => merge_loop fuel (merge_at idx word)
  | _, _ => word
  end.

(** A merge leaves one piece less, so there are fewer merges than characters. *)
Definition merge_word (t : text) : list text := merge_loop (length t) (map (λ c, [c]) t).
End merging.

Definition concat_map {A} (f : A → enc (list nat)) : list A → enc (list nat) :=
  foldr (λ x acc, ids ← f x; rest ← acc; mret (ids ++ rest)) (mret []).

Section engine.
Context {F G : Type}.
Context `{!ScoreMath F G, !UnicodeClasses, !CharClasses, !NfcTables}.
(** How often a canonical decomposition may decompose again. *)
Context (nfc_depth : nat).

Implicit Types (tk : Tokenizer F) (t : text).

(** One token per character of a byte-encoded piece. *)
Definition byte_fallback tk (piece : text) : enc (list nat) :=
  concat_map (λ c, id ← look (vocab tk !! [c]); mret [id]) piece.

Definition bpe_encode tk (token : text) : enc (list nat) :=
  concat_map (λ piece, match vocab tk !! piece with
                       | Some id => mret [id]
                       | None => byte_fallback tk piece
                       end) (merge_word (merges tk) token).

Definition encode_bpe tk t : enc (list nat) :=
  rule ← look (pre tk);
  concat_map (λ piece,
    encoded ← total (byte_encode piece (byte_to_unicode tk));
    match (if ignore_merges tk then vocab tk !! encoded else None) with
    | Some id => mret [id]
    | None => bpe_encode tk encoded
    end) (split rule t).

(** One [<0xXX>] token per byte. *)
Definition byte_tokens tk t : enc (list nat) :=
  concat_map (λ b, id ← look (spm_byte_to_id tk !! b); mret [id]) (encode_all t).

Definition bpe_encode_raw tk (piece : text) : enc (list nat) :=
  concat_map (λ w, match vocab tk !! w with
                   | Some id => mret [id]
                   | None => byte_tokens tk w
                   end) (merge_word (merges tk) piece).

Definition gemma4_encode tk t : enc (list nat) :=
  let escaped := map (λ c, if (c =? SPACE)%Z then SPM_SPACE else c) t in
  rule ← look (pre tk);
  concat_map (λ piece,
    match (if forallb (λ c, (c =? LF)%Z) piece then vocab tk !! piece else None) with
    | Some id => mret [id]
    | None => bpe_encode_raw tk piece
    end) (split rule escaped).

(** ** RWKV *)

Fixpoint rwkv_loop (fuel : nat) tk (bs : bytes) : list nat :=
  match fuel, bs with
  | S fuel, _ :: rest =>
      match longest_prefix_bytes (ug_trie (ugm tk)) bs with
      | Some (id, len) => id :: rwkv_loop fuel tk (drop len bs)
      | None => unk_token tk :: rwkv_loop fuel tk rest
      end
  | _, _ => []
  end.

(** A turn takes at least a byte. *)
Definition rwkv_encode tk t : list nat := rwkv_loop (length (encode_all t)) tk (encode_all t).

Definition u8 (x : Z) : Z := (x mod 256)%Z.

(** [out], [escaping], [hex_remaining], [hex_acc]. *)
Definition unescape_step (acc : bytes * bool * Z * Z) (b : byte) : bytes * bool * Z * Z :=
  let '(out, escaping, hex_remaining, hex_acc) := acc in
  let x := uz b in
  if negb (hex_remaining =? 0)%Z then
    let value := if (0x61 <=? x)%Z then u8 (x - 0x61 + 10) else u8 (x - 0x30) in
    let hex_acc := u8 (u8 (hex_acc * 16) + value) in
    if (hex_remaining =? 1)%Z then (out ++ [byte.of_Z hex_acc], escaping, 0%Z, 0%Z)
    else (out, escaping, (hex_remaining - 1)%Z, hex_acc)
  else if escaping then
    if (x =? 0x74)%Z then (out ++ [byte.of_Z 9], false, hex_remaining, hex_acc)
    else if (x =? 0x6E)%Z then (out ++ [byte.of_Z 10], false, hex_remaining, hex_acc)
    else if (x =? 0x72)%Z then (out ++ [byte.of_Z 13], false, hex_remaining, hex_acc)
    else if (x =? 0x78)%Z then (out, false, 2%Z, hex_acc)
    else (out ++ [b], false, hex_remaining, hex_acc)
  else if (x =? 0x5C)%Z then (out, true, hex_remaining, hex_acc)
  else (out ++ [b], escaping, hex_remaining, hex_acc).

Definition unescape_rwkv_token (escaped : text) : bytes :=
  (foldl unescape_step ([], false, 0%Z, 0%Z) (encode_all escaped)).1.1.1.

(** ** HybridDNA *)

Definition dna_open : text := [0x3C; 0x64; 0x6E; 0x61; 0x3E]%Z.
Definition dna_close : text := [0x3C; 0x2F; 0x64; 0x6E; 0x61; 0x3E]%Z.

Definition kmer_id (dn : DnaData) (kmer : text) : nat := default (dn_oov dn) (dn_kmers dn !! kmer).

Fixpoint pad_kmer (fuel : nat) (kmer : text) : text :=
  match fuel with
  | S fuel => if byte_len kmer <? 6 then pad_kmer fuel (kmer ++ [0x41%Z]) else kmer
  | O => kmer
  end.

Fixpoint kmers_loop (fuel : nat) (dn : DnaData) (sq : bytes) : list nat :=
  match fuel, sq with
  | S fuel, _ :: _ =>
      if 6 <=? length sq
      then kmer_id dn (chars_of (from_utf8_lossy (take 6 sq))) :: kmers_loop fuel dn (drop 6 sq)
      else [kmer_id dn (pad_kmer 6 (chars_of (from_utf8_lossy sq)))]
  | _, _ => []
  end.

Definition upper_byte (b : byte) : byte :=
  if in_range 0x61 0x7A (uz b) then byte.of_Z (uz b - 32) else b.

Definition hybriddna_kmers (raw : text) (dn : DnaData) : list nat :=
  kmers_loop (length (encode_all raw)) dn (map upper_byte (encode_all raw)).

Fixpoint hybriddna_loop (fuel : nat) tk (dn : DnaData) (rest : text) : enc (list nat) :=
  match fuel, rest with
  | S fuel, _ :: _ =>
      match find_text dna_open rest with
      | None => encode_bpe tk rest
      | Some start =>
          before ← (if 0 <? start then encode_bpe tk (take start rest) else mret []);
          let content := drop (start + length dna_open) rest in
          match find_text dna_close content with
          | None => mret (before ++ [dn_begin dn] ++ hybriddna_kmers content dn)
          | Some stop =>
              after ← hybriddna_loop fuel tk dn (drop (stop + length dna_close) content);
              mret (before ++ [dn_begin dn] ++ hybriddna_kmers (take stop content) dn ++ [dn_end dn] ++ after)
          end
      end
  | _, _ => mret []
  end.

Definition hybriddna_encode tk t : enc (list nat) :=
  match dna tk with
  | None => encode_bpe tk t
  | Some dn => hybriddna_loop (length t) tk dn t
  end.

(** ** PLaMo-2 *)

Definition INVALID_SCORE : Z := -20000000.
Definition UNKNOWN_SCORE : Z := -10000000.

Definition plamo2_score_int tk (id : nat) : Z :=
  match id_to_score tk !! id with
  | Some score => if is_finite score then scaled score else INVALID_SCORE
  | None => INVALID_SCORE
  end.

(** The entries that are prefixes of [rest], longest first, in codepoints. *)
Definition candidates tk (rest : text) : list (nat * nat) :=
  let bs := encode_all rest in
  rev (map (λ p, (length (chars_of (take p.2 bs)), p.1)) (trie_matches (ug_trie (ugm tk)) 0 0 bs)).

(** [scores[i]] and [take[i]]; a later score is found [piece_len] further. *)
Abbreviation plamo_cell := (Z * (nat * option nat))%type.

Definition challenge (later : list Z) (piece_len : nat) (score : Z) (id : option nat) (best : plamo_cell) :
    plamo_cell :=
  let s := i64 (default 0%Z (later !! (piece_len - 1)) - score) in
  if (s <? best.1)%Z then (s, (piece_len, id)) else best.

Definition plamo_best tk (rest : text) (later : list Z) : plamo_cell :=
  let best := foldl (λ best p,
      let score := plamo2_score_int tk p.2 in
      if (score <=? INVALID_SCORE)%Z then best else challenge later p.1 score (Some p.2) best)
    ((2 ^ 60)%Z, (1, None)) (candidates tk rest) in
  challenge later 1 UNKNOWN_SCORE None best.

(** The cells of every position, the last one first computed. *)
Fixpoint plamo_table tk (rest : text) : list plamo_cell :=
  match rest with
  | [] => []
  | _ :: more =>
      let cells := plamo_table tk more in
      plamo_best tk rest (map fst cells ++ [0%Z]) :: cells
  end.

Fixpoint plamo_walk (fuel : nat) tk (cps : text) (cells : list plamo_cell) : list nat :=
  match fuel, cps, cells with
  | S fuel, c :: _, (_, (piece_len, id)) :: _ =>
      match id with
      | Some id => [id]
      | None => omap (λ b, spm_byte_to_id tk !! b) (encode c)
      end ++ plamo_walk fuel tk (drop piece_len cps) (drop piece_len cells)
  | _, _, _ => []
  end.

Definition BOM : Z := 0xFEFF.

Definition strip_bom t : text := match t with c :: rest => if (c =? BOM)%Z then rest else t | [] => [] end.

Definition plamo2_encode tk t : list nat :=
  let cps := strip_bom t in plamo_walk (length cps) tk cps (plamo_table tk cps).

(** ** WordPiece *)

Definition is_chinese_char (cp : Z) : bool :=
  in_range 0x4E00 0x9FFF cp || in_range 0x3400 0x4DBF cp || in_range 0x20000 0x2A6DF cp
  || in_range 0x2A700 0x2B73F cp || in_range 0x2B740 0x2B81F cp || in_range 0x2B920 0x2CEAF cp
  || in_range 0xF900 0xFAFF cp || in_range 0x2F800 0x2FA1F cp.

(** The words, the last of them apart. *)
Definition push_word (words : list text * text) : list text * text :=
  if decide (words.2 = []) then words else (words.1 ++ [words.2], []).

Definition wpm_char (opts : NormalizerOptions) (words : list text * text) (c : Z) : list text * text :=
  if is_whitespace c then push_word words else
  if (c =? 0)%Z || (c =? 0xFFFD)%Z || is_control_char c then words else
  if strip_accents opts && is_accent_mark_char c then words else
  let piece :=
    if lowercase opts then match to_lowercase c with [first] => [first] | _ => [c] end else [c] in
  if is_punctuation_char c || ((c <? 0x7F)%Z && negb (is_alphanumeric c) && negb (c =? 0x5F)%Z)
     || is_chinese_char c
  then ((push_word words).1 ++ [piece], [])
  else (words.1, words.2 ++ piece).

Definition wpm_preprocess t (opts : NormalizerOptions) : list text :=
  let decomposed := if strip_accents opts then nfd nfc_depth t else t in
  (push_word (foldl (wpm_char opts) ([], []) decomposed)).1.

(** The longest entry of at most [max + 1] bytes at the head of [rest], tried
    from [k] characters down. *)
Fixpoint wpm_match tk (k : nat) (rest : text) : option (nat * nat) :=
  match k with
  | O => None
  | S j =>
      match (if byte_len (take k rest) <=? max_token_len tk + 1 then vocab tk !! take k rest else None) with
      | Some id => Some (id, k)
      | None => wpm_match tk j rest
      end
  end.

(** The tokens of a word, none when it does not match to its end. *)
Fixpoint wpm_word (fuel : nat) tk (rest : text) (out : list nat) : list nat :=
  match fuel, rest with
  | S fuel, _ :: _ =>
      match wpm_match tk (length rest) rest with
      | Some (id, k) => wpm_word fuel tk (drop k rest) (out ++ [id])
      | None => []
      end
  | _, _ => out
  end.

Definition wpm_encode tk t : list nat :=
  wpm_preprocess t (normalizer tk) ≫= λ word,
    match word with
    | [] => []
    | _ =>
        let word1 := SPM_SPACE :: word in
        match wpm_word (length word1) tk word1 [] with [] => [unk_token tk] | ids => ids end
    end.

(** ** Unigram *)

Definition is_boundary (bs : bytes) (i : nat) : bool :=
  match bs !! i with Some b => negb (is_cont (uz b)) | None => i =? length bs end.

(** [BASE] of a packed node. *)
Definition xcda_base (packed : Z) : Z :=
  (Z.shiftl (Z.shiftr packed 10) (Z.shiftr (Z.land packed 512) 6) mod 2 ^ 32)%Z.

(** The longest replaced prefix and where its replacement is. *)
Fixpoint xcda_walk (xcda : list Z) (node : Z) (i : nat) (bs : bytes) (best : nat * nat) : nat * nat :=
  match bs with
  | [] => best
  | b :: bs =>
      let c := uz b in
      if (c =? 0)%Z then best else
      let node := Z.lxor node c in
      match xcda !! Z.to_nat node with
      | None => best
      | Some packed =>
          if negb (Z.land packed (2 ^ 31 + 255) =? c)%Z then best else
          let node := Z.lxor node (xcda_base packed) in
          xcda_walk xcda node (S i) bs
            (if Z.odd (Z.shiftr packed 8)
             then (S i, Z.to_nat (Z.land (default 0%Z (xcda !! Z.to_nat node)) (2 ^ 31 - 1)))
             else best)
      end
  end.

(** A slice of a [&str]: its ends must be boundaries of characters. *)
Definition str_slice (bs : bytes) (from len : nat) : enc bytes :=
  if is_boundary bs from && is_boundary bs (from + len) && (from + len <=? length bs)
  then Ok (take len (drop from bs)) else Panic.

Definition ugm_normalize_prefix tk (input : bytes) (offset : nat) : enc (text * nat) :=
  rest ← str_slice input offset (length input - offset);
  match longest_prefix_bytes (ug_user_defined (ugm tk)) rest with
  | Some (_, len) => kept ← str_slice input offset len; mret (chars_of kept, len)
  | None =>
      let xcda := ug_xcda (ugm tk) in
      let '(len, off) := match xcda with [] => (0, 0) | x :: _ => xcda_walk xcda (xcda_base x) 0 rest (0, 0) end in
      if 0 <? len then
        let strings := ug_prefix_replacements (ugm tk) in
        if off <=? length strings then
          let found := drop off strings in
          let stop := match list_find (λ b, uz b = 0%Z) found with Some (i, _) => i | None => length found end in
          mret (chars_of (from_utf8_lossy (take stop found)), len)
        else kept ← str_slice input offset len; mret (chars_of kept, len)
      else
        match chars_of rest with
        | c :: _ => mret ([c], length (encode c))
        | [] => mret ([], 0)
        end
  end.

(** [out], [is_space_prepended], [processing_non_ws]. *)
Definition ugm_push tk (acc : text * bool * bool) (c : Z) : text * bool * bool :=
  let '(out, prepended, non_ws) := acc in
  if negb (c =? SPACE)%Z then
    if negb non_ws then
      if (add_space_prefix tk && negb prepended) || remove_extra_whitespaces tk
      then (out ++ [SPM_SPACE; c], true, true) else (out ++ [c], prepended, true)
    else (out ++ [c], prepended, non_ws)
  else (if remove_extra_whitespaces tk then out else out ++ [SPM_SPACE], prepended, false).

Fixpoint ugm_normalize_loop (fuel : nat) tk (input : bytes) (offset : nat) (acc : text * bool * bool) : enc text :=
  match fuel with
  | O => mret acc.1.1
  | S fuel =>
      if offset <? length input then
        '(replacement, consumed) ← ugm_normalize_prefix tk input offset;
        if consumed =? 0 then mret acc.1.1 else
        ugm_normalize_loop fuel tk input (offset + consumed) (foldl (ugm_push tk) acc replacement)
      else mret acc.1.1
  end.

Definition ugm_normalize tk t : enc text :=
  let bs := encode_all t in ugm_normalize_loop (length bs) tk bs 0 ([], false, false).

Definition utf8_len (b : byte) : nat :=
  let x := uz b in
  if (x <? 0x80)%Z then 1
  else if (Z.shiftr x 5 =? 6)%Z then 2
  else if (Z.shiftr x 4 =? 14)%Z then 3
  else if (Z.shiftr x 3 =? 30)%Z then 4
  else 1.

(** [best[i]]: the token that ends at [i], where it started, the score. *)
Abbreviation ugm_cell := (nat * nat * G)%type.

Definition ugm_challenge (end_ id offset : nat) (score : G) (best : list ugm_cell) : list ugm_cell :=
  match best !! end_ with
  | Some (_, _, old) => if f64_gt score old then <[end_ := (id, offset, score)]> best else best
  | None => best
  end.

Definition ugm_score tk (id : nat) : G :=
  if decide (id_to_type tk !! id = Some 4%Z) then f64_zero else to_f64 (default f32_zero (id_to_score tk !! id)).

(** The transitions that leave [offset]. *)
Definition ugm_step tk (bs : bytes) (offset cp_len : nat) (best : list ugm_cell) : list ugm_cell :=
  let current := match best !! offset with Some (_, _, s) => s | None => f64_zero end in
  let ms := trie_matches (ug_trie (ugm tk)) 0 offset (drop offset bs) in
  let best := foldl (λ best p, ugm_challenge p.2 p.1 offset (f64_add current (ugm_score tk p.1)) best) best ms in
  if existsb (λ p, p.2 - offset =? cp_len) ms then best
  else ugm_challenge (offset + cp_len) (unk_token tk) offset
         (f64_add current (to_f64 (ug_unknown_token_score (ugm tk)))) best.

Fixpoint ugm_forward (fuel : nat) tk (bs : bytes) (offset : nat) (best : list ugm_cell) : list ugm_cell :=
  match fuel, bs !! offset with
  | S fuel, Some b =>
      let cp_len := utf8_len b `min` (length bs - offset) in
      ugm_forward fuel tk bs (offset + cp_len) (ugm_step tk bs offset cp_len best)
  | _, _ => best
  end.

(** The walk back, a run of unknowns once; in the order of the text. *)
Fixpoint ugm_back (fuel : nat) tk (best : list ugm_cell) (at_ : nat) (prev_unknown : bool) (out : list nat) : list nat :=
  match fuel with
  | O => out
  | S fuel =>
      match best !! at_ with
      | None => out
      | Some (id, prev, _) =>
          let unknown := id =? unk_token tk in
          let out := if prev_unknown && unknown then out else id :: out in
          if prev =? 0 then out else ugm_back fuel tk best prev unknown out
      end
  end.

Definition ugm_encode tk t : enc (list nat) :=
  normalized ← ugm_normalize tk t;
  let bs := encode_all normalized in
  match bs with
  | [] => mret []
  | _ =>
      let start := <[0 := (unk_token tk, 0, f64_zero)]> (replicate (S (length bs)) (unk_token tk, 0, f64_min)) in
      let best := ugm_forward (length bs) tk bs 0 start in
      mret (ugm_back (S (length bs)) tk best (length bs) false [])
  end.
End engine.
