(* ===== verification/SpmMerge.v ===== *)
(** * SentencePiece: [spm_encode] of [src/tokenizer.rs]

    The symbols of a text are a doubly linked list in a [Vec]; a heap holds the
    adjacent pairs that join to an entry, and a pair whose sides changed since
    it was pushed is recognised by its size.  The heap is a list with a choice
    of one of its greatest elements: the standard library does not say which
    of several equal ones is popped.  The second half proves that this computes
    the greedy merge. *)
From Stdlib Require Import ZArith Strings.Byte.
From stdpp Require Import base numbers list option gmap sorting.
From S2P Require Import Prelude Gguf Utf8 Utf8Facts Pretok TokenText Tokenizer.
Local Open Scope nat_scope.

Record SpmSymbol := mkSymbol { sy_text : text; sy_n : nat; sy_prev : option nat; sy_next : option nat }.

Record SpmBigram (F : Type) := mkBigram { bg_score : F; bg_left : nat; bg_right : nat; bg_size : nat }.
Arguments mkBigram {F}.
Arguments bg_score {F}.
Arguments bg_left {F}.
Arguments bg_right {F}.
Arguments bg_size {F}.

Section spm.
Context {F G : Type} `{!ScoreMath F G}.

(** [Ord for SpmBigram]: the higher score, then the smaller left index. *)
Definition bigram_cmp (a b : SpmBigram F) : comparison :=
  match default Eq (partial_cmp (bg_score a) (bg_score b)) with
  | Eq => Nat.compare (bg_left b) (bg_left a)
  | c => c
  end.

(** Which of the greatest elements of a [BinaryHeap] is popped. *)
Context (pick : list (SpmBigram F) → nat).

Definition heap_pop (queue : list (SpmBigram F)) : option (SpmBigram F * list (SpmBigram F)) :=
  b ← queue !! pick queue; Some (b, delete (pick queue) queue).

Record Session := mkSession {
  se_symbols : list SpmSymbol;
  se_rev_merge : gmap text (text * text);
  se_queue : list (SpmBigram F)
}.

(** The score of the entry two texts join to, if it may be merged. *)
Definition join_score (tk : Tokenizer F) (joined : text) : option F :=
  id ← vocab tk !! joined; id_to_score tk !! id.

Definition try_add (tk : Tokenizer F) (left right : nat) (s : Session) : enc Session :=
  l ← look (se_symbols s !! left);
  r ← look (se_symbols s !! right);
  let joined := sy_text l ++ sy_text r in
  match join_score tk joined with
  | Some score =>
      mret (mkSession (se_symbols s) (<[joined := (sy_text l, sy_text r)]> (se_rev_merge s))
              (mkBigram score left right (byte_len joined) :: se_queue s))
  | None => mret s
  end.

Definition set_symbols (syms : list SpmSymbol) (s : Session) : Session :=
  mkSession syms (se_rev_merge s) (se_queue s).

(** The right symbol is taken into the left one, and its links with it. *)
Definition absorb (left right : nat) (l r : SpmSymbol) (syms : list SpmSymbol) : list SpmSymbol :=
  let syms := <[right := mkSymbol [] 0 (sy_prev r) (sy_next r)]>
    (<[left := mkSymbol (sy_text l ++ sy_text r) (sy_n l + sy_n r) (sy_prev l) (sy_next r)]> syms) in
  match sy_next r with
  | Some nx => alter (λ x, mkSymbol (sy_text x) (sy_n x) (Some left) (sy_next x)) nx syms
  | None => syms
  end.

Definition merge_bigram (tk : Tokenizer F) (b : SpmBigram F) (s : Session) : enc Session :=
  l ← look (se_symbols s !! bg_left b);
  r ← look (se_symbols s !! bg_right b);
  if (sy_n l =? 0) || (sy_n r =? 0) || negb (sy_n l + sy_n r =? bg_size b) then mret s else
  let s := set_symbols (absorb (bg_left b) (bg_right b) l r (se_symbols s)) s in
  s ← match sy_prev l with Some p => try_add tk p (bg_left b) s | None => mret s end;
  match sy_next r with Some nx => try_add tk (bg_left b) nx s | None => mret s end.

Fixpoint merge_queue (fuel : nat) (tk : Tokenizer F) (s : Session) : enc Session :=
  match heap_pop (se_queue s) with
  | None => mret s
  | Some (b, queue) =>
      match fuel with
      | O => Err StillRunning
      | S fuel =>
          s ← merge_bigram tk b (mkSession (se_symbols s) (se_rev_merge s) queue);
          merge_queue fuel tk s
      end
  end.

Definition first_symbols (t : text) : list SpmSymbol :=
  imap (λ i c, mkSymbol [c] (length (encode c)) (match i with O => None | S j => Some j end)
                 (if S i =? length t then None else Some (S i))) t.

Fixpoint queue_pairs (tk : Tokenizer F) (is_ : list nat) (s : Session) : enc Session :=
  match is_ with
  | [] => mret s
  | i :: is_ => s ← try_add tk (i - 1) i s; queue_pairs tk is_ s
  end.

(** An entry, else the pair it was joined from, else its bytes. *)
Fixpoint resegment (fuel : nat) (tk : Tokenizer F) (rev_merge : gmap text (text * text)) (t : text) :
    enc (list nat) :=
  match vocab tk !! t with
  | Some id => mret [id]
  | None =>
      match t, rev_merge !! t, fuel with
      | [], _, _ => mret []
      | _, Some (a, b), S fuel =>
          l ← resegment fuel tk rev_merge a;
          r ← resegment fuel tk rev_merge b;
          mret (l ++ r)
      | _, Some _, O => Err StillRunning
      | _, None, _ => byte_tokens tk t
      end
  end.

Fixpoint emit_symbols (fuel : nat) (tk : Tokenizer F) (s : Session) (i : option nat) : enc (list nat) :=
  match i with
  | None => mret []
  | Some idx =>
      match fuel with
      | O => Err StillRunning
      | S fuel =>
          x ← look (se_symbols s !! idx);
          ids ← resegment (length (sy_text x)) tk (se_rev_merge s) (sy_text x);
          rest ← emit_symbols fuel tk s (sy_next x);
          mret (ids ++ rest)
      end
  end.

(** At most [n - 1] pairs are pushed at first and two for every merge. *)
Definition spm_encode (tk : Tokenizer F) (t : text) : enc (list nat) :=
  let n := length t in
  s ← queue_pairs tk (seq 1 (n - 1)) (mkSession (first_symbols t) ∅ []);
  s ← merge_queue (3 * n) tk s;
  emit_symbols (S n) tk s (Some 0).
End spm.

(** * The merge queue is the greedy merge

    [greedy] is what the queue stands for: the best adjacent pair is joined
    until none joins to an entry.  The list of symbols that are alive, with
    their indices, is what the linked list holds; a bigram of the queue is
    fresh when both its sides are alive and as long as they were, and every
    pair that may be joined has a fresh bigram. *)
Local Open Scope nat_scope.

Section reference.
Context {F G : Type} `{!ScoreMath F G} (tk : Tokenizer F).

(** The adjacent pair of the highest score, the first of them. *)
Fixpoint best_pair (i : nat) (word : list text) (best : option (F * nat)) : option (F * nat) :=
  match word with
  | a :: ((b :: _) as rest) =>
      best_pair (S i) rest
        (match join_score tk (a ++ b) with
         | Some s =>
             match best with
             | Some (s0, _) => match partial_cmp s s0 with Some Gt => Some (s, i) | _ => best end
             | None => Some (s, i)
             end
         | None => best
         end)
  | _ => best
  end.

Fixpoint greedy (fuel : nat) (word : list text) : list text :=
  match best_pair 0 word None, fuel with
  | Some (_, i), S fuel => greedy fuel (merge_at i word)
  | _, _ => word
  end.

Definition spm_reference (t : text) : list text := greedy (length t) (map (λ c, [c]) t).
End reference.

(** Scores without NaN are ordered as integers are. *)
Definition ordered_scores {F G} `{!ScoreMath F G} (key : F → Z) (scores : list F) : Prop :=
  ∀ a b, a ∈ scores → b ∈ scores → partial_cmp a b = Some (key a ?= key b)%Z.

(** What is popped is there, and nothing is greater. *)
Definition picks_greatest {F G} `{!ScoreMath F G} (pick : list (SpmBigram F) → nat) : Prop :=
  ∀ q, q ≠ [] → ∃ b, q !! pick q = Some b ∧ ∀ b', b' ∈ q → bigram_cmp b' b ≠ Gt.

Section facts.
Context {F G : Type} `{!ScoreMath F G} (pick : list (SpmBigram F) → nat) (tk : Tokenizer F) (key : F → Z).
Context (Hkey : ordered_scores key (id_to_score tk)) (Hpick : picks_greatest pick).

(** The entry two adjacent pieces join to. *)
Definition pair_score (word : list text) (k : nat) : option F :=
  a ← word !! k; b ← word !! S k; join_score tk (a ++ b).

Lemma join_score_in joined s : join_score tk joined = Some s → s ∈ id_to_score tk.
Proof. unfold join_score. destruct (vocab tk !! joined) as [id|]; [|done]. simpl. apply list_elem_of_lookup_2. Qed.

Lemma pair_score_in word k s : pair_score word k = Some s → s ∈ id_to_score tk.
Proof.
  unfold pair_score. destruct (word !! k); [|done]. simpl. destruct (word !! S k); [|done]. apply join_score_in.
Qed.

(** The pair is the best of those from [from] on, and of [best] before them. *)
Definition best_of (word : list text) (s : F) (k : nat) : Prop :=
  pair_score word k = Some s ∧
  ∀ j s', pair_score word j = Some s' → (key s' ≤ key s)%Z ∧ (j < k → (key s' < key s)%Z).

(** No pair scores above [z]. *)
Definition below (word : list text) (z : Z) : Prop := ∀ k s, pair_score word k = Some s → (key s ≤ z)%Z.

Lemma below_cons a b word z :
  (∀ s, join_score tk (a ++ b) = Some s → (key s ≤ z)%Z) → below (b :: word) z → below (a :: b :: word) z.
Proof. intros Hab Hw [|k] s Hs; [by apply Hab|by apply (Hw k)]. Qed.

Lemma best_of_first a b word s :
  join_score tk (a ++ b) = Some s → below (b :: word) (key s) → best_of (a :: b :: word) s 0.
Proof.
  intros Hab Hw. split; [done|]. intros j s' Hs'. split; [|lia]. revert j s' Hs'.
  apply below_cons; [|done]. intros s' Hs'. rewrite Hab in Hs'. injection Hs' as ->. done.
Qed.

Lemma best_of_later a b word s k :
  (∀ s1, join_score tk (a ++ b) = Some s1 → (key s1 < key s)%Z) →
  best_of (b :: word) s k → best_of (a :: b :: word) s (S k).
Proof.
  intros Hab [Hk Hall]. split; [done|]. intros [|j] s' Hs'.
  - specialize (Hab s' Hs'). lia.
  - destruct (Hall j s' Hs') as [H1 H2]. split; [done|]. intros Hj. apply H2. lia.
Qed.

(** The best pair of a list, found after [best] before it. *)
Lemma best_pair_spec word i best :
  match best with Some (s0, _) => s0 ∈ id_to_score tk | None => True end →
  match best_pair tk i word best with
  | None => best = None ∧ ∀ k, pair_score word k = None
  | Some (s, m) =>
      (best = Some (s, m) ∧ below word (key s)) ∨
      (∃ k, m = i + k ∧ best_of word s k ∧ match best with Some (s0, _) => (key s0 < key s)%Z | None => True end)
  end.
Proof.
  revert i best. induction word as [|a word IH]; intros i best Hin.
  { simpl. destruct best as [[s m]|]; [left|]; done. }
  destruct word as [|b word].
  { simpl. assert (∀ k, pair_score [a] k = None) as Hno by (by intros [|[|k]]).
    destruct best as [[s m]|]; [left; split; [done|]; intros k s'; by rewrite Hno|done]. }
  change (best_pair tk i (a :: b :: word) best) with (best_pair tk (S i) (b :: word)
    (match join_score tk (a ++ b) with
     | Some s => match best with
                 | Some (s0, _) => match partial_cmp s s0 with Some Gt => Some (s, i) | _ => best end
                 | None => Some (s, i)
                 end
     | None => best
     end)).
  destruct (join_score tk (a ++ b)) as [s1|] eqn:Hj.
  - pose proof (join_score_in _ _ Hj) as Hs1.
    assert (∀ s, (key s1 ≤ key s)%Z → ∀ s', join_score tk (a ++ b) = Some s' → (key s' ≤ key s)%Z) as Hle.
    { intros s Hs s'. rewrite Hj. by intros [= <-]. }
    assert (∀ s, (key s1 < key s)%Z → ∀ s', join_score tk (a ++ b) = Some s' → (key s' < key s)%Z) as Hlt.
    { intros s Hs s'. rewrite Hj. by intros [= <-]. }
    destruct best as [[s0 m0]|].
    + rewrite (Hkey s1 s0) by done. destruct (Z.compare_spec (key s1) (key s0)) as [He|He|He].
      1,2: specialize (IH (S i) (Some (s0, m0)) Hin); destruct (best_pair tk (S i) (b :: word) _) as [[s m]|];
        [|by destruct IH]; destruct IH as [[[= -> ->] Hb]|(k & -> & Hk & Hs)];
        [left; split; [done|]; apply below_cons; [apply Hle; lia|done]
        |right; exists (S k); split_and!; [lia|apply best_of_later; [apply Hlt; lia|done]|done]].
      specialize (IH (S i) (Some (s1, i)) Hs1). destruct (best_pair tk (S i) (b :: word) _) as [[s m]|]; [|by destruct IH].
      right. destruct IH as [[[= -> ->] Hb]|(k & -> & Hk & Hs)].
      * exists 0. split_and!; [lia|by apply best_of_first|done].
      * exists (S k). split_and!; [lia|apply best_of_later; [by apply Hlt|done]|lia].
    + specialize (IH (S i) (Some (s1, i)) Hs1). destruct (best_pair tk (S i) (b :: word) _) as [[s m]|]; [|by destruct IH].
      right. destruct IH as [[[= -> ->] Hb]|(k & -> & Hk & Hs)].
      * exists 0. split_and!; [lia|by apply best_of_first|done].
      * exists (S k). split_and!; [lia|apply best_of_later; [by apply Hlt|done]|done].
  - specialize (IH (S i) best Hin). destruct (best_pair tk (S i) (b :: word) best) as [[s m]|].
    + destruct IH as [[-> Hb]|(k & -> & Hk & Hs)].
      * left. split; [done|]. apply below_cons; [intros s'; by rewrite Hj|done].
      * right. exists (S k). split_and!; [lia|apply best_of_later; [intros s'; by rewrite Hj|done]|done].
    + destruct IH as [-> Hno]. split; [done|]. intros [|k]; [done|]. apply Hno.
Qed.

Lemma best_pair_none word : best_pair tk 0 word None = None ↔ ∀ k, pair_score word k = None.
Proof.
  pose proof (best_pair_spec word 0 None I) as H. destruct (best_pair tk 0 word None) as [[s m]|].
  - destruct H as [[? _]|(k & _ & [Hk _] & _)]; [done|]. split; [done|]. intros Hno. by rewrite Hno in Hk.
  - split; [intros _; apply H|done].
Qed.

Lemma best_pair_is word s k : best_of word s k → best_pair tk 0 word None = Some (s, k).
Proof.
  intros [Hk Hall]. pose proof (best_pair_spec word 0 None I) as H. destruct (best_pair tk 0 word None) as [[s' m]|].
  - destruct H as [[? _]|(k' & -> & [Hk' Hall'] & _)]; [done|].
    destruct (Hall _ _ Hk') as [H1 H2]. destruct (Hall' _ _ Hk) as [H3 H4].
    assert (k' = k) as ->.
    { destruct (lt_eq_lt_dec k' k) as [[Hl|Hl]|Hl]; [specialize (H2 Hl); lia|done|specialize (H4 Hl); lia]. }
    simpl. rewrite Hk in Hk'. by injection Hk' as ->.
  - destruct H as [_ Hno]. by rewrite Hno in Hk.
Qed.

(** ** The symbols that are alive *)

Abbreviation chain := (list (nat * text)).

Definition pred_of (alive : chain) (k : nat) : option nat :=
  match k with O => None | S j => fst <$> alive !! j end.
Definition succ_of (alive : chain) (k : nat) : option nat := fst <$> alive !! S k.

Record linked (syms : list SpmSymbol) (alive : chain) : Prop := {
  ln_at k i t : alive !! k = Some (i, t) →
    syms !! i = Some (mkSymbol t (byte_len t) (pred_of alive k) (succ_of alive k)) ∧ t ≠ [];
  ln_dead i x : syms !! i = Some x → (∀ t, (i, t) ∉ alive) → sy_n x = 0;
  ln_order k1 k2 i1 t1 i2 t2 : alive !! k1 = Some (i1, t1) → alive !! k2 = Some (i2, t2) → k1 < k2 → i1 < i2
}.

(** The bigrams of the queue, with a fresh one for every position in [P]. *)
Record queued (P : nat → Prop) (n : nat) (alive : chain) (queue : list (SpmBigram F)) : Prop := {
  qu_range b : b ∈ queue → bg_left b < n ∧ bg_right b < n;
  qu_fresh b ta tb : b ∈ queue → (bg_left b, ta) ∈ alive → (bg_right b, tb) ∈ alive →
    bg_size b ≤ byte_len ta + byte_len tb ∧
    (bg_size b = byte_len ta + byte_len tb → ∃ k,
      alive !! k = Some (bg_left b, ta) ∧ alive !! S k = Some (bg_right b, tb) ∧
      join_score tk (ta ++ tb) = Some (bg_score b));
  qu_cover k i ta j tb s : P k → alive !! k = Some (i, ta) → alive !! S k = Some (j, tb) →
    join_score tk (ta ++ tb) = Some s → mkBigram s i j (byte_len (ta ++ tb)) ∈ queue
}.

Lemma byte_len_app (t u : text) : byte_len (t ++ u) = byte_len t + byte_len u.
Proof. unfold byte_len. by rewrite encode_all_app, length_app. Qed.

Lemma byte_len_pos (t : text) : t ≠ [] → 0 < byte_len t.
Proof.
  destruct t as [|c t]; [done|]. intros _. unfold byte_len. rewrite encode_all_cons, length_app.
  pose proof (length_encode c). lia.
Qed.

Lemma linked_index syms alive k1 k2 i t1 t2 :
  linked syms alive → alive !! k1 = Some (i, t1) → alive !! k2 = Some (i, t2) → k1 = k2 ∧ t1 = t2.
Proof.
  intros Hl H1 H2. assert (k1 = k2) as ->.
  { destruct (lt_eq_lt_dec k1 k2) as [[Hk|Hk]|Hk]; [|done|].
    - pose proof (ln_order _ _ Hl _ _ _ _ _ _ H1 H2 Hk). lia.
    - pose proof (ln_order _ _ Hl _ _ _ _ _ _ H2 H1 Hk). lia. }
  rewrite H1 in H2. by injection H2.
Qed.

(** *** A merge *)

Definition merged (k i : nat) (t : text) (alive : chain) : chain := take k alive ++ (i, t) :: drop (k + 2) alive.

Lemma lookup_merged k i t alive m :
  S k < length alive →
  merged k i t alive !! m =
  if decide (m < k) then alive !! m else if decide (m = k) then Some (i, t) else alive !! S m.
Proof.
  intros Hk. unfold merged. repeat case_decide.
  - rewrite lookup_app_l by (rewrite length_take; lia). by rewrite lookup_take_lt.
  - subst m. rewrite lookup_app_r by (rewrite length_take; lia). rewrite length_take.
    by replace (k - k `min` length alive) with 0 by lia.
  - rewrite lookup_app_r by (rewrite length_take; lia). rewrite length_take.
    replace (m - k `min` length alive) with (S (m - S k)) by lia. simpl. rewrite lookup_drop. f_equal. lia.
Qed.

Lemma length_merged k i t alive : S k < length alive → length (merged k i t alive) = length alive - 1.
Proof. intros Hk. unfold merged. rewrite length_app, length_take. simpl. rewrite length_drop. lia. Qed.

Lemma merged_words k i a j b alive :
  alive !! k = Some (i, a) → alive !! S k = Some (j, b) →
  map snd (merged k i (a ++ b) alive) = merge_at k (map snd alive).
Proof.
  intros H1 H2. unfold merged, merge_at. rewrite map_app. cbn [map]. rewrite <-!fmap_take, <-!fmap_drop.
  rewrite (drop_S _ _ _ H1), (drop_S _ _ _ H2). simpl. by replace (k + 2) with (S (S k)) by lia.
Qed.

Lemma absorb_lookup i j l r syms x :
  i ≠ j → i < length syms → j < length syms → (∀ nx, sy_next r = Some nx → nx ≠ i ∧ nx ≠ j) →
  absorb i j l r syms !! x =
  if decide (x = j) then Some (mkSymbol [] 0 (sy_prev r) (sy_next r))
  else if decide (x = i) then Some (mkSymbol (sy_text l ++ sy_text r) (sy_n l + sy_n r) (sy_prev l) (sy_next r))
  else if decide (sy_next r = Some x)
  then (λ y, mkSymbol (sy_text y) (sy_n y) (Some i) (sy_next y)) <$> syms !! x
  else syms !! x.
Proof.
  intros Hij Hi Hj Hnx. unfold absorb.
  set (s1 := <[i := _]> syms). set (s2 := <[j := _]> s1).
  assert (∀ y, s2 !! y = if decide (y = j) then Some (mkSymbol [] 0 (sy_prev r) (sy_next r))
    else if decide (y = i) then Some (mkSymbol (sy_text l ++ sy_text r) (sy_n l + sy_n r) (sy_prev l) (sy_next r))
    else syms !! y) as Hs2.
  { intros y. unfold s2, s1. repeat case_decide; subst.
    - by rewrite list_lookup_insert_eq by (rewrite length_insert; lia).
    - rewrite list_lookup_insert_ne by done. by rewrite list_lookup_insert_eq.
    - by rewrite !list_lookup_insert_ne by done. }
  destruct (sy_next r) as [nx|] eqn:Hn.
  - destruct (Hnx nx eq_refl) as [H1 H2]. destruct (decide (x = nx)) as [->|Hx].
    + rewrite list_lookup_alter_eq, Hs2, !(decide_False (P:=nx = _)) by done. by rewrite decide_True.
    + rewrite list_lookup_alter_ne, Hs2 by done. repeat case_decide; simplify_eq; done.
  - rewrite Hs2. repeat case_decide; simplify_eq; done.
Qed.

Lemma linked_lt syms alive k i t : linked syms alive → alive !! k = Some (i, t) → i < length syms.
Proof. intros Hl Hk. apply (ln_at _ _ Hl) in Hk as [Hk _]. by apply lookup_lt_Some in Hk. Qed.

Lemma alive_elem (alive : chain) i t : (i, t) ∈ alive ↔ ∃ k, alive !! k = Some (i, t).
Proof. apply list_elem_of_lookup. Qed.

Lemma absorb_linked syms alive k i a j b l r :
  linked syms alive → alive !! k = Some (i, a) → alive !! S k = Some (j, b) →
  syms !! i = Some l → syms !! j = Some r →
  linked (absorb i j l r syms) (merged k i (a ++ b) alive).
Proof.
  intros Hl H1 H2 Hi Hj.
  pose proof (ln_at _ _ Hl _ _ _ H1) as [Hl1 Ha]. rewrite Hi in Hl1. injection Hl1 as ->.
  pose proof (ln_at _ _ Hl _ _ _ H2) as [Hr1 Hb]. rewrite Hj in Hr1. injection Hr1 as ->.
  pose proof (ln_order _ _ Hl _ _ _ _ _ _ H1 H2 ltac:(lia)) as Hij.
  pose proof (lookup_lt_Some _ _ _ H2) as Hlen.
  assert (∀ m x t, alive !! m = Some (x, t) → m ≠ k → x ≠ i) as Hni.
  { intros m x t Hm Hmk ->. by destruct (linked_index _ _ _ _ _ _ _ Hl Hm H1). }
  assert (∀ m x t, alive !! m = Some (x, t) → m ≠ S k → x ≠ j) as Hnj.
  { intros m x t Hm Hmk ->. by destruct (linked_index _ _ _ _ _ _ _ Hl Hm H2). }
  assert (∀ nx, succ_of alive (S k) = Some nx → ∃ t, alive !! S (S k) = Some (nx, t)) as Hsucc.
  { unfold succ_of. intros nx. destruct (alive !! S (S k)) as [[? t]|]; [|done]. intros [= <-]. by exists t. }
  pose proof (linked_lt _ _ _ _ _ Hl H1) as Hil. pose proof (linked_lt _ _ _ _ _ Hl H2) as Hjl.
  assert (∀ nx, succ_of alive (S k) = Some nx → nx ≠ i ∧ nx ≠ j) as Hne.
  { intros nx Hnx. destruct (Hsucc nx Hnx) as [t Ht]. split; [eapply Hni|eapply Hnj]; [done|lia|done|lia]. }
  pose proof (λ x, absorb_lookup i j (mkSymbol a (byte_len a) (pred_of alive k) (succ_of alive k))
    (mkSymbol b (byte_len b) (pred_of alive (S k)) (succ_of alive (S k))) syms x
    ltac:(lia) Hil Hjl Hne) as Hab.
  cbn [sy_text sy_n sy_prev sy_next] in Hab.
  split.
  - intros m x t Hm. rewrite lookup_merged in Hm by done. rewrite Hab.
    assert (∀ m', succ_of (merged k i (a ++ b) alive) m' =
      if decide (S m' < k) then succ_of alive m' else if decide (S m' = k) then Some i else succ_of alive (S m')) as Hsuc.
    { intros m'. unfold succ_of. rewrite lookup_merged by done. by repeat case_decide. }
    repeat case_decide; subst; simplify_eq; try (exfalso; lia).
    + exfalso. by eapply Hnj; [exact Hm|lia|].
    + exfalso. by eapply Hni; [exact Hm|lia|].
    + exfalso. destruct (Hsucc x) as [t' Ht']; [done|].
      destruct (linked_index _ _ _ _ _ _ _ Hl Hm Ht') as [? _]. lia.
    + destruct (ln_at _ _ Hl _ _ _ Hm) as [-> Ht]. split; [|done]. f_equal. f_equal.
      * destruct m as [|m]; [done|]. simpl. rewrite lookup_merged by done. by rewrite decide_True by lia.
      * rewrite Hsuc. repeat case_decide; try lia; [done|]. unfold succ_of. by replace (S m) with k by lia; rewrite H1.
    + split; [|by destruct a]. rewrite byte_len_app. f_equal. f_equal.
      * destruct k as [|k]; [done|]. simpl. rewrite lookup_merged by done. by rewrite decide_True by lia.
      * rewrite Hsuc. rewrite !decide_False by lia. done.
    + exfalso. by eapply Hnj; [exact Hm|lia|].
    + exfalso. by eapply Hni; [exact Hm|lia|].
    + destruct (Hsucc x) as [t' Ht']; [done|]. destruct (linked_index _ _ _ _ _ _ _ Hl Hm Ht') as [Hm' _].
      assert (m = S k) as -> by lia. destruct (ln_at _ _ Hl _ _ _ Hm) as [-> Ht]. split; [|done]. simpl. f_equal. f_equal.
      * rewrite lookup_merged by done. by rewrite decide_False, decide_True by lia.
      * rewrite Hsuc. by rewrite !decide_False by lia.
    + destruct (ln_at _ _ Hl _ _ _ Hm) as [-> Ht]. split; [|done]. f_equal. f_equal.
      * destruct m as [|m]; [lia|]. simpl. rewrite lookup_merged by done. rewrite decide_False by lia.
        rewrite decide_False; [done|]. intros ->. unfold succ_of in *. by rewrite Hm in *.
      * rewrite Hsuc. by rewrite !decide_False by lia.
  - intros x y. rewrite Hab. repeat case_decide; subst.
    + by intros [= <-] _.
    + intros _ Hno. exfalso. apply (Hno (a ++ b)). apply alive_elem. exists k. rewrite lookup_merged by done.
      by rewrite decide_False, decide_True by lia.
    + intros Hx Hno. exfalso. destruct (Hsucc x) as [t' Ht']; [done|]. apply (Hno t'). apply alive_elem.
      exists (S k). rewrite lookup_merged by done. by rewrite !decide_False by lia.
    + intros Hx Hno. apply (ln_dead _ _ Hl x y Hx). intros t [m Hm]%alive_elem.
      destruct (decide (m < k)).
      { apply (Hno t), alive_elem. exists m. rewrite lookup_merged by done. by rewrite decide_True. }
      destruct (decide (m = k)) as [->|]; [naive_solver|]. destruct (decide (m = S k)) as [->|]; [naive_solver|].
      apply (Hno t), alive_elem. exists (m - 1). rewrite lookup_merged by done. rewrite !decide_False by lia.
      by replace (S (m - 1)) with m by lia.
  - intros m1 m2 i1 t1 i2 t2. rewrite !lookup_merged by done. intros Hm1 Hm2 Hlt.
    repeat case_decide; simplify_eq; try lia; try (by eapply (ln_order _ _ Hl); [exact Hm1|exact Hm2|lia]).
    + eapply (ln_order _ _ Hl); [exact Hm1|exact H1|lia].
    + eapply (ln_order _ _ Hl); [exact H1|exact Hm2|lia].
Qed.


(** *** The queue *)

(** A merged text is an entry. *)
Definition rev_entries (rev_merge : gmap text (text * text)) : Prop :=
  ∀ t, is_Some (rev_merge !! t) → is_Some (vocab tk !! t).

Lemma join_score_entry joined s : join_score tk joined = Some s → is_Some (vocab tk !! joined).
Proof. unfold join_score. by destruct (vocab tk !! joined). Qed.

Lemma queued_weaken (P Q : nat → Prop) n alive q : (∀ k, Q k → P k) → queued P n alive q → queued Q n alive q.
Proof. intros HPQ [H1 H2 H3]. split; eauto. Qed.

Lemma queued_cons P n alive m i ta j tb s q :
  i < n → j < n → alive !! m = Some (i, ta) → alive !! S m = Some (j, tb) → join_score tk (ta ++ tb) = Some s →
  (∀ k t, alive !! k = Some (i, t) → k = m) → (∀ k t, alive !! k = Some (j, t) → k = S m) →
  queued P n alive q → queued (λ k, P k ∨ k = m) n alive (mkBigram s i j (byte_len (ta ++ tb)) :: q).
Proof.
  intros Hi Hj H1 H2 Hs Hui Huj [Q1 Q2 Q3]. split.
  - intros b [->|Hb]%elem_of_cons; [done|by apply Q1].
  - intros b ta' tb' [->|Hb]%elem_of_cons Ha Hb'; [|by apply Q2]. simpl in *.
    apply alive_elem in Ha as [k1 Hk1]. apply alive_elem in Hb' as [k2 Hk2].
    assert (k1 = m) as -> by by eapply Hui. assert (k2 = S m) as -> by by eapply Huj.
    rewrite H1 in Hk1. rewrite H2 in Hk2. simplify_eq. rewrite byte_len_app. split; [done|]. intros _. by exists m.
  - intros k i' ta' j' tb' s' [Hk| ->] Ha Hb Hs'; [right; by eapply Q3|].
    rewrite H1 in Ha. rewrite H2 in Hb. simplify_eq. left.
Qed.

Lemma queued_none P n alive m i ta j tb q :
  alive !! m = Some (i, ta) → alive !! S m = Some (j, tb) → join_score tk (ta ++ tb) = None →
  queued P n alive q → queued (λ k, P k ∨ k = m) n alive q.
Proof.
  intros H1 H2 Hs [Q1 Q2 Q3]. split; [done|done|]. intros k i' ta' j' tb' s' [Hk| ->] Ha Hb Hs'; [by eapply Q3|].
  rewrite H1 in Ha. rewrite H2 in Hb. simplify_eq.
Qed.

(** What holds of the session while the symbols [alive] are left. *)
Record session_ok (P : nat → Prop) (alive : chain) (s : Session) : Prop := {
  so_linked : linked (se_symbols s) alive;
  so_queued : queued P (length (se_symbols s)) alive (se_queue s);
  so_rev : rev_entries (se_rev_merge s)
}.

Lemma try_add_ok P alive m i ta j tb s :
  session_ok P alive s → alive !! m = Some (i, ta) → alive !! S m = Some (j, tb) →
  ∃ s', try_add tk i j s = Ok s' ∧ se_symbols s' = se_symbols s ∧
    session_ok (λ k, P k ∨ k = m) alive s' ∧ length (se_queue s') ≤ S (length (se_queue s)).
Proof.
  intros [Hl Hq Hr] H1 H2. unfold try_add, look.
  destruct (ln_at _ _ Hl _ _ _ H1) as [-> _]. destruct (ln_at _ _ Hl _ _ _ H2) as [-> _].
  cbn [or_panic mbind res_bind sy_text]. destruct (join_score tk (ta ++ tb)) as [sc|] eqn:Hs; eexists; (split; [reflexivity|]).
  - split; [done|]. split; [|done]. split; [done| |].
    + apply queued_cons; eauto using linked_lt; intros k t Hk.
      * by destruct (linked_index _ _ _ _ _ _ _ Hl Hk H1).
      * by destruct (linked_index _ _ _ _ _ _ _ Hl Hk H2).
    + intros t. cbn [se_rev_merge]. destruct (decide (t = ta ++ tb)) as [->|Ht].
      * intros _. by eapply join_score_entry.
      * rewrite lookup_insert_ne by done. apply Hr.
  - split; [done|]. split; [|lia]. split; [done| |done]. by eapply queued_none.
Qed.

(** Either side of a bigram, when it has bytes, is alive. *)
Lemma alive_of syms alive i x : linked syms alive → syms !! i = Some x → sy_n x ≠ 0 → ∃ t, (i, t) ∈ alive.
Proof.
  intros Hl Hx Hn. destruct (decide (Exists (λ p, p.1 = i) alive)) as [He|He].
  - apply Exists_exists in He as ([i' t] & Hin & Heq). simpl in Heq. subst i'. by exists t.
  - destruct Hn. apply (ln_dead _ _ Hl i x Hx). intros t Ht. apply He, Exists_exists. by exists (i, t).
Qed.

(** *** A turn of the queue *)

Lemma elem_of_delete_ne {A} (l : list A) p x y : l !! p = Some x → y ∈ l → y ≠ x → y ∈ delete p l.
Proof.
  intros Hp Hy Hne. rewrite (delete_Permutation l p x Hp) in Hy. by apply elem_of_cons in Hy as [?|?].
Qed.

Lemma elem_of_delete_old {A} (l : list A) p y : y ∈ delete p l → y ∈ l.
Proof.
  destruct (l !! p) as [x|] eqn:Hp.
  - intros Hy. rewrite (delete_Permutation l p x Hp). by right.
  - rewrite delete_take_drop, drop_ge, take_ge, app_nil_r; [done| |]; apply lookup_ge_None in Hp; lia.
Qed.

Lemma length_delete_lookup {A} (l : list A) p x : l !! p = Some x → length l = S (length (delete p l)).
Proof. intros Hp. apply (Permutation_length (delete_Permutation l p x Hp)). Qed.

Definition everywhere : nat → Prop := λ _, True.

(** A stale bigram is dropped. *)
Lemma stale_dropped n (alive : chain) q p b :
  queued everywhere n alive q → q !! p = Some b →
  (∀ ta tb, (bg_left b, ta) ∈ alive → (bg_right b, tb) ∈ alive → bg_size b ≠ byte_len ta + byte_len tb) →
  queued everywhere n alive (delete p q).
Proof.
  intros [Q1 Q2 Q3] Hp Hstale. split.
  - intros b' Hb'. by eapply Q1, elem_of_delete_old.
  - intros b' ta tb Hb'. by eapply Q2, elem_of_delete_old.
  - intros k i ta j tb sc _ Ha Hb Hs. eapply elem_of_delete_ne; [done|by eapply (Q3 k)|].
    intros <-. apply (Hstale ta tb); simpl; [by eapply list_elem_of_lookup_2|by eapply list_elem_of_lookup_2|].
    apply byte_len_app.
Qed.

Lemma pair_score_alive (alive : chain) k sc :
  pair_score (map snd alive) k = Some sc → ∃ i ta j tb,
    alive !! k = Some (i, ta) ∧ alive !! S k = Some (j, tb) ∧ join_score tk (ta ++ tb) = Some sc.
Proof.
  unfold pair_score. rewrite !(list_lookup_fmap snd alive).
  destruct (alive !! k) as [[i ta]|]; [|done]. destruct (alive !! S k) as [[j tb]|]; [|done]. simpl.
  intros Hs. by exists i, ta, j, tb.
Qed.

Lemma alive_pair_score (alive : chain) k i ta j tb :
  alive !! k = Some (i, ta) → alive !! S k = Some (j, tb) →
  pair_score (map snd alive) k = join_score tk (ta ++ tb).
Proof. intros H1 H2. unfold pair_score. by rewrite !(list_lookup_fmap snd alive), H1, H2. Qed.

(** A fresh greatest bigram is the best pair. *)
Lemma greatest_is_best syms alive q b k ta tb :
  linked syms alive → queued everywhere (length syms) alive q →
  (∀ b', b' ∈ q → bigram_cmp b' b ≠ Gt) →
  alive !! k = Some (bg_left b, ta) → alive !! S k = Some (bg_right b, tb) →
  join_score tk (ta ++ tb) = Some (bg_score b) →
  best_of (map snd alive) (bg_score b) k.
Proof.
  intros Hl Hq Hmax H1 H2 Hs. split; [by rewrite (alive_pair_score _ _ _ _ _ _ H1 H2)|].
  intros m sc Hsc. pose proof (pair_score_in _ _ _ Hsc) as Hin.
  apply pair_score_alive in Hsc as (i & ta' & j & tb' & H1' & H2' & Hs').
  pose proof (Hmax _ (qu_cover _ _ _ _ Hq m _ _ _ _ _ I H1' H2' Hs')) as Hcmp.
  unfold bigram_cmp in Hcmp. cbn [bg_score bg_left] in Hcmp.
  rewrite (Hkey sc (bg_score b)) in Hcmp by eauto using join_score_in. cbn [default] in Hcmp.
  destruct (Z.compare_spec (key sc) (key (bg_score b))) as [He|He|He]; [|split; [lia|intros _; lia]|done].
  apply Nat.compare_ngt_iff in Hcmp. split; [lia|]. intros Hm.
  pose proof (ln_order _ _ Hl _ _ _ _ _ _ H1' H1 Hm). lia.
Qed.

(** The bigrams that were fresh and do not touch the merged symbols still are,
    those that did are stale. *)
Lemma queued_merged syms alive q p b k ta tb :
  linked syms alive → queued everywhere (length syms) alive q → q !! p = Some b →
  alive !! k = Some (bg_left b, ta) → alive !! S k = Some (bg_right b, tb) → tb ≠ [] →
  queued (λ m, S m ≠ k ∧ m ≠ k) (length syms) (merged k (bg_left b) (ta ++ tb) alive) (delete p q).
Proof.
  intros Hl [Q1 Q2 Q3] Hp H1 H2 Htb. pose proof (lookup_lt_Some _ _ _ H2) as Hlen.
  pose proof (byte_len_pos tb Htb) as Hpos.
  assert (∀ m x t, merged k (bg_left b) (ta ++ tb) alive !! m = Some (x, t) →
    (m = k ∧ x = bg_left b ∧ t = ta ++ tb) ∨
    (x ≠ bg_left b ∧ ∃ m', alive !! m' = Some (x, t) ∧ m' ≠ k ∧ m' ≠ S k ∧ m = if decide (m' < k) then m' else m' - 1))
    as Hat.
  { intros m x t Hm. rewrite lookup_merged in Hm by done. repeat case_decide; subst; simplify_eq; [right|left|right].
    - split; [intros ->; destruct (linked_index _ _ _ _ _ _ _ Hl Hm H1); lia|].
      exists m. rewrite decide_True by done. split_and!; [done|lia|lia|done].
    - done.
    - split; [intros ->; destruct (linked_index _ _ _ _ _ _ _ Hl Hm H1); lia|].
      exists (S m). rewrite decide_False by lia. split_and!; [done|lia|lia|lia]. }
  split.
  - intros b' Hb'. by eapply Q1, elem_of_delete_old.
  - intros b' ta' tb' Hb' [m1 Ha]%alive_elem [m2 Hb]%alive_elem. apply elem_of_delete_old in Hb'.
    assert (∀ m t, alive !! m = Some (bg_left b, t) → t = ta) as Hleft.
    { intros m t Hm. by destruct (linked_index _ _ _ _ _ _ _ Hl Hm H1). }
    destruct (Hat _ _ _ Ha) as [(-> & Ex & ->)|(Hx & m1' & Ha' & ? & ? & Em1)];
      destruct (Hat _ _ _ Hb) as [(-> & Ey & ->)|(Hy & m2' & Hb2 & ? & ? & Em2)].
    + destruct (Q2 b' ta ta Hb') as [Hsz _]; [rewrite Ex|rewrite Ey|];
        [by eapply list_elem_of_lookup_2..|]. rewrite !byte_len_app. split; [lia|]. intros ?. lia.
    + destruct (Q2 b' ta tb' Hb') as [Hsz _]; [rewrite Ex; by eapply list_elem_of_lookup_2|by eapply list_elem_of_lookup_2|].
      rewrite byte_len_app. split; [lia|]. intros ?. lia.
    + destruct (Q2 b' ta' ta Hb') as [Hsz _]; [by eapply list_elem_of_lookup_2|rewrite Ey; by eapply list_elem_of_lookup_2|].
      rewrite byte_len_app. split; [lia|]. intros ?. lia.
    + destruct (Q2 b' ta' tb' Hb') as [Hsz Hfr]; [by eapply list_elem_of_lookup_2..|]. split; [done|].
      intros Heq. destruct (Hfr Heq) as (m & Hma & Hmb & Hs).
      destruct (linked_index _ _ _ _ _ _ _ Hl Hma Ha') as [-> _].
      destruct (linked_index _ _ _ _ _ _ _ Hl Hmb Hb2) as [<- _].
      exists m1. rewrite Ha. split; [done|]. split; [|done]. rewrite <-Hb. f_equal. subst m1 m2.
      repeat case_decide; lia.
  - intros m i ta' j tb' sc [Hm1 Hm2] Ha Hb Hs.
    assert (∃ m', alive !! m' = Some (i, ta') ∧ alive !! S m' = Some (j, tb') ∧ i ≠ bg_left b) as (m' & Ha' & Hb' & Hi).
    { destruct (Hat _ _ _ Ha) as [(? & _)|(Hx & m' & Ha' & ? & ? & Em)]; [done|].
      destruct (Hat _ _ _ Hb) as [(? & _)|(Hy & m2' & Hb' & ? & ? & Em2)]; [done|].
      exists m'. split_and!; [done| |done]. rewrite <-Hb'. f_equal. repeat case_decide; lia. }
    eapply elem_of_delete_ne; [done|by eapply (Q3 m')|]. intros <-. by apply Hi.
Qed.

Lemma length_absorb i j l r syms : length (absorb i j l r syms) = length syms.
Proof.
  unfold absorb. destruct (sy_next r); [|by rewrite !length_insert].
  by rewrite length_alter, !length_insert.
Qed.

(** The pair left of the joined symbol is queued, if there is one. *)
Lemma add_left_ok P alive k i t s :
  session_ok P alive s → alive !! k = Some (i, t) →
  ∃ s', match pred_of alive k with Some p => try_add tk p i s | None => mret s end = Ok s' ∧
    session_ok (λ m, P m ∨ S m = k) alive s' ∧ length (se_queue s') ≤ S (length (se_queue s)).
Proof.
  intros Hs Hk. destruct k as [|k]; simpl.
  - exists s. split_and!; [done| |lia]. destruct Hs as [? Hq ?]. split; [done| |done].
    apply (queued_weaken P); [|done]. intros m [?|?]; [done|lia].
  - destruct (lookup_lt_is_Some_2 alive k) as [[p tp] Hp]; [apply lookup_lt_Some in Hk; lia|].
    rewrite Hp. simpl. destruct (try_add_ok _ _ _ _ _ _ _ _ Hs Hp Hk) as (s' & Hs' & _ & [? Hq ?] & Hlen).
    exists s'. split_and!; [done| |done]. split; [done| |done].
    apply (queued_weaken (λ m, P m ∨ m = k)); [|done]. intros m [?|?]; [by left|right; lia].
Qed.

(** The pair right of it too. *)
Lemma add_right_ok P alive k i t s :
  session_ok P alive s → alive !! k = Some (i, t) →
  ∃ s', match succ_of alive k with Some nx => try_add tk i nx s | None => mret s end = Ok s' ∧
    session_ok (λ m, P m ∨ m = k) alive s' ∧ length (se_queue s') ≤ S (length (se_queue s)).
Proof.
  intros Hs Hk. unfold succ_of. destruct (alive !! S k) as [[nx tn]|] eqn:Hn; simpl.
  - destruct (try_add_ok _ _ _ _ _ _ _ _ Hs Hk Hn) as (s' & Hs' & _ & Hok & Hlen). by exists s'.
  - exists s. split_and!; [done| |lia]. destruct Hs as [? [Q1 Q2 Q3] ?]. split; [done| |done]. split; [done|done|].
    intros m x ta y tb sc [?|Hm]; [by apply Q3|]. subst m. intros _ Hb. by rewrite Hn in Hb.
Qed.

(** A greatest bigram is joined when fresh, as [greedy] joins, and dropped when
    stale. *)
Lemma merge_bigram_ok alive s p b :
  session_ok everywhere alive s → se_queue s !! p = Some b → (∀ b', b' ∈ se_queue s → bigram_cmp b' b ≠ Gt) →
  ∃ s' alive', merge_bigram tk b (mkSession (se_symbols s) (se_rev_merge s) (delete p (se_queue s))) = Ok s' ∧
    session_ok everywhere alive' s' ∧ fst <$> head alive' = fst <$> head alive ∧
    length (se_queue s') + 2 * length alive' < length (se_queue s) + 2 * length alive ∧
    (alive' = alive ∨ length alive = S (length alive') ∧ ∃ sc k,
      best_pair tk 0 (map snd alive) None = Some (sc, k) ∧ map snd alive' = merge_at k (map snd alive)).
Proof.
  intros [Hl Hq Hr] Hp Hmax. pose proof (list_elem_of_lookup_2 _ _ _ Hp) as Hb.
  pose proof (length_delete_lookup _ _ _ Hp) as Hlen.
  destruct (qu_range _ _ _ _ Hq _ Hb) as [[l Hi]%lookup_lt_is_Some_2 [r Hj]%lookup_lt_is_Some_2].
  unfold merge_bigram, look. cbn [se_symbols se_rev_merge]. rewrite Hi, Hj. cbn [or_panic mbind res_bind].
  destruct ((sy_n l =? 0) || (sy_n r =? 0) || negb (sy_n l + sy_n r =? bg_size b)) eqn:Hc.
  - eexists _, alive. split; [reflexivity|]. split; [|split; [done|split; [cbn [se_queue]; lia|by left]]].
    split; [done| |done]. cbn [se_queue se_symbols]. eapply stale_dropped; [done|done|].
    intros ta tb [k1 H1]%alive_elem [k2 H2]%alive_elem Heq.
    destruct (ln_at _ _ Hl _ _ _ H1) as [Hi' Ha]. destruct (ln_at _ _ Hl _ _ _ H2) as [Hj' Hb'].
    rewrite Hi in Hi'. rewrite Hj in Hj'. simplify_eq. cbn [sy_n] in Hc.
    apply byte_len_pos in Ha, Hb'. apply orb_true_iff in Hc as [[?%Nat.eqb_eq|?%Nat.eqb_eq]%orb_true_iff|Hc]; [lia|lia|].
    by rewrite Heq, Nat.eqb_refl in Hc.
  - apply orb_false_iff in Hc as [[Hn1%Nat.eqb_neq Hn2%Nat.eqb_neq]%orb_false_iff Hsz%negb_false_iff%Nat.eqb_eq].
    destruct (alive_of _ _ _ _ Hl Hi Hn1) as [ta Hta]. destruct (alive_of _ _ _ _ Hl Hj Hn2) as [tb Htb].
    destruct (qu_fresh _ _ _ _ Hq _ _ _ Hb Hta Htb) as [_ Hfr].
    assert (bg_size b = byte_len ta + byte_len tb) as Heq.
    { apply alive_elem in Hta as [k1 H1]. apply alive_elem in Htb as [k2 H2].
      destruct (ln_at _ _ Hl _ _ _ H1) as [Hi' _]. destruct (ln_at _ _ Hl _ _ _ H2) as [Hj' _].
      rewrite Hi in Hi'. rewrite Hj in Hj'. simplify_eq. simpl in Hsz. lia. }
    destruct (Hfr Heq) as (k & H1 & H2 & Hs). clear Hfr Hta Htb.
    pose proof (lookup_lt_Some _ _ _ H2) as Hk.
    pose proof (absorb_linked _ _ _ _ _ _ _ _ _ Hl H1 H2 Hi Hj) as Hl'.
    destruct (ln_at _ _ Hl _ _ _ H1) as [Hi' _]. destruct (ln_at _ _ Hl _ _ _ H2) as [Hj' Htb].
    rewrite Hi in Hi'. rewrite Hj in Hj'.
    set (alive' := merged k (bg_left b) (ta ++ tb) alive) in *.
    set (syms := absorb (bg_left b) (bg_right b) l r (se_symbols s)) in *.
    set (s0 := set_symbols syms _).
    assert (session_ok (λ m, S m ≠ k ∧ m ≠ k) alive' s0) as Hs0.
    { split; [done| |done]. cbn [se_symbols s0 set_symbols se_queue]. unfold syms. rewrite length_absorb.
      by eapply queued_merged. }
    assert (alive' !! k = Some (bg_left b, ta ++ tb)) as Hat.
    { unfold alive'. rewrite lookup_merged by done. by rewrite decide_False, decide_True by lia. }
    assert (sy_prev l = pred_of alive' k) as ->.
    { rewrite Hi' in *. simplify_eq. cbn [sy_prev]. destruct k as [|k]; [done|]. simpl. unfold alive'.
      rewrite lookup_merged by done. by rewrite decide_True by lia. }
    assert (sy_next r = succ_of alive' k) as ->.
    { rewrite Hj' in *. simplify_eq. cbn [sy_next]. unfold succ_of, alive'.
      rewrite lookup_merged by done. by rewrite !decide_False by lia. }
    destruct (add_left_ok _ _ _ _ _ _ Hs0 Hat) as (s1 & -> & Hs1 & Hlen1). cbn [mbind res_bind].
    destruct (add_right_ok _ _ _ _ _ _ Hs1 Hat) as (s2 & -> & Hs2 & Hlen2).
    exists s2, alive'. split; [done|]. split; [|split; [|split]].
    + destruct Hs2 as [? Hq2 ?]. split; [done| |done]. eapply queued_weaken; [|exact Hq2].
      intros m _. cbn beta. destruct (decide (S m = k)); [by left; right|]. destruct (decide (m = k)); [by right|].
      by left; left.
    + rewrite !head_lookup. unfold alive'. rewrite lookup_merged by done. repeat case_decide; try done; try lia.
      subst k. by rewrite H1.
    + cbn [s0 set_symbols se_queue] in *. unfold alive' in *. rewrite length_merged by done. lia.
    + right. split; [unfold alive'; rewrite length_merged by done; lia|]. exists (bg_score b), k. split.
      * apply best_pair_is. by eapply greatest_is_best.
      * by eapply merged_words.
Qed.

(** ** The whole queue *)

Lemma greedy_step fuel word sc k :
  best_pair tk 0 word None = Some (sc, k) → greedy tk (S fuel) word = greedy tk fuel (merge_at k word).
Proof. intros Hb. cbn [greedy]. by rewrite Hb. Qed.

Lemma greedy_stop fuel word : best_pair tk 0 word None = None → greedy tk fuel word = word.
Proof. intros Hb. destruct fuel; simpl; by rewrite Hb. Qed.

Lemma empty_queue_stops alive n :
  queued everywhere n alive [] → best_pair tk 0 (map snd alive) None = None.
Proof.
  intros [_ _ Q3]. apply best_pair_none. intros k. destruct (pair_score (map snd alive) k) as [sc|] eqn:Hs; [|done].
  apply pair_score_alive in Hs as (i & ta & j & tb & H1 & H2 & Hs).
  by apply (Q3 k _ _ _ _ _ I H1 H2), elem_of_nil in Hs.
Qed.

Lemma merge_queue_ok fuel s alive g :
  session_ok everywhere alive s → length (se_queue s) + 2 * length alive ≤ fuel → length alive ≤ g →
  ∃ s' alive', merge_queue pick fuel tk s = Ok s' ∧ session_ok everywhere alive' s' ∧
    fst <$> head alive' = fst <$> head alive ∧ length alive' ≤ length alive ∧
    map snd alive' = greedy tk g (map snd alive).
Proof.
  revert s alive g. induction fuel as [|fuel IH]; intros s alive g Hs Hfuel Hg.
  - assert (alive = []) as -> by (destruct alive; [done|simpl in Hfuel; lia]).
    assert (se_queue s = []) as Hq by (destruct (se_queue s); [done|simpl in Hfuel; lia]).
    exists s, []. cbn [merge_queue]. unfold heap_pop. rewrite Hq, lookup_nil. split_and!; [done|done|done|done|].
    by rewrite greedy_stop.
  - destruct (decide (se_queue s = [])) as [Hq|Hq].
    + exists s, alive. cbn [merge_queue]. unfold heap_pop. rewrite Hq, lookup_nil. split_and!; [done|done|done|done|].
      rewrite greedy_stop; [done|]. eapply empty_queue_stops. rewrite <-Hq. apply Hs.
    + destruct (Hpick _ Hq) as (b & Hb & Hmax).
      destruct (merge_bigram_ok _ _ _ _ Hs Hb Hmax) as (s1 & alive1 & Hm & Hs1 & Hhd & Hlen & Hgr).
      cbn [merge_queue]. unfold heap_pop. rewrite Hb. cbn [mbind option_bind]. rewrite Hm. cbn [mbind res_bind].
      destruct Hgr as [->|(Hl & sc & k & Hbest & Hwords)].
      * apply IH; [done|lia|done].
      * destruct g as [|g]; [lia|]. destruct (IH s1 alive1 g Hs1) as (s' & alive' & Hrun & Hok & Hhd' & Hle & Hres); [lia|lia|].
        exists s', alive'. split_and!; [done|done|by rewrite Hhd', Hhd|lia|].
        by rewrite (greedy_step _ _ _ _ Hbest), <-Hwords.
Qed.

(** *** The start *)

Definition first_alive (t : text) : chain := imap (λ i c, (i, [c])) t.

Lemma first_linked t : linked (first_symbols t) (first_alive t).
Proof.
  unfold first_symbols, first_alive. split.
  - intros k i u Hk. rewrite list_lookup_imap in Hk. destruct (t !! k) as [c|] eqn:Hc; [|done]. simplify_eq/=.
    split; [|done]. rewrite list_lookup_imap, Hc. cbn [fmap option_fmap option_map]. unfold byte_len. rewrite encode_all_cons, app_nil_r.
    f_equal. f_equal.
    + destruct i as [|i]; [done|]. simpl. rewrite list_lookup_imap.
      destruct (lookup_lt_is_Some_2 t i) as [c' ->]; [apply lookup_lt_Some in Hc; lia|]. done.
    + unfold succ_of. rewrite list_lookup_imap.
      change (match length t with 0 => false | S m => i =? m end) with (S i =? length t).
      destruct (t !! S i) as [c'|] eqn:Hn.
      * apply lookup_lt_Some in Hn. case (Nat.eqb_spec (S i) (length t)); [lia|done].
      * apply lookup_ge_None in Hn. apply lookup_lt_Some in Hc. case (Nat.eqb_spec (S i) (length t)); [done|lia].
  - intros i x Hx Hno. exfalso. rewrite list_lookup_imap in Hx. destruct (t !! i) as [c|] eqn:Hc; [|done].
    apply (Hno [c]), alive_elem. exists i. by rewrite list_lookup_imap, Hc.
  - intros k1 k2 i1 t1 i2 t2 H1 H2 Hlt. rewrite list_lookup_imap in H1, H2.
    destruct (t !! k1); [|done]. destruct (t !! k2); [|done]. by simplify_eq/=.
Qed.

Lemma first_alive_words t : map snd (first_alive t) = map (λ c, [c]) t.
Proof.
  apply list_eq. intros k. rewrite !(list_lookup_fmap (A:=_)). unfold first_alive. rewrite list_lookup_imap.
  by destruct (t !! k).
Qed.

Lemma queue_pairs_ok t (P : nat → Prop) from len s :
  from + len = length t - 1 → session_ok (λ k, k < from) (first_alive t) s →
  ∃ s', queue_pairs tk (seq (S from) len) s = Ok s' ∧ session_ok (λ k, k < from + len) (first_alive t) s' ∧
    length (se_queue s') ≤ length (se_queue s) + len.
Proof.
  revert from s. induction len as [|len IH]; intros from s Hlen Hs.
  - exists s. rewrite Nat.add_0_r in *. split_and!; [done|done|lia].
  - destruct (lookup_lt_is_Some_2 t from) as [c Hc]; [lia|].
    destruct (lookup_lt_is_Some_2 t (S from)) as [d Hd]; [lia|].
    assert (∀ k c, t !! k = Some c → first_alive t !! k = Some (k, [c])) as Hat.
    { intros k c' Hk. unfold first_alive. by rewrite list_lookup_imap, Hk. }
    destruct (try_add_ok _ _ _ _ _ _ _ _ Hs (Hat _ _ Hc) (Hat _ _ Hd)) as (s1 & Hadd & _ & Hs1 & Hl1).
    cbn [seq queue_pairs]. replace (S from - 1) with from by lia. rewrite Hadd. cbn [mbind res_bind].
    destruct (IH (S from) s1) as (s2 & Hrun & Hs2 & Hl2); [lia| |].
    + destruct Hs1 as [? Hq ?]. split; [done| |done]. eapply queued_weaken; [|exact Hq]. intros k Hk. cbn beta. lia.
    + exists s2. split; [done|]. rewrite Nat.add_succ_comm in Hs2. split; [done|lia].
Qed.

(** *** The pieces' tokens *)

Definition piece_tokens (piece : text) : enc (list nat) :=
  match vocab tk !! piece with Some id => mret [id] | None => byte_tokens tk piece end.

(** What was joined is an entry, so nothing is taken apart again. *)
Lemma resegment_piece fuel rev_merge t :
  rev_entries rev_merge → resegment fuel tk rev_merge t = piece_tokens t.
Proof.
  intros Hr. unfold piece_tokens.
  assert (vocab tk !! t = None → rev_merge !! t = None) as Hn.
  { intros Hv. destruct (rev_merge !! t) eqn:E; [|done]. destruct (Hr t) as [? ?]; [by eexists|congruence]. }
  destruct fuel; cbn [resegment]; destruct (vocab tk !! t); try done;
    destruct t as [|c t]; try done; by rewrite Hn.
Qed.

Lemma emit_symbols_ok fuel s alive k :
  linked (se_symbols s) alive → rev_entries (se_rev_merge s) → length alive < k + fuel →
  emit_symbols fuel tk s (fst <$> alive !! k) = concat_map piece_tokens (map snd (drop k alive)).
Proof.
  intros Hl Hr. revert k. induction fuel as [|fuel IH]; intros k Hk.
  - rewrite lookup_ge_None_2, drop_ge by lia. done.
  - destruct (alive !! k) as [[i t]|] eqn:E.
    + destruct (ln_at _ _ Hl _ _ _ E) as [Hi _]. cbn [emit_symbols fmap option_fmap option_map fst].
      unfold look. rewrite Hi. cbn [or_panic mbind res_bind sy_text sy_next]. rewrite resegment_piece by done.
      unfold succ_of. rewrite IH by lia. by rewrite (drop_S _ _ _ E).
    + rewrite drop_ge by (by apply lookup_ge_None). done.
Qed.

Lemma spm_encode_greedy t :
  t ≠ [] → spm_encode pick tk t = concat_map piece_tokens (spm_reference tk t).
Proof.
  intros Ht. unfold spm_encode.
  assert (length (first_alive t) = length t) as Hlen by (unfold first_alive; by rewrite length_imap).
  destruct (queue_pairs_ok t everywhere 0 (length t - 1) (mkSession (first_symbols t) ∅ []))
    as (s1 & -> & Hs1 & Hl1); [done| |].
  { split; [apply first_linked| |intros u [? Hu]; cbn [se_rev_merge] in Hu; by rewrite lookup_empty in Hu]. split; [|intros b ta tb Hb; by apply elem_of_nil in Hb|intros; lia].
    by intros b Hb%elem_of_nil. }
  cbn [mbind res_bind se_queue length] in *.
  assert (session_ok everywhere (first_alive t) s1) as Hs1'.
  { destruct Hs1 as [? [Q1 Q2 Q3] ?]. split; [done| |done]. split; [done|done|].
    intros k i ta j tb sc _ Ha Hb. eapply (Q3 k); [|done|done]. apply lookup_lt_Some in Hb. lia. }
  destruct (merge_queue_ok (3 * length t) s1 (first_alive t) (length t) Hs1') as (s2 & alive & -> & Hs2 & Hhd & Hle & Hw);
    [lia|lia|]. cbn [mbind res_bind].
  assert (fst <$> alive !! 0 = Some 0) as H0'.
  { rewrite <-head_lookup, Hhd. by destruct t. }
  rewrite <-H0', (emit_symbols_ok _ _ alive) by (try apply Hs2; lia).
  rewrite drop_0, Hw, first_alive_words. done.
Qed.

End facts.
