(* ===== verification/Encode.v ===== *)
(** * Text to tokens and back: [encode] and [decode_bytes] of [src/tokenizer.rs]

    The special tokens a file declares are cut out first, at the earliest
    position and the longest of them; what is between goes to the engine the
    file selects.  Also the token sequences a sequence breaker overlaps. *)
From Stdlib Require Import ZArith Strings.Byte.
From coqutil Require Import Byte.
From stdpp Require Import base numbers list option gmap.
From S2P Require Import Prelude Gguf Utf8 Pretok Nfc TokenText Tokenizer SpmMerge.
From S2P Require Grammar.
Local Open Scope nat_scope.
#[local] Existing Instance Grammar.byte_countable.

Definition MAX_BREAKER_CHARS : nat := 40.
Definition MAX_BREAKER_TAIL_TOKENS : nat := 20.

Inductive TokenizeError :=
| NoVocabulary
| EmptyBreaker
| BreakerTooLong (n_chars : nat)
| SplitsCharacter
| TailTooLong (n_tokens id : nat)
| OverlapsNothing.

(** A byte token's spelling, [<0xXX>]. *)
Definition hex_digit (c : Z) : option Z :=
  if in_range 0x30 0x39 c then Some (c - 0x30)%Z
  else if in_range 0x41 0x46 c then Some (c - 0x37)%Z
  else if in_range 0x61 0x66 c then Some (c - 0x57)%Z else None.

(** [strip_prefix], [strip_suffix], then [u8::from_str_radix], which takes a
    sign before one digit. *)
Definition parse_spm_byte_token (token : text) : option byte :=
  match token with
  | a :: b :: c :: x :: y :: z :: [] =>
      if bool_decide ([a; b; c] = [0x3C; 0x30; 0x78]%Z) && (z =? 0x3E)%Z
         && (x <? 0x80)%Z && (y <? 0x80)%Z then
        lo ← hex_digit y;
        if (x =? 0x2B)%Z then Some (byte.of_Z lo) else
        hi ← hex_digit x; Some (byte.of_Z (16 * hi + lo))
      else None
  | _ => None
  end.

Section encode.
Context {F G : Type}.
Context `{!ScoreMath F G, !UnicodeClasses, !CharClasses, !NfcTables}.
Context (nfc_depth : nat) (pick : list (SpmBigram F) → nat).

Implicit Types (tk : Tokenizer F) (t : text).

(** ** To tokens *)

Definition escape_spaces (t : text) : text := map (λ c, if (c =? SPACE)%Z then SPM_SPACE else c) t.

Definition encode_text tk t (prev_special : bool) : enc (list nat) :=
  match t with
  | [] => mret []
  | _ =>
      match model tk with
      | NoVocab => mret []
      | Gpt2 | Whitespace => encode_bpe tk t
      | HybridDna => hybriddna_encode tk t
      | Bert => mret (wpm_encode nfc_depth tk t)
      | Ugm => ugm_encode tk t
      | Gemma4 => gemma4_encode tk t
      | Rwkv => mret (rwkv_encode tk t)
      | Plamo2 => mret (plamo2_encode tk t)
      | Spm =>
          spm_encode pick tk
            ((if add_space_prefix tk && prev_special then [SPM_SPACE] else []) ++ escape_spaces t)
      end
  end.

Definition applies_nfc tk : bool := match pre tk with Some rule => applies_nfc_rule rule | None => false end.

Definition normalized tk t : text := if applies_nfc tk then nfc nfc_depth t else t.

(** The loop over the special tokens of [remaining]. *)
Fixpoint encode_loop (fuel : nat) tk (remaining : text) (prev_special : bool) : enc (list nat) :=
  match special_scan (special_by_first tk) 0 remaining with
  | Some (pos, id, len) =>
      match fuel with
      | O => Err StillRunning
      | S fuel =>
          before ← (if 0 <? pos then encode_text tk (take pos remaining) prev_special else mret []);
          rest ← encode_loop fuel tk (drop (pos + len) remaining) true;
          mret (before ++ [id] ++ rest)
      end
  | None => encode_text tk remaining prev_special
  end.

Definition encode_within (fuel : nat) tk t : enc (list nat) := encode_loop fuel tk (normalized tk t) true.

(** A special token takes at least a character, if it has any. *)
Definition encode_tokens tk t : enc (list nat) := encode_within (length (normalized tk t)) tk t.

Definition encode_raw tk t : enc (list nat) := encode_text tk (normalized tk t) true.

Definition encode_checked tk t : enc (res TokenizeError (list nat)) :=
  if decide (model tk = NoVocab) then mret (Err NoVocabulary) else Ok <$> encode_tokens tk t.

(** ** To bytes *)

(** A character of a token whose [▁] is a space. *)
Definition unspaced (c : Z) : bytes := if (c =? SPM_SPACE)%Z then [x20] else encode c.

Definition type_of tk (id : nat) : Z := default 1%Z (id_to_type tk !! id).

Definition bert_piece tk (id : nat) (token : text) : bytes :=
  let ty := type_of tk id in
  if (ty =? 2)%Z || (ty =? 3)%Z || (ty =? 4)%Z then encode_all token else token ≫= unspaced.

Definition spm_piece tk (id : nat) (token : text) : bytes :=
  match (if (type_of tk id =? 6)%Z then parse_spm_byte_token token else None) with
  | Some b => [b]
  | None => token ≫= unspaced
  end.

(** A character of the byte-level alphabet is its byte, another itself. *)
Definition unicode_byte tk (c : Z) : bytes :=
  match unicode_to_byte tk !! c with Some b => [b] | None => encode c end.

Definition decode_bytes tk (ids : list nat) : bytes :=
  ids ≫= λ id,
    match id_to_token tk !! id with
    | None => []
    | Some token =>
        match model tk with
        | Bert => bert_piece tk id token
        | Rwkv => unescape_rwkv_token token
        | Spm | Ugm | Gemma4 | Plamo2 => spm_piece tk id token
        | _ => token ≫= unicode_byte tk
        end
    end.

Definition decode_checked tk (ids : list nat) : res TokenizeError bytes :=
  if decide (model tk = NoVocab) then Err NoVocabulary else Ok (decode_bytes tk ids).

Definition vocab_size tk : nat := length (id_to_token tk).

Definition bos_text tk : text := default [] (id_to_token tk !! bos_token tk).

(** ** Sequence breakers *)

Fixpoint occurs_in (needle word : bytes) : bool :=
  bool_decide (take (length needle) word = needle) ||
  match word with [] => false | _ :: word => occurs_in needle word end.

Fixpoint common_run (needle word : bytes) : nat :=
  match needle, word with
  | a :: needle, b :: word => if decide (a = b) then S (common_run needle word) else O
  | _, _ => O
  end.

Definition push_new_seq (sq : list nat) (out : list (list nat)) : list (list nat) :=
  if decide (sq ∈ out) then out else out ++ [sq].

Definition brk (A : Type) : Type := enc (res TokenizeError A).

Definition brk_bind {A B} (m : brk A) (f : A → brk B) : brk B :=
  match m with
  | Ok (Ok a) => f a
  | Ok (Err e) => Ok (Err e)
  | Err x => Err x
  | Ok Panic | Panic => Panic
  end.

(** A match of the breaker that starts in the token [id], at a byte of its
    text, and leaves at its end. *)
Definition overlap_from tk (needle : bytes) (id : nat) (from_here : bytes) (out : list (list nat)) :
    brk (list (list nat)) :=
  let i := common_run needle from_here in
  if negb (i =? length needle) && negb (i =? length from_here) then Ok (Ok out) else
  let tail := drop i needle in
  if negb (bool_decide (from_utf8_lossy tail = tail)) then Ok (Err SplitsCharacter) else
  tail_ids ← encode_raw tk (chars_of tail);
  if MAX_BREAKER_TAIL_TOKENS <? length tail_ids then Ok (Err (TailTooLong (length tail_ids) id)) else
  Ok (Ok (push_new_seq (id :: tail_ids) out)).

(** Every byte of the token's text at which the breaker may start. *)
Fixpoint overlaps tk (needle : bytes) (id : nat) (word : bytes) (out : list (list nat)) : brk (list (list nat)) :=
  match word with
  | [] => Ok (Ok out)
  | b :: more =>
      if decide (head needle = Some b)
      then brk_bind (overlap_from tk needle id word out) (overlaps tk needle id more)
      else overlaps tk needle id more out
  end.

Definition overlap_token tk (needle : bytes) (id : nat) (out : list (list nat)) : brk (list (list nat)) :=
  let word := decode_bytes tk [id] in
  match word with
  | [] => Ok (Ok out)
  | _ => if occurs_in needle word then Ok (Ok (out ++ [[id]])) else overlaps tk needle id word out
  end.

Fixpoint overlap_tokens tk (needle : bytes) (ids : list nat) (out : list (list nat)) : brk (list (list nat)) :=
  match ids with
  | [] => Ok (Ok out)
  | id :: ids => brk_bind (overlap_token tk needle id out) (overlap_tokens tk needle ids)
  end.

Definition overlapping_token_sequences tk (breaker : text) : brk (list (list nat)) :=
  match breaker with
  | [] => Ok (Err EmptyBreaker)
  | _ =>
      if MAX_BREAKER_CHARS <? length breaker then Ok (Err (BreakerTooLong (length breaker))) else
      brk_bind (overlap_tokens tk (encode_all breaker) (seq 0 (vocab_size tk)) []) (λ out,
        match out with [] => Ok (Err OverlapsNothing) | _ => Ok (Ok out) end)
  end.

Fixpoint resolve_loop tk (breakers : list text) (out : list (list nat)) : brk (list (list nat)) :=
  match breakers with
  | [] => Ok (Ok out)
  | b :: breakers =>
      brk_bind (overlapping_token_sequences tk b) (λ seqs,
        resolve_loop tk breakers (foldl (λ out sq, push_new_seq sq out) out seqs))
  end.

Definition resolve_sequence_breakers tk (breakers : list text) : brk (list (list nat)) :=
  resolve_loop tk breakers [].
End encode.
