(* ===== verification/TokenizerLoad.v ===== *)
(** * Loading a tokenizer: [Tokenizer::load] of [src/tokenizer.rs]

    The vocabulary, scores, types, merges and roles are read from the metadata
    of a GGUF file; the engine the file names then checks its own
    prerequisites, and a file it cannot reproduce is refused. *)
From Stdlib Require Import ZArith Strings.Byte String.
From coqutil Require Import Byte LittleEndianList.
From stdpp Require Import base numbers list option gmap.
From S2P Require Import Prelude Gguf Utf8 Pretok TokenText VocabTrie Tokenizer Encode.
From S2P Require Grammar.
Local Open Scope nat_scope.
#[local] Existing Instance Grammar.byte_countable.

Inductive LoadError :=
| PreUnsupported (value : bytes)
| PreMissing
| ModelUnsupported (value : bytes)
| ModelMissing
| NoMerges
| NotByteComplete (n : nat) (first : byte)
| NoScores
| MissingByteTokens (n : nat) (first : byte)
| UnknownTokenMissing
| UnknownTokenRange (id n : nat)
| Uncovered (n : nat) (first : byte)
| ScoreCount (n_scores n_tokens : nat)
| CharsmapShort
| CharsmapTruncated (blob n : nat).

Abbreviation load_res := (res LoadError).

(** ** The values the file names *)

(** [PreTokenizer::from_gguf]. *)
Definition pre_of (value : bytes) : option PreTokenizer :=
  let is_ s := bool_decide (value = bstr s) in
  if existsb is_ ["qwen2"; "deepseek-r1-qwen"]%string then Some Qwen2
  else if is_ "qwen35"%string then Some Qwen35
  else if existsb is_ ["llama-bpe"; "llama3"; "llama-v3"; "falcon3"; "falcon-h1"; "pixtral"; "midm-2.0";
                       "jina-v5-nano"]%string then Some LlamaBpe
  else if existsb is_ ["smaug-bpe"; "dbrx"]%string then Some SmaugDbrx
  else if is_ "lfm2"%string then Some Lfm2
  else if is_ "whitespace"%string then Some WhitespaceRule
  else if existsb is_ ["jina-v1-en"; "mpt"; "olmo"; "jais"; "trillion"; "granite-docling"]%string then Some JinaV1En
  else if is_ "gemma4"%string then Some Gemma4Rule
  else None.

Definition pre_from_gguf (value : option bytes) : load_res PreTokenizer :=
  match value with
  | None => Err PreMissing
  | Some v => ok_or (pre_of v) (PreUnsupported v)
  end.

(** [TokenizerModel::from_gguf]. *)
Definition model_of (value : bytes) : option TokenizerModel :=
  let is_ s := bool_decide (value = bstr s) in
  if is_ "gpt2"%string then Some Gpt2
  else if existsb is_ ["none"; "no_vocab"]%string then Some NoVocab
  else if is_ "whitespace"%string then Some Whitespace
  else if is_ "llama"%string then Some Spm
  else if is_ "bert"%string then Some Bert
  else if is_ "gemma4"%string then Some Gemma4
  else if is_ "rwkv"%string then Some Rwkv
  else if is_ "plamo2"%string then Some Plamo2
  else if is_ "hybriddna"%string then Some HybridDna
  else if is_ "t5"%string then Some Ugm
  else None.

Definition model_from_gguf (value : option bytes) : load_res TokenizerModel :=
  match value with
  | None => Err ModelMissing
  | Some v => ok_or (model_of v) (ModelUnsupported v)
  end.

(** ** Metadata *)

Definition ggml_key (name : string) : bytes := bstr (append "tokenizer.ggml." name).

Definition SPECIAL_ROLE_KEYS : list bytes := map ggml_key
  ["bos_token_id"; "eos_token_id"; "eot_token_id"; "eom_token_id"; "unknown_token_id"; "seperator_token_id";
   "padding_token_id"; "mask_token_id"; "fim_pre_token_id"; "fim_suf_token_id"; "fim_mid_token_id";
   "fim_pad_token_id"; "fim_rep_token_id"; "fim_sep_token_id"; "prefix_token_id"; "suffix_token_id";
   "middle_token_id"]%string.

Definition get_val_str (kv : GgufKv) (i : nat) : option bytes :=
  if decide (kv_type kv = GgufType.String) then kv_data_string kv !! i else None.
Definition get_val_i32 (kv : GgufKv) (i : nat) : option Z := signed 32 <$> get_val_num GgufType.Int32 kv i.

Definition is_key (key : bytes) (kv : GgufKv) : bool := bool_decide (kv_key kv = key).

Definition get_gguf_str (kvs : list GgufKv) (key : bytes) : load_res (option bytes) :=
  match List.find (λ kv, is_key key kv && bool_decide (kv_type kv = GgufType.String)) kvs with
  | Some kv => Some <$> or_panic (get_val_str kv 0)
  | None => mret None
  end.

Definition get_gguf_bytes (kvs : list GgufKv) (key : bytes) : load_res (option bytes) :=
  match List.find (λ kv, is_key key kv && kv_is_array kv
                         && bool_decide (kv_type kv = GgufType.Int8 ∨ kv_type kv = GgufType.Uint8)) kvs with
  | Some kv => ne ← or_panic (get_ne kv); Some <$> or_panic (mapM (λ i, kv_data kv !! i) (seq 0 ne))
  | None => mret None
  end.

Definition get_gguf_bool (kvs : list GgufKv) (key : bytes) : load_res (option bool) :=
  match List.find (λ kv, is_key key kv && bool_decide (kv_type kv = GgufType.Bool) && negb (kv_is_array kv)) kvs with
  | Some kv => Some <$> or_panic (get_val_bool kv 0)
  | None => mret None
  end.

(** [as u32]. *)
Definition u32 (x : Z) : nat := Z.to_nat (x mod 2 ^ 32).

Fixpoint get_gguf_u32 (kvs : list GgufKv) (key : bytes) : load_res (option nat) :=
  match kvs with
  | [] => mret None
  | kv :: kvs =>
      if is_key key kv then
        match kv_type kv with
        | GgufType.Uint32 => v ← or_panic (get_val_u32 kv 0); mret (Some (Z.to_nat v))
        | GgufType.Int32 => v ← or_panic (get_val_i32 kv 0); mret (Some (u32 v))
        | GgufType.Int64 => v ← or_panic (get_val_num GgufType.Int64 kv 0); mret (Some (u32 (signed 64 v)))
        | GgufType.Uint64 => v ← or_panic (get_val_num GgufType.Uint64 kv 0); mret (Some (u32 v))
        | _ => get_gguf_u32 kvs key
        end
      else get_gguf_u32 kvs key
  end.

(** The elements of every array of the name, one array after the other. *)
Fixpoint load_arrays {A} (kvs : list GgufKv) (key : bytes) (get : GgufKv → nat → option A) : load_res (list A) :=
  match kvs with
  | [] => mret []
  | kv :: kvs =>
      here ← (if is_key key kv && kv_is_array kv
              then ne ← or_panic (get_ne kv); or_panic (mapM (get kv) (seq 0 ne)) else mret []);
      rest ← load_arrays kvs key get;
      mret (here ++ rest)
  end.

(** [s.find(' ')], then both sides of it. *)
Definition split_pair (s : text) : option (text * text) :=
  p ← list_find (λ c, c = SPACE) s; Some (take p.1 s, drop (S p.1) s).

(** The rank of a merge is its place in its array. *)
Fixpoint load_merges (kvs : list GgufKv) (acc : gmap (text * text) nat) : load_res (gmap (text * text) nat) :=
  match kvs with
  | [] => mret acc
  | kv :: kvs =>
      acc ← (if is_key (ggml_key "merges") kv && kv_is_array kv then
               ne ← or_panic (get_ne kv);
               strs ← or_panic (mapM (get_val_str kv) (seq 0 ne));
               mret (foldl (λ acc p, match split_pair p.2 with Some sides => <[sides := p.1]> acc | None => acc end)
                       acc (imap (λ i s, (i, chars_of s)) strs))
             else mret acc);
      load_merges kvs acc
  end.

(** ** The vocabulary *)

(** [enumerate]. *)
Definition numbered (tokens : list text) : list (nat * text) := imap (λ i t, (i, t)) tokens.

(** The last entry of a text is the one it is looked up to. *)
Definition vocab_of (tokens : list text) : gmap text nat :=
  foldl (λ m p, <[p.2 := p.1]> m) ∅ (numbered tokens).

Definition type_at (types : list Z) (id : nat) : Z := default 1%Z (types !! id).

Definition is_special_type (ty : Z) : bool := (ty =? 2)%Z || (ty =? 3)%Z || (ty =? 4)%Z.

Definition declared_special (tokens : list text) (types : list Z) : gmap text nat :=
  foldl (λ m p, if is_special_type (type_at types p.1) then <[p.2 := p.1]> m else m) ∅ (numbered tokens).

(** The text of every declared role's id, when it has one. *)
Fixpoint add_roles (kvs : list GgufKv) (tokens : list text) (keys : list bytes) (m : gmap text nat) :
    load_res (gmap text nat) :=
  match keys with
  | [] => mret m
  | key :: keys =>
      id ← get_gguf_u32 kvs key;
      add_roles kvs tokens keys
        match id with
        | Some id => match tokens !! id with Some (c :: t) => <[c :: t := id]> m | _ => m end
        | None => m
        end
  end.

(** The bytes with no token of their own. *)
Definition missing_bytes (vocab : gmap text nat) : bytes :=
  List.filter (λ b, bool_decide (vocab !! [byte_char b] = None)) all_bytes.

(** A missing byte that occurs in an entry and starts none. *)
Definition reachable_bytes (tokens : list text) (missing : bytes) : bytes :=
  let raws := map encode_all tokens in
  List.filter (λ b, existsb (λ raw, bool_decide (b ∈ raw)) raws
                    && negb (existsb (λ raw, bool_decide (head raw = Some b)) raws)) missing.

(** [<0xXX>] entries of the type BYTE. *)
Definition byte_entries (tokens : list text) (types : list Z) : gmap byte nat :=
  foldl (λ m p, if (type_at types p.1 =? 6)%Z
                then match parse_spm_byte_token p.2 with Some b => <[b := p.1]> m | None => m end
                else m) ∅ (numbered tokens).

Definition missing_entries (m : gmap byte nat) : bytes :=
  List.filter (λ b, bool_decide (m !! b = None)) all_bytes.

(** ** The engines *)

Section load.
Context {F G : Type} `{!ScoreMath F G}.

Definition ugm_default : UgmData F := mkUgm [] [] f32_zero [] [].

(** The locals of [load] an engine sets. *)
Record Engine := mkEngine {
  en_tokens : list text;
  en_scores : list F;
  en_types : list Z;
  en_pre : option PreTokenizer;
  en_add_space_prefix : bool;
  en_spm_byte_to_id : gmap byte nat;
  en_dna : option DnaData;
  en_ignore_merges : bool;
  en_normalizer : NormalizerOptions;
  en_max_token_len : nat;
  en_unk_token : nat;
  en_ugm : UgmData F;
  en_remove_extra_whitespaces : bool
}.

(** Their values before the engine is known. *)
Definition fresh_engine (tokens : list text) (scores : list F) (types : list Z) : Engine :=
  mkEngine tokens scores types None false ∅ None false (mkNormalizer true true) 0 0 ugm_default false.

Section one_file.
Context (kvs : list GgufKv) (tokens : list text) (scores : list F) (types : list Z).
Context (vocab : gmap text nat) (merges : gmap (text * text) nat).

Definition require (b : bool) (e : LoadError) : load_res unit := if b then mret tt else Err e.

Definition load_none : load_res Engine :=
  n ← get_gguf_u32 kvs (ggml_key "vocab_size");
  let n := default 0 n in
  mret (fresh_engine (replicate n []) (replicate n f32_zero) (replicate n 0%Z)).

(** [strip_suffix(DNA_KMER_MARKER)]. *)
Definition strip_marker (t : text) : option text :=
  if decide (last t = head DNA_KMER_MARKER) then Some (take (length t - 1) t) else None.

Definition dna_of (tokens : list text) : option DnaData :=
  begin_ ← vocab !! dna_open;
  end_ ← vocab !! dna_close;
  oov ← vocab !! [0x3C; 0x6F; 0x6F; 0x76; 0x3E]%Z;
  Some (mkDna begin_ end_ oov
    (foldl (λ m p, match strip_marker p.2 with Some bare => <[bare := p.1]> m | None => m end) ∅ (numbered tokens))).

Definition load_bpe (hybrid : bool) : load_res Engine :=
  value ← get_gguf_str kvs (ggml_key "pre");
  pre ← pre_from_gguf value;
  _ ← require (negb (bool_decide (merges = ∅))) NoMerges;
  match reachable_bytes tokens (missing_bytes vocab) with
  | first :: more => Err (NotByteComplete (S (length more)) first)
  | [] =>
      let dna := if hybrid then dna_of tokens else None in
      let tokens := match dna with Some _ => map (λ t, default t (strip_marker t)) tokens | None => tokens end in
      mret (mkEngine tokens scores types (Some pre) false ∅ dna (ignores_merges pre) (mkNormalizer true true)
              0 0 ugm_default false)
  end.

Definition all_zero : bool := forallb (λ s, f32_eqb s f32_zero) scores.

Definition complete_bytes (m : gmap byte nat) : load_res unit :=
  match missing_entries m with
  | first :: more => Err (MissingByteTokens (S (length more)) first)
  | [] => mret tt
  end.

Definition load_spm : load_res Engine :=
  _ ← require (negb all_zero) NoScores;
  let byte_to_id := byte_entries tokens types in
  _ ← complete_bytes byte_to_id;
  prefix ← get_gguf_bool kvs (ggml_key "add_space_prefix");
  mret (mkEngine tokens scores types None (default true prefix) byte_to_id None false (mkNormalizer true true)
          0 0 ugm_default false).

Definition trie_engine (byte_to_id : gmap byte nat) (unk : nat) (trie : VocabTrie) : Engine :=
  mkEngine tokens scores types None false byte_to_id None false (mkNormalizer true true) 0 unk
    (mkUgm trie [] f32_zero [] []) false.

(** An unknown role that names no entry is refused. *)
Definition in_vocabulary (id : nat) : load_res nat :=
  if length tokens <=? id then Err (UnknownTokenRange id (length tokens)) else mret id.

Definition rwkv_trie : VocabTrie :=
  foldl (λ trie p, insert_bytes (unescape_rwkv_token p.2) p.1 trie) [] (numbered tokens).

Definition load_rwkv : load_res Engine :=
  role ← get_gguf_u32 kvs (ggml_key "unknown_token_id");
  unk ← match role, List.filter (λ b, negb (starts_with_byte rwkv_trie b)) all_bytes with
        | Some id, _ => in_vocabulary id
        | None, [] => mret 0
        | None, first :: more => Err (Uncovered (S (length more)) first)
        end;
  mret (trie_engine ∅ unk rwkv_trie).

(** The entries that are not bytes. *)
Definition plamo_trie : VocabTrie :=
  foldl (λ trie p, if (type_at types p.1 =? 6)%Z then trie else insert_bytes (encode_all p.2) p.1 trie) []
    (numbered tokens).

Definition load_plamo2 : load_res Engine :=
  _ ← require ((length scores =? length tokens) && negb (length scores =? 0))
        (ScoreCount (length scores) (length tokens));
  let byte_to_id := byte_entries tokens types in
  _ ← complete_bytes byte_to_id;
  mret (trie_engine byte_to_id 0 plamo_trie).

Definition load_gemma4 : load_res Engine :=
  _ ← require (negb (bool_decide (merges = ∅))) NoMerges;
  let byte_to_id := byte_entries tokens types in
  _ ← complete_bytes byte_to_id;
  mret (mkEngine tokens scores types (Some Gemma4Rule) false byte_to_id None false (mkNormalizer true true)
          0 0 ugm_default false).

(** [unknown_token_id], which both engines with an unknown token need. *)
Definition unknown_role : load_res nat :=
  role ← get_gguf_u32 kvs (ggml_key "unknown_token_id");
  id ← ok_or role UnknownTokenMissing;
  in_vocabulary id.

Definition ugm_trie_of (keep : Z → bool) : VocabTrie :=
  foldl (λ trie p, if keep (type_at types p.1) then insert_bytes (encode_all p.2) p.1 trie else trie) []
    (numbered tokens).

Definition min_score : F :=
  let m := foldl (λ m p, if (type_at types p.1 =? 1)%Z then f32_min m (default f32_zero (scores !! p.1)) else m)
             f32_max (numbered tokens) in
  if f32_eqb m f32_max then f32_zero else m.

(** [chunks_exact(4)] as little-endian words. *)
Fixpoint words (fuel : nat) (bs : bytes) : list Z :=
  match fuel, bs with
  | S fuel, a :: b :: c :: d :: bs => le_combine [a; b; c; d] :: words fuel bs
  | _, _ => []
  end.

(** The header, the table of words and the replacements. *)
Definition parse_charsmap (bs : bytes) : load_res (list Z * bytes) :=
  if length bs <? 4 then Err CharsmapShort else
  let blob := Z.to_nat (le_combine (take 4 bs)) in
  if (length bs <? 4 + blob) || negb (blob mod 4 =? 0) then Err (CharsmapTruncated blob (length bs)) else
  mret (words blob (take blob (drop 4 bs)), drop (4 + blob) bs).

Definition load_ugm : load_res Engine :=
  _ ← require (negb all_zero) NoScores;
  unk ← unknown_role;
  charsmap ← get_gguf_bytes kvs (ggml_key "precompiled_charsmap");
  '(xcda, replacements) ← match charsmap with Some bs => parse_charsmap bs | None => mret ([], []) end;
  prefix ← get_gguf_bool kvs (ggml_key "add_space_prefix");
  remove ← get_gguf_bool kvs (ggml_key "remove_extra_whitespaces");
  mret (mkEngine tokens scores types None (default false prefix) ∅ None false (mkNormalizer true true) 0 unk
          (mkUgm (ugm_trie_of (λ ty, (ty =? 1) || (ty =? 4) || (ty =? 5))%Z) (ugm_trie_of (λ ty, (ty =? 4)%Z))
             (f32_minus_ten min_score) xcda replacements)
          (default false remove)).

Definition load_bert : load_res Engine :=
  lower ← get_gguf_bool kvs (ggml_key "normalizer.lowercase");
  let lower := default true lower in
  strip ← get_gguf_bool kvs (ggml_key "normalizer.strip_accents");
  unk ← unknown_role;
  mret (mkEngine tokens scores types None false ∅ None false (mkNormalizer lower (default lower strip))
          (max_list (map byte_len tokens)) unk ugm_default false).

Definition load_engine (model : TokenizerModel) : load_res Engine :=
  match model with
  | NoVocab => load_none
  | Gpt2 | Whitespace => load_bpe false
  | HybridDna => load_bpe true
  | Spm => load_spm
  | Rwkv => load_rwkv
  | Plamo2 => load_plamo2
  | Gemma4 => load_gemma4
  | Ugm => load_ugm
  | Bert => load_bert
  end.
End one_file.

Definition load (g : GgufContext) : load_res (Tokenizer F) :=
  let kvs := cx_kv g in
  tokens ← load_arrays kvs (ggml_key "tokens") get_val_str;
  scores ← load_arrays kvs (ggml_key "scores") (get_val_num GgufType.Float32);
  types ← load_arrays kvs (ggml_key "token_type") get_val_i32;
  let tokens := map chars_of tokens in
  let scores := match scores with [] => replicate (length tokens) f32_zero | _ => map f32_of_bits scores end in
  let types := match types with [] => replicate (length tokens) 1%Z | _ => types end in
  let vocab := vocab_of tokens in
  merges ← load_merges kvs ∅;
  special ← add_roles kvs tokens SPECIAL_ROLE_KEYS (declared_special tokens types);
  bos ← get_gguf_u32 kvs (ggml_key "bos_token_id");
  eos ← get_gguf_u32 kvs (ggml_key "eos_token_id");
  value ← get_gguf_str kvs (ggml_key "model");
  model ← model_from_gguf value;
  e ← load_engine kvs tokens scores types vocab merges model;
  mret (mkTokenizer (en_tokens e) (en_scores e) (en_types e) vocab merges build_byte_to_unicode
          build_unicode_to_byte special model (en_pre e) (en_add_space_prefix e) (en_spm_byte_to_id e)
          (en_normalizer e) (en_max_token_len e) (en_unk_token e) (en_ugm e) (en_ignore_merges e) (en_dna e)
          (en_remove_extra_whitespaces e) (special_index special) (default 0 bos) (default 0 eos)).
End load.
