(* ===== verification/TokenizerFacts.v ===== *)
(** * What the engines' theorems share

    Concatenations of encoded pieces and their bytes; the merge loop keeps the
    text; special tokens found are declared; what [load] leaves in a tokenizer. *)
From Stdlib Require Import ZArith Strings.Byte String.
From coqutil Require Import Byte.
From stdpp Require Import base numbers list option gmap.
From S2P Require Import Prelude Gguf Utf8 Utf8Facts Pretok Nfc VocabTrie TokenText Tokenizer SpmMerge Encode TokenizerLoad.
From S2P Require Grammar.
Local Open Scope nat_scope.
#[local] Existing Instance Grammar.byte_countable.

(** ** Folds of insertions *)

Lemma foldl_lookup_inv `{Countable K} {V A} (step : gmap K V → A → gmap K V) (R : A → K → V → Prop) l m0 k v :
  (∀ m a k v, a ∈ l → step m a !! k = Some v → m !! k = Some v ∨ R a k v) →
  foldl step m0 l !! k = Some v → m0 !! k = Some v ∨ ∃ a, a ∈ l ∧ R a k v.
Proof.
  revert m0. induction l as [|a l IH]; intros m0 Hstep; simpl; [by left|].
  intros Hf. destruct (IH (step m0 a)) as [Hm|(b & Hb & HR)]; [|done| |].
  - intros m b k' v' Hb. apply Hstep. by right.
  - apply Hstep in Hm as [?|?]; [by left| |left]. right. exists a. split; [left|done].
  - right. exists b. split; [by right|done].
Qed.

Lemma numbered_elem tokens id t : (id, t) ∈ numbered tokens ↔ tokens !! id = Some t.
Proof.
  unfold numbered. rewrite list_elem_of_lookup. split.
  - intros [i Hi]. rewrite list_lookup_imap in Hi. destruct (tokens !! i) eqn:E; by simplify_eq/=.
  - intros Hi. exists id. by rewrite list_lookup_imap, Hi.
Qed.

Lemma vocab_of_entry tokens t id : vocab_of tokens !! t = Some id → tokens !! id = Some t.
Proof.
  intros Hv. apply (foldl_lookup_inv _ (λ a k v, v = a.1 ∧ k = a.2)) in Hv as [Hv|([i u] & Hin & -> & ->)].
  - by rewrite lookup_empty in Hv.
  - by apply numbered_elem.
  - intros m [i u] k v _ Hm. simpl in *. destruct (decide (k = u)) as [->|Hk].
    + rewrite lookup_insert_eq in Hm. injection Hm as <-. by right.
    + rewrite lookup_insert_ne in Hm by done. by left.
Qed.

Lemma byte_entries_entry tokens types b id :
  byte_entries tokens types !! b = Some id →
  ∃ t, tokens !! id = Some t ∧ type_at types id = 6%Z ∧ parse_spm_byte_token t = Some b.
Proof.
  intros Hv. apply (foldl_lookup_inv _ (λ a k v, v = a.1 ∧ type_at types a.1 = 6%Z ∧ parse_spm_byte_token a.2 = Some k))
    in Hv as [Hv|([i u] & Hin & -> & Hty & Hp)].
  - by rewrite lookup_empty in Hv.
  - exists u. split; [by apply numbered_elem|done].
  - intros m [i u] k v _ Hm. cbn [fst snd] in *. destruct (Z.eqb_spec (type_at types i) 6) as [Hty|]; [|by left].
    destruct (parse_spm_byte_token u) as [b'|] eqn:Hp; [|by left]. destruct (decide (k = b')) as [->|Hk].
    + rewrite lookup_insert_eq in Hm. injection Hm as <-. by right.
    + rewrite lookup_insert_ne in Hm by done. by left.
Qed.

Lemma declared_special_entry tokens types t id :
  declared_special tokens types !! t = Some id → tokens !! id = Some t.
Proof.
  intros Hv. apply (foldl_lookup_inv _ (λ a k v, v = a.1 ∧ k = a.2)) in Hv as [Hv|([i u] & Hin & -> & ->)].
  - by rewrite lookup_empty in Hv.
  - by apply numbered_elem.
  - intros m [i u] k v _ Hm. cbn [fst snd] in *. destruct (is_special_type _); [|by left].
    destruct (decide (k = u)) as [->|Hk].
    + rewrite lookup_insert_eq in Hm. injection Hm as <-. by right.
    + rewrite lookup_insert_ne in Hm by done. by left.
Qed.

Lemma add_roles_entry kvs tokens keys m m' :
  (∀ t id, m !! t = Some id → tokens !! id = Some t) → add_roles kvs tokens keys m = Ok m' →
  ∀ t id, m' !! t = Some id → tokens !! id = Some t.
Proof.
  revert m. induction keys as [|key keys IH]; intros m Hm; cbn [add_roles]; [by intros [= <-]|].
  intros (id & Hid & Hr)%res_bind_ok. revert Hr. apply IH. intros t i. destruct id as [id|]; [|apply Hm].
  destruct (tokens !! id) as [[|c u]|] eqn:Ht; [apply Hm| |apply Hm]. destruct (decide (t = c :: u)) as [->|Hne].
  - rewrite lookup_insert_eq. by intros [= <-].
  - rewrite lookup_insert_ne by done. apply Hm.
Qed.

Lemma missing_none_vocab (vocab : gmap text nat) b :
  missing_bytes vocab = [] → is_Some (vocab !! [byte_char b]).
Proof.
  intros Hm. destruct (vocab !! [byte_char b]) as [id|] eqn:Hv; [by exists id|]. exfalso.
  assert (b ∈ missing_bytes vocab) as Hin.
  { apply list_elem_of_In, filter_In. split; [apply list_elem_of_In, all_bytes_elem|]. by apply bool_decide_eq_true. }
  rewrite Hm in Hin. by apply elem_of_nil in Hin.
Qed.

Lemma missing_none_entry m b : missing_entries m = [] → ∃ id, m !! b = Some id.
Proof.
  intros Hm. destruct (m !! b) as [id|] eqn:Hv; [by exists id|]. exfalso.
  assert (b ∈ missing_entries m) as Hin.
  { apply list_elem_of_In, filter_In. split; [apply list_elem_of_In, all_bytes_elem|]. by apply bool_decide_eq_true. }
  rewrite Hm in Hin. by apply elem_of_nil in Hin.
Qed.

(** ** Encoded pieces and their bytes *)

Section decode.
Context {F : Type} (tk : Tokenizer F).

Lemma decode_app ids1 ids2 : decode_bytes tk (ids1 ++ ids2) = decode_bytes tk ids1 ++ decode_bytes tk ids2.
Proof. unfold decode_bytes. apply bind_app. Qed.

(** The encoding is there and decodes to [out]. *)
Definition encodes (m : enc (list nat)) (out : bytes) : Prop := ∃ ids, m = Ok ids ∧ decode_bytes tk ids = out.

Lemma encodes_ret ids : encodes (mret ids) (decode_bytes tk ids).
Proof. by exists ids. Qed.

Lemma encodes_bind m1 m2 out1 out2 :
  encodes m1 out1 → encodes m2 out2 → encodes (ids ← m1; rest ← m2; mret (ids ++ rest)) (out1 ++ out2).
Proof.
  intros (ids1 & -> & <-) (ids2 & -> & <-). exists (ids1 ++ ids2). split; [done|]. apply decode_app.
Qed.

Lemma concat_map_encodes {A} (f : A → enc (list nat)) (g : A → bytes) l :
  (∀ x, x ∈ l → encodes (f x) (g x)) → encodes (concat_map f l) (l ≫= g).
Proof.
  induction l as [|x l IH]; intros Hf; [by exists []|]. simpl.
  apply encodes_bind; [apply Hf; left|]. apply IH. intros y Hy. apply Hf. by right.
Qed.
End decode.

Lemma bind_concat {A B} (f : A → list B) (ls : list (list A)) : (ls ≫= λ l, l ≫= f) = concat ls ≫= f.
Proof. induction ls as [|l ls IH]; [done|]. rewrite bind_cons. cbn [concat]. by rewrite bind_app, IH. Qed.

Lemma encode_all_bind t : encode_all t = t ≫= encode.
Proof. induction t as [|c t IH]; [done|]. by rewrite encode_all_cons, bind_cons, IH. Qed.

Lemma encode_all_concat ts : encode_all (concat ts) = ts ≫= encode_all.
Proof. induction ts as [|t ts IH]; [done|]. rewrite bind_cons. cbn [concat]. by rewrite encode_all_app, IH. Qed.

(** ** The merge loop keeps the text *)

Lemma merge_at_concat k word : concat (merge_at k word) = concat word.
Proof.
  unfold merge_at. transitivity (concat (take k word ++ drop k word)); [|by rewrite take_drop].
  rewrite !concat_app. f_equal. destruct (drop k word) as [|a [|b rest]]; [done|done|]. simpl. by rewrite (assoc_L (++)).
Qed.

Lemma merge_loop_concat ranks fuel word : concat (merge_loop ranks fuel word) = concat word.
Proof.
  revert word. induction fuel as [|fuel IH]; intros word; simpl.
  - by destruct (best_merge ranks 0 word None) as [[? ?]|].
  - destruct (best_merge ranks 0 word None) as [[? k]|]; [|done]. by rewrite IH, merge_at_concat.
Qed.

Lemma concat_singles (t : text) : concat (map (λ c, [c]) t) = t.
Proof. induction t as [|c t IH]; [done|]. simpl. by rewrite IH. Qed.

Lemma merge_word_concat ranks t : concat (merge_word ranks t) = t.
Proof. unfold merge_word. by rewrite merge_loop_concat, concat_singles. Qed.

(** ** Special tokens *)

Lemma special_index_entry special c group p :
  special_index special !! c = Some group → p ∈ group → special !! p.1 = Some p.2 ∧ c = default 0%Z (head p.1).
Proof.
  unfold special_index. rewrite lookup_fmap. intros (g & Hg & ->)%fmap_Some_1 Hp%elem_of_sort_by.
  assert (∀ l (m0 : gmap Z (list (text * nat))) c g, foldl (λ index p, partial_alter (λ g, Some (default [] g ++ [p])) (default 0%Z (head p.1)) index) m0 l
      !! c = Some g → ∀ p : text * nat, p ∈ g →
    (∃ g0, m0 !! c = Some g0 ∧ p ∈ g0) ∨ p ∈ l ∧ c = default 0%Z (head p.1)) as Hall.
  { clear. intros l. induction l as [|q l IH]; intros m0 c g Hg p Hp; cbn [foldl] in Hg; [left; by exists g|].
    destruct (IH _ _ _ Hg _ Hp) as [(g0 & Hg0 & Hp0)|[Hin Hc]]; [|right; split; [by right|done]].
    destruct (decide (c = default 0%Z (head q.1))) as [Hc|Hc].
    - rewrite <-Hc, lookup_partial_alter in Hg0. rewrite decide_True in Hg0 by done. injection Hg0 as <-.
      apply elem_of_app in Hp0 as [Hp0|Hq%list_elem_of_singleton].
      + left. destruct (m0 !! c) as [g1|]; [by exists g1|by apply elem_of_nil in Hp0].
      + subst q. right. split; [left|done].
    - rewrite lookup_partial_alter_ne in Hg0 by done. left. by exists g0. }
  destruct (Hall _ _ _ _ Hg _ Hp) as [(g0 & Hg0 & _)|[Hin Hc]]; [by rewrite lookup_empty in Hg0|].
  split; [|done]. destruct p as [t id]. by apply elem_of_map_to_list.
Qed.

Lemma special_here_entry special rest id len :
  special_here (special_index special) rest = Some (id, len) →
  ∃ t, special !! t = Some id ∧ len = length t ∧ rest = t ++ drop len rest ∧ rest ≠ [].
Proof.
  unfold special_here. destruct rest as [|c rest]; [done|]. cbn [head mbind option_bind].
  destruct (special_index special !! c) as [group|] eqn:Hg; [|done]. cbn [mbind option_bind].
  destruct (list_find _ group) as [[i p]|] eqn:Hf; [|done]. cbn [mbind option_bind]. intros [= <- <-].
  apply list_find_Some in Hf as (Hi & Hs & _). exists p.1. cbn [snd fst] in *.
  split; [by eapply special_index_entry, list_elem_of_lookup_2|]. split; [done|]. split; [|done].
  apply text_starts_with in Hs as [more Hm]. by rewrite Hm at 2; rewrite drop_app_length.
Qed.

(** Every declared token is in the group of its first character. *)
Lemma special_index_complete special t id :
  special !! t = Some id →
  ∃ group, special_index special !! default 0%Z (head t) = Some group ∧ (t, id) ∈ group.
Proof.
  intros Ht. unfold special_index. rewrite lookup_fmap.
  assert (∀ l (m0 : gmap Z (list (text * nat))), ((t, id) ∈ l ∨ (∃ g, m0 !! default 0%Z (head t) = Some g ∧ (t, id) ∈ g)) →
    ∃ g, foldl (λ index p, partial_alter (λ g, Some (default [] g ++ [p])) (default 0%Z (head p.1)) index) m0 l
      !! default 0%Z (head t) = Some g ∧ (t, id) ∈ g) as Hall.
  { clear Ht. intros l. induction l as [|q l IH]; intros m0 [Hin|Hm]; cbn [foldl]; [by apply elem_of_nil in Hin|done| |].
    - apply elem_of_cons in Hin as [<-|Hin]; apply IH; [right|by left]. cbn [fst].
      rewrite lookup_partial_alter, decide_True by done. eexists. split; [done|]. apply elem_of_app. right. left.
    - apply IH. right. destruct Hm as (g & Hg & Hin).
      destruct (decide (default 0%Z (head q.1) = default 0%Z (head t))) as [He|He].
      + rewrite He, lookup_partial_alter, decide_True, Hg by done. eexists. split; [done|]. cbn. apply elem_of_app. by left.
      + rewrite lookup_partial_alter_ne by done. by exists g. }
  destruct (Hall (map_to_list special) ∅) as (g & -> & Hin); [left; by apply elem_of_map_to_list|].
  eexists. split; [done|]. by apply elem_of_sort_by.
Qed.

(** What the scan finds is a declared token, where it says. *)
Lemma special_scan_entry special ci rest pos id len :
  special_scan (special_index special) ci rest = Some (pos, id, len) →
  ∃ t, special !! t = Some id ∧ len = length t ∧ ci ≤ pos ∧ pos - ci < length rest ∧
    rest = take (pos - ci) rest ++ t ++ drop (pos - ci + len) rest.
Proof.
  revert ci. induction rest as [|c rest IH]; intros ci; [done|]. cbn [special_scan].
  destruct (special_here _ (c :: rest)) as [[id' len']|] eqn:Hh.
  - intros [= <- <- <-]. apply special_here_entry in Hh as (t & Ht & Hlen & Hr & _).
    exists t. rewrite Nat.sub_diag. split_and!; [done|done|lia|simpl; lia|done].
  - intros Hs. destruct (IH _ Hs) as (t & Ht & Hlen & Hci & Hlt & Hr). exists t.
    replace (pos - ci) with (S (pos - S ci)) by lia. split_and!; [done|done|lia|simpl; lia|].
    cbn [take app drop Nat.add]. by f_equal.
Qed.

(** ** What [load] leaves *)

(** The engines that read the alphabet, the byte entries or a trie. *)
Definition byte_level (m : TokenizerModel) : bool := match m with Gpt2 | Whitespace => true | _ => false end.
Definition byte_fallbacks (m : TokenizerModel) : bool := match m with Spm | Gemma4 | Plamo2 => true | _ => false end.

Section loaded.
Context {F G : Type} `{!ScoreMath F G}.

Record loaded (tk : Tokenizer F) : Prop := {
  ld_vocab t id : vocab tk !! t = Some id → model tk ≠ NoVocab → model tk ≠ HybridDna →
    id_to_token tk !! id = Some t;
  ld_alphabet : byte_to_unicode tk = build_byte_to_unicode ∧ unicode_to_byte tk = build_unicode_to_byte;
  ld_special : special_by_first tk = special_index (special_tokens tk) ∧
    ∀ t id, special_tokens tk !! t = Some id → model tk ≠ NoVocab → model tk ≠ HybridDna →
      id_to_token tk !! id = Some t;
  ld_rule : byte_level (model tk) = true → ∃ rule, pre tk = Some rule;
  ld_gemma4 : model tk = Gemma4 → pre tk = Some Gemma4Rule;
  ld_bytes b : byte_fallbacks (model tk) = true → ∃ id t,
    spm_byte_to_id tk !! b = Some id ∧ id_to_token tk !! id = Some t ∧ type_of tk id = 6%Z ∧
    parse_spm_byte_token t = Some b;
  ld_rwkv : model tk = Rwkv → ug_trie (ugm tk) = rwkv_trie (id_to_token tk);
  ld_plamo : model tk = Plamo2 →
    ug_trie (ugm tk) = plamo_trie (id_to_token tk) (id_to_type tk) ∧
    length (id_to_score tk) = length (id_to_token tk);
  ld_unk : model tk = Ugm ∨ model tk = Bert → unk_token tk < length (id_to_token tk)
}.

Lemma require_ok b e u : require b e = Ok u ↔ b = true.
Proof. unfold require. destruct b, u; naive_solver. Qed.

Lemma in_vocabulary_ok tokens id n : in_vocabulary tokens id = Ok n → n = id ∧ id < length tokens.
Proof. unfold in_vocabulary. destruct (Nat.leb_spec (length tokens) id); [done|]. by intros [= <-]. Qed.

Lemma unknown_role_ok kvs tokens n : unknown_role kvs tokens = Ok n → n < length tokens.
Proof.
  unfold unknown_role. intros (role & _ & (id & _ & Hn)%res_bind_ok)%res_bind_ok.
  by apply in_vocabulary_ok in Hn as [-> ?].
Qed.

Lemma complete_bytes_ok m u : complete_bytes m = Ok u → ∀ b, ∃ id, m !! b = Some id.
Proof.
  unfold complete_bytes. destruct (missing_entries m) eqn:Hm; [|done]. intros _ b. by apply missing_none_entry.
Qed.

Ltac load_step :=
  match goal with
  | H : _ ≫= _ = Ok _ |- _ => apply res_bind_ok in H as (? & ? & H)
  | H : mret _ = Ok _ |- _ => injection H as <-
  | H : Ok _ = Ok _ |- _ => injection H as <-
  end.

(** What an engine keeps of the tokens and sets of its own. *)
Record engine_ok (tokens : list text) (types : list Z) (m : TokenizerModel) (e : Engine (F:=F)) : Prop := {
  eo_tokens : m ≠ NoVocab → m ≠ HybridDna → en_tokens e = tokens ∧ en_types e = types;
  eo_rule : byte_level m = true → ∃ rule, en_pre e = Some rule;
  eo_gemma4 : m = Gemma4 → en_pre e = Some Gemma4Rule;
  eo_bytes b : byte_fallbacks m = true → en_spm_byte_to_id e = byte_entries tokens types ∧
    ∃ id, en_spm_byte_to_id e !! b = Some id;
  eo_rwkv : m = Rwkv → ug_trie (en_ugm e) = rwkv_trie tokens;
  eo_plamo : m = Plamo2 → ug_trie (en_ugm e) = plamo_trie tokens types ∧ length (en_scores e) = length tokens;
  eo_unk : m = Ugm ∨ m = Bert → en_unk_token e < length tokens
}.

Ltac engine_fields := split; cbn; intros; try done; try (by destruct_or?); eauto.

Lemma load_bpe_ok kvs tokens scores types vocab merges hybrid e :
  load_bpe kvs tokens scores types vocab merges hybrid = Ok e →
  (∃ rule, en_pre e = Some rule) ∧ (hybrid = false → en_tokens e = tokens ∧ en_types e = types).
Proof.
  unfold load_bpe. intros H. do 3 load_step. destruct (reachable_bytes _ _); [|done]. load_step. cbn.
  split; [by eexists|]. by intros ->.
Qed.

Lemma load_engine_ok kvs tokens scores types vocab merges m e :
  load_engine kvs tokens scores types vocab merges m = Ok e → engine_ok tokens types m e.
Proof.
  destruct m; cbn [load_engine]; intros H.
  - apply load_bpe_ok in H as [Hr Ht]. engine_fields.
  - unfold load_spm in H. repeat load_step. engine_fields. split; [done|]. by eapply complete_bytes_ok.
  - unfold load_ugm in H. do 3 load_step. destruct (match _ with Some _ => _ | None => _ end) as [[? ?]| |]; try done.
    cbn in H. repeat load_step. engine_fields. by eapply unknown_role_ok.
  - unfold load_rwkv in H. repeat load_step. engine_fields.
  - apply load_bpe_ok in H as [Hr Ht]. engine_fields.
  - engine_fields.
  - apply load_bpe_ok in H as [Hr Ht]. engine_fields.
  - unfold load_plamo2 in H. repeat load_step.
    match goal with H : require _ _ = Ok _ |- _ => apply require_ok, andb_true_iff in H as [Hn%Nat.eqb_eq _] end.
    engine_fields. split; [done|]. by eapply complete_bytes_ok.
  - unfold load_gemma4 in H. repeat load_step. engine_fields. split; [done|]. by eapply complete_bytes_ok.
  - unfold load_bert in H. repeat load_step. engine_fields. by eapply unknown_role_ok.
Qed.

Lemma load_ok g (tk : Tokenizer F) : load g = Ok tk → loaded tk.
Proof.
  unfold load. intros H. do 3 load_step.
  set (tokens := map chars_of x) in *.
  set (types := match x1 with [] => _ | _ => _ end) in *.
  do 6 load_step. apply res_bind_ok in H as (e & He & H). apply load_engine_ok in He as [E1 E2 E3 E4 E5 E6 E7].
  injection H as <-.
  assert (∀ t id, x3 !! t = Some id → tokens !! id = Some t) as Hsp.
  { eapply add_roles_entry; [|done]. apply declared_special_entry. }
  split; cbn.
  - intros t id Hv Hnv Hhd. destruct (E1 Hnv Hhd) as [-> _]. by apply vocab_of_entry.
  - done.
  - split; [done|]. intros t id Ht Hnv Hhd. destruct (E1 Hnv Hhd) as [-> _]. by apply Hsp.
  - done.
  - done.
  - intros b Hb. destruct (E4 b Hb) as [Hm [id Hid]]. destruct E1 as [Et Ety]; [by intros ->|by intros ->|].
    rewrite Hm in Hid. destruct (byte_entries_entry _ _ _ _ Hid) as (t & Ht & Hty & Hp).
    exists id, t. rewrite Hm, Et. split_and!; [done|done| |done]. unfold type_of. cbn. rewrite Ety. apply Hty.
  - intros Hm. destruct E1 as [-> _]; [by rewrite Hm|by rewrite Hm|]. by apply E5.
  - intros Hm. destruct E1 as [-> ->]; [by rewrite Hm|by rewrite Hm|]. by apply E6.
  - intros Hm. destruct E1 as [-> _]; [by destruct Hm as [-> | ->]|by destruct Hm as [-> | ->]|]. by apply E7.
Qed.
End loaded.
