(* ===== verification/TokenRound.v ===== *)
(** * From text to tokens and back

    What [decode_bytes] gives for what an engine emits: byte-level byte-pair
    encoding and the RWKV walk lose nothing, and the engines that write a space
    as [▁] lose the difference between the two.  The last part is about what PLaMo-2's
    cut costs. *)
From Stdlib Require Import ZArith Strings.Byte String.
From coqutil Require Import Byte.
From stdpp Require Import base numbers list option gmap.
From S2P Require Import Prelude Gguf Utf8 Utf8Facts Pretok Nfc VocabTrie TokenText Tokenizer SpmMerge Encode TokenizerLoad TokenizerFacts.
From S2P Require Grammar.
Local Open Scope nat_scope.
#[local] Existing Instance Grammar.byte_countable.

Section round.
Context {F G : Type} `{!ScoreMath F G, !UnicodeClasses, !UnicodeLaws, !CharClasses, !NfcTables}.
Context (nfc_depth : nat) (pick : list (SpmBigram F) → nat).
Context (tk : Tokenizer F) (Hld : loaded tk).

Abbreviation encodes := (encodes tk).

(** ** The loop over special tokens *)

(** What an engine turns into the images of its characters, and so do the
    special tokens, [encode] does. *)
Lemma encode_loop_encodes (image : Z → bytes) :
  special_by_first tk = special_index (special_tokens tk) →
  (∀ u b, encodes (encode_text nfc_depth pick tk u b) (u ≫= image)) →
  (∀ t id, special_tokens tk !! t = Some id → t ≠ [] ∧ decode_bytes tk [id] = t ≫= image) →
  ∀ fuel rest b, length rest ≤ fuel → encodes (encode_loop nfc_depth pick fuel tk rest b) (rest ≫= image).
Proof.
  intros Hix Htext Hsp fuel. induction fuel as [|fuel IH]; intros rest b Hl.
  { destruct rest; [|simpl in Hl; lia]. apply (Htext [] b). }
  cbn [encode_loop]. rewrite Hix. destruct (special_scan _ 0 rest) as [[[pos id] len]|] eqn:Hs; [|apply Htext].
  apply special_scan_entry in Hs as (t & Ht & Hlen & _ & Hlt & Hr). rewrite Nat.sub_0_r in *.
  destruct (Hsp _ _ Ht) as [Hne Hd].
  assert (rest ≫= image = (take pos rest ≫= image) ++ decode_bytes tk [id] ++ (drop (pos + len) rest ≫= image)) as ->.
  { rewrite Hr at 1. by rewrite !bind_app, Hd. }
  assert (0 < length t) as Hpos by (destruct t; [done|simpl; lia]).
  assert (encodes (if 0 <? pos then encode_text nfc_depth pick tk (take pos rest) b else mret []) (take pos rest ≫= image))
    as (ids1 & -> & Hids1).
  { destruct (Nat.ltb_spec 0 pos); [apply Htext|]. replace pos with 0 by lia. rewrite take_0. by exists []. }
  destruct (IH (drop (pos + len) rest) true) as (ids2 & Hok2 & Hids2); [rewrite length_drop; lia|].
  exists (ids1 ++ [id] ++ ids2). cbn [mbind res_bind]. rewrite Hok2. split; [done|].
  by rewrite !decode_app, Hids1, Hids2.
Qed.

(** ** Byte-level byte-pair encoding *)

Lemma unicode_byte_char b : unicode_byte tk (byte_char b) = [b].
Proof. unfold unicode_byte. destruct (ld_alphabet _ Hld) as [_ ->]. by rewrite byte_char_back. Qed.

Lemma unicode_bytes_chars bs : map byte_char bs ≫= unicode_byte tk = bs.
Proof.
  induction bs as [|b bs IH]; [done|]. cbn [map]. by rewrite bind_cons, unicode_byte_char, IH.
Qed.

Lemma decode_byte_level id t :
  byte_level (model tk) = true → id_to_token tk !! id = Some t → decode_bytes tk [id] = t ≫= unicode_byte tk.
Proof.
  intros Hm Ht. unfold decode_bytes. rewrite bind_cons, Ht. cbn [mbind list_bind]. rewrite app_nil_r.
  by destruct (model tk).
Qed.

Lemma byte_level_entry t id : byte_level (model tk) = true → vocab tk !! t = Some id → id_to_token tk !! id = Some t.
Proof. intros Hm Hv. apply (ld_vocab _ Hld); [done| |]; by destruct (model tk). Qed.

(** A text of the alphabet is its bytes, however it is cut into tokens. *)
Lemma bpe_encode_encodes bs :
  byte_level (model tk) = true → (∀ b, is_Some (vocab tk !! [byte_char b])) →
  encodes (bpe_encode tk (map byte_char bs)) bs.
Proof.
  intros Hm Hall. unfold bpe_encode.
  rewrite <-(unicode_bytes_chars bs) at 2. rewrite <-(merge_word_concat (merges tk) (map byte_char bs)) at 2.
  rewrite <-bind_concat. apply concat_map_encodes. intros w Hw.
  destruct (vocab tk !! w) as [id|] eqn:Hv.
  { eexists. split; [done|]. apply decode_byte_level; [done|by apply byte_level_entry]. }
  unfold byte_fallback. apply concat_map_encodes. intros c Hc.
  assert (∃ b, c = byte_char b) as [b ->].
  { assert (c ∈ map byte_char bs) as Hin.
    { rewrite <-(merge_word_concat (merges tk)). apply list_elem_of_In, in_concat. exists w.
      by split; apply list_elem_of_In. }
    apply list_elem_of_fmap in Hin as (b & -> & _). by exists b. }
  destruct (Hall b) as [id Hid]. unfold look. rewrite Hid. exists [id]. split; [done|].
  erewrite decode_byte_level; [|done|by apply byte_level_entry]. rewrite bind_cons. apply app_nil_r.
Qed.

Lemma encode_bpe_encodes t :
  byte_level (model tk) = true → missing_bytes (vocab tk) = [] → pre tk ≠ Some WhitespaceRule →
  encodes (encode_bpe tk t) (encode_all t).
Proof.
  intros Hm Hall Hws. unfold encode_bpe, look. destruct (ld_rule _ Hld Hm) as [rule Hrule]. rewrite Hrule in *.
  cbn [or_panic mbind res_bind]. destruct (split_tiles rule t) as [Hc _]; [congruence|].
  rewrite <-Hc at 2. rewrite encode_all_concat. apply concat_map_encodes. intros piece _.
  destruct (ld_alphabet _ Hld) as [-> _]. rewrite byte_encode_ok. cbn [total mbind res_bind].
  assert (∀ b, is_Some (vocab tk !! [byte_char b])) as Hbytes by (intros b; by apply missing_none_vocab).
  destruct (if ignore_merges tk then _ else _) as [id|] eqn:Hwhole; [|by apply bpe_encode_encodes].
  destruct (ignore_merges tk); [|done]. exists [id]. split; [done|].
  rewrite <-(unicode_bytes_chars (encode_all piece)).
  apply decode_byte_level; [done|]. by apply byte_level_entry.
Qed.

Lemma encode_text_bpe_encodes t b :
  byte_level (model tk) = true → missing_bytes (vocab tk) = [] → pre tk ≠ Some WhitespaceRule →
  encodes (encode_text nfc_depth pick tk t b) (t ≫= encode).
Proof.
  intros Hm Hall Hws. rewrite <-encode_all_bind. destruct t as [|c t]; [by exists []|].
  cbn [encode_text]. destruct (model tk) eqn:E; try done; (apply encode_bpe_encodes; [by rewrite E|done|done]).
Qed.

(** ** RWKV *)

Lemma rwkv_trie_spec tokens :
  trie_ok (rwkv_trie tokens) ∧
  ∀ bs id, trie_lookup (rwkv_trie tokens) bs = Some id → ∃ t, tokens !! id = Some t ∧ unescape_rwkv_token t = bs.
Proof.
  unfold rwkv_trie.
  assert (∀ l trie, trie_ok trie →
    let trie' := foldl (λ trie (p : nat * text), insert_bytes (unescape_rwkv_token p.2) p.1 trie) trie l in
    trie_ok trie' ∧ ∀ bs id, trie_lookup trie' bs = Some id →
      trie_lookup trie bs = Some id ∨ ∃ p, p ∈ l ∧ p.1 = id ∧ unescape_rwkv_token p.2 = bs) as Hall.
  { intros l. induction l as [|p l IH]; intros trie Hok; [by split; [|left]|]. cbn [foldl].
    destruct (insert_bytes_spec (unescape_rwkv_token p.2) p.1 trie Hok) as [Hok' Hlk].
    destruct (IH _ Hok') as [Hok2 Hl2]. split; [done|]. intros bs id Hid.
    destruct (Hl2 _ _ Hid) as [Hin|(q & Hq & Hqi & Hqb)]; [|right; exists q; split; [by right|done]].
    rewrite Hlk in Hin. case_decide; [|by left]. simplify_eq. right. exists p. split; [left|done]. }
  destruct (Hall (numbered tokens) [] trie_ok_nil) as [Hok Hlk]. split; [done|]. intros bs id Hid.
  destruct (Hlk _ _ Hid) as [Hin|([i t] & Hin & Hi & Hb)].
  - by destruct bs.
  - apply numbered_elem in Hin. simpl in *. subst i. by exists t.
Qed.

Lemma rwkv_loop_decodes fuel bs :
  model tk = Rwkv → (∀ b, is_Some (trie_lookup (ug_trie (ugm tk)) [b])) → length bs ≤ fuel →
  decode_bytes tk (rwkv_loop fuel tk bs) = bs.
Proof.
  intros Hm Hall. revert bs. induction fuel as [|fuel IH]; intros bs Hl.
  { by destruct bs; [|simpl in Hl; lia]. }
  destruct bs as [|b bs]; [done|]. cbn [rwkv_loop].
  pose proof (longest_prefix_spec (ug_trie (ugm tk)) (b :: bs)) as Hs.
  destruct (longest_prefix_bytes _ (b :: bs)) as [[id k]|].
  - destruct Hs as (Hk & Hid & _). rewrite (ld_rwkv _ Hld Hm) in Hid.
    apply (rwkv_trie_spec _) in Hid as (t & Ht & Hb).
    change (id :: rwkv_loop fuel tk (drop k (b :: bs))) with ([id] ++ rwkv_loop fuel tk (drop k (b :: bs))).
    rewrite decode_app, IH by (rewrite length_drop; lia).
    replace (decode_bytes tk [id]) with (take k (b :: bs)); [by rewrite take_drop|].
    unfold decode_bytes. rewrite bind_cons, Ht. cbn [mbind list_bind]. rewrite app_nil_r. by rewrite Hm.
  - exfalso. destruct (Hall b) as [id Hid]. specialize (Hs 1). rewrite firstn_cons, take_0 in Hs. rewrite Hs in Hid; [done|simpl; lia].
Qed.

Lemma encode_text_rwkv_encodes t b :
  model tk = Rwkv → (∀ b, is_Some (trie_lookup (ug_trie (ugm tk)) [b])) →
  encodes (encode_text nfc_depth pick tk t b) (t ≫= encode).
Proof.
  intros Hm Hall. rewrite <-encode_all_bind. destruct t as [|c t]; [by exists []|].
  cbn [encode_text]. rewrite Hm. eexists. split; [done|]. by apply rwkv_loop_decodes.
Qed.

(** ** Spaces as [▁], and one token per byte *)

(** No entry of the type BYTE is spelled out in the text. *)
Definition no_byte_entry (t : text) : Prop :=
  ∀ l w r id, t = l ++ w ++ r → vocab tk !! w = Some id → type_of tk id ≠ 6%Z.

Definition spaced (m : TokenizerModel) : bool := match m with Spm | Ugm | Gemma4 | Plamo2 => true | _ => false end.

Lemma decode_spaced id t :
  spaced (model tk) = true → id_to_token tk !! id = Some t → decode_bytes tk [id] = spm_piece tk id t.
Proof.
  intros Hm Ht. unfold decode_bytes. rewrite bind_cons, Ht. cbn [mbind list_bind]. rewrite app_nil_r.
  by destruct (model tk).
Qed.

Lemma fallbacks_spaced : byte_fallbacks (model tk) = true → spaced (model tk) = true.
Proof. by destruct (model tk). Qed.

Lemma byte_tokens_encodes t :
  byte_fallbacks (model tk) = true → encodes (byte_tokens tk t) (encode_all t).
Proof.
  intros Hm. unfold byte_tokens.
  assert (encode_all t = encode_all t ≫= λ b, [b]) as He.
  { generalize (encode_all t) as bs. intros bs. induction bs as [|b bs IH]; [done|].
    rewrite bind_cons. cbn [app]. by rewrite <-IH. }
  rewrite He at 2. apply concat_map_encodes. intros b _.
  destruct (ld_bytes _ Hld b Hm) as (id & u & Hid & Hu & Hty & Hp). unfold look. rewrite Hid. exists [id].
  split; [done|]. rewrite (decode_spaced _ u) by (by try apply fallbacks_spaced).
  unfold spm_piece. by rewrite Hty, Hp.
Qed.

Lemma spaced_entry_encodes w id :
  byte_fallbacks (model tk) = true → vocab tk !! w = Some id → type_of tk id ≠ 6%Z →
  encodes (mret [id]) (w ≫= unspaced).
Proof.
  intros Hm Hv Hty. exists [id]. split; [done|].
  rewrite (decode_spaced _ w); [|by apply fallbacks_spaced|apply (ld_vocab _ Hld); [done| |]; by destruct (model tk)].
  unfold spm_piece. by rewrite (proj2 (Z.eqb_neq _ _) Hty).
Qed.

(** A single character, or an entry that is no byte. *)
Lemma piece_tokens_encodes w :
  byte_fallbacks (model tk) = true → is_Some (vocab tk !! [SPM_SPACE]) →
  (∀ id, vocab tk !! w = Some id → type_of tk id ≠ 6%Z) → ((∃ c, w = [c]) ∨ is_Some (vocab tk !! w)) →
  encodes (piece_tokens tk w) (w ≫= unspaced).
Proof.
  intros Hm Hsp Hty Hw. unfold piece_tokens. destruct (vocab tk !! w) as [id|] eqn:Hv.
  { apply spaced_entry_encodes; [done|done|by apply Hty]. }
  destruct Hw as [[c ->]|[id Hid]]; [|congruence].
  assert ([c] ≫= unspaced = encode_all [c]) as ->; [|by apply byte_tokens_encodes].
  rewrite encode_all_bind, !bind_cons. unfold unspaced. destruct (Z.eqb_spec c SPM_SPACE) as [->|]; [|done].
  destruct Hsp as [id Hid]. congruence.
Qed.

Lemma part_of {A} (ws : list (list A)) w : w ∈ ws → ∃ l r, concat ws = l ++ w ++ r.
Proof.
  intros (ws1 & ws2 & ->)%list_elem_of_split. exists (concat ws1), (concat ws2). by rewrite concat_app.
Qed.

Lemma concat_pieces_encode ws :
  byte_fallbacks (model tk) = true → is_Some (vocab tk !! [SPM_SPACE]) → no_byte_entry (concat ws) →
  Forall (λ w, (∃ c, w = [c]) ∨ is_Some (vocab tk !! w)) ws →
  encodes (concat_map (piece_tokens tk) ws) (concat ws ≫= unspaced).
Proof.
  intros Hm Hsp Hno Hws. rewrite <-bind_concat. apply concat_map_encodes. intros w Hw.
  rewrite list.Forall_forall in Hws. apply piece_tokens_encodes; [done|done| |by apply Hws].
  intros id Hid. destruct (part_of ws w Hw) as (l & r & Hc). by eapply Hno.
Qed.

(** *** The merge loops leave characters and entries *)

Definition piece_ok (w : text) : Prop := (∃ c, w = [c]) ∨ is_Some (vocab tk !! w).

Lemma singles_ok t : Forall piece_ok (map (λ c, [c]) t).
Proof. apply list.Forall_forall. intros w (c & -> & _)%list_elem_of_fmap. left. by exists c. Qed.

Lemma merge_at_ok k ws :
  Forall piece_ok ws → (∀ a b, ws !! k = Some a → ws !! S k = Some b → is_Some (vocab tk !! (a ++ b))) →
  Forall piece_ok (merge_at k ws).
Proof.
  intros Hws Hab. unfold merge_at. apply list.Forall_app. split; [by apply list.Forall_take|].
  pose proof (list.Forall_drop _ k _ Hws) as Hd. destruct (drop k ws) as [|a [|b rest]] eqn:E; [done|done|].
  assert (ws !! k = Some a) as Ha by (rewrite <-(Nat.add_0_r k), <-lookup_drop, E; done).
  assert (ws !! S k = Some b) as Hb by (rewrite <-Nat.add_1_r, <-lookup_drop, E; done).
  inversion Hd as [|? ? _ Hd']; subst. inversion Hd'; subst. constructor; [|done]. right. by apply Hab.
Qed.

Lemma best_pair_entry ws i best s m :
  best_pair tk i ws best = Some (s, m) →
  best = Some (s, m) ∨ ∃ k a b, m = i + k ∧ ws !! k = Some a ∧ ws !! S k = Some b ∧ is_Some (vocab tk !! (a ++ b)).
Proof.
  revert i best. induction ws as [|a ws IH]; intros i best; [by left|]. destruct ws as [|b ws]; [by left|].
  change (best_pair tk i (a :: b :: ws) best) with (best_pair tk (S i) (b :: ws)
    (match join_score tk (a ++ b) with
     | Some s => match best with
                 | Some (s0, _) => match partial_cmp s s0 with Some Gt => Some (s, i) | _ => best end
                 | None => Some (s, i)
                 end
     | None => best
     end)).
  intros [Hb|(k & x & y & -> & Hx & Hy & Hv)]%IH.
  2: { right. exists (S k), x, y. split_and!; [lia|done|done|done]. }
  destruct (join_score tk (a ++ b)) as [s1|] eqn:Hj; [|by left].
  assert (Some (s1, i) = Some (s, m) →
    ∃ k x y, m = i + k ∧ (a :: b :: ws) !! k = Some x ∧ (a :: b :: ws) !! S k = Some y ∧ is_Some (vocab tk !! (x ++ y)))
    as Hhere.
  { intros [= _ <-]. exists 0, a, b. split_and!; [lia|done|done|by eapply join_score_entry]. }
  destruct best as [[s0 m0]|]; [|right; by apply Hhere].
  destruct (partial_cmp s1 s0) as [[]|]; try (by left). right. by apply Hhere.
Qed.

Lemma greedy_words fuel ws :
  Forall piece_ok ws → Forall piece_ok (greedy tk fuel ws) ∧ concat (greedy tk fuel ws) = concat ws.
Proof.
  revert ws. induction fuel as [|fuel IH]; intros ws Hws; cbn [greedy].
  { by destruct (best_pair tk 0 ws None) as [[? ?]|]. }
  destruct (best_pair tk 0 ws None) as [[s m]|] eqn:Hb; [|done].
  destruct (IH (merge_at m ws)) as [H1' H2']; [|by rewrite H2', merge_at_concat].
  apply merge_at_ok; [done|]. intros a b Ha Hb'.
  apply best_pair_entry in Hb as [?|(k & x & y & -> & Hx & Hy & Hv)]; [done|]. simpl in Ha, Hb'. congruence.
Qed.

(** ** SentencePiece *)

Lemma escape_unspaced t : escape_spaces t ≫= unspaced = t ≫= unspaced.
Proof.
  induction t as [|c t IH]; [done|]. cbn [escape_spaces map] in *. rewrite !bind_cons. f_equal; [|exact IH].
  unfold unspaced. destruct (Z.eqb_spec c SPACE) as [->|]; [done|]. done.
Qed.

Lemma spm_reference_encodes t :
  model tk = Spm → is_Some (vocab tk !! [SPM_SPACE]) → no_byte_entry t →
  encodes (concat_map (piece_tokens tk) (spm_reference tk t)) (t ≫= unspaced).
Proof.
  intros Hm Hsp Hno. unfold spm_reference.
  destruct (greedy_words (length t) (map (λ c, [c]) t) (singles_ok t)) as [Hok Hc]. rewrite concat_singles in Hc.
  set (ws := greedy _ _ _) in *. clearbody ws. subst t. apply concat_pieces_encode; [by rewrite Hm|done|done|done].
Qed.

(** ** Raw byte-pair encoding *)

Lemma best_merge_entry ranks ws i best r m :
  best_merge ranks i ws best = Some (r, m) →
  best = Some (r, m) ∨ ∃ k a b, m = i + k ∧ ws !! k = Some a ∧ ws !! S k = Some b ∧ is_Some (ranks !! (a, b)).
Proof.
  revert i best. induction ws as [|a ws IH]; intros i best; [by left|]. destruct ws as [|b ws]; [by left|].
  change (best_merge ranks i (a :: b :: ws) best) with (best_merge ranks (S i) (b :: ws)
    (match ranks !! (a, b) with
     | Some rank => match best with
                    | Some (r, _) => if rank <? r then Some (rank, i) else best
                    | None => Some (rank, i)
                    end
     | None => best
     end)).
  intros [Hb|(k & x & y & -> & Hx & Hy & Hv)]%IH.
  2: { right. exists (S k), x, y. split_and!; [lia|done|done|done]. }
  destruct (ranks !! (a, b)) as [r1|] eqn:Hj; [|by left].
  assert (Some (r1, i) = Some (r, m) → ∃ k x y, m = i + k ∧ (a :: b :: ws) !! k = Some x ∧
    (a :: b :: ws) !! S k = Some y ∧ is_Some (ranks !! (x, y))) as Hhere.
  { intros [= _ <-]. exists 0, a, b. split_and!; [lia|done|done|by eexists]. }
  destruct best as [[r0 m0]|]; [|right; by apply Hhere].
  destruct (r1 <? r0); [|by left]. right. by apply Hhere.
Qed.

Lemma merge_loop_ok fuel ws :
  (∀ a b, is_Some (merges tk !! (a, b)) → is_Some (vocab tk !! (a ++ b))) →
  Forall piece_ok ws → Forall piece_ok (merge_loop (merges tk) fuel ws).
Proof.
  intros Hmv. revert ws. induction fuel as [|fuel IH]; intros ws Hws; cbn [merge_loop].
  { by destruct (best_merge _ 0 ws None) as [[? ?]|]. }
  destruct (best_merge _ 0 ws None) as [[r m]|] eqn:Hb; [|done]. apply IH, merge_at_ok; [done|].
  intros a b Ha Hb'. apply best_merge_entry in Hb as [?|(k & x & y & -> & Hx & Hy & Hv)]; [done|].
  simpl in Ha, Hb'. assert (x = a) as -> by congruence. assert (y = b) as -> by congruence. by apply Hmv.
Qed.

Lemma gemma4_encodes t :
  model tk = Gemma4 → is_Some (vocab tk !! [SPM_SPACE]) →
  (∀ a b, is_Some (merges tk !! (a, b)) → is_Some (vocab tk !! (a ++ b))) →
  no_byte_entry (escape_spaces t) →
  encodes (gemma4_encode tk t) (t ≫= unspaced).
Proof.
  intros Hm Hsp Hmv Hno. unfold gemma4_encode, look. rewrite (ld_gemma4 _ Hld Hm). cbn [or_panic mbind res_bind].
  fold (escape_spaces t). rewrite <-(escape_unspaced t).
  destruct (split_tiles Gemma4Rule (escape_spaces t)) as [Hc _]; [done|].
  rewrite <-Hc at 2. rewrite <-bind_concat. apply concat_map_encodes. intros piece Hp.
  assert (no_byte_entry piece) as Hpiece.
  { destruct (part_of _ _ Hp) as (l & r & Hlr). rewrite Hc in Hlr. intros l' w r' id -> Hv.
    eapply (Hno (l ++ l') w (r' ++ r)); [|done]. by rewrite Hlr, <-!(assoc_L (++)). }
  destruct (if forallb _ piece then vocab tk !! piece else None) as [id|] eqn:Hwhole.
  - destruct (forallb _ piece); [|done]. apply spaced_entry_encodes; [by rewrite Hm|done|].
    eapply (Hpiece [] piece []); [by rewrite app_nil_r|done].
  - unfold bpe_encode_raw. rewrite <-(merge_word_concat (merges tk) piece) at 2.
    apply (concat_pieces_encode (merge_word (merges tk) piece)); [by rewrite Hm|done|by rewrite merge_word_concat|].
    apply merge_loop_ok; [done|apply singles_ok].
Qed.
End round.

(** * The backward program of PLaMo-2 is optimal

    [segmented] is a way to cut a text into entries and single characters with
    what it costs: an entry costs its negated score, a character none has
    written out in bytes ten million.  The table holds the least cost of every
    suffix, and the walk through it emits a cut of that cost. *)
Local Open Scope nat_scope.
#[local] Existing Instance Grammar.byte_countable.

Section plamo.
Context {F G : Type} `{!ScoreMath F G}.
Context (tk : Tokenizer F) (Hld : loaded tk) (Hmodel : model tk = Plamo2).
(** Codepoints of a Rust string. *)
Context (Hchars : Forall (Forall scalar) (id_to_token tk)).

(** ** Candidates *)

Lemma plamo_trie_spec tokens types :
  trie_ok (plamo_trie tokens types) ∧
  ∀ bs id, trie_lookup (plamo_trie tokens types) bs = Some id →
    ∃ t, tokens !! id = Some t ∧ encode_all t = bs ∧ type_at types id ≠ 6%Z.
Proof.
  unfold plamo_trie.
  assert (∀ l trie, trie_ok trie →
    let trie' := foldl (λ trie (p : nat * text),
      if (type_at types p.1 =? 6)%Z then trie else insert_bytes (encode_all p.2) p.1 trie) trie l in
    trie_ok trie' ∧ ∀ bs id, trie_lookup trie' bs = Some id →
      trie_lookup trie bs = Some id ∨ ∃ p, p ∈ l ∧ p.1 = id ∧ encode_all p.2 = bs ∧ type_at types id ≠ 6%Z) as Hall.
  { intros l. induction l as [|p l IH]; intros trie Hok; [by split; [|left]|]. cbn [foldl].
    destruct (Z.eqb_spec (type_at types p.1) 6) as [Hty|Hty].
    - destruct (IH _ Hok) as [Hok2 Hl2]. split; [done|]. intros bs id Hid.
      destruct (Hl2 _ _ Hid) as [Hin|(q & Hq & Hrest)]; [by left|right; exists q; split; [by right|done]].
    - destruct (insert_bytes_spec (encode_all p.2) p.1 trie Hok) as [Hok' Hlk].
      destruct (IH _ Hok') as [Hok2 Hl2]. split; [done|]. intros bs id Hid.
      destruct (Hl2 _ _ Hid) as [Hin|(q & Hq & Hrest)]; [|right; exists q; split; [by right|done]].
      rewrite Hlk in Hin. case_decide; [|by left]. simplify_eq. right. exists p. split; [left|done]. }
  destruct (Hall (numbered tokens) [] trie_ok_nil) as [Hok Hlk]. split; [done|]. intros bs id Hid.
  destruct (Hlk _ _ Hid) as [Hin|([i t] & Hin & Hi & Hb & Hty)].
  - by destruct bs.
  - apply numbered_elem in Hin. simpl in *. subst i. by exists t.
Qed.

(** A candidate is a prefix, counted in characters. *)
Lemma candidate_prefix rest k id :
  Forall scalar rest → (k, id) ∈ candidates tk rest →
  1 ≤ k ≤ length rest ∧ id_to_token tk !! id = Some (take k rest) ∧ type_of tk id ≠ 6%Z.
Proof.
  intros Hrest. unfold candidates. rewrite list_elem_of_In, <-in_rev, <-list_elem_of_In.
  intros ([id' n] & Heq & Hin)%list_elem_of_fmap. cbn [fst snd] in Heq. injection Heq as Hk <-.
  rewrite (trie_matches_spec _ []) in Hin by done.
  apply list_elem_of_omap in Hin as (m & Hm & Hl). apply elem_of_seq in Hm. cbn [app] in Hl.
  destruct (trie_lookup _ _) as [i|] eqn:Htr; [|done]. cbn in Hl. simplify_eq.
  destruct (ld_plamo _ Hld Hmodel) as [Htrie _]. rewrite Htrie in Htr.
  apply (plamo_trie_spec _ _) in Htr as (t & Ht & Hb & Hty).
  rewrite list.Forall_forall in Hchars. pose proof (Hchars _ (list_elem_of_lookup_2 _ _ _ Ht)) as Hsc.
  rewrite <-Hb, chars_of_encode by done.
  destruct (encode_all_strip t (drop n (encode_all rest)) rest) as (w & -> & _ & _); [done|done| |].
  { by rewrite Hb, take_drop. }
  rewrite take_app_length, length_app. split_and!; [|lia|done|done].
  destruct t as [|c t]; [|simpl; lia]. exfalso. assert (length (take n (encode_all ([] ++ w))) = 0) as Hz by (by rewrite <-Hb).
  rewrite length_take in Hz. lia.
Qed.

(** ** The cuts of a text *)

Definition unknown_cost : Z := 10000000.

Inductive segmented : text → list (nat * option nat) → Z → Prop :=
| sg_end : segmented [] [] 0
| sg_entry rest k id cuts cost :
    (k, id) ∈ candidates tk rest → (INVALID_SCORE < plamo2_score_int tk id)%Z →
    segmented (drop k rest) cuts cost →
    segmented rest ((k, Some id) :: cuts) (cost - plamo2_score_int tk id)
| sg_unknown c rest cuts cost :
    segmented rest cuts cost → segmented (c :: rest) ((1, None) :: cuts) (cost + unknown_cost).

(** ** The table *)

(** Scores that no sum of overflows, and texts as long. *)
Definition BIG : Z := 2 ^ 40.
Context (Hscores : ∀ id, (plamo2_score_int tk id ≤ BIG)%Z).

Definition small (n : nat) (z : Z) : Prop := (Z.abs z ≤ Z.of_nat n * BIG)%Z.
Definition short (n : nat) : Prop := (Z.of_nat n < 2 ^ 19)%Z.

Lemma plamo_i64 n z : short n → small (S n) z → i64 z = z.
Proof.
  unfold short, small, BIG. intros Hn Hz. unfold i64, signed.
  destruct (Z_lt_dec z 0).
  - rewrite <-(Z.mod_unique z (2 ^ 64) (-1) (z + 2 ^ 64)) by lia. case_match; lia.
  - rewrite Z.mod_small by lia. case_match; lia.
Qed.

(** What a position may take, with what is left to pay after it. *)
Inductive offers (rest : text) (later : list Z) : Z → nat * option nat → Prop :=
| of_entry k id z :
    (k, id) ∈ candidates tk rest → (INVALID_SCORE < plamo2_score_int tk id)%Z → later !! (k - 1) = Some z →
    offers rest later (z - plamo2_score_int tk id) (k, Some id)
| of_unknown z : later !! 0 = Some z → offers rest later (z + unknown_cost) (1, None).

Lemma challenge_is later k score id best n z :
  short n → later !! (k - 1) = Some z → small n z → (INVALID_SCORE < score ≤ BIG)%Z →
  challenge later k score id best = if (z - score <? best.1)%Z then ((z - score)%Z, (k, id)) else best.
Proof.
  intros Hn Hz Hs Hsc. unfold challenge. rewrite Hz. cbn [default Datatypes.id]. rewrite (plamo_i64 n); [done|done|].
  unfold small, INVALID_SCORE, BIG in *. lia.
Qed.

Section one_position.
Context (rest : text) (later : list Z) (n : nat).
Context (Hn : short n) (Hlater : ∀ z, z ∈ later → small n z).

Definition try_candidate (best : Z * (nat * option nat)) (p : nat * nat) : Z * (nat * option nat) :=
  let score := plamo2_score_int tk p.2 in
  if (score <=? INVALID_SCORE)%Z then best else challenge later p.1 score (Some p.2) best.

(** The least of the offers of some candidates, if they undercut [best]. *)
Lemma candidates_least ps best :
  (∀ p, p ∈ ps → p ∈ candidates tk rest ∧ p.1 - 1 < length later) →
  let r := foldl try_candidate best ps in
  (r = best ∨ offers rest later r.1 r.2) ∧ (r.1 ≤ best.1)%Z ∧
  ∀ k id z, (k, id) ∈ ps → (INVALID_SCORE < plamo2_score_int tk id)%Z → later !! (k - 1) = Some z →
    (r.1 ≤ z - plamo2_score_int tk id)%Z.
Proof.
  revert best. induction ps as [|[k id] ps IH]; intros best Hps; cbn [foldl].
  { split_and!; [by left|done|by intros k id z ?%elem_of_nil]. }
  destruct (Hps (k, id)) as [Hc Hk]; [left|]. cbn [fst] in Hk.
  destruct (IH (try_candidate best (k, id))) as (H1 & H2 & H3); [intros p Hp; apply Hps; by right|].
  destruct (lookup_lt_is_Some_2 later (k - 1) Hk) as [z Hz].
  pose proof (Hlater z (list_elem_of_lookup_2 _ _ _ Hz)) as Hsmall. pose proof (Hscores id) as Hbig.
  unfold try_candidate in H1, H2, H3 |- *. cbn [fst snd] in *.
  destruct (Z.leb_spec (plamo2_score_int tk id) INVALID_SCORE) as [Hinv|Hval].
  { split_and!; [done|done|]. intros k' id' z' [Heq|Hin]%elem_of_cons Hv Hz'; [simplify_eq; lia|by eapply H3]. }
  rewrite (challenge_is _ _ _ _ _ _ _ Hn Hz Hsmall) in * by lia.
  destruct (Z.ltb_spec (z - plamo2_score_int tk id) best.1) as [Hlt|Hge]; cbn [fst] in *.
  - split_and!; [|lia|].
    + right. destruct H1 as [->|H1]; [|done]. by constructor.
    + intros k' id' z' [Heq|Hin]%elem_of_cons Hv Hz'; [simplify_eq; lia|by eapply H3].
  - split_and!; [done|lia|].
    intros k' id' z' [Heq|Hin]%elem_of_cons Hv Hz'; [simplify_eq; lia|by eapply H3].
Qed.

Lemma plamo_best_least z0 :
  later !! 0 = Some z0 → (∀ p, p ∈ candidates tk rest → p.1 - 1 < length later) →
  let r := plamo_best tk rest later in
  offers rest later r.1 r.2 ∧ ∀ z cut, offers rest later z cut → (r.1 ≤ z)%Z.
Proof.
  intros H0 Hps. unfold plamo_best.
  pose proof (candidates_least (candidates tk rest) ((2 ^ 60)%Z, (1, None)) ltac:(naive_solver)) as (H1 & H2 & H3).
  unfold try_candidate in H1, H2, H3. set (best := foldl _ _ _) in *.
  pose proof (Hlater z0 (list_elem_of_lookup_2 _ _ _ H0)) as Hsmall.
  assert (UNKNOWN_SCORE = (- unknown_cost)%Z) as -> by done.
  rewrite (challenge_is later 1 _ _ _ n z0 Hn H0 Hsmall) by (unfold INVALID_SCORE, unknown_cost, BIG; lia).
  destruct (Z.ltb_spec (z0 - - unknown_cost) best.1) as [Hlt|Hge]; cbn [fst snd].
  - split.
    + replace (z0 - - unknown_cost)%Z with (z0 + unknown_cost)%Z by lia. by constructor.
    + intros z cut [k id z' Hc Hv Hz|z' Hz]; [specialize (H3 _ _ _ Hc Hv Hz); lia|simplify_eq; lia].
  - split.
    + destruct H1 as [H1|?]; [|done]. rewrite H1 in Hge. cbn [fst] in Hge.
      unfold small, short, unknown_cost, BIG in *. lia.
    + intros z cut [k id z' Hc Hv Hz|z' Hz]; [by eapply H3|simplify_eq; lia].
Qed.
End one_position.

(** *** Every position *)

Definition value (rest : text) : Z := match plamo_table tk rest with [] => 0 | cell :: _ => cell.1 end.

Lemma table_drop k rest : drop k (plamo_table tk rest) = plamo_table tk (drop k rest).
Proof. revert k. induction rest as [|c rest IH]; intros [|k]; try done. cbn [plamo_table drop]. apply IH. Qed.

Lemma length_table rest : length (plamo_table tk rest) = length rest.
Proof. induction rest as [|c rest IH]; [done|]. simpl. by rewrite IH. Qed.

Lemma later_lookup more j :
  j ≤ length more → (map fst (plamo_table tk more) ++ [0%Z]) !! j = Some (value (drop j more)).
Proof.
  revert j. induction more as [|c more IH]; intros [|j] Hj; try done; [simpl in Hj; lia|].
  cbn [plamo_table map app]. simpl in Hj. apply IH. lia.
Qed.

(** What the walk takes, and what it emits for it. *)
Fixpoint emit_cuts (cuts : list (nat * option nat)) (rest : text) : list nat :=
  match cuts, rest with
  | (k, id) :: cuts, c :: _ =>
      match id with Some id => [id] | None => omap (λ b, spm_byte_to_id tk !! b) (encode c) end
      ++ emit_cuts cuts (drop k rest)
  | _, _ => []
  end.

Lemma small_weaken n m z : n ≤ m → small n z → small m z.
Proof. unfold small, BIG. lia. Qed.

Lemma small_step n z s : small n z → (INVALID_SCORE < s ≤ BIG)%Z → small (S n) (z - s).
Proof. unfold small, INVALID_SCORE, BIG. lia. Qed.

(** The cells of a position, from those of the positions after it. *)
Lemma first_cell c more :
  Forall scalar (c :: more) → short (length (c :: more)) →
  (∀ j, j ≤ length more → small (length more) (value (drop j more))) →
  let later := map fst (plamo_table tk more) ++ [0%Z] in
  offers (c :: more) later (value (c :: more)) (plamo_best tk (c :: more) later).2 ∧
  ∀ z cut, offers (c :: more) later z cut → (value (c :: more) ≤ z)%Z.
Proof.
  intros Hsc Hshort Hsmall later.
  assert (length later = S (length more)) as Hlen.
  { unfold later. rewrite length_app, length_map, length_table. simpl. lia. }
  apply (plamo_best_least (c :: more) later (length more)) with (z0 := value more).
  - unfold short in *. simpl in Hshort. lia.
  - intros z [j Hj]%list_elem_of_lookup. pose proof (lookup_lt_Some _ _ _ Hj) as Hlt.
    unfold later in Hj. rewrite later_lookup in Hj by lia. injection Hj as <-. apply Hsmall. lia.
  - unfold later. by rewrite later_lookup by lia.
  - intros [k id] Hp. apply candidate_prefix in Hp as (Hk & _); [|done]. simpl in *. lia.
Qed.

Lemma table_least n rest :
  length rest ≤ n → Forall scalar rest → short (length rest) →
  small (length rest) (value rest) ∧
  (∀ cuts cost, segmented rest cuts cost → (value rest ≤ cost)%Z) ∧
  ∃ cuts, segmented rest cuts (value rest) ∧
    ∀ fuel, length rest ≤ fuel → plamo_walk fuel tk rest (plamo_table tk rest) = emit_cuts cuts rest.
Proof.
  revert rest. induction n as [|n IH]; intros rest Hn Hsc Hshort; (destruct rest as [|c more];
    [split_and!; [done|intros cuts cost Hs|exists []; split; [constructor|by intros [|fuel]]];
     inversion Hs as [|? k id ? ? Hc|]; subst; [done|apply candidate_prefix in Hc as (Hk & _); [simpl in Hk; lia|done]]|]).
  { simpl in Hn. lia. }
  assert (∀ j, j ≤ length more → small (length more) (value (drop j more)) ∧
    (∀ cuts cost, segmented (drop j more) cuts cost → (value (drop j more) ≤ cost)%Z) ∧
    ∃ cuts, segmented (drop j more) cuts (value (drop j more)) ∧
      ∀ fuel, length (drop j more) ≤ fuel →
        plamo_walk fuel tk (drop j more) (plamo_table tk (drop j more)) = emit_cuts cuts (drop j more)) as Hrec.
  { intros j Hj. destruct (IH (drop j more)) as (H1 & H2 & H3).
    - rewrite length_drop. simpl in Hn. lia.
    - apply list.Forall_drop. by inversion Hsc.
    - unfold short in *. rewrite length_drop. simpl in Hshort. lia.
    - split_and!; [|done|done]. eapply small_weaken; [|done]. rewrite length_drop. lia. }
  destruct (first_cell c more Hsc Hshort) as [Hoff Hleast]; [intros j Hj; by apply Hrec|].
  set (later := map fst (plamo_table tk more) ++ [0%Z]) in *.
  assert (∀ k, 1 ≤ k ≤ length (c :: more) → later !! (k - 1) = Some (value (drop k (c :: more)))) as Hat.
  { intros k Hk. simpl in Hk. unfold later. rewrite later_lookup by lia. destruct k as [|k]; [lia|]. simpl. by rewrite Nat.sub_0_r. }
  assert (later !! 0 = Some (value more)) as Hat0 by (apply (Hat 1); simpl; lia).
  assert (∀ k cuts id, 1 ≤ k ≤ length (c :: more) → (plamo_best tk (c :: more) later).2 = (k, id) →
    (∀ fuel, length (drop k (c :: more)) ≤ fuel →
      plamo_walk fuel tk (drop k (c :: more)) (plamo_table tk (drop k (c :: more))) = emit_cuts cuts (drop k (c :: more))) →
    ∀ fuel, length (c :: more) ≤ fuel →
      plamo_walk fuel tk (c :: more) (plamo_table tk (c :: more)) = emit_cuts ((k, id) :: cuts) (c :: more)) as Hwalk.
  { intros k cuts id Hk Hcell Hw [|fuel] Hf; [simpl in Hf; lia|]. rewrite <-table_drop in Hw.
    cbn [plamo_table plamo_walk emit_cuts] in *. fold later in Hw |- *. destruct (plamo_best tk (c :: more) later) as [z cell].
    cbn [snd] in Hcell. subst cell. f_equal. apply Hw. rewrite length_drop in *. simpl in *. lia. }
  split_and!.
  - inversion Hoff as [k id z Hc Hv Hz Heq Hcut|z Hz Heq Hcut].
    + destruct (candidate_prefix _ _ _ Hsc Hc) as (Hk & _). rewrite Hat in Hz by done. injection Hz as <-.
      destruct (Hrec (k - 1)) as [Hs _]; [simpl in Hk; lia|]. destruct k as [|k]; [lia|]. cbn [drop].
      rewrite Nat.sub_succ, Nat.sub_0_r in Hs. by apply small_step.
    + rewrite Hat0 in Hz. injection Hz as <-. destruct (Hrec 0) as [Hs _]; [lia|].
      rewrite drop_0 in Hs. unfold small, unknown_cost, BIG in *. cbn [length]. lia.
  - intros cuts cost Hs. inversion Hs as [|? k id cuts' cost' Hc Hv Hs'|? ? cuts' cost' Hs']; subst.
    + destruct (candidate_prefix _ _ _ Hsc Hc) as (Hk & _).
      specialize (Hleast _ _ (of_entry _ _ _ _ _ Hc Hv (Hat k Hk))).
      destruct (Hrec (k - 1)) as (_ & Hl & _); [simpl in Hk; lia|]. destruct k as [|k]; [lia|]. cbn [drop] in *.
      rewrite Nat.sub_succ, Nat.sub_0_r in Hl. specialize (Hl _ _ Hs'). lia.
    + specialize (Hleast _ _ (of_unknown _ _ _ Hat0)).
      destruct (Hrec 0) as (_ & Hl & _); [lia|]. rewrite drop_0 in Hl. specialize (Hl _ _ Hs'). lia.
  - inversion Hoff as [k id z Hc Hv Hz Heq Hcut|z Hz Heq Hcut].
    + destruct (candidate_prefix _ _ _ Hsc Hc) as (Hk & _). rewrite Hat in Hz by done. injection Hz as <-.
      destruct (Hrec (k - 1)) as (_ & _ & cuts & Hseg & Hw); [simpl in Hk; lia|].
      assert (drop (k - 1) more = drop k (c :: more)) as Hd by (destruct k; [lia|simpl; by rewrite Nat.sub_0_r]).
      rewrite Hd in Hseg, Hw. exists ((k, Some id) :: cuts). split; [by constructor|]. by apply Hwalk.
    + rewrite Hat0 in Hz. injection Hz as <-.
      destruct (Hrec 0) as (_ & _ & cuts & Hseg & Hw); [lia|]. exists ((1, None) :: cuts).
      split; [by constructor|]. apply Hwalk; [simpl; lia|done|exact Hw].
Qed.

(** The cut of least cost is what is emitted. *)
Lemma plamo2_least t :
  Forall scalar (strip_bom t) → short (length (strip_bom t)) →
  ∃ cuts cost, segmented (strip_bom t) cuts cost ∧
    (∀ cuts' cost', segmented (strip_bom t) cuts' cost' → (cost ≤ cost')%Z) ∧
    plamo2_encode tk t = emit_cuts cuts (strip_bom t).
Proof.
  intros Hsc Hshort. destruct (table_least _ (strip_bom t) (le_n _) Hsc Hshort) as (_ & Hl & cuts & Hs & Hw).
  exists cuts, (value (strip_bom t)). split_and!; [done|done|]. unfold plamo2_encode. by apply Hw.
Qed.

(** ** Back to text *)

Lemma emit_unknown_bytes c :
  decode_bytes tk (omap (λ b, spm_byte_to_id tk !! b) (encode c)) = encode c.
Proof.
  induction (encode c) as [|b bs IH]; [done|]. cbn [omap list_omap].
  destruct (ld_bytes _ Hld b) as (id & u & Hid & Hu & Hty & Hp); [by rewrite Hmodel|]. rewrite Hid.
  transitivity (decode_bytes tk ([id] ++ omap (λ b, spm_byte_to_id tk !! b) bs)); [done|].
  rewrite decode_app, IH. unfold decode_bytes. rewrite bind_cons, Hu, Hmodel. cbn [mbind list_bind app].
  unfold spm_piece. by rewrite Hty, Hp.
Qed.

(** Any cut of a text without [▁] is that text. *)
Lemma segmented_decodes rest cuts cost :
  Forall scalar rest → SPM_SPACE ∉ rest → segmented rest cuts cost →
  decode_bytes tk (emit_cuts cuts rest) = encode_all rest.
Proof.
  intros Hsc Hno Hs. induction Hs as [|rest k id cuts cost Hc Hv Hs IH|c rest cuts cost Hs IH]; [done| |].
  - destruct (candidate_prefix _ _ _ Hsc Hc) as (Hk & Ht & Hty). destruct rest as [|c rest]; [simpl in Hk; lia|].
    cbn [emit_cuts]. rewrite decode_app, IH.
    + rewrite <-(take_drop k (c :: rest)) at 2. rewrite encode_all_app. f_equal.
      unfold decode_bytes. rewrite bind_cons, Ht, Hmodel. cbn [mbind list_bind app]. rewrite app_nil_r.
      unfold spm_piece. rewrite (proj2 (Z.eqb_neq _ _) Hty). rewrite encode_all_bind.
      assert (SPM_SPACE ∉ take k (c :: rest)) as Hno'.
      { intros Hin. apply Hno. rewrite <-(take_drop k (c :: rest)). apply elem_of_app. by left. }
      clear Ht. induction (take k (c :: rest)) as [|x xs IHx]; [done|]. rewrite !bind_cons. rewrite not_elem_of_cons in Hno'.
      f_equal; [|apply IHx, Hno']. unfold unspaced. by rewrite (proj2 (Z.eqb_neq _ _) (not_eq_sym (proj1 Hno'))).
    + by apply list.Forall_drop.
    + intros Hin. apply Hno. rewrite <-(take_drop k (c :: rest)). apply elem_of_app. by right.
  - cbn [emit_cuts]. change (drop 1 (c :: rest)) with rest. rewrite decode_app, emit_unknown_bytes, IH; [by rewrite encode_all_cons|by inversion Hsc|].
    by apply not_elem_of_cons in Hno as [_ ?].
Qed.
End plamo.
