(* ===== verification/ToyTokens.v ===== *)
(** * Small instances and small files for the witnesses

    ASCII classes, one composed character, integer scores; and a file for each
    engine whose theorems are instantiated. *)
From Stdlib Require Import ZArith Lia ZifyBool Strings.Byte String.
From coqutil Require Import Byte LittleEndianList.
From stdpp Require Import base numbers list option gmap.
From S2P Require Import Prelude Gguf Utf8 Pretok Nfc VocabTrie TokenText Tokenizer SpmMerge Encode TokenizerLoad.
From S2P Require Grammar.
Local Open Scope nat_scope.
#[local] Existing Instance Grammar.byte_countable.

(** ** Classes *)

#[export] Instance ascii_classes : UnicodeClasses := {
  is_letter c := in_range 0x41 0x5A c || in_range 0x61 0x7A c;
  is_number c := in_range 0x30 0x39 c;
  is_accent_mark c := (c =? 0x301)%Z
}.

#[export] Instance ascii_laws : UnicodeLaws.
Proof. split; try done; intros c; cbn; unfold is_whitespace, in_range; intros; lia. Qed.

#[export] Instance one_table : NfcTables := {
  DECOMPOSITION := [(0xE9, [0x65; 0x301])]%Z;
  COMBINING_CLASS := [(0x301, 230)]%Z;
  COMPOSITION := [(0x65, 0x301, 0xE9)]%Z;
  COMPOSITION_SECOND := [0x301]%Z
}.

#[export] Instance one_table_laws : NfcLaws.
Proof.
  split; unfold decomposition_of, combining_class, composition, is_composition_second;
    cbn [DECOMPOSITION COMBINING_CLASS COMPOSITION COMPOSITION_SECOND one_table List.find existsb fst snd];
    unfold is_hangul_syllable, is_hangul_jamo, within, S_BASE, S_COUNT, L_BASE, L_COUNT, V_BASE,
    V_COUNT, T_BASE, T_COUNT, N_COUNT; intros *.
  - intros. destruct (Z.eqb_spec 0xE9 c); [lia|done].
  - intros. destruct (Z.eqb_spec 0x301 c); [lia|done].
  - lia.
  - destruct (Z.eqb_spec 0x65 a), (Z.eqb_spec 0x301 b); [by subst|done..].
  - intros. destruct (Z.eqb_spec 0x301 c); [lia|done].
  - lia.
Qed.

#[export] Instance ascii_chars : CharClasses := {
  is_control_char c := (c <? 0x20)%Z;
  is_punctuation_char c := (c =? 0x2E)%Z;
  is_accent_mark_char c := (c =? 0x301)%Z;
  is_alphanumeric c := in_range 0x30 0x39 c || in_range 0x41 0x5A c || in_range 0x61 0x7A c;
  to_lowercase c := [ascii_lower c]
}.

(** Scores are the integers their bits spell. *)
#[export] Instance integer_scores : ScoreMath Z Z := {
  f32_of_bits := signed 32;
  f32_zero := 0%Z;
  f32_max := (2 ^ 31 - 1)%Z;
  f32_min := Z.min;
  f32_eqb := Z.eqb;
  f32_minus_ten x := (x - 10)%Z;
  partial_cmp a b := Some (a ?= b)%Z;
  is_finite _ := true;
  scaled x := x;
  to_f64 x := x;
  f64_zero := 0%Z;
  f64_min := (- 2 ^ 40)%Z;
  f64_add := Z.add;
  f64_gt a b := (b <? a)%Z
}.

Lemma integer_scores_ordered scores : ordered_scores (F:=Z) id scores.
Proof. by intros a b _ _. Qed.

(** The first of the greatest elements. *)
Fixpoint first_greatest {A} (cmp : A → A → comparison) (i : nat) (best : option (nat * A)) (l : list A) : nat :=
  match l with
  | [] => match best with Some (j, _) => j | None => O end
  | x :: l =>
      first_greatest cmp (S i)
        (match best with
         | Some (_, y) => match cmp x y with Gt => Some (i, x) | _ => best end
         | None => Some (i, x)
         end) l
  end.

(** [BinaryHeap] modelled by the first of the greatest. *)
Definition toy_pick : list (SpmBigram Z) → nat := first_greatest bigram_cmp 0 None.

(** ** A tokenizer with nothing in it: [Tokenizer::empty] *)

Definition empty : Tokenizer Z :=
  mkTokenizer [] [] [] ∅ ∅ ∅ ∅ ∅ Gpt2 (Some Qwen2) false ∅ (mkNormalizer true true) 0 0
    (mkUgm [] [] 0%Z [] []) false None false ∅ 0 0.

(** What a load gives, if it gives something. *)
Definition loaded_of {E} (m : res E (Tokenizer Z)) : Tokenizer Z := match m with Ok tk => tk | _ => empty end.

Lemma loaded_of_ok {E} (m : res E (Tokenizer Z)) : is_ok m = true → m = Ok (loaded_of m).
Proof. by destruct m. Qed.

(** ** Files *)

Definition toy_file (kvs : list GgufKv) : GgufContext := mkCtx GGUF_VERSION kvs [] 32 0 0.

Definition numbers (bits : nat) (xs : list Z) : bytes := xs ≫= le_split bits.
Definition tokens_kv (tokens : list bytes) : GgufKv := new_string_array (ggml_key "tokens") tokens.
Definition types_kv (types : list Z) : GgufKv := new_array (ggml_key "token_type") GgufType.Int32 (numbers 4 types).
Definition scores_kv (scores : list Z) : GgufKv := new_array (ggml_key "scores") GgufType.Float32 (numbers 4 scores).
Definition merges_kv (merges : list bytes) : GgufKv := new_string_array (ggml_key "merges") merges.
Definition string_kv (key value : string) : GgufKv := new_string (ggml_key key) (bstr value).

(** The 256 byte characters, [Ġa] and a control token. *)
Definition bpe_file : GgufContext := toy_file
  [string_kv "model" "gpt2"; string_kv "pre" "qwen2";
   tokens_kv (map (λ b, encode (byte_char b)) all_bytes ++ [encode_all (map byte_char (bstr " a")); bstr "<s>"]);
   types_kv (replicate 257 1%Z ++ [3%Z]);
   merges_kv [encode (byte_char x20) ++ bstr " a"]].

Definition hex_char (n : Z) : byte := byte.of_Z (if (n <? 10)%Z then 0x30 + n else 0x61 + (n - 10)).
Definition two_digits (b : byte) : bytes := [hex_char (uz b / 16); hex_char (uz b mod 16)].

(** Every byte escaped, and [ab]. *)
Definition rwkv_file : GgufContext := toy_file
  [string_kv "model" "rwkv"; tokens_kv (map (λ b, bstr "\x" ++ two_digits b) all_bytes ++ [bstr "ab"])].

Definition byte_entry (b : byte) : bytes := bstr "<0x" ++ two_digits b ++ bstr ">".

(** The 256 byte tokens and some entries, the last ones with scores. *)
Definition spm_file : GgufContext := toy_file
  [string_kv "model" "llama";
   tokens_kv (map byte_entry all_bytes ++ [encode SPM_SPACE; bstr "a"; bstr "b"; bstr "ab"; encode SPM_SPACE ++ bstr "ab"]);
   types_kv (replicate 256 6%Z ++ replicate 5 1%Z);
   scores_kv (replicate 256 0%Z ++ [1; 2; 3; 5; 4]%Z)].

Definition plamo_file : GgufContext := toy_file
  [string_kv "model" "plamo2";
   tokens_kv (map byte_entry all_bytes ++ [bstr "a"; bstr "ab"; bstr "bc"]);
   types_kv (replicate 256 6%Z ++ replicate 3 1%Z);
   scores_kv (replicate 256 0%Z ++ [1; 2; 9]%Z)].

(** Three entries, one of them a control token without text. *)
Definition sparse_file : GgufContext := toy_file
  [string_kv "model" "gpt2"; string_kv "pre" "qwen2"; tokens_kv [bstr "a"; bstr "b"; bstr ""];
   types_kv [1; 1; 3]%Z; merges_kv [bstr "a b"]].

Definition bpe_tokenizer : Tokenizer Z := loaded_of (load bpe_file).
Definition rwkv_tokenizer : Tokenizer Z := loaded_of (load rwkv_file).
Definition spm_tokenizer : Tokenizer Z := loaded_of (load spm_file).
Definition plamo_tokenizer : Tokenizer Z := loaded_of (load plamo_file).
Definition sparse_tokenizer : Tokenizer Z := loaded_of (load sparse_file).

Lemma bpe_loads : load bpe_file = Ok bpe_tokenizer.
Proof. unfold bpe_tokenizer. apply loaded_of_ok. vm_compute. reflexivity. Qed.

Lemma rwkv_loads : load rwkv_file = Ok rwkv_tokenizer.
Proof. unfold rwkv_tokenizer. apply loaded_of_ok. vm_compute. reflexivity. Qed.

Lemma spm_loads : load spm_file = Ok spm_tokenizer.
Proof. unfold spm_tokenizer. apply loaded_of_ok. vm_compute. reflexivity. Qed.

Lemma plamo_loads : load plamo_file = Ok plamo_tokenizer.
Proof. unfold plamo_tokenizer. apply loaded_of_ok. vm_compute. reflexivity. Qed.

Lemma sparse_loads : load sparse_file = Ok sparse_tokenizer.
Proof. unfold sparse_tokenizer. apply loaded_of_ok. vm_compute. reflexivity. Qed.

(** ** The first of the greatest is one *)

Lemma first_greatest_spec {A} (cmp : A → A → comparison) (i j : nat) (y : A) (l : list A) :
  (∀ x y z, cmp x y ≠ Gt → cmp y z ≠ Gt → cmp x z ≠ Gt) → (∀ x y, cmp x y = Gt → cmp y x ≠ Gt) → cmp y y ≠ Gt →
  ∃ z, ((first_greatest cmp i (Some (j, y)) l = j ∧ z = y) ∨
        (i ≤ first_greatest cmp i (Some (j, y)) l ∧ l !! (first_greatest cmp i (Some (j, y)) l - i) = Some z)) ∧
    cmp y z ≠ Gt ∧ ∀ x, x ∈ l → cmp x z ≠ Gt.
Proof.
  intros Htrans Hanti. revert i j y. induction l as [|x l IH]; intros i j y Hy; cbn [first_greatest].
  { exists y. split; [by left|]. split; [done|]. by intros x ?%elem_of_nil. }
  destruct (cmp x y) eqn:Hc.
  3: { destruct (IH (S i) i x) as (z & Hz & Hxz & Hall); [intros Hx; by apply (Hanti x x)|]. exists z. split; [|split].
       - right. destruct Hz as [[-> ->]|[Hle Hz]]; [by rewrite Nat.sub_diag|]. split; [lia|].
         by replace (_ - i) with (S (first_greatest cmp (S i) (Some (i, x)) l - S i)) by lia.
       - by apply (Htrans _ x), Hxz; apply Hanti.
       - intros x' [->|?]%elem_of_cons; [done|by apply Hall]. }
  1, 2: destruct (IH (S i) j y Hy) as (z & Hz & Hyz & Hall); exists z; split; [|split; [done|]];
    [destruct Hz as [?|[Hle Hz]]; [by left|right; split; [lia|];
       by replace (_ - i) with (S (first_greatest cmp (S i) (Some (j, y)) l - S i)) by lia]
    |intros x' [->|?]%elem_of_cons; [apply (Htrans _ y); congruence|by apply Hall]].
Qed.

Lemma bigram_cmp_gt (a b : SpmBigram Z) :
  bigram_cmp a b = Gt ↔ (bg_score b < bg_score a)%Z ∨ bg_score a = bg_score b ∧ bg_left a < bg_left b.
Proof.
  unfold bigram_cmp. cbn [partial_cmp integer_scores default Datatypes.id].
  destruct (Z.compare_spec (bg_score a) (bg_score b)) as [He|He|He].
  - rewrite Nat.compare_gt_iff. lia.
  - split; [done|lia].
  - split; [lia|done].
Qed.

Lemma toy_picks_greatest : picks_greatest toy_pick.
Proof.
  intros [|y q] Hq; [done|]. unfold toy_pick. cbn [first_greatest].
  destruct (first_greatest_spec bigram_cmp 1 0 y q) as (z & Hz & Hyz & Hall).
  - intros a b c. rewrite !bigram_cmp_gt. lia.
  - intros a b. rewrite !bigram_cmp_gt. lia.
  - rewrite bigram_cmp_gt. lia.
  - exists z. split; [|intros b [->|?]%elem_of_cons; [done|by apply Hall]].
    destruct Hz as [[-> ->]|[Hle Hz]]; [done|].
    by replace (first_greatest bigram_cmp 1 (Some (0, y)) q) with (S (first_greatest bigram_cmp 1 (Some (0, y)) q - 1)) by lia.
Qed.

(** ** What the files hold *)

Lemma bpe_specials u id : special_tokens bpe_tokenizer !! u = Some id → u = chars_of (bstr "<s>").
Proof.
  assert (special_tokens bpe_tokenizer = {[ chars_of (bstr "<s>") := 257 ]}) as -> by (vm_compute; reflexivity).
  by intros [<- _]%lookup_singleton_Some.
Qed.

Lemma sparse_specials u id : special_tokens sparse_tokenizer !! u = Some id → u = [].
Proof.
  assert (special_tokens sparse_tokenizer = {[ [] := 2 ]}) as -> by (vm_compute; reflexivity).
  by intros [<- _]%lookup_singleton_Some.
Qed.

Lemma forallb_lookup {A} (f : A → bool) l i x : forallb f l = true → l !! i = Some x → f x = true.
Proof.
  intros Hall Hx. rewrite forallb_forall in Hall. apply Hall, list_elem_of_In. by eapply list_elem_of_lookup_2.
Qed.

(** The entry is six characters long if it is of the type BYTE. *)
Definition six_if_byte (types : list Z) (p : nat * text) : bool :=
  negb (default 1 (types !! p.1) =? 6)%Z || (length p.2 =? 6).

Lemma six_if_byte_numbered types tokens id t :
  forallb (six_if_byte types) (numbered tokens) = true → tokens !! id = Some t →
  default 1%Z (types !! id) = 6%Z → length t = 6.
Proof.
  intros Hall Ht Hty. assert (six_if_byte types (id, t) = true) as Hs.
  { apply (forallb_lookup _ _ id _ Hall). unfold numbered. by rewrite list_lookup_imap, Ht. }
  unfold six_if_byte in Hs. cbn [fst snd] in Hs. rewrite Hty in Hs. by apply Nat.eqb_eq in Hs.
Qed.

Lemma spm_byte_entries id t :
  id_to_token spm_tokenizer !! id = Some t → type_of spm_tokenizer id = 6%Z → length t = 6.
Proof. apply six_if_byte_numbered. vm_compute. reflexivity. Qed.

Lemma plamo_scores id : (plamo2_score_int plamo_tokenizer id ≤ 2 ^ 40)%Z.
Proof.
  unfold plamo2_score_int. cbn [is_finite scaled integer_scores].
  destruct (id_to_score plamo_tokenizer !! id) as [s|] eqn:Hs; [|done].
  apply Z.leb_le. apply (forallb_lookup (λ s, s <=? 2 ^ 40)%Z (id_to_score plamo_tokenizer) id s); [vm_compute; reflexivity|exact Hs].
Qed.

Definition every_byte (trie : VocabTrie) : bool :=
  forallb (λ b, match trie_lookup trie [b] with Some _ => true | None => false end) all_bytes.

Lemma every_byte_entry trie b : every_byte trie = true → is_Some (trie_lookup trie [b]).
Proof.
  intros Hall. apply (all_bytes_test _ b) in Hall. cbv beta in Hall. by destruct (trie_lookup _ [b]) as [id|]; [exists id|].
Qed.

Lemma rwkv_bytes b : is_Some (trie_lookup (ug_trie (ugm rwkv_tokenizer)) [b]).
Proof. apply every_byte_entry. vm_compute. reflexivity. Qed.

Lemma forallb_Forall_dec {A} (P : A → Prop) `{!∀ x, Decision (P x)} l :
  forallb (λ x, bool_decide (P x)) l = true → Forall P l.
Proof. intros Hl. apply list.Forall_forall. intros x Hx%list_elem_of_In. rewrite forallb_forall in Hl. by apply (bool_decide_eq_true_1 (P x)), Hl. Qed.

Lemma plamo_chars : Forall (Forall scalar) (id_to_token plamo_tokenizer).
Proof. apply (forallb_Forall_dec (Forall scalar)). vm_compute. reflexivity. Qed.

(** A special token of [bpe_file] is written in characters that are their own
    bytes. *)
Lemma bpe_specials_plain u id :
  special_tokens bpe_tokenizer !! u = Some id → u ≠ [] ∧ Forall (λ c, unicode_byte bpe_tokenizer c = encode c) u.
Proof.
  intros ->%bpe_specials. split; [vm_compute; discriminate|].
  apply (forallb_Forall_dec (λ c, unicode_byte bpe_tokenizer c = encode c)). vm_compute. reflexivity.
Qed.
