(* ===== verification/TokenProps.v ===== *)
(** * The tokenizer's properties

    The scan of every rule is its regular expression; the normalization test
    is exact; what goes in comes back; the merge queue of SentencePiece is the
    greedy merge and the program of PLaMo-2 optimal; and where [encode] does
    not come back. *)
From Stdlib Require Import ZArith Strings.Byte String.
From coqutil Require Import Byte.
From stdpp Require Import base numbers list option gmap.
From S2P Require Import Prelude Gguf Utf8 Utf8Facts Pretok Nfc VocabTrie TokenText Tokenizer SpmMerge Encode TokenizerLoad TokenizerFacts TokenRound ToyTokens.
From S2P Require Grammar.
Local Open Scope nat_scope.
#[local] Existing Instance Grammar.byte_countable.

(** ** Pre-tokenization and normalization *)



(** C33. A text that the quick test lets through unchanged is in normal form
    already: [nfc] is the full decomposition, ordering and composition on
    every text. *)
Theorem nfc_quick_check_exact `{!NfcTables, !NfcLaws} (fuel : nat) (t : text) :
  Forall (λ c, 0 ≤ c)%Z t → nfc fuel t = full_nfc fuel t.
Proof. apply nfc_full. Qed.

Lemma nfc_quick_check_exact_witness :
  nfc 4 [0x61; 0x65; 0x301]%Z = full_nfc 4 [0x61; 0x65; 0x301]%Z ∧ nfc 4 [0x61; 0x65; 0x301]%Z = [0x61; 0xE9]%Z.
Proof. split; [apply nfc_quick_check_exact; repeat constructor; lia|reflexivity]. Defined.

(** ** Round trips *)

Section trips.
Context {F G : Type} `{!ScoreMath F G, !UnicodeClasses, !UnicodeLaws, !CharClasses, !NfcTables}.
Context (nfc_depth : nat) (pick : list (SpmBigram F) → nat).

(** C29. Byte-level encoding loses nothing: for a loaded [gpt2] vocabulary with
    its 256 byte tokens [encode] comes back, special tokens and all, and its
    ids decode to the bytes of the normalized text. *)
Theorem bpe_round_trip (g : GgufContext) (tk : Tokenizer F) (t : text) :
  load g = Ok tk → model tk = Gpt2 → missing_bytes (vocab tk) = [] → pre tk ≠ Some WhitespaceRule →
  (∀ u id, special_tokens tk !! u = Some id → u ≠ [] ∧ Forall (λ c, unicode_byte tk c = encode c) u) →
  ∃ ids, encode_tokens nfc_depth pick tk t = Ok ids ∧ decode_bytes tk ids = encode_all (normalized nfc_depth tk t).
Proof.
  intros Hload%load_ok Hm Hall Hws Hsp. rewrite encode_all_bind.
  assert (byte_level (model tk) = true) as Hb by (by rewrite Hm).
  apply encode_loop_encodes; [apply Hload| | |done].
  - intros u b. by apply encode_text_bpe_encodes.
  - intros u id Hu. destruct (Hsp _ _ Hu) as [Hne Hplain]. split; [done|].
    rewrite (decode_byte_level tk _ u) by
      (done || (destruct (ld_special _ Hload) as [_ Hs]; apply Hs; by rewrite ?Hm)).
    clear Hu Hne. induction Hplain as [|c u Hc _ IH]; [done|]. by rewrite !bind_cons, Hc, IH.
Qed.

(** The RWKV walk loses nothing when every byte is an entry of its own. *)
Theorem rwkv_round_trip (g : GgufContext) (tk : Tokenizer F) (t : text) :
  load g = Ok tk → model tk = Rwkv → (∀ b, is_Some (trie_lookup (ug_trie (ugm tk)) [b])) →
  ∃ ids, encode_raw nfc_depth pick tk t = Ok ids ∧ decode_bytes tk ids = encode_all (normalized nfc_depth tk t).
Proof.
  intros Hload%load_ok Hm Hall. rewrite encode_all_bind. by apply encode_text_rwkv_encodes.
Qed.

(** C30. The heap of bigrams with its stale entries computes the greedy merge:
    whichever of the greatest bigrams is popped, the tokens are those of the
    pieces left when the best adjacent pair, the leftmost of them, is joined
    until none joins; and the loop ends. *)
Theorem spm_queue_is_greedy (tk : Tokenizer F) (key : F → Z) (t : text) :
  ordered_scores key (id_to_score tk) → picks_greatest pick → t ≠ [] →
  spm_encode pick tk t = concat_map (piece_tokens tk) (spm_reference tk t).
Proof. intros Hkey Hpick. by apply (spm_encode_greedy pick tk key). Qed.

(** SentencePiece encoding of a loaded vocabulary never panics, and gives
    back the text with its spaces, up to the prefix it adds, when no byte
    token is spelled out in it. *)
Theorem spm_round_trip (g : GgufContext) (tk : Tokenizer F) (key : F → Z) (t : text) :
  load g = Ok tk → model tk = Spm → ordered_scores key (id_to_score tk) → picks_greatest pick →
  is_Some (vocab tk !! [SPM_SPACE]) →
  let u := normalized nfc_depth tk t in
  let escaped := (if add_space_prefix tk then [SPM_SPACE] else []) ++ escape_spaces u in
  u ≠ [] → no_byte_entry tk escaped →
  ∃ ids, encode_raw nfc_depth pick tk t = Ok ids ∧
    decode_bytes tk ids = (if add_space_prefix tk then [x20] else []) ++ (u ≫= unspaced).
Proof.
  intros Hload%load_ok Hm Hkey Hpick Hsp u escaped Hu Hno. unfold encode_raw. fold u.
  assert (encode_text nfc_depth pick tk u true = spm_encode pick tk escaped) as ->.
  { destruct u as [|c u]; [done|]. cbn [encode_text]. rewrite Hm, andb_true_r. done. }
  rewrite (spm_encode_greedy pick tk key Hkey Hpick) by (unfold escaped; by destruct (add_space_prefix tk), u).
  destruct (spm_reference_encodes tk Hload escaped Hm Hsp Hno) as (ids & -> & Hids). exists ids. split; [done|].
  rewrite Hids. unfold escaped. rewrite bind_app, escape_unspaced. by destruct (add_space_prefix tk).
Qed.


(** ** Where [encode] does not come back *)

(** A token declared special whose text is empty stops [encode] for good at
    a NUL character: the loop cuts out nothing and goes on, whatever the
    fuel. *)
Theorem empty_special_never_ends (g : GgufContext) (tk : Tokenizer F) (id : nat) (rest : text) (b : bool) (fuel : nat) :
  load g = Ok tk → special_tokens tk !! [] = Some id →
  (∀ u i, special_tokens tk !! u = Some i → head u ≠ Some 0%Z) →
  encode_loop nfc_depth pick fuel tk (0%Z :: rest) b = Err StillRunning.
Proof.
  intros Hload%load_ok He Hno. destruct (ld_special _ Hload) as [Hix _].
  assert (special_scan (special_by_first tk) 0 (0%Z :: rest) = Some (0, id, 0)) as Hscan.
  { rewrite Hix. cbn [special_scan]. unfold special_here. cbn [head mbind option_bind].
    destruct (special_index_complete _ _ _ He) as (group & Hg & Hin). cbn [head default] in Hg. rewrite Hg.
    cbn [mbind option_bind].
    destruct (list_find_elem_of (λ p : text * nat, starts_with p.1 (0%Z :: rest) = true) group ([], id)) as [[i p] Hp];
      [done|done|]. rewrite Hp. cbn [mbind option_bind snd].
    apply list_find_Some in Hp as (Hi & Hs & _). apply list_elem_of_lookup_2 in Hi.
    destruct (special_index_entry _ _ _ _ Hg Hi) as [Hp1 Hc]. destruct p as [[|c u] j]; cbn [fst snd head default] in *.
    - rewrite He in Hp1. by injection Hp1 as ->.
    - exfalso. apply (Hno _ _ Hp1). by rewrite Hc. }
  revert b. induction fuel as [|fuel IH]; intros b; cbn [encode_loop]; rewrite Hscan; [done|].
  cbn [Nat.ltb Nat.leb mbind res_bind mret res_ret Nat.add drop]. by rewrite IH.
Qed.

(** A byte the vocabulary has no token for is a panic, not the refusal at
    load: the completeness test lets such vocabularies through. *)
Theorem missing_byte_panics (g : GgufContext) (tk : Tokenizer F) (c : Z) (b : bool) :
  load g = Ok tk → model tk = Gpt2 → pre tk ≠ Some WhitespaceRule → (0 ≤ c < 128)%Z →
  vocab tk !! [byte_char (byte.of_Z c)] = None →
  encode_text nfc_depth pick tk [c] b = Panic.
Proof.
  intros Hload%load_ok Hm Hws Hc Hv. cbn [encode_text]. rewrite Hm. unfold encode_bpe, look.
  destruct (ld_rule _ Hload) as [rule Hrule]; [by rewrite Hm|]. rewrite Hrule in *. cbn [or_panic mbind res_bind].
  assert (split rule [c] = [[c]]) as ->.
  { destruct (split_tiles rule [c]) as [Hcat Hne]; [congruence|]. destruct (split rule [c]) as [|x xs]; [done|].
    apply list.Forall_cons in Hne as [Hx Hxs]. destruct x as [|y x]; [done|]. cbn in Hcat. injection Hcat as -> Hcat.
    apply app_nil in Hcat as [-> Hxs']. destruct xs as [|z xs]; [done|]. apply list.Forall_cons in Hxs as [Hz _].
    by destruct z. }
  cbn [concat_map foldr]. destruct (ld_alphabet _ Hload) as [-> _]. rewrite byte_encode_ok.
  assert (encode_all [c] = [byte.of_Z c]) as ->.
  { rewrite encode_all_cons. unfold encode. by rewrite (proj2 (Z.ltb_lt _ _)) by lia. }
  cbn [total mbind res_bind map]. rewrite Hv.
  replace (if ignore_merges tk then None else None) with (@None nat) by (by destruct (ignore_merges tk)).
  assert (bpe_encode tk [byte_char (byte.of_Z c)] = Panic) as ->; [|done].
  unfold bpe_encode, merge_word. cbn [length map merge_loop best_merge concat_map foldr]. rewrite Hv.
  unfold byte_fallback, look. cbn [concat_map foldr]. by rewrite Hv.
Qed.
End trips.

(** ** Witnesses *)

Lemma bpe_round_trip_witness :
  ∃ ids, encode_tokens 4 toy_pick bpe_tokenizer (chars_of (bstr "a a<s>")) = Ok ids ∧
    decode_bytes bpe_tokenizer ids = encode_all (normalized 4 bpe_tokenizer (chars_of (bstr "a a<s>"))).
Proof.
  apply (bpe_round_trip 4 toy_pick bpe_file).
  - apply bpe_loads.
  - vm_compute; reflexivity.
  - vm_compute; reflexivity.
  - vm_compute; discriminate.
  - apply bpe_specials_plain.
Defined.

Lemma rwkv_round_trip_witness :
  ∃ ids, encode_raw 4 toy_pick rwkv_tokenizer [0x61; 0x62; 0xE9]%Z = Ok ids ∧
    decode_bytes rwkv_tokenizer ids = encode_all (normalized 4 rwkv_tokenizer [0x61; 0x62; 0xE9]%Z).
Proof.
  apply (rwkv_round_trip 4 toy_pick rwkv_file).
  - apply rwkv_loads.
  - vm_compute; reflexivity.
  - apply rwkv_bytes.
Defined.

Lemma spm_queue_is_greedy_witness :
  spm_encode toy_pick spm_tokenizer [SPM_SPACE; 0x61; 0x62; 0x63]%Z =
  concat_map (piece_tokens spm_tokenizer) (spm_reference spm_tokenizer [SPM_SPACE; 0x61; 0x62; 0x63]%Z).
Proof.
  apply (spm_queue_is_greedy toy_pick spm_tokenizer id).
  - apply integer_scores_ordered.
  - apply toy_picks_greatest.
  - discriminate.
Defined.

Lemma spm_round_trip_witness :
  ∃ ids, encode_raw 4 toy_pick spm_tokenizer [0x61; 0x20; 0x62]%Z = Ok ids ∧
    decode_bytes spm_tokenizer ids =
    (if add_space_prefix spm_tokenizer then [x20] else []) ++ (normalized 4 spm_tokenizer [0x61; 0x20; 0x62]%Z ≫= unspaced).
Proof.
  assert (model spm_tokenizer = Spm) as Hm by (vm_compute; reflexivity).
  apply (spm_round_trip 4 toy_pick spm_file spm_tokenizer id).
  - apply spm_loads.
  - done.
  - apply integer_scores_ordered.
  - apply toy_picks_greatest.
  - vm_compute. by eexists.
  - vm_compute; discriminate.
  - intros l w r i Hw Hv Hty.
    assert (length w = 6) as Hlen.
    { apply (spm_byte_entries i); [|done]. apply (ld_vocab _ (load_ok _ _ spm_loads)); [done|by rewrite Hm|by rewrite Hm]. }
    assert (length (l ++ w ++ r) = 4) as Hl by (rewrite <-Hw; vm_compute; reflexivity).
    rewrite !length_app in Hl. lia.
Defined.


Lemma empty_special_never_ends_witness :
  encode_loop 4 toy_pick 1000 sparse_tokenizer [0; 0x61]%Z true = Err StillRunning.
Proof.
  apply (empty_special_never_ends 4 toy_pick sparse_file sparse_tokenizer 2).
  - apply sparse_loads.
  - vm_compute; reflexivity.
  - intros u i Hu. by rewrite (sparse_specials u i Hu).
Defined.

Lemma missing_byte_panics_witness : encode_text 4 toy_pick sparse_tokenizer [SPACE] true = Panic.
Proof.
  apply (missing_byte_panics 4 toy_pick sparse_file).
  - apply sparse_loads.
  - vm_compute; reflexivity.
  - vm_compute; discriminate.
  - unfold SPACE. lia.
  - vm_compute; reflexivity.
Defined.
